(* ===== verification/_CoqProject ===== *)
-Q . S2P
Prelude.v
Changeset.v
Transactional.v
Runtime.v
Overlay.v
OverlayProps.v
BagsList.v
BagsListProps.v
BagsListSpec.v
BagsListIter.v
BagsListMigrate.v
ForkTree.v
ForkTreeProps.v
ForkTreeFind.v
ForkTreeImport.v
ForkTreeFinalize.v
ForkTreeAncestors.v
ForkTreePrune.v
ForkTreeDescendent.v
ForkTreeSpec.v
System.v
Balances.v
Ledger.v
Transfers.v
Currencies.v
NamedReserves.v
Locking.v
Indices.v
Calls.v
BalancesProps.v
ReserveProps.v
IndicesOnBalances.v
Vesting.v
VestingProps.v
VestingOnBalances.v
Utf8.v
Offchain.v
IpfsPath.v
IpfsApi.v
UnixfsPb.v
FileAdder.v
FileAdderProps.v
FileVisit.v
FileVisitProps.v
UnixfsDir.v
Repo.v
RepoProps.v
Dag.v
Refs.v
Unixfs.v
UnixfsProps.v
DagProps.v
RefsProps.v
DirBuilder.v
DirBuilderProps.v
DirBuilderPaths.v
DirBuilderStore.v
UnixfsExamples.v
DagExamples.v
DirBuilderExamples.v
FreeingBump.v
FreeingBumpProps.v
IpfsCore.v
IpfsCoreProps.v
CommandQueue.v
Ipfs.v
Knowledge.v
Market.v
IpfsExamples.v
BigUint.v
BigUintProps.v
BigUintDiv.v
Arith128.v
Arith128Props.v
Rational.v
Normalize.v
PerThings.v
PerThingsProps.v
FixedPoint.v
FixedPointProps.v
