(* ===== verification/Prelude.v ===== *)
(** * A verification of the core of the substrate-ipfs node

    The program is [src/substrate-ipfs], a Substrate node whose runtime stores files through IPFS
    and keeps a registry of "knowledge" blocks on top.  This development models the core that
    every transaction of that runtime passes through, and the whole of the IPFS path that the
    fork adds to Substrate.  File names below are relative to [src/substrate-ipfs].

    ** The parts and how they interact

    - Storage.  A pallet's writes go to the overlay of the state machine, a stack of open
      transactions.  A dispatchable runs inside a storage layer: [Err] rolls the layer back.
    - Accounts.  [frame_system] keeps an account alive by reference counts and stores the
      balances' data in it.  [pallet_balances] is the ledger: transfers, reserves, named
      reserves, locks and imbalances.  [pallet_indices] takes deposits through the trait
      [ReservableCurrency] that the ledger implements, and [pallet_vesting] locks funds that are
      released block by block through the trait [LockableCurrency].  [pallet_bags_list] keeps accounts roughly in the
      order of their scores, in linked lists that live in storage.
    - Forks.  The consensus code of the node keeps what belongs to the blocks of competing branches in a tree, which
      finalized blocks prune.
    - Numbers.  Pallets and client compute with fractions of one, fixed-point numbers, rational numbers and big
      integers, all over a product of 128-bit numbers that is divided through 256 bits.
    - The runtime's heap.  The node gives the WebAssembly instance that runs the runtime a heap, with
      an allocator that lives outside of it and keeps its free lists inside.
    - IPFS.  A call of [pallet_tds_ipfs] or [pallet_knowledge] queues a command request on chain
      and indexes its data off chain, under a key of the block.  After the block each node runs
      the pallets' off-chain workers: a worker takes a request's lock in the local database,
      sends the commands to the IPFS engine through the node's API, and submits the responses
      in a callback transaction, which removes the request and deposits events.
    - The IPFS engine.  An upload is cut into chunks, the chunks become the leaves of a tree of
      blocks, and the blocks go to the repository under the hash of their bytes.  Reading resolves a
      path, through DNS names, directories and sharded directories, to the root of such a tree and
      walks it.  A tree of directories over files is built and rendered into blocks of its own.  Pins keep blocks from being removed, recursively over the references of a document.
    - Market.  [pallet_knowledge_market] lists knowledge blocks for sale, through a trait that
      [pallet_knowledge] implements.

    ** Files

    - [Prelude]: machine integers at their width, the state-and-error monad [M] the code is
      written in (outcomes [Ok], [Err] and [Panic]), its weakest preconditions and tactics.
    - [Changeset]: [primitives/state-machine/src/overlayed_changes/changeset.rs], all
      operations of [OverlayedMap] ([set], [modify_value], [clear_where], the transactions, the
      switches of the execution mode, [drain_commited]).
    - [Overlay]: the rest of [primitives/state-machine/src/overlayed_changes], [OverlayedChanges]: the change sets of
      the main storage, of the child storages and of the off-chain index under common transactions, and their
      draining into the changes of a block; [OverlayProps]: its theorems.
    - [Transactional]: [frame/support/src/storage/transactional.rs] over that overlay.
    - [Runtime]: the errors, events and storage items of the modelled pallets, as the record
      [Store], with the type parameters that [bin/node/runtime/src/lib.rs] gives.
    - [System]: the account side of [frame/system/src/lib.rs].
    - [Balances]: [frame/balances/src/lib.rs], one definition per function; [Calls]: its
      dispatchables and the transition system of the pallet.  [Ledger], [Transfers],
      [Currencies], [NamedReserves] and [Locking] hold the lemmas about them, by operation;
      [BalancesProps] and [ReserveProps] the theorems.
    - [Indices]: [frame/indices/src/lib.rs], against the class [ReservableLaws];
      [IndicesOnBalances]: the instance that [pallet_balances] gives.
    - [Vesting]: [frame/vesting/src/lib.rs] and [vesting_info.rs]; [VestingProps]: its theorems, against the class
      [LockableLaws]; [VestingOnBalances]: the instance that [pallet_balances] gives.
    - [BagsList]: [frame/bags-list/src/list/mod.rs] and [lib.rs], over the counted map of
      [frame/support/src/storage/types/counted_map.rs]; [BagsListProps]: what the linked nodes represent;
      [BagsListSpec]: the specification on plain lists; [BagsListIter]: iteration and thresholds;
      [BagsListMigrate]: changes of the thresholds.
    - [ForkTree]: [utils/fork-tree/src/lib.rs]; [ForkTreeProps]: iterators, depth and rebuilding; [ForkTreeFind]: well-formed
      trees and the search; [ForkTreeImport], [ForkTreeFinalize], [ForkTreeAncestors], [ForkTreePrune] and [ForkTreeDescendent]: the
      operations; [ForkTreeSpec]: the specification on sets of blocks.
    - Of [primitives/arithmetic/src]: [BigUint] ([biguint.rs]), with the value of limbs and the simple operations in
      [BigUintProps] and the division in [BigUintDiv]; [Arith128] ([helpers_128bit.rs]) with [Arith128Props]; [Rational]
      ([rational.rs]); [Normalize] (normalisation and thresholds of [lib.rs]); [PerThings] ([per_things.rs]) with
      [PerThingsProps]; [FixedPoint] ([fixed_point.rs]) with [FixedPointProps].
    - [FreeingBump]: [client/allocator/src/freeing_bump.rs]; [FreeingBumpProps]: its theorems.
    - [Utf8]: the validity check of [core::str::from_utf8].
    - [Offchain]: capabilities, the local database and its typed references, off-chain indexing,
      requests to the node, signing and submission ([primitives/core/src/offchain/mod.rs],
      [primitives/io/src/lib.rs], [primitives/runtime/src/offchain], [frame/system/src/offchain.rs],
      [client/offchain/src], [client/db/src/offchain.rs]).
    - [IpfsPath]: [utils/rust-ipfs/src/path.rs]; [IpfsApi]: [client/offchain/src/api/ipfs.rs], the
      API and its background task.
    - Of the engine, [utils/rust-ipfs]: [UnixfsPb], the messages of a block ([unixfs/src/pb.rs] and
      the two files of [unixfs/src/pb]); [FileAdder], the builder of a file's tree
      ([unixfs/src/file/adder.rs]), with its lemmas in [FileAdderProps]; [FileVisit], the reader and
      the walk ([unixfs/src/file/reader.rs], [visit.rs]), with [FileVisitProps]; [UnixfsDir], the lookup
      of names ([unixfs/src/dir.rs] and [dir]); [Repo], the blocks and pins in memory
      ([src/repo/mod.rs], [mem.rs]), with [RepoProps]; [Dag], paths and names ([src/dag.rs],
      [src/ipns], [unixfs/src/dagpb.rs]), with [DagProps]; [Refs], references and recursive pins
      ([src/refs.rs], and the pins of [src/lib.rs]), with [RefsProps]; [Unixfs], uploads and reads
      ([src/unixfs/add.rs], [cat.rs]), with [UnixfsProps]; [DirBuilder], the builder of directories
      ([unixfs/src/dir/builder.rs] and the files of [dir/builder]), with [DirBuilderProps] (its data and the
      reference rendering), [DirBuilderPaths] (what a sequence of calls puts into the tree) and
      [DirBuilderStore] (the blocks, in a repository); [UnixfsExamples], [DagExamples] and
      [DirBuilderExamples], a wire format, content hashes and stores on which these theorems are run.
    - [IpfsCore]: [frame/tds-ipfs-core/src]; [IpfsCoreProps]: its theorems.
    - [CommandQueue]: the code that [frame/tds-ipfs/src/lib.rs] and [frame/knowledge/src/lib.rs]
      share; [Ipfs], [Knowledge] and [Market]: the three pallets; [IpfsExamples]: a concrete codec,
      engine and node, on which the theorems of the IPFS files are run.

    ** Correspondence

    A function of a pallet that reads or writes storage is a computation of [Run], the monad [M]
    over [Store] and [DispatchError]; a [Result] is [Ok] or [Err], and [expect], [unwrap],
    [assert!] and [panic!] are [Panic].  Writes made before an [Err] stay in the store, as in the
    code; the storage layer around a dispatchable undoes them ([dispatch] in [Runtime],
    justified on the overlay by [Transactional]).  Dropping a value with a [Drop] implementation
    (an imbalance, a dust cleaner, a storage lock) is an explicit step, in the order Rust drops.
    Plain [+] and [-] on balances wrap as in a release build, and theorems state when they
    do not.  Worker code is a computation of [OCW], over the store, the host and the pool of
    submitted transactions.  The arithmetic is pure: a function that can panic, or that has a loop, is in the
    [option] monad, the types that its macros are called with are records of their widths and
    constants, and operations wrap at the width.  Code of the engine passes the repository along; a stream is the list of
    the items it yields with the way it ends.

    ** What the theorems show

    - The overlay implements a stack of snapshots of a finite map, for every sequence of writes and
      transactions (a simulation); closing, rolling back and draining do what they say; a storage
      layer that fails leaves no trace, one that succeeds keeps every write, and the depth
      is limited.  The whole overlay implements one such stack for each of its parts, all under the same transactions, never
      reaches one of its [expect]s, and drains exactly the final values.
    - Over all reachable states of the ledger the total issuance is the sum of all balances,
      and every account is empty or holds the existential deposit.  Each operation is specified on all of its branches:
      transfer, transfer of everything, withdraw, slash, reserve, repatriate.  Sorted lists of named
      reserves and lists of locks implement finite maps, and a lock holds against transfers.
    - Reference counts never leave their range and an account with consumers keeps a provider;
      deposits recorded by [pallet_indices] are always held by the ledger.
    - A vesting schedule releases its funds linearly and ends when it says; through all calls, uses of the trait and
      blocks the lock of an account is at least what its schedules have not released, so that a transfer
      leaves that much; a vested transfer happens in full or not at all; merging releases nothing.
    - The linked nodes of the bags list implement plain lists for all sequences of operations; the iteration yields every account
      once, in the order of the bags, can be resumed anywhere, and the checks of [try_state] hold; a migration puts every
      account into the bag of its score.
    - The fork tree implements a set of blocks: whatever the arrangement, an import refuses exactly the blocks that are held or not above the
      last finalized one, a finalization leaves exactly the descendents of its block, a search finds the deepest
      ancestor.  Pruning and filtering lose no node, rebuilding the tree level by level is the recursion over it, and a
      tree that is kept in the order of its depth stays so.
    - Arithmetic on limbs is exact, with the documented numbers of limbs, and the division is Knuth's with its
      correction; a product divided by a number is exact to the rounding or does not fit; the greatest common divisor and the square root are the
      mathematical ones; rational numbers are ordered as numbers and their sums are exact.  Normalising a vector ends,
      reaches the sum and moves the elements in one direction.  A fraction of one multiplies a number without
      overflow, exactly to the rounding; made from a rational number it is within four parts of it; its
      arithmetic stays between zero and one.  Fixed-point products and quotients are exact to every signed rounding.
    - The chunks that the allocator hands out never overlap, are aligned and inside the memory, over all sequences of
      calls, those that fail included; they can be returned until a call fails, which poisons the allocator, and are
      reused once they are returned; an allocation fails only for the stated reasons.
    - On the IPFS side: the API and the background task never disagree about the requests in flight;
      under every interleaving of workers at most one block's workers hold a request's lock; a
      request is processed once; each command ends as the pallet's comparison of the response says;
      the bytes given to [add_bytes] are what the engine is asked to upload, and its answer reaches the
      callback of the request; a callback completes one request; paths print and parse back.
    - In the engine: a message reads back as it was written, and reading ends on any bytes.  A file that is uploaded in any buffers reads back, whole or in a
      range, also from the API's responses and through directories, plain or sharded; a lookup finds a
      name exactly when one link has it.  The walk over references reports, with
      every option, the documents within its depth level by level, and ends; a recursive pin protects all that a document reaches,
      and can be taken back; after any
      sequence of pin operations the pins agree with their documents; a clean-up removes
      exactly the blocks that are not pinned.  Calls of the directory builder refine edits of a map from paths to
      files; the blocks it yields are the post-order rendering of the tree, in the bytes of the ordinary writer,
      and once they are stored every file that was put reads back under its path.  Names resolve in a bounded number of steps, and a
      reported segment is one of the path.
    - Some theorems record what the code does where this is not what it means to do: lost records
      and panics of [pallet_knowledge], a capability mask that overlaps others, slashes that
      reduce the issuance without taking anything, subtractions that wrap; a vesting genesis whose second entry for
      an account replaces the lock of the first; an allocator whose bumper wraps around; a migration of bags that loses
      accounts; a fork tree that loses its nodes when the client fails; fixed-point numbers whose [floor] and [round] are wrong on
      some negative numbers; fractions that are rounded up where they should be rounded down; an upload of exactly one
      chunk that is reported as failed, roots that ignore the requested CID version, pinned blocks that a
      clean-up removes, lookups that panic on a name or on empty data.

    ** Parameters

    Code that is not in the repository is a class with the laws the code relies on, instantiated
    concretely where a theorem assumes them: [parity-scale-codec] ([Codec], [CodecLaws]), the
    types of [libp2p] and [cid] ([RustIpfs], [RustIpfsLaws]), [blake2_256] and the randomness source ([Hashing]), the
    iteration order of a hashed storage map ([StorageOrder], [StorageOrderLaws]), the handler of
    balances' dust ([BalancesConfig], [BalancesLaws]).  The constants of [pallet_vesting] are the class [VestingConfig], those of
    [pallet_bags_list] are [BagsConfig] with [BagsLaws], and the score provider is an argument.  The closure that tells the fork tree which blocks descend from which is
    an argument that can fail; a chain of blocks that it reports is [Chain] with [ChainLaws].  [Host] and [HostLaws] are the interface
    between workers and node, and [IpfsApi] gives the node's instance.  What the IPFS engine answers from
    the network is an argument ([Engine]); its files are those of a repository ([with_files]).  In the engine the
    parameters are [quick_protobuf] ([Wire], [WireLaws]), the hash and the CIDs ([ContentHash],
    [ContentHashLaws]; the layout of a CID's bytes that the directory builder writes piece by piece is [CidLayout]), the store of blocks ([BlockStore], [BlockStoreLaws], of which [MemBlockStore] is the
    instance in memory), what peers send ([Swarm]), and decoding to IPLD and DNS records ([Outside]).  For the overlay, the backend that computes
    the root of the storage and the codec of the extrinsic's index are [OverlayEnv].

    ** Bounds and fuel

    In the runtime and the API recursion is structural but for two loops.  [binary_search_loop] has the length of the list plus
    one as fuel, and halves its interval at each turn: the refinement theorems of named reserves
    show the result for every list.  [rollback_open] has the number of open transactions, and closes
    one at each turn.  The loop of [worker_poll] counts down from the number of
    requests, as the code does.  The wait loop for IPFS responses recurses on the list of wake-ups that the
    node receives while it waits, which is an input of the model.

    The iteration over a bag takes the number of nodes as fuel, and the loops over the fork tree the number of
    its nodes, twice for the search; running out of it is [Panic], and the refinement theorems show that it does not occur.

    In the arithmetic the loop of [gcd] has 257 turns, one for each bit and one more, the division of 256 bits 132, since the high half is halved
    until it is one and takes two more, the square root and the power of a fraction 64, and the correction of an estimated limb three; the
    theorems show these to be enough.  [normalize] has no bound in the code and takes fuel: the difference of the sums times
    the number of elements is enough.

    In the engine a reader of messages takes the length of the bytes as fuel, and every turn consumes
    one: [readers_terminate] shows that it is never used up.  The loop over the levels of a tree takes the
    depth and the number of the links, which the lemmas on [flush_links] show to be enough from a
    branching factor of two on.  The loops of [cat], [resolve], [resolve_hamt], the names and the references have no bound
    in the code: they take fuel, an exhausted fuel is a result of its own, and the theorems give an amount
    that is enough.

    ** Not modelled

    The networking, consensus, database, RPC and CLI crates of [client] are not modelled: they are asynchronous code around
    sockets, threads and files, most of it in libraries outside of the repository.  Nor are
    the pallets that the IPFS path does not use, the front ends, weights and benchmarks.  Of the engine in
    [utils/rust-ipfs], the exchange of blocks with peers, publish-subscribe, the stores on disk and
    the walker over whole trees are not modelled.  The floating-point conversions and the printing
    of [primitives/arithmetic] are left out.  The HTTP side of the off-chain API and the graph of the transaction pool are
    sequential code that could be modelled in the same way and are left out. *)
From stdpp Require Export base gmap list fin_maps fin_sets strings sorting.
From Stdlib Require Export ZArith Lia.

#[global] Open Scope Z_scope.

(** ** Machine integers

    Rust's unsigned integers are kept as [Z] at their width: the widths used by the
    modelled code are [u32] (reference counts, block numbers, lengths) and [u128]
    (balances).  Plain [+] and [-] of a release build wrap around. *)

Definition umax (w : Z) : Z := 2 ^ w - 1.
Definition u32_max : Z := umax 32.
Definition u128_max : Z := umax 128.

Definition is_u (w x : Z) : Prop := 0 <= x <= umax w.
Abbreviation is_u32 := (is_u 32).
Abbreviation is_u128 := (is_u 128).

Definition wrapping_add (w x y : Z) : Z := (x + y) mod 2 ^ w.
Definition wrapping_sub (w x y : Z) : Z := (x - y) mod 2 ^ w.
Definition checked_add (w x y : Z) : option Z := if x + y <=? umax w then Some (x + y) else None.
Definition checked_sub (x y : Z) : option Z := if y <=? x then Some (x - y) else None.
Definition saturating_add (w x y : Z) : Z := Z.min (x + y) (umax w).
Definition saturating_sub (x y : Z) : Z := Z.max (x - y) 0.

(** Plain [+] and [-] on balances. *)
Declare Scope rust_scope.
Delimit Scope rust_scope with rust.
Infix "⊕" := (wrapping_add 128) (at level 50, left associativity) : rust_scope.
Infix "⊖" := (wrapping_sub 128) (at level 50, left associativity) : rust_scope.
#[global] Open Scope rust_scope.

Lemma u128_max_pos : 0 < u128_max.
Proof. reflexivity. Qed.

Lemma u32_max_pos : 0 < u32_max.
Proof. reflexivity. Qed.

Lemma wrapping_add_id w x y : 0 < w → 0 <= x + y <= umax w → wrapping_add w x y = x + y.
Proof. intros Hw H. unfold wrapping_add, umax in *. apply Z.mod_small. lia. Qed.

Lemma wrapping_sub_id w x y : 0 < w → 0 <= x - y <= umax w → wrapping_sub w x y = x - y.
Proof. intros Hw H. unfold wrapping_sub, umax in *. apply Z.mod_small. lia. Qed.

Lemma checked_add_Some w x y z : checked_add w x y = Some z ↔ z = x + y ∧ x + y <= umax w.
Proof. unfold checked_add. destruct (Z.leb_spec (x + y) (umax w)); split; intros; simplify_eq; naive_solver lia. Qed.

Lemma checked_add_None w x y : checked_add w x y = None ↔ umax w < x + y.
Proof. unfold checked_add. destruct (Z.leb_spec (x + y) (umax w)); split; intros; simplify_eq; naive_solver lia. Qed.

Lemma checked_sub_Some x y z : checked_sub x y = Some z ↔ z = x - y ∧ y <= x.
Proof. unfold checked_sub. destruct (Z.leb_spec y x); split; intros; simplify_eq; naive_solver lia. Qed.

Lemma checked_sub_None x y : checked_sub x y = None ↔ x < y.
Proof. unfold checked_sub. destruct (Z.leb_spec y x); split; intros; simplify_eq; naive_solver lia. Qed.

Lemma saturating_add_id w x y : x + y <= umax w → saturating_add w x y = x + y.
Proof. unfold saturating_add. lia. Qed.

Lemma saturating_sub_id x y : y <= x → saturating_sub x y = x - y.
Proof. unfold saturating_sub. lia. Qed.

(** Turn boolean and checked-arithmetic facts of the context into propositions. *)
Ltac prop_step :=
  match goal with
  | H : (_ <? _) = true |- _ => apply Z.ltb_lt in H
  | H : (_ <? _) = false |- _ => apply Z.ltb_ge in H
  | H : (_ <=? _) = true |- _ => apply Z.leb_le in H
  | H : (_ <=? _) = false |- _ => apply Z.leb_gt in H
  | H : (_ =? _) = true |- _ => apply Z.eqb_eq in H
  | H : (_ =? _) = false |- _ => apply Z.eqb_neq in H
  | H : _ && _ = true |- _ => apply andb_true_iff in H as [? ?]
  | H : _ && _ = false |- _ => apply andb_false_iff in H as [?|?]
  | H : _ || _ = true |- _ => apply orb_true_iff in H as [?|?]
  | H : _ || _ = false |- _ => apply orb_false_iff in H as [? ?]
  | H : negb _ = true |- _ => apply negb_true_iff in H
  | H : negb _ = false |- _ => apply negb_false_iff in H
  | H : bool_decide _ = true |- _ => apply bool_decide_eq_true in H
  | H : bool_decide _ = false |- _ => apply bool_decide_eq_false in H
  | H : checked_add _ _ _ = Some _ |- _ => apply checked_add_Some in H as [? ?]
  | H : checked_add _ _ _ = None |- _ => apply checked_add_None in H
  | H : checked_sub _ _ = Some _ |- _ => apply checked_sub_Some in H as [? ?]
  | H : checked_sub _ _ = None |- _ => apply checked_sub_None in H
  end.
Ltac props := repeat prop_step.

(** Split the conditionals of the goal and close it by arithmetic. *)
Ltac split_if := match goal with |- context [if ?b then _ else _] => destruct b eqn:? end.
Ltac arith := unfold is_u, u128_max, u32_max in *; props; simplify_eq/=; try done; try lia; try congruence.
Ltac by_cases := repeat (split_if; props; simplify_eq/=); arith.

(** ** Lists and sets *)

Lemma size_list_to_set_le {A} `{Countable A} (l : list A) : (size (list_to_set l : gset A) <= length l)%nat.
Proof.
  induction l as [|x l IH]; [by rewrite list_to_set_nil, size_empty|]. rewrite list_to_set_cons. simpl.
  destruct (decide (x ∈ l)) as [Hin|Hout].
  - rewrite (subseteq_union_1_L {[x]} (list_to_set l)) by set_solver. lia.
  - rewrite size_union, size_singleton by set_solver. lia.
Qed.

(** A set as large as the list it was made from: the list has no duplicates. *)
Lemma size_list_to_set_NoDup {A} `{Countable A} (l : list A) : size (list_to_set l : gset A) = length l ↔ NoDup l.
Proof.
  split; [|apply size_list_to_set]. induction l as [|x l IH]; intros Hs; [constructor|]. rewrite list_to_set_cons in Hs. simpl in Hs.
  pose proof (size_list_to_set_le l). destruct (decide (x ∈ l)) as [Hin|Hout].
  - rewrite (subseteq_union_1_L {[x]} (list_to_set l)) in Hs by set_solver. lia.
  - rewrite size_union, size_singleton in Hs by set_solver. constructor; [done|]. apply IH. lia.
Qed.

(** [Vec::swap_remove]: the last element takes the place of the removed one; [None] is the panic
    of an index out of range. *)
Definition swap_remove {A} (i : nat) (l : list A) : option (A * list A) :=
  match l !! i, last l with
  | Some x, Some y => Some (x, take (length l - 1) (<[i := y]> l))
  | _, _ => None
  end.

Lemma swap_remove_app {A} (l1 l2 : list A) x :
  swap_remove (length l1) (l1 ++ x :: l2) =
  Some (x, l1 ++ match last l2 with Some y => y :: removelast l2 | None => [] end).
Proof.
  unfold swap_remove. rewrite list_lookup_middle by done. rewrite last_app, last_cons.
  destruct l2 as [|z l2] using rev_ind; simpl.
  - rewrite insert_app_r_alt by done. rewrite Nat.sub_diag, length_app. simpl.
    rewrite take_app_le by lia. rewrite take_ge by lia. by rewrite app_nil_r.
  - clear IHl2. rewrite last_snoc, removelast_last. rewrite insert_app_r_alt by done. rewrite Nat.sub_diag. simpl.
    f_equal. f_equal. rewrite length_app. simpl. rewrite length_app. simpl.
    replace (_ + S _ - 1)%nat with (length l1 + S (length l2))%nat by lia.
    rewrite take_app_add'. simpl. f_equal. f_equal. rewrite take_app_le by lia. by rewrite take_ge.
    done.
Qed.

Lemma swap_remove_Permutation {A} (l1 l2 : list A) :
  l1 ++ match last l2 with Some y => y :: removelast l2 | None => [] end ≡ₚ l1 ++ l2.
Proof.
  f_equiv. destruct l2 as [|z l2] using rev_ind; [done|]. rewrite last_snoc, removelast_last.
  by rewrite Permutation_cons_append.
Qed.

(** ** Sums over finite maps *)

Section MapSum.
  Context {K V : Type} `{Countable K} (f : V → Z).

Definition map_sum (m : gmap K V) : Z := map_fold (λ _ v acc, f v + acc) 0 m.

Lemma map_sum_empty : map_sum ∅ = 0.
Proof. done. Qed.

Lemma map_sum_split (m : gmap K V) k : map_sum m = from_option f 0 (m !! k) + map_sum (delete k m).
Proof.
  unfold map_sum. destruct (m !! k) as [v|] eqn:Hk; simpl.
  - rewrite (map_fold_delete_L _ _ k v m); [done| |done]. intros. lia.
  - by rewrite delete_id.
Qed.

(** Two maps that agree off [k] differ by their values at [k]. *)
Lemma map_sum_update (m m' : gmap K V) k :
  (∀ j, j ≠ k → m' !! j = m !! j) →
  map_sum m' = map_sum m - from_option f 0 (m !! k) + from_option f 0 (m' !! k).
Proof.
  intros Hm. rewrite (map_sum_split m k), (map_sum_split m' k).
  assert (delete k m' = delete k m) as ->; [|lia].
  apply map_eq. intros j. destruct (decide (j = k)) as [->|Hne].
  - by rewrite !lookup_delete_eq.
  - by rewrite !lookup_delete_ne, Hm.
Qed.

Lemma map_sum_nonneg (m : gmap K V) : (∀ k v, m !! k = Some v → 0 <= f v) → 0 <= map_sum m.
Proof.
  intros Hf. unfold map_sum. apply (map_fold_weak_ind (λ r m', (∀ k v, m' !! k = Some v → 0 <= f v) → 0 <= r)); [lia| |done].
  intros k v m' r Hk IH Hm'. pose proof (Hm' k v (lookup_insert_eq _ _ _)).
  assert (0 <= r); [|lia]. apply IH. intros j w Hj. apply (Hm' j w). rewrite lookup_insert_ne; [done|congruence].
Qed.

(** Each value is at most the sum. *)
Lemma map_sum_ge (m : gmap K V) k :
  (∀ k v, m !! k = Some v → 0 <= f v) → from_option f 0 (m !! k) <= map_sum m.
Proof.
  intros Hf. rewrite (map_sum_split m k). assert (0 <= map_sum (delete k m)); [|lia].
  apply map_sum_nonneg. intros j v [_ Hj]%lookup_delete_Some. by apply (Hf j).
Qed.

Lemma map_sum_ge2 (m : gmap K V) j k :
  (∀ k v, m !! k = Some v → 0 <= f v) → j ≠ k → from_option f 0 (m !! j) + from_option f 0 (m !! k) <= map_sum m.
Proof.
  intros Hf Hne. rewrite (map_sum_split m j).
  assert (from_option f 0 (delete j m !! k) <= map_sum (delete j m)) as Hle.
  { apply map_sum_ge. intros i v [_ Hi]%lookup_delete_Some. by apply (Hf i). }
  rewrite lookup_delete_ne in Hle by done. lia.
Qed.

End MapSum.

(** ** Outcomes

    A Rust function that returns [Result<A, E>] ends in one of three ways: [Ok], [Err] or
    a panic ([unwrap] or [expect] on the wrong variant, a failed [assert!]). *)

Inductive outcome (E A : Type) : Type :=
| Ok (a : A)
| Err (e : E)
| Panic.
Arguments Ok {E A} a.
Arguments Err {E A} e.
Arguments Panic {E A}.

(** A computation over a store [S].  Storage writes made before an [Err] are *kept*: only
    an enclosing storage layer discards them. *)
Definition M (S E A : Type) : Type := S → outcome E A * S.

Section Monad.
  Context {S E : Type}.

Definition ret {A} (a : A) : M S E A := λ s, (Ok a, s).
Definition throw {A} (e : E) : M S E A := λ s, (Err e, s).
Definition panic {A} : M S E A := λ s, (Panic, s).
Definition bind {A B} (m : M S E A) (k : A → M S E B) : M S E B := λ s,
  match m s with
  | (Ok a, s') => k a s'
  | (Err e, s') => (Err e, s')
  | (Panic, s') => (Panic, s')
  end.
Definition gets {A} (f : S → A) : M S E A := λ s, (Ok (f s), s).
Definition modify (f : S → S) : M S E unit := λ s, (Ok tt, f s).
(** [ensure!(b, e)] *)
Definition ensure (b : bool) (e : E) : M S E unit := if b then ret tt else throw e.
(** [opt.ok_or(e)?] *)
Definition ok_or {A} (o : option A) (e : E) : M S E A := match o with Some a => ret a | None => throw e end.
(** [opt.unwrap()] *)
Definition unwrap {A} (o : option A) : M S E A := match o with Some a => ret a | None => panic end.
(** Inspecting a [Result] as a value ([match r { Ok(..) => .., Err(..) => .. }]); panics
    are not caught. *)
Definition attempt {E' A} (m : M S E A) : M S E' (A + E) := λ s,
  match m s with
  | (Ok a, s') => (Ok (inl a), s')
  | (Err e, s') => (Ok (inr e), s')
  | (Panic, s') => (Panic, s')
  end.

End Monad.

Notation "'let!' x := m 'in' k" := (bind m (λ x, k))
  (at level 10, x name, m at level 100, k at level 200,
   format "'[v' 'let!'  x  :=  m  'in' '/' k ']'") : rust_scope.
Notation "'let!' ' p := m 'in' k" := (bind m (λ x, match x with p => k end))
  (at level 10, p strict pattern, m at level 100, k at level 200) : rust_scope.
Notation "'do!' m 'in' k" := (bind m (λ _, k))
  (at level 10, m at level 100, k at level 200,
   format "'[v' 'do!'  m  'in' '/' k ']'") : rust_scope.

Section MonadLemmas.
  Context {S E : Type}.

Lemma bind_Ok {A B} (m : M S E A) (k : A → M S E B) s b s' :
  bind m k s = (Ok b, s') ↔ ∃ a s1, m s = (Ok a, s1) ∧ k a s1 = (Ok b, s').
Proof. unfold bind. destruct (m s) as [[a|e|] s1]; naive_solver. Qed.

Lemma bind_Err {A B} (m : M S E A) (k : A → M S E B) s e s' :
  bind m k s = (Err e, s') ↔
  m s = (Err e, s') ∨ ∃ a s1, m s = (Ok a, s1) ∧ k a s1 = (Err e, s').
Proof. unfold bind. destruct (m s) as [[a|e'|] s1]; naive_solver. Qed.

Lemma bind_assoc {A B C} (m : M S E A) (k : A → M S E B) (h : B → M S E C) s :
  bind (bind m k) h s = bind m (λ a, bind (k a) h) s.
Proof. unfold bind. destruct (m s) as [[a|e'|] s1]; done. Qed.

Lemma bind_run {A B} (m : M S E A) (k : A → M S E B) s a s' : m s = (Ok a, s') → bind m k s = k a s'.
Proof. unfold bind. by intros ->. Qed.

Lemma bind_ret_l {A B} (a : A) (k : A → M S E B) s : bind (ret a) k s = k a s.
Proof. done. Qed.

End MonadLemmas.

(** ** Weakest preconditions

    [wp m Q s] says that running [m] from [s] ends, however it ends, in an outcome and a store
    that satisfy [Q]. *)

Create HintDb wp.

Section WP.
  Context {S E : Type}.

Definition wp {A} (m : M S E A) (Q : outcome E A → S → Prop) (s : S) : Prop := Q (m s).1 (m s).2.

Lemma wp_run {A} (m : M S E A) Q s r s' : wp m Q s → m s = (r, s') → Q r s'.
Proof. unfold wp. intros H Hr. by rewrite Hr in H. Qed.

Lemma run_wp {A} (m : M S E A) Q s : (∀ r s', m s = (r, s') → Q r s') → wp m Q s.
Proof. unfold wp. intros H. apply H. by destruct (m s). Qed.

Lemma wp_mono {A} (m : M S E A) (P Q : outcome E A → S → Prop) s :
  wp m P s → (∀ r s', P r s' → Q r s') → wp m Q s.
Proof. unfold wp. auto. Qed.

Lemma wp_bind {A B} (m : M S E A) (k : A → M S E B) Q s :
  wp m (λ r s', match r with Ok a => wp (k a) Q s' | Err e => Q (Err e) s' | Panic => Q Panic s' end) s →
  wp (bind m k) Q s.
Proof. unfold wp, bind. by destruct (m s) as [[a|e|] s1]. Qed.

Lemma wp_ret {A} (a : A) (Q : outcome E A → S → Prop) s : Q (Ok a) s → wp (ret a) Q s.
Proof. done. Qed.

Lemma wp_throw {A} e (Q : outcome E A → S → Prop) s : Q (Err e) s → wp (throw e) Q s.
Proof. done. Qed.

Lemma wp_gets {A} (f : S → A) (Q : outcome E A → S → Prop) s : Q (Ok (f s)) s → wp (gets f) Q s.
Proof. done. Qed.

Lemma wp_modify (f : S → S) (Q : outcome E unit → S → Prop) s : Q (Ok tt) (f s) → wp (modify f) Q s.
Proof. done. Qed.

Lemma wp_ensure b e (Q : outcome E unit → S → Prop) s :
  (b = true → Q (Ok tt) s) → (b = false → Q (Err e) s) → wp (ensure b e) Q s.
Proof. unfold wp. destruct b; simpl; auto. Qed.

Lemma wp_ok_or {A} (o : option A) e (Q : outcome E A → S → Prop) s :
  (∀ a, o = Some a → Q (Ok a) s) → (o = None → Q (Err e) s) → wp (ok_or o e) Q s.
Proof. unfold wp. destruct o; simpl; auto. Qed.

End WP.

Lemma wp_attempt {S E E' A} (m : M S E A) (Q : outcome E' (A + E) → S → Prop) s :
  wp m (λ r s', match r with Ok a => Q (Ok (inl a)) s' | Err e => Q (Ok (inr e)) s' | Panic => Q Panic s' end) s →
  wp (attempt (E' := E') m) Q s.
Proof. unfold wp, attempt. by destruct (m s) as [[a|e|] s1]. Qed.

(** One step of a weakest-precondition goal, for the primitives of the monad. *)
Ltac wp_step :=
  lazymatch goal with
  | |- wp (bind _ _) _ _ => apply wp_bind
  | |- wp (ret _) _ _ => apply wp_ret
  | |- wp (throw _) _ _ => apply wp_throw
  | |- wp (gets _) _ _ => apply wp_gets
  | |- wp (modify _) _ _ => apply wp_modify
  | |- wp (attempt _) _ _ => apply wp_attempt
  | |- wp (ensure _ _) _ _ => apply wp_ensure; intros ?
  | |- wp (ok_or _ _) _ _ => apply wp_ok_or; [intros ? ?|intros ?]
  end.
Ltac wp_steps := repeat (wp_step; cbn beta iota).

(** A goal about the end of the run [H : m s = (r, s')] becomes a weakest precondition of [m]. *)
Ltac wp_of H :=
  lazymatch type of H with
  | _ = (?r, ?s') => pattern r, s'; refine (wp_run _ _ _ _ _ _ H); clear H; cbn beta
  end.

#[export] Hint Resolve wp_ret wp_throw wp_gets wp_modify : wp.
