(* ===== verification/Changeset.v ===== *)
(** The transactional storage overlay
    ([primitives/state-machine/src/overlayed_changes/changeset.rs]).

    [OverlayedMap] keeps, per key, one version of the value for every open transaction that
    wrote it, and per open transaction the set of keys it wrote.  The file models every
    operation of the change set, states the invariant that makes its [expect]s unreachable
    and proves that it implements the obvious specification: a stack of snapshots of a
    finite map. *)

From S2P Require Import Prelude.

(** ** Data *)

(** Extrinsic indices in the order they were recorded; the head is the *last* element of the
    source's vector. *)
Abbreviation Extrinsics := (list Z).

Inductive ExecutionMode := Client | Runtime.
Inductive TxError := NoOpenTransaction | AlreadyInRuntime | NotInRuntime.

#[global] Instance ExecutionMode_eq_dec : EqDecision ExecutionMode.
Proof. solve_decision. Defined.

Record InnerValue (V : Type) := mkInner { value : V; extrinsics : Extrinsics }.
Arguments mkInner {V} value extrinsics.
Arguments value {V} _.
Arguments extrinsics {V} _.

(** All versions of one value; the head of the list is the most recent version, the last
    element of the source's [SmallVec]. *)
Abbreviation OverlayedEntry V := (list (InnerValue V)).

(** [dirty_keys] is the stack of dirty key sets, innermost transaction first. *)
Record OverlayedMap (K V : Type) `{Countable K} := mkOverlay {
  changes : gmap K (OverlayedEntry V);
  dirty_keys : list (gset K);
  num_client_transactions : nat;
  execution_mode : ExecutionMode }.
Arguments mkOverlay {K V _ _} changes dirty_keys num_client_transactions execution_mode.
Arguments changes {K V _ _} _.
Arguments dirty_keys {K V _ _} _.
Arguments num_client_transactions {K V _ _} _.
Arguments execution_mode {K V _ _} _.

(** ** Operations *)

Section Ops.
  Context {K V : Type} `{Countable K}.
  Implicit Types (m : OverlayedMap K V) (e : OverlayedEntry V).

(** [Extrinsics::insert] and [Extrinsics::extend] *)
Definition ext_insert (x : Z) (l : Extrinsics) : Extrinsics :=
  if decide (head l = Some x) then l else x :: l.
Definition ext_extend (l other : Extrinsics) : Extrinsics := other ++ l.

Definition overlay_default : OverlayedMap K V := mkOverlay ∅ [] 0 Client.

(** [OverlayedEntry::value_ref]; [None] is the [expect] failing. *)
Definition value_ref e : option V := value <$> head e.

(** [OverlayedEntry::set] *)
Definition entry_set e (v : V) (first_write_in_tx : bool) (at_extrinsic : option Z) : OverlayedEntry V :=
  let e' :=
    match e with
    | x :: r => if first_write_in_tx then mkInner v [] :: x :: r else mkInner v (extrinsics x) :: r
    | [] => [mkInner v []]
    end in
  match at_extrinsic, e' with
  | Some x, i :: r => mkInner (value i) (ext_insert x (extrinsics i)) :: r
  | _, _ => e'
  end.

(** [insert_dirty] *)
Definition insert_dirty (ds : list (gset K)) (k : K) : bool * list (gset K) :=
  match ds with
  | [] => (false, [])
  | d :: r => (negb (bool_decide (k ∈ d)), ({[k]} ∪ d) :: r)
  end.

Definition transaction_depth m : nat := length (dirty_keys m).

Definition has_open_runtime_transactions m : bool :=
  bool_decide (num_client_transactions m < transaction_depth m)%nat.

(** [OverlayedMap::spawn_child] *)
Definition spawn_child m : OverlayedMap K V :=
  mkOverlay ∅ (replicate (transaction_depth m) ∅) (num_client_transactions m) (execution_mode m).

Definition is_empty m : bool := bool_decide (changes m = ∅).

(** [OverlayedMap::get] *)
Definition get m (k : K) : option (OverlayedEntry V) := changes m !! k.

(** [OverlayedMap::set] *)
Definition set (k : K) (v : V) (at_extrinsic : option Z) m : OverlayedMap K V :=
  let overlayed := default [] (changes m !! k) in
  let '(first_write, ds) := insert_dirty (dirty_keys m) k in
  mkOverlay (<[k := entry_set overlayed v first_write at_extrinsic]> (changes m)) ds
            (num_client_transactions m) (execution_mode m).

Definition start_transaction m : OverlayedMap K V :=
  mkOverlay (changes m) (∅ :: dirty_keys m) (num_client_transactions m) (execution_mode m).

(** One iteration of the loop of [close_transaction] for the dirty key [k]; [None] is one
    of the [expect]s failing. *)
Definition close_key (rollback : bool) (k : K) (st : gmap K (OverlayedEntry V) * list (gset K))
    : option (gmap K (OverlayedEntry V) * list (gset K)) :=
  let '(ch, ds) := st in
  match ch !! k with
  | None => None
  | Some overlayed =>
    if rollback then
      match overlayed with
      | [] => None
      | _ :: r => Some (match r with [] => delete k ch | _ => <[k := r]> ch end, ds)
      end
    else
      let '(has_predecessor, ds') :=
        match ds with
        | d :: r => (bool_decide (k ∈ d), ({[k]} ∪ d) :: r)
        | [] => (bool_decide (1 < length overlayed)%nat, [])
        end in
      if has_predecessor then
        match overlayed with
        | dropped :: i :: r =>
          Some (<[k := mkInner (value dropped) (ext_extend (extrinsics i) (extrinsics dropped)) :: r]> ch, ds')
        | _ => None
        end
      else Some (ch, ds')
  end.

Fixpoint close_keys (rollback : bool) (ks : list K) (st : gmap K (OverlayedEntry V) * list (gset K))
    : option (gmap K (OverlayedEntry V) * list (gset K)) :=
  match ks with
  | [] => Some st
  | k :: ks' => match close_key rollback k st with Some st' => close_keys rollback ks' st' | None => None end
  end.

(** [OverlayedMap::close_transaction] *)
Definition close_transaction (rollback : bool) m : outcome TxError (OverlayedMap K V) :=
  if decide (execution_mode m = Runtime ∧ has_open_runtime_transactions m = false) then Err NoOpenTransaction
  else match dirty_keys m with
  | [] => Err NoOpenTransaction
  | d :: ds =>
    match close_keys rollback (elements d) (changes m, ds) with
    | Some (ch, ds') => Ok (mkOverlay ch ds' (num_client_transactions m) (execution_mode m))
    | None => Panic
    end
  end.

Definition rollback_transaction m := close_transaction true m.
Definition commit_transaction m := close_transaction false m.

(** [OverlayedMap::enter_runtime] *)
Definition enter_runtime m : outcome TxError (OverlayedMap K V) :=
  match execution_mode m with
  | Runtime => Err AlreadyInRuntime
  | Client => Ok (mkOverlay (changes m) (dirty_keys m) (transaction_depth m) Runtime)
  end.

(** The [while] loop of [exit_runtime]; every iteration closes one transaction, so the
    transaction depth is enough fuel. *)
Fixpoint rollback_open (fuel : nat) m : outcome TxError (OverlayedMap K V) :=
  if has_open_runtime_transactions m then
    match fuel with
    | O => Panic
    | S n => match rollback_transaction m with Ok m' => rollback_open n m' | _ => Panic end
    end
  else Ok m.

(** [OverlayedMap::exit_runtime] *)
Definition exit_runtime m : outcome TxError (OverlayedMap K V) :=
  match execution_mode m with
  | Client => Err NotInRuntime
  | Runtime =>
    rollback_open (transaction_depth m)
      (mkOverlay (changes m) (dirty_keys m) (num_client_transactions m) Client)
  end.

(** [OverlayedMap::drain_commited] *)
Definition drain_commited m : outcome TxError (gmap K V) :=
  if decide (transaction_depth m = 0%nat) then
    if decide (map_Forall (λ _ e, e ≠ []) (changes m)) then Ok (omap value_ref (changes m)) else Panic
  else Panic.

End Ops.

(** [OverlayedChangeSet::modify]: the version the returned reference points to is the head
    of the entry, which [f], the caller's mutation, updates. *)
Definition modify_value {K V : Type} `{Countable K} (k : K) (init : V) (at_extrinsic : option Z)
    (f : option V → option V) (m : OverlayedMap K (option V)) : OverlayedMap K (option V) :=
  let overlayed := default [] (changes m !! k) in
  let '(first_write, ds) := insert_dirty (dirty_keys m) k in
  let clone_into_new_tx :=
    match overlayed with
    | tx :: _ => if first_write then Some (value tx) else None
    | [] => Some (Some init)
    end in
  let overlayed' :=
    match clone_into_new_tx with
    | Some cloned => entry_set overlayed cloned first_write at_extrinsic
    | None => overlayed
    end in
  let written := match overlayed' with i :: r => mkInner (f (value i)) (extrinsics i) :: r | [] => [] end in
  mkOverlay (<[k := written]> (changes m)) ds (num_client_transactions m) (execution_mode m).

(** [OverlayedChangeSet::clear_where]: the loop body for one key, and the loop over the keys
    of the map that match the predicate. *)
Definition clear_key {K V : Type} `{Countable K} (at_extrinsic : option Z)
    (st : Z * OverlayedMap K (option V)) (k : K) : Z * OverlayedMap K (option V) :=
  let '(count, m) := st in
  let is_some := match value_ref (default [] (changes m !! k)) with Some (Some _) => 1 | _ => 0 end in
  (wrapping_add 32 count is_some, set k None at_extrinsic m).

Definition clear_where {K V : Type} `{Countable K} (p : K → OverlayedEntry (option V) → bool)
    (at_extrinsic : option Z) (m : OverlayedMap K (option V)) : Z * OverlayedMap K (option V) :=
  fold_left (clear_key at_extrinsic)
    (fst <$> filter (λ kv, p (fst kv) (snd kv) = true) (map_to_list (changes m))) (0, m).

(** ** Invariant *)

Section Invariant.
  Context {K V : Type} `{Countable K}.
  Implicit Types (m : OverlayedMap K V) (ds : list (gset K)) (e : OverlayedEntry V).

(** In how many of the dirty sets [ds] does [k] occur? *)
Definition dcount (k : K) ds : nat := length (filter (λ d, k ∈ d) ds).

(** An entry carries one version per transaction that wrote the key, plus at most one
    version written outside any transaction; and it never is empty. *)
Definition entry_wf (k : K) ds (o : option (OverlayedEntry V)) : Prop :=
  match o with
  | None => dcount k ds = 0%nat
  | Some e => e ≠ [] ∧ (dcount k ds ≤ length e ≤ S (dcount k ds))%nat
  end.

Definition map_wf ds (ch : gmap K (OverlayedEntry V)) : Prop := ∀ k, entry_wf k ds (ch !! k).

Definition overlay_wf m : Prop :=
  map_wf (dirty_keys m) (changes m) ∧
  (execution_mode m = Runtime → (num_client_transactions m ≤ transaction_depth m)%nat).

(** ** Specification: a stack of snapshots *)

(** What a reader sees once the [j] innermost transactions are rolled back. *)
Definition view_entry (k : K) ds (j : nat) e : option V := value <$> head (drop (dcount k (take j ds)) e).
Definition view_at ds (ch : gmap K (OverlayedEntry V)) (j : nat) : gmap K V :=
  map_imap (λ k e, view_entry k ds j e) ch.
Definition view m (j : nat) : gmap K V := view_at (dirty_keys m) (changes m) j.

End Invariant.

Record Snapshots (K V : Type) `{Countable K} := mkSnapshots {
  cur : gmap K V;
  saved : list (gmap K V);
  client_open : nat;
  mode : ExecutionMode }.
Arguments mkSnapshots {K V _ _} cur saved client_open mode.
Arguments cur {K V _ _} _.
Arguments saved {K V _ _} _.
Arguments client_open {K V _ _} _.
Arguments mode {K V _ _} _.

(** The operations a client of the overlay performs. *)
Inductive tx_op (K V : Type) :=
| OSet (k : K) (v : V) (at_extrinsic : option Z)
| OStart
| OClose (rollback : bool)
| OEnter
| OExit.
Arguments OSet {K V} k v at_extrinsic.
Arguments OStart {K V}.
Arguments OClose {K V} rollback.
Arguments OEnter {K V}.
Arguments OExit {K V}.

Section Spec.
  Context {K V : Type} `{Countable K}.
  Implicit Types (m : OverlayedMap K V) (a : Snapshots K V).

Definition abs m : Snapshots K V :=
  mkSnapshots (view m 0) ((λ j, view m (S j)) <$> seq 0 (transaction_depth m))
              (num_client_transactions m) (execution_mode m).

Definition spec_step (o : tx_op K V) a : outcome TxError (Snapshots K V) :=
  match o with
  | OSet k v _ => Ok (mkSnapshots (<[k := v]> (cur a)) (saved a) (client_open a) (mode a))
  | OStart => Ok (mkSnapshots (cur a) (cur a :: saved a) (client_open a) (mode a))
  | OClose rb =>
    if decide (mode a = Runtime ∧ (length (saved a) ≤ client_open a)%nat) then Err NoOpenTransaction
    else match saved a with
    | [] => Err NoOpenTransaction
    | s :: r => Ok (mkSnapshots (if rb then s else cur a) r (client_open a) (mode a))
    end
  | OEnter =>
    match mode a with
    | Runtime => Err AlreadyInRuntime
    | Client => Ok (mkSnapshots (cur a) (saved a) (length (saved a)) Runtime)
    end
  | OExit =>
    match mode a with
    | Client => Err NotInRuntime
    | Runtime =>
      (* every transaction the runtime left open is rolled back *)
      let d := (length (saved a) - client_open a)%nat in
      Ok (mkSnapshots (match d with O => cur a | S n => default (cur a) (saved a !! n) end)
                      (drop d (saved a)) (client_open a) Client)
    end
  end.

Definition impl_step (o : tx_op K V) m : outcome TxError (OverlayedMap K V) :=
  match o with
  | OSet k v x => Ok (set k v x m)
  | OStart => Ok (start_transaction m)
  | OClose rb => close_transaction rb m
  | OEnter => enter_runtime m
  | OExit => exit_runtime m
  end.

(** A run performs the operations in order; an operation that returns [Err] leaves the
    state as it is and the run goes on, a panic ends it. *)
Fixpoint run {Op St : Type} (step : Op → St → outcome TxError St) (os : list Op) (st : St)
    : option (list (option TxError) * St) :=
  match os with
  | [] => Some ([], st)
  | o :: os' =>
    match step o st with
    | Ok st' => match run step os' st' with Some (l, r) => Some (None :: l, r) | None => None end
    | Err x => match run step os' st with Some (l, r) => Some (Some x :: l, r) | None => None end
    | Panic => None
    end
  end.

End Spec.

(** ** Lemmas *)

Section Lemmas.
  Context {K V : Type} `{Countable K}.
  Implicit Types (m : OverlayedMap K V) (ds : list (gset K)) (e : OverlayedEntry V)
    (ch : gmap K (OverlayedEntry V)).

Lemma dcount_nil k : dcount k ([] : list (gset K)) = 0%nat.
Proof. done. Qed.

Lemma dcount_cons_in k d ds : k ∈ d → dcount k (d :: ds) = S (dcount k ds).
Proof. intros. unfold dcount. by rewrite filter_cons_True. Qed.

Lemma dcount_cons_notin k d ds : k ∉ d → dcount k (d :: ds) = dcount k ds.
Proof. intros. unfold dcount. by rewrite filter_cons_False. Qed.

Lemma dcount_cons_insert_ne k k' d ds : k ≠ k' → dcount k' (({[k]} ∪ d) :: ds) = dcount k' (d :: ds).
Proof.
  intros. destruct (decide (k' ∈ d)).
  - by rewrite !dcount_cons_in by set_solver.
  - by rewrite !dcount_cons_notin by set_solver.
Qed.

Lemma entry_set_shape e (v : V) b x :
  ∃ exts, entry_set e v b x = mkInner v exts :: (if b then e else tail e).
Proof. destruct e, b, x; simpl; eauto. Qed.

Lemma lookup_view_at ds ch j k : view_at ds ch j !! k = ch !! k ≫= view_entry k ds j.
Proof. unfold view_at. by rewrite map_lookup_imap. Qed.

Lemma view_entry_0 k ds e : view_entry k ds 0 e = value_ref e.
Proof. unfold view_entry. by rewrite take_0, dcount_nil, drop_0. Qed.

Lemma view_entry_S_in k d ds j e : k ∈ d → view_entry k (d :: ds) (S j) e = view_entry k ds j (tail e).
Proof.
  intros. unfold view_entry. simpl. rewrite dcount_cons_in by done.
  destruct e; simpl; [by rewrite drop_nil|done].
Qed.

Lemma view_entry_S_notin k d ds j e : k ∉ d → view_entry k (d :: ds) (S j) e = view_entry k ds j e.
Proof. intros. unfold view_entry. simpl. by rewrite dcount_cons_notin. Qed.

Lemma view_entry_S_ne k k' d ds j e :
  k ≠ k' → view_entry k' (({[k]} ∪ d) :: ds) j e = view_entry k' (d :: ds) j e.
Proof.
  intros. unfold view_entry. destruct j; [done|]. simpl. by rewrite dcount_cons_insert_ne.
Qed.

(** *** Writing a key: [set] and [modify] both replace the newest version of an entry. *)

Definition write_version (k : K) (i : InnerValue V) m : OverlayedMap K V :=
  let overlayed := default [] (changes m !! k) in
  let '(first_write, ds) := insert_dirty (dirty_keys m) k in
  mkOverlay (<[k := i :: (if first_write then overlayed else tail overlayed)]> (changes m)) ds
            (num_client_transactions m) (execution_mode m).

Lemma set_write_version k v x m : ∃ exts, set k v x m = write_version k (mkInner v exts) m.
Proof.
  unfold set, write_version. destruct (insert_dirty (dirty_keys m) k) as [b ds].
  destruct (entry_set_shape (default [] (changes m !! k)) v b x) as [exts ->]. by exists exts.
Qed.

Lemma write_version_wf k i m : overlay_wf m → overlay_wf (write_version k i m).
Proof.
  intros [Hwf Hcl]. unfold write_version, overlay_wf, transaction_depth in *.
  destruct (insert_dirty (dirty_keys m) k) as [b ds] eqn:Hi. simpl.
  split; [|destruct (dirty_keys m); simpl in Hi; by simplify_eq].
  intros k'. specialize (Hwf k'). destruct (decide (k = k')) as [<-|Hne].
  - rewrite lookup_insert_eq. split; [done|]. unfold entry_wf in Hwf. simpl.
    destruct (dirty_keys m) as [|d ds']; simpl in Hi; simplify_eq; simpl.
    + rewrite dcount_nil in *. destruct (changes m !! k) as [[|]|]; simpl in *; naive_solver lia.
    + rewrite dcount_cons_in by set_solver.
      case_bool_decide; [rewrite dcount_cons_in in Hwf by done|rewrite dcount_cons_notin in Hwf by done];
        destruct (changes m !! k) as [[|]|]; simpl in *; naive_solver lia.
  - rewrite lookup_insert_ne by done.
    destruct (dirty_keys m) as [|d ds']; simpl in Hi; simplify_eq; [done|].
    unfold entry_wf in *. rewrite dcount_cons_insert_ne by done. done.
Qed.

Lemma write_version_abs k i m :
  overlay_wf m →
  abs (write_version k i m) =
    mkSnapshots (<[k := value i]> (cur (abs m))) (saved (abs m)) (client_open (abs m)) (mode (abs m)).
Proof.
  intros [Hwf _]. unfold abs, write_version, view, transaction_depth.
  destruct (insert_dirty (dirty_keys m) k) as [b ds] eqn:Hi. simpl.
  assert (length ds = length (dirty_keys m)) as -> by (destruct (dirty_keys m); simpl in Hi; by simplify_eq).
  f_equal.
  - apply map_eq. intros k'. rewrite lookup_view_at. destruct (decide (k = k')) as [<-|Hne].
    + rewrite !lookup_insert_eq. simpl. by rewrite view_entry_0.
    + rewrite !lookup_insert_ne by done. rewrite lookup_view_at.
      destruct (changes m !! k'); [|done]. simpl. by rewrite !view_entry_0.
  - apply list_fmap_ext. intros n j [-> Hj]%lookup_seq. simpl. apply map_eq. intros k'.
    rewrite !lookup_view_at. specialize (Hwf k').
    destruct (dirty_keys m) as [|d ds']; simpl in Hi; simplify_eq; [simpl in Hj; lia|].
    destruct (decide (k = k')) as [<-|Hne].
    + rewrite lookup_insert_eq. simpl. rewrite view_entry_S_in by set_solver. simpl.
      case_bool_decide as Hd; simpl.
      * unfold entry_wf in Hwf. destruct (changes m !! k); simpl.
        -- by rewrite view_entry_S_in.
        -- rewrite dcount_cons_in in Hwf by done. done.
      * destruct (changes m !! k) as [e|] eqn:E; simpl; [by rewrite view_entry_S_notin|].
        unfold view_entry. by rewrite drop_nil.
    + rewrite lookup_insert_ne by done. destruct (changes m !! k'); [|done]. simpl. by apply view_entry_S_ne.
Qed.

Lemma set_wf k v x m : overlay_wf m → overlay_wf (set k v x m).
Proof. intros. destruct (set_write_version k v x m) as [exts ->]. by apply write_version_wf. Qed.

Lemma set_abs k v x m :
  overlay_wf m → abs (set k v x m) = mkSnapshots (<[k := v]> (cur (abs m))) (saved (abs m)) (client_open (abs m)) (mode (abs m)).
Proof. intros. destruct (set_write_version k v x m) as [exts ->]. by rewrite write_version_abs. Qed.

Lemma lookup_cur_abs m k : cur (abs m) !! k = changes m !! k ≫= value_ref.
Proof.
  unfold abs, view. cbn [cur]. rewrite lookup_view_at. destruct (changes m !! k); simpl; [|done].
  by rewrite view_entry_0.
Qed.

Lemma lookup_cur_abs_None m k : overlay_wf m → cur (abs m) !! k = None ↔ changes m !! k = None.
Proof.
  intros [Hwf _]. rewrite lookup_cur_abs. specialize (Hwf k). unfold entry_wf in Hwf.
  destruct (changes m !! k) as [[|]|]; naive_solver.
Qed.

(** *** [close_transaction] *)

Lemma entry_wf_in k d ds ch :
  map_wf (d :: ds) ch → k ∈ d →
  ∃ x r, ch !! k = Some (x :: r) ∧ (dcount k ds ≤ length r ≤ S (dcount k ds))%nat.
Proof.
  intros Hwf Hk. specialize (Hwf k). unfold entry_wf in Hwf.
  destruct (ch !! k) as [e|]; rewrite dcount_cons_in in Hwf by done; [|done].
  destruct Hwf as [Hne Hl]. destruct e as [|x r]; [done|]. exists x, r. simpl in Hl. split; [done|lia].
Qed.

(** The entry of a key after a rolled back, respectively committed, transaction that wrote it. *)
Definition rolled_entry e : option (OverlayedEntry V) := match tail e with [] => None | r => Some r end.
Definition merged_entry (has_predecessor : bool) e : OverlayedEntry V :=
  match has_predecessor, e with
  | true, dropped :: i :: r => mkInner (value dropped) (ext_extend (extrinsics i) (extrinsics dropped)) :: r
  | _, _ => e
  end.
Definition predecessor (k : K) ds e : bool :=
  match ds with d :: _ => bool_decide (k ∈ d) | [] => bool_decide (1 < length e)%nat end.
Definition add_dirty (ks : list K) ds : list (gset K) :=
  match ds with d :: r => (list_to_set ks ∪ d) :: r | [] => [] end.

Lemma close_keys_rollback ks ch ds :
  NoDup ks → (∀ k, k ∈ ks → ∃ x r, ch !! k = Some (x :: r)) →
  ∃ ch', close_keys true ks (ch, ds) = Some (ch', ds) ∧
    ∀ k, ch' !! k = if decide (k ∈ ks) then ch !! k ≫= rolled_entry else ch !! k.
Proof.
  intros Hnd. revert ch. induction Hnd as [|k ks Hk Hnd IH]; intros ch Hin.
  - exists ch. split; [done|]. intros k. by rewrite decide_False by set_solver.
  - destruct (Hin k) as (x & r & E); [set_solver|]. simpl. rewrite E.
    set (ch1 := match r with [] => delete k ch | _ => <[k:=r]> ch end).
    assert (∀ k', k' ≠ k → ch1 !! k' = ch !! k') as Hne.
    { intros. subst ch1. destruct r; [by rewrite lookup_delete_ne|by rewrite lookup_insert_ne]. }
    destruct (IH ch1) as (ch' & Hc & Hl).
    { intros k' Hk'. rewrite Hne by set_solver. apply Hin. set_solver. }
    exists ch'. split; [done|]. intros k'. rewrite Hl.
    destruct (decide (k' = k)) as [->|].
    + rewrite decide_False, decide_True by set_solver. rewrite E. subst ch1. simpl.
      destruct r; [by rewrite lookup_delete_eq|by rewrite lookup_insert_eq].
    + rewrite Hne by done. destruct (decide (k' ∈ ks)).
      * by rewrite decide_True by set_solver.
      * by rewrite decide_False by set_solver.
Qed.

Lemma close_keys_commit ks ch ds :
  NoDup ks →
  (∀ k, k ∈ ks → ∃ e, ch !! k = Some e ∧ e ≠ [] ∧ (predecessor k ds e = true → (1 < length e)%nat)) →
  ∃ ch', close_keys false ks (ch, ds) = Some (ch', add_dirty ks ds) ∧
    ∀ k, ch' !! k = if decide (k ∈ ks) then (λ e, merged_entry (predecessor k ds e) e) <$> ch !! k else ch !! k.
Proof.
  intros Hnd. revert ch ds. induction Hnd as [|k ks Hk Hnd IH]; intros ch ds Hin.
  - exists ch. split; [destruct ds; simpl; do 3 f_equal; set_solver|].
    intros k. by rewrite decide_False by set_solver.
  - destruct (Hin k) as (e & E & Hne & Hp); [set_solver|].
    set (ds1 := add_dirty [k] ds). set (ch1 := <[k := merged_entry (predecessor k ds e) e]> ch).
    assert (close_key false k (ch, ds) = Some (ch1, ds1)) as Hck.
    { simpl. rewrite E. unfold predecessor in *. subst ch1 ds1.
      destruct ds as [|d r]; simpl in *; [|replace ({[k]} ∪ ∅ ∪ d) with ({[k]} ∪ d) by set_solver];
        case_bool_decide; destruct e as [|? [|]]; simpl in *; try done; try lia;
        try (specialize (Hp eq_refl); lia); by rewrite insert_id. }
    destruct (IH ch1 ds1) as (ch' & Hc & Hl).
    { intros k' Hk'. assert (k' ≠ k) by set_solver. subst ch1. rewrite lookup_insert_ne by done.
      destruct (Hin k') as (e' & E' & Hne' & Hp'); [set_solver|]. exists e'. repeat split; [done..|].
      intros Hpr. apply Hp'. subst ds1. destruct ds as [|d r]; simpl in *; [done|].
      apply bool_decide_eq_true in Hpr. apply bool_decide_eq_true. set_solver. }
    exists ch'. split.
    { simpl close_keys. simpl in Hck. rewrite Hck, Hc. f_equal. f_equal. subst ds1.
      destruct ds; simpl; [done|]. f_equal. set_solver. }
    intros k'. rewrite Hl. subst ch1. destruct (decide (k' = k)) as [->|].
    + rewrite decide_False, decide_True by set_solver. by rewrite lookup_insert_eq, E.
    + rewrite lookup_insert_ne by done. destruct (decide (k' ∈ ks)).
      * rewrite decide_True by set_solver. destruct (ch !! k') as [e'|]; simpl; [|done].
        do 2 f_equal. subst ds1. destruct ds as [|d r]; simpl; [done|]. apply bool_decide_ext. set_solver.
      * by rewrite decide_False by set_solver.
Qed.

Lemma rollback_entries d ds ch ch' :
  map_wf (d :: ds) ch →
  (∀ k, ch' !! k = if decide (k ∈ elements d) then ch !! k ≫= rolled_entry else ch !! k) →
  map_wf ds ch' ∧ ∀ j, view_at ds ch' j = view_at (d :: ds) ch (S j).
Proof.
  intros Hwf Hl. split.
  - intros k. rewrite Hl. unfold entry_wf. case_decide as Hk; rewrite elem_of_elements in Hk.
    + destruct (entry_wf_in _ _ _ _ Hwf Hk) as (x & [|y r] & -> & Hlen); simpl in *; [lia|]. split; [done|lia].
    + specialize (Hwf k). unfold entry_wf in Hwf. by rewrite dcount_cons_notin in Hwf by done.
  - intros j. apply map_eq. intros k. rewrite !lookup_view_at, Hl.
    case_decide as Hk; rewrite elem_of_elements in Hk.
    + destruct (entry_wf_in _ _ _ _ Hwf Hk) as (x & r & -> & _). simpl.
      rewrite view_entry_S_in by done. destruct r; simpl; [|done]. unfold view_entry. by rewrite drop_nil.
    + destruct (ch !! k); simpl; [|done]. by rewrite view_entry_S_notin.
Qed.

Lemma commit_predecessor k d ds ch e :
  map_wf (d :: ds) ch → k ∈ d → ch !! k = Some e → predecessor k ds e = true → (1 < length e)%nat.
Proof.
  intros Hwf Hk E Hp. destruct (entry_wf_in _ _ _ _ Hwf Hk) as (x & r & E' & Hlen). simplify_eq.
  destruct ds as [|d2 ds]; simpl in *; [by apply bool_decide_eq_true in Hp|].
  apply bool_decide_eq_true in Hp. rewrite dcount_cons_in in Hlen by done. lia.
Qed.

Lemma commit_entries d ds ch ch' :
  map_wf (d :: ds) ch →
  (∀ k, ch' !! k = if decide (k ∈ elements d) then (λ e, merged_entry (predecessor k ds e) e) <$> ch !! k else ch !! k) →
  let ds' := add_dirty (elements d) ds in
  map_wf ds' ch' ∧ view_at ds' ch' 0 = view_at (d :: ds) ch 0 ∧
  ∀ j, (j < length ds)%nat → view_at ds' ch' (S j) = view_at (d :: ds) ch (S (S j)).
Proof.
  intros Hwf Hl ds'. pose proof (commit_predecessor) as Hpred. repeat split.
  - intros k. rewrite Hl. unfold entry_wf. case_decide as Hk; rewrite elem_of_elements in Hk.
    + destruct (entry_wf_in _ _ _ _ Hwf Hk) as (x & r & E & Hlen).
      specialize (Hpred k d ds ch _ Hwf Hk E). rewrite E. simpl.
      subst ds'. destruct ds as [|d2 ds]; simpl in *.
      * case_bool_decide; destruct r as [|y [|]]; simpl in *; rewrite ?dcount_nil in *; split; try done; simpl; lia.
      * rewrite dcount_cons_in by set_solver. case_bool_decide as Hd2.
        -- rewrite dcount_cons_in in Hlen by done. destruct r; simpl in *; [lia|]. split; [done|simpl; lia].
        -- rewrite dcount_cons_notin in Hlen by done. split; [done|simpl; lia].
    + specialize (Hwf k). unfold entry_wf in Hwf. rewrite dcount_cons_notin in Hwf by done.
      subst ds'. destruct ds as [|d2 ds]; simpl in *; [done|].
      destruct (decide (k ∈ d2)).
      * rewrite dcount_cons_in in Hwf |- * by set_solver. done.
      * rewrite dcount_cons_notin in Hwf |- * by set_solver. done.
  - apply map_eq. intros k. rewrite !lookup_view_at, Hl. case_decide as Hk; rewrite elem_of_elements in Hk.
    + destruct (entry_wf_in _ _ _ _ Hwf Hk) as (x & r & E & Hlen). rewrite E. simpl.
      rewrite !view_entry_0. by destruct (predecessor _ _ _), r.
    + destruct (ch !! k); simpl; [|done]. by rewrite !view_entry_0.
  - intros j Hj. apply map_eq. intros k. rewrite !lookup_view_at, Hl.
    subst ds'. destruct ds as [|d2 ds]; simpl in Hj |- *; [lia|].
    case_decide as Hk; rewrite elem_of_elements in Hk.
    + destruct (entry_wf_in _ _ _ _ Hwf Hk) as (x & r & E & Hlen).
      specialize (Hpred k d (d2 :: ds) ch _ Hwf Hk E). rewrite E. simpl in *.
      rewrite view_entry_S_in by set_solver. rewrite view_entry_S_in by done. simpl.
      case_bool_decide as Hd2.
      * rewrite view_entry_S_in by done. destruct r; simpl in *; [specialize (Hpred eq_refl); lia|done].
      * by rewrite view_entry_S_notin by done.
    + destruct (ch !! k); simpl; [|done]. rewrite (view_entry_S_notin k d) by done.
      destruct (decide (k ∈ d2)); [by rewrite !view_entry_S_in by set_solver|by rewrite !view_entry_S_notin by set_solver].
Qed.

(** Closing a transaction that may be closed succeeds and acts on the snapshots. *)
Lemma close_transaction_ok rb m d ds :
  overlay_wf m → dirty_keys m = d :: ds →
  (execution_mode m = Runtime → (num_client_transactions m ≤ length ds)%nat) →
  ∃ m', close_transaction rb m = Ok m' ∧ overlay_wf m' ∧ transaction_depth m' = length ds ∧
    abs m' = mkSnapshots (if rb then view m 1 else view m 0) (tail (saved (abs m)))
                         (num_client_transactions m) (execution_mode m).
Proof.
  intros [Hwf Hcl] Hd Hallow. unfold close_transaction. rewrite decide_False.
  2:{ intros [Hr Ho]. unfold has_open_runtime_transactions, transaction_depth in Ho.
      rewrite Hd in Ho. simpl in Ho. apply bool_decide_eq_false in Ho. specialize (Hallow Hr). lia. }
  rewrite Hd in *. unfold abs, view, transaction_depth. rewrite Hd.
  assert (∀ f : nat → gmap K V, tail (f <$> seq 0 (length (d :: ds))) = (λ j, f (S j)) <$> seq 0 (length ds)) as Htl.
  { intros f. simpl. by rewrite <-fmap_S_seq, <-list_fmap_compose. }
  cbn [saved]. rewrite Htl. destruct rb.
  - destruct (close_keys_rollback (elements d) (changes m) ds) as (ch' & -> & Hl); [apply NoDup_elements|..].
    { intros k Hk%elem_of_elements. destruct (entry_wf_in _ _ _ _ Hwf Hk) as (x & r & E & _). eauto. }
    destruct (rollback_entries _ _ _ _ Hwf Hl) as [Hwf' Hv].
    eexists. split; [done|]. repeat split; simpl; [done..|]. by setoid_rewrite Hv.
  - destruct (close_keys_commit (elements d) (changes m) ds) as (ch' & -> & Hl); [apply NoDup_elements|..].
    { intros k Hk%elem_of_elements. destruct (entry_wf_in _ _ _ _ Hwf Hk) as (x & r & E & _).
      eexists. repeat split; [done|done|]. by eapply commit_predecessor. }
    destruct (commit_entries _ _ _ _ Hwf Hl) as (Hwf' & Hv0 & Hv).
    assert (length (add_dirty (elements d) ds) = length ds) as Hlen by (by destruct ds).
    eexists. split; [done|]. unfold overlay_wf, transaction_depth. simpl. rewrite Hlen. repeat split; [done..|].
    f_equal; [done|]. apply list_fmap_ext. intros i j [-> Hj]%lookup_seq. simpl. apply Hv. lia.
Qed.

End Lemmas.

(** ** The overlay implements the stack of snapshots *)

Section Refinement.
  Context {K V : Type} `{Countable K}.
  Implicit Types (m : OverlayedMap K V) (a : Snapshots K V).

Lemma length_saved_abs m : length (saved (abs m)) = transaction_depth m.
Proof. simpl. by rewrite length_fmap, length_seq. Qed.

Lemma saved_abs_cons m d ds :
  dirty_keys m = d :: ds → saved (abs m) = view m 1 :: tail (saved (abs m)).
Proof. intros Hd. unfold abs, transaction_depth. cbn [saved]. by rewrite Hd. Qed.

Lemma start_transaction_abs m :
  overlay_wf m →
  overlay_wf (start_transaction m) ∧ spec_step OStart (abs m) = Ok (abs (start_transaction m)).
Proof.
  intros [Hwf Hcl]. split; [split|].
  - intros k. specialize (Hwf k). unfold entry_wf in *. simpl.
    by rewrite dcount_cons_notin by set_solver.
  - unfold transaction_depth in *. simpl. intros Hr. specialize (Hcl Hr). lia.
  - assert (view (start_transaction m) 0 = view m 0) as Hv0.
    { apply map_eq. intros k. unfold view. by rewrite !lookup_view_at. }
    assert (∀ j, view (start_transaction m) (S j) = view m j) as HvS.
    { intros j. apply map_eq. intros k. unfold view. rewrite !lookup_view_at. simpl.
      destruct (changes m !! k); simpl; [|done]. by rewrite view_entry_S_notin by set_solver. }
    unfold spec_step, abs. rewrite Hv0. simpl. rewrite HvS, <-fmap_S_seq, <-list_fmap_compose.
    do 3 f_equal.
Qed.

Lemma rollback_open_abs fuel m :
  overlay_wf m → execution_mode m = Client → (transaction_depth m ≤ fuel)%nat →
  let n := (transaction_depth m - num_client_transactions m)%nat in
  ∃ m', rollback_open fuel m = Ok m' ∧ overlay_wf m' ∧
    abs m' = mkSnapshots (match n with O => view m 0 | S i => default (view m 0) (saved (abs m) !! i) end)
                         (drop n (saved (abs m))) (num_client_transactions m) Client.
Proof.
  revert m. induction fuel as [|fuel IH]; intros m Hwf Hmode Hfuel n; unfold rollback_open; fold (@rollback_open K V _ _).
  - assert (n = 0%nat) as -> by (unfold transaction_depth in *; lia).
    unfold has_open_runtime_transactions. rewrite bool_decide_eq_false_2 by lia.
    exists m. split; [done|]. split; [done|]. unfold abs. by rewrite Hmode.
  - unfold has_open_runtime_transactions. case_bool_decide as Hopen.
    2:{ assert (n = 0%nat) as -> by lia. exists m. split; [done|]. split; [done|]. unfold abs. by rewrite Hmode. }
    destruct (dirty_keys m) as [|d ds] eqn:Hd; [unfold transaction_depth in Hopen; rewrite Hd in Hopen; simpl in Hopen; lia|].
    destruct (close_transaction_ok true m d ds Hwf Hd) as (m1 & Hc & Hwf1 & Hdep & Habs); [by rewrite Hmode|].
    unfold rollback_transaction. rewrite Hc.
    assert (num_client_transactions m1 = num_client_transactions m ∧ execution_mode m1 = Client) as [Hcl1 Hm1].
    { unfold abs in Habs. simplify_eq. by split; [|congruence]. }
    assert (transaction_depth m = S (length ds)) as Hdm by (unfold transaction_depth; by rewrite Hd).
    destruct (IH m1 Hwf1 Hm1) as (m' & Hr & Hwf' & Habs'); [lia|].
    exists m'. split; [done|]. split; [done|]. rewrite Habs', Hcl1, Hdep.
    assert (n = S (length ds - num_client_transactions m)) as Hn by lia. rewrite Hn.
    assert (view m1 0 = view m 1) as Hv by (change (view m1 0) with (cur (abs m1)); by rewrite Habs).
    assert (saved (abs m1) = tail (saved (abs m))) as Hs by (by rewrite Habs).
    rewrite Hv, (saved_abs_cons m d ds Hd), <-Hs.
    pose proof (length_saved_abs m1) as Hlen. rewrite Hdep in Hlen.
    generalize dependent (saved (abs m1)). intros t _ _ Hlen. f_equal.
    destruct (length ds - num_client_transactions m)%nat as [|i] eqn:Ei; [done|]. simpl.
    destruct (lookup_lt_is_Some_2 t i) as [x ->]; [lia|done].
Qed.

(** One operation: the overlay and the specification return the same error or move to
    related states; the overlay never panics. *)
Lemma impl_step_simulates (o : tx_op K V) m :
  overlay_wf m →
  match impl_step o m, spec_step o (abs m) with
  | Ok m', Ok a' => overlay_wf m' ∧ abs m' = a'
  | Err x, Err y => x = y
  | _, _ => False
  end.
Proof.
  intros Hwf. destruct o as [k v x| |rb| |]; unfold impl_step.
  - split; [by apply set_wf|]. by rewrite set_abs.
  - destruct (start_transaction_abs m Hwf) as [? ->]. done.
  - unfold spec_step. rewrite length_saved_abs. simpl client_open. simpl mode.
    case_decide as Hno.
    + destruct Hno as [Hr Hle]. unfold close_transaction. rewrite decide_True; [done|].
      split; [done|]. unfold has_open_runtime_transactions. apply bool_decide_eq_false. lia.
    + destruct (dirty_keys m) as [|d ds] eqn:Hd.
      * assert (saved (abs m) = []) as -> by (unfold abs, transaction_depth; by rewrite Hd).
        unfold close_transaction. rewrite Hd. by case_decide.
      * destruct (close_transaction_ok rb m d ds Hwf Hd) as (m' & -> & Hwf' & _ & ->).
        { intros Hr. apply Decidable.not_and in Hno; [|unfold Decidable.decidable; destruct (execution_mode m); naive_solver].
          unfold transaction_depth in Hno. rewrite Hd in Hno. simpl in Hno. destruct Hno; [done|lia]. }
        rewrite (saved_abs_cons m d ds Hd). split; [done|]. by destruct rb.
  - unfold enter_runtime, spec_step. simpl mode. destruct (execution_mode m) eqn:Hm; [|done].
    rewrite length_saved_abs. destruct Hwf as [Hwf _]. split; [|done]. by split.
  - unfold exit_runtime, spec_step. simpl mode. destruct (execution_mode m) eqn:Hm; [done|].
    set (m0 := mkOverlay (changes m) (dirty_keys m) (num_client_transactions m) Client).
    assert (overlay_wf m0) as Hwf0 by (destruct Hwf; by split).
    destruct (rollback_open_abs (transaction_depth m) m0 Hwf0) as (m' & -> & Hwf' & ->); [done..|].
    split; [done|]. rewrite length_saved_abs. done.
Qed.

Lemma run_simulates (os : list (tx_op K V)) m :
  overlay_wf m →
  ∃ l m', run impl_step os m = Some (l, m') ∧ run spec_step os (abs m) = Some (l, abs m') ∧ overlay_wf m'.
Proof.
  revert m. induction os as [|o os IH]; intros m Hwf; simpl; [by eauto|].
  pose proof (impl_step_simulates o m Hwf) as Hs.
  destruct (impl_step o m) as [m1|x|], (spec_step o (abs m)) as [a1|y|]; try done.
  - destruct Hs as [Hwf1 <-]. destruct (IH m1 Hwf1) as (l & m' & -> & -> & ?). eauto.
  - subst y. destruct (IH m Hwf) as (l & m' & -> & -> & ?). eauto.
Qed.

Lemma overlay_default_wf : overlay_wf (overlay_default : OverlayedMap K V).
Proof. split; [|done]. intros k. unfold entry_wf, overlay_default. simpl. by rewrite lookup_empty. Qed.

Lemma overlay_default_abs : abs (overlay_default : OverlayedMap K V) = mkSnapshots ∅ [] 0 Client.
Proof. unfold abs. f_equal. Qed.

End Refinement.

(** ** Well-bracketed use *)

(** Operation sequences that close every transaction they open: what a piece of runtime code
    running inside one storage layer performs. *)
Inductive bracketed {K V : Type} : list (tx_op K V) → Prop :=
| br_nil : bracketed []
| br_set k v x os : bracketed os → bracketed (OSet k v x :: os)
| br_nest os rb os' : bracketed os → bracketed os' → bracketed (OStart :: os ++ OClose rb :: os').

Section Bracketed.
  Context {K V : Type} `{Countable K}.
  Implicit Types (m : OverlayedMap K V) (a : Snapshots K V).

Lemma run_app {Op St : Type} (step : Op → St → outcome TxError St) os1 os2 st l1 st1 :
  run step os1 st = Some (l1, st1) →
  run step (os1 ++ os2) st = match run step os2 st1 with Some (l, r) => Some (l1 ++ l, r) | None => None end.
Proof.
  revert st l1. induction os1 as [|o os IH]; intros st l1 Hr; simpl in *.
  - simplify_eq. by destruct (run step os2 st1) as [[]|].
  - destruct (step o st) as [st'|x|]; [| |done].
    + destruct (run step os st') as [[l r]|] eqn:E; [|done]. simplify_eq.
      rewrite (IH _ _ E). by destruct (run step os2 st1) as [[]|].
    + destruct (run step os st) as [[l r]|] eqn:E; [|done]. simplify_eq.
      rewrite (IH _ _ E). by destruct (run step os2 st1) as [[]|].
Qed.

(** On the specification, a well-bracketed sequence succeeds at every step and touches only
    the current snapshot. *)
Lemma spec_bracketed (os : list (tx_op K V)) a :
  bracketed os → (client_open a ≤ length (saved a))%nat →
  ∃ l c, run spec_step os a = Some (l, mkSnapshots c (saved a) (client_open a) (mode a)) ∧
    Forall (λ r, r = None) l.
Proof.
  intros Hb. revert a. induction Hb as [|k v x os Hb IH|os rb os' Hb1 IH1 Hb2 IH2]; intros a Hle; simpl.
  - exists [], (cur a). by destruct a.
  - destruct (IH (mkSnapshots (<[k:=v]> (cur a)) (saved a) (client_open a) (mode a))) as (l & c & -> & Hl); [done|].
    eexists _, c. split; [done|]. by constructor.
  - destruct (IH1 (mkSnapshots (cur a) (cur a :: saved a) (client_open a) (mode a))) as (l1 & c1 & Hr1 & Hl1); [simpl; lia|].
    rewrite (run_app _ _ _ _ _ _ Hr1). simpl. rewrite decide_False by (intros [_ ?]; simpl in *; lia).
    destruct (IH2 (mkSnapshots (if rb then cur a else c1) (saved a) (client_open a) (mode a))) as (l2 & c2 & Hr2 & Hl2); [done|].
    rewrite Hr2. eexists _, c2. split; [done|]. constructor; [done|].
    apply Forall_app. split; [done|]. by constructor.
Qed.

End Bracketed.

(** ** Correctness *)

Section Correctness.
  Context {K V : Type} `{Countable K}.
  Implicit Types (m : OverlayedMap K V).

(** C2. Any sequence of writes, transaction starts, commits, rollbacks and runtime entries
    and exits on a fresh overlay runs without hitting one of the [expect]s of the code, each
    operation returns the error the snapshot specification returns, and the values visible at
    every nesting level are the snapshots of the specification. *)
Theorem changeset_refines_snapshots (os : list (tx_op K V)) :
  ∃ l m, run impl_step os overlay_default = Some (l, m) ∧
    run spec_step os (mkSnapshots ∅ [] 0 Client) = Some (l, abs m) ∧ overlay_wf m.
Proof. rewrite <-overlay_default_abs. apply run_simulates, overlay_default_wf. Qed.

(** Code that closes every transaction it opens, run inside a transaction that is then
    rolled back, succeeds at every step and leaves every value the overlay shows, at every
    nesting level, as it was. *)
Theorem rollback_restores (os : list (tx_op K V)) m :
  overlay_wf m → bracketed os →
  ((num_client_transactions m ≤ transaction_depth m)%nat) →
  ∃ l m', run impl_step (OStart :: os ++ [OClose true]) m = Some (l, m') ∧
    abs m' = abs m ∧ Forall (λ r, r = None) l.
Proof.
  intros Hwf Hb Hcl.
  destruct (run_simulates (OStart :: os ++ [OClose true]) m Hwf) as (l & m' & Hi & Hs & _).
  destruct (spec_bracketed os (mkSnapshots (cur (abs m)) (cur (abs m) :: saved (abs m)) (client_open (abs m)) (mode (abs m))) Hb)
    as (l1 & c & Hr & Hl); [simpl in *; rewrite length_fmap, length_seq; lia|].
  exists l, m'. split; [done|]. simpl in Hs. rewrite (run_app _ _ _ _ _ _ Hr) in Hs. simpl in Hs.
  rewrite decide_False in Hs by (intros [_ ?]; rewrite length_fmap, length_seq in *; lia).
  simplify_eq. split; [by rewrite <-H1|]. constructor; [done|]. apply Forall_app. split; [done|]. by constructor.
Qed.

(** [exit_runtime] discards every write made in a transaction the runtime left open: the
    visible values are again those of the moment the runtime's first unclosed transaction was
    started, and only the client's transactions remain open. *)
Theorem exit_runtime_rolls_back m :
  overlay_wf m → execution_mode m = Runtime →
  let n := (transaction_depth m - num_client_transactions m)%nat in
  ∃ m', exit_runtime m = Ok m' ∧ transaction_depth m' = num_client_transactions m ∧
    execution_mode m' = Client ∧ view m' 0 = view m n.
Proof.
  intros Hwf Hm n. pose proof (impl_step_simulates OExit m Hwf) as Hs. pose proof Hwf as [_ Hcl]. specialize (Hcl Hm).
  unfold impl_step, spec_step in Hs. simpl mode in Hs. rewrite Hm in Hs.
  destruct (exit_runtime m) as [m'| |]; [|done..]. destruct Hs as [_ Ha]. exists m'. split; [done|].
  rewrite length_saved_abs in Ha. change (client_open (abs m)) with (num_client_transactions m) in Ha. fold n in Ha.
  assert (transaction_depth m' = length (drop n (saved (abs m)))) as Hd by (by rewrite <-length_saved_abs, Ha).
  rewrite length_drop, length_saved_abs in Hd. repeat split; [lia|by apply (f_equal mode) in Ha|].
  apply (f_equal cur) in Ha. simpl in Ha. rewrite Ha. destruct n as [|i] eqn:En; [done|].
  rewrite list_lookup_fmap, lookup_seq_lt by lia. done.
Qed.

(** Once all transactions are closed, [drain_commited] returns exactly the visible values. *)
Theorem drain_commited_view m :
  overlay_wf m → transaction_depth m = 0%nat → drain_commited m = Ok (view m 0).
Proof.
  intros Hwf Hd. unfold drain_commited. rewrite decide_True by done. rewrite decide_True.
  - f_equal. apply map_eq. intros k. change (view m 0) with (cur (abs m)). by rewrite lookup_cur_abs, lookup_omap.
  - intros k e E. destruct Hwf as [Hwf _]. specialize (Hwf k). rewrite E in Hwf. by destruct Hwf.
Qed.

End Correctness.

Section ChangeSetCorrectness.
  Context {K V : Type} `{Countable K}.
  Implicit Types (m : OverlayedMap K (option V)).

(** [modify] hands out the current value of the key, [init] when the overlay does not know
    the key, and the caller's mutation of it is a write of the current transaction. *)
Theorem modify_value_spec (k : K) (init : V) x f m :
  overlay_wf m →
  overlay_wf (modify_value k init x f m) ∧
  abs (modify_value k init x f m) =
    mkSnapshots (<[k := f (default (Some init) (cur (abs m) !! k))]> (cur (abs m))) (saved (abs m))
                (client_open (abs m)) (mode (abs m)).
Proof.
  intros Hwf.
  assert (∃ exts, modify_value k init x f m =
            write_version k (mkInner (f (default (Some init) (cur (abs m) !! k))) exts) m) as [exts ->].
  { rewrite lookup_cur_abs. destruct Hwf as [Hwf _]. specialize (Hwf k). unfold modify_value, write_version.
    destruct (insert_dirty (dirty_keys m) k) as [b ds].
    destruct (changes m !! k) as [[|i r]|] eqn:E; simpl in *; [naive_solver|..].
    - destruct b; [|by eexists].
      destruct (entry_set_shape (i :: r) (value i) true x) as [exts ->]. by eexists.
    - destruct (entry_set_shape [] (Some init) b x) as [exts ->]. destruct b; by eexists. }
  split; [by apply write_version_wf|]. by rewrite write_version_abs.
Qed.

Lemma clear_keys_spec ks x n m :
  overlay_wf m → NoDup ks → (∀ k, k ∈ ks → is_Some (cur (abs m) !! k)) →
  let live := filter (λ k, is_Some (cur (abs m) !! k ≫= id)) ks in
  0 <= n → n + Z.of_nat (length live) <= u32_max →
  let '(c, m') := fold_left (clear_key x) ks (n, m) in
  c = n + Z.of_nat (length live) ∧ overlay_wf m' ∧ saved (abs m') = saved (abs m) ∧
  ∀ k, cur (abs m') !! k = if decide (k ∈ ks) then Some None else cur (abs m) !! k.
Proof.
  intros Hwf Hnd. revert n m Hwf. induction Hnd as [|k ks Hk Hnd IH]; intros n m Hwf Hin live Hn Hmax.
  - simpl fold_left. cbv beta iota. split; [simpl; lia|]. split; [done|]. split; [done|].
    intros k. by rewrite decide_False by set_solver.
  - assert (∀ k', k' ≠ k → cur (abs (set k None x m)) !! k' = cur (abs m) !! k') as Hne.
    { intros. rewrite set_abs by done. simpl. by rewrite lookup_insert_ne. }
    set (b := match value_ref (default [] (changes m !! k)) with Some (Some _) => 1 | _ => 0 end).
    assert (length (filter (λ k0, is_Some (cur (abs (set k None x m)) !! k0 ≫= id)) ks)
            = length (filter (λ k0, is_Some (cur (abs m) !! k0 ≫= id)) ks)) as Hsame.
    { f_equal. clear -Hne Hk. induction ks as [|k' ks IH]; [done|].
      rewrite !filter_cons, Hne, IH by set_solver. done. }
    assert (Z.of_nat (length live) = b + Z.of_nat (length (filter (λ k0, is_Some (cur (abs m) !! k0 ≫= id)) ks)) ∧ 0 <= b <= 1) as [Hlen Hb].
    { subst live b. rewrite filter_cons, lookup_cur_abs. destruct (Hin k) as [v Hv]; [set_solver|].
      rewrite lookup_cur_abs in Hv. destruct (changes m !! k) as [e|]; simpl in *; [|done]. rewrite Hv. simpl.
      destruct v as [v|]; case_decide as Hs; simpl in *.
      - split; lia.
      - exfalso. apply Hs. eauto.
      - by destruct Hs.
      - split; lia. }
    specialize (IH (n + b) (set k None x m) (set_wf _ _ _ _ Hwf)).
    simpl fold_left. fold b.
    assert (wrapping_add 32 n b = n + b) as ->.
    { apply wrapping_add_id; [lia|]. unfold u32_max in Hmax. lia. }
    destruct (fold_left (clear_key x) ks (n + b, set k None x m)) as [c m'].
    destruct IH as (Hc & Hwf' & Hsv & Hcur); [|lia|rewrite Hsame; lia|].
    { intros k' Hk'. rewrite Hne by set_solver. apply Hin. set_solver. }
    rewrite Hsame in Hc. split; [lia|]. split; [done|]. split.
    + rewrite Hsv. by rewrite set_abs.
    + intros k'. rewrite Hcur. destruct (decide (k' = k)) as [->|].
      * rewrite decide_False, decide_True by set_solver. rewrite set_abs by done. simpl. by rewrite lookup_insert_eq.
      * rewrite Hne by done. destruct (decide (k' ∈ ks)).
        -- by rewrite decide_True by set_solver.
        -- by rewrite decide_False by set_solver.
Qed.

(** [clear_where] with a predicate on keys marks exactly the known keys that satisfy it as
    deleted, in the current transaction only, and returns how many of them held a value. *)
Theorem clear_where_spec (p : K → bool) x m :
  overlay_wf m → Z.of_nat (size (cur (abs m))) <= u32_max →
  let '(c, m') := clear_where (λ k _, p k) x m in
  c = Z.of_nat (size (filter (λ k, p k = true ∧ is_Some (cur (abs m) !! k ≫= id)) (dom (cur (abs m))))) ∧
  overlay_wf m' ∧ saved (abs m') = saved (abs m) ∧
  ∀ k, cur (abs m') !! k = (λ v : option V, if p k then None else v) <$> cur (abs m) !! k.
Proof.
  intros Hwf Hsz. unfold clear_where.
  set (ks := fst <$> filter (λ kv, p (fst kv) = true) (map_to_list (changes m))).
  assert (∀ k, k ∈ ks ↔ p k = true ∧ is_Some (cur (abs m) !! k)) as Hks.
  { intros k. subst ks. rewrite list_elem_of_fmap. setoid_rewrite list_elem_of_filter.
    rewrite <-not_eq_None_Some, lookup_cur_abs_None, not_eq_None_Some by done. split.
    - intros ([k' e] & -> & Hp & ?%elem_of_map_to_list). simpl in *. eauto.
    - intros [Hp [e He]]. exists (k, e). by rewrite elem_of_map_to_list. }
  assert (NoDup ks) as Hnd.
  { subst ks. apply (sublist_NoDup _ ((map_to_list (changes m)).*1)); [apply NoDup_fst_map_to_list|].
    apply fmap_sublist, sublist_filter. }
  set (live := filter (λ k, is_Some (cur (abs m) !! k ≫= id)) ks).
  assert (size (filter (λ k, p k = true ∧ is_Some (cur (abs m) !! k ≫= id)) (dom (cur (abs m)))) = length live) as Hlive.
  { rewrite <-(size_list_to_set (C := gset K) live) by (by apply NoDup_filter).
    f_equal. apply set_eq. intros k. rewrite elem_of_filter, elem_of_list_to_set, elem_of_dom.
    subst live. rewrite list_elem_of_filter, Hks. naive_solver. }
  pose proof (clear_keys_spec ks x 0 m Hwf Hnd) as Hc. cbv zeta in Hc. fold live in Hc.
  destruct (fold_left (clear_key x) ks (0, m)) as [c m']. rewrite Hlive.
  destruct Hc as (-> & Hwf' & Hsv & Hcur); [by intros k [_ ?]%Hks|lia|..].
  { rewrite <-Hlive. etrans; [|exact Hsz]. rewrite <-size_dom. rewrite Z.add_0_l.
    apply Nat2Z.inj_le, subseteq_size. set_solver. }
  split; [done|]. split; [done|]. split; [done|]. intros k. rewrite Hcur.
  case_decide as Hk; rewrite Hks in Hk.
  - destruct Hk as [-> [v ->]]. done.
  - destruct (cur (abs m) !! k) eqn:E; simpl; [|done]. destruct (p k); [|done]. naive_solver.
Qed.

End ChangeSetCorrectness.

(** ** Witnesses *)

(** An overlay reached by a sequence of operations. *)
Definition after (os : list (tx_op Z (option Z))) : OverlayedMap Z (option Z) :=
  match run impl_step os overlay_default with Some (_, m) => m | None => overlay_default end.

Lemma after_wf os : overlay_wf (after os).
Proof. unfold after. destruct (run_simulates os overlay_default overlay_default_wf) as (l & m & -> & _ & Hwf). exact Hwf. Qed.

Lemma rollback_restores_witness :
  let m := after [OSet 1 (Some 5) None; OStart] in
  ∃ l m', run impl_step (OStart :: [OSet 1 (Some 6) None] ++ [OClose true]) m = Some (l, m') ∧ abs m' = abs m ∧ Forall (λ r, r = None) l.
Proof.
  intros m. apply (rollback_restores [OSet 1 (Some 6) None] m (after_wf _)).
  - constructor. constructor.
  - vm_compute. repeat constructor.
Defined.

Lemma exit_runtime_witness :
  let m := after [OEnter; OSet 1 (Some 5) None; OStart; OSet 1 (Some 6) None] in
  ∃ m', exit_runtime m = Ok m' ∧ transaction_depth m' = 0%nat ∧ execution_mode m' = Client ∧ view m' 0 = view m 1.
Proof. intros m. apply (exit_runtime_rolls_back m (after_wf _)). reflexivity. Defined.

Lemma drain_commited_witness :
  let m := after [OStart; OSet 1 (Some 5) None; OClose false] in drain_commited m = Ok (view m 0).
Proof. intros m. apply (drain_commited_view m (after_wf _)). reflexivity. Defined.

Lemma modify_value_witness :
  let m := after [OSet 1 (Some 5) None] in
  overlay_wf (modify_value 1 0 None (option_map (Z.add 1)) m).
Proof. intros m. apply (modify_value_spec 1 0 None (option_map (Z.add 1)) m (after_wf _)). Defined.

Lemma clear_where_witness :
  let m := after [OSet 1 (Some 5) None; OSet 2 (Some 6) None] in
  let '(c, m') := clear_where (λ k _, k =? 1) None m in c = 1 ∧ overlay_wf m'.
Proof.
  intros m. pose proof (clear_where_spec (λ k, k =? 1) None m (after_wf _)) as H.
  destruct (clear_where (λ k _, k =? 1) None m) as [c m'] eqn:E. destruct H as (Hc & Hwf & _); [vm_compute; congruence|].
  split; [|exact Hwf]. rewrite Hc. vm_compute. reflexivity.
Defined.
