(* ===== verification/Transactional.v ===== *)
(** Storage layers ([frame/support/src/storage/transactional.rs]).

    [with_transaction] runs a closure inside a transaction of the storage overlay and counts
    the nesting depth in a storage item of its own.  The file models the functions over
    [Changeset.OverlayedMap], states what a closure must respect to run inside a layer as the
    class [LayerSafe], and proves what the layers promise to the pallets: an [Err] leaves no
    trace, an [Ok] keeps every write, and the nesting limit is enforced. *)

From S2P Require Import Prelude Changeset.

Definition TRANSACTIONAL_LIMIT : Z := 255.

Inductive TransactionOutcome (R : Type) := Commit (res : R) | Rollback (res : R).
Arguments Commit {R} res.
Arguments Rollback {R} res.

Section Layers.
  (** Storage keys and values, and the encoding of the layer counter ([u32]) as a value; the
      codec is an external crate. *)
  Context {K B : Type} `{Countable K}.
  Context (TRANSACTION_LEVEL_KEY : K) (encode_level : Z → B) (decode_level : B → option Z).
  (** The value below the overlay, and the extrinsic index the writes are recorded under. *)
  Context (backend : K → option B) (at_extrinsic : option Z).
  (** [DispatchError] with [TransactionalError::LimitReached]. *)
  Context {DE : Type} (LimitReached : DE).

  Abbreviation St := (OverlayedMap K (option B)).

(** A runtime function over the storage; [None] is a panic. *)
Definition storage_fn (R : Type) : Type := St → option (R * St).

(** [sp_io::storage::get]: the overlay, else the backend. *)
Definition read (k : K) (st : St) : option B :=
  match get st k ≫= value_ref with
  | Some v => v
  | None => backend k
  end.

Definition get_transaction_level (st : St) : Z :=
  default 0 (read TRANSACTION_LEVEL_KEY st ≫= decode_level).

Definition set_transaction_level (level : Z) (st : St) : St :=
  set TRANSACTION_LEVEL_KEY (Some (encode_level level)) at_extrinsic st.

Definition kill_transaction_level (st : St) : St := set TRANSACTION_LEVEL_KEY None at_extrinsic st.

Definition inc_transaction_level (st : St) : option St :=
  let existing_levels := get_transaction_level st in
  if TRANSACTIONAL_LIMIT <=? existing_levels then None
  else Some (set_transaction_level (existing_levels + 1) st).

Definition dec_transaction_level (st : St) : St :=
  let existing_levels := get_transaction_level st in
  if existing_levels =? 0 then st
  else if existing_levels =? 1 then kill_transaction_level st
  else set_transaction_level (existing_levels - 1) st.

Definition is_transactional (st : St) : bool := 0 <? get_transaction_level st.

(** The part of [with_transaction] between the guard's creation and its drop. *)
Definition in_transaction {R} (f : storage_fn (TransactionOutcome R)) : storage_fn R := λ st,
  match f (start_transaction st) with
  | Some (Commit res, st') => match commit_transaction st' with Ok st'' => Some (res, st'') | _ => None end
  | Some (Rollback res, st') => match rollback_transaction st' with Ok st'' => Some (res, st'') | _ => None end
  | None => None
  end.

(** The guard is dropped, and so decrements the level, when the function returns. *)
Definition with_transaction {T} (f : storage_fn (TransactionOutcome (T + DE))) : storage_fn (T + DE) := λ st,
  match inc_transaction_level st with
  | None => Some (inr LimitReached, st)
  | Some st1 =>
    match in_transaction f st1 with
    | Some (res, st2) => Some (res, dec_transaction_level st2)
    | None => None
    end
  end.

Definition with_transaction_unchecked {R} (f : storage_fn (TransactionOutcome R)) : storage_fn R := λ st,
  match inc_transaction_level st with
  | None => in_transaction f st
  | Some st1 =>
    match in_transaction f st1 with
    | Some (res, st2) => Some (res, dec_transaction_level st2)
    | None => None
    end
  end.

(** [Ok] commits, [Err] rolls back. *)
Definition layer_outcome {T} (f : storage_fn (T + DE)) : storage_fn (TransactionOutcome (T + DE)) := λ st,
  match f st with
  | Some (inl t, st') => Some (Commit (inl t), st')
  | Some (inr e, st') => Some (Rollback (inr e), st')
  | None => None
  end.

Definition with_storage_layer {T} (f : storage_fn (T + DE)) : storage_fn (T + DE) :=
  with_transaction (layer_outcome f).

Definition in_storage_layer {T} (f : storage_fn (T + DE)) : storage_fn (T + DE) := λ st,
  if is_transactional st then f st else with_storage_layer f st.

(** ** What a closure must respect *)

(** A closure may read and write and open further layers, but leaves the stack of open
    transactions and the layer counter as it found them. *)
Class LayerSafe {R : Type} (f : storage_fn R) : Prop :=
  layer_safe : ∀ st r st', overlay_wf st → f st = Some (r, st') →
    overlay_wf st' ∧ saved (abs st') = saved (abs st) ∧ client_open (abs st') = client_open (abs st) ∧
    mode (abs st') = mode (abs st) ∧ get_transaction_level st' = get_transaction_level st.

(** Two storages that read the same everywhere but at the counter's own key. *)
Definition same_storage (st st' : St) : Prop :=
  ∀ k, k ≠ TRANSACTION_LEVEL_KEY → read k st' = read k st.

(** Round trip of the codec on the counter, and a decoded [u32] is not negative. *)
Hypothesis level_roundtrip : ∀ n, 0 <= n <= TRANSACTIONAL_LIMIT → decode_level (encode_level n) = Some n.
Hypothesis level_unsigned : ∀ b n, decode_level b = Some n → 0 <= n.

Lemma read_cur k st : read k st = match cur (abs st) !! k with Some v => v | None => backend k end.
Proof. unfold read, get. by rewrite lookup_cur_abs. Qed.

Lemma read_ext st st' k : cur (abs st') !! k = cur (abs st) !! k → read k st' = read k st.
Proof. intros Hc. by rewrite !read_cur, Hc. Qed.

Lemma level_nonneg st : 0 <= get_transaction_level st.
Proof.
  unfold get_transaction_level. destruct (read _ st) as [b|]; simpl; [|lia].
  destruct (decode_level b) as [n|] eqn:E; simpl; [by eapply level_unsigned|lia].
Qed.

Lemma level_ext st st' : cur (abs st') = cur (abs st) → get_transaction_level st' = get_transaction_level st.
Proof. intros Hc. unfold get_transaction_level. f_equal. f_equal. apply read_ext. by rewrite Hc. Qed.

Lemma set_level_spec n st :
  overlay_wf st → 0 <= n <= TRANSACTIONAL_LIMIT →
  let st' := set_transaction_level n st in
  overlay_wf st' ∧ get_transaction_level st' = n ∧ same_storage st st' ∧
  abs st' = mkSnapshots (cur (abs st')) (saved (abs st)) (client_open (abs st)) (mode (abs st)).
Proof.
  intros Hwf Hn st'. pose proof (set_abs TRANSACTION_LEVEL_KEY (Some (encode_level n)) at_extrinsic st Hwf) as Ha.
  split; [by apply set_wf|]. split; [|split].
  - unfold get_transaction_level. rewrite read_cur. subst st'. unfold set_transaction_level. rewrite Ha. simpl.
    rewrite lookup_insert_eq. simpl. by rewrite level_roundtrip.
  - intros k Hk. apply read_ext. subst st'. unfold set_transaction_level. rewrite Ha. simpl.
    by rewrite lookup_insert_ne.
  - subst st'. unfold set_transaction_level. by rewrite Ha.
Qed.

Lemma dec_level_spec st :
  overlay_wf st → 0 < get_transaction_level st <= TRANSACTIONAL_LIMIT →
  let st' := dec_transaction_level st in
  overlay_wf st' ∧ get_transaction_level st' = get_transaction_level st - 1 ∧ same_storage st st' ∧
  abs st' = mkSnapshots (cur (abs st')) (saved (abs st)) (client_open (abs st)) (mode (abs st)).
Proof.
  intros Hwf Hl st'. subst st'. unfold dec_transaction_level.
  rewrite (proj2 (Z.eqb_neq _ 0)) by lia. destruct (Z.eqb_spec (get_transaction_level st) 1) as [E|].
  - pose proof (set_abs TRANSACTION_LEVEL_KEY None at_extrinsic st Hwf) as Ha. unfold kill_transaction_level.
    split; [by apply set_wf|]. split; [|split].
    + unfold get_transaction_level at 1. rewrite read_cur, Ha. simpl. rewrite lookup_insert_eq. simpl. lia.
    + intros k Hk. apply read_ext. rewrite Ha. simpl. by rewrite lookup_insert_ne.
    + by rewrite Ha.
  - apply set_level_spec; [done|]. lia.
Qed.

Lemma close_after_start rb (st st' : St) :
  overlay_wf st → overlay_wf st' → saved (abs st') = saved (abs (start_transaction st)) →
  client_open (abs st') = client_open (abs st) → mode (abs st') = mode (abs st) →
  ∃ st'', close_transaction rb st' = Ok st'' ∧ overlay_wf st'' ∧
    abs st'' = mkSnapshots (cur (abs (if rb then st else st'))) (saved (abs st)) (client_open (abs st)) (mode (abs st)).
Proof.
  intros Hwf Hwf' Hs Hc Hm. destruct (start_transaction_abs st Hwf) as [_ Hst]. apply (f_equal (λ o, match o with Ok a => saved a | _ => [] end)) in Hst.
  cbn [spec_step saved] in Hst. rewrite <-Hst in Hs. pose proof (impl_step_simulates (OClose rb) st' Hwf') as Hsim.
  unfold impl_step, spec_step in Hsim. rewrite Hs, Hc, Hm in Hsim.
  rewrite decide_False in Hsim.
  - destruct (close_transaction rb st') as [st''| |]; [|done..]. destruct Hsim as [? ?].
    exists st''. split; [done|]. split; [done|]. by destruct rb.
  - intros [Hr Hle]. destruct Hwf as [_ Hcl]. specialize (Hcl Hr). simpl in *.
    rewrite length_fmap, length_seq in Hle. lia.
Qed.

Lemma in_transaction_spec {R} (f : storage_fn (TransactionOutcome R)) st :
  overlay_wf st → LayerSafe f →
  match f (start_transaction st) with
  | None => in_transaction f st = None
  | Some (o, st') =>
    ∃ st'', in_transaction f st = Some (match o with Commit r | Rollback r => r end, st'') ∧ overlay_wf st'' ∧
      abs st'' = mkSnapshots (cur (abs (match o with Commit _ => st' | Rollback _ => st end)))
                             (saved (abs st)) (client_open (abs st)) (mode (abs st))
  end.
Proof.
  intros Hwf Hf. unfold in_transaction.
  destruct (f (start_transaction st)) as [[o st']|] eqn:E; [|done].
  destruct (start_transaction_abs st Hwf) as [Hwf1 _].
  destruct (Hf _ _ _ Hwf1 E) as (Hwf' & Hs & Hc & Hm & _).
  destruct o as [r|r].
  - destruct (close_after_start false st st') as (st'' & Hcl & ? & ?); [done..|].
    unfold commit_transaction. rewrite Hcl. eauto.
  - destruct (close_after_start true st st') as (st'' & Hcl & ? & ?); [done..|].
    unfold rollback_transaction. rewrite Hcl. eauto.
Qed.

Lemma start_level st : overlay_wf st → get_transaction_level (start_transaction st) = get_transaction_level st.
Proof.
  intros Hwf. apply level_ext. destruct (start_transaction_abs st Hwf) as [_ Hst].
  apply (f_equal (λ o, match o with Ok a => cur a | _ => ∅ end)) in Hst. by rewrite <-Hst.
Qed.

Lemma with_transaction_spec {T} (f : storage_fn (TransactionOutcome (T + DE))) st :
  overlay_wf st → LayerSafe f → get_transaction_level st < TRANSACTIONAL_LIMIT →
  match f (start_transaction (set_transaction_level (get_transaction_level st + 1) st)) with
  | None => with_transaction f st = None
  | Some (o, st2) =>
    ∃ st3, with_transaction f st = Some (match o with Commit r | Rollback r => r end, st3) ∧ overlay_wf st3 ∧
      get_transaction_level st3 = get_transaction_level st ∧
      saved (abs st3) = saved (abs st) ∧ client_open (abs st3) = client_open (abs st) ∧ mode (abs st3) = mode (abs st) ∧
      same_storage (match o with Commit _ => st2 | Rollback _ => st end) st3
  end.
Proof.
  intros Hwf Hf Hlim. pose proof (level_nonneg st) as Hpos.
  unfold with_transaction, inc_transaction_level. rewrite (proj2 (Z.leb_gt _ _)) by done.
  set (st1 := set_transaction_level (get_transaction_level st + 1) st).
  destruct (set_level_spec (get_transaction_level st + 1) st Hwf) as (Hwf1 & Hl1 & Hsame1 & Ha1); [unfold TRANSACTIONAL_LIMIT in *; lia|].
  fold st1 in Hwf1, Hl1, Hsame1, Ha1.
  pose proof (in_transaction_spec f st1 Hwf1 Hf) as Hin.
  destruct (f (start_transaction st1)) as [[o st2]|] eqn:E; [|by rewrite Hin].
  destruct Hin as (st'' & -> & Hwf'' & Ha''). rewrite Ha1 in Ha''. cbn [saved client_open mode] in Ha''.
  destruct (start_transaction_abs st1 Hwf1) as [Hwfs _].
  destruct (Hf _ _ _ Hwfs E) as (_ & _ & _ & _ & Hl2). rewrite start_level in Hl2 by done.
  set (src := match o with Commit _ => st2 | Rollback _ => st1 end).
  assert (cur (abs st'') = cur (abs src)) as Hcur by (rewrite Ha''; by destruct o).
  assert (get_transaction_level st'' = get_transaction_level st + 1) as Hl''.
  { rewrite (level_ext _ _ Hcur). subst src. destruct o; lia. }
  destruct (dec_level_spec st'' Hwf'') as (Hwf3 & Hl3 & Hsame3 & Ha3); [unfold TRANSACTIONAL_LIMIT in *; lia|].
  rewrite Ha'' in Ha3. cbn [saved client_open mode] in Ha3.
  exists (dec_transaction_level st''). split; [done|]. split; [done|]. split; [lia|].
  split; [by rewrite Ha3|]. split; [by rewrite Ha3|]. split; [by rewrite Ha3|].
  intros k Hk. rewrite Hsame3 by done. rewrite (read_ext src st'') by (by rewrite Hcur).
  subst src. destruct o; [done|]. by apply Hsame1.
Qed.

#[export] Instance layer_outcome_safe {T} (f : storage_fn (T + DE)) : LayerSafe f → LayerSafe (layer_outcome f).
Proof.
  intros Hf st r st' Hwf Hr. unfold layer_outcome in Hr.
  destruct (f st) as [[[t|e] st0]|] eqn:E; simplify_eq; by apply (Hf _ _ _ Hwf E).
Qed.

#[export] Instance with_transaction_safe {T} (f : storage_fn (TransactionOutcome (T + DE))) :
  LayerSafe f → LayerSafe (with_transaction f).
Proof.
  intros Hf st r st' Hwf Hr. destruct (Z.ltb_spec (get_transaction_level st) TRANSACTIONAL_LIMIT) as [Hlt|Hge].
  - pose proof (with_transaction_spec f st Hwf Hf Hlt) as Hs.
    destruct (f _) as [[o st2]|]; [|congruence].
    destruct Hs as (st3 & Hr' & ? & ? & ? & ? & ? & _). by simplify_eq.
  - unfold with_transaction, inc_transaction_level in Hr. rewrite (proj2 (Z.leb_le _ _)) in Hr by done. by simplify_eq.
Qed.

#[export] Instance with_storage_layer_safe {T} (f : storage_fn (T + DE)) :
  LayerSafe f → LayerSafe (with_storage_layer f).
Proof. intros Hf. unfold with_storage_layer. apply _. Qed.

#[export] Instance in_storage_layer_safe {T} (f : storage_fn (T + DE)) :
  LayerSafe f → LayerSafe (in_storage_layer f).
Proof.
  intros Hf st r st' Hwf. unfold in_storage_layer. destruct (is_transactional st); [by apply Hf|].
  by apply with_storage_layer_safe.
Qed.

(** Writing any key but the counter's is safe, and so is running two safe functions in turn. *)
Definition write (k : K) (v : option B) : storage_fn unit := λ st, Some (tt, set k v at_extrinsic st).
Definition sequence {R1 R2} (f : storage_fn R1) (g : R1 → storage_fn R2) : storage_fn R2 := λ st,
  match f st with Some (r, st') => g r st' | None => None end.

Lemma write_safe k v : k ≠ TRANSACTION_LEVEL_KEY → LayerSafe (write k v).
Proof.
  intros Hk st r st' Hwf Hr. unfold write in Hr. simplify_eq.
  pose proof (set_abs k v at_extrinsic st Hwf) as Ha. split; [by apply set_wf|]. rewrite Ha. simpl. repeat split.
  unfold get_transaction_level. do 2 f_equal. apply read_ext. rewrite Ha. simpl. by rewrite lookup_insert_ne.
Qed.

#[export] Instance sequence_safe {R1 R2} (f : storage_fn R1) (g : R1 → storage_fn R2) :
  LayerSafe f → (∀ r, LayerSafe (g r)) → LayerSafe (sequence f g).
Proof.
  intros Hf Hg st r st' Hwf Hr. unfold sequence in Hr. destruct (f st) as [[r1 st1]|] eqn:E; [|done].
  destruct (Hf _ _ _ Hwf E) as (Hwf1 & Hs1 & Hc1 & Hm1 & Hl1).
  destruct (Hg _ _ _ _ Hwf1 Hr) as (? & ? & ? & ? & ?). split; [done|]. repeat split; congruence.
Qed.

(** C4. A dispatchable that returns [Err] inside a storage layer leaves no trace: the layer
    returns the same error, every key of the storage (but the layer counter's own, whose level
    is restored) reads as before, and no transaction stays open. *)
Theorem storage_layer_err_no_trace {T} (f : storage_fn (T + DE)) st e st2 :
  overlay_wf st → LayerSafe f → get_transaction_level st < TRANSACTIONAL_LIMIT →
  f (start_transaction (set_transaction_level (get_transaction_level st + 1) st)) = Some (inr e, st2) →
  ∃ st3, with_storage_layer f st = Some (inr e, st3) ∧ same_storage st st3 ∧
    get_transaction_level st3 = get_transaction_level st ∧ saved (abs st3) = saved (abs st).
Proof.
  intros Hwf Hf Hlim Hr. pose proof (with_transaction_spec (layer_outcome f) st Hwf (layer_outcome_safe f Hf) Hlim) as Hs.
  unfold layer_outcome in Hs. rewrite Hr in Hs. destruct Hs as (st3 & ? & _ & ? & ? & _ & _ & ?). by exists st3.
Qed.

(** A dispatchable that returns [Ok] inside a storage layer has all its writes kept. *)
Theorem storage_layer_ok_keeps {T} (f : storage_fn (T + DE)) st t st2 :
  overlay_wf st → LayerSafe f → get_transaction_level st < TRANSACTIONAL_LIMIT →
  f (start_transaction (set_transaction_level (get_transaction_level st + 1) st)) = Some (inl t, st2) →
  ∃ st3, with_storage_layer f st = Some (inl t, st3) ∧ same_storage st2 st3 ∧
    get_transaction_level st3 = get_transaction_level st ∧ saved (abs st3) = saved (abs st).
Proof.
  intros Hwf Hf Hlim Hr. pose proof (with_transaction_spec (layer_outcome f) st Hwf (layer_outcome_safe f Hf) Hlim) as Hs.
  unfold layer_outcome in Hs. rewrite Hr in Hs. destruct Hs as (st3 & ? & _ & ? & ? & _ & _ & ?). by exists st3.
Qed.

(** A function that opens [n] layers, one inside the other. *)
Fixpoint nested_layers (n : nat) : storage_fn (unit + DE) :=
  match n with
  | O => λ st, Some (inl tt, st)
  | S n' => with_storage_layer (nested_layers n')
  end.

Lemma nested_layers_safe n : LayerSafe (nested_layers n).
Proof.
  induction n as [|n IH]; [|simpl; by apply with_storage_layer_safe].
  intros st r st' Hwf Hr. simpl in Hr. by simplify_eq.
Qed.

(** Exactly [TRANSACTIONAL_LIMIT] layers can be nested: from level [l], opening [n] layers
    succeeds when [l + n] stays within the limit and returns [LimitReached] otherwise; it never
    panics and the storage reads as before in both cases. *)
Theorem nested_layers_limit n st :
  overlay_wf st → get_transaction_level st <= TRANSACTIONAL_LIMIT →
  ∃ st', nested_layers n st =
      Some (if get_transaction_level st + Z.of_nat n <=? TRANSACTIONAL_LIMIT then inl tt else inr LimitReached, st') ∧
    overlay_wf st' ∧ same_storage st st'.
Proof.
  revert st. induction n as [|n IH]; intros st Hwf Hle; simpl.
  - rewrite (proj2 (Z.leb_le _ _)) by lia. by exists st.
  - destruct (Z.ltb_spec (get_transaction_level st) TRANSACTIONAL_LIMIT) as [Hlt|Hge].
    + pose proof (level_nonneg st) as Hpos.
      pose proof (with_transaction_spec _ st Hwf (layer_outcome_safe _ (nested_layers_safe n)) Hlt) as Hs.
      destruct (set_level_spec (get_transaction_level st + 1) st Hwf) as (Hwf1 & Hl1 & Hsame1 & _); [lia|].
      destruct (start_transaction_abs _ Hwf1) as [Hwf1' Hst].
      destruct (IH _ Hwf1') as (st2 & Hn & _ & Hsame); [rewrite start_level by done; lia|].
      unfold layer_outcome in Hs. rewrite Hn, start_level, Hl1 in Hs by done.
      replace (get_transaction_level st + 1 + Z.of_nat n) with (get_transaction_level st + Z.of_nat (S n)) in Hs by lia.
      unfold with_storage_layer. destruct (Z.leb_spec (get_transaction_level st + Z.of_nat (S n)) TRANSACTIONAL_LIMIT).
      * destruct Hs as (st3 & Hr & Hwf3 & _ & _ & _ & _ & Hs3). exists st3. split; [done|]. split; [done|].
        intros k Hk. rewrite Hs3, Hsame, <-(Hsame1 k) by done. apply read_ext.
        apply (f_equal (λ o, match o with Ok a => cur a | _ => ∅ end)) in Hst. by rewrite <-Hst.
      * destruct Hs as (st3 & Hr & Hwf3 & _ & _ & _ & _ & Hs3). by exists st3.
    + unfold with_storage_layer, with_transaction, inc_transaction_level.
      rewrite (proj2 (Z.leb_le _ _)), (proj2 (Z.leb_gt _ _)) by lia. by exists st.
Qed.

End Layers.

(** ** Witnesses *)

(** Keys and values are numbers, the counter is encoded as itself. *)
Definition decode_number (n : Z) : option Z := if 0 <=? n then Some n else None.

Lemma number_roundtrip n : 0 <= n <= TRANSACTIONAL_LIMIT → decode_number (id n) = Some n.
Proof. intros Hn. unfold decode_number. simpl. by rewrite (proj2 (Z.leb_le 0 n)) by lia. Qed.

Lemma number_unsigned b n : decode_number b = Some n → 0 <= n.
Proof. unfold decode_number. case_match; intros; simplify_eq. by apply Z.leb_le. Qed.

(** A closure that writes one key and returns [r]. *)
Definition write_and {R} (k v : Z) (r : R) : storage_fn (K := Z) (B := Z) R := λ st, Some (r, set k (Some v) None st).

Lemma write_and_safe {R} k v (r : R) : k ≠ 0 → LayerSafe 0 decode_number (λ _, None) (write_and k v r).
Proof.
  intros Hk st r' st' Hwf Hw. unfold write_and in Hw. simplify_eq.
  pose proof (set_abs k (Some v) None st Hwf) as Ha. split; [by apply set_wf|]. rewrite Ha. repeat split.
  unfold get_transaction_level. rewrite !read_cur, Ha. simpl. by rewrite lookup_insert_ne.
Qed.

Lemma err_no_trace_witness :
  ∃ st3, with_storage_layer 0 id decode_number (λ _, None) None tt (write_and 1 5 (inr tt : unit + unit)) overlay_default = Some (inr tt, st3) ∧
    read (λ _, None) 1 st3 = read (λ _, None) 1 overlay_default.
Proof.
  destruct (storage_layer_err_no_trace 0 id decode_number (λ _, None) None tt number_roundtrip number_unsigned
    (write_and 1 5 (inr tt : unit + unit)) overlay_default tt
    (set 1 (Some 5) None (start_transaction (set_transaction_level 0 id None 1 overlay_default)))) as (st3 & Hr & Hs & _).
  - apply overlay_default_wf.
  - by apply write_and_safe.
  - reflexivity.
  - reflexivity.
  - exists st3. split; [exact Hr|]. by apply Hs.
Defined.

Lemma ok_keeps_witness :
  ∃ st3, with_storage_layer 0 id decode_number (λ _, None) None tt (write_and 1 5 (inl tt : unit + unit)) overlay_default = Some (inl tt, st3) ∧
    read (λ _, None) 1 st3 = Some 5.
Proof.
  destruct (storage_layer_ok_keeps 0 id decode_number (λ _, None) None tt number_roundtrip number_unsigned
    (write_and 1 5 (inl tt : unit + unit)) overlay_default tt
    (set 1 (Some 5) None (start_transaction (set_transaction_level 0 id None 1 overlay_default)))) as (st3 & Hr & Hs & _).
  - apply overlay_default_wf.
  - by apply write_and_safe.
  - reflexivity.
  - reflexivity.
  - exists st3. split; [exact Hr|]. rewrite Hs by done. reflexivity.
Defined.

Lemma nested_layers_witness :
  ∃ st', nested_layers 0 id decode_number (λ _, None) None tt 3 overlay_default = Some (inl tt, st').
Proof.
  destruct (nested_layers_limit 0 id decode_number (λ _, None) None tt number_roundtrip number_unsigned 3 overlay_default) as (st' & Hr & _).
  - apply overlay_default_wf.
  - vm_compute. congruence.
  - exists st'. exact Hr.
Defined.
