(* ===== verification/Runtime.v ===== *)
(** The data of the node's runtime: the errors, events and storage items of the modelled
    pallets, gathered in one [Store], and the monad the pallets run in.

    Type parameters of the pallets are instantiated as in [bin/node/runtime/src/lib.rs]:
    balances are [u128], block numbers, nonces and reference counts [u32]; an account id is a
    32-byte key, kept as the number it spells since the code only compares account ids. *)

From S2P Require Import Prelude.

Abbreviation AccountId := N.
Abbreviation Balance := Z.
Abbreviation BlockNumber := Z.
Abbreviation Bytes := (list Z).

(** ** Errors *)

Inductive TokenError := NoFunds | WouldDie | BelowMinimum | CannotCreate | UnknownAsset | Frozen | Unsupported.
Inductive ArithmeticError := Underflow | Overflow | DivisionByZero.

(** The pallets' [Error] enums. *)
Inductive BalancesError :=
| VestingBalance | LiquidityRestrictions | InsufficientBalance | ExistentialDepositE | KeepAliveE
| ExistingVestingSchedule | DeadAccount | TooManyReserves.
Inductive IndicesError := NotAssigned | NotOwner | InUse | NotTransfer | Permanent.
Inductive VestingError := NotVesting | AtMaxVestingSchedules | AmountLow | ScheduleIndexOutOfBounds | InvalidScheduleParams.
Inductive KnowledgeError :=
| KnowledgeNotExist | NotOwned | NoPermission | NoContent | UnknownOffchainMux | NoLocalAcctForSigning
| OffchainSignedTxError | OffchainUnsignedTxError | OffchainUnsignedTxSignedPayloadError
| HttpFetchingError | DeserializeToObjError | DeserializeToStrError.
Inductive MarketError := PermissionNotSet | PermissionOwnerSetNotSale | NotOriginOwner | MarketOverflow.

(** [Error::List(ListError)] of [pallet_bags_list]. *)
Inductive ListError := Duplicate | NotHeavier | NotInSameBag | NodeNotFound.

Inductive ModuleError :=
| BalancesE (e : BalancesError)
| IndicesE (e : IndicesError)
| VestingE (e : VestingError)
| KnowledgeE (e : KnowledgeError)
| MarketE (e : MarketError)
| BagsListE (e : ListError).

Inductive DispatchError :=
| Other (msg : string)
| CannotLookup
| BadOrigin
| Module_ (e : ModuleError)
| ConsumerRemaining
| NoProviders
| TooManyConsumers
| Token (e : TokenError)
| Arithmetic (e : ArithmeticError)
| TransactionalLimitReached
| Exhausted
| Corruption
| Unavailable.

(** ** Accounts *)

Record AccountData := mkData {
  free : Balance;
  reserved : Balance;
  misc_frozen : Balance;
  fee_frozen : Balance }.

Record AccountInfo := mkInfo {
  nonce : Z;
  consumers : Z;
  providers : Z;
  sufficients : Z;
  data : AccountData }.

Definition default_data : AccountData := mkData 0 0 0 0.
Definition default_info : AccountInfo := mkInfo 0 0 0 0 default_data.

#[global] Instance AccountData_eq_dec : EqDecision AccountData.
Proof. solve_decision. Defined.

(** ** Balances *)

Inductive Reasons := Fee | Misc | All.
Inductive BalanceStatus := Free | Reserved.
Inductive ExistenceRequirement := KeepAlive | AllowDeath.

#[global] Instance Reasons_eq_dec : EqDecision Reasons.
Proof. solve_decision. Defined.
#[global] Instance BalanceStatus_eq_dec : EqDecision BalanceStatus.
Proof. solve_decision. Defined.
#[global] Instance ExistenceRequirement_eq_dec : EqDecision ExistenceRequirement.
Proof. solve_decision. Defined.

(** Lock and reserve identifiers are [[u8; 8]]; they are compared, and reserves are ordered by
    them, so they are kept as the big-endian number they spell, which orders the same way. *)
Abbreviation LockIdentifier := Z.
Abbreviation ReserveIdentifier := Z.

Record BalanceLock := mkLock { lock_id : LockIdentifier; lock_amount : Balance; lock_reasons : Reasons }.
Record ReserveData := mkReserve { reserve_id : ReserveIdentifier; reserve_amount : Balance }.

Record BalancesStore := mkBalances {
  TotalIssuance : Balance;
  InactiveIssuance : Balance;
  Locks : gmap AccountId (list BalanceLock);
  Reserves : gmap AccountId (list ReserveData) }.

(** ** Vesting *)

(** [raw_per_block] is the field [per_block], which the code reads through an accessor. *)
Record VestingInfo := mkVesting {
  locked : Balance;
  raw_per_block : Balance;
  starting_block : BlockNumber }.

Inductive Releases := V0 | V1.

(** [pallet_vesting] *)
Record VestingStore := mkVestingStore {
  Vesting : gmap AccountId (list VestingInfo);
  StorageVersion : Releases }.

(** ** IPFS, knowledge and market data *)

Inductive IpfsCommand :=
| ConnectTo (address : Bytes)
| DisconnectFrom (address : Bytes)
| AddBytes (version : Z)
| CatBytes (cid : Bytes)
| InsertPin (cid : Bytes)
| RemoveBlock (cid : Bytes)
| RemovePin (cid : Bytes)
| FindPeer (peer : Bytes)
| GetProviders (cid : Bytes).

Record CommandRequest := mkRequest {
  identifier : Bytes;
  requester : AccountId;
  ipfs_commands : list IpfsCommand }.

Record OffchainData := mkOffchainData { od_data : Bytes; od_meta_data : Bytes }.
Record IpfsFile := mkIpfsFile { file_cid : Bytes; file_meta_data : Bytes }.
Record Permit := mkPermit { viewable : bool; editable : bool; sellable : bool }.
Record SaleData := mkSaleData { price : Balance }.

#[global] Instance CommandRequest_eq_dec : EqDecision CommandRequest.
Proof. assert (EqDecision IpfsCommand) by solve_decision. solve_decision. Defined.

(** [pallet_tds_ipfs] *)
Record IpfsStore := mkIpfs {
  Commands : option (list CommandRequest);
  IpfsFileStorage : gmap Bytes IpfsFile }.

(** [pallet_knowledge]; its [IpfsFileStorage] is a storage item of its own. *)
Record KnowledgeStore := mkKnowledge {
  Knowledge : gmap (BlockNumber * AccountId) (list BlockNumber);
  KnowledgeFiles : gmap Bytes IpfsFile;
  IpfsData : gmap BlockNumber OffchainData;
  KAccount : gmap (AccountId * BlockNumber) Z }.

(** [pallet_knowledge_market] *)
Record MarketStore := mkMarket {
  KnowledgeBlockForSale : gmap (Z * AccountId) SaleData;
  Permission : gmap Z Permit }.

(** ** Events *)

Inductive SystemEvent := NewAccount (account : AccountId) | KilledAccount (account : AccountId).

Inductive BalancesEvent :=
| Endowed (account : AccountId) (free_balance : Balance)
| DustLost (account : AccountId) (amount : Balance)
| Transfer (from to : AccountId) (amount : Balance)
| BalanceSet (who : AccountId) (free_ reserved_ : Balance)
| ReservedEv (who : AccountId) (amount : Balance)
| Unreserved (who : AccountId) (amount : Balance)
| ReserveRepatriated (from to : AccountId) (amount : Balance) (destination_status : BalanceStatus)
| Deposit (who : AccountId) (amount : Balance)
| Withdraw (who : AccountId) (amount : Balance)
| Slashed (who : AccountId) (amount : Balance).

Inductive IndicesEvent :=
| IndexAssigned (who : AccountId) (index : Z)
| IndexFreed (index : Z)
| IndexFrozen (index : Z) (who : AccountId).

Inductive VestingEvent :=
| VestingUpdated (account : AccountId) (unvested : Balance)
| VestingCompleted (account : AccountId).

(** The events of the command life cycle, which [pallet_tds_ipfs] and [pallet_knowledge] both
    declare. *)
Inductive CommandEvent :=
| QueuedDataToAdd (who requester_ : AccountId)
| OcwCallback (signer : AccountId)
| ConnectedTo (who : AccountId) (address : Bytes)
| DisconnectedFrom (who : AccountId) (address : Bytes)
| AddedCid (who : AccountId) (cid : Bytes)
| CatBytesEv (who : AccountId) (cid bytes : Bytes)
| InsertedPin (who : AccountId) (cid : Bytes)
| RemovedPin (who : AccountId) (cid : Bytes)
| RemovedBlock (who : AccountId) (cid : Bytes)
| FoundPeers (who : AccountId) (peers : Bytes)
| CidProviders (who : AccountId) (cid providers_ : Bytes).

Inductive KnowledgeEvent :=
| Created (creator : AccountId) (block_number : BlockNumber) (title text : Bytes)
| Modified (creator owner : AccountId) (block_number : BlockNumber) (title text : Bytes)
| Owners (requestor : AccountId) (block_number : BlockNumber) (owners : list AccountId)
| DataStored (block_number : BlockNumber)
| KCommand (e : CommandEvent).

Inductive MarketEvent := ListForSale (id : Z) (who : AccountId) (price_ : Balance).

Inductive RuntimeEvent :=
| ESystem (e : SystemEvent)
| EBalances (e : BalancesEvent)
| EIndices (e : IndicesEvent)
| EVesting (e : VestingEvent)
| EIpfs (e : CommandEvent)
| EKnowledge (e : KnowledgeEvent)
| EMarket (e : MarketEvent).

Inductive Phase := ApplyExtrinsic (n : Z) | Finalization | Initialization.

(** ** Storage *)

Record SystemStore := mkSystem {
  Account : gmap AccountId AccountInfo;
  Number : BlockNumber;
  ExecutionPhase : option Phase;
  EventCount : Z;
  Events : list (Phase * RuntimeEvent) }.

(** [offchain_index] holds the writes made by [sp_io::offchain_index] during the block, which
    reach the off-chain database when the block is imported; [offchain_db] is the persistent
    off-chain database and [capabilities] the capabilities of the execution context. *)
Record Store := mkStore {
  sys : SystemStore;
  bal : BalancesStore;
  indices : gmap Z (AccountId * Balance * bool);
  vesting : VestingStore;
  ipfs : IpfsStore;
  know : KnowledgeStore;
  market : MarketStore;
  offchain_index : gmap Bytes (option Bytes);
  offchain_db : gmap Bytes Bytes;
  capabilities : Z }.

Definition with_sys (f : SystemStore → SystemStore) (s : Store) : Store :=
  mkStore (f (sys s)) (bal s) (indices s) (vesting s) (ipfs s) (know s) (market s) (offchain_index s) (offchain_db s) (capabilities s).
Definition with_bal (f : BalancesStore → BalancesStore) (s : Store) : Store :=
  mkStore (sys s) (f (bal s)) (indices s) (vesting s) (ipfs s) (know s) (market s) (offchain_index s) (offchain_db s) (capabilities s).
Definition with_indices (f : gmap Z (AccountId * Balance * bool) → gmap Z (AccountId * Balance * bool)) (s : Store) : Store :=
  mkStore (sys s) (bal s) (f (indices s)) (vesting s) (ipfs s) (know s) (market s) (offchain_index s) (offchain_db s) (capabilities s).
Definition with_vesting (f : VestingStore → VestingStore) (s : Store) : Store :=
  mkStore (sys s) (bal s) (indices s) (f (vesting s)) (ipfs s) (know s) (market s) (offchain_index s) (offchain_db s) (capabilities s).
Definition with_ipfs (f : IpfsStore → IpfsStore) (s : Store) : Store :=
  mkStore (sys s) (bal s) (indices s) (vesting s) (f (ipfs s)) (know s) (market s) (offchain_index s) (offchain_db s) (capabilities s).
Definition with_know (f : KnowledgeStore → KnowledgeStore) (s : Store) : Store :=
  mkStore (sys s) (bal s) (indices s) (vesting s) (ipfs s) (f (know s)) (market s) (offchain_index s) (offchain_db s) (capabilities s).
Definition with_market (f : MarketStore → MarketStore) (s : Store) : Store :=
  mkStore (sys s) (bal s) (indices s) (vesting s) (ipfs s) (know s) (f (market s)) (offchain_index s) (offchain_db s) (capabilities s).
Definition with_offchain_index (f : gmap Bytes (option Bytes) → gmap Bytes (option Bytes)) (s : Store) : Store :=
  mkStore (sys s) (bal s) (indices s) (vesting s) (ipfs s) (know s) (market s) (f (offchain_index s)) (offchain_db s) (capabilities s).
Definition with_offchain_db (f : gmap Bytes Bytes → gmap Bytes Bytes) (s : Store) : Store :=
  mkStore (sys s) (bal s) (indices s) (vesting s) (ipfs s) (know s) (market s) (offchain_index s) (f (offchain_db s)) (capabilities s).

Definition with_accounts (f : gmap AccountId AccountInfo → gmap AccountId AccountInfo) (y : SystemStore) : SystemStore :=
  mkSystem (f (Account y)) (Number y) (ExecutionPhase y) (EventCount y) (Events y).
Definition with_issuance (f : Balance → Balance) (b : BalancesStore) : BalancesStore :=
  mkBalances (f (TotalIssuance b)) (InactiveIssuance b) (Locks b) (Reserves b).
Definition with_inactive (f : Balance → Balance) (b : BalancesStore) : BalancesStore :=
  mkBalances (TotalIssuance b) (f (InactiveIssuance b)) (Locks b) (Reserves b).
Definition with_locks (f : gmap AccountId (list BalanceLock) → gmap AccountId (list BalanceLock)) (b : BalancesStore) : BalancesStore :=
  mkBalances (TotalIssuance b) (InactiveIssuance b) (f (Locks b)) (Reserves b).
Definition with_reserves (f : gmap AccountId (list ReserveData) → gmap AccountId (list ReserveData)) (b : BalancesStore) : BalancesStore :=
  mkBalances (TotalIssuance b) (InactiveIssuance b) (Locks b) (f (Reserves b)).

Definition with_schedules (f : gmap AccountId (list VestingInfo) → gmap AccountId (list VestingInfo)) (v : VestingStore) : VestingStore :=
  mkVestingStore (f (Vesting v)) (StorageVersion v).

(** Runtime code: reads and writes the store, returns a [DispatchError] or panics. *)
Abbreviation Run := (M Store DispatchError).

(** Rust's drop glue: what happens when a value goes out of scope.  Only the imbalances of
    [pallet_balances] (and what contains them) have an effect. *)
Class Drop (R : Type) := drop_value : R → Run unit.

#[export] Instance drop_unit : Drop unit := λ _, ret tt.
#[export] Instance drop_balance : Drop Z := λ _, ret tt.
#[export] Instance drop_account_data : Drop AccountData := λ _, ret tt.
#[export] Instance drop_pair {A B} `{Drop A} `{Drop B} : Drop (A * B) := λ p, do! drop_value p.1 in drop_value p.2.
#[export] Instance drop_option {A} `{Drop A} : Drop (option A) := λ o, match o with Some a => drop_value a | None => ret tt end.
(** The [Result] that a closure passed to [mutate_account] may itself return. *)
#[export] Instance drop_result {A B} `{Drop A} : Drop (A + B) := λ r, match r with inl a => drop_value a | inr _ => ret tt end.

(** ** Dispatch *)

Inductive RawOrigin := Root | Signed (who : AccountId) | NoneOrigin.

(** Every dispatchable runs in a storage layer of its own ([with_storage_layer], see
    [Transactional]): an [Err] discards the writes.  A panic aborts the extrinsic and its
    writes with it. *)
Definition dispatch {A} (m : Run A) : Run A := λ s,
  match m s with
  | (Ok a, s') => (Ok a, s')
  | (r, _) => (r, s)
  end.

Definition empty_store (number caps : Z) : Store :=
  mkStore (mkSystem ∅ number None 0 []) (mkBalances 0 0 ∅ ∅) ∅ (mkVestingStore ∅ V0) (mkIpfs None ∅) (mkKnowledge ∅ ∅ ∅ ∅) (mkMarket ∅ ∅) ∅ ∅ caps.
