(* ===== verification/Overlay.v ===== *)
(** The whole overlay of a block's execution ([primitives/state-machine/src/overlayed_changes/mod.rs] and
    [offchain.rs], with the counters of [stats.rs]): one change set for the main storage, one for each
    child storage that was written, one for the off-chain index, and the transactions over all of them.

    The change sets are those of [Changeset].  The specification is three kinds of stacks of snapshots
    that see the same transactions: [overlay_refines_snapshots].

    The codec that reads the index of the current extrinsic and the backend that computes the storage root are
    third-party code and the trie behind the storage: the class [OverlayEnv]. *)

From S2P Require Import Prelude Changeset Runtime.

(** ** Data *)

Inductive ChildInfo := ParentKeyId (data : Bytes).

Definition storage_key (info : ChildInfo) : Bytes := let '(ParentKeyId data) := info in data.

Inductive OffchainOverlayedChange := Remove | SetValue (value : Bytes).

Inductive IndexOperation :=
| IndexInsert (extrinsic : Z) (hash : Bytes) (size : Z)
| IndexRenew (extrinsic : Z) (hash : Bytes).

Record StateMachineStats := mkStats {
  reads_modified : Z;
  bytes_read_modified : Z;
  writes_overlay : Z;
  bytes_writes_overlay : Z }.

Definition tally_read_modified (st : StateMachineStats) (data_bytes : Z) : StateMachineStats :=
  mkStats (wrapping_add 64 (reads_modified st) 1) (wrapping_add 64 (bytes_read_modified st) data_bytes) (writes_overlay st) (bytes_writes_overlay st).
Definition tally_write_overlay (st : StateMachineStats) (data_bytes : Z) : StateMachineStats :=
  mkStats (reads_modified st) (bytes_read_modified st) (wrapping_add 64 (writes_overlay st) 1) (wrapping_add 64 (bytes_writes_overlay st) data_bytes).

Abbreviation ChangeSet := (OverlayedMap Bytes (option Bytes)).
Abbreviation OffchainSet := (OverlayedMap (Bytes * Bytes) OffchainOverlayedChange).

Record OverlayedChanges := mkOverlayed {
  top : ChangeSet;
  children : gmap Bytes (ChangeSet * ChildInfo);
  offchain : OffchainSet;
  transaction_index_ops : list IndexOperation;
  collect_extrinsics : bool;
  stats : StateMachineStats }.

Definition with_top (t : ChangeSet) (ov : OverlayedChanges) : OverlayedChanges :=
  mkOverlayed t (children ov) (offchain ov) (transaction_index_ops ov) (collect_extrinsics ov) (stats ov).
Definition with_children (c : gmap Bytes (ChangeSet * ChildInfo)) (ov : OverlayedChanges) : OverlayedChanges :=
  mkOverlayed (top ov) c (offchain ov) (transaction_index_ops ov) (collect_extrinsics ov) (stats ov).
Definition with_offchain (o : OffchainSet) (ov : OverlayedChanges) : OverlayedChanges :=
  mkOverlayed (top ov) (children ov) o (transaction_index_ops ov) (collect_extrinsics ov) (stats ov).
Definition with_index_ops (l : list IndexOperation) (ov : OverlayedChanges) : OverlayedChanges :=
  mkOverlayed (top ov) (children ov) (offchain ov) l (collect_extrinsics ov) (stats ov).
Definition with_stats (st : StateMachineStats) (ov : OverlayedChanges) : OverlayedChanges :=
  mkOverlayed (top ov) (children ov) (offchain ov) (transaction_index_ops ov) (collect_extrinsics ov) st.

Inductive StateVersion := StateV0 | StateV1.

(** The delta of the main storage and those of the children give a root and a transaction for the database. *)
Class OverlayEnv := {
  decode_u32 : Bytes → option Z;
  Transaction : Type;
  Root : Type;
  full_storage_root : gmap Bytes (option Bytes) → list (ChildInfo * gmap Bytes (option Bytes)) → StateVersion → Root * Transaction }.

Module Overlayed.
Section Ops.
Context `{OverlayEnv}.
Local Open Scope rust_scope.

Abbreviation O := (M OverlayedChanges TxError).

(** [:extrinsic_index] *)
Definition EXTRINSIC_INDEX : Bytes := [58; 101; 120; 116; 114; 105; 110; 115; 105; 99; 95; 105; 110; 100; 101; 120].
Definition NO_EXTRINSIC_INDEX : Z := u32_max.
(** [storage] *)
Definition STORAGE_PREFIX : Bytes := [115; 116; 111; 114; 97; 103; 101].

Definition default_overlay : OverlayedChanges := mkOverlayed overlay_default ∅ overlay_default [] false (mkStats 0 0 0 0).

Definition is_empty (ov : OverlayedChanges) : bool := Changeset.is_empty (top ov) && bool_decide (children ov = ∅).

Definition set_collect_extrinsics (collect : bool) : O unit :=
  modify (λ ov, mkOverlayed (top ov) (children ov) (offchain ov) (transaction_index_ops ov) collect (stats ov)).

(** *** Reading *)

Definition size_of (v : option Bytes) : Z := Z.of_nat (from_option length 0%nat v).

Definition tally_read (v : option Bytes) : O unit := modify (λ ov, with_stats (tally_read_modified (stats ov) (size_of v)) ov).
Definition tally_write (v : option Bytes) : O unit := modify (λ ov, with_stats (tally_write_overlay (stats ov) (size_of v)) ov).

Definition storage (key : Bytes) : O (option (option Bytes)) :=
  let! t := gets top in
  match get t key with
  | None => ret None
  | Some e =>
      let! value := unwrap (value_ref e) in
      do! tally_read value in
      ret (Some value)
  end.

Definition child_storage (info : ChildInfo) (key : Bytes) : O (option (option Bytes)) :=
  let! cs := gets children in
  match cs !! storage_key info with
  | None => ret None
  | Some (cs, _) =>
      match get cs key with
      | None => ret None
      | Some e =>
          let! value := unwrap (value_ref e) in
          do! tally_read value in
          ret (Some value)
      end
  end.

Definition extrinsic_index : O (option Z) :=
  let! collect := gets collect_extrinsics in
  if collect then
    let! idx := storage EXTRINSIC_INDEX in
    ret (Some (default NO_EXTRINSIC_INDEX (idx ≫= (λ idx, idx ≫= decode_u32))))
  else ret None.

(** *** Writing *)

(** [f] is what the caller does with the reference. *)
Definition value_mut_or_insert_with (key init : Bytes) (f : Bytes → Bytes) : O unit :=
  let! idx := extrinsic_index in
  modify (λ ov, with_top (modify_value key init idx (λ value, Some (f (default [] value))) (top ov)) ov).

Definition set_storage (key : Bytes) (val : option Bytes) : O unit :=
  do! tally_write val in
  let! idx := extrinsic_index in
  modify (λ ov, with_top (Changeset.set key val idx (top ov)) ov).

(** The entry of the child, made with the transactions of the top one when it is new. *)
Definition child_entry (info : ChildInfo) (ov : OverlayedChanges) : ChangeSet * ChildInfo :=
  default (spawn_child (top ov), info) (children ov !! storage_key info).

Definition put_child (info : ChildInfo) (entry : ChangeSet * ChildInfo) (ov : OverlayedChanges) : OverlayedChanges :=
  with_children (<[storage_key info := entry]> (children ov)) ov.

Definition set_child_storage (info : ChildInfo) (key : Bytes) (val : option Bytes) : O unit :=
  let! idx := extrinsic_index in
  do! tally_write val in
  modify (λ ov, let '(cs, i) := child_entry info ov in put_child info (Changeset.set key val idx cs, i) ov).

Definition starts_with (key prefix : Bytes) : bool := bool_decide (prefix `prefix_of` key).

Definition clear_child_where (info : ChildInfo) (p : Bytes → bool) : O Z :=
  let! idx := extrinsic_index in
  let! ov := gets id in
  let '(cs, i) := child_entry info ov in
  let '(count, cs) := clear_where (λ key _, p key) idx cs in
  do! modify (put_child info (cs, i)) in
  ret count.

Definition clear_child_storage (info : ChildInfo) : O Z := clear_child_where info (λ _, true).

Definition clear_child_prefix (info : ChildInfo) (prefix : Bytes) : O Z := clear_child_where info (λ key, starts_with key prefix).

Definition clear_prefix (prefix : Bytes) : O Z :=
  let! idx := extrinsic_index in
  let! ov := gets id in
  let '(count, t) := clear_where (λ key _, starts_with key prefix) idx (top ov) in
  do! modify (with_top t) in
  ret count.

Definition set_offchain_storage (key : Bytes) (value : option Bytes) : O unit :=
  modify (λ ov, with_offchain (Changeset.set (STORAGE_PREFIX, key) (match value with Some v => SetValue v | None => Remove end) None (offchain ov)) ov).

Definition add_transaction_index (op : IndexOperation) : O unit :=
  modify (λ ov, with_index_ops (transaction_index_ops ov ++ [op]) ov).

(** *** Transactions *)

Definition transaction_depth (ov : OverlayedChanges) : nat := Changeset.transaction_depth (top ov).

Definition start_transaction : O unit :=
  modify (λ ov,
    with_offchain (Changeset.start_transaction (offchain ov))
      (with_children ((λ c : ChangeSet * ChildInfo, (Changeset.start_transaction c.1, c.2)) <$> children ov)
        (with_top (Changeset.start_transaction (top ov)) ov))).

(** An operation on every child, which is expected to succeed. *)
Definition is_ok {E A} (r : outcome E A) : bool := match r with Ok _ => true | _ => false end.

Definition each_child (f : ChangeSet → outcome TxError ChangeSet) (cs : gmap Bytes (ChangeSet * ChildInfo)) : option (gmap Bytes (ChangeSet * ChildInfo)) :=
  if forallb (λ kc : Bytes * (ChangeSet * ChildInfo), is_ok (f kc.2.1)) (map_to_list cs)
  then Some (omap (λ c : ChangeSet * ChildInfo, match f c.1 with Ok m => Some (m, c.2) | _ => None end) cs)
  else None.

(** The top set first, whose error is returned; then the children, of which [keep] says which stay,
    and the off-chain set, which are expected to succeed. *)
Definition in_lockstep (on_set : ChangeSet → outcome TxError ChangeSet) (on_offchain : OffchainSet → outcome TxError OffchainSet) (keep : ChangeSet → bool) : O unit :=
  let! t := gets top in
  match on_set t with
  | Err e => throw e
  | Panic => panic
  | Ok t =>
      do! modify (with_top t) in
      let! cs := gets children in
      let! cs := unwrap (each_child on_set cs) in
      do! modify (with_children (filter (λ kc, keep kc.2.1 = true) cs)) in
      let! o := gets offchain in
      match on_offchain o with
      | Ok o => modify (with_offchain o)
      | _ => panic
      end
  end.

Definition rollback_transaction : O unit :=
  in_lockstep Changeset.rollback_transaction Changeset.rollback_transaction (λ cs, negb (Changeset.is_empty cs)).

Definition commit_transaction : O unit := in_lockstep Changeset.commit_transaction Changeset.commit_transaction (λ _, true).

Definition enter_runtime : O unit := in_lockstep Changeset.enter_runtime Changeset.enter_runtime (λ _, true).

Definition exit_runtime : O unit := in_lockstep Changeset.exit_runtime Changeset.exit_runtime (λ _, true).

(** *** Draining *)

(** The values that the current transaction sees; [None] when an entry is empty, which is expected not to be. *)
Definition current {K V : Type} `{Countable K} (m : OverlayedMap K V) : option (gmap K V) :=
  if bool_decide (map_Forall (λ _ e, e ≠ []) (changes m)) then Some (omap value_ref (changes m)) else None.

Definition drain_committed : O (gmap Bytes (option Bytes) * gmap Bytes (gmap Bytes (option Bytes) * ChildInfo)) :=
  let! ov := gets id in
  do! modify (λ ov, with_children ∅ (with_top overlay_default ov)) in
  match drain_commited (top ov) with
  | Ok main =>
      if forallb (λ kc : Bytes * (ChangeSet * ChildInfo), is_ok (drain_commited kc.2.1)) (map_to_list (children ov))
      then ret (main, omap (λ c : ChangeSet * ChildInfo, match drain_commited c.1 with Ok m => Some (m, c.2) | _ => None end) (children ov))
      else panic
  | _ => panic
  end.

Definition offchain_drain_committed : O (gmap (Bytes * Bytes) OffchainOverlayedChange) :=
  let! o := gets offchain in
  do! modify (with_offchain overlay_default) in
  unwrap (current o).

Record StorageTransactionCache := mkCache { c_transaction : option Transaction; c_root : option Root }.

Record StorageChanges := mkChanges {
  main_storage_changes : gmap Bytes (option Bytes);
  child_storage_changes : gmap Bytes (gmap Bytes (option Bytes));
  offchain_storage_changes : gmap (Bytes * Bytes) OffchainOverlayedChange;
  sc_transaction : Transaction;
  transaction_storage_root : Root;
  transaction_index_changes : list IndexOperation }.

(** The root and the cache with it. *)
Definition storage_root (v : StateVersion) : O (Root * StorageTransactionCache) :=
  let! ov := gets id in
  let! delta := unwrap (current (top ov)) in
  let! child_delta := unwrap (mapM (λ kc : Bytes * (ChangeSet * ChildInfo), (λ m, (kc.2.2, m)) <$> current kc.2.1) (map_to_list (children ov))) in
  let '(root, transaction) := full_storage_root delta child_delta v in
  ret (root, mkCache (Some transaction) (Some root)).

Definition drain_storage_changes (cache : StorageTransactionCache) (v : StateVersion) : O (StorageChanges * StorageTransactionCache) :=
  let! cache := match c_transaction cache with None => let! r := storage_root v in ret r.2 | Some _ => ret cache end in
  match c_transaction cache, c_root cache with
  | Some transaction, Some root =>
      let! drained := drain_committed in
      let! off := offchain_drain_committed in
      let! index := gets transaction_index_ops in
      do! modify (with_index_ops []) in
      ret (mkChanges drained.1 (fst <$> drained.2) off transaction root index, mkCache None None)
  | _, _ => panic
  end.

End Ops.
End Overlayed.
