(* ===== verification/OverlayProps.v ===== *)
(** The overlay as a whole implements stacks of snapshots: the main storage, each child storage and the
    off-chain index behave as if each were a finite map with its own stack, and all of them see the same
    transactions, so that a rollback or a commit is one for all. *)

From S2P Require Import Prelude Changeset Runtime Overlay.
Import Overlayed.

(** ** Frames: what decides whether a transaction can be closed *)

Abbreviation Frame := (nat * nat * ExecutionMode)%type.

Section Frames.
Context {K V : Type} `{Countable K}.

Definition frame (m : OverlayedMap K V) : Frame := (Changeset.transaction_depth m, num_client_transactions m, execution_mode m).

Definition sframe (a : Snapshots K V) : Frame := (length (saved a), client_open a, mode a).

Lemma sframe_abs (m : OverlayedMap K V) : sframe (abs m) = frame m.
Proof. unfold sframe, frame. by rewrite length_saved_abs. Qed.

(** Nothing written at any level. *)
Definition blank (fr : Frame) : Snapshots K V := mkSnapshots ∅ (replicate fr.1.1 ∅) fr.1.2 fr.2.

Lemma abs_empty (m : OverlayedMap K V) : changes m = ∅ → abs m = blank (frame m).
Proof.
  intros He. assert (Hv : ∀ j, view m j = ∅).
  { intros j. apply map_eq. intros k. unfold view. by rewrite lookup_view_at, He, lookup_empty. }
  unfold abs, blank, frame. cbn [fst snd]. rewrite Hv. f_equal. apply list_eq. intros i. rewrite list_lookup_fmap.
  destruct (decide (i < Changeset.transaction_depth m)%nat) as [Hi|Hi].
  - rewrite lookup_seq_lt by done. rewrite lookup_replicate_2 by done. simpl. by rewrite Hv.
  - rewrite lookup_seq_ge by lia. simpl. symmetry. apply lookup_replicate_None. lia.
Qed.

End Frames.

(** The operations on transactions, at any type. *)
Inductive TxOp := TxStart | TxClose (rollback : bool) | TxEnter | TxExit.

Definition tx_of {K V : Type} (t : TxOp) : tx_op K V :=
  match t with TxStart => OStart | TxClose rb => OClose rb | TxEnter => OEnter | TxExit => OExit end.

(** What they do to the frame. *)
Definition frame_step (t : TxOp) (fr : Frame) : outcome TxError Frame :=
  let '(depth, clients, md) := fr in
  match t with
  | TxStart => Ok (S depth, clients, md)
  | TxClose _ => if decide (md = Changeset.Runtime ∧ (depth ≤ clients)%nat) then Err NoOpenTransaction
      else match depth with 0%nat => Err NoOpenTransaction | S depth => Ok (depth, clients, md) end
  | TxEnter => match md with Changeset.Runtime => Err AlreadyInRuntime | Client => Ok (depth, depth, Changeset.Runtime) end
  | TxExit => match md with Client => Err NotInRuntime | Changeset.Runtime => Ok ((depth - (depth - clients))%nat, clients, Client) end
  end.

Section Steps.
Context {K V : Type} `{Countable K}.

Lemma spec_frame (t : TxOp) (a : Snapshots K V) :
  match frame_step t (sframe a) with
  | Ok fr => ∃ a', spec_step (tx_of t) a = Ok a' ∧ sframe a' = fr
  | Err e => spec_step (tx_of t) a = Err e
  | Panic => False
  end.
Proof.
  destruct t as [|rb| |]; unfold frame_step, sframe, tx_of, spec_step.
  - by eexists.
  - destruct (decide _); [done|]. destruct (saved a) as [|s r]; simpl; [done|]. by eexists.
  - destruct (mode a); [by eexists|done].
  - destruct (mode a); [done|]. eexists. split; [done|]. simpl. by rewrite length_drop.
Qed.

Lemma spec_blank (t : TxOp) (fr fr' : Frame) : frame_step t fr = Ok fr' → spec_step (tx_of t) (blank fr : Snapshots K V) = Ok (blank fr').
Proof.
  destruct fr as [[depth clients] md]. destruct t as [|rb| |]; unfold frame_step, tx_of, spec_step, blank; cbn [fst snd mode saved client_open cur].
  - by intros [= <-].
  - rewrite length_replicate. destruct (decide _); [done|]. destruct depth as [|depth]; [done|]. intros [= <-]. simpl. by destruct rb.
  - rewrite length_replicate. destruct md; [|done]. by intros [= <-].
  - rewrite length_replicate. destruct md; [done|]. intros [= <-]. cbn [fst snd]. rewrite drop_replicate. do 2 f_equal.
    destruct (depth - clients)%nat as [|i]; [done|]. destruct (replicate depth ∅ !! i) as [x|] eqn:Hx; [|done]. by apply lookup_replicate_1 in Hx as [-> _].
Qed.

(** A change set at the same frame as another succeeds or fails as it does. *)
Lemma impl_frame (t : TxOp) (m : OverlayedMap K V) : overlay_wf m →
  match frame_step t (frame m) with
  | Ok fr => ∃ m', impl_step (tx_of t) m = Ok m' ∧ overlay_wf m' ∧ frame m' = fr ∧ spec_step (tx_of t) (abs m) = Ok (abs m')
  | Err e => impl_step (tx_of t) m = Err e ∧ spec_step (tx_of t) (abs m) = Err e
  | Panic => False
  end.
Proof.
  intros Hwf. pose proof (impl_step_simulates (tx_of t) m Hwf) as Hs. pose proof (spec_frame t (abs m)) as Hf. rewrite sframe_abs in Hf.
  destruct (frame_step t (frame m)) as [fr|e|]; [| |done].
  - destruct Hf as (a' & Ha & Hfr). rewrite Ha in Hs |- *. destruct (impl_step (tx_of t) m) as [m'|e|]; [|done|done]. destruct Hs as [Hwf' <-].
    exists m'. split; [done|]. split; [done|]. split; [by rewrite <- sframe_abs|done].
  - rewrite Hf in Hs |- *. destruct (impl_step (tx_of t) m) as [m'|e'|]; [done| |done]. by subst.
Qed.
End Steps.

(** ** Operations on the overlay *)

Inductive OverlayOp :=
| OpSet (key : Bytes) (val : option Bytes)
| OpModify (key init : Bytes) (f : Bytes → Bytes)
| OpSetChild (info : ChildInfo) (key : Bytes) (val : option Bytes)
| OpClearChild (info : ChildInfo)
| OpClearChildPrefix (info : ChildInfo) (prefix : Bytes)
| OpClearPrefix (prefix : Bytes)
| OpOffchain (key : Bytes) (val : option Bytes)
| OpIndex (op : IndexOperation)
| OpCollect (collect : bool)
| OpTx (t : TxOp).

Section Whole.
Context `{OverlayEnv}.
Local Open Scope rust_scope.

Definition perform (o : OverlayOp) : M OverlayedChanges TxError unit :=
  match o with
  | OpSet key val => set_storage key val
  | OpModify key init f => value_mut_or_insert_with key init f
  | OpSetChild info key val => set_child_storage info key val
  | OpClearChild info => do! clear_child_storage info in ret tt
  | OpClearChildPrefix info prefix => do! clear_child_prefix info prefix in ret tt
  | OpClearPrefix prefix => do! clear_prefix prefix in ret tt
  | OpOffchain key val => set_offchain_storage key val
  | OpIndex op => add_transaction_index op
  | OpCollect collect => set_collect_extrinsics collect
  | OpTx TxStart => start_transaction
  | OpTx (TxClose true) => rollback_transaction
  | OpTx (TxClose false) => commit_transaction
  | OpTx TxEnter => enter_runtime
  | OpTx TxExit => exit_runtime
  end.

(** The operations in order, each from the state the one before left, also when it failed; a panic ends the run. *)
Fixpoint execute (os : list OverlayOp) (ov : OverlayedChanges) : option (list (option TxError) * OverlayedChanges) :=
  match os with
  | [] => Some ([], ov)
  | o :: os =>
    match perform o ov with
    | (Ok _, ov) => match execute os ov with Some (l, r) => Some (None :: l, r) | None => None end
    | (Err x, ov) => match execute os ov with Some (l, r) => Some (Some x :: l, r) | None => None end
    | (Panic, _) => None
    end
  end.

(** *** What an operation does to the current values of each part *)

Definition clear_values (p : Bytes → bool) (m : gmap Bytes (option Bytes)) : gmap Bytes (option Bytes) :=
  map_imap (λ k v, Some (if p k then None else v)) m.

Definition top_update (o : OverlayOp) (m : gmap Bytes (option Bytes)) : gmap Bytes (option Bytes) :=
  match o with
  | OpSet key val => <[key := val]> m
  | OpModify key init f => <[key := Some (f (default [] (default (Some init) (m !! key))))]> m
  | OpClearPrefix prefix => clear_values (λ key, starts_with key prefix) m
  | _ => m
  end.

Definition child_update (c : Bytes) (o : OverlayOp) (m : gmap Bytes (option Bytes)) : gmap Bytes (option Bytes) :=
  match o with
  | OpSetChild info key val => if bool_decide (storage_key info = c) then <[key := val]> m else m
  | OpClearChild info => if bool_decide (storage_key info = c) then clear_values (λ _, true) m else m
  | OpClearChildPrefix info prefix => if bool_decide (storage_key info = c) then clear_values (λ key, starts_with key prefix) m else m
  | _ => m
  end.

Definition offchain_update (o : OverlayOp) (m : gmap (Bytes * Bytes) OffchainOverlayedChange) : gmap (Bytes * Bytes) OffchainOverlayedChange :=
  match o with
  | OpOffchain key val => <[(STORAGE_PREFIX, key) := match val with Some v => SetValue v | None => Remove end]> m
  | _ => m
  end.

(** The index operations are a log. *)
Definition index_update (o : OverlayOp) (l : list IndexOperation) : list IndexOperation := match o with OpIndex op => l ++ [op] | _ => l end.

(** The specification of a part: writes change the current snapshot, transactions are those of every part. *)
Definition part_step {K V : Type} `{Countable K} (update : OverlayOp → gmap K V → gmap K V) (o : OverlayOp) (a : Snapshots K V) : outcome TxError (Snapshots K V) :=
  match o with
  | OpTx t => spec_step (tx_of t) a
  | _ => Ok (mkSnapshots (update o (cur a)) (saved a) (client_open a) (mode a))
  end.

(** ** The invariant *)

Record in_step (ov : OverlayedChanges) : Prop := {
  is_top : overlay_wf (top ov);
  is_children : ∀ c cs i, children ov !! c = Some (cs, i) → overlay_wf cs ∧ frame cs = frame (top ov) ∧ storage_key i = c;
  is_offchain : overlay_wf (offchain ov) ∧ frame (offchain ov) = frame (top ov) }.

(** A child that is not there has nothing written at any level. *)
Definition child_abs (ov : OverlayedChanges) (c : Bytes) : Snapshots Bytes (option Bytes) :=
  match children ov !! c with Some (cs, _) => abs cs | None => blank (frame (top ov)) end.

Lemma spawn_child_wf (m : ChangeSet) : overlay_wf m → overlay_wf (spawn_child m : ChangeSet) ∧ frame (spawn_child m : ChangeSet) = frame m.
Proof.
  intros [Hwf Hcl]. assert (Hd : Changeset.transaction_depth (spawn_child m : ChangeSet) = Changeset.transaction_depth m) by (unfold Changeset.transaction_depth; simpl; by rewrite length_replicate).
  split; [split|unfold frame; by rewrite Hd].
  - intros k. simpl. rewrite lookup_empty. simpl. unfold dcount. generalize (Changeset.transaction_depth m). intros n. by induction n as [|n IH]; [|simpl; rewrite filter_cons_False by set_solver].
  - rewrite Hd. done.
Qed.

Lemma child_entry_ok info ov : in_step ov →
  let '(cs, i) := child_entry info ov in overlay_wf cs ∧ frame cs = frame (top ov) ∧ storage_key i = storage_key info ∧ abs cs = child_abs ov (storage_key info).
Proof.
  intros [Ht Hc _]. unfold child_entry, child_abs. destruct (children ov !! storage_key info) as [[cs i]|] eqn:Hi; simpl.
  - destruct (Hc _ _ _ Hi) as (? & ? & ?). done.
  - destruct (spawn_child_wf (top ov) Ht) as [Hwf Hfr]. do 3 (split; [done|]). rewrite abs_empty by done. by rewrite Hfr.
Qed.

(** ** Writes *)

Lemma frame_kept {K V : Type} `{Countable K} (m m' : OverlayedMap K V) c :
  abs m' = mkSnapshots c (saved (abs m)) (client_open (abs m)) (mode (abs m)) → frame m' = frame m.
Proof. intros Ha. rewrite <- !sframe_abs, Ha. done. Qed.

Lemma clear_keys_abs (ks : list Bytes) (x : option Z) (n : Z) (m : ChangeSet) : overlay_wf m →
  let m' := (fold_left (clear_key x) ks (n, m)).2 in
  overlay_wf m' ∧ ∃ c, abs m' = mkSnapshots c (saved (abs m)) (client_open (abs m)) (mode (abs m)) ∧
  ∀ k, c !! k = if decide (k ∈ ks) then Some None else cur (abs m) !! k.
Proof.
  revert n m. induction ks as [|k ks IH]; intros n m Hwf.
  - cbn [fold_left snd]. split; [done|]. exists (cur (abs m)). split; [by destruct (abs m)|]. intros k. by rewrite decide_False by set_solver.
  - cbn [fold_left clear_key]. cbv zeta.
    match goal with |- context [fold_left _ ks (?b, _)] => destruct (IH b (set k None x m) (set_wf _ _ _ _ Hwf)) as (Hwf' & c & Ha & Hc) end.
    split; [done|]. rewrite set_abs in Ha, Hc by done. exists c. split; [done|]. intros k'. rewrite Hc. cbn [cur].
    destruct (decide (k' = k)) as [->|Hne].
    + rewrite (decide_True (P := k ∈ k :: ks)) by set_solver. case_decide; [done|]. by rewrite lookup_insert_eq.
    + rewrite lookup_insert_ne by done. apply decide_ext. set_solver.
Qed.

Lemma clear_where_abs (p : Bytes → bool) (x : option Z) (m : ChangeSet) : overlay_wf m →
  let m' := (clear_where (λ k _, p k) x m).2 in
  overlay_wf m' ∧ abs m' = mkSnapshots (clear_values p (cur (abs m))) (saved (abs m)) (client_open (abs m)) (mode (abs m)).
Proof.
  intros Hwf. unfold clear_where. cbv zeta.
  set (ks := fst <$> filter (λ kv, p (fst kv) = true) (map_to_list (changes m))).
  destruct (clear_keys_abs ks x 0 m Hwf) as (Hwf' & c & Ha & Hc). split; [done|]. rewrite Ha. f_equal. apply map_eq. intros k.
  rewrite Hc. unfold clear_values. rewrite map_lookup_imap.
  assert (Hks : k ∈ ks ↔ p k = true ∧ is_Some (cur (abs m) !! k)).
  { subst ks. rewrite list_elem_of_fmap. setoid_rewrite list_elem_of_filter.
    rewrite <- not_eq_None_Some, lookup_cur_abs_None, not_eq_None_Some by done. split.
    - intros ([k' e] & -> & Hp & ?%elem_of_map_to_list). simpl in *. eauto.
    - intros [Hp [e He]]. exists (k, e). by rewrite elem_of_map_to_list. }
  case_decide as Hk; rewrite Hks in Hk.
  - by destruct Hk as [-> [v ->]].
  - destruct (cur (abs m) !! k) eqn:E; simpl; [|done]. destruct (p k); [|done]. naive_solver.
Qed.

(** Reading the index of the extrinsic changes nothing but the counters. *)
Lemma value_known (m : ChangeSet) k e : overlay_wf m → get m k = Some e → ∃ v, value_ref e = Some v ∧ cur (abs m) !! k = Some v.
Proof.
  intros Hwf Hg. unfold get in Hg. pose proof (lookup_cur_abs_None m k Hwf) as Hn. rewrite lookup_cur_abs, Hg in *. simpl in *.
  destruct (value_ref e) as [v|]; [by eexists|]. naive_solver.
Qed.

Lemma storage_ok key ov : in_step ov → ∃ st, storage key ov = (Ok (cur (abs (top ov)) !! key), with_stats st ov).
Proof.
  intros [Ht _ _]. unfold storage, bind, gets. cbv beta iota. destruct (get (top ov) key) as [e|] eqn:Hg.
  - destruct (value_known _ _ _ Ht Hg) as (v & Hv & Hc). rewrite Hv, Hc. by eexists.
  - unfold get in Hg. exists (stats ov). rewrite lookup_cur_abs, Hg. by destruct ov.
Qed.

Lemma extrinsic_index_ok ov : in_step ov → ∃ idx st, extrinsic_index ov = (Ok idx, with_stats st ov).
Proof.
  intros Hi. unfold extrinsic_index. cbn. destruct (collect_extrinsics ov); cbn.
  - unfold bind. destruct (storage_ok EXTRINSIC_INDEX ov Hi) as (st & Hs). rewrite Hs. cbn. eauto.
  - exists None, (stats ov). by destruct ov.
Qed.

(** ** One operation *)

Record simulates (o : OverlayOp) (ov ov' : OverlayedChanges) : Prop := {
  sim_inv : in_step ov';
  sim_top : part_step top_update o (abs (top ov)) = Ok (abs (top ov'));
  sim_offchain : part_step offchain_update o (abs (offchain ov)) = Ok (abs (offchain ov'));
  sim_child : ∀ c, part_step (child_update c) o (child_abs ov c) = Ok (child_abs ov' c);
  sim_index : transaction_index_ops ov' = index_update o (transaction_index_ops ov) }.

Definition is_write (o : OverlayOp) : Prop := match o with OpTx _ => False | _ => True end.

Lemma part_step_write {K V : Type} `{Countable K} (update : OverlayOp → gmap K V → gmap K V) o a :
  is_write o → part_step update o a = Ok (mkSnapshots (update o (cur a)) (saved a) (client_open a) (mode a)).
Proof. by destruct o. Qed.

Lemma part_step_same {K V : Type} `{Countable K} (update : OverlayOp → gmap K V → gmap K V) o a :
  is_write o → (∀ m, update o m = m) → part_step update o a = Ok a.
Proof. intros Hw Hu. rewrite part_step_write, Hu by done. by destruct a. Qed.

Lemma write_top_sim o ov ov' : in_step ov → is_write o → (∀ c m, child_update c o m = m) → (∀ m, offchain_update o m = m) →
  overlay_wf (top ov') → abs (top ov') = mkSnapshots (top_update o (cur (abs (top ov)))) (saved (abs (top ov))) (client_open (abs (top ov))) (mode (abs (top ov))) →
  children ov' = children ov → offchain ov' = offchain ov → transaction_index_ops ov' = index_update o (transaction_index_ops ov) → simulates o ov ov'.
Proof.
  intros [Ht Hc Ho] Hw Huc Huo Hwf Ha Ech Eof Eix. pose proof (frame_kept _ _ _ Ha) as Hfr. split.
  - split; [done| |]; rewrite ?Ech, ?Eof, Hfr; done.
  - by rewrite part_step_write, Ha.
  - by rewrite part_step_same, Eof.
  - intros c. rewrite part_step_same by done. unfold child_abs. by rewrite Ech, Hfr.
  - done.
Qed.

Lemma write_offchain_sim o ov ov' : in_step ov → is_write o → (∀ m, top_update o m = m) → (∀ c m, child_update c o m = m) →
  overlay_wf (offchain ov') → abs (offchain ov') = mkSnapshots (offchain_update o (cur (abs (offchain ov)))) (saved (abs (offchain ov))) (client_open (abs (offchain ov))) (mode (abs (offchain ov))) →
  top ov' = top ov → children ov' = children ov → transaction_index_ops ov' = index_update o (transaction_index_ops ov) → simulates o ov ov'.
Proof.
  intros [Ht Hc [Hof Hfo]] Hw Hut Huc Hwf Ha Et Ech Eix. pose proof (frame_kept _ _ _ Ha) as Hfr. split.
  - split; rewrite ?Et, ?Ech, ?Hfr; done.
  - by rewrite part_step_same, Et.
  - by rewrite part_step_write, Ha.
  - intros c. rewrite part_step_same by done. unfold child_abs. by rewrite Ech, Et.
  - done.
Qed.

Lemma write_child_sim o info update cs i ov ov' : in_step ov → is_write o → (∀ m, top_update o m = m) → (∀ m, offchain_update o m = m) →
  (∀ c m, child_update c o m = if bool_decide (storage_key info = c) then update m else m) →
  overlay_wf cs → storage_key i = storage_key info → (let a := child_abs ov (storage_key info) in abs cs = mkSnapshots (update (cur a)) (saved a) (client_open a) (mode a)) →
  top ov' = top ov → offchain ov' = offchain ov → children ov' = <[storage_key info := (cs, i)]> (children ov) → transaction_index_ops ov' = index_update o (transaction_index_ops ov) → simulates o ov ov'.
Proof.
  intros Hi Hw Hut Huo Huc Hwf Hki Ha Et Eof Ech Eix. cbv zeta in Ha.
  assert (Hfr : frame cs = frame (top ov)).
  { pose proof (child_entry_ok info ov Hi) as He. destruct (child_entry info ov) as [cs0 i0]. destruct He as (_ & <- & _ & E). rewrite <- E in Ha. by eapply frame_kept. }
  destruct Hi as [Ht Hc Ho]. split.
  - split; rewrite ?Et, ?Eof; [done| |done]. intros c cs' i'. rewrite Ech. intros [[<- [= <- <-]]|[_ Hl]]%lookup_insert_Some; [done|by eapply Hc].
  - by rewrite part_step_same, Et.
  - by rewrite part_step_same, Eof.
  - intros c. rewrite part_step_write, Huc by done. unfold child_abs in Ha |- *. rewrite Ech, Et. case_bool_decide as Hk.
    + subst c. by rewrite lookup_insert_eq, Ha.
    + rewrite lookup_insert_ne by done. fold (child_abs ov c). by destruct (child_abs ov c).
  - done.
Qed.

Lemma keep_parts_sim o ov ov' : in_step ov → is_write o → (∀ m, top_update o m = m) → (∀ m, offchain_update o m = m) → (∀ c m, child_update c o m = m) →
  top ov' = top ov → offchain ov' = offchain ov → children ov' = children ov → transaction_index_ops ov' = index_update o (transaction_index_ops ov) → simulates o ov ov'.
Proof.
  intros [Ht Hc Ho] Hw Hut Huo Huc Et Eof Ech Eix. split.
  - split; rewrite ?Et, ?Eof, ?Ech; done.
  - by rewrite part_step_same, Et.
  - by rewrite part_step_same, Eof.
  - intros c. rewrite part_step_same by done. unfold child_abs. by rewrite Ech, Et.
  - done.
Qed.

Lemma with_stats_in_step st ov : in_step ov → in_step (with_stats st ov).
Proof. intros [Ht Hc Ho]. by split. Qed.

Lemma clear_child_where_sim o info p ov : in_step ov → is_write o → (∀ m, top_update o m = m) → (∀ m, offchain_update o m = m) →
  (∀ c m, child_update c o m = if bool_decide (storage_key info = c) then clear_values p m else m) → (∀ l, index_update o l = l) →
  ∃ n ov', clear_child_where info p ov = (Ok n, ov') ∧ simulates o ov ov'.
Proof.
  intros Hi Hw Hut Huo Huc Hux. unfold clear_child_where. destruct (extrinsic_index_ok ov Hi) as (idx & st & He). unfold bind at 1. rewrite He. cbv beta iota.
  unfold bind, gets, id. cbv beta iota. change (child_entry info (with_stats st ov)) with (child_entry info ov).
  pose proof (child_entry_ok info ov Hi) as Hce. destruct (child_entry info ov) as [cs i]. destruct Hce as (Hwf & _ & Hki & Ha).
  pose proof (clear_where_abs p idx cs Hwf) as Hcl. destruct (clear_where _ idx cs) as [n cs']. destruct Hcl as [Hwf' Ha']. rewrite Ha in Ha'.
  eexists n, _. split; [done|]. by apply (write_child_sim o info (clear_values p) cs' i).
Qed.

Lemma perform_write o ov : in_step ov → is_write o → ∃ ov', perform o ov = (Ok tt, ov') ∧ simulates o ov ov'.
Proof.
  intros Hi Hw. pose proof (is_top _ Hi) as Ht. destruct o as [k v|k d f|info k v|info|info p|p|k v|op|b|t]; [..|done]; cbn [perform].
  - unfold set_storage, tally_write, bind, modify. cbv beta iota.
    destruct (extrinsic_index_ok _ (with_stats_in_step (tally_write_overlay (stats ov) (size_of v)) ov Hi)) as (idx & st & ->).
    eexists. split; [done|]. apply write_top_sim; [done..|by apply set_wf|by apply set_abs|done|done|done].
  - unfold value_mut_or_insert_with, bind, modify. destruct (extrinsic_index_ok ov Hi) as (idx & st & ->).
    eexists. split; [done|]. destruct (modify_value_spec k d idx (λ value, Some (f (default [] value))) (top ov) Ht) as [Hwf Ha].
    by apply write_top_sim.
  - unfold set_child_storage, tally_write, bind, modify. destruct (extrinsic_index_ok ov Hi) as (idx & st & ->). cbv beta iota.
    match goal with |- context [child_entry info ?x] => change (child_entry info x) with (child_entry info ov) end.
    pose proof (child_entry_ok info ov Hi) as Hce. destruct (child_entry info ov) as [cs i]. destruct Hce as (Hwf & _ & Hki & Ha).
    eexists. split; [done|]. apply (write_child_sim _ info (insert k v) (set k v idx cs) i); try done; [by apply set_wf|by rewrite <- Ha, set_abs].
  - destruct (clear_child_where_sim (OpClearChild info) info (λ _, true) ov) as (n & ov' & E & Hs); [done..|].
    unfold clear_child_storage, bind. rewrite E. by exists ov'.
  - destruct (clear_child_where_sim (OpClearChildPrefix info p) info (λ key, starts_with key p) ov) as (n & ov' & E & Hs); [done..|].
    unfold clear_child_prefix, bind. rewrite E. by exists ov'.
  - unfold clear_prefix, bind, gets, id. destruct (extrinsic_index_ok ov Hi) as (idx & st & ->). cbv beta iota.
    change (top (with_stats st ov)) with (top ov). pose proof (clear_where_abs (λ key, starts_with key p) idx (top ov) Ht) as Hcl.
    destruct (clear_where _ idx (top ov)) as [n t]. destruct Hcl as [Hwf Ha]. eexists. split; [done|]. by apply write_top_sim.
  - eexists. split; [done|]. destruct (is_offchain _ Hi) as [Ho _]. apply write_offchain_sim; [done..|by apply set_wf|by apply set_abs|done|done|done].
  - eexists. split; [done|]. by apply keep_parts_sim.
  - eexists. split; [done|]. by apply keep_parts_sim.
Qed.

(** ** Transactions on all parts *)

Definition lockstep (t : TxOp) (keep : ChangeSet → bool) : M OverlayedChanges TxError unit := in_lockstep (impl_step (tx_of t)) (impl_step (tx_of t)) keep.

(** Those of the children that stay when [t] is done on all of them. *)
Definition closed_children (t : TxOp) (keep : ChangeSet → bool) (cs : gmap Bytes (ChangeSet * ChildInfo)) : gmap Bytes (ChangeSet * ChildInfo) :=
  filter (λ kc, keep kc.2.1 = true) (omap (λ c : ChangeSet * ChildInfo, match impl_step (tx_of t) c.1 with Ok m => Some (m, c.2) | _ => None end) cs).

Lemma each_child_ok f cs : (∀ c m i, cs !! c = Some (m, i) → ∃ m', f m = Ok m') →
  each_child f cs = Some (omap (λ c : ChangeSet * ChildInfo, match f c.1 with Ok m => Some (m, c.2) | _ => None end) cs).
Proof.
  intros Hf. unfold each_child. rewrite (proj2 (forallb_forall _ _)); [done|]. intros [c [m i]] Hin%list_elem_of_In%elem_of_map_to_list.
  destruct (Hf _ _ _ Hin) as [m' E]. simpl. by rewrite E.
Qed.

Lemma closed_children_lookup t keep cs c :
  closed_children t keep cs !! c = cs !! c ≫= λ x, match impl_step (tx_of t) x.1 with Ok m => if keep m then Some (m, x.2) else None | _ => None end.
Proof.
  unfold closed_children. rewrite map_lookup_filter, lookup_omap. destruct (cs !! c) as [[m i]|]; simpl; [|done].
  destruct (impl_step (tx_of t) m) as [m'|e|]; simpl; [|done|done]. destruct (keep m') eqn:E; by rewrite ?option_guard_True, ?option_guard_False by (simpl; congruence).
Qed.

Lemma lockstep_sim t keep ov : in_step ov → (∀ m, keep m = true ∨ changes m = ∅) →
  match frame_step t (frame (top ov)) with
  | Ok _ => ∃ ov', lockstep t keep ov = (Ok tt, ov') ∧ simulates (OpTx t) ov ov'
  | Err e => lockstep t keep ov = (Err e, ov)
  | Panic => False
  end.
Proof.
  intros [Ht Hc [Ho Hfo]] Hk. unfold lockstep, in_lockstep, bind, gets, unwrap, modify. cbv beta iota.
  pose proof (impl_frame t (top ov) Ht) as Hf. destruct (frame_step t (frame (top ov))) as [fr|e|] eqn:Hfr; [|by destruct Hf as [-> _]|done].
  destruct Hf as (t' & Et & Hwt & Hft & Hst). rewrite Et. cbn [children offchain with_top with_children].
  assert (Hcs : ∀ c m i, children ov !! c = Some (m, i) → ∃ m', impl_step (tx_of t) m = Ok m' ∧ overlay_wf m' ∧ frame m' = fr ∧ spec_step (tx_of t) (abs m) = Ok (abs m')).
  { intros c m i Hl. destruct (Hc _ _ _ Hl) as (Hwf & Hfc & _). pose proof (impl_frame t m Hwf) as Hf. by rewrite Hfc, Hfr in Hf. }
  rewrite each_child_ok by (intros c m i Hl; destruct (Hcs _ _ _ Hl) as (m' & ? & _); by exists m').
  pose proof (impl_frame t (offchain ov) Ho) as Hf. rewrite Hfo, Hfr in Hf. destruct Hf as (o' & Eo & Hwo & Hfo' & Hso).
  cbn [ret]. cbn [children offchain with_top with_children]. rewrite Eo. eexists. split; [done|]. fold (closed_children t keep (children ov)).
  split; cbn [top children offchain with_top with_children with_offchain part_step]; [|done|done| |done].
  - split; cbn [top children offchain with_top with_children with_offchain]; [done| |by rewrite Hfo', Hft].
    intros c m i. rewrite closed_children_lookup. destruct (children ov !! c) as [[m0 i0]|] eqn:Hl; [|done].
    destruct (Hcs _ _ _ Hl) as (m' & Em & Hwm & Hfm & _). simpl. rewrite Em. destruct (keep m'); [|done]. intros [= <- <-]. split; [done|]. split; [by rewrite Hfm, Hft|]. by apply (Hc _ _ _ Hl).
  - intros c. unfold child_abs. cbn [top children offchain with_top with_children with_offchain]. rewrite closed_children_lookup, Hft.
    destruct (children ov !! c) as [[m i]|] eqn:Hl; [|by apply spec_blank].
    destruct (Hcs _ _ _ Hl) as (m' & Em & Hwm & Hfm & Hsm). rewrite Hsm. simpl. rewrite Em. destruct (Hk m') as [->|He]; [done|].
    destruct (keep m'); [done|]. by rewrite (abs_empty m' He), Hfm.
Qed.

Lemma start_in_lockstep ov : start_transaction ov = lockstep TxStart (λ _, true) ov.
Proof.
  unfold start_transaction, lockstep, in_lockstep, bind, gets, unwrap, modify. cbv beta iota. cbn [tx_of impl_step children with_top].
  rewrite each_child_ok by (intros; by eexists). cbn. do 3 f_equal. symmetry. apply map_eq. intros c. rewrite map_lookup_filter, lookup_omap, lookup_fmap.
  destruct (children ov !! c) as [[m i]|]; [|done]. done.
Qed.

(** The outcome of an operation on transactions is that of every part. *)
Lemma perform_tx t ov : in_step ov →
  match frame_step t (frame (top ov)) with
  | Ok _ => ∃ ov', perform (OpTx t) ov = (Ok tt, ov') ∧ simulates (OpTx t) ov ov'
  | Err e => perform (OpTx t) ov = (Err e, ov)
  | Panic => False
  end.
Proof.
  intros Hi. destruct t as [|[|]| |]; cbn [perform].
  - rewrite start_in_lockstep. apply lockstep_sim; [done|by left].
  - apply (lockstep_sim (TxClose true)); [done|]. intros m. unfold Changeset.is_empty. case_bool_decide; [by right|by left].
  - apply (lockstep_sim (TxClose false)); [done|by left].
  - apply (lockstep_sim TxEnter); [done|by left].
  - apply (lockstep_sim TxExit); [done|by left].
Qed.

(** Any part at the frame fails as the whole does. *)
Lemma part_step_err {K V : Type} `{Countable K} (update : OverlayOp → gmap K V → gmap K V) t (a : Snapshots K V) fr e :
  sframe a = fr → frame_step t fr = Err e → part_step update (OpTx t) a = Err e.
Proof. intros <- Hf. pose proof (spec_frame t a) as Hs. by rewrite Hf in Hs. Qed.

Lemma child_abs_frame ov c : in_step ov → sframe (child_abs ov c) = frame (top ov).
Proof.
  intros [Ht Hc _]. unfold child_abs. destruct (children ov !! c) as [[m i]|] eqn:Hl.
  - rewrite sframe_abs. by apply (Hc _ _ _ Hl).
  - unfold sframe, blank, frame. simpl. by rewrite length_replicate.
Qed.

Lemma perform_ok o ov : in_step ov →
  (∃ ov', perform o ov = (Ok tt, ov') ∧ simulates o ov ov') ∨
  (∃ e, perform o ov = (Err e, ov) ∧ part_step top_update o (abs (top ov)) = Err e ∧ part_step offchain_update o (abs (offchain ov)) = Err e ∧
    ∀ c, part_step (child_update c) o (child_abs ov c) = Err e).
Proof.
  intros Hi. destruct o as [| | | | | | | | |t]; [left; by apply perform_write..|]. pose proof (perform_tx t ov Hi) as Hp.
  destruct (frame_step t (frame (top ov))) as [fr|e|] eqn:Hf; [by left| |done]. right. exists e. split; [done|]. split; [|split].
  - eapply part_step_err; [apply sframe_abs|done].
  - eapply part_step_err; [|done]. rewrite sframe_abs. by apply Hi.
  - intros c. eapply part_step_err; [by apply child_abs_frame|done].
Qed.

(** ** Sequences *)

Lemma execute_simulates os ov : in_step ov →
  ∃ l ov', execute os ov = Some (l, ov') ∧ in_step ov' ∧
    run (part_step top_update) os (abs (top ov)) = Some (l, abs (top ov')) ∧
    run (part_step offchain_update) os (abs (offchain ov)) = Some (l, abs (offchain ov')) ∧
    ∀ c, run (part_step (child_update c)) os (child_abs ov c) = Some (l, child_abs ov' c).
Proof.
  revert ov. induction os as [|o os IH]; intros ov Hi.
  - by exists [], ov.
  - cbn [execute run]. destruct (perform_ok o ov Hi) as [(ov' & -> & [Hi' Et Eo Ec Ex])|(e & -> & Et & Eo & Ec)].
    + destruct (IH ov' Hi') as (l & ov'' & Ee & Hi'' & Rt & Ro & Rc). rewrite Et, Eo, Ee, Rt, Ro. exists (None :: l), ov''.
      do 4 (split; [done|]). intros c. by rewrite Ec, Rc.
    + destruct (IH ov Hi) as (l & ov'' & Ee & Hi'' & Rt & Ro & Rc). rewrite Et, Eo, Ee, Rt, Ro. exists (Some e :: l), ov''.
      do 4 (split; [done|]). intros c. by rewrite Ec, Rc.
Qed.

Lemma default_in_step : in_step default_overlay.
Proof. split; [apply overlay_default_wf|done|]. split; [apply overlay_default_wf|done]. Qed.

Definition no_values {K V : Type} `{Countable K} : Snapshots K V := mkSnapshots ∅ [] 0 Client.

Lemma execute_from_default os :
  ∃ l ov, execute os default_overlay = Some (l, ov) ∧ in_step ov ∧
    run (part_step top_update) os no_values = Some (l, abs (top ov)) ∧
    run (part_step offchain_update) os no_values = Some (l, abs (offchain ov)) ∧
    ∀ c, run (part_step (child_update c)) os no_values = Some (l, child_abs ov c).
Proof.
  destruct (execute_simulates os default_overlay default_in_step) as (l & ov & Ee & Hi & Rt & Ro & Rc). exists l, ov.
  change (top default_overlay) with (overlay_default : ChangeSet) in Rt. change (offchain default_overlay) with (overlay_default : OffchainSet) in Ro.
  rewrite overlay_default_abs in Rt. rewrite overlay_default_abs in Ro. done.
Qed.

(** C16. The overlay of a block, on any sequence of its operations, never panics, and its parts keep in step: the main storage, each
    child storage and the off-chain index are, at every nesting level, the stack of snapshots on which only
    the writes to that part and all the operations on transactions were performed, and each operation returns
    the same error, if any, as on each of these stacks. *)
Theorem overlay_refines_snapshots (os : list OverlayOp) :
  ∃ l ov, execute os default_overlay = Some (l, ov) ∧
    run (part_step top_update) os no_values = Some (l, abs (top ov)) ∧
    run (part_step offchain_update) os no_values = Some (l, abs (offchain ov)) ∧
    ∀ c, run (part_step (child_update c)) os no_values = Some (l, child_abs ov c).
Proof. destruct (execute_from_default os) as (l & ov & Ee & _ & Rs). by exists l, ov. Qed.

(** ** Draining *)

Lemma current_ok {K V : Type} `{Countable K} (m : OverlayedMap K V) : overlay_wf m → current m = Some (cur (abs m)).
Proof.
  intros [Hwf _]. unfold current. rewrite bool_decide_eq_true_2.
  - f_equal. apply map_eq. intros k. by rewrite lookup_cur_abs, lookup_omap.
  - intros k e E. specialize (Hwf k). rewrite E in Hwf. by destruct Hwf.
Qed.

(** The values that each child shows. *)
Definition child_values (ov : OverlayedChanges) : gmap Bytes (gmap Bytes (option Bytes)) := (λ c : ChangeSet * ChildInfo, cur (abs c.1)) <$> children ov.

Definition child_deltas (m : gmap Bytes (gmap Bytes (option Bytes))) : list (ChildInfo * gmap Bytes (option Bytes)) := prod_map ParentKeyId id <$> map_to_list m.

(** The root that the backend computes is that of the current values. *)
Lemma storage_root_ok v ov : in_step ov →
  let '(root, tx) := full_storage_root (cur (abs (top ov))) (child_deltas (child_values ov)) v in
  storage_root v ov = (Ok (root, mkCache (Some tx) (Some root)), ov).
Proof.
  intros [Ht Hc _]. unfold storage_root, bind, gets, id, unwrap. rewrite current_ok by done. cbn [ret]. cbv beta iota.
  rewrite (mapM_Some_2 _ _ (child_deltas (child_values ov))).
  - unfold ret. cbv beta iota. by destruct (full_storage_root _ _ v) as [root tx].
  - unfold child_deltas, child_values. rewrite map_to_list_fmap, <- list_fmap_compose. apply Forall2_fmap_r, Forall_Forall2_diag, Forall_forall.
    intros [c [m [d]]] Hl%elem_of_map_to_list. destruct (Hc _ _ _ Hl) as (Hwf & _ & Hk). simpl in *. rewrite current_ok by done. by subst.
Qed.

(** What is left: nothing but the counters and the mode of collection. *)
Definition drained (ov : OverlayedChanges) : OverlayedChanges := mkOverlayed overlay_default ∅ overlay_default [] (collect_extrinsics ov) (stats ov).

Lemma drain_commited_ok {K V : Type} `{Countable K} (m : OverlayedMap K V) : overlay_wf m → Changeset.transaction_depth m = 0%nat → drain_commited m = Ok (cur (abs m)).
Proof. intros Hwf Hd. by rewrite drain_commited_view. Qed.

Lemma drain_committed_ok ov : in_step ov → transaction_depth ov = 0%nat →
  ∃ infos, drain_committed ov = (Ok (cur (abs (top ov)), infos), with_children ∅ (with_top overlay_default ov)) ∧ fst <$> infos = child_values ov.
Proof.
  intros [Ht Hc _] Hd. unfold transaction_depth in Hd.
  assert (Hcd : ∀ c m i, children ov !! c = Some (m, i) → drain_commited m = Ok (cur (abs m))).
  { intros c m i Hl. destruct (Hc _ _ _ Hl) as (Hwf & Hfr & _). apply drain_commited_ok; [done|]. unfold frame in Hfr. congruence. }
  unfold drain_committed, bind, gets, id, modify. rewrite drain_commited_ok by done. rewrite (proj2 (forallb_forall _ _)).
  - eexists. split; [done|]. apply map_eq. intros c. unfold child_values. rewrite !lookup_fmap, lookup_omap.
    destruct (children ov !! c) as [[m i]|] eqn:Hl; [|done]. simpl. by rewrite (Hcd _ _ _ Hl).
  - intros [c [m i]] Hin%list_elem_of_In%elem_of_map_to_list. simpl. by rewrite (Hcd _ _ _ Hin).
Qed.

Lemma drain_storage_changes_ok v ov : in_step ov → transaction_depth ov = 0%nat →
  ∃ sc, drain_storage_changes (mkCache None None) v ov = (Ok (sc, mkCache None None), drained ov) ∧
    main_storage_changes sc = cur (abs (top ov)) ∧ child_storage_changes sc = child_values ov ∧ offchain_storage_changes sc = cur (abs (offchain ov)) ∧
    transaction_index_changes sc = transaction_index_ops ov ∧
    (transaction_storage_root sc, sc_transaction sc) = full_storage_root (main_storage_changes sc) (child_deltas (child_storage_changes sc)) v.
Proof.
  intros Hi Hd. pose proof (storage_root_ok v ov Hi) as Hr. destruct (full_storage_root _ _ v) as [root tx] eqn:Ef.
  destruct (drain_committed_ok ov Hi Hd) as (infos & Hdc & Hf). unfold drain_storage_changes. cbn [c_transaction]. unfold bind. rewrite Hr. cbn [ret snd c_transaction c_root].
  rewrite Hdc. unfold offchain_drain_committed, bind, gets, modify, unwrap. cbn [offchain with_children with_top]. rewrite current_ok by apply Hi.
  eexists. split; [done|]. cbn. rewrite Hf. do 4 (split; [done|]). done.
Qed.

Lemma child_values_lookup ov c : cur (child_abs ov c) = default ∅ (child_values ov !! c).
Proof. unfold child_abs, child_values. rewrite lookup_fmap. by destruct (children ov !! c) as [[m i]|]. Qed.

(** C17. Once every transaction is closed, the changes drained for the database are exactly the values that the specification ends with: those
    of the main storage, of each child storage and of the off-chain index, with the root and the transaction
    that the backend computes for these same values, and the overlay is left without changes. *)
Theorem drained_changes_exact (os : list OverlayOp) l ov v :
  execute os default_overlay = Some (l, ov) → transaction_depth ov = 0%nat →
  ∃ sc, drain_storage_changes (mkCache None None) v ov = (Ok (sc, mkCache None None), drained ov) ∧
    (λ r, cur r.2) <$> run (part_step top_update) os no_values = Some (main_storage_changes sc) ∧
    (λ r, cur r.2) <$> run (part_step offchain_update) os no_values = Some (offchain_storage_changes sc) ∧
    (∀ c, (λ r, cur r.2) <$> run (part_step (child_update c)) os no_values = Some (default ∅ (child_storage_changes sc !! c))) ∧
    (transaction_storage_root sc, sc_transaction sc) = full_storage_root (main_storage_changes sc) (child_deltas (child_storage_changes sc)) v.
Proof.
  intros He Hd. destruct (execute_from_default os) as (l' & ov' & Ee & Hi & Rt & Ro & Rc). rewrite He in Ee. simplify_eq.
  destruct (drain_storage_changes_ok v _ Hi Hd) as (sc & Hdr & Em & Ec & Eo & _ & Er). exists sc. split; [done|]. rewrite Rt, Ro. simpl.
  split; [by rewrite Em|]. split; [by rewrite Eo|]. split; [|done]. intros c. rewrite Rc. simpl. by rewrite child_values_lookup, Ec.
Qed.

(** ** Index operations are outside the transactions *)

Definition index_op (o : OverlayOp) : option IndexOperation := match o with OpIndex op => Some op | _ => None end.

(** Every index operation recorded is there at the end, also those of transactions that were rolled back. *)
Theorem index_ops_kept (os : list OverlayOp) ov l ov' : in_step ov →
  execute os ov = Some (l, ov') → transaction_index_ops ov' = transaction_index_ops ov ++ omap index_op os.
Proof.
  revert ov l. induction os as [|o os IH]; intros ov l Hi; cbn [execute].
  - intros [= _ <-]. by rewrite app_nil_r.
  - destruct (perform_ok o ov Hi) as [(ov1 & -> & [Hi' _ _ _ Ex])|(e & Ep & Et & _)].
    + destruct (execute os ov1) as [[l1 r]|] eqn:Ee; [|done]. intros [= _ ->]. rewrite (IH _ _ Hi' Ee), Ex.
      destruct o; try done. cbn [index_update index_op]. by rewrite <- app_assoc.
    + rewrite Ep. destruct (execute os ov) as [[l1 r]|] eqn:Ee; [|done]. intros [= _ ->]. rewrite (IH _ _ Hi Ee). by destruct o.
Qed.

End Whole.

(** ** Witnesses *)

(** A backend whose root and transaction are the changes themselves. *)
Definition plain_env : OverlayEnv := {|
  decode_u32 := λ b, match b with [x0; x1; x2; x3] => Some (x0 + 256 * x1 + 65536 * x2 + 16777216 * x3) | _ => None end;
  Transaction := gmap Bytes (option Bytes);
  Root := Z;
  full_storage_root := λ main deltas _, (Z.of_nat (size main + length deltas), main) |}.

(** A block: a write, and in a transaction writes to a child and to the off-chain index, and an index
    operation; then the same in a transaction that is rolled back. *)
Definition sample_block : list OverlayOp :=
  [OpCollect true; OpSet EXTRINSIC_INDEX (Some [1; 0; 0; 0]); OpSet [1] (Some [10]);
   OpTx TxEnter; OpTx TxStart; OpSetChild (ParentKeyId [7]) [1] (Some [11]); OpOffchain [2] (Some [12]); OpIndex (IndexRenew 1 [5]); OpTx (TxClose false);
   OpTx TxStart; OpSetChild (ParentKeyId [8]) [1] (Some [13]); OpClearPrefix [1]; OpIndex (IndexRenew 1 [6]); OpTx (TxClose true);
   OpTx (TxClose true); OpTx TxExit].

Definition after_block : OverlayedChanges :=
  match @execute plain_env sample_block default_overlay with Some (_, ov) => ov | None => default_overlay end.

Definition block_results : list (option TxError) :=
  match @execute plain_env sample_block default_overlay with Some (l, _) => l | None => [] end.

(** The last rollback of the runtime is refused; nothing of the child that was rolled back is left. *)
Example sample_block_runs :
  @execute plain_env sample_block default_overlay = Some (block_results, after_block) ∧
  block_results = replicate 14 None ++ [Some NoOpenTransaction; None] ∧
  children after_block !! [8] = None ∧ (changes (top after_block) !! [1] ≫= value_ref) = Some (Some [10]) ∧
  transaction_index_ops after_block = [IndexRenew 1 [5]; IndexRenew 1 [6]].
Proof. vm_compute. done. Qed.

Lemma drained_changes_witness :
  ∃ sc, @drain_storage_changes plain_env (mkCache None None) StateV1 after_block = (Ok (sc, mkCache None None), drained after_block) ∧
    (λ r, cur r.2) <$> run (part_step top_update) sample_block no_values = Some (main_storage_changes sc).
Proof.
  destruct (@drained_changes_exact plain_env sample_block block_results after_block StateV1) as (sc & Hd & Ht & _).
  - vm_compute. reflexivity.
  - vm_compute. reflexivity.
  - exact (ex_intro _ sc (conj Hd Ht)).
Defined.

Lemma index_ops_kept_witness :
  transaction_index_ops after_block = [] ++ omap index_op sample_block.
Proof.
  apply (@index_ops_kept plain_env sample_block default_overlay block_results after_block).
  - exact default_in_step.
  - vm_compute. reflexivity.
Defined.

(** The off-chain changes are drained also while a transaction is open: its writes are returned as if they were committed. *)
Example offchain_drained_in_transaction :
  let ov := match @execute plain_env [OpTx TxStart; OpOffchain [2] (Some [12])] default_overlay with Some (_, ov) => ov | None => default_overlay end in
  transaction_depth ov = 1%nat ∧ (offchain_drain_committed ov).1 = Ok {[ (STORAGE_PREFIX, [2]) := SetValue [12] ]}.
Proof. split; vm_compute; reflexivity. Qed.
