(* ===== verification/BagsList.v ===== *)
(** [pallet_bags_list] ([frame/bags-list/src/list/mod.rs] and [lib.rs]): accounts in bags by their score,
    each bag a doubly linked list that lives in two storage maps, with the counted map of
    [frame/support/src/storage/types/counted_map.rs].  The theorems are in [BagsListProps] and [BagsListIter].

    The pallet's storage is the record [ListStore], with the events that it deposits.  The thresholds
    and the largest score are the class [BagsConfig]; the scores that the staking pallet reports may change between two
    calls, and are an argument [score_of].  An iteration over a bag follows the links, and ends only if they have no cycle: it
    takes the number of nodes as fuel, and one that is not over by then is [Panic] here. *)

From S2P Require Import Prelude Runtime.

(** ** Data *)

Record Node := mkNode {
  node_id : AccountId;
  prev : option AccountId;
  next : option AccountId;
  bag_upper : Z;
  score : Z }.

Record Bag := mkBag {
  bag_head : option AccountId;
  bag_tail : option AccountId;
  upper : Z }.

Inductive BagsEvent :=
| Rebagged (who : AccountId) (from to : Z)
| ScoreUpdated (who : AccountId) (new_score : Z).

(** [T::BagThresholds] and [T::Score::max_value()]; [T::Lookup] of [frame_system]. *)
Class BagsConfig := {
  BagThresholds : list Z;
  max_value : Z;
  Source : Type;
  lookup_source : Source → option AccountId }.

Record ListStore := mkList {
  ListNodes : gmap AccountId Node;
  CounterForListNodes : Z;
  ListBags : gmap Z Bag;
  bags_events : list BagsEvent }.

Definition with_nodes (f : gmap AccountId Node → gmap AccountId Node) (s : ListStore) : ListStore :=
  mkList (f (ListNodes s)) (CounterForListNodes s) (ListBags s) (bags_events s).
Definition with_counter (f : Z → Z) (s : ListStore) : ListStore :=
  mkList (ListNodes s) (f (CounterForListNodes s)) (ListBags s) (bags_events s).
Definition with_bags (f : gmap Z Bag → gmap Z Bag) (s : ListStore) : ListStore :=
  mkList (ListNodes s) (CounterForListNodes s) (f (ListBags s)) (bags_events s).
Definition with_event (e : BagsEvent) (s : ListStore) : ListStore :=
  mkList (ListNodes s) (CounterForListNodes s) (ListBags s) (bags_events s ++ [e]).

#[export] Instance Node_eq_dec : EqDecision Node.
Proof. solve_decision. Defined.

Module Bags.
Local Open Scope rust_scope.

Abbreviation L := (M ListStore ListError).

(** ** [CountedStorageMap] *)

Definition nodes_contains_key (key : AccountId) (s : ListStore) : bool := bool_decide (is_Some (ListNodes s !! key)).

Definition nodes_insert {E} (key : AccountId) (val : Node) : M ListStore E unit :=
  let! contains := gets (nodes_contains_key key) in
  do! (if negb contains then modify (with_counter (λ value, saturating_add 32 value 1)) else ret tt) in
  modify (with_nodes (insert key val)).

Definition nodes_remove {E} (key : AccountId) : M ListStore E unit :=
  let! contains := gets (nodes_contains_key key) in
  do! (if contains then modify (with_counter (λ value, saturating_sub value 1)) else ret tt) in
  modify (with_nodes (delete key)).

Definition nodes_remove_all {E} : M ListStore E unit :=
  do! modify (with_nodes (λ _, ∅)) in
  modify (with_counter (λ _, 0)).

(** ** [Node] *)

Definition node_get {E} (id : AccountId) : M ListStore E (option Node) := gets (λ s, ListNodes s !! id).

Definition node_put {E} (self : Node) : M ListStore E unit := nodes_insert (node_id self) self.

Definition opt_node {E} (id : option AccountId) : M ListStore E (option Node) :=
  match id with Some id => node_get id | None => ret None end.

Definition prev_node {E} (self : Node) : M ListStore E (option Node) := opt_node (prev self).
Definition next_node {E} (self : Node) : M ListStore E (option Node) := opt_node (next self).

Definition set_next (i : option AccountId) (n : Node) : Node := mkNode (node_id n) (prev n) i (bag_upper n) (score n).
Definition set_prev (i : option AccountId) (n : Node) : Node := mkNode (node_id n) i (next n) (bag_upper n) (score n).

Definition excise {E} (self : Node) : M ListStore E unit :=
  let! p := prev_node self in
  do! (match p with Some p => node_put (set_next (next self) p) | None => ret tt end) in
  let! n := next_node self in
  match n with Some n => node_put (set_prev (prev self) n) | None => ret tt end.

Definition remove_from_storage_unchecked {E} (self : Node) : M ListStore E unit := nodes_remove (node_id self).

Definition is_none {A} (o : option A) : bool := match o with None => true | Some _ => false end.

Definition is_terminal (self : Node) : bool := is_none (prev self) || is_none (next self).

(** ** [Bag] *)

Definition bag_get {E} (u : Z) : M ListStore E (option Bag) :=
  gets (λ s, (λ b, mkBag (bag_head b) (bag_tail b) u) <$> ListBags s !! u).

Definition get_or_make {E} (u : Z) : M ListStore E Bag :=
  let! b := bag_get u in ret (default (mkBag None None u) b).

Definition bag_is_empty (self : Bag) : bool := is_none (bag_head self) && is_none (bag_tail self).

(** The field [bag_upper] is skipped by the codec: it is stored as nothing and read back as the default. *)
Definition stored (self : Bag) : Bag := mkBag (bag_head self) (bag_tail self) 0.

Definition bag_put {E} (self : Bag) : M ListStore E unit :=
  if bag_is_empty self then modify (with_bags (delete (upper self)))
  else modify (with_bags (insert (upper self) (stored self))).

(** [sp_std::iter::successors(first, |prev| prev.next())] *)
Fixpoint successors (fuel : nat) (nodes : gmap AccountId Node) (first : option Node) : option (list Node) :=
  match first with
  | None => Some []
  | Some n =>
      match fuel with
      | O => None
      | S fuel => cons n <$> successors fuel nodes (next n ≫= (λ id, nodes !! id))
      end
  end.

Definition follow {E} (first : option Node) : M ListStore E (list Node) :=
  let! nodes := gets ListNodes in unwrap (successors (size nodes) nodes first).

Definition bag_iter {E} (self : Bag) : M ListStore E (list Node) :=
  let! first := opt_node (bag_head self) in follow first.

(** The methods that take [&mut self] return the bag. *)
Definition insert_node_unchecked {E} (self : Bag) (node : Node) : M ListStore E Bag :=
  if bool_decide (bag_tail self = Some (node_id node)) then ret self
  else
    let id := node_id node in
    do! node_put (mkNode id (bag_tail self) None (upper self) (score node)) in
    let! old_tail := opt_node (bag_tail self) in
    do! (match old_tail with Some old_tail => node_put (set_next (Some id) old_tail) | None => ret tt end) in
    ret (mkBag (if is_none (bag_head self) then Some id else bag_head self) (Some id) (upper self)).

Definition insert_unchecked {E} (self : Bag) (id : AccountId) (score : Z) : M ListStore E Bag :=
  insert_node_unchecked self (mkNode id None None 0 score).

Definition remove_node_unchecked {E} (self : Bag) (node : Node) : M ListStore E Bag :=
  do! excise node in
  let tail := if bool_decide (bag_tail self = Some (node_id node)) then prev node else bag_tail self in
  let head := if bool_decide (bag_head self = Some (node_id node)) then next node else bag_head self in
  ret (mkBag head tail (upper self)).

(** ** [List] *)

Section WithThresholds.
Context {C : BagsConfig}.

(** [slice::partition_point], whose argument is partitioned. *)
Fixpoint partition_point (pred : Z → bool) (l : list Z) : nat :=
  match l with [] => 0 | x :: l => if pred x then S (partition_point pred l) else 0 end.

Definition bag_among (thresholds : list Z) (score : Z) : Z :=
  default max_value (thresholds !! partition_point (λ threshold, threshold <? score) thresholds).

Definition notional_bag_for (score : Z) : Z := bag_among BagThresholds score.

Definition is_misplaced (self : Node) (current_score : Z) : bool := negb (notional_bag_for current_score =? bag_upper self).

Definition unsafe_clear {E} : M ListStore E unit :=
  do! modify (with_bags (λ _, ∅)) in nodes_remove_all.

Definition contains (id : AccountId) (s : ListStore) : bool := nodes_contains_key id s.

Definition get_score (id : AccountId) : L Z :=
  let! n := node_get id in let! n := ok_or n NodeNotFound in ret (score n).

(** The thresholds with the implied last one. *)
Definition all_thresholds : list Z :=
  if bool_decide (last BagThresholds = Some max_value) then BagThresholds else BagThresholds ++ [max_value].

(** [filter_map(Bag::get).flat_map(|bag| bag.iter())] *)
Fixpoint iter_bags {E} (us : list Z) : M ListStore E (list Node) :=
  match us with
  | [] => ret []
  | u :: us =>
      let! b := bag_get u in
      let! ns := match b with Some b => bag_iter b | None => ret [] end in
      let! rest := iter_bags us in
      ret (ns ++ rest)
  end.

Definition list_iter {E} : M ListStore E (list Node) := iter_bags (reverse all_thresholds).

Definition iter_from (start : AccountId) : L (list Node) :=
  let! start_node := node_get start in
  let! start_node := ok_or start_node NodeNotFound in
  let! first := next_node start_node in
  let! start_bag := follow first in
  let idx := partition_point (λ threshold, threshold <? bag_upper start_node) BagThresholds in
  let! leftover := iter_bags (reverse (take idx BagThresholds)) in
  ret (start_bag ++ leftover).

Definition insert (id : AccountId) (score : Z) : L unit :=
  let! c := gets (contains id) in
  do! ensure (negb c) Duplicate in
  let! bag := get_or_make (notional_bag_for score) in
  let! bag := insert_unchecked bag id score in
  bag_put bag.

Fixpoint insert_many (ids : list AccountId) (score_of : AccountId → Z) (count : Z) : L Z :=
  match ids with
  | [] => ret count
  | v :: ids =>
      let! r := attempt (insert v (score_of v)) in
      insert_many ids score_of (match r with inl _ => wrapping_add 32 count 1 | inr _ => count end)
  end.

(** The bags whose ends change are kept in a [BTreeMap] until all ids are removed. *)
Fixpoint remove_nodes {E} (ids : list AccountId) (bags : gmap Z Bag) (count : Z) : M ListStore E (gmap Z Bag * Z) :=
  match ids with
  | [] => ret (bags, count)
  | id :: ids =>
      let! node := node_get id in
      match node with
      | None => remove_nodes ids bags count
      | Some node =>
          let count := wrapping_add 32 count 1 in
          let! bags :=
            if negb (is_terminal node) then do! excise node in ret bags
            else
              let! bag := match bags !! bag_upper node with Some bag => ret bag | None => get_or_make (bag_upper node) end in
              let! bag := remove_node_unchecked bag node in
              ret (<[bag_upper node := bag]> bags) in
          do! remove_from_storage_unchecked node in
          remove_nodes ids bags count
      end
  end.

Fixpoint put_bags {E} (bags : list Bag) : M ListStore E unit :=
  match bags with [] => ret tt | bag :: bags => do! bag_put bag in put_bags bags end.

Definition remove_many {E} (ids : list AccountId) : M ListStore E Z :=
  let! r := remove_nodes ids ∅ 0 in
  do! put_bags (map_to_list r.1).*2 in
  ret r.2.

Definition remove (id : AccountId) : L unit :=
  let! c := gets (contains id) in
  do! ensure c NodeNotFound in
  do! remove_many [id] in
  ret tt.

Definition update_position_for (node : Node) (new_score : Z) : L (option (Z * Z)) :=
  let node := mkNode (node_id node) (prev node) (next node) (bag_upper node) new_score in
  if is_misplaced node new_score then
    let old_bag_upper := bag_upper node in
    do! (if negb (is_terminal node) then excise node
         else
           let! bag := bag_get (bag_upper node) in
           match bag with
           | Some bag => let! bag := remove_node_unchecked bag node in bag_put bag
           | None => ret tt
           end) in
    let new_bag_upper := notional_bag_for new_score in
    let! bag := get_or_make new_bag_upper in
    let! bag := insert_node_unchecked bag node in
    do! bag_put bag in
    ret (Some (old_bag_upper, new_bag_upper))
  else
    do! node_put node in
    ret None.

Definition insert_at_unchecked (at_ node : Node) : L unit :=
  let! p := prev_node at_ in
  do! (match p with Some p => node_put (set_next (Some (node_id node)) p) | None => ret tt end) in
  let node := mkNode (node_id node) (prev at_) (Some (node_id at_)) (bag_upper node) (score node) in
  let at_ := set_prev (Some (node_id node)) at_ in
  do! (if is_terminal node then
         let! bag := bag_get (bag_upper at_) in
         let! bag := unwrap bag in
         bag_put (if is_none (prev node) then mkBag (Some (node_id node)) (bag_tail bag) (upper bag) else bag)
       else ret tt) in
  do! node_put at_ in
  node_put node.

Definition put_in_front_of (score_of : AccountId → Z) (lighter_id heavier_id : AccountId) : L unit :=
  let! lighter_node := node_get lighter_id in
  let! lighter_node := ok_or lighter_node NodeNotFound in
  let! heavier_node := node_get heavier_id in
  let! heavier_node := ok_or heavier_node NodeNotFound in
  do! ensure (bag_upper lighter_node =? bag_upper heavier_node) NotInSameBag in
  do! ensure (score_of lighter_id <? score_of heavier_id) NotHeavier in
  do! attempt (E' := ListError) (remove heavier_id) in
  let! lighter_node := node_get lighter_id in
  let! lighter_node := ok_or lighter_node NodeNotFound in
  insert_at_unchecked lighter_node heavier_node.

Definition unsafe_regenerate (all : list AccountId) (score_of : AccountId → Z) : L Z :=
  do! unsafe_clear in
  insert_many all score_of 0.

(** *** A change of the thresholds *)

(** The accounts of the bags in [us] that were not visited before: the accounts and the bags visited. *)
Fixpoint collect_affected {E} (us : list Z) (visited : gset Z) (accounts : gset AccountId) : M ListStore E (gset Z * gset AccountId) :=
  match us with
  | [] => ret (visited, accounts)
  | u :: us =>
      if bool_decide (u ∈ visited) then collect_affected us visited accounts
      else
        let! b := bag_get u in
        let! ns := match b with Some b => bag_iter b | None => ret [] end in
        collect_affected us ({[u]} ∪ visited) (list_to_set (node_id <$> ns) ∪ accounts)
  end.

Fixpoint remove_bags {E} (us : list Z) : M ListStore E unit :=
  match us with [] => ret tt | u :: us => do! modify (with_bags (delete u)) in remove_bags us end.

(** The items of a [BTreeSet] of accounts, in its order. *)
Definition in_order (l : gset AccountId) : list AccountId := merge_sort N.le (elements l).

Definition migrate (score_of : AccountId → Z) (old_thresholds : list Z) : L Z :=
  if bool_decide (BagThresholds = old_thresholds) then ret 0
  else
    let new_bags := filter (λ t, t ∉ old_thresholds) BagThresholds in
    let! r := collect_affected (bag_among old_thresholds <$> new_bags) ∅ ∅ in
    let removed_bags := filter (λ t, t ∉ BagThresholds) old_thresholds in
    let! r := collect_affected removed_bags r.1 r.2 in
    let affected_accounts := r.2 in
    let num_affected := Z.of_nat (size affected_accounts) mod 2 ^ 32 in
    do! remove_many (in_order affected_accounts) in
    do! insert_many (in_order affected_accounts) score_of 0 in
    do! remove_bags removed_bags in
    ret num_affected.

(** ** Checks of the state *)

Abbreviation Try := (M ListStore string).

Definition bag_contains (self : Bag) (id : AccountId) : Try bool :=
  let! ns := bag_iter self in ret (bool_decide (id ∈ node_id <$> ns)).

Definition bag_try_state (self : Bag) : Try unit :=
  let! h := opt_node (bag_head self) in
  let! hp := match h with Some h => let! p := prev_node h in ret (is_none p) | None => ret (is_none (bag_tail self)) end in
  do! ensure hp "head has a prev" in
  let! t := opt_node (bag_tail self) in
  let! tn := match t with Some t => let! n := next_node t in ret (is_none n) | None => ret (is_none (bag_head self)) end in
  do! ensure tn "tail has a next" in
  let! ns := bag_iter self in
  ensure (bool_decide (NoDup (node_id <$> ns))) "duplicate found in bag".

Definition node_try_state (self : Node) : Try unit :=
  let! b := bag_get (bag_upper self) in
  let! expected_bag := ok_or b "bag not found for node" in
  let! c := bag_contains expected_bag (node_id self) in
  do! ensure c "node does not exist in the expected bag" in
  let is_head := bool_decide (bag_head expected_bag = Some (node_id self)) in
  let is_tail := bool_decide (bag_tail expected_bag = Some (node_id self)) in
  let non_terminal_check := negb (is_terminal self) && negb is_head && negb is_tail in
  let terminal_check := is_head || is_tail in
  ensure (non_terminal_check || terminal_check) "a terminal node is neither its bag head or tail".

(** [try_for_each] *)
Fixpoint try_each {A} (f : A → Try unit) (l : list A) : Try unit :=
  match l with [] => ret tt | x :: l => do! f x in try_each f l end.

Fixpoint active_bags {E} (us : list Z) : M ListStore E (list Bag) :=
  match us with
  | [] => ret []
  | u :: us => let! b := bag_get u in let! rest := active_bags us in ret (match b with Some b => b :: rest | None => rest end)
  end.

(** [fold(0u32, |acc, cur| acc + cur.iter().count() as u32)] *)
Fixpoint count_in_bags {E} (bs : list Bag) (acc : Z) : M ListStore E Z :=
  match bs with
  | [] => ret acc
  | b :: bs => let! ns := bag_iter b in count_in_bags bs (wrapping_add 32 acc (Z.of_nat (length ns) mod 2 ^ 32))
  end.

Definition list_try_state : Try unit :=
  let! ns := list_iter in
  do! ensure (bool_decide (NoDup (node_id <$> ns))) "duplicate identified" in
  let iter_count := Z.of_nat (length ns) mod 2 ^ 32 in
  let! stored_count := gets CounterForListNodes in
  let! nodes := gets ListNodes in
  let nodes_count := Z.of_nat (size nodes) mod 2 ^ 32 in
  do! ensure (iter_count =? stored_count) "iter_count != stored_count" in
  do! ensure (stored_count =? nodes_count) "stored_count != nodes_count" in
  let! bs := active_bags all_thresholds in
  do! try_each bag_try_state bs in
  let! nodes_in_bags_count := count_in_bags bs 0 in
  do! ensure (nodes_count =? nodes_in_bags_count) "stored_count != nodes_in_bags_count" in
  try_each node_try_state (map_to_list nodes).*2.

(** [get_bags] *)
Fixpoint get_bags_of {E} (us : list Z) : M ListStore E (list (Z * list AccountId)) :=
  match us with
  | [] => ret []
  | u :: us =>
      let! b := bag_get u in
      let! here := match b with Some b => let! ns := bag_iter b in ret [(u, node_id <$> ns)] | None => ret [] end in
      let! rest := get_bags_of us in
      ret (here ++ rest)
  end.

Definition get_bags {E} : M ListStore E (list (Z * list AccountId)) := get_bags_of all_thresholds.

(** ** The pallet *)

Definition do_rebag (account : AccountId) (new_score : Z) : L (option (Z * Z)) :=
  let! node := node_get account in
  let! node := ok_or node NodeNotFound in
  let! maybe_movement := update_position_for node new_score in
  do! (match maybe_movement with Some (from, to) => modify (with_event (Rebagged account from to)) | None => ret tt end) in
  do! modify (with_event (ScoreUpdated account new_score)) in
  ret maybe_movement.

(** [map_err(Into::into)] *)
Definition list_err {A} (m : L A) : M ListStore DispatchError A := λ s,
  match m s with
  | (Ok a, s) => (Ok a, s)
  | (Err e, s) => (Err (Module_ (BagsListE e)), s)
  | (Panic, s) => (Panic, s)
  end.

Definition signed_by (origin : RawOrigin) : M ListStore DispatchError AccountId :=
  match origin with Signed who => ret who | _ => throw BadOrigin end.

Definition rebag (score_of : AccountId → Z) (origin : RawOrigin) (dislocated : Source) : M ListStore DispatchError unit :=
  do! signed_by origin in
  let! dislocated := ok_or (lookup_source dislocated) CannotLookup in
  do! list_err (do_rebag dislocated (score_of dislocated)) in
  ret tt.

Definition put_in_front_of_call (score_of : AccountId → Z) (origin : RawOrigin) (lighter : Source) : M ListStore DispatchError unit :=
  let! heavier := signed_by origin in
  let! lighter := ok_or (lookup_source lighter) CannotLookup in
  list_err (put_in_front_of score_of lighter heavier).

(** [SortedListProvider] *)
Definition provider_iter {E} : M ListStore E (list AccountId) := let! ns := list_iter in ret (node_id <$> ns).
Definition provider_iter_from (start : AccountId) : L (list AccountId) := let! ns := iter_from start in ret (node_id <$> ns).
Definition provider_count (s : ListStore) : Z := CounterForListNodes s.
Definition on_insert (id : AccountId) (score : Z) : L unit := insert id score.
Definition on_update (id : AccountId) (new_score : Z) : L unit := do! do_rebag id new_score in ret tt.
Definition on_remove (id : AccountId) : L unit := remove id.

(** [ScoreProvider] *)
Definition provider_score (id : AccountId) (s : ListStore) : Z := from_option score 0 (ListNodes s !! id).

End WithThresholds.
End Bags.
