(* ===== verification/BagsListProps.v ===== *)
(** The linked lists of [pallet_bags_list] implement plain lists: the storage represents a map from
    thresholds to lists of accounts, and every operation does on it what its specification does on the lists. *)

From S2P Require Import Prelude Runtime BagsList.
Import Bags.

(** ** Lists cut at an element *)

Section Cuts.
Context {A : Type}.
Implicit Types (l a c : list A) (x i : A).

Lemma app_cons_cases a c l1 i l2 : a ++ c = l1 ++ i :: l2 →
  (∃ a2, a = l1 ++ i :: a2 ∧ l2 = a2 ++ c) ∨ (∃ c1, c = c1 ++ i :: l2 ∧ l1 = a ++ c1).
Proof.
  intros [(k & -> & Hk)|(k & -> & Hk)]%app_eq_inv.
  - destruct k as [|x k]; simpl in Hk.
    + right. exists []. by rewrite !app_nil_r.
    + injection Hk as -> ->. left. by exists k.
  - right. by exists k.
Qed.

Lemma head_app a c : head (a ++ c) = match head a with Some x => Some x | None => head c end.
Proof. by destruct a. Qed.

Lemma NoDup_cut l1 i l2 : NoDup (l1 ++ i :: l2) → i ∉ l1 ∧ i ∉ l2 ∧ NoDup (l1 ++ l2).
Proof. rewrite !NoDup_app, NoDup_cons. set_solver. Qed.

Lemma head_elem l x : head l = Some x → x ∈ l.
Proof. destruct l; [done|]. intros [= ->]. set_solver. Qed.

Lemma last_elem l x : last l = Some x → x ∈ l.
Proof. intros (l' & ->)%last_Some. set_solver. Qed.
End Cuts.

(** ** Representation *)

(** What the storage stands for: the list of each bag, and the bag and the score of each account. *)
Record Lists := mkLists {
  bags : gmap Z (list AccountId);
  info : gmap AccountId (Z * Z) }.

Definition bag_list (a : Lists) (u : Z) : list AccountId := default [] (bags a !! u).

(** The nodes of the accounts of [l] link them in order. *)
Definition linked (nodes : gmap AccountId Node) (inf : gmap AccountId (Z * Z)) (u : Z) (l : list AccountId) : Prop :=
  ∀ l1 i l2, l = l1 ++ i :: l2 → ∃ sc, inf !! i = Some (u, sc) ∧ nodes !! i = Some (mkNode i (last l1) (head l2) u sc).

(** The storage with an extra set [X] of nodes that are in no list. *)
Record rep_but (X : gset AccountId) (s : ListStore) (a : Lists) : Prop := {
  rep_bags : ∀ u, ListBags s !! u = (λ l, mkBag (head l) (last l) 0) <$> bags a !! u;
  rep_lists : ∀ u l, bags a !! u = Some l → l ≠ [] ∧ NoDup l ∧ linked (ListNodes s) (info a) u l;
  rep_info : ∀ i u sc, info a !! i = Some (u, sc) → i ∈ bag_list a u;
  rep_dom : dom (ListNodes s) = dom (info a) ∪ X;
  rep_fresh : X ## dom (info a);
  rep_ids : ∀ i n, ListNodes s !! i = Some n → node_id n = i;
  rep_count : CounterForListNodes s = Z.of_nat (size (ListNodes s));
  rep_count_max : Z.of_nat (size (ListNodes s)) <= u32_max }.

Abbreviation rep := (rep_but ∅).

Section Rep.
Context (X : gset AccountId) (s : ListStore) (a : Lists) (R : rep_but X s a).

Lemma rep_bag_list u : NoDup (bag_list a u) ∧ linked (ListNodes s) (info a) u (bag_list a u).
Proof.
  unfold bag_list. destruct (bags a !! u) as [l|] eqn:E; simpl.
  - by apply (rep_lists _ _ _ R) in E as (_ & ? & ?).
  - split; [constructor|]. intros l1 i l2 H. by destruct l1.
Qed.

Lemma bag_list_info i u : i ∈ bag_list a u ↔ ∃ sc, info a !! i = Some (u, sc).
Proof.
  split.
  - intros (l1 & l2 & Hl)%list_elem_of_split. destruct (rep_bag_list u) as [_ Hk]. destruct (Hk _ _ _ Hl) as (sc & ? & _). by exists sc.
  - intros (sc & Hi). by apply (rep_info _ _ _ R) in Hi.
Qed.

(** The node of an account of the list, and where it stands. *)
Lemma rep_node i u sc : info a !! i = Some (u, sc) →
  ∃ l1 l2, bags a !! u = Some (l1 ++ i :: l2) ∧ NoDup (l1 ++ i :: l2) ∧ ListNodes s !! i = Some (mkNode i (last l1) (head l2) u sc).
Proof.
  intros Hi. pose proof (rep_info _ _ _ R _ _ _ Hi) as Hin. unfold bag_list in Hin.
  destruct (bags a !! u) as [l|] eqn:E; simpl in Hin; [|set_solver]. apply list_elem_of_split in Hin as (l1 & l2 & ->).
  destruct (rep_lists _ _ _ R _ _ E) as (_ & Hnd & Hk). destruct (Hk _ _ _ eq_refl) as (sc' & Hi' & Hn). exists l1, l2. split; [done|]. split; [done|].
  rewrite Hi in Hi'. by simplify_eq.
Qed.

Lemma rep_node_inv i n : i ∉ X → ListNodes s !! i = Some n → info a !! i = Some (bag_upper n, score n).
Proof.
  intros HX Hn. assert (is_Some (info a !! i)) as [[u sc] Hi].
  { apply elem_of_dom. pose proof (rep_dom _ _ _ R). assert (i ∈ dom (ListNodes s)) by (apply elem_of_dom; eauto). set_solver. }
  destruct (rep_node _ _ _ Hi) as (l1 & l2 & _ & _ & Hn'). rewrite Hn in Hn'. by simplify_eq.
Qed.

Lemma rep_info_dom i : i ∉ X → is_Some (ListNodes s !! i) ↔ is_Some (info a !! i).
Proof. intros HX. rewrite <- !elem_of_dom, (rep_dom _ _ _ R). set_solver. Qed.
End Rep.

(** ** Cutting a node out and linking one in *)

Definition alter_opt (f : Node → Node) (i : option AccountId) (m : gmap AccountId Node) : gmap AccountId Node :=
  match i with Some i => alter f i m | None => m end.

Definition cut (p n : option AccountId) (m : gmap AccountId Node) : gmap AccountId Node :=
  alter_opt (set_prev p) n (alter_opt (set_next n) p m).

Definition link (x : Node) (m : gmap AccountId Node) : gmap AccountId Node :=
  <[node_id x := x]> (alter_opt (set_prev (Some (node_id x))) (next x) (alter_opt (set_next (Some (node_id x))) (prev x) m)).

Lemma lookup_alter_opt f i m j : alter_opt f i m !! j = if decide (i = Some j) then f <$> m !! j else m !! j.
Proof.
  destruct i as [i|]; simpl; [|done]. destruct (decide (i = j)) as [->|Hne].
  - rewrite lookup_alter_eq. by rewrite decide_True.
  - rewrite lookup_alter_ne by done. rewrite decide_False by congruence. done.
Qed.

Lemma dom_alter_opt f i m : dom (alter_opt f i m) = dom m.
Proof. destruct i; simpl; [apply dom_alter_L|done]. Qed.

Lemma linked_cut m inf u l1 i l2 : linked m inf u (l1 ++ i :: l2) → NoDup (l1 ++ i :: l2) → linked (cut (last l1) (head l2) m) (delete i inf) u (l1 ++ l2).
Proof.
  intros Hk Hnd k1 j k2 Hl. apply NoDup_cut in Hnd as (Hi1 & Hi2 & Hnd). unfold cut. rewrite !lookup_alter_opt.
  assert (Hj : j ∉ k1 ∧ j ∉ k2) by (rewrite Hl in Hnd; apply NoDup_cut in Hnd; naive_solver). destruct Hj as [Hj1 Hj2].
  apply app_cons_cases in Hl as [(a2 & -> & ->)|(c1 & -> & ->)].
  - destruct (Hk k1 j (a2 ++ i :: l2)) as (sc & Hs & Hn); [by rewrite <- app_assoc|]. exists sc. rewrite lookup_delete_ne by set_solver. split; [done|].
    rewrite (decide_False (P := head l2 = Some j)) by (intros ?%head_elem; set_solver). rewrite Hn, last_app_cons, !head_app.
    destruct a2 as [|x a2]; [by rewrite decide_True|]. rewrite last_cons_cons. rewrite decide_False by (intros ?%last_elem; set_solver). done.
  - destruct (Hk (l1 ++ i :: c1) j k2) as (sc & Hs & Hn); [by rewrite <- app_assoc|]. exists sc. rewrite lookup_delete_ne by set_solver. split; [done|].
    rewrite (decide_False (P := last l1 = Some j)) by (intros ?%last_elem; set_solver). rewrite Hn.
    destruct c1 as [|x c1]; [rewrite app_nil_r; by rewrite decide_True|]. rewrite decide_False by (intros [= ->]; set_solver). by rewrite !last_app_cons, last_cons_cons.
Qed.

Lemma linked_other m m' inf inf' u l : (∀ j, j ∈ l → m' !! j = m !! j ∧ inf' !! j = inf !! j) → linked m inf u l → linked m' inf' u l.
Proof. intros Hs Hk l1 i l2 ->. destruct (Hk _ _ _ eq_refl) as (sc & ? & ?). destruct (Hs i) as [-> ->]; [set_solver|]. eauto. Qed.

Lemma linked_link m inf u a i c sc : linked m inf u (a ++ c) → NoDup (a ++ c) → i ∉ a ++ c →
  linked (link (mkNode i (last a) (head c) u sc) m) (<[i := (u, sc)]> inf) u (a ++ i :: c).
Proof.
  intros Hk Hnd Hi k1 j k2 Hl. unfold link. cbn [node_id prev next].
  destruct (decide (j = i)) as [->|Hne].
  - exists sc. rewrite !lookup_insert_eq. split; [done|]. apply app_cons_cases in Hl as [(a2 & -> & ->)|(c1 & Hc & ->)]; [set_solver|].
    destruct c1 as [|x c1]; simpl in Hc; [injection Hc as ->; by rewrite app_nil_r|injection Hc as -> ->; set_solver].
  - rewrite !lookup_insert_ne by done. rewrite !lookup_alter_opt. assert (Hac : a ++ i :: c = (a ++ [i]) ++ c) by (by rewrite <- app_assoc).
    apply app_cons_cases in Hl as [(a2 & -> & ->)|(c1 & Hc & ->)].
    + destruct (Hk k1 j (a2 ++ c)) as (sc' & Hs & Hn); [by rewrite <- app_assoc|]. exists sc'. split; [done|].
      rewrite <- app_assoc in Hnd. simpl in Hnd. apply NoDup_cut in Hnd as (Hj1 & Hj2 & Hnd).
      rewrite (decide_False (P := head c = Some j)) by (intros ?%head_elem; set_solver). rewrite Hn, last_app_cons, !head_app.
      destruct a2 as [|x a2]; [by rewrite decide_True|]. rewrite last_cons_cons. rewrite decide_False by (intros ?%last_elem; set_solver). done.
    + destruct c1 as [|x c1]; simpl in Hc; injection Hc as -> ->; [done|].
      destruct (Hk (a ++ c1) j k2) as (sc' & Hs & Hn); [by rewrite <- app_assoc|]. exists sc'. split; [done|].
      rewrite app_assoc in Hnd. apply NoDup_cut in Hnd as (Hj1 & Hj2 & Hnd).
      rewrite (decide_False (P := last a = Some j)) by (intros ?%last_elem; set_solver). rewrite Hn.
      destruct c1 as [|y c1]; [rewrite last_snoc; by rewrite decide_True|]. rewrite decide_False by (intros [= ->]; set_solver). by rewrite !last_app_cons, last_cons_cons.
Qed.

(** ** The stored ends of a list *)

Definition ends (l : list AccountId) : option Bag := match l with [] => None | _ => Some (mkBag (head l) (last l) 0) end.

Definition put_list (u : Z) (l : list AccountId) (m : gmap Z (list AccountId)) : gmap Z (list AccountId) :=
  match l with [] => delete u m | _ => <[u := l]> m end.

Lemma lookup_put_list u l m v : put_list u l m !! v = if decide (v = u) then match l with [] => None | _ => Some l end else m !! v.
Proof.
  destruct (decide (v = u)) as [->|Hne]; unfold put_list.
  - destruct l; [apply lookup_delete_eq|apply lookup_insert_eq].
  - destruct l; [by rewrite lookup_delete_ne|by rewrite lookup_insert_ne].
Qed.

Lemma bag_list_put u l m inf v : bag_list (mkLists (put_list u l m) inf) v = if decide (v = u) then l else bag_list (mkLists m inf) v.
Proof. unfold bag_list. simpl. rewrite lookup_put_list. case_decide; [by destruct l|done]. Qed.

Definition put_bag (b : Bag) (m : gmap Z Bag) : gmap Z Bag :=
  if bag_is_empty b then delete (upper b) m else <[upper b := stored b]> m.

Lemma lookup_put_bag b m v : put_bag b m !! v = if decide (v = upper b) then (if bag_is_empty b then None else Some (stored b)) else m !! v.
Proof.
  unfold put_bag. destruct (bag_is_empty b), (decide (v = upper b)) as [->|Hne]; by rewrite ?lookup_delete_eq, ?lookup_insert_eq, ?lookup_delete_ne, ?lookup_insert_ne by done.
Qed.

(** The bag with the ends of [l], stored. *)
Lemma stored_ends l u : (let b := mkBag (head l) (last l) u in if bag_is_empty b then None else Some (stored b)) = ends l.
Proof. destruct l as [|x l]; [done|]. unfold bag_is_empty, stored, ends. cbn [bag_head bag_tail head is_none andb]. done. Qed.

Lemma rep_ends X s a u : rep_but X s a → ListBags s !! u = ends (bag_list a u).
Proof.
  intros R. rewrite (rep_bags _ _ _ R). unfold bag_list. destruct (bags a !! u) as [l|] eqn:E; [|done]. destruct (rep_lists _ _ _ R _ _ E) as [Hne _]. by destruct l.
Qed.

Lemma filter_without (i : AccountId) (l : list AccountId) : i ∉ l → filter (λ j, j ≠ i) l = l.
Proof. induction l as [|x l IH]; [done|]. intros [Hne Hi]%not_elem_of_cons. by rewrite filter_cons_True, IH. Qed.

Lemma filter_cut l1 (i : AccountId) l2 : NoDup (l1 ++ i :: l2) → filter (λ j, j ≠ i) (l1 ++ i :: l2) = l1 ++ l2.
Proof.
  intros (H1 & H2 & _)%NoDup_cut. rewrite filter_app, filter_cons_False by naive_solver.
  by rewrite !filter_without.
Qed.

(** ** Steps of the specification on the representation *)

Definition cut_spec (i : AccountId) (u : Z) (a : Lists) : Lists :=
  mkLists (put_list u (filter (λ j, j ≠ i) (bag_list a u)) (bags a)) (delete i (info a)).

Definition link_spec (i : AccountId) (u sc : Z) (l : list AccountId) (a : Lists) : Lists :=
  mkLists (<[u := l]> (bags a)) (<[i := (u, sc)]> (info a)).

Section Steps.
Context (X : gset AccountId) (s s' : ListStore) (a : Lists) (R : rep_but X s a).

(** The account is in one list only. *)
Lemma other_list i u v sc : info a !! i = Some (u, sc) → v ≠ u → i ∉ bag_list a v.
Proof. intros Hi Hne (sc' & Hi')%(bag_list_info _ _ _ R). naive_solver. Qed.

Lemma rep_cut i u sc l1 l2 : info a !! i = Some (u, sc) → bags a !! u = Some (l1 ++ i :: l2) →
  ListNodes s' = cut (last l1) (head l2) (ListNodes s) → CounterForListNodes s' = CounterForListNodes s →
  (∀ v, ListBags s' !! v = if decide (v = u) then ends (l1 ++ l2) else ListBags s !! v) →
  rep_but ({[i]} ∪ X) s' (cut_spec i u a).
Proof.
  intros Hi Hu En Ec Eb. destruct (rep_lists _ _ _ R _ _ Hu) as (_ & Hnd & Hk). pose proof (NoDup_cut _ _ _ Hnd) as (Hi1 & Hi2 & Hnd').
  assert (Hbl : bag_list a u = l1 ++ i :: l2) by (unfold bag_list; by rewrite Hu).
  assert (Hd : dom (cut (last l1) (head l2) (ListNodes s)) = dom (ListNodes s)) by (unfold cut; by rewrite !dom_alter_opt).
  assert (Hsz : size (ListNodes s') = size (ListNodes s)) by (by rewrite <- !size_dom, En, Hd).
  unfold cut_spec. rewrite Hbl, filter_cut by done. split; rewrite ?Ec, ?Hsz; [| | | | | |apply R|apply R].
  - intros v. rewrite Eb. cbn [bags]. rewrite lookup_put_list. case_decide as Hv; [by destruct (l1 ++ l2)|apply R].
  - intros v l. cbn [bags info]. rewrite lookup_put_list, En. case_decide as Hv.
    + subst v. intros Hl. assert (l = l1 ++ l2 ∧ l ≠ []) as [-> Hne] by (destruct (l1 ++ l2); naive_solver).
      split; [done|]. split; [done|]. by apply linked_cut.
    + intros Hl. destruct (rep_lists _ _ _ R _ _ Hl) as (Hne & Hndl & Hkl). split; [done|]. split; [done|].
      eapply linked_other; [|exact Hkl]. intros j Hj.
      assert (Hjl : j ∉ l1 ++ i :: l2).
      { rewrite <- Hbl. destruct (bag_list_info _ _ _ R j v) as [[sc' Hj'] _]; [unfold bag_list; by rewrite Hl|]. by eapply other_list. }
      rewrite lookup_delete_ne by set_solver. unfold cut. rewrite !lookup_alter_opt.
      rewrite !decide_False; [done|intros ?%last_elem; set_solver|intros ?%head_elem; set_solver].
  - intros j v sc'. cbn [info]. intros [Hne Hj]%lookup_delete_Some. rewrite bag_list_put. pose proof (rep_info _ _ _ R _ _ _ Hj) as Hin.
    case_decide as Hv; [|done]. subst v. rewrite Hbl in Hin. set_solver.
  - rewrite En, Hd, (rep_dom _ _ _ R). cbn [info]. rewrite dom_delete_L. assert (i ∈ dom (info a)) by (apply elem_of_dom; eauto).
    apply set_eq. intros j. destruct (decide (j = i)); set_solver.
  - cbn [info]. rewrite dom_delete_L. pose proof (rep_fresh _ _ _ R). set_solver.
  - intros j n. rewrite En. unfold cut. rewrite !lookup_alter_opt. pose proof (rep_ids _ _ _ R j) as Hids.
    destruct (ListNodes s !! j) as [n0|] eqn:En0; [|by repeat case_decide]. specialize (Hids _ eq_refl). repeat case_decide; simpl; intros [= <-]; done.
Qed.

Lemma rep_link i u sc la c : i ∉ dom (info a) → bag_list a u = la ++ c →
  ListNodes s' = link (mkNode i (last la) (head c) u sc) (ListNodes s) → 
  (∀ v, ListBags s' !! v = if decide (v = u) then ends (la ++ i :: c) else ListBags s !! v) →
  CounterForListNodes s' = Z.of_nat (size (ListNodes s')) → Z.of_nat (size (ListNodes s')) <= u32_max →
  rep_but (X ∖ {[i]}) s' (link_spec i u sc (la ++ i :: c) a).
Proof.
  intros Hi Hbl En Eb Ec Hmax. destruct (rep_bag_list _ _ _ R u) as [Hnd Hk]. rewrite Hbl in Hnd, Hk.
  assert (Hni : ∀ v, i ∉ bag_list a v) by (intros v (sc' & Hi')%(bag_list_info _ _ _ R); apply Hi, elem_of_dom; eauto).
  assert (Hil : i ∉ la ++ c) by (rewrite <- Hbl; apply Hni).
  assert (Hd : dom (ListNodes s') = {[i]} ∪ dom (ListNodes s)) by (rewrite En; unfold link; cbn [node_id]; rewrite dom_insert_L, !dom_alter_opt; done).
  unfold link_spec. split; [| | | | | |done|done].
  - intros v. rewrite Eb. cbn [bags]. destruct (decide (v = u)) as [->|Hv].
    + rewrite lookup_insert_eq. by destruct la.
    + rewrite lookup_insert_ne by done. apply R.
  - intros v l. cbn [bags info]. rewrite En. intros [[<- <-]|[Hv Hl]]%lookup_insert_Some.
    + split; [by destruct la|]. split; [|by apply linked_link]. apply NoDup_app in Hnd as (? & ? & ?). apply NoDup_app. rewrite NoDup_cons. set_solver.
    + destruct (rep_lists _ _ _ R _ _ Hl) as (Hne & Hndl & Hkl). split; [done|]. split; [done|].
      eapply linked_other; [|exact Hkl]. intros j Hj. assert (Hjl : j ∈ bag_list a v) by (unfold bag_list; by rewrite Hl).
      assert (j ≠ i) by (intros ->; by apply (Hni v)).
      assert (j ∉ la ++ c) by (rewrite <- Hbl; apply (bag_list_info _ _ _ R) in Hjl as [sc' Hj']; by eapply other_list).
      rewrite lookup_insert_ne by done. split; [|done]. unfold link. cbn [node_id prev next]. rewrite lookup_insert_ne by done. rewrite !lookup_alter_opt.
      rewrite !decide_False; [done|intros ?%last_elem; set_solver|intros ?%head_elem; set_solver].
  - intros j v sc'. cbn [info]. unfold bag_list. cbn [bags]. intros [[<- [= <- <-]]|[Hne Hj]]%lookup_insert_Some.
    + rewrite lookup_insert_eq. set_solver.
    + pose proof (rep_info _ _ _ R _ _ _ Hj) as Hin. destruct (decide (u = v)) as [<-|Hv].
      * rewrite lookup_insert_eq. rewrite Hbl in Hin. simpl. set_solver.
      * by rewrite lookup_insert_ne.
  - rewrite Hd, (rep_dom _ _ _ R). cbn [info]. rewrite dom_insert_L. apply set_eq. intros j. destruct (decide (j = i)); set_solver.
  - cbn [info]. rewrite dom_insert_L. pose proof (rep_fresh _ _ _ R). set_solver.
  - intros j n. rewrite En. unfold link. cbn [node_id prev next]. intros [[<- <-]|[_ Hj]]%lookup_insert_Some; [done|]. revert Hj. rewrite !lookup_alter_opt.
    pose proof (rep_ids _ _ _ R j) as Hids.
    destruct (ListNodes s !! j) as [n0|] eqn:En0; [|by repeat case_decide]. specialize (Hids _ eq_refl). repeat case_decide; simpl; intros [= <-]; done.
Qed.

(** A new score without a move. *)
Lemma rep_score i u sc sc' n : info a !! i = Some (u, sc) → ListNodes s !! i = Some n →
  ListNodes s' = <[i := mkNode i (prev n) (next n) u sc']> (ListNodes s) → CounterForListNodes s' = CounterForListNodes s → ListBags s' = ListBags s →
  rep_but X s' (mkLists (bags a) (<[i := (u, sc')]> (info a))).
Proof.
  intros Hi Hn En Ec Eb. assert (Hd : dom (ListNodes s') = dom (ListNodes s)).
  { rewrite En, dom_insert_L. assert (i ∈ dom (ListNodes s)) by (apply elem_of_dom; eauto). set_solver. }
  assert (Hsz : size (ListNodes s') = size (ListNodes s)) by (by rewrite <- !size_dom, Hd).
  assert (Hdi : dom (<[i := (u, sc')]> (info a)) = dom (info a)).
  { rewrite dom_insert_L. assert (i ∈ dom (info a)) by (apply elem_of_dom; eauto). set_solver. }
  split; cbn [bags info]; rewrite ?Ec, ?Hsz, ?Eb, ?Hd, ?Hdi; try apply R.
  - intros v l Hl. destruct (rep_lists _ _ _ R _ _ Hl) as (Hne & Hnd & Hk). split; [done|]. split; [done|]. intros l1 j l2 ->.
    destruct (Hk _ _ _ eq_refl) as (scj & Hj & Hnj). rewrite En. destruct (decide (i = j)) as [<-|Hij].
    + rewrite Hn in Hnj. rewrite Hi in Hj. simplify_eq. exists sc'. by rewrite !lookup_insert_eq.
    + exists scj. by rewrite !lookup_insert_ne.
  - intros j v scj [[<- [= <- <-]]|[_ Hj]]%lookup_insert_Some; by eapply (rep_info _ _ _ R).
  - intros j m. rewrite En. intros [[<- <-]|[_ Hj]]%lookup_insert_Some; [done|by apply R].
Qed.
End Steps.

(** A node that is in no list is dropped. *)
Lemma rep_drop i s s' a : rep_but {[i]} s a →
  ListNodes s' = delete i (ListNodes s) → CounterForListNodes s' = CounterForListNodes s - 1 → ListBags s' = ListBags s → rep s' a.
Proof.
  intros R En Ec Eb. assert (Hi : i ∈ dom (ListNodes s)) by (rewrite (rep_dom _ _ _ R); set_solver).
  assert (Hni : i ∉ dom (info a)) by (pose proof (rep_fresh _ _ _ R); set_solver).
  assert (Hsz : S (size (ListNodes s')) = size (ListNodes s)).
  { apply elem_of_dom in Hi. rewrite En, map_size_delete_Some by done. destruct Hi as [n Hn]. assert (size (ListNodes s) ≠ 0%nat); [|lia].
    intros H0%map_size_empty_inv. by rewrite H0 in Hn. }
  pose proof (rep_count _ _ _ R). pose proof (rep_count_max _ _ _ R). split; rewrite ?Eb, ?Ec; [| | | | | |lia|lia].
  - apply R.
  - intros u l Hl. destruct (rep_lists _ _ _ R _ _ Hl) as (Hne & Hnd & Hk). split; [done|]. split; [done|]. eapply linked_other; [|exact Hk].
    intros j Hj. split; [|done]. rewrite En, lookup_delete_ne; [done|]. intros ->. apply Hni.
    destruct (bag_list_info _ _ _ R j u) as [[sc Hj'] _]; [unfold bag_list; by rewrite Hl|]. apply elem_of_dom. eauto.
  - apply R.
  - rewrite En, dom_delete_L, (rep_dom _ _ _ R). set_solver.
  - set_solver.
  - intros j n. rewrite En. intros [_ Hj]%lookup_delete_Some. by apply R.
Qed.

(** ** What the code does to the maps *)

Definition ids_ok (m : gmap AccountId Node) : Prop := ∀ i n, m !! i = Some n → node_id n = i.

Section Runs.
Context {E : Type}.
Local Open Scope rust_scope.

Lemma nodes_insert_known key val s : is_Some (ListNodes s !! key) → nodes_insert (E := E) key val s = (Ok tt, with_nodes (<[key := val]>) s).
Proof. intros Hk. unfold nodes_insert, nodes_contains_key, bind, gets. by rewrite bool_decide_eq_true_2. Qed.

Lemma nodes_insert_new key val s : ListNodes s !! key = None →
  nodes_insert (E := E) key val s = (Ok tt, with_nodes (<[key := val]>) (with_counter (λ v, saturating_add 32 v 1) s)).
Proof. intros Hk. unfold nodes_insert, nodes_contains_key, bind, gets. rewrite Hk. by rewrite bool_decide_eq_false_2 by (by intros []). Qed.

Lemma put_alter (f : Node → Node) o s : (∀ n, node_id (f n) = node_id n) → ids_ok (ListNodes s) →
  (let! p := opt_node o in match p with Some p => node_put (f p) | None => ret tt end) s = (Ok (E := E) tt, with_nodes (alter_opt f o) s).
Proof.
  intros Hf Hids. destruct o as [i|]; [|by destruct s]. unfold opt_node, node_get, bind, gets. destruct (ListNodes s !! i) as [n|] eqn:En.
  - unfold node_put. rewrite Hf, (Hids _ _ En). rewrite nodes_insert_known by eauto. unfold with_nodes. simpl. do 3 f_equal.
    apply map_eq. intros j. destruct (decide (i = j)) as [<-|Hne]; [by rewrite lookup_insert_eq, lookup_alter_eq, En|by rewrite lookup_insert_ne, lookup_alter_ne].
  - unfold with_nodes. simpl. rewrite alter_id; [by destruct s|]. intros n Hn. by rewrite En in Hn.
Qed.

Lemma ids_ok_alter f o m : (∀ n, node_id (f n) = node_id n) → ids_ok m → ids_ok (alter_opt f o m).
Proof.
  intros Hf Hids i n. rewrite lookup_alter_opt. case_decide; [|apply Hids]. destruct (m !! i) as [n0|] eqn:En; simpl; [|done]. intros [= <-]. rewrite Hf. by apply Hids.
Qed.

Lemma excise_run n s : ids_ok (ListNodes s) → excise (E := E) n s = (Ok tt, with_nodes (cut (prev n) (next n)) s).
Proof.
  intros Hids. unfold excise. pose proof (put_alter (set_next (next n)) (prev n) s (λ _, eq_refl) Hids) as H1.
  pose proof (put_alter (set_prev (prev n)) (next n) (with_nodes (alter_opt (set_next (next n)) (prev n)) s) (λ _, eq_refl)) as H2.
  unfold bind in H1, H2 |- *. unfold prev_node, next_node. destruct (opt_node (prev n) s) as [[p|e|] s1]; [|done|done]. rewrite H1. rewrite H2; [done|].
  by apply ids_ok_alter.
Qed.

Lemma bag_put_run b s : bag_put (E := E) b s = (Ok tt, with_bags (put_bag b) s).
Proof. unfold bag_put, put_bag. by destruct (bag_is_empty b). Qed.

Lemma nodes_remove_run key s : is_Some (ListNodes s !! key) →
  nodes_remove (E := E) key s = (Ok tt, with_nodes (delete key) (with_counter (λ v, saturating_sub v 1) s)).
Proof. intros Hk. unfold nodes_remove, nodes_contains_key, bind, gets. by rewrite bool_decide_eq_true_2. Qed.

(** A bag that is read is that of the list. *)
Definition list_bag (u : Z) (l : list AccountId) : Bag := mkBag (head l) (last l) u.

Lemma bag_get_run X s a u : rep_but X s a → bag_get (E := E) u s = (Ok (match bag_list a u with [] => None | l => Some (list_bag u l) end), s).
Proof. intros R. unfold bag_get, gets. rewrite (rep_ends _ _ _ u R). by destruct (bag_list a u). Qed.

Lemma bag_of_cut u l1 i l2 : match l1 ++ i :: l2 with [] => None | l => Some (list_bag u l) end = Some (list_bag u (l1 ++ i :: l2)).
Proof. by destruct l1. Qed.

Lemma get_or_make_run X s a u : rep_but X s a → get_or_make (E := E) u s = (Ok (list_bag u (bag_list a u)), s).
Proof. intros R. unfold get_or_make, bind. rewrite (bag_get_run _ _ _ u R). by destruct (bag_list a u). Qed.
End Runs.

(** *** A node becomes the last one of a bag *)

Lemma link_last i l u sc m : i ∉ l → alter_opt (set_next (Some i)) (last l) (<[i := mkNode i (last l) None u sc]> m) = link (mkNode i (last l) None u sc) m.
Proof.
  intros Hi. unfold link. cbn [node_id prev next alter_opt]. destruct (last l) as [t|] eqn:Et; [|done]. simpl.
  apply last_elem in Et. apply alter_insert_ne. set_solver.
Qed.

Lemma insert_node_ok {E} X s a u i sc node : rep_but X s a → i ∉ dom (info a) → node_id node = i → score node = sc →
  (i ∈ X ∨ Z.of_nat (size (ListNodes s)) < u32_max) →
  ∃ s', bind (insert_node_unchecked (list_bag u (bag_list a u)) node) bag_put s = (Ok (E := E) tt, s') ∧
    rep_but (X ∖ {[i]}) s' (link_spec i u sc (bag_list a u ++ [i]) a) ∧ bags_events s' = bags_events s.
Proof.
  intros R Hi <- <- HX. set (i := node_id node) in *. set (l := bag_list a u).
  assert (Hil : i ∉ l) by (intros (sc' & Hi')%(bag_list_info _ _ _ R); apply Hi, elem_of_dom; eauto).
  set (x := mkNode i (last l) None u (score node)).
  set (s1 := if decide (i ∈ X) then with_nodes (<[i := x]>) s else with_nodes (<[i := x]>) (with_counter (λ v, saturating_add 32 v 1) s)).
  assert (Hput : node_put (E := E) x s = (Ok tt, s1)).
  { unfold node_put, s1. cbn [node_id x]. case_decide as Hx.
    - apply nodes_insert_known, elem_of_dom. rewrite (rep_dom _ _ _ R). set_solver.
    - apply nodes_insert_new, not_elem_of_dom. rewrite (rep_dom _ _ _ R). set_solver. }
  assert (Hn1 : ListNodes s1 = <[i := x]> (ListNodes s)) by (unfold s1; by case_decide).
  assert (Hids : ids_ok (ListNodes s1)).
  { rewrite Hn1. intros j n [[<- <-]|[_ Hj]]%lookup_insert_Some; [done|by apply R]. }
  set (s' := with_bags (put_bag (list_bag u (l ++ [i]))) (with_nodes (alter_opt (set_next (Some i)) (last l)) s1)).
  assert (En : ListNodes s' = link x (ListNodes s)) by (unfold s'; cbn [ListNodes with_bags with_nodes]; rewrite Hn1; by apply link_last).
  assert (Hd : dom (ListNodes s') = {[i]} ∪ dom (ListNodes s)) by (rewrite En; unfold link; rewrite dom_insert_L, !dom_alter_opt; done).
  pose proof (rep_count _ _ _ R) as Hc. pose proof (rep_count_max _ _ _ R) as Hm.
  assert (Hcnt : CounterForListNodes s' = Z.of_nat (size (ListNodes s')) ∧ Z.of_nat (size (ListNodes s')) <= u32_max).
  { change (CounterForListNodes s') with (CounterForListNodes s1). rewrite <- (size_dom (ListNodes s')), Hd. unfold s1. case_decide as Hx.
    - rewrite subseteq_union_1_L, size_dom; [done|]. rewrite (rep_dom _ _ _ R). set_solver.
    - destruct HX as [|HX]; [done|]. rewrite size_union, size_singleton, size_dom by (rewrite (rep_dom _ _ _ R); set_solver). simpl. rewrite Hc.
      unfold saturating_add, u32_max in *. split; lia. }
  exists s'. split; [|split].
  - unfold insert_node_unchecked. cbn [list_bag bag_tail bag_head upper]. rewrite bool_decide_eq_false_2 by (intros ?%last_elem; done). fold i.
    unfold bind at 1 2. fold x. rewrite Hput. pose proof (put_alter (E := E) (set_next (Some i)) (last l) s1 (λ _, eq_refl) Hids) as Hp. unfold bind in Hp |- *.
    destruct (opt_node (last l) s1) as [[p|e|] s2]; [|done|done]. rewrite Hp. cbn [ret]. rewrite bag_put_run. do 4 f_equal. unfold list_bag. f_equal; [by destruct l|by rewrite last_snoc].
  - pose proof (rep_link X s s' a R i u (score node) l [] Hi) as Hlk. rewrite app_nil_r in Hlk. apply Hlk; [done|done| |apply Hcnt|apply Hcnt].
    intros v. unfold s'. cbn [ListBags with_bags with_nodes]. rewrite lookup_put_bag. cbn [list_bag upper]. case_decide as Hv.
    + apply (stored_ends (l ++ [i]) u).
    + unfold s1. by case_decide.
  - unfold s'. cbn [bags_events with_bags with_nodes]. unfold s1. by case_decide.
Qed.

(** *** A node is cut out of its bag *)

Lemma ends_cut l1 (i : AccountId) l2 : l1 ≠ [] → l2 ≠ [] → ends (l1 ++ i :: l2) = ends (l1 ++ l2).
Proof.
  intros H1 H2. destruct l1 as [|x l1]; [done|]. destruct l2 as [|y l2]; [done|]. unfold ends. cbn [app head].
  change (x :: l1 ++ i :: y :: l2) with ((x :: l1) ++ i :: y :: l2). change (x :: l1 ++ y :: l2) with ((x :: l1) ++ y :: l2). by rewrite !last_app_cons, last_cons_cons.
Qed.

Lemma remove_node_run {E} u l1 i l2 n s : NoDup (l1 ++ i :: l2) → ids_ok (ListNodes s) → node_id n = i → prev n = last l1 → next n = head l2 →
  remove_node_unchecked (E := E) (list_bag u (l1 ++ i :: l2)) n s = (Ok (list_bag u (l1 ++ l2)), with_nodes (cut (last l1) (head l2)) s).
Proof.
  intros (Hi1 & Hi2 & _)%NoDup_cut Hids Hn Hp Hx. unfold remove_node_unchecked, bind. rewrite excise_run by done. rewrite Hn, Hp, Hx. unfold ret. do 2 f_equal.
  unfold list_bag. cbn [bag_head bag_tail upper]. f_equal.
  - destruct l1 as [|x l1]; cbn [app head]; [by rewrite bool_decide_eq_true_2|]. rewrite bool_decide_eq_false_2; [done|]. intros [= ->]. set_solver.
  - rewrite last_app_cons. destruct l2 as [|y l2]; [rewrite bool_decide_eq_true_2 by done; by rewrite app_nil_r|].
    rewrite last_cons_cons, last_app_cons. rewrite bool_decide_eq_false_2; [done|]. intros ?%last_elem. done.
Qed.

Lemma terminal_false n l1 l2 : prev n = last l1 → next n = head l2 → is_terminal n = false → l1 ≠ [] ∧ l2 ≠ [].
Proof. unfold is_terminal. intros -> -> [Hp Hn]%orb_false_elim. split; intros ->; [done|]. by destruct l1. Qed.

Lemma detach_ok s a i u sc n l1 l2 : rep s a → info a !! i = Some (u, sc) → bags a !! u = Some (l1 ++ i :: l2) →
  node_id n = i → prev n = last l1 → next n = head l2 → bag_upper n = u →
  ∃ s', (if negb (is_terminal n) then excise n
         else bind (bag_get (bag_upper n)) (λ bag, match bag with Some bag => bind (remove_node_unchecked bag n) (λ bag, bag_put bag) | None => ret tt end)) s = (Ok (E := ListError) tt, s') ∧
    rep_but {[i]} s' (cut_spec i u a) ∧ bags_events s' = bags_events s ∧ ListNodes s' = cut (last l1) (head l2) (ListNodes s).
Proof.
  intros R Hi Hu Hn Hp Hx <-. destruct (rep_lists _ _ _ R _ _ Hu) as (_ & Hnd & _). pose proof (rep_ids _ _ _ R : ids_ok (ListNodes s)) as Hids.
  assert (Hbl : bag_list a (bag_upper n) = l1 ++ i :: l2) by (unfold bag_list; by rewrite Hu).
  destruct (is_terminal n) eqn:Ht; cbn [negb].
  - eexists. split; [|split].
    + unfold bind at 1. rewrite (bag_get_run _ _ _ _ R), Hbl. rewrite bag_of_cut.
      unfold bind. rewrite (remove_node_run _ l1 i l2) by done. by rewrite bag_put_run.
    + rewrite <- (union_empty_r_L {[i]}). eapply rep_cut; [done..|]. intros v. cbn [ListBags with_bags with_nodes]. rewrite lookup_put_bag. cbn [list_bag upper].
      case_decide; [apply (stored_ends (l1 ++ l2) (bag_upper n))|done].
    + done.
  - destruct (terminal_false _ _ _ Hp Hx Ht) as [H1 H2]. eexists. split; [by apply excise_run|]. split; [|by rewrite Hp, Hx].
    rewrite <- (union_empty_r_L {[i]}). rewrite Hp, Hx. eapply rep_cut; [done..|]. intros v. cbn [ListBags with_nodes]. case_decide as Hv; [|done]. subst v.
    by rewrite (rep_ends _ _ _ _ R), Hbl, ends_cut.
Qed.

(** *** Several nodes are removed, and their bags written at the end *)

Definition val_of (b : Bag) : option Bag := if bag_is_empty b then None else Some (stored b).

Lemma put_bags_run {E} bs s : put_bags (E := E) bs s = (Ok tt, with_bags (λ m, foldl (λ m b, put_bag b m) m bs) s).
Proof.
  revert s. induction bs as [|b bs IH]; intros s; [by destruct s|]. cbn [put_bags]. unfold bind. rewrite bag_put_run, IH. done.
Qed.

Lemma lookup_put_bags bs m v : NoDup (upper <$> bs) →
  (∀ b, b ∈ bs → upper b = v → foldl (λ m b, put_bag b m) m bs !! v = val_of b) ∧
  ((∀ b, b ∈ bs → upper b ≠ v) → foldl (λ m b, put_bag b m) m bs !! v = m !! v).
Proof.
  revert m. induction bs as [|b bs IH]; intros m Hnd; [set_solver|]. apply NoDup_cons in Hnd as [Hb Hnd]. destruct (IH (put_bag b m) Hnd) as [IH1 IH2]. cbn [foldl]. split.
  - intros b' [->|Hb']%elem_of_cons Hv; [|by apply IH1]. rewrite IH2.
    + rewrite lookup_put_bag. by rewrite decide_True.
    + intros b'' Hb'' Hv'. apply Hb. rewrite Hv, <- Hv'. by apply list_elem_of_fmap_2.
  - intros Hne. rewrite IH2 by set_solver. rewrite lookup_put_bag. rewrite decide_False; [done|]. intros ->. apply (Hne b); set_solver.
Qed.

Definition flush (cache : gmap Z Bag) (m : gmap Z Bag) : gmap Z Bag := foldl (λ m b, put_bag b m) m (map_to_list cache).*2.

Lemma lookup_flush cache m v : map_Forall (λ u b, upper b = u) cache → flush cache m !! v = match cache !! v with Some b => val_of b | None => m !! v end.
Proof.
  intros Hu. assert (Hup : upper <$> (map_to_list cache).*2 = (map_to_list cache).*1).
  { rewrite <- list_fmap_compose. apply list_fmap_ext. intros i [u b] Hl. simpl. apply Hu. by apply elem_of_map_to_list, list_elem_of_lookup_2 with i. }
  assert (Hnd : NoDup (upper <$> (map_to_list cache).*2)) by (rewrite Hup; apply NoDup_fst_map_to_list).
  destruct (lookup_put_bags (map_to_list cache).*2 m v Hnd) as [H1 H2]. unfold flush. destruct (cache !! v) as [b|] eqn:Ev.
  - apply H1; [|by apply Hu]. apply list_elem_of_fmap. exists (v, b). split; [done|]. by apply elem_of_map_to_list.
  - apply H2. intros b ([u b'] & -> & Hin)%list_elem_of_fmap. apply elem_of_map_to_list in Hin. simpl. rewrite (Hu _ _ Hin). congruence.
Qed.

Definition remove_spec (i : AccountId) (a : Lists) : Lists := match info a !! i with Some (u, _) => cut_spec i u a | None => a end.

Lemma val_of_list u l : val_of (list_bag u l) = ends l.
Proof. apply (stored_ends l u). Qed.

Lemma val_of_inv b l : val_of b = ends l → l ≠ [] → b = list_bag (upper b) l.
Proof.
  unfold val_of. intros Hv Hl. destruct l as [|x l]; [done|]. destruct (bag_is_empty b); [done|]. injection Hv as Hh Ht. destruct b as [bh bt u].
  cbn [bag_head bag_tail upper] in *. unfold list_bag. by rewrite Hh, Ht.
Qed.

(** One node: [cache] holds the bags to be written. *)
Lemma remove_node_ok {E} s a cache i n : rep (with_bags (flush cache) s) a → map_Forall (λ u b, upper b = u) cache → ListNodes s !! i = Some n →
  ∃ s' cache', bind (if negb (is_terminal n) then bind (excise n) (λ _, ret cache)
      else bind (match cache !! bag_upper n with Some bag => ret bag | None => get_or_make (bag_upper n) end) (λ bag,
           bind (remove_node_unchecked bag n) (λ bag, ret (<[bag_upper n := bag]> cache))))
    (λ cache, bind (remove_from_storage_unchecked n) (λ _, ret cache)) s = (Ok (E := E) cache', s') ∧
    rep (with_bags (flush cache') s') (remove_spec i a) ∧ map_Forall (λ u b, upper b = u) cache' ∧ bags_events s' = bags_events s.
Proof.
  intros R Hup Hn. pose proof (rep_node_inv _ _ _ R i n (not_elem_of_empty i) Hn) as Hi. destruct (rep_node _ _ _ R _ _ _ Hi) as (l1 & l2 & Hu & Hnd & Hn').
  change (ListNodes (with_bags (flush cache) s)) with (ListNodes s) in Hn'. rewrite Hn in Hn'. injection Hn' as Hn'.
  assert (node_id n = i ∧ prev n = last l1 ∧ next n = head l2) as (Hid & Hpr & Hnx) by (by rewrite Hn').
  pose proof (rep_ids _ _ _ R : ids_ok (ListNodes s)) as Hids. set (u := bag_upper n) in *.
  assert (Hbl : bag_list a u = l1 ++ i :: l2) by (unfold bag_list; by rewrite Hu).
  set (s1 := with_nodes (cut (last l1) (head l2)) s). set (s2 := with_nodes (delete i) (with_counter (λ v, saturating_sub v 1) s1)).
  assert (Hrm : remove_from_storage_unchecked (E := E) n s1 = (Ok tt, s2)).
  { unfold remove_from_storage_unchecked. rewrite Hid. apply nodes_remove_run. apply elem_of_dom. unfold s1. cbn [ListNodes with_nodes]. unfold cut. rewrite !dom_alter_opt.
    apply elem_of_dom. eauto. }
  assert (Hrep : ∀ cache', map_Forall (λ u b, upper b = u) cache' → (∀ v, flush cache' (ListBags s) !! v = if decide (v = u) then ends (l1 ++ l2) else flush cache (ListBags s) !! v) →
    rep (with_bags (flush cache') s2) (remove_spec i a)).
  { intros cache' Hup' Hf. unfold remove_spec. rewrite Hi. apply (rep_drop i (with_bags (flush cache') s1)).
    - rewrite <- (union_empty_r_L {[i]}). by eapply (rep_cut _ (with_bags (flush cache) s)).
    - done.
    - cbn [CounterForListNodes with_bags with_nodes with_counter s2 s1]. pose proof (rep_count _ _ _ R) as Hc. cbn [CounterForListNodes ListNodes with_bags] in Hc.
      assert (size (ListNodes s) ≠ 0%nat); [intros H0%map_size_empty_inv; by rewrite H0 in Hn|]. unfold saturating_sub. lia.
    - done. }
  destruct (is_terminal n) eqn:Ht; cbn [negb].
  - assert (Hbag : (match cache !! u with Some bag => ret bag | None => get_or_make u end) s = (Ok (E := E) (list_bag u (l1 ++ i :: l2)), s)).
    { pose proof (rep_ends _ _ _ u R) as Hv. cbn [ListBags with_bags] in Hv. rewrite lookup_flush, Hbl in Hv by done. destruct (cache !! u) as [b|] eqn:Eb.
      - apply val_of_inv in Hv; [|by destruct l1]. by rewrite Hv, (Hup _ _ Eb).
      - unfold get_or_make, bind, bag_get, gets. rewrite Hv. by destruct l1. }
    exists s2, (<[u := list_bag u (l1 ++ l2)]> cache). split; [|split; [|split]].
    + unfold bind at 1. unfold bind at 1. rewrite Hbag. unfold bind at 1. rewrite remove_node_run by done. cbn [ret]. unfold bind. fold s1. by rewrite Hrm.
    + apply Hrep; [by apply map_Forall_insert_2|]. intros v. rewrite !lookup_flush by (try apply map_Forall_insert_2; done). case_decide as Hv.
      * subst v. rewrite lookup_insert_eq. apply val_of_list.
      * by rewrite lookup_insert_ne.
    + by apply map_Forall_insert_2.
    + done.
  - exists s2, cache. split; [|split; [|split]]; [|apply Hrep; [done|]|done|done].
    + unfold bind. rewrite excise_run by done. rewrite Hpr, Hnx. fold s1. unfold ret. by rewrite Hrm.
    + intros v. case_decide as Hv; [|done]. subst v. pose proof (rep_ends _ _ _ u R) as Hv. cbn [ListBags with_bags] in Hv. rewrite Hv, Hbl.
      destruct (terminal_false n l1 l2) as [H1 H2]; [done..|]. by apply ends_cut.
Qed.
