(* ===== verification/BagsListSpec.v ===== *)
(** The operations of [pallet_bags_list] against their specification on plain lists, one by one and in
    any sequence: [bags_refine_lists]. *)

From S2P Require Import Prelude Runtime BagsList BagsListProps.
Import Bags.

Section Ops.
Context {C : BagsConfig}.
Local Open Scope rust_scope.

(** ** Specification *)

Definition insert_spec (i : AccountId) (sc : Z) (a : Lists) : Lists :=
  let u := notional_bag_for sc in link_spec i u sc (bag_list a u ++ [i]) a.

Definition update_spec (i : AccountId) (sc : Z) (a : Lists) : Lists :=
  match info a !! i with
  | Some (u, _) => if decide (notional_bag_for sc = u) then mkLists (bags a) (<[i := (u, sc)]> (info a)) else insert_spec i sc (cut_spec i u a)
  | None => a
  end.

Fixpoint insert_before (x y : AccountId) (l : list AccountId) : list AccountId :=
  match l with [] => [] | z :: l => if decide (z = x) then y :: z :: l else z :: insert_before x y l end.

Definition front_spec (lighter heavier : AccountId) (a : Lists) : Lists :=
  match info a !! heavier with
  | Some (u, sc) => let a := cut_spec heavier u a in link_spec heavier u sc (insert_before lighter heavier (bag_list a u)) a
  | None => a
  end.

Definition no_lists : Lists := mkLists ∅ ∅.

(** Insertions skip the accounts that are there; with the number of the others. *)
Fixpoint insert_many_spec (ids : list AccountId) (score_of : AccountId → Z) (a : Lists) : Lists * nat :=
  match ids with
  | [] => (a, 0%nat)
  | i :: ids =>
      match info a !! i with
      | Some _ => insert_many_spec ids score_of a
      | None => let '(a, n) := insert_many_spec ids score_of (insert_spec i (score_of i) a) in (a, S n)
      end
  end.

Fixpoint remove_many_spec (ids : list AccountId) (a : Lists) : Lists * nat :=
  match ids with
  | [] => (a, 0%nat)
  | i :: ids =>
      match info a !! i with
      | None => remove_many_spec ids a
      | Some _ => let '(a, n) := remove_many_spec ids (remove_spec i a) in (a, S n)
      end
  end.

(** ** One operation *)

Lemma size_info s a : rep s a → size (ListNodes s) = size (info a).
Proof. intros R. rewrite <- !size_dom, (rep_dom _ _ _ R). f_equal. set_solver. Qed.

Lemma contains_run s a i : rep s a → contains i s = bool_decide (is_Some (info a !! i)).
Proof. intros R. unfold contains, nodes_contains_key. apply bool_decide_ext, (rep_info_dom _ _ _ R). set_solver. Qed.

Lemma insert_ok s a i sc : rep s a → info a !! i = None → Z.of_nat (size (info a)) < u32_max →
  ∃ s', insert i sc s = (Ok tt, s') ∧ rep s' (insert_spec i sc a) ∧ bags_events s' = bags_events s.
Proof.
  intros R Hi Hsz. destruct (insert_node_ok (E := ListError) ∅ s a (notional_bag_for sc) i sc (mkNode i None None 0 sc)) as (s' & Hr & R' & He); try done.
  - by apply not_elem_of_dom.
  - right. by rewrite (size_info _ _ R).
  - exists s'. split; [|split; [|done]].
    + unfold insert, bind at 1, gets. rewrite (contains_run _ _ _ R), Hi. rewrite bool_decide_eq_false_2 by (by intros []). cbn [negb].
      unfold ensure, bind at 1, ret. unfold bind at 1. rewrite (get_or_make_run _ _ _ _ R). exact Hr.
    + by replace (∅ ∖ {[i]} : gset AccountId) with (∅ : gset AccountId) in R' by set_solver.
Qed.

Lemma insert_duplicate s a i sc v : rep s a → info a !! i = Some v → insert i sc s = (Err Duplicate, s).
Proof. intros R Hi. unfold insert, bind at 1, gets. rewrite (contains_run _ _ _ R), Hi. rewrite bool_decide_eq_true_2 by eauto. done. Qed.

Lemma insert_spec_size i sc a : info a !! i = None → size (info (insert_spec i sc a)) = S (size (info a)).
Proof. intros Hi. simpl. by apply map_size_insert_None. Qed.

Lemma insert_many_ok ids score_of s a count : rep s a → Z.of_nat (size (info a) + length ids) <= u32_max → is_u 32 count →
  ∃ s', insert_many ids score_of count s = (Ok ((count + Z.of_nat (insert_many_spec ids score_of a).2) mod 2 ^ 32), s') ∧
    rep s' (insert_many_spec ids score_of a).1 ∧ bags_events s' = bags_events s.
Proof.
  revert s a count. induction ids as [|i ids IH]; intros s a count R Hsz Hc; cbn [insert_many insert_many_spec length] in *.
  - exists s. split; [|done]. unfold ret. do 2 f_equal. rewrite Z.add_0_r. symmetry. apply Z.mod_small. unfold is_u, umax in Hc. lia.
  - unfold bind, attempt. destruct (info a !! i) as [v|] eqn:Hi.
    + rewrite (insert_duplicate _ _ _ _ _ R Hi). apply IH; [done|lia|done].
    + destruct (insert_ok s a i (score_of i) R Hi) as (s1 & -> & R1 & He1); [lia|].
      destruct (IH s1 (insert_spec i (score_of i) a) (wrapping_add 32 count 1) R1) as (s2 & -> & R2 & He2).
      { rewrite (insert_spec_size _ _ _ Hi). lia. }
      { unfold wrapping_add, is_u, umax. pose proof (Z.mod_pos_bound (count + 1) (2 ^ 32)). lia. }
      destruct (insert_many_spec ids score_of (insert_spec i (score_of i) a)) as [a2 n]. cbn [fst snd] in *. exists s2. split; [|split; [done|congruence]].
      do 2 f_equal. unfold wrapping_add. rewrite Zplus_mod_idemp_l. f_equal. lia.
Qed.

Lemma remove_nodes_ok {E} ids cache count s a : rep (with_bags (flush cache) s) a → map_Forall (λ u b, upper b = u) cache → is_u 32 count →
  ∃ s' cache', remove_nodes (E := E) ids cache count s = (Ok (cache', (count + Z.of_nat (remove_many_spec ids a).2) mod 2 ^ 32), s') ∧
    rep (with_bags (flush cache') s') (remove_many_spec ids a).1 ∧ bags_events s' = bags_events s.
Proof.
  revert cache count s a. induction ids as [|i ids IH]; intros cache count s a R Hup Hc; cbn [remove_nodes remove_many_spec].
  - exists s, cache. split; [|done]. unfold ret. do 3 f_equal. rewrite Z.add_0_r. symmetry. apply Z.mod_small. unfold is_u, umax in Hc. lia.
  - unfold bind at 1, node_get, gets. destruct (ListNodes s !! i) as [n|] eqn:Hn.
    + pose proof (rep_node_inv _ _ _ R i n (not_elem_of_empty i) Hn) as Hi. rewrite Hi.
      destruct (remove_node_ok (E := E) s a cache i n R Hup Hn) as (s1 & cache1 & Hrun & R1 & Hup1 & He1).
      destruct (IH cache1 (wrapping_add 32 count 1) s1 (remove_spec i a) R1 Hup1) as (s2 & cache2 & Hrun2 & R2 & He2).
      { unfold wrapping_add, is_u, umax. pose proof (Z.mod_pos_bound (count + 1) (2 ^ 32)). lia. }
      destruct (remove_many_spec ids (remove_spec i a)) as [a2 k]. cbn [fst snd] in *. exists s2, cache2. split; [|split; [done|congruence]].
      replace ((count + Z.of_nat (S k)) mod 2 ^ 32) with ((wrapping_add 32 count 1 + Z.of_nat k) mod 2 ^ 32); [|unfold wrapping_add; rewrite Zplus_mod_idemp_l; f_equal; lia].
      rewrite <- Hrun2. unfold bind in Hrun |- *.
      match goal with |- match ?m with _ => _ end = _ => destruct m as [[cache'|e|] s'] end; [|done|done].
      destruct (remove_from_storage_unchecked n s') as [[[]|e|] s'']; [|done|done]. by injection Hrun as -> ->.
    + destruct (info a !! i) as [v|] eqn:Hi; [|by apply IH].
      assert (is_Some (ListNodes s !! i)) as [n Hn']; [|congruence]. apply (rep_info_dom _ _ _ R); [set_solver|eauto].
Qed.

Lemma remove_many_ok {E} ids s a : rep s a →
  ∃ s', remove_many (E := E) ids s = (Ok (Z.of_nat (remove_many_spec ids a).2 mod 2 ^ 32), s') ∧ rep s' (remove_many_spec ids a).1 ∧ bags_events s' = bags_events s.
Proof.
  intros R. destruct (remove_nodes_ok (E := E) ids ∅ 0 s a) as (s1 & cache & Hrun & R1 & He).
  - by destruct s.
  - apply map_Forall_empty.
  - done.
  - eexists. split; [|split; [exact R1|done]]. unfold remove_many, bind. rewrite Hrun. cbn [fst snd]. rewrite put_bags_run. done.
Qed.

Lemma remove_ok s a i v : rep s a → info a !! i = Some v → ∃ s', remove i s = (Ok tt, s') ∧ rep s' (remove_spec i a) ∧ bags_events s' = bags_events s.
Proof.
  intros R Hi. destruct (remove_many_ok (E := ListError) [i] s a R) as (s' & Hr & R' & He). cbn [remove_many_spec] in *. rewrite Hi in Hr, R'.
  exists s'. split; [|by split]. unfold remove, bind at 1, gets. rewrite (contains_run _ _ _ R), Hi. rewrite bool_decide_eq_true_2 by eauto.
  unfold ensure, bind at 1, ret. unfold bind. by rewrite Hr.
Qed.

Lemma remove_missing s a i : rep s a → info a !! i = None → remove i s = (Err NodeNotFound, s).
Proof. intros R Hi. unfold remove, bind at 1, gets. rewrite (contains_run _ _ _ R), Hi. rewrite bool_decide_eq_false_2 by (by intros []). done. Qed.

Lemma update_ok s a i u sc n new : rep s a → info a !! i = Some (u, sc) → ListNodes s !! i = Some n →
  ∃ s', update_position_for n new s = (Ok (if decide (notional_bag_for new = u) then None else Some (u, notional_bag_for new)), s') ∧
    rep s' (update_spec i new a) ∧ bags_events s' = bags_events s.
Proof.
  intros R Hi Hn. destruct (rep_node _ _ _ R _ _ _ Hi) as (l1 & l2 & Hu & Hnd & Hn'). rewrite Hn in Hn'. injection Hn' as ->.
  unfold update_position_for, update_spec. rewrite Hi. cbn [node_id prev next bag_upper]. unfold is_misplaced. cbn [bag_upper].
  destruct (decide (notional_bag_for new = u)) as [Heq|Hne].
  - rewrite (proj2 (Z.eqb_eq _ _) Heq). cbn [negb]. eexists. split; [|split].
    + unfold bind, node_put. cbn [node_id]. rewrite nodes_insert_known by eauto. done.
    + by eapply rep_score.
    + done.
  - rewrite (proj2 (Z.eqb_neq _ _) Hne). cbn [negb]. set (n := mkNode i (last l1) (head l2) u new).
    destruct (detach_ok s a i u sc n l1 l2) as (s1 & Hrun & R1 & He1 & _); try done.
    destruct (insert_node_ok (E := ListError) {[i]} s1 (cut_spec i u a) (notional_bag_for new) i new n) as (s2 & Hrun2 & R2 & He2); try done.
    { cbn [cut_spec info]. set_solver. }
    { left. set_solver. }
    exists s2. split; [|split; [by rewrite difference_diag_L in R2|congruence]].
    unfold bind at 1. change (bag_upper n) with u in Hrun. rewrite Hrun. unfold bind at 1. rewrite (get_or_make_run _ _ _ _ R1).
    unfold bind in Hrun2 |- *. destruct (insert_node_unchecked _ n s1) as [[b|e|] s1']; [|done|done]. by rewrite Hrun2.
Qed.

Lemma update_size i sc a : size (info (update_spec i sc a)) = size (info a).
Proof.
  unfold update_spec. destruct (info a !! i) as [[u sc0]|] eqn:Hi; [|done]. case_decide; cbn [info].
  - by apply map_size_insert_Some.
  - unfold insert_spec, link_spec, cut_spec. cbn [info]. rewrite insert_delete_eq. by apply map_size_insert_Some.
Qed.

(** *** In front of another account *)

Lemma insert_before_cut x y l1 l2 : x ∉ l1 → insert_before x y (l1 ++ x :: l2) = l1 ++ y :: x :: l2.
Proof.
  induction l1 as [|z l1 IH]; simpl; intros Hx; [by rewrite decide_True|]. apply not_elem_of_cons in Hx as [Hne Hx]. by rewrite decide_False, IH.
Qed.

Lemma insert_insert_alter (f : Node → Node) j n (m : gmap AccountId Node) : m !! j = Some n → <[j := f n]> m = alter f j m.
Proof.
  intros Hj. apply map_eq. intros k. destruct (decide (j = k)) as [<-|Hne]; [by rewrite lookup_insert_eq, lookup_alter_eq, Hj|by rewrite lookup_insert_ne, lookup_alter_ne].
Qed.

Lemma insert_at_ok s a at_ u sca nat_ i node : rep s a → info a !! at_ = Some (u, sca) → ListNodes s !! at_ = Some nat_ →
  info a !! i = None → Z.of_nat (size (info a)) < u32_max → node_id node = i → bag_upper node = u →
  ∃ s', insert_at_unchecked nat_ node s = (Ok tt, s') ∧ rep s' (link_spec i u (score node) (insert_before at_ i (bag_list a u)) a) ∧ bags_events s' = bags_events s.
Proof.
  intros R Hat Hn Hi Hsz Hid Hbu. destruct (rep_node _ _ _ R _ _ _ Hat) as (l1 & l2 & Hu & Hnd & Hn'). rewrite Hn in Hn'. injection Hn' as ->.
  destruct (NoDup_cut _ _ _ Hnd) as (Ha1 & Ha2 & _). assert (Hbl : bag_list a u = l1 ++ at_ :: l2) by (unfold bag_list; by rewrite Hu).
  assert (Hix : i ≠ at_) by congruence. assert (Hii : ListNodes s !! i = None).
  { apply eq_None_not_Some. intros Hs. apply (rep_info_dom _ _ _ R i) in Hs; [|set_solver]. rewrite Hi in Hs. by destruct Hs. }
  set (x := mkNode i (last l1) (Some at_) u (score node)). set (at' := mkNode at_ (Some i) (head l2) u sca).
  set (s1 := with_nodes (alter_opt (set_next (Some i)) (last l1)) s).
  assert (Hn1 : ListNodes s1 !! at_ = Some (mkNode at_ (last l1) (head l2) u sca)).
  { unfold s1. cbn [ListNodes with_nodes]. rewrite lookup_alter_opt, decide_False, Hn; [done|]. intros ?%last_elem. done. }
  assert (Hi1 : ListNodes s1 !! i = None) by (apply not_elem_of_dom; unfold s1; cbn [ListNodes with_nodes]; rewrite dom_alter_opt; by apply not_elem_of_dom).
  set (s2 := if is_terminal x then with_bags (put_bag (list_bag u (i :: at_ :: l2))) s1 else s1).
  set (s' := with_nodes (<[i := x]>) (with_counter (λ v, saturating_add 32 v 1) (with_nodes (<[at_ := at']>) s2))).
  assert (Hn2 : ListNodes s2 = ListNodes s1 ∧ CounterForListNodes s2 = CounterForListNodes s ∧ bags_events s2 = bags_events s) by (unfold s2; by destruct (is_terminal x)).
  destruct Hn2 as (Hn2 & Hc2 & He2).
  assert (Ht : is_terminal x = is_none (last l1)) by (unfold is_terminal; cbn [prev next x is_none]; by rewrite orb_false_r).
  assert (En : ListNodes s' = link x (ListNodes s)).
  { unfold s'. cbn [ListNodes with_nodes with_counter]. rewrite Hn2. unfold link. cbn [node_id prev next x alter_opt]. f_equal.
    change at' with (set_prev (Some i) (mkNode at_ (last l1) (head l2) u sca)). by apply insert_insert_alter. }
  assert (Hs : size (ListNodes s') = S (size (ListNodes s))).
  { rewrite En. unfold link. rewrite map_size_insert_None; [|apply not_elem_of_dom; rewrite !dom_alter_opt; by apply not_elem_of_dom].
    by rewrite <- !(size_dom (alter_opt _ _ _)), !dom_alter_opt, size_dom. }
  pose proof (rep_count _ _ _ R) as Hc. rewrite (size_info _ _ R) in Hs. rewrite (size_info _ _ R) in Hc.
  exists s'. split; [|split; [|by rewrite <- He2]].
  - unfold insert_at_unchecked. pose proof (put_alter (E := ListError) (set_next (Some i)) (last l1) s (λ _, eq_refl) (rep_ids _ _ _ R)) as Hp.
    unfold bind at 1. unfold prev_node. cbn [prev]. unfold bind in Hp. destruct (opt_node (last l1) s) as [[p|e|] s0]; [|done|done].
    unfold bind at 1. rewrite Hid, Hp. fold s1. cbn [node_id]. rewrite Hbu. cbn [prev set_prev]. fold x. cbn [bag_upper set_prev].
    assert (Hbag : (if is_terminal x then bind (bag_get u) (λ bag, bind (unwrap bag) (λ bag, bag_put (if is_none (last l1) then mkBag (Some i) (bag_tail bag) (upper bag) else bag))) else ret tt) s1
      = (Ok (E := ListError) tt, s2)).
    { unfold s2. rewrite Ht. destruct l1 as [|y l1]; [|by destruct (last (y :: l1)) as [z|] eqn:El; [|apply last_None in El]]. cbn [last is_none].
      unfold bind, bag_get, gets. change (ListBags s1) with (ListBags s). rewrite (rep_ends _ _ _ u R), Hbl. cbn [app ends fmap option_fmap option_map unwrap ret]. rewrite bag_put_run. done. }
    unfold bind at 1. rewrite Hbag. unfold bind, node_put. cbn [node_id set_prev]. fold at'.
    rewrite nodes_insert_known by (rewrite Hn2; eauto). rewrite nodes_insert_new; [done|]. cbn [ListNodes with_nodes]. rewrite lookup_insert_ne by done. by rewrite Hn2.
  - rewrite Hbl, insert_before_cut by done. replace (∅ : gset AccountId) with (∅ ∖ {[i]} : gset AccountId) by set_solver.
    apply (rep_link _ s); [done|by apply not_elem_of_dom|done|done| | |rewrite Hs; lia].
    + intros v. cbn [ListBags s' with_nodes with_counter]. unfold s2. rewrite Ht. destruct l1 as [|y l1].
      * cbn [last is_none ListBags with_bags s1 with_nodes]. rewrite lookup_put_bag. cbn [list_bag upper]. case_decide; [apply (stored_ends (i :: at_ :: l2) u)|done].
      * destruct (last (y :: l1)) as [z|] eqn:El; [|by apply last_None in El]. cbn [is_none]. case_decide as Hv; [|done]. subst v. cbn [ListBags s1 with_nodes].
        rewrite (rep_ends _ _ _ u R), Hbl. symmetry. by apply ends_cut.
    + rewrite Hs. cbn [CounterForListNodes s' with_nodes with_counter]. rewrite Hc2, Hc. unfold saturating_add, u32_max in *. lia.
Qed.

Lemma front_ok score_of s a lighter heavier u scl sch : rep s a → info a !! lighter = Some (u, scl) → info a !! heavier = Some (u, sch) → score_of lighter < score_of heavier →
  ∃ s', put_in_front_of score_of lighter heavier s = (Ok tt, s') ∧ rep s' (front_spec lighter heavier a) ∧ bags_events s' = bags_events s.
Proof.
  intros R Hl Hh Hsc. assert (Hne : lighter ≠ heavier) by (intros ->; lia).
  destruct (rep_node _ _ _ R _ _ _ Hl) as (? & ? & _ & _ & Hnl). destruct (rep_node _ _ _ R _ _ _ Hh) as (h1 & h2 & _ & _ & Hnh).
  destruct (remove_ok s a heavier _ R Hh) as (s1 & Hrm & R1 & He1). unfold remove_spec in R1. rewrite Hh in R1.
  assert (Hl1 : info (cut_spec heavier u a) !! lighter = Some (u, scl)) by (cbn [cut_spec info]; by rewrite lookup_delete_ne).
  assert (Hh1 : info (cut_spec heavier u a) !! heavier = None) by (cbn [cut_spec info]; apply lookup_delete_eq).
  destruct (rep_node _ _ _ R1 _ _ _ Hl1) as (? & ? & _ & _ & Hnl1).
  assert (Hsz : Z.of_nat (size (info (cut_spec heavier u a))) < u32_max).
  { pose proof (rep_count_max _ _ _ R) as Hm. rewrite (size_info _ _ R) in Hm. cbn [cut_spec info]. rewrite map_size_delete_Some by eauto.
    assert (size (info a) ≠ 0%nat); [|lia]. intros H0%map_size_empty_inv. by rewrite H0 in Hh. }
  destruct (insert_at_ok s1 _ lighter u scl _ heavier (mkNode heavier (last h1) (head h2) u sch) R1 Hl1 Hnl1 Hh1 Hsz eq_refl eq_refl) as (s2 & Hrun & R2 & He2).
  exists s2. unfold front_spec. rewrite Hh. split; [|split; [exact R2|congruence]].
  unfold put_in_front_of, bind at 1, node_get, gets. rewrite Hnl. unfold bind at 1, ok_or, ret. unfold bind at 1. rewrite Hnh. unfold bind at 1. cbn [bag_upper].
  rewrite Z.eqb_refl. unfold bind at 1, ensure. cbn [ret]. unfold bind at 1. rewrite (proj2 (Z.ltb_lt _ _) Hsc). cbn [ret].
  unfold bind at 1, attempt. rewrite Hrm. unfold bind at 1. rewrite Hnl1. unfold bind at 1. exact Hrun.
Qed.

(** The guards of [put_in_front_of], in their order. *)
Definition front_error (score_of : AccountId → Z) (lighter heavier : AccountId) (a : Lists) : option ListError :=
  match info a !! lighter, info a !! heavier with
  | Some (u, _), Some (v, _) => if negb (u =? v) then Some NotInSameBag else if score_of lighter <? score_of heavier then None else Some NotHeavier
  | _, _ => Some NodeNotFound
  end.

Lemma node_of s a i : rep s a → ListNodes s !! i = None ∧ info a !! i = None ∨ ∃ n, ListNodes s !! i = Some n ∧ info a !! i = Some (bag_upper n, score n).
Proof.
  intros R. destruct (ListNodes s !! i) as [n|] eqn:Hn; [right; exists n; split; [done|]; by apply (rep_node_inv _ _ _ R); [set_solver|]|left].
  split; [done|]. apply eq_None_not_Some. intros Hs. apply (rep_info_dom _ _ _ R) in Hs; [|set_solver]. rewrite Hn in Hs. by destruct Hs.
Qed.

Lemma front_refused score_of s a lighter heavier e : rep s a → front_error score_of lighter heavier a = Some e → put_in_front_of score_of lighter heavier s = (Err e, s).
Proof.
  intros R. unfold front_error, put_in_front_of, bind, node_get, gets, ok_or, ensure, ret.
  destruct (node_of s a lighter R) as [[-> ->]|(nl & -> & ->)]; [by intros [= <-]|]. cbv beta iota.
  destruct (node_of s a heavier R) as [[-> ->]|(nh & -> & ->)]; [by intros [= <-]|]. cbv beta iota.
  destruct (bag_upper nl =? bag_upper nh); cbn [negb]; [|by intros [= <-]]. cbv beta iota. destruct (score_of lighter <? score_of heavier); [done|]. by intros [= <-].
Qed.

Lemma rebag_ok s a i new : rep s a →
  match info a !! i with
  | Some (u, _) =>
      let moved := if decide (notional_bag_for new = u) then None else Some (u, notional_bag_for new) in
      ∃ s', do_rebag i new s = (Ok moved, s') ∧ rep s' (update_spec i new a) ∧
        bags_events s' = bags_events s ++ (match moved with Some (from, to) => [Rebagged i from to] | None => [] end) ++ [ScoreUpdated i new]
  | None => do_rebag i new s = (Err NodeNotFound, s)
  end.
Proof.
  intros R. destruct (node_of s a i R) as [[Hn Hi]|(n & Hn & Hi)]; rewrite Hi; unfold do_rebag, bind at 1, node_get, gets; rewrite Hn; [done|].
  unfold bind at 1, ok_or, ret. destruct (update_ok s a i _ _ n new R Hi Hn) as (s' & Hr & R' & He). unfold bind at 1. rewrite Hr. cbv zeta.
  assert (Hev : ∀ e s a, rep s a → rep (with_event e s) a) by (intros e s0 a0 [????????]; by split).
  case_decide as Hd; eexists; (split; [done|]); (split; [by repeat apply Hev|]); cbn [bags_events with_event]; rewrite He; [done|by rewrite <- app_assoc].
Qed.

Lemma clear_ok {E} s : ∃ s', unsafe_clear (E := E) s = (Ok tt, s') ∧ rep s' no_lists ∧ bags_events s' = bags_events s.
Proof. eexists. split; [done|]. split; [|done]. by split; simpl; try (intros; set_solver). Qed.

(** ** Sequences of operations *)

(** What other pallets and users can do: the trait [SortedListProvider], and the two dispatchables. *)
Inductive BagsOp :=
| OnInsert (id : AccountId) (score : Z)
| OnUpdate (id : AccountId) (new_score : Z)
| OnRemove (id : AccountId)
| Regenerate (all : list AccountId) (score_of : AccountId → Z)
| Clear
| Rebag (score_of : AccountId → Z) (origin : RawOrigin) (dislocated : Source)
| PutInFrontOf (score_of : AccountId → Z) (origin : RawOrigin) (lighter : Source).

Definition perform (o : BagsOp) : M ListStore DispatchError Z :=
  match o with
  | OnInsert id score => do! list_err (on_insert id score) in ret 0
  | OnUpdate id new_score => do! list_err (on_update id new_score) in ret 0
  | OnRemove id => do! list_err (on_remove id) in ret 0
  | Regenerate all score_of => list_err (unsafe_regenerate all score_of)
  | Clear => do! unsafe_clear in ret 0
  | Rebag score_of origin dislocated => do! rebag score_of origin dislocated in ret 0
  | PutInFrontOf score_of origin lighter => do! put_in_front_of_call score_of origin lighter in ret 0
  end.

Definition list_error (e : ListError) : outcome DispatchError Z := Err (Module_ (BagsListE e)).

Definition spec_of_update (i : AccountId) (sc : Z) (a : Lists) : outcome DispatchError Z * Lists :=
  match info a !! i with Some _ => (Ok 0, update_spec i sc a) | None => (list_error NodeNotFound, a) end.

Definition spec (o : BagsOp) (a : Lists) : outcome DispatchError Z * Lists :=
  match o with
  | OnInsert i sc => match info a !! i with Some _ => (list_error Duplicate, a) | None => (Ok 0, insert_spec i sc a) end
  | OnUpdate i sc => spec_of_update i sc a
  | OnRemove i => match info a !! i with Some _ => (Ok 0, remove_spec i a) | None => (list_error NodeNotFound, a) end
  | Regenerate all score_of => let '(a, n) := insert_many_spec all score_of no_lists in (Ok (Z.of_nat n mod 2 ^ 32), a)
  | Clear => (Ok 0, no_lists)
  | Rebag score_of origin src =>
      match origin, lookup_source src with
      | Signed _, Some i => spec_of_update i (score_of i) a
      | Signed _, None => (Err CannotLookup, a)
      | _, _ => (Err BadOrigin, a)
      end
  | PutInFrontOf score_of origin src =>
      match origin, lookup_source src with
      | Signed heavier, Some lighter => match front_error score_of lighter heavier a with Some e => (list_error e, a) | None => (Ok 0, front_spec lighter heavier a) end
      | Signed _, None => (Err CannotLookup, a)
      | _, _ => (Err BadOrigin, a)
      end
  end.

(** The counter of the nodes is a [u32]: the list never holds more accounts than that. *)
Definition op_fits (o : BagsOp) (a : Lists) : Prop :=
  match o with
  | OnInsert _ _ => Z.of_nat (size (info a)) < u32_max
  | Regenerate all _ => Z.of_nat (length all) <= u32_max
  | _ => True
  end.

Lemma update_refines s a i sc : rep s a → ∃ s', list_err (do_rebag i sc) s = (match info a !! i with Some (u, _) => Ok (if decide (notional_bag_for sc = u) then None else Some (u, notional_bag_for sc)) | None => Err (Module_ (BagsListE NodeNotFound)) end, s') ∧
  rep s' (spec_of_update i sc a).2.
Proof.
  intros R. pose proof (rebag_ok s a i sc R) as H. unfold list_err, spec_of_update. destruct (info a !! i) as [[u sc0]|].
  - destruct H as (s' & -> & R' & _). by exists s'.
  - rewrite H. by exists s.
Qed.

Lemma perform_refines o s a : rep s a → op_fits o a → ∃ s', perform o s = ((spec o a).1, s') ∧ rep s' (spec o a).2.
Proof.
  intros R Hf. destruct o as [i sc|i sc|i|all f| |f origin src|f origin src]; cbn [perform spec op_fits] in *.
  - unfold list_err, bind, on_insert. destruct (info a !! i) as [v|] eqn:Hi.
    + rewrite (insert_duplicate _ _ _ _ _ R Hi). by exists s.
    + destruct (insert_ok s a i sc R Hi Hf) as (s' & -> & R' & _). by exists s'.
  - destruct (update_refines s a i sc R) as (s' & Hr & R'). exists s'. split; [|done]. unfold bind, on_update, list_err in *. unfold spec_of_update in *. unfold bind.
    destruct (do_rebag i sc s) as [[r|e|] s1]; destruct (info a !! i) as [[u sc0]|]; by injection Hr; intros; subst.
  - unfold list_err, bind, on_remove. destruct (info a !! i) as [v|] eqn:Hi.
    + destruct (remove_ok s a i v R Hi) as (s' & -> & R' & _). by exists s'.
    + rewrite (remove_missing _ _ _ R Hi). by exists s.
  - destruct (clear_ok (E := ListError) s) as (s1 & Hc & R1 & _). destruct (insert_many_ok all f s1 no_lists 0 R1) as (s2 & Hm & R2 & _); [cbn [no_lists info]; rewrite map_size_empty; lia|done|].
    unfold list_err, unsafe_regenerate, bind. rewrite Hc, Hm. destruct (insert_many_spec all f no_lists) as [a2 n]. by exists s2.
  - destruct (clear_ok (E := DispatchError) s) as (s1 & Hc & R1 & _). exists s1. unfold bind. by rewrite Hc.
  - unfold rebag, bind, signed_by. destruct origin as [|who|]; [by exists s| |by exists s]. cbn [ret]. destruct (lookup_source src) as [i|]; [|by exists s]. cbn [ok_or ret].
    destruct (update_refines s a i (f i) R) as (s' & -> & R'). exists s'. split; [|done]. unfold spec_of_update. by destruct (info a !! i) as [[u sc0]|].
  - unfold put_in_front_of_call, bind, signed_by. destruct origin as [|heavier|]; [by exists s| |by exists s]. cbn [ret]. destruct (lookup_source src) as [lighter|]; [|by exists s]. cbn [ok_or ret].
    unfold list_err. destruct (front_error f lighter heavier a) as [e|] eqn:He.
    + rewrite (front_refused _ _ _ _ _ _ R He). by exists s.
    + unfold front_error in He. destruct (info a !! lighter) as [[u scl]|] eqn:Hl; [|done]. destruct (info a !! heavier) as [[v sch]|] eqn:Hh; [|done].
      destruct (Z.eqb_spec u v) as [<-|]; cbn [negb] in He; [|done]. destruct (Z.ltb_spec (f lighter) (f heavier)); [|done].
      destruct (front_ok f s a lighter heavier u scl sch R Hl Hh) as (s' & -> & R' & _); [done|]. by exists s'.
Qed.

Fixpoint run_code (os : list BagsOp) (s : ListStore) : list (outcome DispatchError Z) * ListStore :=
  match os with [] => ([], s) | o :: os => let '(r, s) := perform o s in let '(rs, s) := run_code os s in (r :: rs, s) end.

Fixpoint run_spec (os : list BagsOp) (a : Lists) : list (outcome DispatchError Z) * Lists :=
  match os with [] => ([], a) | o :: os => let '(r, a) := spec o a in let '(rs, a) := run_spec os a in (r :: rs, a) end.

Fixpoint fits (os : list BagsOp) (a : Lists) : Prop :=
  match os with [] => True | o :: os => op_fits o a ∧ fits os (spec o a).2 end.

Definition empty_list : ListStore := mkList ∅ 0 ∅ [].

Lemma empty_rep : rep empty_list no_lists.
Proof. by split; simpl; try (intros; set_solver). Qed.

Lemma run_refines os s a : rep s a → fits os a → ∃ s', run_code os s = ((run_spec os a).1, s') ∧ rep s' (run_spec os a).2.
Proof.
  revert s a. induction os as [|o os IH]; intros s a R Hf; cbn [run_code run_spec fits] in *; [by exists s|]. destruct Hf as [Hf Hfs].
  destruct (perform_refines o s a R Hf) as (s1 & -> & R1). destruct (spec o a) as [r a1]. cbn [fst snd] in *. destruct (IH s1 a1 R1 Hfs) as (s2 & -> & R2).
  destruct (run_spec os a1) as [rs a2]. by exists s2.
Qed.

(** C18. The two storage maps of the bags list implement plain lists: after any sequence of insertions, updates of scores, removals,
    regenerations and calls of the dispatchables, every operation has returned what it returns on plain lists, none has
    panicked, and the linked nodes, the heads and tails of the bags and the counter represent the lists. *)
Theorem bags_refine_lists (os : list BagsOp) : fits os no_lists →
  ∃ s, run_code os empty_list = ((run_spec os no_lists).1, s) ∧ rep s (run_spec os no_lists).2.
Proof. apply run_refines, empty_rep. Qed.

End Ops.
