(* ===== verification/BagsListIter.v ===== *)
(** Iterating over the bags: the order of the accounts, resuming after one of them, and the checks of
    [try_state], in every state that the operations can reach. *)

From S2P Require Import Prelude Runtime BagsList BagsListProps BagsListSpec.
Import Bags.

(** What [integrity_test] checks, and that thresholds are scores. *)
Class BagsLaws (C : BagsConfig) : Prop := {
  thresholds_increase : StronglySorted Z.lt BagThresholds;
  thresholds_bounded : Forall (λ t, t <= max_value) BagThresholds }.

(** ** Thresholds *)

Lemma partition_point_app p (l1 l2 : list Z) : Forall (λ x, p x = true) l1 → head (filter (λ x, p x = true) l2) = None → partition_point p (l1 ++ l2) = length l1.
Proof.
  induction 1 as [|x l1 Hx _ IH]; simpl; intros H2.
  - destruct l2 as [|y l2]; [done|]. simpl. destruct (p y) eqn:E; [|done]. rewrite filter_cons_True in H2 by done. done.
  - rewrite Hx. by rewrite IH.
Qed.

(** On a sorted list the elements below [u] come first. *)
Lemma partition_point_sorted (l : list Z) u : StronglySorted Z.lt l →
  ∃ l1 l2, l = l1 ++ l2 ∧ partition_point (λ t, t <? u) l = length l1 ∧ Forall (λ t, t < u) l1 ∧ Forall (λ t, u <= t) l2.
Proof.
  induction 1 as [|x l Hs IH Hx]; [by exists [], []|]. destruct IH as (l1 & l2 & -> & Hp & H1 & H2). cbn [partition_point]. destruct (Z.ltb_spec x u) as [Hxu|Hxu].
  - exists (x :: l1), l2. rewrite Hp. split; [done|]. split; [done|]. by split; [constructor|].
  - exists [], (x :: l1 ++ l2). split; [done|]. split; [done|]. split; [constructor|]. constructor; [done|]. eapply Forall_impl; [exact Hx|]. simpl. intros; lia.
Qed.

Section Thresholds.
Context `{BagsLaws}.

Lemma bag_among_spec th sc : StronglySorted Z.lt th → bag_among th sc = max_value ∧ Forall (λ t, t < sc) th ∨ (bag_among th sc ∈ th ∧ sc <= bag_among th sc ∧ ∀ t, t ∈ th → sc <= t → bag_among th sc <= t).
Proof.
  intros Hs. destruct (partition_point_sorted th sc Hs) as (l1 & l2 & -> & Hp & H1 & H2). unfold bag_among. rewrite Hp, lookup_app_r, Nat.sub_diag by done.
  destruct l2 as [|y l2]; simpl.
  - left. by rewrite app_nil_r.
  - right. apply Forall_cons in H2 as [Hy H2]. split; [set_solver|]. split; [done|]. intros t [Ht|[->|Ht]%elem_of_cons]%elem_of_app Hsc.
    + rewrite Forall_forall in H1. apply H1 in Ht. lia.
    + done.
    + apply StronglySorted_app_1_r, StronglySorted_inv in Hs as [_ Hf]. rewrite Forall_forall in Hf. apply Hf in Ht. lia.
Qed.

Lemma bag_among_mono sc sc' : sc <= sc' → notional_bag_for sc <= notional_bag_for sc'.
Proof.
  intros Hle. unfold notional_bag_for. pose proof thresholds_increase as Hs. pose proof thresholds_bounded as Hb. rewrite Forall_forall in Hb.
  destruct (bag_among_spec BagThresholds sc' Hs) as [[-> Hall']|(Hin' & Hsc' & Hmin')], (bag_among_spec BagThresholds sc Hs) as [[-> Hall]|(Hin & Hsc & Hmin)]; [done|by apply Hb| |].
  - rewrite Forall_forall in Hall. apply Hall in Hin'. lia.
  - apply Hmin; [done|lia].
Qed.

Lemma elem_of_all_thresholds u : u ∈ all_thresholds ↔ u ∈ BagThresholds ∨ u = max_value.
Proof. unfold all_thresholds. case_bool_decide as Hl; [|set_solver]. apply last_elem in Hl. set_solver. Qed.

Lemma notional_in_thresholds sc : notional_bag_for sc ∈ all_thresholds.
Proof. apply elem_of_all_thresholds. unfold notional_bag_for. destruct (bag_among_spec BagThresholds sc thresholds_increase) as [[-> _]|[? _]]; auto. Qed.

Lemma sorted_below_max : last BagThresholds ≠ Some max_value → Forall (λ t, t < max_value) BagThresholds.
Proof.
  pose proof thresholds_increase as Hs. pose proof thresholds_bounded as Hb. clear -Hs Hb. induction Hs as [|x l Hs IH Hx]; [constructor|]. intros Hl.
  apply Forall_cons in Hb as [Hxm Hb]. destruct l as [|y l].
  - constructor; [|constructor]. destruct (Z.eq_dec x max_value); [by subst|lia].
  - rewrite last_cons_cons in Hl. specialize (IH Hb Hl). constructor; [|done]. apply Forall_cons in IH as [? _]. apply Forall_cons in Hx as [? _]. lia.
Qed.

Lemma all_thresholds_sorted : StronglySorted Z.lt all_thresholds.
Proof.
  unfold all_thresholds. case_bool_decide as Hl; [apply thresholds_increase|]. apply StronglySorted_app_2; [|apply thresholds_increase|repeat constructor].
  apply sorted_below_max in Hl. rewrite Forall_forall in Hl. intros x y Hx Hy%list_elem_of_singleton. subst. by apply Hl.
Qed.

Lemma sorted_split (th tl : list Z) u : StronglySorted Z.lt (th ++ tl) → (length tl ≤ 1)%nat → u ∈ th ++ tl →
  ∃ rest, th ++ tl = take (partition_point (λ t, t <? u) th) th ++ u :: rest.
Proof.
  intros Hs Htl Hu. pose proof (StronglySorted_app_1_l _ _ _ Hs) as Hs1.
  destruct (partition_point_sorted th u Hs1) as (l1 & l2 & -> & -> & H1 & H2). rewrite take_app_length, <- app_assoc in *. pose proof (StronglySorted_app_1_r _ _ _ Hs) as Hs2.
  assert (Hu2 : u ∈ l2 ++ tl) by (apply elem_of_app in Hu as [Hu|Hu]; [rewrite Forall_forall in H1; apply H1 in Hu; lia|done]).
  destruct l2 as [|y l2]; simpl in *.
  - destruct tl as [|m [|]]; simpl in *; [set_solver| |lia]. exists []. apply list_elem_of_singleton in Hu2. by subst.
  - exists (l2 ++ tl). apply Forall_cons in H2 as [Hy _]. apply StronglySorted_inv in Hs2 as [_ Hf]. rewrite Forall_forall in Hf.
    apply elem_of_cons in Hu2 as [->|Hu2]; [done|]. apply Hf in Hu2. lia.
Qed.

(** A bag splits the thresholds into those below and those above. *)
Lemma all_thresholds_split u : u ∈ all_thresholds →
  ∃ rest, all_thresholds = take (partition_point (λ t, t <? u) BagThresholds) BagThresholds ++ u :: rest.
Proof.
  intros Hu. pose proof all_thresholds_sorted as Hs. unfold all_thresholds in *. case_bool_decide.
  - rewrite <- (app_nil_r BagThresholds) in Hs, Hu. destruct (sorted_split BagThresholds [] u Hs) as [rest Er]; [simpl; lia|done|]. exists rest. by rewrite app_nil_r in Er.
  - by apply sorted_split.
Qed.
End Thresholds.

(** ** Every account is in the bag of its score *)

Section Placed.
Context {C : BagsConfig}.

Definition placed (a : Lists) : Prop := ∀ i u sc, info a !! i = Some (u, sc) → notional_bag_for sc = u.

Lemma placed_insert i sc a : placed a → placed (insert_spec i sc a).
Proof. intros Hp j u sc'. cbn. intros [[<- [= <- <-]]|[_ Hj]]%lookup_insert_Some; [done|by eapply Hp]. Qed.

Lemma placed_cut i u a : placed a → placed (cut_spec i u a).
Proof. intros Hp j v sc'. cbn. intros [_ Hj]%lookup_delete_Some. by eapply Hp. Qed.

Lemma placed_remove i a : placed a → placed (remove_spec i a).
Proof. intros Hp. unfold remove_spec. destruct (info a !! i) as [[u sc]|]; [by apply placed_cut|done]. Qed.

Lemma placed_update i sc a : placed a → placed (update_spec i sc a).
Proof.
  intros Hp. unfold update_spec. destruct (info a !! i) as [[u sc0]|]; [|done]. case_decide as Hu; [|by apply placed_insert, placed_cut].
  intros j v sc'. cbn [info]. intros [[<- [= <- <-]]|[_ Hj]]%lookup_insert_Some; [done|by eapply Hp].
Qed.

Lemma placed_front x y a : placed a → placed (front_spec x y a).
Proof.
  intros Hp. unfold front_spec. destruct (info a !! y) as [[u sc]|] eqn:Hy; [|done]. intros j v sc'. cbn. intros [[<- [= <- <-]]|[_ Hj]]%lookup_insert_Some; [by eapply Hp|].
  apply lookup_delete_Some in Hj as [_ Hj]. by eapply Hp.
Qed.

Lemma placed_insert_many ids f a : placed a → placed (insert_many_spec ids f a).1.
Proof.
  revert a. induction ids as [|i ids IH]; intros a Hp; [done|]. cbn [insert_many_spec]. destruct (info a !! i); [by apply IH|].
  specialize (IH (insert_spec i (f i) a)). destruct (insert_many_spec ids f (insert_spec i (f i) a)) as [a' n]. by apply IH, placed_insert.
Qed.

Lemma placed_nothing : placed no_lists.
Proof. intros i u sc. cbn. by rewrite lookup_empty. Qed.

#[local] Hint Resolve placed_insert placed_remove placed_update placed_front placed_nothing : core.

Lemma placed_spec o a : placed a → placed (spec o a).2.
Proof.
  intros Hp. destruct o as [i sc|i sc|i|all f| |f origin src|f origin src]; cbn [spec]; unfold spec_of_update.
  - destruct (info a !! i); simpl; auto.
  - destruct (info a !! i); simpl; auto.
  - destruct (info a !! i); simpl; auto.
  - pose proof (placed_insert_many all f no_lists placed_nothing). by destruct (insert_many_spec all f no_lists).
  - done.
  - destruct origin, (lookup_source src) as [i|]; try done. destruct (info a !! i); simpl; auto.
  - destruct origin as [|h|], (lookup_source src) as [l|]; try done. destruct (front_error f l h a); simpl; auto.
Qed.

Lemma placed_run os a : placed a → placed (run_spec os a).2.
Proof.
  revert a. induction os as [|o os IH]; intros a Hp; [done|]. cbn [run_spec]. pose proof (placed_spec o a Hp) as Hp1. destruct (spec o a) as [r a1].
  specialize (IH a1 Hp1). by destruct (run_spec os a1).
Qed.
End Placed.

(** ** Following the links *)

Definition nodes_of (m : gmap AccountId Node) (l : list AccountId) : list Node := omap (λ i, m !! i) l.

Lemma successors_linked m inf u l1 l2 fuel : linked m inf u (l1 ++ l2) → (length l2 ≤ fuel)%nat →
  successors fuel m (head l2 ≫= (λ i, m !! i)) = Some (nodes_of m l2).
Proof.
  revert l1 fuel. induction l2 as [|i l2 IH]; intros l1 fuel Hk Hf; [by destruct fuel|]. destruct (Hk l1 i l2 eq_refl) as (sc & _ & Hi). simpl in Hf.
  destruct fuel as [|fuel]; [lia|]. unfold nodes_of. cbn [head mbind option_bind omap list_omap]. rewrite Hi. cbn [successors next].
  rewrite (IH (l1 ++ [i]) fuel); [done|by rewrite <- app_assoc|lia].
Qed.

Lemma nodes_of_ids m l : (∀ i, i ∈ l → ∃ n, m !! i = Some n ∧ node_id n = i) → node_id <$> nodes_of m l = l.
Proof.
  induction l as [|i l IH]; intros Hl; [done|]. destruct (Hl i) as (n & Hn & Hi); [set_solver|]. unfold nodes_of. cbn [omap list_omap]. rewrite Hn. cbn. rewrite Hi. f_equal.
  apply IH. intros j Hj. apply Hl. set_solver.
Qed.

Lemma nodes_of_app m l k : nodes_of m (l ++ k) = nodes_of m l ++ nodes_of m k.
Proof. apply omap_app. Qed.

Section Iterate.
Context {E : Type} (s : ListStore) (a : Lists) (R : rep s a).

Lemma bag_list_node i u : i ∈ bag_list a u → ∃ n, ListNodes s !! i = Some n ∧ node_id n = i ∧ bag_upper n = u ∧ info a !! i = Some (u, score n).
Proof.
  intros (sc & Hi)%(bag_list_info _ _ _ R). destruct (rep_node _ _ _ R _ _ _ Hi) as (l1 & l2 & _ & _ & Hn). eexists. split; [exact Hn|]. done.
Qed.

Lemma bag_list_length u : (length (bag_list a u) ≤ size (ListNodes s))%nat.
Proof.
  destruct (rep_bag_list _ _ _ R u) as [Hnd _]. rewrite <- (size_list_to_set (C := gset AccountId)) by done. rewrite <- size_dom. apply subseteq_size.
  intros i Hi%elem_of_list_to_set. destruct (bag_list_node i u Hi) as (n & Hn & _). apply elem_of_dom. eauto.
Qed.

Lemma follow_run u l1 l2 : bag_list a u = l1 ++ l2 → follow (E := E) (head l2 ≫= (λ i, ListNodes s !! i)) s = (Ok (nodes_of (ListNodes s) l2), s).
Proof.
  intros Hl. unfold follow, bind, gets. destruct (rep_bag_list _ _ _ R u) as [_ Hk]. rewrite Hl in Hk.
  rewrite (successors_linked _ _ _ _ _ _ Hk); [done|]. pose proof (bag_list_length u) as Hle. rewrite Hl, length_app in Hle. lia.
Qed.

Lemma opt_node_run o : opt_node (E := E) o s = (Ok (o ≫= (λ i, ListNodes s !! i)), s).
Proof. by destruct o. Qed.

Lemma bag_iter_run u : bag_iter (E := E) (list_bag u (bag_list a u)) s = (Ok (nodes_of (ListNodes s) (bag_list a u)), s).
Proof. unfold bag_iter, bind. rewrite opt_node_run. cbn [list_bag bag_head]. by apply (follow_run u []). Qed.

(** The bags in the order of [us]. *)
Definition in_bags (us : list Z) : list AccountId := us ≫= bag_list a.

Lemma iter_bags_run us : iter_bags (E := E) us s = (Ok (nodes_of (ListNodes s) (in_bags us)), s).
Proof.
  induction us as [|u us IH]; [done|]. cbn [iter_bags]. unfold bind at 1. rewrite (bag_get_run _ _ _ u R). unfold in_bags. cbn [mbind list_bind]. fold (in_bags us).
  assert (Hb : (match (match bag_list a u with [] => None | l => Some (list_bag u l) end) with Some b => bag_iter b | None => ret [] end) s = (Ok (E := E) (nodes_of (ListNodes s) (bag_list a u)), s)).
  { pose proof (bag_iter_run u) as Hi. destruct (bag_list a u); [done|exact Hi]. }
  unfold bind at 1. rewrite Hb. unfold bind. rewrite IH. by rewrite nodes_of_app.
Qed.

Lemma in_bags_nodes us i : i ∈ in_bags us → ∃ n, ListNodes s !! i = Some n ∧ node_id n = i.
Proof. intros (u & Hi & _)%list_elem_of_bind. destruct (bag_list_node i u Hi) as (n & ? & ? & _). eauto. Qed.

Lemma in_bags_NoDup us : NoDup us → NoDup (in_bags us).
Proof.
  induction 1 as [|u us Hu _ IH]; [constructor|]. unfold in_bags. cbn [mbind list_bind]. apply NoDup_app. split; [apply (rep_bag_list _ _ _ R)|]. split; [|done].
  intros i Hi (v & Hv & Hvu)%list_elem_of_bind. apply (bag_list_info _ _ _ R) in Hi as [sc Hi]. apply (bag_list_info _ _ _ R) in Hv as [sc' Hi']. rewrite Hi in Hi'. by simplify_eq.
Qed.
End Iterate.

(** ** The order of the iteration *)

(** A node of a higher bag comes first, and has the higher score. *)
Definition before (m n : Node) : Prop := bag_upper n <= bag_upper m ∧ (bag_upper n < bag_upper m → score n < score m).

Lemma sorted_all {A} (P : A → A → Prop) l : (∀ x y, x ∈ l → y ∈ l → P x y) → StronglySorted P l.
Proof.
  induction l as [|x l IH]; intros Hl; constructor; [apply IH; intros; apply Hl; set_solver|]. apply Forall_forall. intros y Hy. apply Hl; set_solver.
Qed.

Lemma sorted_reverse {A} (P : A → A → Prop) l : StronglySorted P l → StronglySorted (flip P) (reverse l).
Proof.
  induction 1 as [|x l Hl IH Hx]; [constructor|]. rewrite reverse_cons. apply StronglySorted_app_2; [|done|repeat constructor].
  intros y z Hy Hz%list_elem_of_singleton. rewrite elem_of_reverse in Hy. subst. rewrite Forall_forall in Hx. unfold flip. by apply Hx.
Qed.

Lemma sorted_lt_NoDup l : StronglySorted Z.lt l → NoDup l.
Proof. induction 1 as [|x l Hl IH Hx]; constructor; [|done]. rewrite Forall_forall in Hx. intros Hin%Hx. lia. Qed.

Lemma split_unique {A} (x : A) l1 l2 k1 k2 : NoDup (l1 ++ x :: l2) → l1 ++ x :: l2 = k1 ++ x :: k2 → l2 = k2.
Proof.
  intros Hnd Heq. pose proof (NoDup_cut _ _ _ Hnd) as (H1 & H2 & _). apply app_cons_cases in Heq as [(a2 & -> & _)|(c1 & Hc & _)]; [set_solver|].
  destruct c1 as [|y c1]; simpl in Hc; [by injection Hc|]. injection Hc as <- ->. set_solver.
Qed.

Lemma nodes_of_self m ns : (∀ n, n ∈ ns → m !! node_id n = Some n) → nodes_of m (node_id <$> ns) = ns.
Proof.
  induction ns as [|n ns IH]; intros Hn; [done|]. unfold nodes_of. cbn [fmap list_fmap omap list_omap]. rewrite Hn by set_solver. f_equal. apply IH. intros; apply Hn; set_solver.
Qed.

Section Order.
Context `{BagsLaws} (s : ListStore) (a : Lists) (R : rep s a) (Hp : placed a).

Abbreviation us := (reverse all_thresholds).
Abbreviation ns := (nodes_of (ListNodes s) (in_bags a us)).

Lemma elem_of_nodes_of n vs : n ∈ nodes_of (ListNodes s) (in_bags a vs) ↔ ListNodes s !! node_id n = Some n ∧ bag_upper n ∈ vs.
Proof.
  unfold nodes_of. rewrite list_elem_of_omap. split.
  - intros (i & (u & Hi & Hu)%list_elem_of_bind & Hn). destruct (bag_list_node s a R i u Hi) as (n' & Hn' & Hid & Hbu & _). assert (n' = n) as -> by congruence. rewrite Hid. split; [done|]. by rewrite Hbu.
  - intros [Hn Hu]. exists (node_id n). split; [|done]. apply list_elem_of_bind. exists (bag_upper n). split; [|done].
    apply (bag_list_info _ _ _ R). exists (score n). by apply (rep_node_inv _ _ _ R); [set_solver|].
Qed.

Lemma node_placed i n : ListNodes s !! i = Some n → notional_bag_for (score n) = bag_upper n.
Proof. intros Hn. eapply Hp. apply (rep_node_inv _ _ _ R); [|exact Hn]. set_solver. Qed.

Lemma iter_sorted vs : StronglySorted (flip Z.lt) vs → StronglySorted before (nodes_of (ListNodes s) (in_bags a vs)).
Proof.
  induction 1 as [|v vs Hvs IH Hv]; [constructor|]. unfold in_bags. cbn [mbind list_bind]. rewrite nodes_of_app. fold (in_bags a vs). rewrite Forall_forall in Hv.
  assert (Hhere : ∀ n, n ∈ nodes_of (ListNodes s) (bag_list a v) → bag_upper n = v ∧ ListNodes s !! node_id n = Some n).
  { intros n Hn. assert (Hn' : n ∈ nodes_of (ListNodes s) (in_bags a [v])) by (unfold in_bags; simpl; by rewrite app_nil_r). apply elem_of_nodes_of in Hn' as [? ?]. set_solver. }
  apply StronglySorted_app_2; [|apply sorted_all; intros x y [Hx _]%Hhere [Hy _]%Hhere; unfold before; lia|done].
  intros x y [Hx Hxn]%Hhere [Hyn Hy]%elem_of_nodes_of. apply Hv in Hy. unfold flip in Hy. split; [lia|]. intros _.
  destruct (Z_lt_le_dec (score y) (score x)) as [|Hle]; [done|]. apply bag_among_mono in Hle. rewrite (node_placed _ _ Hxn), (node_placed _ _ Hyn) in Hle. lia.
Qed.

Lemma us_NoDup : NoDup us.
Proof. rewrite reverse_Permutation. apply sorted_lt_NoDup, all_thresholds_sorted. Qed.

Lemma iter_ids vs : node_id <$> nodes_of (ListNodes s) (in_bags a vs) = in_bags a vs.
Proof. apply nodes_of_ids. apply (in_bags_nodes _ _ R). Qed.

Lemma elem_of_iter n : n ∈ ns ↔ ListNodes s !! node_id n = Some n.
Proof.
  rewrite elem_of_nodes_of. split; [naive_solver|]. intros Hn. split; [done|]. rewrite <- (node_placed _ _ Hn). rewrite elem_of_reverse; apply notional_in_thresholds.
Qed.

Lemma iter_length : length ns = size (ListNodes s).
Proof.
  rewrite <- (length_fmap node_id). rewrite <- (size_list_to_set (C := gset AccountId)).
  - rewrite <- size_dom. f_equal. apply set_eq. intros i. rewrite elem_of_list_to_set, list_elem_of_fmap, elem_of_dom. split.
    + intros (n & -> & Hn%elem_of_iter). eauto.
    + intros [n Hn]. exists n. pose proof (rep_ids _ _ _ R _ _ Hn) as Hi. split; [done|]. apply elem_of_iter. by rewrite Hi.
  - rewrite iter_ids. apply (in_bags_NoDup _ _ R), us_NoDup.
Qed.

Lemma iter_from_ok l1 n l2 : ns = l1 ++ n :: l2 → iter_from (node_id n) s = (Ok l2, s).
Proof.
  intros Hns. assert (Hn : ListNodes s !! node_id n = Some n) by (apply elem_of_iter; rewrite Hns; set_solver).
  pose proof (rep_node_inv _ _ _ R _ _ (not_elem_of_empty _) Hn) as Hi. destruct (rep_node _ _ _ R _ _ _ Hi) as (k1 & k2 & Hu & Hnd & Hn').
  rewrite Hn in Hn'. injection Hn' as Hn'. set (i := node_id n) in *. set (u := bag_upper n) in *.
  assert (Hbl : bag_list a u = k1 ++ i :: k2) by (unfold bag_list; by rewrite Hu).
  destruct (all_thresholds_split u) as [rest Er]; [unfold u; rewrite <- (node_placed _ _ Hn); apply notional_in_thresholds|].
  set (lo := take (partition_point (λ t, t <? u) BagThresholds) BagThresholds) in *.
  assert (Hl2 : node_id <$> l2 = k2 ++ in_bags a (reverse lo)).
  { pose proof (f_equal (fmap node_id) Hns) as Hids. rewrite iter_ids, fmap_app, fmap_cons in Hids. fold i in Hids. symmetry. apply (split_unique i (in_bags a (reverse rest) ++ k1) _ (node_id <$> l1)).
    - pose proof (in_bags_NoDup _ _ R us us_NoDup) as Hnd'. rewrite Er, reverse_app, reverse_cons in Hnd'. unfold in_bags in Hnd' |- *. rewrite !bind_app in Hnd'. simpl in Hnd'. rewrite Hbl, app_nil_r in Hnd'.
      by rewrite <- !app_assoc in *.
    - rewrite <- Hids. rewrite Er, reverse_app, reverse_cons. unfold in_bags. rewrite !bind_app. simpl. rewrite Hbl, app_nil_r. by rewrite <- !app_assoc. }
  unfold iter_from, bind at 1, node_get, gets. rewrite Hn. unfold bind at 1, ok_or, ret. unfold bind at 1. unfold next_node. rewrite opt_node_run.
  assert (Hnx : next n = head k2) by (by rewrite Hn'). rewrite Hnx. unfold bind at 1. rewrite (follow_run s a R u (k1 ++ [i]) k2) by (by rewrite <- app_assoc).
  unfold bind. fold u. fold lo. rewrite (iter_bags_run s a R). unfold ret. do 2 f_equal. rewrite <- nodes_of_app, <- Hl2. apply nodes_of_self.
  intros m Hm. apply elem_of_iter. rewrite Hns. set_solver.
Qed.
End Order.

(** C19. After any sequence of operations the iteration over the list ends and yields each account exactly once, from the highest bag to the
    lowest, so that an account of a higher bag has a higher score than those of the lower bags; there are as many as the counter says;
    and an iteration that is resumed after any of them yields the rest. *)
Theorem iteration_ordered `{BagsLaws} (os : list BagsOp) : fits os no_lists →
  ∃ rs s ns, run_code os empty_list = (rs, s) ∧ list_iter s = (Ok (E := ListError) ns, s) ∧
    NoDup (node_id <$> ns) ∧ (∀ n, n ∈ ns ↔ ListNodes s !! node_id n = Some n) ∧ StronglySorted before ns ∧
    provider_count s = Z.of_nat (length ns) ∧
    ∀ l1 n l2, ns = l1 ++ n :: l2 → iter_from (node_id n) s = (Ok l2, s).
Proof.
  intros Hf. destruct (run_refines os empty_list no_lists empty_rep Hf) as (s & Hrun & R).
  pose proof (placed_run os no_lists placed_nothing) as Hp. destruct (run_spec os no_lists) as [rs a]. cbn [fst snd] in *.
  eexists rs, s, _. split; [done|]. split; [apply (iter_bags_run s a R)|]. split; [|split; [|split; [|split]]].
  - rewrite (iter_ids s a R). apply (in_bags_NoDup s a R), us_NoDup.
  - apply (elem_of_iter s a R Hp).
  - apply (iter_sorted s a R Hp), sorted_reverse, all_thresholds_sorted.
  - rewrite (iter_length s a R Hp). apply R.
  - apply (iter_from_ok s a R Hp).
Qed.

(** ** The checks of [try_state] pass *)

Section TryState.
Context `{BagsLaws} (s : ListStore) (a : Lists) (R : rep s a) (Hp : placed a).

Definition bag_at (u : Z) : option Bag := match bag_list a u with [] => None | l => Some (list_bag u l) end.

Lemma active_bags_run us : active_bags (E := string) us s = (Ok (omap bag_at us), s).
Proof.
  induction us as [|u us IH]; [done|]. cbn [active_bags]. unfold bind. rewrite (bag_get_run _ _ _ u R), IH. cbn [omap list_omap]. by destruct (bag_at u) eqn:E; unfold bag_at in E; rewrite E.
Qed.

Lemma elem_of_active b (us : list Z) : b ∈ omap bag_at us → ∃ u, bag_list a u ≠ [] ∧ b = list_bag u (bag_list a u).
Proof. intros (u & _ & Hu)%list_elem_of_omap. exists u. unfold bag_at in Hu. destruct (bag_list a u); [done|]. by simplify_eq. Qed.

Lemma bag_try_state_ok u : bag_list a u ≠ [] → bag_try_state (list_bag u (bag_list a u)) s = (Ok tt, s).
Proof.
  intros Hne. destruct (rep_bag_list _ _ _ R u) as [Hnd Hk]. unfold bag_try_state.
  assert (Hh : ∃ i l2, bag_list a u = i :: l2) by (destruct (bag_list a u) as [|i l2]; [done|by eexists _, _]).
  assert (Ht : ∃ l1 i, bag_list a u = l1 ++ [i]) by (destruct (bag_list a u) as [|i l2 _] using rev_ind; [done|by eexists _, _]).
  destruct Hh as (i & l2 & Hh). destruct (Hk [] i l2 Hh) as (sch & _ & Hni). destruct Ht as (k1 & j & Ht). destruct (Hk k1 j [] Ht) as (sct & _ & Hnj).
  unfold bind at 1. rewrite opt_node_run. cbn [list_bag bag_head bag_tail]. rewrite Hh at 1. cbn [head mbind option_bind]. rewrite Hni.
  unfold bind at 1. cbn [prev_node prev last opt_node]. unfold bind at 1, ret at 1. unfold bind at 1. cbn [ensure is_none ret].
  unfold bind at 1. rewrite opt_node_run. rewrite Ht at 1. rewrite last_snoc. cbn [mbind option_bind]. rewrite Hnj.
  unfold bind at 1. cbn [next_node next head opt_node]. unfold bind at 1, ret at 1. unfold bind at 1. cbn [ensure is_none ret].
  unfold bind at 1. rewrite (bag_iter_run s a R u). rewrite nodes_of_ids; [by rewrite bool_decide_eq_true_2|].
  intros x Hx. destruct (bag_list_node s a R x u Hx) as (n & ? & ? & _). eauto.
Qed.

Lemma node_try_state_ok i n : ListNodes s !! i = Some n → node_try_state n s = (Ok tt, s).
Proof.
  intros Hn. pose proof (rep_node_inv _ _ _ R _ _ (not_elem_of_empty _) Hn) as Hi. destruct (rep_node _ _ _ R _ _ _ Hi) as (l1 & l2 & Hu & Hnd & Hn').
  rewrite Hn in Hn'. injection Hn' as Hn'. assert (node_id n = i ∧ prev n = last l1 ∧ next n = head l2) as (Hid & Hpr & Hnx) by (by rewrite Hn').
  set (u := bag_upper n) in *. assert (Hbl : bag_list a u = l1 ++ i :: l2) by (unfold bag_list; by rewrite Hu).
  unfold node_try_state, bind at 1. rewrite (bag_get_run _ _ _ _ R). fold u. rewrite Hbl, bag_of_cut. unfold bind at 1. cbn [ok_or ret].
  unfold bind at 1, bag_contains, bind at 1. rewrite <- Hbl, (bag_iter_run s a R u). rewrite nodes_of_ids by (intros x Hx; destruct (bag_list_node s a R x u Hx) as (m & ? & ? & _); eauto).
  cbn [ret]. rewrite Hid. rewrite (bool_decide_eq_true_2 (i ∈ bag_list a u)) by (rewrite Hbl; set_solver). unfold bind, ensure at 1. cbn [ret].
  destruct (NoDup_cut _ _ _ Hnd) as (Hi1 & Hi2 & _). cbn [list_bag bag_head bag_tail]. rewrite Hbl, last_app_cons, head_app. unfold is_terminal. rewrite Hpr, Hnx.
  destruct l1 as [|x l1]; [cbn [head]; rewrite bool_decide_eq_true_2 by done; by rewrite orb_true_r|].
  destruct l2 as [|y l2]; [cbn [last head]; rewrite (bool_decide_eq_true_2 (Some i = Some i)) by done; by rewrite !orb_true_r|].
  rewrite last_cons_cons. rewrite !bool_decide_eq_false_2; [|intros ?%last_elem; set_solver|intros [= ->]; set_solver].
  destruct (last (x :: l1)) eqn:El; [done|]. by apply last_None in El.
Qed.

Lemma try_each_ok {A} (f : A → M ListStore string unit) l : (∀ x, x ∈ l → f x s = (Ok tt, s)) → try_each f l s = (Ok tt, s).
Proof. induction l as [|x l IH]; intros Hf; [done|]. cbn [try_each]. unfold bind. rewrite Hf by set_solver. apply IH. intros; apply Hf; set_solver. Qed.

Lemma count_in_bags_run (us : list Z) acc : is_u 32 acc → count_in_bags (E := string) (omap bag_at us) acc s = (Ok ((acc + Z.of_nat (length (in_bags a us))) mod 2 ^ 32), s).
Proof.
  revert acc. induction us as [|u us IH]; intros acc Hacc.
  - cbn. unfold ret. do 2 f_equal. rewrite Z.add_0_r. symmetry. apply Z.mod_small. unfold is_u, umax in Hacc. lia.
  - cbn [omap list_omap]. unfold in_bags. cbn [mbind list_bind]. fold (in_bags a us). rewrite length_app. unfold bag_at at 1.
    pose proof (bag_iter_run (E := string) s a R u) as Hi. destruct (bag_list a u) as [|i l] eqn:Hl; [by apply IH|]. cbn [count_in_bags]. unfold bind. rewrite Hi.
    assert (Hln : length (nodes_of (ListNodes s) (i :: l)) = length (i :: l)).
    { rewrite <- (length_fmap node_id), nodes_of_ids; [done|]. intros x Hx. rewrite <- Hl in Hx. destruct (bag_list_node s a R x u Hx) as (m & ? & ? & _). eauto. }
    rewrite Hln. rewrite IH.
    + do 2 f_equal. unfold wrapping_add. rewrite Zplus_mod_idemp_r, Zplus_mod_idemp_l. f_equal. lia.
    + unfold wrapping_add, is_u, umax. pose proof (Z.mod_pos_bound (acc + Z.of_nat (length (i :: l)) mod 2 ^ 32) (2 ^ 32)). lia.
Qed.

Lemma list_try_state_ok : list_try_state s = (Ok tt, s).
Proof.
  pose proof (rep_count _ _ _ R) as Hc. pose proof (rep_count_max _ _ _ R) as Hm. unfold u32_max, umax in Hm.
  assert (Hmod : Z.of_nat (size (ListNodes s)) mod 2 ^ 32 = Z.of_nat (size (ListNodes s))) by (apply Z.mod_small; lia).
  assert (Hens : ∀ b e, b = true → ensure (S := ListStore) (E := string) b e s = (Ok tt, s)) by (by intros b e ->).
  unfold list_try_state, list_iter. erewrite bind_run by apply (iter_bags_run s a R). rewrite (iter_length s a R Hp), Hmod.
  erewrite bind_run by (apply Hens; rewrite (iter_ids s a R); apply bool_decide_eq_true_2, (in_bags_NoDup s a R), us_NoDup). cbv zeta.
  erewrite bind_run by done. erewrite bind_run by done. rewrite Hmod. erewrite bind_run by (apply Hens, Z.eqb_eq; by rewrite Hc).
  erewrite bind_run by (apply Hens, Z.eqb_eq; by rewrite Hc). erewrite bind_run by apply active_bags_run. erewrite bind_run.
  - erewrite bind_run by (by apply count_in_bags_run). rewrite Z.add_0_l.
    assert (Hlen : length (in_bags a all_thresholds) = size (ListNodes s)).
    { rewrite <- (iter_length s a R Hp). rewrite <- (length_fmap node_id (nodes_of _ _)), (iter_ids s a R). unfold in_bags. by rewrite reverse_Permutation. }
    rewrite Hlen, Hmod. erewrite bind_run by (apply Hens, Z.eqb_refl). apply try_each_ok. intros n ([i n'] & -> & Hin%elem_of_map_to_list)%list_elem_of_fmap. by eapply node_try_state_ok.
  - apply try_each_ok. intros b (u & Hu & ->)%elem_of_active. by apply bag_try_state_ok.
Qed.
End TryState.

(** The checks of [try_state] hold in every state that the operations reach. *)
Theorem try_state_holds `{BagsLaws} (os : list BagsOp) : fits os no_lists →
  ∃ rs s, run_code os empty_list = (rs, s) ∧ list_try_state s = (Ok tt, s).
Proof.
  intros Hf. destruct (run_refines os empty_list no_lists empty_rep Hf) as (s & Hrun & R). exists (run_spec os no_lists).1, s. split; [done|].
  eapply list_try_state_ok; [exact R|apply placed_run, placed_nothing].
Qed.
