(* ===== verification/BagsListMigrate.v ===== *)
(** A change of the thresholds: [List::migrate] moves every account of the bags that the change affects to the
    bag of its score and leaves the others where they are, unless the change drops the last threshold. *)

From S2P Require Import Prelude Runtime BagsList BagsListProps BagsListSpec BagsListIter.
Import Bags.

(** ** Removing and inserting several accounts *)

Section Many.
Context {C : BagsConfig}.

Lemma remove_spec_info i j a : info (remove_spec i a) !! j = if decide (j = i) then None else info a !! j.
Proof.
  unfold remove_spec. destruct (info a !! i) as [[u sc]|] eqn:Hi; case_decide as Hj; subst; cbn [cut_spec info]; rewrite ?lookup_delete_eq, ?lookup_delete_ne by done; done.
Qed.

Lemma remove_many_info ids a j : info (remove_many_spec ids a).1 !! j = if decide (j ∈ ids) then None else info a !! j.
Proof.
  revert a. induction ids as [|i ids IH]; intros a; cbn [remove_many_spec]; [by rewrite decide_False by set_solver|].
  destruct (info a !! i) as [v|] eqn:Hi.
  - specialize (IH (remove_spec i a)). destruct (remove_many_spec ids (remove_spec i a)) as [a' n]. cbn [fst] in *. rewrite IH, remove_spec_info.
    destruct (decide (j ∈ ids)), (decide (j = i)); rewrite ?decide_True, ?decide_False by set_solver; done.
  - rewrite IH. destruct (decide (j = i)) as [->|]; [rewrite Hi; by repeat case_decide|]. destruct (decide (j ∈ ids)); by rewrite ?decide_True, ?decide_False by set_solver.
Qed.

Lemma remove_many_keeps ids a u : (∀ i v sc, i ∈ ids → info a !! i = Some (v, sc) → v ≠ u) → bag_list (remove_many_spec ids a).1 u = bag_list a u.
Proof.
  revert a. induction ids as [|i ids IH]; intros a Hu; cbn [remove_many_spec]; [done|]. destruct (info a !! i) as [[v sc]|] eqn:Hi; [|apply IH; set_solver].
  specialize (IH (remove_spec i a)). destruct (remove_many_spec ids (remove_spec i a)) as [a' n]. cbn [fst] in *. rewrite IH.
  - unfold remove_spec. rewrite Hi. unfold cut_spec. rewrite bag_list_put. rewrite decide_False; [done|]. intros Huv. apply (Hu i v sc); [set_solver|done|done].
  - intros j w sc' Hj. rewrite remove_spec_info. case_decide; [done|]. apply Hu. set_solver.
Qed.

Lemma insert_many_info ids f a j : info (insert_many_spec ids f a).1 !! j =
  match info a !! j with Some v => Some v | None => if decide (j ∈ ids) then Some (notional_bag_for (f j), f j) else None end.
Proof.
  revert a. induction ids as [|i ids IH]; intros a; cbn [insert_many_spec].
  - cbn [fst]. destruct (info a !! j) eqn:Hj; [done|]. by rewrite decide_False by set_solver.
  - destruct (info a !! i) as [v|] eqn:Hi.
    + rewrite IH. destruct (info a !! j) eqn:Hj; [done|]. assert (j ≠ i) by congruence. destruct (decide (j ∈ ids)); by rewrite ?decide_True, ?decide_False by set_solver.
    + specialize (IH (insert_spec i (f i) a)). destruct (insert_many_spec ids f (insert_spec i (f i) a)) as [a' n]. cbn [fst] in *. rewrite IH. cbn [insert_spec link_spec info].
      destruct (decide (j = i)) as [->|Hj]; [rewrite lookup_insert_eq, Hi; by rewrite decide_True by set_solver|]. rewrite lookup_insert_ne by done.
      destruct (info a !! j); [done|]. destruct (decide (j ∈ ids)); by rewrite ?decide_True, ?decide_False by set_solver.
Qed.

Lemma insert_many_appends ids f a u : bag_list a u `prefix_of` bag_list (insert_many_spec ids f a).1 u.
Proof.
  revert a. induction ids as [|i ids IH]; intros a; cbn [insert_many_spec]; [done|]. destruct (info a !! i); [apply IH|].
  specialize (IH (insert_spec i (f i) a)). destruct (insert_many_spec ids f (insert_spec i (f i) a)) as [a' n]. etrans; [|exact IH]. unfold insert_spec, link_spec, bag_list. cbn [bags].
  destruct (decide (notional_bag_for (f i) = u)) as [->|Hne]; [rewrite lookup_insert_eq; by apply prefix_app_r|by rewrite lookup_insert_ne].
Qed.
End Many.

(** ** The accounts that a change affects *)

Section Affected.
Context {E : Type} (s : ListStore) (a : Lists) (R : rep s a).

Lemma collect_affected_run us visited accounts : (∀ i, i ∈ accounts ↔ ∃ u, u ∈ visited ∧ i ∈ bag_list a u) →
  ∃ accounts', collect_affected (E := E) us visited accounts s = (Ok (list_to_set us ∪ visited, accounts'), s) ∧
    ∀ i, i ∈ accounts' ↔ ∃ u, u ∈ (list_to_set us ∪ visited : gset Z) ∧ i ∈ bag_list a u.
Proof.
  revert visited accounts. induction us as [|u us IH]; intros visited accounts Ha; cbn [collect_affected].
  - exists accounts. replace (list_to_set [] ∪ visited) with visited by set_solver. done.
  - case_bool_decide as Hu.
    + destruct (IH visited accounts Ha) as (acc' & -> & Hacc). cbn [list_to_set]. replace ({[u]} ∪ list_to_set us ∪ visited) with (list_to_set us ∪ visited : gset Z) by set_solver. by exists acc'.
    + destruct (IH ({[u]} ∪ visited) (list_to_set (bag_list a u) ∪ accounts)) as (acc' & Hr & Hacc).
      { intros i. rewrite elem_of_union, elem_of_list_to_set, Ha. set_solver. }
      exists acc'. cbn [list_to_set]. replace ({[u]} ∪ list_to_set us ∪ visited) with (list_to_set us ∪ ({[u]} ∪ visited) : gset Z) by set_solver. split; [|done].
      unfold bind at 1. rewrite (bag_get_run _ _ _ u R). rewrite <- Hr. clear Hr IH Hacc.
      pose proof (bag_iter_run (E := E) s a R u) as Hi. pose proof (nodes_of_ids (ListNodes s) (bag_list a u)) as Hids.
      unfold bind. destruct (bag_list a u) as [|j l] eqn:Hl; [done|]. rewrite Hi. rewrite Hids; [done|]. intros x Hx. rewrite <- Hl in Hx.
      destruct (bag_list_node s a R x u Hx) as (n & ? & ? & _). eauto.
Qed.
End Affected.

Lemma elem_of_in_order i X : i ∈ in_order X ↔ i ∈ X.
Proof. unfold in_order. by rewrite merge_sort_Permutation, elem_of_elements. Qed.

Lemma length_in_order X : length (in_order X) = size X.
Proof. unfold in_order. by rewrite merge_sort_Permutation. Qed.

Lemma remove_bags_run {E} us s : remove_bags (E := E) us s = (Ok tt, with_bags (λ m, foldl (λ m u, delete u m) m us) s).
Proof. revert s. induction us as [|u us IH]; intros s; [by destruct s|]. cbn [remove_bags]. unfold bind, modify. by rewrite IH. Qed.

(** Removing bags that are not there changes nothing. *)
Lemma remove_no_bags us (m : gmap Z Bag) : (∀ u, u ∈ us → m !! u = None) → foldl (λ m u, delete u m) m us = m.
Proof. induction us as [|u us IH]; intros Hm; [done|]. cbn [foldl]. rewrite delete_id by (apply Hm; set_solver). apply IH. set_solver. Qed.

(** ** Migration *)

Section Migrate.
Context `{BagsLaws} (old : list Z) (Hold : StronglySorted Z.lt old).

Definition placed_by (th : list Z) (a : Lists) : Prop := ∀ i u sc, info a !! i = Some (u, sc) → bag_among th sc = u.

Definition new_bags : list Z := filter (λ t, t ∉ old) BagThresholds.
Definition removed_bags : list Z := filter (λ t, t ∉ BagThresholds) old.
Definition affected : gset Z := list_to_set removed_bags ∪ list_to_set (bag_among old <$> new_bags).

(** A bag that is not affected is that of the same scores under the new thresholds. *)
Lemma unaffected_bag sc : bag_among old sc ∉ affected → notional_bag_for sc = bag_among old sc.
Proof.
  intros Hn. unfold notional_bag_for. pose proof (bag_among_spec old sc Hold) as Ho. pose proof (bag_among_spec BagThresholds sc thresholds_increase) as Hw.
  set (u := bag_among old sc) in *. set (w := bag_among BagThresholds sc) in *.
  assert (Hkeep : u ∈ old → u ∈ BagThresholds) by (intros Hu; destruct (decide (u ∈ BagThresholds)); [done|]; exfalso; by apply Hn, elem_of_union_l, elem_of_list_to_set, list_elem_of_filter).
  assert (Hnew : w ∈ BagThresholds → w ∉ old → bag_among old w ≠ u).
  { intros Hwt Hwo Heq. apply Hn. unfold affected, new_bags. apply elem_of_union_r, elem_of_list_to_set, list_elem_of_fmap. exists w. split; [done|]. by apply list_elem_of_filter. }
  pose proof (bag_among_spec old w Hold) as Hb. clearbody u w. rewrite !Forall_forall in *.
  destruct Hw as [[-> Hall]|(Hin & Hge & Hmin)], Ho as [[-> Hallo]|(Hino & Hgeo & Hmino)].
  - done.
  - apply Hkeep, Hall in Hino. lia.
  - exfalso. assert (Hwo : w ∉ old) by (intros Hx%Hallo; lia). apply (Hnew Hin Hwo). destruct Hb as [[-> _]|(Hx & Hy & _)]; [done|]. apply Hallo in Hx. lia.
  - assert (Hle : w <= u) by (apply Hmin; auto). destruct (Z.eq_dec w u) as [|Hne]; [done|]. exfalso.
    assert (Hwo : w ∉ old) by (intros Hx; apply Hmino in Hx; [lia|done]). apply (Hnew Hin Hwo). destruct Hb as [[_ Hall]|(Hx & Hy & Hz)].
    + apply Hall in Hino. lia.
    + apply Z.le_antisymm; [by apply Hz|]. apply Hmino; [done|lia].
Qed.

(** Removing the accounts of the affected bags and inserting them again. *)
Definition moved (score_of : AccountId → Z) (X : gset AccountId) (a : Lists) : Lists :=
  (insert_many_spec (in_order X) score_of (remove_many_spec (in_order X) a).1).1.

Lemma moved_info score_of X a i : X ⊆ dom (info a) →
  info (moved score_of X a) !! i = if decide (i ∈ X) then Some (notional_bag_for (score_of i), score_of i) else info a !! i.
Proof.
  intros HX. unfold moved. rewrite insert_many_info, remove_many_info. destruct (decide (i ∈ X)) as [Hi|Hi].
  - rewrite !decide_True by by apply elem_of_in_order. done.
  - rewrite !decide_False by by rewrite elem_of_in_order. by destruct (info a !! i).
Qed.

Lemma moved_size X a : X ⊆ dom (info a) → (size (info (remove_many_spec (in_order X) a).1) + length (in_order X) ≤ size (info a))%nat.
Proof.
  intros HX. rewrite length_in_order. rewrite <- !size_dom. rewrite <- size_union.
  - apply subseteq_size. intros i. rewrite elem_of_union, elem_of_dom, remove_many_info. case_decide; [intros [[]|]; [done|set_solver]|].
    intros [Hi|Hi]; [by apply elem_of_dom|set_solver].
  - intros i Hi HiX. apply elem_of_dom in Hi. rewrite remove_many_info, decide_True in Hi by by apply elem_of_in_order. by destruct Hi.
Qed.

Lemma affected_accounts {E} s a : rep s a → ∃ r X,
  collect_affected (E := E) (bag_among old <$> new_bags) ∅ ∅ s = (Ok r, s) ∧ collect_affected (E := E) removed_bags r.1 r.2 s = (Ok (affected, X), s) ∧
  ∀ i, i ∈ X ↔ ∃ u sc, info a !! i = Some (u, sc) ∧ u ∈ affected.
Proof.
  intros R. destruct (collect_affected_run (E := E) s a R (bag_among old <$> new_bags) ∅ ∅) as (X1 & Hr1 & HX1); [set_solver|].
  destruct (collect_affected_run (E := E) s a R removed_bags _ X1 HX1) as (X & Hr & HX). rewrite union_empty_r_L in Hr, HX. eexists _, X. split; [exact Hr1|].
  cbn [fst snd]. rewrite union_empty_r_L. split; [exact Hr|]. intros i. rewrite HX. split.
  - intros (u & Hu & [sc Hi]%(bag_list_info _ _ _ R)). by exists u, sc.
  - intros (u & sc & Hi & Hu). exists u. split; [done|]. apply (bag_list_info _ _ _ R). by exists sc.
Qed.

(** No bag outside the thresholds holds an account. *)
Lemma placed_no_bag s a u : rep s a → placed a → u ∉ all_thresholds → ListBags s !! u = None.
Proof.
  intros R Hp Hu. rewrite (rep_ends _ _ _ u R). destruct (bag_list a u) as [|i l] eqn:Hl; [done|]. exfalso. apply Hu.
  assert (Hi : i ∈ bag_list a u) by (rewrite Hl; set_solver). apply (bag_list_info _ _ _ R) in Hi as [sc Hi]. rewrite <- (Hp _ _ _ Hi). apply notional_in_thresholds.
Qed.

(** C20. When the thresholds change, [migrate] moves the accounts of every affected bag to the bag of the score that the provider reports, leaves the
    others and their order, forgets none, and every account is then in the bag of its score under the new thresholds. It does so
    as long as the change does not drop the threshold that is the largest score. *)
Theorem migrate_correct s a score_of : rep s a → placed_by old a → (max_value ∈ old → max_value ∈ BagThresholds) →
  ∃ n s' a', migrate score_of old s = (Ok n, s') ∧ rep s' a' ∧ placed a' ∧ dom (info a') = dom (info a) ∧
    (∀ i u sc, info a !! i = Some (u, sc) → info a' !! i = Some (if decide (u ∈ affected) then (notional_bag_for (score_of i), score_of i) else (u, sc))) ∧
    (∀ u, u ∉ affected → bag_list a u `prefix_of` bag_list a' u).
Proof.
  intros R Hp Hmax. unfold migrate. case_bool_decide as Heq.
  { assert (Hpn : placed a) by (intros i u sc Hi; unfold notional_bag_for; rewrite Heq; by eapply Hp). exists 0, s, a.
    assert (Ha : ∀ u, u ∉ affected).
    { intros u. unfold affected, removed_bags, new_bags. rewrite Heq, elem_of_union, !elem_of_list_to_set, list_elem_of_fmap. setoid_rewrite list_elem_of_filter. naive_solver. }
    do 4 (split; [done|]). split; [|done]. intros i u sc Hi. by rewrite decide_False. }
  destruct (affected_accounts (E := ListError) s a R) as (r & X & Hr1 & Hr2 & HX). fold new_bags removed_bags.
  erewrite bind_run by exact Hr1. erewrite bind_run by exact Hr2. cbn [fst snd].
  assert (HXd : X ⊆ dom (info a)) by (intros i (u & sc & Hi & _)%HX; apply elem_of_dom; eauto).
  destruct (remove_many_ok (E := ListError) (in_order X) s a R) as (s1 & Hrm & R1 & _). erewrite bind_run by exact Hrm.
  pose proof (moved_size X a HXd) as Hsz. pose proof (rep_count_max _ _ _ R) as Hmx. rewrite (size_info _ _ R) in Hmx.
  destruct (insert_many_ok (in_order X) score_of s1 _ 0 R1) as (s2 & Hin & R2 & _); [lia|done|]. erewrite bind_run by exact Hin.
  fold (moved score_of X a) in R2. set (a2 := moved score_of X a) in *.
  assert (Hinfo : ∀ i u sc, info a !! i = Some (u, sc) → info a2 !! i = Some (if decide (u ∈ affected) then (notional_bag_for (score_of i), score_of i) else (u, sc))).
  { intros i u sc Hi. unfold a2. rewrite moved_info by done. destruct (decide (u ∈ affected)) as [Hu|Hu]; [rewrite decide_True by (apply HX; eauto); done|].
    rewrite decide_False; [done|]. intros (u' & sc' & Hi' & Hu')%HX. rewrite Hi in Hi'. by simplify_eq. }
  assert (Hp2 : placed a2).
  { intros i u sc Hi. unfold a2 in Hi. rewrite moved_info in Hi by done. case_decide as HiX; [by simplify_eq|]. pose proof (Hp _ _ _ Hi) as <-. apply unaffected_bag.
    intros Ha. apply HiX, HX. eauto. }
  assert (Hdom : dom (info a2) = dom (info a)).
  { apply set_eq. intros i. rewrite !elem_of_dom. unfold a2. rewrite moved_info by done. case_decide as HiX; [|done]. apply HXd, elem_of_dom in HiX. naive_solver. }
  assert (Hrem : foldl (λ m u, delete u m) (ListBags s2) removed_bags = ListBags s2).
  { apply remove_no_bags. intros u [Hun Huo]%list_elem_of_filter. apply (placed_no_bag s2 a2); [done|done|]. intros [Hx| ->]%elem_of_all_thresholds; auto. }
  eexists _, s2, a2. split; [|split; [done|split; [done|split; [done|split; [done|]]]]].
  - unfold bind. rewrite remove_bags_run. unfold ret, with_bags. rewrite Hrem. by destruct s2.
  - intros u Hu. unfold a2, moved. etrans; [|apply insert_many_appends]. rewrite remove_many_keeps; [done|]. intros i v sc Hi Hv ->. apply elem_of_in_order, HX in Hi as (u' & sc' & Hi & Hu').
    rewrite Hv in Hi. by simplify_eq.
Qed.
End Migrate.

(** ** Witnesses *)

Definition thresholds (l : list Z) : BagsConfig := {|
  BagThresholds := l;
  max_value := umax 64;
  Source := AccountId;
  lookup_source := Some |}.

Definition three_bags : BagsConfig := thresholds [10; 20; 30].
Definition other_bags : BagsConfig := thresholds [5; 20; 40].

Lemma three_bags_laws : BagsLaws three_bags.
Proof. split; repeat constructor; done. Qed.

Lemma other_bags_laws : BagsLaws other_bags.
Proof. split; repeat constructor; done. Qed.

(** The scores of the provider: ten times the account. *)
Definition tenfold (i : AccountId) : Z := 10 * Z.of_N i.

Definition sample_ops : list (@BagsOp three_bags) :=
  [OnInsert 1%N 7; OnInsert 2%N 8; OnInsert 3%N 15; OnInsert 4%N 100; OnInsert 2%N 9; OnUpdate 1%N 3; @PutInFrontOf three_bags tenfold (Signed 2%N) 1%N;
   @Rebag three_bags tenfold (Signed 9%N) 3%N; OnInsert 5%N 1; OnRemove 2%N; OnRemove 6%N].

Definition sample_list : ListStore := (run_code sample_ops empty_list).2.
Definition sample_lists : Lists := (run_spec sample_ops no_lists).2.

Lemma sample_fits : fits sample_ops no_lists.
Proof. vm_compute. repeat split; discriminate. Qed.

Example sample_order :
  (run_code sample_ops empty_list).1 = [Ok 0; Ok 0; Ok 0; Ok 0; Err (Module_ (BagsListE Duplicate)); Ok 0; Ok 0; Ok 0; Ok 0; Ok 0; Err (Module_ (BagsListE NodeNotFound))] ∧
  (@provider_iter three_bags ListError sample_list).1 = Ok [4; 3; 1; 5]%N ∧
  (@provider_iter_from three_bags 3%N sample_list).1 = Ok [1; 5]%N.
Proof. vm_compute. done. Qed.

Lemma bags_refine_lists_witness :
  ∃ s, run_code sample_ops empty_list = ((run_spec sample_ops no_lists).1, s) ∧ rep s (run_spec sample_ops no_lists).2.
Proof. exact (bags_refine_lists sample_ops sample_fits). Defined.

Lemma iteration_ordered_witness :
  ∃ rs s ns, run_code sample_ops empty_list = (rs, s) ∧ @list_iter three_bags ListError s = (Ok ns, s) ∧ StronglySorted before ns.
Proof.
  destruct (@iteration_ordered three_bags three_bags_laws sample_ops sample_fits) as (rs & s & ns & Hr & Hi & _ & _ & Hs & _).
  exact (ex_intro _ rs (ex_intro _ s (ex_intro _ ns (conj Hr (conj Hi Hs))))).
Defined.

Lemma try_state_witness : ∃ rs s, run_code sample_ops empty_list = (rs, s) ∧ @list_try_state three_bags s = (Ok tt, s).
Proof. exact (@try_state_holds three_bags three_bags_laws sample_ops sample_fits). Defined.

Lemma sample_rep : rep sample_list sample_lists.
Proof.
  destruct (run_refines sample_ops empty_list no_lists empty_rep sample_fits) as (s & Hr & R). unfold sample_list. rewrite Hr. exact R.
Qed.

Lemma migrate_correct_witness :
  ∃ n s' a', @migrate other_bags tenfold [10; 20; 30] sample_list = (Ok n, s') ∧ rep s' a' ∧ @placed other_bags a' ∧ dom (info a') = dom (info sample_lists).
Proof.
  destruct (@migrate_correct other_bags other_bags_laws [10; 20; 30] (thresholds_increase (BagsLaws := three_bags_laws)) sample_list sample_lists tenfold sample_rep
    (@placed_run three_bags sample_ops no_lists placed_nothing)) as (n & s' & a' & Hm & R & Hp & Hd & _).
  - intros Hin. exfalso. revert Hin. apply (bool_decide_unpack (¬ (umax 64 ∈ [10; 20; 30]))). vm_compute. exact I.
  - exact (ex_intro _ n (ex_intro _ s' (ex_intro _ a' (conj Hm (conj R (conj Hp Hd)))))).
Defined.

(** The thresholds [[10, u64::MAX]] and [[10]] put every score into the same bag.  A migration from the first to the second
    deletes the last bag after it has put its accounts back into it: they stay in storage, and in no list. *)
Example migrate_drops_last_bag :
  let s := (@run_code (thresholds [10; umax 64]) [OnInsert 1%N 5; OnInsert 2%N 20] empty_list).2 in
  let s' := (@migrate (thresholds [10]) (λ _, 20) [10; umax 64] s).2 in
  (@provider_iter (thresholds [10; umax 64]) ListError s).1 = Ok [2; 1]%N ∧
  (@provider_iter (thresholds [10]) ListError s').1 = Ok [1]%N ∧
  contains 2%N s' = true ∧ provider_count s' = 2 ∧
  (@list_try_state (thresholds [10]) s').1 = Err "iter_count != stored_count".
Proof. vm_compute. done. Qed.
