(* ===== verification/ForkTree.v ===== *)
(** Trees of blocks with finalization and pruning ([utils/fork-tree/src/lib.rs]), which the consensus crates use
    to track the epochs and the authority changes of competing branches.  The theorems are in
    [ForkTreeProps], [ForkTreeFind] and [ForkTreeFinalize].

    The tree is the state of the monad, so that an operation that fails leaves what it has written so far.  The
    question whether a block descends from another is put to the client, [is_descendent_of], and can fail.  The
    loops over a stack or a queue of nodes take the number of the nodes as fuel, which is enough; running
    out of it, and an index out of range, are [Panic]. *)

From S2P Require Import Prelude.

(** ** Data *)

Inductive Node {H V : Type} := mkNode (hash : H) (number : Z) (data : V) (children : list Node).
Arguments Node : clear implicits.

Inductive TreeError {E : Type} := DuplicateHash | UnfinalizedAncestor | Revert | Client (e : E).
Arguments TreeError : clear implicits.

Inductive FinalizationResult {V : Type} := Changed (data : option V) | Unchanged.
Arguments FinalizationResult : clear implicits.

Inductive FilterAction := RemoveNode | KeepNode | KeepTree.

Record ForkTree {H V : Type} := mkTree { roots : list (Node H V); best_finalized_number : option Z }.
Arguments ForkTree : clear implicits.
Arguments mkTree {H V}.

Definition n_hash {H V} (n : Node H V) : H := let '(mkNode h _ _ _) := n in h.
Definition n_number {H V} (n : Node H V) : Z := let '(mkNode _ x _ _) := n in x.
Definition n_data {H V} (n : Node H V) : V := let '(mkNode _ _ d _) := n in d.
Definition n_children {H V} (n : Node H V) : list (Node H V) := let '(mkNode _ _ _ cs) := n in cs.
Definition n_item {H V} (n : Node H V) : H * Z * V := (n_hash n, n_number n, n_data n).

(** The number of the nodes of a tree. *)
Fixpoint n_size {H V} (n : Node H V) : nat := let '(mkNode _ _ _ cs) := n in S (sum_list_with n_size cs).

Definition with_children {H V} (cs : list (Node H V)) (n : Node H V) : Node H V := let '(mkNode h x d _) := n in mkNode h x d cs.
Definition push_child {H V} (c n : Node H V) : Node H V := let '(mkNode h x d cs) := n in mkNode h x d (cs ++ [c]).

Module Tree.
Section Ops.
Context {H V E : Type} `{EqDecision H}.
Local Open Scope rust_scope.

Abbreviation N := (Node H V).
Abbreviation T := (M (ForkTree H V) (TreeError E)).

Implicit Types (is_descendent_of : H → H → bool + E).

Definition query is_descendent_of (base target : H) : T bool :=
  match is_descendent_of base target with inl b => ret b | inr e => throw (Client e) end.

Definition new : ForkTree H V := mkTree [] None.

Definition set_roots (rs : list N) : T unit := modify (λ t, mkTree rs (best_finalized_number t)).
Definition set_best (number : Z) : T unit := modify (λ t, mkTree (roots t) (Some number)).

(** ** Depth and order *)

(** The stack has its top first. *)
Fixpoint max_depth_loop (fuel : nat) (stack : list (N * nat)) (max : nat) : nat :=
  match fuel with
  | O => max
  | S fuel =>
      match stack with
      | [] => max
      | (node, height) :: stack =>
          let max := if (max <? height)%nat then height else max in
          max_depth_loop fuel (reverse ((λ n, (n, S height)) <$> n_children node) ++ stack) max
      end
  end.

Definition max_depth (self : N) : nat := max_depth_loop (n_size self) [(self, 0%nat)] 0.

(** [sort_by_key(|n| Reverse(n.max_depth()))], a stable sort. *)
Fixpoint insert_by_depth (x : N) (l : list N) : list N :=
  match l with
  | [] => [x]
  | y :: l => if (max_depth y <=? max_depth x)%nat then x :: y :: l else y :: insert_by_depth x l
  end.

Definition sort_by_depth (l : list N) : list N := foldr insert_by_depth [] l.

(** The stack of mutable references visits every node once and sorts its children; that this is done before their
    own children are sorted makes no difference ([rebalance_node_eq]). *)
Fixpoint rebalance_node (n : N) : N := let '(mkNode h x d cs) := n in mkNode h x d (sort_by_depth (rebalance_node <$> cs)).

Definition rebalance : T unit := modify (λ t, mkTree (rebalance_node <$> sort_by_depth (roots t)) (best_finalized_number t)).

(** ** Iterators *)

(** [ForkTreeIterator], run to its end. *)
Fixpoint iter_loop (fuel : nat) (stack : list N) : list N :=
  match fuel, stack with
  | S fuel, node :: stack => node :: iter_loop fuel (n_children node ++ stack)
  | _, _ => []
  end.

Definition forest_size (l : list N) : nat := sum_list_with n_size l.

Definition node_iter (t : ForkTree H V) : list N := iter_loop (forest_size (roots t)) (roots t).
Definition tree_iter (t : ForkTree H V) : list (H * Z * V) := n_item <$> node_iter t.
Definition tree_roots (t : ForkTree H V) : list (H * Z * V) := n_item <$> roots t.

(** [RemovedIterator], run to its end; the last node of the vector comes first. *)
Definition removed_iter (stack : list N) : list (H * Z * V) := n_item <$> iter_loop (forest_size stack) (reverse stack).

(** ** Searching *)

(** The loop over the stack of nodes and the next child of each, for one root.  The result is whether a node was found,
    whether one of the nodes is an ancestor, and the stack. *)
Fixpoint search_loop (fuel : nat) (hash : H) (number : Z) is_descendent_of (predicate : V → bool) (is_descendent : bool) (stack : list (N * nat))
    : T (bool * bool * list (N * nat)) :=
  match stack with
  | [] => ret (false, is_descendent, [])
  | (node, i) :: stack =>
      match fuel with
      | O => panic
      | S fuel =>
          match n_children node !! i, is_descendent with
          | Some child, false =>
              let stack := (node, S i) :: stack in
              search_loop fuel hash number is_descendent_of predicate is_descendent (if n_number child <? number then (child, 0%nat) :: stack else stack)
          | _, _ =>
              let! d := if is_descendent then ret true else query is_descendent_of (n_hash node) hash in
              if d then
                if predicate (n_data node) then ret (true, true, stack)
                else search_loop fuel hash number is_descendent_of predicate true stack
              else search_loop fuel hash number is_descendent_of predicate is_descendent stack
          end
      end
  end.

Fixpoint search_roots (rs : list N) (root_idx : nat) (hash : H) (number : Z) is_descendent_of (predicate : V → bool) : T (option (list nat)) :=
  match rs with
  | [] => ret None
  | root :: rs =>
      if number <=? n_number root then search_roots rs (S root_idx) hash number is_descendent_of predicate
      else
        let! r := search_loop (2 * n_size root) hash number is_descendent_of predicate false [(root, 0%nat)] in
        let '(found, is_descendent, stack) := r in
        if is_descendent then
          ret (if found then Some (root_idx :: reverse ((λ x : N * nat, (x.2 - 1)%nat) <$> stack)) else None)
        else search_roots rs (S root_idx) hash number is_descendent_of predicate
  end.

Definition find_node_index_where (hash : H) (number : Z) is_descendent_of (predicate : V → bool) : T (option (list nat)) :=
  let! t := gets id in search_roots (roots t) 0 hash number is_descendent_of predicate.

(** The node at a path of indices. *)
Fixpoint node_at (path : list nat) (l : list N) : option N :=
  match path with
  | [] => None
  | [i] => l !! i
  | i :: path => l !! i ≫= λ n, node_at path (n_children n)
  end.

(** The list with [f] done on the node at the path. *)
Fixpoint alter_at (path : list nat) (f : N → N) (l : list N) : list N :=
  match path with
  | [] => l
  | [i] => alter f i l
  | i :: path => alter (λ n, with_children (alter_at path f (n_children n)) n) i l
  end.

Definition find_node_where (hash : H) (number : Z) is_descendent_of (predicate : V → bool) : T (option N) :=
  let! path := find_node_index_where hash number is_descendent_of predicate in
  match path with
  | None => ret None
  | Some path => let! t := gets id in let! n := unwrap (node_at path (roots t)) in ret (Some n)
  end.

(** ** Importing *)

Definition check_number (number : Z) : T unit :=
  let! t := gets id in
  ensure (match best_finalized_number t with Some best => negb (number <=? best) | None => true end) Revert.

Definition import (hash : H) (number : Z) (data : V) is_descendent_of : T bool :=
  do! check_number number in
  let! path := find_node_index_where hash number is_descendent_of (λ _, true) in
  let! t := gets id in
  let! children := match path with Some path => let! n := unwrap (node_at path (roots t)) in ret (n_children n) | None => ret (roots t) end in
  do! ensure (negb (existsb (λ elem, bool_decide (n_hash elem = hash)) children)) DuplicateHash in
  let node := mkNode hash number data [] in
  do! set_roots (match path with Some path => alter_at path (push_child node) (roots t) | None => roots t ++ [node] end) in
  do! (if bool_decide (length children = 0%nat) then rebalance else ret tt) in
  ret (match path with Some _ => false | None => true end).

(** ** Pruning *)

(** [Vec::remove] *)
Definition vec_remove (i : nat) (l : list N) : list N := take i l ++ drop (S i) l.

(** The loop over the children of the new root: those that stay and those that are removed. *)
Fixpoint prune_children (cs : list N) (hash : H) (number : Z) is_descendent_of (is_first : bool) (kept removed : list N) : T (list N * list N) :=
  match cs with
  | [] => ret (kept, removed)
  | child :: cs =>
      let! b :=
        if is_first then
          if (n_number child =? number) && bool_decide (n_hash child = hash) then ret true
          else if n_number child <? number then query is_descendent_of (n_hash child) hash else ret false
        else ret false in
      if b then prune_children cs hash number is_descendent_of false (kept ++ [child]) removed
      else prune_children cs hash number is_descendent_of is_first kept (removed ++ [child])
  end.

(** The forest without the node at the path. *)
Fixpoint remove_at (path : list nat) (l : list N) : list N :=
  match path with
  | [] => l
  | [i] => vec_remove i l
  | i :: path => alter (λ n, with_children (remove_at path (n_children n)) n) i l
  end.

Definition prune (hash : H) (number : Z) is_descendent_of (predicate : V → bool) : T (list (H * Z * V)) :=
  let! path := find_node_index_where hash number is_descendent_of predicate in
  match path with
  | None => ret (removed_iter [])
  | Some path =>
      let! t := gets id in
      do! set_roots [] in
      let! root := unwrap (node_at path (roots t)) in
      let! r := prune_children (n_children root) hash number is_descendent_of true [] (remove_at path (roots t)) in
      do! set_roots [with_children r.1 root] in
      do! rebalance in
      ret (removed_iter r.2)
  end.

(** ** Finalizing *)

(** [Vec::swap_remove]: the last element takes the place. *)
Definition swap_remove (i : nat) (l : list N) : list N :=
  match last l with
  | Some x => if bool_decide (S i = length l) then take i l else take i l ++ x :: take (length l - S i - 1) (drop (S i) l)
  | None => l
  end.

Fixpoint position (hash : H) (l : list N) : option nat :=
  match l with [] => None | n :: l => if bool_decide (n_hash n = hash) then Some 0%nat else S <$> position hash l end.

Definition finalize_root_at (i : nat) : T V :=
  let! t := gets id in
  let! node := unwrap (roots t !! i) in
  do! set_roots (n_children node) in
  do! set_best (n_number node) in
  ret (n_data node).

Definition finalize_root (hash : H) : T (option V) :=
  let! t := gets id in
  match position hash (roots t) with
  | Some i => let! d := finalize_root_at i in ret (Some d)
  | None => ret None
  end.

Fixpoint no_ancestor (rs : list N) (hash : H) (number : Z) is_descendent_of : T unit :=
  match rs with
  | [] => ret tt
  | root :: rs =>
      let! b := if n_number root <? number then query is_descendent_of (n_hash root) hash else ret false in
      if b then throw UnfinalizedAncestor else no_ancestor rs hash number is_descendent_of
  end.

(** [self.roots.push(root)] for those that [keep] says. *)
Fixpoint retain_roots (rs : list N) (keep : N → T bool) (changed : bool) : T bool :=
  match rs with
  | [] => ret changed
  | root :: rs =>
      let! b := keep root in
      if b then
        let! t := gets id in
        do! set_roots (roots t ++ [root]) in
        retain_roots rs keep changed
      else retain_roots rs keep true
  end.

Definition is_descendant (hash : H) (number : Z) is_descendent_of (root : N) : T bool :=
  if number <? n_number root then query is_descendent_of hash (n_hash root) else ret false.

Definition result_of (changed : bool) : FinalizationResult V := if changed then Changed None else Unchanged.

Definition finalize (hash : H) (number : Z) is_descendent_of : T (FinalizationResult V) :=
  do! check_number number in
  let! r := finalize_root hash in
  match r with
  | Some root => ret (Changed (Some root))
  | None =>
      let! t := gets id in
      do! no_ancestor (roots t) hash number is_descendent_of in
      do! set_roots [] in
      let! changed := retain_roots (roots t) (is_descendant hash number is_descendent_of) false in
      do! set_best number in
      ret (result_of changed)
  end.

(** The loop of [finalize_with_ancestors]; [Some] is the data of the finalized root. *)
Fixpoint open_loop (fuel : nat) (idx : nat) (hash : H) (number : Z) is_descendent_of (changed : bool) : T (option V * bool) :=
  let! t := gets id in
  match roots t !! idx with
  | None => ret (None, changed)
  | Some root =>
      match fuel with
      | O => panic
      | S fuel =>
          if bool_decide (n_hash root = hash) then let! d := finalize_root_at idx in ret (Some d, true)
          else
            let! is_desc := is_descendant hash number is_descendent_of root in
            if is_desc then open_loop fuel (S idx) hash number is_descendent_of changed
            else
              let! is_ancestor := if n_number root <? number then query is_descendent_of (n_hash root) hash else ret false in
              do! set_roots (swap_remove idx (roots t) ++ (if is_ancestor then n_children root else [])) in
              open_loop fuel idx hash number is_descendent_of true
      end
  end.

Definition finalize_with_ancestors (hash : H) (number : Z) is_descendent_of : T (FinalizationResult V) :=
  do! check_number number in
  let! r := finalize_root hash in
  match r with
  | Some root => ret (Changed (Some root))
  | None =>
      let! t := gets id in
      let! r := open_loop (forest_size (roots t)) 0 hash number is_descendent_of false in
      match r.1 with
      | Some data => ret (Changed (Some data))
      | None => do! set_best number in ret (result_of r.2)
      end
  end.

(** The node itself, or one of its ancestors. *)
Definition at_or_below (hash : H) is_descendent_of (node : N) : T bool :=
  if bool_decide (n_hash node = hash) then ret true else query is_descendent_of (n_hash node) hash.

Fixpoint not_past (cs : list N) (hash : H) (number : Z) is_descendent_of : T unit :=
  match cs with
  | [] => ret tt
  | child :: cs =>
      let! b := if n_number child <=? number then at_or_below hash is_descendent_of child else ret false in
      if b then throw UnfinalizedAncestor else not_past cs hash number is_descendent_of
  end.

(** The first node that passes the predicate and is finalized with [hash], and its position. *)
Fixpoint first_finalized (ns : list N) (i : nat) (hash : H) (number : Z) is_descendent_of (predicate : V → bool) : T (option (nat * N)) :=
  match ns with
  | [] => ret None
  | node :: ns =>
      let! b := if predicate (n_data node) then at_or_below hash is_descendent_of node else ret false in
      if b then
        do! not_past (n_children node) hash number is_descendent_of in
        ret (Some (i, node))
      else first_finalized ns (S i) hash number is_descendent_of predicate
  end.

Definition finalizes_any_with_descendent_if (hash : H) (number : Z) is_descendent_of (predicate : V → bool) : T (option bool) :=
  do! check_number number in
  let! t := gets id in
  let! r := first_finalized (node_iter t) 0 hash number is_descendent_of predicate in
  ret ((λ x : nat * N, existsb (λ root, bool_decide (n_hash root = n_hash x.2)) (roots t)) <$> r).

Definition finalize_with_descendent_if (hash : H) (number : Z) is_descendent_of (predicate : V → bool) : T (FinalizationResult V) :=
  do! check_number number in
  let! t := gets id in
  let! r := first_finalized (roots t) 0 hash number is_descendent_of predicate in
  let! node_data := match r with Some (i, _) => let! d := finalize_root_at i in ret (Some d) | None => ret None end in
  let! t := gets id in
  do! set_roots [] in
  let! changed := retain_roots (roots t) (λ root,
    let! d := is_descendant hash number is_descendent_of root in
    if d then ret true
    else if (n_number root =? number) && bool_decide (n_hash root = hash) then ret true
    else query is_descendent_of (n_hash root) hash) false in
  do! set_best number in
  ret (match node_data with Some data => Changed (Some data) | None => result_of changed end).
End Ops.

(** ** Rebuilding the tree level by level *)

Section Levels.
Context {H V W : Type}.

(** What is done with a node: the node that takes its place and the children to go on with, or it is left out. *)
Context (visit : Node H V → option (Node H W * list (Node H V))).

(** [for (parent, node) in queue.drain(..)].  A parent that is [usize::MAX] is [None]. *)
Fixpoint visit_level (queue : list (option nat * Node H V)) (output : list (option nat * Node H W)) (next_queue : list (option nat * Node H V)) (removed : list (Node H V))
    : list (option nat * Node H W) * list (option nat * Node H V) * list (Node H V) :=
  match queue with
  | [] => (output, next_queue, removed)
  | (parent, node) :: queue =>
      match visit node with
      | Some (new_node, children) =>
          visit_level queue (output ++ [(parent, new_node)]) (next_queue ++ ((λ c, (Some (length output), c)) <$> reverse children)) removed
      | None => visit_level queue output next_queue (removed ++ [node])
      end
  end.

Fixpoint visit_levels (fuel : nat) (queue : list (option nat * Node H V)) (output : list (option nat * Node H W)) (removed : list (Node H V))
    : option (list (option nat * Node H W) * list (Node H V)) :=
  match queue, fuel with
  | [], _ => Some (output, removed)
  | _, O => None
  | _, S fuel => let '(output, next_queue, removed) := visit_level queue output [] removed in visit_levels fuel next_queue output removed
  end.

(** [while let Some((parent_index, new_node)) = output.pop()] *)
Fixpoint reassemble (n : nat) (output : list (option nat * Node H W)) (rs : list (Node H W)) : option (list (Node H W)) :=
  match n with
  | O => Some rs
  | S n =>
      match output !! n with
      | None => None
      | Some (None, new_node) => reassemble n (take n output) (rs ++ [new_node])
      | Some (Some parent_index, new_node) =>
          match take n output !! parent_index with
          | None => None
          | Some (p, node) => reassemble n (<[parent_index := (p, push_child new_node node)]> (take n output)) rs
          end
      end
  end.

Definition rebuild (rs : list (Node H V)) : option (list (Node H W) * list (Node H V)) :=
  match visit_levels (sum_list_with n_size rs) ((λ n, (None, n)) <$> reverse rs) [] [] with
  | None => None
  | Some (output, removed) => (λ rs, (rs, removed)) <$> reassemble (length output) output []
  end.
End Levels.

Definition tree_map {H V W} (f : H → Z → V → W) (self : ForkTree H V) : option (ForkTree H W) :=
  (λ r, mkTree r.1 (best_finalized_number self)) <$>
    rebuild (λ n, Some (mkNode (n_hash n) (n_number n) (f (n_hash n) (n_number n) (n_data n)) [], n_children n)) (roots self).

Definition filter_node {H V} (filter : H → Z → V → FilterAction) (n : Node H V) : option (Node H V * list (Node H V)) :=
  match filter (n_hash n) (n_number n) (n_data n) with
  | KeepNode => Some (with_children [] n, n_children n)
  | KeepTree => Some (n, [])
  | RemoveNode => None
  end.

Definition drain_filter {H V E} (filter : H → Z → V → FilterAction) : M (ForkTree H V) (TreeError E) (list (H * Z * V)) := λ t,
  match rebuild (filter_node filter) (roots t) with
  | None => (Panic, t)
  | Some (rs, removed) =>
      let t := mkTree rs (best_finalized_number t) in
      (Ok (removed_iter removed), match removed with [] => t | _ => (rebalance (E := E) t).2 end)
  end.
End Tree.
