(* ===== verification/ForkTreeProps.v ===== *)
(** The shape of the fork tree: the iterators go through every node once, the depth a loop computes is the depth of
    the tree, sorting by depth permutes the branches, and rebuilding the tree level by level is the recursion over it. *)

From S2P Require Import Prelude ForkTree.

Section Shape.
Context {H V : Type}.
Implicit Types (n c : Node H V) (l cs rs : list (Node H V)).

Lemma Node_rect_list (P : Node H V → Prop) : (∀ h x d cs, Forall P cs → P (mkNode h x d cs)) → ∀ n, P n.
Proof.
  intros HP. fix IH 1. intros [h x d cs]. apply HP. induction cs as [|c cs IHcs]; constructor; [apply IH|apply IHcs].
Qed.

(** The nodes of a tree in pre-order. *)
Fixpoint flatten (n : Node H V) : list (Node H V) := n :: (let '(mkNode _ _ _ cs) := n in mbind flatten cs).

Lemma flatten_eq n : flatten n = n :: (n_children n ≫= flatten).
Proof. by destruct n. Qed.

Lemma n_size_eq n : n_size n = S (Tree.forest_size (n_children n)).
Proof. by destruct n. Qed.

Lemma forest_size_app l1 l2 : Tree.forest_size (l1 ++ l2) = (Tree.forest_size l1 + Tree.forest_size l2)%nat.
Proof. induction l1 as [|n l1 IH]; [done|]. unfold Tree.forest_size in *. cbn. lia. Qed.

Lemma forest_size_perm l1 l2 : l1 ≡ₚ l2 → Tree.forest_size l1 = Tree.forest_size l2.
Proof. unfold Tree.forest_size. induction 1; cbn; lia. Qed.

Lemma forest_size_cons n l : Tree.forest_size (n :: l) = (n_size n + Tree.forest_size l)%nat.
Proof. done. Qed.

Lemma iter_loop_flatten fuel l : (Tree.forest_size l ≤ fuel)%nat → Tree.iter_loop fuel l = l ≫= flatten.
Proof.
  revert l. induction fuel as [|fuel IH]; intros [|n l]; rewrite ?forest_size_cons, ?n_size_eq; intros Hf; try done; try lia.
  cbn [Tree.iter_loop]. rewrite IH by (rewrite forest_size_app; lia).
  rewrite bind_app. cbn [mbind list_bind]. by rewrite flatten_eq.
Qed.

(** The iterator of the tree gives its nodes in pre-order, every one once. *)
Lemma node_iter_flatten (t : ForkTree H V) : Tree.node_iter t = roots t ≫= flatten.
Proof. by apply iter_loop_flatten. Qed.

Lemma forest_size_length l : length (l ≫= flatten) = Tree.forest_size l.
Proof.
  assert (Hn : ∀ n, length (flatten n) = n_size n).
  { intros n. induction n as [h x d cs IH] using Node_rect_list. rewrite flatten_eq, n_size_eq. cbn [length n_children]. f_equal.
    induction IH as [|c cs Hc _ IHcs]; [done|]. rewrite forest_size_cons, <- IHcs, <- Hc. cbn [mbind list_bind]. by rewrite length_app. }
  induction l as [|n l IH]; [done|]. rewrite forest_size_cons, <- IH, <- Hn. cbn. by rewrite length_app.
Qed.

Lemma removed_iter_perm l : Tree.removed_iter l ≡ₚ n_item <$> (l ≫= flatten).
Proof.
  unfold Tree.removed_iter. rewrite iter_loop_flatten by (by rewrite (forest_size_perm (reverse l) l) by apply reverse_Permutation).
  by rewrite reverse_Permutation.
Qed.

(** ** Depth *)

Fixpoint depth (n : Node H V) : nat := let '(mkNode _ _ _ cs) := n in max_list_with (λ c, S (depth c)) cs.

Lemma depth_eq n : depth n = max_list_with (λ c, S (depth c)) (n_children n).
Proof. by destruct n. Qed.

Lemma max_list_with_app {A} (f : A → nat) (l1 l2 : list A) : max_list_with f (l1 ++ l2) = (max_list_with f l1 `max` max_list_with f l2)%nat.
Proof. induction l1 as [|x l1 IH]; cbn; lia. Qed.

Lemma max_list_with_perm {A} (f : A → nat) (l1 l2 : list A) : l1 ≡ₚ l2 → max_list_with f l1 = max_list_with f l2.
Proof. induction 1; cbn; lia. Qed.

Lemma max_list_with_map {A B} (f : B → nat) (g : A → B) (l : list A) : max_list_with f (g <$> l) = max_list_with (λ x, f (g x)) l.
Proof. induction l as [|x l IH]; cbn; congruence. Qed.

Lemma max_list_with_add cs (k : nat) :
  (k `max` max_list_with (λ c, (S k + depth c)%nat) cs = k + max_list_with (λ c, S (depth c)) cs)%nat.
Proof. induction cs as [|c cs IH]; cbn in *; lia. Qed.

Lemma stack_size_children cs (k : nat) : sum_list_with (λ x : Node H V * nat, n_size x.1) ((λ n, (n, k)) <$> cs) = Tree.forest_size cs.
Proof. induction cs as [|c cs IH]; [done|]. rewrite forest_size_cons, <- IH. done. Qed.

Lemma sum_list_with_app' {A} (f : A → nat) (l1 l2 : list A) : sum_list_with f (l1 ++ l2) = (sum_list_with f l1 + sum_list_with f l2)%nat.
Proof. induction l1 as [|x l1 IH]; cbn; lia. Qed.

Lemma max_depth_loop_spec fuel (stack : list (Node H V * nat)) (max : nat) : (sum_list_with (λ x, n_size x.1) stack ≤ fuel)%nat →
  Tree.max_depth_loop fuel stack max = (max `max` max_list_with (λ x, (x.2 + depth x.1)%nat) stack)%nat.
Proof.
  revert stack max. induction fuel as [|fuel IH]; intros [|[n k] stack] max; cbn [sum_list_with fst snd]; rewrite ?n_size_eq; intros Hf; cbn [Tree.max_depth_loop max_list_with fst snd]; try lia.
  rewrite <- fmap_reverse. rewrite IH.
  - rewrite max_list_with_app, max_list_with_map. cbn [fst snd].
    rewrite (max_list_with_perm _ (reverse (n_children n)) (n_children n)) by apply reverse_Permutation.
    pose proof (max_list_with_add (n_children n) k) as Ha. rewrite (depth_eq n). cbn [Nat.add] in *. destruct (Nat.ltb_spec max k); lia.
  - rewrite sum_list_with_app', stack_size_children.
    rewrite (forest_size_perm (reverse (n_children n)) (n_children n)) by apply reverse_Permutation. lia.
Qed.

Lemma max_depth_depth n : Tree.max_depth n = depth n.
Proof. unfold Tree.max_depth. rewrite max_depth_loop_spec; cbn; lia. Qed.

(** ** Sorting by depth *)

Definition deeper n c : Prop := (depth c ≤ depth n)%nat.

Lemma insert_by_depth_perm n l : Tree.insert_by_depth n l ≡ₚ n :: l.
Proof. induction l as [|c l IH]; [done|]. cbn. case_match; [done|]. rewrite IH. apply Permutation_swap. Qed.

Lemma sort_by_depth_cons n l : Tree.sort_by_depth (n :: l) = Tree.insert_by_depth n (Tree.sort_by_depth l).
Proof. done. Qed.

Lemma sort_by_depth_perm l : Tree.sort_by_depth l ≡ₚ l.
Proof. induction l as [|n l IH]; [done|]. by rewrite sort_by_depth_cons, insert_by_depth_perm, IH. Qed.

Lemma insert_by_depth_sorted n l : StronglySorted deeper l → StronglySorted deeper (Tree.insert_by_depth n l).
Proof.
  induction 1 as [|c l Hs IH Hc]; cbn; [by repeat constructor|]. rewrite !max_depth_depth.
  destruct (Nat.leb_spec (depth c) (depth n)).
  - constructor; [by constructor|]. constructor; [done|]. eapply Forall_impl; [exact Hc|]. unfold deeper. intros; cbn in *. lia.
  - constructor; [done|]. rewrite insert_by_depth_perm. constructor; [unfold deeper; lia|done].
Qed.

Lemma sort_by_depth_sorted l : StronglySorted deeper (Tree.sort_by_depth l).
Proof. induction l; [constructor|]. by apply insert_by_depth_sorted. Qed.

Lemma sort_by_depth_id l : StronglySorted deeper l → Tree.sort_by_depth l = l.
Proof.
  induction 1 as [|n l Hs IH Hn]; [done|]. rewrite sort_by_depth_cons, IH. destruct Hn as [|c l Hc]; [done|]. cbn [Tree.insert_by_depth]. rewrite !max_depth_depth.
  by rewrite (proj2 (Nat.leb_le _ _)).
Qed.

Lemma rebalance_node_eq' n : Tree.rebalance_node n = with_children (Tree.sort_by_depth (Tree.rebalance_node <$> n_children n)) n.
Proof. by destruct n. Qed.

Lemma rebalance_node_depth n : depth (Tree.rebalance_node n) = depth n.
Proof.
  induction n as [h x d cs IH] using Node_rect_list. rewrite rebalance_node_eq', !depth_eq. cbn [with_children n_children].
  rewrite (max_list_with_perm _ _ _ (sort_by_depth_perm _)), max_list_with_map.
  induction IH as [|c cs Hc _ IHcs]; [done|]. cbn. by rewrite Hc, IHcs.
Qed.

Lemma insert_by_depth_map n l : Tree.insert_by_depth (Tree.rebalance_node n) (Tree.rebalance_node <$> l) = Tree.rebalance_node <$> Tree.insert_by_depth n l.
Proof.
  induction l as [|c l IH]; [done|]. cbn. rewrite !max_depth_depth, !rebalance_node_depth. case_match; [done|]. cbn. by rewrite IH.
Qed.

Lemma sort_by_depth_map l : Tree.sort_by_depth (Tree.rebalance_node <$> l) = Tree.rebalance_node <$> Tree.sort_by_depth l.
Proof. induction l as [|n l IH]; [done|]. rewrite fmap_cons, !sort_by_depth_cons. by rewrite IH, insert_by_depth_map. Qed.

(** Sorting the children before the children of the children, as the loop does, comes to the same. *)
Lemma rebalance_node_eq h x (d : V) cs :
  Tree.rebalance_node (mkNode h x d cs) = mkNode h x d (Tree.rebalance_node <$> Tree.sort_by_depth cs).
Proof. cbn. by rewrite sort_by_depth_map. Qed.

(** The nodes of a forest, with what is at them. *)
Definition items l : list (H * Z * V) := n_item <$> (l ≫= flatten).

Lemma items_app l1 l2 : items (l1 ++ l2) = items l1 ++ items l2.
Proof. unfold items. by rewrite bind_app, fmap_app. Qed.

Lemma items_cons n l : items (n :: l) = n_item n :: items (n_children n) ++ items l.
Proof. unfold items. cbn [mbind list_bind]. rewrite flatten_eq, fmap_app. done. Qed.

Lemma items_perm l1 l2 : l1 ≡ₚ l2 → items l1 ≡ₚ items l2.
Proof. intros Hp. unfold items. by rewrite Hp. Qed.

#[global] Instance items_proper : Proper ((≡ₚ) ==> (≡ₚ)) items.
Proof. intros l1 l2. apply items_perm. Qed.

Lemma items_map_node (f : Node H V → Node H V) l : (∀ n, n ∈ l → items [f n] ≡ₚ items [n]) → items (f <$> l) ≡ₚ items l.
Proof.
  induction l as [|n l IH]; intros Hf; [done|]. cbn [fmap list_fmap].
  rewrite (items_app [f n] (f <$> l) : items (f n :: (f <$> l)) = _), (items_app [n] l : items (n :: l) = _).
  rewrite Hf by left. rewrite IH; [done|]. intros m Hm. apply Hf. by right.
Qed.

Lemma n_item_with_children n cs : n_item (with_children cs n) = n_item n.
Proof. by destruct n. Qed.

Lemma n_children_with_children n cs : n_children (with_children cs n) = cs.
Proof. by destruct n. Qed.

Lemma rebalance_node_items n : items [Tree.rebalance_node n] ≡ₚ items [n].
Proof.
  induction n as [h x d cs IH] using Node_rect_list. rewrite rebalance_node_eq', !items_cons, n_item_with_children, n_children_with_children. cbn [n_children].
  rewrite sort_by_depth_perm, items_map_node; [done|]. rewrite Forall_forall in IH. apply IH.
Qed.

Lemma rebalance_items l : items (Tree.rebalance_node <$> Tree.sort_by_depth l) ≡ₚ items l.
Proof. rewrite items_map_node by (intros; apply rebalance_node_items). by rewrite sort_by_depth_perm. Qed.

(** The branches of every node are in the order of their depth, the deepest first. *)
Inductive balanced : Node H V → Prop :=
  | balanced_node h x d cs : StronglySorted deeper cs → Forall balanced cs → balanced (mkNode h x d cs).

Definition balanced_forest l : Prop := StronglySorted deeper l ∧ Forall balanced l.

Lemma rebalance_node_balanced n : balanced (Tree.rebalance_node n).
Proof.
  induction n as [h x d cs IH] using Node_rect_list. cbn. constructor; [apply sort_by_depth_sorted|].
  rewrite sort_by_depth_perm, Forall_fmap. apply IH.
Qed.

(** Rebalancing sorts the branches at every level and changes nothing in a forest that is in order. *)
Lemma rebalance_balanced l : balanced_forest (Tree.rebalance_node <$> Tree.sort_by_depth l).
Proof.
  rewrite <- sort_by_depth_map. split; [apply sort_by_depth_sorted|].
  rewrite sort_by_depth_perm, Forall_fmap. apply Forall_true. intros n. apply rebalance_node_balanced.
Qed.

Lemma rebalance_node_id n : balanced n → Tree.rebalance_node n = n.
Proof.
  induction n as [h x d cs IH] using Node_rect_list. inversion 1 as [? ? ? ? Hs Hb]; subst. cbn. f_equal.
  rewrite (Forall_fmap_ext_1 _ id cs), list_fmap_id by (apply Forall_forall; intros c Hc; rewrite Forall_forall in IH, Hb; by apply IH, Hb).
  by apply sort_by_depth_id.
Qed.

Lemma rebalance_id l : balanced_forest l → Tree.rebalance_node <$> Tree.sort_by_depth l = l.
Proof.
  intros [Hs Hb]. rewrite sort_by_depth_id by done.
  rewrite (Forall_fmap_ext_1 _ id l), list_fmap_id; [done|]. eapply Forall_impl; [exact Hb|]. apply rebalance_node_id.
Qed.
End Shape.

(** ** Rebuilding level by level *)

Section Rebuild.
Context {H V W : Type}.
Context (visit : Node H V → option (Node H W * list (Node H V))).
Context (built : Node H V → option (Node H W)) (dropped : Node H V → list (Node H V)).
Hypothesis built_eq : ∀ n, built n = (λ r, with_children (n_children r.1 ++ omap built r.2) r.1) <$> visit n.
Hypothesis dropped_eq : ∀ n, dropped n = match visit n with Some (_, cs) => cs ≫= dropped | None => [n] end.
Hypothesis visit_smaller : ∀ n m cs, visit n = Some (m, cs) → (Tree.forest_size cs < n_size n)%nat.

Implicit Types (q : list (option nat * Node H V)) (out : list (option nat * Node H W)).

Definition run_rebuild out (rs : list (Node H W)) := Tree.reassemble (length out) out rs.

Lemma rebuild_run_root out m rs : run_rebuild (out ++ [(None, m)]) rs = run_rebuild out (rs ++ [m]).
Proof.
  unfold run_rebuild. rewrite length_app, Nat.add_1_r. cbn. by rewrite list_lookup_middle, take_app_length.
Qed.

Lemma rebuild_run_child out k p m c rs : out !! k = Some (p, m) →
  run_rebuild (out ++ [(Some k, c)]) rs = run_rebuild (<[k := (p, push_child c m)]> out) rs.
Proof.
  intros Hk. unfold run_rebuild. rewrite length_app, Nat.add_1_r, length_insert. cbn.
  by rewrite list_lookup_middle, take_app_length, Hk.
Qed.

Lemma with_children_push (c m : Node H W) cs : with_children (n_children (push_child c m) ++ cs) (push_child c m) = with_children (n_children m ++ c :: cs) m.
Proof. destruct m. cbn. by rewrite <- app_assoc. Qed.

(** The children at the end of the output go to their parent, in their order. *)
Lemma rebuild_run_children out1 p m out2 (cs : list (Node H W)) rs :
  run_rebuild ((out1 ++ (p, m) :: out2) ++ ((λ c, (Some (length out1), c)) <$> reverse cs)) rs =
  run_rebuild (out1 ++ (p, with_children (n_children m ++ cs) m) :: out2) rs.
Proof.
  revert m. induction cs as [|c cs IH]; intros m; [rewrite !app_nil_r; by destruct m|].
  rewrite reverse_cons, fmap_app, app_assoc. cbn [fmap list_fmap].
  rewrite (rebuild_run_child _ _ p m) by (rewrite <- app_assoc; by apply list_lookup_middle).
  rewrite <- app_assoc, insert_app_r_alt, Nat.sub_diag by done. cbn [app insert list_insert].
  assert (Ha : ∀ x, out1 ++ (p, x) :: out2 ++ ((λ c, (Some (length out1), c)) <$> reverse cs) = (out1 ++ (p, x) :: out2) ++ ((λ c, (Some (length out1), c)) <$> reverse cs))
    by (intros; by rewrite <- app_assoc).
  by rewrite Ha, IH, with_children_push.
Qed.

(** What one level adds to the output, to the next queue and to the nodes left out. *)
Definition level_out q : list (option nat * Node H W) := omap (λ x, (λ r, (x.1, r.1)) <$> visit x.2) q.
Definition level_built q : list (option nat * Node H W) := omap (λ x, (x.1,.) <$> built x.2) q.

Fixpoint level_next (k : nat) q : list (option nat * Node H V) :=
  match q with
  | [] => []
  | (_, n) :: q => match visit n with Some (_, cs) => ((λ c, (Some k, c)) <$> reverse cs) ++ level_next (S k) q | None => level_next k q end
  end.

Definition level_dropped q : list (Node H V) := omap (λ x, match visit x.2 with Some _ => None | None => Some x.2 end) q.

Lemma visit_level_eq q out next removed :
  Tree.visit_level visit q out next removed = (out ++ level_out q, next ++ level_next (length out) q, removed ++ level_dropped q).
Proof.
  revert out next removed. induction q as [|[p n] q IH]; intros; cbn; [by rewrite !app_nil_r|].
  unfold level_out, level_dropped. cbn. destruct (visit n) as [[m cs]|] eqn:Hv; cbn; rewrite IH.
  - rewrite length_app, Nat.add_1_r, <- !app_assoc. done.
  - by rewrite <- !app_assoc.
Qed.

Lemma level_next_snoc k q x : level_next k (q ++ [x]) = level_next k q ++ level_next (k + length (level_out q)) [x].
Proof.
  revert k. induction q as [|[p n] q IH]; intros k; cbn; [by rewrite Nat.add_0_r|].
  destruct (visit n) as [[m cs]|]; cbn; rewrite IH; [|done]. rewrite <- app_assoc, Nat.add_succ_r. done.
Qed.

Lemma level_built_children k (cs : list (Node H V)) :
  level_built ((λ c, (Some k, c)) <$> reverse cs) = (λ c, (Some k, c)) <$> reverse (omap built cs).
Proof.
  induction cs as [|c cs IH]; [done|]. rewrite reverse_cons, fmap_app. unfold level_built in *. rewrite omap_app, IH. cbn [omap list_omap fmap list_fmap fst snd].
  destruct (built c); cbn [option_fmap option_map fmap]; [by rewrite reverse_cons, fmap_app|by rewrite app_nil_r].
Qed.

Lemma level_built_app q1 q2 : level_built (q1 ++ q2) = level_built q1 ++ level_built q2.
Proof. apply omap_app. Qed.

Lemma level_out_app q1 q2 : level_out (q1 ++ q2) = level_out q1 ++ level_out q2.
Proof. apply omap_app. Qed.

Lemma level_built_one p n : level_built [(p, n)] = option_list ((p,.) <$> built n).
Proof. unfold level_built. cbn. by destruct (built n). Qed.

Lemma level_out_one p n : level_out [(p, n)] = option_list ((λ r, (p, r.1)) <$> visit n).
Proof. unfold level_out. cbn. by destruct (visit n). Qed.

Lemma level_next_one k p n : level_next k [(p, n)] = match visit n with Some (_, cs) => (λ c, (Some k, c)) <$> reverse cs | None => [] end.
Proof. cbn. destruct (visit n) as [[m cs]|]; [|done]. by rewrite app_nil_r. Qed.

(** With the next level built, popping it builds this level. *)
Lemma rebuild_run_level out q S rs :
  run_rebuild (out ++ level_out q ++ S ++ level_built (level_next (length out) q)) rs = run_rebuild (out ++ level_built q ++ S) rs.
Proof.
  revert S. induction q as [|[p n] q IH] using rev_ind; intros S; [by cbn; rewrite app_nil_r|].
  rewrite level_next_snoc, level_out_app, !level_built_app, level_out_one, level_built_one, level_next_one, (built_eq n).
  destruct (visit n) as [[m cs]|]; cbn [fmap option_fmap option_map option_list fst snd].
  2: { change (level_built []) with (@nil (option nat * Node H W)). by rewrite !app_nil_r, IH. }
  rewrite level_built_children, <- length_app.
  assert (Ha : ∀ K, out ++ (level_out q ++ [(p, m)]) ++ S ++ level_built (level_next (length out) q) ++ K =
    ((out ++ level_out q) ++ (p, m) :: (S ++ level_built (level_next (length out) q))) ++ K) by (intros K; rewrite <- !app_assoc; cbn [app]; by rewrite <- !app_assoc).
  rewrite Ha, rebuild_run_children. specialize (IH ((p, with_children (n_children m ++ omap built cs) m) :: S)).
  rewrite <- app_assoc. cbn [app] in *. rewrite IH. by rewrite <- app_assoc.
Qed.

Lemma level_next_size k q : (q ≠ [] → Tree.forest_size (level_next k q).*2 < Tree.forest_size q.*2)%nat.
Proof.
  assert (Hs : ∀ n : Node H V, (0 < n_size n)%nat) by (intros [? ? ? ?]; cbn; lia).
  assert (Hle : (Tree.forest_size (level_next k q).*2 ≤ Tree.forest_size q.*2 ∧ (q ≠ [] → Tree.forest_size (level_next k q).*2 < Tree.forest_size q.*2))%nat); [|tauto].
  revert k. induction q as [|[p n] q IH]; intros k; [done|]. cbn [fmap list_fmap level_next snd]. rewrite forest_size_cons.
  destruct (visit n) as [[m cs]|] eqn:Hv.
  - destruct (IH (S k)) as [Hle _]. apply visit_smaller in Hv. rewrite fmap_app, forest_size_app, <- list_fmap_compose.
    rewrite (list_fmap_ext _ id), list_fmap_id by done. rewrite (forest_size_perm (reverse cs) cs) by apply reverse_Permutation. lia.
  - destruct (IH k) as [Hle _]. specialize (Hs n). lia.
Qed.

Lemma level_dropped_perm k q : q.*2 ≫= dropped ≡ₚ level_dropped q ++ ((level_next k q).*2 ≫= dropped).
Proof.
  revert k. induction q as [|[p n] q IH]; intros k; [done|]. unfold level_dropped. cbn [fmap list_fmap level_next fst snd mbind list_bind omap list_omap].
  rewrite (dropped_eq n). destruct (visit n) as [[m cs]|] eqn:Hv.
  - rewrite fmap_app, bind_app, <- list_fmap_compose.
    rewrite (list_fmap_ext _ id), list_fmap_id by done. rewrite reverse_Permutation. rewrite (IH (S k)). unfold level_dropped. solve_Permutation.
  - by rewrite (IH k).
Qed.

Lemma visit_levels_spec fuel q out removed : (Tree.forest_size q.*2 ≤ fuel)%nat →
  ∃ out' removed', Tree.visit_levels visit fuel q out removed = Some (out', removed') ∧
    (∀ rs, run_rebuild out' rs = run_rebuild (out ++ level_built q) rs) ∧ removed' ≡ₚ removed ++ (q.*2 ≫= dropped).
Proof.
  revert q out removed. induction fuel as [|fuel IH]; intros q out removed Hf.
  - destruct q as [|x q]; [exists out, removed; cbn; by rewrite !app_nil_r|].
    pose proof (level_next_size 0 (x :: q)) as Hs. specialize (Hs ltac:(done)). lia.
  - destruct q as [|x q]; [exists out, removed; cbn; by rewrite !app_nil_r|].
    set (q' := x :: q) in *. cbn [Tree.visit_levels]. unfold q' at 1. rewrite visit_level_eq. cbn [app].
    destruct (IH (level_next (length out) q') (out ++ level_out q') (removed ++ level_dropped q')) as (out' & removed' & Hr & Ho & Hd).
    { pose proof (level_next_size (length out) q' ltac:(done)). lia. }
    exists out', removed'. split; [done|]. split.
    + intros rs. rewrite Ho, <- app_assoc. rewrite <- (app_nil_r (level_built q')), <- (rebuild_run_level out q' [] rs). done.
    + rewrite Hd, (level_dropped_perm (length out) q'). by rewrite app_assoc.
Qed.

Lemma rebuild_run_roots (ms rs : list (Node H W)) : run_rebuild ((None,.) <$> reverse ms) rs = Some (rs ++ ms).
Proof.
  revert rs. induction ms as [|m ms IH]; intros rs; [by cbn; rewrite app_nil_r|].
  rewrite reverse_cons, fmap_app. cbn. rewrite rebuild_run_root, IH. by rewrite <- app_assoc.
Qed.

(** The tree that is put together again from its levels is the one the recursion builds. *)
Lemma rebuild_spec (rs : list (Node H V)) :
  ∃ removed, Tree.rebuild visit rs = Some (omap built rs, removed) ∧ removed ≡ₚ rs ≫= dropped.
Proof.
  unfold Tree.rebuild.
  assert (Hq : ((λ n, (@None nat, n)) <$> reverse rs).*2 = reverse rs) by (rewrite <- list_fmap_compose; apply list_fmap_id).
  destruct (visit_levels_spec (sum_list_with n_size rs) ((λ n, (None, n)) <$> reverse rs) [] []) as (out & removed & -> & Ho & Hd).
  { rewrite Hq. by rewrite (forest_size_perm (reverse rs) rs) by apply reverse_Permutation. }
  exists removed. split; [|rewrite Hd, Hq; cbn; by rewrite reverse_Permutation].
  fold (run_rebuild out []). rewrite Ho. cbn [app].
  assert (Hb : level_built ((λ n, (None, n)) <$> reverse rs) = (None,.) <$> reverse (omap built rs)).
  { clear. induction rs as [|n rs IH]; [done|]. rewrite reverse_cons, fmap_app. unfold level_built in *. rewrite omap_app, IH. cbn [omap list_omap fmap list_fmap fst snd].
    destruct (built n); cbn [option_fmap option_map fmap]; [by rewrite reverse_cons, fmap_app|by rewrite app_nil_r]. }
  by rewrite Hb, rebuild_run_roots.
Qed.
End Rebuild.

(** ** Mapping and filtering *)

Section MapFilter.
Context {H V W : Type}.

Fixpoint map_node (f : H → Z → V → W) (n : Node H V) : Node H W := let '(mkNode h x d cs) := n in mkNode h x (f h x d) (map_node f <$> cs).

Lemma omap_some {A B} (f : A → B) (l : list A) : omap (λ x, Some (f x)) l = f <$> l.
Proof. induction l as [|x l IH]; cbn; congruence. Qed.

(** Mapping the values of a tree keeps the tree: going through it level by level and putting the output together
    again from the recorded parents gives the nodes, the order of the branches and the best finalized number as they
    were, with the function done on every value. *)
Theorem map_structural (f : H → Z → V → W) (t : ForkTree H V) :
  Tree.tree_map f t = Some (mkTree (map_node f <$> roots t) (best_finalized_number t)).
Proof.
  unfold Tree.tree_map.
  edestruct (rebuild_spec (λ n : Node H V, Some (mkNode (n_hash n) (n_number n) (f (n_hash n) (n_number n) (n_data n)) [], n_children n))
    (λ n, Some (map_node f n)) (λ _, [])) as (removed & -> & _).
  - intros [h x d cs]. cbn. by rewrite omap_some.
  - intros [h x d cs]. cbn. induction cs; [done|]. cbn. done.
  - intros [h x d cs] ? ? [= <- <-]. cbn. unfold Tree.forest_size. lia.
  - cbn. by rewrite omap_some.
Qed.

Context (keep : H → Z → V → FilterAction).

(** What the filter leaves of a tree, and the trees it takes out. *)
Fixpoint kept_tree (n : Node H V) : option (Node H V) :=
  let '(mkNode h x d cs) := n in
  match keep h x d with KeepNode => Some (mkNode h x d (omap kept_tree cs)) | KeepTree => Some n | RemoveNode => None end.

Fixpoint dropped_trees (n : Node H V) : list (Node H V) :=
  let '(mkNode h x d cs) := n in
  match keep h x d with KeepNode => mbind dropped_trees cs | KeepTree => [] | RemoveNode => [n] end.

Lemma filter_rebuild (rs : list (Node H V)) :
  ∃ removed, Tree.rebuild (Tree.filter_node keep) rs = Some (omap kept_tree rs, removed) ∧ removed ≡ₚ rs ≫= dropped_trees.
Proof.
  apply rebuild_spec.
  - intros [h x d cs]. cbn. unfold Tree.filter_node. cbn. destruct (keep h x d); cbn; rewrite ?app_nil_r; done.
  - intros [h x d cs]. cbn. unfold Tree.filter_node. cbn. by destruct (keep h x d).
  - intros [h x d cs] m cs'. unfold Tree.filter_node. cbn. unfold Tree.forest_size. destruct (keep h x d); intros [= <- <-]; cbn; lia.
Qed.

Lemma filter_conserves (rs : list (Node H V)) : items (omap kept_tree rs) ++ items (rs ≫= dropped_trees) ≡ₚ items rs.
Proof.
  assert (Hl : ∀ l : list (Node H V), Forall (λ n, items (option_list (kept_tree n)) ++ items (dropped_trees n) ≡ₚ items [n]) l →
    items (omap kept_tree l) ++ items (l ≫= dropped_trees) ≡ₚ items l).
  { induction 1 as [|n l Hn _ IH]; [done|]. cbn [mbind list_bind]. rewrite items_app, (items_app [n] l : items (n :: l) = _), <- IH, <- Hn.
    cbn [omap list_omap]. destruct (kept_tree n) as [m|]; cbn [option_list]; [rewrite (items_app [m] _ : items (m :: omap kept_tree l) = _)|]; solve_Permutation. }
  apply Hl, Forall_true. intros n. induction n as [h x d cs IH] using Node_rect_list. specialize (Hl cs IH).
  cbn [kept_tree dropped_trees]. destruct (keep h x d).
  - done.
  - cbv [option_list option_rect]. rewrite !items_cons. cbn [n_children]. rewrite <- Hl. change (items []) with (@nil (H * Z * V)). rewrite !app_nil_r.
    change (n_item (mkNode h x d (omap kept_tree cs))) with (n_item (mkNode h x d cs)). done.
  - change (items []) with (@nil (H * Z * V)). by rewrite app_nil_r.
Qed.

Lemma nothing_dropped (rs : list (Node H V)) : rs ≫= dropped_trees = [] → omap kept_tree rs = rs.
Proof.
  assert (Hl : ∀ l : list (Node H V), Forall (λ n, dropped_trees n = [] → kept_tree n = Some n) l → l ≫= dropped_trees = [] → omap kept_tree l = l).
  { induction 1 as [|n l Hn _ IH]; [done|]. cbn [mbind list_bind]. intros [Hd Hds]%app_nil. cbn. by rewrite Hn, IH. }
  apply Hl, Forall_true. intros n. induction n as [h x d cs IH] using Node_rect_list. specialize (Hl cs IH).
  cbn [kept_tree dropped_trees]. destruct (keep h x d); try done. intros Hd. by rewrite Hl.
Qed.

(** C23. Filtering a tree does what the recursion over it says: a node that is removed goes with its whole branch, a tree
    that is kept stays as it is, and the branches of a node that is kept are filtered.  What the iterator over
    the removed nodes gives and what is left in the tree are together the nodes there were, each once.  With nothing
    to remove the tree is untouched, and otherwise it is left in the order of the depth of its branches. *)
Theorem drain_filter_spec {E} (t : ForkTree H V) :
  ∃ gone t', Tree.drain_filter (E := E) keep t = (Ok gone, t') ∧
    roots t' = (if decide (gone = []) then roots t else Tree.rebalance_node <$> Tree.sort_by_depth (omap kept_tree (roots t))) ∧
    gone ≡ₚ items (roots t ≫= dropped_trees) ∧ gone ++ items (roots t') ≡ₚ items (roots t) ∧
    (balanced_forest (roots t) → balanced_forest (roots t')) ∧ best_finalized_number t' = best_finalized_number t.
Proof.
  unfold Tree.drain_filter. destruct (filter_rebuild (roots t)) as (removed & -> & Hd).
  pose proof (filter_conserves (roots t)) as Hc. pose proof (nothing_dropped (roots t)) as Hn.
  eexists _, _. split; [reflexivity|]. pose proof (removed_iter_perm removed) as Hr. change (n_item <$> (removed ≫= flatten)) with (items removed) in Hr.
  destruct removed as [|n removed].
  - symmetry in Hd. apply Permutation_nil_r in Hd. rewrite Hd in *. cbn [roots best_finalized_number]. rewrite Hn by done. done.
  - assert (Hne : Tree.removed_iter (n :: removed) ≠ []).
    { intros He. rewrite He in Hr. apply Permutation_nil_l in Hr. by rewrite items_cons in Hr. }
    rewrite decide_False by done. unfold Tree.rebalance, modify. cbn [fst snd roots best_finalized_number]. split; [done|]. split; [by rewrite Hr, Hd|]. split; [|split; [|done]].
    + rewrite rebalance_items, Hr, Hd, <- Hc. solve_Permutation.
    + intros _. apply rebalance_balanced.
Qed.
End MapFilter.
