(* ===== verification/ForkTreeFind.v ===== *)
(** Searching the fork tree for the deepest ancestor of a block, and importing a block under it. *)

From S2P Require Import Prelude ForkTree ForkTreeProps.

(** ** The chain of blocks

    The client of the tree knows the blocks: their numbers, and which of them descend from which.  [ancestor x y] says that [y] is a
    descendent of [x], and not [x] itself. *)

Class Chain (H : Type) := { number_of : H → Z; ancestor : H → H → bool }.

Class ChainLaws (H : Type) `{Chain H} := {
  ancestor_number x y : ancestor x y = true → number_of x < number_of y;
  ancestor_trans x y z : ancestor x y = true → ancestor y z = true → ancestor x z = true;
  ancestor_linear x y z : ancestor x z = true → ancestor y z = true → x = y ∨ ancestor x y = true ∨ ancestor y x = true;
}.

(** ** Well-formed trees *)

Section WellFormed.
Context {H V : Type} `{Chain H, !ChainLaws H}.
Implicit Types (n m c : Node H V) (l cs : list (Node H V)).

Definition unrelated n m : Prop := n_hash n ≠ n_hash m ∧ ancestor (n_hash n) (n_hash m) = false ∧ ancestor (n_hash m) (n_hash n) = false.

(** The children of a node descend from it and are on different branches. *)
Inductive wf_node : Node H V → Prop :=
  | wf_mkNode h d cs : Forall (λ c, ancestor h (n_hash c) = true) cs → StronglySorted unrelated cs → Forall wf_node cs → wf_node (mkNode h (number_of h) d cs).

Definition wf_forest l : Prop := Forall wf_node l ∧ StronglySorted unrelated l.

Lemma ancestor_irrefl (x : H) : ancestor x x = false.
Proof. destruct (ancestor x x) eqn:He; [|done]. apply ancestor_number in He. lia. Qed.

Lemma unrelated_sym n m : unrelated n m → unrelated m n.
Proof. unfold unrelated. naive_solver. Qed.

Lemma StronglySorted_sym_perm {A} (R : A → A → Prop) (l1 l2 : list A) : (∀ x y, R x y → R y x) → l1 ≡ₚ l2 → StronglySorted R l1 → StronglySorted R l2.
Proof.
  intros Hs. induction 1 as [|x l1 l2 Hp IH|x y l|]; [done| | |auto].
  - inversion 1; subst. constructor; [auto|]. by rewrite <- Hp.
  - inversion 1 as [|? ? Hy Hf]; subst. inversion Hy; subst. inversion Hf; subst. repeat constructor; auto.
Qed.

Lemma wf_forest_perm l1 l2 : l1 ≡ₚ l2 → wf_forest l1 → wf_forest l2.
Proof.
  intros Hp [Hw Hs]. split; [by rewrite <- Hp|]. eapply StronglySorted_sym_perm; [|exact Hp|exact Hs]. intros x y. apply unrelated_sym.
Qed.

Lemma StronglySorted_hash_map (f : Node H V → Node H V) l : (∀ n, n_hash (f n) = n_hash n) → StronglySorted unrelated l → StronglySorted unrelated (f <$> l).
Proof.
  intros Hf. induction 1 as [|n l _ IH Hn]; cbn; constructor; [done|]. rewrite Forall_fmap. eapply Forall_impl; [exact Hn|].
  intros m. unfold unrelated. cbn. by rewrite !Hf.
Qed.

Lemma rebalance_node_hash n : n_hash (Tree.rebalance_node n) = n_hash n.
Proof. by destruct n. Qed.

Lemma rebalance_node_wf n : wf_node n → wf_node (Tree.rebalance_node n).
Proof.
  induction n as [h x d cs IH] using Node_rect_list. inversion 1 as [? ? ? Ha Hs Hw]; subst. cbn. constructor.
  - rewrite sort_by_depth_perm, Forall_fmap. eapply Forall_impl; [exact Ha|]. intros c. cbn. by rewrite rebalance_node_hash.
  - eapply StronglySorted_sym_perm; [intros ? ?; apply unrelated_sym|symmetry; apply sort_by_depth_perm|].
    apply StronglySorted_hash_map; [apply rebalance_node_hash|done].
  - rewrite sort_by_depth_perm, Forall_fmap. rewrite Forall_forall in *. intros c Hc. apply IH; auto.
Qed.

Lemma rebalance_wf l : wf_forest l → wf_forest (Tree.rebalance_node <$> Tree.sort_by_depth l).
Proof.
  intros Hl. rewrite <- sort_by_depth_map. eapply wf_forest_perm; [symmetry; apply sort_by_depth_perm|]. destruct Hl as [Hw Hs]. split.
  - rewrite Forall_fmap. eapply Forall_impl; [exact Hw|]. apply rebalance_node_wf.
  - apply StronglySorted_hash_map; [apply rebalance_node_hash|done].
Qed.

Lemma wf_node_children n : wf_node n → wf_forest (n_children n).
Proof. by inversion 1. Qed.

Lemma wf_node_number n : wf_node n → n_number n = number_of (n_hash n).
Proof. by inversion 1. Qed.

Lemma wf_node_child n c : wf_node n → c ∈ n_children n → ancestor (n_hash n) (n_hash c) = true.
Proof. inversion 1 as [? ? ? Ha]; subst. rewrite Forall_forall in Ha. apply Ha. Qed.

Lemma elem_of_flatten m n : m ∈ flatten n ↔ m = n ∨ m ∈ n_children n ≫= flatten.
Proof. rewrite flatten_eq, elem_of_cons. done. Qed.

Lemma elem_of_forest m l : m ∈ l ≫= flatten ↔ ∃ n, n ∈ l ∧ m ∈ flatten n.
Proof. rewrite list_elem_of_bind. naive_solver. Qed.

Lemma root_in_forest n l : n ∈ l → n ∈ l ≫= flatten.
Proof. intros Hn. apply elem_of_forest. exists n. split; [done|]. apply elem_of_flatten. by left. Qed.

Lemma children_in_tree n m c : m ∈ flatten n → c ∈ n_children m → c ∈ flatten n.
Proof.
  induction n as [h x d cs IH] using Node_rect_list. rewrite Forall_forall in IH. intros Hm Hc. apply elem_of_flatten. right.
  apply elem_of_flatten in Hm as [->|(q & Hq & Hm)%elem_of_forest]; [by apply root_in_forest|]. apply elem_of_forest. eauto.
Qed.

Lemma children_in_forest m c l : m ∈ l ≫= flatten → c ∈ n_children m → c ∈ l ≫= flatten.
Proof. intros (n & Hn & Hm)%elem_of_forest Hc. apply elem_of_forest. eauto using children_in_tree. Qed.

(** The nodes below a node descend from it. *)
Lemma below_ancestor n m : wf_node n → m ∈ n_children n ≫= flatten → ancestor (n_hash n) (n_hash m) = true.
Proof.
  induction n as [h x d cs IH] using Node_rect_list. intros Hw (c & Hc & Hm)%elem_of_forest.
  pose proof (wf_node_child _ c Hw Hc) as Ha. destruct (wf_node_children _ Hw) as [Hws _]. rewrite Forall_forall in IH, Hws.
  apply elem_of_flatten in Hm as [->|Hm]; [done|]. eapply ancestor_trans; [done|]. by apply IH; [..|apply Hws|].
Qed.

Lemma flatten_ancestor n m : wf_node n → m ∈ flatten n → m = n ∨ ancestor (n_hash n) (n_hash m) = true.
Proof. intros Hw [->|Hm]%elem_of_flatten; [by left|right]. by apply below_ancestor. Qed.

Lemma flatten_wf n m : wf_node n → m ∈ flatten n → wf_node m.
Proof.
  induction n as [h x d cs IH] using Node_rect_list. intros Hw [->|(c & Hc & Hm)%elem_of_forest]%elem_of_flatten; [done|].
  destruct (wf_node_children _ Hw) as [Hws _]. rewrite Forall_forall in IH, Hws. eauto.
Qed.

Lemma forest_wf l m : wf_forest l → m ∈ l ≫= flatten → wf_node m.
Proof. intros [Hw _] (n & Hn & Hm)%elem_of_forest. rewrite Forall_forall in Hw. eauto using flatten_wf. Qed.

(** A node of a tree that is an ancestor of a block has the root as such an ancestor too. *)
Lemma flatten_ancestor_of n m (x : H) : wf_node n → m ∈ flatten n → ancestor (n_hash m) x = true → ancestor (n_hash n) x = true.
Proof. intros Hw Hm Ha. destruct (flatten_ancestor n m Hw Hm) as [->|Hd]; [done|]. by eapply ancestor_trans. Qed.

(** Two trees of a forest are not both above or at a block. *)
Lemma wf_forest_unrelated l i j n m : wf_forest l → l !! i = Some n → l !! j = Some m → i ≠ j → unrelated n m.
Proof.
  intros [_ Hs]. revert i j. induction Hs as [|k l Hs IH Hk]; [done|]. rewrite Forall_forall in Hk.
  intros [|i] [|j]; cbn; intros Hi Hj Hne; simplify_eq; eauto using list_elem_of_lookup_2, unrelated_sym.
Qed.

Lemma unrelated_block n m (x : H) : unrelated n m → ancestor (n_hash n) x = true → ancestor (n_hash m) x = true → False.
Proof. intros (Hne & H1 & H2) Hn Hm. destruct (ancestor_linear _ _ _ Hn Hm) as [?|[?|?]]; congruence. Qed.

Lemma wf_forest_one_ancestor l i j n m (x : H) : wf_forest l → l !! i = Some n → l !! j = Some m →
  ancestor (n_hash n) x = true → ancestor (n_hash m) x = true → i = j.
Proof. intros Hl Hi Hj Hn Hm. destruct (decide (i = j)); [done|]. exfalso. by eapply unrelated_block; [eapply (wf_forest_unrelated l i j)|..]. Qed.

Lemma wf_forest_cons n l : wf_forest (n :: l) ↔ wf_node n ∧ Forall (unrelated n) l ∧ wf_forest l.
Proof. unfold wf_forest. rewrite Forall_cons. split; [intros [[? ?] Hs]; by inversion Hs|intros (? & ? & ? & ?); split; [done|by constructor]]. Qed.

Lemma wf_forest_app l1 l2 : wf_forest (l1 ++ l2) ↔ wf_forest l1 ∧ wf_forest l2 ∧ ∀ n m, n ∈ l1 → m ∈ l2 → unrelated n m.
Proof.
  induction l1 as [|k l1 IH]; cbn [app].
  - split; [intros; split; [repeat constructor|]; split; [done|]; intros ? ? []%not_elem_of_nil|by intros (? & ? & ?)].
  - rewrite !wf_forest_cons, Forall_app, IH, !Forall_forall. setoid_rewrite elem_of_cons. naive_solver.
Qed.
End WellFormed.

(** ** The search *)

Section Search.
Context {H V E : Type} `{EqDecision H} `{Chain H, !ChainLaws H}.
Context (is_descendent_of : H → H → bool + E).
Hypothesis client : ∀ x y, is_descendent_of x y = inl (ancestor x y).
Context (hash : H) (predicate : V → bool).
Implicit Types (n m c : Node H V) (l cs : list (Node H V)).

Abbreviation number := (number_of hash).

(** The search as a recursion.  [None] is for a tree without an ancestor of the block, [Some None] for one where no
    ancestor passes the predicate, and otherwise there is the path to the node that is found. *)
Section LocateList.
Context (locate : Node H V → option (option (list nat))).

Fixpoint locate_list (k : nat) (cs : list (Node H V)) : option (option (list nat)) :=
  match cs with
  | [] => None
  | c :: cs =>
      if n_number c <? number then
        match locate c with Some r => Some (cons k <$> r) | None => locate_list (S k) cs end
      else locate_list (S k) cs
  end.
End LocateList.

Definition locate_self (d : V) : option (option (list nat)) := Some (if predicate d then Some [] else None).

Fixpoint locate (n : Node H V) : option (option (list nat)) :=
  let '(mkNode h _ d cs) := n in
  match locate_list locate 0 cs with
  | Some (Some p) => Some (Some p)
  | Some None => locate_self d
  | None => if ancestor h hash then locate_self d else None
  end.

Abbreviation search := (λ fuel, Tree.search_loop fuel hash number is_descendent_of predicate).

(** With an ancestor found the loop goes up the stack. *)
Lemma search_up fuel n i (st : list (Node H V * nat)) t :
  search (S fuel) true ((n, i) :: st) t = if predicate (n_data n) then (Ok (true, true, st), t) else search fuel true st t.
Proof. cbn. destruct (n_children n !! i); cbn; by destruct (predicate (n_data n)). Qed.

(** What the loop does from a position in the children of a node, given what it does at each of them. *)
Definition located (r : option (option (list nat))) (k : nat) (st : list (Node H V * nat)) t (res : outcome (TreeError E) (bool * bool * list (Node H V * nat)) * ForkTree H V) : Prop :=
  match r with
  | None => ∃ fuel', (k ≤ fuel')%nat ∧ res = search fuel' false st t
  | Some None => ∃ fuel', (k ≤ fuel')%nat ∧ res = search fuel' true st t
  | Some (Some p) => ∃ tr, (λ x : Node H V * nat, (x.2 - 1)%nat) <$> tr = reverse p ∧ res = (Ok (true, true, tr ++ st), t)
  end.

Lemma search_children n i cs k fuel st t :
  drop i (n_children n) = cs →
  Forall (λ c, ∀ k fuel st, (k + 2 * n_size c ≤ S fuel)%nat → located (locate c) k st t (search fuel false ((c, 0%nat) :: st) t)) cs →
  (k + 2 * Tree.forest_size cs + 1 ≤ fuel)%nat →
  match locate_list locate i cs with
  | Some (Some p) => located (Some (Some p)) k st t (search fuel false ((n, i) :: st) t)
  | Some None => located (locate_self (n_data n)) k st t (search fuel false ((n, i) :: st) t)
  | None => located (if ancestor (n_hash n) hash then locate_self (n_data n) else None) k st t (search fuel false ((n, i) :: st) t)
  end.
Proof.
  intros Hd Hc. revert i k fuel Hd. induction Hc as [|c cs Hc _ IH]; intros i k fuel Hd Hf.
  - destruct fuel as [|fuel]; [cbn in Hf; lia|]. cbn [locate_list Tree.search_loop].
    rewrite (lookup_ge_None_2 (n_children n) i) by (apply (f_equal length) in Hd; rewrite length_drop in Hd; cbn in Hd; lia).
    unfold Tree.query. rewrite client. cbn. destruct (ancestor _ _); [|exists fuel; split; [lia|done]].
    unfold locate_self. destruct (predicate (n_data n)); [by exists []|]. exists fuel. split; [lia|done].
  - destruct fuel as [|fuel]; [rewrite forest_size_cons in Hf; lia|]. rewrite forest_size_cons in Hf.
    assert (Hi : n_children n !! i = Some c) by (by rewrite <- (Nat.add_0_r i), <- lookup_drop, Hd).
    assert (Hd' : drop (S i) (n_children n) = cs) by (rewrite <- Nat.add_1_r, <- drop_drop, Hd; done).
    cbn [locate_list Tree.search_loop]. rewrite Hi.
    destruct (n_number c <? number); [|apply (IH (S i)); [done|rewrite n_size_eq in Hf; lia]].
    specialize (Hc (k + 2 * Tree.forest_size cs + 1)%nat fuel ((n, S i) :: st) ltac:(lia)).
    destruct (locate c) as [[p|]|]; cbn [located fmap option_fmap option_map] in *.
    + destruct Hc as (tr & Htr & ->). exists (tr ++ [(n, S i)]). split; [|by rewrite <- app_assoc].
      rewrite fmap_app, Htr, reverse_cons. cbn. by rewrite Nat.sub_0_r.
    + destruct Hc as (fuel' & Hf' & ->). destruct fuel' as [|fuel']; [lia|]. rewrite search_up. unfold locate_self.
      destruct (predicate (n_data n)); [by exists []|]. exists fuel'. split; [lia|done].
    + destruct Hc as (fuel' & Hf' & ->). apply (IH (S i)); [done|lia].
Qed.

Lemma search_node n k fuel st t : (k + 2 * n_size n ≤ S fuel)%nat → located (locate n) k st t (search fuel false ((n, 0%nat) :: st) t).
Proof.
  revert k fuel st. induction n as [h x d cs IH] using Node_rect_list. intros k fuel st Hf.
  rewrite n_size_eq in Hf. cbn [n_children] in Hf.
  pose proof (search_children (mkNode h x d cs) 0 cs k fuel st t eq_refl IH ltac:(lia)) as Hs. cbn [locate n_data n_hash] in *.
  by destruct (locate_list locate 0 cs) as [[p|]|].
Qed.

Lemma search_roots_locate l k t :
  Tree.search_roots l k hash number is_descendent_of predicate t = (Ok (mjoin (locate_list locate k l)), t).
Proof.
  revert k. induction l as [|n l IH]; intros k; [done|]. cbn [Tree.search_roots locate_list].
  destruct (Z.leb_spec number (n_number n)); [by rewrite (proj2 (Z.ltb_ge _ _))|]. rewrite (proj2 (Z.ltb_lt _ _)) by done.
  pose proof (search_node n 0 (2 * n_size n) [] t ltac:(lia)) as Hs. unfold bind.
  destruct (locate n) as [[p|]|]; cbn [located] in Hs.
  - destruct Hs as (tr & Htr & ->). cbn. rewrite app_nil_r, Htr, reverse_involutive. done.
  - destruct Hs as ([|fuel] & _ & ->); done.
  - destruct Hs as ([|fuel] & _ & ->); cbn; apply IH.
Qed.

Lemma find_index_locate t :
  Tree.find_node_index_where hash number is_descendent_of predicate t = (Ok (mjoin (locate_list locate 0 (roots t))), t).
Proof. apply search_roots_locate. Qed.

(** ** The deepest ancestor *)

(** The node at a path below a node. *)
Fixpoint sub_at (p : list nat) n : option (Node H V) :=
  match p with [] => Some n | i :: p => n_children n !! i ≫= sub_at p end.

Lemma node_at_sub i p l : Tree.node_at (i :: p) l = l !! i ≫= sub_at p.
Proof.
  revert i l. induction p as [|j p IH]; intros i l; cbn [Tree.node_at sub_at]; [by destruct (l !! i)|].
  destruct (l !! i) as [n|]; cbn [mbind option_bind]; [|done]. apply IH.
Qed.

Lemma sub_at_flatten p n m : sub_at p n = Some m → m ∈ flatten n.
Proof.
  revert n. induction p as [|i p IH]; intros n; cbn; [intros [= ->]; apply elem_of_flatten; by left|].
  intros (c & Hc & Hm)%bind_Some. apply elem_of_flatten. right. apply elem_of_forest. exists c. split; [by eapply list_elem_of_lookup_2|auto].
Qed.

(** Where a search in a list of trees ends: at the tree, the only one, with an ancestor of the block. *)
Lemma locate_list_spec (loc : Node H V → option (option (list nat))) k l : wf_forest l → Forall (λ c, loc c = None ↔ ancestor (n_hash c) hash = false) l →
  match locate_list loc k l with
  | None => Forall (λ c, ancestor (n_hash c) hash = false) l
  | Some r => ∃ i c r', l !! i = Some c ∧ ancestor (n_hash c) hash = true ∧ loc c = Some r' ∧ r = (cons (k + i)%nat <$> r')
  end.
Proof.
  intros Hl Hc. revert k Hl. induction Hc as [|c l Hc _ IH]; intros k Hl; cbn [locate_list]; [constructor|].
  apply wf_forest_cons in Hl as (Hw & _ & Hl). specialize (IH (S k) Hl).
  assert (Hskip : ancestor (n_hash c) hash = false → match locate_list loc (S k) l with
    | None => Forall (λ c, ancestor (n_hash c) hash = false) (c :: l)
    | Some r => ∃ i c' r', (c :: l) !! i = Some c' ∧ ancestor (n_hash c') hash = true ∧ loc c' = Some r' ∧ r = (cons (k + i)%nat <$> r') end).
  { intros Hn. destruct (locate_list loc (S k) l) as [r|]; [|by constructor].
    destruct IH as (i & c' & r' & Hi & Ha & Hr & ->). exists (S i), c', r'. by rewrite Nat.add_succ_r. }
  destruct (Z.ltb_spec (n_number c) number).
  - destruct (loc c) as [r|] eqn:Hr; [|by apply Hskip, Hc]. exists 0%nat, c, r. rewrite Nat.add_0_r. repeat split; try done.
    destruct (ancestor (n_hash c) hash) eqn:Ha; [done|]. by destruct Hc as [_ Hc]; specialize (Hc eq_refl).
  - apply Hskip. destruct (ancestor (n_hash c) hash) eqn:Ha; [|done]. apply ancestor_number in Ha. apply wf_node_number in Hw. lia.
Qed.

Lemma locate_none n : wf_node n → locate n = None ↔ ancestor (n_hash n) hash = false.
Proof.
  induction n as [h x d cs IH] using Node_rect_list. intros Hw. destruct (wf_node_children _ Hw) as [Hws Hs].
  pose proof (locate_list_spec locate 0 cs (conj Hws Hs)) as Hl. cbn [locate n_hash].
  destruct (locate_list locate 0 cs) as [r|].
  - destruct Hl as (i & c & r' & Hi & Ha & _ & _).
    { rewrite Forall_forall in *. intros c Hc. apply IH; auto. }
    rewrite (ancestor_trans h (n_hash c) hash) by (done || by eapply (wf_node_child (mkNode h x d cs)), list_elem_of_lookup_2).
    by destruct r.
  - by destruct (ancestor h hash).
Qed.

(** Among the nodes, the deepest that is an ancestor of the block and passes the predicate. *)
Definition deepest (l : list (Node H V)) (o : option (Node H V)) : Prop :=
  match o with
  | Some m => m ∈ l ∧ ancestor (n_hash m) hash = true ∧ predicate (n_data m) = true ∧
      ∀ k, k ∈ l → ancestor (n_hash k) hash = true → predicate (n_data k) = true → k = m ∨ ancestor (n_hash k) (n_hash m) = true
  | None => ∀ k, k ∈ l → ancestor (n_hash k) hash = true → predicate (n_data k) = false
  end.

(** In a forest only the tree with an ancestor matters. *)
Lemma deepest_forest l i c o : wf_forest l → l !! i = Some c → ancestor (n_hash c) hash = true → deepest (flatten c) o → deepest (l ≫= flatten) o.
Proof.
  intros Hl Hi Ha Hd.
  assert (Hin : ∀ k, k ∈ l ≫= flatten → ancestor (n_hash k) hash = true → k ∈ flatten c).
  { intros k (c' & Hc' & Hk)%elem_of_forest Hka. apply list_elem_of_lookup in Hc' as [j Hj].
    assert (Hw : wf_node c') by (eapply Forall_lookup_1; [apply Hl|done]).
    assert (i = j) as -> by (eapply (wf_forest_one_ancestor l i j c c' hash); eauto using flatten_ancestor_of). by simplify_eq. }
  destruct o as [m|]; [|by intros k Hk Hka; apply Hd; auto]. destruct Hd as (Hm & Hma & Hp & Hd). split; [|split; [done|split; [done|auto]]].
  apply elem_of_forest. eauto using list_elem_of_lookup_2.
Qed.

Lemma forest_no_ancestor l k : wf_forest l → Forall (λ c, ancestor (n_hash c) hash = false) l → k ∈ l ≫= flatten → ancestor (n_hash k) hash = false.
Proof.
  intros [Hw _] Hn (c & Hc & Hk)%elem_of_forest. rewrite Forall_forall in Hw, Hn. destruct (ancestor (n_hash k) hash) eqn:Ha; [|done].
  rewrite <- (Hn c Hc). symmetry. eapply flatten_ancestor_of; eauto.
Qed.

Lemma deepest_none_self n d : n_data n = d → ancestor (n_hash n) hash = true → deepest (n_children n ≫= flatten) None →
  deepest (flatten n) (if predicate d then Some n else None).
Proof.
  intros <- Ha Hd. destruct (predicate (n_data n)) eqn:Hp; cbn.
  - split; [apply elem_of_flatten; by left|]. split; [done|]. split; [done|].
    intros k [->|Hk]%elem_of_flatten Hka Hkp; [by left|]. rewrite (Hd k Hk Hka) in Hkp. done.
  - intros k [->|Hk]%elem_of_flatten Hka; [done|]. by apply Hd.
Qed.

Lemma locate_deepest n r : wf_node n → locate n = Some r →
  match r with Some p => ∃ m, sub_at p n = Some m ∧ deepest (flatten n) (Some m) | None => deepest (flatten n) None end.
Proof.
  revert r. induction n as [h x d cs IH] using Node_rect_list. intros r Hw Hr. pose proof (wf_node_children _ Hw) as Hcs. cbn [n_children] in Hcs.
  assert (Ha : ancestor h hash = true).
  { destruct (ancestor h hash) eqn:Ha; [done|]. apply (locate_none (mkNode h x d cs)) in Ha; [congruence|done]. }
  assert (Hself : deepest (cs ≫= flatten) None → locate_self d = Some r →
    match r with Some p => ∃ m, sub_at p (mkNode h x d cs) = Some m ∧ deepest (flatten (mkNode h x d cs)) (Some m) | None => deepest (flatten (mkNode h x d cs)) None end).
  { intros Hn [= <-]. apply (deepest_none_self (mkNode h x d cs) d eq_refl Ha) in Hn. destruct (predicate d); [by eexists|done]. }
  pose proof (locate_list_spec locate 0 cs Hcs) as Hl. cbn [locate] in Hr. destruct Hcs as [Hws Hs]. rewrite Forall_forall in IH, Hws.
  destruct (locate_list locate 0 cs) as [r'|].
  - destruct Hl as (i & c & r0 & Hi & Hca & Hc & ->); [apply Forall_forall; intros c Hc; apply locate_none; auto|].
    assert (Hin : c ∈ cs) by (by eapply list_elem_of_lookup_2). specialize (IH c Hin r0 (Hws c Hin) Hc).
    destruct r0 as [p|]; cbn [fmap option_fmap option_map] in Hr.
    + simplify_eq. destruct IH as (m & Hm & Hd). exists m. cbn [sub_at n_children Nat.add]. rewrite Hi. split; [done|].
      apply (deepest_forest cs i c) in Hd; [|split; [by apply Forall_forall|done]|done|done]. destruct Hd as (Hme & Hma & Hmp & Hd).
      split; [apply elem_of_flatten; by right|]. split; [done|]. split; [done|].
      intros k [->|Hk]%elem_of_flatten Hka Hkp; [|auto]. right.
      by apply (below_ancestor (mkNode h x d cs)).
    + apply Hself; [|done]. eapply deepest_forest; [by split; [apply Forall_forall|]|done..].
  - rewrite Ha in Hr. apply Hself; [|done]. intros k Hk Hka. rewrite (forest_no_ancestor cs k) in Hka; [done| | |done].
    + split; [by apply Forall_forall|done].
    + apply Hl, Forall_forall. intros c Hc. apply locate_none. auto.
Qed.

Lemma locate_roots_deepest l : wf_forest l →
  match mjoin (locate_list locate 0 l) with
  | Some path => ∃ m, Tree.node_at path l = Some m ∧ deepest (l ≫= flatten) (Some m)
  | None => deepest (l ≫= flatten) None
  end.
Proof.
  intros Hl. pose proof (locate_list_spec locate 0 l Hl) as Hs. pose proof Hl as [Hws _]. rewrite Forall_forall in Hws.
  specialize (Hs ltac:(apply Forall_forall; intros c Hc; apply locate_none; auto)).
  destruct (locate_list locate 0 l) as [r|]; cbn [mjoin option_join].
  - destruct Hs as (i & c & r' & Hi & Ha & Hr & ->). apply locate_deepest in Hr; [|by eapply Hws, list_elem_of_lookup_2].
    destruct r' as [p|]; cbn [fmap option_fmap option_map]; [|by eapply deepest_forest].
    destruct Hr as (m & Hm & Hd). exists m. rewrite node_at_sub. cbn [Nat.add]. rewrite Hi. split; [done|]. by eapply deepest_forest.
  - intros k Hk Hka. by rewrite (forest_no_ancestor l k) in Hka.
Qed.
End Search.

(** The search returns the node that its name promises: among all the nodes of a well-formed tree that are ancestors of the
    block and pass the predicate, the deepest, of which all the others are ancestors; and nothing when there is none.  The walk over
    the stack of nodes ends within its fuel, skips branches by their numbers and leaves every other branch once an ancestor has been met. *)
Lemma find_node_where_deepest {H V E} `{EqDecision H} `{Chain H, !ChainLaws H} (is_descendent_of : H → H → bool + E) (hash : H) (predicate : V → bool) (t : ForkTree H V) :
  (∀ x y, is_descendent_of x y = inl (ancestor x y)) → wf_forest (roots t) →
  ∃ o, Tree.find_node_where hash (number_of hash) is_descendent_of predicate t = (Ok o, t) ∧ deepest hash predicate (Tree.node_iter t) o.
Proof.
  intros Hc Hw. unfold Tree.find_node_where. rewrite node_iter_flatten. erewrite bind_run by by apply find_index_locate.
  pose proof (locate_roots_deepest hash predicate (roots t) Hw) as Hd.
  destruct (mjoin (locate_list hash (locate hash predicate) 0 (roots t))) as [path|]; [|by eexists].
  destruct Hd as (m & Hm & Hd). exists (Some m). cbn. by rewrite Hm.
Qed.
