(* ===== verification/ForkTreeImport.v ===== *)
(** Importing a block into the fork tree: it is put under its deepest ancestor, the tree stays well formed and in order, and a
    block that is already there is refused. *)

From S2P Require Import Prelude ForkTree ForkTreeProps ForkTreeFind.

Section Push.
Context {H V : Type} `{Chain H, !ChainLaws H}.
Implicit Types (n m c leaf : Node H V) (l cs : list (Node H V)).

(** A change at a path below a node. *)
Fixpoint alter_sub (p : list nat) (f : Node H V → Node H V) n : Node H V :=
  match p with [] => f n | i :: p => with_children (alter (alter_sub p f) i (n_children n)) n end.

Lemma alter_at_sub i p f l : Tree.alter_at (i :: p) f l = alter (alter_sub p f) i l.
Proof.
  revert i l. induction p as [|j p IH]; intros i l; [done|].
  change (alter (λ n, with_children (Tree.alter_at (j :: p) f (n_children n)) n) i l = alter (alter_sub (j :: p) f) i l).
  apply list_alter_ext; [|done]. intros n _. by rewrite IH.
Qed.

Lemma alter_middle (f : Node H V → Node H V) i l n : l !! i = Some n →
  ∃ l1 l2, l = l1 ++ n :: l2 ∧ alter f i l = l1 ++ f n :: l2.
Proof.
  revert i. induction l as [|c l IH]; intros [|i] Hi; cbn in Hi; simplify_eq.
  - by exists [], l.
  - destruct (IH i Hi) as (l1 & l2 & -> & He). exists (c :: l1), l2. split; [done|]. cbn. by rewrite <- He.
Qed.

Lemma items_middle l1 l2 n : items (l1 ++ n :: l2) ≡ₚ items [n] ++ items l1 ++ items l2.
Proof. rewrite (items_app l1 (n :: l2)), (items_app [n] l2 : items (n :: l2) = _). solve_Permutation. Qed.

Lemma unrelated_hash n n' m : n_hash n' = n_hash n → unrelated n m → unrelated n' m.
Proof. unfold unrelated. by intros ->. Qed.

Lemma wf_forest_replace l1 l2 n n' : n_hash n' = n_hash n → wf_node n' → wf_forest (l1 ++ n :: l2) → wf_forest (l1 ++ n' :: l2).
Proof.
  intros Hh Hw. rewrite !wf_forest_app, !wf_forest_cons. intros (H1 & (_ & Hf & H2) & Hu). split; [done|]. split; [split; [done|split; [|done]]|].
  - eapply Forall_impl; [exact Hf|]. intros m. by apply unrelated_hash.
  - intros c m Hc [->|Hm]%elem_of_cons; [|apply Hu; [done|by right]]. apply unrelated_sym, (unrelated_hash n); [done|]. apply unrelated_sym, Hu; [done|left].
Qed.

Lemma alter_sub_hash p f n : (∀ m, n_hash (f m) = n_hash m) → n_hash (alter_sub p f n) = n_hash n.
Proof. destruct p; [auto|]. by destruct n. Qed.

Lemma push_child_hash c n : n_hash (push_child c n) = n_hash n.
Proof. by destruct n. Qed.

Lemma items_with_children n cs : items [with_children cs n] ≡ₚ n_item n :: items cs.
Proof. rewrite items_cons, n_item_with_children, n_children_with_children. by rewrite (app_nil_r (items cs) : items cs ++ items [] = _). Qed.

Lemma items_node n : items [n] ≡ₚ n_item n :: items (n_children n).
Proof. rewrite items_cons. by rewrite (app_nil_r (items (n_children n)) : items (n_children n) ++ items [] = _). Qed.

Lemma items_push c n : items [push_child c n] ≡ₚ items [c] ++ items [n].
Proof.
  assert (push_child c n = with_children (n_children n ++ [c]) n) as -> by (by destruct n).
  rewrite items_with_children, items_app, (items_node n). solve_Permutation.
Qed.

Lemma alter_push_items p n m leaf : sub_at p n = Some m → items [alter_sub p (push_child leaf) n] ≡ₚ items [leaf] ++ items [n].
Proof.
  revert n. induction p as [|i p IH]; intros n; cbn [sub_at alter_sub]; [intros _; apply items_push|].
  intros (c & Hc & Hm)%bind_Some. destruct (alter_middle (alter_sub p (push_child leaf)) i _ c Hc) as (l1 & l2 & Hl & ->).
  rewrite items_with_children, items_middle, (IH c Hm), (items_node n), Hl, items_middle. solve_Permutation.
Qed.

Lemma push_child_wf n leaf : wf_node n → wf_node leaf → ancestor (n_hash n) (n_hash leaf) = true → Forall (unrelated leaf) (n_children n) → wf_node (push_child leaf n).
Proof.
  inversion 1 as [h d cs Ha Hs Hw]; subst. cbn. intros Hleaf Hal Hu.
  assert (Hf : wf_forest (leaf :: cs)) by (by apply wf_forest_cons).
  apply (wf_forest_perm _ (cs ++ [leaf])) in Hf as [Hf1 Hf2]; [|solve_Permutation]. constructor; [|done..].
  apply Forall_app. split; [done|]. by constructor.
Qed.

Lemma with_children_wf n l1 l2 c c' : wf_node n → n_children n = l1 ++ c :: l2 → n_hash c' = n_hash c → wf_node c' → wf_node (with_children (l1 ++ c' :: l2) n).
Proof.
  inversion 1 as [h d cs Ha Hs Hw]; subst. cbn. intros -> Hh Hc.
  destruct (wf_forest_replace l1 l2 c c' Hh Hc (conj Hw Hs)) as [Hf1 Hf2]. constructor; [|done..].
  apply Forall_app in Ha as [Ha1 Ha2]. inversion Ha2; subst. apply Forall_app. split; [done|]. constructor; [by rewrite Hh|done].
Qed.

Lemma alter_push_wf p n m leaf : wf_node n → sub_at p n = Some m → wf_node leaf → ancestor (n_hash m) (n_hash leaf) = true →
  Forall (unrelated leaf) (n_children m) → wf_node (alter_sub p (push_child leaf) n).
Proof.
  intros Hw Hm Hl Ha Hu. revert n Hw Hm. induction p as [|i p IH]; intros n Hw; cbn [sub_at alter_sub].
  - intros [= ->]. by apply push_child_wf.
  - intros (c & Hc & Hm)%bind_Some. destruct (alter_middle (alter_sub p (push_child leaf)) i _ c Hc) as (l1 & l2 & Hcs & ->).
    eapply with_children_wf; [done|exact Hcs|apply alter_sub_hash, push_child_hash|]. apply IH; [|done].
    destruct (wf_node_children n Hw) as [Hws _]. eapply Forall_lookup_1; eauto.
Qed.

(** A leaf beside other children makes no branch deeper. *)
Lemma alter_push_depth p n m leaf : sub_at p n = Some m → n_children m ≠ [] → depth leaf = 0%nat → depth (alter_sub p (push_child leaf) n) = depth n.
Proof.
  intros Hm Hne Hd. revert n Hm. induction p as [|i p IH]; intros n; cbn [sub_at alter_sub].
  - intros [= ->]. destruct m as [h x d [|c cs]]; [done|]. rewrite !depth_eq. cbn [push_child n_children]. rewrite max_list_with_app. cbn. rewrite Hd. lia.
  - intros (c & Hc & Hm)%bind_Some. destruct (alter_middle (alter_sub p (push_child leaf)) i _ c Hc) as (l1 & l2 & Hcs & ->).
    rewrite !depth_eq, n_children_with_children, Hcs, !max_list_with_app. cbn. by rewrite IH.
Qed.

Lemma balanced_forest_replace l1 l2 n n' : depth n' = depth n → balanced n' → balanced_forest (l1 ++ n :: l2) → balanced_forest (l1 ++ n' :: l2).
Proof.
  intros Hd Hb [Hs Hf]. split.
  - clear Hf. induction l1 as [|c l1 IH]; cbn in *; inversion Hs as [|? ? Hs' Hc]; subst; constructor; auto.
    + eapply Forall_impl; [exact Hc|]. unfold deeper. intros. by rewrite Hd.
    + rewrite !Forall_app, !Forall_cons in *. unfold deeper in *. rewrite Hd. done.
  - rewrite !Forall_app, !Forall_cons in *. naive_solver.
Qed.

Lemma balanced_forest_snoc l leaf : balanced_forest l → depth leaf = 0%nat → balanced leaf → balanced_forest (l ++ [leaf]).
Proof.
  intros [Hs Hf] Hd Hb. split; [|apply Forall_app; by repeat constructor].
  clear Hf. induction Hs as [|n l Hs IH Hn]; cbn; [by repeat constructor|]. constructor; [done|]. apply Forall_app. split; [done|].
  repeat constructor. unfold deeper. lia.
Qed.

Lemma balanced_with_children n cs : balanced_forest cs → balanced (with_children cs n).
Proof. destruct n. intros []. by constructor. Qed.

Lemma balanced_children n : balanced n → balanced_forest (n_children n).
Proof. by inversion 1. Qed.

Lemma alter_push_balanced p n m leaf : balanced n → sub_at p n = Some m → n_children m ≠ [] → depth leaf = 0%nat → balanced leaf →
  balanced (alter_sub p (push_child leaf) n).
Proof.
  intros Hb Hm Hne Hd Hl. revert n Hb Hm. induction p as [|i p IH]; intros n Hb; cbn [sub_at alter_sub].
  - intros [= ->]. destruct m as [h x d cs]. apply (balanced_with_children (mkNode h x d cs) (cs ++ [leaf])), balanced_forest_snoc; [|done..].
    by apply (balanced_children (mkNode h x d cs)).
  - intros (c & Hc & Hm)%bind_Some. destruct (alter_middle (alter_sub p (push_child leaf)) i _ c Hc) as (l1 & l2 & Hcs & ->).
    pose proof (balanced_children n Hb) as Hf. apply balanced_with_children. rewrite Hcs in Hf.
    eapply balanced_forest_replace; [by eapply alter_push_depth| |exact Hf]. apply IH; [|done].
    rewrite Hcs in Hc. destruct Hf as [_ Hf]. eapply Forall_lookup_1; eauto.
Qed.
End Push.

Section Importing.
Context {H V E : Type} `{EqDecision H} `{Chain H, !ChainLaws H}.
Context (is_descendent_of : H → H → bool + E).
Hypothesis client : ∀ x y, is_descendent_of x y = inl (ancestor x y).
Context (hash : H).
Implicit Types (n m c k : Node H V) (l cs : list (Node H V)).

Abbreviation number := (number_of hash).
Abbreviation deepest_any := (deepest hash (λ _ : V, true)).

(** ** Where a block that is in the tree is *)

Lemma dup_forest l k : wf_forest l →
  Forall (λ c, ∀ k, k ∈ n_children c ≫= flatten → n_hash k = hash → ∀ m, deepest_any (flatten c) (Some m) → k ∈ n_children m) l →
  k ∈ l ≫= flatten → n_hash k = hash →
  (k ∈ l ∧ ∀ m, m ∈ l ≫= flatten → ancestor (n_hash m) hash = false) ∨
  ((∃ c, c ∈ l ∧ ancestor (n_hash c) hash = true) ∧ ∀ m, deepest_any (l ≫= flatten) (Some m) → k ∈ n_children m).
Proof.
  intros Hl Hind (c & Hc & Hk)%elem_of_forest Hh. pose proof Hl as [Hws _]. rewrite Forall_forall in Hws, Hind.
  apply list_elem_of_lookup in Hc as Hi. destruct Hi as [i Hi]. apply elem_of_flatten in Hk as [->|Hk].
  - left. split; [done|]. intros m Hm. apply (forest_no_ancestor hash l); [done| |done]. apply Forall_lookup_2. intros j c' Hj.
    destruct (decide (i = j)) as [->|Hne]; [simplify_eq; apply ancestor_irrefl|].
    destruct (wf_forest_unrelated l i j c c' Hl Hi Hj Hne) as (_ & _ & Hu). by rewrite Hh in Hu.
  - right. assert (Ha : ancestor (n_hash c) hash = true) by (rewrite <- Hh; by apply below_ancestor; [apply Hws|]).
    split; [eauto|]. intros m (Hm & Hma & _ & Hd). apply (Hind c Hc k Hk Hh).
    apply elem_of_forest in Hm as (c' & Hc' & Hm). apply list_elem_of_lookup in Hc' as [j Hj].
    assert (i = j) as ->.
    { eapply (wf_forest_one_ancestor l i j c c' hash); [done..|]. eapply flatten_ancestor_of; [|done..]. by eapply Hws, list_elem_of_lookup_2. }
    simplify_eq. split; [done|]. split; [done|]. split; [done|]. intros q Hq. apply Hd. apply elem_of_forest. eauto.
Qed.

Lemma dup_node n k : wf_node n → k ∈ n_children n ≫= flatten → n_hash k = hash → ∀ m, deepest_any (flatten n) (Some m) → k ∈ n_children m.
Proof.
  revert k. induction n as [h x d cs IH] using Node_rect_list. intros k Hw Hk Hh m (Hm & Hma & _ & Hd).
  pose proof (wf_node_children _ Hw) as Hcs. cbn [n_children] in *. apply elem_of_flatten in Hm.
  assert (Hind : Forall (λ c, ∀ k, k ∈ n_children c ≫= flatten → n_hash k = hash → ∀ m, deepest_any (flatten c) (Some m) → k ∈ n_children m) cs).
  { destruct Hcs as [Hws _]. rewrite Forall_forall in *. intros c Hc k' Hk'. apply IH; auto. }
  destruct (dup_forest cs k Hcs Hind Hk Hh) as [[Hin Hno]|[(c & Hc & Hca) Hyes]].
  - destruct Hm as [->|Hm]; [done|]. rewrite Hno in Hma; done.
  - apply Hyes. pose proof (root_in_forest c cs Hc) as Hcf.
    destruct Hm as [->|Hm].
    + exfalso. pose proof (wf_node_child _ c Hw Hc) as Hpc. cbn [n_hash] in Hpc.
      destruct (Hd c) as [->|Hx]; [apply elem_of_flatten; by right|done|done| |]; cbn [n_hash] in *; [by rewrite ancestor_irrefl in Hpc|].
      pose proof (ancestor_trans _ _ _ Hpc Hx) as Hz. by rewrite ancestor_irrefl in Hz.
    + split; [done|]. split; [done|]. split; [done|]. intros q Hq. apply Hd. apply elem_of_flatten. by right.
Qed.

(** A block of the tree is among the children of its deepest ancestor, or a root. *)
Lemma dup_found l k : wf_forest l → k ∈ l ≫= flatten → n_hash k = hash →
  match mjoin (locate_list hash (locate hash (λ _ : V, true)) 0 l) with
  | Some path => ∃ m, Tree.node_at path l = Some m ∧ k ∈ n_children m
  | None => k ∈ l
  end.
Proof.
  intros Hl Hk Hh. pose proof (locate_roots_deepest hash (λ _ : V, true) l Hl) as Hd.
  destruct (dup_forest l k Hl) as [[Hin Hno]|[(c & Hc & Hca) Hyes]]; [|done..| |].
  - destruct Hl as [Hws _]. rewrite Forall_forall in *. intros c Hc k'. apply dup_node. auto.
  - destruct (mjoin _) as [path|]; [|done]. destruct Hd as (m & _ & Hm & Hma & _). rewrite Hno in Hma; done.
  - destruct (mjoin _) as [path|]; [destruct Hd as (m & Hm & Hd); eauto|].
    by specialize (Hd c (root_in_forest c l Hc) Hca).
Qed.

(** ** The import *)

(** What the tree is when the block has been put into it. *)
Definition imported (l l' : list (Node H V)) (data : V) : Prop :=
  items l' ≡ₚ (hash, number, data) :: items l ∧ wf_forest l' ∧ (balanced_forest l → balanced_forest l').

Lemma imported_rebalance l l' data (b : bool) : items l' ≡ₚ (hash, number, data) :: items l → wf_forest l' →
  (b = false → balanced_forest l → balanced_forest l') → imported l (if b then Tree.rebalance_node <$> Tree.sort_by_depth l' else l') data.
Proof.
  intros Hi Hw Hb. destruct b; [|by split; [|split; [|apply Hb]]].
  split; [by rewrite rebalance_items|]. split; [by apply rebalance_wf|]. intros _. apply rebalance_balanced.
Qed.

Abbreviation leaf := (λ data : V, mkNode hash number data []).

Lemma leaf_wf (data : V) : wf_node (leaf data).
Proof. repeat constructor. Qed.

Lemma leaf_balanced (data : V) : balanced (leaf data).
Proof. repeat constructor. Qed.

(** The new block is not on a branch of the others among which it is put. *)
Lemma leaf_unrelated (data : V) cs : (∀ c, c ∈ cs → ancestor hash (n_hash c) = false ∧ ancestor (n_hash c) hash = false ∧ n_hash c ≠ hash) →
  Forall (unrelated (leaf data)) cs.
Proof. intros Hc. apply Forall_forall. intros c Hin. destruct (Hc c Hin) as (H1 & H2 & H3). by repeat split. Qed.

Lemma import_root l data : wf_forest l → (∀ m, m ∈ l ≫= flatten → ancestor hash (n_hash m) = false) → deepest_any (l ≫= flatten) None →
  (∀ c, c ∈ l → n_hash c ≠ hash) →
  imported l (if bool_decide (length l = 0%nat) then Tree.rebalance_node <$> Tree.sort_by_depth (l ++ [leaf data]) else l ++ [leaf data]) data.
Proof.
  intros Hw Hbelow Hd Hne.
  apply imported_rebalance.
  - rewrite items_app, items_node. solve_Permutation.
  - apply (wf_forest_perm (leaf data :: l)); [solve_Permutation|]. apply wf_forest_cons. split; [apply leaf_wf|]. split; [|done].
    apply leaf_unrelated. intros c Hc. split; [by apply Hbelow, root_in_forest|]. split; [|auto]. destruct (ancestor (n_hash c) hash) eqn:Ha; [|done]. by specialize (Hd c (root_in_forest c l Hc) Ha).
  - intros _ Hb. by apply balanced_forest_snoc; [| |apply leaf_balanced].
Qed.

Lemma import_child l path m data : wf_forest l → (∀ m, m ∈ l ≫= flatten → ancestor hash (n_hash m) = false) →
  Tree.node_at path l = Some m → deepest_any (l ≫= flatten) (Some m) → (∀ c, c ∈ n_children m → n_hash c ≠ hash) →
  imported l (let l' := Tree.alter_at path (push_child (leaf data)) l in
    if bool_decide (length (n_children m) = 0%nat) then Tree.rebalance_node <$> Tree.sort_by_depth l' else l') data.
Proof.
  intros Hw Hbelow Hm (Hin & Ha & _ & Hd) Hne. destruct path as [|i p]; [done|]. rewrite node_at_sub in Hm. apply bind_Some in Hm as (n & Hi & Hm).
  cbv zeta. rewrite alter_at_sub. destruct (alter_middle (alter_sub p (push_child (leaf data))) i l n Hi) as (l1 & l2 & Hl & ->).
  assert (Hmw : wf_node m) by (by eapply forest_wf).
  apply imported_rebalance.
  - rewrite items_middle, (alter_push_items p n m) by done. rewrite items_node, Hl, items_middle. solve_Permutation.
  - rewrite Hl in Hw at 1. eapply wf_forest_replace; [by apply alter_sub_hash, push_child_hash| |exact Hw].
    eapply alter_push_wf; [| exact Hm|apply leaf_wf|done|].
    + destruct Hw as [Hws _]. apply Forall_app in Hws as [_ Hws]. by inversion Hws.
    + apply leaf_unrelated. intros c Hc. rewrite <- Hl in *. pose proof (children_in_forest m c _ Hin Hc) as Hcin. split; [auto|]. split; [|auto]. destruct (ancestor (n_hash c) hash) eqn:Hca; [|done].
      pose proof (wf_node_child m c Hmw Hc) as Hmc.
      destruct (Hd c Hcin Hca eq_refl) as [->|Hcm]; [by rewrite ancestor_irrefl in Hmc|].
      pose proof (ancestor_trans _ _ _ Hmc Hcm) as Hz. by rewrite ancestor_irrefl in Hz.
  - intros Hlen Hb. apply bool_decide_eq_false in Hlen. rewrite Hl in Hb.
    eapply balanced_forest_replace; [eapply alter_push_depth; [exact Hm| |done]| |exact Hb]; [by destruct (n_children m)|].
    eapply alter_push_balanced; [|exact Hm|by destruct (n_children m)|done|apply leaf_balanced].
    destruct Hb as [_ Hb]. apply Forall_app in Hb as [_ Hb]. by inversion Hb.
Qed.
End Importing.

Lemma check_number_revert {H V E} (number best : Z) (t : ForkTree H V) : best_finalized_number t = Some best → number ≤ best →
  Tree.check_number (E := E) number t = (Err Revert, t).
Proof. intros Hb Hle. unfold Tree.check_number. cbn. rewrite Hb, (proj2 (Z.leb_le _ _) Hle). done. Qed.

Lemma check_number_ok {H V E} (number : Z) (t : ForkTree H V) : (∀ best, best_finalized_number t = Some best → best < number) →
  Tree.check_number (E := E) number t = (Ok tt, t).
Proof.
  intros Hb. unfold Tree.check_number. cbn. destruct (best_finalized_number t) as [best|]; [|done].
  rewrite (proj2 (Z.leb_gt _ _)) by auto. done.
Qed.

Lemma tree_iter_items {H V} (t : ForkTree H V) : Tree.tree_iter t = items (roots t).
Proof. unfold Tree.tree_iter, items. by rewrite node_iter_flatten. Qed.

Lemma existsb_hash {H V} `{EqDecision H} (hash : H) (l : list (Node H V)) :
  existsb (λ elem, bool_decide (n_hash elem = hash)) l = true ↔ ∃ c, c ∈ l ∧ n_hash c = hash.
Proof. rewrite existsb_exists. setoid_rewrite list_elem_of_In. by setoid_rewrite bool_decide_eq_true. Qed.

Lemma rebalance_if {H V E} (b : bool) (rs : list (Node H V)) best :
  (if b then Tree.rebalance (E := E) else ret tt) (mkTree rs best) = (Ok tt, mkTree (if b then Tree.rebalance_node <$> Tree.sort_by_depth rs else rs) best).
Proof. by destruct b. Qed.

(** Importing a block that is in the tree or whose descendents are not, the order the documentation asks for: a block that is not above the
    last finalized one is refused as a revert and one that is anywhere in the tree as a duplicate, with the tree as it was, although only the children of
    one node are compared.  Otherwise the tree holds the nodes it had and the new one, it is still well formed, so that the new node is under
    its deepest ancestor and on no branch of its siblings, the result says whether it has no ancestor in the tree, and a tree that was in the order of the depth of
    its branches still is, although it is sorted again only when the new node is the first child. *)
Lemma import_spec {H V E} `{EqDecision H} `{Chain H, !ChainLaws H} (is_descendent_of : H → H → bool + E) (hash : H) (data : V) (t : ForkTree H V) :
  (∀ x y, is_descendent_of x y = inl (ancestor x y)) → wf_forest (roots t) →
  (hash ∉ n_hash <$> Tree.node_iter t → ∀ m, m ∈ Tree.node_iter t → ancestor hash (n_hash m) = false) →
  let run := Tree.import hash (number_of hash) data is_descendent_of t in
  (∀ best, best_finalized_number t = Some best → number_of hash ≤ best → run = (Err Revert, t)) ∧
  ((∀ best, best_finalized_number t = Some best → best < number_of hash) →
    (hash ∈ n_hash <$> Tree.node_iter t → run = (Err DuplicateHash, t)) ∧
    (hash ∉ n_hash <$> Tree.node_iter t → ∃ is_root t', run = (Ok is_root, t') ∧
      (is_root = true ↔ ∀ m, m ∈ Tree.node_iter t → ancestor (n_hash m) hash = false) ∧
      Tree.tree_iter t' ≡ₚ (hash, number_of hash, data) :: Tree.tree_iter t ∧
      wf_forest (roots t') ∧ (balanced_forest (roots t) → balanced_forest (roots t')) ∧ best_finalized_number t' = best_finalized_number t)).
Proof.
  intros Hc Hw Hbelow' run. rewrite node_iter_flatten in *. setoid_rewrite tree_iter_items.
  split; [intros best Hb Hle; unfold run, Tree.import, bind; by rewrite (check_number_revert _ best)|].
  intros Hbest. unfold run, Tree.import. rewrite (bind_run _ _ _ tt t) by (by apply check_number_ok).
  erewrite bind_run by by apply find_index_locate. erewrite bind_run by done.
  pose proof (locate_roots_deepest hash (λ _ : V, true) (roots t) Hw) as Hd. pose proof (λ k, dup_found hash (roots t) k Hw) as Hdup. cbn [id] in *.
  destruct (mjoin _) as [path|].
  - destruct Hd as (m & Hm & Hd). rewrite (bind_run _ _ t (n_children m) t) by (cbn; by rewrite Hm). split.
    + intros (k & -> & Hk)%list_elem_of_fmap. destruct (Hdup k Hk eq_refl) as (m' & Hm' & Hin). simplify_eq. unfold bind.
      by rewrite (proj2 (existsb_hash _ _)) by eauto.
    + intros Hno. pose proof (Hbelow' Hno) as Hbelow. assert (Hne : ∀ c, c ∈ n_children m → n_hash c ≠ hash).
      { intros c Hin He. apply Hno. rewrite <- He. apply list_elem_of_fmap_2. eapply children_in_forest; [apply Hd|exact Hin]. }
      destruct (existsb _ _) eqn:He; [apply existsb_hash in He as (c & Hin & He); by destruct (Hne c Hin)|].
      destruct (import_child hash (roots t) path m data Hw Hbelow Hm Hd Hne) as (Hi & Hwf & Hb).
      eexists false, _. split; [unfold bind at 1; cbn; unfold bind; by rewrite rebalance_if|]. split; [|done].
      split; [done|]. intros Hall. destruct Hd as (Hin & Ha & _). by rewrite Hall in Ha.
  - erewrite bind_run by done. split.
    + intros (k & -> & Hk)%list_elem_of_fmap. unfold bind. by rewrite (proj2 (existsb_hash _ _)) by (exists k; split; [by apply Hdup|done]).
    + intros Hno. pose proof (Hbelow' Hno) as Hbelow. assert (Hne : ∀ c, c ∈ roots t → n_hash c ≠ hash).
      { intros c Hin He. apply Hno. rewrite <- He. by apply list_elem_of_fmap_2, root_in_forest. }
      destruct (existsb _ _) eqn:He; [apply existsb_hash in He as (c & Hin & He); by destruct (Hne c Hin)|].
      destruct (import_root hash (roots t) data Hw Hbelow Hd Hne) as (Hi & Hwf & Hb).
      eexists true, _. split; [unfold bind at 1; cbn; unfold bind; by rewrite rebalance_if|]. split; [|done].
      split; [|done]. intros _ m Hm. destruct (ancestor (n_hash m) hash) eqn:Ha; [by specialize (Hd m Hm Ha)|done].
Qed.
