(* ===== verification/ForkTreeFinalize.v ===== *)
(** Finalizing blocks and pruning the fork tree: what is left are the descendents of the finalized block. *)

From S2P Require Import Prelude ForkTree ForkTreeProps ForkTreeFind ForkTreeImport.

Section Finalize.
Context {H V E : Type} `{EqDecision H} `{Chain H, !ChainLaws H}.
Context (is_descendent_of : H → H → bool + E).
Hypothesis client : ∀ x y, is_descendent_of x y = inl (ancestor x y).
Context (hash : H).
Implicit Types (n m c r k : Node H V) (l cs : list (Node H V)) (t : ForkTree H V).

Abbreviation number := (number_of hash).

(** ** The descendents of a block in a forest *)

Definition below (l : list (H * Z * V)) : list (H * Z * V) := filter (λ x, ancestor hash x.1.1 = true) l.

Lemma below_app (l1 l2 : list (H * Z * V)) : below (l1 ++ l2) = below l1 ++ below l2.
Proof. apply filter_app. Qed.

#[global] Instance below_proper : Proper ((≡ₚ) ==> (≡ₚ)) below.
Proof. intros l1 l2 Hp. unfold below. by rewrite Hp. Qed.

Lemma below_all l : (∀ m, m ∈ l ≫= flatten → ancestor hash (n_hash m) = true) → below (items l) = items l.
Proof.
  unfold items. induction (l ≫= flatten) as [|m ms IH]; intros Hm; [done|]. cbn [fmap list_fmap]. unfold below.
  rewrite filter_cons_True by (apply Hm; left). f_equal. apply IH. intros k Hk. apply Hm. by right.
Qed.

Lemma below_none l : (∀ m, m ∈ l ≫= flatten → ancestor hash (n_hash m) = false) → below (items l) = [].
Proof.
  unfold items. induction (l ≫= flatten) as [|m ms IH]; intros Hm; [done|]. cbn [fmap list_fmap]. unfold below.
  rewrite filter_cons_False by (cbn; rewrite Hm by left; done). apply IH. intros k Hk. apply Hm. by right.
Qed.

Lemma below_tree r : wf_node r → ancestor hash (n_hash r) = true → below (items [r]) = items [r].
Proof.
  intros Hw Ha. apply below_all. cbn. rewrite app_nil_r. intros m Hm.
  destruct (flatten_ancestor r m Hw Hm) as [->|Hd]; [done|]. by eapply ancestor_trans.
Qed.

Definition off_branch n : Prop := n_hash n ≠ hash ∧ ancestor hash (n_hash n) = false ∧ ancestor (n_hash n) hash = false.

(** A tree that is not on the branch of the block has no descendents of it, nor the block itself. *)
Lemma off_branch_tree r m : wf_node r → off_branch r → m ∈ flatten r → off_branch m.
Proof.
  intros Hw (Hne & Hd & Ha) Hm. destruct (flatten_ancestor r m Hw Hm) as [->|Hrm]; [done|]. repeat split.
  - intros He. congruence.
  - destruct (ancestor hash (n_hash m)) eqn:Hx; [|done]. destruct (ancestor_linear _ _ _ Hrm Hx) as [?|[?|?]]; congruence.
  - destruct (ancestor (n_hash m) hash) eqn:Hx; [|done]. pose proof (ancestor_trans _ _ _ Hrm Hx). congruence.
Qed.

Lemma below_off r : wf_node r → off_branch r → below (items [r]) = [].
Proof. intros Hw Ho. apply below_none. cbn. rewrite app_nil_r. intros m Hm. by apply (off_branch_tree r m Hw Ho). Qed.

Lemma unrelated_off r m : unrelated r m → n_hash r = hash → off_branch m.
Proof. intros (Hne & Hd & Ha) He. unfold off_branch. rewrite <- He. split; [congruence|done]. Qed.

Lemma below_unrelated l : Forall wf_node l → Forall off_branch l → below (items l) = [].
Proof.
  induction 1 as [|r l Hr _ IH]; intros Ho; [done|]. inversion Ho; subst.
  rewrite (items_app [r] l : items (r :: l) = _), below_app, below_off by done. by apply IH.
Qed.

(** The descendents of a root are what is below it. *)
Lemma below_root l r : wf_forest l → r ∈ l → n_hash r = hash → below (items l) = items (n_children r).
Proof.
  intros Hl Hr Hh. apply list_elem_of_split in Hr as (l1 & l2 & ->). apply wf_forest_app in Hl as ([Hw1 _] & Hl2 & Hu).
  apply wf_forest_cons in Hl2 as (Hw & Hu2 & [Hw2 _]). rewrite items_app, items_cons, below_app, (below_unrelated l1), app_nil_l; [|done|].
  - unfold below at 1. rewrite filter_cons_False by (cbn; by rewrite Hh, ancestor_irrefl).
    change (below (items (n_children r) ++ items l2) = items (n_children r)). rewrite below_app, below_all, (below_unrelated l2), app_nil_r; [done|done| |].
    + eapply Forall_impl; [exact Hu2|]. intros m Hm. by apply (unrelated_off r m).
    + intros m Hm. rewrite <- Hh. by apply below_ancestor.
  - apply Forall_forall. intros m Hm. apply (unrelated_off r); [|done]. apply unrelated_sym, Hu; [done|left].
Qed.

(** ** Finalizing a root *)

Lemma root_position_some l i : Tree.position hash l = Some i → ∃ r, l !! i = Some r ∧ n_hash r = hash.
Proof.
  revert i. induction l as [|n l IH]; intros i; [done|]. cbn. case_bool_decide as Hn; [intros [= <-]; eauto|].
  intros (j & Hj & ->)%fmap_Some. by apply IH.
Qed.

Lemma root_position_none l : Tree.position hash l = None → ∀ r, r ∈ l → n_hash r ≠ hash.
Proof.
  induction l as [|n l IH]; [by intros _ r []%not_elem_of_nil|]. cbn. case_bool_decide as Hn; [done|].
  intros Hp%fmap_None r [->|Hr]%elem_of_cons; [done|by apply IH].
Qed.

Lemma finalize_root_at_run i r t : roots t !! i = Some r →
  Tree.finalize_root_at (E := E) i t = (Ok (n_data r), mkTree (n_children r) (Some (n_number r))).
Proof. intros Hi. unfold Tree.finalize_root_at. cbn. by rewrite Hi. Qed.

Lemma finalize_root_run t :
  (∃ r, r ∈ roots t ∧ n_hash r = hash ∧ Tree.finalize_root (E := E) hash t = (Ok (Some (n_data r)), mkTree (n_children r) (Some (n_number r)))) ∨
  ((∀ r, r ∈ roots t → n_hash r ≠ hash) ∧ Tree.finalize_root (E := E) hash t = (Ok None, t)).
Proof.
  unfold Tree.finalize_root. erewrite bind_run by done. cbn [id]. destruct (Tree.position hash (roots t)) as [i|] eqn:Hp.
  - left. apply root_position_some in Hp as (r & Hi & Hh). exists r. split; [by eapply list_elem_of_lookup_2|]. split; [done|].
    by erewrite bind_run by by apply finalize_root_at_run.
  - right. split; [|done]. by apply root_position_none.
Qed.

(** What a finalized block leaves: its descendents, in a well-formed tree, and its number as the best finalized one. *)
Definition finalized t t' : Prop :=
  Tree.tree_iter t' ≡ₚ below (Tree.tree_iter t) ∧ wf_forest (roots t') ∧ best_finalized_number t' = Some number.

Lemma finalized_root t r : wf_forest (roots t) → r ∈ roots t → n_hash r = hash → finalized t (mkTree (n_children r) (Some (n_number r))).
Proof.
  intros Hw Hr Hh. unfold finalized. rewrite !tree_iter_items. cbn [roots best_finalized_number]. rewrite (below_root _ r) by done.
  destruct Hw as [Hws _]. rewrite Forall_forall in Hws. split; [done|]. split; [by apply wf_node_children, Hws|]. by rewrite wf_node_number, Hh by auto.
Qed.

(** ** Keeping some of the roots *)

Lemma retain_roots_run (keep : Node H V → M (ForkTree H V) (TreeError E) bool) (p : Node H V → bool) rs t (changed : bool) :
  Forall (λ r, ∀ t, keep r t = (Ok (p r), t)) rs →
  Tree.retain_roots rs keep changed t = (Ok (changed || negb (forallb p rs)), mkTree (roots t ++ filter (λ r, p r = true) rs) (best_finalized_number t)).
Proof.
  intros Hk. revert t changed. induction Hk as [|r rs Hr _ IH]; intros t changed; [cbn; rewrite app_nil_r, orb_false_r; by destruct t|].
  cbn [Tree.retain_roots]. rewrite (bind_run _ _ _ _ _ (Hr t)). cbn [forallb]. destruct (p r) eqn:Hp.
  - rewrite filter_cons_True by done. erewrite bind_run by done. erewrite bind_run by done. rewrite IH. cbn. by rewrite <- app_assoc.
  - rewrite filter_cons_False by congruence. rewrite IH. cbn. by rewrite orb_true_r.
Qed.

Lemma is_descendant_run r t : wf_node r → Tree.is_descendant hash number is_descendent_of r t = (Ok (ancestor hash (n_hash r)), t).
Proof.
  intros Hw. apply wf_node_number in Hw. unfold Tree.is_descendant, Tree.query. rewrite client.
  destruct (Z.ltb_spec number (n_number r)); [done|]. destruct (ancestor hash (n_hash r)) eqn:Ha; [|done]. apply ancestor_number in Ha. lia.
Qed.

(** The question put to the client only when the numbers allow it. *)
Lemma ancestor_query_run r t : wf_node r →
  (if n_number r <? number then Tree.query is_descendent_of (n_hash r) hash else ret false) t = (Ok (ancestor (n_hash r) hash), t).
Proof.
  intros Hw. apply wf_node_number in Hw. unfold Tree.query. rewrite client.
  destruct (Z.ltb_spec (n_number r) number); [done|]. destruct (ancestor (n_hash r) hash) eqn:Ha; [|done]. apply ancestor_number in Ha. lia.
Qed.

Lemma no_ancestor_run rs t : Forall wf_node rs →
  Tree.no_ancestor rs hash number is_descendent_of t = if existsb (λ r, ancestor (n_hash r) hash) rs then (Err UnfinalizedAncestor, t) else (Ok tt, t).
Proof.
  induction 1 as [|r rs Hr _ IH]; [done|]. cbn [Tree.no_ancestor existsb]. rewrite (bind_run _ _ _ _ _ (ancestor_query_run r t Hr)).
  by destruct (ancestor (n_hash r) hash).
Qed.

Lemma StronglySorted_filter {A} (R : A → A → Prop) (P : A → Prop) `{∀ x, Decision (P x)} (l : list A) : StronglySorted R l → StronglySorted R (filter P l).
Proof.
  induction 1 as [|x l _ IH Hx]; [constructor|]. destruct (decide (P x)); [rewrite filter_cons_True by done|by rewrite filter_cons_False by done].
  constructor; [done|]. apply Forall_forall. intros y Hy%list_elem_of_filter. rewrite Forall_forall in Hx. apply Hx, Hy.
Qed.

Lemma Forall_filter_sub {A} (Q P : A → Prop) `{∀ x, Decision (P x)} (l : list A) : Forall Q l → Forall Q (filter P l).
Proof. rewrite !Forall_forall. intros Hq x Hx%list_elem_of_filter. apply Hq, Hx. Qed.

Lemma wf_forest_filter (p : Node H V → bool) l : wf_forest l → wf_forest (filter (λ r, p r = true) l).
Proof. intros [Hw Hs]. split; [by apply Forall_filter_sub|by apply StronglySorted_filter]. Qed.

Lemma balanced_forest_filter (p : Node H V → bool) l : balanced_forest l → balanced_forest (filter (λ r, p r = true) l).
Proof. intros [Hs Hb]. split; [by apply StronglySorted_filter|by apply Forall_filter_sub]. Qed.

(** With no ancestor of the block among the roots, keeping the roots that descend from it keeps its descendents. *)
Lemma below_filter l : wf_forest l → (∀ r, r ∈ l → n_hash r ≠ hash ∧ ancestor (n_hash r) hash = false) →
  items (filter (λ r, ancestor hash (n_hash r) = true) l) = below (items l).
Proof.
  intros [Hw _] Hno. induction Hw as [|r l Hr _ IH]; [done|].
  rewrite (items_app [r] l : items (r :: l) = _), below_app, <- IH by (intros c Hc; apply Hno; by right).
  destruct (Hno r) as [Hne Ha]; [left|]. destruct (ancestor hash (n_hash r)) eqn:Hd.
  - rewrite filter_cons_True, below_tree by done. apply (items_app [r]).
  - rewrite filter_cons_False by congruence. by rewrite below_off.
Qed.

(** When only descendents of the block are left and nothing is missing, the roots descend from it. *)
Lemma below_item l r : below (items l) ≡ₚ items l → r ∈ l → ancestor hash (n_hash r) = true.
Proof.
  intros Hp Hr. assert (Hin : n_item r ∈ below (items l)) by (rewrite Hp; by apply list_elem_of_fmap_2, root_in_forest).
  unfold below in Hin. by apply list_elem_of_filter in Hin as [? _].
Qed.

Lemma filter_all_forallb (p : Node H V → bool) l : forallb p l = true → filter (λ r, p r = true) l = l.
Proof. induction l as [|r l IH]; [done|]. cbn [forallb]. intros [Hr Hl]%andb_true_iff. rewrite filter_cons_True by done. by rewrite IH. Qed.
End Finalize.

(** Finalizing a block of the chain.  Not above the last finalized one it is refused as a revert, and below a root of the tree that is
    not finalized it is refused too, with the tree as it was.  Otherwise exactly the nodes that descend from the block are left, in the order they were in;
    the tree is well formed, and in the order of its depth if it was; the number of the block is the best finalized one; and the result has the data
    of the block if it was a root, and otherwise says whether the tree has changed. *)
Lemma finalize_spec {H V E} `{EqDecision H} `{Chain H, !ChainLaws H} (is_descendent_of : H → H → bool + E) (hash : H) (t : ForkTree H V) :
  (∀ x y, is_descendent_of x y = inl (ancestor x y)) → wf_forest (roots t) →
  let run := Tree.finalize hash (number_of hash) is_descendent_of t in
  (∀ best, best_finalized_number t = Some best → number_of hash ≤ best → run = (Err Revert, t)) ∧
  ((∀ best, best_finalized_number t = Some best → best < number_of hash) →
    ((∃ r, r ∈ roots t ∧ ancestor (n_hash r) hash = true) → run = (Err UnfinalizedAncestor, t)) ∧
    ((∀ r, r ∈ roots t → ancestor (n_hash r) hash = false) → ∃ res t', run = (Ok res, t') ∧
      Tree.tree_iter t' = below hash (Tree.tree_iter t) ∧ finalized hash t t' ∧ (balanced_forest (roots t) → balanced_forest (roots t')) ∧
      match res with
      | Changed (Some data) => ∃ r, r ∈ roots t ∧ n_hash r = hash ∧ n_data r = data
      | Changed None => (∀ r, r ∈ roots t → n_hash r ≠ hash) ∧ Tree.tree_iter t' ≢ₚ Tree.tree_iter t
      | Unchanged => (∀ r, r ∈ roots t → n_hash r ≠ hash) ∧ roots t' = roots t
      end)).
Proof.
  intros Hc Hw run. pose proof Hw as [Hws _]. split; [intros best Hb Hle; unfold run, Tree.finalize, bind; by rewrite (check_number_revert _ best)|].
  intros Hbest. unfold run, Tree.finalize. rewrite (bind_run _ _ _ tt t) by (by apply check_number_ok).
  destruct (finalize_root_run (E := E) hash t) as [(r & Hr & Hh & Hf)|[Hne Hf]]; rewrite (bind_run _ _ _ _ _ Hf).
  - rewrite Forall_forall in Hws. split.
    + intros (q & Hq & Ha). exfalso. apply list_elem_of_lookup in Hr as Hi, Hq as Hj. destruct Hi as [i Hi], Hj as [j Hj].
      destruct (decide (i = j)) as [->|Hij]; [simplify_eq; by rewrite ancestor_irrefl in Ha|].
      destruct (wf_forest_unrelated _ _ _ _ _ Hw Hi Hj Hij) as (_ & _ & Hu). congruence.
    + intros _. eexists _, _. split; [done|]. rewrite !tree_iter_items. split; [by rewrite (below_root hash _ r)|]. split; [by apply finalized_root|].
      split; [|eauto]. intros [_ Hb]. rewrite Forall_forall in Hb. by apply balanced_children, Hb.
  - erewrite bind_run by done. cbn [id]. pose proof (no_ancestor_run is_descendent_of Hc hash (roots t) t Hws) as Hn. split.
    + intros (r & Hr & Ha). unfold bind. rewrite Hn. by rewrite (proj2 (existsb_exists _ _)) by (exists r; by rewrite <- list_elem_of_In).
    + intros Hno. destruct (existsb _ _) eqn:He in Hn.
      { apply existsb_exists in He as (r & Hr%list_elem_of_In & Ha). by rewrite Hno in Ha. }
      rewrite (bind_run _ _ _ _ _ Hn). erewrite bind_run by done.
      erewrite bind_run by (apply (retain_roots_run _ (λ r, ancestor hash (n_hash r))); eapply Forall_impl; [exact Hws|]; intros r Hr t0; by apply is_descendant_run).
      erewrite bind_run by done. eexists _, _. split; [done|]. unfold finalized. rewrite !tree_iter_items. cbn [roots best_finalized_number app orb].
      rewrite below_filter by auto. split; [done|]. split; [split; [done|split; [by apply wf_forest_filter|done]]|].
      split; [apply balanced_forest_filter|]. destruct (forallb _ _) eqn:Hall; cbn [negb Tree.result_of]; split; try done.
      * by apply filter_all_forallb.
      * intros Hp. apply not_true_iff_false in Hall. apply Hall, forallb_forall.
        intros r Hr%list_elem_of_In. by apply (below_item hash (roots t)).
Qed.
