(* ===== verification/ForkTreeAncestors.v ===== *)
(** Finalizing a block together with its ancestors. *)

From S2P Require Import Prelude ForkTree ForkTreeProps ForkTreeFind ForkTreeImport ForkTreeFinalize.

Section WithAncestors.
Context {H V E : Type} `{EqDecision H} `{Chain H, !ChainLaws H}.
Context (is_descendent_of : H → H → bool + E).
Hypothesis client : ∀ x y, is_descendent_of x y = inl (ancestor x y).
Context (hash : H).
Implicit Types (n m c r k : Node H V) (l cs pre post : list (Node H V)) (t : ForkTree H V).

Abbreviation number := (number_of hash).

Lemma swap_remove_spec pre r post : ∃ post', Tree.swap_remove (length pre) (pre ++ r :: post) = pre ++ post' ∧ post' ≡ₚ post.
Proof.
  unfold Tree.swap_remove. destruct post as [|x post _] using rev_ind.
  - exists []. rewrite last_snoc, length_app. cbn [length]. rewrite bool_decide_eq_true_2 by lia. rewrite take_app_length, app_nil_r. done.
  - exists (x :: post). split; [|solve_Permutation].
    assert (Hl : pre ++ r :: post ++ [x] = (pre ++ r :: post) ++ [x]) by (by rewrite <- app_assoc). rewrite Hl, last_snoc, <- Hl.
    rewrite !length_app. cbn [length]. rewrite length_app. cbn [length]. rewrite bool_decide_eq_false_2 by lia.
    rewrite take_app_length. f_equal. f_equal. rewrite (cons_middle r pre), app_assoc.
    rewrite (drop_app_length' (pre ++ [r])) by (rewrite length_app; cbn; lia).
    by rewrite (take_app_length' post) by lia.
Qed.

(** Opening an ancestor puts its children among the roots, on branches of their own. *)
Lemma open_wf r l : wf_forest (r :: l) → wf_forest (l ++ n_children r).
Proof.
  intros (Hw & Hu & Hl)%wf_forest_cons. apply wf_forest_app. split; [done|]. split; [by apply wf_node_children|].
  intros n c Hn Hc. rewrite Forall_forall in Hu. destruct (Hu n Hn) as (Hne & H1 & H2). pose proof (wf_node_child r c Hw Hc) as Ha. split; [congruence|]. split.
  - destruct (ancestor (n_hash n) (n_hash c)) eqn:Hx; [|done]. destruct (ancestor_linear _ _ _ Ha Hx) as [?|[?|?]]; congruence.
  - destruct (ancestor (n_hash c) (n_hash n)) eqn:Hx; [|done]. pose proof (ancestor_trans _ _ _ Ha Hx). congruence.
Qed.

(** What the loop does, from a position where the roots before it descend from the block. *)
Definition opened (l l' : list (Node H V)) (res : option V) (changed changed' : bool) (best best' : option Z) : Prop :=
  items l' ≡ₚ below hash (items l) ∧ wf_forest l' ∧
  (changed' = false → res = None ∧ l' = l ∧ changed = false) ∧
  (changed' = true → res = None → changed = true ∨ items l' ≢ₚ items l) ∧
  match res with
  | Some d => best' = Some number ∧ ∃ k, k ∈ l ≫= flatten ∧ n_hash k = hash ∧ n_data k = d
  | None => best' = best ∧ ∀ k, k ∈ l ≫= flatten → n_hash k ≠ hash
  end.

Lemma opened_done l changed best : wf_forest l → Forall (λ r, ancestor hash (n_hash r) = true) l → opened l l None changed changed best best.
Proof.
  intros Hw Hd. assert (Hall : ∀ k, k ∈ l ≫= flatten → ancestor hash (n_hash k) = true).
  { intros k (r & Hr & Hk)%elem_of_forest. destruct Hw as [Hws _]. rewrite Forall_forall in Hws, Hd.
    destruct (flatten_ancestor r k (Hws r Hr) Hk) as [->|Ha]; [auto|]. eapply ancestor_trans; eauto. }
  split; [by rewrite below_all|]. split; [done|]. split; [done|]. split; [auto|]. split; [done|].
  intros k Hk He. apply Hall in Hk. by rewrite He, ancestor_irrefl in Hk.
Qed.

Lemma opened_root l r changed best : wf_forest l → r ∈ l → n_hash r = hash → opened l (n_children r) (Some (n_data r)) changed true best (Some (n_number r)).
Proof.
  intros Hw Hr Hh. destruct (finalized_root hash (mkTree l best) r Hw Hr Hh) as (Hi & Hwf & Hb). rewrite !tree_iter_items in Hi. cbn in Hi, Hwf, Hb.
  split; [done|]. split; [done|]. split; [done|]. split; [done|]. split; [done|]. exists r. split; [by apply root_in_forest|done].
Qed.

(** Going on after a root has been taken out, with its children put back if it is an ancestor. *)
Lemma opened_step r l l1 l' res changed changed' best best' :
  wf_forest (r :: l) → n_hash r ≠ hash → ancestor hash (n_hash r) = false →
  l1 ≡ₚ l ++ (if ancestor (n_hash r) hash then n_children r else []) →
  opened l1 l' res true changed' best best' → ∀ l0, l0 ≡ₚ r :: l → opened l0 l' res changed changed' best best'.
Proof.
  intros Hw Hne Hd Hl1 (Hi & Hwf & Hf & Ht & Hres) l0 Hl0.
  assert (Hwr : wf_node r) by (by apply wf_forest_cons in Hw as [? _]).
  assert (Hb : below hash (items l1) ≡ₚ below hash (items l0)).
  { rewrite Hl1, Hl0, (items_app [r] l : items (r :: l) = _), items_app, !below_app. rewrite Permutation_app_comm. f_equiv.
    destruct (ancestor (n_hash r) hash) eqn:Ha; [|by rewrite (below_off hash r Hwr)].
    rewrite items_node. unfold below at 2. rewrite filter_cons_False by (cbn; congruence). done. }
  split; [by rewrite Hi, Hb|]. split; [done|]. split; [intros He; destruct (Hf He) as (? & ? & ?); done|]. split.
  - intros _ _. right. intros Hp. rewrite Hi, Hb in Hp. assert (Hin : n_item r ∈ below hash (items l0)).
    { rewrite Hp, Hl0, items_cons. left. }
    unfold below in Hin. apply list_elem_of_filter in Hin as [Hx _]. cbn in Hx. congruence.
  - assert (Hk : ∀ k, k ∈ l0 ≫= flatten → n_hash k = hash → k ∈ l1 ≫= flatten).
    { intros k Hk Hh. rewrite Hl0 in Hk. rewrite Hl1, bind_app, elem_of_app. apply elem_of_app in Hk as [Hk|Hk]; [|by left]. right.
      destruct (ancestor (n_hash r) hash) eqn:Ha; [apply elem_of_flatten in Hk as [->|Hk]; done|].
      destruct (off_branch_tree hash r k Hwr) as [Hx _]; [done..|]. done. }
    assert (Hk' : ∀ k, k ∈ l1 ≫= flatten → k ∈ l0 ≫= flatten).
    { intros k. rewrite Hl0, Hl1, bind_app, elem_of_app. cbn [mbind list_bind]. rewrite elem_of_app, elem_of_flatten.
      destruct (ancestor (n_hash r) hash); [tauto|]. intros [?|[]%not_elem_of_nil]; tauto. }
    destruct res as [d|]; [destruct Hres as [? (k & ? & ? & ?)]; eauto 6|]. destruct Hres as [? Hno]. split; [done|]. intros k Hin Hh. by eapply Hno; eauto.
Qed.

Lemma open_loop_run fuel pre post best changed :
  wf_forest (pre ++ post) → Forall (λ r, ancestor hash (n_hash r) = true) pre → (Tree.forest_size post ≤ fuel)%nat →
  ∃ res changed' l' best', Tree.open_loop fuel (length pre) hash number is_descendent_of changed (mkTree (pre ++ post) best) = (Ok (res, changed'), mkTree l' best') ∧
    opened (pre ++ post) l' res changed changed' best best'.
Proof.
  revert pre post changed. induction fuel as [|fuel IH]; intros pre [|r post] changed Hw Hpre Hf; try (rewrite forest_size_cons, n_size_eq in Hf; lia).
  1,2: rewrite app_nil_r in *; exists None, changed, pre, best; cbn [Tree.open_loop]; erewrite bind_run by done; cbn [id roots];
    rewrite lookup_ge_None_2 by lia; split; [done|]; by apply opened_done.
  cbn [Tree.open_loop]. erewrite bind_run by done. cbn [id roots]. rewrite list_lookup_middle by done.
  pose proof (wf_forest_perm (pre ++ r :: post) (r :: pre ++ post) ltac:(solve_Permutation) Hw) as Hw'.
  assert (Hwr : wf_node r) by (by apply wf_forest_cons in Hw' as [? _]).
  case_bool_decide as Hh.
  - erewrite bind_run by (apply finalize_root_at_run; cbn [roots]; by apply list_lookup_middle).
    eexists _, _, _, _. split; [done|]. by apply opened_root; [|apply elem_of_app; right; left|].
  - rewrite (bind_run _ _ _ _ _ (is_descendant_run is_descendent_of client hash r _ Hwr)).
    destruct (ancestor hash (n_hash r)) eqn:Hd.
    + specialize (IH (pre ++ [r]) post changed). rewrite length_app, Nat.add_1_r, <- app_assoc in IH. apply IH; [done| |].
      * apply Forall_app. split; [done|]. by constructor.
      * rewrite forest_size_cons, n_size_eq in Hf. lia.
    + rewrite (bind_run _ _ _ _ _ (ancestor_query_run is_descendent_of client hash r _ Hwr)). erewrite bind_run by done. cbn [best_finalized_number].
      destruct (swap_remove_spec pre r post) as (post' & -> & Hp). rewrite <- app_assoc.
      set (cs := if ancestor (n_hash r) hash then n_children r else []).
      destruct (IH pre (post' ++ cs) true) as (res & changed' & l' & best' & Hrun & Ho).
      * apply (wf_forest_perm ((pre ++ post) ++ cs)); [rewrite Hp; solve_Permutation|]. unfold cs. destruct (ancestor (n_hash r) hash); [by apply open_wf|].
        rewrite app_nil_r. by apply wf_forest_cons in Hw' as (_ & _ & ?).
      * done.
      * rewrite forest_size_cons, n_size_eq in Hf. rewrite forest_size_app, (forest_size_perm _ _ Hp). unfold cs. destruct (ancestor (n_hash r) hash); cbn; lia.
      * eexists _, _, _, _. split; [exact Hrun|]. eapply (opened_step r (pre ++ post)); [done|done|done| |exact Ho|solve_Permutation].
        rewrite Hp. fold cs. solve_Permutation.
Qed.
End WithAncestors.

(** Finalizing a block with its ancestors.  Not above the last finalized one it is refused as a revert.  Otherwise, whether it is in the tree or not and wherever in it, the
    call succeeds and exactly the descendents of the block are left: the loop that opens the ancestors and takes out the roots of other branches, in a vector
    where the last root takes the place of the one removed, ends within the number of the nodes.  The tree is well formed, the number of the block is the best finalized one, and
    the result has the data of the block if it was in the tree, and otherwise says whether the tree has changed. *)
Lemma finalize_with_ancestors_spec {H V E} `{EqDecision H} `{Chain H, !ChainLaws H} (is_descendent_of : H → H → bool + E) (hash : H) (t : ForkTree H V) :
  (∀ x y, is_descendent_of x y = inl (ancestor x y)) → wf_forest (roots t) →
  let run := Tree.finalize_with_ancestors hash (number_of hash) is_descendent_of t in
  (∀ best, best_finalized_number t = Some best → number_of hash ≤ best → run = (Err Revert, t)) ∧
  ((∀ best, best_finalized_number t = Some best → best < number_of hash) → ∃ res t', run = (Ok res, t') ∧ finalized hash t t' ∧
    match res with
    | Changed (Some data) => ∃ k, k ∈ Tree.node_iter t ∧ n_hash k = hash ∧ n_data k = data
    | Changed None => (∀ k, k ∈ Tree.node_iter t → n_hash k ≠ hash) ∧ Tree.tree_iter t' ≢ₚ Tree.tree_iter t
    | Unchanged => (∀ k, k ∈ Tree.node_iter t → n_hash k ≠ hash) ∧ roots t' = roots t
    end).
Proof.
  intros Hc Hw run. split; [intros best Hb Hle; unfold run, Tree.finalize_with_ancestors, bind; by rewrite (check_number_revert _ best)|].
  intros Hbest. unfold run, Tree.finalize_with_ancestors. rewrite (bind_run _ _ _ tt t) by (by apply check_number_ok). rewrite node_iter_flatten.
  destruct (finalize_root_run (E := E) hash t) as [(r & Hr & Hh & Hf)|[Hne Hf]]; rewrite (bind_run _ _ _ _ _ Hf).
  - eexists _, _. split; [done|]. split; [by apply finalized_root|]. exists r. split; [by apply root_in_forest|done].
  - erewrite bind_run by done. cbn [id].
    destruct (open_loop_run is_descendent_of Hc hash (Tree.forest_size (roots t)) [] (roots t) (best_finalized_number t) false) as (res & changed & l' & best' & Hrun & Ho); [done|constructor|done|].
    destruct t as [rs best]. cbn [roots best_finalized_number length app] in *. rewrite (bind_run _ _ _ _ _ Hrun).
    destruct Ho as (Hi & Hwf & Hfalse & Htrue & Hres). cbn [fst snd]. unfold finalized. setoid_rewrite tree_iter_items. cbn [roots best_finalized_number].
    destruct res as [d|]; [eexists _, _; split; [done|]; split; [|apply Hres]; split; [done|]; split; [done|apply Hres]|].
    destruct Hres as [-> Hno]. erewrite bind_run by done. eexists _, _. split; [done|]. split; [done|].
    destruct changed; cbn [Tree.result_of roots]; split; try done; [rewrite !tree_iter_items; by destruct (Htrue eq_refl eq_refl)|by destruct (Hfalse eq_refl) as (_ & -> & _)].
Qed.
