(* ===== verification/ForkTreePrune.v ===== *)
(** Pruning the fork tree to the deepest ancestor of a block, and finalizing by a descendent of a node. *)

From S2P Require Import Prelude ForkTree ForkTreeProps ForkTreeFind ForkTreeImport ForkTreeFinalize.

(** ** The branch of a block *)

(** The node is the block or one of its ancestors. *)
Definition on_branch {H V} `{EqDecision H} `{Chain H} (hash : H) (n : Node H V) : bool := bool_decide (n_hash n = hash) || ancestor (n_hash n) hash.

Section Branch.
Context {H V E : Type} `{EqDecision H} `{Chain H, !ChainLaws H}.
Context (is_descendent_of : H → H → bool + E).
Hypothesis client : ∀ x y, is_descendent_of x y = inl (ancestor x y).
Context (hash : H).
Implicit Types (n m c r k : Node H V) (l cs pre post : list (Node H V)) (t : ForkTree H V).

Abbreviation number := (number_of hash).

Lemma on_branch_true n : on_branch hash n = true ↔ n_hash n = hash ∨ ancestor (n_hash n) hash = true.
Proof. unfold on_branch. rewrite orb_true_iff, bool_decide_eq_true. done. Qed.

Lemma on_branch_number n : wf_node n → on_branch hash n = true → n_number n ≤ number.
Proof. intros ->%wf_node_number [->|Ha%ancestor_number]%on_branch_true; lia. Qed.

(** Two trees of a forest are not both on the branch. *)
Lemma unrelated_on_branch n m : unrelated n m → on_branch hash n = true → off_branch hash m.
Proof.
  intros (Hne & H1 & H2) [Hn|Hn]%on_branch_true; [rewrite Hn in *; split; [congruence|done]|]. split; [congruence|]. split.
  - destruct (ancestor hash (n_hash m)) eqn:Hx; [|done]. pose proof (ancestor_trans _ _ _ Hn Hx). congruence.
  - destruct (ancestor (n_hash m) hash) eqn:Hx; [|done]. destruct (ancestor_linear _ _ _ Hn Hx) as [?|[?|?]]; congruence.
Qed.

Lemma off_branch_false n : off_branch hash n → on_branch hash n = false.
Proof. intros (Hne & _ & Ha). unfold on_branch. by rewrite bool_decide_eq_false_2, Ha. Qed.

Lemma on_branch_root r m : wf_node r → m ∈ flatten r → on_branch hash m = true → on_branch hash r = true.
Proof.
  intros Hw Hm [Hh|Ha]%on_branch_true; apply on_branch_true; [|right; by eapply flatten_ancestor_of].
  destruct (flatten_ancestor r m Hw Hm) as [->|Hd]; [by left|right; congruence].
Qed.

Lemma others_off l1 r l2 : wf_forest (l1 ++ r :: l2) → on_branch hash r = true → Forall (off_branch hash) (l1 ++ l2).
Proof.
  intros Hw Hr. apply (wf_forest_perm _ (r :: l1 ++ l2)) in Hw; [|solve_Permutation]. apply wf_forest_cons in Hw as (_ & Hu & _).
  eapply Forall_impl; [exact Hu|]. intros m Hm. by apply (unrelated_on_branch r).
Qed.

(** The descendents of the block are below the root that is on its branch. *)
Lemma below_on l r : wf_forest l → r ∈ l → on_branch hash r = true → below hash (items l) = below hash (items (n_children r)).
Proof.
  intros Hw (l1 & l2 & ->)%list_elem_of_split Hr. pose proof (others_off l1 r l2 Hw Hr) as [Ho1 Ho2]%Forall_app. destruct Hw as [Hws _].
  apply Forall_app in Hws as [Hw1 [Hwr Hw2]%Forall_cons]. rewrite items_app, items_cons, below_app, (below_unrelated hash l1) by done. rewrite app_nil_l.
  assert (Hno : ancestor hash (n_hash r) = false).
  { destruct (ancestor hash (n_hash r)) eqn:Hx; [|done]. apply ancestor_number in Hx. apply on_branch_number in Hr; [|done]. rewrite wf_node_number in Hr by done. lia. }
  unfold below at 1. rewrite filter_cons_False by (cbn; congruence).
  change (below hash (items (n_children r) ++ items l2) = below hash (items (n_children r))). by rewrite below_app, (below_unrelated hash l2), app_nil_r.
Qed.

(** ** Pruning *)

Lemma remove_at_items path l m : Tree.node_at path l = Some m → items l ≡ₚ items [m] ++ items (Tree.remove_at path l).
Proof.
  revert l. induction path as [|i path IH]; intros l; [done|]. destruct path as [|j path].
  - cbn [Tree.node_at Tree.remove_at]. intros Hi. unfold Tree.vec_remove.
    rewrite <- (take_drop_middle l i m Hi) at 1. rewrite items_middle, items_app. done.
  - change (Tree.node_at (i :: j :: path) l) with (l !! i ≫= λ n, Tree.node_at (j :: path) (n_children n)).
    change (Tree.remove_at (i :: j :: path) l) with (alter (λ n, with_children (Tree.remove_at (j :: path) (n_children n)) n) i l).
    intros (n & Hi & Hm)%bind_Some. destruct (alter_middle (λ n, with_children (Tree.remove_at (j :: path) (n_children n)) n) i l n Hi) as (l1 & l2 & -> & ->).
    rewrite !items_middle, items_with_children, (items_node n), (IH _ Hm). solve_Permutation.
Qed.

Lemma off_filter cs : Forall (off_branch hash) cs → filter (λ c, on_branch hash c = true) cs = [].
Proof. induction 1 as [|c cs Hc _ IH]; [done|]. rewrite filter_cons_False by (rewrite off_branch_false by done; done). done. Qed.

Lemma prune_children_rest cs (kept removed : list (Node H V)) t :
  Tree.prune_children cs hash number is_descendent_of false kept removed t = (Ok (kept, removed ++ cs), t).
Proof.
  revert removed. induction cs as [|c cs IH]; intros removed; [by rewrite app_nil_r|]. cbn [Tree.prune_children]. erewrite bind_run by done.
  cbv beta iota. rewrite IH, <- app_assoc. done.
Qed.

Lemma prune_children_run cs (kept removed : list (Node H V)) t : wf_forest cs →
  ∃ gone, Tree.prune_children cs hash number is_descendent_of true kept removed t = (Ok (kept ++ filter (λ c, on_branch hash c = true) cs, removed ++ gone), t) ∧
    filter (λ c, on_branch hash c = true) cs ++ gone ≡ₚ cs.
Proof.
  revert kept removed. induction cs as [|c cs IH]; intros kept removed Hw; [exists []; by rewrite !app_nil_r|].
  pose proof Hw as (Hwc & _ & Hwcs)%wf_forest_cons. cbn [Tree.prune_children].
  rewrite (bind_run _ _ t (on_branch hash c) t).
  - destruct (on_branch hash c) eqn:Hc.
    + rewrite filter_cons_True by done. pose proof (others_off [] c cs Hw Hc) as Ho. rewrite off_filter by done. exists cs. by rewrite prune_children_rest.
    + rewrite filter_cons_False by congruence. destruct (IH kept (removed ++ [c]) Hwcs) as (gone & -> & Hp). exists (c :: gone). rewrite <- app_assoc. split; [done|].
      rewrite <- Hp at 2. solve_Permutation.
  - unfold on_branch. pose proof (wf_node_number c Hwc) as Hn. unfold Tree.query. rewrite client. case_bool_decide as Hh.
    + rewrite andb_true_r, (proj2 (Z.eqb_eq _ _)) by congruence. done.
    + rewrite andb_false_r. cbn [orb]. destruct (Z.ltb_spec (n_number c) number); [done|]. destruct (ancestor (n_hash c) hash) eqn:Ha; [|done].
      apply ancestor_number in Ha. lia.
Qed.

Lemma with_children_filter_wf n (p : Node H V → bool) : wf_node n → wf_node (with_children (filter (λ c, p c = true) (n_children n)) n).
Proof.
  inversion 1 as [h d cs Ha Hs Hw]; subst. cbn [with_children n_children]. destruct (wf_forest_filter p cs (conj Hw Hs)). constructor; [|done..].
  by apply Forall_filter_sub.
Qed.
End Branch.

(** C22. Pruning to the deepest ancestor of a block that passes the predicate.  Without such an ancestor nothing changes.  Otherwise it is the
    only root, and it keeps the one branch towards the block; the tree is well formed and in the order of the depth of its branches.  What the iterator
    over the removed nodes gives and what is left are together the nodes there were, each once. *)
Theorem prune_spec {H V E} `{EqDecision H} `{Chain H, !ChainLaws H} (is_descendent_of : H → H → bool + E) (hash : H) (predicate : V → bool) (t : ForkTree H V) :
  (∀ x y, is_descendent_of x y = inl (ancestor x y)) → wf_forest (roots t) →
  ∃ gone t' o, Tree.prune hash (number_of hash) is_descendent_of predicate t = (Ok gone, t') ∧
    gone ++ Tree.tree_iter t' ≡ₚ Tree.tree_iter t ∧ wf_forest (roots t') ∧ best_finalized_number t' = best_finalized_number t ∧
    deepest hash predicate (Tree.node_iter t) o ∧
    match o with
    | None => gone = [] ∧ t' = t
    | Some m => Tree.tree_roots t' = [n_item m] ∧ balanced_forest (roots t') ∧
        Tree.tree_iter t' ≡ₚ n_item m :: items (filter (λ c, on_branch hash c = true) (n_children m))
    end.
Proof.
  intros Hc Hw. unfold Tree.prune. setoid_rewrite tree_iter_items. rewrite node_iter_flatten. erewrite bind_run by by apply find_index_locate.
  pose proof (locate_roots_deepest hash predicate (roots t) Hw) as Hd.
  destruct (mjoin _) as [path|]; [|by exists [], t, None]. destruct Hd as (m & Hm & Hd).
  assert (Hmw : wf_node m) by (by eapply forest_wf, Hd).
  erewrite bind_run by done. erewrite bind_run by done. rewrite (bind_run _ _ _ m (mkTree [] (best_finalized_number t))) by (cbn; by rewrite Hm). cbn [id].
  destruct (prune_children_run is_descendent_of Hc hash (n_children m) [] (Tree.remove_at path (roots t)) (mkTree [] (best_finalized_number t))) as (gone & Hp & Hg);
    [by apply wf_node_children|].
  rewrite (bind_run _ _ _ _ _ Hp). cbn [fst snd app]. erewrite bind_run by done. erewrite bind_run by done.
  set (root := with_children (filter (λ c, on_branch hash c = true) (n_children m)) m).
  assert (Hroot : items [root] ≡ₚ n_item m :: items (filter (λ c, on_branch hash c = true) (n_children m))) by apply items_with_children.
  eexists _, _, (Some m). split; [done|]. cbn [roots best_finalized_number]. rewrite rebalance_items.
  split; [|split; [|split; [done|split; [done|split; [|split]]]]].
  - rewrite removed_iter_perm. fold (items (Tree.remove_at path (roots t) ++ gone)). rewrite items_app, Hroot.
    rewrite (remove_at_items path (roots t) m Hm), (items_node m). rewrite <- Hg at 2. rewrite items_app. solve_Permutation.
  - apply rebalance_wf. apply wf_forest_cons. split; [by apply with_children_filter_wf|]. split; [constructor|]. split; constructor.
  - unfold Tree.tree_roots. cbn. f_equal. by destruct m.
  - apply rebalance_balanced.
  - by rewrite tree_iter_items; cbn [roots]; rewrite rebalance_items, Hroot.
Qed.
