(* ===== verification/ForkTreeDescendent.v ===== *)
(** Finalizing a node of the fork tree by one of its descendents, and asking beforehand whether this can be done. *)

From S2P Require Import Prelude ForkTree ForkTreeProps ForkTreeFind ForkTreeImport ForkTreeFinalize ForkTreePrune.

Section Descendent.
Context {H V E : Type} `{EqDecision H} `{Chain H, !ChainLaws H}.
Context (is_descendent_of : H → H → bool + E).
Hypothesis client : ∀ x y, is_descendent_of x y = inl (ancestor x y).
Context (hash : H) (predicate : V → bool).
Implicit Types (n m c r k : Node H V) (l cs ns : list (Node H V)) (t : ForkTree H V).

Abbreviation number := (number_of hash).

(** The node can be finalized by the block, and the block is not past a child of the node. *)
Definition finalizable n : bool := predicate (n_data n) && on_branch hash n.
Definition past_child n : bool := existsb (on_branch hash) (n_children n).

Lemma at_or_below_run n t : Tree.at_or_below hash is_descendent_of n t = (Ok (on_branch hash n), t).
Proof. unfold Tree.at_or_below, on_branch, Tree.query. rewrite client. by case_bool_decide. Qed.

Lemma not_past_run cs t : Forall wf_node cs →
  Tree.not_past cs hash number is_descendent_of t = if existsb (on_branch hash) cs then (Err UnfinalizedAncestor, t) else (Ok tt, t).
Proof.
  induction 1 as [|c cs Hc _ IH]; [done|]. cbn [Tree.not_past existsb]. rewrite (bind_run _ _ t (on_branch hash c) t); [by destruct (on_branch hash c)|].
  destruct (Z.leb_spec (n_number c) number); [apply at_or_below_run|]. destruct (on_branch hash c) eqn:Ho; [|done].
  apply (on_branch_number hash c Hc) in Ho. lia.
Qed.

Lemma first_finalized_run ns i t : Forall wf_node ns →
  Tree.first_finalized ns i hash number is_descendent_of predicate t =
  match list_find (λ n, finalizable n = true) ns with
  | None => (Ok None, t)
  | Some (j, n) => if past_child n then (Err UnfinalizedAncestor, t) else (Ok (Some ((i + j)%nat, n)), t)
  end.
Proof.
  intros Hw. revert i. induction Hw as [|n ns Hn _ IH]; intros i; [done|]. cbn [Tree.first_finalized list_find].
  rewrite (bind_run _ _ t (finalizable n) t) by (unfold finalizable; destruct (predicate (n_data n)); [apply at_or_below_run|done]).
  destruct (finalizable n) eqn:Hf.
  - rewrite decide_True by done. destruct (wf_node_children n Hn) as [Hws _]. unfold bind. rewrite not_past_run by done. unfold past_child.
    destruct (existsb _ _); [done|]. by rewrite Nat.add_0_r.
  - rewrite decide_False by congruence. rewrite IH. destruct (list_find _ ns) as [[j m]|]; [|done]. cbn. by rewrite Nat.add_succ_r.
Qed.

(** ** The order of the nodes *)

(** In pre-order a node comes before its descendents. *)
Lemma flatten_order l : wf_forest l → StronglySorted (λ n m, ancestor (n_hash m) (n_hash n) = false) (l ≫= flatten).
Proof.
  assert (Hrev : ∀ x y : H, ancestor x y = true → ancestor y x = false).
  { intros x y Hx. destruct (ancestor y x) eqn:Hy; [|done]. apply ancestor_number in Hx, Hy. lia. }
  assert (Hl : ∀ l, wf_forest l → Forall (λ n, StronglySorted (λ n m, ancestor (n_hash m) (n_hash n) = false) (flatten n)) l →
    StronglySorted (λ n m, ancestor (n_hash m) (n_hash n) = false) (l ≫= flatten)).
  { intros l' Hw Hn. induction Hn as [|n l' Hn _ IH]; [constructor|]. cbn [mbind list_bind]. apply wf_forest_cons in Hw as (Hwn & Hu & Hw).
    apply StronglySorted_app_2; [|done|by apply IH]. intros k m Hk (r & Hr & Hm)%elem_of_forest.
    pose proof Hw as [Hws _]. rewrite Forall_forall in Hws, Hu. destruct (ancestor (n_hash m) (n_hash k)) eqn:Ha; [|done].
    assert (Hrk : ancestor (n_hash r) (n_hash k) = true) by (eapply flatten_ancestor_of; eauto). destruct (Hu r Hr) as (Hne & H1 & H2).
    destruct (flatten_ancestor n k Hwn Hk) as [->|Hnk]; [congruence|]. destruct (ancestor_linear _ _ _ Hnk Hrk) as [?|[?|?]]; congruence. }
  intros Hw. apply Hl; [done|]. destruct Hw as [Hws _]. eapply Forall_impl; [exact Hws|]. clear l Hws.
  intros n. induction n as [h x d cs IH] using Node_rect_list. intros Hw. rewrite flatten_eq. pose proof (wf_node_children _ Hw) as Hcs. constructor.
  - apply Hl; [done|]. destruct Hcs as [Hws _]. cbn [n_children] in *. rewrite Forall_forall in *. auto.
  - apply Forall_forall. intros m Hm. by apply Hrev, below_ancestor.
Qed.

Lemma strongly_sorted_lookup {A} (R : A → A → Prop) (l : list A) i j x y : StronglySorted R l → l !! i = Some x → l !! j = Some y → (i < j)%nat → R x y.
Proof.
  intros Hs. revert i j. induction Hs as [|z l Hs IH Hz]; [done|]. rewrite Forall_forall in Hz.
  intros [|i] [|j] Hi Hj Hlt; cbn in *; simplify_eq; try lia; [by eapply Hz, list_elem_of_lookup_2|]. eapply IH; eauto. lia.
Qed.

(** The first node that can be finalized is above all the others. *)
Lemma first_topmost l i n k : wf_forest l → list_find (λ n, finalizable n = true) (l ≫= flatten) = Some (i, n) →
  k ∈ l ≫= flatten → finalizable k = true → n_hash k = n_hash n ∨ ancestor (n_hash n) (n_hash k) = true.
Proof.
  intros Hw (Hi & Hn & Hmin)%list_find_Some Hk Hf. apply list_elem_of_lookup in Hk as [j Hj].
  destruct (decide (i = j)) as [->|Hij]; [simplify_eq; by left|].
  assert (Hlt : (i < j)%nat). { destruct (decide (j < i)%nat); [by destruct (Hmin j k)|lia]. }
  pose proof (strongly_sorted_lookup _ _ i j n k (flatten_order l Hw) Hi Hj Hlt) as Hno.
  unfold finalizable in Hn, Hf. apply andb_true_iff in Hn as [_ Hn], Hf as [_ Hf]. apply on_branch_true in Hn, Hf.
  destruct Hn as [Hn|Hn], Hf as [Hf|Hf]; [left; congruence|congruence|right; congruence|].
  destruct (ancestor_linear _ _ _ Hn Hf) as [?|[?|?]]; [by left|by right|congruence].
Qed.

(** A root that can be finalized is the first such node. *)
Lemma list_find_root l r : wf_forest l → r ∈ l → finalizable r = true → ∃ i, list_find (λ n, finalizable n = true) (l ≫= flatten) = Some (i, r).
Proof.
  intros Hw (l1 & l2 & ->)%list_elem_of_split Hf. exists (length (l1 ≫= flatten)). apply list_find_Some.
  rewrite bind_app. cbn [mbind list_bind]. rewrite flatten_eq. cbn [app]. split; [by apply list_lookup_middle|]. split; [done|].
  intros j y Hj Hlt. rewrite lookup_app_l in Hj by done. apply list_elem_of_lookup_2, elem_of_forest in Hj as (q & Hq & Hy).
  assert (Hr : on_branch hash r = true) by (unfold finalizable in Hf; by apply andb_true_iff in Hf as [_ ?]).
  pose proof (others_off hash l1 r l2 Hw Hr) as [Ho _]%Forall_app. destruct Hw as [Hws _]. apply Forall_app in Hws as [Hws _]. rewrite Forall_forall in Ho, Hws.
  pose proof (off_branch_tree hash q y (Hws q Hq) (Ho q Hq) Hy) as Hy'%off_branch_false. unfold finalizable. rewrite Hy', andb_false_r. done.
Qed.

Lemma list_find_roots l r : wf_forest l → r ∈ l → finalizable r = true → ∃ i, list_find (λ n, finalizable n = true) l = Some (i, r) ∧ l !! i = Some r.
Proof.
  intros Hw (l1 & l2 & ->)%list_elem_of_split Hf. exists (length l1). split; [|by apply list_lookup_middle]. apply list_find_Some. split; [by apply list_lookup_middle|]. split; [done|].
  intros j y Hj Hlt. rewrite lookup_app_l in Hj by done. apply list_elem_of_lookup_2 in Hj.
  assert (Hr : on_branch hash r = true) by (unfold finalizable in Hf; by apply andb_true_iff in Hf as [_ ?]).
  pose proof (others_off hash l1 r l2 Hw Hr) as [Ho _]%Forall_app. rewrite Forall_forall in Ho. specialize (Ho y Hj). apply off_branch_false in Ho.
  unfold finalizable. rewrite Ho, andb_false_r. done.
Qed.

(** A node with the hash of a root is the root. *)
Lemma root_unique l r n : wf_forest l → r ∈ l → n ∈ l ≫= flatten → n_hash n = n_hash r → n = r.
Proof.
  intros Hw Hr (q & Hq & Hn)%elem_of_forest Hh. apply list_elem_of_lookup in Hr as [i Hi], Hq as [j Hj].
  assert (Hwq : wf_node q) by (destruct Hw as [Hws _]; by eapply Forall_lookup_1).
  destruct (decide (i = j)) as [->|Hij].
  - simplify_eq. destruct (flatten_ancestor _ n Hwq Hn) as [->|Ha]; [done|]. by rewrite Hh, ancestor_irrefl in Ha.
  - destruct (wf_forest_unrelated l i j r q Hw Hi Hj Hij) as (Hne & H1 & H2).
    destruct (flatten_ancestor _ n Hwq Hn) as [->|Ha]; congruence.
Qed.

(** The roots that are kept. *)
Definition related n : bool := ancestor hash (n_hash n) || on_branch hash n.

Lemma retain_related_run r t : wf_node r →
  bind (Tree.is_descendant hash number is_descendent_of r) (λ d,
    if d then ret true
    else if (n_number r =? number) && bool_decide (n_hash r = hash) then ret true
    else Tree.query is_descendent_of (n_hash r) hash) t = (Ok (related r), t).
Proof.
  intros Hw. rewrite (bind_run _ _ _ _ _ (is_descendant_run is_descendent_of client hash r t Hw)). unfold related, on_branch.
  destruct (ancestor hash (n_hash r)); [done|]. apply wf_node_number in Hw. unfold Tree.query. rewrite client. case_bool_decide as Hh.
  - by rewrite (proj2 (Z.eqb_eq _ _)) by congruence.
  - by rewrite andb_false_r.
Qed.

Lemma related_children n : past_child n = false → filter (λ c, related c = true) (n_children n) = filter (λ c, ancestor hash (n_hash c) = true) (n_children n).
Proof.
  unfold past_child. induction (n_children n) as [|c cs IH]; [done|]. cbn [existsb]. intros [Hc Hcs]%orb_false_iff.
  assert (Hr : related c = ancestor hash (n_hash c)) by (unfold related; by rewrite Hc, orb_false_r).
  destruct (ancestor hash (n_hash c)) eqn:Ha.
  - rewrite !filter_cons_True by done. by rewrite IH.
  - rewrite !filter_cons_False by congruence. auto.
Qed.

Lemma past_child_false n : past_child n = false → ∀ c, c ∈ n_children n → n_hash c ≠ hash ∧ ancestor (n_hash c) hash = false.
Proof.
  intros Hp c Hc. destruct (on_branch hash c) eqn:Ho.
  - assert (past_child n = true) by (apply existsb_exists; exists c; by rewrite <- list_elem_of_In). congruence.
  - unfold on_branch in Ho. apply orb_false_iff in Ho as [Hh Ha]. by apply bool_decide_eq_false in Hh.
Qed.
(** ** The operations *)

Abbreviation finalize_if := (Tree.finalize_with_descendent_if hash number is_descendent_of predicate).

Lemma finalize_root_some_run i r t : roots t !! i = Some r →
  bind (Tree.finalize_root_at (E := E) i) (λ d, ret (Some d)) t = (Ok (Some (n_data r)), mkTree (n_children r) (Some (n_number r))).
Proof. intros Hi. by erewrite bind_run by by apply (finalize_root_at_run (E := E)). Qed.

Lemma finalize_if_start t : (∀ best, best_finalized_number t = Some best → best < number) → wf_forest (roots t) →
  finalize_if t = bind (λ t', match list_find (λ n, finalizable n = true) (roots t) with
    | None => (Ok None, t')
    | Some (j, n) => if past_child n then (Err UnfinalizedAncestor, t') else (Ok (Some (j, n)), t')
    end) (λ o, bind (match o with Some (i, _) => bind (Tree.finalize_root_at i) (λ d, ret (Some d)) | None => ret None end) (λ node_data,
      λ t, (Ok (match node_data with Some data => Changed (Some data) | None => Tree.result_of (negb (forallb related (roots t))) end),
        mkTree (filter (λ r, related r = true) (roots t)) (Some number)))) t.
Proof.
  intros Hbest Hw. pose proof Hw as [Hws _]. unfold Tree.finalize_with_descendent_if. rewrite (bind_run _ _ _ tt t) by (by apply check_number_ok).
  erewrite bind_run by done. cbn [id]. pose proof (first_finalized_run (roots t) 0 t Hws) as Hf. cbn [Nat.add] in Hf.
  assert (Hret : ∀ (node_data : option V) t1, Forall wf_node (roots t1) →
    bind (gets id) (λ t, bind (Tree.set_roots []) (λ _, bind (Tree.retain_roots (roots t) (λ root, bind (Tree.is_descendant hash number is_descendent_of root) (λ d,
      if d then ret true
      else if (n_number root =? number) && bool_decide (n_hash root = hash) then ret true
      else Tree.query is_descendent_of (n_hash root) hash)) false) (λ changed, bind (Tree.set_best number) (λ _,
        ret (match node_data with Some data => Changed (Some data) | None => Tree.result_of changed end))))) t1 =
    (Ok (match node_data with Some data => Changed (Some data) | None => Tree.result_of (negb (forallb related (roots t1))) end),
      mkTree (filter (λ r, related r = true) (roots t1)) (Some number) : ForkTree H V)).
  { intros node_data t1 Hws1. erewrite bind_run by done. erewrite bind_run by done. cbn [id].
    erewrite bind_run by (apply (retain_roots_run _ related); eapply Forall_impl; [exact Hws1|]; intros r Hr t0; by apply retain_related_run). done. }
  destruct (list_find _ (roots t)) as [[i r]|] eqn:Hl.
  - destruct (past_child r); [unfold bind at 1; by rewrite Hf|]. apply list_find_Some in Hl as (Hi & _).
    pose proof (finalize_root_some_run i r t Hi) as Hrun.
    rewrite (bind_run _ _ _ _ _ Hf), (bind_run _ _ _ _ _ Hrun). etransitivity; [apply (Hret (Some (n_data r))); cbn [roots]; eapply wf_node_children, Forall_lookup_1; eauto|].
    symmetry. erewrite bind_run by done. by rewrite (bind_run _ _ _ _ _ Hrun).
  - rewrite (bind_run _ _ _ _ _ Hf). erewrite bind_run by done. by apply (Hret None).
Qed.

Lemma finalize_if_past t r : (∀ best, best_finalized_number t = Some best → best < number) → wf_forest (roots t) → r ∈ roots t → finalizable r = true →
  past_child r = true → finalize_if t = (Err UnfinalizedAncestor, t).
Proof.
  intros Hbest Hw Hr Hfin Hp. rewrite finalize_if_start by done. destruct (list_find_roots _ r Hw Hr Hfin) as (i & -> & Hi). unfold bind at 1. by rewrite Hp.
Qed.

Lemma finalize_if_root t r : (∀ best, best_finalized_number t = Some best → best < number) → wf_forest (roots t) → r ∈ roots t → finalizable r = true →
  past_child r = false → ∃ t', finalize_if t = (Ok (Changed (Some (n_data r))), t') ∧ finalized hash t t' ∧ Tree.tree_iter t' = below hash (Tree.tree_iter t).
Proof.
  intros Hbest Hw Hr Hfin Hp. rewrite finalize_if_start by done. destruct (list_find_roots _ r Hw Hr Hfin) as (i & -> & Hi). rewrite (bind_run _ _ t (Some (i, r)) t) by (by rewrite Hp).
  rewrite (bind_run _ _ _ _ _ (finalize_root_some_run i r t Hi)). eexists. split; [done|].
  assert (Hwr : wf_node r) by (destruct Hw as [Hws _]; by eapply Forall_lookup_1). pose proof (wf_node_children r Hwr) as Hcs.
  unfold finalized. rewrite !tree_iter_items. cbn [roots best_finalized_number].
  rewrite related_children, below_filter by (done || by apply past_child_false).
  assert (Ho : on_branch hash r = true) by (unfold finalizable in Hfin; by apply andb_true_iff in Hfin as [_ ?]).
  rewrite (below_on hash _ r Hw Hr Ho). split; [|done]. split; [done|]. split; [|done]. by apply wf_forest_filter.
Qed.

Lemma finalize_if_none t : (∀ best, best_finalized_number t = Some best → best < number) → wf_forest (roots t) → (∀ r, r ∈ roots t → finalizable r = false) →
  finalize_if t = (Ok (Tree.result_of (negb (forallb related (roots t)))), mkTree (filter (λ r, related r = true) (roots t)) (Some number)).
Proof.
  intros Hbest Hw Hno. rewrite finalize_if_start by done.
  rewrite (proj2 (list_find_None _ _)) by (apply Forall_forall; intros r Hr; rewrite Hno by done; done). done.
Qed.

Abbreviation finalizes_any := (Tree.finalizes_any_with_descendent_if hash number is_descendent_of predicate).

Lemma finalizes_any_run t : (∀ best, best_finalized_number t = Some best → best < number) → wf_forest (roots t) →
  finalizes_any t =
  match list_find (λ n, finalizable n = true) (roots t ≫= flatten) with
  | None => (Ok None, t)
  | Some (_, n) => ((if past_child n then Err UnfinalizedAncestor else Ok (Some (bool_decide (n_hash n ∈ n_hash <$> roots t)))), t)
  end.
Proof.
  intros Hbest Hw. unfold Tree.finalizes_any_with_descendent_if. rewrite (bind_run _ _ _ tt t) by (by apply check_number_ok).
  erewrite bind_run by done. cbn [id]. unfold bind. rewrite node_iter_flatten, first_finalized_run.
  - destruct (list_find _ _) as [[j n]|]; [|done]. destruct (past_child n); [done|]. unfold ret. cbn [fmap option_fmap option_map snd]. do 3 f_equal. apply eq_true_iff_eq.
    rewrite existsb_hash, bool_decide_eq_true, list_elem_of_fmap. naive_solver.
  - apply Forall_forall. intros m Hm. by eapply forest_wf.
Qed.

(** The answer of the question is a root exactly when the operation finalizes one. *)
Lemma finalizes_any_agrees t : (∀ best, best_finalized_number t = Some best → best < number) → wf_forest (roots t) →
  finalizes_any t = (Ok (Some true), t) ↔ ∃ data t', finalize_if t = (Ok (Changed (Some data)), t').
Proof.
  intros Hbest Hw. rewrite finalizes_any_run by done. split.
  - destruct (list_find _ _) as [[i n]|] eqn:Hl; [|done]. destruct (past_child n) eqn:Hp; [done|].
    intros [= (r & Hh & Hr)%bool_decide_eq_true%list_elem_of_fmap]. apply list_find_Some in Hl as (Hi & Hf & _).
    assert (n = r) as -> by (eapply root_unique; eauto using list_elem_of_lookup_2).
    destruct (finalize_if_root t r) as (t' & ? & _); [done..|eauto].
  - intros (data & t' & Hrun). destruct (decide (Exists (λ r, finalizable r = true) (roots t))) as [(r & Hr & Hf)%Exists_exists|Hno%not_Exists_Forall]; [| |apply _].
    + destruct (past_child r) eqn:Hp; [by rewrite (finalize_if_past t r) in Hrun|].
      destruct (list_find_root _ r Hw Hr Hf) as (i & ->). rewrite Hp. by rewrite bool_decide_eq_true_2 by (by apply list_elem_of_fmap_2).
    + rewrite finalize_if_none in Hrun; [|done..|].
      * unfold Tree.result_of in Hrun. by destruct (negb _).
      * rewrite Forall_forall in Hno. intros r Hr. apply not_true_is_false. by apply Hno.
Qed.
End Descendent.

(** Finalizing a root by the block itself or by a descendent of the root.  Not above the last finalized block it is a revert.  With a root that passes the predicate and is at or above the
    block, the call is refused, with the tree as it was, when the block is at or below a child of the root; otherwise it returns the data of the root and leaves exactly
    the descendents of the block.  Without such a root the roots that are on the branch of the block, above or below it, are kept whole, and the result says whether others were removed.  In the two last cases the number of
    the block is the best finalized one and the tree is well formed. *)
Theorem finalize_with_descendent_if_spec {H V E} `{EqDecision H} `{Chain H, !ChainLaws H} (is_descendent_of : H → H → bool + E) (hash : H) (predicate : V → bool) (t : ForkTree H V) :
  (∀ x y, is_descendent_of x y = inl (ancestor x y)) → wf_forest (roots t) →
  let run := Tree.finalize_with_descendent_if hash (number_of hash) is_descendent_of predicate t in
  (∀ best, best_finalized_number t = Some best → number_of hash ≤ best → run = (Err Revert, t)) ∧
  ((∀ best, best_finalized_number t = Some best → best < number_of hash) →
    (∀ r, r ∈ roots t → finalizable hash predicate r = true →
      (past_child hash r = true → run = (Err UnfinalizedAncestor, t)) ∧
      (past_child hash r = false → ∃ t', run = (Ok (Changed (Some (n_data r))), t') ∧ finalized hash t t' ∧ Tree.tree_iter t' = below hash (Tree.tree_iter t))) ∧
    ((∀ r, r ∈ roots t → finalizable hash predicate r = false) → ∃ t',
      run = (Ok (Tree.result_of (negb (forallb (related hash) (roots t)))), t') ∧
      roots t' = filter (λ r, related hash r = true) (roots t) ∧ wf_forest (roots t') ∧ best_finalized_number t' = Some (number_of hash))).
Proof.
  intros Hc Hw run. split; [intros best Hb Hle; unfold run, Tree.finalize_with_descendent_if, bind; by rewrite (check_number_revert _ best)|].
  intros Hbest. split; [intros r Hr Hf; split; intros Hp; [by apply (finalize_if_past is_descendent_of Hc hash predicate t r)|by apply finalize_if_root]|].
  intros Hno. eexists. split; [by apply finalize_if_none|]. split; [done|]. split; [by apply wf_forest_filter|done].
Qed.

(** Asking whether a block finalizes a node gives the answer for the topmost node that passes the predicate at or above the block: an error when the block is past one of
    its children, and otherwise whether it is a root.  The question does not change the tree, and it agrees with the operation: the answer is a root exactly when
    finalizing by the block would finalize one. *)
Lemma finalizes_any_spec {H V E} `{EqDecision H} `{Chain H, !ChainLaws H} (is_descendent_of : H → H → bool + E) (hash : H) (predicate : V → bool) (t : ForkTree H V) :
  (∀ x y, is_descendent_of x y = inl (ancestor x y)) → wf_forest (roots t) → (∀ best, best_finalized_number t = Some best → best < number_of hash) →
  let run := Tree.finalizes_any_with_descendent_if hash (number_of hash) is_descendent_of predicate t in
  (((∀ k, k ∈ Tree.node_iter t → finalizable hash predicate k = false) ∧ run = (Ok None, t)) ∨
   (∃ n, n ∈ Tree.node_iter t ∧ finalizable hash predicate n = true ∧
     (∀ k, k ∈ Tree.node_iter t → finalizable hash predicate k = true → n_hash k = n_hash n ∨ ancestor (n_hash n) (n_hash k) = true) ∧
     run = ((if past_child hash n then Err UnfinalizedAncestor else Ok (Some (bool_decide (n_hash n ∈ n_hash <$> roots t)))), t))) ∧
  (run = (Ok (Some true), t) ↔
    ∃ data t', Tree.finalize_with_descendent_if hash (number_of hash) is_descendent_of predicate t = (Ok (Changed (Some data)), t')).
Proof.
  intros Hc Hw Hbest run. split; [|by apply finalizes_any_agrees]. unfold run. rewrite finalizes_any_run, node_iter_flatten by done.
  destruct (list_find _ _) as [[i n]|] eqn:Hl.
  - right. exists n. apply list_find_Some in Hl as Hl'. destruct Hl' as (Hi & Hf & _). split; [by eapply list_elem_of_lookup_2|]. split; [done|].
    split; [|done]. intros k. by apply (first_topmost hash predicate (roots t) i).
  - left. split; [|done]. apply list_find_None in Hl. rewrite Forall_forall in Hl. intros k Hk. apply not_true_is_false. by apply Hl.
Qed.
