(* ===== verification/ForkTreeSpec.v ===== *)
(** The fork tree as a set of blocks: what importing, finalizing and searching return and leave depends on the blocks that are held
    and not on how they are arranged, and histories of these operations follow that specification.  A filtered tree stays well formed.
    The end of the file has a chain of blocks to evaluate the theorems at, and what a failing client does to the tree. *)

From S2P Require Import Prelude ForkTree ForkTreeProps ForkTreeFind ForkTreeImport ForkTreeFinalize ForkTreeAncestors ForkTreePrune ForkTreeDescendent.

(** ** The specification *)

Inductive tree_op {H V : Type} := OpImport (hash : H) (data : V) | OpFinalize (hash : H) | OpFinalizeWithAncestors (hash : H) | OpFind (hash : H) (predicate : V → bool).
Arguments tree_op : clear implicits.

Inductive tree_res {H V : Type} := ResImported (is_root : bool) | ResFinalized (res : FinalizationResult V) | ResFound (o : option (H * Z * V)).
Arguments tree_res : clear implicits.

Section Spec.
Context {H V E : Type} `{EqDecision H} `{Chain H, !ChainLaws H}.

(** The blocks that are held, with their numbers and data, and the number of the last finalized one. *)
Record Blocks := mkBlocks { held : list (H * Z * V); last_finalized : option Z }.

Implicit Types (s : Blocks) (t : ForkTree H V) (x y : H * Z * V) (hash : H).

Definition above_last s hash : Prop := ∀ best, last_finalized s = Some best → best < number_of hash.
Definition is_held s hash : Prop := ∃ x, x ∈ held s ∧ x.1.1 = hash.

(** What the result of a finalization says of the blocks before and after. *)
Definition finalization_says s hash (after : list (H * Z * V)) (res : FinalizationResult V) : Prop :=
  match res with
  | Changed (Some data) => (hash, number_of hash, data) ∈ held s
  | Changed None => ¬ is_held s hash ∧ after ≢ₚ held s
  | Unchanged => ¬ is_held s hash ∧ after ≡ₚ held s
  end.

(** The deepest of the ancestors of the block that pass the predicate. *)
Definition deepest_held s hash (predicate : V → bool) (o : option (H * Z * V)) : Prop :=
  match o with
  | Some x => x ∈ held s ∧ ancestor x.1.1 hash = true ∧ predicate x.2 = true ∧
      ∀ y, y ∈ held s → ancestor y.1.1 hash = true → predicate y.2 = true → y = x ∨ ancestor y.1.1 x.1.1 = true
  | None => ∀ y, y ∈ held s → ancestor y.1.1 hash = true → predicate y.2 = false
  end.

Definition op_changes (op : tree_op H V) : option H :=
  match op with OpImport hash _ | OpFinalize hash | OpFinalizeWithAncestors hash => Some hash | OpFind _ _ => None end.

Inductive spec_op s : tree_op H V → outcome (TreeError E) (tree_res H V) → Blocks → Prop :=
  | spec_revert op hash best : op_changes op = Some hash → last_finalized s = Some best → number_of hash ≤ best → spec_op s op (Err Revert) s
  | spec_duplicate hash data : above_last s hash → is_held s hash → spec_op s (OpImport hash data) (Err DuplicateHash) s
  | spec_import hash data is_root : above_last s hash → ¬ is_held s hash → (is_root = true ↔ ∀ x, x ∈ held s → ancestor x.1.1 hash = false) →
      spec_op s (OpImport hash data) (Ok (ResImported is_root)) (mkBlocks ((hash, number_of hash, data) :: held s) (last_finalized s))
  | spec_unfinalized hash x : above_last s hash → x ∈ held s → ancestor x.1.1 hash = true → spec_op s (OpFinalize hash) (Err UnfinalizedAncestor) s
  | spec_finalize hash res : above_last s hash → (∀ x, x ∈ held s → ancestor x.1.1 hash = false) → finalization_says s hash (below hash (held s)) res →
      spec_op s (OpFinalize hash) (Ok (ResFinalized res)) (mkBlocks (below hash (held s)) (Some (number_of hash)))
  | spec_finalize_with_ancestors hash res : above_last s hash → finalization_says s hash (below hash (held s)) res →
      spec_op s (OpFinalizeWithAncestors hash) (Ok (ResFinalized res)) (mkBlocks (below hash (held s)) (Some (number_of hash)))
  | spec_find hash predicate o : deepest_held s hash predicate o → spec_op s (OpFind hash predicate) (Ok (ResFound o)) s.

Inductive spec_ops : Blocks → list (tree_op H V) → list (outcome (TreeError E) (tree_res H V)) → Blocks → Prop :=
  | spec_ops_nil s : spec_ops s [] [] s
  | spec_ops_cons s op o s1 ops os s2 : spec_op s op o s1 → spec_ops s1 ops os s2 → spec_ops s (op :: ops) (o :: os) s2.

(** ** The tree *)

Context (is_descendent_of : H → H → bool + E).
Local Open Scope rust_scope.

Definition run_op (op : tree_op H V) : M (ForkTree H V) (TreeError E) (tree_res H V) :=
  match op with
  | OpImport hash data => let! b := Tree.import hash (number_of hash) data is_descendent_of in ret (ResImported b)
  | OpFinalize hash => let! r := Tree.finalize hash (number_of hash) is_descendent_of in ret (ResFinalized r)
  | OpFinalizeWithAncestors hash => let! r := Tree.finalize_with_ancestors hash (number_of hash) is_descendent_of in ret (ResFinalized r)
  | OpFind hash predicate => let! o := Tree.find_node_where hash (number_of hash) is_descendent_of predicate in ret (ResFound (n_item <$> o))
  end.

Fixpoint run_ops (ops : list (tree_op H V)) t : list (outcome (TreeError E) (tree_res H V)) * ForkTree H V :=
  match ops with
  | [] => ([], t)
  | op :: ops => let '(o, t) := run_op op t in let '(os, t) := run_ops ops t in (o :: os, t)
  end.

Definition comes_first hash t : bool :=
  bool_decide (hash ∈ n_hash <$> Tree.node_iter t) || forallb (λ n, negb (ancestor hash (n_hash n))) (Tree.node_iter t).

(** Blocks are imported before their descendents; one that is held can be imported again. *)
Fixpoint in_order (ops : list (tree_op H V)) t : bool :=
  match ops with
  | [] => true
  | op :: ops =>
      match op with OpImport hash _ => comes_first hash t | _ => true end &&
      in_order ops (run_op op t).2
  end.

(** The tree holds the blocks. *)
Definition holds t s : Prop := wf_forest (roots t) ∧ Tree.tree_iter t ≡ₚ held s ∧ best_finalized_number t = last_finalized s.

Hypothesis client : ∀ a b, is_descendent_of a b = inl (ancestor a b).

Lemma holds_node t s n : holds t s → n ∈ Tree.node_iter t → n_item n ∈ held s.
Proof. intros (_ & Hp & _) Hn. rewrite <- Hp. unfold Tree.tree_iter. by apply list_elem_of_fmap_2. Qed.

Lemma holds_item t s x : holds t s → x ∈ held s → ∃ n, n ∈ Tree.node_iter t ∧ x = n_item n.
Proof. intros (_ & Hp & _) Hx. rewrite <- Hp in Hx. unfold Tree.tree_iter in Hx. apply list_elem_of_fmap in Hx as (n & -> & Hn). eauto. Qed.

Lemma holds_held t s hash : holds t s → is_held s hash ↔ hash ∈ n_hash <$> Tree.node_iter t.
Proof.
  intros Hh. rewrite list_elem_of_fmap. split.
  - intros (x & Hx & <-). destruct (holds_item t s x Hh Hx) as (n & Hn & ->). eauto.
  - intros (n & -> & Hn). exists (n_item n). split; [by eapply holds_node|done].
Qed.

(** An ancestor is held exactly when a root is one. *)
Lemma holds_ancestor t s hash : holds t s → (∃ r, r ∈ roots t ∧ ancestor (n_hash r) hash = true) ↔ ∃ x, x ∈ held s ∧ ancestor x.1.1 hash = true.
Proof.
  intros Hh. split.
  - intros (r & Hr & Ha). exists (n_item r). split; [|done]. eapply holds_node; [done|]. rewrite node_iter_flatten. by apply root_in_forest.
  - intros (x & Hx & Ha). destruct (holds_item t s x Hh Hx) as (n & Hn & ->). rewrite node_iter_flatten in Hn. apply elem_of_forest in Hn as (r & Hr & Hn).
    exists r. split; [done|]. destruct Hh as ([Hws _] & _). rewrite Forall_forall in Hws. eapply flatten_ancestor_of; eauto.
Qed.

Lemma holds_finalized t s hash t' : holds t s → finalized hash t t' → holds t' (mkBlocks (below hash (held s)) (Some (number_of hash))).
Proof. intros (_ & Hp & _) (Hi & Hw & Hb). split; [done|]. split; [by rewrite Hi, Hp|done]. Qed.

Lemma holds_data t s n : holds t s → n ∈ Tree.node_iter t → n_item n = (n_hash n, number_of (n_hash n), n_data n).
Proof. intros (Hw & _) Hn. rewrite node_iter_flatten in Hn. unfold n_item. by rewrite wf_node_number by (by eapply forest_wf). Qed.

Lemma finalized_after t s hash t' : holds t s → finalized hash t t' → Tree.tree_iter t' ≡ₚ below hash (held s).
Proof. intros (_ & Hp & _) (Hi & _). by rewrite Hi, Hp. Qed.

Lemma last_cases t hash : (∃ best, best_finalized_number t = Some best ∧ number_of hash ≤ best) ∨ (∀ best, best_finalized_number t = Some best → best < number_of hash).
Proof.
  destruct (best_finalized_number t) as [best|]; [|by right]. destruct (Z.le_gt_cases (number_of hash) best); [left; eauto|right].
  by intros ? [= <-].
Qed.

Lemma holds_above t s hash : holds t s → (∀ best, best_finalized_number t = Some best → best < number_of hash) → above_last s hash.
Proof. intros (_ & _ & Hb) Hl. unfold above_last. by rewrite <- Hb. Qed.

(** The operation is refused as a revert. *)
Lemma refine_revert t s op hash best : holds t s → op_changes op = Some hash → best_finalized_number t = Some best → number_of hash ≤ best →
  spec_op s op (Err Revert) s.
Proof. intros (_ & _ & Hb) Hop Hbest Hle. eapply spec_revert; [done| |done]. by rewrite <- Hb. Qed.

Lemma refine_import t s hash data : holds t s → comes_first hash t = true →
  ∃ s', spec_op s (OpImport hash data) (run_op (OpImport hash data) t).1 s' ∧ holds (run_op (OpImport hash data) t).2 s'.
Proof.
  intros Hh Ho. pose proof Hh as (Hw & Hp & Hb).
  assert (Hbelow : hash ∉ n_hash <$> Tree.node_iter t → ∀ m, m ∈ Tree.node_iter t → ancestor hash (n_hash m) = false).
  { intros Hno m Hm. unfold comes_first in Ho. rewrite bool_decide_eq_false_2 in Ho by done. cbn [orb] in Ho. rewrite forallb_forall in Ho.
    apply negb_true_iff, Ho. by apply list_elem_of_In. }
  destruct (import_spec is_descendent_of hash data t client Hw Hbelow) as [Hrev Hok]. cbn [run_op]. unfold bind.
  destruct (last_cases t hash) as [(best & Hbest & Hle)|Hlast]; [rewrite (Hrev best) by done; exists s; split; [by eapply refine_revert|done]|].
  destruct (Hok Hlast) as [Hdup Hnew]. pose proof (holds_above t s hash Hh Hlast) as Habove.
  destruct (decide (hash ∈ n_hash <$> Tree.node_iter t)) as [Hin|Hin].
  - rewrite Hdup by done. exists s. split; [|done]. constructor; [done|]. by apply (holds_held t).
  - destruct (Hnew Hin) as (is_root & t' & -> & Hroot & Hi & Hw' & _ & Hb'). eexists. split.
    + constructor; [done|by rewrite holds_held|]. rewrite Hroot. split.
      * intros Hno x Hx. destruct (holds_item t s x Hh Hx) as (n & Hn & ->). by apply Hno.
      * intros Hno m Hm. apply (Hno (n_item m)). by eapply holds_node.
    + split; [done|]. cbn [snd held last_finalized ret]. by rewrite Hi, Hp, Hb'.
Qed.

Lemma holds_root t s r : holds t s → r ∈ roots t → r ∈ Tree.node_iter t.
Proof. intros _ Hr. rewrite node_iter_flatten. by apply root_in_forest. Qed.

(** A block that has no ancestor among the others is a root if it is held. *)
Lemma held_root t s hash : holds t s → (∀ x, x ∈ held s → ancestor x.1.1 hash = false) → (∀ r, r ∈ roots t → n_hash r ≠ hash) → ¬ is_held s hash.
Proof.
  intros Hh Hno Hroots (x & Hx & Hxh). destruct (holds_item t s x Hh Hx) as (n & Hn & ->). cbn in Hxh. rewrite node_iter_flatten in Hn.
  apply elem_of_forest in Hn as (r & Hr & Hn). destruct Hh as ([Hws Hs] & Hp & Hb). rewrite Forall_forall in Hws.
  destruct (flatten_ancestor r n (Hws r Hr) Hn) as [->|Ha]; [by eapply Hroots|].
  rewrite Hxh in Ha. enough (Hf : ancestor (n_hash r) hash = false) by congruence. apply (Hno (n_item r)).
  rewrite <- Hp, tree_iter_items. unfold items. by apply list_elem_of_fmap_2, root_in_forest.
Qed.

Lemma refine_finalize t s hash : holds t s →
  ∃ s', spec_op s (OpFinalize hash) (run_op (OpFinalize hash) t).1 s' ∧ holds (run_op (OpFinalize hash) t).2 s'.
Proof.
  intros Hh. pose proof Hh as (Hw & Hp & Hb). destruct (finalize_spec is_descendent_of hash t client Hw) as [Hrev Hok]. cbn [run_op]. unfold bind.
  destruct (last_cases t hash) as [(best & Hbest & Hle)|Hlast]; [rewrite (Hrev best) by done; exists s; split; [by eapply refine_revert|done]|].
  destruct (Hok Hlast) as [Hun Hfin]. pose proof (holds_above t s hash Hh Hlast) as Habove.
  destruct (decide (Exists (λ r, ancestor (n_hash r) hash = true) (roots t))) as [He|Hno].
  - apply Exists_exists in He. rewrite Hun by done. exists s. split; [|done]. apply (holds_ancestor t s hash Hh) in He as (x & Hx & Ha). by eapply spec_unfinalized.
  - assert (Hnone : ∀ x, x ∈ held s → ancestor x.1.1 hash = false).
    { intros x Hx. apply not_true_is_false. intros Ha. apply Hno, Exists_exists. apply (holds_ancestor t s hash Hh). eauto. }
    destruct Hfin as (res & t' & -> & _ & Hf & _ & Hres).
    { intros r Hr. apply (Hnone (n_item r)). eapply holds_node; [done|]. by eapply holds_root. }
    pose proof (finalized_after t s hash t' Hh Hf) as Hafter.
    eexists. split; [|by apply (holds_finalized t)]. constructor; [done|done|]. unfold finalization_says. destruct res as [[data|]|].
    + destruct Hres as (r & Hr & Hrh & <-). rewrite <- Hrh, <- (holds_data t s) by (done || by eapply holds_root). eapply holds_node; [done|]. by eapply holds_root.
    + destruct Hres as [Hroots Hne]. split; [by eapply held_root|]. by rewrite <- Hafter, <- Hp.
    + destruct Hres as [Hroots He]. split; [by eapply held_root|]. by rewrite <- Hafter, <- Hp, !tree_iter_items, He.
Qed.

Lemma refine_finalize_with_ancestors t s hash : holds t s →
  ∃ s', spec_op s (OpFinalizeWithAncestors hash) (run_op (OpFinalizeWithAncestors hash) t).1 s' ∧ holds (run_op (OpFinalizeWithAncestors hash) t).2 s'.
Proof.
  intros Hh. pose proof Hh as (Hw & Hp & Hb). destruct (finalize_with_ancestors_spec is_descendent_of hash t client Hw) as [Hrev Hok]. cbn [run_op]. unfold bind.
  destruct (last_cases t hash) as [(best & Hbest & Hle)|Hlast]; [rewrite (Hrev best) by done; exists s; split; [by eapply refine_revert|done]|].
  destruct (Hok Hlast) as (res & t' & -> & Hf & Hres). pose proof (holds_above t s hash Hh Hlast) as Habove. pose proof (finalized_after t s hash t' Hh Hf) as Hafter.
  assert (Hnot : (∀ k, k ∈ Tree.node_iter t → n_hash k ≠ hash) → ¬ is_held s hash).
  { intros Hk. rewrite (holds_held t) by done. intros (k & -> & Hin)%list_elem_of_fmap. by eapply Hk. }
  eexists. split; [|by apply (holds_finalized t)]. constructor; [done|]. unfold finalization_says. destruct res as [[data|]|].
  - destruct Hres as (k & Hk & Hkh & <-). rewrite <- Hkh, <- (holds_data t s) by done. by eapply holds_node.
  - destruct Hres as [Hk Hne]. split; [auto|]. by rewrite <- Hafter, <- Hp.
  - destruct Hres as [Hk He]. split; [auto|]. by rewrite <- Hafter, <- Hp, !tree_iter_items, He.
Qed.

Lemma refine_find t s hash predicate : holds t s →
  ∃ s', spec_op s (OpFind hash predicate) (run_op (OpFind hash predicate) t).1 s' ∧ holds (run_op (OpFind hash predicate) t).2 s'.
Proof.
  intros Hh. pose proof Hh as (Hw & Hp & Hb). destruct (find_node_where_deepest is_descendent_of hash predicate t client Hw) as (o & Hrun & Hd).
  cbn [run_op]. rewrite (bind_run _ _ _ _ _ Hrun). exists s. split; [|done]. constructor. destruct o as [m|]; cbn.
  - destruct Hd as (Hm & Ha & Hpred & Hd). split; [by eapply holds_node|]. split; [done|]. split; [done|]. intros y Hy Hya Hyp.
    destruct (holds_item t s y Hh Hy) as (n & Hn & ->). destruct (Hd n Hn Hya Hyp) as [->|]; [by left|by right].
  - intros y Hy Hya. destruct (holds_item t s y Hh Hy) as (n & Hn & ->). by apply Hd.
Qed.

Lemma refine_op t s op ops : holds t s → in_order (op :: ops) t = true → ∃ s', spec_op s op (run_op op t).1 s' ∧ holds (run_op op t).2 s'.
Proof.
  intros Hh [Ho _]%andb_true_iff. destruct op; [by apply refine_import|by apply refine_finalize|by apply refine_finalize_with_ancestors|by apply refine_find].
Qed.

Lemma refine_ops ops t s : holds t s → in_order ops t = true → ∃ s', spec_ops s ops (run_ops ops t).1 s' ∧ holds (run_ops ops t).2 s'.
Proof.
  revert t s. induction ops as [|op ops IH]; intros t s Hh Ho; [exists s; split; [constructor|done]|].
  destruct (refine_op t s op ops Hh Ho) as (s1 & Hs & Hh1). apply andb_true_iff in Ho as [_ Ho]. cbn [run_ops].
  destruct (run_op op t) as [o t1]. cbn [fst snd] in *. destruct (IH t1 s1 Hh1 Ho) as (s2 & Hs2 & Hh2).
  destruct (run_ops ops t1) as [os t2]. exists s2. split; [by econstructor|done].
Qed.
End Spec.
Arguments Blocks : clear implicits.

(** C21. The fork tree implements a set of blocks.  In every history of imports, finalizations, with and without the ancestors, and searches that starts with the empty tree and imports a block for the first time before its
    descendents, all the results are those the specification on sets of blocks allows and the tree holds the blocks it says: a block is put in once and never below the last
    finalized one, a finalization leaves exactly the descendents of the block and refuses to pass by an ancestor that is held, and a search finds the
    deepest ancestor that passes.  No operation runs out of its fuel or indexes out of range, and the tree is well formed throughout. *)
Theorem fork_tree_refines {H V E} `{EqDecision H} `{Chain H, !ChainLaws H} (is_descendent_of : H → H → bool + E) (ops : list (tree_op H V)) :
  (∀ a b, is_descendent_of a b = inl (ancestor a b)) → in_order is_descendent_of ops Tree.new = true →
  ∃ s, spec_ops (mkBlocks [] None) ops (run_ops is_descendent_of ops Tree.new).1 s ∧ holds (run_ops is_descendent_of ops Tree.new).2 s.
Proof. intros Hc Ho. apply refine_ops; [done| |done]. split; [split; constructor|]. by split. Qed.

(** ** Filtered trees *)

Section FilterWf.
Context {H V : Type} `{Chain H, !ChainLaws H} (keep : H → Z → V → FilterAction).
Implicit Types (n m : Node H V) (l : list (Node H V)).

Lemma kept_tree_hash n m : kept_tree keep n = Some m → n_hash m = n_hash n.
Proof. destruct n as [h x d cs]. cbn. destruct (keep h x d); intros; by simplify_eq. Qed.

Lemma omap_Forall {A B} (f : A → option B) (P : A → Prop) (Q : B → Prop) (l : list A) : (∀ a b, P a → f a = Some b → Q b) → Forall P l → Forall Q (omap f l).
Proof. intros Hf. induction 1 as [|a l Ha _ IH]; cbn; [constructor|]. destruct (f a) eqn:He; [constructor; eauto|done]. Qed.

Lemma kept_wf_forest l : Forall (λ n, wf_node n → ∀ m, kept_tree keep n = Some m → wf_node m) l → wf_forest l → wf_forest (omap (kept_tree keep) l).
Proof.
  intros Hl [Hw Hs]. split.
  - apply (omap_Forall _ (λ n, wf_node n ∧ (wf_node n → ∀ m, kept_tree keep n = Some m → wf_node m))); [naive_solver|]. by apply Forall_and.
  - clear Hl Hw. induction Hs as [|n l _ IH Hn]; cbn; [constructor|]. destruct (kept_tree keep n) as [m|] eqn:Hm; [|done]. constructor; [done|].
    eapply omap_Forall; [|exact Hn]. intros a b Ha Hb. unfold unrelated in *. by rewrite (kept_tree_hash a b Hb), (kept_tree_hash n m Hm).
Qed.

Lemma kept_tree_wf n m : wf_node n → kept_tree keep n = Some m → wf_node m.
Proof.
  revert m. induction n as [h x d cs IH] using Node_rect_list. intros m. inversion 1 as [? ? ? Ha Hs Hw]; subst. cbn. destruct (keep h (number_of h) d); intros; simplify_eq; [|done].
  destruct (kept_wf_forest cs) as [Hw' Hs']; [by eapply Forall_impl; [exact IH|]; naive_solver|done|]. constructor; [|done|done].
  eapply omap_Forall; [|exact Ha]. intros a b Hab Hb. by rewrite (kept_tree_hash a b Hb).
Qed.

(** Filtering a well-formed tree leaves one. *)
Lemma drain_filter_wf {E} (t : ForkTree H V) : wf_forest (roots t) → wf_forest (roots (Tree.drain_filter (E := E) keep t).2).
Proof.
  intros Hw. unfold Tree.drain_filter. destruct (filter_rebuild keep (roots t)) as (removed & -> & _).
  assert (Hk : wf_forest (omap (kept_tree keep) (roots t))) by (apply kept_wf_forest; [apply Forall_true; intros n Hn m; by apply kept_tree_wf|done]).
  destruct removed; [done|]. by apply rebalance_wf.
Qed.
End FilterWf.

(** ** Blocks named by their branch

    A block is the list of the choices that lead to it from the genesis. *)

#[global] Instance branch_chain : Chain (list Z) :=
  {| number_of x := Z.of_nat (length x); ancestor x y := bool_decide (x `prefix_of` y) && negb (bool_decide (x = y)) |}.

#[global] Instance branch_chain_laws : ChainLaws (list Z).
Proof.
  assert (Hl : ∀ x y : list Z, x `prefix_of` y → x ≠ y → (length x < length y)%nat).
  { intros x y [[|z k] ->] Hne; [by rewrite app_nil_r in Hne|]. rewrite length_app. cbn. lia. }
  assert (Ha : ∀ x y : list Z, ancestor x y = true ↔ x `prefix_of` y ∧ x ≠ y).
  { intros x y. cbn. rewrite andb_true_iff, negb_true_iff, bool_decide_eq_true, bool_decide_eq_false. done. }
  split.
  - intros x y [Hp Hne]%Ha. specialize (Hl x y Hp Hne). cbn. lia.
  - intros x y z [Hp Hne]%Ha [Hq Hne']%Ha. apply Ha. split; [by etrans|]. intros ->. pose proof (Hl _ _ Hp Hne). pose proof (Hl _ _ Hq Hne'). lia.
  - intros x y z [Hp _]%Ha [Hq _]%Ha. rewrite !Ha. destruct (decide (x = y)); [by left|right].
    destruct (prefix_weak_total _ _ _ Hp Hq); [by left|right; split; [done|congruence]].
Qed.

(** A client that knows all the blocks, and one that does not know a block and fails when asked about it as an ancestor. *)
Definition full_client (x y : list Z) : bool + unit := inl (ancestor x y).
Definition client_without (b x y : list Z) : bool + unit := if decide (x = b) then inr tt else inl (ancestor x y).

Definition leaf_of (x : list Z) (d : Z) (cs : list (Node (list Z) Z)) : Node (list Z) Z := mkNode x (number_of x) d cs.

(** Two roots; below the first the blocks 1.1, with a child 1.1.1, and 1.2. *)
Definition sample_forest : list (Node (list Z) Z) :=
  [leaf_of [1] 10 [leaf_of [1; 1] 11 [leaf_of [1; 1; 1] 12 []]; leaf_of [1; 2] 13 []]; leaf_of [2] 20 []].

Definition sample_tree : ForkTree (list Z) Z := mkTree sample_forest None.

Ltac wf_sample := repeat match goal with
  | |- wf_forest _ => split
  | |- Forall _ _ => constructor
  | |- StronglySorted _ _ => constructor
  | |- wf_node (mkNode ?x _ _ _) => apply (wf_mkNode x)
  | |- wf_node _ => unfold leaf_of
  | |- unrelated _ _ => split; [done|split; reflexivity]
  | |- _ = _ => reflexivity
  | _ => progress cbv beta
  end.

Lemma sample_wf : wf_forest (roots sample_tree).
Proof. unfold sample_tree, sample_forest; cbn [roots]. wf_sample. Qed.

Definition sample_ops : list (tree_op (list Z) Z) :=
  [OpImport [1] 10; OpImport [1; 1] 11; OpImport [2] 20; OpImport [1; 2] 13; OpImport [1; 1; 1] 12; OpImport [1; 1] 0; OpFinalize [1; 1];
   OpFind [1; 1; 5] (λ d, d <? 11); OpFinalizeWithAncestors [1; 1]; OpImport [2; 1] 0].

Lemma fork_tree_refines_witness :
  in_order full_client sample_ops Tree.new = true ∧
  ∃ s, spec_ops (mkBlocks [] None) sample_ops (run_ops full_client sample_ops Tree.new).1 s ∧ holds (run_ops full_client sample_ops Tree.new).2 s.
Proof. split; [vm_compute; reflexivity|]. apply (fork_tree_refines full_client sample_ops); [intros; reflexivity|vm_compute; reflexivity]. Defined.

(** The results of this history. *)
Example sample_history : (run_ops full_client sample_ops Tree.new).1 =
  [Ok (ResImported true); Ok (ResImported false); Ok (ResImported true); Ok (ResImported false); Ok (ResImported false); Err DuplicateHash; Err UnfinalizedAncestor;
   Ok (ResFound (Some ([1], 1, 10))); Ok (ResFinalized (Changed (Some 11))); Err Revert].
Proof. vm_compute. reflexivity. Qed.

Lemma prune_spec_witness : ∃ gone t', Tree.prune [1; 1; 1; 7] (number_of [1; 1; 1; 7]) full_client (λ d, d =? 10) sample_tree = (Ok gone, t') ∧
  gone ++ Tree.tree_iter t' ≡ₚ Tree.tree_iter sample_tree ∧ wf_forest (roots t').
Proof.
  destruct (prune_spec full_client [1; 1; 1; 7] (λ d, d =? 10) sample_tree) as (gone & t' & o & Hrun & Hp & Hw & _); [intros; reflexivity|exact sample_wf|].
  exists gone, t'. repeat split; assumption || apply Hw.
Defined.

Lemma finalize_with_descendent_if_witness :
  ∃ t', Tree.finalize_with_descendent_if [1; 3] (number_of [1; 3]) full_client (λ d, d =? 10) sample_tree = (Ok (Changed (Some 10)), t') ∧ finalized [1; 3] sample_tree t' ∧
    Tree.tree_iter t' = below [1; 3] (Tree.tree_iter sample_tree).
Proof.
  apply (proj1 (proj2 (finalize_with_descendent_if_spec full_client [1; 3] (λ d, d =? 10) sample_tree ltac:(intros; reflexivity) sample_wf) ltac:(intros; discriminate))
    (leaf_of [1] 10 [leaf_of [1; 1] 11 [leaf_of [1; 1; 1] 12 []]; leaf_of [1; 2] 13 []])); [left|vm_compute; reflexivity|vm_compute; reflexivity].
Defined.

Lemma finalizes_any_witness :
  Tree.finalizes_any_with_descendent_if [1; 1; 2] (number_of [1; 1; 2]) full_client (λ d, d =? 11) sample_tree = (Ok (Some true), sample_tree) ↔
    ∃ data t', Tree.finalize_with_descendent_if [1; 1; 2] (number_of [1; 1; 2]) full_client (λ d, d =? 11) sample_tree = (Ok (Changed (Some data)), t').
Proof. apply (finalizes_any_spec full_client [1; 1; 2] (λ d, d =? 11) sample_tree); [intros; reflexivity|exact sample_wf|intros; discriminate]. Defined.

(** ** A client that fails

    The roots are moved out of the tree before the last questions are put to the client.  When one of them fails, the nodes that have been moved out and not yet put back are lost, although the call returns
    an error.  For [prune] this is the whole tree: the search goes up from the deepest ancestor without asking about the nodes above it, as its comment explains for blocks a client does not have after a
    warp sync, and the loop over the children then does ask. *)
Example prune_client_failure :
  Tree.prune [1; 1; 1; 7] 4 (client_without [1; 1]) (λ d, d =? 10) sample_tree = (Err (Client tt), mkTree [] None).
Proof. vm_compute. reflexivity. Qed.

Example finalize_client_failure :
  let t := mkTree [leaf_of [1; 1] 11 []; leaf_of [1; 2] 13 []; leaf_of [1; 3] 14 []] None in
  let client x y := if decide (y = [1; 2]) then inr tt else full_client x y in
  Tree.finalize [1] 1 client t = (Err (Client tt), mkTree [leaf_of [1; 1] 11 []] None).
Proof. vm_compute. reflexivity. Qed.
