(* ===== verification/System.v ===== *)
(** Accounts and events of [frame_system] ([frame/system/src/lib.rs]): the event log, the
    origin checks, the provider / consumer / sufficient reference counts that keep an account
    alive, and the [StoredMap] through which [pallet_balances] stores its data in the account. *)

From S2P Require Import Prelude Runtime.

(** ** Origins *)

Definition ensure_signed (o : RawOrigin) : Run AccountId :=
  match o with Signed t => ret t | _ => throw BadOrigin end.
Definition ensure_signed_or_root (o : RawOrigin) : Run (option AccountId) :=
  match o with Root => ret None | Signed t => ret (Some t) | _ => throw BadOrigin end.
Definition ensure_root (o : RawOrigin) : Run unit :=
  match o with Root => ret tt | _ => throw BadOrigin end.
Definition ensure_none (o : RawOrigin) : Run unit :=
  match o with NoneOrigin => ret tt | _ => throw BadOrigin end.

(** ** Events *)

(** [deposit_event], that is [deposit_event_indexed] with no topics. *)
Definition deposit_event_in (e : RuntimeEvent) (y : SystemStore) : SystemStore :=
  if Number y =? 0 then y
  else
    let phase := default Initialization (ExecutionPhase y) in
    match checked_add 32 (EventCount y) 1 with
    | None => y
    | Some new_event_count =>
      mkSystem (Account y) (Number y) (ExecutionPhase y) new_event_count (Events y ++ [(phase, e)])
    end.
Definition deposit (e : RuntimeEvent) (s : Store) : Store := with_sys (deposit_event_in e) s.
Definition deposit_event (e : RuntimeEvent) : Run unit := modify (deposit e).

(** ** The account map *)

Definition accounts (s : Store) : gmap AccountId AccountInfo := Account (sys s).
Definition info (s : Store) (who : AccountId) : AccountInfo := default default_info (accounts s !! who).
Definition put_account (who : AccountId) (a : AccountInfo) : Store → Store := with_sys (with_accounts <[who := a]>).
Definition remove_account (who : AccountId) : Store → Store := with_sys (with_accounts (delete who)).

Definition account_get (who : AccountId) : Run AccountInfo := gets (λ s, info s who).
Definition account_put (who : AccountId) (a : AccountInfo) : Run unit := modify (put_account who a).

Definition account_exists (s : Store) (who : AccountId) : bool := bool_decide (is_Some (accounts s !! who)).

Definition set_providers (n : Z) (a : AccountInfo) : AccountInfo := mkInfo (nonce a) (consumers a) n (sufficients a) (data a).
Definition set_sufficients (n : Z) (a : AccountInfo) : AccountInfo := mkInfo (nonce a) (consumers a) (providers a) n (data a).
Definition set_consumers (n : Z) (a : AccountInfo) : AccountInfo := mkInfo (nonce a) n (providers a) (sufficients a) (data a).
Definition set_data (d : AccountData) (a : AccountInfo) : AccountInfo := mkInfo (nonce a) (consumers a) (providers a) (sufficients a) d.
Definition set_nonce (n : Z) (a : AccountInfo) : AccountInfo := mkInfo n (consumers a) (providers a) (sufficients a) (data a).

(** The runtime configures [OnNewAccount = ()] and [OnKilledAccount = ()]. *)
Definition on_created_account (who : AccountId) : Run unit := deposit_event (ESystem (NewAccount who)).
Definition on_killed_account (who : AccountId) : Run unit := deposit_event (ESystem (KilledAccount who)).

(** ** Reference counts *)

Inductive IncRefStatus := CreatedAcc | Existed.
Inductive DecRefStatus := Reaped | Exists_.

Definition inc_providers (who : AccountId) : Run IncRefStatus :=
  let! a := account_get who in
  if (providers a =? 0) && (sufficients a =? 0) then
    do! on_created_account who in
    do! account_put who (set_providers 1 a) in
    ret CreatedAcc
  else
    do! account_put who (set_providers (saturating_add 32 (providers a) 1) a) in
    ret Existed.

(** [Account::try_mutate_exists]: on [Err] nothing is written. *)
Definition dec_providers (who : AccountId) : Run DecRefStatus :=
  let! m := gets (λ s, accounts s !! who) in
  match m with
  | Some account =>
    let account := if providers account =? 0 then set_providers 1 account else account in
    if (providers account =? 1) && (consumers account =? 0) && (sufficients account =? 0) then
      do! on_killed_account who in
      do! modify (remove_account who) in
      ret Reaped
    else if (providers account =? 1) && (0 <? consumers account) then
      throw ConsumerRemaining
    else
      do! account_put who (set_providers (wrapping_sub 32 (providers account) 1) account) in
      ret Exists_
  | None =>
    (* the account is already dead; the entry stays absent *)
    ret Reaped
  end.

Definition inc_sufficients (who : AccountId) : Run IncRefStatus :=
  let! a := account_get who in
  if wrapping_add 32 (providers a) (sufficients a) =? 0 then
    do! on_created_account who in
    do! account_put who (set_sufficients 1 a) in
    ret CreatedAcc
  else
    do! account_put who (set_sufficients (saturating_add 32 (sufficients a) 1) a) in
    ret Existed.

Definition dec_sufficients (who : AccountId) : Run DecRefStatus :=
  let! m := gets (λ s, accounts s !! who) in
  match m with
  | Some account =>
    if ((sufficients account =? 0) || (sufficients account =? 1)) && (providers account =? 0) then
      do! on_killed_account who in
      do! modify (remove_account who) in
      ret Reaped
    else
      do! account_put who (set_sufficients (wrapping_sub 32 (sufficients account) 1) account) in
      ret Exists_
  | None => ret Reaped
  end.

Definition reference_count (s : Store) (who : AccountId) : Z :=
  wrapping_add 32 (providers (info s who)) (sufficients (info s who)).

Definition inc_consumers (max_consumers : Z) (who : AccountId) : Run unit :=
  let! a := account_get who in
  if 0 <? providers a then
    if consumers a <? max_consumers then account_put who (set_consumers (saturating_add 32 (consumers a) 1) a)
    else throw TooManyConsumers
  else throw NoProviders.

Definition inc_consumers_without_limit (who : AccountId) : Run unit :=
  let! a := account_get who in
  if 0 <? providers a then account_put who (set_consumers (saturating_add 32 (consumers a) 1) a)
  else throw NoProviders.

(** [Account::mutate] writes the account back in both branches. *)
Definition dec_consumers (who : AccountId) : Run unit :=
  let! a := account_get who in
  account_put who (if 0 <? consumers a then set_consumers (consumers a - 1) a else a).

Definition is_provider_required (s : Store) (who : AccountId) : bool := negb (consumers (info s who) =? 0).
Definition can_dec_provider (s : Store) (who : AccountId) : bool :=
  (consumers (info s who) =? 0) || (1 <? providers (info s who)).
Definition can_inc_consumer (max_consumers : Z) (s : Store) (who : AccountId) : bool :=
  (0 <? providers (info s who)) && (consumers (info s who) <? max_consumers).

Definition inc_account_nonce (who : AccountId) : Run unit :=
  let! a := account_get who in account_put who (set_nonce (wrapping_add 32 (nonce a) 1) a).

(** ** [StoredMap] for the system account *)

Definition is_providing (d : AccountData) : bool := negb (bool_decide (d = default_data)).

(** [<System as StoredMap>::get] *)
Definition stored_get (s : Store) (who : AccountId) : AccountData := data (info s who).

(** The part of [try_mutate_exists] after the closure has run: [some_data] is the value the
    closure left. *)
Definition store_data (who : AccountId) (was_providing : bool) (some_data : option AccountData) : Run unit :=
  let write := let! a := account_get who in account_put who (set_data (default default_data some_data) a) in
  match was_providing, some_data with
  | false, Some _ => do! inc_providers who in write
  | true, None =>
    let! st := dec_providers who in
    match st with Reaped => ret tt | Exists_ => write end
  | false, None => ret tt
  | true, Some _ => write
  end.

(** [<System as StoredMap>::try_mutate_exists]; the closure receives the optional value and
    returns its result and the value it leaves.  When the provider reference cannot be given up
    the closure's result is dropped on the way out. *)
Definition try_mutate_exists {R} `{Drop R} (who : AccountId) (f : option AccountData → Run (R * option AccountData)) : Run R :=
  let! account := account_get who in
  let was_providing := is_providing (data account) in
  let! ' (result, some_data) := f (if was_providing then Some (data account) else None) in
  let! st := attempt (store_data who was_providing some_data) in
  match st with
  | inl _ => ret result
  | inr e => do! drop_value result in throw e
  end.

(** [StoredMap::mutate], [StoredMap::insert] *)
Definition stored_mutate {R} `{Drop R} (who : AccountId) (f : AccountData → Run (R * AccountData)) : Run R :=
  try_mutate_exists who (λ maybe_account,
    let! ' (r, account) := f (default default_data maybe_account) in
    ret (r, Some account)).
Definition stored_insert (who : AccountId) (t : AccountData) : Run unit :=
  stored_mutate who (λ _, ret (tt, t)).

(** ** Frame lemmas *)

Create HintDb sys.

(** Everything in the store but the accounts, the event log and the balances; everything but
    the accounts and the event log. *)
Definition others (s : Store) :=
  (indices s, vesting s, ipfs s, know s, market s, (offchain_index s, offchain_db s, capabilities s), (Number (sys s), ExecutionPhase (sys s))).
Definition rest (s : Store) := (bal s, others s).

Lemma accounts_deposit e s : accounts (deposit e s) = accounts s.
Proof. unfold accounts, deposit, deposit_event_in. simpl. by repeat case_match. Qed.

Lemma rest_deposit e s : rest (deposit e s) = rest s.
Proof. unfold rest, others, deposit, deposit_event_in. simpl. by repeat case_match. Qed.

Lemma accounts_put who a s : accounts (put_account who a s) = <[who := a]> (accounts s).
Proof. done. Qed.

Lemma accounts_remove who s : accounts (remove_account who s) = delete who (accounts s).
Proof. done. Qed.

Lemma rest_put who a s : rest (put_account who a s) = rest s.
Proof. done. Qed.

Lemma rest_remove who s : rest (remove_account who s) = rest s.
Proof. done. Qed.

Lemma info_put_eq who a s : info (put_account who a s) who = a.
Proof. unfold info. by rewrite accounts_put, lookup_insert_eq. Qed.

Lemma info_deposit e s who : info (deposit e s) who = info s who.
Proof. unfold info. by rewrite accounts_deposit. Qed.

Lemma rest_bal s s' : rest s' = rest s → bal s' = bal s.
Proof. unfold rest. congruence. Qed.

Lemma rest_others s s' : rest s' = rest s → others s' = others s.
Proof. unfold rest. congruence. Qed.

#[export] Hint Rewrite accounts_deposit rest_deposit accounts_put accounts_remove rest_put rest_remove
  info_put_eq info_deposit : sys.

Ltac sys_simpl := repeat (progress (autorewrite with sys in *; simpl in * )).

(** Split a monadic run that is known to return. *)
Ltac step_inv H :=
  lazymatch type of H with
  | bind _ _ _ = (Ok _, _) => apply bind_Ok in H as (? & ? & ? & ?)
  | ret _ _ = _ => unfold ret in H; simplify_eq
  | throw _ _ = _ => unfold throw in H; simplify_eq
  | gets _ _ = _ => unfold gets in H; simplify_eq
  | modify _ _ = _ => unfold modify in H; simplify_eq
  end.

(** ** Reference-count invariant *)

(** The counters are [u32]s, and an account with consumers has a provider. *)
Record refs_ok (i : AccountInfo) : Prop := {
  providers_u32 : is_u32 (providers i);
  consumers_u32 : is_u32 (consumers i);
  sufficients_u32 : is_u32 (sufficients i);
  consumers_provided : 0 < consumers i → 1 <= providers i }.

(** An account whose data is not the default is kept alive by a provider reference. *)
Definition provided (i : AccountInfo) : Prop := is_providing (data i) = true → 1 <= providers i.

Definition refs_inv (s : Store) : Prop := map_Forall (λ _ i, refs_ok i) (accounts s).
Definition sys_ok (s : Store) : Prop := map_Forall (λ _ i, refs_ok i ∧ provided i) (accounts s).

Lemma sys_ok_refs s : sys_ok s → refs_inv s.
Proof. intros Hs k i Hi. by apply (Hs k i). Qed.

Lemma default_info_ok : refs_ok default_info ∧ provided default_info.
Proof. split; [split; unfold is_u, umax; simpl; lia|done]. Qed.

Lemma info_refs s who : refs_inv s → refs_ok (info s who).
Proof. intros Hs. unfold info. destruct (accounts s !! who) eqn:E; simpl; [by eapply Hs|apply default_info_ok]. Qed.

Lemma info_provided s who : sys_ok s → provided (info s who).
Proof. intros Hs. unfold info. destruct (accounts s !! who) eqn:E; simpl; [by eapply Hs|apply default_info_ok]. Qed.

Lemma refs_inv_insert s s' who i : refs_inv s → refs_ok i → accounts s' = <[who := i]> (accounts s) → refs_inv s'.
Proof. intros Hs Hi Ha. unfold refs_inv. rewrite Ha. by apply map_Forall_insert_2. Qed.

Lemma refs_inv_delete s s' who : refs_inv s → accounts s' = delete who (accounts s) → refs_inv s'.
Proof. intros Hs Ha. unfold refs_inv. rewrite Ha. by apply map_Forall_delete. Qed.

(** An operation on [who] leaves the other accounts and the rest of the store alone. *)
Definition touches (who : AccountId) (s s' : Store) : Prop :=
  rest s' = rest s ∧ ∀ k, k ≠ who → accounts s' !! k = accounts s !! k.

Lemma touches_info who s s' k : touches who s s' → k ≠ who → info s' k = info s k.
Proof. intros [_ Ht] Hk. unfold info. by rewrite Ht. Qed.

Lemma touches_refl who s : touches who s s.
Proof. done. Qed.

Lemma touches_trans who s1 s2 s3 : touches who s1 s2 → touches who s2 s3 → touches who s1 s3.
Proof. intros [H1 H1'] [H2 H2']. split; [congruence|]. intros k Hk. by rewrite H2', H1'. Qed.

Lemma touches_put who a s : touches who s (put_account who a s).
Proof. split; [done|]. intros. sys_simpl. by rewrite lookup_insert_ne. Qed.

Lemma touches_remove who s : touches who s (remove_account who s).
Proof. split; [done|]. intros. sys_simpl. by rewrite lookup_delete_ne. Qed.

Lemma touches_deposit who e s : touches who s (deposit e s).
Proof. split; [apply rest_deposit|]. intros. by rewrite accounts_deposit. Qed.

#[export] Hint Resolve touches_refl touches_put touches_remove touches_deposit : sys.

(** Replacing the accounts of a store touched at [who] only. *)
Lemma touches_insert who i s s' : touches who s s' → accounts s' !! who = Some i → accounts s' = <[who := i]> (accounts s).
Proof.
  intros [_ Ht] Hi. apply map_eq. intros k. destruct (decide (k = who)) as [->|Hne].
  - by rewrite lookup_insert_eq.
  - by rewrite lookup_insert_ne, Ht.
Qed.

(** *** What each reference operation does *)

Ltac unfold_run H :=
  unfold account_get, account_put, on_created_account, on_killed_account, deposit_event, bind, gets, modify, ret, throw in H.

Lemma inc_providers_spec who s r s' :
  refs_inv s → inc_providers who s = (r, s') →
  let n := Z.min (providers (info s who) + 1) u32_max in
  r = Ok (if (providers (info s who) =? 0) && (sufficients (info s who) =? 0) then CreatedAcc else Existed) ∧
  accounts s' = <[who := set_providers n (info s who)]> (accounts s) ∧ touches who s s' ∧
  refs_ok (set_providers n (info s who)) ∧ 1 <= n.
Proof.
  intros Hok Hr n. pose proof (info_refs s who Hok) as [Hp Hc Hsu Hcp]. unfold is_u in *.
  assert (1 <= n) by (subst n; pose proof u32_max_pos; lia).
  assert (refs_ok (set_providers n (info s who))) by (subst n; unfold u32_max in *; split; simpl; unfold is_u; lia).
  unfold inc_providers in Hr. unfold_run Hr.
  destruct ((providers (info s who) =? 0) && (sufficients (info s who) =? 0)) eqn:Eb; simplify_eq.
  - apply andb_true_iff in Eb as [E0%Z.eqb_eq _].
    assert (n = 1) as -> by (subst n; rewrite E0; reflexivity).
    split; [done|]. split; [by sys_simpl|]. split; [|done].
    eapply touches_trans; eauto with sys.
  - unfold saturating_add. fold u32_max. eauto 10 with sys.
Qed.

Lemma dec_providers_spec who s r s' :
  refs_inv s → dec_providers who s = (r, s') →
  touches who s s' ∧
  ((r = Ok Reaped ∧ accounts s' !! who = None ∧ consumers (info s who) = 0 ∧ sufficients (info s who) = 0) ∨
   (r = Err ConsumerRemaining ∧ s' = s ∧ 0 < consumers (info s who) ∧ providers (info s who) = 1) ∨
   (r = Ok Exists_ ∧ can_dec_provider s who = true ∧ let n := Z.max (providers (info s who)) 1 - 1 in
      refs_ok (set_providers n (info s who)) ∧ accounts s' = <[who := set_providers n (info s who)]> (accounts s))).
Proof.
  intros Hok Hr. pose proof (info_refs s who Hok) as [Hp Hc Hsu Hcp]. unfold is_u in *.
  unfold dec_providers in Hr. unfold_run Hr. unfold info in *.
  destruct (accounts s !! who) as [i|] eqn:Ei; simpl in *; [|simplify_eq; eauto 10 with sys].
  set (i' := if providers i =? 0 then set_providers 1 i else i) in *.
  assert (providers i' = Z.max (providers i) 1 ∧ consumers i' = consumers i ∧ sufficients i' = sufficients i ∧
          ∀ n, set_providers n i' = set_providers n i) as (Ep & Ec & Es & Eset).
  { subst i'. destruct (Z.eqb_spec (providers i) 0); simpl; repeat split; lia. }
  rewrite Ep, Ec, Es in Hr.
  destruct ((Z.max (providers i) 1 =? 1) && (consumers i =? 0) && (sufficients i =? 0)) eqn:E1; [simplify_eq|].
  { apply andb_true_iff in E1 as [[_ ?%Z.eqb_eq]%andb_true_iff ?%Z.eqb_eq].
    split; [|left; split; [done|]; sys_simpl; by rewrite lookup_delete_eq]. eapply touches_trans; eauto with sys. }
  destruct ((Z.max (providers i) 1 =? 1) && (0 <? consumers i)) eqn:E2; simplify_eq.
  - split; [done|]. right; left. apply andb_true_iff in E2 as [?%Z.eqb_eq ?%Z.ltb_lt].
    repeat split; [lia|]. specialize (Hcp ltac:(lia)). lia.
  - split; [eauto with sys|]. right; right. split; [done|].
    split; [unfold can_dec_provider, info; rewrite Ei; simpl; apply orb_true_iff; rewrite Z.eqb_eq, Z.ltb_lt; props; lia|].
    assert (wrapping_sub 32 (Z.max (providers i) 1) 1 = Z.max (providers i) 1 - 1) as Hw.
    { apply wrapping_sub_id; [lia|]. unfold umax in *. lia. }
    rewrite Hw, Eset in *. split; [|done]. split; simpl; unfold is_u; [lia..|].
    intros Hpos. apply andb_false_iff in E2 as [E2|E2]; [apply Z.eqb_neq in E2; lia|apply Z.ltb_ge in E2; lia].
Qed.

Lemma info_insert who i s s' : accounts s' = <[who := i]> (accounts s) → info s' who = i.
Proof. intros Ha. unfold info. by rewrite Ha, lookup_insert_eq. Qed.

Lemma sys_ok_touch who s s' :
  sys_ok s → touches who s s' → refs_ok (info s' who) ∧ provided (info s' who) → sys_ok s'.
Proof.
  intros Hs [_ Ht] Hi k i Hk. destruct (decide (k = who)) as [->|Hne].
  - unfold info in Hi. by rewrite Hk in Hi.
  - rewrite Ht in Hk by done. by apply (Hs k).
Qed.

(** Nothing but its data provides for the account. *)
Definition sole (s : Store) (who : AccountId) : Prop :=
  providers (info s who) = if is_providing (stored_get s who) then 1 else 0.

(** Storing a value, or the absence of one, in the account of [who]. *)
Record stored (who : AccountId) (od : option AccountData) (s s' : Store) : Prop := {
  st_touches : touches who s s';
  st_ok : sys_ok s';
  st_data : stored_get s' who = default default_data od;
  st_consumers : consumers (info s' who) = consumers (info s who);
  st_sufficients : sufficients (info s' who) = sufficients (info s who);
  st_providers : is_Some od → 1 <= providers (info s' who);
  st_can : od = None → is_providing (stored_get s who) = true → can_dec_provider s who = true;
  st_sole : is_providing (default default_data od) = bool_decide (is_Some od) → sole s who → sole s' who }.

Lemma store_data_spec who od s r s' :
  sys_ok s → store_data who (is_providing (stored_get s who)) od s = (r, s') →
  (r = Err ConsumerRemaining ∧ s' = s ∧ od = None ∧ is_providing (stored_get s who) = true ∧
     can_dec_provider s who = false) ∨
  (r = Ok tt ∧ stored who od s s').
Proof.
  intros Hok Hr. pose proof (sys_ok_refs _ Hok) as Hrefs. pose proof (info_refs s who Hrefs) as Hi.
  pose proof (info_provided s who Hok) as Hpr. unfold store_data in Hr. unfold provided, stored_get in *.
  destruct (is_providing (data (info s who))) eqn:Ew, od as [d|].
  - right. unfold_run Hr. simplify_eq. split; [done|].
    assert (refs_ok (set_data d (info s who))) by (by destruct Hi; split).
    split; [eauto with sys|..]; unfold sole, stored_get; rewrite ?info_put_eq, ?Ew; try done.
    + eapply sys_ok_touch; [done|apply touches_put|]. rewrite info_put_eq. split; [done|]. unfold provided. simpl. lia.
    + simpl. intros _. lia.
    + simpl. by intros ->.
  - unfold bind in Hr. destruct (dec_providers who s) as [rd sd] eqn:Ed.
    apply dec_providers_spec in Ed as [Ht [(-> & Hn & Hc & Hsu)|[(-> & -> & Hc & Hp)|(-> & Hcan & Hn & Ha)]]]; [| | |done].
    + right. unfold ret in Hr. simplify_eq. split; [done|].
      assert (info s' who = default_info) as Hid by (unfold info; by rewrite Hn).
      split; unfold sole, stored_get; rewrite ?Hid; try done.
      * eapply sys_ok_touch; [done..|]. rewrite Hid. apply default_info_ok.
      * intros _ _. unfold can_dec_provider. by rewrite Hc.
    + left. simplify_eq. repeat split. unfold can_dec_provider. rewrite Hp.
      by rewrite (proj2 (Z.eqb_neq _ _)) by lia.
    + right. unfold_run Hr. simplify_eq. split; [done|].
      set (n := Z.max (providers (info s who)) 1 - 1) in *.
      pose proof (info_insert _ _ _ _ Ha) as Hid.
      split; unfold sole, stored_get; rewrite ?info_put_eq, ?Hid, ?Ew; try done.
      * eapply touches_trans; eauto with sys.
      * eapply sys_ok_touch; [done|eapply touches_trans; eauto with sys|]. rewrite info_put_eq, ?Hid.
        split; [by destruct Hn; split|done].
      * simpl. intros _ Hs. subst n. by rewrite Hs.
  - right. unfold bind in Hr. destruct (inc_providers who s) as [ri si] eqn:Ei.
    apply inc_providers_spec in Ei as (-> & Ha & Ht & Hn & Hpos); [|done].
    unfold_run Hr. simplify_eq. split; [done|]. pose proof (info_insert _ _ _ _ Ha) as Hid.
    split; unfold sole, stored_get; rewrite ?info_put_eq, ?Hid, ?Ew; try done.
    + eapply touches_trans; eauto with sys.
    + eapply sys_ok_touch; [done|eapply touches_trans; eauto with sys|]. rewrite info_put_eq, ?Hid.
      split; [by destruct Hn; split|by intros _].
    + simpl. by intros -> ->.
  - right. unfold ret in Hr. simplify_eq. split; [done|]. split; try done.
    + unfold stored_get. simpl. unfold is_providing in Ew. by apply negb_false_iff, bool_decide_eq_true in Ew.
    + unfold stored_get. congruence.
Qed.

(** [try_mutate_exists] stores what the closure leaves; the one way it can fail after the
    closure has succeeded is that the account would lose its last provider while it has
    consumers, and then the closure's result is dropped. *)
Lemma wp_try_mutate_exists {R} `{Drop R} who f Q s :
  sys_ok s →
  wp (f (if is_providing (stored_get s who) then Some (stored_get s who) else None)) (λ r s1,
    match r with
    | Ok (x, od) =>
      sys_ok s1 ∧ info s1 who = info s who ∧
      (∀ s', stored who od s1 s' → Q (Ok x) s') ∧
      (od = None → is_providing (stored_get s who) = true → can_dec_provider s who = false →
       wp (drop_value x) (λ r s', match r with Ok _ => Q (Err ConsumerRemaining) s' | Err e => Q (Err e) s' | Panic => Q Panic s' end) s1)
    | Err e => Q (Err e) s1
    | Panic => Q Panic s1
    end) s →
  wp (try_mutate_exists who f) Q s.
Proof.
  intros Hok Hf. unfold try_mutate_exists, account_get. wp_steps. fold (stored_get s who).
  eapply wp_mono; [exact Hf|]. intros [[x od]|e|] s1; [|done..].
  intros (Hok1 & Hinfo & HQ & Hdead). apply wp_bind, wp_attempt, run_wp. intros r s' Hr.
  assert (stored_get s1 who = stored_get s who) as Hg by (unfold stored_get; by rewrite Hinfo).
  rewrite <- Hg in Hr. apply store_data_spec in Hr as [(-> & -> & -> & Hp & Hc)|[-> Hst]]; [| |done].
  - apply wp_bind. eapply wp_mono; [apply Hdead; [done|by rewrite <- Hg|]|].
    + unfold can_dec_provider in *. by rewrite <- Hinfo.
    + by intros [] ?.
  - apply wp_ret. by apply HQ.
Qed.

(** ** The reference operations as a transition system *)

Inductive RefOp := IncProviders | DecProviders | IncSufficients | DecSufficients | IncConsumers (max_consumers : Z)
| IncConsumersWithoutLimit | DecConsumers | IncNonce.

(** The operations with their results forgotten; an [Err] leaves the store as the operation did. *)
Definition ref_op (op : RefOp) (who : AccountId) : Run unit :=
  match op with
  | IncProviders => do! inc_providers who in ret tt
  | DecProviders => do! dec_providers who in ret tt
  | IncSufficients => do! inc_sufficients who in ret tt
  | DecSufficients => do! dec_sufficients who in ret tt
  | IncConsumers max_consumers => inc_consumers max_consumers who
  | IncConsumersWithoutLimit => inc_consumers_without_limit who
  | DecConsumers => dec_consumers who
  | IncNonce => inc_account_nonce who
  end.

Inductive ref_step (s : Store) : Store → Prop :=
| ref_step_intro op who r s' : ref_op op who s = (r, s') → ref_step s s'.

Lemma refs_inv_touch who s s' : refs_inv s → touches who s s' → refs_ok (info s' who) → refs_inv s'.
Proof.
  intros Hs [_ Ht] Hi k i Hk. destruct (decide (k = who)) as [->|Hne].
  - unfold info in Hi. by rewrite Hk in Hi.
  - rewrite Ht in Hk by done. by apply (Hs k).
Qed.

Lemma refs_inv_put who i s : refs_inv s → refs_ok i → refs_inv (put_account who i s).
Proof. intros Hs Hi. eapply refs_inv_touch; [done|apply touches_put|by rewrite info_put_eq]. Qed.

Lemma refs_inv_deposit e s : refs_inv s → refs_inv (deposit e s).
Proof. unfold refs_inv. by rewrite accounts_deposit. Qed.

Lemma refs_inv_remove who s : refs_inv s → refs_inv (remove_account who s).
Proof. intros Hs. eapply refs_inv_delete; done. Qed.

Lemma refs_ok_providers n i : refs_ok i → is_u32 n → (0 < consumers i → 1 <= n) → refs_ok (set_providers n i).
Proof. intros [] ??. by split. Qed.

Lemma refs_ok_sufficients n i : refs_ok i → is_u32 n → refs_ok (set_sufficients n i).
Proof. intros [] ?. by split. Qed.

Lemma refs_ok_consumers n i : refs_ok i → is_u32 n → (0 < n → 1 <= providers i) → refs_ok (set_consumers n i).
Proof. intros [] ??. by split. Qed.

Lemma wrapping_u w x : 0 < w → is_u w (x mod 2 ^ w).
Proof. intros Hw. unfold is_u, umax. pose proof (Z.mod_pos_bound x (2 ^ w) ltac:(lia)). lia. Qed.

Lemma saturating_u x : is_u32 x → is_u32 (saturating_add 32 x 1).
Proof. unfold is_u, saturating_add. lia. Qed.

#[export] Hint Resolve refs_inv_put refs_inv_deposit refs_inv_remove refs_ok_providers refs_ok_sufficients refs_ok_consumers
  wrapping_u saturating_u info_refs : sys.

(** The operations that write one account back, or remove it. *)
Lemma inc_sufficients_refs who s : refs_inv s → refs_inv (inc_sufficients who s).2.
Proof.
  intros Hs. pose proof (info_refs s who Hs) as Hi. unfold inc_sufficients, account_get, account_put, on_created_account, deposit_event, bind, gets, modify, ret.
  case_match; simpl; [apply refs_inv_put; [auto with sys|]|apply refs_inv_put; [done|]]; apply refs_ok_sufficients; try done.
  apply saturating_u, Hi.
Qed.

Lemma dec_sufficients_refs who s : refs_inv s → refs_inv (dec_sufficients who s).2.
Proof.
  intros Hs. unfold dec_sufficients, account_put, on_killed_account, deposit_event, bind, gets, modify, ret.
  destruct (accounts s !! who) as [i|] eqn:Hi; [|done]. case_match; simpl; [auto with sys|].
  apply refs_inv_put; [done|]. apply refs_ok_sufficients; [by apply (Hs who)|by apply wrapping_u].
Qed.

Lemma inc_consumers_refs who s n : refs_inv s → 0 < providers (info s who) → n = consumers (info s who) →
  refs_inv (put_account who (set_consumers (saturating_add 32 n 1) (info s who)) s).
Proof.
  intros Hs Hp ->. pose proof (info_refs s who Hs) as Hi. apply refs_inv_put; [done|]. apply refs_ok_consumers; [done|apply saturating_u, Hi|lia].
Qed.

(** Every reference operation keeps the counters within [u32] and consumers provided for. *)
Lemma ref_op_refs op who s : refs_inv s → refs_inv (ref_op op who s).2.
Proof.
  intros Hs. pose proof (info_refs s who Hs) as Hi. destruct op; simpl; unfold bind, ret.
  - destruct (inc_providers who s) as [r1 s1] eqn:E. apply inc_providers_spec in E as (-> & Ha & _ & Hn & _); [|done].
    by eapply refs_inv_insert.
  - destruct (dec_providers who s) as [r1 s1] eqn:E.
    apply dec_providers_spec in E as [Ht [(-> & Hn & _)|[(-> & -> & _)|(-> & _ & Hn & Ha)]]]; [..|done]; simpl.
    + eapply refs_inv_touch; [done..|]. unfold info. rewrite Hn. apply default_info_ok.
    + done.
    + by eapply refs_inv_insert.
  - pose proof (inc_sufficients_refs who s Hs) as H. by destruct (inc_sufficients who s) as [[] ?].
  - pose proof (dec_sufficients_refs who s Hs) as H. by destruct (dec_sufficients who s) as [[] ?].
  - unfold inc_consumers, account_get, account_put, bind, gets, modify, throw. repeat case_match; simpl; try done. props. by apply inc_consumers_refs.
  - unfold inc_consumers_without_limit, account_get, account_put, bind, gets, modify, throw. case_match; simpl; try done. props. by apply inc_consumers_refs.
  - unfold dec_consumers, account_get, account_put, bind, gets, modify. simpl. apply refs_inv_put; [done|]. case_match; [|done]. props.
    destruct Hi as [Hp Hc Hsu Hcp]. apply refs_ok_consumers; [done|unfold is_u in *; lia|intros; apply Hcp; lia].
  - unfold inc_account_nonce, account_get, account_put, bind, gets, modify. simpl. apply refs_inv_put; [done|]. by destruct Hi.
Qed.

(** C13. Whatever sequence of reference operations the pallets run, every counter stays within
    [u32] and an account with consumers keeps at least one provider. *)
Theorem refs_reachable s s' : refs_inv s → rtc ref_step s s' →
  ∀ who, is_u32 (providers (info s' who)) ∧ is_u32 (consumers (info s' who)) ∧ is_u32 (sufficients (info s' who)) ∧
    (0 < consumers (info s' who) → 1 <= providers (info s' who)).
Proof.
  intros Hs Hr who. assert (refs_inv s') as Hs'.
  { induction Hr as [|x y z [op k r y' Hop] _ IH]; [done|]. apply IH. pose proof (ref_op_refs op k x Hs) as H. by rewrite Hop in H. }
  by destruct (info_refs s' who Hs').
Qed.

(** [dec_providers] refuses exactly to take the last provider from an account with
    consumers, and then leaves the store unchanged. *)
Theorem dec_providers_refuses who s : refs_inv s →
  (∃ e, (dec_providers who s).1 = Err e) ↔ can_dec_provider s who = false.
Proof.
  intros Hs. pose proof (info_refs s who Hs) as [Hp Hc _ Hcp]. unfold is_u in *.
  destruct (dec_providers who s) as [r s'] eqn:E. apply dec_providers_spec in E as [_ [(-> & _ & Hc0 & _)|[(-> & _ & Hpos & Hp1)|(-> & Hcan & _)]]]; [..|done]; simpl.
  - split; [by intros [? ?]|]. unfold can_dec_provider. rewrite Hc0. done.
  - split; [|eauto]. intros _. unfold can_dec_provider. rewrite Hp1. apply orb_false_iff. rewrite Z.eqb_neq, Z.ltb_ge. lia.
  - split; [by intros [? ?]|congruence].
Qed.

(** The contract of [StoredMap] for the account data: [try_mutate_exists] hands the
    closure the stored value, stores what the closure leaves and touches no other account; if
    the account must keep its provider reference the stored value is unchanged. *)
Theorem stored_map_contract {R} `{Drop R} who (f : option AccountData → R * option AccountData) s r s' :
  sys_ok s → (∀ x s0, (drop_value x s0).1 = Ok tt ∧ accounts (drop_value x s0).2 = accounts s0) →
  try_mutate_exists who (λ o, ret (f o)) s = (r, s') →
  let old := stored_get s who in
  let '(x, od) := f (if is_providing old then Some old else None) in
  sys_ok s' ∧ (∀ k, k ≠ who → accounts s' !! k = accounts s !! k) ∧
  match r with
  | Ok y => y = x ∧ stored_get s' who = default default_data od
  | Err e => e = ConsumerRemaining ∧ od = None ∧ can_dec_provider s who = false ∧ stored_get s' who = old
  | Panic => False
  end.
Proof.
  intros Hs Hdrop Hr old. destruct (f (if is_providing old then Some old else None)) as [x od] eqn:Hf.
  refine (wp_run _ (λ r s', sys_ok s' ∧ (∀ k, k ≠ who → accounts s' !! k = accounts s !! k) ∧ match r with
    | Ok y => y = x ∧ stored_get s' who = default default_data od
    | Err e => e = ConsumerRemaining ∧ od = None ∧ can_dec_provider s who = false ∧ stored_get s' who = old
    | Panic => False end) _ _ _ _ Hr).
  apply wp_try_mutate_exists; [done|]. apply wp_ret. fold old. rewrite Hf. split; [done|]. split; [done|]. split.
  - intros s1 [Ht Hok Hd _ _ _ _]. split; [done|]. split; [apply Ht|]. done.
  - intros -> _ Hcan. apply run_wp. intros r1 s1 Hd. destruct (Hdrop x s) as [Ho Ha]. rewrite Hd in Ho, Ha. simpl in *. subst r1.
    unfold sys_ok, stored_get, info. rewrite Ha. split; [done|]. split; [done|]. done.
Qed.

(** [dec_sufficients] on a provided account without sufficient references does not stop at
    zero: the counter wraps around to the largest [u32]. *)
Theorem dec_sufficients_wraps who s i :
  accounts s !! who = Some i → sufficients i = 0 → 0 < providers i →
  sufficients (info (dec_sufficients who s).2 who) = u32_max.
Proof.
  intros Hi Hs Hp. unfold dec_sufficients, account_put, bind, gets, modify, ret. rewrite Hi, Hs. simpl.
  rewrite (proj2 (Z.eqb_neq _ 0)) by lia. simpl. by rewrite info_put_eq.
Qed.

(** *** Witnesses *)

(** One account with a provider, one with a consumer too. *)
Definition provided_store : Store :=
  put_account 1%N (mkInfo 0 1 1 0 (mkData 5 0 0 0)) (put_account 2%N (mkInfo 0 0 1 0 (mkData 7 0 0 0)) (empty_store 1 0)).

Lemma provided_store_ok : sys_ok provided_store.
Proof.
  apply map_Forall_insert_2; [|apply map_Forall_insert_2; [|apply map_Forall_empty]];
    (split; [split|]; unfold is_u, umax, provided; simpl; lia).
Qed.

Lemma refs_reachable_witness :
  let s' := (ref_op IncConsumersWithoutLimit 2%N provided_store).2 in
  consumers (info s' 2%N) = 1 ∧ 1 <= providers (info s' 2%N).
Proof.
  intros s'. split; [reflexivity|]. apply (refs_reachable provided_store s' (sys_ok_refs _ provided_store_ok)); [|reflexivity].
  apply rtc_once. eapply ref_step_intro. apply surjective_pairing.
Defined.

Lemma dec_providers_refuses_witness : ∃ e, (dec_providers 1%N provided_store).1 = Err e.
Proof. apply (dec_providers_refuses 1%N provided_store (sys_ok_refs _ provided_store_ok)). reflexivity. Defined.

Lemma stored_map_witness :
  let rs := try_mutate_exists 2%N (λ o, ret (tt, (λ d, mkData (free d - 1) 0 0 0) <$> o)) provided_store in
  stored_get rs.2 2%N = mkData 6 0 0 0.
Proof.
  intros rs.
  pose proof (stored_map_contract 2%N (λ o, (tt, (λ d, mkData (free d - 1) 0 0 0) <$> o)) provided_store _ _ provided_store_ok
    ltac:(done) (surjective_pairing _)) as (_ & _ & H).
  revert H. replace (try_mutate_exists 2%N (λ o, ret (tt, (λ d, mkData (free d - 1) 0 0 0) <$> o)) provided_store).1
    with (Ok (E := DispatchError) tt) by reflexivity.
  intros [_ H]. exact H.
Defined.

Lemma dec_sufficients_wraps_witness : sufficients (info (dec_sufficients 2%N provided_store).2 2%N) = u32_max.
Proof. apply (dec_sufficients_wraps 2%N provided_store (mkInfo 0 0 1 0 (mkData 7 0 0 0))); reflexivity. Defined.
