(* ===== verification/Balances.v ===== *)
(** [pallet_balances] ([frame/balances/src/lib.rs]): the definitions.

    Account data lives in the account map of [frame_system] (the runtime configures
    [AccountStore = frame_system]); total issuance, locks and named reserves are storage items
    of the pallet.  A closure [FnOnce(&mut AccountData, bool) -> Result<R, E>] is a function
    [AccountData → bool → Run (R * AccountData)] that also returns the data it leaves. *)

From S2P Require Import Prelude Runtime System.

(** ** Configuration *)

Class BalancesConfig := {
  ExistentialDeposit : Balance;
  MaxLocks : Z;
  MaxReserves : Z }.

Definition MILLICENTS : Balance := 1000000000.
Definition CENTS : Balance := 1000 * MILLICENTS.
Definition DOLLARS : Balance := 100 * CENTS.

(** [impl pallet_balances::Config for Runtime] *)
Definition node_balances : BalancesConfig :=
  {| ExistentialDeposit := 1 * DOLLARS; MaxLocks := 50; MaxReserves := 50 |}.

(** ** Withdraw reasons and consequences *)

(** [WithdrawReasons] is a set of bits. *)
Definition TRANSACTION_PAYMENT : Z := 1.
Definition TRANSFER : Z := 2.
Definition RESERVE : Z := 4.
Definition FEE : Z := 8.
Definition TIP : Z := 16.

(** [Reasons::from] *)
Definition reasons_from (r : Z) : Reasons :=
  if r =? TRANSACTION_PAYMENT then Fee
  else if Z.land r TRANSACTION_PAYMENT =? TRANSACTION_PAYMENT then All
  else Misc.

Definition reasons_bitor (a b : Reasons) : Reasons := if decide (a = b) then a else All.

Module WithdrawConsequence.
Inductive t :=
| NoFunds | WouldDie | UnknownAsset | Underflow | Overflow | Frozen | ReducedToZero (dust : Balance) | Success.

Definition withdraw_into_result (c : t) : Run Balance :=
  match c with
  | NoFunds => throw (Token Runtime.NoFunds)
  | WouldDie => throw (Token Runtime.WouldDie)
  | UnknownAsset => throw (Token Runtime.UnknownAsset)
  | Underflow => throw (Arithmetic Runtime.Underflow)
  | Overflow => throw (Arithmetic Runtime.Overflow)
  | Frozen => throw (Token Runtime.Frozen)
  | ReducedToZero result => ret result
  | Success => ret 0
  end.
End WithdrawConsequence.

Module DepositConsequence.
Inductive t := BelowMinimum | CannotCreate | UnknownAsset | Overflow | Success.

Definition deposit_into_result (c : t) : Run unit :=
  match c with
  | BelowMinimum => throw (Token Runtime.BelowMinimum)
  | CannotCreate => throw (Token Runtime.CannotCreate)
  | UnknownAsset => throw (Token Runtime.UnknownAsset)
  | Overflow => throw (Arithmetic Runtime.Overflow)
  | Success => ret tt
  end.
End DepositConsequence.

(** ** Account data *)

Definition set_free (x : Balance) (a : AccountData) : AccountData := mkData x (reserved a) (misc_frozen a) (fee_frozen a).
Definition set_reserved (x : Balance) (a : AccountData) : AccountData := mkData (free a) x (misc_frozen a) (fee_frozen a).

Definition frozen (a : AccountData) (reasons : Reasons) : Balance :=
  match reasons with
  | All => misc_frozen a `max` fee_frozen a
  | Misc => misc_frozen a
  | Fee => fee_frozen a
  end.
Definition usable (a : AccountData) (reasons : Reasons) : Balance := saturating_sub (free a) (frozen a reasons).
Definition total (a : AccountData) : Balance := saturating_add 128 (free a) (reserved a).

(** ** Imbalances

    Move-only values; they change the total issuance when they are dropped. *)

Record PositiveImbalance := Pos { pos_amount : Balance }.
Record NegativeImbalance := Neg { neg_amount : Balance }.

Definition mutate_issuance (f : Balance → Balance) : Run unit := modify (with_bal (with_issuance f)).

#[export] Instance drop_positive : Drop PositiveImbalance := λ p, mutate_issuance (λ v, saturating_add 128 v (pos_amount p)).
#[export] Instance drop_negative : Drop NegativeImbalance := λ n, mutate_issuance (λ v, saturating_sub v (neg_amount n)).

Inductive SameOrOther (A B : Type) := SameOrOther_None | Same (a : A) | OtherSide (b : B).
Arguments SameOrOther_None {A B}.
Arguments Same {A B} a.
Arguments OtherSide {A B} b.

Definition pos_drop_zero (p : PositiveImbalance) : unit + PositiveImbalance := if pos_amount p =? 0 then inl tt else inr p.
Definition pos_split (p : PositiveImbalance) (amount : Balance) : PositiveImbalance * PositiveImbalance :=
  let first := pos_amount p `min` amount in
  let second := pos_amount p ⊖ first in
  (Pos first, Pos second).
Definition pos_merge (p other : PositiveImbalance) : PositiveImbalance :=
  Pos (saturating_add 128 (pos_amount p) (pos_amount other)).
Definition pos_offset (p : PositiveImbalance) (other : NegativeImbalance) : SameOrOther PositiveImbalance NegativeImbalance :=
  let a := pos_amount p in
  let b := neg_amount other in
  if b <? a then Same (Pos (a ⊖ b))
  else if a <? b then OtherSide (Neg (b ⊖ a))
  else SameOrOther_None.

Definition neg_drop_zero (p : NegativeImbalance) : unit + NegativeImbalance := if neg_amount p =? 0 then inl tt else inr p.
Definition neg_split (p : NegativeImbalance) (amount : Balance) : NegativeImbalance * NegativeImbalance :=
  let first := neg_amount p `min` amount in
  let second := neg_amount p ⊖ first in
  (Neg first, Neg second).
Definition neg_merge (p other : NegativeImbalance) : NegativeImbalance :=
  Neg (saturating_add 128 (neg_amount p) (neg_amount other)).
Definition neg_offset (p : NegativeImbalance) (other : PositiveImbalance) : SameOrOther NegativeImbalance PositiveImbalance :=
  let a := neg_amount p in
  let b := pos_amount other in
  if b <? a then Same (Neg (a ⊖ b))
  else if a <? b then OtherSide (Pos (b ⊖ a))
  else SameOrOther_None.

Inductive SignedImbalance := Positive (p : PositiveImbalance) | Negative (n : NegativeImbalance).
#[export] Instance drop_signed : Drop SignedImbalance := λ i,
  match i with Positive p => drop_value p | Negative n => drop_value n end.

Definition emit (e : BalancesEvent) : Run unit := deposit_event (EBalances e).

(** [OnUnbalanced for ()]: [try_drop], else [on_nonzero_unbalanced], which drops. *)
Definition on_unbalanced (amount : NegativeImbalance) : Run unit :=
  match neg_drop_zero amount with
  | inl _ => drop_value amount
  | inr amount => drop_value amount
  end.

Record DustCleaner := mkCleaner { cleaner_dust : option (AccountId * NegativeImbalance) }.
#[export] Instance drop_dust_cleaner : Drop DustCleaner := λ c,
  match cleaner_dust c with
  | Some (who, dust) =>
    do! emit (DustLost who (neg_amount dust)) in
    on_unbalanced dust
  | None => ret tt
  end.

Section Pallet.
  Context {cfg : BalancesConfig}.

(** ** Inherent functions *)

Definition account (s : Store) (who : AccountId) : AccountData := stored_get s who.
Definition free_balance (s : Store) (who : AccountId) : Balance := free (account s who).
Definition usable_balance (s : Store) (who : AccountId) : Balance := usable (account s who) Misc.
Definition usable_balance_for_fees (s : Store) (who : AccountId) : Balance := usable (account s who) Fee.
Definition reserved_balance (s : Store) (who : AccountId) : Balance := reserved (account s who).
Definition total_balance (s : Store) (who : AccountId) : Balance := total (account s who).
Definition locks (s : Store) (who : AccountId) : list BalanceLock := default [] (Locks (bal s) !! who).
Definition reserves (s : Store) (who : AccountId) : list ReserveData := default [] (Reserves (bal s) !! who).

Definition post_mutation (who : AccountId) (new : AccountData) : option AccountData * option NegativeImbalance :=
  let total := total new in
  if total <? ExistentialDeposit then
    if total =? 0 then (None, None) else (None, Some (Neg total))
  else (Some new, None).

Definition deposit_consequence (s : Store) (who : AccountId) (amount : Balance) (account : AccountData) (mint : bool)
    : DepositConsequence.t :=
  if amount =? 0 then DepositConsequence.Success
  else if mint && bool_decide (checked_add 128 (TotalIssuance (bal s)) amount = None) then DepositConsequence.Overflow
  else
    match checked_add 128 (total account) amount with
    | None => DepositConsequence.Overflow
    | Some new_total_balance =>
      if new_total_balance <? ExistentialDeposit then DepositConsequence.BelowMinimum
      else DepositConsequence.Success
    end.

Definition withdraw_consequence (s : Store) (who : AccountId) (amount : Balance) (account : AccountData)
    : WithdrawConsequence.t :=
  if amount =? 0 then WithdrawConsequence.Success
  else
    match checked_sub (TotalIssuance (bal s)) amount with
    | None => WithdrawConsequence.Underflow
    | Some _ =>
      match checked_sub (total account) amount with
      | None => WithdrawConsequence.NoFunds
      | Some new_total_balance =>
        let ed := ExistentialDeposit in
        if (new_total_balance <? ed) && negb (can_dec_provider s who) then WithdrawConsequence.WouldDie
        else
          let success :=
            if new_total_balance <? ed then WithdrawConsequence.ReducedToZero new_total_balance
            else WithdrawConsequence.Success in
          match checked_sub (free account) amount with
          | None => WithdrawConsequence.NoFunds
          | Some new_free_balance =>
            let min_balance := frozen account All in
            if new_free_balance <? min_balance then WithdrawConsequence.Frozen else success
          end
      end
    end.

Definition try_mutate_account_with_dust {R} `{Drop R} (who : AccountId) (f : AccountData → bool → Run (R * AccountData))
    : Run (R * DustCleaner) :=
  let! ' (maybe_endowed, maybe_dust, result) := try_mutate_exists who (λ maybe_account,
    let is_new := bool_decide (maybe_account = None) in
    let account := default default_data maybe_account in
    let! ' (result, account) := f account is_new in
    let maybe_endowed := if is_new then Some (free account) else None in
    let maybe_account_maybe_dust := post_mutation who account in
    ret ((maybe_endowed, maybe_account_maybe_dust.2, result), maybe_account_maybe_dust.1)) in
  do! match maybe_endowed with Some endowed => emit (Endowed who endowed) | None => ret tt end in
  ret (result, mkCleaner ((λ dust, (who, dust)) <$> maybe_dust)).

Definition try_mutate_account {R} `{Drop R} (who : AccountId) (f : AccountData → bool → Run (R * AccountData)) : Run R :=
  let! ' (result, dust_cleaner) := try_mutate_account_with_dust who f in
  do! drop_value dust_cleaner in
  ret result.

Definition mutate_account {R} `{Drop R} (who : AccountId) (f : AccountData → Run (R * AccountData)) : Run R :=
  try_mutate_account who (λ a _, f a).

(** The frozen amounts that a list of locks imposes. *)
Definition freeze_by (l : BalanceLock) (b : AccountData) : AccountData :=
  let b :=
    if bool_decide (lock_reasons l = All) || bool_decide (lock_reasons l = Misc)
    then mkData (free b) (reserved b) (misc_frozen b `max` lock_amount l) (fee_frozen b) else b in
  if bool_decide (lock_reasons l = All) || bool_decide (lock_reasons l = Fee)
  then mkData (free b) (reserved b) (misc_frozen b) (fee_frozen b `max` lock_amount l) else b.
Definition freeze_all (locks : list BalanceLock) (b : AccountData) : AccountData :=
  fold_left (λ b l, freeze_by l b) locks (mkData (free b) (reserved b) 0 0).

(** [force_from] keeps the locks it is given, even above [MaxLocks]. *)
Definition update_locks (who : AccountId) (locks : list BalanceLock) : Run unit :=
  do! attempt (mutate_account who (λ b, ret (tt, freeze_all locks b))) in
  let! existed := gets (λ s, bool_decide (is_Some (Locks (bal s) !! who))) in
  match locks with
  | [] =>
    do! modify (with_bal (with_locks (delete who))) in
    if existed then dec_consumers who else ret tt
  | _ =>
    do! modify (with_bal (with_locks <[who := locks]>)) in
    if existed then ret tt else
    do! attempt (inc_consumers_without_limit who) in
    ret tt
  end.

(** ** [Currency] *)

Definition can_slash (s : Store) (who : AccountId) (value : Balance) : bool :=
  if value =? 0 then true else value <=? free_balance s who.

Definition burn (amount : Balance) : Run PositiveImbalance :=
  if amount =? 0 then ret (Pos 0) else
  let! issued := gets (λ s, TotalIssuance (bal s)) in
  match checked_sub issued amount with
  | Some x => do! mutate_issuance (λ _, x) in ret (Pos amount)
  | None => do! mutate_issuance (λ _, 0) in ret (Pos issued)
  end.

Definition issue (amount : Balance) : Run NegativeImbalance :=
  if amount =? 0 then ret (Neg 0) else
  let! issued := gets (λ s, TotalIssuance (bal s)) in
  match checked_add 128 issued amount with
  | Some x => do! mutate_issuance (λ _, x) in ret (Neg amount)
  | None => do! mutate_issuance (λ _, u128_max) in ret (Neg (u128_max ⊖ issued))
  end.

Definition ensure_can_withdraw (who : AccountId) (amount : Balance) (reasons : Z) (new_balance : Balance) : Run unit :=
  if amount =? 0 then ret tt else
  let! min_balance := gets (λ s, frozen (account s who) (reasons_from reasons)) in
  ensure (min_balance <=? new_balance) (Module_ (BalancesE LiquidityRestrictions)).

(** The inner closure also updates the captured [to_account]; the two dust cleaners are dropped
    in order before the event. *)
Definition transfer (transactor dest : AccountId) (value : Balance) (existence_requirement : ExistenceRequirement) : Run unit :=
  if (value =? 0) || bool_decide (transactor = dest) then ret tt else
  let! ' (one_dust, other_dust) := try_mutate_account_with_dust dest (λ to_account _,
    let! ' (to_account, maybe_dust_cleaner) := try_mutate_account_with_dust transactor (λ from_account _,
      let! from_free := ok_or (checked_sub (free from_account) value) (Module_ (BalancesE InsufficientBalance)) in
      let from_account := set_free from_free from_account in
      let! to_free := ok_or (checked_add 128 (free to_account) value) (Arithmetic Overflow) in
      let to_account := set_free to_free to_account in
      let ed := ExistentialDeposit in
      do! ensure (ed <=? total to_account) (Module_ (BalancesE ExistentialDepositE)) in
      let! can := attempt (ensure_can_withdraw transactor value TRANSFER (free from_account)) in
      do! match can with inl _ => ret tt | inr _ => throw (Module_ (BalancesE LiquidityRestrictions)) end in
      let allow_death := bool_decide (existence_requirement = AllowDeath) in
      let! can_dec := gets (λ s, can_dec_provider s transactor) in
      let allow_death := allow_death && can_dec in
      do! ensure (allow_death || (ed <=? total from_account)) (Module_ (BalancesE KeepAliveE)) in
      ret (to_account, from_account)) in
    ret (maybe_dust_cleaner, to_account)) in
  do! drop_value one_dust in
  do! drop_value other_dust in
  emit (Transfer transactor dest value).

(** [for attempt in 0..2]: the first attempt that succeeds returns. *)
Fixpoint first_ok {R} (attempts : list Z) (body : Z → Run R) (otherwise : R) : Run R :=
  match attempts with
  | [] => ret otherwise
  | a :: attempts =>
    let! r := attempt (body a) in
    match r with inl x => ret x | inr _ => first_ok attempts body otherwise end
  end.

(** The most that one attempt may take. *)
Definition best_value (value attempt_ : Balance) (account : AccountData) : Balance :=
  if attempt_ =? 0 then value
  else value `min` saturating_sub (free account ⊕ reserved account) ExistentialDeposit.

(** The closure of [slash]: the imbalance, what could not be slashed, and the account. *)
Definition slash_attempt (value attempt_ : Balance) (account : AccountData) : (NegativeImbalance * Balance) * AccountData :=
  let best_value := best_value value attempt_ account in
  let free_slash := free account `min` best_value in
  let account := set_free (free account ⊖ free_slash) account in
  let remaining_slash := best_value ⊖ free_slash in
  if negb (remaining_slash =? 0) then
    let reserved_slash := reserved account `min` remaining_slash in
    let account := set_reserved (reserved account ⊖ reserved_slash) account in
    ((Neg (free_slash ⊕ reserved_slash), value ⊖ free_slash ⊖ reserved_slash), account)
  else ((Neg free_slash, value ⊖ free_slash), account).

Definition slash (who : AccountId) (value : Balance) : Run (NegativeImbalance * Balance) :=
  if value =? 0 then ret (Neg 0, 0) else
  let! tb := gets (λ s, total_balance s who) in
  if tb =? 0 then ret (Neg 0, value) else
  first_ok [0; 1] (λ attempt_,
    let! ' (imbalance, not_slashed) := try_mutate_account who (λ account _, ret (slash_attempt value attempt_ account)) in
    do! emit (Slashed who (saturating_sub value not_slashed)) in
    ret (imbalance, not_slashed)) (Neg 0, value).

Definition deposit_into_existing (who : AccountId) (value : Balance) : Run PositiveImbalance :=
  if value =? 0 then ret (Pos 0) else
  try_mutate_account who (λ account is_new,
    do! ensure (negb is_new) (Module_ (BalancesE DeadAccount)) in
    let! f := ok_or (checked_add 128 (free account) value) (Arithmetic Overflow) in
    let account := set_free f account in
    do! emit (Deposit who value) in
    ret (Pos value, account)).

Definition deposit_creating (who : AccountId) (value : Balance) : Run PositiveImbalance :=
  if value =? 0 then ret (Pos 0) else
  let! r := attempt (try_mutate_account who (λ account is_new,
    let ed := ExistentialDeposit in
    do! ensure ((ed <=? value) || negb is_new) (Module_ (BalancesE ExistentialDepositE)) in
    match checked_add 128 (free account) value with
    | None => ret (Pos 0, account)
    | Some x =>
      do! emit (Deposit who value) in
      ret (Pos value, set_free x account)
    end)) in
  ret (match r with inl p => p | inr _ => Pos 0 end).

Definition withdraw (who : AccountId) (value : Balance) (reasons : Z) (liveness : ExistenceRequirement) : Run NegativeImbalance :=
  if value =? 0 then ret (Neg 0) else
  try_mutate_account who (λ account _,
    let! new_free_account := ok_or (checked_sub (free account) value) (Module_ (BalancesE InsufficientBalance)) in
    let ed := ExistentialDeposit in
    let would_be_dead := new_free_account ⊕ reserved account <? ed in
    let would_kill := would_be_dead && (ed <=? free account ⊕ reserved account) in
    do! ensure (bool_decide (liveness = AllowDeath) || negb would_kill) (Module_ (BalancesE KeepAliveE)) in
    do! ensure_can_withdraw who value reasons new_free_account in
    let account := set_free new_free_account account in
    do! emit (Withdraw who value) in
    ret (Neg value, account)).

Definition make_free_balance_be (who : AccountId) (value : Balance) : Run SignedImbalance :=
  let! r := attempt (try_mutate_account who (λ account is_new,
    let ed := ExistentialDeposit in
    let total := saturating_add 128 value (reserved account) in
    do! ensure ((ed <=? total) || negb is_new) (Module_ (BalancesE ExistentialDepositE)) in
    let imbalance :=
      if free account <=? value then Positive (Pos (value ⊖ free account))
      else Negative (Neg (free account ⊖ value)) in
    let account := set_free value account in
    do! emit (BalanceSet who (free account) (reserved account)) in
    ret (imbalance, account))) in
  ret (match r with inl i => i | inr _ => Positive (Pos 0) end).

(** ** [ReservableCurrency] *)

Definition can_reserve (who : AccountId) (value : Balance) : Run bool :=
  if value =? 0 then ret true else
  let! f := gets (λ s, free (account s who)) in
  match checked_sub f value with
  | None => ret false
  | Some new_balance =>
    let! r := attempt (ensure_can_withdraw who value RESERVE new_balance) in
    ret (match r with inl _ => true | inr _ => false end)
  end.

Definition reserve (who : AccountId) (value : Balance) : Run unit :=
  if value =? 0 then ret tt else
  do! try_mutate_account who (λ account _,
    let! f := ok_or (checked_sub (free account) value) (Module_ (BalancesE InsufficientBalance)) in
    let account := set_free f account in
    let! r := ok_or (checked_add 128 (reserved account) value) (Arithmetic Overflow) in
    let account := set_reserved r account in
    do! ensure_can_withdraw who value RESERVE (free account) in
    ret (tt, account)) in
  emit (ReservedEv who value).

Definition unreserve (who : AccountId) (value : Balance) : Run Balance :=
  if value =? 0 then ret 0 else
  let! tb := gets (λ s, total_balance s who) in
  if tb =? 0 then ret value else
  let! r := attempt (mutate_account who (λ account,
    let actual := reserved account `min` value in
    let account := set_reserved (reserved account ⊖ actual) account in
    let account := set_free (saturating_add 128 (free account) actual) account in
    ret (actual, account))) in
  match r with
  | inl actual => do! emit (Unreserved who actual) in ret (value ⊖ actual)
  | inr _ => ret value
  end.

(** The closure of [slash_reserved]. *)
Definition slash_reserved_attempt (value attempt_ : Balance) (account : AccountData) : (NegativeImbalance * Balance) * AccountData :=
  let best_value := best_value value attempt_ account in
  let actual := reserved account `min` best_value in
  let account := set_reserved (reserved account ⊖ actual) account in
  ((Neg actual, value ⊖ actual), account).

Definition slash_reserved (who : AccountId) (value : Balance) : Run (NegativeImbalance * Balance) :=
  if value =? 0 then ret (Neg 0, 0) else
  let! tb := gets (λ s, total_balance s who) in
  if tb =? 0 then ret (Neg 0, value) else
  first_ok [0; 1] (λ attempt_,
    let! ' (imbalance, not_slashed) := mutate_account who (λ account, ret (slash_reserved_attempt value attempt_ account)) in
    do! emit (Slashed who (saturating_sub value not_slashed)) in
    ret (imbalance, not_slashed)) (Neg 0, value).

(** [_maybe_other_dust] and [_maybe_one_dust] are dropped, in that order, at the end. *)
Definition do_transfer_reserved (slashed beneficiary : AccountId) (value : Balance) (best_effort : bool) (status : BalanceStatus)
    : Run Balance :=
  if value =? 0 then ret 0 else
  if bool_decide (slashed = beneficiary) then
    match status with
    | Free => let! rem := unreserve slashed value in ret (saturating_sub value rem)
    | Reserved => gets (λ s, saturating_sub value (reserved_balance s slashed))
    end
  else
  let! ' ((actual, one_dust), other_dust) := try_mutate_account_with_dust beneficiary (λ to_account is_new,
    do! ensure (negb is_new) (Module_ (BalancesE DeadAccount)) in
    let! ' ((actual, to_account), dust) := try_mutate_account_with_dust slashed (λ from_account _,
      let actual := reserved from_account `min` value in
      do! ensure (best_effort || (actual =? value)) (Module_ (BalancesE InsufficientBalance)) in
      let! to_account :=
        match status with
        | Free =>
          let! f := ok_or (checked_add 128 (free to_account) actual) (Arithmetic Overflow) in
          ret (set_free f to_account)
        | Reserved =>
          let! r := ok_or (checked_add 128 (reserved to_account) actual) (Arithmetic Overflow) in
          ret (set_reserved r to_account)
        end in
      let from_account := set_reserved (reserved from_account ⊖ actual) from_account in
      ret ((actual, to_account), from_account)) in
    ret ((actual, dust), to_account)) in
  do! emit (ReserveRepatriated slashed beneficiary actual status) in
  do! drop_value other_dust in
  do! drop_value one_dust in
  ret actual.

Definition repatriate_reserved (slashed beneficiary : AccountId) (value : Balance) (status : BalanceStatus) : Run Balance :=
  let! actual := do_transfer_reserved slashed beneficiary value true status in
  ret (saturating_sub value actual).

(** ** [NamedReservableCurrency] *)

(** [slice::binary_search_by_key]: [inl] is [Ok(index)], [inr] is [Err(index)]. *)
Fixpoint binary_search_loop (fuel : nat) (l : list ReserveData) (id : ReserveIdentifier) (size left right : nat) : nat + nat :=
  match fuel with
  | O => inr left
  | S fuel =>
    if (left <? right)%nat then
      let mid := (left + size / 2)%nat in
      match l !! mid with
      | None => inr left
      | Some d =>
        match Z.compare (reserve_id d) id with
        | Eq => inl mid
        | Lt => binary_search_loop fuel l id (right - (mid + 1)) (mid + 1) right
        | Gt => binary_search_loop fuel l id (mid - left) left mid
        end
      end
    else inr left
  end.
Definition binary_search_by_key (l : list ReserveData) (id : ReserveIdentifier) : nat + nat :=
  binary_search_loop (S (length l)) l id (length l) 0 (length l).

(** [BoundedVec::try_insert]; [Vec::insert] panics past the end. *)
Definition try_insert {A} (l : list A) (bound : Z) (index : nat) (x : A) (e : DispatchError) : Run (list A) :=
  if Z.of_nat (length l) <? bound then
    if (index <=? length l)%nat then ret (take index l ++ x :: drop index l) else panic
  else throw e.

Definition set_amount (x : Balance) (d : ReserveData) : ReserveData := mkReserve (reserve_id d) x.
Definition put_reserves (who : AccountId) (l : list ReserveData) : Run unit := modify (with_bal (with_reserves <[who := l]>)).

Definition reserved_balance_named (s : Store) (id : ReserveIdentifier) (who : AccountId) : Balance :=
  let l := reserves s who in
  match binary_search_by_key l id with
  | inl index => from_option reserve_amount 0 (l !! index)
  | inr _ => 0
  end.

(** [Reserves::try_mutate]: the list is written back only on [Ok]. *)
Definition reserve_named (id : ReserveIdentifier) (who : AccountId) (value : Balance) : Run unit :=
  if value =? 0 then ret tt else
  let! l := gets (λ s, reserves s who) in
  let! l :=
    match binary_search_by_key l id with
    | inl index =>
      let! d := unwrap (l !! index) in
      ret (<[index := set_amount (saturating_add 128 (reserve_amount d) value) d]> l)
    | inr index => try_insert l MaxReserves index (mkReserve id value) (Module_ (BalancesE TooManyReserves))
    end in
  do! reserve who value in
  put_reserves who l.

(** [Reserves::mutate_exists] *)
Definition unreserve_named (id : ReserveIdentifier) (who : AccountId) (value : Balance) : Run Balance :=
  if value =? 0 then ret 0 else
  let! maybe_reserves := gets (λ s, Reserves (bal s) !! who) in
  match maybe_reserves with
  | None => do! modify (with_bal (with_reserves (delete who))) in ret value
  | Some l =>
    match binary_search_by_key l id with
    | inl index =>
      let! d := unwrap (l !! index) in
      let to_change := reserve_amount d `min` value in
      let! remain := unreserve who to_change in
      let actual := saturating_sub to_change remain in
      let amount := reserve_amount d ⊖ actual in
      do!
        (if amount =? 0 then
           if (length l =? 1)%nat then modify (with_bal (with_reserves (delete who)))
           else put_reserves who (delete index l)
         else put_reserves who (<[index := set_amount amount d]> l)) in
      ret (value ⊖ actual)
    | inr _ => do! put_reserves who l in ret value
    end
  end.

(** [Reserves::mutate] *)
Definition slash_reserved_named (id : ReserveIdentifier) (who : AccountId) (value : Balance) : Run (NegativeImbalance * Balance) :=
  if value =? 0 then ret (Neg 0, 0) else
  let! l := gets (λ s, reserves s who) in
  match binary_search_by_key l id with
  | inl index =>
    let! d := unwrap (l !! index) in
    let to_change := reserve_amount d `min` value in
    let! ' (imb, remain) := slash_reserved who to_change in
    let actual := saturating_sub to_change remain in
    let amount := reserve_amount d ⊖ actual in
    do! emit (Slashed who actual) in
    do! put_reserves who (<[index := set_amount amount d]> l) in
    ret (imb, value ⊖ actual)
  | inr _ => do! put_reserves who l in ret (Neg 0, value)
  end.

Definition repatriate_reserved_named (id : ReserveIdentifier) (slashed beneficiary : AccountId) (value : Balance)
    (status : BalanceStatus) : Run Balance :=
  if value =? 0 then ret 0 else
  if bool_decide (slashed = beneficiary) then
    match status with
    | Free => unreserve_named id slashed value
    | Reserved => gets (λ s, saturating_sub value (reserved_balance_named s id slashed))
    end
  else
  let! l := gets (λ s, reserves s slashed) in
  match binary_search_by_key l id with
  | inl index =>
    let! d := unwrap (l !! index) in
    let to_change := reserve_amount d `min` value in
    let! actual :=
      match status with
      | Reserved =>
        let! lb := gets (λ s, reserves s beneficiary) in
        let! ' (actual, lb) :=
          match binary_search_by_key lb id with
          | inl index =>
            let! remain := repatriate_reserved slashed beneficiary to_change status in
            let actual := saturating_sub to_change remain in
            let! db := unwrap (lb !! index) in
            ret (actual, <[index := set_amount (saturating_add 128 (reserve_amount db) actual) db]> lb)
          | inr index =>
            let! remain := repatriate_reserved slashed beneficiary to_change status in
            let actual := saturating_sub to_change remain in
            let! lb := try_insert lb MaxReserves index (mkReserve id actual) (Module_ (BalancesE TooManyReserves)) in
            ret (actual, lb)
          end in
        do! put_reserves beneficiary lb in
        ret actual
      | Free =>
        let! remain := repatriate_reserved slashed beneficiary to_change status in
        ret (saturating_sub to_change remain)
      end in
    do! put_reserves slashed (<[index := set_amount (reserve_amount d ⊖ actual) d]> l) in
    ret (value ⊖ actual)
  | inr _ => do! put_reserves slashed l in ret value
  end.

(** ** [LockableCurrency] *)

(** The [filter_map] over the locks: the first lock with the id becomes [upd old new], later
    ones with the same id are dropped; the second component is what is left of [new_lock]. *)
Fixpoint take_lock (upd : BalanceLock → BalanceLock → BalanceLock) (id : LockIdentifier) (new_lock : option BalanceLock)
    (l : list BalanceLock) : list BalanceLock * option BalanceLock :=
  match l with
  | [] => ([], new_lock)
  | x :: l =>
    if lock_id x =? id then
      let '(r, rest) := take_lock upd id None l in
      (match new_lock with Some nl => upd x nl :: r | None => r end, rest)
    else
      let '(r, rest) := take_lock upd id new_lock l in
      (x :: r, rest)
  end.
Definition place_lock (upd : BalanceLock → BalanceLock → BalanceLock) (new_lock : BalanceLock) (l : list BalanceLock)
    : list BalanceLock :=
  let '(locks, rest) := take_lock upd (lock_id new_lock) (Some new_lock) l in
  match rest with Some lock => locks ++ [lock] | None => locks end.

Definition set_lock (id : LockIdentifier) (who : AccountId) (amount : Balance) (reasons : Z) : Run unit :=
  if (amount =? 0) || (reasons =? 0) then ret tt else
  let new_lock := mkLock id amount (reasons_from reasons) in
  let! l := gets (λ s, locks s who) in
  update_locks who (place_lock (λ _ nl, nl) new_lock l).

Definition extend_lock (id : LockIdentifier) (who : AccountId) (amount : Balance) (reasons : Z) : Run unit :=
  if (amount =? 0) || (reasons =? 0) then ret tt else
  let new_lock := mkLock id amount (reasons_from reasons) in
  let! l := gets (λ s, locks s who) in
  update_locks who (place_lock (λ l nl, mkLock (lock_id l) (lock_amount l `max` lock_amount nl)
    (reasons_bitor (lock_reasons l) (lock_reasons nl))) new_lock l).

Definition remove_lock (id : LockIdentifier) (who : AccountId) : Run unit :=
  let! l := gets (λ s, locks s who) in
  update_locks who (filter (λ l, lock_id l ≠ id) l).

(** ** [fungible] *)

Definition active_issuance (s : Store) : Balance := saturating_sub (TotalIssuance (bal s)) (InactiveIssuance (bal s)).

Definition reducible_balance (s : Store) (who : AccountId) (keep_alive : bool) : Balance :=
  let a := account s who in
  let liquid := saturating_sub (free a) (fee_frozen a `max` misc_frozen a) in
  if can_dec_provider s who && negb keep_alive then liquid
  else
    let must_remain_to_exist := saturating_sub ExistentialDeposit (total a ⊖ liquid) in
    saturating_sub liquid must_remain_to_exist.

Definition can_deposit (s : Store) (who : AccountId) (amount : Balance) (mint : bool) : DepositConsequence.t :=
  deposit_consequence s who amount (account s who) mint.
Definition can_withdraw (s : Store) (who : AccountId) (amount : Balance) : WithdrawConsequence.t :=
  withdraw_consequence s who amount (account s who).

Definition mint_into (who : AccountId) (amount : Balance) : Run unit :=
  if amount =? 0 then ret tt else
  do! try_mutate_account who (λ account _,
    let! c := gets (λ s, deposit_consequence s who amount account true) in
    do! DepositConsequence.deposit_into_result c in
    ret (tt, set_free (free account ⊕ amount) account)) in
  do! mutate_issuance (λ t, t ⊕ amount) in
  emit (Deposit who amount).

Definition burn_from (who : AccountId) (amount : Balance) : Run Balance :=
  if amount =? 0 then ret 0 else
  let! actual := try_mutate_account who (λ account _,
    let! c := gets (λ s, withdraw_consequence s who amount account) in
    let! extra := WithdrawConsequence.withdraw_into_result c in
    let actual := amount ⊕ extra in
    ret (actual, set_free (free account ⊖ actual) account)) in
  do! mutate_issuance (λ t, t ⊖ actual) in
  do! emit (Withdraw who amount) in
  ret actual.

Definition fungible_transfer (source dest : AccountId) (amount : Balance) (keep_alive : bool) : Run Balance :=
  let er := if keep_alive then KeepAlive else AllowDeath in
  do! transfer source dest amount er in
  ret amount.

Definition deactivate (amount : Balance) : Run unit := modify (with_bal (with_inactive (λ b, saturating_add 128 b amount))).
Definition reactivate (amount : Balance) : Run unit := modify (with_bal (with_inactive (λ b, saturating_sub b amount))).

(** The closure of [fungible::Unbalanced::set_balance] returns a [Result] of its own. *)
Definition fungible_set_balance (who : AccountId) (amount : Balance) : Run unit :=
  let! r := mutate_account (R := unit + DispatchError) who (λ account,
    match checked_sub amount (reserved account) with
    | None => ret (inr (Arithmetic Underflow), account)
    | Some f =>
      let account := set_free f account in
      do! emit (BalanceSet who (free account) (reserved account)) in
      ret (inl tt, account)
    end) in
  match r with inl _ => ret tt | inr e => throw e end.
Definition set_total_issuance (amount : Balance) : Run unit := mutate_issuance (λ _, amount).

Definition can_hold (s : Store) (who : AccountId) (amount : Balance) : bool :=
  let a := account s who in
  let min_balance := ExistentialDeposit `max` frozen a All in
  if bool_decide (checked_add 128 (reserved a) amount = None) then false
  else
    match checked_add 128 min_balance amount with
    | Some required_free => required_free <=? free a
    | None => false
    end.

Definition hold (who : AccountId) (amount : Balance) : Run unit :=
  if amount =? 0 then ret tt else
  let! can := can_reserve who amount in
  do! ensure can (Module_ (BalancesE InsufficientBalance)) in
  mutate_account who (λ a,
    let a := set_free (free a ⊖ amount) a in
    ret (tt, set_reserved (reserved a ⊕ amount) a)).

Definition release (who : AccountId) (amount : Balance) (best_effort : bool) : Run Balance :=
  if amount =? 0 then ret amount else
  try_mutate_account who (λ a _,
    let new_free := saturating_add 128 (free a) (amount `min` reserved a) in
    let actual := new_free ⊖ free a in
    do! ensure (best_effort || (actual =? amount)) (Module_ (BalancesE InsufficientBalance)) in
    let a := set_free new_free a in
    ret (actual, set_reserved (saturating_sub (reserved a) actual) a)).

Definition transfer_held (source dest : AccountId) (amount : Balance) (best_effort on_hold : bool) : Run Balance :=
  let status := if on_hold then Reserved else Free in
  do_transfer_reserved source dest amount best_effort status.

(** ** Genesis *)

Definition assert_ (b : bool) : Run unit := if b then ret tt else panic.

Fixpoint endow (balances : list (AccountId * Balance)) : Run unit :=
  match balances with
  | [] => ret tt
  | (who, free) :: balances =>
    let! r := attempt (stored_insert who (mkData free 0 0 0)) in
    do! assert_ (match r with inl _ => true | inr _ => false end) in
    endow balances
  end.

Definition genesis_build (balances : list (AccountId * Balance)) : Run unit :=
  let total := fold_left (λ acc b, acc ⊕ b.2) balances 0 in
  do! mutate_issuance (λ _, total) in
  do! assert_ (forallb (λ b, ExistentialDeposit <=? b.2) balances) in
  let endowed_accounts : gset AccountId := list_to_set balances.*1 in
  do! assert_ (size endowed_accounts =? length balances)%nat in
  endow balances.

End Pallet.
