(* ===== verification/Ledger.v ===== *)
(** The ledger behind [pallet_balances]: what an account is worth, the sum of all balances, the
    invariant that ties it to the total issuance, and the weakest-precondition rules of the
    account mutators that every operation of the pallet goes through. *)

From S2P Require Import Prelude Runtime System Balances.

(** The existential deposit is positive and fits a balance. *)
Class BalancesLaws (cfg : BalancesConfig) : Prop := {
  ed_pos : 0 < ExistentialDeposit;
  ed_u128 : ExistentialDeposit <= u128_max }.

#[export] Instance node_balances_laws : BalancesLaws node_balances.
Proof. split; vm_compute; [reflexivity|congruence]. Qed.

Create HintDb ledger.

(** ** Worth of an account *)

Definition worth (a : AccountData) : Z := free a + reserved a.

(** All balances in existence. *)
Definition issued (s : Store) : Z := map_sum (λ i, worth (data i)) (accounts s).

Lemma worth_lookup s who : from_option (λ i, worth (data i)) 0 (accounts s !! who) = worth (account s who).
Proof. unfold account, stored_get, info. by destruct (accounts s !! who). Qed.

Lemma issued_update s s' who :
  (∀ k, k ≠ who → accounts s' !! k = accounts s !! k) →
  issued s' = issued s - worth (account s who) + worth (account s' who).
Proof. intros Hs. unfold issued. by rewrite (map_sum_update _ _ _ _ Hs), !worth_lookup. Qed.

Lemma account_accounts s s' k : accounts s' !! k = accounts s !! k → account s' k = account s k.
Proof. intros Hk. unfold account, stored_get, info. by rewrite Hk. Qed.

Lemma saturating_total a : total a = Z.min (worth a) u128_max.
Proof. done. Qed.

(** ** States that differ in the event log only, or in issuance *)

Record quiet (s s' : Store) : Prop := {
  q_accounts : accounts s' = accounts s;
  q_bal : bal s' = bal s;
  q_others : others s' = others s }.

(** The total issuance went down by [d] (saturating at zero), otherwise [quiet]. *)
Record squared (d : Z) (s s' : Store) : Prop := {
  sq_accounts : accounts s' = accounts s;
  sq_bal : bal s' = with_issuance (λ t, saturating_sub t d) (bal s);
  sq_others : others s' = others s }.

Lemma quiet_refl s : quiet s s.
Proof. done. Qed.

Lemma quiet_trans s1 s2 s3 : quiet s1 s2 → quiet s2 s3 → quiet s1 s3.
Proof. intros [] []. split; congruence. Qed.

Lemma quiet_deposit e s : quiet s (deposit e s).
Proof.
  pose proof (rest_deposit e s) as Hr. split; [apply accounts_deposit|by apply rest_bal|by apply rest_others].
Qed.

Lemma quiet_info s s' k : quiet s s' → info s' k = info s k.
Proof. intros []. unfold info. by rewrite q_accounts0. Qed.

Lemma quiet_account s s' k : quiet s s' → account s' k = account s k.
Proof. intros [Ha _ _]. apply account_accounts. by rewrite Ha. Qed.

Lemma quiet_sys_ok s s' : quiet s s' → sys_ok s → sys_ok s'.
Proof. intros [Ha _ _]. unfold sys_ok. by rewrite Ha. Qed.

Lemma quiet_issued s s' : quiet s s' → issued s' = issued s.
Proof. intros [Ha _ _]. unfold issued. by rewrite Ha. Qed.

Lemma quiet_touches who s s' : quiet s s' → touches who s s'.
Proof. intros [Ha Hb Ho]. split; [unfold rest; congruence|]. intros. by rewrite Ha. Qed.

#[export] Hint Resolve quiet_refl quiet_deposit quiet_sys_ok : ledger.

Section Ledger.
  Context {cfg : BalancesConfig} {laws : BalancesLaws cfg}.

(** ** What is left of an account after the existential-deposit law is applied *)

Definition survive (a : AccountData) : AccountData := if worth a <? ExistentialDeposit then default_data else a.
Definition dust (a : AccountData) : Z := if worth a <? ExistentialDeposit then worth a else 0.
Definition cleaner (who : AccountId) (a : AccountData) : DustCleaner :=
  mkCleaner (if (worth a <? ExistentialDeposit) && negb (worth a =? 0) then Some (who, Neg (worth a)) else None).

Lemma worth_survive a : worth (survive a) = worth a - dust a.
Proof. unfold survive, dust. case_match; unfold worth; simpl; lia. Qed.

Lemma total_ltb_ed a : (total a <? ExistentialDeposit) = (worth a <? ExistentialDeposit).
Proof. pose proof ed_u128. rewrite saturating_total. apply eq_bool_prop_intro. rewrite !Is_true_true, !Z.ltb_lt. lia. Qed.

Lemma post_mutation_spec who a :
  post_mutation who a =
    (if worth a <? ExistentialDeposit then None else Some a,
     if (worth a <? ExistentialDeposit) && negb (worth a =? 0) then Some (Neg (worth a)) else None).
Proof.
  pose proof ed_u128. unfold post_mutation. rewrite total_ltb_ed.
  destruct (Z.ltb_spec (worth a) ExistentialDeposit); [|done]. simpl.
  rewrite saturating_total, Z.min_l by lia. by destruct (worth a =? 0).
Qed.

(** ** The mutators *)

Definition is_new (s : Store) (who : AccountId) : bool := negb (is_providing (account s who)).

(** The account of [who] has been settled at [a]: it holds [a], or nothing when [a] is worth
    less than the existential deposit. *)
Record settled (who : AccountId) (a : AccountData) (s s' : Store) : Prop := {
  se_touches : touches who s s';
  se_ok : sys_ok s';
  se_account : account s' who = survive a;
  se_consumers : consumers (info s' who) = consumers (info s who);
  se_providers : ExistentialDeposit <= worth a → 1 <= providers (info s' who);
  se_can : worth a < ExistentialDeposit → is_new s who = false → can_dec_provider s who = true;
  se_sole : sole s who → sole s' who }.

Lemma settled_quiet_r who a s s1 s2 : settled who a s s1 → quiet s1 s2 → settled who a s s2.
Proof.
  intros [Ht Hok Ha Hc Hp Hcan Hs] Hq. pose proof (quiet_info _ _ who Hq) as Hi. split; unfold sole, stored_get in *; rewrite ?Hi; try done.
  - eapply touches_trans; [done|]. by apply quiet_touches.
  - by eapply quiet_sys_ok.
  - by rewrite (quiet_account _ _ _ Hq).
Qed.

Lemma settled_quiet_l who a s s1 s2 : quiet s s1 → settled who a s1 s2 → settled who a s s2.
Proof.
  intros Hq [Ht Hok Ha Hc Hp Hcan Hs]. split; try done.
  - eapply touches_trans; [by apply quiet_touches|done].
  - by rewrite Hc, (quiet_info _ _ _ Hq).
  - unfold is_new, can_dec_provider in *. by rewrite (quiet_info _ _ _ Hq), (quiet_account _ _ _ Hq) in Hcan.
  - unfold sole, stored_get in *. by rewrite (quiet_info _ _ _ Hq) in Hs.
Qed.

Lemma stored_settled who a s s' :
  stored who (if worth a <? ExistentialDeposit then None else Some a) s s' → settled who a s s'.
Proof.
  intros [Ht Hok Hd Hc Hsu Hp Hcan Hs]. split; try done.
  - unfold account. rewrite Hd. unfold survive. by case_match.
  - intros. apply Hp. destruct (Z.ltb_spec (worth a) ExistentialDeposit); [lia|done].
  - intros Hlt Hn. apply Hcan; [by rewrite (proj2 (Z.ltb_lt _ _) Hlt)|]. by apply negb_false_iff.
  - apply Hs. destruct (Z.ltb_spec (worth a) ExistentialDeposit); [done|]. simpl. unfold is_providing. apply negb_true_iff, bool_decide_eq_false.
    intros ->. pose proof ed_pos. unfold worth in *. simpl in *. lia.
Qed.

(** After the drop of the result of a closure, an error. *)
Definition then_err {R} (Q : outcome DispatchError R → Store → Prop) (e : DispatchError) (r : outcome DispatchError unit) (s : Store) : Prop :=
  match r with Ok _ => Q (Err e) s | Err e' => Q (Err e') s | Panic => Q Panic s end.

Lemma maybe_account_default s who :
  default default_data (if is_providing (account s who) then Some (account s who) else None) = account s who.
Proof.
  case_match eqn:E; [done|]. simpl. unfold is_providing in E. apply negb_false_iff, bool_decide_eq_true in E. by rewrite E.
Qed.

Lemma maybe_account_is_new s who :
  bool_decide ((if is_providing (account s who) then Some (account s who) else None) = None) = is_new s who.
Proof. unfold is_new. by destruct (is_providing (account s who)). Qed.

Lemma wp_drop_negative d Q s :
  (∀ s', squared (neg_amount d) s s' → Q (Ok tt) s') → wp (drop_value d) Q s.
Proof. intros HQ. unfold drop_value, drop_negative, mutate_issuance. wp_steps. apply HQ. by split. Qed.

Lemma squared_0 s : 0 <= TotalIssuance (bal s) → squared 0 s s.
Proof. intros Ht. split; [done| |done]. unfold with_issuance, saturating_sub. rewrite Z.max_l by lia. rewrite Z.sub_0_r. by destruct (bal s). Qed.

Lemma wp_drop_dust {W} `{Drop W} a (mk : NegativeImbalance → W) s Q :
  0 <= TotalIssuance (bal s) →
  (∀ d Q s, (∀ s', squared (neg_amount d) s s' → Q (Ok tt) s') → wp (drop_value (mk d)) Q s) →
  (∀ s', squared (dust a) s s' → Q (Ok tt) s') →
  wp (match (if (worth a <? ExistentialDeposit) && negb (worth a =? 0) then Some (Neg (worth a)) else None) with
      | Some d => drop_value (mk d) | None => ret tt end) Q s.
Proof.
  intros Ht Hd HQ. unfold dust in HQ. destruct (Z.ltb_spec (worth a) ExistentialDeposit); simpl.
  - destruct (Z.eqb_spec (worth a) 0) as [E|]; simpl.
    + apply wp_ret, HQ. rewrite E. by apply squared_0.
    + apply Hd. intros s'. apply HQ.
  - apply wp_ret, HQ. by apply squared_0.
Qed.

Lemma wp_drop_cleaner who a s Q :
  0 <= TotalIssuance (bal s) → (∀ s', squared (dust a) s s' → Q (Ok tt) s') → wp (drop_value (cleaner who a)) Q s.
Proof.
  intros Ht HQ. pose proof (wp_drop_dust a (λ d, mkCleaner (Some (who, d))) s Q Ht) as Hw.
  unfold cleaner, drop_value, drop_dust_cleaner in *. simpl in *.
  destruct ((worth a <? ExistentialDeposit) && negb (worth a =? 0)); simpl; apply Hw; try done; clear;
    intros d Q s HQ; unfold emit, deposit_event, on_unbalanced, neg_drop_zero; wp_steps.
  all: pose proof (quiet_deposit (EBalances (DustLost who (neg_amount d))) s) as [Ha Hb Ho].
  all: destruct (neg_amount d =? 0); apply wp_drop_negative; intros s' [Ha' Hb' Ho']; apply HQ; split; congruence.
Qed.

Lemma wp_try_mutate_account_with_dust {R} `{Drop R} who f Q s :
  sys_ok s →
  wp (f (account s who) (is_new s who)) (λ r s1,
    match r with
    | Ok (x, a) =>
      sys_ok s1 ∧ info s1 who = info s who ∧
      (∀ s', settled who a s1 s' → Q (Ok (x, cleaner who a)) s') ∧
      (worth a < ExistentialDeposit → is_new s who = false → can_dec_provider s who = false →
       0 <= TotalIssuance (bal s1) ∧ ∀ s', squared (dust a) s1 s' → wp (drop_value x) (then_err Q ConsumerRemaining) s')
    | Err e => Q (Err e) s1
    | Panic => Q Panic s1
    end) s →
  wp (try_mutate_account_with_dust who f) Q s.
Proof.
  intros Hok Hf. unfold try_mutate_account_with_dust. apply wp_bind, wp_try_mutate_exists; [done|].
  fold (account s who). rewrite maybe_account_default, maybe_account_is_new.
  apply wp_bind. eapply wp_mono; [exact Hf|]. intros [[x a]|e|] s1; [|done..].
  intros (Hok1 & Hinfo & HQ & Hdead). apply wp_ret. split; [done|]. split; [done|]. rewrite post_mutation_spec. simpl. split.
  - intros s' Hst%stored_settled. apply wp_bind.
    assert (mkCleaner ((λ d, (who, d)) <$> (if (worth a <? ExistentialDeposit) && negb (worth a =? 0) then Some (Neg (worth a)) else None))
            = cleaner who a) as -> by (unfold cleaner; by case_match).
    destruct (is_new s who); [|by apply wp_ret, wp_ret, HQ]. unfold emit, deposit_event. wp_steps.
    apply HQ. eapply settled_quiet_r; [done|apply quiet_deposit].
  - intros Hn Hnew Hdec. assert (worth a < ExistentialDeposit) by (apply Z.ltb_lt; by destruct (worth a <? _)).
    destruct Hdead as [Ht Hdead]; [done|unfold is_new; by rewrite Hnew|done|].
    unfold drop_value at 1, drop_pair at 1. simpl. apply wp_bind. unfold drop_value at 1, drop_pair at 1. apply wp_bind.
    unfold is_new. rewrite Hnew. simpl. apply wp_ret.
    refine (wp_drop_dust a id _ _ _ _ _); [done|intros; by apply wp_drop_negative|]. intros s' Hsq.
    eapply wp_mono; [by apply Hdead|]. intros [] ?; done.
Qed.

(** The account of [who] has been settled at [a] and the dust burnt. *)
Record mutated (who : AccountId) (a : AccountData) (s s' : Store) : Prop := {
  mu_frame : ∀ k, k ≠ who → accounts s' !! k = accounts s !! k;
  mu_ok : sys_ok s';
  mu_account : account s' who = survive a;
  mu_consumers : consumers (info s' who) = consumers (info s who);
  mu_providers : ExistentialDeposit <= worth a → 1 <= providers (info s' who);
  mu_can : worth a < ExistentialDeposit → is_new s who = false → can_dec_provider s who = true;
  mu_sole : sole s who → sole s' who;
  mu_bal : bal s' = with_issuance (λ t, saturating_sub t (dust a)) (bal s);
  mu_others : others s' = others s }.

Lemma squared_info d s s' k : squared d s s' → info s' k = info s k.
Proof. intros [Ha _ _]. unfold info. by rewrite Ha. Qed.

Lemma squared_account d s s' k : squared d s s' → account s' k = account s k.
Proof. intros [Ha _ _]. apply account_accounts. by rewrite Ha. Qed.

Lemma squared_sys_ok d s s' : squared d s s' → sys_ok s → sys_ok s'.
Proof. intros [Ha _ _]. unfold sys_ok. by rewrite Ha. Qed.

Lemma settled_squared who a s s1 s2 : settled who a s s1 → squared (dust a) s1 s2 → mutated who a s s2.
Proof.
  intros [[Hr Ht] Hok Ha Hc Hp Hcan Hs] Hq. pose proof (squared_info _ _ _ who Hq) as Hi. split; unfold sole, stored_get in *; rewrite ?Hi; try done.
  - intros k Hk. rewrite (sq_accounts _ _ _ Hq). by apply Ht.
  - by eapply squared_sys_ok.
  - by rewrite (squared_account _ _ _ _ Hq).
  - rewrite (sq_bal _ _ _ Hq). by rewrite (rest_bal _ _ Hr).
  - rewrite (sq_others _ _ _ Hq). by apply rest_others.
Qed.

Lemma mutated_quiet who a s s1 s2 : mutated who a s s1 → quiet s1 s2 → mutated who a s s2.
Proof.
  intros [Hf Hok Ha Hc Hp Hcan Hs Hb Ho] Hq. pose proof (quiet_info _ _ who Hq) as Hi. split; unfold sole, stored_get in *; rewrite ?Hi; try done.
  - intros k Hk. rewrite (q_accounts _ _ Hq). by apply Hf.
  - by eapply quiet_sys_ok.
  - by rewrite (quiet_account _ _ _ Hq).
  - by rewrite (q_bal _ _ Hq).
  - by rewrite (q_others _ _ Hq).
Qed.

Lemma squared_quiet_l d s s1 s2 : quiet s s1 → squared d s1 s2 → squared d s s2.
Proof. intros [] []. split; congruence. Qed.

(** The rule for the closures that emit events at most. *)
Lemma wp_try_mutate_account {R} `{Drop R} who f Q s :
  sys_ok s → 0 <= TotalIssuance (bal s) →
  wp (f (account s who) (is_new s who)) (λ r s1,
    match r with
    | Ok (x, a) =>
      quiet s s1 ∧ (∀ s', mutated who a s s' → Q (Ok x) s') ∧
      (worth a < ExistentialDeposit → is_new s who = false → can_dec_provider s who = false →
       ∀ s', squared (dust a) s s' → wp (drop_value x) (then_err Q ConsumerRemaining) s')
    | Err e => Q (Err e) s1
    | Panic => Q Panic s1
    end) s →
  wp (try_mutate_account who f) Q s.
Proof.
  intros Hok Ht Hf. unfold try_mutate_account. apply wp_bind, wp_try_mutate_account_with_dust; [done|].
  eapply wp_mono; [exact Hf|]. intros [[x a]|e|] s1; [|done..]. intros (Hq & HQ & Hdead).
  pose proof (quiet_info _ _ who Hq) as Hi. rewrite Hi. split; [by eapply quiet_sys_ok|]. split; [done|]. split.
  - intros s' Hse%(settled_quiet_l _ _ _ _ _ Hq). apply wp_bind, wp_drop_cleaner.
    + by rewrite (rest_bal _ _ (proj1 (se_touches _ _ _ _ Hse))).
    + intros s'' Hsq. apply wp_ret, HQ. by eapply settled_squared.
  - intros. split; [by rewrite (q_bal _ _ Hq)|]. intros s' Hsq. eapply wp_mono.
    + apply Hdead; [done..|]. by eapply squared_quiet_l.
    + by intros [] ?.
Qed.

(** ** The invariant *)

(** Every amount fits a [u128] and a non-empty account holds the existential deposit. *)
Record data_ok (a : AccountData) : Prop := {
  free_u : is_u128 (free a);
  reserved_u : is_u128 (reserved a);
  misc_u : is_u128 (misc_frozen a);
  fee_u : is_u128 (fee_frozen a);
  alive : a = default_data ∨ ExistentialDeposit <= worth a }.

(** The books of the pallet, with imbalances worth [δ] still to be dropped: negative
    imbalances count as positive [δ]. *)
Record bal_inv (δ : Z) (s : Store) : Prop := {
  inv_sys : sys_ok s;
  inv_data : ∀ who, data_ok (account s who);
  inv_supply : TotalIssuance (bal s) = issued s + δ;
  inv_issuance : is_u128 (TotalIssuance (bal s));
  inv_issued : issued s <= u128_max }.

Lemma worth_nonneg a : data_ok a → 0 <= worth a.
Proof. intros [[] [] _ _ _]. unfold worth. lia. Qed.

Lemma accounts_nonneg δ s : bal_inv δ s → ∀ k i, accounts s !! k = Some i → 0 <= worth (data i).
Proof.
  intros Hinv k i Hk. apply worth_nonneg. pose proof (inv_data _ _ Hinv k) as Hd.
  unfold account, stored_get, info in Hd. by rewrite Hk in Hd.
Qed.

Lemma worth_le_issued δ s who : bal_inv δ s → worth (account s who) <= issued s.
Proof. intros Hinv. rewrite <- worth_lookup. apply map_sum_ge. by eapply accounts_nonneg. Qed.

Lemma worth2_le_issued δ s j k : bal_inv δ s → j ≠ k → worth (account s j) + worth (account s k) <= issued s.
Proof. intros Hinv Hne. rewrite <- !worth_lookup. apply map_sum_ge2; [|done]. by eapply accounts_nonneg. Qed.

Lemma worth_u δ s who : bal_inv δ s → 0 <= worth (account s who) <= u128_max.
Proof.
  intros Hinv. pose proof (worth_le_issued _ _ who Hinv). pose proof (inv_issued _ _ Hinv).
  pose proof (worth_nonneg _ (inv_data _ _ Hinv who)). lia.
Qed.

Lemma total_worth δ s who : bal_inv δ s → total (account s who) = worth (account s who).
Proof. intros Hinv. pose proof (worth_u _ _ who Hinv). rewrite saturating_total. lia. Qed.

Lemma default_data_ok : data_ok default_data.
Proof. pose proof u128_max_pos. unfold u128_max in *. split; simpl; [unfold is_u; simpl; lia..|by left]. Qed.

Lemma survive_ok a :
  is_u128 (free a) → is_u128 (reserved a) → is_u128 (misc_frozen a) → is_u128 (fee_frozen a) → data_ok (survive a).
Proof. intros. unfold survive. destruct (Z.ltb_spec (worth a) ExistentialDeposit); [apply default_data_ok|]. split; auto. Qed.

Lemma is_new_default s who : is_new s who = true → account s who = default_data.
Proof. unfold is_new, is_providing. intros H%negb_true_iff%negb_false_iff. by apply bool_decide_eq_true in H. Qed.

Lemma not_new_alive δ s who : bal_inv δ s → is_new s who = false → ExistentialDeposit <= worth (account s who).
Proof.
  intros Hinv Hn. destruct (alive _ (inv_data _ _ Hinv who)) as [Hd|]; [|done].
  unfold is_new, is_providing in Hn. rewrite Hd, bool_decide_eq_true_2 in Hn; done.
Qed.

Lemma inv_TI δ s : bal_inv δ s → 0 <= TotalIssuance (bal s).
Proof. intros []. by destruct inv_issuance0. Qed.

(** The books after one account has been settled at [a]. *)
Lemma inv_mutated δ δ' who a s s' :
  bal_inv δ s → mutated who a s s' →
  is_u128 (free a) → is_u128 (reserved a) → is_u128 (misc_frozen a) → is_u128 (fee_frozen a) →
  δ' = δ + worth (account s who) - worth a → dust a <= TotalIssuance (bal s) →
  issued s - worth (account s who) + worth a <= u128_max → bal_inv δ' s'.
Proof.
  intros Hinv [Hf Hok Ha _ _ _ _ Hb Ho] Hfr Hre Hmi Hfe -> Hdust Hmax.
  pose proof (issued_update _ _ _ Hf) as Hi. rewrite Ha, worth_survive in Hi.
  assert (0 <= dust a) by (unfold dust, worth, is_u in *; case_match; lia).
  pose proof (inv_issuance _ _ Hinv) as [Ht1 Ht2]. pose proof (inv_supply _ _ Hinv).
  assert (TotalIssuance (bal s') = TotalIssuance (bal s) - dust a) as Hti.
  { rewrite Hb. simpl. by apply saturating_sub_id. }
  split; [done| |lia|unfold is_u; lia|lia].
  intros k. destruct (decide (k = who)) as [->|Hne]; [rewrite Ha; by apply survive_ok|].
  rewrite (account_accounts s s') by auto. apply (inv_data _ _ Hinv).
Qed.

Lemma inv_quiet δ s s' : bal_inv δ s → quiet s s' → bal_inv δ s'.
Proof.
  intros [Hs Hd Hsu Hti Hi] Hq. split; rewrite ?(q_bal _ _ Hq), ?(quiet_issued _ _ Hq); try done.
  - by eapply quiet_sys_ok.
  - intros k. by rewrite (quiet_account _ _ _ Hq).
Qed.

(** Dropping a negative imbalance. *)
Lemma inv_squared δ d s s' : bal_inv δ s → squared d s s' → 0 <= d <= TotalIssuance (bal s) → bal_inv (δ - d) s'.
Proof.
  intros [Hs Hd Hsu [Ht Ht'] Hi] Hq Hdt.
  assert (issued s' = issued s) as Hi' by (unfold issued; by rewrite (sq_accounts _ _ _ Hq)).
  split; rewrite ?(sq_bal _ _ _ Hq), ?Hi'; simpl; rewrite ?saturating_sub_id by lia; try lia.
  - by eapply squared_sys_ok.
  - intros k. by rewrite (squared_account _ _ _ _ Hq).
  - unfold is_u in *. lia.
Qed.

(** ** Two accounts at once *)

Record moved (from dest : AccountId) (a b : AccountData) (s s' : Store) : Prop := {
  mv_frame : ∀ k, k ≠ from → k ≠ dest → accounts s' !! k = accounts s !! k;
  mv_ok : sys_ok s';
  mv_from : account s' from = survive a;
  mv_dest : account s' dest = b;
  mv_from_consumers : consumers (info s' from) = consumers (info s from);
  mv_dest_consumers : consumers (info s' dest) = consumers (info s dest);
  mv_sole : ∀ k, sole s k → sole s' k;
  mv_bal : bal s' = with_issuance (λ t, saturating_sub t (dust a)) (bal s);
  mv_others : others s' = others s }.

Lemma settled_moved from dest a b s s1 s2 s3 :
  from ≠ dest → ExistentialDeposit <= worth b →
  settled from a s s1 → settled dest b s1 s2 → squared (dust a) s2 s3 → moved from dest a b s s3.
Proof.
  intros Hne Hb [[Hr Ht] Hok Ha Hc Hp _ Hs] [[Hr' Ht'] Hok' Ha' Hc' Hp' _ Hs'] Hq.
  assert (info s2 from = info s1 from) as Hi1 by (unfold info; by rewrite Ht').
  assert (info s1 dest = info s dest) as Hi2 by (unfold info; by rewrite Ht).
  split; rewrite ?(squared_info _ _ _ _ Hq), ?Hi1, ?Hc', ?Hi2; try done.
  - intros k Hk1 Hk2. by rewrite (sq_accounts _ _ _ Hq), Ht', Ht.
  - by eapply squared_sys_ok.
  - rewrite (squared_account _ _ _ _ Hq), <- Ha. unfold account, stored_get. by rewrite Hi1.
  - rewrite (squared_account _ _ _ _ Hq), Ha'. unfold survive. by rewrite (proj2 (Z.ltb_ge _ _) Hb).
  - intros k Hk. unfold sole, stored_get in *. rewrite (squared_info _ _ _ _ Hq). destruct (decide (k = dest)) as [->|Hkd].
    + apply Hs'. by rewrite Hi2.
    + assert (info s2 k = info s1 k) as -> by (unfold info; by rewrite Ht'). destruct (decide (k = from)) as [->|Hkf]; [by apply Hs|].
      assert (info s1 k = info s k) as -> by (unfold info; by rewrite Ht). done.
  - by rewrite (sq_bal _ _ _ Hq), (rest_bal _ _ Hr'), (rest_bal _ _ Hr).
  - by rewrite (sq_others _ _ _ Hq), (rest_others _ _ Hr'), (rest_others _ _ Hr).
Qed.

Lemma issued_moved from dest a b s s' :
  from ≠ dest → moved from dest a b s s' →
  issued s' = issued s - worth (account s from) - worth (account s dest) + worth a - dust a + worth b.
Proof.
  intros Hne Hm. unfold issued. rewrite (map_sum_split _ (accounts s') from), (map_sum_split _ (accounts s) from).
  rewrite (map_sum_update _ (delete from (accounts s)) (delete from (accounts s')) dest).
  - rewrite !lookup_delete_ne, !worth_lookup, (mv_from _ _ _ _ _ _ Hm), (mv_dest _ _ _ _ _ _ Hm), worth_survive by done. lia.
  - intros j Hj. destruct (decide (j = from)) as [->|]; [by rewrite !lookup_delete_eq|].
    rewrite !lookup_delete_ne by done. by apply (mv_frame _ _ _ _ _ _ Hm).
Qed.

(** The books after a move between two accounts that keeps their sum. *)
Lemma inv_moved δ from dest a b s s' :
  bal_inv δ s → from ≠ dest → moved from dest a b s s' →
  is_u128 (free a) → is_u128 (reserved a) → is_u128 (misc_frozen a) → is_u128 (fee_frozen a) → data_ok b →
  worth a + worth b = worth (account s from) + worth (account s dest) → dust a <= TotalIssuance (bal s) → bal_inv δ s'.
Proof.
  intros Hinv Hne Hm Hfr Hre Hmi Hfe Hb Hw Hdust. pose proof (issued_moved _ _ _ _ _ _ Hne Hm) as Hi.
  assert (0 <= dust a) by (unfold dust, worth, is_u in *; case_match; lia).
  pose proof (inv_issuance _ _ Hinv) as [Ht1 Ht2]. pose proof (inv_supply _ _ Hinv). pose proof (inv_issued _ _ Hinv).
  assert (TotalIssuance (bal s') = TotalIssuance (bal s) - dust a) as Hti.
  { rewrite (mv_bal _ _ _ _ _ _ Hm). simpl. by apply saturating_sub_id. }
  split; [apply Hm| |lia|unfold is_u; lia|lia].
  intros k. destruct (decide (k = from)) as [->|Hkf]; [rewrite (mv_from _ _ _ _ _ _ Hm); by apply survive_ok|].
  destruct (decide (k = dest)) as [->|Hkd]; [by rewrite (mv_dest _ _ _ _ _ _ Hm)|].
  rewrite (account_accounts s s') by (by apply (mv_frame _ _ _ _ _ _ Hm)). apply (inv_data _ _ Hinv).
Qed.

End Ledger.
