(* ===== verification/Transfers.v ===== *)
(** Moving balances between accounts: [transfer] and [do_transfer_reserved] do what their pure
    specifications say, on every branch, and keep the books. *)

From S2P Require Import Prelude Runtime System Balances Ledger.

Section Transfers.
  Context {cfg : BalancesConfig} {laws : BalancesLaws cfg}.

(** What [transfer] answers, as a function of the state: the first failing check. *)
Definition transfer_check (s : Store) (from dest : AccountId) (v : Balance) (req : ExistenceRequirement) : outcome DispatchError unit :=
  let a := account s from in
  let b := account s dest in
  if free a <? v then Err (Module_ (BalancesE InsufficientBalance))
  else if u128_max <? free b + v then Err (Arithmetic Overflow)
  else if worth b + v <? ExistentialDeposit then Err (Module_ (BalancesE ExistentialDepositE))
  else if free a - v <? misc_frozen a then Err (Module_ (BalancesE LiquidityRestrictions))
  else if negb (bool_decide (req = AllowDeath) && can_dec_provider s from) && (worth a - v <? ExistentialDeposit)
  then Err (Module_ (BalancesE KeepAliveE))
  else Ok tt.

Lemma transfer_check_Ok s from dest v req :
  transfer_check s from dest v req = Ok tt ↔
  v <= free (account s from) ∧ free (account s dest) + v <= u128_max ∧ ExistentialDeposit <= worth (account s dest) + v ∧
  misc_frozen (account s from) <= free (account s from) - v ∧
  (req = AllowDeath ∧ can_dec_provider s from = true ∨ ExistentialDeposit <= worth (account s from) - v).
Proof.
  unfold transfer_check. split.
  - intros Hc. repeat (case_match; [done|]). props; subst; repeat split; auto; lia.
  - intros (?&?&?&?&Hd). by_cases. all: destruct Hd as [[??]|?]; try congruence; lia.
Qed.

Lemma worth_set_free x a : worth (set_free x a) = worth a - free a + x.
Proof. unfold worth. simpl. lia. Qed.

Lemma worth_set_reserved x a : worth (set_reserved x a) = worth a - reserved a + x.
Proof. unfold worth. simpl. lia. Qed.

Lemma ed_leb_total a : (ExistentialDeposit <=? total a) = negb (worth a <? ExistentialDeposit).
Proof. by rewrite <- total_ltb_ed, Z.leb_antisym. Qed.

Lemma cleaner_alive who a : ExistentialDeposit <= worth a → cleaner who a = mkCleaner None.
Proof. intros Ha. unfold cleaner. by rewrite (proj2 (Z.ltb_ge _ _) Ha). Qed.

Lemma settled_info_ne who a s s' k : settled who a s s' → k ≠ who → info s' k = info s k.
Proof. intros Hs. apply touches_info, Hs. Qed.

Lemma settled_TI who a s s' : settled who a s s' → TotalIssuance (bal s') = TotalIssuance (bal s).
Proof. intros Hs. by rewrite (rest_bal _ _ (proj1 (se_touches _ _ _ _ Hs))). Qed.

Lemma moved_quiet from dest a b s s1 s2 : moved from dest a b s s1 → quiet s1 s2 → moved from dest a b s s2.
Proof.
  intros [Hf Hok Ha Hb Hc Hd Hs Hba Ho] Hq.
  split; unfold sole, stored_get in *; rewrite ?(quiet_info _ _ _ Hq), ?(quiet_account _ _ _ Hq), ?(q_bal _ _ Hq), ?(q_others _ _ Hq); try done.
  - intros. rewrite (q_accounts _ _ Hq). by apply Hf.
  - by eapply quiet_sys_ok.
  - intros k. rewrite (quiet_info _ _ _ Hq). apply Hs.
Qed.

(** [transfer] in full: its answer is [transfer_check], an error leaves the store as it was,
    and a success moves [v] and burns what falls under the existential deposit. *)
Lemma wp_transfer from dest v req s Q :
  sys_ok s → 0 <= TotalIssuance (bal s) → v ≠ 0 → from ≠ dest →
  (∀ e, transfer_check s from dest v req = Err e → Q (Err e) s) →
  (transfer_check s from dest v req = Ok tt → ∀ s',
    moved from dest (set_free (free (account s from) - v) (account s from))
      (set_free (free (account s dest) + v) (account s dest)) s s' → Q (Ok tt) s') →
  wp (transfer from dest v req) Q s.
Proof.
  intros Hok Ht Hv Hne HE HQ. unfold transfer. rewrite (proj2 (Z.eqb_neq v 0) Hv), (bool_decide_eq_false_2 (from = dest)) by done. simpl.
  apply wp_bind, wp_try_mutate_account_with_dust; [done|]. apply wp_bind, wp_try_mutate_account_with_dust; [done|].
  unfold ensure_can_withdraw. rewrite (proj2 (Z.eqb_neq v 0) Hv). wp_steps.
  all: rewrite ?ed_leb_total, ?worth_set_free in *; simpl in *.
  all: try (apply HE; unfold transfer_check; clear HE HQ; by_cases).
  assert (transfer_check s from dest v req = Ok tt) as Hchk by (unfold transfer_check; clear HE HQ; by_cases).
  apply checked_sub_Some in H as [-> _]. apply checked_add_Some in H0 as [-> _].
  apply negb_true_iff, Z.ltb_ge in H1.
  split; [done|]. split; [done|]. split.
  - intros s1 Hs1. apply wp_ret. split; [apply Hs1|]. split; [by eapply settled_info_ne|]. rewrite worth_set_free. split; [|lia].
    intros s2 Hs2. apply wp_bind, wp_drop_cleaner; [by rewrite (settled_TI _ _ _ _ Hs2), (settled_TI _ _ _ _ Hs1)|].
    intros s3 Hs3. rewrite cleaner_alive by (rewrite worth_set_free; lia). apply wp_bind, wp_ret. unfold emit, deposit_event. wp_steps.
    apply HQ; [done|]. eapply moved_quiet; [|apply quiet_deposit]. eapply settled_moved; try done. rewrite worth_set_free. lia.
  - intros Hlt _ Hcd. exfalso. clear HE HQ. rewrite Hcd in H3. arith.
Qed.

(** [set_free] or [set_reserved], by the destination status. *)
Definition credit (status : BalanceStatus) (x : Balance) (b : AccountData) : AccountData :=
  match status with Free => set_free (free b + x) b | Reserved => set_reserved (reserved b + x) b end.

Lemma worth_credit status x b : worth (credit status x b) = worth b + x.
Proof. destruct status; unfold worth; simpl; lia. Qed.

Lemma min_u x y : is_u128 x → 0 <= y → 0 <= x `min` y <= x.
Proof. unfold is_u. lia. Qed.

Lemma wp_credit (status : BalanceStatus) b x (s : Store) Q :
  is_u128 (free b) → is_u128 (reserved b) → 0 <= x → worth b + x <= u128_max → Q (Ok (credit status x b)) s →
  wp (match status return Run AccountData with
      | Free => let! f := ok_or (checked_add 128 (free b) x) (Arithmetic Overflow) in ret (set_free f b)
      | Reserved => let! r := ok_or (checked_add 128 (reserved b) x) (Arithmetic Overflow) in ret (set_reserved r b)
      end) Q s.
Proof. intros [] [] Hx Hw HQ. unfold worth in Hw. destruct status; wp_steps; arith. Qed.

Lemma reserved_sub δ s who v : bal_inv δ s → 0 <= v → 
  let r := reserved (account s who) in r ⊖ (r `min` v) = r - r `min` v.
Proof.
  intros Hinv Hv r. pose proof (min_u _ v (reserved_u _ (inv_data _ _ Hinv who)) Hv). destruct (reserved_u _ (inv_data _ _ Hinv who)).
  apply wrapping_sub_id; [lia|]. fold r in H. lia.
Qed.

Lemma wp_do_transfer_reserved δ slashed beneficiary v best_effort status s Q :
  bal_inv δ s → 0 < v → slashed ≠ beneficiary →
  let a := account s slashed in
  let b := account s beneficiary in
  let actual := reserved a `min` v in
  (is_new s beneficiary = true → Q (Err (Module_ (BalancesE DeadAccount))) s) →
  (is_new s beneficiary = false → best_effort = false → reserved a < v → Q (Err (Module_ (BalancesE InsufficientBalance))) s) →
  (is_new s slashed = false → can_dec_provider s slashed = false → worth a - actual < ExistentialDeposit →
   ∀ s', squared (worth a - actual) s s' → Q (Err ConsumerRemaining) s') →
  (is_new s beneficiary = false → best_effort = true ∨ v <= reserved a → ∀ s',
   moved slashed beneficiary (set_reserved (reserved a - actual) a) (credit status actual b) s s' → Q (Ok actual) s') →
  wp (do_transfer_reserved slashed beneficiary v best_effort status) Q s.
Proof.
  intros Hinv Hv Hne a b actual Hdead Hins Hcons HQ. unfold do_transfer_reserved.
  rewrite (proj2 (Z.eqb_neq v 0)), (bool_decide_eq_false_2 (slashed = beneficiary)) by (done || lia).
  apply wp_bind, wp_try_mutate_account_with_dust; [apply Hinv|]. apply wp_bind, wp_ensure; intros Hnew; [|apply Hdead; by props].
  apply negb_true_iff in Hnew. pose proof (not_new_alive _ _ _ Hinv Hnew) as Hb.
  pose proof (min_u _ v (reserved_u _ (inv_data _ _ Hinv slashed)) ltac:(lia)) as Hact.
  pose proof (inv_data _ _ Hinv slashed) as Ha. pose proof (inv_data _ _ Hinv beneficiary) as Hbd.
  pose proof (worth2_le_issued _ _ _ _ Hinv Hne) as Hsum. pose proof (inv_issued _ _ Hinv) as Hmax.
  apply wp_bind, wp_try_mutate_account_with_dust; [apply Hinv|].
  apply wp_bind, wp_ensure; intros Hbe; [|apply Hins; subst a actual; arith].
  apply wp_bind, wp_credit; [apply Hbd..|lia| |].
  { destruct (free_u _ Ha). unfold worth in *. lia. }
  apply wp_ret. rewrite (reserved_sub _ _ _ _ Hinv) by lia. fold a b actual in Hb, Hact |- *. split; [apply Hinv|]. split; [done|]. split.
  - intros s1 Hs1. apply wp_ret. split; [apply Hs1|]. split; [by eapply settled_info_ne|]. rewrite worth_credit. split; [|lia].
    intros s2 Hs2. unfold emit, deposit_event. apply wp_bind, wp_modify, wp_bind.
    rewrite (cleaner_alive beneficiary) by (rewrite worth_credit; lia). apply wp_ret, wp_bind.
    apply (settled_quiet_r _ _ _ _ (deposit (EBalances (ReserveRepatriated slashed beneficiary actual status)) s2)) in Hs2; [|apply quiet_deposit].
    apply wp_drop_cleaner; [rewrite (settled_TI _ _ _ _ Hs2), (settled_TI _ _ _ _ Hs1); by eapply inv_TI|].
    intros s3 Hs3. apply wp_ret. apply HQ; [done| |].
    + destruct best_effort; [by left|right]. subst a actual. simpl in Hbe. arith.
    + eapply settled_moved; try done. rewrite worth_credit. lia.
  - intros Hlt Hn Hcd. unfold dust. rewrite worth_set_reserved in Hlt. split; [by eapply inv_TI|]. intros s1 Hs1.
    rewrite worth_set_reserved, (proj2 (Z.ltb_lt _ _) Hlt) in Hs1.
    unfold drop_value, drop_pair. apply wp_bind, wp_ret, wp_ret. apply Hcons; [done..|lia|].
    by replace (worth a - actual) with (worth a - reserved a + (reserved a - actual)) by lia.
Qed.

End Transfers.
