(* ===== verification/Currencies.v ===== *)
(** The single-account operations of [pallet_balances]: what each returns and leaves, on every
    branch, from a state that satisfies the books' invariant. *)

From S2P Require Import Prelude Runtime System Balances Ledger Transfers.

Section Currencies.
  Context {cfg : BalancesConfig} {laws : BalancesLaws cfg}.

(** The bounds that the invariant gives for the account of [who]. *)
Lemma acct_bounds δ s who : bal_inv δ s →
  let a := account s who in
  0 <= free a ∧ 0 <= reserved a ∧ free a + reserved a <= u128_max ∧
  0 <= misc_frozen a <= u128_max ∧ 0 <= fee_frozen a <= u128_max ∧ free a + reserved a <= issued s.
Proof.
  intros Hinv a. destruct (inv_data _ _ Hinv who) as [[] [] [] [] _]. pose proof (worth_u _ _ who Hinv).
  pose proof (worth_le_issued _ _ who Hinv). subst a. unfold worth in *. fold u128_max in *. repeat split; lia.
Qed.

Ltac acct_facts Hinv who :=
  let H := fresh "Hacct" in
  pose proof (acct_bounds _ _ who Hinv) as H; simpl in H; destruct H as (? & ? & ? & ? & ? & ?);
  pose proof ed_pos; pose proof ed_u128.

Lemma add128_id x y : 0 <= x + y <= u128_max → x ⊕ y = x + y.
Proof. apply wrapping_add_id. lia. Qed.

Lemma sub128_id x y : 0 <= x - y <= u128_max → x ⊖ y = x - y.
Proof. apply wrapping_sub_id. lia. Qed.

Lemma wp_emit e (Q : outcome DispatchError unit → Store → Prop) s :
  (∀ s', quiet s s' → Q (Ok tt) s') → wp (emit e) Q s.
Proof. intros HQ. unfold emit, deposit_event. apply wp_modify, HQ, quiet_deposit. Qed.

Lemma wp_ensure_can_withdraw who v reasons nb s (Q : outcome DispatchError unit → Store → Prop) :
  v ≠ 0 →
  (frozen (account s who) (reasons_from reasons) <= nb → Q (Ok tt) s) →
  (nb < frozen (account s who) (reasons_from reasons) → Q (Err (Module_ (BalancesE LiquidityRestrictions))) s) →
  wp (ensure_can_withdraw who v reasons nb) Q s.
Proof.
  intros Hv HQ HE. unfold ensure_can_withdraw. rewrite (proj2 (Z.eqb_neq v 0) Hv). wp_steps; props; auto.
Qed.

(** ** Reserving *)

(** [v] moved from the free to the reserved balance. *)
Definition reserve_data (v : Balance) (a : AccountData) : AccountData := mkData (free a - v) (reserved a + v) (misc_frozen a) (fee_frozen a).

Lemma worth_reserve_data v a : worth (reserve_data v a) = worth a.
Proof. unfold worth. simpl. lia. Qed.

Definition reserve_check (s : Store) (who : AccountId) (v : Balance) : outcome DispatchError unit :=
  let a := account s who in
  if free a <? v then Err (Module_ (BalancesE InsufficientBalance))
  else if free a - v <? misc_frozen a then Err (Module_ (BalancesE LiquidityRestrictions))
  else Ok tt.

Lemma wp_reserve δ who v s Q :
  bal_inv δ s → 0 < v →
  (∀ e, reserve_check s who v = Err e → Q (Err e) s) →
  (reserve_check s who v = Ok tt → ∀ s', mutated who (reserve_data v (account s who)) s s' → Q (Ok tt) s') →
  wp (reserve who v) Q s.
Proof.
  intros Hinv Hv HE HQ. unfold reserve. rewrite (proj2 (Z.eqb_neq v 0)) by lia. acct_facts Hinv who.
  apply wp_bind, wp_try_mutate_account; [apply Hinv|by eapply inv_TI|]. wp_steps; simpl in *.
  2,3: first [exfalso; clear HE HQ; by arith|apply HE; unfold reserve_check; clear HE HQ; by by_cases].
  apply wp_ensure_can_withdraw; [lia| |].
  - simpl. intros Hfr. apply wp_ret. props. subst. split; [done|]. split.
    + intros s' Hm. apply wp_emit. intros s'' Hq. apply HQ; [unfold reserve_check; clear HE HQ; by_cases|]. by eapply mutated_quiet.
    + intros Hlt Hn. exfalso. pose proof (not_new_alive _ _ _ Hinv Hn). unfold worth in *. simpl in *. lia.
  - simpl. intros Hfr. apply HE. unfold reserve_check. clear HE HQ. props. subst. by_cases.
Qed.

Lemma wp_unreserve δ who v s Q :
  bal_inv δ s → 0 <= v <= u128_max →
  let actual := reserved (account s who) `min` v in
  (actual = 0 → account s who = default_data ∨ v = 0 → Q (Ok v) s) →
  (∀ s', mutated who (reserve_data (- actual) (account s who)) s s' → Q (Ok (v - actual)) s') →
  wp (unreserve who v) Q s.
Proof.
  intros Hinv Hv actual HQ0 HQ. unfold unreserve. acct_facts Hinv who.
  destruct (Z.eqb_spec v 0) as [->|Hv0]; [apply wp_ret, HQ0; [lia|by right]|].
  apply wp_bind, wp_gets. unfold total_balance. rewrite (total_worth _ _ _ Hinv).
  destruct (Z.eqb_spec (worth (account s who)) 0) as [Hw|Hw].
  { apply wp_ret, HQ0; [unfold worth in *; lia|left]. destruct (alive _ (inv_data _ _ Hinv who)); [done|lia]. }
  apply wp_bind, wp_attempt. unfold mutate_account. apply wp_try_mutate_account; [apply Hinv|by eapply inv_TI|].
  apply wp_ret. rewrite (reserved_sub _ _ _ _ Hinv) by lia. simpl. fold actual.
  rewrite saturating_add_id by (fold u128_max; lia). split; [done|]. split.
  - intros s' Hm. apply wp_bind, wp_emit. intros s'' Hq. apply wp_ret. rewrite sub128_id by lia.
    apply HQ. eapply mutated_quiet; [|done].
    replace (reserve_data (- actual) (account s who)) with (set_free (free (account s who) + actual) (set_reserved (reserved (account s who) - actual) (account s who))); [done|].
    unfold reserve_data, set_free, set_reserved. simpl. f_equal; lia.
  - intros Hlt Hn. exfalso. pose proof (not_new_alive _ _ _ Hinv Hn). unfold worth in *. simpl in *. lia.
Qed.

(** ** Slashing *)

Lemma squared_trans d e s1 s2 s3 : 0 <= d → 0 <= e → squared d s1 s2 → squared e s2 s3 → squared (d + e) s1 s3.
Proof.
  intros Hd He [Ha Hb Ho] [Ha' Hb' Ho']. split; [congruence| |congruence].
  rewrite Hb', Hb. unfold with_issuance, saturating_sub. simpl. f_equal. lia.
Qed.

Lemma dust_dead a : worth a < ExistentialDeposit → dust a = worth a.
Proof. intros Ha. unfold dust. by rewrite (proj2 (Z.ltb_lt _ _) Ha). Qed.

Lemma squared_TI d s s' : 0 <= d → squared d s s' → 0 <= TotalIssuance (bal s').
Proof. intros Hd Hs. rewrite (sq_bal _ _ _ Hs). simpl. unfold saturating_sub. lia. Qed.

(** The two attempts shared by [slash] and [slash_reserved]: attempt [t] takes [x t] from the
    account and leaves [d t].  When the first attempt would kill an account that has consumers
    it fails, but its dropped imbalance and dust have already been taken off the issuance. *)
Lemma wp_slash_attempts δ who v s Q (f : Z → AccountData → NegativeImbalance * Balance * AccountData)
    (x : Z → Z) (d : Z → AccountData) (ev : Balance → BalancesEvent) :
  let w := worth (account s who) in
  bal_inv δ s → ExistentialDeposit <= w →
  (∀ t, f t (account s who) = ((Neg (x t), v - x t), d t)) →
  (∀ t, worth (d t) = w - x t) → 0 <= x 0 <= w → x 1 <= w - ExistentialDeposit →
  (ExistentialDeposit <= w - x 0 ∨ can_dec_provider s who = true →
   ∀ s', mutated who (d 0) s s' → Q (Ok (Neg (x 0), v - x 0)) s') →
  (w - x 0 < ExistentialDeposit → can_dec_provider s who = false →
   ∀ s1 s', squared w s s1 → mutated who (d 1) s1 s' → Q (Ok (Neg (x 1), v - x 1)) s') →
  wp (first_ok [0; 1] (λ t,
        let! ' (imbalance, not_slashed) := try_mutate_account who (λ a _, ret (f t a)) in
        do! emit (ev not_slashed) in
        ret (imbalance, not_slashed)) (Neg 0, v)) Q s.
Proof.
  intros w Hinv Hw Hf Hd Hx0 Hx1 HQ0 HQ1. simpl. pose proof ed_pos.
  assert (is_new s who = false) as Hn.
  { destruct (is_new s who) eqn:Hn; [|done]. apply is_new_default in Hn. subst w. rewrite Hn in Hw. unfold worth in Hw. simpl in Hw. lia. }
  apply wp_bind, wp_attempt, wp_bind.
  apply wp_try_mutate_account; [apply Hinv|by eapply inv_TI|]. apply wp_ret. rewrite Hf.
  split; [done|]. split.
  - intros s' Hm. apply wp_bind, wp_emit. intros s'' Hq. apply wp_ret, wp_ret. apply HQ0; [|by eapply mutated_quiet].
    destruct (decide (worth (d 0) < ExistentialDeposit)) as [Hlt|]; [right; by apply (mu_can _ _ _ _ Hm)|left; rewrite Hd in *; lia].
  - intros Hlt _ Hcan s2 Hs2. rewrite dust_dead in Hs2 by done. rewrite Hd in Hs2, Hlt.
    unfold drop_value, drop_pair. apply wp_bind, wp_drop_negative. simpl. intros s3 Hs3. apply wp_ret. simpl.
    pose proof (squared_trans (w - x 0) (x 0) _ _ _ ltac:(lia) ltac:(lia) Hs2 Hs3) as Hs. replace (w - x 0 + x 0) with w in Hs by lia.
    pose proof (squared_account _ _ _ who Hs) as Ha3.
    apply wp_bind, wp_attempt, wp_bind. apply wp_try_mutate_account; [eapply squared_sys_ok; [done|apply Hinv]|eapply squared_TI; [|done]; lia|].
    apply wp_ret. rewrite Ha3, Hf. split; [done|]. split.
    + intros s' Hm. apply wp_bind, wp_emit. intros s'' Hq. apply wp_ret, wp_ret. eapply HQ1; [done..|]. by eapply mutated_quiet.
    + intros Hlt'. rewrite Hd in Hlt'. lia.
Qed.

(** [x] taken from the free balance first, then from the reserved one. *)
Definition slash_data (x : Balance) (a : AccountData) : AccountData :=
  mkData (free a - free a `min` x) (reserved a - (x - free a `min` x)) (misc_frozen a) (fee_frozen a).

Lemma worth_slash_data x a : worth (slash_data x a) = worth a - x.
Proof. unfold worth. simpl. lia. Qed.

(** What can be slashed in one go, and with the account kept at the existential deposit. *)
Definition slashable (s : Store) (who : AccountId) (v : Balance) : Balance := v `min` worth (account s who).
Definition slashable_alive (s : Store) (who : AccountId) (v : Balance) : Balance := v `min` (worth (account s who) - ExistentialDeposit).

Lemma best_value_spec δ s who v t : bal_inv δ s → ExistentialDeposit <= worth (account s who) → 0 <= v →
  best_value v t (account s who) = (if t =? 0 then v else v `min` (worth (account s who) - ExistentialDeposit)).
Proof.
  intros Hinv Hw Hv. acct_facts Hinv who. unfold best_value. destruct (t =? 0); [done|].
  rewrite add128_id, saturating_sub_id by (unfold worth in *; lia). done.
Qed.

(** The amount that attempt [t] of [slash], of [slash_reserved] takes. *)
Definition slash_amount (s : Store) (who : AccountId) (v t : Balance) : Balance :=
  if t =? 0 then v `min` worth (account s who) else v `min` (worth (account s who) - ExistentialDeposit).
Definition slash_reserved_amount (s : Store) (who : AccountId) (v t : Balance) : Balance :=
  reserved (account s who) `min` (if t =? 0 then v else v `min` (worth (account s who) - ExistentialDeposit)).

Lemma slash_attempt_spec δ s who v t : bal_inv δ s → ExistentialDeposit <= worth (account s who) → 0 <= v <= u128_max →
  slash_attempt v t (account s who) =
    ((Neg (slash_amount s who v t), v - slash_amount s who v t), slash_data (slash_amount s who v t) (account s who)).
Proof.
  intros Hinv Hw Hv. unfold slash_attempt. rewrite (best_value_spec δ) by (done || lia). unfold slash_amount.
  acct_facts Hinv who. unfold worth in *. set (a := account s who) in *. set (best := if t =? 0 then v else _).
  assert (0 <= best <= v) by (subst best; destruct (t =? 0); lia).
  replace (if t =? 0 then v `min` (free a + reserved a) else v `min` (free a + reserved a - ExistentialDeposit))
    with (best `min` (free a + reserved a)) by (subst best; destruct (t =? 0); lia).
  clearbody best. rewrite (sub128_id best), !(sub128_id v), !(sub128_id (free a)) by lia. simpl.
  destruct (Z.eqb_spec (best - free a `min` best) 0); simpl.
  - unfold slash_data, set_free. f_equal; [f_equal; [f_equal|]|f_equal]; lia.
  - rewrite add128_id, !sub128_id by lia. unfold slash_data, set_free, set_reserved. simpl. f_equal; [f_equal; [f_equal|]|f_equal]; lia.
Qed.

Lemma slash_reserved_attempt_spec δ s who v t : bal_inv δ s → ExistentialDeposit <= worth (account s who) → 0 <= v <= u128_max →
  slash_reserved_attempt v t (account s who) =
    ((Neg (slash_reserved_amount s who v t), v - slash_reserved_amount s who v t),
     set_reserved (reserved (account s who) - slash_reserved_amount s who v t) (account s who)).
Proof.
  intros Hinv Hw Hv. unfold slash_reserved_attempt, slash_reserved_amount. rewrite (best_value_spec δ) by (done || lia).
  acct_facts Hinv who. unfold worth in *. rewrite !sub128_id by (destruct (t =? 0); lia). done.
Qed.

(** [slash] and [slash_reserved]: the outcome when the first attempt succeeds, and when it would
    kill an account that must live on. *)
Lemma wp_slash_any (op : AccountId → Balance → Run (NegativeImbalance * Balance)) attempt_ amount left δ who v s Q :
  op who v = (if v =? 0 then ret (Neg 0, 0) else
    let! tb := gets (λ s, total_balance s who) in
    if tb =? 0 then ret (Neg 0, v) else
    first_ok [0; 1] (λ t,
      let! ' (imbalance, not_slashed) := try_mutate_account who (λ a _, ret (attempt_ v t a)) in
      do! emit (Slashed who (saturating_sub v not_slashed)) in
      ret (imbalance, not_slashed)) (Neg 0, v)) →
  (∀ t, ExistentialDeposit <= worth (account s who) → attempt_ v t (account s who) = ((Neg (amount t), v - amount t), left (amount t))) →
  (∀ x, worth (left x) = worth (account s who) - x) → 0 <= amount 0 <= worth (account s who) →
  amount 1 <= worth (account s who) - ExistentialDeposit →
  bal_inv δ s → 0 < v <= u128_max →
  (account s who = default_data → Q (Ok (Neg 0, v)) s) →
  (ExistentialDeposit <= worth (account s who) →
   ExistentialDeposit <= worth (account s who) - amount 0 ∨ can_dec_provider s who = true → ∀ s',
   mutated who (left (amount 0)) s s' → Q (Ok (Neg (amount 0), v - amount 0)) s') →
  (ExistentialDeposit <= worth (account s who) →
   worth (account s who) - amount 0 < ExistentialDeposit → can_dec_provider s who = false → ∀ s1 s',
   squared (worth (account s who)) s s1 → mutated who (left (amount 1)) s1 s' → Q (Ok (Neg (amount 1), v - amount 1)) s') →
  wp (op who v) Q s.
Proof.
  intros -> Hat Hleft H0 H1 Hinv Hv HQd HQ0 HQ1. rewrite (proj2 (Z.eqb_neq v 0)) by lia. pose proof ed_pos.
  apply wp_bind, wp_gets. unfold total_balance. rewrite (total_worth _ _ _ Hinv).
  destruct (alive _ (inv_data _ _ Hinv who)) as [Hd|Hw].
  { rewrite Hd. simpl. by apply wp_ret, HQd. }
  rewrite (proj2 (Z.eqb_neq _ 0)) by lia.
  apply (wp_slash_attempts δ who v s Q (attempt_ v) amount (λ t, left (amount t)) (λ ns, Slashed who (saturating_sub v ns))); eauto.
Qed.

Lemma wp_slash δ who v s Q :
  let w := worth (account s who) in
  let x := v `min` w in
  let x' := v `min` (w - ExistentialDeposit) in
  bal_inv δ s → 0 < v <= u128_max →
  (account s who = default_data → Q (Ok (Neg 0, v)) s) →
  (ExistentialDeposit <= w → ExistentialDeposit <= w - x ∨ can_dec_provider s who = true → ∀ s',
   mutated who (slash_data x (account s who)) s s' → Q (Ok (Neg x, v - x)) s') →
  (ExistentialDeposit <= w → w - x < ExistentialDeposit → can_dec_provider s who = false → ∀ s1 s',
   squared w s s1 → mutated who (slash_data x' (account s who)) s1 s' → Q (Ok (Neg x', v - x')) s') →
  wp (slash who v) Q s.
Proof.
  intros w x x' Hinv Hv HQd HQ0 HQ1. pose proof (worth_u _ _ who Hinv).
  apply (wp_slash_any slash slash_attempt (slash_amount s who v) (λ x, slash_data x (account s who)) δ); try done.
  - intros. apply (slash_attempt_spec δ); done || lia.
  - intros. apply worth_slash_data.
  - unfold slash_amount. simpl. lia.
  - unfold slash_amount. simpl. lia.
Qed.

Lemma wp_slash_reserved δ who v s Q :
  let w := worth (account s who) in
  let x := reserved (account s who) `min` v in
  let x' := reserved (account s who) `min` (v `min` (w - ExistentialDeposit)) in
  let left x := set_reserved (reserved (account s who) - x) (account s who) in
  bal_inv δ s → 0 < v <= u128_max →
  (account s who = default_data → Q (Ok (Neg 0, v)) s) →
  (ExistentialDeposit <= w → ExistentialDeposit <= w - x ∨ can_dec_provider s who = true → ∀ s',
   mutated who (left x) s s' → Q (Ok (Neg x, v - x)) s') →
  (ExistentialDeposit <= w → w - x < ExistentialDeposit → can_dec_provider s who = false → ∀ s1 s',
   squared w s s1 → mutated who (left x') s1 s' → Q (Ok (Neg x', v - x')) s') →
  wp (slash_reserved who v) Q s.
Proof.
  intros w x x' left Hinv Hv HQd HQ0 HQ1. acct_facts Hinv who.
  apply (wp_slash_any slash_reserved slash_reserved_attempt (slash_reserved_amount s who v) left δ); try done.
  - intros. apply (slash_reserved_attempt_spec δ); done || lia.
  - intros. subst left. cbn beta. rewrite worth_set_reserved. lia.
  - unfold slash_reserved_amount, worth. simpl. lia.
  - unfold slash_reserved_amount, worth. simpl. lia.
Qed.

(** ** Deposits and withdrawals *)

Lemma new_free_0 s who : is_new s who = true → free (account s who) = 0 ∧ worth (account s who) = 0.
Proof. intros Hn%is_new_default. by rewrite Hn. Qed.

Lemma alive_not_new s who : ExistentialDeposit <= worth (account s who) → is_new s who = false.
Proof. intros Hw. pose proof ed_pos. destruct (is_new s who) eqn:Hn; [|done]. apply new_free_0 in Hn. lia. Qed.

Lemma wp_deposit_into_existing δ who v s Q :
  let a := account s who in
  bal_inv δ s → 0 < v →
  (is_new s who = true → Q (Err (Module_ (BalancesE DeadAccount))) s) →
  (is_new s who = false → u128_max < free a + v → Q (Err (Arithmetic Overflow)) s) →
  (is_new s who = false → free a + v <= u128_max → ∀ s', mutated who (set_free (free a + v) a) s s' → Q (Ok (Pos v)) s') →
  wp (deposit_into_existing who v) Q s.
Proof.
  intros a Hinv Hv Hnew Hover HQ. unfold deposit_into_existing. rewrite (proj2 (Z.eqb_neq v 0)) by lia.
  apply wp_try_mutate_account; [apply Hinv|by eapply inv_TI|].
  apply wp_bind, wp_ensure; intros Hn; props; [|by apply Hnew].
  pose proof (not_new_alive _ _ _ Hinv Hn). apply wp_bind, wp_ok_or; [|intros ?; props; by apply Hover].
  intros f Hf. props. subst f. apply wp_bind, wp_emit. intros s1 Hq. apply wp_ret. split; [done|]. split; [by apply HQ|].
  intros Hlt. rewrite worth_set_free in Hlt. lia.
Qed.

Lemma wp_deposit_creating δ who v s Q :
  let a := account s who in
  bal_inv δ s → 0 < v <= u128_max →
  (is_new s who = true → v < ExistentialDeposit → Q (Ok (Pos 0)) s) →
  (u128_max < free a + v → ∀ s', mutated who a s s' → Q (Ok (Pos 0)) s') →
  (ExistentialDeposit <= worth a + v → free a + v <= u128_max → ∀ s', mutated who (set_free (free a + v) a) s s' → Q (Ok (Pos v)) s') →
  wp (deposit_creating who v) Q s.
Proof.
  intros a Hinv Hv Hnew Hover HQ. unfold deposit_creating. rewrite (proj2 (Z.eqb_neq v 0)) by lia.
  apply wp_bind, wp_attempt, wp_try_mutate_account; [apply Hinv|by eapply inv_TI|].
  assert (ExistentialDeposit <= v ∨ is_new s who = false → ExistentialDeposit <= worth a + v) as Hed.
  { intros [Hle|Hn]; [pose proof (worth_u _ _ who Hinv)|pose proof (not_new_alive _ _ _ Hinv Hn)]; subst a; lia. }
  apply wp_bind, wp_ensure; intros Hn; [|by props; apply wp_ret, Hnew].
  assert (ExistentialDeposit <= worth a + v) by (apply Hed; props; auto). clear Hed.
  destruct (checked_add 128 (free (account s who)) v) eqn:Hc; apply checked_add_Some in Hc as [-> Hc] || apply checked_add_None in Hc.
  - apply wp_bind, wp_emit. intros s1 Hq. apply wp_ret. split; [done|]. split; [intros; by apply wp_ret, HQ|].
    intros Hlt. rewrite worth_set_free in Hlt. subst a. lia.
  - apply wp_ret. split; [done|]. split; [intros; by apply wp_ret, Hover|].
    intros Hlt Hold. pose proof (not_new_alive _ _ _ Hinv Hold). lia.
Qed.

(** Withdrawing: the first failing check. *)
Definition withdraw_check (s : Store) (who : AccountId) (v : Balance) (reasons : Z) (liveness : ExistenceRequirement) : outcome DispatchError unit :=
  let a := account s who in
  if free a <? v then Err (Module_ (BalancesE InsufficientBalance))
  else if negb (bool_decide (liveness = AllowDeath)) && (worth a - v <? ExistentialDeposit) then Err (Module_ (BalancesE KeepAliveE))
  else if free a - v <? frozen a (reasons_from reasons) then Err (Module_ (BalancesE LiquidityRestrictions))
  else if (worth a - v <? ExistentialDeposit) && negb (can_dec_provider s who) then Err ConsumerRemaining
  else Ok tt.

Lemma wp_withdraw δ who v reasons liveness s Q :
  bal_inv δ s → 0 < v →
  (∀ e, withdraw_check s who v reasons liveness = Err e → e ≠ ConsumerRemaining → Q (Err e) s) →
  (withdraw_check s who v reasons liveness = Err ConsumerRemaining → ∀ s', squared (worth (account s who)) s s' → Q (Err ConsumerRemaining) s') →
  (withdraw_check s who v reasons liveness = Ok tt → ∀ s',
   mutated who (set_free (free (account s who) - v) (account s who)) s s' → Q (Ok (Neg v)) s') →
  wp (withdraw who v reasons liveness) Q s.
Proof.
  intros Hinv Hv HE HC HQ. unfold withdraw. rewrite (proj2 (Z.eqb_neq v 0)) by lia. acct_facts Hinv who.
  apply wp_try_mutate_account; [apply Hinv|by eapply inv_TI|].
  apply wp_bind, wp_ok_or; [intros nf [-> Hle]%checked_sub_Some|intros Hlt%checked_sub_None].
  2: { apply HE; [|done]. unfold withdraw_check. by rewrite (proj2 (Z.ltb_lt _ _) Hlt). }
  assert (ExistentialDeposit <= worth (account s who)) as Hal.
  { destruct (alive _ (inv_data _ _ Hinv who)) as [Hd|]; [|done]. rewrite Hd in *. simpl in *. lia. }
  pose proof (alive_not_new _ _ Hal) as Hn.
  apply wp_bind, wp_ensure; intros Hk; rewrite !add128_id in Hk by lia.
  2: { apply HE; [|done]. unfold withdraw_check, worth in *. clear HE HC HQ. by_cases. }
  apply wp_bind, wp_ensure_can_withdraw; [lia| |].
  2: { intros Hfr. apply HE; [|done]. unfold withdraw_check, worth in *. clear HE HC HQ. by_cases. }
  intros Hfr. apply wp_bind, wp_emit. intros s1 Hq. apply wp_ret. split; [done|]. split.
  - intros s' Hm. apply HQ; [|done]. pose proof (mu_can _ _ _ _ Hm) as Hcan. rewrite worth_set_free in Hcan.
    unfold withdraw_check. clear HE HC HQ. unfold worth in *. by_cases. all: rewrite Hcan in * by (done || lia); done.
  - intros Hlt _ Hcan s' Hs'. rewrite dust_dead, worth_set_free in Hs' by done. rewrite worth_set_free in Hlt.
    apply wp_drop_negative. simpl. intros s'' Hs''. simpl. apply HC.
    + unfold withdraw_check. clear HE HC HQ. unfold worth in *. rewrite Hcan. by_cases.
    + replace (worth (account s who)) with (worth (account s who) - free (account s who) + (free (account s who) - v) + v) by lia.
      unfold worth in *. eapply squared_trans; [lia..|done|done].
Qed.

(** [make_free_balance_be], and the imbalance it returns. *)
Definition signed (x : Z) : SignedImbalance := if 0 <=? x then Positive (Pos x) else Negative (Neg (- x)).

Lemma wp_make_free_balance_be δ who v s Q :
  bal_inv δ s → 0 <= v <= u128_max →
  (is_new s who = true → v < ExistentialDeposit → Q (Ok (signed 0)) s) →
  (is_new s who = false → v + reserved (account s who) < ExistentialDeposit → can_dec_provider s who = false → ∀ s',
   squared (worth (account s who)) s s' → Q (Ok (signed 0)) s') →
  (is_new s who = false ∨ ExistentialDeposit <= v → ∀ s',
   mutated who (set_free v (account s who)) s s' → Q (Ok (signed (v - free (account s who)))) s') →
  wp (make_free_balance_be who v) Q s.
Proof.
  intros Hinv Hv HN HC HQ. unfold make_free_balance_be. acct_facts Hinv who.
  apply wp_bind, wp_attempt, wp_try_mutate_account; [apply Hinv|by eapply inv_TI|].
  assert (is_new s who = true → reserved (account s who) = 0) as Hr by (intros Hn%is_new_default; by rewrite Hn).
  apply wp_bind, wp_ensure; intros Hk; unfold saturating_add in Hk; fold u128_max in Hk.
  2: { apply wp_ret, HN; arith. }
  apply wp_bind, wp_emit. intros s1 Hq. apply wp_ret. split; [done|].
  assert ((if free (account s who) <=? v then Positive (Pos (v ⊖ free (account s who))) else Negative (Neg (free (account s who) ⊖ v)))
          = signed (v - free (account s who))) as ->.
  { unfold signed. destruct (Z.leb_spec (free (account s who)) v).
    - rewrite (proj2 (Z.leb_le 0 _)), sub128_id by lia. done.
    - rewrite (proj2 (Z.leb_gt 0 _)), sub128_id by lia. do 2 f_equal. lia. }
  split.
  - intros s' Hm. apply wp_ret, HQ; [|done]. destruct (is_new s who) eqn:Hn; [right|by left]. rewrite Hr in Hk by done. arith.
  - intros Hlt Hn Hcan s' Hs'. rewrite dust_dead in Hs' by done. pose proof (not_new_alive _ _ _ Hinv Hn).
    rewrite worth_set_free in Hs', Hlt. unfold worth in *. unfold signed. rewrite (proj2 (Z.leb_gt 0 _)) by lia. unfold drop_value, drop_signed.
    apply wp_drop_negative. simpl. intros s'' Hs''. simpl. apply wp_ret, HC; [done|lia|done|].
    replace (free (account s who) + reserved (account s who)) with
      (free (account s who) + reserved (account s who) - free (account s who) + v + - (v - free (account s who))) by lia.
    eapply squared_trans; [lia..|done|done].
Qed.

(** ** Minting, burning and holds *)

(** The total issuance is mapped through [f], otherwise only events. *)
Record reissued (f : Balance → Balance) (s s' : Store) : Prop := {
  re_accounts : accounts s' = accounts s;
  re_bal : bal s' = with_issuance f (bal s);
  re_others : others s' = others s }.

Lemma wp_mutate_issuance f s (Q : outcome DispatchError unit → Store → Prop) :
  (∀ s', reissued f s s' → Q (Ok tt) s') → wp (mutate_issuance f) Q s.
Proof. intros HQ. unfold mutate_issuance. apply wp_modify, HQ. by split. Qed.

Lemma reissued_quiet f s s1 s2 : reissued f s s1 → quiet s1 s2 → reissued f s s2.
Proof. intros [] []. split; congruence. Qed.

Lemma wp_mint_into δ who v s Q :
  bal_inv δ s → 0 < v →
  (u128_max < TotalIssuance (bal s) + v ∨ u128_max < worth (account s who) + v → Q (Err (Arithmetic Overflow)) s) →
  (worth (account s who) + v < ExistentialDeposit → Q (Err (Token BelowMinimum)) s) →
  (ExistentialDeposit <= worth (account s who) + v → TotalIssuance (bal s) + v <= u128_max →
   worth (account s who) + v <= u128_max → ∀ s1 s',
   mutated who (set_free (free (account s who) + v) (account s who)) s s1 → reissued (λ t, t + v) s1 s' → Q (Ok tt) s') →
  wp (mint_into who v) Q s.
Proof.
  intros Hinv Hv HO HB HQ. unfold mint_into. rewrite (proj2 (Z.eqb_neq v 0)) by lia. acct_facts Hinv who.
  apply wp_bind, wp_try_mutate_account; [apply Hinv|by eapply inv_TI|]. apply wp_bind, wp_gets.
  unfold deposit_consequence. rewrite (proj2 (Z.eqb_neq v 0)), (total_worth _ _ _ Hinv) by lia. simpl.
  case_bool_decide as Hti; [apply checked_add_None in Hti; apply HO; by left|].
  destruct (checked_add 128 (worth (account s who)) v) as [nt|] eqn:Hnt; props; [|apply HO; by right].
  subst nt. destruct (Z.ltb_spec (worth (account s who) + v) ExistentialDeposit); [by apply HB|]. simpl.
  assert (TotalIssuance (bal s) + v <= u128_max) as Hti'.
  { destruct (Z.le_gt_cases (TotalIssuance (bal s) + v) u128_max) as [|Hgt]; [done|]. by apply checked_add_None in Hgt. }
  apply wp_bind, wp_ret, wp_ret. rewrite add128_id by (unfold worth in *; fold u128_max in *; lia). split; [done|]. split.
  - intros s1 Hm. apply wp_bind, wp_mutate_issuance. intros s2 Hr. apply wp_emit. intros s3 Hq. eapply HQ; [done..|].
    pose proof (reissued_quiet _ _ _ _ Hr Hq) as [? Hb ?]. split; [done| |done]. rewrite Hb. unfold with_issuance. f_equal.
    rewrite add128_id; [done|]. rewrite (mu_bal _ _ _ _ Hm). simpl. unfold dust. rewrite worth_set_free.
    rewrite (proj2 (Z.ltb_ge _ _)) by lia. unfold saturating_sub. pose proof (inv_TI _ _ Hinv). lia.
  - intros Hlt. rewrite worth_set_free in Hlt. lia.
Qed.

(** What a withdrawal of [v] takes beyond [v]: the dust. *)
Definition withdraw_extra (s : Store) (who : AccountId) (v : Balance) : Balance :=
  if worth (account s who) - v <? ExistentialDeposit then worth (account s who) - v else 0.

Lemma can_withdraw_result δ s who v :
  bal_inv δ s → 0 < v →
  (∃ e, ∀ s0, WithdrawConsequence.withdraw_into_result (can_withdraw s who v) s0 = (Err e, s0)) ∨
  ((∀ s0, WithdrawConsequence.withdraw_into_result (can_withdraw s who v) s0 = (Ok (withdraw_extra s who v), s0)) ∧
   v <= free (account s who) ∧ frozen (account s who) All <= free (account s who) - v ∧ v <= TotalIssuance (bal s) ∧
   (worth (account s who) - v < ExistentialDeposit → can_dec_provider s who = true)).
Proof.
  intros Hinv Hv. unfold can_withdraw, withdraw_consequence, withdraw_extra.
  rewrite (proj2 (Z.eqb_neq v 0)), (total_worth _ _ _ Hinv) by lia.
  destruct (checked_sub (TotalIssuance (bal s)) v) eqn:?; [|left; by eexists].
  destruct (checked_sub (worth (account s who)) v) eqn:?; [|left; by eexists]. props. subst.
  destruct ((worth (account s who) - v <? ExistentialDeposit) && negb (can_dec_provider s who)) eqn:Hd; [left; by eexists|].
  destruct (checked_sub (free (account s who)) v) eqn:?; [|left; by eexists].
  destruct (_ <? frozen _ _) eqn:?; [left; by eexists|]. right. apply andb_false_iff in Hd. rewrite negb_false_iff, Z.ltb_ge in Hd.
  props. subst. split; [by destruct (_ <? ExistentialDeposit)|]. repeat split; [done..|]. intros. destruct Hd; [lia|done].
Qed.

Lemma wp_burn_from δ who v s Q :
  bal_inv δ s → 0 <= δ → 0 < v → reserved (account s who) = 0 ∨ ExistentialDeposit <= worth (account s who) - v →
  let actual := v + withdraw_extra s who v in
  (∀ e, (∀ s0, WithdrawConsequence.withdraw_into_result (can_withdraw s who v) s0 = (Err e, s0)) → Q (Err e) s) →
  ((∀ s0, WithdrawConsequence.withdraw_into_result (can_withdraw s who v) s0 = (Ok (withdraw_extra s who v), s0)) → ∀ s1 s',
   mutated who (set_free (free (account s who) - actual) (account s who)) s s1 →
   reissued (λ t, t - actual) s1 s' → Q (Ok actual) s') →
  wp (burn_from who v) Q s.
Proof.
  intros Hinv Hδ Hv Hres actual HE HQ. unfold burn_from. rewrite (proj2 (Z.eqb_neq v 0)) by lia. acct_facts Hinv who.
  apply wp_bind, wp_try_mutate_account; [apply Hinv|by eapply inv_TI|]. apply wp_bind, wp_gets, wp_bind.
  fold (can_withdraw s who v). pose proof (inv_supply _ _ Hinv). pose proof (inv_issuance _ _ Hinv) as [? ?]. fold u128_max in *.
  destruct (can_withdraw_result _ s who v Hinv Hv) as [[e He]|(Hok & Hle & Hfr & Hti & Hcan)]; apply run_wp; intros r s0 Hr.
  { rewrite He in Hr. simplify_eq. by apply HE. }
  rewrite Hok in Hr. simplify_eq. apply wp_ret.
  assert (0 <= actual <= free (account s0 who) ∧ worth (set_free (free (account s0 who) - actual) (account s0 who)) = worth (account s0 who) - actual
    ∧ dust (set_free (free (account s0 who) - actual) (account s0 who)) = 0) as (Ha & Hw & Hdust).
  { rewrite worth_set_free. unfold dust. rewrite worth_set_free. subst actual. unfold withdraw_extra, worth in *. by_cases. }
  rewrite add128_id, (sub128_id (free _)) by (subst actual; lia). fold actual. split; [done|]. split.
  - intros s1 Hm. apply wp_bind, wp_mutate_issuance. intros s2 Hr. apply wp_bind, wp_emit. intros s3 Hq. apply wp_ret. eapply HQ; [done..|].
    pose proof (reissued_quiet _ _ _ _ Hr Hq) as [? Hb ?]. split; [done| |done]. rewrite Hb. unfold with_issuance. f_equal.
    rewrite (mu_bal _ _ _ _ Hm). simpl. rewrite Hdust. unfold saturating_sub. rewrite sub128_id by lia. done.
  - intros Hlt _ Hno. rewrite Hw in Hlt. subst actual. unfold withdraw_extra in *. rewrite Hcan in Hno; [done|].
    destruct (worth (account s0 who) - v <? ExistentialDeposit) eqn:?; arith.
Qed.

Lemma wp_release δ who v best_effort s Q :
  bal_inv δ s → 0 < v →
  let actual := v `min` reserved (account s who) in
  (best_effort = false → reserved (account s who) < v → Q (Err (Module_ (BalancesE InsufficientBalance))) s) →
  (best_effort = true ∨ v <= reserved (account s who) → ∀ s',
   mutated who (reserve_data (- actual) (account s who)) s s' → Q (Ok actual) s') →
  wp (release who v best_effort) Q s.
Proof.
  intros Hinv Hv actual HE HQ. unfold release. rewrite (proj2 (Z.eqb_neq v 0)) by lia. acct_facts Hinv who.
  apply wp_try_mutate_account; [apply Hinv|by eapply inv_TI|].
  rewrite saturating_add_id, sub128_id by (fold u128_max; lia).
  replace (free (account s who) + v `min` reserved (account s who) - free (account s who)) with actual by lia.
  apply wp_bind, wp_ensure; intros Hk; [|apply HE; subst actual; arith].
  apply wp_ret. rewrite saturating_sub_id by (simpl; lia). simpl. split; [done|]. split.
  - intros s' Hm. apply HQ; [destruct best_effort; [by left|right]; subst actual; arith|].
    eapply (eq_ind _ (λ d, mutated who d s s')); [exact Hm|]. unfold set_reserved, set_free, reserve_data. simpl. f_equal; lia.
  - intros Hlt Hn. pose proof (not_new_alive _ _ _ Hinv Hn). unfold worth in *. simpl in *. lia.
Qed.

Lemma wp_hold δ who v s Q :
  bal_inv δ s → 0 < v →
  (∀ e, reserve_check s who v = Err e → Q (Err (Module_ (BalancesE InsufficientBalance))) s) →
  (reserve_check s who v = Ok tt → ∀ s', mutated who (reserve_data v (account s who)) s s' → Q (Ok tt) s') →
  wp (hold who v) Q s.
Proof.
  intros Hinv Hv HE HQ. unfold hold, can_reserve. rewrite (proj2 (Z.eqb_neq v 0)) by lia. acct_facts Hinv who.
  apply wp_bind. apply wp_bind, wp_gets. unfold reserve_check in *.
  destruct (checked_sub (free (account s who)) v) as [nb|] eqn:Hc; props.
  2: { apply wp_ret, wp_bind. simpl. apply wp_throw. eapply HE. by rewrite (proj2 (Z.ltb_lt _ _)). }
  subst nb. rewrite (proj2 (Z.ltb_ge _ _)) in HE, HQ by done. apply wp_bind, wp_attempt, wp_ensure_can_withdraw; [lia|..]; simpl; intros Hfr.
  2: { apply wp_ret, wp_bind. simpl. apply wp_throw. eapply HE. by rewrite (proj2 (Z.ltb_lt _ _)). }
  rewrite (proj2 (Z.ltb_ge _ _)) in HE, HQ by done. apply wp_ret, wp_bind. simpl. apply wp_ret. unfold mutate_account.
  apply wp_try_mutate_account; [apply Hinv|by eapply inv_TI|]. apply wp_ret. simpl. rewrite sub128_id, add128_id by lia.
  split; [done|]. split; [by apply HQ|].
  intros Hlt Hn. pose proof (not_new_alive _ _ _ Hinv Hn). unfold worth in *. simpl in *. lia.
Qed.

End Currencies.
