(* ===== verification/NamedReserves.v ===== *)
(** Named reserves: the sorted list behind [Reserves] is searched by bisection and stands for a
    finite map from reserve identifiers to amounts. *)

From S2P Require Import Prelude Runtime System Balances Ledger Transfers Currencies.

(** ** Sorted lists of reserves *)

Definition by_id (a b : ReserveData) : Prop := reserve_id a < reserve_id b.
Abbreviation sorted := (StronglySorted by_id).

(** The map a list of reserves stands for. *)
Definition entry (d : ReserveData) : ReserveIdentifier * Balance := (reserve_id d, reserve_amount d).
Definition named_map (l : list ReserveData) : gmap ReserveIdentifier Balance := list_to_map (entry <$> l).

Lemma sorted_lookup l i j a b : sorted l → (i < j)%nat → l !! i = Some a → l !! j = Some b → reserve_id a < reserve_id b.
Proof.
  intros Hs Hij Hi Hj. rewrite <- (take_drop_middle l i a Hi) in Hs. apply StronglySorted_app in Hs as (Hc & _ & Hs).
  apply StronglySorted_inv in Hs as [_ Hall]. rewrite Forall_forall in Hall. apply Hall.
  apply list_elem_of_lookup. exists (j - S i)%nat. rewrite lookup_drop. by replace (S i + (j - S i))%nat with j by lia.
Qed.

(** ** Bisection *)

Definition found_at (l : list ReserveData) (id : ReserveIdentifier) (r : nat + nat) : Prop :=
  match r with
  | inl i => ∃ d, l !! i = Some d ∧ reserve_id d = id
  | inr i => (i <= length l)%nat ∧
      (∀ j d, (j < i)%nat → l !! j = Some d → reserve_id d < id) ∧
      (∀ j d, (i <= j)%nat → l !! j = Some d → id < reserve_id d)
  end.

Lemma binary_search_loop_spec l id fuel left right :
  sorted l → (left <= right <= length l)%nat → (right - left < fuel)%nat →
  (∀ j d, (j < left)%nat → l !! j = Some d → reserve_id d < id) →
  (∀ j d, (right <= j)%nat → l !! j = Some d → id < reserve_id d) →
  found_at l id (binary_search_loop fuel l id (right - left) left right).
Proof.
  intros Hs. revert left right. induction fuel as [|fuel IH]; intros left right Hlr Hfuel Hlo Hhi; [lia|]. cbn [binary_search_loop].
  destruct (Nat.ltb_spec left right) as [Hlt|Hge].
  2: { split; [lia|]. split; [done|]. intros j d Hj. apply Hhi. lia. }
  cbv zeta. set (mid := (left + (right - left) / 2)%nat).
  assert (left <= mid < right)%nat as Hmid.
  { subst mid. pose proof (Nat.div_lt (right - left) 2). lia. }
  destruct (lookup_lt_is_Some_2 l mid) as [d Hd]; [lia|]. rewrite Hd.
  destruct (Z.compare_spec (reserve_id d) id) as [He|Hl|Hg]; [by exists d|..].
  - apply IH; [lia..| |done]. intros j e Hj He. destruct (decide (j = mid)) as [->|]; [by simplify_eq|].
    pose proof (sorted_lookup _ j mid _ _ Hs ltac:(lia) He Hd). lia.
  - apply IH; [lia..|done|]. intros j e Hj He. destruct (decide (j = mid)) as [->|]; [by simplify_eq|].
    pose proof (sorted_lookup _ mid j _ _ Hs ltac:(lia) Hd He). lia.
Qed.

Lemma binary_search_spec l id : sorted l → found_at l id (binary_search_by_key l id).
Proof.
  intros Hs. unfold binary_search_by_key.
  pose proof (binary_search_loop_spec l id (S (length l)) 0 (length l) Hs) as Hb. rewrite Nat.sub_0_r in Hb.
  apply Hb; [lia|lia|lia|]. intros j d Hj Hd%lookup_lt_Some. lia.
Qed.

(** ** The list as a map *)

Lemma sorted_NoDup l : sorted l → NoDup (entry <$> l).*1.
Proof.
  rewrite <- list_fmap_compose. induction 1 as [|a l _ IH Hall]; simpl; constructor; [|done].
  intros (b & Hb & Hin)%list_elem_of_fmap. rewrite Forall_forall in Hall. specialize (Hall b Hin). unfold by_id in Hall. simpl in Hb. lia.
Qed.

Lemma named_map_middle l1 d l2 : sorted (l1 ++ d :: l2) → named_map (l1 ++ d :: l2) = <[reserve_id d := reserve_amount d]> (named_map (l1 ++ l2)).
Proof.
  intros Hs. unfold named_map. rewrite !fmap_app, fmap_cons.
  apply sorted_NoDup in Hs. rewrite fmap_app, fmap_cons in Hs.
  by rewrite (list_to_map_proper _ _ Hs (symmetry (Permutation_middle _ _ _))).
Qed.

Lemma named_map_lookup_None l id : (∀ d, d ∈ l → reserve_id d ≠ id) → named_map l !! id = None.
Proof.
  intros Hl. apply not_elem_of_list_to_map_1. rewrite <- list_fmap_compose. intros (d & Hid & Hin)%list_elem_of_fmap. by apply (Hl d).
Qed.

Lemma insert_middle {A} (l1 l2 : list A) x y : <[length l1 := y]> (l1 ++ x :: l2) = l1 ++ y :: l2.
Proof. by rewrite <- (Nat.add_0_r (length l1)), insert_app_r. Qed.

(** Splitting the list where the search ends. *)
Lemma search_split l id : sorted l →
  match binary_search_by_key l id with
  | inl i => ∃ l1 d l2, l = l1 ++ d :: l2 ∧ length l1 = i ∧ reserve_id d = id
  | inr i => ∃ l1 l2, l = l1 ++ l2 ∧ length l1 = i ∧ (∀ d, d ∈ l1 → reserve_id d < id) ∧ (∀ d, d ∈ l2 → id < reserve_id d)
  end.
Proof.
  intros Hs. pose proof (binary_search_spec l id Hs) as Hf. destruct (binary_search_by_key l id) as [i|i]; simpl in Hf.
  - destruct Hf as (d & Hd & Hid). exists (take i l), d, (drop (S i) l). rewrite take_drop_middle by done.
    apply lookup_lt_Some in Hd as Hlt. rewrite length_take. split; [done|]. split; [lia|done].
  - destruct Hf as (Hi & Hlo & Hhi). exists (take i l), (drop i l). rewrite take_drop, length_take. split; [done|]. split; [lia|]. split.
    + intros d (j & Hj)%list_elem_of_lookup. apply lookup_take_Some in Hj as [Hj ?]. by eapply Hlo.
    + intros d (j & Hj)%list_elem_of_lookup. rewrite lookup_drop in Hj. eapply Hhi; [|done]. lia.
Qed.

Lemma sorted_replace l1 d d' l2 : reserve_id d' = reserve_id d → sorted (l1 ++ d :: l2) → sorted (l1 ++ d' :: l2).
Proof.
  intros Hid. rewrite !StronglySorted_app. intros (Hc & H1 & H2). apply StronglySorted_inv in H2 as [H2 Hall].
  split; [|split; [done|constructor; [done|]]].
  - intros x y Hx [->|Hy]%elem_of_cons; [|apply Hc; [done|by right]]. unfold by_id. rewrite Hid. apply Hc; [done|by left].
  - unfold by_id in *. by rewrite Hid.
Qed.

Lemma sorted_insert l1 d l2 :
  (∀ x, x ∈ l1 → reserve_id x < reserve_id d) → (∀ x, x ∈ l2 → reserve_id d < reserve_id x) →
  sorted (l1 ++ l2) → sorted (l1 ++ d :: l2).
Proof.
  intros Hlo Hhi. rewrite !StronglySorted_app. intros (Hc & H1 & H2). split; [|split; [done|]].
  - intros x y Hx [->|Hy]%elem_of_cons; [by apply Hlo|by apply Hc].
  - constructor; [done|]. by apply Forall_forall.
Qed.

Lemma sorted_delete l1 d l2 : sorted (l1 ++ d :: l2) → sorted (l1 ++ l2).
Proof.
  rewrite !StronglySorted_app. intros (Hc & H1 & H2). apply StronglySorted_inv in H2 as [H2 _].
  split; [|done]. intros x y Hx Hy. apply Hc; [done|by right].
Qed.

Lemma middle_not_in l1 d l2 : sorted (l1 ++ d :: l2) → named_map (l1 ++ l2) !! reserve_id d = None.
Proof.
  intros (Hc & _ & H2)%StronglySorted_app. apply StronglySorted_inv in H2 as [_ Hall]. rewrite Forall_forall in Hall.
  apply named_map_lookup_None. intros x [Hx|Hx]%elem_of_app Hid.
  - specialize (Hc x d Hx ltac:(by left)). unfold by_id in Hc. lia.
  - specialize (Hall x Hx). unfold by_id in Hall. lia.
Qed.

Lemma named_balance l id : sorted l →
  (match binary_search_by_key l id with inl index => from_option reserve_amount 0 (l !! index) | inr _ => 0 end)
  = default 0 (named_map l !! id).
Proof.
  intros Hs. pose proof (search_split l id Hs) as Hf. destruct (binary_search_by_key l id) as [i|i].
  - destruct Hf as (l1 & d & l2 & -> & <- & <-). rewrite list_lookup_middle by done. simpl.
    by rewrite named_map_middle, lookup_insert_eq.
  - destruct Hf as (l1 & l2 & -> & <- & Hlo & Hhi). rewrite named_map_lookup_None; [done|].
    intros d [Hd|Hd]%elem_of_app; [specialize (Hlo d Hd)|specialize (Hhi d Hd)]; lia.
Qed.

(** ** The operations, against the map *)

Section Named.
  Context {cfg : BalancesConfig} {laws : BalancesLaws cfg}.

Definition named (s : Store) (who : AccountId) : gmap ReserveIdentifier Balance := named_map (reserves s who).

(** Writing a list of reserves does not touch accounts or issuance. *)
Lemma inv_with_reserves δ f s : bal_inv δ s → bal_inv δ (with_bal (with_reserves f) s).
Proof. by intros []. Qed.

Lemma put_reserves_reserves who l s : reserves (with_bal (with_reserves <[who := l]>) s) who = l.
Proof. unfold reserves. simpl. by rewrite lookup_insert_eq. Qed.

Lemma put_reserves_frame who l s k : k ≠ who → reserves (with_bal (with_reserves <[who := l]>) s) k = reserves s k.
Proof. intros Hk. unfold reserves. simpl. by rewrite lookup_insert_ne. Qed.

Lemma inv_reserve δ who v s s' :
  bal_inv δ s → 0 <= v → reserve_check s who v = Ok tt → mutated who (reserve_data v (account s who)) s s' → bal_inv δ s'.
Proof.
  intros Hinv Hv Hc Hm. pose proof (acct_bounds _ _ who Hinv) as (?&?&?&?&?&?). pose proof (inv_supply _ _ Hinv).
  pose proof (inv_issuance _ _ Hinv) as [? ?]. pose proof (inv_issued _ _ Hinv). pose proof ed_pos.
  assert (v <= free (account s who)) by (unfold reserve_check in Hc; repeat case_match; props; done).
  assert (dust (reserve_data v (account s who)) = 0) as Hd.
  { unfold dust. rewrite worth_reserve_data. destruct (alive _ (inv_data _ _ Hinv who)) as [Ha|Ha].
    - rewrite Ha. unfold worth. simpl. by case_match.
    - by rewrite (proj2 (Z.ltb_ge _ _) Ha). }
  eapply inv_mutated; [done..| | | | | | |]; rewrite ?worth_reserve_data; simpl; unfold is_u; fold u128_max; try lia.
Qed.

Lemma mutated_alive who a s s' : mutated who a s s' → ExistentialDeposit <= worth a → account s' who = a.
Proof. intros Hm Ha. rewrite (mu_account _ _ _ _ Hm). unfold survive. by rewrite (proj2 (Z.ltb_ge _ _) Ha). Qed.

Lemma mutated_reserves who a s s' k : mutated who a s s' → reserves s' k = reserves s k.
Proof. intros Hm. unfold reserves. by rewrite (mu_bal _ _ _ _ Hm). Qed.

Lemma reserve_alive δ who v s : bal_inv δ s → 0 < v → reserve_check s who v = Ok tt → ExistentialDeposit <= worth (account s who).
Proof.
  intros Hinv Hv Hc. destruct (alive _ (inv_data _ _ Hinv who)) as [Ha|]; [|done].
  unfold reserve_check in Hc. rewrite Ha in Hc. simpl in Hc. rewrite (proj2 (Z.ltb_lt _ _)) in Hc by lia. done.
Qed.

(** The updated list, and how it reads as a map. *)
Lemma wp_place_reserve l id v s (Q : outcome DispatchError (list ReserveData) → Store → Prop) :
  sorted l →
  (named_map l !! id = None → MaxReserves <= Z.of_nat (length l) → Q (Err (Module_ (BalancesE TooManyReserves))) s) →
  (∀ l', sorted l' → named_map l' = <[id := match named_map l !! id with Some x => saturating_add 128 x v | None => v end]> (named_map l) →
   Q (Ok l') s) →
  wp (match binary_search_by_key l id with
      | inl index =>
        let! d := unwrap (l !! index) in
        ret (<[index := set_amount (saturating_add 128 (reserve_amount d) v) d]> l)
      | inr index => try_insert l MaxReserves index (mkReserve id v) (Module_ (BalancesE TooManyReserves))
      end) Q s.
Proof.
  intros Hs HE HQ. pose proof (search_split l id Hs) as Hf. destruct (binary_search_by_key l id) as [i|i].
  - destruct Hf as (l1 & d & l2 & -> & <- & <-). rewrite list_lookup_middle by done. apply wp_bind, wp_ret, wp_ret.
    rewrite insert_middle. pose proof (middle_not_in _ _ _ Hs) as Hn.
    assert (sorted (l1 ++ set_amount (saturating_add 128 (reserve_amount d) v) d :: l2)) as Hs' by (by eapply sorted_replace, Hs).
    apply HQ; [done|]. rewrite !named_map_middle by done. simpl. by rewrite lookup_insert_eq, insert_insert_eq.
  - destruct Hf as (l1 & l2 & -> & <- & Hlo & Hhi).
    assert (named_map (l1 ++ l2) !! id = None) as Hn.
    { apply named_map_lookup_None. intros d [Hd|Hd]%elem_of_app; [specialize (Hlo d Hd)|specialize (Hhi d Hd)]; lia. }
    unfold try_insert. destruct (Z.ltb_spec (Z.of_nat (length (l1 ++ l2))) MaxReserves); [|by apply wp_throw, HE].
    rewrite (proj2 (Nat.leb_le _ _)) by (rewrite length_app; lia). rewrite take_app_length, drop_app_length. apply wp_ret.
    assert (sorted (l1 ++ mkReserve id v :: l2)) by (by apply sorted_insert).
    apply HQ; [done|]. rewrite named_map_middle by done. simpl. by rewrite Hn.
Qed.

Lemma wp_reserve_named δ id who v s Q :
  bal_inv δ s → sorted (reserves s who) → 0 < v →
  (named s who !! id = None → MaxReserves <= Z.of_nat (length (reserves s who)) → Q (Err (Module_ (BalancesE TooManyReserves))) s) →
  (∀ e, reserve_check s who v = Err e → Q (Err e) s) →
  (reserve_check s who v = Ok tt → ∀ s',
    bal_inv δ s' → account s' who = reserve_data v (account s who) → sorted (reserves s' who) →
    named s' who = <[id := match named s who !! id with Some x => saturating_add 128 x v | None => v end]> (named s who) →
    (∀ k, k ≠ who → account s' k = account s k ∧ reserves s' k = reserves s k) → Q (Ok tt) s') →
  wp (reserve_named id who v) Q s.
Proof.
  intros Hinv Hs Hv HT HE HQ. unfold reserve_named. rewrite (proj2 (Z.eqb_neq v 0)) by lia. apply wp_bind, wp_gets, wp_bind.
  apply wp_place_reserve; [done|done|]. intros l' Hs' Hl'.
  apply wp_bind. apply (wp_reserve δ); [done..|]. intros Hc s1 Hm. unfold put_reserves. apply wp_modify.
  pose proof (reserve_alive _ _ _ _ Hinv Hv Hc) as Ha.
  apply HQ; [done|by eapply inv_with_reserves, inv_reserve; [..|done|done]; [done|lia]| | | |].
  - change (account s1 who = reserve_data v (account s who)). apply (mutated_alive _ _ _ _ Hm). by rewrite worth_reserve_data.
  - by rewrite put_reserves_reserves.
  - unfold named. by rewrite put_reserves_reserves.
  - intros k Hk. rewrite put_reserves_frame by done. split; [|by eapply mutated_reserves].
    change (account s1 k = account s k). apply account_accounts. by apply (mu_frame _ _ _ _ Hm).
Qed.

Lemma inv_unreserve δ who v s s' :
  bal_inv δ s → 0 <= v <= reserved (account s who) → mutated who (reserve_data (- v) (account s who)) s s' → bal_inv δ s'.
Proof.
  intros Hinv Hv Hm. pose proof (acct_bounds _ _ who Hinv) as (?&?&?&?&?&?). pose proof (inv_supply _ _ Hinv).
  pose proof (inv_issuance _ _ Hinv) as [? ?]. pose proof (inv_issued _ _ Hinv).
  assert (dust (reserve_data (- v) (account s who)) = 0) as Hd.
  { unfold dust. rewrite worth_reserve_data. destruct (alive _ (inv_data _ _ Hinv who)) as [Ha|Ha].
    - rewrite Ha. unfold worth. simpl. by case_match.
    - by rewrite (proj2 (Z.ltb_ge _ _) Ha). }
  eapply inv_mutated; [done..| | | | | | |]; rewrite ?worth_reserve_data; simpl; unfold is_u; fold u128_max; try lia.
Qed.

Lemma reserve_data_0 a : reserve_data (- 0) a = a.
Proof. unfold reserve_data. destruct a; simpl. f_equal; lia. Qed.

(** [unreserve], with its no-op branches folded in. *)
Lemma wp_unreserve_all δ who v s Q :
  bal_inv δ s → 0 <= v <= u128_max →
  let actual := reserved (account s who) `min` v in
  (∀ s', bal_inv δ s' → account s' who = reserve_data (- actual) (account s who) → Reserves (bal s') = Reserves (bal s) →
   others s' = others s → (∀ k, k ≠ who → account s' k = account s k) → Q (Ok (v - actual)) s') →
  wp (unreserve who v) Q s.
Proof.
  intros Hinv Hv actual HQ. pose proof (acct_bounds _ _ who Hinv) as (?&?&?&?&?&?).
  apply (wp_unreserve δ); [done..| |].
  - fold actual. intros Ha _. replace v with (v - actual) by lia. apply HQ; try done. by rewrite Ha, reserve_data_0.
  - fold actual. intros s' Hm. apply HQ.
    + eapply inv_unreserve; [done| |done]. lia.
    + rewrite (mu_account _ _ _ _ Hm). unfold survive. rewrite worth_reserve_data. pose proof ed_pos.
      destruct (alive _ (inv_data _ _ Hinv who)) as [Ha|Ha].
      * assert (actual = 0) as -> by (subst actual; rewrite Ha; simpl; lia). rewrite reserve_data_0, Ha. by case_match.
      * by rewrite (proj2 (Z.ltb_ge _ _) Ha).
    + by rewrite (mu_bal _ _ _ _ Hm).
    + apply (mu_others _ _ _ _ Hm).
    + intros k Hk. apply account_accounts. by apply (mu_frame _ _ _ _ Hm).
Qed.

(** The map after [x] is left under [id]. *)
Definition leave_named (id : ReserveIdentifier) (x : Balance) (m : gmap ReserveIdentifier Balance) : gmap ReserveIdentifier Balance :=
  if x =? 0 then delete id m else <[id := x]> m.

(** Writing the list back, with the entry dropped when nothing is left of it. *)
Lemma wp_write_back l1 d l2 who x s (Q : outcome DispatchError unit → Store → Prop) :
  sorted (l1 ++ d :: l2) →
  (∀ f, let s' := with_bal (with_reserves f) s in
    sorted (reserves s' who) → named s' who = leave_named (reserve_id d) x (named_map (l1 ++ d :: l2)) →
    (∀ k, k ≠ who → reserves s' k = reserves s k) → Q (Ok tt) s') →
  wp (if x =? 0 then
        if (length (l1 ++ d :: l2) =? 1)%nat then modify (with_bal (with_reserves (delete who)))
        else put_reserves who (delete (length l1) (l1 ++ d :: l2))
      else put_reserves who (<[length l1 := set_amount x d]> (l1 ++ d :: l2))) Q s.
Proof.
  intros Hs HQ. pose proof (middle_not_in _ _ _ Hs) as Hn. unfold leave_named in HQ. rewrite named_map_middle in HQ by done.
  destruct (Z.eqb_spec x 0) as [->|Hx].
  - rewrite delete_insert_id in HQ by done. destruct (Nat.eqb_spec (length (l1 ++ d :: l2)) 1) as [Hlen|Hlen].
    + rewrite length_app in Hlen. simpl in Hlen. destruct l1, l2; simpl in *; try lia.
      apply wp_modify. apply HQ.
      * unfold reserves. simpl. rewrite lookup_delete_eq. constructor.
      * unfold named, reserves. simpl. by rewrite lookup_delete_eq.
      * intros k Hk. unfold reserves. simpl. by rewrite lookup_delete_ne.
    + apply wp_modify, HQ; rewrite ?delete_middle.
      * rewrite put_reserves_reserves. by eapply sorted_delete.
      * unfold named. by rewrite put_reserves_reserves.
      * intros. by apply put_reserves_frame.
  - rewrite insert_middle. assert (sorted (l1 ++ set_amount x d :: l2)) as Hs' by (by eapply sorted_replace, Hs).
    apply wp_modify, HQ.
    + by rewrite put_reserves_reserves.
    + unfold named. rewrite put_reserves_reserves, named_map_middle by done. simpl. by rewrite insert_insert_eq.
    + intros. by apply put_reserves_frame.
Qed.

Lemma wp_unreserve_named δ id who v s Q :
  bal_inv δ s → sorted (reserves s who) → 0 < v <= u128_max →
  (∀ x, named s who !! id = Some x → is_u128 x) →
  (named s who !! id = None → ∀ s', bal_inv δ s' → (∀ k, account s' k = account s k ∧ reserves s' k = reserves s k) → Q (Ok v) s') →
  (∀ x, named s who !! id = Some x → let actual := reserved (account s who) `min` (x `min` v) in ∀ s',
    bal_inv δ s' → account s' who = reserve_data (- actual) (account s who) → sorted (reserves s' who) →
    named s' who = leave_named id (x - actual) (named s who) →
    (∀ k, k ≠ who → account s' k = account s k ∧ reserves s' k = reserves s k) → Q (Ok (v - actual)) s') →
  wp (unreserve_named id who v) Q s.
Proof.
  intros Hinv Hs Hv Hx HN HQ. unfold unreserve_named. rewrite (proj2 (Z.eqb_neq v 0)) by lia. apply wp_bind, wp_gets.
  destruct (Reserves (bal s) !! who) as [l|] eqn:Hl.
  2: { apply wp_bind, wp_modify, wp_ret. apply HN; [unfold named, reserves; by rewrite Hl|by apply inv_with_reserves|].
    intros k. split; [done|]. unfold reserves. simpl. by rewrite delete_id. }
  assert (reserves s who = l) as Hlr by (unfold reserves; by rewrite Hl). unfold named in *. rewrite Hlr in *.
  pose proof (search_split l id Hs) as Hf. destruct (binary_search_by_key l id) as [i|i].
  2: { destruct Hf as (l1 & l2 & -> & <- & Hlo & Hhi). apply wp_bind, wp_modify, wp_ret. apply HN; [|by apply inv_with_reserves|].
    - apply named_map_lookup_None. intros d [Hd|Hd]%elem_of_app; [specialize (Hlo d Hd)|specialize (Hhi d Hd)]; lia.
    - intros k. split; [done|]. destruct (decide (k = who)) as [->|]; [by rewrite put_reserves_reserves|by rewrite put_reserves_frame]. }
  destruct Hf as (l1 & d & l2 & -> & <- & <-). rewrite list_lookup_middle by done. apply wp_bind, wp_ret.
  assert (named_map (l1 ++ d :: l2) !! reserve_id d = Some (reserve_amount d)) as Hd by (by rewrite named_map_middle, lookup_insert_eq).
  specialize (HQ _ Hd). specialize (Hx _ Hd) as [Hx0 Hx1].
  fold u128_max in Hx1. pose proof (acct_bounds _ _ who Hinv) as (?&?&?&?&?&?).
  apply wp_bind. apply (wp_unreserve_all δ); [done|lia|]. intros s1 Hinv1 Ha1 Hr1 _ Hf1. set (actual := reserved _ `min` _) in *.
  rewrite saturating_sub_id by lia. replace (reserve_amount d `min` v - (reserve_amount d `min` v - actual)) with actual by lia.
  rewrite !sub128_id by lia. apply wp_bind, wp_write_back; [done|]. intros f s' Hs' Hn' Hf'. apply wp_ret.
  assert (∀ k, reserves s1 k = reserves s k) as Hr1' by (intros k; unfold reserves; by rewrite Hr1).
  apply HQ; [by apply inv_with_reserves|done..|]. intros k Hk. split; [by apply Hf1|]. by rewrite Hf', Hr1'.
Qed.
End Named.
