(* ===== verification/Locking.v ===== *)
(** Locks: the frozen amounts of an account are the maxima of its locks, the list of locks
    stands for a map from lock identifiers, and the pallet holds one consumer reference on an
    account with locks. *)

From S2P Require Import Prelude Runtime System Balances Ledger Transfers Currencies.

(** ** Frozen amounts *)

Definition freezes_misc (r : Reasons) : bool := match r with All | Misc => true | Fee => false end.
Definition freezes_fee (r : Reasons) : bool := match r with All | Fee => true | Misc => false end.

(** The largest amount of the locks with the given reasons. *)
Fixpoint lock_max (sel : Reasons → bool) (l : list BalanceLock) : Balance :=
  match l with
  | [] => 0
  | x :: l => if sel (lock_reasons x) then lock_amount x `max` lock_max sel l else lock_max sel l
  end.

Lemma lock_max_nonneg sel l : 0 <= lock_max sel l.
Proof. induction l; simpl; [lia|]. case_match; lia. Qed.

Lemma lock_max_ge sel l x : x ∈ l → sel (lock_reasons x) = true → lock_amount x <= lock_max sel l.
Proof.
  induction l as [|y l IH]; intros Hx Hs; [by apply elem_of_nil in Hx|]. simpl. apply elem_of_cons in Hx as [->|Hx].
  - rewrite Hs. lia.
  - specialize (IH Hx Hs). case_match; lia.
Qed.

Lemma lock_max_le sel l m : 0 <= m → Forall (λ x, lock_amount x <= m) l → lock_max sel l <= m.
Proof. intros Hm. induction 1; simpl; [lia|]. case_match; lia. Qed.

Lemma freeze_fold l b : 0 <= misc_frozen b → 0 <= fee_frozen b →
  fold_left (λ b x, freeze_by x b) l b =
  mkData (free b) (reserved b) (misc_frozen b `max` lock_max freezes_misc l) (fee_frozen b `max` lock_max freezes_fee l).
Proof.
  revert b. induction l as [|x l IH]; intros b Hm Hf; simpl; [destruct b; simpl in *; f_equal; lia|].
  pose proof (lock_max_nonneg freezes_misc l). pose proof (lock_max_nonneg freezes_fee l).
  rewrite IH; unfold freeze_by; destruct (lock_reasons x); simpl; try lia; f_equal; lia.
Qed.

Lemma freeze_all_spec l b :
  freeze_all l b = mkData (free b) (reserved b) (lock_max freezes_misc l) (lock_max freezes_fee l).
Proof.
  unfold freeze_all. rewrite freeze_fold by (simpl; lia). simpl.
  pose proof (lock_max_nonneg freezes_misc l). pose proof (lock_max_nonneg freezes_fee l). f_equal; lia.
Qed.

(** ** The list of locks as a map *)

Definition lock_map (l : list BalanceLock) : gmap LockIdentifier BalanceLock := list_to_map ((λ x, (lock_id x, x)) <$> l).
Definition distinct (l : list BalanceLock) : Prop := NoDup (lock_id <$> l).

Lemma lock_map_None l id : lock_map l !! id = None ↔ id ∉ lock_id <$> l.
Proof.
  unfold lock_map. assert (lock_id <$> l = ((λ x, (lock_id x, x)) <$> l).*1) as -> by (by rewrite <- list_fmap_compose).
  symmetry. apply not_elem_of_list_to_map.
Qed.

Lemma lock_map_cons x l : lock_map (x :: l) = <[lock_id x := x]> (lock_map l).
Proof. done. Qed.

Lemma lock_map_snoc x l : distinct (l ++ [x]) → lock_map (l ++ [x]) = <[lock_id x := x]> (lock_map l).
Proof.
  intros Hd. rewrite <- lock_map_cons. unfold lock_map. apply list_to_map_proper.
  - unfold distinct in Hd. by rewrite <- list_fmap_compose.
  - apply Permutation_map, symmetry, Permutation_cons_append.
Qed.

(** A list that mentions the id at most once goes through [take_lock] as a map update. *)
Lemma take_lock_None upd id l : id ∉ lock_id <$> l → ∀ new, take_lock upd id new l = (l, new).
Proof.
  induction l as [|x l IH]; intros Hid new; simpl; [done|]. rewrite fmap_cons, not_elem_of_cons in Hid. destruct Hid as [Hx Hl].
  rewrite (proj2 (Z.eqb_neq _ _)) by congruence. by rewrite IH.
Qed.

Lemma take_lock_Some upd id nl l x :
  distinct l → lock_map l !! id = Some x → lock_id (upd x nl) = id →
  ∃ l', take_lock upd id (Some nl) l = (l', None) ∧ lock_id <$> l' = lock_id <$> l ∧ lock_map l' = <[id := upd x nl]> (lock_map l).
Proof.
  unfold distinct. induction l as [|y l IH]; intros Hd Hx Hu; simpl in *; [done|]. apply NoDup_cons in Hd as [Hy Hd].
  rewrite lock_map_cons in *. destruct (Z.eqb_spec (lock_id y) id) as [<-|Hne].
  - rewrite lookup_insert_eq in Hx. simplify_eq. rewrite take_lock_None by done. exists (upd x nl :: l). split; [done|].
    rewrite fmap_cons, Hu. split; [done|]. by rewrite lock_map_cons, Hu, insert_insert_eq.
  - rewrite lookup_insert_ne in Hx by done. destruct (IH Hd Hx Hu) as (l' & -> & Hids & Hm). exists (y :: l'). split; [done|].
    rewrite !fmap_cons, Hids. split; [done|]. by rewrite lock_map_cons, Hm, insert_insert_ne.
Qed.

(** [place_lock] updates the map at the id of the new lock and keeps the ids distinct. *)
Lemma place_lock_spec upd nl l :
  distinct l → (∀ x, lock_id x = lock_id nl → lock_id (upd x nl) = lock_id nl) →
  distinct (place_lock upd nl l) ∧
  lock_map (place_lock upd nl l) = <[lock_id nl := from_option (λ x, upd x nl) nl (lock_map l !! lock_id nl)]> (lock_map l).
Proof.
  intros Hd Hu. unfold place_lock. destruct (lock_map l !! lock_id nl) as [x|] eqn:Hx; simpl.
  - assert (lock_id x = lock_id nl) as Hid.
    { apply elem_of_list_to_map_2, list_elem_of_fmap in Hx as (y & Hy & _). by simplify_eq. }
    destruct (take_lock_Some upd (lock_id nl) nl l x Hd Hx (Hu _ Hid)) as (l' & -> & Hids & Hm). unfold distinct. by rewrite Hids.
  - apply lock_map_None in Hx. rewrite take_lock_None by done.
    assert (distinct (l ++ [nl])) as Hd'.
    { unfold distinct in *. rewrite fmap_app. apply NoDup_app. split; [done|]. split; [|apply NoDup_singleton].
      intros i Hi [->|Hn]%elem_of_cons; [done|by apply elem_of_nil in Hn]. }
    split; [done|]. by apply lock_map_snoc.
Qed.

(** [set_lock] puts the new lock in the list and keeps amounts within bounds. *)
Lemma take_lock_members id new l : let '(r, rest) := take_lock (λ _ nl, nl) id new l in
  (∀ x, x ∈ r → x ∈ l ∨ Some x = new) ∧ (∀ nl, new = Some nl → nl ∈ r ∨ rest = Some nl) ∧ (rest = None ∨ rest = new).
Proof.
  revert new. induction l as [|y l IH]; intros new; simpl; [set_solver|]. destruct (lock_id y =? id).
  - specialize (IH None). destruct (take_lock _ id None l) as [r rest]. destruct IH as (IH1 & _ & IH3). destruct new; set_solver.
  - specialize (IH new). destruct (take_lock _ id new l) as [r rest]. set_solver.
Qed.

Lemma place_lock_in nl l : nl ∈ place_lock (λ _ nl, nl) nl l.
Proof.
  unfold place_lock. pose proof (take_lock_members (lock_id nl) (Some nl) l) as Hm. destruct (take_lock _ _ _ _) as [r rest].
  destruct Hm as (_ & Hm & _). destruct (Hm nl eq_refl) as [Hin| ->]; [|set_solver]. destruct rest; set_solver.
Qed.

Lemma place_lock_amounts nl l m :
  lock_amount nl <= m → Forall (λ x, lock_amount x <= m) l → Forall (λ x, lock_amount x <= m) (place_lock (λ _ nl, nl) nl l).
Proof.
  rewrite !Forall_forall. intros Hnl Hl x Hx. unfold place_lock in Hx. pose proof (take_lock_members (lock_id nl) (Some nl) l) as Hm.
  destruct (take_lock _ _ _ _) as [r rest]. destruct Hm as (Hr & _ & Hrest).
  assert (x ∈ r ∨ x = nl) as [Hin| ->]; [|destruct (Hr x Hin) as [|[= ->]]; auto|done].
  destruct rest; [|by left]. apply elem_of_app in Hx as [|Hx]; [by left|]. right. destruct Hrest; set_solver.
Qed.

Lemma remove_lock_spec id l : distinct l →
  distinct (filter (λ x, lock_id x ≠ id) l) ∧ lock_map (filter (λ x, lock_id x ≠ id) l) = delete id (lock_map l).
Proof.
  unfold distinct. induction l as [|x l IH]; intros Hd; [split; [constructor|]; unfold lock_map; simpl; by rewrite delete_empty|].
  apply NoDup_cons in Hd as [Hx Hd]. destruct (IH Hd) as [Hd' Hm]. rewrite lock_map_cons, filter_cons.
  destruct (decide (lock_id x ≠ id)) as [Hne|He].
  - rewrite fmap_cons, lock_map_cons, Hm. split; [|by rewrite delete_insert_ne].
    constructor; [|done]. intros (y & Hy & Hin)%list_elem_of_fmap. apply list_elem_of_filter in Hin as [_ Hin]. apply Hx. rewrite Hy. by apply list_elem_of_fmap_2.
  - apply dec_stable in He. subst. split; [done|]. rewrite Hm, delete_insert_eq. done.
Qed.

(** ** [update_locks] *)

Section Locking.
  Context {cfg : BalancesConfig} {laws : BalancesLaws cfg}.

Lemma inv_with_locks δ f s : bal_inv δ s → bal_inv δ (with_bal (with_locks f) s).
Proof. by intros []. Qed.

(** Reference counts are not part of the books. *)
Lemma inv_touch δ who s s' :
  bal_inv δ s → touches who s s' → account s' who = account s who →
  refs_ok (info s' who) → provided (info s' who) → bal_inv δ s'.
Proof.
  intros Hinv Ht Ha Hr Hp. pose proof (issued_update _ _ who (proj2 Ht)) as Hi. rewrite Ha in Hi.
  pose proof (rest_bal _ _ (proj1 Ht)) as Hb. destruct Hinv as [Hs Hd Hsu Hti Hm]. split; rewrite ?Hb; try done; try lia.
  - by eapply sys_ok_touch.
  - intros k. destruct (decide (k = who)) as [->|Hne]; [by rewrite Ha|]. rewrite (account_accounts s s'); [done|by apply Ht].
Qed.

Lemma wp_dec_consumers δ who s Q :
  bal_inv δ s →
  (∀ s', bal_inv δ s' → touches who s s' → account s' who = account s who →
   consumers (info s' who) = (consumers (info s who) - 1) `max` 0 → providers (info s' who) = providers (info s who) → Q (Ok tt) s') →
  wp (dec_consumers who) Q s.
Proof.
  intros Hinv HQ. unfold dec_consumers, account_get, account_put. wp_steps.
  destruct (info_refs s who (sys_ok_refs _ (inv_sys _ _ Hinv))) as [Hp Hc Hsu Hcp]. pose proof (info_provided s who (inv_sys _ _ Hinv)) as Hpr.
  set (i := if 0 <? consumers (info s who) then _ else _).
  assert (data i = data (info s who) ∧ providers i = providers (info s who) ∧ consumers i = (consumers (info s who) - 1) `max` 0 ∧ sufficients i = sufficients (info s who)) as (Hd & Hpi & Hci & Hsi).
  { subst i. unfold is_u in *. destruct (Z.ltb_spec 0 (consumers (info s who))); simpl; repeat split; lia. }
  assert (account (put_account who i s) who = account s who) as Ha by (unfold account, stored_get; by rewrite info_put_eq).
  apply HQ; [|apply touches_put|done|by rewrite info_put_eq|by rewrite info_put_eq].
  eapply inv_touch; [done|apply touches_put|done|..]; rewrite info_put_eq.
  - split; rewrite ?Hpi, ?Hci, ?Hsi; try done; unfold is_u in *; [lia|]. intros. apply Hcp. lia.
  - unfold provided in *. by rewrite Hd, Hpi.
Qed.

Lemma wp_inc_consumers δ who s Q :
  bal_inv δ s →
  (providers (info s who) = 0 → Q (Err NoProviders) s) →
  (∀ s', bal_inv δ s' → touches who s s' → account s' who = account s who →
   consumers (info s' who) = (consumers (info s who) + 1) `min` u32_max → providers (info s' who) = providers (info s who) → Q (Ok tt) s') →
  wp (inc_consumers_without_limit who) Q s.
Proof.
  intros Hinv HE HQ. unfold inc_consumers_without_limit, account_get, account_put. wp_steps.
  destruct (info_refs s who (sys_ok_refs _ (inv_sys _ _ Hinv))) as [Hp Hc Hsu Hcp]. pose proof (info_provided s who (inv_sys _ _ Hinv)) as Hpr.
  destruct (Z.ltb_spec 0 (providers (info s who))) as [Hlt|Hge]; [|apply wp_throw, HE; unfold is_u in *; lia].
  apply wp_modify. set (i := set_consumers _ _).
  assert (account (put_account who i s) who = account s who) as Ha by (unfold account, stored_get; by rewrite info_put_eq).
  apply HQ; [|apply touches_put|done|by rewrite info_put_eq|by rewrite info_put_eq].
  eapply inv_touch; [done|apply touches_put|done|..]; rewrite info_put_eq.
  - unfold is_u in *. split; simpl; try done; unfold is_u, saturating_add; lia.
  - done.
Qed.

(** The data of [who] under the locks [l]; locks on an account that does not exist freeze
    nothing. *)
Definition locked_data (s : Store) (who : AccountId) (l : list BalanceLock) : AccountData :=
  if is_new s who then default_data
  else mkData (free (account s who)) (reserved (account s who)) (lock_max freezes_misc l) (lock_max freezes_fee l).

Lemma wp_freeze δ who l s Q :
  bal_inv δ s → Forall (λ x, lock_amount x <= u128_max) l →
  (∀ s', bal_inv δ s' → account s' who = locked_data s who l → rest s' = rest s →
    consumers (info s' who) = consumers (info s who) → (is_new s who = false → 1 <= providers (info s' who)) → (sole s who → sole s' who) →
    (∀ k, k ≠ who → accounts s' !! k = accounts s !! k) → Q (Ok tt) s') →
  wp (mutate_account who (λ b, ret (tt, freeze_all l b))) Q s.
Proof.
  intros Hinv Hl HQ. pose proof (acct_bounds _ _ who Hinv) as (?&?&?&?&?&?). pose proof ed_pos. pose proof (inv_issued _ _ Hinv).
  pose proof (lock_max_nonneg freezes_misc l). pose proof (lock_max_nonneg freezes_fee l). pose proof u128_max_pos.
  pose proof (lock_max_le freezes_misc l u128_max ltac:(lia) Hl). pose proof (lock_max_le freezes_fee l u128_max ltac:(lia) Hl).
  unfold mutate_account. apply wp_try_mutate_account; [apply Hinv|by eapply inv_TI|]. apply wp_ret. rewrite freeze_all_spec.
  set (a := mkData _ _ _ _). assert (worth a = worth (account s who)) as Hw by done. split; [done|]. split.
  - intros s' Hm.
    assert (dust a = 0 ∧ survive a = locked_data s who l ∧ (is_new s who = false → ExistentialDeposit <= worth a)) as (Hd & Hs & Hp).
    { unfold dust, survive, locked_data. rewrite Hw. destruct (is_new s who) eqn:Hn.
      - apply new_free_0 in Hn as [_ ->]. by rewrite (proj2 (Z.ltb_lt _ _)).
      - pose proof (not_new_alive _ _ _ Hinv Hn). by rewrite (proj2 (Z.ltb_ge _ _)). }
    apply HQ.
    + eapply inv_mutated; [done..| | | | | | |]; rewrite ?Hw, ?Hd; simpl; unfold is_u; fold u128_max; try lia. by eapply inv_TI.
    + by rewrite (mu_account _ _ _ _ Hm).
    + unfold rest. rewrite (mu_others _ _ _ _ Hm), (mu_bal _ _ _ _ Hm), Hd. unfold with_issuance, saturating_sub.
      pose proof (inv_TI _ _ Hinv). rewrite Z.max_l, Z.sub_0_r by lia. by destruct (bal s).
    + apply (mu_consumers _ _ _ _ Hm).
    + intros Hn. apply (mu_providers _ _ _ _ Hm). by apply Hp.
    + apply (mu_sole _ _ _ _ Hm).
    + apply (mu_frame _ _ _ _ Hm).
  - intros Hlt Hn. rewrite Hw in Hlt. pose proof (not_new_alive _ _ _ Hinv Hn). lia.
Qed.

Definition has_locks (s : Store) (who : AccountId) : bool := bool_decide (is_Some (Locks (bal s) !! who)).

(** The consumer references of an existing account after its locks became [l]. *)
Definition lock_consumers (s : Store) (who : AccountId) (l : list BalanceLock) : Z :=
  let c := consumers (info s who) in
  match l, has_locks s who with
  | [], true => (c - 1) `max` 0
  | [], false | _ :: _, true => c
  | _ :: _, false => (c + 1) `min` u32_max
  end.

Record relocked (δ : Z) (who : AccountId) (l : list BalanceLock) (s s' : Store) : Prop := {
  rl_inv : bal_inv δ s';
  rl_account : account s' who = locked_data s who l;
  rl_locks : locks s' who = l;
  rl_has : has_locks s' who = negb (bool_decide (l = []));
  rl_consumers : is_new s who = false → consumers (info s' who) = lock_consumers s who l;
  rl_sole : sole s who → sole s' who;
  rl_frame : ∀ k, k ≠ who → accounts s' !! k = accounts s !! k ∧ Locks (bal s') !! k = Locks (bal s) !! k;
  rl_reserves : Reserves (bal s') = Reserves (bal s);
  rl_issuance : TotalIssuance (bal s') = TotalIssuance (bal s);
  rl_others : others s' = others s }.

Lemma wp_update_locks δ who l s Q :
  bal_inv δ s → Forall (λ x, lock_amount x <= u128_max) l →
  (∀ s', relocked δ who l s s' → Q (Ok tt) s') → wp (update_locks who l) Q s.
Proof.
  intros Hinv Hl HQ. unfold update_locks. apply wp_bind, wp_attempt. apply (wp_freeze δ); [done..|].
  intros s1 Hinv1 Ha1 Hr1 Hc1 Hp1 Hs1 Hf1. pose proof (rest_bal _ _ Hr1) as Hb1. apply wp_bind, wp_gets. rewrite Hb1. fold (has_locks s who).
  set (f := match l with [] => delete who | _ => <[who := l]> end : gmap AccountId (list BalanceLock) → _).
  set (s2 := with_bal (with_locks f) s1).
  assert (∀ s', bal_inv δ s' → touches who s2 s' → account s' who = account s2 who →
            (is_new s who = false → consumers (info s' who) = lock_consumers s who l) → providers (info s' who) = providers (info s1 who) → relocked δ who l s s') as Hrl.
  { intros s' Hinv' Ht Ha Hc Hpv. pose proof (rest_bal _ _ (proj1 Ht)) as Hb. split; try done.
    - rewrite Ha. exact Ha1.
    - unfold locks. rewrite Hb. subst s2 f. simpl. destruct l; [by rewrite lookup_delete_eq|by rewrite lookup_insert_eq].
    - unfold has_locks. rewrite Hb. subst s2 f. simpl. destruct l; [by rewrite lookup_delete_eq|by rewrite lookup_insert_eq].
    - intros Hs%Hs1. unfold sole in *. rewrite Hpv. change (account s' who = account s1 who) in Ha. unfold account in Ha. by rewrite Ha.
    - intros k Hk. split; [by rewrite (proj2 Ht k Hk), <- Hf1|].
      rewrite Hb, <- Hb1. subst s2 f. simpl. destruct l; [by rewrite lookup_delete_ne|by rewrite lookup_insert_ne].
    - rewrite Hb, <- Hb1. done.
    - rewrite Hb, <- Hb1. done.
    - rewrite (rest_others _ _ (proj1 Ht)). apply (rest_others _ _ Hr1). }
  assert (bal_inv δ s2) as Hinv2 by (by apply inv_with_locks).
  unfold lock_consumers in Hrl. destruct l as [|x l].
  - apply wp_bind, wp_modify. destruct (has_locks s who).
    + apply (wp_dec_consumers δ); [done|]. intros s' Hinv' Ht Ha Hc Hpv. apply HQ, Hrl; [done..| |done]. intros _. by rewrite Hc, <- Hc1.
    + by apply wp_ret, HQ, Hrl.
  - apply wp_bind, wp_modify. destruct (has_locks s who).
    + by apply wp_ret, HQ, Hrl.
    + apply wp_bind, wp_attempt. apply (wp_inc_consumers δ); [done|..].
      * intros Hp. apply wp_ret, HQ, Hrl; try done. intros Hn. specialize (Hp1 Hn). change (providers (info s1 who) = 0) in Hp. lia.
      * intros s' Hinv' Ht Ha Hc Hpv. apply wp_ret, HQ, Hrl; [done..| |done]. intros _. by rewrite Hc, <- Hc1.
Qed.
End Locking.
