(* ===== verification/Indices.v ===== *)
(** [pallet_indices] ([frame/indices/src/lib.rs]): short indices for accounts, against a
    deposit.  The pallet is a client of the [ReservableCurrency] trait: its theorems are proved
    from the laws of that interface, which [pallet_balances] discharges in [IndicesOnBalances]. *)

From S2P Require Import Prelude Runtime System.

(** ** The currency interface *)

(** The part of [ReservableCurrency] that the pallet uses. *)
Class ReservableCurrency := {
  rc_imbalance : Type;
  rc_drop :: Drop rc_imbalance;
  rc_minimum_balance : Balance;
  rc_reserve : AccountId → Balance → Run unit;
  rc_unreserve : AccountId → Balance → Run Balance;
  rc_slash_reserved : AccountId → Balance → Run (rc_imbalance * Balance);
  rc_repatriate_reserved : AccountId → AccountId → Balance → BalanceStatus → Run Balance }.

(** [held s' k] is [x], or the account was reaped because less than the minimum balance would
    have been left. *)
Definition left_or_reaped (min x x' : Balance) : Prop := x' = x ∨ (x' = 0 ∧ x < min).

(** What the pallet relies on: amounts on hold, [held], move as the documentation of the trait
    says, and the indices are left alone. *)
Class ReservableLaws (C : ReservableCurrency) := {
  rc_ok : Store → Prop;
  held : Store → AccountId → Balance;
  held_nonneg s who : rc_ok s → 0 <= held s who;
  rc_ok_indices f s : rc_ok s → rc_ok (with_indices f s);
  held_indices f s who : held (with_indices f s) who = held s who;
  rc_ok_event e s : rc_ok s → rc_ok (deposit e s);
  held_event e s who : held (deposit e s) who = held s who;
  reserve_law s who v : rc_ok s → 0 <= v <= u128_max →
    wp (rc_reserve who v) (λ r s', match r with
      | Ok _ => rc_ok s' ∧ indices s' = indices s ∧ held s' who = held s who + v ∧ ∀ k, k ≠ who → held s' k = held s k
      | Err _ => s' = s
      | Panic => False end) s;
  unreserve_law s who v : rc_ok s → 0 <= v <= u128_max →
    wp (rc_unreserve who v) (λ r s', match r with
      | Ok rem => rc_ok s' ∧ indices s' = indices s ∧ rem = v - held s who `min` v ∧
          held s' who = held s who - held s who `min` v ∧ ∀ k, k ≠ who → held s' k = held s k
      | _ => False end) s;
  slash_reserved_law s who v : rc_ok s → 0 <= v <= u128_max →
    wp (let! r := rc_slash_reserved who v in do! drop_value r.1 in ret r.2) (λ r s', match r with
      | Ok rem => rc_ok s' ∧ indices s' = indices s ∧ 0 <= rem <= v ∧
          left_or_reaped rc_minimum_balance (held s who - (held s who `min` (v - rem))) (held s' who) ∧
          ∀ k, k ≠ who → held s' k = held s k
      | _ => False end) s;
  repatriate_law s slashed beneficiary v : rc_ok s → 0 <= v <= u128_max → slashed ≠ beneficiary →
    wp (rc_repatriate_reserved slashed beneficiary v Reserved) (λ r s', match r with
      | Ok lost => rc_ok s' ∧ indices s' = indices s ∧ lost = v - held s slashed `min` v ∧
          left_or_reaped rc_minimum_balance (held s slashed - held s slashed `min` v) (held s' slashed) ∧
          held s' beneficiary = held s beneficiary + held s slashed `min` v ∧
          ∀ k, k ≠ slashed → k ≠ beneficiary → held s' k = held s k
      | Err _ => True
      | Panic => False end) s }.

(** ** Addresses *)

Inductive MultiAddress :=
| Id (who : AccountId)
| Index (index : Z)
| Raw (bytes : Bytes)
| Address32 (bytes : Bytes)
| Address20 (bytes : Bytes).

Definition lookup_index (s : Store) (index : Z) : option AccountId := (λ x, x.1.1) <$> indices s !! index.
Definition lookup_address (s : Store) (a : MultiAddress) : option AccountId :=
  match a with
  | Id i => Some i
  | Index i => lookup_index s i
  | _ => None
  end.
(** [StaticLookup::lookup]; a [LookupError] becomes [CannotLookup]. *)
Definition lookup (a : MultiAddress) : Run AccountId :=
  let! r := gets (λ s, lookup_address s a) in ok_or r CannotLookup.
Definition unlookup (who : AccountId) : MultiAddress := Id who.

(** ** The pallet *)

Section Pallet.
  Context {C : ReservableCurrency} (Deposit_ : Balance).

Definition indices_emit (e : IndicesEvent) : Run unit := deposit_event (EIndices e).
Definition indices_error (e : IndicesError) : DispatchError := Module_ (IndicesE e).

(** [Accounts::try_mutate]: the entry is written back only on [Ok]. *)
Definition accounts_try_mutate (index : Z) (f : option (AccountId * Balance * bool) → Run (option (AccountId * Balance * bool))) : Run unit :=
  let! maybe_value := gets (λ s, indices s !! index) in
  let! maybe_value := f maybe_value in
  modify (with_indices (λ m, match maybe_value with Some v => <[index := v]> m | None => delete index m end)).

Definition claim (origin : RawOrigin) (index : Z) : Run unit :=
  let! who := ensure_signed origin in
  do! accounts_try_mutate index (λ maybe_value,
    do! ensure (bool_decide (maybe_value = None)) (indices_error InUse) in
    do! rc_reserve who Deposit_ in
    ret (Some (who, Deposit_, false))) in
  indices_emit (IndexAssigned who index).

(** The checks shared by [transfer], [free] and [freeze]. *)
Definition owned_entry (who : AccountId) (maybe_value : option (AccountId * Balance * bool)) : Run (AccountId * Balance) :=
  let! ' (account, amount, perm) := ok_or maybe_value (indices_error NotAssigned) in
  do! ensure (negb perm) (indices_error Permanent) in
  do! ensure (bool_decide (account = who)) (indices_error NotOwner) in
  ret (account, amount).

Definition index_transfer (origin : RawOrigin) (new : MultiAddress) (index : Z) : Run unit :=
  let! who := ensure_signed origin in
  let! new := lookup new in
  do! ensure (bool_decide (who ≠ new)) (indices_error NotTransfer) in
  do! accounts_try_mutate index (λ maybe_value,
    let! ' (account, amount) := owned_entry who maybe_value in
    let! lost := rc_repatriate_reserved who new amount Reserved in
    ret (Some (new, saturating_sub amount lost, false))) in
  indices_emit (IndexAssigned new index).

Definition index_free (origin : RawOrigin) (index : Z) : Run unit :=
  let! who := ensure_signed origin in
  do! accounts_try_mutate index (λ maybe_value,
    let! ' (account, amount) := owned_entry who maybe_value in
    do! rc_unreserve who amount in
    ret None) in
  indices_emit (IndexFreed index).

Definition index_force_transfer (origin : RawOrigin) (new : MultiAddress) (index : Z) (freeze : bool) : Run unit :=
  do! ensure_root origin in
  let! new := lookup new in
  do! accounts_try_mutate index (λ maybe_value,
    do! match maybe_value with
        | Some (account, amount, _) => do! rc_unreserve account amount in ret tt
        | None => ret tt
        end in
    ret (Some (new, 0, freeze))) in
  indices_emit (IndexAssigned new index).

(** The imbalance returned by [slash_reserved] is dropped at once. *)
Definition index_freeze (origin : RawOrigin) (index : Z) : Run unit :=
  let! who := ensure_signed origin in
  do! accounts_try_mutate index (λ maybe_value,
    let! ' (account, amount) := owned_entry who maybe_value in
    do! (let! r := rc_slash_reserved who amount in do! drop_value r.1 in ret r.2) in
    ret (Some (account, 0, true))) in
  indices_emit (IndexFrozen index who).

(** The dispatchables, with their arguments. *)
Inductive IndicesCall :=
| Claim (index : Z)
| TransferIndex (new : MultiAddress) (index : Z)
| FreeIndex (index : Z)
| ForceTransfer (new : MultiAddress) (index : Z) (freeze : bool)
| FreezeIndex (index : Z).

Definition indices_call (c : IndicesCall) (origin : RawOrigin) : Run unit :=
  match c with
  | Claim index => claim origin index
  | TransferIndex new index => index_transfer origin new index
  | FreeIndex index => index_free origin index
  | ForceTransfer new index freeze => index_force_transfer origin new index freeze
  | FreezeIndex index => index_freeze origin index
  end.

Definition indices_genesis_build (l : list (Z * AccountId)) : Run unit :=
  modify (with_indices (λ m, fold_left (λ m ab, <[ab.1 := (ab.2, 0, false)]> m) l m)).

End Pallet.

(** ** Deposits are backed *)

Section Backed.
  Context {C : ReservableCurrency} {L : ReservableLaws C} (Deposit_ : Balance).
  Context (deposit_ok : rc_minimum_balance <= Deposit_ <= u128_max) (minimum_pos : 0 < rc_minimum_balance).

(** The deposit recorded in an entry, if [who] owns it. *)
Definition deposit_of (who : AccountId) (e : AccountId * Balance * bool) : Balance := if decide (e.1.1 = who) then e.1.2 else 0.

(** All deposits recorded for [who]. *)
Definition deposits (s : Store) (who : AccountId) : Balance := map_sum (deposit_of who) (indices s).

(** A recorded deposit is zero or at least the minimum balance. *)
Definition amount_ok (e : AccountId * Balance * bool) : Prop := e.1.2 = 0 ∨ rc_minimum_balance <= e.1.2 <= u128_max.

(** Every recorded deposit is on hold in the owner's account. *)
Record backed (s : Store) : Prop := {
  bk_ok : rc_ok s;
  bk_amounts : map_Forall (λ _ e, amount_ok e) (indices s);
  bk_held : ∀ who, deposits s who <= held s who }.

Lemma deposit_of_nonneg who e : amount_ok e → 0 <= deposit_of who e.
Proof. unfold amount_ok, deposit_of. case_decide; lia. Qed.

Lemma deposits_update (m : gmap Z (AccountId * Balance * bool)) (i : Z) oe who :
  map_sum (deposit_of who) (match oe with Some v => <[i := v]> m | None => delete i m end : gmap Z _) =
  map_sum (deposit_of who) m - from_option (deposit_of who) 0 (m !! i) + from_option (deposit_of who) 0 oe.
Proof.
  rewrite (map_sum_update _ m _ i).
  - destruct oe; [by rewrite lookup_insert_eq|by rewrite lookup_delete_eq].
  - intros j Hj. destruct oe; [by rewrite lookup_insert_ne|by rewrite lookup_delete_ne].
Qed.

(** What is on hold once the entry at [i] is taken away: the other deposits, so nothing or at
    least the minimum balance. *)
Lemma deposits_without s i e who : backed s → indices s !! i = Some e →
  deposits s who - deposit_of who e = 0 ∨ rc_minimum_balance <= deposits s who - deposit_of who e.
Proof.
  intros [_ Ha _] Hi. unfold deposits. rewrite (map_sum_split _ (indices s) i), Hi. simpl.
  replace (_ + _ - _) with (map_sum (deposit_of who) (delete i (indices s))) by lia.
  assert (map_Forall (λ _ e, amount_ok e) (delete i (indices s))) as Hd by (by apply map_Forall_delete). revert Hd.
  generalize (delete i (indices s)). clear - minimum_pos. intros m Hm. unfold map_sum.
  apply (map_fold_weak_ind (λ r m, map_Forall (λ _ e, amount_ok e) m → r = 0 ∨ rc_minimum_balance <= r)); [by left| |done].
  intros k e m' r Hk IH Hm'. apply map_Forall_insert in Hm' as [He Hm']; [|done]. specialize (IH Hm').
  unfold amount_ok in He. unfold deposit_of. case_decide; lia.
Qed.

(** Storing a new entry keeps the invariant when the holds follow. *)
Lemma backed_store s s' i oe (f := λ m : gmap Z (AccountId * Balance * bool), match oe with Some v => <[i := v]> m | None => delete i m end) :
  backed s → rc_ok s' → indices s' = indices s → from_option amount_ok True oe →
  (∀ who, deposits s who - from_option (deposit_of who) 0 (indices s !! i) + from_option (deposit_of who) 0 oe <= held s' who) →
  backed (with_indices f s').
Proof.
  intros [_ Ha _] Hok Hi Hoe Hh. split; [by apply rc_ok_indices|..].
  - simpl. rewrite Hi. subst f. destruct oe; simpl; [by apply map_Forall_insert_2|by apply map_Forall_delete].
  - intros who. rewrite held_indices. unfold deposits. simpl. rewrite Hi. subst f. simpl. rewrite deposits_update. apply Hh.
Qed.

Lemma indices_deposit e s : indices (deposit e s) = indices s.
Proof. pose proof (rest_others _ _ (rest_deposit e s)). unfold others in *. congruence. Qed.

Lemma backed_event e s : backed s → backed (deposit e s).
Proof.
  intros [Hok Ha Hh]. pose proof (indices_deposit e s) as Hi. split; [by apply rc_ok_event|by rewrite Hi|]. intros who. unfold deposits. rewrite held_event, Hi. apply Hh.
Qed.

(** A dispatchable whose successful runs keep the invariant. *)
Definition keeps (m : Run unit) : Prop := ∀ s, backed s → wp m (λ r s', r = Ok tt → backed s') s.

Lemma keeps_dispatch m s r s' : keeps m → backed s → dispatch m s = (r, s') → backed s'.
Proof.
  intros Hk Hs. unfold dispatch. specialize (Hk s Hs). unfold wp in Hk. destruct (m s) as [[[]|e|] s1]; intros; simplify_eq; auto.
Qed.

(** The frame of every dispatchable: read the entry, run the closure, store, emit. *)
Lemma wp_accounts_mutate i f e s :
  backed s →
  wp (f (indices s !! i)) (λ r s', ∀ oe, r = Ok oe →
    rc_ok s' ∧ indices s' = indices s ∧ from_option amount_ok True oe ∧
    ∀ who, deposits s who - from_option (deposit_of who) 0 (indices s !! i) + from_option (deposit_of who) 0 oe <= held s' who) s →
  wp (do! accounts_try_mutate i f in indices_emit e) (λ r s', r = Ok tt → backed s') s.
Proof.
  intros Hs Hf. apply wp_bind. unfold accounts_try_mutate. apply wp_bind, wp_gets, wp_bind. eapply wp_mono; [exact Hf|].
  intros [oe|?|] s' Hpost; [|done..]. destruct (Hpost oe eq_refl) as (Hok & Hi & Ho & Hh). apply wp_modify.
  unfold indices_emit, deposit_event. apply wp_modify. intros _. apply backed_event. by apply (backed_store s).
Qed.

Lemma wp_ensure_signed origin (Q : outcome DispatchError AccountId → Store → Prop) s :
  (∀ who, origin = Signed who → Q (Ok who) s) → Q (Err BadOrigin) s → wp (ensure_signed origin) Q s.
Proof. destruct origin; simpl; intros HQ HE; [by apply wp_throw|by apply wp_ret, HQ|by apply wp_throw]. Qed.

Lemma wp_lookup a (Q : outcome DispatchError AccountId → Store → Prop) s :
  (∀ who, lookup_address s a = Some who → Q (Ok who) s) → Q (Err CannotLookup) s → wp (lookup a) Q s.
Proof. intros HQ HE. unfold lookup. apply wp_bind, wp_gets, wp_ok_or; [done|]. by intros _. Qed.

Lemma wp_owned_entry who oe s (Q : outcome DispatchError (AccountId * Balance) → Store → Prop) :
  (∀ amount, oe = Some (who, amount, false) → Q (Ok (who, amount)) s) → (∀ e, Q (Err e) s) → wp (owned_entry who oe) Q s.
Proof.
  intros HQ HE. unfold owned_entry. destruct oe as [[[account amount] perm]|]; simpl; [|by apply wp_bind, wp_throw].
  apply wp_bind, wp_ret, wp_bind, wp_ensure; intros Hp; [|by apply HE]. apply wp_bind, wp_ensure; intros Ho; [|by apply HE].
  props. subst. by apply wp_ret, HQ.
Qed.

(** The deposit of an entry is on hold, and taking it away leaves the other deposits. *)
Lemma entry_held s i who amount perm : backed s → indices s !! i = Some (who, amount, perm) →
  0 <= amount <= u128_max ∧ amount <= deposits s who <= held s who ∧
  (deposits s who - amount = 0 ∨ rc_minimum_balance <= deposits s who - amount).
Proof.
  intros Hs Hi. pose proof (deposits_without s i _ who Hs Hi) as Hd. unfold deposit_of in Hd. simpl in Hd. rewrite decide_True in Hd by done.
  pose proof (bk_held _ Hs who). pose proof (bk_amounts _ Hs _ _ Hi) as Ha. unfold amount_ok in Ha. simpl in Ha. pose proof u128_max_pos. lia.
Qed.

Lemma amount_ok_0 who perm : amount_ok (who, 0, perm).
Proof. by left. Qed.

Lemma held_other s i who amount perm k : backed s → indices s !! i = Some (who, amount, perm) → k ≠ who →
  deposits s k - from_option (deposit_of k) 0 (indices s !! i) <= held s k.
Proof. intros Hs Hi Hk. rewrite Hi. simpl. unfold deposit_of. simpl. rewrite decide_False by congruence. pose proof (bk_held _ Hs k). lia. Qed.

Lemma claim_keeps origin index : keeps (claim Deposit_ origin index).
Proof.
  intros s Hs. apply wp_bind, wp_ensure_signed; [intros who _|done]. apply wp_accounts_mutate; [done|].
  apply wp_bind, wp_ensure; intros Hn; [|done]. props. rewrite Hn. apply wp_bind.
  eapply wp_mono; [apply reserve_law; [apply Hs|lia]|]. intros [[]|e|] s'; [|done..]. intros (Hok & Hi & Hh & Hf).
  apply wp_ret. intros oe [= <-]. split; [done|]. split; [done|]. split; [by right|]. intros k. simpl. unfold deposit_of. simpl.
  pose proof (bk_held _ Hs k). case_decide; [subst; lia|]. rewrite Hf by congruence. lia.
Qed.

Lemma index_transfer_keeps origin new index : keeps (index_transfer origin new index).
Proof.
  intros s Hs. apply wp_bind, wp_ensure_signed; [intros who _|done]. apply wp_bind, wp_lookup; [intros new' _|done].
  apply wp_bind, wp_ensure; intros Hne; [|done]. props. apply wp_accounts_mutate; [done|].
  apply wp_bind, wp_owned_entry; [|done]. intros amount Hi. destruct (entry_held _ _ _ _ _ Hs Hi) as (Ha & Hd & Hrest).
  apply wp_bind. eapply wp_mono; [apply repatriate_law; [apply Hs|done|done]|]. intros [lost|e|] s'; [|done..].
  intros (Hok & Hi' & -> & Hleft & Hb & Hf). rewrite Z.min_r in * by lia. apply wp_ret. intros oe [= <-].
  rewrite saturating_sub_id by lia. split; [done|]. split; [done|].
  pose proof (bk_amounts _ Hs _ _ Hi) as Hao. split; [unfold amount_ok in *; simpl in *; lia|].
  intros k. simpl. unfold deposit_of at 2. simpl. destruct (decide (k = who)) as [->|Hk].
  - rewrite Hi. simpl. unfold deposit_of. simpl. rewrite decide_True, decide_False by done. destruct Hleft as [->|[-> Hlt]]; lia.
  - pose proof (held_other _ _ _ _ _ _ Hs Hi Hk). case_decide; [subst; lia|]. rewrite Hf by congruence. lia.
Qed.

Lemma index_free_keeps origin index : keeps (index_free origin index).
Proof.
  intros s Hs. apply wp_bind, wp_ensure_signed; [intros who _|done]. apply wp_accounts_mutate; [done|].
  apply wp_bind, wp_owned_entry; [|done]. intros amount Hi. destruct (entry_held _ _ _ _ _ Hs Hi) as (Ha & Hd & Hrest).
  apply wp_bind. eapply wp_mono; [apply unreserve_law; [apply Hs|done]|]. intros [rem|e|] s'; [|done..].
  intros (Hok & Hi' & _ & Hh & Hf). apply wp_ret. intros oe [= <-]. split; [done|]. split; [done|]. split; [done|].
  intros k. destruct (decide (k = who)) as [->|Hk].
  - rewrite Hi. simpl. unfold deposit_of. simpl. rewrite decide_True by done. lia.
  - pose proof (held_other _ _ _ _ _ _ Hs Hi Hk). rewrite Hf by done. simpl. lia.
Qed.

Lemma index_force_transfer_keeps origin new index freeze : keeps (index_force_transfer origin new index freeze).
Proof.
  intros s Hs. apply wp_bind. destruct origin; simpl; [apply wp_ret|by apply wp_throw..]. apply wp_bind, wp_lookup; [intros new' _|done].
  apply wp_accounts_mutate; [done|]. destruct (indices s !! index) as [[[who amount] perm]|] eqn:Hi; simpl.
  - destruct (entry_held _ _ _ _ _ Hs Hi) as (Ha & Hd & Hrest). apply wp_bind, wp_bind.
    eapply wp_mono; [apply unreserve_law; [apply Hs|done]|]. intros [rem|e|] s'; [|done..].
    intros (Hok & Hi' & _ & Hh & Hf). apply wp_ret, wp_ret. intros oe [= <-]. split; [done|]. split; [congruence|]. split; [by left|].
    intros k. pose proof (held_other _ _ _ _ _ k Hs Hi) as Ho. rewrite Hi in Ho. simpl in *. unfold deposit_of in *. simpl in *.
    destruct (decide (k = who)) as [->|Hk]; [repeat case_decide; lia|]. rewrite Hf by done. specialize (Ho Hk). repeat case_decide; lia.
  - apply wp_bind, wp_ret, wp_ret. intros oe [= <-]. split; [apply Hs|]. split; [done|]. split; [by left|].
    intros k. pose proof (bk_held _ Hs k). simpl. unfold deposit_of. simpl. case_decide; lia.
Qed.

Lemma index_freeze_keeps origin index : keeps (index_freeze origin index).
Proof.
  intros s Hs. apply wp_bind, wp_ensure_signed; [intros who _|done]. apply wp_accounts_mutate; [done|].
  apply wp_bind, wp_owned_entry; [|done]. intros amount Hi. destruct (entry_held _ _ _ _ _ Hs Hi) as (Ha & Hd & Hrest).
  apply wp_bind. eapply wp_mono; [apply slash_reserved_law; [apply Hs|done]|]. intros [rem|e|] s'; [|done..].
  intros (Hok & Hi' & Hrem & Hleft & Hf). apply wp_ret. intros oe [= <-]. split; [done|]. split; [done|]. split; [by left|].
  intros k. simpl. unfold deposit_of at 2. simpl. destruct (decide (k = who)) as [->|Hk].
  - rewrite Hi. simpl. unfold deposit_of. simpl. rewrite decide_True by done. destruct Hleft as [->|[-> Hlt]]; case_decide; lia.
  - pose proof (held_other _ _ _ _ _ _ Hs Hi Hk). rewrite Hf by done. case_decide; lia.
Qed.

Lemma indices_call_keeps c origin : keeps (indices_call Deposit_ c origin).
Proof.
  destruct c; [apply claim_keeps|apply index_transfer_keeps|apply index_free_keeps|apply index_force_transfer_keeps|apply index_freeze_keeps].
Qed.

(** One extrinsic of the pallet, successful or not. *)
Inductive indices_step (s : Store) : Store → Prop :=
| indices_step_intro c origin r s' : dispatch (indices_call Deposit_ c origin) s = (r, s') → indices_step s s'.

(** C9. With any currency that keeps the laws of the interface, every deposit recorded for an
    index is on hold in its owner's account, after any sequence of extrinsics of the pallet. *)
Theorem deposits_backed s s' who : backed s → rtc indices_step s s' → 0 <= deposits s' who <= held s' who.
Proof.
  intros Hs Hr. assert (backed s') as Hs'.
  { induction Hr as [|x y z [c origin r y' Hd] _ IH]; [done|]. apply IH. eapply keeps_dispatch; [apply indices_call_keeps|done|done]. }
  split; [|apply Hs']. apply map_sum_nonneg. intros k e He. by apply deposit_of_nonneg, (bk_amounts _ Hs' k).
Qed.

(** Claiming an unused index and freeing it again gives the deposit back: the index is
    unassigned and every account holds what it held. *)
Theorem claim_free_roundtrip who index s s1 :
  backed s → claim Deposit_ (Signed who) index s = (Ok tt, s1) →
  indices s1 !! index = Some (who, Deposit_, false) ∧
  ∃ s2, index_free (Signed who) index s1 = (Ok tt, s2) ∧ indices s2 = indices s ∧ ∀ k, held s2 k = held s k.
Proof.
  intros Hs Hc.
  assert (indices s !! index = None ∧ rc_ok s1 ∧ indices s1 = <[index := (who, Deposit_, false)]> (indices s) ∧
          held s1 who = held s who + Deposit_ ∧ ∀ k, k ≠ who → held s1 k = held s k) as (Hn & Hok & Hi & Hh & Hf).
  { refine (wp_run _ (λ r s1, r = Ok tt → indices s !! index = None ∧ rc_ok s1 ∧ indices s1 = <[index := (who, Deposit_, false)]> (indices s) ∧
          held s1 who = held s who + Deposit_ ∧ ∀ k, k ≠ who → held s1 k = held s k) _ _ _ _ Hc eq_refl).
    apply wp_bind, wp_ret, wp_bind. unfold accounts_try_mutate. apply wp_bind, wp_gets, wp_bind, wp_bind, wp_ensure; intros Hn; [|done]. props.
    apply wp_bind. eapply wp_mono; [apply reserve_law; [apply Hs|lia]|]. intros [[]|e|] s2; [|done..]. intros (Hok & Hi & Hh & Hf).
    apply wp_ret, wp_modify. unfold indices_emit, deposit_event. apply wp_modify. intros _. rewrite indices_deposit.
    split; [done|]. split; [by apply rc_ok_event, rc_ok_indices|]. split; [simpl; by rewrite Hi|]. setoid_rewrite held_event. setoid_rewrite held_indices. done. }
  split; [by rewrite Hi, lookup_insert_eq|].
  pose proof (held_nonneg s who (bk_ok _ Hs)).
  assert (wp (index_free (Signed who) index) (λ r s2, r = Ok tt ∧ indices s2 = indices s ∧ ∀ k, held s2 k = held s k) s1) as Hw.
  { apply wp_bind, wp_ret, wp_bind. unfold accounts_try_mutate. apply wp_bind, wp_gets, wp_bind. rewrite Hi, lookup_insert_eq.
    apply wp_bind. unfold owned_entry. apply wp_bind, wp_ret, wp_bind, wp_ret. rewrite bool_decide_eq_true_2 by done. apply wp_bind, wp_ret, wp_ret, wp_bind.
    eapply wp_mono; [apply unreserve_law; [done|lia]|]. intros [rem|e|] s2; [|done..]. intros (_ & Hi2 & _ & Hh2 & Hf2).
    apply wp_ret, wp_modify. unfold indices_emit, deposit_event. apply wp_modify. rewrite indices_deposit. split; [done|]. split.
    - simpl. by rewrite Hi2, Hi, delete_insert_id.
    - intros k. rewrite held_event, held_indices. destruct (decide (k = who)) as [->|Hk]; [rewrite Hh2, Hh; lia|by rewrite Hf2, Hf]. }
  unfold wp in Hw. destruct (index_free (Signed who) index s1) as [r s2]. simpl in Hw. destruct Hw as (-> & Hw). eauto.
Qed.

End Backed.
