(* ===== verification/Calls.v ===== *)
(** The dispatchables of [pallet_balances], the [ReservableCurrency] it provides to
    [pallet_indices], and the transition system of the two pallets. *)

From S2P Require Import Prelude Runtime System Balances Ledger Transfers Currencies NamedReserves Indices.

(** ** Dispatchables of [pallet_balances] *)

Section Calls.
  Context {cfg : BalancesConfig}.

Definition call_transfer (origin : RawOrigin) (dest : MultiAddress) (value : Balance) : Run unit :=
  let! transactor := ensure_signed origin in
  let! dest := lookup dest in
  transfer transactor dest value AllowDeath.

Definition call_set_balance (origin : RawOrigin) (who : MultiAddress) (new_free new_reserved : Balance) : Run unit :=
  do! ensure_root origin in
  let! who := lookup who in
  let existential_deposit := ExistentialDeposit in
  let wipeout := new_free ⊕ new_reserved <? existential_deposit in
  let new_free := if wipeout then 0 else new_free in
  let new_reserved := if wipeout then 0 else new_reserved in
  let! ' (old_free, old_reserved) := mutate_account who (λ account,
    ret ((free account, reserved account), set_reserved new_reserved (set_free new_free account))) in
  do!
    (if old_free <? new_free then drop_value (Pos (new_free ⊖ old_free))
     else if new_free <? old_free then drop_value (Neg (old_free ⊖ new_free))
     else ret tt) in
  do!
    (if old_reserved <? new_reserved then drop_value (Pos (new_reserved ⊖ old_reserved))
     else if new_reserved <? old_reserved then drop_value (Neg (old_reserved ⊖ new_reserved))
     else ret tt) in
  emit (BalanceSet who new_free new_reserved).

Definition call_force_transfer (origin : RawOrigin) (source dest : MultiAddress) (value : Balance) : Run unit :=
  do! ensure_root origin in
  let! source := lookup source in
  let! dest := lookup dest in
  transfer source dest value AllowDeath.

Definition call_transfer_keep_alive (origin : RawOrigin) (dest : MultiAddress) (value : Balance) : Run unit :=
  let! transactor := ensure_signed origin in
  let! dest := lookup dest in
  transfer transactor dest value KeepAlive.

Definition call_transfer_all (origin : RawOrigin) (dest : MultiAddress) (keep_alive : bool) : Run unit :=
  let! transactor := ensure_signed origin in
  let! reducible_balance := gets (λ s, reducible_balance s transactor keep_alive) in
  let! dest := lookup dest in
  let keep_alive := if keep_alive then KeepAlive else AllowDeath in
  transfer transactor dest reducible_balance keep_alive.

Definition call_force_unreserve (origin : RawOrigin) (who : MultiAddress) (amount : Balance) : Run unit :=
  do! ensure_root origin in
  let! who := lookup who in
  do! unreserve who amount in
  ret tt.

Inductive BalancesCall :=
| CTransfer (dest : MultiAddress) (value : Balance)
| CSetBalance (who : MultiAddress) (new_free new_reserved : Balance)
| CForceTransfer (source dest : MultiAddress) (value : Balance)
| CTransferKeepAlive (dest : MultiAddress) (value : Balance)
| CTransferAll (dest : MultiAddress) (keep_alive : bool)
| CForceUnreserve (who : MultiAddress) (amount : Balance).

Definition balances_call (c : BalancesCall) (origin : RawOrigin) : Run unit :=
  match c with
  | CTransfer dest value => call_transfer origin dest value
  | CSetBalance who new_free new_reserved => call_set_balance origin who new_free new_reserved
  | CForceTransfer source dest value => call_force_transfer origin source dest value
  | CTransferKeepAlive dest value => call_transfer_keep_alive origin dest value
  | CTransferAll dest keep_alive => call_transfer_all origin dest keep_alive
  | CForceUnreserve who amount => call_force_unreserve origin who amount
  end.

End Calls.

(** ** The books under the dispatchables *)

Section Books.
  Context {cfg : BalancesConfig} {laws : BalancesLaws cfg}.

Lemma inv_transfer from dest v req s s' :
  bal_inv 0 s → 0 < v → from ≠ dest → transfer_check s from dest v req = Ok tt →
  moved from dest (set_free (free (account s from) - v) (account s from)) (set_free (free (account s dest) + v) (account s dest)) s s' →
  bal_inv 0 s'.
Proof.
  intros Hinv Hv Hne Hc Hm. pose proof (acct_bounds _ _ from Hinv) as (?&?&?&?&?&?). pose proof (acct_bounds _ _ dest Hinv) as (?&?&?&?&?&?).
  pose proof (worth2_le_issued _ _ _ _ Hinv Hne) as Hw. pose proof (inv_issued _ _ Hinv). pose proof (inv_supply _ _ Hinv). pose proof ed_u128.
  apply transfer_check_Ok in Hc as (Hfree & Hover & Hed & _). unfold worth in *.
  eapply inv_moved; try done; simpl; unfold is_u; fold u128_max; try lia.
  - split; simpl; unfold is_u; fold u128_max; try lia. right. unfold worth. simpl. lia.
  - unfold worth. simpl. lia.
  - unfold dust, worth. simpl. by_cases.
Qed.

(** [transfer] from an account to another, errors included. *)
Lemma transfer_books from dest v req s : bal_inv 0 s → 0 <= v →
  wp (transfer from dest v req) (λ r s', bal_inv 0 s' ∧ r ≠ Panic ∧ (r ≠ Ok tt → s' = s)) s.
Proof.
  intros Hinv Hv. destruct (decide (v = 0 ∨ from = dest)) as [Hno|Hyes].
  - unfold transfer. replace ((v =? 0) || bool_decide (from = dest)) with true; [by apply wp_ret|].
    symmetry. apply orb_true_iff. rewrite Z.eqb_eq, bool_decide_eq_true. done.
  - apply wp_transfer; [apply Hinv|by eapply inv_TI|naive_solver..| |].
    + done.
    + intros Hc s' Hm. split; [|done]. eapply inv_transfer; [done| |naive_solver|done|done]. destruct (decide (v = 0)); [naive_solver|lia].
Qed.

(** Squaring up the issuance. *)
Lemma inv_reissued δ f d s s' :
  bal_inv δ s → reissued f s s' → f (TotalIssuance (bal s)) = TotalIssuance (bal s) + d →
  0 <= TotalIssuance (bal s) + d <= u128_max → bal_inv (δ + d) s'.
Proof.
  intros [Hs Hd Hsu Hti Hm] [Ha Hb Ho] Hf Hr. assert (issued s' = issued s) as Hi by (unfold issued; by rewrite Ha).
  split; rewrite ?Hb, ?Hi; simpl; rewrite ?Hf; try lia; try done.
  - unfold sys_ok. by rewrite Ha.
  - intros k. rewrite (account_accounts s s'); [done|by rewrite Ha].
Qed.

Lemma wp_adjust δ old new s Q :
  bal_inv δ s → 0 <= old <= u128_max → 0 <= new <= u128_max → 0 <= TotalIssuance (bal s) + (new - old) <= u128_max →
  (∀ s', bal_inv (δ + (new - old)) s' → TotalIssuance (bal s') = TotalIssuance (bal s) + (new - old) → Q (Ok tt) s') →
  wp (if old <? new then drop_value (Pos (new ⊖ old))
      else if new <? old then drop_value (Neg (old ⊖ new)) else ret tt) Q s.
Proof.
  intros Hinv Ho Hn Ht HQ. destruct (Z.ltb_spec old new).
  - rewrite sub128_id by lia. apply wp_mutate_issuance. intros s' Hr. simpl in Hr.
    apply HQ; [eapply inv_reissued; [done|done| |done]|rewrite (re_bal _ _ _ Hr)]; simpl; apply saturating_add_id; fold u128_max; lia.
  - destruct (Z.ltb_spec new old).
    + rewrite sub128_id by lia. apply wp_mutate_issuance. intros s' Hr. simpl in Hr.
      apply HQ; [eapply inv_reissued; [done|done| |done]|rewrite (re_bal _ _ _ Hr)]; simpl; rewrite saturating_sub_id by lia; lia.
    + replace new with old in * by lia. apply wp_ret. rewrite Z.sub_diag in HQ. apply HQ; rewrite Z.add_0_r; done.
Qed.

(** [set_balance] keeps the books as long as the new balances fit next to the issuance. *)
Lemma set_balance_books origin who nf nr s :
  bal_inv 0 s → 0 <= nf → 0 <= nr → TotalIssuance (bal s) + nf + nr <= u128_max →
  wp (call_set_balance origin who nf nr) (λ r s', r = Ok tt → bal_inv 0 s') s.
Proof.
  intros Hinv Hnf Hnr Hfit. apply wp_bind. destruct origin; simpl; [apply wp_ret|by apply wp_throw..].
  apply wp_bind, wp_lookup; [intros k _|done]. pose proof (acct_bounds _ _ k Hinv) as (?&?&?&?&?&?). pose proof ed_pos.
  pose proof (inv_supply _ _ Hinv). pose proof (inv_issued _ _ Hinv). pose proof (inv_TI _ _ Hinv).
  rewrite add128_id by lia. set (f := if _ <? _ then 0 else nf). set (r := if _ <? _ then 0 else nr).
  assert (0 <= f <= nf ∧ 0 <= r <= nr ∧ (f + r = 0 ∨ ExistentialDeposit <= f + r)) as (Hf & Hr & Hfr).
  { subst f r. destruct (Z.ltb_spec (nf + nr) ExistentialDeposit); lia. }
  apply wp_bind. unfold mutate_account. apply wp_try_mutate_account; [apply Hinv|done|]. apply wp_ret.
  set (a := set_reserved r (set_free f (account s k))). assert (worth a = f + r) as Hw by done.
  assert (dust a = 0) as Hd by (unfold dust; rewrite Hw; case_match; props; lia).
  split; [done|]. split; [|by intros; apply wp_bind, wp_ret, wp_ret]. intros s1 Hm.
  assert (bal_inv (worth (account s k) - worth a) s1) as Hinv1.
  { eapply inv_mutated; [done..| | | | | | |]; rewrite ?Hw, ?Hd; simpl; unfold is_u, worth; fold u128_max; lia. }
  assert (TotalIssuance (bal s1) = TotalIssuance (bal s)) as Ht1.
  { rewrite (mu_bal _ _ _ _ Hm), Hd. simpl. rewrite saturating_sub_id; lia. }
  apply wp_bind. eapply wp_adjust; [done|lia..|]. intros s2 Hinv2 Ht2.
  apply wp_bind. eapply wp_adjust; [done|lia..|]. intros s3 Hinv3 _.
  apply wp_emit. intros s4 Hq _. eapply inv_quiet; [|done]. rewrite Hw in Hinv3. unfold worth in Hinv3.
  by replace 0 with (free (account s k) + reserved (account s k) - (f + r) + (f - free (account s k)) + (r - reserved (account s k))) by lia.
Qed.

Lemma force_unreserve_books origin who v s : bal_inv 0 s → 0 <= v <= u128_max →
  wp (call_force_unreserve origin who v) (λ r s', r = Ok tt → bal_inv 0 s') s.
Proof.
  intros Hinv Hv. apply wp_bind. destruct origin; simpl; [apply wp_ret|by apply wp_throw..].
  apply wp_bind, wp_lookup; [intros k _|done]. apply wp_bind, (wp_unreserve_all 0); [done..|]. intros. by apply wp_ret.
Qed.

Lemma reducible_nonneg s who b : 0 <= reducible_balance s who b.
Proof. unfold reducible_balance, saturating_sub. case_match; lia. Qed.

(** The arguments are [u128]s, and a forced balance must fit next to the issuance. *)
Definition call_fits (s : Store) (c : BalancesCall) : Prop :=
  match c with
  | CTransfer _ v | CForceTransfer _ _ v | CTransferKeepAlive _ v | CForceUnreserve _ v => 0 <= v <= u128_max
  | CSetBalance _ nf nr => 0 <= nf ∧ 0 <= nr ∧ TotalIssuance (bal s) + nf + nr <= u128_max
  | CTransferAll _ _ => True
  end.

Lemma balances_call_books c origin s : bal_inv 0 s → call_fits s c →
  wp (balances_call c origin) (λ r s', r = Ok tt → bal_inv 0 s') s.
Proof.
  assert (∀ from dest v req, bal_inv 0 s → 0 <= v → wp (transfer from dest v req) (λ r s', r = Ok tt → bal_inv 0 s') s) as Ht.
  { intros from dest v req Hinv Hv. eapply wp_mono; [by apply transfer_books|]. by intros r s' (? & _). }
  intros Hinv Hfit. destruct c; simpl in *.
  - apply wp_bind, wp_ensure_signed; [intros k _|done]. apply wp_bind, wp_lookup; [intros d _|done]. by apply Ht; [|lia].
  - by apply set_balance_books; [|lia..].
  - apply wp_bind. destruct origin; simpl; [apply wp_ret|by apply wp_throw..].
    apply wp_bind, wp_lookup; [intros k _|done]. apply wp_bind, wp_lookup; [intros d _|done]. by apply Ht; [|lia].
  - apply wp_bind, wp_ensure_signed; [intros k _|done]. apply wp_bind, wp_lookup; [intros d _|done]. by apply Ht; [|lia].
  - apply wp_bind, wp_ensure_signed; [intros k _|done]. apply wp_bind, wp_gets. apply wp_bind, wp_lookup; [intros d _|done].
    apply Ht; [done|]. apply reducible_nonneg.
  - by apply force_unreserve_books.
Qed.

(** One extrinsic of [pallet_balances] on the store, successful or not. *)
Inductive balances_step (s : Store) : Store → Prop :=
| balances_step_intro c origin r s' : call_fits s c → dispatch (balances_call c origin) s = (r, s') → balances_step s s'.

Lemma balances_step_books s s' : bal_inv 0 s → balances_step s s' → bal_inv 0 s'.
Proof.
  intros Hinv [c origin r s'' Hfit Hd]. pose proof (balances_call_books c origin s Hinv Hfit) as Hw. unfold dispatch in Hd. unfold wp in Hw.
  destruct (balances_call c origin s) as [[[]|e|] s1]; simplify_eq; auto.
Qed.

(** ** Genesis *)

Definition sum_balances (l : list (AccountId * Balance)) : Z := foldr (λ b t, b.2 + t) 0 l.

Lemma sum_balances_nonneg l : Forall (λ b : AccountId * Balance, ExistentialDeposit <= b.2) l → 0 <= sum_balances l.
Proof. pose proof ed_pos. induction 1; simpl; lia. Qed.

Lemma sum_balances_in l k v :
  Forall (λ b : AccountId * Balance, ExistentialDeposit <= b.2) l → (k, v) ∈ l → v <= sum_balances l.
Proof.
  intros Hl Hin. pose proof ed_pos. induction Hl as [|[j w] l Hw Hl IH]; [by apply elem_of_nil in Hin|]. simpl in *.
  pose proof (sum_balances_nonneg l Hl). apply elem_of_cons in Hin as [[= -> ->]|Hin]; [lia|]. specialize (IH Hin). lia.
Qed.

Lemma genesis_total l acc : 0 <= acc → Forall (λ b : AccountId * Balance, ExistentialDeposit <= b.2) l →
  acc + sum_balances l <= u128_max → fold_left (λ acc b, acc ⊕ b.2) l acc = acc + sum_balances l.
Proof.
  pose proof ed_pos. intros Ha Hb. revert acc Ha. induction Hb as [|[k v] l Hv Hl IH]; intros acc Ha Hs; simpl in *; [lia|].
  pose proof (sum_balances_nonneg l Hl). rewrite add128_id, IH by lia. lia.
Qed.

Lemma wp_stored_insert who d s Q :
  sys_ok s → (∀ s', stored who (Some d) s s' → Q (Ok tt) s') → wp (stored_insert who d) Q s.
Proof.
  intros Hs HQ. unfold stored_insert, stored_mutate. apply wp_try_mutate_exists; [done|]. apply wp_bind, wp_ret, wp_ret.
  split; [done|]. split; [done|]. split; [done|]. done.
Qed.

(** The accounts in the list, each once, get their balance; nothing else changes. *)
Record endowed (l : list (AccountId * Balance)) (s s' : Store) : Prop := {
  en_sys : sys_ok s';
  en_in : ∀ k v, (k, v) ∈ l → account s' k = mkData v 0 0 0;
  en_out : ∀ k, k ∉ l.*1 → account s' k = account s k;
  en_issued : issued s' = issued s + sum_balances l;
  en_bal : bal s' = bal s }.

Lemma wp_endow l s Q :
  sys_ok s → NoDup l.*1 → (∀ k, k ∈ l.*1 → worth (account s k) = 0) →
  (∀ s', endowed l s s' → Q (Ok tt) s') → wp (endow l) Q s.
Proof.
  revert s. induction l as [|[k v] l IH]; intros s Hs Hnd Hw HQ; simpl.
  - apply wp_ret, HQ. split; try done; [intros ?? H; by apply elem_of_nil in H|]. simpl. lia.
  - apply NoDup_cons in Hnd as [Hk Hnd]. apply wp_bind, wp_attempt, wp_stored_insert; [done|]. intros s1 Hst. apply wp_bind, wp_ret.
    assert (account s1 k = mkData v 0 0 0) as Hk1 by apply Hst.
    assert (∀ j, j ≠ k → account s1 j = account s j) as Hne by (intros; by apply account_accounts, Hst).
    pose proof (issued_update s s1 k (proj2 (st_touches _ _ _ _ Hst))) as Hi.
    rewrite Hk1, (Hw k) in Hi by (by left). unfold worth in Hi. simpl in Hi.
    apply IH; [apply Hst|done| |].
    + intros j Hj. rewrite Hne by (intros ->; done). apply Hw. by right.
    + intros s2 [Hs2 Hin Hout Hi2 Hb2]. apply HQ. split; [done|..].
      * intros j w [[= -> ->]|Hj]%elem_of_cons; [by rewrite Hout|by apply Hin].
      * intros j [Hj1 Hj2]%not_elem_of_cons. by rewrite Hout, Hne.
      * simpl. lia.
      * rewrite Hb2. by apply rest_bal, Hst.
Qed.

(** [genesis_build] on a store without accounts. *)
Lemma genesis_books l s :
  accounts s = ∅ → sum_balances l <= u128_max →
  wp (genesis_build l) (λ r s',
    match r with
    | Ok _ => bal_inv 0 s' ∧ TotalIssuance (bal s') = sum_balances l ∧
        (∀ k v, (k, v) ∈ l → account s' k = mkData v 0 0 0) ∧ (∀ k, k ∉ l.*1 → account s' k = default_data)
    | Err _ => False
    | Panic => ¬ (NoDup l.*1 ∧ Forall (λ b, ExistentialDeposit <= b.2) l)
    end) s.
Proof.
  intros Ha Hsum. unfold genesis_build. apply wp_bind, wp_mutate_issuance. intros s1 [Ha1 Hb1 _]. rewrite Ha in Ha1.
  assert (∀ k, account s1 k = default_data) as Hd by (intros k; unfold account, stored_get, info; by rewrite Ha1).
  assert (sys_ok s1) as Hs1 by (unfold sys_ok; rewrite Ha1; apply map_Forall_empty).
  assert (issued s1 = 0) as Hi1 by (unfold issued; by rewrite Ha1).
  destruct (forallb (λ b, ExistentialDeposit <=? b.2) l) eqn:Hf; apply wp_bind.
  2: { simpl. unfold wp; simpl. intros [_ Hall]. apply not_true_iff_false in Hf. apply Hf, forallb_forall. intros x Hx%list_elem_of_In.
    rewrite Forall_forall in Hall. by apply Z.leb_le, Hall. }
  assert (Forall (λ b : AccountId * Balance, ExistentialDeposit <= b.2) l) as Hall.
  { apply Forall_forall. intros x Hx. rewrite forallb_forall in Hf. apply Z.leb_le, Hf. by apply list_elem_of_In. }
  apply wp_ret, wp_bind. destruct (decide (NoDup l.*1)) as [Hnd|Hnd].
  2: { assert ((size (list_to_set l.*1 : gset AccountId) =? length l)%nat = false) as ->; [|unfold wp; simpl; naive_solver].
    apply Nat.eqb_neq. rewrite <- (length_fmap fst l), size_list_to_set_NoDup. done. }
  rewrite (proj2 (Nat.eqb_eq _ _)) by (rewrite <- (length_fmap fst l); by apply size_list_to_set_NoDup).
  apply wp_ret, wp_endow; [done..| |].
  { intros k _. by rewrite Hd. }
  intros s2 [Hs2 Hin Hout Hi2 Hb2]. pose proof (sum_balances_nonneg l Hall).
  assert (TotalIssuance (bal s2) = sum_balances l) as Ht by (rewrite Hb2, Hb1; simpl; by apply genesis_total).
  assert (∀ k, k ∉ l.*1 → account s2 k = default_data) as Hout' by (intros; by rewrite Hout).
  split; [|done]. split; [done| |lia|unfold is_u; fold u128_max; lia|lia].
  intros k. destruct (decide (k ∈ l.*1)) as [Hk|Hk]; [|rewrite Hout' by done; apply default_data_ok].
  apply list_elem_of_fmap in Hk as ([k' v] & -> & Hkv). simpl. rewrite (Hin _ _ Hkv).
  pose proof (sum_balances_in _ _ _ Hall Hkv). rewrite Forall_forall in Hall. specialize (Hall _ Hkv). simpl in Hall.
  pose proof ed_pos. split; simpl; unfold is_u; fold u128_max; try lia. right. unfold worth. simpl. lia.
Qed.
End Books.
