(* ===== verification/BalancesProps.v ===== *)
(** The properties of [pallet_balances]: conservation of the total issuance over all
    dispatchables, and the functional behaviour of the currency operations. *)

From S2P Require Import Prelude Runtime System Balances Ledger Transfers Currencies NamedReserves Locking Indices Calls.

(** ** A concrete ledger for the witnesses *)

#[local] Existing Instance node_balances.

(** Two endowed accounts. *)
Definition two_accounts : Store :=
  (genesis_build [(1%N, 10 * DOLLARS); (2%N, 5 * DOLLARS)] (empty_store 0 0)).2.

Lemma two_accounts_genesis : genesis_build [(1%N, 10 * DOLLARS); (2%N, 5 * DOLLARS)] (empty_store 0 0) = (Ok tt, two_accounts).
Proof. vm_compute. reflexivity. Qed.

Lemma two_accounts_inv : bal_inv 0 two_accounts.
Proof.
  assert (sum_balances [(1%N, 10 * DOLLARS); (2%N, 5 * DOLLARS)] <= u128_max) as Hs by (vm_compute; congruence).
  pose proof (wp_run _ _ _ _ _ (genesis_books _ (empty_store 0 0) eq_refl Hs) two_accounts_genesis) as Hg. apply Hg.
Qed.

(** The first account with a consumer reference. *)
Definition one_consumer : Store := (inc_consumers_without_limit 1%N two_accounts).2.

Lemma one_consumer_inv : bal_inv 0 one_consumer.
Proof.
  assert (wp (inc_consumers_without_limit 1%N) (λ _ s', bal_inv 0 s') two_accounts) as Hw.
  { apply (wp_inc_consumers 0); [apply two_accounts_inv|intros _; apply two_accounts_inv|by intros]. }
  exact Hw.
Qed.

(** ** Conservation *)

Section Conservation.
  Context {cfg : BalancesConfig} {laws : BalancesLaws cfg}.

(** C1. From a genesis whose balances fit a [u128] together, and through any sequence of extrinsics of the pallet, successful or
    failing (a forced [set_balance] being for a balance that fits next to the issuance), the total
    issuance is exactly the sum of all free and reserved balances, that sum
    fits a [u128], and every account is empty or holds at least the existential deposit. *)
Theorem reachable_books l s0 s s' :
  accounts s0 = ∅ → sum_balances l <= u128_max → genesis_build l s0 = (Ok tt, s) → rtc balances_step s s' →
  TotalIssuance (bal s') = issued s' ∧ issued s' <= u128_max ∧
  ∀ who, account s' who = default_data ∨ ExistentialDeposit <= worth (account s' who).
Proof.
  intros Ha Hs Hg Hr. destruct (wp_run _ _ _ _ _ (genesis_books l s0 Ha Hs) Hg) as [Hinv _].
  assert (bal_inv 0 s') as Hinv'.
  { clear Hg. induction Hr as [|x y z Hxy Hyz IH]; [done|]. apply IH. by eapply balances_step_books. }
  pose proof (inv_supply _ _ Hinv'). split; [lia|]. split; [apply Hinv'|]. intros who. apply (inv_data _ _ Hinv').
Qed.

(** The transferred amounts on both sides, with the dust that is burnt. *)
Record transferred (from dest : AccountId) (v : Balance) (s s' : Store) : Prop := {
  t_dest : account s' dest = set_free (free (account s dest) + v) (account s dest);
  t_from : account s' from =
    (if worth (account s from) - v <? ExistentialDeposit then default_data
     else set_free (free (account s from) - v) (account s from));
  t_issuance : TotalIssuance (bal s') =
    TotalIssuance (bal s) - (if worth (account s from) - v <? ExistentialDeposit then worth (account s from) - v else 0);
  t_frame : ∀ k, k ≠ from → k ≠ dest → account s' k = account s k;
  t_storage : Locks (bal s') = Locks (bal s) ∧ Reserves (bal s') = Reserves (bal s) ∧ others s' = others s }.

Lemma moved_transferred from dest v req s s' :
  bal_inv 0 s → 0 < v → from ≠ dest → transfer_check s from dest v req = Ok tt →
  moved from dest (set_free (free (account s from) - v) (account s from)) (set_free (free (account s dest) + v) (account s dest)) s s' →
  transferred from dest v s s'.
Proof.
  intros Hinv Hv Hne Hc Hm. apply transfer_check_Ok in Hc as (Hfree & _). pose proof (acct_bounds _ _ from Hinv) as (?&?&?&?&?&?).
  pose proof (inv_supply _ _ Hinv).
  assert (worth (set_free (free (account s from) - v) (account s from)) = worth (account s from) - v) as Hw by (rewrite worth_set_free; lia).
  destruct Hm as [Hf _ Hfrom Hdest _ _ _ Hb Ho]. split; try done.
  - rewrite Hfrom. unfold survive. by rewrite Hw.
  - rewrite Hb. simpl. unfold dust. rewrite Hw. unfold worth in *. apply saturating_sub_id. by_cases.
  - intros. by apply account_accounts, Hf.
  - by rewrite Hb.
Qed.

(** C5. [transfer] of a positive value to another account answers exactly what its checks say, in their order; on an error the store
    is unchanged, on success [v] has moved, a sender left below the existential deposit is
    reaped and the rest of its balance burnt, and nothing else changes. *)
Theorem transfer_spec from dest v req s r s' :
  bal_inv 0 s → 0 < v → from ≠ dest → transfer from dest v req s = (r, s') →
  r = transfer_check s from dest v req ∧ match r with Ok _ => transferred from dest v s s' | _ => s' = s end.
Proof.
  intros Hinv Hv Hne Hr.
  refine (wp_run _ (λ r s', r = transfer_check s from dest v req ∧ match r with Ok _ => transferred from dest v s s' | _ => s' = s end) _ _ _ _ Hr).
  apply wp_transfer; [apply Hinv|by eapply inv_TI|lia|done|by intros e ->|].
  intros Hc s1 Hm. split; [done|]. by eapply moved_transferred.
Qed.

(** [transfer_all] never fails for want of funds, locks or liveness: it moves the whole
    reducible balance, and with [keep_alive] the sender keeps the existential deposit. *)
Theorem transfer_all_succeeds from dest keep_alive s :
  bal_inv 0 s → from ≠ dest → let v := reducible_balance s from keep_alive in 0 < v →
  ExistentialDeposit <= worth (account s dest) + v →
  ∃ s', dispatch (call_transfer_all (Signed from) (Id dest) keep_alive) s = (Ok tt, s') ∧ transferred from dest v s s' ∧
    (keep_alive = true → ExistentialDeposit <= worth (account s' from)).
Proof.
  intros Hinv Hne v Hv Hdest. pose proof (acct_bounds _ _ from Hinv) as (?&?&?&?&?&?). pose proof ed_pos.
  assert (transfer_check s from dest v (if keep_alive then KeepAlive else AllowDeath) = Ok tt ∧
          (keep_alive = true → ExistentialDeposit <= worth (account s from) - v)) as [Hc Hk].
  { pose proof (worth2_le_issued _ _ _ _ Hinv Hne). pose proof (inv_issued _ _ Hinv). pose proof (acct_bounds _ _ dest Hinv) as (?&?&?&?&?&?).
    rewrite transfer_check_Ok. subst v. unfold reducible_balance in *. rewrite (total_worth _ _ _ Hinv) in *. unfold saturating_sub, worth in *.
    destruct (can_dec_provider s from), keep_alive; simpl in *; rewrite ?sub128_id in * by lia; repeat split; intros; try lia; auto; right; lia. }
  assert (wp (call_transfer_all (Signed from) (Id dest) keep_alive) (λ r s', r = Ok tt ∧ transferred from dest v s s') s) as Hw.
  { apply wp_bind, wp_ret, wp_bind, wp_gets, wp_bind, wp_bind, wp_gets, wp_ret.
    fold v. apply wp_transfer; [apply Hinv|by eapply inv_TI|lia|done|congruence|]. intros _ s1 Hm. split; [done|]. by eapply moved_transferred. }
  unfold dispatch. unfold wp in Hw. destruct (call_transfer_all _ _ _ s) as [r s1]. destruct Hw as [Hok Ht]; simpl in *. subst r.
  exists s1. split; [done|]. split; [done|]. intros Hka. rewrite (t_from _ _ _ _ _ Ht), (proj2 (Z.ltb_ge _ _)) by auto.
  rewrite worth_set_free. specialize (Hk Hka). lia.
Qed.

(** ** Single-account operations *)

(** Slashing [x] would reap an account that has consumer references. *)
Definition critical (s : Store) (who : AccountId) (x : Balance) : bool :=
  (worth (account s who) - x <? ExistentialDeposit) && negb (can_dec_provider s who) && negb (is_new s who).

(** [slash] with [δ] of negative imbalances outstanding takes all it can and accounts for
    it in the imbalance it returns.  When the account has to be kept it takes all but the
    existential deposit, but the imbalance and the dust of the failed first attempt have
    already been dropped: the issuance ends up short by the whole worth of the account. *)
Theorem slash_books δ who v s r s' :
  bal_inv δ s → 0 <= δ → 0 < v <= u128_max → slash who v s = (r, s') →
  let w := worth (account s who) in
  ∃ x, r = Ok (Neg x, v - x) ∧ 0 <= x <= v ∧
    if critical s who (v `min` w) then x = v `min` (w - ExistentialDeposit) ∧ bal_inv (δ + x - w) s'
    else x = v `min` w ∧ bal_inv (δ + x) s'.
Proof.
  intros Hinv Hδ Hv Hr w. pose proof (acct_bounds _ _ who Hinv) as (?&?&?&?&?&?). pose proof (inv_supply _ _ Hinv). pose proof (inv_issued _ _ Hinv). pose proof ed_pos.
  revert Hr. apply wp_run with (Q := λ r s', ∃ x, r = Ok (Neg x, v - x) ∧ 0 <= x <= v ∧
    if critical s who (v `min` w) then x = v `min` (w - ExistentialDeposit) ∧ bal_inv (δ + x - w) s' else x = v `min` w ∧ bal_inv (δ + x) s').
  assert (w = free (account s who) + reserved (account s who)) as Hw by done. unfold critical. fold w. apply (wp_slash δ); [done..| | |]; fold w.
  - intros Hd. exists 0. rewrite Z.sub_0_r, Z.add_0_r. split; [done|]. split; [lia|]. unfold is_new. rewrite Hd. simpl. rewrite andb_false_r.
    split; [|done]. unfold w. rewrite Hd. unfold worth. simpl. lia.
  - intros Hal Hc s1 Hm. exists (v `min` w). split; [done|]. split; [lia|].
    rewrite (proj2 (andb_false_iff _ _)) by (left; apply andb_false_iff; rewrite negb_false_iff, Z.ltb_ge; done). split; [done|].
    eapply inv_mutated; [done..| | | | | | |]; rewrite ?worth_slash_data; simpl; unfold is_u; fold u128_max; try lia.
    unfold dust. rewrite worth_slash_data. fold w. by_cases.
  - intros Hal Hlt Hc s1 s2 Hsq Hm. exists (v `min` (w - ExistentialDeposit)). split; [done|]. split; [lia|].
    rewrite Hc, (proj2 (Z.ltb_lt _ _)), (alive_not_new _ _ Hal) by lia. simpl. split; [done|].
    pose proof (inv_squared δ w s s1 Hinv Hsq ltac:(lia)) as Hinv1. pose proof (squared_account _ _ _ who Hsq) as Ha.
    assert (issued s1 = issued s) as Hi1 by (unfold issued; by rewrite (sq_accounts _ _ _ Hsq)). pose proof (inv_TI _ _ Hinv1).
    eapply inv_mutated; [done..| | | | | | |]; rewrite ?worth_slash_data, ?Ha; fold w; simpl; unfold is_u; fold u128_max; try lia.
    unfold dust. rewrite worth_slash_data. fold w. by_cases.
Qed.

(** [withdraw] answers what its checks say; on success the account is down by [v] and the
    returned imbalance accounts for it; on every error but [ConsumerRemaining] the store is
    unchanged. *)
Theorem withdraw_books δ who v reasons liveness s r s' :
  bal_inv δ s → 0 <= δ → 0 < v → withdraw who v reasons liveness s = (r, s') →
  match r with
  | Ok n => n = Neg v ∧ withdraw_check s who v reasons liveness = Ok tt ∧ bal_inv (δ + v) s' ∧
      account s' who = survive (set_free (free (account s who) - v) (account s who))
  | Err e => withdraw_check s who v reasons liveness = Err e ∧ (e ≠ ConsumerRemaining → s' = s)
  | Panic => False
  end.
Proof.
  intros Hinv Hδ Hv. pose proof (acct_bounds _ _ who Hinv) as (?&?&?&?&?&?). pose proof (inv_supply _ _ Hinv). pose proof (inv_issued _ _ Hinv).
  apply wp_run with (Q := λ r s', match r with
    | Ok n => n = Neg v ∧ withdraw_check s who v reasons liveness = Ok tt ∧ bal_inv (δ + v) s' ∧
      account s' who = survive (set_free (free (account s who) - v) (account s who))
    | Err e => withdraw_check s who v reasons liveness = Err e ∧ (e ≠ ConsumerRemaining → s' = s)
    | Panic => False end).
  apply (wp_withdraw δ); [done..| | |]; [done|done|]. intros Hc s1 Hm. split; [done|]. split; [done|]. split; [|apply Hm].
  assert (v <= free (account s who)) by (unfold withdraw_check in Hc; repeat case_match; props; done).
  eapply inv_mutated; [done..| | | | | | |]; rewrite ?worth_set_free; simpl; unfold is_u; fold u128_max; try lia.
  unfold dust. rewrite worth_set_free. unfold worth in *. by_cases.
Qed.

(** What [reserve] puts aside, [unreserve] gives back: the round trip restores every
    account and leaves nothing unreturned. *)
Theorem reserve_unreserve_roundtrip who v s s1 :
  bal_inv 0 s → 0 < v <= u128_max → reserve who v s = (Ok tt, s1) →
  reserved_balance s1 who = reserved_balance s who + v ∧
  ∃ s2, unreserve who v s1 = (Ok 0, s2) ∧ bal_inv 0 s2 ∧ ∀ k, account s2 k = account s k.
Proof.
  intros Hinv Hv Hr.
  assert (bal_inv 0 s1 ∧ account s1 who = reserve_data v (account s who) ∧ ∀ k, k ≠ who → account s1 k = account s k) as (Hinv1 & Ha1 & Hf1).
  { revert Hr. intros Hr. eapply (wp_run _ (λ r s1, r = Ok tt → bal_inv 0 s1 ∧ account s1 who = reserve_data v (account s who) ∧ ∀ k, k ≠ who → account s1 k = account s k)); [|done|done].
    apply (wp_reserve 0); [done|lia|done|]. intros Hc s2 Hm _. split; [eapply inv_reserve; [done| |done|done]; lia|]. split.
    - apply (mutated_alive _ _ _ _ Hm). rewrite worth_reserve_data. eapply reserve_alive; [done| |done]. lia.
    - intros. by apply account_accounts, (mu_frame _ _ _ _ Hm). }
  split; [unfold reserved_balance; by rewrite Ha1|].
  pose proof (acct_bounds _ _ who Hinv) as (?&?&?&?&?&?).
  assert (wp (unreserve who v) (λ r s2, r = Ok 0 ∧ bal_inv 0 s2 ∧ ∀ k, account s2 k = account s k) s1) as Hw.
  { apply (wp_unreserve_all 0); [done|lia|]. intros s2 Hinv2 Ha2 _ _ Hf2. rewrite Ha1 in *. simpl in *. rewrite Z.min_r in * by lia.
    split; [f_equal; lia|]. split; [done|]. intros k. destruct (decide (k = who)) as [->|Hk]; [|by rewrite Hf2, Hf1].
    rewrite Ha2. unfold reserve_data. simpl. destruct (account s who); simpl. f_equal; lia. }
  unfold wp in Hw. destruct (unreserve who v s1) as [r s2]. simpl in Hw. destruct Hw as (-> & Hw). eauto.
Qed.

(** [burn_from] does what [can_withdraw] predicts, for an account without reserved balance
    or one that survives: it fails with the predicted error and no effect, or takes [v] and the
    predicted dust from account and issuance alike. *)
Theorem burn_from_predicted who v s r s' :
  bal_inv 0 s → 0 < v → reserved (account s who) = 0 ∨ ExistentialDeposit <= worth (account s who) - v →
  burn_from who v s = (r, s') →
  match r with
  | Ok actual => WithdrawConsequence.withdraw_into_result (can_withdraw s who v) s = (Ok (actual - v), s) ∧ bal_inv 0 s' ∧
      TotalIssuance (bal s') = TotalIssuance (bal s) - actual
  | Err e => WithdrawConsequence.withdraw_into_result (can_withdraw s who v) s = (Err e, s) ∧ s' = s
  | Panic => False
  end.
Proof.
  intros Hinv Hv Hres. pose proof (acct_bounds _ _ who Hinv) as (?&?&?&?&?&?). pose proof (inv_supply _ _ Hinv). pose proof (inv_issued _ _ Hinv).
  apply wp_run with (Q := λ r s', match r with
  | Ok actual => WithdrawConsequence.withdraw_into_result (can_withdraw s who v) s = (Ok (actual - v), s) ∧ bal_inv 0 s' ∧
      TotalIssuance (bal s') = TotalIssuance (bal s) - actual
  | Err e => WithdrawConsequence.withdraw_into_result (can_withdraw s who v) s = (Err e, s) ∧ s' = s
  | Panic => False end).
  apply (wp_burn_from 0); [done|lia|done|done|done|]. intros Hok s1 s2 Hm Hr. destruct (can_withdraw_result 0 s who v Hinv Hv) as [[e He]|(_ & Hle & _)].
  { pose proof (Hok s) as Hok'. by rewrite He in Hok'. }
  set (actual := v + withdraw_extra s who v) in *.
  assert (0 <= actual <= free (account s who) ∧ dust (set_free (free (account s who) - actual) (account s who)) = 0) as [Ha Hd].
  { unfold dust. rewrite worth_set_free. subst actual. unfold withdraw_extra, worth in *. by_cases. }
  split; [rewrite Hok; do 2 f_equal; lia|].
  assert (bal_inv actual s1) as Hinv1.
  { eapply inv_mutated; [done..| | | | | | |]; rewrite ?Hd, ?worth_set_free; simpl; unfold is_u; fold u128_max; lia. }
  assert (TotalIssuance (bal s1) = TotalIssuance (bal s)) as Ht1.
  { rewrite (mu_bal _ _ _ _ Hm), Hd. simpl. unfold saturating_sub. pose proof (inv_TI _ _ Hinv). lia. }
  split; [|rewrite (re_bal _ _ _ Hr); simpl; lia].
  replace 0 with (actual + - actual) by lia. pose proof (inv_issuance _ _ Hinv) as [? ?]. fold u128_max in *.
  eapply inv_reissued; [done|done|simpl; lia|]. lia.
Qed.
End Conservation.

(** ** Witnesses *)

(** A transfer of one dollar, then a forced unreserve, from the two endowed accounts. *)
Lemma reachable_books_witness :
  let s' := (dispatch (balances_call (CTransfer (Id 2%N) DOLLARS) (Signed 1%N)) two_accounts).2 in
  TotalIssuance (bal s') = issued s' ∧ issued s' <= u128_max ∧
  ∀ who, account s' who = default_data ∨ ExistentialDeposit <= worth (account s' who).
Proof.
  apply (reachable_books [(1%N, 10 * DOLLARS); (2%N, 5 * DOLLARS)] (empty_store 0 0) two_accounts).
  - reflexivity.
  - vm_compute. congruence.
  - exact two_accounts_genesis.
  - apply rtc_once. eapply balances_step_intro with (c := CTransfer (Id 2%N) DOLLARS) (origin := Signed 1%N).
    + split; vm_compute; congruence.
    + apply surjective_pairing.
Defined.

Lemma transfer_spec_witness :
  let rs := transfer 1%N 2%N DOLLARS KeepAlive two_accounts in
  rs.1 = Ok tt ∧ transferred 1%N 2%N DOLLARS two_accounts rs.2.
Proof.
  destruct (transfer_spec 1%N 2%N DOLLARS KeepAlive two_accounts _ _ two_accounts_inv ltac:(reflexivity) ltac:(discriminate) (surjective_pairing _)) as [Hr Ht].
  split; [vm_compute; reflexivity|]. exact Ht.
Defined.

Lemma transfer_all_succeeds_witness :
  ∃ s', dispatch (call_transfer_all (Signed 1%N) (Id 2%N) true) two_accounts = (Ok tt, s') ∧
    transferred 1%N 2%N (9 * DOLLARS) two_accounts s' ∧ (true = true → ExistentialDeposit <= worth (account s' 1%N)).
Proof.
  change (9 * DOLLARS) with (10 * DOLLARS - DOLLARS).
  replace (10 * DOLLARS - DOLLARS) with (reducible_balance two_accounts 1%N true) by (vm_compute; reflexivity).
  apply (transfer_all_succeeds 1%N 2%N true two_accounts two_accounts_inv).
  - discriminate.
  - vm_compute. reflexivity.
  - vm_compute. congruence.
Defined.

(** Slashing everything from the account with a consumer leaves the issuance short. *)
Lemma slash_books_witness :
  let s' := (slash 1%N (10 * DOLLARS) one_consumer).2 in
  critical one_consumer 1%N (10 * DOLLARS) = true ∧ bal_inv (9 * DOLLARS - 10 * DOLLARS) s'.
Proof.
  split; [vm_compute; reflexivity|].
  destruct (slash_books 0 1%N (10 * DOLLARS) one_consumer _ _ one_consumer_inv ltac:(lia) ltac:(split; vm_compute; congruence) (surjective_pairing _))
    as (x & _ & _ & Hx).
  revert Hx. replace (critical _ _ _) with true by (vm_compute; reflexivity). intros [-> Hinv]. exact Hinv.
Defined.

Lemma withdraw_books_witness :
  let s' := (withdraw 1%N DOLLARS TIP AllowDeath two_accounts).2 in bal_inv DOLLARS s'.
Proof.
  pose proof (withdraw_books 0 1%N DOLLARS TIP AllowDeath two_accounts _ _ two_accounts_inv ltac:(lia) ltac:(reflexivity) (surjective_pairing _)) as H.
  revert H. replace (withdraw 1%N DOLLARS TIP AllowDeath two_accounts).1 with (Ok (E := DispatchError) (Neg DOLLARS)) by (vm_compute; reflexivity).
  intros (_ & _ & Hinv & _). exact Hinv.
Defined.

Lemma reserve_unreserve_witness :
  let s1 := (reserve 1%N DOLLARS two_accounts).2 in
  reserved_balance s1 1%N = reserved_balance two_accounts 1%N + DOLLARS ∧
  ∃ s2, unreserve 1%N DOLLARS s1 = (Ok 0, s2) ∧ bal_inv 0 s2 ∧ ∀ k, account s2 k = account two_accounts k.
Proof.
  apply (reserve_unreserve_roundtrip 1%N DOLLARS two_accounts _ two_accounts_inv).
  - split; vm_compute; congruence.
  - vm_compute. reflexivity.
Defined.

Lemma burn_from_predicted_witness :
  let s' := (burn_from 1%N DOLLARS two_accounts).2 in bal_inv 0 s' ∧ TotalIssuance (bal s') = 14 * DOLLARS.
Proof.
  pose proof (burn_from_predicted 1%N DOLLARS two_accounts _ _ two_accounts_inv ltac:(reflexivity) ltac:(left; vm_compute; reflexivity) (surjective_pairing _)) as H.
  revert H. replace (burn_from 1%N DOLLARS two_accounts).1 with (Ok (E := DispatchError) DOLLARS) by (vm_compute; reflexivity).
  intros (_ & Hinv & Ht). split; [exact Hinv|]. rewrite Ht. vm_compute. reflexivity.
Defined.
