(* ===== verification/ReserveProps.v ===== *)
(** Properties of reserves, named reserves and locks of [pallet_balances]. *)

From S2P Require Import Prelude Runtime System Balances Ledger Transfers Currencies NamedReserves Locking Indices Calls BalancesProps.

#[local] Existing Instance node_balances.

Section Reserves.
  Context {cfg : BalancesConfig} {laws : BalancesLaws cfg}.

(** [repatriate_reserved] between two accounts moves as much of [v] as is reserved and
    returns the shortfall; the sum of both accounts is kept, up to the dust of a reaped sender,
    which leaves the issuance too, and the books stay balanced. *)
Theorem repatriate_reserved_books slashed beneficiary v status s r s' :
  bal_inv 0 s → 0 < v <= u128_max → slashed ≠ beneficiary → repatriate_reserved slashed beneficiary v status s = (r, s') →
  let a := account s slashed in
  let actual := reserved a `min` v in
  match r with
  | Ok shortfall => shortfall = v - actual ∧ bal_inv 0 s' ∧ account s' beneficiary = credit status actual (account s beneficiary) ∧
      account s' slashed = survive (set_reserved (reserved a - actual) a)
  | Err e => e = Module_ (BalancesE DeadAccount) ∧ is_new s beneficiary = true ∧ s' = s ∨
      e = ConsumerRemaining ∧ worth a - actual < ExistentialDeposit
  | Panic => False
  end.
Proof.
  intros Hinv Hv Hne. pose proof (acct_bounds _ _ slashed Hinv) as (?&?&?&?&?&?). pose proof (acct_bounds _ _ beneficiary Hinv) as (?&?&?&?&?&?).
  pose proof (inv_supply _ _ Hinv). pose proof (inv_issued _ _ Hinv). pose proof (worth2_le_issued _ _ _ _ Hinv Hne) as Hsum.
  intros Hr a actual. revert Hr. apply wp_run with (Q := λ r s', match r with
  | Ok shortfall => shortfall = v - actual ∧ bal_inv 0 s' ∧ account s' beneficiary = credit status actual (account s beneficiary) ∧
      account s' slashed = survive (set_reserved (reserved a - actual) a)
  | Err e => e = Module_ (BalancesE DeadAccount) ∧ is_new s beneficiary = true ∧ s' = s ∨
      e = ConsumerRemaining ∧ worth a - actual < ExistentialDeposit
  | Panic => False end).
  apply wp_bind. apply (wp_do_transfer_reserved 0); [done|lia|done|auto|done|auto|]. fold a actual. intros Hn _ s1 Hm. apply wp_ret.
  assert (0 <= actual <= v ∧ actual <= reserved (account s slashed)) as [Hact Hact'] by (subst actual a; lia).
  rewrite saturating_sub_id by lia. split; [done|]. split; [|split; apply Hm].
  pose proof (not_new_alive _ _ _ Hinv Hn) as Hal. unfold worth in *.
  eapply inv_moved; [done..| | | | | | |]; subst a; simpl; unfold is_u; fold u128_max; try lia.
  - split; destruct status; simpl; unfold is_u; fold u128_max; try lia; right; unfold worth; simpl; lia.
  - destruct status; unfold worth; simpl; lia.
  - unfold dust, worth; simpl. by_cases.
Qed.

(** C11. A named reserve is a finite map: [reserve_named] of a positive [v] adds it under [id] (saturating), keeps the list
    sorted, and moves [v] to the reserved balance; any error leaves the store unchanged. *)
Theorem reserve_named_refines id who v s r s' :
  bal_inv 0 s → sorted (reserves s who) → 0 < v → reserve_named id who v s = (r, s') →
  match r with
  | Ok _ => bal_inv 0 s' ∧ sorted (reserves s' who) ∧ reserved_balance s' who = reserved_balance s who + v ∧
      named s' who = <[id := match named s who !! id with Some x => saturating_add 128 x v | None => v end]> (named s who)
  | Err e => s' = s ∧ (e = Module_ (BalancesE TooManyReserves) ∧ named s who !! id = None ∨ reserve_check s who v = Err e)
  | Panic => False
  end.
Proof.
  intros Hinv Hs Hv. apply wp_run with (Q := λ r s', match r with
  | Ok _ => bal_inv 0 s' ∧ sorted (reserves s' who) ∧ reserved_balance s' who = reserved_balance s who + v ∧
      named s' who = <[id := match named s who !! id with Some x => saturating_add 128 x v | None => v end]> (named s who)
  | Err e => s' = s ∧ (e = Module_ (BalancesE TooManyReserves) ∧ named s who !! id = None ∨ reserve_check s who v = Err e)
  | Panic => False end).
  apply (wp_reserve_named 0); [done|done|done|auto|auto|]. intros _ s1 Hinv1 Ha Hs1 Hn _. unfold reserved_balance. rewrite Ha. done.
Qed.

(** The search finds what the map holds: [reserved_balance_named] is the map's value, and
    zero for an identifier without a reserve. *)
Theorem reserved_balance_named_refines s id who :
  sorted (reserves s who) → reserved_balance_named s id who = default 0 (named s who !! id).
Proof. intros Hs. unfold reserved_balance_named, named. by apply named_balance. Qed.

(** What was reserved under a fresh name can be unreserved in full: the round trip
    restores every account and the named reserves of [who]. *)
Theorem named_roundtrip id who v s s1 :
  bal_inv 0 s → sorted (reserves s who) → 0 < v <= u128_max → named s who !! id = None →
  reserve_named id who v s = (Ok tt, s1) →
  reserved_balance_named s1 id who = v ∧
  ∃ s2, unreserve_named id who v s1 = (Ok 0, s2) ∧ bal_inv 0 s2 ∧ named s2 who = named s who ∧ ∀ k, account s2 k = account s k.
Proof.
  intros Hinv Hs Hv Hnone Hr. pose proof (acct_bounds _ _ who Hinv) as (?&?&?&?&?&?).
  assert (bal_inv 0 s1 ∧ account s1 who = reserve_data v (account s who) ∧ sorted (reserves s1 who) ∧
    named s1 who = <[id := v]> (named s who) ∧ ∀ k, k ≠ who → account s1 k = account s k) as (Hinv1 & Ha1 & Hs1 & Hn1 & Hf1).
  { revert Hr. intros Hr. eapply (wp_run _ (λ r s1, r = Ok tt → bal_inv 0 s1 ∧ account s1 who = reserve_data v (account s who) ∧ sorted (reserves s1 who) ∧
      named s1 who = <[id := v]> (named s who) ∧ ∀ k, k ≠ who → account s1 k = account s k)); [|done|done].
    apply (wp_reserve_named 0); [done|done|lia|done|done|]. rewrite Hnone. intros _ s2 Hinv2 Ha2 Hs2 Hn2 Hf2 _. do 4 (split; [done|]). intros k Hk. by apply Hf2. }
  split; [unfold reserved_balance_named; by rewrite named_balance by done; fold (named s1 who); rewrite Hn1, lookup_insert_eq|].
  assert (wp (unreserve_named id who v) (λ r s2, r = Ok 0 ∧ bal_inv 0 s2 ∧ named s2 who = named s who ∧ ∀ k, account s2 k = account s k) s1) as Hw.
  { apply (wp_unreserve_named 0); [done|done|done|..]; rewrite ?Hn1, ?lookup_insert_eq.
    - intros x [= <-]. unfold is_u. fold u128_max. lia.
    - done.
    - intros x [= <-] actual s2 Hinv2 Ha2 Hs2 Hn2 Hf2. assert (actual = v) as Hact by (subst actual; rewrite Ha1; simpl; lia).
      clearbody actual. subst actual. rewrite Ha1 in Ha2. split; [f_equal; lia|]. split; [done|]. split.
      + rewrite Hn2. unfold leave_named. rewrite Z.sub_diag. simpl. by rewrite delete_insert_id.
      + intros k. destruct (decide (k = who)) as [->|Hk]; [|by rewrite (proj1 (Hf2 k Hk)), Hf1].
        rewrite Ha2. unfold reserve_data. simpl. destruct (account s who); simpl. f_equal; lia. }
  unfold wp in Hw. destruct (unreserve_named id who v s1) as [r s2]. simpl in Hw. destruct Hw as (-> & Hw). eauto.
Qed.

(** Repatriating an account's reserve to itself as reserved moves nothing and returns
    the smaller of [v] and the reserved balance, not the shortfall: with the whole of [v]
    reserved, it reports that all of [v] could not be moved. *)
Theorem self_repatriate_returns who v s :
  bal_inv 0 s → 0 < v → repatriate_reserved who who v Reserved s = (Ok (v `min` reserved_balance s who), s).
Proof.
  intros Hinv Hv. pose proof (acct_bounds _ _ who Hinv) as (?&?&?&?&?&?).
  unfold repatriate_reserved, do_transfer_reserved, bind. rewrite (proj2 (Z.eqb_neq v 0)), bool_decide_eq_true_2 by (done || lia).
  unfold gets, ret, reserved_balance, saturating_sub. do 2 f_equal. lia.
Qed.

(** ** Locks *)

(** [set_lock] never fails: the locks of [who] stay one per identifier and become the old
    ones with the new lock under its identifier, the frozen amounts of an existing account are
    the maxima over its locks, and its balances and the books do not change. *)
Theorem set_lock_refines id who amount reasons s r s' :
  bal_inv 0 s → distinct (locks s who) → Forall (λ x, lock_amount x <= u128_max) (locks s who) →
  0 < amount <= u128_max → reasons ≠ 0 → set_lock id who amount reasons s = (r, s') →
  r = Ok tt ∧ bal_inv 0 s' ∧ distinct (locks s' who) ∧
  lock_map (locks s' who) = <[id := mkLock id amount (reasons_from reasons)]> (lock_map (locks s who)) ∧
  (is_new s who = false → account s' who = mkData (free (account s who)) (reserved (account s who))
     (lock_max freezes_misc (locks s' who)) (lock_max freezes_fee (locks s' who))) ∧
  (is_new s who = false → has_locks s who = false → consumers (info s' who) = (consumers (info s who) + 1) `min` u32_max).
Proof.
  intros Hinv Hd Hl Ham Hre. apply wp_run with (Q := λ r s', r = Ok tt ∧ bal_inv 0 s' ∧ distinct (locks s' who) ∧
    lock_map (locks s' who) = <[id := mkLock id amount (reasons_from reasons)]> (lock_map (locks s who)) ∧
    (is_new s who = false → account s' who = mkData (free (account s who)) (reserved (account s who))
     (lock_max freezes_misc (locks s' who)) (lock_max freezes_fee (locks s' who))) ∧
    (is_new s who = false → has_locks s who = false → consumers (info s' who) = (consumers (info s who) + 1) `min` u32_max)).
  unfold set_lock. rewrite (proj2 (Z.eqb_neq amount 0)), (proj2 (Z.eqb_neq reasons 0)) by lia. simpl. apply wp_bind, wp_gets.
  set (nl := mkLock id amount (reasons_from reasons)).
  destruct (place_lock_spec (λ _ nl, nl) nl (locks s who) Hd ltac:(done)) as [Hd' Hm']. simpl in Hm'.
  apply (wp_update_locks 0); [done|apply place_lock_amounts; [simpl; lia|done]|].
  intros s1 [Hinv1 Ha1 Hl1 _ Hc1 _ _ _ _ _]. rewrite Hl1. split; [done|]. split; [done|]. split; [done|]. split; [|split].
  - rewrite Hm'. f_equal. by destruct (_ !! _).
  - intros Hn. rewrite Ha1. unfold locked_data. by rewrite Hn.
  - intros Hn Hh. rewrite Hc1 by done. unfold lock_consumers. rewrite Hh. destruct (place_lock _ _ _) eqn:Hp; [|done].
    exfalso. pose proof (lookup_insert_eq (lock_map (locks s who)) id (from_option (λ _, nl) nl (lock_map (locks s who) !! id))) as Hx. by rewrite <- Hm' in Hx.
Qed.

(** A lock for more than fees holds against transfers: after [set_lock], a transfer out of
    the account that succeeds leaves at least the locked amount, or (for a lock below the
    existential deposit, on an account that something else provides for) reaps the account. *)
Theorem lock_holds_against_transfer id who dest amount reasons v req s s1 s2 :
  bal_inv 0 s → distinct (locks s who) → Forall (λ x, lock_amount x <= u128_max) (locks s who) →
  0 < amount <= u128_max → freezes_misc (reasons_from reasons) = true → reasons ≠ 0 → is_new s who = false →
  set_lock id who amount reasons s = (Ok tt, s1) → 0 < v → who ≠ dest → transfer who dest v req s1 = (Ok tt, s2) →
  amount <= free (account s2 who) ∨ amount < ExistentialDeposit ∧ can_dec_provider s1 who = true ∧ account s2 who = default_data.
Proof.
  intros Hinv Hd Hl Ham Hf Hre Hn Hset Hv Hne Htr.
  assert (bal_inv 0 s1 ∧ amount <= misc_frozen (account s1 who)) as [Hinv1 Hmisc].
  { refine (wp_run _ (λ r s1, bal_inv 0 s1 ∧ amount <= misc_frozen (account s1 who)) _ _ _ _ Hset).
    unfold set_lock. rewrite (proj2 (Z.eqb_neq amount 0)), (proj2 (Z.eqb_neq reasons 0)) by lia. simpl. apply wp_bind, wp_gets.
    apply (wp_update_locks 0); [done|apply place_lock_amounts; [simpl; lia|done]|]. intros s3 [Hinv3 Ha3 _ _ _ _ _ _ _ _]. split; [done|].
    rewrite Ha3. unfold locked_data. rewrite Hn. simpl. apply (lock_max_ge _ _ (mkLock id amount (reasons_from reasons))); [|done].
    by apply place_lock_in. }
  pose proof (acct_bounds _ _ who Hinv1) as (?&?&?&?&?&?).
  refine (wp_run _ (λ r s2, r = Ok tt → _) _ _ _ _ Htr eq_refl).
  apply wp_transfer; [apply Hinv1|by eapply inv_TI|lia|done|done|]. intros Hc s3 Hm _.
  pose proof (t_from _ _ _ _ _ (moved_transferred _ _ _ _ _ _ Hinv1 Hv Hne Hc Hm)) as ->.
  apply transfer_check_Ok in Hc as (_ & _ & _ & Hfr & Hlive).
  destruct (Z.ltb_spec (worth (account s1 who) - v) ExistentialDeposit) as [Hd'|_]; [right|left; simpl; lia].
  unfold worth in *. naive_solver lia.
Qed.
End Reserves.

(** ** Burning with a reserved balance *)

(** One account that holds exactly the existential deposit, half of it reserved. *)
Definition half_reserved : Store :=
  (reserve 1%N (DOLLARS / 2) (genesis_build [(1%N, DOLLARS)] (empty_store 0 0)).2).2.

(** When burning [1] leaves less than the existential deposit of which part is reserved,
    [burn_from] takes the whole worth of the account from the free balance alone, which wraps
    around: burning one unit leaves the account with a free balance close to [2^128]. *)
Theorem burn_from_reserved_wraps :
  let '(r, s') := burn_from 1%N 1 half_reserved in
  worth (account half_reserved 1%N) = DOLLARS ∧ r = Ok DOLLARS ∧ free (account s' 1%N) = 2 ^ 128 - DOLLARS / 2.
Proof. vm_compute. repeat split. Qed.

(** ** Witnesses *)

Lemma half_reserved_inv : bal_inv 0 half_reserved.
Proof.
  assert (sum_balances [(1%N, DOLLARS)] <= u128_max) as Hs by (vm_compute; congruence).
  assert (genesis_build [(1%N, DOLLARS)] (empty_store 0 0) = (Ok tt, (genesis_build [(1%N, DOLLARS)] (empty_store 0 0)).2)) as Hg by (vm_compute; reflexivity).
  destruct (wp_run _ _ _ _ _ (genesis_books _ (empty_store 0 0) eq_refl Hs) Hg) as [Hinv _].
  assert (wp (reserve 1%N (DOLLARS / 2)) (λ _ s', bal_inv 0 s') (genesis_build [(1%N, DOLLARS)] (empty_store 0 0)).2) as Hw; [|exact Hw].
  apply (wp_reserve 0); [done|reflexivity|by intros|]. intros Hc s' Hm. eapply inv_reserve; [exact Hinv| |exact Hc|exact Hm]. vm_compute. congruence.
Qed.

Lemma repatriate_reserved_witness :
  let s := (reserve 1%N DOLLARS two_accounts).2 in
  let rs := repatriate_reserved 1%N 2%N (2 * DOLLARS) Free s in
  rs.1 = Ok DOLLARS ∧ bal_inv 0 rs.2.
Proof.
  intros s rs. assert (bal_inv 0 s) as Hinv.
  { assert (wp (reserve 1%N DOLLARS) (λ _ s', bal_inv 0 s') two_accounts) as Hw; [|exact Hw].
    apply (wp_reserve 0); [apply two_accounts_inv|reflexivity|intros; apply two_accounts_inv|].
    intros Hc s' Hm. eapply inv_reserve; [apply two_accounts_inv| |exact Hc|exact Hm]. vm_compute. congruence. }
  pose proof (repatriate_reserved_books 1%N 2%N (2 * DOLLARS) Free s _ _ Hinv ltac:(split; vm_compute; congruence) ltac:(discriminate) (surjective_pairing _)) as H.
  assert (rs.1 = Ok DOLLARS) as Hr by (vm_compute; reflexivity). split; [exact Hr|]. fold rs in H. rewrite Hr in H. apply H.
Defined.

Lemma reserve_named_witness :
  let s' := (reserve_named 7 1%N DOLLARS two_accounts).2 in
  bal_inv 0 s' ∧ named s' 1%N = <[7 := DOLLARS]> ∅.
Proof.
  intros s'.
  pose proof (reserve_named_refines 7 1%N DOLLARS two_accounts _ _ two_accounts_inv ltac:(constructor) ltac:(reflexivity) (surjective_pairing _)) as H.
  revert H. replace (reserve_named 7 1%N DOLLARS two_accounts).1 with (Ok (E := DispatchError) tt) by (vm_compute; reflexivity).
  intros (Hinv & _ & _ & Hn). split; [exact Hinv|exact Hn].
Defined.

Lemma reserved_balance_named_witness :
  let s := (reserve_named 7 1%N DOLLARS two_accounts).2 in
  reserved_balance_named s 7 1%N = DOLLARS ∧ default 0 (named s 1%N !! 7) = DOLLARS.
Proof.
  intros s. assert (sorted (reserves s 1%N)) as Hs by (vm_compute; constructor; constructor).
  pose proof (reserved_balance_named_refines s 7 1%N Hs) as H. assert (reserved_balance_named s 7 1%N = DOLLARS) as Hr by (vm_compute; reflexivity).
  split; [exact Hr|]. rewrite <- H. exact Hr.
Defined.

Lemma named_roundtrip_witness :
  let s1 := (reserve_named 7 1%N DOLLARS two_accounts).2 in
  reserved_balance_named s1 7 1%N = DOLLARS ∧
  ∃ s2, unreserve_named 7 1%N DOLLARS s1 = (Ok 0, s2) ∧ bal_inv 0 s2 ∧ named s2 1%N = named two_accounts 1%N ∧
    ∀ k, account s2 k = account two_accounts k.
Proof.
  apply (named_roundtrip 7 1%N DOLLARS two_accounts _ two_accounts_inv).
  - constructor.
  - split; vm_compute; congruence.
  - reflexivity.
  - vm_compute. reflexivity.
Defined.

Lemma self_repatriate_witness :
  repatriate_reserved 1%N 1%N (DOLLARS / 2) Reserved half_reserved = (Ok (DOLLARS / 2), half_reserved).
Proof. apply (self_repatriate_returns 1%N (DOLLARS / 2) half_reserved half_reserved_inv). reflexivity. Defined.

Lemma set_lock_witness :
  let s' := (set_lock 3 1%N DOLLARS TRANSFER two_accounts).2 in
  bal_inv 0 s' ∧ lock_map (locks s' 1%N) = <[3 := mkLock 3 DOLLARS Misc]> ∅.
Proof.
  intros s'.
  destruct (set_lock_refines 3 1%N DOLLARS TRANSFER two_accounts _ _ two_accounts_inv ltac:(constructor) ltac:(constructor)
    ltac:(split; vm_compute; congruence) ltac:(discriminate) (surjective_pairing _)) as (_ & Hinv & _ & Hm & _).
  split; [exact Hinv|exact Hm].
Defined.

Lemma lock_holds_witness :
  let s1 := (set_lock 3 1%N (4 * DOLLARS) TRANSFER two_accounts).2 in
  4 * DOLLARS <= free (account (transfer 1%N 2%N (6 * DOLLARS) KeepAlive s1).2 1%N).
Proof.
  intros s1.
  destruct (lock_holds_against_transfer 3 1%N 2%N (4 * DOLLARS) TRANSFER (6 * DOLLARS) KeepAlive two_accounts s1
    (transfer 1%N 2%N (6 * DOLLARS) KeepAlive s1).2) as [Hfree|[Hsmall _]].
  - exact two_accounts_inv.
  - constructor.
  - constructor.
  - split; vm_compute; congruence.
  - reflexivity.
  - discriminate.
  - vm_compute. reflexivity.
  - vm_compute. reflexivity.
  - reflexivity.
  - discriminate.
  - vm_compute. reflexivity.
  - exact Hfree.
  - discriminate Hsmall.
Defined.
