(* ===== verification/IndicesOnBalances.v ===== *)
(** [pallet_balances] as the currency of [pallet_indices] ([type Currency = Balances] in
    [bin/node/runtime/src/lib.rs]): the laws of the interface hold. *)

From S2P Require Import Prelude Runtime System Balances Ledger Transfers Currencies NamedReserves Locking Indices Calls BalancesProps.

Section Instance_.
  Context {cfg : BalancesConfig} {laws : BalancesLaws cfg}.

#[export] Instance balances_reservable : ReservableCurrency := {|
  rc_imbalance := NegativeImbalance;
  rc_drop := drop_negative;
  rc_minimum_balance := ExistentialDeposit;
  rc_reserve := reserve;
  rc_unreserve := unreserve;
  rc_slash_reserved := slash_reserved;
  rc_repatriate_reserved := repatriate_reserved |}.

(** The books, up to the amount by which the issuance is off. *)
Definition books (s : Store) : Prop := ∃ δ, bal_inv δ s.

Lemma others_indices s s' : others s' = others s → indices s' = indices s.
Proof. unfold others. congruence. Qed.

Lemma books_squared d s s' : books s → 0 <= d → squared d s s' → books s'.
Proof.
  intros [δ [Hs Hd Hsu [Ht Ht'] Hi]] Hd0 Hq. exists (TotalIssuance (bal s') - issued s).
  assert (issued s' = issued s) as Hi' by (unfold issued; by rewrite (sq_accounts _ _ _ Hq)).
  split; rewrite ?Hi'; try lia.
  - by eapply squared_sys_ok.
  - intros k. by rewrite (squared_account _ _ _ _ Hq).
  - rewrite (sq_bal _ _ _ Hq). simpl. unfold is_u, saturating_sub in *. lia.
Qed.

(** Settling one account at no more than it was worth. *)
Lemma books_mutated who a s s' :
  books s → mutated who a s s' → 0 <= free a → 0 <= reserved a → misc_frozen a = misc_frozen (account s who) →
  fee_frozen a = fee_frozen (account s who) → worth a <= worth (account s who) → books s'.
Proof.
  intros [δ Hinv] Hm Hf Hr Hmi Hfe Hw. pose proof (acct_bounds _ _ who Hinv) as (?&?&?&?&?&?). pose proof (issued_update _ _ _ (mu_frame _ _ _ _ Hm)) as Hi.
  rewrite (mu_account _ _ _ _ Hm), worth_survive in Hi. pose proof (inv_issued _ _ Hinv).
  assert (0 <= dust a) by (unfold dust, worth; case_match; lia).
  exists (TotalIssuance (bal s') - issued s'). pose proof (inv_issuance _ _ Hinv) as [? ?]. fold u128_max in *.
  split; [apply Hm| |lia| |lia].
  - intros k. destruct (decide (k = who)) as [->|Hne].
    + rewrite (mu_account _ _ _ _ Hm). unfold worth in Hw. apply survive_ok; unfold is_u; fold u128_max; lia.
    + rewrite (account_accounts s s'); [apply (inv_data _ _ Hinv)|by apply (mu_frame _ _ _ _ Hm)].
  - rewrite (mu_bal _ _ _ _ Hm). simpl. unfold is_u, saturating_sub. fold u128_max. lia.
Qed.

(** The reserved balance that is left in an account settled at [set_reserved x a]. *)
Lemma reserved_left who x s s' a :
  mutated who (set_reserved x a) s s' → 0 <= free a → left_or_reaped ExistentialDeposit x (reserved (account s' who)).
Proof.
  intros Hm Hf. rewrite (mu_account _ _ _ _ Hm). unfold survive, left_or_reaped.
  destruct (Z.ltb_spec (worth (set_reserved x a)) ExistentialDeposit) as [Hlt|]; [|by left].
  right. unfold worth in Hlt. simpl in *. lia.
Qed.

Lemma balances_reserve_law s who v : books s → 0 <= v <= u128_max →
  wp (reserve who v) (λ r s', match r with
      | Ok _ => books s' ∧ indices s' = indices s ∧ reserved (account s' who) = reserved (account s who) + v ∧
          ∀ k, k ≠ who → reserved (account s' k) = reserved (account s k)
      | Err _ => s' = s
      | Panic => False end) s.
Proof.
  intros [δ Hinv] Hv. destruct (decide (v = 0)) as [->|Hv0].
  { apply wp_ret. split; [by exists δ|]. split; [done|]. split; [lia|done]. }
  apply (wp_reserve δ); [done|lia|done|]. intros Hc s' Hm. pose proof (reserve_alive δ who v s Hinv ltac:(lia) Hc) as Ha.
  split; [exists δ; eapply inv_reserve; [done| |done..]; lia|]. split; [apply others_indices, Hm|]. split.
  - by rewrite (mutated_alive _ _ _ _ Hm) by (by rewrite worth_reserve_data).
  - intros k Hk. rewrite (account_accounts s s'); [done|by apply (mu_frame _ _ _ _ Hm)].
Qed.

Lemma balances_unreserve_law s who v : books s → 0 <= v <= u128_max →
  wp (unreserve who v) (λ r s', match r with
      | Ok rem => books s' ∧ indices s' = indices s ∧ rem = v - reserved (account s who) `min` v ∧
          reserved (account s' who) = reserved (account s who) - reserved (account s who) `min` v ∧
          ∀ k, k ≠ who → reserved (account s' k) = reserved (account s k)
      | _ => False end) s.
Proof.
  intros [δ Hinv] Hv. apply (wp_unreserve_all δ); [done..|]. intros s' Hinv' Ha _ Ho Hf.
  split; [by exists δ|]. split; [by apply others_indices|]. split; [done|]. split; [by rewrite Ha|].
  intros k Hk. by rewrite Hf.
Qed.

(** After [x] was slashed from the reserved balance in a state [s0] with the accounts of [s],
    and the imbalance dropped. *)
Lemma slash_reserved_done s s0 s1 s' who v x :
  books s0 → accounts s0 = accounts s → indices s0 = indices s →
  mutated who (set_reserved (reserved (account s who) - x) (account s who)) s0 s1 → squared x s1 s' →
  0 <= x <= v → x <= reserved (account s who) →
  books s' ∧ indices s' = indices s ∧ 0 <= v - x <= v ∧
  left_or_reaped ExistentialDeposit (reserved (account s who) - (reserved (account s who) `min` (v - (v - x)))) (reserved (account s' who)) ∧
  ∀ k, k ≠ who → reserved (account s' k) = reserved (account s k).
Proof.
  intros Hb Ha Hi Hm Hq Hx Hxr. assert (∀ k, account s0 k = account s k) as Hacc by (intros; apply account_accounts; by rewrite Ha).
  assert (0 <= free (account s who)) as Hf by (destruct Hb as [δ Hinv]; rewrite <- Hacc; by apply (acct_bounds _ _ who Hinv)).
  split; [|split; [|split; [lia|split]]].
  - eapply books_squared; [|apply Hx|done]. eapply books_mutated; [done..| | | | |]; rewrite ?worth_set_reserved, ?Hacc; simpl; try done; lia.
  - rewrite (others_indices _ _ (sq_others _ _ _ Hq)), (others_indices _ _ (mu_others _ _ _ _ Hm)). done.
  - rewrite (squared_account _ _ _ _ Hq). replace (reserved (account s who) `min` (v - (v - x))) with x by lia.
    by eapply reserved_left.
  - intros k Hk. rewrite (squared_account _ _ _ _ Hq), (account_accounts s0 s1) by (by apply (mu_frame _ _ _ _ Hm)). by rewrite Hacc.
Qed.

Lemma balances_slash_reserved_law s who v : books s → 0 <= v <= u128_max →
  wp (let! r := slash_reserved who v in do! drop_value r.1 in ret r.2) (λ r s', match r with
      | Ok rem => books s' ∧ indices s' = indices s ∧ 0 <= rem <= v ∧
          left_or_reaped ExistentialDeposit (reserved (account s who) - (reserved (account s who) `min` (v - rem))) (reserved (account s' who)) ∧
          ∀ k, k ≠ who → reserved (account s' k) = reserved (account s k)
      | _ => False end) s.
Proof.
  intros Hb Hv. pose proof Hb as [δ Hinv].
  pose proof (acct_bounds _ _ who Hinv) as (?&?&?&?&?&?). apply wp_bind.
  assert (∀ rem, 0 <= rem <= v → reserved (account s who) = 0 ∨ rem = v → ∀ s', squared 0 s s' →
    books s' ∧ indices s' = indices s ∧ 0 <= rem <= v ∧
    left_or_reaped ExistentialDeposit (reserved (account s who) - reserved (account s who) `min` (v - rem)) (reserved (account s' who)) ∧
    ∀ k, k ≠ who → reserved (account s' k) = reserved (account s k)) as Hno.
  { intros rem Hr Hz s' Hq. split; [eapply books_squared; [done| |done]; lia|]. split; [apply others_indices, Hq|]. split; [done|].
    split; [left; rewrite (squared_account _ _ _ _ Hq); lia|]. intros. by rewrite (squared_account _ _ _ _ Hq). }
  destruct (decide (v = 0)) as [->|Hv0].
  { apply wp_ret, wp_bind, wp_drop_negative. intros s' Hq. apply wp_ret, Hno; simpl in *; [lia|by right|done]. }
  apply (wp_slash_reserved δ); [done|lia|..].
  - intros Hd. apply wp_bind, wp_drop_negative. intros s' Hq. apply wp_ret, Hno; simpl in *; [lia|by right|done].
  - intros Hed Hok s1 Hm. apply wp_bind, wp_drop_negative. intros s' Hq. apply wp_ret. simpl in *. eapply slash_reserved_done; [done..| |]; lia.
  - intros Hed Hlt Hcan s1 s2 Hq1 Hm. apply wp_bind, wp_drop_negative. intros s' Hq. apply wp_ret. simpl in *.
    assert (books s1) by (eapply books_squared; [done| |done]; pose proof ed_pos; lia).
    eapply slash_reserved_done; [done|apply Hq1|apply others_indices, Hq1|done|done|..]; unfold worth in *; lia.
Qed.

Lemma books_moved from dest a b s s' :
  books s → from ≠ dest → moved from dest a b s s' → 0 <= free a → 0 <= reserved a → misc_frozen a = misc_frozen (account s from) →
  fee_frozen a = fee_frozen (account s from) → worth a <= worth (account s from) → data_ok b →
  worth a + worth b = worth (account s from) + worth (account s dest) → books s'.
Proof.
  intros [δ Hinv] Hne Hm Hf Hr Hmi Hfe Hw Hb Hsum. pose proof (acct_bounds _ _ from Hinv) as (?&?&?&?&?&?).
  pose proof (issued_moved _ _ _ _ _ _ Hne Hm) as Hi. pose proof (inv_issued _ _ Hinv).
  assert (0 <= dust a) by (unfold dust, worth; case_match; lia).
  exists (TotalIssuance (bal s') - issued s'). pose proof (inv_issuance _ _ Hinv) as [? ?]. fold u128_max in *.
  split; [apply Hm| |lia| |lia].
  - intros k. destruct (decide (k = from)) as [->|Hkf].
    + rewrite (mv_from _ _ _ _ _ _ Hm). unfold worth in Hw. apply survive_ok; unfold is_u; fold u128_max; lia.
    + destruct (decide (k = dest)) as [->|Hkd]; [by rewrite (mv_dest _ _ _ _ _ _ Hm)|].
      rewrite (account_accounts s s'); [apply (inv_data _ _ Hinv)|by apply (mv_frame _ _ _ _ _ _ Hm)].
  - rewrite (mv_bal _ _ _ _ _ _ Hm). simpl. unfold is_u, saturating_sub. fold u128_max. lia.
Qed.

Lemma balances_repatriate_law s slashed beneficiary v : books s → 0 <= v <= u128_max → slashed ≠ beneficiary →
  wp (repatriate_reserved slashed beneficiary v Reserved) (λ r s', match r with
      | Ok lost => books s' ∧ indices s' = indices s ∧ lost = v - reserved (account s slashed) `min` v ∧
          left_or_reaped ExistentialDeposit (reserved (account s slashed) - reserved (account s slashed) `min` v) (reserved (account s' slashed)) ∧
          reserved (account s' beneficiary) = reserved (account s beneficiary) + reserved (account s slashed) `min` v ∧
          ∀ k, k ≠ slashed → k ≠ beneficiary → reserved (account s' k) = reserved (account s k)
      | Err _ => True
      | Panic => False end) s.
Proof.
  intros [δ Hinv] Hv Hne. pose proof (acct_bounds _ _ slashed Hinv) as (?&?&?&?&?&?). pose proof (acct_bounds _ _ beneficiary Hinv) as (?&?&?&?&?&?).
  apply wp_bind. destruct (decide (v = 0)) as [->|Hv0].
  { apply wp_ret, wp_ret. rewrite Z.min_r by lia. split; [by exists δ|]. split; [done|]. split; [done|]. split; [left; lia|]. split; [lia|done]. }
  apply (wp_do_transfer_reserved δ); [done|lia|done|done|done|done|]. intros Hn _ s' Hm. apply wp_ret. simpl in Hm.
  pose proof (worth2_le_issued _ _ _ _ Hinv Hne) as Hsum. pose proof (inv_issued _ _ Hinv). pose proof (not_new_alive _ _ _ Hinv Hn) as Hal.
  unfold worth in Hsum, Hal. rewrite saturating_sub_id by lia. split; [|split; [|split; [done|split; [|split]]]].
  - eapply books_moved; [by exists δ|done|done|..]; rewrite ?worth_set_reserved; simpl; try done; try lia.
    split; simpl; unfold is_u; fold u128_max; try lia. right. unfold worth. simpl. lia.
  - apply others_indices, Hm.
  - rewrite (mv_from _ _ _ _ _ _ Hm). unfold survive, left_or_reaped.
    destruct (Z.ltb_spec (worth (set_reserved (reserved (account s slashed) - reserved (account s slashed) `min` v) (account s slashed))) ExistentialDeposit) as [Hlt|]; [|by left].
    right. unfold worth in Hlt. simpl in *. lia.
  - by rewrite (mv_dest _ _ _ _ _ _ Hm).
  - intros k Hk1 Hk2. rewrite (account_accounts s s'); [done|by apply (mv_frame _ _ _ _ _ _ Hm)].
Qed.

#[export] Instance balances_reservable_laws : ReservableLaws balances_reservable.
Proof.
  refine {| rc_ok := books; held := λ s who, reserved (account s who) |}; try done.
  - intros s who [δ Hinv]. by apply (acct_bounds _ _ who Hinv).
  - intros f s [δ []]. by exists δ.
  - intros e s [δ Hinv]. exists δ. eapply inv_quiet; [done|apply quiet_deposit].
  - intros e s who. by rewrite (quiet_account _ _ _ (quiet_deposit e s)).
  - exact balances_reserve_law.
  - exact balances_unreserve_law.
  - exact balances_slash_reserved_law.
  - exact balances_repatriate_law.
Defined.
End Instance_.

(** ** The node's configuration *)

#[local] Existing Instance node_balances.

Definition IndexDeposit : Balance := 1 * DOLLARS.

(** Claim an index against the whole balance, get a lock on the account, freeze the index. *)
Definition freeze_with_lock : Run unit :=
  do! genesis_build [(1%N, DOLLARS)] in
  do! dispatch (claim IndexDeposit (Signed 1%N) 7) in
  do! set_lock 3 1%N DOLLARS TRANSFER in
  dispatch (index_freeze (Signed 1%N) 7).

(** A signed [freeze] succeeds on an account whose lock keeps it alive and whose whole
    balance is the deposit: nothing is slashed from the account, but the total issuance drops
    by the deposit and no longer covers the balances. *)
Theorem freeze_loses_issuance :
  let '(r, s') := freeze_with_lock (empty_store 0 0) in
  r = Ok tt ∧ reserved_balance s' 1%N = DOLLARS ∧ issued s' = DOLLARS ∧ TotalIssuance (bal s') = 0.
Proof. vm_compute. repeat split. Qed.

Lemma two_accounts_backed : backed (C := balances_reservable) two_accounts.
Proof.
  split.
  - exists 0. apply two_accounts_inv.
  - apply map_Forall_empty.
  - intros who. change (deposits two_accounts who) with 0. apply (held_nonneg two_accounts who). exists 0. apply two_accounts_inv.
Qed.

Lemma deposit_bounds : ExistentialDeposit <= IndexDeposit <= u128_max.
Proof. split; vm_compute; congruence. Qed.

Lemma deposits_backed_witness :
  let s' := (dispatch (indices_call IndexDeposit (Claim 7) (Signed 1%N)) two_accounts).2 in
  0 <= deposits s' 1%N <= reserved (account s' 1%N).
Proof.
  intros s'.
  apply (deposits_backed (C := balances_reservable) IndexDeposit deposit_bounds ltac:(reflexivity) two_accounts s' 1%N two_accounts_backed).
  apply rtc_once. eapply indices_step_intro. apply surjective_pairing.
Defined.

Lemma claim_free_witness :
  let s1 := (claim IndexDeposit (Signed 1%N) 7 two_accounts).2 in
  indices s1 !! 7 = Some (1%N, IndexDeposit, false) ∧
  ∃ s2, index_free (Signed 1%N) 7 s1 = (Ok tt, s2) ∧ indices s2 = indices two_accounts ∧
    ∀ k, reserved (account s2 k) = reserved (account two_accounts k).
Proof.
  intros s1. apply (claim_free_roundtrip (C := balances_reservable) IndexDeposit deposit_bounds ltac:(reflexivity) 1%N 7 two_accounts s1 two_accounts_backed).
  vm_compute. reflexivity.
Defined.
