(* ===== verification/Vesting.v ===== *)
(** [pallet_vesting] ([frame/vesting/src/lib.rs], [vesting_info.rs]): balances under lock that are released block by
    block.  The pallet is a client of the [LockableCurrency] trait: its theorems are proved from the
    laws of that interface in [VestingProps], and [VestingOnBalances] shows that [pallet_balances] has them.

    [debug_assert!] is not in a release build; that the asserted conditions hold is part of the
    theorems. *)

From S2P Require Import Prelude Runtime System Indices.

(** ** Schedules *)

Definition checked_mul (w x y : Z) : option Z := if x * y <=? umax w then Some (x * y) else None.

Definition is_valid (v : VestingInfo) : bool := negb (locked v =? 0) && negb (raw_per_block v =? 0).
Definition per_block (v : VestingInfo) : Balance := raw_per_block v `max` 1.

(** [BlockNumberToBalance] is [ConvertInto]: a [u32] as the same [u128]. *)
Definition locked_at (v : VestingInfo) (n : BlockNumber) : Balance :=
  let vested_block_count := saturating_sub n (starting_block v) in
  match checked_mul 128 vested_block_count (per_block v) with
  | Some to_unlock => saturating_sub (locked v) to_unlock
  | None => 0
  end.

Definition ending_block_as_balance (v : VestingInfo) : Balance :=
  let duration :=
    if locked v <=? per_block v then 1
    else locked v / per_block v ⊕ (if locked v `mod` per_block v =? 0 then 0 else 1) in
  saturating_add 128 (starting_block v) duration.

(** ** Actions *)

Inductive VestingAction :=
| Passive
| Remove (index : nat)
| Merge (index1 index2 : nat).

Definition should_remove (action : VestingAction) (index : nat) : bool :=
  match action with
  | Passive => false
  | Remove index1 => (index1 =? index)%nat
  | Merge index1 index2 => (index1 =? index)%nat || (index2 =? index)%nat
  end.

Definition pick_schedules (action : VestingAction) (schedules : list VestingInfo) : list VestingInfo :=
  omap (λ p : nat * VestingInfo, if should_remove action p.1 then None else Some p.2) (imap pair schedules).

(** ** The currency interface *)

(** The part of [LockableCurrency] and [Currency] that the pallet uses. *)
Class LockableCurrency := {
  lc_free_balance : Store → AccountId → Balance;
  lc_transfer : AccountId → AccountId → Balance → ExistenceRequirement → Run unit;
  lc_set_lock : LockIdentifier → AccountId → Balance → Z → Run unit;
  lc_remove_lock : LockIdentifier → AccountId → Run unit }.

(** The constants of the pallet's [Config]. *)
Class VestingConfig := {
  MinVestedTransfer : Balance;
  UnvestedFundsAllowedWithdrawReasons : Z;
  MAX_VESTING_SCHEDULES : nat }.

(** [b"vesting "] *)
Definition VESTING_ID : LockIdentifier := 0x76657374696e6720.

(** [WithdrawReasons::except]: all five flags but the given ones. *)
Definition reasons_except (one : Z) : Z := Z.lxor 31 one.

(** ** The pallet *)

Section Pallet.
  Context {C : LockableCurrency} {V : VestingConfig}.

Definition vesting_emit (e : VestingEvent) : Run unit := deposit_event (EVesting e).
Definition vesting_error (e : VestingError) : DispatchError := Module_ (VestingE e).

Definition schedules_of (s : Store) (who : AccountId) : option (list VestingInfo) := Vesting (vesting s) !! who.
Definition block_number (s : Store) : BlockNumber := Number (sys s).

Definition merge_vesting_info (now : BlockNumber) (schedule1 schedule2 : VestingInfo) : option VestingInfo :=
  let schedule1_ending_block := ending_block_as_balance schedule1 in
  let schedule2_ending_block := ending_block_as_balance schedule2 in
  match schedule1_ending_block <=? now, schedule2_ending_block <=? now with
  | true, true => None
  | true, false => Some schedule2
  | false, true => Some schedule1
  | false, false =>
      let locked := saturating_add 128 (locked_at schedule1 now) (locked_at schedule2 now) in
      let ending_block := schedule1_ending_block `max` schedule2_ending_block in
      let starting_block := now `max` starting_block schedule1 `max` starting_block schedule2 in
      let duration := saturating_sub ending_block starting_block `max` 1 in
      let per_block := (locked / duration) `max` 1 in
      Some (mkVesting locked per_block starting_block)
  end.

(** The closure of [filter] adds what each kept schedule still locks to the total. *)
Definition report_schedule_updates (schedules : list VestingInfo) (action : VestingAction) : Run (list VestingInfo * Balance) :=
  let! now := gets block_number in
  ret (fold_left (λ (acc : list VestingInfo * Balance) schedule,
         let locked_now := locked_at schedule now in
         if negb (locked_now =? 0) then (acc.1 ++ [schedule], saturating_add 128 acc.2 locked_now) else acc)
       (pick_schedules action schedules) ([], 0)).

Definition write_lock (who : AccountId) (total_locked_now : Balance) : Run unit :=
  if total_locked_now =? 0 then
    do! lc_remove_lock VESTING_ID who in
    vesting_emit (VestingCompleted who)
  else
    let reasons := reasons_except UnvestedFundsAllowedWithdrawReasons in
    do! lc_set_lock VESTING_ID who total_locked_now reasons in
    vesting_emit (VestingUpdated who total_locked_now).

Definition write_vesting (who : AccountId) (schedules : list VestingInfo) : Run unit :=
  do! ensure (length schedules <=? MAX_VESTING_SCHEDULES)%nat (vesting_error AtMaxVestingSchedules) in
  if (length schedules =? 0)%nat then modify (with_vesting (with_schedules (delete who)))
  else modify (with_vesting (with_schedules <[who := schedules]>)).

Definition exec_action (schedules : list VestingInfo) (action : VestingAction) : Run (list VestingInfo * Balance) :=
  match action with
  | Merge idx1 idx2 =>
      let! schedule1 := ok_or (schedules !! idx1) (vesting_error ScheduleIndexOutOfBounds) in
      let! schedule2 := ok_or (schedules !! idx2) (vesting_error ScheduleIndexOutOfBounds) in
      let! ' (schedules, locked_now) := report_schedule_updates schedules action in
      let! now := gets block_number in
      match merge_vesting_info now schedule1 schedule2 with
      | Some new_schedule =>
          let new_schedule_locked := locked_at new_schedule now in
          ret (schedules ++ [new_schedule], saturating_add 128 locked_now new_schedule_locked)
      | None => ret (schedules, locked_now)
      end
  | _ => report_schedule_updates schedules action
  end.

Definition do_vest (who : AccountId) : Run unit :=
  let! entry := gets (λ s, schedules_of s who) in
  let! schedules := ok_or entry (vesting_error NotVesting) in
  let! ' (schedules, locked_now) := exec_action schedules Passive in
  do! write_vesting who schedules in
  write_lock who locked_now.

(** ** [VestingSchedule] *)

Definition vesting_balance (s : Store) (who : AccountId) : option Balance :=
  match schedules_of s who with
  | Some v =>
      let now := block_number s in
      let total_locked_now := fold_left (λ total schedule, saturating_add 128 (locked_at schedule now) total) v 0 in
      Some (lc_free_balance s who `min` total_locked_now)
  | None => None
  end.

Definition add_vesting_schedule (who : AccountId) (locked per_block : Balance) (starting_block : BlockNumber) : Run unit :=
  if locked =? 0 then ret tt else
  let vesting_schedule := mkVesting locked per_block starting_block in
  if negb (is_valid vesting_schedule) then throw (vesting_error InvalidScheduleParams) else
  let! schedules := gets (λ s, default [] (schedules_of s who)) in
  do! ensure (length schedules <? MAX_VESTING_SCHEDULES)%nat (vesting_error AtMaxVestingSchedules) in
  let! ' (schedules, locked_now) := exec_action (schedules ++ [vesting_schedule]) Passive in
  do! write_vesting who schedules in
  write_lock who locked_now.

Definition can_add_vesting_schedule (who : AccountId) (locked per_block : Balance) (starting_block : BlockNumber) : Run unit :=
  if negb (is_valid (mkVesting locked per_block starting_block)) then throw (vesting_error InvalidScheduleParams) else
  let! len := gets (λ s, length (default [] (schedules_of s who))) in
  ensure (len <? MAX_VESTING_SCHEDULES)%nat (vesting_error AtMaxVestingSchedules).

Definition remove_vesting_schedule (who : AccountId) (schedule_index : nat) : Run unit :=
  let! entry := gets (λ s, schedules_of s who) in
  let! schedules := ok_or entry (vesting_error NotVesting) in
  let! ' (schedules, locked_now) := exec_action schedules (Remove schedule_index) in
  do! write_vesting who schedules in
  write_lock who locked_now.

(** ** Dispatchables *)

(** The result of [add_vesting_schedule] is only looked at by a [debug_assert!]. *)
Definition do_vested_transfer (source target : MultiAddress) (schedule : VestingInfo) : Run unit :=
  do! ensure (MinVestedTransfer <=? locked schedule) (vesting_error AmountLow) in
  if negb (is_valid schedule) then throw (vesting_error InvalidScheduleParams) else
  let! target := lookup target in
  let! source := lookup source in
  do! can_add_vesting_schedule target (locked schedule) (per_block schedule) (starting_block schedule) in
  do! lc_transfer source target (locked schedule) AllowDeath in
  do! attempt (add_vesting_schedule target (locked schedule) (per_block schedule) (starting_block schedule)) in
  ret tt.

Definition vest (origin : RawOrigin) : Run unit :=
  let! who := ensure_signed origin in
  do_vest who.

Definition vest_other (origin : RawOrigin) (target : MultiAddress) : Run unit :=
  do! ensure_signed origin in
  let! who := lookup target in
  do_vest who.

Definition vested_transfer (origin : RawOrigin) (target : MultiAddress) (schedule : VestingInfo) : Run unit :=
  let! transactor := ensure_signed origin in
  do_vested_transfer (unlookup transactor) target schedule.

Definition force_vested_transfer (origin : RawOrigin) (source target : MultiAddress) (schedule : VestingInfo) : Run unit :=
  do! ensure_root origin in
  do_vested_transfer source target schedule.

Definition merge_schedules (origin : RawOrigin) (schedule1_index schedule2_index : nat) : Run unit :=
  let! who := ensure_signed origin in
  if (schedule1_index =? schedule2_index)%nat then ret tt else
  let! entry := gets (λ s, schedules_of s who) in
  let! schedules := ok_or entry (vesting_error NotVesting) in
  let! ' (schedules, locked_now) := exec_action schedules (Merge schedule1_index schedule2_index) in
  do! write_vesting who schedules in
  write_lock who locked_now.

Inductive VestingCall :=
| CVest
| CVestOther (target : MultiAddress)
| CVestedTransfer (target : MultiAddress) (schedule : VestingInfo)
| CForceVestedTransfer (source target : MultiAddress) (schedule : VestingInfo)
| CMergeSchedules (schedule1_index schedule2_index : nat).

Definition vesting_call (c : VestingCall) (origin : RawOrigin) : Run unit :=
  match c with
  | CVest => vest origin
  | CVestOther target => vest_other origin target
  | CVestedTransfer target schedule => vested_transfer origin target schedule
  | CForceVestedTransfer source target schedule => force_vested_transfer origin source target schedule
  | CMergeSchedules i j => merge_schedules origin i j
  end.

(** ** Genesis *)

(** One entry [(who, begin, length, liquid)] of the configuration. *)
Definition genesis_entry (e : AccountId * BlockNumber * BlockNumber * Balance) : Run unit :=
  let '(who, begin, length_, liquid) := e in
  let! balance := gets (λ s, lc_free_balance s who) in
  if balance =? 0 then panic else
  let locked := saturating_sub balance liquid in
  let per_block := locked / (length_ `max` 1) in
  let vesting_info := mkVesting locked per_block begin in
  if negb (is_valid vesting_info) then panic else
  let! current := gets (λ s, default [] (schedules_of s who)) in
  if (MAX_VESTING_SCHEDULES <=? length current)%nat then panic else
  do! modify (with_vesting (with_schedules <[who := current ++ [vesting_info]]>)) in
  let reasons := reasons_except UnvestedFundsAllowedWithdrawReasons in
  lc_set_lock VESTING_ID who locked reasons.

Fixpoint genesis_entries (l : list (AccountId * BlockNumber * BlockNumber * Balance)) : Run unit :=
  match l with
  | [] => ret tt
  | e :: l => do! genesis_entry e in genesis_entries l
  end.

Definition vesting_genesis_build (l : list (AccountId * BlockNumber * BlockNumber * Balance)) : Run unit :=
  do! modify (with_vesting (λ v, mkVestingStore (Vesting v) V1)) in
  genesis_entries l.
End Pallet.
