(* ===== verification/VestingProps.v ===== *)
(** The theorems of [pallet_vesting], from the laws of its currency. *)

From S2P Require Import Prelude Runtime System Indices Vesting.

(** ** What the currency promises *)

(** [lc_guard s who id] is the amount that the lock [id] keeps from transfers out of [who]. *)
Class LockableLaws (C : LockableCurrency) := {
  lc_ok : Store → Prop;
  lc_exists : Store → AccountId → Prop;
  lc_guard : Store → AccountId → LockIdentifier → Balance;
  lc_ok_vesting f s : lc_ok s → lc_ok (with_vesting f s);
  lc_guard_vesting f s who id : lc_guard (with_vesting f s) who id = lc_guard s who id;
  lc_exists_vesting f s who : lc_exists s who → lc_exists (with_vesting f s) who;
  lc_free_vesting f s who : lc_free_balance (with_vesting f s) who = lc_free_balance s who;
  lc_ok_event e s : lc_ok s → lc_ok (deposit e s);
  lc_guard_event e s who id : lc_guard (deposit e s) who id = lc_guard s who id;
  lc_free_event e s who : lc_free_balance (deposit e s) who = lc_free_balance s who;
  lc_guard_exists s who id : lc_ok s → 0 < lc_guard s who id → lc_exists s who;
  lc_free_exists s who : lc_ok s → 0 <= lc_free_balance s who <= u128_max ∧ (lc_free_balance s who ≠ 0 → lc_exists s who);
  set_lock_law s id who amount reasons :
    lc_ok s → lc_exists s who → 0 < amount <= u128_max → 0 <= reasons < 32 → Z.testbit reasons 1 = true →
    wp (lc_set_lock id who amount reasons) (λ r s', r = Ok tt ∧ lc_ok s' ∧ others s' = others s ∧ (∀ k, lc_free_balance s' k = lc_free_balance s k) ∧
      lc_guard s' who id = amount ∧ ∀ k j, k ≠ who ∨ j ≠ id → lc_guard s' k j = lc_guard s k j) s;
  remove_lock_law s id who :
    lc_ok s → lc_exists s who →
    wp (lc_remove_lock id who) (λ r s', r = Ok tt ∧ lc_ok s' ∧ others s' = others s ∧ (∀ k, lc_free_balance s' k = lc_free_balance s k) ∧
      lc_guard s' who id = 0 ∧ ∀ k j, k ≠ who ∨ j ≠ id → lc_guard s' k j = lc_guard s k j) s;
  transfer_law s from dest v req :
    lc_ok s → 0 < v <= u128_max →
    wp (lc_transfer from dest v req) (λ r s', match r with
      | Ok _ => lc_ok s' ∧ others s' = others s ∧ (∀ k j, lc_guard s' k j = lc_guard s k j) ∧
          (from = dest → s' = s) ∧
          (from ≠ dest → lc_exists s' dest ∧ lc_free_balance s' dest = lc_free_balance s dest + v ∧
             ∀ j, lc_guard s from j <= lc_free_balance s' from)
      | Err _ => s' = s
      | Panic => False end) s }.

(** The checks of [integrity_test], and a lock that holds against transfers. *)
Class VestingLaws (V : VestingConfig) := {
  max_schedules_pos : (0 < MAX_VESTING_SCHEDULES)%nat;
  unvested_reasons : 0 <= reasons_except UnvestedFundsAllowedWithdrawReasons < 32;
  unvested_transfer : Z.testbit (reasons_except UnvestedFundsAllowedWithdrawReasons) 1 = true }.

(** ** Schedules *)

(** The fields at their widths, and those of a valid schedule. *)
Definition info_u (v : VestingInfo) : Prop :=
  0 <= locked v <= u128_max ∧ 0 <= raw_per_block v <= u128_max ∧ 0 <= starting_block v <= u32_max.
Definition sched_ok (v : VestingInfo) : Prop := info_u v ∧ 0 < locked v ∧ 0 < raw_per_block v.

Lemma is_valid_ok v : info_u v → is_valid v = true → sched_ok v.
Proof. unfold is_valid. intros Hu [Hl Hp]%andb_true_iff. rewrite !negb_true_iff, !Z.eqb_neq in *. unfold sched_ok, info_u in *. lia. Qed.

Lemma per_block_ok v : sched_ok v → per_block v = raw_per_block v.
Proof. unfold sched_ok, per_block. lia. Qed.

Lemma locked_at_eq v n : sched_ok v →
  locked_at v n = 0 `max` (locked v - (0 `max` (n - starting_block v)) * raw_per_block v).
Proof.
  intros Hv. unfold locked_at. rewrite per_block_ok by done. destruct Hv as [(? & ? & ?) [? ?]]. unfold checked_mul, saturating_sub.
  rewrite (Z.max_comm 0 (n - _)). fold u128_max. destruct (Z.leb_spec ((n - starting_block v) `max` 0 * raw_per_block v) u128_max); lia.
Qed.

Lemma locked_at_bounds v n : sched_ok v → 0 <= locked_at v n <= locked v.
Proof. intros Hv. rewrite locked_at_eq by done. destruct Hv as [(? & ? & ?) [? ?]]. nia. Qed.

Lemma locked_at_mono v n m : sched_ok v → n <= m → locked_at v m <= locked_at v n.
Proof. intros Hv Hnm. rewrite !locked_at_eq by done. destruct Hv as [(? & ? & ?) [? ?]]. nia. Qed.

(** [⌈a / b⌉] as the code computes it *)
Definition div_up (a b : Z) : Z := a / b + (if a `mod` b =? 0 then 0 else 1).

Lemma div_up_le a b n : 0 < a → 0 < b → div_up a b <= n ↔ a <= n * b.
Proof.
  intros Ha Hb. unfold div_up. pose proof (Z.div_mod a b ltac:(lia)). pose proof (Z.mod_pos_bound a b Hb).
  destruct (Z.eqb_spec (a mod b) 0); nia.
Qed.

Lemma div_up_bounds a b : 0 < a → 0 < b → 1 <= div_up a b <= a.
Proof.
  intros Ha Hb. assert (div_up a b <= a) by (apply div_up_le; nia). assert (¬ div_up a b <= 0) by (rewrite div_up_le by done; lia). lia.
Qed.

Lemma ending_block_eq v : sched_ok v →
  ending_block_as_balance v = (starting_block v + div_up (locked v) (raw_per_block v)) `min` u128_max.
Proof.
  intros Hv. unfold ending_block_as_balance. rewrite per_block_ok by done. destruct Hv as [(? & ? & ?) [? ?]].
  unfold saturating_add. fold u128_max. do 2 f_equal. pose proof (div_up_bounds (locked v) (raw_per_block v) ltac:(lia) ltac:(lia)).
  destruct (Z.leb_spec (locked v) (raw_per_block v)) as [Hle|Hgt].
  - assert (div_up (locked v) (raw_per_block v) <= 1) by (apply div_up_le; lia). lia.
  - fold (div_up (locked v) (raw_per_block v)). apply wrapping_add_id; [done|]. unfold div_up in *.
    assert (0 <= locked v / raw_per_block v) by (apply Z.div_pos; lia). destruct (_ =? 0); unfold u128_max in *; lia.
Qed.

(** A schedule is over exactly from its ending block on. *)
Lemma ended_iff v n : sched_ok v → 0 <= n <= u32_max → ending_block_as_balance v <= n ↔ locked_at v n = 0.
Proof.
  intros Hv Hn. rewrite ending_block_eq, locked_at_eq by done. destruct Hv as [(? & ? & ?) [? ?]].
  assert (u32_max < u128_max) by done. pose proof (div_up_bounds (locked v) (raw_per_block v) ltac:(lia) ltac:(lia)).
  pose proof (div_up_le (locked v) (raw_per_block v) (n - starting_block v) ltac:(lia) ltac:(lia)) as Hd. split; intros He.
  - assert (locked v <= (n - starting_block v) * raw_per_block v) by (apply Hd; lia). nia.
  - assert (div_up (locked v) (raw_per_block v) <= n - starting_block v) by (apply Hd; nia). lia.
Qed.

(** A valid schedule releases its funds linearly: all of them are locked until its first block,
    [per_block] less after each block from then on, never less than zero, and nothing is locked
    exactly from the block that [ending_block_as_balance] gives; no product or sum overflows. *)
Theorem schedule_linear v n :
  sched_ok v → 0 <= n <= u32_max →
  locked_at v n = 0 `max` (locked v - (0 `max` (n - starting_block v)) * per_block v) ∧
  (n <= starting_block v → locked_at v n = locked v) ∧
  locked_at v (n + 1) = (if starting_block v <=? n then 0 `max` (locked_at v n - per_block v) else locked v) ∧
  (ending_block_as_balance v <= n ↔ locked_at v n = 0).
Proof.
  intros Hv Hn. split; [by rewrite per_block_ok, locked_at_eq|]. split; [|split; [|by apply ended_iff]].
  - intros Hle. rewrite locked_at_eq by done. destruct Hv as [(? & ? & ?) [? ?]]. nia.
  - rewrite !locked_at_eq, per_block_ok by done. destruct Hv as [(? & ? & ?) [? ?]]. destruct (Z.leb_spec (starting_block v) n); nia.
Qed.

(** ** Lists of schedules *)

Definition capped (x : Z) : Z := x `min` u128_max.

Fixpoint zsum {A} (f : A → Z) (l : list A) : Z := match l with [] => 0 | x :: l => f x + zsum f l end.

(** What the schedules [l] still lock at block [now]. *)
Definition unvested (now : BlockNumber) (l : list VestingInfo) : Z := zsum (λ v, locked_at v now) l.

Lemma zsum_app {A} (f : A → Z) l k : zsum f (l ++ k) = zsum f l + zsum f k.
Proof. induction l; simpl; lia. Qed.

Lemma unvested_nonneg now l : Forall sched_ok l → 0 <= unvested now l.
Proof. induction 1 as [|v l Hv Hl IH]; unfold unvested in *; simpl; [lia|]. pose proof (locked_at_bounds v now Hv). lia. Qed.

Lemma unvested_mono n m l : Forall sched_ok l → n <= m → unvested m l <= unvested n l.
Proof. intros Hl Hnm. induction Hl as [|v l Hv Hl IH]; unfold unvested in *; simpl; [lia|]. pose proof (locked_at_mono v n m Hv Hnm). lia. Qed.

(** The schedules that are not over. *)
Definition live (now : BlockNumber) (l : list VestingInfo) : list VestingInfo := filter (λ v, locked_at v now ≠ 0) l.

Lemma unvested_live now l : unvested now (live now l) = unvested now l.
Proof. induction l as [|v l IH]; [done|]. unfold live, unvested in *. rewrite filter_cons. simpl. case_decide; simpl; lia. Qed.

Lemma live_all now l : Forall (λ v, locked_at v now ≠ 0) (live now l).
Proof. apply Forall_forall. by intros v [? _]%list_elem_of_filter. Qed.

Lemma live_ok now l : Forall sched_ok l → Forall sched_ok (live now l).
Proof. rewrite !Forall_forall. intros Hl v [_ Hv]%list_elem_of_filter. auto. Qed.

Lemma unvested_zero now l : Forall sched_ok l → Forall (λ v, locked_at v now ≠ 0) l → capped (unvested now l) = 0 ↔ l = [].
Proof.
  intros Hl Hn. split; [|by intros ->]. destruct l as [|v l]; [done|]. apply Forall_cons in Hl as [Hv Hl]. apply Forall_cons in Hn as [Hn _].
  pose proof (locked_at_bounds v now Hv). pose proof (unvested_nonneg now l Hl). unfold capped, unvested in *. simpl. assert (0 < u128_max) by done. lia.
Qed.

(** The loop of [report_schedule_updates]. *)
Lemma report_loop now l acc x : Forall sched_ok l → 0 <= x →
  fold_left (λ (acc : list VestingInfo * Balance) schedule,
      if negb (locked_at schedule now =? 0) then (acc.1 ++ [schedule], saturating_add 128 acc.2 (locked_at schedule now)) else acc)
    l (acc, capped x) = (acc ++ live now l, capped (x + unvested now l)).
Proof.
  intros Hl. revert acc x. induction Hl as [|v l Hv Hl IH]; intros acc x Hx; simpl.
  - unfold unvested. simpl. by rewrite app_nil_r, Z.add_0_r.
  - pose proof (locked_at_bounds v now Hv). unfold live. rewrite filter_cons. unfold unvested. simpl. fold (unvested now l). destruct (Z.eqb_spec (locked_at v now) 0) as [He|He]; simpl.
    + rewrite decide_False by (by intros []). rewrite IH by done. f_equal. f_equal. lia.
    + rewrite decide_True by done. replace (saturating_add 128 (capped x) (locked_at v now)) with (capped (x + locked_at v now)).
      2: { unfold capped, saturating_add. fold u128_max. lia. }
      rewrite IH by lia. fold (live now l). rewrite <- app_assoc. do 2 f_equal. lia.
Qed.

Lemma report_run l action s : Forall sched_ok (pick_schedules action l) →
  report_schedule_updates l action s =
    (Ok (live (block_number s) (pick_schedules action l), capped (unvested (block_number s) (pick_schedules action l))), s).
Proof.
  intros Hl. unfold report_schedule_updates, bind, gets, ret. pose proof (report_loop (block_number s) _ [] 0 Hl ltac:(lia)) as Hr.
  change (capped 0) with 0 in Hr. by rewrite Hr.
Qed.

(** Picking by position. *)
Definition picked (g : nat → bool) (l : list VestingInfo) : list VestingInfo :=
  omap (λ p : nat * VestingInfo, if g p.1 then None else Some p.2) (imap pair l).

Lemma omap_imap_ext {A B} (f f' : nat → A → nat * A) (g g' : nat * A → option B) l :
  (∀ i x, g (f i x) = g' (f' i x)) → omap g (imap f l) = omap g' (imap f' l).
Proof.
  revert f f'. induction l as [|x l IH]; intros f f' Hg; [done|]. rewrite !imap_cons. cbn [omap list_omap]. rewrite Hg.
  rewrite (IH (f ∘ S) (f' ∘ S)); [done|]. intros i y. apply Hg.
Qed.

Lemma picked_cons g v l : picked g (v :: l) = (if g 0%nat then [] else [v]) ++ picked (λ i, g (S i)) l.
Proof.
  unfold picked. rewrite imap_cons. cbn [omap list_omap fst snd]. rewrite (omap_imap_ext (pair ∘ S) pair _ (λ p, if g (S p.1) then None else Some p.2)) by done.
  by destruct (g 0%nat).
Qed.

Lemma picked_none g l : (∀ i, g i = false) → picked g l = l.
Proof. revert g. induction l as [|v l IH]; intros g Hg; [done|]. rewrite picked_cons, Hg, IH; [done|]. intros i. apply Hg. Qed.

Lemma picked_one f g l i : (∀ j, g j = (i =? j)%nat) → zsum f (picked g l) = zsum f l - from_option f 0 (l !! i).
Proof.
  revert g i. induction l as [|v l IH]; intros g i Hg; [done|]. rewrite picked_cons, zsum_app, Hg. destruct i as [|i]; simpl.
  - rewrite picked_none; [lia|]. intros j. by rewrite Hg.
  - rewrite (IH _ i); [lia|]. intros j. by rewrite Hg.
Qed.

Lemma picked_two f g l i j : i ≠ j → (∀ k, g k = (i =? k)%nat || (j =? k)%nat) →
  zsum f (picked g l) = zsum f l - from_option f 0 (l !! i) - from_option f 0 (l !! j).
Proof.
  revert g i j. induction l as [|v l IH]; intros g i j Hij Hg; [done|]. rewrite picked_cons, zsum_app, Hg. destruct i as [|i], j as [|j]; [done|..]; simpl.
  - rewrite (picked_one f _ l j); [lia|]. intros k. by rewrite Hg.
  - rewrite (picked_one f _ l i); [lia|]. intros k. by rewrite Hg, orb_false_r.
  - rewrite (IH _ i j); [lia|congruence|]. intros k. by rewrite Hg.
Qed.

Lemma picked_Forall P g l : Forall P l → Forall P (picked g l).
Proof. intros Hl. revert g. induction Hl as [|v l Hv Hl IH]; intros g; [constructor|]. rewrite picked_cons. apply Forall_app. split; [destruct (g 0%nat); auto|done]. Qed.

Lemma picked_length g l : (length (picked g l) <= length l)%nat.
Proof. revert g. induction l as [|v l IH]; intros g; [done|]. rewrite picked_cons, length_app. specialize (IH (λ i, g (S i))). destruct (g 0%nat); simpl; lia. Qed.

Lemma zsum_length {A} (l : list A) : zsum (λ _, 1) l = Z.of_nat (length l).
Proof. induction l; simpl; lia. Qed.

Lemma pick_passive l : pick_schedules Passive l = l.
Proof. by apply picked_none. Qed.

(** ** Merging *)

(** The two schedules of which neither is over: their merger starts when the last of them does. *)
Lemma merged_eq now v w : sched_ok v → sched_ok w → 0 <= now <= u32_max → locked_at v now ≠ 0 → locked_at w now ≠ 0 →
  let start := now `max` starting_block v `max` starting_block w in
  let duration := (ending_block_as_balance v `max` ending_block_as_balance w) - start in
  let sum := capped (locked_at v now + locked_at w now) in
  0 < duration ∧ merge_vesting_info now v w = Some (mkVesting sum ((sum / duration) `max` 1) start).
Proof.
  intros Hv Hw Hn Hlv Hlw start duration sum. pose proof (ended_iff v now Hv Hn) as Hev. pose proof (ended_iff w now Hw Hn) as Hew.
  assert (starting_block v < ending_block_as_balance v ∧ starting_block w < ending_block_as_balance w) as [Hsv Hsw].
  { rewrite !ending_block_eq by done. destruct Hv as [(? & ? & ?) [? ?]], Hw as [(? & ? & ?) [? ?]]. assert (u32_max < u128_max) by done.
    pose proof (div_up_bounds (locked v) (raw_per_block v) ltac:(lia) ltac:(lia)). pose proof (div_up_bounds (locked w) (raw_per_block w) ltac:(lia) ltac:(lia)). lia. }
  assert (now < ending_block_as_balance v ∧ now < ending_block_as_balance w) as [Hnv Hnw].
  { split; apply Z.nle_gt; [by rewrite Hev|by rewrite Hew]. }
  split; [subst duration start; lia|]. unfold merge_vesting_info. rewrite (proj2 (Z.leb_gt _ now) Hnv), (proj2 (Z.leb_gt _ now) Hnw).
  unfold saturating_add, saturating_sub. fold u128_max. fold start. fold sum. do 2 f_equal.
  replace (((ending_block_as_balance v `max` ending_block_as_balance w) - start) `max` 0 `max` 1) with duration; [done|]. subst duration start. lia.
Qed.

(** Merging two schedules leaves as much locked as both had, and is over when both are. *)
Lemma merge_spec now v w : sched_ok v → sched_ok w → 0 <= now <= u32_max →
  match merge_vesting_info now v w with
  | Some m => sched_ok m ∧ locked_at m now ≠ 0 ∧ locked_at m now = capped (locked_at v now + locked_at w now)
  | None => locked_at v now = 0 ∧ locked_at w now = 0
  end.
Proof.
  intros Hv Hw Hn. pose proof (locked_at_bounds v now Hv). pose proof (locked_at_bounds w now Hw).
  pose proof (ended_iff v now Hv Hn) as Hev. pose proof (ended_iff w now Hw Hn) as Hew. pose proof Hv as [(? & ? & ?) [? ?]]. pose proof Hw as [(? & ? & ?) [? ?]].
  destruct (Z.eq_dec (locked_at v now) 0) as [Hv0|Hv0], (Z.eq_dec (locked_at w now) 0) as [Hw0|Hw0].
  4: { pose proof (merged_eq now v w Hv Hw Hn Hv0 Hw0) as [Hd ->]. set (sum := capped _). set (start := now `max` starting_block v `max` starting_block w). set (d := _ - start) in *.
       assert (0 < sum <= u128_max) by (unfold sum, capped; assert (0 < u128_max) by done; lia).
       assert (0 <= sum / d <= sum) by (split; [apply Z.div_pos; lia|apply Z.div_le_upper_bound; nia]).
       set (m := mkVesting _ _ _). assert (sched_ok m) as Hm.
       { unfold sched_ok, info_u. simpl. assert (0 < u128_max) by done. subst start. lia. }
       split; [done|]. rewrite locked_at_eq by done. simpl. subst start. split; lia. }
  all: unfold merge_vesting_info; destruct (Z.leb_spec (ending_block_as_balance v) now), (Z.leb_spec (ending_block_as_balance w) now); try lia.
  - split; [done|]. unfold capped. lia.
  - split; [done|]. unfold capped. lia.
Qed.

(** The merger of two running schedules does not end when the documentation of [merge_schedules] says, at the later of
    the two ends, because the amount per block is rounded down to at least one: a sum of less than one unit per
    block ends earlier, any other not before, and later when the division leaves a rest. *)
Theorem merged_ending now v w m :
  sched_ok v → sched_ok w → 0 <= now <= u32_max → locked_at v now ≠ 0 → locked_at w now ≠ 0 →
  merge_vesting_info now v w = Some m → starting_block m + locked m <= u128_max →
  let documented := ending_block_as_balance v `max` ending_block_as_balance w in
  if locked m <? documented - starting_block m then ending_block_as_balance m = starting_block m + locked m ∧ ending_block_as_balance m < documented
  else documented <= ending_block_as_balance m ∧
    (ending_block_as_balance m = documented ↔ div_up (locked m) (locked m / (documented - starting_block m)) = documented - starting_block m).
Proof.
  intros Hv Hw Hn Hlv Hlw Hm Hmax documented. pose proof (merge_spec now v w Hv Hw Hn) as Hspec. rewrite Hm in Hspec. destruct Hspec as (Hok & _).
  pose proof (merged_eq now v w Hv Hw Hn Hlv Hlw) as [Hd He]. rewrite He in Hm. injection Hm as <-. cbn [starting_block locked raw_per_block] in *.
  fold documented in Hok, Hmax, Hd, He |- *. rewrite (ending_block_eq _ Hok). cbn [starting_block locked raw_per_block].
  set (sum := capped _) in *. set (start := now `max` starting_block v `max` starting_block w) in *. set (d := documented - start) in *. destruct Hok as [_ [Hsum _]]. cbn [locked] in Hsum.
  assert (∀ q, 0 < q → 1 <= div_up sum q <= sum) as Hup by (intros; apply div_up_bounds; lia). destruct (Z.ltb_spec sum d) as [Hlt|Hge].
  - rewrite Z.div_small by lia. replace (0 `max` 1) with 1 by lia. assert (¬ div_up sum 1 <= sum - 1) by (rewrite div_up_le by lia; lia).
    specialize (Hup 1 ltac:(lia)). lia.
  - assert (1 <= sum / d) as Hq by (apply Z.div_le_lower_bound; lia). rewrite Z.max_l by lia. specialize (Hup (sum / d) ltac:(lia)).
    assert (d <= div_up sum (sum / d)) as Hlow.
    { apply Z.nlt_ge. intros Hl. assert (sum <= (d - 1) * (sum / d)) by (apply div_up_le; lia). pose proof (Z.mul_div_le sum d Hd). nia. }
    lia.
Qed.

(** ** [exec_action] *)

Section Actions.
  Context {C : LockableCurrency} {V : VestingConfig}.

(** The schedules that an action leaves, and what they lock: all that was locked, or less for [Remove]. *)
Record acted (now : BlockNumber) (l : list VestingInfo) (action : VestingAction) (l' : list VestingInfo) (x : Balance) : Prop := {
  ac_ok : Forall sched_ok l';
  ac_live : Forall (λ v, locked_at v now ≠ 0) l';
  ac_locked : x = capped (unvested now l');
  ac_kept : ∃ tail, l' = live now (pick_schedules action l) ++ tail ∧ match action with Merge _ _ => (length tail <= 1)%nat | _ => tail = [] end;
  ac_length : (length l' <= length l)%nat;
  ac_total : match action with Remove _ => True | _ => x = capped (unvested now l) end }.

Definition action_distinct (action : VestingAction) : Prop := match action with Merge i j => i ≠ j | _ => True end.

Lemma live_length now l : (length (live now l) <= length l)%nat.
Proof. unfold live. induction l as [|v l IH]; [done|]. rewrite filter_cons. case_decide; simpl; lia. Qed.

Lemma acted_report now l action : Forall sched_ok l → (match action with Merge _ _ => False | _ => True end) →
  acted now l action (live now (pick_schedules action l)) (capped (unvested now (pick_schedules action l))).
Proof.
  intros Hl Ha. split.
  - by apply live_ok, picked_Forall.
  - apply live_all.
  - by rewrite unvested_live.
  - exists []. rewrite app_nil_r. by destruct action.
  - etrans; [apply live_length|apply picked_length].
  - destruct action; [by rewrite pick_passive|done|done].
Qed.

Lemma acted_merge now l i j v w m : Forall sched_ok l → 0 <= now <= u32_max → i ≠ j → l !! i = Some v → l !! j = Some w →
  merge_vesting_info now v w = m →
  let kept := pick_schedules (Merge i j) l in
  match m with
  | Some m => acted now l (Merge i j) (live now kept ++ [m]) (saturating_add 128 (capped (unvested now kept)) (locked_at m now))
  | None => acted now l (Merge i j) (live now kept) (capped (unvested now kept))
  end.
Proof.
  intros Hl Hn Hij Hi Hj Hm kept. assert (∀ f, zsum f kept = zsum f l - f v - f w) as Hkept.
  { intros f. etrans; [by apply (picked_two f (should_remove (Merge i j)) l i j Hij)|]. by rewrite Hi, Hj. }
  assert (unvested now kept = unvested now l - locked_at v now - locked_at w now) as Hun by apply Hkept.
  assert (length kept + 2 = length l)%nat as Hlen by (specialize (Hkept (λ _, 1)); rewrite !zsum_length in Hkept; lia).
  assert (Forall sched_ok kept) as Hkok by (by apply picked_Forall).
  pose proof (Forall_lookup_1 _ _ _ _ Hl Hi) as Hv. pose proof (Forall_lookup_1 _ _ _ _ Hl Hj) as Hw.
  pose proof (merge_spec now v w Hv Hw Hn) as Hms. rewrite Hm in Hms. pose proof (unvested_nonneg now kept Hkok). pose proof (live_length now kept).
  pose proof (locked_at_bounds v now Hv). pose proof (locked_at_bounds w now Hw). assert (0 < u128_max) by done.
  destruct m as [m|]; [destruct Hms as (Hmok & Hm0 & Hml)|destruct Hms as [Hv0 Hw0]].
  - split.
    + apply Forall_app. split; [by apply live_ok|by constructor].
    + apply Forall_app. split; [apply live_all|by constructor].
    + unfold unvested at 2. rewrite zsum_app. fold (unvested now (live now kept)). rewrite unvested_live. simpl. unfold saturating_add, capped in *. fold u128_max. lia.
    + by exists [m].
    + rewrite length_app. simpl. lia.
    + rewrite Hml. unfold saturating_add, capped. fold u128_max. lia.
  - split; [by apply live_ok|apply live_all|by rewrite unvested_live|exists []; rewrite app_nil_r; simpl; auto with lia|lia|]. f_equal. lia.
Qed.

Lemma wp_exec_action l action s (Q : outcome DispatchError (list VestingInfo * Balance) → Store → Prop) :
  Forall sched_ok l → 0 <= block_number s <= u32_max → action_distinct action →
  (∀ l' x, acted (block_number s) l action l' x → Q (Ok (l', x)) s) →
  (∀ i j, action = Merge i j → l !! i = None ∨ l !! j = None → Q (Err (vesting_error ScheduleIndexOutOfBounds)) s) →
  wp (exec_action l action) Q s.
Proof.
  intros Hl Hn Hd HQ HE. assert (Forall sched_ok (pick_schedules action l)) as Hp by (by apply picked_Forall).
  destruct action as [|i|i j]; simpl.
  1,2: unfold wp; rewrite report_run by done; by apply HQ, acted_report.
  apply wp_bind, wp_ok_or; [intros v Hv|eauto]. apply wp_bind, wp_ok_or; [intros w Hw|eauto].
  apply wp_bind. unfold wp at 1. rewrite report_run by done. apply wp_bind, wp_gets.
  pose proof (acted_merge (block_number s) l i j v w _ Hl Hn Hd Hv Hw eq_refl) as Hm. destruct (merge_vesting_info _ _ _); by apply wp_ret, HQ.
Qed.
End Actions.

(** ** The pallet *)

Section Pallet.
  Context {C : LockableCurrency} {laws : LockableLaws C} {V : VestingConfig} {vlaws : VestingLaws V}.

Abbreviation guard s who := (lc_guard s who VESTING_ID).

(** The schedules of an account, under a lock of at least what they have not released. *)
Record entry_ok (s : Store) (who : AccountId) (l : list VestingInfo) : Prop := {
  eo_some : l ≠ [];
  eo_ok : Forall sched_ok l;
  eo_length : (length l <= MAX_VESTING_SCHEDULES)%nat;
  eo_guard : 0 < guard s who;
  eo_locked : capped (unvested (block_number s) l) <= guard s who }.

Record vest_ok (s : Store) : Prop := {
  vo_ok : lc_ok s;
  vo_now : 0 <= block_number s <= u32_max;
  vo_entries : ∀ who l, schedules_of s who = Some l → entry_ok s who l }.

(** The schedules of [who] became [l] and its lock [x]. *)
Record written (who : AccountId) (l : list VestingInfo) (x : Balance) (s s' : Store) : Prop := {
  wr_ok : lc_ok s';
  wr_now : block_number s' = block_number s;
  wr_entry : schedules_of s' who = match l with [] => None | _ => Some l end;
  wr_frame : ∀ k, k ≠ who → schedules_of s' k = schedules_of s k;
  wr_guard : guard s' who = x;
  wr_guards : ∀ k j, k ≠ who ∨ j ≠ VESTING_ID → lc_guard s' k j = lc_guard s k j;
  wr_free : ∀ k, lc_free_balance s' k = lc_free_balance s k }.

Lemma others_vesting s s' : others s' = others s → vesting s' = vesting s ∧ block_number s' = block_number s.
Proof. unfold others, block_number. naive_solver. Qed.

(** Writing the lock and depositing the event. *)
Lemma wp_write_lock who x s (Q : outcome DispatchError unit → Store → Prop) :
  lc_ok s → lc_exists s who → 0 <= x <= u128_max →
  (∀ s', lc_ok s' → others s' = others s → (∀ k, lc_free_balance s' k = lc_free_balance s k) → guard s' who = x →
     (∀ k j, k ≠ who ∨ j ≠ VESTING_ID → lc_guard s' k j = lc_guard s k j) → Q (Ok tt) s') →
  wp (write_lock who x) Q s.
Proof.
  intros Hok Hex Hx HQ. assert (∀ e s1, lc_ok s1 ∧ others s1 = others s ∧ (∀ k, lc_free_balance s1 k = lc_free_balance s k) ∧ guard s1 who = x ∧
     (∀ k j, k ≠ who ∨ j ≠ VESTING_ID → lc_guard s1 k j = lc_guard s k j) → wp (vesting_emit e) Q s1) as Hev.
  { intros e s1 (Hok1 & Ho & Hf & Hg & Hgs). apply wp_modify, HQ.
    - by apply lc_ok_event.
    - rewrite <- Ho. by apply rest_others, rest_deposit.
    - intros k. by rewrite lc_free_event.
    - by rewrite lc_guard_event.
    - intros k j Hkj. rewrite lc_guard_event. auto. }
  unfold write_lock. destruct (Z.eqb_spec x 0) as [->|Hx0]; apply wp_bind.
  - eapply wp_mono; [by apply remove_lock_law|]. intros r s1 [-> Hs1]. by apply Hev.
  - eapply wp_mono; [apply set_lock_law; [done..|lia|apply unvested_reasons|apply unvested_transfer]|]. intros r s1 [-> Hs1]. by apply Hev.
Qed.

Lemma wp_write who l x s (Q : outcome DispatchError unit → Store → Prop) :
  lc_ok s → lc_exists s who → 0 <= x <= u128_max → (length l <= MAX_VESTING_SCHEDULES)%nat →
  (∀ s', written who l x s s' → Q (Ok tt) s') → wp (do! write_vesting who l in write_lock who x) Q s.
Proof.
  intros Hok Hex Hx Hlen HQ. apply wp_bind. unfold write_vesting. rewrite (proj2 (Nat.leb_le _ _) Hlen). apply wp_bind, wp_ret.
  set (f := with_schedules match l with [] => delete who | _ => <[who := l]> end). assert (∀ k, schedules_of (with_vesting f s) k =
    if decide (k = who) then match l with [] => None | _ => Some l end else schedules_of s k) as Hf.
  { intros k. unfold schedules_of. subst f. simpl. case_decide; [subst|]; destruct l.
    - apply lookup_delete_eq.
    - apply lookup_insert_eq.
    - by apply lookup_delete_ne.
    - by apply lookup_insert_ne. }
  assert (wp (write_lock who x) Q (with_vesting f s)).
  { apply wp_write_lock; [by apply lc_ok_vesting|by apply lc_exists_vesting|done|]. intros s' Hok' Ho Hfr Hg Hgs. apply others_vesting in Ho as [Hv Hn].
    assert (∀ k, schedules_of s' k = schedules_of (with_vesting f s) k) as Hsch by (intros; unfold schedules_of; by rewrite Hv).
    apply HQ. split; try done.
    - by rewrite Hsch, Hf, decide_True.
    - intros k Hk. by rewrite Hsch, Hf, decide_False.
    - intros k j Hkj. by rewrite Hgs, lc_guard_vesting.
    - intros k. by rewrite Hfr, lc_free_vesting. }
  by destruct l; apply wp_modify.
Qed.

(** The part that every operation ends with. *)
Lemma wp_act who l action s (Q : outcome DispatchError unit → Store → Prop) :
  lc_ok s → 0 <= block_number s <= u32_max → lc_exists s who → Forall sched_ok l → (length l <= MAX_VESTING_SCHEDULES)%nat → action_distinct action →
  (∀ l' x s', acted (block_number s) l action l' x → written who l' x s s' → Q (Ok tt) s') →
  (∀ i j, action = Merge i j → l !! i = None ∨ l !! j = None → Q (Err (vesting_error ScheduleIndexOutOfBounds)) s) →
  wp (let! ' (schedules, locked_now) := exec_action l action in do! write_vesting who schedules in write_lock who locked_now) Q s.
Proof.
  intros Hok Hn Hex Hl Hlen Hd HQ HE. apply wp_bind, wp_exec_action; [done..| |done]. intros l' x Ha. apply wp_write; [done..| | |eauto].
  - rewrite (ac_locked _ _ _ _ _ Ha). pose proof (unvested_nonneg (block_number s) l' (ac_ok _ _ _ _ _ Ha)). unfold capped. assert (0 < u128_max) by done. lia.
  - pose proof (ac_length _ _ _ _ _ Ha). lia.
Qed.

Lemma written_ok who l action l' x s s' :
  vest_ok s → (length l <= MAX_VESTING_SCHEDULES)%nat → acted (block_number s) l action l' x → written who l' x s s' → vest_ok s'.
Proof.
  intros Hs Hlen Ha Hw. split; [apply Hw|rewrite (wr_now _ _ _ _ _ Hw); apply Hs|]. intros k lk Hk. destruct (decide (k = who)) as [->|Hne].
  - rewrite (wr_entry _ _ _ _ _ Hw) in Hk. assert (l' ≠ [] ∧ lk = l') as [Hl ->] by (destruct l'; naive_solver).
    destruct Ha as [Hok Hlive Hx _ Hlen' _]. pose proof (unvested_zero _ _ Hok Hlive) as Hz. pose proof (unvested_nonneg (block_number s) l' Hok).
    split; rewrite ?(wr_guard _ _ _ _ _ Hw), ?(wr_now _ _ _ _ _ Hw); try done; [lia| |lia].
    subst x. unfold capped in *. assert (0 < u128_max) by done. assert (unvested (block_number s) l' `min` u128_max ≠ 0) by (rewrite Hz; done). lia.
  - rewrite (wr_frame _ _ _ _ _ Hw) in Hk by done. destruct (vo_entries _ Hs _ _ Hk) as [? ? ? Hg Hl].
    split; rewrite ?(wr_guards _ _ _ _ _ Hw) by auto; rewrite ?(wr_now _ _ _ _ _ Hw); done.
Qed.

Lemma acted_passive now l l' x : acted now l Passive l' x → l' = live now l.
Proof. intros Ha. destruct (ac_kept _ _ _ _ _ Ha) as (tail & -> & ->). by rewrite app_nil_r, pick_passive. Qed.

(** Activity of other pallets, later blocks included. *)
Lemma vest_ok_elsewhere s s' :
  vest_ok s → lc_ok s' → Vesting (vesting s') = Vesting (vesting s) → (∀ who, guard s' who = guard s who) →
  block_number s <= block_number s' <= u32_max → vest_ok s'.
Proof.
  intros [Hok Hn He] Hok' Hv Hg Hn'. split; [done|lia|]. intros who l Hl. unfold schedules_of in Hl. rewrite Hv in Hl.
  destruct (He _ _ Hl) as [? Hlok ? ? ?]. split; rewrite ?Hg; try done. pose proof (unvested_mono _ _ l Hlok (proj1 Hn')). unfold capped in *. lia.
Qed.

Lemma entry_exists s who l : vest_ok s → schedules_of s who = Some l → lc_exists s who.
Proof. intros Hs Hl. eapply lc_guard_exists; [apply Hs|]. apply (eo_guard _ _ _ (vo_entries _ Hs _ _ Hl)). Qed.

Lemma wp_do_vest who s (Q : outcome DispatchError unit → Store → Prop) :
  vest_ok s → (schedules_of s who = None → Q (Err (vesting_error NotVesting)) s) →
  (∀ l l' x s', schedules_of s who = Some l → (length l <= MAX_VESTING_SCHEDULES)%nat → acted (block_number s) l Passive l' x → written who l' x s s' → Q (Ok tt) s') →
  wp (do_vest who) Q s.
Proof.
  intros Hs HE HQ. apply wp_bind, wp_gets, wp_bind, wp_ok_or; [intros l Hl|done]. destruct (vo_entries _ Hs _ _ Hl) as [? ? ? ? ?].
  apply wp_act; [apply Hs..|by eapply entry_exists|done|done|done| |done]. eauto.
Qed.

(** What an account had before a schedule is added. *)
Definition schedules_before (s : Store) (who : AccountId) : list VestingInfo := default [] (schedules_of s who).

Lemma schedules_before_ok s who : vest_ok s → Forall sched_ok (schedules_before s who).
Proof. intros Hs. unfold schedules_before. destruct (schedules_of s who) eqn:Hl; [|constructor]. apply (eo_ok _ _ _ (vo_entries _ Hs _ _ Hl)). Qed.

Lemma wp_add who v s (Q : outcome DispatchError unit → Store → Prop) :
  vest_ok s → lc_exists s who → sched_ok v → (length (schedules_before s who) < MAX_VESTING_SCHEDULES)%nat →
  (∀ l' x s', acted (block_number s) (schedules_before s who ++ [v]) Passive l' x → written who l' x s s' → Q (Ok tt) s') →
  wp (add_vesting_schedule who (locked v) (raw_per_block v) (starting_block v)) Q s.
Proof.
  intros Hs Hex Hv Hlen HQ. pose proof Hv as [_ [? ?]]. unfold add_vesting_schedule. rewrite (proj2 (Z.eqb_neq _ _)) by lia.
  replace (mkVesting _ _ _) with v by (by destruct v). replace (is_valid v) with true.
  2: { symmetry. unfold is_valid. rewrite !(proj2 (Z.eqb_neq _ _)) by lia. done. }
  apply wp_bind, wp_gets, wp_bind. fold (schedules_before s who). rewrite (proj2 (Nat.ltb_lt _ _) Hlen). apply wp_ret. apply wp_act; [apply Hs..|done| | |done|by eauto|done].
  - apply Forall_app. split; [by apply schedules_before_ok|by constructor].
  - rewrite length_app. simpl. lia.
Qed.

(** Every run of a trait operation or dispatchable, errors included, keeps the locks above the unvested amounts. *)
Lemma add_keeps who lk pb st s : vest_ok s → lc_exists s who → info_u (mkVesting lk pb st) →
  wp (add_vesting_schedule who lk pb st) (λ r s', vest_ok s' ∧ r ≠ Panic ∧ (r ≠ Ok tt → s' = s)) s.
Proof.
  intros Hs Hex Hu. destruct (lk =? 0) eqn:H0; [unfold add_vesting_schedule; rewrite H0; by apply wp_ret|].
  destruct (is_valid (mkVesting lk pb st)) eqn:Hval.
  2: { unfold add_vesting_schedule. rewrite H0, Hval. by apply wp_throw. }
  destruct (Nat.ltb_spec (length (schedules_before s who)) MAX_VESTING_SCHEDULES) as [Hlt|Hge].
  - apply (wp_add who (mkVesting lk pb st)); [done..|by apply is_valid_ok|done|]. intros l' x s' Ha Hw. split; [|done]. eapply written_ok; [done| |done..].
    rewrite length_app. simpl. lia.
  - unfold add_vesting_schedule. rewrite H0, Hval. apply wp_bind, wp_gets, wp_bind. unfold schedules_before in Hge. rewrite (proj2 (Nat.ltb_ge _ _) Hge). by apply wp_throw.
Qed.

Lemma remove_keeps who i s : vest_ok s →
  wp (remove_vesting_schedule who i) (λ r s', vest_ok s' ∧ r ≠ Panic ∧ (r ≠ Ok tt → s' = s)) s.
Proof.
  intros Hs. apply wp_bind, wp_gets, wp_bind, wp_ok_or; [intros l Hl|done]. destruct (vo_entries _ Hs _ _ Hl) as [? ? ? ? ?].
  apply wp_act; [apply Hs..|by eapply entry_exists|done|done|done| |done]. intros l' x s' Ha Hw. split; [|done]. by eapply written_ok.
Qed.

Lemma do_vest_keeps who s : vest_ok s → wp (do_vest who) (λ r s', vest_ok s' ∧ r ≠ Panic ∧ (r ≠ Ok tt → s' = s)) s.
Proof. intros Hs. apply wp_do_vest; [done..|]. intros l l' x s' _ Hlen Ha Hw. split; [|done]. by eapply written_ok. Qed.

Lemma wp_merge_schedules who i j s (Q : outcome DispatchError unit → Store → Prop) :
  vest_ok s → (i = j → Q (Ok tt) s) → (schedules_of s who = None → Q (Err (vesting_error NotVesting)) s) →
  (∀ l, schedules_of s who = Some l → (l !! i = None ∨ l !! j = None) → Q (Err (vesting_error ScheduleIndexOutOfBounds)) s) →
  (∀ l l' x s', i ≠ j → schedules_of s who = Some l → (length l <= MAX_VESTING_SCHEDULES)%nat → acted (block_number s) l (Merge i j) l' x → written who l' x s s' → Q (Ok tt) s') →
  wp (merge_schedules (Signed who) i j) Q s.
Proof.
  intros Hs Heq HN HE HQ. apply wp_bind, wp_ret. destruct (Nat.eqb_spec i j) as [->|Hij]; [by apply wp_ret, Heq|].
  apply wp_bind, wp_gets, wp_bind, wp_ok_or; [intros l Hl|done]. destruct (vo_entries _ Hs _ _ Hl) as [? ? ? ? ?].
  apply wp_act; [apply Hs..|by eapply entry_exists|done|done|done|by eauto|]. intros i' j' [= <- <-]. by eapply HE.
Qed.

(** A vested transfer: the schedule is added once the funds have moved, and cannot fail then. *)
Lemma wp_do_vested_transfer source target v s (Q : outcome DispatchError unit → Store → Prop) :
  vest_ok s → info_u v → (∀ from, lookup_address s source = Some from → lookup_address s target = Some from → lc_exists s from) →
  (∀ e, Q (Err e) s) →
  (∀ from to l' x s1 s', lookup_address s source = Some from → lookup_address s target = Some to → sched_ok v → MinVestedTransfer <= locked v →
     (length (schedules_before s to) < MAX_VESTING_SCHEDULES)%nat → vest_ok s1 → others s1 = others s → (∀ k j, lc_guard s1 k j = lc_guard s k j) →
     (from ≠ to → lc_free_balance s1 to = lc_free_balance s to + locked v) →
     acted (block_number s) (schedules_before s to ++ [v]) Passive l' x → written to l' x s1 s' → Q (Ok tt) s') →
  wp (do_vested_transfer source target v) Q s.
Proof.
  intros Hs Hu Hself HE HQ. apply wp_bind, wp_ensure; intros Hmin; [|done]. apply Z.leb_le in Hmin. destruct (is_valid v) eqn:Hval; [|by apply wp_throw]. cbn [negb].
  pose proof (is_valid_ok _ Hu Hval) as Hv. rewrite per_block_ok by done. apply wp_bind, wp_lookup; [intros to Hto|done]. apply wp_bind, wp_lookup; [intros from Hfrom|done].
  apply wp_bind. unfold can_add_vesting_schedule. replace (mkVesting _ _ _) with v by (by destruct v). rewrite Hval. apply wp_bind, wp_gets, wp_ensure; intros Hlen; [|done].
  apply Nat.ltb_lt in Hlen. fold (schedules_before s to) in Hlen. apply wp_bind. eapply wp_mono; [apply transfer_law; [apply Hs|]|].
  { destruct Hv as [(? & _) [? _]]. lia. }
  intros [[]|e|] s1; [|by intros ->|done]. intros (Hok1 & Ho & Hg & Hsame & Hother). destruct (others_vesting _ _ Ho) as [Hves Hnow].
  assert (vest_ok s1) as Hs1 by (eapply vest_ok_elsewhere; [done|done|by rewrite Hves|done|rewrite Hnow; pose proof (vo_now _ Hs); lia]).
  assert (schedules_before s1 to = schedules_before s to) as Hb by (unfold schedules_before, schedules_of; by rewrite Hves).
  apply wp_bind, wp_attempt. apply wp_add; [done| |done|by rewrite Hb|].
  - destruct (decide (from = to)) as [->|Hne]; [|by apply Hother]. rewrite Hsame by done. by apply Hself.
  - rewrite Hb, Hnow. intros l' x s' Ha Hw. apply wp_ret. eapply HQ; try done. intros Hne. by apply Hother.
Qed.

(** ** Transitions *)

(** The arguments of a call are at their widths; the sender of a vested transfer to itself exists (for a
    signed origin, it pays the fee). *)
Definition call_fits (s : Store) (c : VestingCall) (origin : RawOrigin) : Prop :=
  match c with
  | CVestedTransfer target v => info_u v ∧ ∀ who, origin = Signed who → lookup_address s target = Some who → lc_exists s who
  | CForceVestedTransfer source target v =>
      info_u v ∧ ∀ who, lookup_address s source = Some who → lookup_address s target = Some who → lc_exists s who
  | _ => True
  end.

(** A dispatchable, a use of the trait by another pallet, or a change elsewhere: of balances, by
    other locks, of the block number. *)
Inductive vesting_step (s : Store) : Store → Prop :=
| vesting_step_call c origin r s' : call_fits s c origin → dispatch (vesting_call c origin) s = (r, s') → vesting_step s s'
| vesting_step_add who lk pb st r s' :
    lc_exists s who → info_u (mkVesting lk pb st) → add_vesting_schedule who lk pb st s = (r, s') → vesting_step s s'
| vesting_step_remove who i r s' : remove_vesting_schedule who i s = (r, s') → vesting_step s s'
| vesting_step_elsewhere s' :
    lc_ok s' → Vesting (vesting s') = Vesting (vesting s) → (∀ who, guard s' who = guard s who) →
    block_number s <= block_number s' <= u32_max → vesting_step s s'.

Lemma vested_transfer_keeps source target v s : vest_ok s → info_u v →
  (∀ who, lookup_address s source = Some who → lookup_address s target = Some who → lc_exists s who) →
  wp (do_vested_transfer source target v) (λ r s', vest_ok s' ∧ r ≠ Panic ∧ (r ≠ Ok tt → s' = s)) s.
Proof.
  intros Hs Hu Hself. apply wp_do_vested_transfer; [done..|]. intros from to l' x s1 s' _ _ _ _ Hlen Hs1 Ho _ _ Ha Hw. split; [|done].
  destruct (others_vesting _ _ Ho) as [_ Hn]. rewrite <- Hn in Ha. eapply written_ok; [done| |done..]. rewrite length_app. simpl. lia.
Qed.

Lemma vesting_call_keeps c origin s : vest_ok s → call_fits s c origin →
  wp (vesting_call c origin) (λ r s', vest_ok s' ∧ r ≠ Panic ∧ (r ≠ Ok tt → s' = s)) s.
Proof.
  intros Hs Hfit. destruct c; simpl in *.
  - apply wp_bind, wp_ensure_signed; [intros who _|done]. by apply do_vest_keeps.
  - apply wp_bind, wp_ensure_signed; [intros k _|done]. apply wp_bind, wp_lookup; [intros who _|done]. by apply do_vest_keeps.
  - destruct Hfit as [Hu Hself]. apply wp_bind, wp_ensure_signed; [intros k Hk|done]. apply vested_transfer_keeps; [done..|]. intros who [= ->]. by apply Hself.
  - destruct Hfit as [Hu Hself]. apply wp_bind. destruct origin; simpl; [apply wp_ret|by apply wp_throw..]. by apply vested_transfer_keeps.
  - destruct origin as [|who|]; [by apply wp_bind, wp_throw| |by apply wp_bind, wp_throw]. apply wp_merge_schedules; try done.
    intros l l' x s' _ _ Hlen Ha Hw. split; [|done]. by eapply written_ok.
Qed.

Lemma vesting_step_keeps s s' : vest_ok s → vesting_step s s' → vest_ok s'.
Proof.
  intros Hs [c origin r s1 Hfit Hd|who lk pb st r s1 Hex Hu Hr|who i r s1 Hr|s1 ? ? ? ?].
  - pose proof (vesting_call_keeps c origin s Hs Hfit) as Hw. unfold dispatch in Hd. unfold wp in Hw.
    destruct (vesting_call c origin s) as [[[]|e|] s2]; simplify_eq; [by apply Hw|done|done].
  - by apply (wp_run _ _ _ _ _ (add_keeps who lk pb st s Hs Hex Hu) Hr).
  - by apply (wp_run _ _ _ _ _ (remove_keeps who i s Hs) Hr).
  - by eapply vest_ok_elsewhere.
Qed.

Lemma vesting_reachable_ok s s' : vest_ok s → rtc vesting_step s s' → vest_ok s'.
Proof. intros Hs Hr. induction Hr as [|x y z Hxy _ IH]; [done|]. apply IH. by eapply vesting_step_keeps. Qed.

(** ** Genesis *)

Definition entry_u (e : AccountId * BlockNumber * BlockNumber * Balance) : Prop :=
  let '(_, begin, length_, liquid) := e in 0 <= begin <= u32_max ∧ 0 <= length_ <= u32_max ∧ 0 <= liquid <= u128_max.
Definition entry_account (e : AccountId * BlockNumber * BlockNumber * Balance) : AccountId := e.1.1.1.

(** One entry of an account that had none: its lock is the whole of the schedule. *)
Lemma genesis_entry_ok e s : vest_ok s → entry_u e → schedules_of s (entry_account e) = None →
  wp (genesis_entry e) (λ r s', r = Ok tt → vest_ok s' ∧ ∀ k, k ≠ entry_account e → schedules_of s' k = schedules_of s k) s.
Proof.
  intros Hs Hu Hnone. destruct e as [[[who begin] length_] liquid]. unfold entry_account in *. simpl in *. destruct Hu as (Hb & Hlen & Hliq).
  apply wp_bind, wp_gets. destruct (lc_free_exists s who (vo_ok _ Hs)) as [Hf Hex]. destruct (Z.eqb_spec (lc_free_balance s who) 0) as [|Hne]; [by intros [=]|].
  set (v := mkVesting _ _ _). destruct (is_valid v) eqn:Hval; [|by intros [=]]. cbn [negb]. assert (sched_ok v) as Hv.
  { apply is_valid_ok; [|done]. unfold info_u. simpl. unfold saturating_sub. assert (0 <= (lc_free_balance s who - liquid) `max` 0 / (length_ `max` 1) <= (lc_free_balance s who - liquid) `max` 0).
    { split; [apply Z.div_pos; lia|]. apply Z.div_le_upper_bound; nia. } lia. }
  apply wp_bind, wp_gets. rewrite Hnone. simpl. pose proof max_schedules_pos. rewrite (proj2 (Nat.leb_gt _ _)) by lia. apply wp_bind, wp_modify.
  set (s1 := with_vesting _ s). pose proof Hv as [(Hl & _) [Hl0 _]]. simpl in Hl, Hl0. eapply wp_mono.
  { apply set_lock_law; [by apply lc_ok_vesting, Hs|apply lc_exists_vesting; auto|split; [exact Hl0|apply Hl]|apply unvested_reasons|apply unvested_transfer]. }
  intros r s' (-> & Hok & Ho & _ & Hg & Hgs) _. destruct (others_vesting _ _ Ho) as [Hves Hn]. change (block_number s1) with (block_number s) in Hn.
  assert (∀ k, schedules_of s' k = if decide (k = who) then Some [v] else schedules_of s k) as Hsch.
  { intros k. unfold schedules_of. rewrite Hves. simpl. case_decide; [subst; apply lookup_insert_eq|by apply lookup_insert_ne]. }
  split; [|intros k Hk; by rewrite Hsch, decide_False]. split; [done|rewrite Hn; apply Hs|]. intros k l. rewrite Hsch. case_decide as Hk.
  - intros [= <-]. subst k. split; [done|by constructor|simpl; lia|rewrite Hg; simpl in *; lia|]. rewrite Hg, Hn. unfold unvested. cbn [zsum].
    pose proof (locked_at_bounds v (block_number s) Hv) as Hb'. unfold capped. change (locked v) with (saturating_sub (lc_free_balance s who) liquid) in Hb'. lia.
  - intros Hkl. destruct (vo_entries _ Hs _ _ Hkl) as [? ? ? ? ?]. assert (guard s' k = guard s k) as Hgk by (rewrite Hgs by auto; apply lc_guard_vesting).
    split; rewrite ?Hn, ?Hgk; done.
Qed.

Lemma genesis_entries_ok l s : vest_ok s → Forall entry_u l → NoDup (entry_account <$> l) → (∀ e, e ∈ l → schedules_of s (entry_account e) = None) →
  wp (genesis_entries l) (λ r s', r = Ok tt → vest_ok s') s.
Proof.
  revert s. induction l as [|e l IH]; intros s Hs Hu Hnd Hnone; [by apply wp_ret|]. apply Forall_cons in Hu as [He Hu].
  rewrite fmap_cons in Hnd. apply NoDup_cons in Hnd as [Hnin Hnd]. apply wp_bind. eapply wp_mono; [apply genesis_entry_ok; [done..|set_solver]|].
  intros [[]|x|] s1 H1; [|done..]. destruct (H1 eq_refl) as [Hs1 Hk]. apply IH; [done..|]. intros e' He'. rewrite Hk; [set_solver|].
  intros Heq. apply Hnin. rewrite <- Heq. by apply list_elem_of_fmap_2.
Qed.

(** C15. Unvested funds stay: from a genesis with at most one entry for each account, through any sequence of the
    pallet's calls, of uses of its trait by other pallets, and of activity elsewhere that leaves the vesting locks over any number of blocks, a transfer of a positive value to another account that
    succeeds leaves its sender with at least what the sender's schedules still lock at the current block. *)
Theorem unvested_funds_stay l s0 s1 s who sch dest v req s' :
  lc_ok s0 → Vesting (vesting s0) = ∅ → 0 <= block_number s0 <= u32_max → Forall entry_u l → NoDup (entry_account <$> l) →
  vesting_genesis_build l s0 = (Ok tt, s1) → rtc vesting_step s1 s → schedules_of s who = Some sch →
  0 < v <= u128_max → who ≠ dest → lc_transfer who dest v req s = (Ok tt, s') →
  capped (unvested (block_number s) sch) <= guard s who ∧ capped (unvested (block_number s') sch) <= lc_free_balance s' who.
Proof.
  intros Hok Hemp Hn Hu Hnd Hg Hr Hsch Hv Hne Ht. assert (vest_ok s) as Hs.
  { eapply vesting_reachable_ok; [|done]. refine (wp_run _ (λ r s', r = Ok tt → vest_ok s') _ _ _ _ Hg eq_refl). apply wp_bind, wp_modify.
    assert (∀ k, Vesting (vesting s0) !! k = None) as Hno by (intros; by rewrite Hemp).
    apply genesis_entries_ok; [split|done|done|].
    - by apply lc_ok_vesting.
    - done.
    - intros k sk Hk. unfold schedules_of in Hk. simpl in Hk. by rewrite Hno in Hk.
    - intros e _. unfold schedules_of. simpl. apply Hno. }
  destruct (vo_entries _ Hs _ _ Hsch) as [_ _ _ _ Hl]. split; [done|].
  destruct (wp_run _ _ _ _ _ (transfer_law s who dest v req (vo_ok _ Hs) Hv) Ht) as (_ & Ho & _ & _ & Hother).
  destruct (others_vesting _ _ Ho) as [_ ->]. destruct (Hother Hne) as (_ & _ & Hfree). specialize (Hfree VESTING_ID). lia.
Qed.

(** [vest] and [vest_other] release what is vested: the schedules that are over go, the lock becomes the sum of what
    the others still lock, or is removed with the last of them, and no other account's schedules or locks change; an
    account without schedules is refused and nothing changes. *)
Theorem do_vest_spec who s r s' :
  vest_ok s → do_vest who s = (r, s') →
  match schedules_of s who with
  | None => r = Err (vesting_error NotVesting) ∧ s' = s
  | Some l =>
      r = Ok tt ∧ guard s' who = capped (unvested (block_number s) l) ∧
      default [] (schedules_of s' who) = live (block_number s) l ∧ (guard s' who = 0 ↔ schedules_of s' who = None) ∧
      (∀ k, k ≠ who → schedules_of s' k = schedules_of s k ∧ guard s' k = guard s k) ∧ ∀ k, lc_free_balance s' k = lc_free_balance s k
  end.
Proof.
  intros Hs Hr. wp_of Hr. apply wp_do_vest; [done|by intros ->|]. intros l l' x s1 Hl _ Ha Hw. rewrite Hl.
  pose proof (unvested_zero _ _ (ac_ok _ _ _ _ _ Ha) (ac_live _ _ _ _ _ Ha)) as Hz. pose proof (ac_locked _ _ _ _ _ Ha) as Hx.
  pose proof (acted_passive _ _ _ _ Ha) as Hlive. split; [done|]. rewrite (wr_guard _ _ _ _ _ Hw), (wr_entry _ _ _ _ _ Hw).
  split; [by apply Ha|]. split; [by subst l'; destruct (live _ l)|]. split; [rewrite Hx, Hz; destruct l'; naive_solver|].
  split; [|apply Hw]. intros k Hk. split; [by apply Hw|]. apply Hw. by left.
Qed.

(** A vested transfer to another account either fails and changes nothing, or moves the funds and puts
    them under the new schedule: the step that adds it cannot fail once the funds have moved. *)
Theorem vested_transfer_complete source target v s r s' from to :
  vest_ok s → info_u v → lookup_address s source = Some from → lookup_address s target = Some to → from ≠ to →
  do_vested_transfer source target v s = (r, s') →
  match r with
  | Ok _ => sched_ok v ∧ lc_free_balance s' to = lc_free_balance s to + locked v ∧
      default [] (schedules_of s' to) = live (block_number s) (schedules_before s to ++ [v]) ∧
      guard s' to = capped (unvested (block_number s) (schedules_before s to) + locked_at v (block_number s)) ∧
      ∀ k, k ≠ to → schedules_of s' k = schedules_of s k ∧ guard s' k = guard s k
  | Err _ => s' = s
  | Panic => False
  end.
Proof.
  intros Hs Hu Hfrom Hto Hne Hr. wp_of Hr. apply wp_do_vested_transfer; [done|done|congruence|done|].
  intros from' to' l' x s1 s2 Hf Ht Hv _ _ _ Ho Hg Hfree Ha Hw. destruct (others_vesting _ _ Ho) as [Hves _].
  rewrite Hf in Hfrom. rewrite Ht in Hto. injection Hfrom as ->. injection Hto as ->.
  split; [done|]. rewrite (wr_free _ _ _ _ _ Hw), (wr_entry _ _ _ _ _ Hw), (wr_guard _ _ _ _ _ Hw). split; [by apply Hfree|]. split; [|split].
  - rewrite <- (acted_passive _ _ _ _ Ha). by destruct l'.
  - rewrite (ac_total _ _ _ _ _ Ha). unfold unvested. rewrite zsum_app. simpl. f_equal. lia.
  - intros k Hk. rewrite (wr_frame _ _ _ _ _ Hw), (wr_guards _ _ _ _ _ Hw), Hg by auto. unfold schedules_of. by rewrite Hves.
Qed.

(** [merge_schedules] releases no funds but the vested ones: after it the lock is what all schedules of the account
    together lock at this block, the two are gone from the list in favour of at most one, and the
    schedules that remain are those that were neither merged nor over. *)
Theorem merge_keeps_locked who i j l s r s' :
  vest_ok s → schedules_of s who = Some l → i ≠ j → merge_schedules (Signed who) i j s = (r, s') →
  match r with
  | Ok _ => guard s' who = capped (unvested (block_number s) l) ∧ vest_ok s' ∧
      ∃ new, default [] (schedules_of s' who) = live (block_number s) (pick_schedules (Merge i j) l) ++ new ∧ (length new <= 1)%nat
  | Err e => e = vesting_error ScheduleIndexOutOfBounds ∧ (l !! i = None ∨ l !! j = None) ∧ s' = s
  | Panic => False
  end.
Proof.
  intros Hs Hl Hij Hr. wp_of Hr. apply wp_merge_schedules; [done|done|congruence|..].
  - intros l1 Hl1 Hout. rewrite Hl in Hl1. by simplify_eq.
  - intros l1 l' x s1 _ Hl1 Hlen Ha Hw. rewrite Hl in Hl1. simplify_eq. rewrite (wr_guard _ _ _ _ _ Hw), (wr_entry _ _ _ _ _ Hw).
    split; [by apply (ac_total _ _ _ _ _ Ha)|]. split; [by eapply written_ok|]. destruct (ac_kept _ _ _ _ _ Ha) as (new & Hnew & Hlen'). exists new.
    split; [|done]. rewrite <- Hnew. by destruct l'.
Qed.
End Pallet.
