(* ===== verification/VestingOnBalances.v ===== *)
(** [pallet_balances] as the currency of [pallet_vesting] ([type Currency = Balances] in
    [bin/node/runtime/src/lib.rs]): the laws of the interface hold, and the theorems of [VestingProps] are run
    on the node's configuration. *)

From S2P Require Import Prelude Runtime System Balances Ledger Transfers Currencies Locking Indices Calls BalancesProps Vesting VestingProps.

Section Instance_.
  Context {cfg : BalancesConfig} {laws : BalancesLaws cfg}.

#[export] Instance balances_lockable : LockableCurrency := {|
  lc_free_balance := free_balance;
  lc_transfer := transfer;
  lc_set_lock := set_lock;
  lc_remove_lock := remove_lock |}.

(** The locks of an account: one for each identifier, in force, and keeping the account alive. *)
Record locks_held (s : Store) (who : AccountId) : Prop := {
  lh_distinct : distinct (locks s who);
  lh_amounts : Forall (λ x, lock_amount x <= u128_max) (locks s who);
  lh_has : has_locks s who = negb (bool_decide (locks s who = []));
  lh_frozen : locks s who ≠ [] → is_new s who = false ∧ lock_max freezes_misc (locks s who) <= misc_frozen (account s who) ∧ 0 < consumers (info s who) }.

(** The books, with locks in force on accounts that nothing but their balance provides for. *)
Record lockable_ok (s : Store) : Prop := {
  lo_books : bal_inv 0 s;
  lo_sole : ∀ who, sole s who;
  lo_locks : ∀ who, locks_held s who }.

Definition lock_guard (s : Store) (who : AccountId) (id : LockIdentifier) : Balance :=
  match lock_map (locks s who) !! id with
  | Some x => if freezes_misc (lock_reasons x) then lock_amount x else 0
  | None => 0
  end.

(** Two stores with the same accounts and locks. *)
Definition same_ledger (s s' : Store) : Prop := accounts s' = accounts s ∧ bal s' = bal s.

Lemma same_info s s' who : same_ledger s s' → info s' who = info s who.
Proof. intros [Ha _]. unfold info. by rewrite Ha. Qed.

Lemma same_account s s' who : same_ledger s s' → account s' who = account s who.
Proof. intros [Ha _]. apply account_accounts. by rewrite Ha. Qed.

Lemma same_guard s s' who id : same_ledger s s' → lock_guard s' who id = lock_guard s who id.
Proof. intros [_ Hb]. unfold lock_guard, locks. by rewrite Hb. Qed.

Lemma same_held s s' who : accounts s' !! who = accounts s !! who → Locks (bal s') !! who = Locks (bal s) !! who → locks_held s who → locks_held s' who.
Proof.
  intros Ha Hl [Hd Ham Hh Hf]. assert (locks s' who = locks s who) as Hlk by (unfold locks; by rewrite Hl).
  assert (info s' who = info s who) as Hi by (unfold info; by rewrite Ha). assert (account s' who = account s who) as Hac by (by apply account_accounts).
  split; rewrite ?Hlk; [done..| |].
  - unfold has_locks in *. by rewrite Hl.
  - unfold is_new. by rewrite Hac, Hi.
Qed.

Lemma same_ok s s' : same_ledger s s' → lockable_ok s → lockable_ok s'.
Proof.
  intros Hs [Hb Hso Hl]. pose proof Hs as [Ha Hbal]. split.
  - destruct Hb as [Hsys Hd Hsu Hti Hi]. assert (issued s' = issued s) as Hi' by (unfold issued; by rewrite Ha).
    split; rewrite ?Hbal, ?Hi'; try done; [unfold sys_ok in *; by rewrite Ha|]. intros k. by rewrite (same_account _ _ _ Hs).
  - intros who. specialize (Hso who). unfold sole, stored_get in *. by rewrite (same_info _ _ _ Hs).
  - intros who. apply (same_held s); [by rewrite Ha|by rewrite Hbal|done].
Qed.

Lemma deposit_same e s : same_ledger s (deposit e s).
Proof. split; [apply accounts_deposit|]. apply rest_bal, rest_deposit. Qed.

Lemma guard_held s who id : lockable_ok s → 0 < lock_guard s who id → locks s who ≠ [].
Proof. unfold lock_guard. intros _ Hg Hl. rewrite Hl in Hg. by compute in Hg. Qed.

Lemma guard_le_max s who id : lock_guard s who id <= lock_max freezes_misc (locks s who).
Proof.
  unfold lock_guard. pose proof (lock_max_nonneg freezes_misc (locks s who)). destruct (lock_map (locks s who) !! id) as [x|] eqn:Hx; [|done].
  destruct (freezes_misc (lock_reasons x)) eqn:Hf; [|done]. apply lock_max_ge; [|done].
  apply elem_of_list_to_map_2, list_elem_of_fmap in Hx as (y & Hy & Hin). by simplify_eq.
Qed.

(** After the locks of an existing account became [l]. *)
Lemma relocked_ok who l s s' :
  lockable_ok s → is_new s who = false → distinct l → Forall (λ x, lock_amount x <= u128_max) l → relocked 0 who l s s' → lockable_ok s'.
Proof.
  intros [Hb Hso Hl] Hn Hd Ha Hr. split; [apply Hr|..].
  - intros k. destruct (decide (k = who)) as [->|Hk]; [by apply (rl_sole _ _ _ _ _ Hr)|]. specialize (Hso k). destruct (rl_frame _ _ _ _ _ Hr k Hk) as [Hak _].
    unfold sole, stored_get, info in *. by rewrite Hak.
  - intros k. destruct (decide (k = who)) as [->|Hk]; [|destruct (rl_frame _ _ _ _ _ Hr k Hk); by apply (same_held s)].
    assert (account s' who = mkData (free (account s who)) (reserved (account s who)) (lock_max freezes_misc l) (lock_max freezes_fee l)) as Hacc.
    { rewrite (rl_account _ _ _ _ _ Hr). unfold locked_data. by rewrite Hn. }
    split; rewrite ?(rl_locks _ _ _ _ _ Hr); [done..|apply Hr|]. intros Hne. split; [|split].
    + assert (ExistentialDeposit <= worth (account s' who)) as Hw by (rewrite Hacc; by apply (not_new_alive 0)). destruct (is_new s' who) eqn:Hnew; [|done].
      rewrite (is_new_default _ _ Hnew) in Hw. pose proof ed_pos. unfold worth in Hw. simpl in Hw. lia.
    + rewrite Hacc. done.
    + rewrite (rl_consumers _ _ _ _ _ Hr Hn). unfold lock_consumers. destruct l as [|x l]; [done|]. destruct (info_refs s who (sys_ok_refs _ (inv_sys _ _ Hb))) as [_ Hc _ _].
      destruct (has_locks s who) eqn:Hh; [|unfold is_u in Hc; assert (0 < u32_max) by done; lia].
      apply (lh_frozen _ _ (Hl who)). rewrite (lh_has _ _ (Hl who)) in Hh. by apply negb_true_iff, bool_decide_eq_false in Hh.
Qed.

Lemma relocked_free who l s s' k : is_new s who = false → relocked 0 who l s s' → free_balance s' k = free_balance s k.
Proof.
  intros Hn Hr. unfold free_balance. destruct (decide (k = who)) as [->|Hk].
  - rewrite (rl_account _ _ _ _ _ Hr). unfold locked_data. by rewrite Hn.
  - f_equal. apply account_accounts. by apply (rl_frame _ _ _ _ _ Hr).
Qed.

Lemma relocked_guards who l id s s' k j :
  relocked 0 who l s s' → (∀ i, i ≠ id → lock_map l !! i = lock_map (locks s who) !! i) → k ≠ who ∨ j ≠ id → lock_guard s' k j = lock_guard s k j.
Proof.
  intros Hr Hl Hkj. unfold lock_guard. destruct (decide (k = who)) as [->|Hk].
  - rewrite (rl_locks _ _ _ _ _ Hr), Hl; [done|]. by destruct Hkj.
  - unfold locks. by rewrite (proj2 (rl_frame _ _ _ _ _ Hr k Hk)).
Qed.

Lemma reasons_from_misc r : 0 <= r < 32 → Z.testbit r 1 = true → r ≠ 0 ∧ freezes_misc (reasons_from r) = true.
Proof.
  intros Hr Hb. split; [by intros ->|]. unfold reasons_from. destruct (Z.eqb_spec r TRANSACTION_PAYMENT) as [->|_]; [done|]. by case_match.
Qed.

Lemma set_lock_run id who amount reasons s :
  lockable_ok s → is_new s who = false → 0 < amount <= u128_max → 0 <= reasons < 32 → Z.testbit reasons 1 = true →
  wp (set_lock id who amount reasons) (λ r s', r = Ok tt ∧ lockable_ok s' ∧ others s' = others s ∧ (∀ k, free_balance s' k = free_balance s k) ∧
      lock_guard s' who id = amount ∧ ∀ k j, k ≠ who ∨ j ≠ id → lock_guard s' k j = lock_guard s k j) s.
Proof.
  intros Hs Hn Ha Hr Hbit. destruct (reasons_from_misc _ Hr Hbit) as [Hr0 Hmisc]. destruct (lo_locks _ Hs who) as [Hd Ham _ _].
  unfold set_lock. rewrite (proj2 (Z.eqb_neq amount 0)), (proj2 (Z.eqb_neq reasons 0)) by lia. simpl. apply wp_bind, wp_gets.
  set (nl := mkLock id amount (reasons_from reasons)). destruct (place_lock_spec (λ _ nl, nl) nl (locks s who) Hd ltac:(done)) as [Hd' Hm'].
  assert (Forall (λ x, lock_amount x <= u128_max) (place_lock (λ _ nl, nl) nl (locks s who))) as Ham' by (apply place_lock_amounts; [simpl; lia|done]).
  assert (lock_map (place_lock (λ _ nl, nl) nl (locks s who)) = <[id := nl]> (lock_map (locks s who))) as Hm by (rewrite Hm'; by destruct (_ !! _)).
  apply (wp_update_locks 0); [apply Hs|done|]. intros s1 Hrl. split; [done|]. split; [by eapply relocked_ok|]. split; [apply Hrl|].
  split; [intros k; by eapply relocked_free|]. split.
  - unfold lock_guard. rewrite (rl_locks _ _ _ _ _ Hrl), Hm, lookup_insert_eq. subst nl. simpl. by rewrite Hmisc.
  - intros k j Hkj. eapply relocked_guards; [done| |done]. intros i Hi. by rewrite Hm, lookup_insert_ne.
Qed.

Lemma remove_lock_run id who s :
  lockable_ok s → is_new s who = false →
  wp (remove_lock id who) (λ r s', r = Ok tt ∧ lockable_ok s' ∧ others s' = others s ∧ (∀ k, free_balance s' k = free_balance s k) ∧
      lock_guard s' who id = 0 ∧ ∀ k j, k ≠ who ∨ j ≠ id → lock_guard s' k j = lock_guard s k j) s.
Proof.
  intros Hs Hn. destruct (lo_locks _ Hs who) as [Hd Ham _ _]. destruct (remove_lock_spec id _ Hd) as [Hd' Hm].
  assert (Forall (λ x, lock_amount x <= u128_max) (filter (λ l, lock_id l ≠ id) (locks s who))) as Ham'.
  { rewrite Forall_forall in *. intros x [_ Hx]%list_elem_of_filter. auto. }
  apply wp_bind, wp_gets, (wp_update_locks 0); [apply Hs|done|]. intros s1 Hrl. split; [done|]. split; [by eapply relocked_ok|]. split; [apply Hrl|].
  split; [intros k; by eapply relocked_free|]. split.
  - unfold lock_guard. by rewrite (rl_locks _ _ _ _ _ Hrl), Hm, lookup_delete_eq.
  - intros k j Hkj. eapply relocked_guards; [done| |done]. intros i Hi. by rewrite Hm, lookup_delete_ne.
Qed.

(** A transfer that succeeds keeps the locks in force. *)
Lemma moved_ok from dest v req s s' :
  lockable_ok s → 0 < v → from ≠ dest → transfer_check s from dest v req = Ok tt →
  moved from dest (set_free (free (account s from) - v) (account s from)) (set_free (free (account s dest) + v) (account s dest)) s s' →
  lockable_ok s' ∧ (∀ who, locks s' who = locks s who) ∧ (locks s from ≠ [] → lock_max freezes_misc (locks s from) <= free (account s' from)).
Proof.
  intros Hs Hv Hne Hc Hm. pose proof (lo_books _ Hs) as Hinv. pose proof (inv_transfer _ _ _ _ _ _ Hinv Hv Hne Hc Hm) as Hinv'.
  destruct (moved_transferred _ _ _ _ _ _ Hinv Hv Hne Hc Hm) as [Hdest Hfrom _ _ (Hlk & _ & _)].
  assert (∀ who, locks s' who = locks s who) as Hl by (intros; unfold locks; by rewrite Hlk).
  assert (∀ who, ExistentialDeposit <= worth (account s' who) → is_new s' who = false) as Halive.
  { intros who Hw. destruct (is_new s' who) eqn:Hn; [|done]. rewrite (is_new_default _ _ Hn) in Hw. pose proof ed_pos. unfold worth in Hw. simpl in Hw. lia. }
  apply transfer_check_Ok in Hc as (Hfree & _ & Hed & Hfr & Hlive).
  assert (locks s from ≠ [] → account s' from = set_free (free (account s from) - v) (account s from) ∧ ExistentialDeposit <= worth (account s' from)) as Hkept.
  { intros Hlf. destruct (lh_frozen _ _ (lo_locks _ Hs from) Hlf) as (Hnew & _ & Hcons). pose proof (lo_sole _ Hs from) as Hso. unfold sole in Hso.
    assert (is_providing (stored_get s from) = true) as Hp by (unfold is_new, account in Hnew; by apply negb_false_iff in Hnew). rewrite Hp in Hso.
    assert (can_dec_provider s from = false) as Hcan by (unfold can_dec_provider; rewrite Hso, (proj2 (Z.eqb_neq _ _)) by lia; done).
    assert (ExistentialDeposit <= worth (account s from) - v) as Hw by (destruct Hlive as [[_ Hx]|]; [congruence|done]).
    rewrite Hfrom, (proj2 (Z.ltb_ge _ _) Hw). split; [done|]. rewrite worth_set_free. lia. }
  split; [|split; [done|]].
  - split; [done|intros; by apply (mv_sole _ _ _ _ _ _ Hm), Hs|]. intros k. destruct (lo_locks _ Hs k) as [Hd Ha Hh Hf]. split; rewrite ?Hl; [done..| |].
    { unfold has_locks in *. by rewrite Hlk. }
    intros Hlk'. destruct (Hf Hlk') as (Hn & Hmax & Hc). destruct (decide (k = from)) as [->|Hkf]; [|destruct (decide (k = dest)) as [->|Hkd]].
    + destruct (Hkept Hlk') as [Ha' Hw]. split; [by apply Halive|]. rewrite (mv_from_consumers _ _ _ _ _ _ Hm), Ha'. done.
    + split; [apply Halive; rewrite Hdest, worth_set_free; lia|]. rewrite (mv_dest_consumers _ _ _ _ _ _ Hm), Hdest. done.
    + pose proof (mv_frame _ _ _ _ _ _ Hm k Hkf Hkd) as Hk. unfold is_new. rewrite (account_accounts s s' k Hk). unfold info. by rewrite Hk.
  - intros Hlf. destruct (lh_frozen _ _ (lo_locks _ Hs from) Hlf) as (_ & Hmax & _). rewrite (proj1 (Hkept Hlf)). simpl. lia.
Qed.

Lemma transfer_run s from dest v req : lockable_ok s → 0 < v <= u128_max →
  wp (transfer from dest v req) (λ r s', match r with
      | Ok _ => lockable_ok s' ∧ others s' = others s ∧ (∀ k j, lock_guard s' k j = lock_guard s k j) ∧ (from = dest → s' = s) ∧
          (from ≠ dest → is_new s' dest = false ∧ free_balance s' dest = free_balance s dest + v ∧ ∀ j, lock_guard s from j <= free_balance s' from)
      | Err _ => s' = s
      | Panic => False end) s.
Proof.
  intros Hs Hv. destruct (decide (from = dest)) as [->|Hne].
  { unfold transfer. rewrite (bool_decide_eq_true_2 (dest = dest)), orb_true_r by done. by apply wp_ret. }
  pose proof (lo_books _ Hs) as Hinv. apply wp_transfer; [apply Hinv|by eapply inv_TI|lia|done|done|]. intros Hc s' Hm.
  destruct (moved_ok _ _ _ _ _ _ Hs (proj1 Hv) Hne Hc Hm) as (Hs' & Hl & Hfree). split; [done|]. split; [apply Hm|].
  split; [intros k j; unfold lock_guard; by rewrite Hl|]. split; [done|]. intros _. unfold free_balance.
  pose proof (acct_bounds _ _ dest Hinv) as (?&?&?&?&?&?). split; [|split].
  - apply transfer_check_Ok in Hc as (_ & _ & Hed & _). destruct (is_new s' dest) eqn:Hn; [|done]. apply is_new_default in Hn. rewrite (mv_dest _ _ _ _ _ _ Hm) in Hn.
    apply (f_equal free) in Hn. simpl in Hn. lia.
  - by rewrite (mv_dest _ _ _ _ _ _ Hm).
  - intros j. pose proof (acct_bounds _ _ from (lo_books _ Hs')) as (?&?&?&?&?&?). pose proof (guard_le_max s from j). destruct (decide (locks s from = [])) as [He|Hnil]; [|specialize (Hfree Hnil); lia].
    assert (lock_guard s from j = 0) as -> by (unfold lock_guard; by rewrite He). lia.
Qed.

#[export] Instance balances_lockable_laws : LockableLaws balances_lockable.
Proof.
  refine {| lc_ok := lockable_ok; lc_exists := λ s who, is_new s who = false; lc_guard := lock_guard |}; try done.
  - intros f s. by apply same_ok.
  - intros e s. apply same_ok, deposit_same.
  - intros e s who. simpl. unfold free_balance. by rewrite (same_account _ _ _ (deposit_same e s)).
  - intros s who id Hs Hg. by apply (lh_frozen _ _ (lo_locks _ Hs who)), (guard_held s who id).
  - intros s who Hs. pose proof (acct_bounds _ _ who (lo_books _ Hs)) as (?&?&?&?&?&?). simpl. unfold free_balance, is_u in *. fold u128_max in *.
    split; [lia|]. intros Hf. destruct (is_new s who) eqn:Hn; [|done]. by rewrite (is_new_default _ _ Hn) in Hf.
  - intros s id who amount reasons. apply set_lock_run.
  - intros s id who. apply remove_lock_run.
  - intros s from dest v req. apply transfer_run.
Defined.
End Instance_.

(** ** The node's configuration *)

#[local] Existing Instance node_balances.

Definition node_vesting : VestingConfig := {|
  MinVestedTransfer := 100 * DOLLARS;
  UnvestedFundsAllowedWithdrawReasons := reasons_except (Z.lor TRANSFER RESERVE);
  MAX_VESTING_SCHEDULES := 28 |}.

#[local] Existing Instance node_vesting.

#[local] Instance node_vesting_laws : VestingLaws node_vesting.
Proof. split; [cbn; lia|by vm_compute|reflexivity]. Qed.

(** A genesis with two entries for one account leaves the first schedule without a lock: each entry sets the lock to its own
    amount, and the second replaces the first.  The account then transfers funds that its schedules lock. *)
Theorem genesis_lock_replaced :
  let s0 := (genesis_build [(1%N, 1000 * DOLLARS); (2%N, 5 * DOLLARS)] (empty_store 0 0)).2 in
  let '(r, s1) := vesting_genesis_build [(1%N, 10, 20, 500 * DOLLARS); (1%N, 10, 20, 600 * DOLLARS)] s0 in
  r = Ok tt ∧ unvested 0 (schedules_before s1 1%N) = 900 * DOLLARS ∧ lock_guard s1 1%N VESTING_ID = 400 * DOLLARS ∧
  let '(r, s2) := transfer 1%N 2%N (600 * DOLLARS) KeepAlive s1 in
  r = Ok tt ∧ free_balance s2 1%N = 400 * DOLLARS.
Proof. vm_compute. repeat split. Qed.

(** A vested transfer from an account to itself succeeds whatever it holds: the transfer is a no-op, and the schedule
    locks funds that were never provided. *)
Theorem self_vested_transfer :
  let s0 := (genesis_build [(1%N, 2 * DOLLARS)] (empty_store 0 0)).2 in
  let '(r, s1) := vested_transfer (Signed 1%N) (Id 1%N) (mkVesting (1000 * DOLLARS) DOLLARS 5) s0 in
  r = Ok tt ∧ free_balance s1 1%N = 2 * DOLLARS ∧ lock_guard s1 1%N VESTING_ID = 1000 * DOLLARS.
Proof. vm_compute. repeat split. Qed.

(** ** Witnesses *)

Definition rich : Store := (genesis_build [(1%N, 1000 * DOLLARS); (2%N, 5 * DOLLARS)] (empty_store 0 0)).2.

Lemma rich_inv : bal_inv 0 rich.
Proof.
  assert (sum_balances [(1%N, 1000 * DOLLARS); (2%N, 5 * DOLLARS)] <= u128_max) as Hs by (vm_compute; congruence).
  assert (genesis_build [(1%N, 1000 * DOLLARS); (2%N, 5 * DOLLARS)] (empty_store 0 0) = (Ok tt, rich)) as Hr by (vm_compute; reflexivity).
  pose proof (wp_run _ _ _ _ _ (genesis_books _ (empty_store 0 0) eq_refl Hs) Hr) as Hg. apply Hg.
Qed.

Lemma rich_ok : lockable_ok rich.
Proof.
  split; [apply rich_inv|..].
  - intros who. destruct (decide (who = 1%N)) as [->|H1]; [reflexivity|]. destruct (decide (who = 2%N)) as [->|H2]; [reflexivity|].
    unfold sole, stored_get, info. replace (accounts rich !! who) with (@None AccountInfo); [reflexivity|].
    assert (accounts rich = <[1%N := mkInfo 0 0 1 0 (mkData (1000 * DOLLARS) 0 0 0)]> {[2%N := mkInfo 0 0 1 0 (mkData (5 * DOLLARS) 0 0 0)]}) as -> by reflexivity.
    by rewrite lookup_insert_ne, lookup_singleton_ne.
  - intros who. assert (Locks (bal rich) = ∅) as Hl by reflexivity. assert (locks rich who = []) as Hlk by (unfold locks; by rewrite Hl).
    split; rewrite ?Hlk; [constructor|constructor| |done]. unfold has_locks. by rewrite Hl.
Qed.

(** A schedule of 90 dollars a block on the first account. *)
Definition vesting_entries : list (AccountId * BlockNumber * BlockNumber * Balance) := [(1%N, 0, 10, 100 * DOLLARS)].
Definition vesting_rich : Store := (vesting_genesis_build vesting_entries rich).2.
Definition at_block (n : BlockNumber) : Store → Store :=
  with_sys (λ y, mkSystem (Account y) n (ExecutionPhase y) (EventCount y) (Events y)).

Lemma vesting_rich_ok : vest_ok vesting_rich.
Proof.
  assert (wp (genesis_entries vesting_entries) (λ r s', r = Ok tt → vest_ok s') (with_vesting (λ v, mkVestingStore (Vesting v) V1) rich)) as Hw.
  { apply genesis_entries_ok.
    - split; [by apply lc_ok_vesting, rich_ok|by vm_compute|]. intros k l Hk. by vm_compute in Hk.
    - constructor; [|constructor]. by vm_compute.
    - by vm_compute; constructor; [apply not_elem_of_nil|constructor].
    - intros e _. by vm_compute. }
  assert ((genesis_entries vesting_entries (with_vesting (λ v, mkVestingStore (Vesting v) V1) rich)).1 = Ok tt) as Hok by (vm_compute; reflexivity).
  exact (Hw Hok).
Qed.

Lemma later_ok n s : vest_ok s → block_number s <= n <= u32_max → vest_ok (at_block n s) ∧ vesting_step s (at_block n s).
Proof.
  intros Hs Hn. assert (lc_ok (at_block n s)) by (apply (same_ok s); [done|apply Hs]).
  split; [by apply (vest_ok_elsewhere s)|by apply vesting_step_elsewhere].
Qed.

Lemma free_balance_here s who : lc_free_balance s who = free_balance s who.
Proof. reflexivity. Qed.

Lemma guard_here s who : lc_guard s who VESTING_ID = lock_guard s who VESTING_ID.
Proof. reflexivity. Qed.

Lemma unvested_funds_stay_witness :
  let s := (dispatch (vesting_call CVest (Signed 1%N)) (at_block 4 vesting_rich)).2 in
  let s' := (transfer 1%N 2%N (200 * DOLLARS) KeepAlive s).2 in
  capped (unvested 4 [mkVesting (900 * DOLLARS) (90 * DOLLARS) 0]) <= free_balance s' 1%N.
Proof.
  intros s s'.
  destruct (unvested_funds_stay vesting_entries rich vesting_rich s 1%N [mkVesting (900 * DOLLARS) (90 * DOLLARS) 0] 2%N (200 * DOLLARS) KeepAlive s') as [_ H].
  - exact rich_ok.
  - reflexivity.
  - by vm_compute.
  - constructor; [by vm_compute|constructor].
  - vm_compute. constructor; [apply not_elem_of_nil|constructor].
  - vm_compute. reflexivity.
  - apply (rtc_l _ _ (at_block 4 vesting_rich)); [apply (later_ok 4 vesting_rich vesting_rich_ok); by vm_compute|].
    apply rtc_once. eapply (vesting_step_call _ CVest (Signed 1%N)); [done|apply surjective_pairing].
  - reflexivity.
  - by vm_compute.
  - done.
  - vm_compute. reflexivity.
  - exact H.
Defined.

Lemma do_vest_spec_witness :
  let s := at_block 4 vesting_rich in
  (do_vest 1%N s).1 = Ok tt ∧ lock_guard (do_vest 1%N s).2 1%N VESTING_ID = 540 * DOLLARS.
Proof.
  intros s. assert (vest_ok s) as Hs by (apply (later_ok 4 vesting_rich vesting_rich_ok); by vm_compute).
  pose proof (do_vest_spec 1%N s _ _ Hs (surjective_pairing _)) as Hspec.
  change (schedules_of s 1%N) with (Some [mkVesting (900 * DOLLARS) (90 * DOLLARS) 0]) in Hspec. destruct Hspec as (Hr & Hg & _).
  split; [exact Hr|exact Hg].
Defined.

Lemma vested_transfer_complete_witness :
  let v := mkVesting (200 * DOLLARS) DOLLARS 5 in
  let s' := (do_vested_transfer (Id 1%N) (Id 2%N) v rich).2 in
  free_balance s' 2%N = 205 * DOLLARS ∧ lock_guard s' 2%N VESTING_ID = 200 * DOLLARS.
Proof.
  intros v s'. assert (vest_ok rich) as Hs.
  { split; [exact rich_ok|by vm_compute|]. intros k l Hk. by vm_compute in Hk. }
  pose proof (vested_transfer_complete (Id 1%N) (Id 2%N) v rich _ _ 1%N 2%N Hs ltac:(by vm_compute) eq_refl eq_refl ltac:(done) (surjective_pairing _)) as Hc.
  assert (Hr : (do_vested_transfer (Id 1%N) (Id 2%N) v rich).1 = Ok tt) by (vm_compute; reflexivity).
  rewrite Hr in Hc. destruct Hc as (_ & Hf & _ & Hg & _). rewrite !free_balance_here in Hf. rewrite guard_here in Hg. fold s' in Hf, Hg. rewrite Hf, Hg.
  vm_compute. split; reflexivity.
Defined.

(** Two schedules, one of which starts later. *)
Definition two_schedules : Store :=
  (vested_transfer (Signed 1%N) (Id 2%N) (mkVesting (100 * DOLLARS) DOLLARS 5)
     (vested_transfer (Signed 1%N) (Id 2%N) (mkVesting (200 * DOLLARS) DOLLARS 8) rich).2).2.

Lemma two_schedules_ok : vest_ok two_schedules.
Proof.
  assert (∀ v s, vest_ok s → info_u v → vest_ok (vested_transfer (Signed 1%N) (Id 2%N) v s).2) as Hstep.
  { intros v s Hs Hu. assert (call_fits s (CVestedTransfer (Id 2%N) v) (Signed 1%N)) as Hfit by (split; [done|]; intros who [= <-] [=]).
    apply (vesting_call_keeps (CVestedTransfer (Id 2%N) v) (Signed 1%N) s Hs Hfit). }
  apply Hstep; [|by vm_compute]. apply Hstep; [|by vm_compute].
  split; [exact rich_ok|by vm_compute|]. intros k l Hk. by vm_compute in Hk.
Qed.

Lemma merge_keeps_locked_witness :
  let s' := (merge_schedules (Signed 2%N) 0 1 two_schedules).2 in
  lock_guard s' 2%N VESTING_ID = 300 * DOLLARS.
Proof.
  intros s'. pose proof (merge_keeps_locked 2%N 0 1 [mkVesting (200 * DOLLARS) DOLLARS 8; mkVesting (100 * DOLLARS) DOLLARS 5] two_schedules _ _ two_schedules_ok
    ltac:(vm_compute; reflexivity) ltac:(done) (surjective_pairing _)) as Hc.
  assert (Hr : (merge_schedules (Signed 2%N) 0 1 two_schedules).1 = Ok tt) by (vm_compute; reflexivity).
  rewrite Hr in Hc. destruct Hc as [Hg _]. rewrite guard_here in Hg. fold s' in Hg. rewrite Hg. vm_compute. reflexivity.
Defined.

Lemma schedule_linear_witness :
  let v := mkVesting (900 * DOLLARS) (90 * DOLLARS) 7 in
  locked_at v 10 = 630 * DOLLARS ∧ (ending_block_as_balance v <= 17 ↔ locked_at v 17 = 0).
Proof.
  intros v. assert (sched_ok v) as Hv by (split; [by vm_compute|by vm_compute]).
  destruct (schedule_linear v 10 Hv ltac:(by vm_compute)) as (H10 & _). destruct (schedule_linear v 17 Hv ltac:(by vm_compute)) as (_ & _ & _ & H17).
  split; [rewrite H10; reflexivity|exact H17].
Defined.

(** Two schedules that end at block 100: their merger holds 149 units over the 50 blocks that are left, releases two units a
    block and ends at block 125. *)
Lemma merged_ending_witness :
  let v := mkVesting 100 1 0 in let w := mkVesting 49 1 50 in
  ending_block_as_balance v = 100 ∧ ending_block_as_balance w = 99 ∧
  ∃ m, merge_vesting_info 0 v w = Some m ∧ 100 <= ending_block_as_balance m ∧ ending_block_as_balance m ≠ 100.
Proof.
  intros v w. split; [reflexivity|]. split; [reflexivity|]. exists (mkVesting 149 2 50). split; [reflexivity|].
  pose proof (merged_ending 0 v w (mkVesting 149 2 50) ltac:(by vm_compute) ltac:(by vm_compute) ltac:(by vm_compute) ltac:(by vm_compute) ltac:(by vm_compute)
    eq_refl ltac:(by vm_compute)) as [Hlow Hiff].
  split; [exact Hlow|]. intros He. apply (proj1 Hiff) in He. clear -He. vm_compute in He. discriminate He.
Defined.
