(* ===== verification/Utf8.v ===== *)
(** [core::str::from_utf8]: whether a byte string is well-formed UTF-8. *)

From S2P Require Import Prelude Runtime.

Definition within (lo hi x : Z) : bool := (lo <=? x) && (x <=? hi).
Definition continuation (x : Z) : bool := within 128 191 x.

(** The second byte of a three- or four-byte sequence: no overlong form, no surrogate, nothing
    above U+10FFFF. *)
Definition second3 (x y : Z) : bool :=
  if x =? 224 then within 160 191 y else if x =? 237 then within 128 159 y else continuation y.
Definition second4 (x y : Z) : bool :=
  if x =? 240 then within 144 191 y else if x =? 244 then within 128 143 y else continuation y.

Fixpoint from_utf8 (b : Bytes) : bool :=
  match b with
  | [] => true
  | x :: r =>
      if within 0 127 x then from_utf8 r
      else if within 194 223 x then
        match r with y :: r => continuation y && from_utf8 r | _ => false end
      else if within 224 239 x then
        match r with y :: z :: r => second3 x y && continuation z && from_utf8 r | _ => false end
      else if within 240 244 x then
        match r with y :: z :: t :: r => second4 x y && continuation z && continuation t && from_utf8 r | _ => false end
      else false
  end.

Lemma from_utf8_app b1 b2 : from_utf8 b1 = true → from_utf8 (b1 ++ b2) = from_utf8 b2.
Proof.
  induction b1 as [b1 IH] using (induction_ltof1 _ (@length Z)). unfold ltof in IH.
  destruct b1 as [|x r]; [done|]. simpl. destruct (within 0 127 x); [intros; apply IH; simpl; auto; lia|].
  destruct (within 194 223 x).
  { destruct r as [|y r]; [done|]. simpl. intros [-> Hr]%andb_true_iff. simpl. apply IH; simpl; auto; lia. }
  destruct (within 224 239 x).
  { destruct r as [|y [|z r]]; [done..|]. simpl. intros [-> Hr]%andb_true_iff. simpl. apply IH; simpl; auto; lia. }
  destruct (within 240 244 x); [|done].
  destruct r as [|y [|z [|t r]]]; [done..|]. simpl. intros [-> Hr]%andb_true_iff. simpl. apply IH; simpl; auto; lia.
Qed.

(** A single-byte character ends what is before it. *)
Lemma from_utf8_cut a x b : within 0 127 x = true → from_utf8 (a ++ x :: b) = true → from_utf8 a = true ∧ from_utf8 b = true.
Proof.
  intros Hx. assert (Hnot : continuation x = false ∧ (∀ y, second3 y x = false ∧ second4 y x = false)).
  { unfold second3, second4, continuation, within in *. split; [lia|]. intros y. split; destruct (y =? _); try destruct (y =? _); lia. }
  destruct Hnot as [Hc Hs]. induction a as [a IH] using (induction_ltof1 _ (@length Z)). unfold ltof in IH.
  destruct a as [|y r]; [simpl; by rewrite Hx|]. simpl. destruct (within 0 127 y); [intros; apply IH; simpl; auto; lia|].
  destruct (within 194 223 y).
  { destruct r as [|z r]; simpl; [by rewrite Hc|]. intros [-> Hr]%andb_true_iff. simpl. apply IH; simpl; auto; lia. }
  destruct (within 224 239 y).
  { destruct r as [|z [|t r]]; simpl; [destruct b; [done|]; by rewrite (proj1 (Hs y))|by rewrite Hc, andb_false_r|]. intros [-> Hr]%andb_true_iff. simpl. apply IH; simpl; auto; lia. }
  destruct (within 240 244 y); [|done].
  destruct r as [|z [|t [|u r]]]; simpl.
  - destruct b as [|? [|? ?]]; [done..|]. by rewrite (proj2 (Hs y)).
  - destruct b as [|? ?]; [done|]. by rewrite Hc, andb_false_r.
  - by rewrite Hc, andb_false_r.
  - intros [-> Hr]%andb_true_iff. simpl. apply IH; simpl; auto; lia.
Qed.
