(* ===== verification/Offchain.v ===== *)
(** Off-chain execution: the capabilities of an execution context and the database that
    off-chain workers share ([primitives/core/src/offchain/mod.rs], [primitives/io/src/lib.rs],
    [client/offchain/src], [client/db/src/offchain.rs]), the typed references into that database
    ([primitives/runtime/src/offchain/storage.rs]), and the signing and submission of
    transactions by a worker ([frame/system/src/offchain.rs]).

    The codec is [parity-scale-codec], which is not part of the repository: it is the class
    [Codec], and what the pallets rely on is [CodecLaws]. *)

From S2P Require Import Prelude Runtime.

(** ** Capabilities *)

Module Capabilities.

Definition TRANSACTION_POOL : Z := 1.
Definition HTTP : Z := 2.
Definition KEYSTORE : Z := 4.
Definition RANDOMNESS : Z := 8.
Definition NETWORK_STATE : Z := 16.
Definition OFFCHAIN_DB_READ : Z := 32.
Definition OFFCHAIN_DB_WRITE : Z := 64.
Definition NODE_AUTHORIZATION : Z := 128.
Definition TIME : Z := 256.
Definition IPFS : Z := 255.

Definition flags : list Z :=
  [TRANSACTION_POOL; HTTP; KEYSTORE; RANDOMNESS; NETWORK_STATE; OFFCHAIN_DB_READ; OFFCHAIN_DB_WRITE;
   NODE_AUTHORIZATION; TIME; IPFS].

(** The operations of [bitflags]. *)
Definition empty : Z := 0.
Definition all : Z := foldr Z.lor empty flags.
Definition contains (caps c : Z) : bool := Z.land caps c =? c.
Definition set (caps c : Z) (value : bool) : Z := if value then Z.lor caps c else Z.ldiff caps c.

Definition rich_offchain_call : Z := Z.lor (Z.lor TRANSACTION_POOL KEYSTORE) OFFCHAIN_DB_READ.

End Capabilities.

Inductive ExecutionContext := Importing | Syncing | BlockConstruction | OffchainCall (caps : option Z).

Definition context_capabilities (c : ExecutionContext) : Z :=
  match c with
  | Importing | Syncing | BlockConstruction => Capabilities.empty
  | OffchainCall None =>
      Z.lor (Z.lor Capabilities.KEYSTORE Capabilities.OFFCHAIN_DB_READ) Capabilities.TRANSACTION_POOL
  | OffchainCall (Some caps) => caps
  end.

(** The context in which [on_block_imported] runs the workers of a block. *)
Definition worker_context (enable_http : bool) : ExecutionContext :=
  OffchainCall (Some (Capabilities.set Capabilities.all Capabilities.HTTP enable_http)).

Definition with_capabilities (c : Z) (s : Store) : Store :=
  mkStore (sys s) (bal s) (indices s) (vesting s) (ipfs s) (know s) (market s) (offchain_index s) (offchain_db s) c.

(** [LimitedExternalities::check]: a forbidden API panics. *)
Definition check {E} (capability : Z) : M Store E unit :=
  let! caps := gets capabilities in
  if Capabilities.contains caps capability then ret tt else panic.

(** ** The off-chain database *)

Inductive StorageKind := PERSISTENT | LOCAL.

Section Db.
Context {E : Type}.

(** The fork-aware [LOCAL] database is not available: [unavailable_yet] logs and returns the
    default value. *)
Definition local_storage_set (kind : StorageKind) (key value : Bytes) : M Store E unit :=
  do! check Capabilities.OFFCHAIN_DB_WRITE in
  match kind with
  | PERSISTENT => modify (with_offchain_db <[key := value]>)
  | LOCAL => ret tt
  end.

Definition local_storage_clear (kind : StorageKind) (key : Bytes) : M Store E unit :=
  do! check Capabilities.OFFCHAIN_DB_WRITE in
  match kind with
  | PERSISTENT => modify (with_offchain_db (delete key))
  | LOCAL => ret tt
  end.

Definition local_storage_get (kind : StorageKind) (key : Bytes) : M Store E (option Bytes) :=
  do! check Capabilities.OFFCHAIN_DB_READ in
  match kind with
  | PERSISTENT => gets (λ s, offchain_db s !! key)
  | LOCAL => ret None
  end.

(** [LocalStorage::compare_and_set] holds the lock of the key: it is one step. *)
Definition local_storage_compare_and_set (kind : StorageKind) (key : Bytes) (old_value : option Bytes)
  (new_value : Bytes) : M Store E bool :=
  do! check Capabilities.OFFCHAIN_DB_WRITE in
  match kind with
  | PERSISTENT =>
      let! val := gets (λ s, offchain_db s !! key) in
      if decide (val = old_value)
      then do! modify (with_offchain_db <[key := new_value]>) in ret true
      else ret false
  | LOCAL => ret false
  end.

(** [sp_io::offchain_index]: buffered until the block is imported. *)
Definition offchain_index_set (key value : Bytes) : M Store E unit :=
  modify (with_offchain_index <[key := Some value]>).
Definition offchain_index_clear (key : Bytes) : M Store E unit :=
  modify (with_offchain_index <[key := None]>).

End Db.

Definition apply_change (change : option (option Bytes)) (old : option Bytes) : option Bytes :=
  match change with
  | Some o => o
  | None => old
  end.

(** [apply_offchain], when the node runs with [offchain_indexing_api]. *)
Definition import_block (offchain_indexing_api : bool) (s : Store) : Store :=
  with_offchain_index (λ _, ∅)
    (if offchain_indexing_api
     then with_offchain_db (λ db, merge apply_change (offchain_index s) db) s
     else s).

(** ** Typed references *)

Class Codec (T : Type) := {
  scale_encode : T → Bytes;
  scale_decode : Bytes → option T }.

(** Decoding an encoded value gives the value back, for the values of the Rust type. *)
Class CodecLaws (T : Type) `{Codec T} (inhabits : T → Prop) :=
  scale_roundtrip : ∀ t, inhabits t → scale_decode (scale_encode t) = Some t.

Inductive StorageRetrievalError := Undecodable.
Inductive MutateStorageError (T E : Type) :=
| ConcurrentModification (t : T)
| ValueFunctionFailed (e : E).
Arguments ConcurrentModification {T E}.
Arguments ValueFunctionFailed {T E}.

Record StorageValueRef := mkRef { ref_key : Bytes; ref_kind : StorageKind }.

Definition persistent (key : Bytes) : StorageValueRef := mkRef key PERSISTENT.
Definition local (key : Bytes) : StorageValueRef := mkRef key LOCAL.

Section Ref.
Context {E T : Type} `{Codec T}.

(** [Option<Vec<u8>>] decoded and transposed. *)
Definition decode_value (value : option Bytes) : option T + StorageRetrievalError :=
  match value with
  | None => inl None
  | Some b => match scale_decode b with Some t => inl (Some t) | None => inr Undecodable end
  end.

Definition ref_set (r : StorageValueRef) (value : T) : M Store E unit :=
  local_storage_set (ref_kind r) (ref_key r) (scale_encode value).

Definition ref_clear (r : StorageValueRef) : M Store E unit := local_storage_clear (ref_kind r) (ref_key r).

Definition ref_get (r : StorageValueRef) : M Store E (option T + StorageRetrievalError) :=
  let! value := local_storage_get (ref_kind r) (ref_key r) in
  ret (decode_value value).

Definition ref_mutate {F : Type} (r : StorageValueRef)
  (mutate_val : option T + StorageRetrievalError → T + F) : M Store E (T + MutateStorageError T F) :=
  let! value := local_storage_get (ref_kind r) (ref_key r) in
  match mutate_val (decode_value value) with
  | inr err => ret (inr (ValueFunctionFailed err))
  | inl val =>
      let! set := local_storage_compare_and_set (ref_kind r) (ref_key r) value (scale_encode val) in
      ret (if set then inl val else inr (ConcurrentModification val))
  end.

End Ref.

(** ** The IPFS requests of a worker *)

Module IpfsRequest.
Inductive t :=
| Addrs
| AddBytes (bytes : Bytes) (version : Z)
| AddListeningAddr (addr : Bytes)
| BitswapStats
| CatBytes (cid : Bytes)
| Connect (addr : Bytes)
| Disconnect (addr : Bytes)
| GetBlock (cid : Bytes)
| FindPeer (peer : Bytes)
| GetClosestPeers (peer : Bytes)
| GetProviders (cid : Bytes)
| Identity
| InsertPin (cid : Bytes) (recursive : bool)
| LocalAddrs
| LocalRefs
| Peers
| Publish (topic message : Bytes)
| RemoveBlock
| RemoveListeningAddr (addr : Bytes)
| RemovePin (cid : Bytes) (recursive : bool)
| Subscribe (topic : Bytes)
| SubscriptionList
| Unsubscribe (topic : Bytes).
End IpfsRequest.

Module IpfsResponse.
Record stats := mkStats {
  blocks_sent : Z;
  data_sent : Z;
  blocks_received : Z;
  data_received : Z;
  dup_blks_received : Z;
  dup_data_received : Z;
  peers : list Bytes;
  wantlist : list (Bytes * Z) }.
Inductive t :=
| Addrs (l : list (Bytes * list Bytes))
| AddBytes (cid : Bytes)
| BitswapStats (s : stats)
| CatBytes (bytes : Bytes)
| FindPeer (addrs : list Bytes)
| GetClosestPeers (peers_ : list Bytes)
| GetProviders (peers_ : list Bytes)
| Identity (key : Bytes) (addrs : list Bytes)
| LocalAddrs (addrs : list Bytes)
| LocalRefs (cids : list Bytes)
| Peers (addrs : list Bytes)
| RemoveBlock (cid : Bytes)
| Success.
End IpfsResponse.

Module IpfsRequestStatus.
Inductive t := DeadlineReached | IoError (e : Bytes) | Invalid | Finished (r : IpfsResponse.t).
End IpfsRequestStatus.

(** The error enum of [pallet_tds_ipfs_core]. *)
Inductive IpfsError := CannotCreateRequest | RequestTimeout | RequestFailed | FailedToAcquireLock.

(** The calls that workers submit. *)
Inductive OcwCall :=
| IpfsOcwCallback (identifier_ : Bytes) (data_ : Bytes) (offchain_data : option OffchainData)
| KnowledgeOcwCallback (identifier_ : Bytes) (data_ : Bytes) (offchain_data : option OffchainData)
| StoreOffchainData (block_number : BlockNumber) (cid_data : OffchainData).

(** What the node offers to a worker, besides the database: the IPFS requests (implemented in
    [IpfsApi]), the clock, the signing of a transaction ([create_transaction] of the runtime)
    and the transaction pool. *)
Class Host (H : Type) := {
  host_request_start : IpfsRequest.t → H → option Z * H;
  host_response_wait : list Z → Z → H → list IpfsRequestStatus.t * H;
  host_timestamp : H → Z;
  host_create_transaction : OcwCall → AccountId → Z → H → bool;
  host_submit_transaction : option (AccountId * Z) → OcwCall → H → bool * H }.

(** One status per request. *)
Class HostLaws (H : Type) `{Host H} :=
  host_wait_length : ∀ ids deadline h, length (host_response_wait ids deadline h).1 = length ids.

(** A worker runs on a copy of the chain state; the database, the node and the pool are shared. *)
Record World (H : Type) := mkWorld {
  w_store : Store;
  w_host : H;
  w_keys : list AccountId;
  w_pool : list (option (AccountId * Z) * OcwCall) }.
Arguments mkWorld {H}.
Arguments w_store {H}.
Arguments w_host {H}.
Arguments w_keys {H}.
Arguments w_pool {H}.

Section Worker.
Context {H : Type} `{Host H}.

Abbreviation OCW := (M (World H) IpfsError).

Definition with_store (s : Store) (w : World H) : World H := mkWorld s (w_host w) (w_keys w) (w_pool w).
Definition with_host (h : H) (w : World H) : World H := mkWorld (w_store w) h (w_keys w) (w_pool w).
Definition with_pool (f : list (option (AccountId * Z) * OcwCall) → list (option (AccountId * Z) * OcwCall))
  (w : World H) : World H := mkWorld (w_store w) (w_host w) (w_keys w) (f (w_pool w)).

Definition on_store {A} (m : M Store IpfsError A) : OCW A := λ w,
  let r := m (w_store w) in (r.1, with_store r.2 w).

Definition host_op {A} (f : H → A * H) : OCW A := λ w,
  let r := f (w_host w) in (Ok r.1, with_host r.2 w).

Definition ipfs_request_start (request : IpfsRequest.t) : OCW (option Z) :=
  do! on_store (check Capabilities.IPFS) in host_op (host_request_start request).

Definition ipfs_response_wait (ids : list Z) (deadline : Z) : OCW (list IpfsRequestStatus.t) :=
  do! on_store (check Capabilities.IPFS) in host_op (host_response_wait ids deadline).

Definition timestamp : OCW Z :=
  do! on_store (check Capabilities.TIME) in gets (λ w, host_timestamp (w_host w)).

(** [Timestamp::add]. *)
Definition timestamp_add (t duration : Z) : Z := saturating_add 64 t duration.

(** *** [primitives/runtime/src/offchain/ipfs.rs] *)

Record PendingRequest := mkPending { pending_id : Z; pending_request : IpfsRequest.t }.
Inductive WaitError := DeadlineError | IoErrorE (e : Bytes) | UnknownE.
Record Response := mkResponse { response_id : Z; response : IpfsResponse.t }.
Abbreviation IpfsResult := (Response + WaitError)%type.

Definition pending_new (request : IpfsRequest.t) : OCW (option PendingRequest) :=
  let! id := ipfs_request_start request in
  ret (match id with Some id => Some (mkPending id request) | None => None end).

Definition request_result (status : IpfsRequestStatus.t) (req : PendingRequest) : IpfsResult + PendingRequest :=
  match status with
  | IpfsRequestStatus.DeadlineReached => inr req
  | IpfsRequestStatus.IoError e => inl (inr (IoErrorE e))
  | IpfsRequestStatus.Invalid => inl (inr UnknownE)
  | IpfsRequestStatus.Finished resp => inl (inl (mkResponse (pending_id req) resp))
  end.

Definition try_wait_all (requests : list PendingRequest) (deadline : Z) : OCW (list (IpfsResult + PendingRequest)) :=
  let! statuses := ipfs_response_wait (map pending_id requests) deadline in
  ret (zip_with request_result statuses requests).

(** [.pop().expect("One request passed, one status received; qed")] *)
Definition try_wait (request : PendingRequest) (deadline : Z) : OCW (IpfsResult + PendingRequest) :=
  let! l := try_wait_all [request] deadline in unwrap (last l).

(** *** [frame/system/src/offchain.rs], for [Signer::all_accounts] *)

Definition submit_transaction (call : OcwCall) (signature : option (AccountId * Z)) : OCW bool :=
  do! on_store (check Capabilities.TRANSACTION_POOL) in
  let! ok := host_op (host_submit_transaction signature call) in
  if ok then do! modify (with_pool (λ p, p ++ [(signature, call)])) in ret true else ret false.

Definition submit_unsigned_transaction (call : OcwCall) : OCW bool := submit_transaction call None.

Definition keystore_accounts : OCW (list AccountId) :=
  do! on_store (check Capabilities.KEYSTORE) in gets w_keys.

Definition can_sign : OCW bool :=
  let! accounts := keystore_accounts in
  ret (0 <? Z.of_nat (length accounts)).

Definition send_single_signed_transaction (account : AccountId) (call : OcwCall) : OCW (option bool) :=
  let! account_data := gets (λ w, default default_info (Account (sys (w_store w)) !! account)) in
  let! created := gets (λ w, host_create_transaction call account (nonce account_data) (w_host w)) in
  if created then
    let! res := submit_transaction call (Some (account, nonce account_data)) in
    do! (if res then
           on_store (modify (with_sys (with_accounts
             <[account := mkInfo (wrapping_add 32 (nonce account_data) 1) (consumers account_data)
                            (providers account_data) (sufficients account_data) (data account_data)]>)))
         else ret tt) in
    ret (Some res)
  else ret None.

Fixpoint for_all (f : AccountId → OCW (option bool)) (accounts : list AccountId) : OCW (list (AccountId * bool)) :=
  match accounts with
  | [] => ret []
  | account :: rest =>
      let! res := f account in
      let! results := for_all f rest in
      ret (match res with Some r => (account, r) :: results | None => results end)
  end.

Definition send_signed_transaction (f : AccountId → OcwCall) : OCW (list (AccountId * bool)) :=
  let! accounts := keystore_accounts in
  for_all (λ account, send_single_signed_transaction account (f account)) accounts.

(** The state a worker leaves behind: its writes to the chain state are discarded. *)
Definition run_worker {A} (context : ExecutionContext) (m : OCW A) (w : World H) : outcome IpfsError A * World H :=
  let r := m (with_store (with_capabilities (context_capabilities context) (w_store w)) w) in
  (r.1, with_store (with_offchain_db (λ _, offchain_db (w_store r.2)) (w_store w)) r.2).

(** *** Weakest preconditions *)

Lemma wp_on_store {A} (m : M Store IpfsError A) Q w :
  wp m (λ r s, Q r (with_store s w)) (w_store w) → wp (on_store m) Q w.
Proof. done. Qed.

Lemma wp_host_op {A} (f : H → A * H) Q w :
  Q (Ok (f (w_host w)).1) (with_host (f (w_host w)).2 w) → wp (host_op f) Q w.
Proof. done. Qed.

(** What the node's functions do in a context that has their capability. *)
Lemma on_check cap w :
  Capabilities.contains (capabilities (w_store w)) cap = true → on_store (check cap) w = (Ok tt, w).
Proof. intros Hc. unfold on_store, check, bind. simpl. rewrite Hc. by destruct w. Qed.

Lemma request_start_run request w :
  Capabilities.contains (capabilities (w_store w)) Capabilities.IPFS = true →
  ipfs_request_start request w = host_op (host_request_start request) w.
Proof. intros Hc. unfold ipfs_request_start, bind. by rewrite on_check. Qed.

Lemma response_wait_run ids deadline w :
  Capabilities.contains (capabilities (w_store w)) Capabilities.IPFS = true →
  ipfs_response_wait ids deadline w = host_op (host_response_wait ids deadline) w.
Proof. intros Hc. unfold ipfs_response_wait, bind. by rewrite on_check. Qed.

Lemma timestamp_run w :
  Capabilities.contains (capabilities (w_store w)) Capabilities.TIME = true →
  timestamp w = (Ok (host_timestamp (w_host w)), w).
Proof. intros Hc. unfold timestamp, bind. by rewrite on_check. Qed.

Lemma with_store_id w : with_store (w_store w) w = w.
Proof. by destruct w. Qed.

End Worker.

Lemma wp_check {E} cap (Q : outcome E unit → Store → Prop) s :
  (Capabilities.contains (capabilities s) cap = true → Q (Ok tt) s) →
  (Capabilities.contains (capabilities s) cap = false → Q Panic s) →
  wp (check cap) Q s.
Proof. unfold wp, check, bind. simpl. destruct (Capabilities.contains _ _); auto. Qed.

Lemma wp_unwrap {S E A} (o : option A) (Q : outcome E A → S → Prop) s :
  (∀ a, o = Some a → Q (Ok a) s) → (o = None → Q Panic s) → wp (unwrap o) Q s.
Proof. unfold wp. destruct o; simpl; auto. Qed.

Abbreviation OCW H := (M (World H) IpfsError).
