(* ===== verification/IpfsPath.v ===== *)
(** Paths into IPFS ([utils/rust-ipfs/src/path.rs]): parsing, printing and extending.

    The types [Cid] and [PeerId] with their text forms come from the crates [cid] and [libp2p], which
    are not part of the repository: they are the class [RustIpfs], with those of the engine's values
    that [IpfsApi] uses; what the paths rely on is [RustIpfsLaws].  A string is the list of its UTF-8
    bytes, and the separator is a single byte. *)

From S2P Require Import Prelude Runtime Utf8.

Class RustIpfs := {
  PeerId : Type;
  Multiaddr : Type;
  Cid : Type;
  IpfsBlock : Type;
  PublicKey : Type;
  SubscriptionStream : Type;
  (** [to_string] and [to_bytes] of the engine's values *)
  peer_to_bytes : PeerId → Bytes;
  peer_to_string : PeerId → Bytes;
  addr_to_string : Multiaddr → Bytes;
  cid_to_string : Cid → Bytes;
  cid_to_bytes : Cid → Bytes;
  to_peer_id : PublicKey → PeerId;
  (** [parse] of a text *)
  parse_addr : Bytes → option Multiaddr;
  parse_addr_with_peer : Bytes → option (Multiaddr * PeerId);
  parse_peer : Bytes → option PeerId;
  parse_cid : Bytes → option Cid;
  cid_try_from : Bytes → option Cid }.

Abbreviation slash := 47.

(** The texts of CIDs and peer ids are multibase and base58 strings, which parse back. *)
Class RustIpfsLaws (R : RustIpfs) := {
  cid_parses c : parse_cid (cid_to_string c) = Some c;
  cid_nonempty c : cid_to_string c ≠ [];
  cid_no_slash c : slash ∉ cid_to_string c;
  cid_utf8 c : from_utf8 (cid_to_string c) = true;
  peer_parses p : parse_peer (peer_to_string p) = Some p;
  peer_no_slash p : slash ∉ peer_to_string p }.

Section Paths.
Context `{RustIpfs}.

Inductive PathRoot := Ipld (cid : Cid) | Ipns (peer : PeerId) | Dns (domain : Bytes).

Definition root_cid (r : PathRoot) : option Cid := match r with Ipld cid => Some cid | _ => None end.

Abbreviation SlashedPath := (list Bytes).

Record IpfsPath := mkPath { root : PathRoot; path : SlashedPath }.

Inductive PathError := InvalidPath (string : Bytes) | SegmentContainsSlash (string : Bytes) | InvalidCid (string : Bytes).

Definition path_new (r : PathRoot) : IpfsPath := mkPath r [].

(** [str::split('/')]: the first part and the others. *)
Fixpoint split_slash (string : Bytes) : Bytes * list Bytes :=
  match string with
  | [] => ([], [])
  | x :: t =>
      let '(first, others) := split_slash t in
      if x =? slash then ([], first :: others) else (x :: first, others)
  end.

(** [None] is [Err(())]; a trailing empty part is dropped. *)
Fixpoint push_split (self : SlashedPath) (split : list Bytes) : option SlashedPath :=
  match split with
  | [] => Some self
  | [] :: [] => Some self
  | [] :: _ => None
  | sub_path :: split => push_split (self ++ [sub_path]) split
  end.

Definition push_path (self : SlashedPath) (text : Bytes) : SlashedPath + PathError :=
  match text with
  | [] => inl self
  | _ =>
      let '(first, others) := split_slash text in
      match push_split self (first :: others) with
      | Some p => inl p
      | None => inr (SegmentContainsSlash text)
      end
  end.

Definition IPFS : Bytes := [105; 112; 102; 115].
Definition IPLD : Bytes := [105; 112; 108; 100].
Definition IPNS : Bytes := [105; 112; 110; 115].

Definition ipld_root (key : Bytes) : PathRoot + PathError :=
  match parse_cid key with Some cid => inl (Ipld cid) | None => inr (InvalidCid key) end.

Definition ipns_root (key : Bytes) : PathRoot :=
  match parse_peer key with Some peer_id => Ipns peer_id | None => Dns key end.

(** The root of a split text and the parts that are left. *)
Definition parse_root (string : Bytes) : (PathRoot + PathError) * list Bytes :=
  let '(empty, subpath) := split_slash string in
  if negb (bool_decide (empty = [])) then (ipld_root empty, subpath) else
  match subpath with
  | root_type :: key :: subpath =>
      (if bool_decide (root_type = IPFS) || bool_decide (root_type = IPLD) then ipld_root key
       else if bool_decide (root_type = IPNS) then inl (ipns_root key)
       else inr (InvalidPath string), subpath)
  | _ => (inr (InvalidPath string), [])
  end.

Definition from_str (string : Bytes) : IpfsPath + PathError :=
  match parse_root string with
  | (inr e, _) => inr e
  | (inl root, subpath) =>
      match push_split [] subpath with
      | Some p => inl (mkPath root p)
      | None => inr (InvalidPath string)
      end
  end.

Definition sub_path (self : IpfsPath) (segments : Bytes) : IpfsPath + PathError :=
  match push_path (path self) segments with
  | inl p => inl (mkPath (root self) p)
  | inr e => inr e
  end.

(** [None] is a failed assertion. *)
Definition into_shifted (self : IpfsPath) (shifted : nat) : option SlashedPath :=
  if (shifted <=? length (path self))%nat then Some (drop shifted (path self)) else None.

Definition into_truncated (self : IpfsPath) (len : nat) : option SlashedPath :=
  if (len <=? length (path self))%nat then Some (take len (path self)) else None.

(** *** [Display] *)

Fixpoint slashed_to_string (p : SlashedPath) : Bytes :=
  match p with
  | [] => []
  | [s] => s
  | s :: rest => s ++ slash :: slashed_to_string rest
  end.

Definition root_to_string (r : PathRoot) : Bytes :=
  match r with
  | Ipld cid => slash :: IPFS ++ slash :: cid_to_string cid
  | Ipns peer_id => slash :: IPNS ++ slash :: peer_to_string peer_id
  | Dns domain => slash :: IPNS ++ slash :: domain
  end.

Definition path_to_string (p : IpfsPath) : Bytes :=
  root_to_string (root p) ++ match path p with [] => [] | _ => slash :: slashed_to_string (path p) end.

(** [PartialEq<[&str]>] *)
Definition slashed_eq (p other : list Bytes) : bool := forallb (λ '(a, b), bool_decide (a = b)) (zip p other).

(** ** Well-formed paths *)

Definition segment_ok (s : Bytes) : Prop := s ≠ [] ∧ slash ∉ s.

Definition root_ok (r : PathRoot) : Prop :=
  match r with
  | Dns domain => slash ∉ domain ∧ parse_peer domain = None
  | _ => True
  end.

Definition path_ok (p : IpfsPath) : Prop := root_ok (root p) ∧ Forall segment_ok (path p).

Lemma split_slash_spec string : slash ∉ (split_slash string).1 ∧ Forall (λ s, slash ∉ s) (split_slash string).2.
Proof.
  induction string as [|x t IH]; simpl; [split; [set_solver|done]|]. destruct (split_slash t) as [first others]. simpl in IH.
  destruct (Z.eqb_spec x slash); simpl; split; try set_solver; naive_solver.
Qed.

Lemma split_slash_none s : slash ∉ s → split_slash s = (s, []).
Proof.
  induction s as [|x t IH]; [done|]. rewrite not_elem_of_cons. intros [Hx Ht]. simpl. rewrite IH by done.
  by rewrite (proj2 (Z.eqb_neq x slash)) by done.
Qed.

Lemma split_slash_app s t : slash ∉ s → split_slash (s ++ slash :: t) = (s, (split_slash t).1 :: (split_slash t).2).
Proof.
  induction s as [|x s IH]; [simpl; by destruct (split_slash t)|]. rewrite not_elem_of_cons. intros [Hx Hs].
  simpl app. cbn [split_slash]. rewrite IH by done. by rewrite (proj2 (Z.eqb_neq x slash)) by done.
Qed.

(** A printed list of segments splits into them. *)
Lemma split_printed s p :
  Forall segment_ok (s :: p) → split_slash (slashed_to_string (s :: p)) = (s, p).
Proof.
  revert s. induction p as [|s' p IH]; intros s [[_ Hs] Hp]%Forall_cons; [by apply split_slash_none|].
  change (slashed_to_string (s :: s' :: p)) with (s ++ slash :: slashed_to_string (s' :: p)).
  rewrite split_slash_app by done. by rewrite IH.
Qed.

Lemma push_split_ok self split : Forall segment_ok split → push_split self split = Some (self ++ split).
Proof.
  revert self. induction split as [|s split IH]; intros self Hf; [by rewrite app_nil_r|].
  apply Forall_cons in Hf as [[Hs _] Hf]. destruct s as [|x s]; [done|]. cbn [push_split]. rewrite IH by done. by rewrite <- app_assoc.
Qed.

Lemma push_split_segments self split p :
  Forall (λ s, slash ∉ s) split → push_split self split = Some p → Forall segment_ok self → Forall segment_ok p.
Proof.
  revert self. induction split as [|s split IH]; intros self Hf Hp Hself; simpl in Hp; simplify_eq; [done|].
  apply Forall_cons in Hf as [Hs Hf]. destruct s as [|x s].
  - destruct split; by simplify_eq.
  - eapply IH; [done|exact Hp|]. apply Forall_app. split; [done|]. by constructor.
Qed.

Context `{!RustIpfsLaws _}.

Lemma ipld_root_ok key r : ipld_root key = inl r → root_ok r.
Proof. unfold ipld_root. destruct (parse_cid key); by intros [= <-]. Qed.

Lemma parse_root_ok string r rest :
  parse_root string = (inl r, rest) → root_ok r ∧ Forall (λ s, slash ∉ s) rest.
Proof.
  unfold parse_root. pose proof (split_slash_spec string) as [Hf Ho]. destruct (split_slash string) as [first others]. simpl in *.
  destruct (negb _); [intros [= Hr <-]; split; [by eapply ipld_root_ok|done]|].
  destruct others as [|ty [|key rest']]; [done|done|]. apply Forall_cons in Ho as [_ [Hk Ho]%Forall_cons].
  destruct (bool_decide _ || _); [intros [= Hr <-]; split; [by eapply ipld_root_ok|done]|].
  destruct (bool_decide _); [|done]. intros [= <- <-]. split; [|done]. unfold ipns_root. by destruct (parse_peer key) eqn:Hp.
Qed.

(** The key of a printed root. *)
Definition root_key (r : PathRoot) : Bytes :=
  match r with Ipld c => cid_to_string c | Ipns p => peer_to_string p | Dns d => d end.

Lemma root_key_no_slash r : root_ok r → slash ∉ root_key r.
Proof. destruct r; simpl; [intros _; apply cid_no_slash|intros _; apply peer_no_slash|by intros [? _]]. Qed.

(** What follows the root in a printed path. *)
Definition printed_tail (p : SlashedPath) : Bytes := match p with [] => [] | _ => slash :: slashed_to_string p end.

Lemma split_key_tail key p : slash ∉ key → Forall segment_ok p → split_slash (key ++ printed_tail p) = (key, p).
Proof.
  intros Hk Hp. destruct p as [|s p]; cbn [printed_tail]; [by rewrite app_nil_r, split_slash_none|].
  rewrite split_slash_app by done. by rewrite split_printed.
Qed.

Lemma parse_root_printed r p :
  root_ok r → Forall segment_ok p → parse_root (root_to_string r ++ printed_tail p) = (inl r, p).
Proof.
  intros Hr Hp. pose proof (split_key_tail _ p (root_key_no_slash r Hr) Hp) as Hk. unfold parse_root.
  destruct r as [c|q|d]; cbn [root_key root_to_string] in *; simpl app in *; cbn [split_slash Z.eqb Pos.eqb]; rewrite Hk; simpl.
  - unfold ipld_root. by rewrite cid_parses.
  - unfold ipns_root. by rewrite peer_parses.
  - unfold ipns_root. by destruct Hr as [_ ->].
Qed.

Lemma printed_tail_app p q : q ≠ [] → printed_tail (p ++ q) = printed_tail p ++ slash :: slashed_to_string q.
Proof.
  intros Hq. destruct q as [|t q]; [done|]. destruct p as [|s p]; [done|]. unfold printed_tail. simpl. f_equal.
  revert s. induction p as [|s' p IH]; intros s; [done|]. cbn [app slashed_to_string] in *. rewrite <- app_assoc. simpl. by rewrite IH.
Qed.

Lemma path_to_string_tail p : path_to_string p = root_to_string (root p) ++ printed_tail (path p).
Proof. done. Qed.

(** The text of a CID, alone, is the path to it. *)
Lemma from_str_cid c : from_str (cid_to_string c) = inl (path_new (Ipld c)).
Proof.
  unfold from_str, parse_root. rewrite split_slash_none by apply cid_no_slash. rewrite bool_decide_eq_false_2 by apply cid_nonempty.
  simpl. unfold ipld_root. by rewrite cid_parses.
Qed.

(** Parsing and printing of paths agree: what parses is well-formed (its segments are not empty
    and have no slash, a domain is not a peer id), every well-formed path parses back from its text,
    and extending a path by the text of some segments appends them to the path and to its text. *)
Theorem path_roundtrip :
  (∀ string p, from_str string = inl p → path_ok p) ∧
  (∀ p, path_ok p → from_str (path_to_string p) = inl p) ∧
  (∀ p segments, path_ok p → segments ≠ [] → Forall segment_ok segments → ∃ q,
    sub_path p (slashed_to_string segments) = inl q ∧ path_ok q ∧ path q = path p ++ segments ∧
    path_to_string q = path_to_string p ++ slash :: slashed_to_string segments).
Proof.
  split; [|split].
  - intros string p. unfold from_str. destruct (parse_root string) as [[r|e] rest] eqn:Hr; [|done].
    apply parse_root_ok in Hr as [Hr Hrest]. destruct (push_split [] rest) as [l|] eqn:Hl; [|done].
    intros [= <-]. split; [done|]. by eapply push_split_segments.
  - intros p [Hr Hp]. unfold from_str. rewrite path_to_string_tail, parse_root_printed by done.
    rewrite push_split_ok by done. by destruct p.
  - intros p segments [Hr Hp] Hne Hs. exists (mkPath (root p) (path p ++ segments)). rewrite !path_to_string_tail. simpl.
    rewrite printed_tail_app by done. split; [|split; [split; [done|by apply Forall_app]|by rewrite app_assoc]].
    destruct segments as [|s l]; [done|]. unfold sub_path, push_path. pose proof (split_printed s l Hs) as Hsp.
    destruct (slashed_to_string (s :: l)) as [|x t] eqn:Ht.
    + simpl in Hsp. simplify_eq. by apply Forall_cons in Hs as [[? _] _].
    + rewrite Hsp. by rewrite push_split_ok.
Qed.

End Paths.
