(* ===== verification/IpfsApi.v ===== *)
(** The node's side of IPFS requests ([client/offchain/src/api/ipfs.rs]): the API that a worker
    calls, the background task that runs the requests on the IPFS engine, and the two channels
    between them.

    What the engine ([utils/rust-ipfs]) answers depends on the network, so its operations are the record
    [Engine], an argument of the code that calls them. *)

From S2P Require Import Prelude Runtime Offchain Utf8 IpfsPath.

Section Api.
Context `{RustIpfs}.

Record NativeStats := mkNativeStats {
  n_blocks_sent : Z;
  n_data_sent : Z;
  n_blocks_received : Z;
  n_data_received : Z;
  n_dup_blks_received : Z;
  n_dup_data_received : Z;
  n_peers : list PeerId;
  n_wantlist : list (Cid * Z) }.

Inductive IpfsNativeResponse :=
| NAddrs (l : list (PeerId * list Multiaddr))
| NAddBytes (cid : Cid)
| NAddListeningAddr (addr : Multiaddr)
| NBitswapStats (s : NativeStats)
| NCatBytes (bytes : Bytes)
| NConnect
| NDisconnect
| NFindPeer (addrs : list Multiaddr)
| NGetBlock (b : IpfsBlock)
| NGetClosestPeers (peers : list PeerId)
| NGetProviders (peers : list PeerId)
| NIdentity (key : PublicKey) (addrs : list Multiaddr)
| NInsertPin
| NLocalAddrs (addrs : list Multiaddr)
| NLocalRefs (cids : list Cid)
| NPeers (conns : list Multiaddr)
| NPublish
| NRemoveListeningAddr
| NRemoveBlock
| NRemovePin
| NSubscribe (s : SubscriptionStream)
| NSubscriptionList (l : list Bytes)
| NUnsubscribe (b : bool)
| NSuccess.

(** [impl From<IpfsNativeResponse> for IpfsResponse] *)
Definition response_from (resp : IpfsNativeResponse) : IpfsResponse.t :=
  match resp with
  | NAddrs l => IpfsResponse.Addrs (map (λ p, (peer_to_bytes p.1, map addr_to_string p.2)) l)
  | NAddBytes cid => IpfsResponse.AddBytes (cid_to_string cid)
  | NBitswapStats s =>
      IpfsResponse.BitswapStats
        (IpfsResponse.mkStats (n_blocks_sent s) (n_data_sent s) (n_blocks_received s) (n_data_received s)
           (n_dup_blks_received s) (n_dup_data_received s) (map peer_to_bytes (n_peers s))
           (map (λ p, (cid_to_bytes p.1, p.2)) (n_wantlist s)))
  | NCatBytes bytes => IpfsResponse.CatBytes bytes
  | NGetClosestPeers peers => IpfsResponse.GetClosestPeers (map peer_to_string peers)
  | NGetProviders peers => IpfsResponse.GetProviders (map peer_to_string peers)
  | NFindPeer addrs => IpfsResponse.FindPeer (map addr_to_string addrs)
  | NIdentity key addrs => IpfsResponse.Identity (peer_to_bytes (to_peer_id key)) (map addr_to_string addrs)
  | NLocalAddrs addrs => IpfsResponse.LocalAddrs (map addr_to_string addrs)
  | NLocalRefs cids => IpfsResponse.LocalRefs (map cid_to_bytes cids)
  | NPeers conns => IpfsResponse.Peers (map addr_to_string conns)
  | NRemoveBlock => IpfsResponse.RemoveBlock []
  | _ => IpfsResponse.Success
  end.

(** *** The engine's operations, each of which can fail

    Adding a file is a stream of statuses, reading one a stream of chunks; a stream is the list of
    its items. *)

Inductive UnixfsStatus :=
| ProgressStatus (written : Z) (total_size : option Z)
| CompletedStatus (path : IpfsPath) (written : Z) (total_size : option Z)
| FailedStatus (written : Z) (total_size : option Z) (error : option Bytes).

Record Engine := mkEngine {
  e_addrs : option (list (PeerId * list Multiaddr));
  e_add_unixfs : bool → Bytes → option (list UnixfsStatus);
  e_add_listening_address : Multiaddr → option Multiaddr;
  e_bitswap_stats : option NativeStats;
  e_cat_unixfs : IpfsPath → option (list (option Bytes));
  e_connect : Multiaddr → option unit;
  e_disconnect : PeerId → option unit;
  e_find_peer : PeerId → option (list Multiaddr);
  e_get_block : Cid → option IpfsBlock;
  e_get_closest_peers : PeerId → option (list PeerId);
  e_get_providers : Cid → option (list PeerId);
  e_identity : option (PublicKey * list Multiaddr);
  e_insert_pin : Cid → bool → option unit;
  e_addrs_local : option (list Multiaddr);
  e_refs_local : option (list Cid);
  e_peers : option (list Multiaddr);
  e_publish : Bytes → Bytes → option unit;
  e_remove_listening_address : Multiaddr → option unit;
  e_remove_pin : Cid → bool → option unit;
  e_subscribe : Bytes → option SubscriptionStream;
  e_subscribed : option (list Bytes);
  e_unsubscribe : Bytes → option bool }.

(** [cid_version_from_raw]: whether the version is [V1]. *)
Definition cid_version_from_raw (raw_version : Z) : bool := negb (raw_version <=? 0).

(** [str::replace] of a non-empty pattern by the empty string. *)
Fixpoint remove_all (pat : Bytes) (skip : nat) (text : Bytes) : Bytes :=
  match text, skip with
  | [], _ => []
  | _ :: t, S skip => remove_all pat skip t
  | x :: t, O => if bool_decide (take (length pat) text = pat) then remove_all pat (pred (length pat)) t else x :: remove_all pat O t
  end.

Definition IPFS_PREFIX : Bytes := [47; 105; 112; 102; 115; 47].

(** The last status that says how the upload ended decides; without one it is an error. *)
Definition ipfs_add (e : Engine) (data : Bytes) (version : Z) : option Cid :=
  match e_add_unixfs e (cid_version_from_raw version) data with
  | None => None
  | Some data_stream =>
      foldl (λ result status,
        match status with
        | ProgressStatus _ _ => result
        | FailedStatus _ _ _ => None
        | CompletedStatus path _ _ => parse_cid (remove_all IPFS_PREFIX 0 (path_to_string path))
        end) None data_stream
  end.

Definition ipfs_get (e : Engine) (path : IpfsPath) : option Bytes :=
  match e_cat_unixfs e path with
  | None => None
  | Some stream => mjoin <$> mapM id stream
  end.

Definition utf8 (b : Bytes) : option Bytes := if from_utf8 b then Some b else None.

Definition parse_path (b : Bytes) : option IpfsPath := match from_str b with inl p => Some p | inr _ => None end.

(** The future of a request: what it resolves to; [None] is an error of the engine or of the
    parsing of the arguments. *)
Definition engine_request (e : Engine) (request : IpfsRequest.t) : option IpfsNativeResponse :=
  match request with
  | IpfsRequest.Addrs => NAddrs <$> e_addrs e
  | IpfsRequest.AddBytes data version => NAddBytes <$> ipfs_add e data version
  | IpfsRequest.AddListeningAddr addr =>
      NAddListeningAddr <$> ((utf8 addr ≫= parse_addr) ≫= e_add_listening_address e)
  | IpfsRequest.BitswapStats => NBitswapStats <$> e_bitswap_stats e
  | IpfsRequest.CatBytes cid => NCatBytes <$> ((utf8 cid ≫= parse_path) ≫= ipfs_get e)
  | IpfsRequest.Connect addr =>
      (λ _, NConnect) <$> ((utf8 addr ≫= parse_addr_with_peer) ≫= λ a, e_connect e a.1)
  | IpfsRequest.Disconnect addr =>
      (λ _, NDisconnect) <$> ((utf8 addr ≫= parse_addr_with_peer) ≫= λ a, e_disconnect e a.2)
  | IpfsRequest.FindPeer peer => NFindPeer <$> ((utf8 peer ≫= parse_peer) ≫= e_find_peer e)
  | IpfsRequest.GetBlock cid => NGetBlock <$> (cid_try_from cid ≫= e_get_block e)
  | IpfsRequest.GetClosestPeers peer => NGetClosestPeers <$> ((utf8 peer ≫= parse_peer) ≫= e_get_closest_peers e)
  | IpfsRequest.GetProviders cid => NGetProviders <$> ((utf8 cid ≫= parse_cid) ≫= e_get_providers e)
  | IpfsRequest.Identity => (λ r, NIdentity r.1 r.2) <$> e_identity e
  | IpfsRequest.InsertPin cid recursive =>
      (λ _, NInsertPin) <$> ((utf8 cid ≫= parse_cid) ≫= λ c, e_insert_pin e c recursive)
  | IpfsRequest.LocalAddrs => NLocalAddrs <$> e_addrs_local e
  | IpfsRequest.LocalRefs => NLocalRefs <$> e_refs_local e
  | IpfsRequest.Peers => NPeers <$> e_peers e
  | IpfsRequest.Publish topic message => (λ _, NPublish) <$> (utf8 topic ≫= λ t, e_publish e t message)
  | IpfsRequest.RemoveListeningAddr addr =>
      (λ _, NRemoveListeningAddr) <$> ((utf8 addr ≫= parse_addr) ≫= e_remove_listening_address e)
  | IpfsRequest.RemoveBlock => Some NRemoveBlock
  | IpfsRequest.RemovePin cid recursive =>
      (λ _, NRemovePin) <$> ((utf8 cid ≫= parse_cid) ≫= λ c, e_remove_pin e c recursive)
  | IpfsRequest.Subscribe topic => NSubscribe <$> (utf8 topic ≫= e_subscribe e)
  | IpfsRequest.SubscriptionList => NSubscriptionList <$> e_subscribed e
  | IpfsRequest.Unsubscribe topic => NUnsubscribe <$> (utf8 topic ≫= e_unsubscribe e)
  end.

(** *** Uploads and reads *)

Lemma remove_all_none pat text : pat ≠ [] → slash ∉ text → (∀ x t, pat = x :: t → x = slash) → remove_all pat 0 text = text.
Proof.
  intros Hp Hs Hx. induction text as [|y t IH]; [done|]. apply not_elem_of_cons in Hs as [Hy Ht]. cbn [remove_all].
  rewrite bool_decide_eq_false_2, IH; [done|done|]. destruct pat as [|x pat]; [done|]. simpl. intros [= -> _]. by rewrite (Hx x pat) in Hy.
Qed.

(** The response of an upload that the engine completes carries the text of the CID. *)
Lemma add_bytes_response `{!RustIpfsLaws _} (e : Engine) data version statuses c written total_size :
  e_add_unixfs e (cid_version_from_raw version) data = Some (statuses ++ [CompletedStatus (path_new (Ipld c)) written total_size]) →
  engine_request e (IpfsRequest.AddBytes data version) = Some (NAddBytes c).
Proof.
  intros Hadd. assert (path_to_string (path_new (Ipld c)) = IPFS_PREFIX ++ cid_to_string c) as Hp by (unfold path_to_string; simpl; by rewrite app_nil_r).
  cbn [engine_request]. unfold ipfs_add. rewrite Hadd, foldl_app. cbn [foldl]. rewrite Hp. simpl.
  rewrite remove_all_none, cid_parses; [done|done|apply cid_no_slash|]. by intros x t [= <- _].
Qed.

(** A request for the text of a CID reads its path, and joins the chunks. *)
Lemma cat_bytes_response `{!RustIpfsLaws _} (e : Engine) c chunks :
  e_cat_unixfs e (path_new (Ipld c)) = Some (map Some chunks) →
  response_from <$> engine_request e (IpfsRequest.CatBytes (cid_to_string c)) = Some (IpfsResponse.CatBytes (mjoin chunks)).
Proof.
  intros Hcat. cbn [engine_request]. unfold utf8, parse_path. rewrite cid_utf8. simpl. rewrite from_str_cid. simpl.
  unfold ipfs_get. rewrite Hcat. simpl. by rewrite (mapM_fmap_Some id Some).
Qed.

(** *** The API *)

Inductive ApiRequest := Dispatched | ApiResponse (r : IpfsNativeResponse) | ApiFail (error : Bytes).

(** [ApiToWorker] messages are pairs; [WorkerToApi]: *)
Inductive WorkerToApi := MResponse (id : Z) (value : IpfsNativeResponse) | MFail (id : Z) (error : Bytes).

Definition msg_id (m : WorkerToApi) : Z := match m with MResponse id _ | MFail id _ => id end.

(** [mismatches] counts the "State mismatch between the API and worker" errors. *)
Record IpfsApi := mkApi {
  next_id : Z;
  requests : gmap Z ApiRequest;
  to_worker : list (Z * IpfsRequest.t);
  mismatches : nat }.

Definition with_requests (r : gmap Z ApiRequest) (a : IpfsApi) : IpfsApi :=
  mkApi (next_id a) r (to_worker a) (mismatches a).

Definition request_start (request : IpfsRequest.t) (a : IpfsApi) : option Z * IpfsApi :=
  let id := next_id a in
  match checked_add 16 (next_id a) 1 with
  | Some id' => (Some id, mkApi id' (<[id := Dispatched]> (requests a)) (to_worker a ++ [(id, request)]) (mismatches a))
  | None => (None, a)
  end.

(** The status of one awaited id, the requests (a response is taken out, and [Success] left in its
    place) and whether the request is still running. *)
Definition scan_one (id : Z) (old : IpfsRequestStatus.t) (reqs : gmap Z ApiRequest) :
  IpfsRequestStatus.t * gmap Z ApiRequest * bool :=
  match reqs !! id with
  | None => (IpfsRequestStatus.Invalid, reqs, false)
  | Some Dispatched => (old, reqs, true)
  | Some (ApiFail e) => (IpfsRequestStatus.IoError e, reqs, false)
  | Some (ApiResponse NSuccess) => (old, reqs, false)
  | Some (ApiResponse resp) =>
      (IpfsRequestStatus.Finished (response_from resp), <[id := ApiResponse NSuccess]> reqs, false)
  end.

(** One pass over the awaited ids. *)
Fixpoint scan (ids : list Z) (output : list IpfsRequestStatus.t) (reqs : gmap Z ApiRequest) :
  list IpfsRequestStatus.t * gmap Z ApiRequest * bool :=
  match ids, output with
  | id :: ids, old :: output =>
      let '(st, reqs, wait) := scan_one id old reqs in
      let '(sts, reqs, more) := scan ids output reqs in
      (st :: sts, reqs, wait || more)
  | _, _ => ([], reqs, false)
  end.

(** Requests in "fail" mode are purged before returning. *)
Fixpoint purge (ids : list Z) (output : list IpfsRequestStatus.t) (reqs : gmap Z ApiRequest) : gmap Z ApiRequest :=
  match ids, output with
  | id :: ids, st :: output =>
      let reqs := purge ids output reqs in
      match st with IpfsRequestStatus.IoError _ => delete id reqs | _ => reqs end
  | _, _ => reqs
  end.

(** A message of the worker updates the request it answers. *)
Definition receive (m : WorkerToApi) (a : IpfsApi) : IpfsApi :=
  let id := msg_id m in
  match requests a !! id with
  | Some Dispatched =>
      with_requests (<[id := match m with MResponse _ v => ApiResponse v | MFail _ e => ApiFail e end]>
                       (delete id (requests a))) a
  | _ => mkApi (next_id a) (delete id (requests a)) (to_worker a) (S (mismatches a))
  end.

(** What ends the waiting for the next message: a message, the deadline, or the end of the
    worker. *)
Inductive WakeUp := Message (m : WorkerToApi) | DeadlineW | WorkerGone.

(** "The IPFS worker has crashed!" *)
Definition crashed : Bytes :=
  [84;104;101;32;73;80;70;83;32;119;111;114;107;101;114;32;104;97;115;32;99;114;97;115;104;101;100;33].

Definition finish (ids : list Z) (output : list IpfsRequestStatus.t) (a : IpfsApi) : list IpfsRequestStatus.t * IpfsApi :=
  let '(output, reqs, _) := scan ids output (requests a) in
  (output, with_requests (purge ids output reqs) a).

(** The loop of [response_wait], over the wake-ups it meets; the wake-ups it has not consumed are
    returned.  When nothing else happens the deadline is reached. *)
Fixpoint wait_loop (ids : list Z) (output : list IpfsRequestStatus.t) (inbox : list WakeUp) (a : IpfsApi) :
  list IpfsRequestStatus.t * IpfsApi * list WakeUp :=
  let '(output, reqs, must_wait_more) := scan ids output (requests a) in
  if must_wait_more then
    match inbox with
    | [] => (finish ids output (with_requests reqs a), [])
    | DeadlineW :: inbox => (finish ids output (with_requests reqs a), inbox)
    | Message m :: inbox => wait_loop ids output inbox (receive m (with_requests reqs a))
    | WorkerGone :: inbox => (map (λ _, IpfsRequestStatus.IoError crashed) ids, with_requests reqs a, inbox)
    end
  else (output, with_requests (purge ids output reqs) a, inbox).

Definition response_wait (ids : list Z) (inbox : list WakeUp) (a : IpfsApi) :
  list IpfsRequestStatus.t * IpfsApi * list WakeUp :=
  wait_loop ids (replicate (length ids) IpfsRequestStatus.DeadlineReached) inbox a.

(** *** The worker *)

Abbreviation Future := (Z * IpfsRequest.t)%type.

(** [IpfsWorker::poll], first part: each future is taken out, polled, and put back if pending.
    [poll id request] is the answer of the future: [None] while pending. *)
Fixpoint poll_requests (poll : Future → option WorkerToApi) (n : nat) (reqs : list Future) (sent : list WorkerToApi) :
  option (list Future * list WorkerToApi) :=
  match n with
  | O => Some (reqs, sent)
  | S n =>
      match swap_remove n reqs with
      | Some (f, rest) =>
          match poll f with
          | None => poll_requests poll n (rest ++ [f]) sent
          | Some m => poll_requests poll n rest (sent ++ [m])
          end
      | None => None
      end
  end.

(** The answer of a future: that of the engine, under the id of the request. *)
Definition answer (poll : Future → option (IpfsNativeResponse + Bytes)) (f : Future) : option WorkerToApi :=
  match poll f with
  | None => None
  | Some (inl value) => Some (MResponse f.1 value)
  | Some (inr error) => Some (MFail f.1 error)
  end.

(** The two sides and their channels. *)
Record Sides := mkSides {
  api : IpfsApi;
  worker : list Future;
  to_api : list WorkerToApi }.

Definition worker_poll (poll : Future → option (IpfsNativeResponse + Bytes)) (s : Sides) : option Sides :=
  match poll_requests (answer poll) (length (worker s)) (worker s) (to_api s) with
  | None => None
  | Some (reqs, sent) =>
      match to_worker (api s) with
      | [] => Some (mkSides (api s) reqs sent)
      | f :: q =>
          Some (mkSides (mkApi (next_id (api s)) (requests (api s)) q (mismatches (api s))) (reqs ++ [f]) sent)
      end
  end.

(** The messages among the wake-ups that were not consumed. *)
Definition leftover (l : list WakeUp) : list WorkerToApi :=
  omap (λ w, match w with Message m => Some m | _ => None end) l.

(** The API waits while the first [n] messages of the channel arrive before its deadline. *)
Definition api_wait (ids : list Z) (n : nat) (s : Sides) : list IpfsRequestStatus.t * Sides :=
  let '(sts, a, rest) := response_wait ids (map Message (take n (to_api s)) ++ [DeadlineW]) (api s) in
  (sts, mkSides a (worker s) (leftover rest ++ drop n (to_api s))).

Inductive ipfs_step (s : Sides) : Sides → Prop :=
| step_start request : ipfs_step s (mkSides (request_start request (api s)).2 (worker s) (to_api s))
| step_poll poll s' : worker_poll poll s = Some s' → ipfs_step s s'
| step_wait ids n : ipfs_step s (api_wait ids n s).2.

(** [ipfs()]: the first id is [rand::random::<u16>() % 2000]. *)
Definition ipfs_new (first_id : Z) : Sides := mkSides (mkApi first_id ∅ [] 0) [] [].

(** ** Consistency of the two sides *)

(** The ids between the API and its answer: queued, running, or answered and queued. *)
Definition inflight (s : Sides) : list Z := (to_worker (api s)).*1 ++ (worker s).*1 ++ map msg_id (to_api s).

Record consistent (s : Sides) : Prop := {
  co_fresh : ∀ id r, requests (api s) !! id = Some r → id < next_id (api s);
  co_nodup : NoDup (inflight s);
  co_dispatched : ∀ id, requests (api s) !! id = Some Dispatched ↔ id ∈ inflight s;
  co_log : mismatches (api s) = 0%nat }.

(** A map of requests that differs from another one outside of the running requests. *)
Record same_running (reqs reqs' : gmap Z ApiRequest) : Prop := {
  sr_known : ∀ id r', reqs' !! id = Some r' → ∃ r, reqs !! id = Some r;
  sr_running : ∀ id, reqs' !! id = Some Dispatched ↔ reqs !! id = Some Dispatched }.

Lemma same_running_consistent s reqs :
  consistent s → same_running (requests (api s)) reqs →
  consistent (mkSides (with_requests reqs (api s)) (worker s) (to_api s)).
Proof.
  intros [Hf Hn Hd Hl] [Hk Hr]. constructor; simpl; auto.
  - intros id r' (r & Hid)%Hk. eauto.
  - intros id. rewrite Hr. apply Hd.
Qed.

(** A status that reports a failure does so for a request that failed. *)
Definition failure_ok (reqs : gmap Z ApiRequest) (id : Z) (st : IpfsRequestStatus.t) : Prop :=
  match st with IpfsRequestStatus.IoError _ => ∃ e, reqs !! id = Some (ApiFail e) | _ => True end.
Abbreviation failures_ok reqs := (Forall2 (failure_ok reqs)).

(** Requests change, but running requests run on and failed ones stay failed. *)
Record scanned (reqs reqs' : gmap Z ApiRequest) : Prop := {
  sc_running : same_running reqs reqs';
  sc_failed : ∀ id e, reqs !! id = Some (ApiFail e) → reqs' !! id = Some (ApiFail e) }.

Lemma scanned_refl reqs : scanned reqs reqs.
Proof. split; [split|]; eauto. Qed.

Lemma scanned_trans reqs1 reqs2 reqs3 : scanned reqs1 reqs2 → scanned reqs2 reqs3 → scanned reqs1 reqs3.
Proof.
  intros [[Hk1 Hr1] Hf1] [[Hk2 Hr2] Hf2]. split; [split|eauto].
  - intros i r (r2 & Hi)%Hk2. eauto.
  - intros i. by rewrite Hr2.
Qed.

Lemma failure_ok_scanned reqs reqs' id st : scanned reqs reqs' → failure_ok reqs id st → failure_ok reqs' id st.
Proof. intros Hs. destruct st; simpl; auto. intros [e' He']. exists e'. by apply (sc_failed _ _ Hs). Qed.

Lemma scan_one_spec id old reqs st reqs' wait :
  scan_one id old reqs = (st, reqs', wait) → failure_ok reqs id old → scanned reqs reqs' ∧ failure_ok reqs' id st.
Proof.
  unfold scan_one. intros Hs Hok.
  assert (Htake : ∀ r, reqs !! id = Some (ApiResponse r) → scanned reqs (<[id := ApiResponse NSuccess]> reqs)).
  { intros r Hid. split; [split|]; intros i; destruct (decide (i = id)) as [->|];
      rewrite ?lookup_insert_eq, ?lookup_insert_ne by done; eauto; try congruence; split; congruence. }
  destruct (reqs !! id) as [[|r|e]|] eqn:Hid; [|destruct r|..]; simplify_eq; eauto using scanned_refl.
  all: split; simpl; eauto using scanned_refl.
Qed.

(** [scan] only takes responses out. *)
Lemma scan_spec ids output reqs sts reqs' more :
  scan ids output reqs = (sts, reqs', more) → failures_ok reqs ids output →
  scanned reqs reqs' ∧ failures_ok reqs' ids sts.
Proof.
  revert output reqs sts reqs' more. induction ids as [|id ids IH]; intros output reqs sts reqs' more Hs Hok.
  - simpl in Hs. simplify_eq. split; [apply scanned_refl|constructor].
  - inversion Hok as [|? old ? output' Hold Hok']; subst. simpl in Hs.
    destruct (scan_one id old reqs) as [[st reqs1] wait] eqn:Hone.
    destruct (scan ids output' reqs1) as [[sts1 reqs2] more1] eqn:Hscan. simplify_eq.
    apply scan_one_spec in Hone as [Hs1 Hst]; [|done].
    apply IH in Hscan as [Hs2 Hok2].
    + split; [by eapply scanned_trans|]. constructor; [by eapply failure_ok_scanned|done].
    + eapply Forall2_impl; [exact Hok'|]. intros. by eapply failure_ok_scanned.
Qed.

Lemma purge_spec ids output reqs : failures_ok reqs ids output → same_running reqs (purge ids output reqs).
Proof.
  induction 1 as [|id st ids output Hst Hok IH]; simpl; [by split; eauto|].
  destruct IH as [Hk Hr]. destruct st as [|e| |]; [by split| |by split..].
  destruct Hst as [e' He']. split.
  - intros i r [_ Hi]%lookup_delete_Some. eauto.
  - intros i. rewrite lookup_delete_Some, Hr. split; [tauto|]. intros Hi. split; [|done]. congruence.
Qed.

(** The message at the head of the channel answers a running request. *)
Lemma receive_consistent m s q :
  consistent s → to_api s = m :: q → consistent (mkSides (receive m (api s)) (worker s) q).
Proof.
  intros [Hf Hn Hd Hl] Hq. unfold inflight in Hn, Hd. rewrite Hq in Hn, Hd. simpl in Hn, Hd.
  assert (Hnd : NoDup (msg_id m :: (to_worker (api s)).*1 ++ (worker s).*1 ++ map msg_id q)).
  { revert Hn. apply NoDup_Permutation_proper. by rewrite !app_assoc, Permutation_middle. }
  apply NoDup_cons in Hnd as [Hnew Hnd].
  assert (Hm : requests (api s) !! msg_id m = Some Dispatched) by (apply Hd; set_solver).
  unfold receive. rewrite Hm. constructor; simpl; [| |intros id|done].
  - intros id r Hid. apply lookup_insert_Some in Hid as [[<- _]|[Hne Hid]]; [eauto|].
    rewrite lookup_delete_ne in Hid by done. eauto.
  - done.
  - unfold inflight. simpl. destruct (decide (id = msg_id m)) as [->|Hne].
    + rewrite lookup_insert_eq. split; [destruct m; congruence|done].
    + rewrite lookup_insert_ne, lookup_delete_ne by done. rewrite Hd. set_solver.
Qed.

Lemma finish_consistent ids output a W Q :
  failures_ok (requests a) ids output → consistent (mkSides a W Q) →
  consistent (mkSides (finish ids output a).2 W Q).
Proof.
  intros Hok Hc. unfold finish. destruct (scan ids output (requests a)) as [[out reqs] more] eqn:Hscan.
  pose proof (scan_spec _ _ _ _ _ _ Hscan Hok) as [[Hsr _] Hok1].
  exact (same_running_consistent _ _ (same_running_consistent _ _ Hc Hsr) (purge_spec _ _ _ Hok1)).
Qed.

Lemma receive_failures_ok m ids output s q :
  consistent s → to_api s = m :: q → failures_ok (requests (api s)) ids output →
  failures_ok (requests (receive m (api s))) ids output.
Proof.
  intros Hc Hq Hok. assert (Hm : requests (api s) !! msg_id m = Some Dispatched).
  { apply (co_dispatched _ Hc). unfold inflight. rewrite Hq. set_solver. }
  eapply Forall2_impl; [exact Hok|]. intros i st Hst. destruct st; auto. destruct Hst as [e' He']. exists e'.
  unfold receive. rewrite Hm. simpl. rewrite lookup_insert_ne, lookup_delete_ne by congruence. done.
Qed.

Lemma wait_loop_consistent ids output inbox a sts a' rest W R :
  wait_loop ids output inbox a = (sts, a', rest) → failures_ok (requests a) ids output →
  consistent (mkSides a W (leftover inbox ++ R)) → consistent (mkSides a' W (leftover rest ++ R)).
Proof.
  revert output a. induction inbox as [|w inbox IH]; intros output a Hw Hok Hc; simpl in Hw;
    destruct (scan ids output (requests a)) as [[out1 reqs1] more] eqn:Hscan;
    pose proof (scan_spec _ _ _ _ _ _ Hscan Hok) as [[Hsr Hfail] Hok1];
    pose proof (same_running_consistent _ _ Hc Hsr) as Hc1; simpl in Hc1;
    (destruct more; [|simplify_eq; exact (same_running_consistent _ _ Hc1 (purge_spec _ _ _ Hok1))]).
  - simplify_eq. match goal with H : finish ids _ _ = _ |- _ => rename H into Hf end.
    pose proof (finish_consistent ids out1 (with_requests reqs1 a) W (leftover [] ++ R) Hok1 Hc1) as Hfin.
    by rewrite Hf in Hfin.
  - destruct w as [m| |].
    + apply (IH _ _ Hw); [exact (receive_failures_ok m _ _ _ _ Hc1 eq_refl Hok1)|].
      exact (receive_consistent m _ _ Hc1 eq_refl).
    + simplify_eq. match goal with H : finish ids _ _ = _ |- _ => rename H into Hf end.
      pose proof (finish_consistent ids out1 (with_requests reqs1 a) W (leftover rest ++ R) Hok1 Hc1) as Hfin.
      by rewrite Hf in Hfin.
    + by simplify_eq.
Qed.

(** Every future is polled exactly once, from the last to the first; the answered ones leave. *)
Lemma poll_requests_spec poll l1 l2 sent :
  ∃ kept, poll_requests poll (length l1) (l1 ++ l2) sent = Some (kept, sent ++ omap poll (reverse l1)) ∧
    kept ≡ₚ filter (λ f, poll f = None) l1 ++ l2.
Proof.
  revert l2 sent. induction l1 as [|f l1 IH] using rev_ind; intros l2 sent; [simpl; rewrite app_nil_r; eauto|].
  rewrite length_app, Nat.add_comm, <- app_assoc, reverse_snoc, filter_app. simpl.
  rewrite swap_remove_app. pose proof (swap_remove_Permutation l1 l2) as Hp. apply Permutation_app_inv_l in Hp.
  destruct (poll f) as [m|] eqn:Hf.
  - edestruct IH as (kept & -> & Hk). exists kept. split; [by rewrite <- app_assoc|]. rewrite Hk, Hp.
    rewrite filter_cons_False by congruence. by rewrite app_nil_r.
  - rewrite <- app_assoc. edestruct IH as (kept & -> & Hk). exists kept. split; [done|].
    rewrite Hk, Hp. rewrite filter_cons_True by done. rewrite <- app_assoc. f_equiv. simpl.
    by rewrite <- Permutation_cons_append.
Qed.

(** An answered future is a message under its id. *)
Lemma answer_id poll f m : answer poll f = Some m → msg_id m = f.1.
Proof. unfold answer. intros. repeat case_match; by simplify_eq. Qed.

Lemma answers_Permutation poll (l : list Future) :
  (filter (λ f, answer poll f = None) l).*1 ++ map msg_id (omap (answer poll) (reverse l)) ≡ₚ l.*1.
Proof.
  induction l as [|f l IH]; [done|]. rewrite reverse_cons, omap_app, map_app. simpl.
  destruct (answer poll f) as [m|] eqn:Hf.
  - rewrite filter_cons_False by congruence. simpl. rewrite (answer_id _ _ _ Hf), app_assoc, IH.
    by rewrite <- Permutation_cons_append.
  - rewrite filter_cons_True by done. simpl. by rewrite app_nil_r, IH.
Qed.

Lemma worker_poll_consistent poll s :
  consistent s → ∃ s', worker_poll poll s = Some s' ∧ consistent s'.
Proof.
  intros [Hf Hn Hd Hl]. unfold worker_poll.
  destruct (poll_requests_spec (answer poll) (worker s) [] (to_api s)) as (kept & Hp & Hk).
  rewrite app_nil_r in Hp, Hk. rewrite Hp.
  assert (Hperm : ∀ q, inflight (mkSides (mkApi (next_id (api s)) (requests (api s)) q (mismatches (api s))) kept
      (to_api s ++ omap (answer poll) (reverse (worker s)))) ≡ₚ q.*1 ++ (worker s).*1 ++ map msg_id (to_api s)).
  { intros q. unfold inflight. simpl. f_equiv. rewrite Hk, map_app, (Permutation_app_comm (map msg_id (to_api s))), app_assoc.
    by rewrite answers_Permutation. }
  destruct (to_worker (api s)) as [|f q] eqn:Hq; eexists; (split; [done|]).
  - specialize (Hperm []). unfold inflight in Hn, Hd. rewrite Hq in Hn, Hd.
    constructor; simpl; [done| |intros id|done]; unfold inflight in *; simpl in *; rewrite ?Hq; simpl; by rewrite Hperm.
  - assert (Hperm' : inflight (mkSides (mkApi (next_id (api s)) (requests (api s)) q (mismatches (api s))) (kept ++ [f])
      (to_api s ++ omap (answer poll) (reverse (worker s)))) ≡ₚ inflight s).
    { specialize (Hperm (f :: q)). unfold inflight in *. rewrite Hq. simpl in *. rewrite <- Hperm.
      rewrite fmap_app. simpl. rewrite <- app_assoc. simpl. by rewrite !app_assoc, Permutation_middle. }
    constructor; simpl; [done| |intros id|done]; by rewrite Hperm'.
Qed.

Lemma request_start_consistent request s :
  consistent s → consistent (mkSides (request_start request (api s)).2 (worker s) (to_api s)).
Proof.
  intros [Hf Hn Hd Hl]. unfold request_start. destruct (checked_add 16 (next_id (api s)) 1) as [id'|] eqn:Hid; props; simpl.
  2: by constructor.
  assert (Hnew : requests (api s) !! next_id (api s) = None).
  { destruct (requests (api s) !! next_id (api s)) eqn:Hx; [|done]. apply Hf in Hx. lia. }
  assert (Hperm : inflight (mkSides (mkApi id' (<[next_id (api s) := Dispatched]> (requests (api s)))
      (to_worker (api s) ++ [(next_id (api s), request)]) (mismatches (api s))) (worker s) (to_api s)) ≡ₚ
      next_id (api s) :: inflight s).
  { unfold inflight. simpl. rewrite fmap_app. simpl. rewrite <- app_assoc. by rewrite Permutation_middle. }
  constructor; simpl; [| |intros id|done].
  - intros id r [[<- _]|[_ Hr]]%lookup_insert_Some; [lia|]. apply Hf in Hr. lia.
  - rewrite Hperm. constructor; [|done]. rewrite <- Hd. congruence.
  - rewrite Hperm, elem_of_cons, <- Hd. destruct (decide (id = next_id (api s))) as [->|Hne].
    + rewrite lookup_insert_eq. tauto.
    + rewrite lookup_insert_ne by done. tauto.
Qed.

Lemma leftover_messages l l' : leftover (map Message l ++ l') = l ++ leftover l'.
Proof. induction l as [|m l IH]; [done|]. change (m :: leftover (map Message l ++ l') = m :: l ++ leftover l'). by rewrite IH. Qed.

Lemma api_wait_consistent ids n s : consistent s → consistent (api_wait ids n s).2.
Proof.
  intros Hc. unfold api_wait, response_wait.
  destruct (wait_loop ids _ _ (api s)) as [[sts a] rest] eqn:Hw. simpl.
  eapply wait_loop_consistent; [exact Hw| |].
  - apply Forall2_same_length_lookup. split; [by rewrite length_replicate|].
    intros i id st _ [-> _]%lookup_replicate. done.
  - replace (leftover (map Message (take n (to_api s)) ++ [DeadlineW]) ++ drop n (to_api s)) with (to_api s).
    + by destruct s.
    + rewrite leftover_messages. simpl. by rewrite app_nil_r, take_drop.
Qed.

Lemma ipfs_new_consistent first_id : consistent (ipfs_new first_id).
Proof. constructor; simpl; try done; [constructor|]. intros id. rewrite lookup_empty. split; [done|]. by intros ?%elem_of_nil. Qed.

Lemma ipfs_step_consistent s s' : ipfs_step s s' → consistent s → consistent s'.
Proof.
  intros [request|poll s1 Hp|ids n] Hc.
  - by apply request_start_consistent.
  - destruct (worker_poll_consistent poll s Hc) as (s2 & Hp2 & Hc2). congruence.
  - by apply api_wait_consistent.
Qed.

(** C12. The API and the background worker never disagree: in every state that requests, polls of
    the worker and waits of the API can reach, each request the API holds as dispatched is in
    exactly one place (queued, running, or answered), the log has no "state mismatch", and the
    worker's poll, which takes futures out of its list by index, does not go out of range. *)
Theorem ipfs_sides_consistent first_id s :
  rtc ipfs_step (ipfs_new first_id) s →
  NoDup (inflight s) ∧ (∀ id, requests (api s) !! id = Some Dispatched ↔ id ∈ inflight s) ∧
  mismatches (api s) = 0%nat ∧ ∀ poll, is_Some (worker_poll poll s).
Proof.
  intros Hr. assert (Hc : consistent s).
  { eapply (rtc_ind_r (λ x, consistent x)); [apply ipfs_new_consistent| |exact Hr].
    intros y z _ Hstep Hy. by eapply ipfs_step_consistent. }
  split_and!; try apply Hc. intros poll. destruct (worker_poll_consistent poll s Hc) as (s' & -> & _). by eexists.
Qed.

(** ** The answer to one request *)

(** One wait, when the first message is the answer. *)
Lemma response_wait_answered id v rest a :
  requests a !! id = Some Dispatched → v ≠ NSuccess →
  ∃ a', response_wait [id] (Message (MResponse id v) :: rest) a =
          ([IpfsRequestStatus.Finished (response_from v)], a', rest) ∧
        next_id a' = next_id a ∧ to_worker a' = to_worker a.
Proof.
  intros Hid Hv. unfold response_wait. simpl. unfold scan_one at 1. rewrite Hid. simpl.
  unfold receive. simpl. rewrite Hid. simpl.
  destruct rest as [|k rest]; simpl; unfold scan_one; rewrite lookup_insert_eq; destruct v; try done; simpl; by eexists.
Qed.

Lemma scan_length ids output reqs : length output = length ids → length (scan ids output reqs).1.1 = length ids.
Proof.
  revert output reqs. induction ids as [|id ids IH]; intros [|old output] reqs Hl; simpl in *; try done.
  destruct (scan_one id old reqs) as [[st reqs1] w]. specialize (IH output reqs1).
  destruct (scan ids output reqs1) as [[sts reqs2] more]. simpl in *. rewrite IH; lia.
Qed.

Lemma wait_loop_length ids output inbox a :
  length output = length ids → length (wait_loop ids output inbox a).1.1 = length ids.
Proof.
  revert output a. induction inbox as [|w inbox IH]; intros output a Hl; simpl;
    pose proof (scan_length ids output (requests a) Hl) as H1;
    destruct (scan ids output (requests a)) as [[out reqs] more]; simpl in H1; destruct more; try done; simpl.
  all: assert (Hfin : length (finish ids out (with_requests reqs a)).1 = length ids)
    by (unfold finish; simpl; pose proof (scan_length ids out reqs H1) as H2; by destruct (scan ids out reqs) as [[? ?] ?]).
  - by destruct (finish _ _ _).
  - destruct w; [by apply IH|by destruct (finish _ _ _)|apply length_map].
Qed.

(** ** The node as the host of a worker *)

Record NodeHost := mkNode {
  nh_api : IpfsApi;
  nh_inbox : list WakeUp;
  nh_now : Z;
  nh_creates : OcwCall → AccountId → Z → bool;
  nh_accepts : option (AccountId * Z) → OcwCall → bool }.

Definition with_api (a : IpfsApi) (inbox : list WakeUp) (h : NodeHost) : NodeHost :=
  mkNode a inbox (nh_now h) (nh_creates h) (nh_accepts h).

#[export] Instance node_host : Host NodeHost := {
  host_request_start request h :=
    let r := request_start request (nh_api h) in (r.1, with_api r.2 (nh_inbox h) h);
  host_response_wait ids _ h :=
    let r := response_wait ids (nh_inbox h) (nh_api h) in (r.1.1, with_api r.1.2 r.2 h);
  host_timestamp h := nh_now h;
  host_create_transaction call account nonce_ h := nh_creates h call account nonce_;
  host_submit_transaction signature call h := (nh_accepts h signature call, h) }.

#[export] Instance node_host_laws : HostLaws NodeHost.
Proof.
  intros ids deadline h. simpl. unfold response_wait. apply wait_loop_length. by rewrite length_replicate.
Qed.

End Api.
