(* ===== verification/UnixfsPb.v ===== *)
(** The messages of file blocks ([utils/rust-ipfs/unixfs/src/pb.rs], [pb/merkledag.rs] and
    [pb/unixfs.rs]): a dag-pb node whose data is a UnixFS message, written and read field by field.

    The primitives of the wire format (tags, varints, length-delimited fields) are those of the
    crate [quick_protobuf], which is not part of the repository: they are the class [Wire].  A reader
    is the list of the bytes it has left, an error of the reader is [None]. *)

From S2P Require Import Prelude Runtime Utf8.

Abbreviation is_u64 := (is_u 64).

Class Wire := {
  (** [Writer]: a tag or a number; a nested message or a byte string is preceded by its length *)
  put_varint : Z → Bytes;
  put_fixed32 : Z → Bytes;
  sizeof_varint : Z → Z;
  (** [BytesReader] *)
  next_tag : Bytes → option (Z * Bytes);
  read_uint64 : Bytes → option (Z * Bytes);
  read_uint32 : Bytes → option (Z * Bytes);
  read_int64 : Bytes → option (Z * Bytes);
  read_int32 : Bytes → option (Z * Bytes);
  read_fixed32 : Bytes → option (Z * Bytes);
  read_bytes : Bytes → option (Bytes * Bytes);
  read_unknown : Z → Bytes → option Bytes }.

Definition shrinks {A} (read : Bytes → option (A * Bytes)) : Prop :=
  ∀ b x r, read b = Some (x, r) → (length r <= length b)%nat.

(** What is written reads back, a tag takes a byte, and a reader only moves forward. *)
Class WireLaws (W : Wire) := {
  put_varint_small n : 0 <= n < 128 → length (put_varint n) = 1%nat;
  sizeof_varint_ok n : sizeof_varint n = Z.of_nat (length (put_varint n));
  sizeof_varint_max n : is_u64 n → sizeof_varint n <= 10;
  next_tag_put t r : is_u32 t → next_tag (put_varint t ++ r) = Some (t, r);
  read_uint64_put n r : is_u64 n → read_uint64 (put_varint n ++ r) = Some (n, r);
  read_uint32_put n r : is_u32 n → read_uint32 (put_varint n ++ r) = Some (n, r);
  read_int64_put n r : - 2 ^ 63 <= n < 2 ^ 63 → read_int64 (put_varint (n mod 2 ^ 64) ++ r) = Some (n, r);
  read_int32_put n r : 0 <= n < 2 ^ 31 → read_int32 (put_varint n ++ r) = Some (n, r);
  read_fixed32_put n r : is_u32 n → read_fixed32 (put_fixed32 n ++ r) = Some (n, r);
  put_fixed32_length n : length (put_fixed32 n) = 4%nat;
  read_bytes_put b r : Z.of_nat (length b) <= u32_max →
    read_bytes (put_varint (Z.of_nat (length b)) ++ b ++ r) = Some (b, r);
  next_tag_consumes b t r : next_tag b = Some (t, r) → (length r < length b)%nat;
  reads_forward : shrinks read_uint64 ∧ shrinks read_uint32 ∧ shrinks read_int64 ∧ shrinks read_int32 ∧ shrinks read_fixed32 ∧ shrinks read_bytes;
  unknown_forward t b r : read_unknown t b = Some r → (length r <= length b)%nat }.

(** ** The messages *)

Module UnixFsType.
Inductive t := Raw | Directory | File | Metadata | Symlink | HAMTShard.

Definition from_i32 (i : Z) : t :=
  if i =? 0 then Raw else if i =? 1 then Directory else if i =? 2 then File else if i =? 3 then Metadata
  else if i =? 4 then Symlink else if i =? 5 then HAMTShard else Raw.

Definition to_i32 (ty : t) : Z :=
  match ty with Raw => 0 | Directory => 1 | File => 2 | Metadata => 3 | Symlink => 4 | HAMTShard => 5 end.

#[global] Instance eq_dec : EqDecision t.
Proof. solve_decision. Defined.

Lemma from_to ty : from_i32 (to_i32 ty) = ty.
Proof. by destruct ty. Qed.
End UnixFsType.

Record PBLink := mkPBLink { Hash : option Bytes; Name : option Bytes; Tsize : option Z }.

Record PBNode := mkPBNode { Links : list PBLink; NodeData : option Bytes }.

Record UnixTime := mkUnixTime { Seconds : Z; FractionalNanoseconds : option Z }.

Record UnixFs := mkUnixFs {
  u_type : UnixFsType.t;
  u_data : option Bytes;
  u_filesize : option Z;
  u_blocksizes : list Z;
  u_hashType : option Z;
  u_fanout : option Z;
  u_mode : option Z;
  u_mtime : option UnixTime }.

(** Combined dag-pb with UnixFs payload. *)
Record FlatUnixFs := mkFlat { f_links : list PBLink; f_data : UnixFs }.

Definition pblink_default : PBLink := mkPBLink None None None.
Definition pbnode_default : PBNode := mkPBNode [] None.
Definition unixtime_default : UnixTime := mkUnixTime 0 None.
Definition unixfs_default : UnixFs := mkUnixFs UnixFsType.Raw None None [] None None None None.

(** [ParsingFailed]: the outer message, its data, or the message in its data. *)
Inductive ParsingFailed := InvalidDagPb | NoData (node : PBNode) | InvalidUnixFs (node : PBNode).

Section Messages.
Context `{Wire}.

(** *** Writing *)

Definition with_tag (tag : Z) (field : Bytes) : Bytes := put_varint tag ++ field.
Definition write_bytes (b : Bytes) : Bytes := put_varint (Z.of_nat (length b)) ++ b.
Definition write_opt {A} (o : option A) (field : A → Bytes) : Bytes := from_option field [] o.

(** A nested message is preceded by the size that its [get_size] computes. *)
Definition write_nested (size : Z) (message : Bytes) : Bytes := put_varint size ++ message.
Definition sizeof_len (len : Z) : Z := sizeof_varint len + len.
Definition len_size (b : Bytes) : Z := 1 + sizeof_len (Z.of_nat (length b)).
Definition varint_size (n : Z) : Z := 1 + sizeof_varint n.
Definition opt_size {A} (o : option A) (size : A → Z) : Z := from_option size 0 o.
Definition sum_sizes {A} (l : list A) (size : A → Z) : Z := foldr (λ x t, size x + t) 0 l.

Definition pblink_size (l : PBLink) : Z :=
  0 + opt_size (Hash l) len_size + opt_size (Name l) len_size + opt_size (Tsize l) varint_size.

Definition write_pblink (l : PBLink) : Bytes :=
  write_opt (Hash l) (λ s, with_tag 10 (write_bytes s)) ++
  write_opt (Name l) (λ s, with_tag 18 (write_bytes s)) ++
  write_opt (Tsize l) (λ s, with_tag 24 (put_varint s)).

Definition pbnode_size (n : PBNode) : Z :=
  0 + sum_sizes (Links n) (λ s, 1 + sizeof_len (pblink_size s)) + opt_size (NodeData n) len_size.

Definition write_pbnode (n : PBNode) : Bytes :=
  mjoin (map (λ s, with_tag 18 (write_nested (pblink_size s) (write_pblink s))) (Links n)) ++
  write_opt (NodeData n) (λ s, with_tag 10 (write_bytes s)).

Definition unixtime_size (t : UnixTime) : Z :=
  0 + 1 + sizeof_varint (Seconds t mod 2 ^ 64) + opt_size (FractionalNanoseconds t) (λ _, 1 + 4).

Definition write_unixtime (t : UnixTime) : Bytes :=
  with_tag 8 (put_varint (Seconds t mod 2 ^ 64)) ++ write_opt (FractionalNanoseconds t) (λ s, with_tag 21 (put_fixed32 s)).

Definition unixfs_size (d : UnixFs) : Z :=
  0 + 1 + sizeof_varint (UnixFsType.to_i32 (u_type d)) + opt_size (u_data d) len_size + opt_size (u_filesize d) varint_size
    + sum_sizes (u_blocksizes d) varint_size + opt_size (u_hashType d) varint_size + opt_size (u_fanout d) varint_size
    + opt_size (u_mode d) varint_size + opt_size (u_mtime d) (λ m, 1 + sizeof_len (unixtime_size m)).

Definition write_unixfs (d : UnixFs) : Bytes :=
  with_tag 8 (put_varint (UnixFsType.to_i32 (u_type d))) ++
  write_opt (u_data d) (λ s, with_tag 18 (write_bytes s)) ++
  write_opt (u_filesize d) (λ s, with_tag 24 (put_varint s)) ++
  mjoin (map (λ s, with_tag 32 (put_varint s)) (u_blocksizes d)) ++
  write_opt (u_hashType d) (λ s, with_tag 40 (put_varint s)) ++
  write_opt (u_fanout d) (λ s, with_tag 48 (put_varint s)) ++
  write_opt (u_mode d) (λ s, with_tag 56 (put_varint s)) ++
  write_opt (u_mtime d) (λ s, with_tag 66 (write_nested (unixtime_size s) (write_unixtime s))).

Definition flat_size (f : FlatUnixFs) : Z :=
  sum_sizes (f_links f) (λ s, 1 + sizeof_len (pblink_size s)) + (1 + sizeof_len (unixfs_size (f_data f))).

Definition write_flat (f : FlatUnixFs) : Bytes :=
  mjoin (map (λ l, with_tag 18 (write_nested (pblink_size l) (write_pblink l))) (f_links f)) ++
  with_tag 10 (write_nested (unixfs_size (f_data f)) (write_unixfs (f_data f))).

(** *** Reading *)

(** The loop of [from_reader]: a tag, then its field, until the end.  Every turn consumes a byte, so
    the length of the input bounds the turns. *)
Fixpoint read_fields {Msg} (field : Z → Msg → Bytes → option (Msg * Bytes)) (fuel : nat) (msg : Msg) (r : Bytes) : option Msg :=
  match r with
  | [] => Some msg
  | _ =>
      match fuel with
      | O => None
      | S fuel =>
          match next_tag r with
          | None => None
          | Some (tag, r) =>
              match field tag msg r with
              | None => None
              | Some (msg, r) => read_fields field fuel msg r
              end
          end
      end
  end.

Definition from_reader {Msg} (field : Z → Msg → Bytes → option (Msg * Bytes)) (default : Msg) (bytes : Bytes) : option Msg :=
  read_fields field (length bytes) default bytes.

(** The field of a message: what is read and how it changes the message. *)
Definition field_of {A Msg} (read : Bytes → option (A * Bytes)) (set : A → Msg) (r : Bytes) : option (Msg * Bytes) :=
  match read r with Some (x, r) => Some (set x, r) | None => None end.

Definition unknown {Msg} (tag : Z) (msg : Msg) (r : Bytes) : option (Msg * Bytes) :=
  match read_unknown tag r with Some r => Some (msg, r) | None => None end.

Definition read_string (r : Bytes) : option (Bytes * Bytes) :=
  match read_bytes r with Some (b, r) => if from_utf8 b then Some (b, r) else None | None => None end.

Definition read_message {Msg} (parse : Bytes → option Msg) (r : Bytes) : option (Msg * Bytes) :=
  match read_bytes r with
  | Some (b, r) => match parse b with Some m => Some (m, r) | None => None end
  | None => None
  end.

Definition pblink_field (tag : Z) (msg : PBLink) (r : Bytes) : option (PBLink * Bytes) :=
  if tag =? 10 then field_of read_bytes (λ x, mkPBLink (Some x) (Name msg) (Tsize msg)) r
  else if tag =? 18 then field_of read_string (λ x, mkPBLink (Hash msg) (Some x) (Tsize msg)) r
  else if tag =? 24 then field_of read_uint64 (λ x, mkPBLink (Hash msg) (Name msg) (Some x)) r
  else unknown tag msg r.

Definition read_pblink : Bytes → option PBLink := from_reader pblink_field pblink_default.

Definition pbnode_field (tag : Z) (msg : PBNode) (r : Bytes) : option (PBNode * Bytes) :=
  if tag =? 18 then field_of (read_message read_pblink) (λ x, mkPBNode (Links msg ++ [x]) (NodeData msg)) r
  else if tag =? 10 then field_of read_bytes (λ x, mkPBNode (Links msg) (Some x)) r
  else unknown tag msg r.

Definition read_pbnode : Bytes → option PBNode := from_reader pbnode_field pbnode_default.

Definition unixtime_field (tag : Z) (msg : UnixTime) (r : Bytes) : option (UnixTime * Bytes) :=
  if tag =? 8 then field_of read_int64 (λ x, mkUnixTime x (FractionalNanoseconds msg)) r
  else if tag =? 21 then field_of read_fixed32 (λ x, mkUnixTime (Seconds msg) (Some x)) r
  else unknown tag msg r.

Definition read_unixtime : Bytes → option UnixTime := from_reader unixtime_field unixtime_default.

Definition unixfs_field (tag : Z) (msg : UnixFs) (r : Bytes) : option (UnixFs * Bytes) :=
  let '(mkUnixFs ty data size blocks hash fan mode mtime) := msg in
  if tag =? 8 then field_of read_int32 (λ x, mkUnixFs (UnixFsType.from_i32 x) data size blocks hash fan mode mtime) r
  else if tag =? 18 then field_of read_bytes (λ x, mkUnixFs ty (Some x) size blocks hash fan mode mtime) r
  else if tag =? 24 then field_of read_uint64 (λ x, mkUnixFs ty data (Some x) blocks hash fan mode mtime) r
  else if tag =? 32 then field_of read_uint64 (λ x, mkUnixFs ty data size (blocks ++ [x]) hash fan mode mtime) r
  else if tag =? 40 then field_of read_uint64 (λ x, mkUnixFs ty data size blocks (Some x) fan mode mtime) r
  else if tag =? 48 then field_of read_uint64 (λ x, mkUnixFs ty data size blocks hash (Some x) mode mtime) r
  else if tag =? 56 then field_of read_uint32 (λ x, mkUnixFs ty data size blocks hash fan (Some x) mtime) r
  else if tag =? 66 then field_of (read_message read_unixtime) (λ x, mkUnixFs ty data size blocks hash fan mode (Some x)) r
  else unknown tag msg r.

Definition read_unixfs : Bytes → option UnixFs := from_reader unixfs_field unixfs_default.

(** [FlatUnixFs::try_from] *)
Definition flat_try_from (block : Bytes) : FlatUnixFs + ParsingFailed :=
  match read_pbnode block with
  | None => inr InvalidDagPb
  | Some node =>
      match NodeData node with
      | None | Some [] => inr (NoData node)
      | Some bytes =>
          match read_unixfs bytes with
          | Some data => inl (mkFlat (Links node) data)
          | None => inr (InvalidUnixFs node)
          end
      end
  end.

(** ** Termination *)

(** The loop without a bound. *)
Inductive field_loop {Msg} (field : Z → Msg → Bytes → option (Msg * Bytes)) : Msg → Bytes → option Msg → Prop :=
| loop_eof msg : field_loop field msg [] (Some msg)
| loop_bad_tag msg r : r ≠ [] → next_tag r = None → field_loop field msg r None
| loop_bad_field msg r tag r1 : r ≠ [] → next_tag r = Some (tag, r1) → field tag msg r1 = None → field_loop field msg r None
| loop_next msg r tag r1 msg' r2 res :
    r ≠ [] → next_tag r = Some (tag, r1) → field tag msg r1 = Some (msg', r2) → field_loop field msg' r2 res → field_loop field msg r res.

Context `{!WireLaws _}.

Lemma read_fields_loop {Msg} (field : Z → Msg → Bytes → option (Msg * Bytes)) fuel msg r :
  (∀ tag msg, shrinks (field tag msg)) → (length r <= fuel)%nat → field_loop field msg r (read_fields field fuel msg r).
Proof.
  intros Hf. revert msg r. induction fuel as [|fuel IH]; intros msg r Hr.
  - destruct r; [constructor|simpl in Hr; lia].
  - destruct r as [|x r]; [constructor|]. cbn [read_fields]. destruct (next_tag (x :: r)) as [[tag r1]|] eqn:Ht; [|by constructor].
    destruct (field tag msg r1) as [[msg' r2]|] eqn:Hfd; [|by econstructor]. eapply loop_next; [done|exact Ht|exact Hfd|]. apply IH.
    apply next_tag_consumes in Ht. apply Hf in Hfd. lia.
Qed.

Lemma field_of_shrinks {A Msg} (read : Bytes → option (A * Bytes)) (set : A → Msg) : shrinks read → shrinks (field_of read set).
Proof. intros Hr b x r. unfold field_of. destruct (read b) as [[y r']|] eqn:Hb; [|done]. intros [= _ <-]. by eapply Hr. Qed.

Lemma unknown_shrinks {Msg} tag (msg : Msg) : shrinks (unknown tag msg).
Proof. intros b x r. unfold unknown. destruct (read_unknown tag b) eqn:Hb; [|done]. intros [= _ <-]. by eapply unknown_forward. Qed.

Lemma read_string_shrinks : shrinks read_string.
Proof.
  intros b x r. unfold read_string. destruct (read_bytes b) as [[y r']|] eqn:Hb; [|done]. case_match; [|done]. intros [= _ <-].
  destruct reads_forward as (_ & _ & _ & _ & _ & Hs). by eapply Hs.
Qed.

Lemma read_message_shrinks {Msg} (parse : Bytes → option Msg) : shrinks (read_message parse).
Proof.
  intros b x r. unfold read_message. destruct (read_bytes b) as [[y r']|] eqn:Hb; [|done]. case_match; [|done]. intros [= _ <-].
  destruct reads_forward as (_ & _ & _ & _ & _ & Hs). by eapply Hs.
Qed.

Ltac field_shrinks :=
  destruct reads_forward as (? & ? & ? & ? & ? & ?);
  repeat case_match; auto using field_of_shrinks, unknown_shrinks, read_string_shrinks, read_message_shrinks.

(** Reading a block always ends: on any bytes, each of the four message loops stops, with the
    result that the unbounded loop has. *)
Theorem readers_terminate bytes :
  field_loop pblink_field pblink_default bytes (read_pblink bytes) ∧
  field_loop pbnode_field pbnode_default bytes (read_pbnode bytes) ∧
  field_loop unixtime_field unixtime_default bytes (read_unixtime bytes) ∧
  field_loop unixfs_field unixfs_default bytes (read_unixfs bytes).
Proof.
  repeat split; apply read_fields_loop; try done; intros tag msg.
  - unfold pblink_field. field_shrinks.
  - unfold pbnode_field. field_shrinks.
  - unfold unixtime_field. field_shrinks.
  - unfold unixfs_field. destruct msg. field_shrinks.
Qed.

Definition opt_ok {A} (P : A → Prop) (o : option A) : Prop := ∀ x, o = Some x → P x.

(** ** Sizes *)

Create HintDb wire.

Lemma length_with_tag tag b : 0 <= tag < 128 → Z.of_nat (length (with_tag tag b)) = 1 + Z.of_nat (length b).
Proof. intros Ht. unfold with_tag. rewrite length_app, put_varint_small by done. lia. Qed.

Lemma length_write_bytes b : Z.of_nat (length (write_bytes b)) = sizeof_len (Z.of_nat (length b)).
Proof. unfold write_bytes, sizeof_len. rewrite length_app, sizeof_varint_ok. lia. Qed.

Lemma length_nested size m : Z.of_nat (length m) = size → Z.of_nat (length (write_nested size m)) = sizeof_len size.
Proof. intros Hm. unfold write_nested, sizeof_len. rewrite length_app, sizeof_varint_ok. lia. Qed.

Lemma length_opt {A} (o : option A) (field : A → Bytes) (size : A → Z) :
  (∀ x, o = Some x → Z.of_nat (length (field x)) = size x) → Z.of_nat (length (write_opt o field)) = opt_size o size.
Proof. intros Hx. destruct o; simpl; [by apply Hx|done]. Qed.

Lemma length_sum {A} (l : list A) (field : A → Bytes) (size : A → Z) :
  (∀ x, Z.of_nat (length (field x)) = size x) → Z.of_nat (length (mjoin (map field l))) = sum_sizes l size.
Proof. intros Hx. induction l as [|x l IH]; simpl; [done|]. rewrite length_app, Nat2Z.inj_add, IH, Hx. done. Qed.

Lemma length_len_field tag b : 0 <= tag < 128 → Z.of_nat (length (with_tag tag (write_bytes b))) = len_size b.
Proof. intros Ht. rewrite length_with_tag, length_write_bytes by done. done. Qed.

Lemma length_varint_field tag n : 0 <= tag < 128 → Z.of_nat (length (with_tag tag (put_varint n))) = varint_size n.
Proof. intros Ht. rewrite length_with_tag by done. unfold varint_size. by rewrite sizeof_varint_ok. Qed.

Lemma length_nested_field tag size m :
  0 <= tag < 128 → Z.of_nat (length m) = size → Z.of_nat (length (with_tag tag (write_nested size m))) = 1 + sizeof_len size.
Proof. intros Ht Hm. rewrite length_with_tag by done. by rewrite (length_nested size). Qed.

Hint Resolve length_len_field length_varint_field length_nested_field : wire.

Lemma pblink_size_ok l : Z.of_nat (length (write_pblink l)) = pblink_size l.
Proof.
  unfold write_pblink, pblink_size. rewrite !length_app, !Nat2Z.inj_add.
  rewrite (length_opt (Hash l) _ len_size), (length_opt (Name l) _ len_size), (length_opt (Tsize l) _ varint_size); [lia|..];
    intros; auto with wire lia.
Qed.

Lemma unixtime_size_ok t : Z.of_nat (length (write_unixtime t)) = unixtime_size t.
Proof.
  unfold write_unixtime, unixtime_size. rewrite !length_app, !Nat2Z.inj_add, length_varint_field by lia.
  rewrite (length_opt _ _ (λ _, 1 + 4)); [unfold varint_size; lia|]. intros x _. rewrite length_with_tag, put_fixed32_length by lia. done.
Qed.

Lemma unixfs_size_ok d : Z.of_nat (length (write_unixfs d)) = unixfs_size d.
Proof.
  unfold write_unixfs, unixfs_size. rewrite !length_app, !Nat2Z.inj_add, length_varint_field by lia.
  rewrite (length_opt (u_data d) _ len_size), (length_opt (u_filesize d) _ varint_size), (length_sum _ _ varint_size),
    (length_opt (u_hashType d) _ varint_size), (length_opt (u_fanout d) _ varint_size), (length_opt (u_mode d) _ varint_size),
    (length_opt (u_mtime d) _ (λ m, 1 + sizeof_len (unixtime_size m))); [unfold varint_size; lia|..];
    intros; auto using unixtime_size_ok with wire lia.
Qed.

Lemma flat_size_ok f : Z.of_nat (length (write_flat f)) = flat_size f.
Proof.
  unfold write_flat, flat_size. rewrite length_app, Nat2Z.inj_add, (length_sum _ _ (λ s, 1 + sizeof_len (pblink_size s))).
  - rewrite length_nested_field; [done|lia|apply unixfs_size_ok].
  - intros l. apply length_nested_field; [lia|apply pblink_size_ok].
Qed.

(** ** Round trips *)

Definition short (b : Bytes) : Prop := Z.of_nat (length b) <= u32_max.

Record link_ok (l : PBLink) : Prop := {
  l_hash : opt_ok short (Hash l);
  l_name : opt_ok (λ b, short b ∧ from_utf8 b = true) (Name l);
  l_tsize : opt_ok is_u64 (Tsize l);
  l_size : pblink_size l <= u32_max }.

Record time_ok (t : UnixTime) : Prop := {
  t_seconds : - 2 ^ 63 <= Seconds t < 2 ^ 63;
  t_nanos : opt_ok is_u32 (FractionalNanoseconds t);
  t_size : unixtime_size t <= u32_max }.

Record unixfs_ok (d : UnixFs) : Prop := {
  d_data : opt_ok short (u_data d);
  d_filesize : opt_ok is_u64 (u_filesize d);
  d_blocksizes : Forall is_u64 (u_blocksizes d);
  d_hashType : opt_ok is_u64 (u_hashType d);
  d_fanout : opt_ok is_u64 (u_fanout d);
  d_mode : opt_ok is_u32 (u_mode d);
  d_mtime : opt_ok time_ok (u_mtime d);
  d_size : unixfs_size d <= u32_max }.

(** Every number fits its field and every length fits the 32 bits that readers take for it. *)
Definition flat_ok (f : FlatUnixFs) : Prop := Forall link_ok (f_links f) ∧ unixfs_ok (f_data f).

Definition parses {Msg} (field : Z → Msg → Bytes → option (Msg * Bytes)) (msg : Msg) (b : Bytes) (res : Msg) : Prop :=
  ∀ fuel, (length b <= fuel)%nat → read_fields field fuel msg b = Some res.

Lemma parses_nil {Msg} field (msg : Msg) : parses field msg [] msg.
Proof. by intros []. Qed.

Lemma parses_tag {Msg} field (msg msg1 : Msg) tag payload rest res :
  is_u32 tag → field tag msg (payload ++ rest) = Some (msg1, rest) → parses field msg1 rest res →
  parses field msg (with_tag tag payload ++ rest) res.
Proof.
  intros Ht Hf Hr fuel Hfuel. unfold with_tag in *. rewrite <- app_assoc in *. pose proof (next_tag_put tag (payload ++ rest) Ht) as Htag.
  pose proof (next_tag_consumes _ _ _ Htag) as Hlt. rewrite length_app in Hlt.
  destruct fuel as [|fuel]; [lia|]. cbn [read_fields]. rewrite Htag, Hf. destruct (put_varint tag ++ payload ++ rest) eqn:He; [simpl in *; lia|].
  apply Hr. simpl in *. lia.
Qed.

Lemma parses_opt {Msg A} field (msg msg1 : Msg) tag (o : option A) put rest res :
  is_u32 tag → (∀ x, o = Some x → field tag msg (put x ++ rest) = Some (msg1, rest)) → (o = None → msg1 = msg) →
  parses field msg1 rest res → parses field msg (write_opt o (λ s, with_tag tag (put s)) ++ rest) res.
Proof.
  intros Ht Hs Hn Hr. destruct o as [x|]; simpl; [|by rewrite <- Hn]. eapply parses_tag; eauto.
Qed.

Lemma from_reader_parses {Msg} field (msg : Msg) b res : parses field msg b res → from_reader field msg b = Some res.
Proof. intros Hp. by apply Hp. Qed.

Lemma read_write_bytes b r : short b → read_bytes (write_bytes b ++ r) = Some (b, r).
Proof. intros Hb. unfold write_bytes. rewrite <- app_assoc. by apply read_bytes_put. Qed.

Lemma read_write_string b r : short b → from_utf8 b = true → read_string (write_bytes b ++ r) = Some (b, r).
Proof. intros Hb Hu. unfold read_string. by rewrite read_write_bytes, Hu. Qed.

Lemma read_write_nested {Msg} (parse : Bytes → option Msg) size b m r :
  Z.of_nat (length b) = size → size <= u32_max → parse b = Some m → read_message parse (write_nested size b ++ r) = Some (m, r).
Proof. intros <- Hs Hp. unfold read_message, write_nested. rewrite <- app_assoc, read_bytes_put by done. by rewrite Hp. Qed.

Ltac tag_range := unfold is_u, umax; lia.

(** One field: its tag is small, and what was written for it reads back. *)
Ltac opt_field m := eapply (parses_opt _ _ m); [tag_range|intros y Hx; cbn -[read_bytes read_message]; unfold field_of|intros Hx; by rewrite ?Hx|].

Lemma pblink_roundtrip l : link_ok l → read_pblink (write_pblink l) = Some l.
Proof.
  intros [Hh Hn Ht _]. apply from_reader_parses. unfold write_pblink. rewrite <- (app_nil_r (write_opt (Tsize l) _)).
  opt_field (mkPBLink (Hash l) None None). { by rewrite read_write_bytes, Hx by auto. }
  opt_field (mkPBLink (Hash l) (Name l) None). { rewrite read_write_string by (by apply (Hn _ Hx)). by rewrite Hx. }
  opt_field (mkPBLink (Hash l) (Name l) (Tsize l)). { by rewrite read_uint64_put, Hx by auto. }
  destruct l. apply parses_nil.
Qed.

Lemma unixtime_roundtrip t : time_ok t → read_unixtime (write_unixtime t) = Some t.
Proof.
  intros [Hs Hn _]. apply from_reader_parses. unfold write_unixtime. rewrite <- (app_nil_r (write_opt _ _)).
  apply (parses_tag _ _ (mkUnixTime (Seconds t) None)); [tag_range| |].
  { cbn. unfold field_of. by rewrite read_int64_put. }
  opt_field (mkUnixTime (Seconds t) (FractionalNanoseconds t)). { by rewrite read_fixed32_put, Hx by auto. }
  destruct t. apply parses_nil.
Qed.

Lemma parses_blocksizes ty data size l blocks rest res :
  Forall is_u64 blocks → parses unixfs_field (mkUnixFs ty data size (l ++ blocks) None None None None) rest res →
  parses unixfs_field (mkUnixFs ty data size l None None None None) (mjoin (map (λ s, with_tag 32 (put_varint s)) blocks) ++ rest) res.
Proof.
  revert l. induction blocks as [|b blocks IH]; intros l Hb Hr; [by rewrite app_nil_r in Hr|].
  apply Forall_cons in Hb as [Hb Hbs]. cbn [map mjoin]. simpl. rewrite <- app_assoc.
  eapply (parses_tag _ _ (mkUnixFs ty data size (l ++ [b]) None None None None)); [tag_range|cbn; unfold field_of; by rewrite read_uint64_put|].
  apply IH; [done|]. by rewrite <- app_assoc.
Qed.

Lemma unixfs_roundtrip d : unixfs_ok d → read_unixfs (write_unixfs d) = Some d.
Proof.
  destruct d as [ty data size blocks hash fan mode mtime]. intros [Hd Hf Hb Hh Hfa Hmo Hmt _]. simpl in *. apply from_reader_parses.
  unfold write_unixfs. simpl. rewrite <- (app_nil_r (write_opt mtime _)).
  apply (parses_tag _ _ (mkUnixFs ty None None [] None None None None)); [tag_range| |].
  { cbn. unfold field_of. rewrite read_int32_put by (by destruct ty). by rewrite UnixFsType.from_to. }
  opt_field (mkUnixFs ty data None [] None None None None). { by rewrite read_write_bytes, Hx by auto. }
  opt_field (mkUnixFs ty data size [] None None None None). { by rewrite read_uint64_put, Hx by auto. }
  apply parses_blocksizes; [done|]. simpl app.
  opt_field (mkUnixFs ty data size blocks hash None None None). { by rewrite read_uint64_put, Hx by auto. }
  opt_field (mkUnixFs ty data size blocks hash fan None None). { by rewrite read_uint64_put, Hx by auto. }
  opt_field (mkUnixFs ty data size blocks hash fan mode None). { by rewrite read_uint32_put, Hx by auto. }
  opt_field (mkUnixFs ty data size blocks hash fan mode mtime).
  { rewrite (read_write_nested _ _ _ y); [by rewrite Hx|apply unixtime_size_ok|exact (t_size _ (Hmt _ Hx))|apply unixtime_roundtrip; auto]. }
  apply parses_nil.
Qed.

Lemma parses_links ls links rest res :
  Forall link_ok links → parses pbnode_field (mkPBNode (ls ++ links) None) rest res →
  parses pbnode_field (mkPBNode ls None) (mjoin (map (λ l, with_tag 18 (write_nested (pblink_size l) (write_pblink l))) links) ++ rest) res.
Proof.
  revert ls. induction links as [|l links IH]; intros ls Hl Hr; [by rewrite app_nil_r in Hr|].
  apply Forall_cons in Hl as [Hl Hls]. cbn [map mjoin]. simpl. rewrite <- app_assoc.
  eapply (parses_tag _ _ (mkPBNode (ls ++ [l]) None)); [tag_range| |].
  { cbn -[read_message]. unfold field_of. by rewrite (read_write_nested _ _ _ l); [|apply pblink_size_ok|exact (l_size _ Hl)|apply pblink_roundtrip]. }
  apply IH; [done|]. by rewrite <- app_assoc.
Qed.

Lemma flat_reads_back f : flat_ok f → flat_try_from (write_flat f) = inl f.
Proof.
  intros [Hl Hd]. unfold flat_try_from.
  assert (read_pbnode (write_flat f) = Some (mkPBNode (f_links f) (Some (write_unixfs (f_data f))))) as ->.
  { apply from_reader_parses. unfold write_flat. apply parses_links; [done|]. simpl app. rewrite <- (app_nil_r (with_tag _ _)).
    eapply parses_tag; [tag_range| |apply parses_nil]. cbn -[read_bytes]. unfold field_of, write_nested.
    rewrite <- unixfs_size_ok, <- app_assoc, read_bytes_put; [done|]. rewrite unixfs_size_ok. exact (d_size _ Hd). }
  simpl. destruct (write_unixfs (f_data f)) as [|x b] eqn:He.
  - exfalso. pose proof (unixfs_size_ok (f_data f)) as Hs. rewrite He in Hs. unfold write_unixfs in He.
    apply app_nil in He as [He _]. pose proof (put_varint_small 8 ltac:(lia)) as H8. unfold with_tag in He.
    apply app_nil in He as [He _]. rewrite He in H8. done.
  - rewrite <- He, unixfs_roundtrip by done. by destruct f.
Qed.

(** C38. A file block reads back as it was written: the sizes computed before writing are the
    lengths of what is written, so the nested messages end where they should, and every field, in
    the order dag-pb prescribes, is found again, as long as names are UTF-8, byte strings and the UnixFS message
    are below 4 GiB and numbers fit their types. *)
Theorem flat_roundtrip f :
  Z.of_nat (length (write_flat f)) = flat_size f ∧ (flat_ok f → flat_try_from (write_flat f) = inl f).
Proof. split; [apply flat_size_ok|apply flat_reads_back]. Qed.

End Messages.
