(* ===== verification/FileAdder.v ===== *)
(** Building the tree of a file ([utils/rust-ipfs/unixfs/src/file/adder.rs]): the chunker cuts the
    bytes into leaves, the balanced collector groups links to them into link blocks, level by level.

    CIDs are those of the crate [cid] (class [RustIpfs]), the hash is [sha2]: both are third-party
    code, in the class [ContentHash].  An index out of range, a failed assertion and a failed
    [expect] are [Panic]; the loop over the levels has no bound in the code, so its model takes fuel and
    answers [Err OutOfFuel] when it is used up. *)

From S2P Require Import Prelude Runtime Utf8 IpfsPath UnixfsPb.

Inductive Version := V0 | V1.

Definition DEFAULT_CID_VERSION : Version := V0.

Class ContentHash `{RustIpfs} := {
  (** the multihash of [Sha256::digest] *)
  sha2_256 : Bytes → Bytes;
  cid_new_v0 : Bytes → option Cid;
  cid_new_v1 : Z → Bytes → Cid;
  cid_hash : Cid → Bytes;
  cid_codec : Cid → Z;
  version : Cid → Version;
  (** the check of [Block::new] *)
  verify_cid : Cid → Bytes → bool;
  #[global] cid_eq_dec :: EqDecision Cid }.

Abbreviation DAG_PB := 112.

(** A CID is its version, its codec and its hash, and reads back from its bytes, of which there are a
    few dozen; the hash has no collisions. *)
Class ContentHashLaws `{RustIpfs} (C : ContentHash) := {
  sha2_256_inj : ∀ b b', sha2_256 b = sha2_256 b' → b = b';
  cid_v0_ok b : ∃ c, cid_new_v0 (sha2_256 b) = Some c ∧ cid_hash c = sha2_256 b ∧ cid_codec c = DAG_PB ∧ version c = V0;
  cid_v1_hash n h : cid_hash (cid_new_v1 n h) = h;
  cid_v1_codec n h : cid_codec (cid_new_v1 n h) = n;
  cid_v1_version n h : version (cid_new_v1 n h) = V1;
  cid_ext c c' : version c = version c' → cid_codec c = cid_codec c' → cid_hash c = cid_hash c' → c = c';
  verify_cid_ok c b : cid_hash c = sha2_256 b → verify_cid c b = true;
  cid_bytes_parse c : cid_try_from (cid_to_bytes c) = Some c;
  cid_bytes_short c : (length (cid_to_bytes c) <= 1024)%nat }.

Inductive Unbounded := OutOfFuel.

Section Adder.
Context `{Wire} `{ContentHash}.

Record Link := mkLink { depth : nat; target : Cid; total_size : Z; file_size : Z }.

(** [Chunker::Size], [BalancedCollector::branching_factor] (the collector keeps a CID version of its
    own, the default one) *)
Record FileAdder := mkAdder {
  chunker : nat;
  branching_factor : nat;
  block_buffer : Bytes;
  unflushed_links : list Link;
  cid_version : Version }.

Definition build (size bf : nat) : FileAdder := mkAdder size bf [] [] DEFAULT_CID_VERSION.

Definition create_cid (multi_hash : Bytes) (version : Version) : option Cid :=
  match version with
  | V0 => cid_new_v0 multi_hash
  | V1 => Some (cid_new_v1 DAG_PB multi_hash)
  end.

Definition render_and_hash (flat : FlatUnixFs) (version : Version) : option (Cid * Bytes) :=
  let out := write_flat flat in
  match create_cid (sha2_256 out) version with
  | Some cid => Some (cid, out)
  | None => None
  end.

Definition accept (max : nat) (input buffered : Bytes) : Bytes * bool :=
  let l := (length input `min` (max - length buffered))%nat in
  (take l input, (max <=? length buffered + l)%nat).

Definition leaf_message (input : Bytes) : FlatUnixFs :=
  mkFlat [] (mkUnixFs UnixFsType.File (match input with [] => None | _ => Some input end) (Some (Z.of_nat (length input)))
               [] None None None None).

(** The block, if any, and the links. *)
Definition flush_buffered_leaf (input : Bytes) (links : list Link) (finishing : bool) (version : Version) :
  outcome Unbounded (option (Cid * Bytes) * list Link) :=
  if bool_decide (input = []) && (negb finishing || negb (bool_decide (links = []))) then Ok (None, links) else
  match render_and_hash (leaf_message input) version with
  | None => Panic
  | Some (cid, vec) =>
      Ok (Some (cid, vec), links ++ [mkLink 0 cid (Z.of_nat (length vec)) (Z.of_nat (length input))])
  end.

(** [partition_link], over the links of a block *)
Definition link_message (link : Link) : PBLink :=
  mkPBLink (Some (cid_to_bytes (target link))) (Some []) (Some (total_size link)).
Definition nested_size (links : list Link) : Z := foldl (λ t l, wrapping_add 64 t (file_size l)) 0 links.
Definition nested_total_size (links : list Link) : Z := foldl (λ t l, wrapping_add 64 t (total_size l)) 0 links.

Definition node_message (links : list Link) : FlatUnixFs :=
  mkFlat (map link_message links)
    (mkUnixFs UnixFsType.File None (Some (nested_size links)) (map file_size links) None None None None).

(** A link block for some links of a level, and the link to it. *)
Definition link_block (level : nat) (links : list Link) : option (Link * (Cid * Bytes)) :=
  match render_and_hash (node_message links) DEFAULT_CID_VERSION with
  | None => None
  | Some (cid, vec) =>
      Some (mkLink (S level) cid (wrapping_add 64 (nested_total_size links) (Z.of_nat (length vec))) (nested_size links), (cid, vec))
  end.

Definition position {A} (p : A → bool) (l : list A) : option nat := fst <$> list_find (λ x, p x = true) l.

Inductive LevelEnd :=
| LevelDone (pending : list Link) (last_overwrite : option nat) (ret : list (Cid * Bytes))
| BreakOuter (pending : list Link) (ret : list (Cid * Bytes)).

(** The [while let] of a level. *)
Fixpoint level_loop (fuel : nat) (bf level : nat) (finishing : bool) (pending : list Link)
    (starting_point : nat) (last_overwrite : option nat) (ret : list (Cid * Bytes)) : outcome Unbounded LevelEnd :=
  match fuel with
  | O => Err OutOfFuel
  | S fuel =>
      if (length pending <? starting_point)%nat then Panic else
      match position (λ l, Nat.eqb (depth l) level) (drop starting_point pending) with
      | None => Ok (LevelDone pending last_overwrite ret)
      | Some first_at =>
          let first_at := (first_at + starting_point)%nat in
          if negb finishing && (length (drop first_at pending) <=? bf)%nat then
            Ok (BreakOuter
                  match last_overwrite with
                  | Some lo => take (lo + 1) pending ++ drop first_at pending
                  | None => pending
                  end ret)
          else
            let last := ((first_at + bf) `min` length pending)%nat in
            let links := take (last - first_at) (drop first_at pending) in
            if negb (forallb (λ l, Nat.eqb (depth l) level) links) then Panic else
            match link_block level links with
            | None => Panic
            | Some (link, block) =>
                let index := match last_overwrite with Some i => (i + 1)%nat | None => first_at end in
                match pending !! index with
                | None => Panic
                | Some _ => level_loop fuel bf level finishing (<[index := link]> pending) last (Some index) (ret ++ [block])
                end
            end
      end
  end.

(** The ['outer] loop. *)
Fixpoint flush_levels (fuel : nat) (bf level : nat) (finishing : bool) (pending : list Link) (ret : list (Cid * Bytes)) :
  outcome Unbounded (list Link * list (Cid * Bytes)) :=
  if (Nat.eqb (length pending) 1 && finishing) || ((length pending <=? bf)%nat && negb finishing) then Ok (pending, ret) else
  match fuel with
  | O => Err OutOfFuel
  | S fuel =>
      match level_loop (S (length pending)) bf level finishing pending 0 None ret with
      | Ok (LevelDone pending lo ret) =>
          flush_levels fuel bf (S level) finishing (match lo with Some lo => take (lo + 1) pending | None => pending end) ret
      | Ok (BreakOuter pending ret) => Ok (pending, ret)
      | Err e => Err e
      | Panic => Panic
      end
  end.

(** Enough turns for the deepest link and the number of links. *)
Definition level_bound (pending : list Link) : nat := (list_max (map depth pending) + length pending)%nat.

Definition flush_links (bf : nat) (pending : list Link) (finishing : bool) : outcome Unbounded (list Link * list (Cid * Bytes)) :=
  flush_levels (level_bound pending) bf 0 finishing pending [].

(** The leaf that became ready and the link blocks that follow. *)
Definition flush_ready (a : FileAdder) (chunk : Bytes) : outcome Unbounded (list (Cid * Bytes) * FileAdder) :=
  match flush_buffered_leaf chunk (unflushed_links a) false (cid_version a) with
  | Ok (Some leaf, links) =>
      match flush_links (branching_factor a) links false with
      | Ok (links, blocks) => Ok (leaf :: blocks, mkAdder (chunker a) (branching_factor a) [] links (cid_version a))
      | Err e => Err e
      | Panic => Panic
      end
  | Ok (None, _) => Panic
  | Err e => Err e
  | Panic => Panic
  end.

(** The new blocks and the number of bytes consumed. *)
Definition push (a : FileAdder) (input : Bytes) : outcome Unbounded ((list (Cid * Bytes) * nat) * FileAdder) :=
  let '(accepted, ready) := accept (chunker a) input (block_buffer a) in
  if bool_decide (block_buffer a = []) && ready then
    match flush_ready a accepted with
    | Ok (blocks, a) => Ok ((blocks, length accepted), a)
    | Err e => Err e
    | Panic => Panic
    end
  else
    let buffer := block_buffer a ++ accepted in
    if negb ready then
      Ok (([], length accepted), mkAdder (chunker a) (branching_factor a) buffer (unflushed_links a) (cid_version a))
    else
      match flush_ready a buffer with
      | Ok (blocks, a) => Ok ((blocks, length accepted), a)
      | Err e => Err e
      | Panic => Panic
      end.

Definition finish (a : FileAdder) : outcome Unbounded (list (Cid * Bytes)) :=
  match flush_buffered_leaf (block_buffer a) (unflushed_links a) true (cid_version a) with
  | Ok (leaf, links) =>
      match flush_links (branching_factor a) links true with
      | Ok (_, blocks) => Ok (match leaf with Some b => [b] | None => [] end ++ blocks)
      | Err e => Err e
      | Panic => Panic
      end
  | Err e => Err e
  | Panic => Panic
  end.

End Adder.
