(* ===== verification/FileAdderProps.v ===== *)
(** The tree that [FileAdder] builds: every link it keeps stands for a piece of the file, the pieces
    are in order, and the levels are grouped as the reference definition [grouped] says. *)

From S2P Require Import Prelude Runtime Utf8 IpfsPath UnixfsPb FileAdder.

Section Props.
Context {W : Wire} {WL : WireLaws W} {R : RustIpfs} {C : ContentHash} {CL : ContentHashLaws C}.

Definition all_at (level : nat) (l : list Link) : Prop := Forall (λ x, depth x = level) l.
Definition above (level : nat) (l : list Link) : Prop := Forall (λ x, (level < depth x)%nat) l.

(** ** Grouping a level *)

(** The links of a level in groups of [bf], only the last of which can be smaller. *)
Inductive grouped (bf level : nat) : list Link → list (Link * (Cid * Bytes)) → Prop :=
| grouped_nil : grouped bf level [] []
| grouped_cons l rest link b nbs :
    l ≠ [] → (length l <= bf)%nat → (rest ≠ [] → length l = bf) → link_block level l = Some (link, b) →
    grouped bf level rest nbs → grouped bf level (l ++ rest) ((link, b) :: nbs).

Lemma link_block_some level l : ∃ link b, link_block level l = Some (link, b).
Proof.
  unfold link_block, render_and_hash, create_cid. destruct (cid_v0_ok (write_flat (node_message l))) as (c & Hc & _).
  unfold DEFAULT_CID_VERSION. rewrite Hc. eauto.
Qed.

Lemma link_block_depth level l link b : link_block level l = Some (link, b) → depth link = S level.
Proof. unfold link_block. destruct (render_and_hash _ _) as [[c v]|]; [|done]. by intros [= <- _]. Qed.

(** The state of the loop: [pre] is done, [junk] has been overwritten or is about to be, [rest] is the
    part of the level that is left. *)
Definition at_rest (level : nat) (pre junk : list Link) (sp : nat) (lo : option nat) : Prop :=
  (lo = None ∧ sp = 0%nat ∧ junk = [] ∧ above level pre) ∨
  (∃ n, lo = Some n ∧ length pre = S n ∧ sp = length (pre ++ junk)).

Lemma position_at level l x rest : Forall (λ y, depth y ≠ level) l → depth x = level →
  position (λ y, Nat.eqb (depth y) level) (l ++ x :: rest) = Some (length l).
Proof.
  intros Hl Hx. unfold position. rewrite (proj2 (list_find_Some _ _ (length l) x)); [done|].
  rewrite list_lookup_middle by done. split; [done|]. split; [by rewrite Hx, Nat.eqb_refl|].
  intros j y Hj Hlt Hy. rewrite lookup_app_l in Hj by done. apply (Forall_lookup_1 _ _ _ _ Hl Hj). by apply Nat.eqb_eq.
Qed.

Lemma position_none level l : Forall (λ y, depth y ≠ level) l → position (λ y, Nat.eqb (depth y) level) l = None.
Proof.
  intros Hl. unfold position. rewrite (proj2 (list_find_None _ _)); [done|].
  eapply Forall_impl; [exact Hl|]. intros y Hy Heq. by apply Hy, Nat.eqb_eq.
Qed.

Lemma above_ne level l : above level l → Forall (λ y, depth y ≠ level) l.
Proof. intros Ha. eapply Forall_impl; [exact Ha|]. simpl. lia. Qed.

Lemma at_rest_position level pre junk x rest sp lo :
  at_rest level pre junk sp lo → depth x = level →
  ∃ p, position (λ y, Nat.eqb (depth y) level) (drop sp (pre ++ junk ++ x :: rest)) = Some p ∧ (p + sp)%nat = length (pre ++ junk).
Proof.
  intros [(-> & -> & -> & Ha)|(n & -> & Hn & ->)] Hx.
  - exists (length pre). rewrite app_nil_r. split; [|lia]. rewrite drop_0. simpl. apply position_at; [by apply above_ne|done].
  - exists 0%nat. rewrite app_assoc, drop_app_length. split; [|done]. by apply (position_at level [] x rest).
Qed.

Definition overwritten (junk rest : list Link) (bf : nat) : list Link := tail (junk ++ take bf rest).

Lemma take_min_length {A} n (l : list A) : take (n `min` length l) l = take n l.
Proof. destruct (Nat.le_gt_cases n (length l)); [by rewrite Nat.min_l|]. rewrite Nat.min_r by lia. by rewrite !take_ge by lia. Qed.

Lemma forallb_depth level l : all_at level l → forallb (λ y, Nat.eqb (depth y) level) l = true.
Proof. intros Hl. apply forallb_forall. intros y Hy%list_elem_of_In. apply Nat.eqb_eq. by apply (proj1 (Forall_forall _ _) Hl). Qed.

(** One turn on a level that is not to be left yet. *)
Lemma level_loop_turn fuel bf level fin pre junk rest sp lo ret :
  (0 < bf)%nat → at_rest level pre junk sp lo → rest ≠ [] → all_at level rest →
  negb fin && (length rest <=? bf)%nat = false →
  ∃ link b, link_block level (take bf rest) = Some (link, b) ∧
    level_loop (S fuel) bf level fin (pre ++ junk ++ rest) sp lo ret =
    level_loop fuel bf level fin ((pre ++ [link]) ++ overwritten junk rest bf ++ drop bf rest)
      (length ((pre ++ [link]) ++ overwritten junk rest bf)) (Some (length pre)) (ret ++ [b]).
Proof.
  intros Hbf Hat Hne Hall Hgo. destruct (link_block_some level (take bf rest)) as (link & b & Hlb). exists link, b. split; [done|].
  destruct rest as [|x rest]; [done|]. assert (Hx : depth x = level) by (by apply Forall_cons in Hall as [? _]).
  destruct (at_rest_position level pre junk x rest sp lo Hat Hx) as (p & Hp & Hps).
  assert (Hsp : (length (pre ++ junk ++ x :: rest) <? sp)%nat = false).
  { apply Nat.ltb_ge. rewrite app_assoc, length_app. lia. }
  cbn [level_loop]. rewrite Hsp, Hp, Hps, app_assoc, drop_app_length, Hgo.
  assert (Hlen : (((length (pre ++ junk) + bf) `min` length ((pre ++ junk) ++ x :: rest)) - length (pre ++ junk) = bf `min` length (x :: rest))%nat).
  { rewrite (length_app (pre ++ junk)). lia. }
  rewrite Hlen, take_min_length.
  rewrite (proj2 (negb_false_iff _)); [|by apply forallb_depth, Forall_take].
  rewrite Hlb.
  assert (Hidx : match lo with Some i => (i + 1)%nat | None => length (pre ++ junk) end = length pre).
  { destruct Hat as [(-> & _ & -> & _)|(n & -> & Hn & _)]; [by rewrite app_nil_r|lia]. }
  rewrite Hidx. rewrite <- app_assoc.
  destruct (junk ++ x :: rest) as [|y t] eqn:Hj; [by destruct junk|].
  rewrite list_lookup_middle by done.
  assert (Ht : t = overwritten junk (x :: rest) bf ++ drop bf (x :: rest)).
  { unfold overwritten. destruct bf as [|bf]; [lia|]. destruct junk as [|z junk]; simpl in *; simplify_eq; [by rewrite take_drop|].
    by rewrite <- app_assoc; simpl; rewrite take_drop. }
  f_equal.
  - rewrite insert_app_r_alt by done. rewrite Nat.sub_diag. simpl. rewrite Ht. by rewrite <- app_assoc.
  - assert (Hov : S (length (overwritten junk (x :: rest) bf)) = (length junk + bf `min` S (length rest))%nat).
    { clear - Hbf. unfold overwritten. destruct bf as [|bf]; [lia|]. destruct junk as [|z junk]; simpl; rewrite ?length_app; simpl; rewrite length_take; lia. }
    rewrite <- Hj, !length_app. simpl. lia.
Qed.

Lemma grouped_turn bf level rest link b nbs :
  (0 < bf)%nat → rest ≠ [] → link_block level (take bf rest) = Some (link, b) → grouped bf level (drop bf rest) nbs →
  grouped bf level rest ((link, b) :: nbs).
Proof.
  intros Hbf Hne Hlb Hg. rewrite <- (take_drop bf rest). constructor; auto.
  - destruct rest, bf; simpl; [done..|lia|done].
  - rewrite length_take. lia.
  - intros Hd. rewrite length_take. destruct (Nat.le_gt_cases bf (length rest)); [lia|]. by rewrite drop_ge in Hd by lia.
Qed.

Lemma map_fst_last {A B} (pre : list A) (nbs : list (A * B)) x :
  (pre ++ [x]) ++ map fst nbs = pre ++ x :: map fst nbs.
Proof. by rewrite <- app_assoc. Qed.

Lemma level_loop_rest fuel bf level pre junk rest n ret :
  (0 < bf)%nat → length pre = S n → all_at level rest → (length rest < fuel)%nat →
  ∃ nbs junk', grouped bf level rest nbs ∧
    level_loop fuel bf level true (pre ++ junk ++ rest) (length (pre ++ junk)) (Some n) ret =
    Ok (LevelDone (pre ++ map fst nbs ++ junk') (Some (n + length nbs)%nat) (ret ++ map snd nbs)).
Proof.
  intros Hbf. revert pre junk rest n ret. induction fuel as [|fuel IH]; intros pre junk rest n ret Hn Hall Hf; [lia|].
  destruct (decide (rest = [])) as [->|Hne].
  - exists [], junk. split; [constructor|]. cbn [level_loop]. rewrite !app_nil_r.
    rewrite (proj2 (Nat.ltb_ge _ _)) by done. rewrite drop_ge by done. simpl. by rewrite Nat.add_0_r.
  - destruct (level_loop_turn fuel bf level true pre junk rest (length (pre ++ junk)) (Some n) ret) as (link & b & Hlb & ->); auto.
    { right. by exists n. }
    destruct (IH (pre ++ [link]) (overwritten junk rest bf) (drop bf rest) (length pre) (ret ++ [b])) as (nbs & junk' & Hg & ->).
    { rewrite length_app. simpl. lia. } { by apply Forall_drop. } { rewrite length_drop. destruct rest; [done|]. simpl in *. lia. }
    exists ((link, b) :: nbs), junk'. split; [by apply grouped_turn|]. simpl. rewrite <- !app_assoc. simpl. do 3 f_equal. lia.
Qed.

Definition cut (p : list Link) (lo : option nat) : list Link := match lo with Some lo => take (lo + 1) p | None => p end.

(** A level when finishing: all of it is grouped. *)
Lemma level_finishing bf level hi rest ret :
  (0 < bf)%nat → above level hi → all_at level rest →
  ∃ nbs p lo, grouped bf level rest nbs ∧ cut p lo = hi ++ map fst nbs ∧
    level_loop (S (length (hi ++ rest))) bf level true (hi ++ rest) 0 None ret = Ok (LevelDone p lo (ret ++ map snd nbs)).
Proof.
  intros Hbf Hhi Hall. destruct (decide (rest = [])) as [->|Hne].
  - exists [], hi, None. rewrite !app_nil_r. split; [constructor|]. split; [done|]. cbn [level_loop]. simpl.
    rewrite drop_0, position_none by (by apply above_ne). done.
  - destruct (level_loop_turn (length (hi ++ rest)) bf level true hi [] rest 0 None ret) as (link & b & Hlb & Heq); auto.
    { by left. }
    simpl app in Heq. rewrite Heq.
    destruct (level_loop_rest (length (hi ++ rest)) bf level (hi ++ [link]) (overwritten [] rest bf) (drop bf rest) (length hi) (ret ++ [b]))
      as (nbs & junk' & Hg & ->); auto.
    { rewrite length_app. simpl. lia. } { by apply Forall_drop. } { rewrite length_app, length_drop. destruct rest; [done|]. simpl. lia. }
    exists ((link, b) :: nbs), ((hi ++ [link]) ++ map fst nbs ++ junk'), (Some (length hi + length nbs)%nat).
    split; [by apply grouped_turn|]. split; [|by rewrite <- (app_assoc ret)].
    cbn [cut]. rewrite app_assoc, take_app_length'; [by rewrite <- app_assoc|]. rewrite !length_app, length_map. simpl. lia.
Qed.

(** A level while pushing: nothing happens up to [bf] links; the [bf + 1]-th starts a new group. *)
Lemma level_pushing bf level hi rest ret :
  (0 < bf)%nat → above level hi → all_at level rest → rest ≠ [] → (length rest <= S bf)%nat →
  level_loop (S (length (hi ++ rest))) bf level false (hi ++ rest) 0 None ret =
    if (length rest <=? bf)%nat then Ok (BreakOuter (hi ++ rest) ret)
    else match link_block level (take bf rest) with
         | Some (link, b) => Ok (BreakOuter (hi ++ link :: drop bf rest) (ret ++ [b]))
         | None => Panic
         end.
Proof.
  intros Hbf Hhi Hall Hne Hlen. destruct (length rest <=? bf)%nat eqn:Hle.
  - destruct rest as [|x rest]; [done|]. destruct (at_rest_position level hi [] x rest 0 None) as (p & Hp & Hps);
      [by left|by apply Forall_cons in Hall as [? _]|]. cbn [level_loop]. simpl app in *. rewrite app_nil_r in Hps.
    rewrite (proj2 (Nat.ltb_ge _ _)) by lia. rewrite Hp, Hps, drop_app_length. by rewrite Hle.
  - destruct (level_loop_turn (length (hi ++ rest)) bf level false hi [] rest 0 None ret) as (link & b & Hlb & Heq); auto.
    { by left. }
    simpl app in Heq. rewrite Heq, Hlb. apply Nat.leb_gt in Hle. rewrite length_app.
    assert (Hd : ∃ y, drop bf rest = [y]).
    { pose proof (length_drop rest bf). destruct (drop bf rest) as [|y [|z t]]; simpl in *; [lia|eauto|lia]. }
    destruct Hd as [y Hd]. rewrite Hd. set (ov := overwritten [] rest bf).
    assert (Hy : depth y = level) by (assert (all_at level [y]) as Ha by (rewrite <- Hd; by apply Forall_drop); by apply Forall_cons in Ha as [? _]).
    destruct (length hi + length rest)%nat as [|f] eqn:Hf; [lia|]. cbn [level_loop].
    destruct (at_rest_position level (hi ++ [link]) ov y [] (length ((hi ++ [link]) ++ ov)) (Some (length hi))) as (p & Hp & Hps); [|done|].
    { right. exists (length hi). rewrite !length_app. simpl. split; [done|]. split; lia. }
    rewrite (proj2 (Nat.ltb_ge _ _)) by (rewrite app_assoc, (length_app _ [y]); lia).
    rewrite Hp, Hps. rewrite app_assoc, drop_app_length. cbn [negb andb length]. rewrite (proj2 (Nat.leb_le 1 bf)) by lia.
    rewrite <- !app_assoc, (app_assoc hi [link]).
    rewrite take_app_length'; [by rewrite <- app_assoc|]. rewrite length_app. simpl. lia.
Qed.

(** ** The levels *)

(** From [level] up, higher links first. *)
Definition descending (level : nat) (l : list Link) : Prop :=
  StronglySorted (λ x y, (depth y <= depth x)%nat) l ∧ Forall (λ x, (level <= depth x)%nat) l.

Lemma descending_split level l : descending level l → ∃ hi rest, l = hi ++ rest ∧ above level hi ∧ all_at level rest ∧ descending (S level) hi.
Proof.
  intros [Hs Hl]. induction l as [|x l IH]; [exists [], []; repeat split; constructor|].
  apply StronglySorted_inv in Hs as [Hs Hx]. apply Forall_cons in Hl as [Hlx Hl].
  destruct (decide (depth x = level)) as [He|Hne].
  - exists [], (x :: l). split; [done|]. split; [constructor|]. split; [|repeat split; constructor]. constructor; [done|].
    apply Forall_forall. intros y Hy. rewrite Forall_forall in Hx, Hl. pose proof (Hx y Hy). pose proof (Hl y Hy). simpl in *. lia.
  - destruct (IH Hs Hl) as (hi & rest & -> & Ha & Hr & Hsh & Hah). exists (x :: hi), rest. split; [done|].
    split; [constructor; [lia|done]|]. split; [done|]. split; constructor; [done| |simpl; lia|done]. by apply Forall_app in Hx as [? _].
Qed.

Lemma descending_app level hi news : descending (S level) hi → all_at (S level) news → descending (S level) (hi ++ news).
Proof.
  intros [Hs Ha] Hn. split; [|apply Forall_app; split; [done|]; eapply Forall_impl; [exact Hn|simpl; lia]].
  induction hi as [|x hi IH]; simpl.
  - clear - Hn. induction Hn as [|y l Hy Hl IH]; [constructor|]. constructor; [done|]. eapply Forall_impl; [exact Hl|simpl; lia].
  - apply StronglySorted_inv in Hs as [Hs Hx]. apply Forall_cons in Ha as [Hxa Ha]. constructor; [by apply IH|].
    apply Forall_app. split; [done|]. eapply Forall_impl; [exact Hn|simpl; lia].
Qed.

Lemma grouped_depth bf level rest nbs : grouped bf level rest nbs → all_at (S level) (map fst nbs).
Proof. induction 1 as [|l rest link b nbs _ _ _ Hlb _ IH]; constructor; [by eapply link_block_depth|done]. Qed.

Lemma grouped_length bf level rest nbs :
  grouped bf level rest nbs → (length nbs <= length rest)%nat ∧ ((2 <= bf)%nat → (2 <= length rest)%nat → (length nbs < length rest)%nat) ∧
    (rest ≠ [] → nbs ≠ []).
Proof.
  induction 1 as [|l rest link b nbs Hne Hle Hfull _ _ [IH1 [IH2 _]]]; [simpl; split; [lia|split; [lia|done]]|].
  assert (0 < length l)%nat by (destruct l; [done|simpl; lia]). rewrite length_app. simpl. split; [lia|]. split; [|done].
  intros Hbf Hlen. destruct (decide (rest = [])) as [->|Hr]; [simpl in *; lia|]. specialize (Hfull Hr). lia.
Qed.

Definition max_depth (l : list Link) : nat := list_max (map depth l).

Lemma max_depth_le l n : (max_depth l <= n)%nat ↔ Forall (λ x, (depth x <= n)%nat) l.
Proof. unfold max_depth. rewrite list_max_le. by rewrite Forall_map. Qed.

(** The turns that are left: levels up to the deepest link, and the links that are left to group. *)
Lemma level_measure bf level hi rest nbs :
  (2 <= bf)%nat → (2 <= length (hi ++ rest))%nat → descending (S level) hi → all_at level rest → grouped bf level rest nbs →
  ((max_depth (hi ++ map fst nbs) - S level) + length (hi ++ map fst nbs) < (max_depth (hi ++ rest) - level) + length (hi ++ rest))%nat.
Proof.
  intros Hbf Hlen [_ Hhi] Hall Hg. pose proof (grouped_depth _ _ _ _ Hg) as Hd. destruct (grouped_length _ _ _ _ Hg) as (Hle & Hlt & _).
  rewrite !length_app, length_map in *. destruct hi as [|x hi].
  - simpl in *. assert (max_depth (map fst nbs) <= S level)%nat by (apply max_depth_le; eapply Forall_impl; [exact Hd|simpl; lia]).
    specialize (Hlt Hbf Hlen). lia.
  - assert (Hmx : (S level <= max_depth ((x :: hi) ++ rest))%nat).
    { apply Forall_cons in Hhi as [Hx _]. unfold max_depth. simpl. lia. }
    assert (Hm : (max_depth ((x :: hi) ++ map fst nbs) <= max_depth ((x :: hi) ++ rest))%nat).
    { apply max_depth_le, Forall_app. split.
      - apply Forall_forall. intros y Hy. assert (Hmy : Forall (λ z, (depth z <= max_depth ((x :: hi) ++ rest))%nat) ((x :: hi) ++ rest)) by (by apply max_depth_le).
        apply Forall_app in Hmy as [Hmy _]. rewrite Forall_forall in Hmy. by apply Hmy.
      - eapply Forall_impl; [exact Hd|]. intros y Hy. simpl in Hy. lia. }
    lia.
Qed.

(** The blocks that a list of links is folded into, with the links of the last level. *)
Inductive folded (bf : nat) : list Link → list Link → list (Cid * Bytes) → Prop :=
| folded_refl l : folded bf l l []
| folded_level level hi rest tl nbs l blocks :
    grouped bf level rest nbs → all_at level rest → folded bf (hi ++ map fst nbs ++ tl) l blocks →
    folded bf (hi ++ rest ++ tl) l (map snd nbs ++ blocks).

(** Finishing ends, with a single link. *)
Lemma flush_levels_finishing fuel bf level pending ret :
  (2 <= bf)%nat → pending ≠ [] → descending level pending → ((max_depth pending - level) + length pending <= S fuel)%nat →
  ∃ link blocks, flush_levels fuel bf level true pending ret = Ok ([link], ret ++ blocks) ∧ folded bf pending [link] blocks.
Proof.
  intros Hbf. revert level pending ret. induction fuel as [|fuel IH]; intros level pending ret Hne Hd Hf.
  - destruct pending as [|x [|y l]]; [done| |simpl in Hf; lia]. exists x, []. simpl. rewrite app_nil_r. split; [done|constructor].
  - destruct (decide (length pending = 1%nat)) as [H1|H1].
    { destruct pending as [|x [|y l]]; [done| |done]. exists x, []. simpl. rewrite app_nil_r. split; [done|constructor]. }
    cbn [flush_levels]. rewrite (proj2 (Nat.eqb_neq _ _) H1), andb_false_r. cbn [andb orb].
    destruct (descending_split level pending Hd) as (hi & rest & -> & Ha & Hr & Hdh).
    destruct (level_finishing bf level hi rest ret) as (nbs & p & lo & Hg & Hcut & ->); [lia|done|done|]. unfold cut in Hcut. rewrite Hcut.
    assert (H2 : (2 <= length (hi ++ rest))%nat) by (destruct (hi ++ rest) as [|? [|? ?]]; [done|done|simpl; lia]).
    destruct (IH (S level) (hi ++ map fst nbs) (ret ++ map snd nbs)) as (link & blocks & -> & Hfold).
    + destruct (grouped_length _ _ _ _ Hg) as (_ & _ & Hn). destruct hi; [|done]. destruct nbs; [|done]. destruct rest; [done|]. by destruct Hn.
    + by apply descending_app; [|eapply grouped_depth].
    + pose proof (level_measure bf level hi rest nbs Hbf H2 Hdh Hr Hg). lia.
    + exists link, (map snd nbs ++ blocks). split; [by rewrite app_assoc|].
      rewrite <- (app_nil_r rest). econstructor; [done|done|]. by rewrite app_nil_r.
Qed.

(** While pushing, the links stay in order and fewer than [bf + 1] leaves wait for a group. *)
Definition waiting (bf : nat) (l : list Link) : Prop :=
  ∃ hi rest, l = hi ++ rest ∧ descending 1 hi ∧ all_at 0 rest ∧ (length rest <= bf)%nat.

Lemma descending_above level hi : descending (S level) hi → above level hi.
Proof. intros [_ Ha]. eapply Forall_impl; [exact Ha|]. simpl. lia. Qed.

Lemma flush_links_pushing bf l x :
  (0 < bf)%nat → waiting bf l → depth x = 0%nat →
  ∃ l' blocks, flush_links bf (l ++ [x]) false = Ok (l', blocks) ∧ waiting bf l' ∧ folded bf (l ++ [x]) l' blocks ∧
    (∀ y, l' = [y] → l' = [x] ∧ blocks = []).
Proof.
  intros Hbf (hi & rest & -> & Hhi & Hr & Hlen) Hx. unfold flush_links.
  assert (Hr' : all_at 0 (rest ++ [x])) by (apply Forall_app; repeat constructor; done).
  destruct (level_bound _) as [|fuel] eqn:Hb; [unfold level_bound in Hb; rewrite !length_app in Hb; simpl in Hb; lia|].
  rewrite <- app_assoc in *.
  assert (Hone : ∀ y, hi ++ rest ++ [x] = [y] → hi ++ rest ++ [x] = [x] ∧ (@nil (Cid * Bytes)) = []).
  { rewrite app_assoc. intros y Hy. split; [|done]. rewrite Hy. by apply (app_inj_2 _ [] _ [y]) in Hy as [_ ->]. }
  cbn [flush_levels]. rewrite andb_false_r, andb_true_r. cbn [orb].
  destruct (length (hi ++ rest ++ [x]) <=? bf)%nat eqn:Hle.
  { apply Nat.leb_le in Hle. do 2 eexists. split; [done|]. split; [|split; [constructor|exact Hone]]. exists hi, (rest ++ [x]). split; [done|].
    split; [done|]. split; [done|]. rewrite (length_app hi) in Hle. lia. }
  rewrite level_pushing; [|done|by apply descending_above|done|by destruct rest|rewrite length_app; simpl; lia].
  destruct (length (rest ++ [x]) <=? bf)%nat eqn:Hle2.
  { apply Nat.leb_le in Hle2. do 2 eexists. split; [done|]. split; [|split; [constructor|exact Hone]]. by exists hi, (rest ++ [x]). }
  apply Nat.leb_gt in Hle2. assert (length rest = bf) as Hbf' by (rewrite length_app in Hle2; simpl in Hle2; lia).
  rewrite take_app_length', drop_app_length' by done.
  destruct (link_block_some 0 rest) as (link & b & Hlb). rewrite Hlb. do 2 eexists. split; [done|]. split; [|split].
  - exists (hi ++ [link]), [x]. rewrite <- app_assoc. split; [done|]. split; [|repeat constructor; auto; simpl; lia].
    apply descending_app; [done|]. repeat constructor. by eapply link_block_depth.
  - simpl. apply (folded_level bf 0 hi rest [x] [(link, b)] _ []); [|done|constructor].
    apply grouped_turn; [done|destruct rest; simpl in *; [lia|done]|by rewrite take_ge by lia|]. rewrite drop_ge by lia. constructor.
  - intros y Hy. by destruct hi as [|? [|? ?]].
Qed.

Lemma waiting_descending bf l : waiting bf l → descending 0 l.
Proof.
  intros (hi & rest & -> & [Hs Ha] & Hr & _). induction hi as [|x hi IH]; simpl.
  - split; [|eapply Forall_impl; [exact Hr|simpl; lia]]. clear - Hr.
    induction Hr as [|y l Hy Hl IH]; [constructor|]. constructor; [done|]. eapply Forall_impl; [exact Hl|simpl; lia].
  - apply StronglySorted_inv in Hs as [Hs Hx]. apply Forall_cons in Ha as [Hxa Ha]. destruct (IH Hs Ha) as [Hs' Ha'].
    split; constructor; [done| |simpl; lia|done]. apply Forall_app. split; [done|]. eapply Forall_impl; [exact Hr|simpl; lia].
Qed.

Lemma descending_snoc l x : descending 0 l → depth x = 0%nat → descending 0 (l ++ [x]).
Proof.
  intros [Hs Ha] Hx. induction l as [|y l IH]; simpl; [repeat constructor; simpl; lia|].
  apply StronglySorted_inv in Hs as [Hs Hy]. apply Forall_cons in Ha as [_ Ha]. destruct (IH Hs Ha) as [Hs' Ha'].
  split; constructor; [done| |simpl; lia|done]. apply Forall_app. split; [done|]. repeat constructor. simpl. lia.
Qed.

Lemma flush_links_finishing bf l :
  (2 <= bf)%nat → l ≠ [] → descending 0 l → ∃ link blocks, flush_links bf l true = Ok ([link], blocks) ∧ folded bf l [link] blocks.
Proof.
  intros Hbf Hne Hd. unfold flush_links. destruct (flush_levels_finishing (level_bound l) bf 0 l []) as (link & blocks & Hf & Hfold); auto.
  - unfold level_bound. fold (max_depth l). lia.
  - by exists link, blocks.
Qed.

(** ** What the links stand for *)

(** Which CIDs have which blocks. *)
Abbreviation Blocks := (Cid → Bytes → Prop).

(** The tree of depth [d] under [cid] holds the file [data]. *)
Fixpoint file_tree (d : nat) (store : Blocks) (cid : Cid) (data : Bytes) : Prop :=
  match d with
  | O => store cid (write_flat (leaf_message data)) ∧ flat_ok (leaf_message data)
  | S d =>
      ∃ links cs, links ≠ [] ∧ store cid (write_flat (node_message links)) ∧ flat_ok (node_message links) ∧
        nested_size links = Z.of_nat (length data) ∧ data = mjoin cs ∧
        Forall2 (λ l c, file_tree d store (target l) c ∧ file_size l = Z.of_nat (length c)) links cs
  end.

Definition denotes (store : Blocks) (l : Link) (c : Bytes) : Prop :=
  file_tree (depth l) store (target l) c ∧ file_size l = Z.of_nat (length c) ∧ is_u64 (total_size l).

Definition stored (store : Blocks) (b : Cid * Bytes) : Prop := store b.1 b.2.

Lemma nested_size_ok store links cs :
  Forall2 (denotes store) links cs → Z.of_nat (length (mjoin cs)) < 2 ^ 64 → nested_size links = Z.of_nat (length (mjoin cs)).
Proof.
  unfold nested_size. intros Hl Hlt. cut (∀ t, 0 <= t → t + Z.of_nat (length (mjoin cs)) < 2 ^ 64 →
    foldl (λ t l, wrapping_add 64 t (file_size l)) t links = t + Z.of_nat (length (mjoin cs))).
  { intros Hc. rewrite Hc by lia. lia. }
  clear Hlt. induction Hl as [|l c links cs (_ & Hs & _) _ IH]; intros t Ht Hb; simpl in *; [lia|].
  rewrite length_app, Nat2Z.inj_add in *. rewrite IH; rewrite Hs, wrapping_add_id by (unfold umax; lia); lia.
Qed.

Lemma link_message_ok l : is_u64 (total_size l) → link_ok (link_message l).
Proof.
  intros Ht. pose proof (cid_bytes_short (target l)). split; simpl.
  - intros x [= <-]. unfold short, u32_max, umax. lia.
  - intros x [= <-]. done.
  - intros x [= <-]. done.
  - unfold pblink_size, len_size, varint_size, sizeof_len. simpl.
    pose proof (sizeof_varint_max (Z.of_nat (length (cid_to_bytes (target l)))) ltac:(unfold is_u, umax; lia)).
    pose proof (sizeof_varint_max 0 ltac:(unfold is_u, umax; lia)). pose proof (sizeof_varint_max _ Ht). change (Z.of_nat 0) with 0. unfold u32_max, umax. lia.
Qed.

Lemma sum_sizes_le {A} (l : list A) (size : A → Z) m : Forall (λ x, size x <= m) l → sum_sizes l size <= m * Z.of_nat (length l).
Proof. induction 1 as [|x l Hx _ IH]; simpl; [lia|]. rewrite Nat2Z.inj_succ. lia. Qed.

Lemma node_message_ok links :
  Z.of_nat (length links) <= 2 ^ 20 → Forall (λ l, is_u64 (total_size l) ∧ is_u64 (file_size l)) links → is_u64 (nested_size links) →
  flat_ok (node_message links).
Proof.
  intros Hlen Hl Hn. split; simpl.
  - apply Forall_map. eapply Forall_impl; [exact Hl|]. intros l [Ht _]. by apply link_message_ok.
  - assert (Hb : Forall is_u64 (map file_size links)) by (apply Forall_map; eapply Forall_impl; [exact Hl|by intros ? []]).
    split; simpl; try done.
    + by intros x [= <-].
    + unfold unixfs_size. simpl.
      assert (sum_sizes (map file_size links) varint_size <= 11 * Z.of_nat (length (map file_size links))).
      { apply sum_sizes_le. eapply Forall_impl; [exact Hb|]. intros x Hx. unfold varint_size. pose proof (sizeof_varint_max x Hx). lia. }
      rewrite length_map in *. pose proof (sizeof_varint_max 2 ltac:(unfold is_u, umax; lia)). pose proof (sizeof_varint_max _ Hn).
      set (total := sum_sizes _ _) in *. unfold varint_size, u32_max, umax. lia.
Qed.

Lemma leaf_message_ok data : Z.of_nat (length data) <= 2 ^ 31 → flat_ok (leaf_message data).
Proof.
  intros Hd. assert (Hu : is_u64 (Z.of_nat (length data))) by (unfold is_u, umax; lia). split; [constructor|]. split; simpl; try done.
  - intros x Hx. assert (x = data) as -> by (destruct data; by simplify_eq). unfold short, u32_max, umax. lia.
  - by intros x [= <-].
  - unfold unixfs_size. simpl. pose proof (sizeof_varint_max 2 ltac:(unfold is_u, umax; lia)). pose proof (sizeof_varint_max _ Hu).
    assert (opt_size (match data with [] => None | _ => Some data end) len_size <= 11 + Z.of_nat (length data)).
    { destruct data; simpl; [lia|]. unfold len_size, sizeof_len. simpl length in *. lia. }
    unfold varint_size, u32_max, umax. lia.
Qed.

(** Grouping and folding keep what the links stand for, once their blocks are stored. *)
Lemma link_block_denotes store level l cs link b :
  l ≠ [] → Z.of_nat (length l) <= 2 ^ 20 → all_at level l → link_block level l = Some (link, b) → stored store b →
  Forall2 (denotes store) l cs → Z.of_nat (length (mjoin cs)) < 2 ^ 64 → denotes store link (mjoin cs).
Proof.
  intros Hne Hlen Hall Hlb Hst Hd Hlt. pose proof (nested_size_ok _ _ _ Hd Hlt) as Hn. unfold link_block in Hlb.
  destruct (render_and_hash (node_message l) DEFAULT_CID_VERSION) as [[cid vec]|] eqn:Hr; [|done]. simplify_eq.
  assert (vec = write_flat (node_message l)) as -> by (unfold render_and_hash in Hr; destruct (create_cid _ _); by simplify_eq).
  assert (Hsz : Forall (λ x, is_u64 (total_size x) ∧ is_u64 (file_size x)) l).
  { clear - Hd Hlt. induction Hd as [|x c l cs (_ & Hs & Ht) _ IH]; constructor; simpl in *; rewrite length_app in Hlt; [|apply IH; lia].
    split; [done|]. rewrite Hs. unfold is_u, umax. lia. }
  split; [|split; [done|]]; simpl.
  - exists l, cs. split; [done|]. split; [exact Hst|]. split; [apply node_message_ok; [done|done|rewrite Hn; unfold is_u, umax; lia]|].
    split; [done|]. split; [done|]. clear - Hd Hall. induction Hd as [|x c l cs (Htree & Hs & _) _ IH]; [constructor|].
    apply Forall_cons in Hall as [Hx Hall]. constructor; [by rewrite <- Hx|by apply IH].
  - unfold is_u, umax, wrapping_add. pose proof (Z.mod_pos_bound (nested_total_size l + Z.of_nat (length (write_flat (node_message l)))) (2 ^ 64)). lia.
Qed.

(** Pieces that are put together are not shorter than they were. *)
Definition no_shorter (cs cs' : list Bytes) : Prop := ∀ n, Forall (λ c, (n <= length c)%nat) cs → Forall (λ c, (n <= length c)%nat) cs'.

Lemma grouped_denotes store bf level rest nbs cs :
  Z.of_nat bf <= 2 ^ 20 → grouped bf level rest nbs → all_at level rest → Forall (stored store) (map snd nbs) →
  Forall2 (denotes store) rest cs → Z.of_nat (length (mjoin cs)) < 2 ^ 64 →
  ∃ cs', Forall2 (denotes store) (map fst nbs) cs' ∧ mjoin cs' = mjoin cs ∧ no_shorter cs cs'.
Proof.
  intros Hbf Hg. revert cs. induction Hg as [|l rest link b nbs Hne Hle _ Hlb _ IH]; intros cs Hall Hst Hd Hlt.
  - apply Forall2_nil_inv_l in Hd as ->. exists []. split; [constructor|]. split; [done|by intros n].
  - apply Forall2_app_inv_l in Hd as (cs1 & cs2 & Hd1 & Hd2 & ->). apply Forall_app in Hall as [Ha1 Ha2].
    apply Forall_cons in Hst as [Hb Hst]. rewrite join_app, length_app in Hlt.
    destruct (IH cs2) as (cs' & Hd' & Hj & Hsh); [done|done|done|lia|].
    exists (mjoin cs1 :: cs'). split; [constructor; [|done]; eapply link_block_denotes; [done|lia|done|exact Hlb|done|done|lia]|].
    split; [simpl; by rewrite Hj, join_app|]. intros n [Hn1 Hn2]%Forall_app. constructor; [|by apply Hsh].
    destruct Hd1 as [|? ? ? ? _ _]; [done|]. apply Forall_cons in Hn1 as [Hn1 _]. simpl. rewrite length_app. lia.
Qed.

Lemma folded_denotes store bf l l' blocks cs :
  Z.of_nat bf <= 2 ^ 20 → folded bf l l' blocks → Forall (stored store) blocks →
  Forall2 (denotes store) l cs → Z.of_nat (length (mjoin cs)) < 2 ^ 64 →
  ∃ cs', Forall2 (denotes store) l' cs' ∧ mjoin cs' = mjoin cs ∧ no_shorter cs cs'.
Proof.
  intros Hbf Hf. revert cs. induction Hf as [l|level hi rest tl nbs l' blocks Hg Hall _ IH]; intros cs Hst Hd Hlt; [exists cs; split; [done|]; split; [done|by intros n]|].
  apply Forall_app in Hst as [Hst1 Hst2]. apply Forall2_app_inv_l in Hd as (cs1 & cs' & Hd1 & Hd' & ->).
  apply Forall2_app_inv_l in Hd' as (cs2 & cs3 & Hd2 & Hd3 & ->). rewrite !join_app, !length_app in Hlt.
  destruct (grouped_denotes store bf level rest nbs cs2) as (cs2' & Hd2' & Hj & Hsh); [done..|lia|].
  destruct (IH (cs1 ++ cs2' ++ cs3)) as (cs' & Hd' & Hj' & Hsh'); [done| | |].
  - by repeat apply Forall2_app.
  - rewrite !join_app, !length_app, Hj. lia.
  - exists cs'. split; [done|]. split; [by rewrite Hj', !join_app, Hj|]. intros n (Hn1 & (Hn2 & Hn3)%Forall_app)%Forall_app.
    apply Hsh'. repeat (apply Forall_app; split); auto.
Qed.

Lemma file_tree_mono (store store' : Blocks) d cid data :
  (∀ c b, store c b → store' c b) → file_tree d store cid data → file_tree d store' cid data.
Proof.
  intros Hm. revert cid data. induction d as [|d IH]; intros cid data; simpl.
  - intros [Hb Hok]. auto.
  - intros (links & cs & Hne & Hb & Hok & Hn & Hj & Hl). exists links, cs. do 5 (split; [by auto|]).
    eapply Forall2_impl; [exact Hl|]. intros l c [Ht Hs]. auto.
Qed.

Lemma denotes_mono (store store' : Blocks) links cs :
  (∀ c b, store c b → store' c b) → Forall2 (denotes store) links cs → Forall2 (denotes store') links cs.
Proof. intros Hm Hd. eapply Forall2_impl; [exact Hd|]. intros l c (Ht & Hs & Htot). split; [by eapply file_tree_mono|done]. Qed.

(** ** The adder *)

Definition adder_ok (store : Blocks) (a : FileAdder) (pushed : Bytes) : Prop :=
  (2 <= branching_factor a)%nat ∧ Z.of_nat (branching_factor a) <= 2 ^ 20 ∧ (0 < chunker a)%nat ∧ Z.of_nat (chunker a) <= 2 ^ 31 ∧
  (length (block_buffer a) < chunker a)%nat ∧ waiting (branching_factor a) (unflushed_links a) ∧
  (∀ y, unflushed_links a = [y] → file_size y = Z.of_nat (chunker a)) ∧
  ∃ cs, Forall2 (denotes store) (unflushed_links a) cs ∧ mjoin cs ++ block_buffer a = pushed ∧ Forall (λ c, (chunker a <= length c)%nat) cs.

Lemma adder_ok_mono (store store' : Blocks) a pushed :
  (∀ c b, store c b → store' c b) → adder_ok store a pushed → adder_ok store' a pushed.
Proof.
  intros Hm (H1 & H2 & H3 & H4 & H5 & H6 & H7 & cs & Hd & Hj). do 7 (split; [done|]). exists cs. split; [by eapply denotes_mono|done].
Qed.

Lemma create_cid_some b v : ∃ c, create_cid (sha2_256 b) v = Some c ∧ cid_hash c = sha2_256 b ∧ cid_codec c = DAG_PB.
Proof. destruct v; [destruct (cid_v0_ok b) as (c & ? & ? & ? & _); by exists c|]. eexists. split; [done|]. split; [apply cid_v1_hash|apply cid_v1_codec]. Qed.

(** Every block that is emitted has the CID of its bytes. *)
Definition addressed (b : Cid * Bytes) : Prop := cid_hash b.1 = sha2_256 b.2 ∧ cid_codec b.1 = DAG_PB.

Lemma render_addressed flat v c b : render_and_hash flat v = Some (c, b) → addressed (c, b) ∧ b = write_flat flat.
Proof.
  unfold render_and_hash. destruct (create_cid_some (write_flat flat) v) as (c' & -> & Hh & Hc). intros [= <- <-]. done.
Qed.

Lemma folded_addressed bf l l' blocks : folded bf l l' blocks → Forall addressed blocks.
Proof.
  induction 1 as [|level hi rest tl nbs l blocks Hg _ _ IH]; [constructor|]. apply Forall_app. split; [|done].
  clear - Hg CL. induction Hg as [|l rest link b nbs _ _ _ Hlb _ IH]; [constructor|]. constructor; [|done].
  unfold link_block in Hlb. destruct (render_and_hash _ _) as [[c v]|] eqn:Hr; [|done]. simplify_eq. by apply render_addressed in Hr as [? _].
Qed.

(** A leaf that is flushed. *)
Lemma flush_leaf chunk links finishing v :
  chunk ≠ [] ∨ finishing = true ∧ links = [] →
  ∃ b, flush_buffered_leaf chunk links finishing v =
    Ok (Some b, links ++ [mkLink 0 b.1 (Z.of_nat (length b.2)) (Z.of_nat (length chunk))]) ∧
    addressed b ∧ b.2 = write_flat (leaf_message chunk).
Proof.
  intros Hc. unfold flush_buffered_leaf.
  assert (bool_decide (chunk = []) && (negb finishing || negb (bool_decide (links = []))) = false) as ->.
  { destruct Hc as [Hc|[-> ->]]; [by rewrite (bool_decide_eq_false_2 (chunk = []))|]. by rewrite (bool_decide_eq_true_2 (@nil Link = [])), andb_false_r. }
  destruct (render_and_hash (leaf_message chunk) v) as [[c b]|] eqn:Hr.
  - destruct (render_addressed _ _ _ _ Hr) as [Ha Hb]. by exists (c, b).
  - exfalso. unfold render_and_hash in Hr. destruct (create_cid_some (write_flat (leaf_message chunk)) v) as (c' & Hc' & _). by rewrite Hc' in Hr.
Qed.

Lemma leaf_size_u64 chunk : Z.of_nat (length chunk) <= 2 ^ 31 → is_u64 (Z.of_nat (length (write_flat (leaf_message chunk)))).
Proof.
  intros Hc. destruct (leaf_message_ok chunk Hc) as [_ Hd]. pose proof (d_size _ Hd) as Hs. rewrite flat_size_ok. unfold flat_size.
  simpl sum_sizes. pose proof (unixfs_size_ok (f_data (leaf_message chunk))) as Hl. unfold u32_max in Hs.
  assert (Hu : is_u64 (unixfs_size (f_data (leaf_message chunk)))) by (unfold is_u, umax in *; lia).
  pose proof (sizeof_varint_max _ Hu). pose proof (sizeof_varint_ok (unixfs_size (f_data (leaf_message chunk)))).
  unfold sizeof_len, is_u, umax in *. lia.
Qed.

Lemma leaf_denotes (store : Blocks) b chunk :
  Z.of_nat (length chunk) <= 2 ^ 31 → stored store b → b.2 = write_flat (leaf_message chunk) →
  denotes store (mkLink 0 b.1 (Z.of_nat (length b.2)) (Z.of_nat (length chunk))) chunk.
Proof.
  intros Hc Hb Hw. split; simpl; [|split; [done|rewrite Hw; by apply leaf_size_u64]]. rewrite <- Hw. split; [exact Hb|by apply leaf_message_ok].
Qed.

(** A chunk that is ready: the adder emits its leaf, and perhaps a link block. *)
Lemma flush_ready_ok a chunk :
  chunk ≠ [] → (0 < branching_factor a)%nat → waiting (branching_factor a) (unflushed_links a) →
  ∃ blocks links, flush_ready a chunk = Ok (blocks, mkAdder (chunker a) (branching_factor a) [] links (cid_version a)) ∧
    Forall addressed blocks ∧ waiting (branching_factor a) links ∧
    (∀ y, links = [y] → fst <$> last blocks = Some (target y) ∧ file_size y = Z.of_nat (length chunk)) ∧
    ∀ (store : Blocks) cs, Z.of_nat (branching_factor a) <= 2 ^ 20 → Z.of_nat (length chunk) <= 2 ^ 31 →
      Z.of_nat (length (mjoin cs ++ chunk)) < 2 ^ 64 → Forall (stored store) blocks → Forall2 (denotes store) (unflushed_links a) cs →
      ∃ cs', Forall2 (denotes store) links cs' ∧ mjoin cs' = mjoin cs ++ chunk ∧ no_shorter (cs ++ [chunk]) cs'.
Proof.
  intros Hc Hbf Hw. unfold flush_ready. destruct (flush_leaf chunk (unflushed_links a) false (cid_version a)) as (b & -> & Ha & Hb); [by left|].
  destruct (flush_links_pushing (branching_factor a) (unflushed_links a) (mkLink 0 b.1 (Z.of_nat (length b.2)) (Z.of_nat (length chunk))))
    as (links & blocks & -> & Hw' & Hf & Hone); [done..|].
  exists (b :: blocks), links. split; [done|]. split; [constructor; [done|by eapply folded_addressed]|]. split; [done|].
  split; [intros y Hy; destruct (Hone y Hy) as [Hx ->]; rewrite Hy in Hx; by simplify_eq|].
  intros store cs H20 H31 Hlt [Hsb Hst]%Forall_cons Hd.
  destruct (folded_denotes store _ _ _ _ (cs ++ [chunk]) H20 Hf Hst) as (cs' & Hd' & Hj & Hsh).
  - apply Forall2_app; [done|]. constructor; [by apply leaf_denotes|constructor].
  - rewrite join_app. simpl. by rewrite app_nil_r.
  - exists cs'. split; [done|]. split; [|done]. rewrite Hj, join_app. simpl. by rewrite app_nil_r.
Qed.

Lemma accept_spec max input buffered :
  (length buffered < max)%nat →
  accept max input buffered = (take (max - length buffered) input, (max <=? length buffered + length input)%nat).
Proof.
  intros Hb. unfold accept. rewrite Nat.min_comm, take_min_length. f_equal. 
  destruct (max <=? length buffered + length input)%nat eqn:Hm; [apply Nat.leb_le in Hm; apply Nat.leb_le|apply Nat.leb_gt in Hm; apply Nat.leb_gt]; lia.
Qed.

(** [push] takes a part of the input, and the bytes pushed so far are what the links and the buffer hold. *)
Lemma push_ok (store : Blocks) a pushed input :
  adder_ok store a pushed → input ≠ [] → Z.of_nat (length (pushed ++ input)) < 2 ^ 64 →
  ∃ blocks n a', push a input = Ok ((blocks, n), a') ∧ (0 < n <= length input)%nat ∧ Forall addressed blocks ∧
    branching_factor a' = branching_factor a ∧ chunker a' = chunker a ∧
    (∀ y, unflushed_links a' = [y] → fst <$> last blocks = Some (target y) ∨ blocks = [] ∧ unflushed_links a = [y]) ∧
    ∀ store' : Blocks, (∀ c b, store c b → store' c b) → Forall (stored store') blocks → adder_ok store' a' (pushed ++ take n input).
Proof.
  intros (H2 & H20 & Hc & H31 & Hbuf & Hw & Hone & cs & Hd & Hj & Hlen) Hin Hlt. unfold push. rewrite accept_spec by done.
  set (n := (chunker a - length (block_buffer a))%nat). set (taken := take n input).
  assert (Hn : length taken = (n `min` length input)%nat) by (unfold taken; by rewrite length_take).
  assert (0 < length input)%nat by (destruct input; [done|simpl; lia]).
  assert (Htk : take (length taken) input = taken) by (unfold taken; rewrite length_take; apply take_min_length).
  assert (Hbt : block_buffer a = [] → block_buffer a ++ taken = taken) by (by intros ->).
  destruct (chunker a <=? length (block_buffer a) + length input)%nat eqn:Hready.
  - apply Nat.leb_le in Hready.
    destruct (flush_ready_ok a (block_buffer a ++ taken)) as (blocks & links & Hf & Ha & Hw' & Hroot & Hsem); [|lia|done|].
    { intros [_ He]%app_nil. rewrite He in Hn. simpl in Hn. lia. }
    exists blocks, (length taken), (mkAdder (chunker a) (branching_factor a) [] links (cid_version a)).
    split; [|split; [lia|split; [done|split; [done|split; [done|split; [by left; apply Hroot|]]]]]].
    + destruct (decide (block_buffer a = [])) as [He|Hne].
      * rewrite (bool_decide_eq_true_2 _ He). cbn [andb]. rewrite <- (Hbt He). by rewrite Hf.
      * rewrite (bool_decide_eq_false_2 _ Hne). cbn [andb negb]. by rewrite Hf.
    + assert (Hfull : length (block_buffer a ++ taken) = chunker a) by (rewrite length_app; lia).
      intros store' Hm Hst. do 4 (split; [done|]). split; [simpl; lia|]. split; [done|]. split; [intros y Hy; rewrite <- Hfull; by apply Hroot|].
      destruct (Hsem store' cs) as (cs' & Hd' & Hj' & Hsh); [done| | |done|by eapply denotes_mono|].
      * rewrite length_app. lia.
      * rewrite app_assoc, Hj, length_app. rewrite length_app in Hlt. lia.
      * exists cs'. split; [done|]. simpl. rewrite app_nil_r, Hj', app_assoc, Hj. split; [by rewrite Htk|]. apply Hsh, Forall_app. split; [done|].
        repeat constructor. simpl. lia.
  - apply Nat.leb_gt in Hready. rewrite andb_false_r. cbn [negb].
    exists [], (length taken). eexists. split; [done|]. split; [lia|]. split; [constructor|]. split; [done|]. split; [done|]. split; [by right|].
    intros store' Hm _. do 4 (split; [done|]). simpl. split; [rewrite length_app; lia|]. split; [done|]. split; [done|].
    exists cs. split; [by eapply denotes_mono|]. by rewrite app_assoc, Hj, Htk.
Qed.

Lemma folded_root bf l link blocks :
  folded bf l [link] blocks → (blocks = [] ∧ l = [link]) ∨ fst <$> last blocks = Some (target link) ∧ version (target link) = V0.
Proof.
  intros Hf. remember [link] as k eqn:Hk. revert link Hk. induction Hf as [l|level hi rest tl nbs k blocks Hg _ _ IH]; intros link ->; [by left|].
  destruct (IH link eq_refl) as [[-> Hl]|Hlast].
  - rewrite app_nil_r. destruct Hg as [|x rest' lk b nbs Hne _ _ Hlb _]; [by left|]. right.
    simpl in Hl. destruct hi as [|? hi]; [|by destruct hi]. simpl in Hl. injection Hl as -> Hn. destruct nbs as [|]; [|done].
    simpl. unfold link_block in Hlb. destruct (render_and_hash _ _) as [[c v]|] eqn:Hr; [|done]. simplify_eq. split; [done|]. simpl.
    unfold render_and_hash, create_cid, DEFAULT_CID_VERSION in Hr. destruct (cid_v0_ok (write_flat (node_message x))) as (c' & Hc & _ & _ & Hv).
    rewrite Hc in Hr. by simplify_eq.
  - right. destruct Hlast as [Hlast Hv]. split; [|done]. destruct (last blocks) as [z|] eqn:Hz; [|done]. by rewrite last_app, Hz.
Qed.

(** [finish] leaves one link, to all that was pushed; the last block it emits, or the only one emitted
    before, is the root. *)
Lemma finish_ok (store : Blocks) a pushed :
  adder_ok store a pushed → Z.of_nat (length pushed) < 2 ^ 64 →
  ∃ blocks link, finish a = Ok blocks ∧ Forall addressed blocks ∧
    (fst <$> last blocks = Some (target link) ∧ (version (target link) = V0 ∨ (length pushed <= chunker a)%nat) ∨
     blocks = [] ∧ unflushed_links a = [link] ∧ block_buffer a = []) ∧
    ∀ store' : Blocks, (∀ c b, store c b → store' c b) → Forall (stored store') blocks → denotes store' link pushed.
Proof.
  intros (H2 & H20 & Hc & H31 & Hbuf & Hw & _ & cs & Hd & Hj & _) Hlt. unfold finish.
  assert (Hend : ∀ links, links ≠ [] → descending 0 links → ∃ link blocks, flush_links (branching_factor a) links true = Ok ([link], blocks) ∧
    Forall addressed blocks ∧ (blocks = [] ∧ links = [link] ∨ fst <$> last blocks = Some (target link) ∧ version (target link) = V0) ∧
    ∀ (store' : Blocks) cs, Forall (stored store') blocks → Forall2 (denotes store') links cs → mjoin cs = pushed → denotes store' link pushed).
  { intros links Hne Hds. destruct (flush_links_finishing (branching_factor a) links) as (link & blocks & Hf & Hfold); [done..|].
    exists link, blocks. split; [done|]. split; [by eapply folded_addressed|]. split; [by eapply folded_root|].
    intros store' cs0 Hst Hd0 Hj0. destruct (folded_denotes store' _ _ _ _ cs0 H20 Hfold Hst Hd0) as (cs' & Hd' & Hj' & _); [by rewrite Hj0|].
    apply Forall2_cons_inv_l in Hd' as (c & ? & Hl & ->%Forall2_nil_inv_l & ->). rewrite <- Hj0, <- Hj'. simpl. rewrite app_nil_r. exact Hl. }
  destruct (decide (block_buffer a = [])) as [Hb|Hb]; [destruct (decide (unflushed_links a = [])) as [Hu|Hu]|].
  2: { unfold flush_buffered_leaf. rewrite Hb, (bool_decide_eq_true_2 (@nil Z = []) eq_refl), (bool_decide_eq_false_2 _ Hu). cbn [negb orb andb].
       destruct (Hend (unflushed_links a)) as (link & blocks & -> & Ha & Hroot & Hsem); [done|by eapply waiting_descending|].
       exists blocks, link. split; [done|]. split; [done|]. split; [tauto|]. intros store' Hm Hst. rewrite Hb, app_nil_r in Hj.
       apply (Hsem store' cs); [done|exact (denotes_mono store store' _ _ Hm Hd)|done]. }
  all: destruct (flush_leaf (block_buffer a) (unflushed_links a) true (cid_version a)) as (b & -> & Hab & Hbw); [tauto|].
  all: destruct (Hend (unflushed_links a ++ [mkLink 0 b.1 (Z.of_nat (length b.2)) (Z.of_nat (length (block_buffer a)))])) as (link & blocks & -> & Ha & Hroot & Hsem);
    [by intros [_ ?]%app_nil|by apply descending_snoc; [apply (waiting_descending (branching_factor a))|]|].
  all: exists (b :: blocks), link; split; [done|]; split; [by constructor|]; split.
  1, 3: left; destruct Hroot as [[-> Hl]|[Hl Hv]];
    [apply (app_inj_2 _ [] _ [link]) in Hl as [Hu' ?]; [|done]; simplify_eq; split; [done|]; right; rewrite Hu' in Hd; apply Forall2_nil_inv_l in Hd as ->; simpl; lia
    |split; [|by left]; simpl; destruct (last blocks) eqn:Hlb; [|done]; destruct blocks; [done|]; by rewrite last_cons_cons, Hlb].
  all: intros store' Hm [Hsb Hst]%Forall_cons; apply (Hsem store' (cs ++ [block_buffer a])); [done| |by rewrite join_app; simpl; rewrite app_nil_r].
  all: apply Forall2_app; [exact (denotes_mono store store' _ _ Hm Hd)|constructor; [|constructor]]; apply leaf_denotes; [lia|done|done].
Qed.

(** When exactly one chunk was pushed, its block has been emitted already and [finish] emits none. *)
Lemma finish_one_chunk (store : Blocks) a pushed :
  adder_ok store a pushed → length pushed = chunker a → finish a = Ok [].
Proof.
  destruct a as [max bf buffer links v]. intros (_ & _ & Hc & _ & Hbuf & _ & _ & cs & Hd & <- & Hlen) Hl. simpl in *. rewrite length_app in Hl.
  destruct Hd as [|y c links cs Hy Hd]; [simpl in Hl; lia|]. apply Forall_cons in Hlen as [H1 Hlen]. simpl in Hl. rewrite length_app in Hl.
  destruct Hd as [|y2 c2 links cs Hy2 Hd]; [|apply Forall_cons in Hlen as [H2 _]; simpl in Hl; rewrite length_app in Hl; lia].
  assert (buffer = []) as -> by (apply nil_length_inv; simpl in Hl; lia).
  unfold finish, flush_buffered_leaf, flush_links. simpl. by destruct (level_bound [y]).
Qed.

Lemma grouped_one level rest nbs : grouped 1 level rest nbs → length nbs = length rest.
Proof. induction 1 as [|l rest link b nbs Hne Hle _ _ _ IH]; [done|]. rewrite length_app. simpl. destruct l as [|? [|? ?]]; simpl in *; [done|lia|lia]. Qed.

(** A builder accepts any branching factor.  With a factor of one, grouping a level gives as
    many links as there were, so that finishing a file of two or more leaves never ends: whatever the
    number of turns of the loop, it is not done. *)
Theorem branching_one_never_finishes turns level leaves ret :
  all_at level leaves → (2 <= length leaves)%nat → flush_levels turns 1 level true leaves ret = Err OutOfFuel.
Proof.
  revert level leaves ret. induction turns as [|turns IH]; intros level leaves ret Hall Hlen; cbn [flush_levels].
  all: rewrite (proj2 (Nat.eqb_neq (length leaves) 1)) by lia; rewrite andb_false_r; cbn [andb orb].
  1: done.
  destruct (level_finishing 1 level [] leaves ret) as (nbs & p & lo & Hg & Hcut & Heq); [lia|constructor|done|].
  simpl app in *. rewrite Heq. unfold cut in Hcut. rewrite Hcut. apply IH; [by eapply grouped_depth|]. rewrite length_map, (grouped_one _ _ _ Hg). done.
Qed.

End Props.
