(* ===== verification/FileVisit.v ===== *)
(** Reading a file from its tree of blocks ([utils/rust-ipfs/unixfs/src/file.rs], [file/reader.rs],
    [file/visit.rs], and the metadata of [lib.rs]): a depth-first walk that checks each block against the
    range its parent gave it, and cuts the content to the range asked for.

    The cache of a walk only saves allocations and is left out.  A range is the pair of its ends;
    offsets are [u64]s and wrap. *)

From S2P Require Import Prelude Runtime Utf8 IpfsPath UnixfsPb.

Record Metadata := mkMetadata { mode : option Z; mtime : option (Z * Z) }.

Definition metadata_from (data : UnixFs) : Metadata :=
  mkMetadata (u_mode data) ((λ ut, (Seconds ut, default 0 (FractionalNanoseconds ut))) <$> u_mtime data).

Inductive FileError :=
| LinksAndBlocksizesMismatch
| NoLinksNoContent
| NonRootDefinesMetadata (m : Metadata)
| IntermediateNodeWithoutFileSize
| TreeExpandsOnLinks
| TreeOverlapsBetweenLinks
| EarlierLink
| TreeJumpsBetweenLinks
| UnexpectedRawOrFileProperties (hash_type fanout : option Z).

(** [InvalidCid] carries the index, the hash and the name of the link. *)
Inductive FileReadFailed :=
| FileE (e : FileError)
| UnexpectedType (ty : Z)
| ReadE (parsing : bool)
| InvalidCid (nth : nat) (hash name : Bytes).

Definition read_failed_from (e : ParsingFailed) : FileReadFailed :=
  match e with
  | InvalidDagPb => ReadE true
  | InvalidUnixFs _ => ReadE true
  | NoData _ => ReadE false
  end.

Abbreviation Range := (Z * Z)%type.

Inductive Ending := TreeCoverage (cover_end : Z) | Chunk (chunk_end : Z).

Definition check_is_suitable_next (self : Ending) (offset : Z) (next : Range) : option FileError :=
  match self with
  | TreeCoverage cover_end =>
      if (next.1 <=? offset) && (cover_end <? next.2) then Some TreeExpandsOnLinks
      else if (next.1 <? cover_end) && (cover_end <? next.2) then Some TreeOverlapsBetweenLinks
      else if next.1 <? offset then Some EarlierLink
      else None
  | Chunk chunk_end => if negb (next.1 =? chunk_end) then Some TreeJumpsBetweenLinks else None
  end.

Record FileReader := mkReader {
  r_offset : Z;
  r_end : Ending;
  r_links : list PBLink;
  r_data : Bytes;
  r_blocksizes : list Z;
  r_metadata : Metadata;
  r_file_size : Z }.

Record Traversal := mkTraversal { last_ending : Ending; last_offset : Z; t_file_size : Z; t_metadata : Metadata }.

Inductive FileContent := ContentBytes (b : Bytes) | ContentLinks (l : list (PBLink * Range)).

(** [RangeLinks] *)
Fixpoint range_links (base : Z) (zipped : list (PBLink * Z)) : list (PBLink * Range) :=
  match zipped with
  | [] => []
  | (link, blocksize) :: rest =>
      let next := wrapping_add 64 base blocksize in
      (link, (base, next)) :: range_links next rest
  end.

Definition is_file_or_raw (ty : UnixFsType.t) : bool :=
  bool_decide (ty = UnixFsType.File) || bool_decide (ty = UnixFsType.Raw).

(** The last [unwrap] of the code panics on a block without a file size. *)
Definition from_parts (inner : FlatUnixFs) (offset : Z) (metadata : Metadata) : outcome FileReadFailed FileReader :=
  let d := f_data inner in
  let empty_or_no_content := match u_data d with Some b => bool_decide (b = []) | None => true end in
  let is_zero_bytes := default 0 (u_filesize d) =? 0 in
  if negb (is_file_or_raw (u_type d)) then Err (UnexpectedType (UnixFsType.to_i32 (u_type d)))
  else if negb (Nat.eqb (length (f_links inner)) (length (u_blocksizes d))) then Err (FileE LinksAndBlocksizesMismatch)
  else if empty_or_no_content && negb is_zero_bytes && bool_decide (f_links inner = []) then Err (FileE NoLinksNoContent)
  else
    let data := default [] (u_data d) in
    if bool_decide (is_Some (u_hashType d)) || bool_decide (is_Some (u_fanout d)) then
      Err (FileE (UnexpectedRawOrFileProperties (u_hashType d) (u_fanout d)))
    else
      let ending :=
        match f_links inner with
        | [] => Some (Chunk (wrapping_add 64 offset (default (Z.of_nat (length data)) (u_filesize d))))
        | _ => match u_filesize d with Some filesize => Some (TreeCoverage (wrapping_add 64 offset filesize)) | None => None end
        end in
      match ending with
      | None => Err (FileE IntermediateNodeWithoutFileSize)
      | Some ending =>
          match u_filesize d with
          | None => Panic
          | Some file_size => Ok (mkReader offset ending (f_links inner) data (u_blocksizes d) metadata file_size)
          end
      end.

Definition content (self : FileReader) : FileContent * Traversal :=
  (match r_links self with
   | [] => ContentBytes (r_data self)
   | _ => ContentLinks (range_links (r_offset self) (zip (r_links self) (r_blocksizes self)))
   end,
   mkTraversal (r_end self) (r_offset self) (r_file_size self) (r_metadata self)).

Section Visit.
Context `{Wire} `{RustIpfs}.

Definition from_block (data : Bytes) : outcome FileReadFailed FileReader :=
  match flat_try_from data with
  | inr e => Err (read_failed_from e)
  | inl inner => from_parts inner 0 (metadata_from (f_data inner))
  end.

Definition from_continued (traversal : Traversal) (offset : Z) (data : Bytes) : outcome FileReadFailed FileReader :=
  match flat_try_from data with
  | inr e => Err (read_failed_from e)
  | inl inner =>
      if bool_decide (is_Some (u_mode (f_data inner))) || bool_decide (is_Some (u_mtime (f_data inner)))
      then Err (FileE (NonRootDefinesMetadata (metadata_from (f_data inner))))
      else from_parts inner offset (t_metadata traversal)
  end.

(** [Traversal::continue_walk] *)
Definition traversal_continue (self : Traversal) (next_block : Bytes) (tree_range : Range) : outcome FileReadFailed FileReader :=
  match check_is_suitable_next (last_ending self) (last_offset self) tree_range with
  | Some e => Err (FileE e)
  | None => from_continued self tree_range.1 next_block
  end.

(** *** Target ranges *)

Definition block_is_in_target_range (block : Range) (target : option Range) : bool :=
  match target with
  | Some target => (block.1 `max` target.1 <=? block.2 `min` target.2)
  | None => true
  end.

(** [None] is a slice out of range. *)
Definition slice (content : Bytes) (from to : Z) : option Bytes :=
  if (from <=? to) && (to <=? Z.of_nat (length content)) then Some (drop (Z.to_nat from) (take (Z.to_nat to) content)) else None.

Definition target_slice (content : Bytes) (block target : Range) : option Bytes :=
  if negb (block_is_in_target_range block (Some target)) then Some []
  else
    let '(from, to) :=
      if target.1 <? block.1 then (0, (target.2 `min` block.2) - block.1)
      else if block.2 <? target.2 then (target.1 - block.1, (target.2 `min` block.2) - block.1)
      else (target.1 - block.1, target.1 - block.1 + (target.2 - target.1)) in
    slice content from to.

Definition maybe_target_slice (content : Bytes) (block : Range) (target : option Range) : option Bytes :=
  match target with
  | Some target => target_slice content block target
  | None => Some content
  end.

(** *** The visit *)

(** [pending] has the next block last. *)
Record FileVisit := mkVisit { pending : list (Cid * Range); v_range : option Range; v_state : Traversal }.

Definition to_pending (nth : nat) (link : PBLink) (range : Range) : (Cid * Range) + FileReadFailed :=
  match cid_try_from (default [] (Hash link)) with
  | Some cid => inl (cid, range)
  | None => inr (InvalidCid nth (default [] (Hash link)) (default [] (Name link)))
  end.

(** The links of interest, with their CIDs; the first that is not a CID ends the walk. *)
Fixpoint pending_of (nth : nat) (links : list (PBLink * Range)) (target : option Range) : list (Cid * Range) + FileReadFailed :=
  match links with
  | [] => inl []
  | (link, range) :: rest =>
      if negb (block_is_in_target_range range target) then pending_of (S nth) rest target else
      match to_pending nth link range with
      | inr e => inr e
      | inl item => match pending_of (S nth) rest target with inl l => inl (item :: l) | inr e => inr e end
      end
  end.

(** [IdleFileVisit::start]: the first bytes, the file size, the metadata and the visit that is left. *)
Definition start (range : option Range) (block : Bytes) : outcome FileReadFailed (Bytes * Z * Metadata * option FileVisit) :=
  match from_block block with
  | Err e => Err e
  | Panic => Panic
  | Ok fr =>
      let metadata := r_metadata fr in
      let '(content, traversal) := content fr in
      match content with
      | ContentBytes content =>
          match maybe_target_slice content (0, Z.of_nat (length content)) range with
          | Some content => Ok (content, t_file_size traversal, metadata, None)
          | None => Panic
          end
      | ContentLinks iter =>
          match pending_of 0 iter range with
          | inr e => Err e
          | inl [] => Ok ([], t_file_size traversal, metadata, None)
          | inl links => Ok ([], t_file_size traversal, metadata, Some (mkVisit (reverse links) range traversal))
          end
      end
  end.

(** [None] is the [expect] on an empty visit. *)
Definition pending_link (self : FileVisit) : option Cid := fst <$> last (pending self).

(** [FileVisit::continue_walk] *)
Definition continue_walk (self : FileVisit) (next : Bytes) : outcome FileReadFailed (Bytes * option FileVisit) :=
  match last (pending self) with
  | None => Panic
  | Some (_, range) =>
      let rest := removelast (pending self) in
      match traversal_continue (v_state self) next range with
      | Err e => Err e
      | Panic => Panic
      | Ok fr =>
          let '(content, traversal) := content fr in
          match content with
          | ContentBytes content =>
              match maybe_target_slice content range (v_range self) with
              | None => Panic
              | Some content =>
                  Ok (content, match rest with [] => None | _ => Some (mkVisit rest (v_range self) traversal) end)
              end
          | ContentLinks iter =>
              match pending_of 0 iter (v_range self) with
              | inr e => Err e
              | inl links => Ok ([], Some (mkVisit (rest ++ reverse links) (v_range self) traversal))
              end
          end
      end
  end.

End Visit.
