(* ===== verification/FileVisitProps.v ===== *)
(** Walking the tree of a file: the walk ends, and the bytes it yields are the bytes of the file in
    the range asked for. *)

From S2P Require Import Prelude Runtime Utf8 IpfsPath UnixfsPb FileAdder FileAdderProps FileVisit.

(** ** The part of a file in a range *)

(** The bytes of [c], which starts at [s], that are in [t]. *)
Definition part (t : option Range) (s : Z) (c : Bytes) : Bytes :=
  match t with
  | None => c
  | Some (t0, t1) => drop (Z.to_nat (t0 - s)) (take (Z.to_nat (t1 - s)) c)
  end.

Abbreviation ends c s := (s + Z.of_nat (length c)).

Lemma part_app t s a b : part t s (a ++ b) = part t s a ++ part t (ends a s) b.
Proof.
  destruct t as [[t0 t1]|]; [|done]. simpl. rewrite take_app, drop_app, length_take. f_equal.
  replace (Z.to_nat (t1 - ends a s)) with (Z.to_nat (t1 - s) - length a)%nat by lia.
  destruct (Nat.le_gt_cases (length a) (Z.to_nat (t1 - s))).
  - f_equal. lia.
  - replace (Z.to_nat (t1 - s) - length a)%nat with 0%nat by lia. by rewrite take_0, !drop_nil.
Qed.

Lemma in_range_bounds s e t0 t1 :
  block_is_in_target_range (s, e) (Some (t0, t1)) = true ↔ s <= e ∧ t0 <= t1 ∧ s <= t1 ∧ t0 <= e.
Proof. unfold block_is_in_target_range. simpl. rewrite Z.leb_le. lia. Qed.

Lemma part_outside t s c : block_is_in_target_range (s, ends c s) t = false → part t s c = [].
Proof.
  destruct t as [[t0 t1]|]; [|done]. intros Ht. apply drop_ge. rewrite length_take.
  assert (¬ (s <= ends c s ∧ t0 <= t1 ∧ s <= t1 ∧ t0 <= ends c s)) by (rewrite <- in_range_bounds; by rewrite Ht). lia.
Qed.

(** [target_slice] is in bounds and is the part of the block in the range. *)
Lemma target_slice_part c s t : maybe_target_slice c (s, ends c s) t = Some (part t s c).
Proof.
  destruct t as [[t0 t1]|]; [|done]. unfold maybe_target_slice, target_slice.
  destruct (block_is_in_target_range _ _) eqn:Hin; cbn [negb]; [|by rewrite part_outside].
  apply in_range_bounds in Hin as (Hse & Htt & Hs1 & H0e). simpl.
  assert (Hcut : ∀ from to, from = Z.max 0 (t0 - s) → to = Z.min (t1 - s) (Z.of_nat (length c)) →
    slice c from to = Some (drop (Z.to_nat (t0 - s)) (take (Z.to_nat (t1 - s)) c))).
  { intros from to -> ->. unfold slice. rewrite (proj2 (Z.leb_le _ _)) by lia. rewrite (proj2 (Z.leb_le _ _)) by lia. cbn [andb].
    replace (Z.to_nat (Z.max 0 (t0 - s))) with (Z.to_nat (t0 - s)) by lia.
    replace (Z.to_nat (Z.min (t1 - s) (Z.of_nat (length c)))) with (Z.to_nat (t1 - s) `min` length c)%nat by lia. by rewrite take_min_length. }
  destruct (t0 <? s) eqn:H1; [apply Z.ltb_lt in H1|apply Z.ltb_ge in H1; destruct (ends c s <? t1) eqn:H2; [apply Z.ltb_lt in H2|apply Z.ltb_ge in H2]];
    apply Hcut; lia.
Qed.

Section Props.
Context {W : Wire} {WL : WireLaws W} {R : RustIpfs} {C : ContentHash} {CL : ContentHashLaws C}.
Context (get : Cid → option Bytes) (store : Cid → Bytes → Prop) (Hget : ∀ c b, store c b → get c = Some b).

(** A walk that is given the blocks it asks for, and the bytes of each step. *)
Inductive walks : option FileVisit → list Bytes → option FileVisit → Prop :=
| walks_refl v : walks v [] v
| walks_step v cid data bytes v' out v'' :
    pending_link v = Some cid → get cid = Some data → continue_walk v data = Ok (bytes, v') →
    walks v' out v'' → walks (Some v) (bytes :: out) v''.

Lemma walks_app u v w o o' : walks u o v → walks v o' w → walks u (o ++ o') w.
Proof. induction 1; [done|]. intros Hw. simpl. econstructor; eauto. Qed.

(** ** The blocks of the adder as the walk reads them *)

Lemma leaf_reader offset md c :
  from_parts (leaf_message c) offset md =
  Ok (mkReader offset (Chunk (wrapping_add 64 offset (Z.of_nat (length c)))) [] c [] md (Z.of_nat (length c))).
Proof. destruct c as [|x c]; [done|]. unfold from_parts. simpl. done. Qed.

Lemma node_reader offset md links :
  links ≠ [] →
  from_parts (node_message links) offset md =
  Ok (mkReader offset (TreeCoverage (wrapping_add 64 offset (nested_size links))) (map link_message links) [] (map file_size links) md (nested_size links)).
Proof.
  intros Hne. unfold from_parts. simpl. rewrite !length_map, Nat.eqb_refl. cbn [negb].
  destruct links as [|l links]; [done|]. simpl map. rewrite (bool_decide_eq_false_2 (link_message l :: _ = [])) by done. by rewrite andb_false_r.
Qed.

(** The links of a block, with their ranges. *)
Fixpoint tiles (s : Z) (links : list Link) : list (Cid * Range) :=
  match links with
  | [] => []
  | l :: rest => (target l, (s, s + file_size l)) :: tiles (s + file_size l) rest
  end.

Definition wanted (t : option Range) (item : Cid * Range) : Prop := block_is_in_target_range item.2 t = true.
#[local] Instance wanted_dec t item : Decision (wanted t item) := decide (_ = true).

Lemma pending_tiles t links nth s :
  0 <= s → Forall (λ l, 0 <= file_size l) links → s + sum_sizes links file_size < 2 ^ 64 →
  pending_of nth (range_links s (zip (map link_message links) (map file_size links))) t = inl (filter (wanted t) (tiles s links)).
Proof.
  revert nth s. induction links as [|l links IH]; intros nth s Hs Hp Hlt; [done|]. apply Forall_cons in Hp as [Hl Hp]. simpl in Hlt.
  assert (0 <= sum_sizes links file_size) by (clear - Hp; induction Hp; simpl in *; lia).
  cbn [map zip zip_with range_links pending_of tiles]. rewrite wrapping_add_id by (unfold umax; lia).
  rewrite IH by (done || lia). unfold to_pending. simpl. rewrite cid_bytes_parse.
  rewrite filter_cons. destruct (decide (wanted _ _)) as [Hw|Hw]; unfold wanted in Hw; simpl in Hw; [by rewrite Hw|].
  by destruct (block_is_in_target_range _ t).
Qed.

(** ** Ranges that follow each other *)

Definition reaches (t : option Range) (e : Z) : Prop := match t with None => True | Some (_, t1) => e <= t1 end.

Lemma tiles_first_wanted t s l links :
  Forall (λ l, 0 <= file_size l) links → wanted t (target l, (s, s + file_size l)) → filter (wanted t) (tiles (s + file_size l) links) ≠ [] →
  reaches t (s + file_size l) ∧
  ∃ l2 links2, links = l2 :: links2 ∧ wanted t (target l2, (s + file_size l, s + file_size l + file_size l2)).
Proof.
  destruct t as [[t0 t1]|]; [|intros _ _ Hf; split; [done|]; destruct links as [|l2 links2]; [done|]; by exists l2, links2].
  unfold wanted at 1. cbn [snd]. rewrite in_range_bounds. intros Hp (Hse & Htt & Hs1 & H0e) Hf.
  assert (Hj : ∀ s', s + file_size l <= s' → filter (wanted (Some (t0, t1))) (tiles s' links) ≠ [] → s' <= t1).
  { clear Hf. induction Hp as [|l2 links Hl2 Hp IH]; intros s' Hs' Hf; [done|]. cbn [tiles] in Hf. rewrite filter_cons in Hf.
    destruct (decide (wanted _ _)) as [Hw|Hw]; [unfold wanted in Hw; cbn [snd] in Hw; apply in_range_bounds in Hw; lia|].
    pose proof (IH (s' + file_size l2) ltac:(lia) Hf). lia. }
  pose proof (Hj (s + file_size l) ltac:(lia) Hf). split; [done|]. destruct links as [|l2 links]; [done|]. exists l2, links. split; [done|].
  apply Forall_cons in Hp as [Hl2 _]. unfold wanted. cbn [snd]. apply in_range_bounds. lia.
Qed.

(** Some child of a block in the range is in the range, and the last one when the range goes on. *)
Lemma tiles_wanted t s links :
  links ≠ [] → Forall (λ l, 0 <= file_size l) links → block_is_in_target_range (s, s + sum_sizes links file_size) t = true →
  filter (wanted t) (tiles s links) ≠ [].
Proof.
  destruct t as [[t0 t1]|]; [|by destruct links]. intros Hne Hp. rewrite in_range_bounds. intros (Hse & Htt & Hs1 & H0e).
  revert s Hse Hs1 H0e. induction Hp as [|l links Hl Hp IH]; intros s Hse Hs1 H0e; [done|]. cbn [tiles]. rewrite filter_cons. simpl in *.
  destruct (decide (wanted _ _)) as [Hw|Hw]; [done|]. unfold wanted in Hw. cbn [snd] in Hw. rewrite in_range_bounds in Hw.
  assert (0 <= sum_sizes links file_size) by (clear - Hp; induction Hp; simpl in *; lia).
  destruct links as [|l2 links]; [simpl in *; lia|]. apply IH; [done|lia..].
Qed.

(** ** The walk *)

Definition suits (st : Traversal) (r : Range) : Prop := check_is_suitable_next (last_ending st) (last_offset st) r = None.

Lemma suits_chunk st s e : last_ending st = Chunk s → suits st (s, e).
Proof. unfold suits. intros ->. simpl. by rewrite Z.eqb_refl. Qed.

Lemma suits_cover st s e s' e' : last_ending st = TreeCoverage e → last_offset st = s → s <= s' → e' <= e → suits st (s', e').
Proof.
  unfold suits. intros -> -> Hs He. simpl. rewrite (proj2 (Z.ltb_ge e e')) by done. rewrite !andb_false_r. by rewrite (proj2 (Z.ltb_ge _ _)) by done.
Qed.

(** What is left when the items on top of [rest] are done. *)
Definition left_over (rest : list (Cid * Range)) (t : option Range) (st : Traversal) : option FileVisit :=
  match rest with [] => None | _ => Some (mkVisit rest t st) end.

Lemma leaf_step rest t st cid c s :
  store cid (write_flat (leaf_message c)) → flat_ok (leaf_message c) → 0 <= s → ends c s < 2 ^ 64 → suits st (s, ends c s) →
  ∃ st', walks (Some (mkVisit (rest ++ [(cid, (s, ends c s))]) t st)) [part t s c] (left_over rest t st') ∧ last_ending st' = Chunk (ends c s).
Proof.
  intros Hst Hok Hs Hlt Hsuit. exists (mkTraversal (Chunk (ends c s)) s (Z.of_nat (length c)) (t_metadata st)). split; [|done].
  eapply walks_step; [unfold pending_link; simpl; by rewrite last_snoc|by apply Hget| |constructor].
  unfold continue_walk. simpl. rewrite last_snoc, removelast_last. unfold traversal_continue. rewrite Hsuit.
  unfold from_continued. rewrite flat_reads_back by done. simpl. rewrite leaf_reader. simpl.
  rewrite wrapping_add_id by (unfold umax; lia). rewrite target_slice_part. done.
Qed.

Lemma node_step rest t st cid links s :
  store cid (write_flat (node_message links)) → flat_ok (node_message links) → links ≠ [] → 0 <= s →
  Forall (λ l, 0 <= file_size l) links → s + sum_sizes links file_size < 2 ^ 64 → nested_size links = sum_sizes links file_size →
  suits st (s, s + sum_sizes links file_size) →
  ∃ st', walks (Some (mkVisit (rest ++ [(cid, (s, s + sum_sizes links file_size))]) t st)) [[]]
               (Some (mkVisit (rest ++ reverse (filter (wanted t) (tiles s links))) t st')) ∧
    last_ending st' = TreeCoverage (s + sum_sizes links file_size) ∧ last_offset st' = s.
Proof.
  intros Hst Hok Hne Hs Hp Hlt Hn Hsuit.
  exists (mkTraversal (TreeCoverage (s + sum_sizes links file_size)) s (sum_sizes links file_size) (t_metadata st)). split; [|done].
  eapply walks_step; [unfold pending_link; simpl; by rewrite last_snoc|by apply Hget| |constructor].
  assert (0 <= sum_sizes links file_size) by (clear - Hp; induction Hp; simpl in *; lia).
  unfold continue_walk. simpl. rewrite last_snoc, removelast_last. unfold traversal_continue. rewrite Hsuit.
  unfold from_continued. rewrite flat_reads_back by done. simpl. rewrite node_reader by done. rewrite !Hn.
  rewrite wrapping_add_id by (unfold umax; lia). unfold content. simpl.
  destruct (map link_message links) eqn:Hm; [by destruct links|]. rewrite <- Hm. rewrite pending_tiles by done. done.
Qed.

(** Sizes of links that stand for contents. *)
Lemma sizes_sum links cs (P : Link → Bytes → Prop) :
  Forall2 (λ l c, P l c ∧ file_size l = Z.of_nat (length c)) links cs →
  Forall (λ l, 0 <= file_size l) links ∧ sum_sizes links file_size = Z.of_nat (length (mjoin cs)).
Proof. induction 1 as [|l c links cs [_ Hs] _ [IH1 IH2]]; [split; [constructor|done]|]. split; [constructor; [lia|done]|]. simpl. rewrite length_app. lia. Qed.

(** One item of the stack, with all that is under it. *)
Definition item_walks (d : nat) : Prop :=
  ∀ rest t st cid c s, file_tree d store cid c → 0 <= s → ends c s < 2 ^ 64 → wanted t (cid, (s, ends c s)) → suits st (s, ends c s) →
  ∃ out st', walks (Some (mkVisit (rest ++ [(cid, (s, ends c s))]) t st)) out (left_over rest t st') ∧
    mjoin out = part t s c ∧ (reaches t (ends c s) → last_ending st' = Chunk (ends c s)).

Lemma tiles_none t s links cs d :
  Forall2 (λ l c, file_tree d store (target l) c ∧ file_size l = Z.of_nat (length c)) links cs →
  filter (wanted t) (tiles s links) = [] → part t s (mjoin cs) = [].
Proof.
  intros Hl. revert s. induction Hl as [|l c links cs [_ Hs] _ IH]; intros s Hf; [destruct t as [[t0 t1]|]; [|done]; simpl; by rewrite take_nil, drop_nil|].
  cbn [tiles] in Hf. rewrite filter_cons in Hf. destruct (decide (wanted _ _)) as [|Hw]; [done|]. simpl. rewrite part_app, part_outside.
  - simpl. rewrite <- Hs. by apply IH.
  - rewrite <- Hs. unfold wanted in Hw. simpl in Hw. by destruct (block_is_in_target_range _ _).
Qed.

Lemma items_walk d t links cs :
  item_walks d → Forall2 (λ l c, file_tree d store (target l) c ∧ file_size l = Z.of_nat (length c)) links cs →
  ∀ rest st s, 0 <= s → ends (mjoin cs) s < 2 ^ 64 → filter (wanted t) (tiles s links) ≠ [] →
    (∀ i its, filter (wanted t) (tiles s links) = i :: its → suits st i.2) →
  ∃ out st', walks (Some (mkVisit (rest ++ reverse (filter (wanted t) (tiles s links))) t st)) out (left_over rest t st') ∧
    mjoin out = part t s (mjoin cs) ∧ (reaches t (ends (mjoin cs) s) → last_ending st' = Chunk (ends (mjoin cs) s)).
Proof.
  intros Hitem Hl. induction Hl as [|l c links cs [Htree Hs] Hl IH]; intros rest st s Hs0 Hlt Hne Hsuit; [done|].
  simpl in Hlt. rewrite length_app in Hlt. cbn [tiles] in *. rewrite filter_cons in *. simpl mjoin. rewrite part_app, length_app.
  replace (s + Z.of_nat (length c + length (mjoin cs))) with (ends (mjoin cs) (ends c s)) by lia.
  destruct (sizes_sum _ _ _ Hl) as [Hp _]. rewrite Hs in *.
  destruct (decide (wanted t (target l, (s, ends c s)))) as [Hw|Hw].
  - rewrite reverse_cons, app_assoc.
    destruct (Hitem (rest ++ reverse (filter (wanted t) (tiles (ends c s) links))) t st (target l) c s) as (out & st' & Hwalk & Hj & Hend);
      [done|done|lia|done|by eapply (Hsuit _ _ eq_refl)|].
    destruct (decide (filter (wanted t) (tiles (ends c s) links) = [])) as [Hnil|Hcons].
    + rewrite Hnil, reverse_nil, app_nil_r in *. exists out, st'. split; [done|]. rewrite (tiles_none t _ _ _ _ Hl Hnil), app_nil_r. split; [done|].
      intros Hr. clear - Hl Hnil Hr Hend Hw Hs.
      assert (links = []) as ->.
      { destruct links as [|l2 links]; [done|]. exfalso. destruct (sizes_sum _ _ _ Hl) as [Hp Hsum].
        apply (tiles_wanted t (ends c s) (l2 :: links)); [done|done| |done]. rewrite Hsum. unfold wanted in Hw. simpl in Hw.
        destruct t as [[t0 t1]|]; [|done]. apply in_range_bounds in Hw. apply in_range_bounds. simpl in Hr. lia. }
      apply Forall2_nil_inv_l in Hl as ->. simpl in *. rewrite Z.add_0_r in *. by apply Hend.
    + destruct (tiles_first_wanted t s l links) as (Hreach & l2 & links2 & Hlk & Hw2); [done|by rewrite Hs|by rewrite Hs|].
      rewrite Hs in *. specialize (Hend Hreach).
      destruct (IH rest st' (ends c s)) as (out' & st'' & Hwalk' & Hj' & Hend'); [lia|lia|done| |].
      { intros i its. rewrite Hlk. cbn [tiles]. rewrite filter_cons, decide_True by done. intros [= <- _]. by apply suits_chunk. }
      exists (out ++ out'), st''. split; [|split; [by rewrite join_app, Hj, Hj'|done]].
      eapply walks_app; [exact Hwalk|]. unfold left_over. 
      destruct (rest ++ reverse (filter (wanted t) (tiles (ends c s) links))) eqn:Hr; [|done].
      apply app_nil in Hr as [_ Hr]. destruct Hcons. rewrite <- (reverse_involutive (filter _ _)), Hr. done.
  - destruct (IH rest st (ends c s)) as (out & st' & Hwalk & Hj & Hend); [lia|lia|done|done|].
    exists out, st'. split; [done|]. split; [|done]. rewrite (part_outside t s c); [done|]. unfold wanted in Hw. simpl in Hw. by destruct (block_is_in_target_range _ _).
Qed.

Lemma tiles_bounds links s :
  Forall (λ l, 0 <= file_size l) links → Forall (λ i, s <= i.2.1 ∧ i.2.2 <= s + sum_sizes links file_size) (tiles s links).
Proof.
  intros Hp. revert s. induction Hp as [|l links Hl Hp IH]; intros s; [constructor|].
  assert (0 <= sum_sizes links file_size) by (clear - Hp; induction Hp; simpl in *; lia).
  constructor; simpl; [lia|]. eapply Forall_impl; [apply IH|]. simpl. lia.
Qed.

Lemma covered_suits t st s links i its :
  Forall (λ l, 0 <= file_size l) links → last_ending st = TreeCoverage (s + sum_sizes links file_size) → last_offset st = s →
  filter (wanted t) (tiles s links) = i :: its → suits st i.2.
Proof.
  intros Hp Hend Hoff Hi. assert (Hin : i ∈ tiles s links) by (eapply (list_elem_of_filter (wanted t)); rewrite Hi; left).
  pose proof (tiles_bounds links s Hp) as Hb. rewrite Forall_forall in Hb. destruct (Hb i Hin). destruct i as [ci [s' e']]. by eapply suits_cover.
Qed.

Lemma walk_item d : item_walks d.
Proof.
  induction d as [|d IH]; intros rest t st cid c s Htree Hs Hlt Hw Hsuit; simpl in Htree.
  - destruct Htree as [Hst Hok]. destruct (leaf_step rest t st cid c s) as (st' & Hwalk & Hend); [done..|].
    exists [part t s c], st'. split; [done|]. simpl. by rewrite app_nil_r.
  - destruct Htree as (links & cs & Hne & Hst & Hok & Hn & -> & Hl). destruct (sizes_sum _ _ _ Hl) as [Hp Hsum].
    rewrite <- Hsum in *. destruct (node_step rest t st cid links s) as (st' & Hwalk & Hend & Hoff); [done..|].
    destruct (items_walk d t links cs IH Hl rest st' s) as (out & st'' & Hwalk' & Hj & Hend'); [done|by rewrite <- Hsum|by apply tiles_wanted| |].
    { intros i its Hi. by eapply covered_suits. }
    exists ([[]] ++ out), st''. split; [by eapply walks_app|]. rewrite Hsum. done.
Qed.

(** The whole walk of a tree. *)
Lemma start_walk d cid c t :
  file_tree d store cid c → Z.of_nat (length c) < 2 ^ 64 →
  ∃ block bytes md v out, store cid block ∧ start t block = Ok (bytes, Z.of_nat (length c), md, v) ∧ walks v out None ∧ bytes ++ mjoin out = part t 0 c.
Proof.
  intros Htree Hlt. destruct d as [|d]; simpl in Htree.
  - destruct Htree as [Hst Hok]. exists (write_flat (leaf_message c)), (part t 0 c), (mkMetadata None None), None, [].
    split; [done|]. split; [|split; [constructor|by rewrite app_nil_r]]. unfold start, from_block. rewrite flat_reads_back by done.
    rewrite leaf_reader. simpl. change (0, Z.of_nat (length c)) with (0, ends c 0). by rewrite target_slice_part.
  - destruct Htree as (links & cs & Hne & Hst & Hok & Hn & -> & Hl). destruct (sizes_sum _ _ _ Hl) as [Hp Hsum].
    set (st := mkTraversal (TreeCoverage (sum_sizes links file_size)) 0 (sum_sizes links file_size) (mkMetadata None None)).
    assert (Hstart : start t (write_flat (node_message links)) =
      Ok ([], sum_sizes links file_size, mkMetadata None None,
          match filter (wanted t) (tiles 0 links) with [] => None | l => Some (mkVisit (reverse l) t st) end)).
    { unfold start, from_block. rewrite flat_reads_back by done. rewrite node_reader by done. rewrite Hn, <- Hsum.
      rewrite wrapping_add_id by (unfold umax; lia). unfold content. simpl r_links.
      destruct (map link_message links) eqn:Hm; [by destruct links|]. rewrite <- Hm. simpl. rewrite pending_tiles by (done || lia).
      by destruct (filter (wanted t) (tiles 0 links)). }
    exists (write_flat (node_message links)), []. rewrite Hstart, <- Hsum. exists (mkMetadata None None).
    destruct (decide (filter (wanted t) (tiles 0 links) = [])) as [Hnil|Hcons].
    + exists None, []. split; [done|]. rewrite Hnil. split; [done|]. split; [constructor|]. simpl. symmetry. by eapply tiles_none.
    + destruct (items_walk d t links cs (walk_item d) Hl [] st 0) as (out & st' & Hwalk & Hj & _); [done|lia|done| |].
      { intros i its Hi. by apply (covered_suits t st 0 links i its). }
      eexists _, out. split; [done|]. split; [done|]. split; [|done]. by destruct (filter (wanted t) (tiles 0 links)).
Qed.

End Props.
