(* ===== verification/UnixfsDir.v ===== *)
(** Finding a name in a directory block ([utils/rust-ipfs/unixfs/src/dir.rs], [dir/directory.rs] and
    [dir/sharded_lookup.rs]): plain directories, dag-pb nodes without UnixFS data, and sharded ones, whose
    buckets are other blocks that the caller loads.

    The cache that is handed through only saves allocations and is left out; an error of the wire
    format is an error without its cause. *)

From S2P Require Import Prelude Runtime Utf8 IpfsPath UnixfsPb.

Section Dir.
Context `{Wire} `{RustIpfs}.

Record InvalidCidInLink := mkInvalid { nth_link : nat; bad_hash : Bytes; link_name : Bytes }.

Inductive MultipleMatchingLinks :=
| Two (first second : nat * Cid)
| OneValid (first : nat * Cid) (second : InvalidCidInLink).

Inductive ShardError :=
| UnsupportedProperties (hash_type fanout : option Z)
| UnexpectedProperties (filesize : option Z) (blocksizes : list Z).

Inductive LookupError :=
| Multiple (m : MultipleMatchingLinks)
| InvalidLink (e : InvalidCidInLink)
| UnexpectedBucketType (ty : Z)
| Shard (e : ShardError)
| LookupRead (parsing : bool).

Record UnexpectedDirectoryProperties := mkUnexpectedDir {
  ud_filesize : option Z;
  ud_blocksizes : list Z;
  ud_hash_type : option Z;
  ud_fanout : option Z;
  ud_data : option Bytes }.

Inductive DirError :=
| UnexpectedNode (ty : Z)
| UnexpectedDirProperties (e : UnexpectedDirectoryProperties)
| DirRead
| Lookup (e : LookupError).

(** The work queue of buckets and the name that is looked for. *)
Record ShardedLookup := mkLookup { lookup_links : list Cid; needle : Bytes }.

Inductive MaybeResolved := Found (c : Cid) | NeedToLoadMore (l : ShardedLookup) | NameNotFound.

Definition check_directory_supported (flat : FlatUnixFs) : FlatUnixFs + UnexpectedDirectoryProperties :=
  let d := f_data flat in
  if bool_decide (is_Some (u_filesize d)) || negb (bool_decide (u_blocksizes d = [])) || bool_decide (is_Some (u_hashType d))
     || bool_decide (is_Some (u_fanout d)) || negb (bool_decide (default [] (u_data d) = []))
  then inr (mkUnexpectedDir (u_filesize d) (u_blocksizes d) (u_hashType d) (u_fanout d) (u_data d))
  else inl flat.

Definition try_convert_cid (nth : nat) (link : PBLink) : Cid + InvalidCidInLink :=
  match cid_try_from (default [] (Hash link)) with
  | Some c => inl c
  | None => inr (mkInvalid nth (default [] (Hash link)) (default [] (Name link)))
  end.

Definition multiple_from (first : nat * Cid) (second : nat * PBLink) : MultipleMatchingLinks :=
  match try_convert_cid second.1 second.2 with
  | inl c => Two first (second.1, c)
  | inr e => OneValid first e
  end.

(** *** Sharded directories *)

Definition check_supported (hamt : FlatUnixFs) : option ShardError :=
  let d := f_data hamt in
  if negb (bool_decide (u_fanout d = Some 256)) || negb (bool_decide (u_hashType d = Some 34)) then
    Some (UnsupportedProperties (u_hashType d) (u_fanout d))
  else if bool_decide (is_Some (u_filesize d)) || negb (bool_decide (u_blocksizes d = [])) then
    Some (UnexpectedProperties (u_filesize d) (u_blocksizes d))
  else None.

(** [str::is_char_boundary] at the third byte, which there is *)
Definition boundary_at_2 (name : Bytes) : bool :=
  match name !! 2%nat with Some b => negb ((128 <=? b) && (b <? 192)) | None => true end.

(** The match, if any, and the buckets appended to the work.  Slicing a name in the middle of a
    character panics. *)
Fixpoint partition (i : nat) (links : list PBLink) (needle : Bytes) (work : list Cid) (found : option (nat * Cid)) :
  outcome LookupError (option Cid * list Cid) :=
  match links with
  | [] => Ok (snd <$> found, work)
  | link :: links =>
      let name := default [] (Name link) in
      if (2 <? length name)%nat && negb (boundary_at_2 name) then Panic
      else if (2 <? length name)%nat && bool_decide (drop 2 name = needle) then
        match found with
        | Some first => Err (Multiple (multiple_from first (i, link)))
        | None =>
            match try_convert_cid i link with
            | inr e => Err (InvalidLink e)
            | inl c => partition (S i) links needle work (Some (i, c))
            end
        end
      else if Nat.eqb (length name) 2 then
        match try_convert_cid i link with
        | inr e => Err (InvalidLink e)
        | inl c => partition (S i) links needle (work ++ [c]) found
        end
      else partition (S i) links needle work found
  end.

(** What a shard gives: the link, the definite negative, or the buckets to go on with. *)
Definition after_partition (needle : Bytes) (p : outcome LookupError (option Cid * list Cid)) : outcome LookupError MaybeResolved :=
  match p with
  | Ok (Some c, _) => Ok (Found c)
  | Ok (None, []) => Ok NameNotFound
  | Ok (None, work) => Ok (NeedToLoadMore (mkLookup work needle))
  | Err e => Err e
  | Panic => Panic
  end.

Definition lookup_or_start (hamt : FlatUnixFs) (needle : Bytes) : outcome LookupError MaybeResolved :=
  match check_supported hamt with
  | Some e => Err (Shard e)
  | None => after_partition needle (partition 0 (f_links hamt) needle [] None)
  end.

(** [None] is the [expect] on a lookup without links. *)
Definition pending_bucket (self : ShardedLookup) : option Cid := head (lookup_links self).

Definition lookup_continue (self : ShardedLookup) (next : Bytes) : outcome LookupError MaybeResolved :=
  match lookup_links self with
  | [] => Panic
  | _ :: links =>
      match flat_try_from next with
      | inr (InvalidDagPb | InvalidUnixFs _) => Err (LookupRead true)
      | inr (NoData _) => Err (LookupRead false)
      | inl hamt =>
          if negb (bool_decide (u_type (f_data hamt) = UnixFsType.HAMTShard)) then
            Err (UnexpectedBucketType (UnixFsType.to_i32 (u_type (f_data hamt))))
          else
            match check_supported hamt with
            | Some e => Err (Shard e)
            | None => after_partition (needle self) (partition 0 (f_links hamt) (needle self) links None)
            end
      end
  end.

(** *** Plain directories *)

Definition matching (needle : Bytes) (links : list PBLink) : list (nat * PBLink) :=
  filter (λ il, default [] (Name il.2) = needle) (imap pair links).

Definition resolve_links (links : list PBLink) (needle : Bytes) : outcome DirError MaybeResolved :=
  match matching needle links with
  | [] => Ok NameNotFound
  | (i, first) :: rest =>
      match try_convert_cid i first with
      | inr e => Err (Lookup (InvalidLink e))
      | inl c =>
          match rest with
          | [] => Ok (Found c)
          | second :: _ => Err (Lookup (Multiple (multiple_from (i, c) second)))
          end
      end
  end.

Definition resolve (block needle : Bytes) : outcome DirError MaybeResolved :=
  match flat_try_from block with
  | inl flat =>
      match u_type (f_data flat) with
      | UnixFsType.HAMTShard =>
          match lookup_or_start flat needle with
          | Ok r => Ok r
          | Err e => Err (Lookup e)
          | Panic => Panic
          end
      | UnixFsType.Directory =>
          match check_directory_supported flat with
          | inr e => Err (UnexpectedDirProperties e)
          | inl flat => resolve_links (f_links flat) needle
          end
      | ty => Err (UnexpectedNode (UnixFsType.to_i32 ty))
      end
  | inr (InvalidUnixFs node | NoData node) => resolve_links (Links node) needle
  | inr InvalidDagPb => Err DirRead
  end.

End Dir.
