(* ===== verification/Repo.v ===== *)
(** The storage behind the engine ([utils/rust-ipfs/src/repo/mod.rs] and [repo/mem.rs]): blocks under
    their multihash, pin documents under their CID, and the operations of [Repo] on both.

    The trait [BlockStore] is the class below: what an implementation promises is that its operations
    are those of a map from multihashes to blocks, unless they fail.  [MemBlockStore] keeps the promise and
    never fails.  [Result<_, Error>] is [option]: the messages are left out.  The documents are kept as
    values instead of the JSON text of them. *)

From S2P Require Import Prelude Runtime Utf8 IpfsPath UnixfsPb FileAdder.

Inductive BlockPut := NewBlock | Existed.

Section Blocks.
Context `{RustIpfs}.

Record Block := mkBlock { block_cid : Cid; block_data : Bytes }.

Inductive BlockRm := Removed (cid : Cid) | NotFound (cid : Cid).

End Blocks.

(** ** Block stores *)

(** The trait [BlockStore]; the outer [option] is the error of the store. *)
Class BlockStore `{ContentHash} (S : Type) := {
  bs_new : S;
  bs_contains : S → Cid → option bool;
  bs_get : S → Cid → option (option Block);
  bs_put : S → Block → option (Cid * BlockPut) * S;
  bs_remove : S → Cid → option BlockRm * S;
  bs_list : S → option (list Cid);
  bs_wipe : S → S;
  (** the blocks by their multihash *)
  bs_view : S → gmap Bytes Block }.

(** [RepoCid] compares multihashes, so a store holds one block per multihash, the first that was put. *)
Class BlockStoreLaws `{ContentHash} (S : Type) (B : BlockStore S) := {
  new_view : bs_view bs_new = ∅;
  contains_view s c b : bs_contains s c = Some b → b = bool_decide (is_Some (bs_view s !! cid_hash c));
  get_view s c r : bs_get s c = Some r → r = bs_view s !! cid_hash c;
  put_view s b c r s' : bs_put s b = (Some (c, r), s') →
    match bs_view s !! cid_hash (block_cid b) with
    | Some _ => r = Existed ∧ bs_view s' = bs_view s
    | None => r = NewBlock ∧ bs_view s' = <[cid_hash (block_cid b) := b]> (bs_view s)
    end;
  put_failed s b s' : bs_put s b = (None, s') → bs_view s' = bs_view s;
  remove_view s c r s' : bs_remove s c = (Some r, s') →
    r = (if decide (is_Some (bs_view s !! cid_hash c)) then Removed c else NotFound c) ∧ bs_view s' = delete (cid_hash c) (bs_view s);
  remove_failed s c s' : bs_remove s c = (None, s') → bs_view s' = bs_view s;
  list_view s l : bs_list s = Some l → l ≡ₚ map (λ kb, block_cid kb.2) (map_to_list (bs_view s));
  wipe_view s : bs_view (bs_wipe s) = ∅ }.

Module MemBlockStore.
Section Mem.
Context `{ContentHash}.

Record t := mk { blocks : gmap Bytes Block }.

Definition new : t := mk ∅.

Definition contains (self : t) (cid : Cid) : bool := bool_decide (is_Some (blocks self !! cid_hash cid)).

Definition get (self : t) (cid : Cid) : option Block := blocks self !! cid_hash cid.

Definition put (self : t) (block : Block) : (Cid * BlockPut) * t :=
  match blocks self !! cid_hash (block_cid block) with
  | Some _ => ((block_cid block, Existed), self)
  | None => ((block_cid block, NewBlock), mk (<[cid_hash (block_cid block) := block]> (blocks self)))
  end.

Definition remove (self : t) (cid : Cid) : BlockRm * t :=
  match blocks self !! cid_hash cid with
  | Some _ => (Removed cid, mk (delete (cid_hash cid) (blocks self)))
  | None => (NotFound cid, self)
  end.

(** The key of a block is the CID it was put with. *)
Definition list (self : t) : list Cid := map (λ kb, block_cid kb.2) (map_to_list (blocks self)).

Definition wipe (self : t) : t := mk ∅.

#[export] Instance store : BlockStore t := {
  bs_new := new;
  bs_contains s c := Some (contains s c);
  bs_get s c := Some (get s c);
  bs_put s b := let '(r, s) := put s b in (Some r, s);
  bs_remove s c := let '(r, s) := remove s c in (Some r, s);
  bs_list s := Some (list s);
  bs_wipe := wipe;
  bs_view := blocks }.

#[export] Instance store_laws : BlockStoreLaws t store.
Proof.
  split; simpl; try done.
  - intros s c b. by intros [= <-].
  - intros s c r. by intros [= <-].
  - intros s b c r s'. unfold put. destruct (blocks s !! _) eqn:Hb; intros [= <- <- <-]; by rewrite ?Hb.
  - intros s b s'. unfold put. by destruct (blocks s !! _).
  - intros s c r s'. unfold remove. destruct (blocks s !! _) eqn:Hb; intros [= <- <-].
    + by rewrite decide_True.
    + rewrite decide_False by (by intros [? ?]). by rewrite delete_id.
  - intros s c s'. unfold remove. by destruct (blocks s !! _).
  - intros s l. by intros [= <-].
Qed.
End Mem.
End MemBlockStore.

(** ** Pin documents *)

Inductive PinMode := IndirectMode | DirectMode | RecursiveMode.

#[export] Instance pin_mode_eq : EqDecision PinMode.
Proof. solve_decision. Defined.

Inductive Recursive := Count (n : Z) | Intent | Not.

Definition is_set (r : Recursive) : bool := match r with Count _ | Intent => true | Not => false end.

(** The order of strings. *)
Fixpoint str_ltb (a b : Bytes) : bool :=
  match a, b with
  | _, [] => false
  | [], _ :: _ => true
  | x :: a, y :: b => (x <? y) || ((x =? y) && str_ltb a b)
  end.

(** [BTreeSet<String>] as the list of its elements in order *)
Fixpoint set_insert (x : Bytes) (s : list Bytes) : bool * list Bytes :=
  match s with
  | [] => (true, [x])
  | y :: t =>
      if bool_decide (x = y) then (false, s)
      else if str_ltb x y then (true, x :: s)
      else let '(b, t) := set_insert x t in (b, y :: t)
  end.

Definition set_remove (x : Bytes) (s : list Bytes) : bool * list Bytes :=
  (bool_decide (x ∈ s), filter (λ y, y ≠ x) s).

Definition to_set (l : list Bytes) : list Bytes := foldr (λ x s, (set_insert x s).2) [] l.

Inductive PinUpdateError :=
| UnexpectedNumberOfDescendants (found expected : Z)
| NotPinnedRecursive
| AlreadyPinnedRecursive
| CannotUnpinUnpinned
| CannotUnpinDirectOnRecursivelyPinned.

Record PinDocument := mkDoc {
  doc_version : Z;
  direct : bool;
  recursive : Recursive;
  doc_cid_version : Z;
  indirect_by : list Bytes }.

Abbreviation Pins := (gmap Bytes PinDocument).

Section Pins.
Context `{ContentHash}.

Inductive PinKind := IndirectFrom (c : Cid) | Direct | RecursiveK (n : Z) | RecursiveIntention.

Definition to_v1 (c : Cid) : Cid :=
  match version c with V1 => c | V0 => cid_new_v1 (cid_codec c) (cid_hash c) end.

Definition update (d : PinDocument) (add : bool) (kind : PinKind) : (PinDocument * bool) + PinUpdateError :=
  let '(mkDoc v dir rec cv ind) := d in
  match kind with
  | IndirectFrom root =>
      let root := cid_to_string (to_v1 root) in
      match ind with
      | [] => if add then inl (mkDoc v dir rec cv [root], true) else inl (d, false)
      | _ =>
          let set := to_set ind in
          let '(modified, set) := if add then set_insert root set else set_remove root set in
          inl (mkDoc v dir rec cv set, modified)
      end
  | Direct =>
      if is_set rec && negb dir && add then inr AlreadyPinnedRecursive
      else if negb add && negb dir then
        if negb (is_set rec) then inr CannotUnpinUnpinned else inr CannotUnpinDirectOnRecursivelyPinned
      else inl (mkDoc v add rec cv ind, negb (Bool.eqb dir add))
  | RecursiveIntention =>
      if add then
        match rec with
        | Count _ => inr AlreadyPinnedRecursive
        | Intent => inl (d, false)
        | Not => inl (mkDoc v false Intent cv ind, true)
        end
      else
        match rec with
        | Count _ | Intent => inl (mkDoc v dir Not cv ind, true)
        | Not => inl (d, false)
        end
  | RecursiveK descendants =>
      if add then
        match rec with
        | Count other => if negb (other =? descendants) then inr (UnexpectedNumberOfDescendants other descendants) else inl (d, false)
        | Intent | Not => inl (mkDoc v false (Count descendants) cv ind, true)
        end
      else
        match rec with
        | Count other =>
            if negb (other =? descendants) then inr (UnexpectedNumberOfDescendants other descendants)
            else inl (mkDoc v dir Not cv ind, true)
        | Intent => inl (mkDoc v dir Not cv ind, true)
        | Not => inr NotPinnedRecursive
        end
  end.

Definition can_remove (d : PinDocument) : bool := negb (direct d) && negb (is_set (recursive d)) && bool_decide (indirect_by d = []).

Definition doc_mode (d : PinDocument) : option PinMode :=
  if is_set (recursive d) then Some RecursiveMode
  else if negb (bool_decide (indirect_by d = [])) then Some IndirectMode
  else if direct d then Some DirectMode
  else None.

(** The inner [option] is a CID that does not parse. *)
Definition pick_kind (d : PinDocument) : option (option PinKind) :=
  match doc_mode d with
  | None => None
  | Some RecursiveMode =>
      match recursive d with
      | Intent => Some (Some RecursiveIntention)
      | Count total => Some (Some (RecursiveK total))
      | Not => None
      end
  | Some IndirectMode =>
      match indirect_by d with
      | s :: _ => Some (IndirectFrom <$> parse_cid s)
      | [] => None
      end
  | Some DirectMode => Some (Some Direct)
  end.

(** [PinKind == PinMode] and [PinModeRequirement::matches] *)
Definition kind_is (k : PinKind) (m : PinMode) : bool :=
  match k, m with
  | IndirectFrom _, IndirectMode | Direct, DirectMode | RecursiveK _, RecursiveMode | RecursiveIntention, RecursiveMode => true
  | _, _ => false
  end.

Definition matches (requirement : option PinMode) (eq : PinMode → bool) : bool :=
  match requirement with Some one => eq one | None => true end.

(** *** [MemDataStore]: the pins *)

Definition new_doc (target : Cid) : PinDocument := mkDoc 0 false Not (match version target with V0 => 0 | V1 => 1 end) [].

(** The [unwrap] of a new document is the [Panic]. *)
Definition insert_pin (g : Pins) (target : Cid) (kind : PinKind) : outcome PinUpdateError bool * Pins :=
  let key := cid_to_bytes target in
  match g !! key with
  | Some doc =>
      match update doc true kind with
      | inr e => (Err e, g)
      | inl (doc, true) => (Ok true, <[key := doc]> g)
      | inl (_, false) => (Ok false, g)
      end
  | None =>
      match update (new_doc target) true kind with
      | inr _ => (Panic, g)
      | inl (doc, _) => (Ok true, <[key := doc]> g)
      end
  end.

Definition remove_pin (g : Pins) (target : Cid) (kind : PinKind) : option bool * Pins :=
  let key := cid_to_bytes target in
  match g !! key with
  | Some doc =>
      match update doc false kind with
      | inr _ => (None, g)
      | inl (_, false) => (Some false, g)
      | inl (doc, true) => (Some true, if can_remove doc then delete key g else <[key := doc]> g)
      end
  | None => (None, g)
  end.

Definition is_pinned (g : Pins) (block : Cid) : bool := bool_decide (is_Some (g !! cid_to_bytes block)).

Definition insert_direct_pin (g : Pins) (target : Cid) : outcome PinUpdateError unit * Pins :=
  match insert_pin g target Direct with
  | (Ok _, g) => (Ok tt, g)
  | (Err e, g) => (Err e, g)
  | (Panic, g) => (Panic, g)
  end.

Definition remove_direct_pin (g : Pins) (target : Cid) : option unit * Pins :=
  match remove_pin g target Direct with (Some _, g) => (Some tt, g) | (None, g) => (None, g) end.

(** A stream of references: the references up to its end or up to its first error. *)
Record References := mkRefs { refs_ok : list Cid; refs_error : bool }.

(** The loop of [insert_recursive_pin] over the references: an early return keeps what it did. *)
Fixpoint insert_refs (g : Pins) (kind : PinKind) (refs : list Cid) : outcome PinUpdateError unit * Pins :=
  match refs with
  | [] => (Ok tt, g)
  | next :: refs =>
      match insert_pin g next kind with
      | (Ok _, g) => insert_refs g kind refs
      | (Err e, g) => (Err e, g)
      | (Panic, g) => (Panic, g)
      end
  end.

(** [None] is an error of the stream of references. *)
Definition insert_recursive_pin (g : Pins) (target : Cid) (refs : References) : outcome (option PinUpdateError) unit * Pins :=
  match insert_pin g target RecursiveIntention with
  | (Err e, g) => (Err (Some e), g)
  | (Panic, g) => (Panic, g)
  | (Ok _, g) =>
      match insert_refs g (IndirectFrom (to_v1 target)) (refs_ok refs) with
      | (Err e, g) => (Err (Some e), g)
      | (Panic, g) => (Panic, g)
      | (Ok _, g) =>
          if refs_error refs then (Err None, g) else
          match insert_pin g target (RecursiveK (Z.of_nat (length (refs_ok refs)))) with
          | (Ok _, g) => (Ok tt, g)
          | (Err e, g) => (Err (Some e), g)
          | (Panic, g) => (Panic, g)
          end
      end
  end.

Fixpoint remove_refs (g : Pins) (kind : PinKind) (refs : list Cid) : option unit * Pins :=
  match refs with
  | [] => (Some tt, g)
  | next :: refs =>
      match remove_pin g next kind with
      | (Some _, g) => remove_refs g kind refs
      | (None, g) => (None, g)
      end
  end.

Definition remove_recursive_pin (g : Pins) (target : Cid) (refs : References) : option unit * Pins :=
  match g !! cid_to_bytes target with
  | None => (None, g)
  | Some doc =>
      match pick_kind doc with
      | Some (Some Direct) => remove_direct_pin g target
      | Some (Some ((RecursiveK _ | RecursiveIntention) as kind)) =>
          match remove_pin g target kind with
          | (None, g) => (None, g)
          | (Some _, g) =>
              match remove_refs g (IndirectFrom (to_v1 target)) (refs_ok refs) with
              | (None, g) => (None, g)
              | (Some _, g) => (if refs_error refs then None else Some tt, g)
              end
          end
      | _ => (None, g)
      end
  end.

(** The pins of a mode; a key that is not a CID or a document that pins nothing is an error. *)
Definition list_pins (g : Pins) (requirement : option PinMode) : list (option (Cid * PinMode)) :=
  filter (λ r, match r with Some (_, mode) => matches requirement (λ m, bool_decide (mode = m)) | None => true end = true)
    (map (λ '(key, doc), match cid_try_from key, doc_mode doc with Some cid, Some mode => Some (cid, mode) | _, _ => None end)
       (map_to_list g)).

Definition query_one (g : Pins) (requirement : option PinMode) (cid : Cid) : option (Cid * PinKind) :=
  match g !! cid_to_bytes cid with
  | None => None
  | Some doc =>
      match pick_kind doc with
      | Some (Some mode) => if matches requirement (kind_is mode) then Some (cid, mode) else None
      | _ => None
      end
  end.

Definition query (g : Pins) (cids : list Cid) (requirement : option PinMode) : option (list (Cid * PinKind)) :=
  mapM (query_one g requirement) cids.

End Pins.

(** ** [Repo] *)

Section Repo.
Context `{ContentHash} {S : Type} `{!BlockStore S}.

Inductive RepoEvent := WantBlock (c : Cid) | NewBlockEvent (c : Cid) | RemovedBlock (c : Cid).

(** The events sent to the swarm, the last one first. *)
Record Repo := mkRepo { block_store : S; pins : Pins; repo_events : list RepoEvent }.

(** What the swarm does: announce a block (an error of it fails the [put]), fetch one. *)
Record Swarm := mkSwarm { announce : Cid → bool; fetch : Cid → option Block }.

Definition send (r : Repo) (e : RepoEvent) : Repo := mkRepo (block_store r) (pins r) (e :: repo_events r).

Definition put_block (w : Swarm) (r : Repo) (block : Block) : option (Cid * BlockPut) * Repo :=
  let '(res, s) := bs_put (block_store r) block in
  let r := mkRepo s (pins r) (repo_events r) in
  match res with
  | None => (None, r)
  | Some (_, NewBlock) =>
      (if announce w (block_cid block) then Some (block_cid block, NewBlock) else None, send r (NewBlockEvent (block_cid block)))
  | Some (_, Existed) => (Some (block_cid block, Existed), r)
  end.

Definition get_block_now (r : Repo) (cid : Cid) : option (option Block) := bs_get (block_store r) cid.

Definition get_block (w : Swarm) (r : Repo) (cid : Cid) : option Block * Repo :=
  match get_block_now r cid with
  | None => (None, r)
  | Some (Some block) => (Some block, r)
  | Some None => (fetch w cid, send r (WantBlock cid))
  end.

Definition list_blocks (r : Repo) : option (list Cid) := bs_list (block_store r).

Definition remove_block (r : Repo) (cid : Cid) : option Cid * Repo :=
  if is_pinned (pins r) cid then (None, r) else
  let '(res, s) := bs_remove (block_store r) cid in
  let r := mkRepo s (pins r) (repo_events r) in
  match res with
  | None => (None, r)
  | Some (Removed _) => (Some cid, send r (RemovedBlock cid))
  | Some (NotFound _) => (None, r)
  end.

Fixpoint cleanup_loop (r : Repo) (blocks removed_blocks : list Cid) : list Cid * Repo :=
  match blocks with
  | [] => (removed_blocks, r)
  | cid :: blocks =>
      if is_pinned (pins r) cid then cleanup_loop r blocks removed_blocks else
      match remove_block r cid with
      | (Some cid, r) => cleanup_loop r blocks (removed_blocks ++ [cid])
      | (None, r) => cleanup_loop r blocks removed_blocks
      end
  end.

Definition cleanup (r : Repo) : option (list Cid) * Repo :=
  match list_blocks r with
  | None => (None, r)
  | Some blocks => let '(removed, r) := cleanup_loop r blocks [] in (Some removed, r)
  end.

End Repo.

Arguments Repo {_} _.
