(* ===== verification/RepoProps.v ===== *)
(** The promises of the repository: pin documents stay consistent, recursive pins can be taken back,
    a pinned block is not removed, and a clean-up removes exactly the blocks that are not pinned. *)

From S2P Require Import Prelude Runtime Utf8 IpfsPath UnixfsPb FileAdder Repo.

(** ** Sets of strings *)

Definition str_lt (a b : Bytes) : Prop := str_ltb a b = true.

Lemma str_lt_irrefl a : ¬ str_lt a a.
Proof. unfold str_lt. induction a as [|x a IH]; simpl; [done|]. rewrite Z.ltb_irrefl, Z.eqb_refl. done. Qed.

Lemma str_lt_trans a b c : str_lt a b → str_lt b c → str_lt a c.
Proof.
  unfold str_lt. revert b c. induction a as [|x a IH]; intros [|y b] [|z c]; simpl; try done.
  rewrite !orb_true_iff, !andb_true_iff, !Z.ltb_lt, !Z.eqb_eq. intros [Hxy|[-> Hab]] [Hyz|[-> Hbc]]; try (left; lia). right. eauto.
Qed.

Lemma str_lt_total a b : a ≠ b → ¬ str_lt a b → str_lt b a.
Proof.
  unfold str_lt. revert b. induction a as [|x a IH]; intros [|y b]; simpl; try done.
  rewrite !orb_true_iff, !andb_true_iff, !Z.ltb_lt, !Z.eqb_eq. intros Hne Hn. destruct (Z.lt_trichotomy x y) as [|[->|]]; [by destruct Hn; left| |by left].
  right. split; [done|]. apply IH; [congruence|]. intros Hl. apply Hn. by right.
Qed.

Abbreviation sorted := (StronglySorted str_lt).

Lemma set_insert_elem x s y : y ∈ (set_insert x s).2 ↔ y = x ∨ y ∈ s.
Proof.
  induction s as [|z s IH]; simpl; [set_solver|]. case_bool_decide; [subst; simpl; set_solver|]. destruct (str_ltb x z); [simpl; set_solver|].
  destruct (set_insert x s) as [b t]. simpl in *. set_solver.
Qed.

Lemma set_insert_sorted x s : sorted s → sorted (set_insert x s).2.
Proof.
  induction 1 as [|z s Hs IH Hz]; simpl; [repeat constructor|]. case_bool_decide as Hxz; [by constructor|].
  destruct (str_ltb x z) eqn:Hlt; simpl.
  - repeat constructor; [done|done|done|]. eapply Forall_impl; [exact Hz|]. intros y Hy. by eapply str_lt_trans.
  - pose proof (set_insert_elem x s) as He. destruct (set_insert x s) as [b t]. simpl in *. constructor; [done|].
    apply Forall_forall. intros y Hy. apply He in Hy as [->|Hy]; [|by rewrite Forall_forall in Hz; apply Hz].
    apply str_lt_total; [done|]. unfold str_lt. by rewrite Hlt.
Qed.

Lemma set_insert_fresh x s : (set_insert x s).1 = bool_decide (x ∉ s) ∨ ¬ sorted s.
Proof.
  destruct (decide (x ∈ s)) as [Hx|Hx].
  - rewrite bool_decide_eq_false_2 by tauto. induction s as [|z s IH]; [set_solver|]. simpl. case_bool_decide as Hz; [by left|].
    apply elem_of_cons in Hx as [|Hx]; [done|]. destruct (str_ltb x z) eqn:Hlt.
    + right. intros Hs. apply StronglySorted_inv in Hs as [_ Hs]. rewrite Forall_forall in Hs. apply (str_lt_irrefl x), (str_lt_trans x z x); [done|by apply Hs].
    + destruct (IH Hx) as [Hb|Hs]; [left; by destruct (set_insert x s)|right; intros Hs'; by apply StronglySorted_inv in Hs' as [? _]].
  - left. rewrite bool_decide_eq_true_2 by done. induction s as [|z s IH]; [done|]. apply not_elem_of_cons in Hx as [Hz Hx]. simpl.
    rewrite bool_decide_eq_false_2 by done. destruct (str_ltb x z); [done|]. specialize (IH Hx). by destruct (set_insert x s).
Qed.

Lemma sorted_ext s t : sorted s → sorted t → (∀ x, x ∈ s ↔ x ∈ t) → s = t.
Proof.
  intros Hs. revert t. induction Hs as [|x s Hs IH Hx]; intros t Ht He.
  - destruct t as [|y t]; [done|]. exfalso. assert (y ∈ @nil Bytes) by (apply He; left). set_solver.
  - destruct Ht as [|y t Ht Hy]; [exfalso; assert (x ∈ @nil Bytes) by (apply He; left); set_solver|].
    rewrite Forall_forall in Hx, Hy.
    assert (x = y) as ->.
    { assert (Hxt : x ∈ y :: t) by (apply He; left). assert (Hyt : y ∈ x :: s) by (apply He; left).
      apply elem_of_cons in Hxt as [|Hxt]; [done|]. apply elem_of_cons in Hyt as [|Hyt]; [done|].
      exfalso. apply (str_lt_irrefl x). eapply str_lt_trans; [by apply Hx|by apply Hy]. }
    f_equal. apply IH; [done|]. intros z. split; intros Hz.
    + assert (Hzt : z ∈ y :: t) by (apply He; by right). apply elem_of_cons in Hzt as [->|]; [|done]. exfalso. by apply (str_lt_irrefl y), Hx.
    + assert (Hzt : z ∈ y :: s) by (apply He; by right). apply elem_of_cons in Hzt as [->|]; [|done]. exfalso. by apply (str_lt_irrefl y), Hy.
Qed.

Lemma to_set_spec l : sorted (to_set l) ∧ ∀ x, x ∈ to_set l ↔ x ∈ l.
Proof.
  induction l as [|y l [IHs IHe]]; simpl; [split; [constructor|done]|]. split; [by apply set_insert_sorted|]. intros x. rewrite set_insert_elem, IHe. set_solver.
Qed.

Lemma to_set_sorted s : sorted s → to_set s = s.
Proof. intros Hs. destruct (to_set_spec s). by apply sorted_ext. Qed.

Lemma filter_sorted (P : Bytes → Prop) `{∀ x, Decision (P x)} s : sorted s → sorted (filter P s).
Proof.
  induction 1 as [|x s _ IH Hx]; [constructor|]. rewrite filter_cons. case_decide; [|done]. constructor; [done|].
  apply Forall_forall. intros y Hy%list_elem_of_filter. rewrite Forall_forall in Hx. naive_solver.
Qed.

Section Pins.
Context {R : RustIpfs} {RL : RustIpfsLaws R} {C : ContentHash} {CL : ContentHashLaws C}.

(** ** Documents *)

(** A recursive pin replaces a direct one, and the roots of the indirect pins are a set of CIDs. *)
Definition doc_inv (d : PinDocument) : Prop :=
  (is_set (recursive d) = true → direct d = false) ∧ sorted (indirect_by d) ∧ Forall (λ s, ∃ c, s = cid_to_string c) (indirect_by d).

Definition root_string (root : Cid) : Bytes := cid_to_string (to_v1 root).

(** The document with another set of roots. *)
Definition with_roots (d : PinDocument) (s : list Bytes) : PinDocument := mkDoc (doc_version d) (direct d) (recursive d) (doc_cid_version d) s.

(** The rule for indirect pins, on documents whose roots are a set. *)
Lemma update_indirect d add root :
  sorted (indirect_by d) →
  update d add (IndirectFrom root) =
    if add then inl (with_roots d (set_insert (root_string root) (indirect_by d)).2, bool_decide (root_string root ∉ indirect_by d))
    else inl (with_roots d (filter (λ y, y ≠ root_string root) (indirect_by d)), bool_decide (root_string root ∈ indirect_by d)).
Proof.
  destruct d as [v dir rec cv ind]. unfold root_string, with_roots. simpl. intros Hs. destruct ind as [|s ind].
  - destruct add; [|done]. by rewrite bool_decide_eq_true_2 by set_solver.
  - rewrite to_set_sorted by done. destruct add.
    + destruct (set_insert_fresh (cid_to_string (to_v1 root)) (s :: ind)) as [Hb|]; [|done]. 
      destruct (set_insert _ _) as [b t]. simpl in Hb. by subst.
    + done.
Qed.

Lemma update_inv d add kind d' b :
  doc_inv d → update d add kind = inl (d', b) → doc_inv d' ∧ (add = true → can_remove d' = false) ∧ (b = false → d' = d).
Proof.
  intros (Hrec & Hs & Hc). destruct kind as [root| |n|].
  - rewrite update_indirect by done. destruct add; intros [= <- <-].
    + split; [|split].
      * split; [done|]. split; [by apply set_insert_sorted|]. simpl. apply Forall_forall. intros x [->|Hx]%set_insert_elem; [by eexists|].
        rewrite Forall_forall in Hc. by apply Hc.
      * intros _. unfold can_remove. simpl. rewrite (bool_decide_eq_false_2 (_ = [])); [by rewrite andb_false_r|].
        intros He. pose proof (set_insert_elem (root_string root) (indirect_by d) (root_string root)) as Hi. rewrite He in Hi. set_solver.
      * intros Hb%bool_decide_eq_false. destruct d as [v dir rec cv ind]. unfold with_roots. simpl in *. f_equal. 
        apply sorted_ext; [by apply set_insert_sorted|done|]. intros x. rewrite set_insert_elem. apply dec_stable in Hb. set_solver.
    + split; [|split; [done|]].
      * split; [done|]. split; [by apply filter_sorted|]. simpl. apply Forall_forall. intros x [_ Hx]%list_elem_of_filter. rewrite Forall_forall in Hc. by apply Hc.
      * intros Hb%bool_decide_eq_false. destruct d as [v dir rec cv ind]. unfold with_roots. simpl in *. f_equal.
        apply sorted_ext; [by apply filter_sorted|done|]. intros x. rewrite list_elem_of_filter. naive_solver.
  - destruct d as [v dir rec cv ind]. simpl in *. unfold doc_inv, can_remove. destruct rec, dir, add; simpl in *; intros ?; simplify_eq; auto 6; naive_solver.
  - destruct d as [v dir rec cv ind]. simpl in *. unfold doc_inv, can_remove. destruct add, rec; simpl in *; repeat case_match; intros ?; simplify_eq; simpl; auto 6; naive_solver.
  - destruct d as [v dir rec cv ind]. simpl in *. unfold doc_inv, can_remove. destruct add, rec; simpl in *; intros ?; simplify_eq; simpl; auto 6; naive_solver.
Qed.

(** ** The store of pins *)

(** Every document pins something. *)
Definition pins_ok (g : Pins) : Prop := map_Forall (λ _ d, doc_inv d ∧ can_remove d = false) g.

Lemma new_doc_inv c : doc_inv (new_doc c).
Proof. split; [done|]. split; constructor. Qed.

Lemma insert_pin_ok g target kind : pins_ok g → pins_ok (insert_pin g target kind).2 ∧ (insert_pin g target kind).1 ≠ Panic.
Proof.
  intros Hg. unfold insert_pin. destruct (g !! cid_to_bytes target) as [d|] eqn:Hd.
  - destruct (Hg _ _ Hd) as [Hi _]. destruct (update d true kind) as [[d' [|]]|e] eqn:Hu; simpl; [|done|done].
    destruct (update_inv _ _ _ _ _ Hi Hu) as (Hi' & Hc & _). split; [|done]. apply map_Forall_insert_2; auto.
  - destruct (update (new_doc target) true kind) as [[d' b]|e] eqn:Hu; simpl.
    + destruct (update_inv _ _ _ _ _ (new_doc_inv target) Hu) as (Hi' & Hc & _). split; [|done]. apply map_Forall_insert_2; auto.
    + exfalso. by destruct kind.
Qed.

Lemma remove_pin_ok g target kind : pins_ok g → pins_ok (remove_pin g target kind).2.
Proof.
  intros Hg. unfold remove_pin. destruct (g !! cid_to_bytes target) as [d|] eqn:Hd; [|done]. destruct (Hg _ _ Hd) as [Hi _].
  destruct (update d false kind) as [[d' [|]]|e] eqn:Hu; simpl; [|done|done].
  destruct (update_inv _ _ _ _ _ Hi Hu) as (Hi' & _ & _). destruct (can_remove d') eqn:Hc; [by apply map_Forall_delete|].
  apply map_Forall_insert_2; auto.
Qed.

Lemma insert_refs_ok g kind refs : pins_ok g → pins_ok (insert_refs g kind refs).2 ∧ (insert_refs g kind refs).1 ≠ Panic.
Proof.
  revert g. induction refs as [|c refs IH]; intros g Hg; [done|]. simpl.
  destruct (insert_pin_ok g c kind Hg) as [Hg' Hp]. destruct (insert_pin g c kind) as [[b|e|] g']; simpl in *; [by apply IH|done|done].
Qed.

Lemma remove_refs_ok g kind refs : pins_ok g → pins_ok (remove_refs g kind refs).2.
Proof.
  revert g. induction refs as [|c refs IH]; intros g Hg; [done|]. simpl.
  pose proof (remove_pin_ok g c kind Hg) as Hg'. destruct (remove_pin g c kind) as [[b|] g']; simpl in *; [by apply IH|done].
Qed.

(** The operations on pins. *)
Inductive PinOp :=
| InsertDirect (c : Cid)
| RemoveDirect (c : Cid)
| InsertRecursive (c : Cid) (refs : References)
| RemoveRecursive (c : Cid) (refs : References).

Definition pin_op (g : Pins) (o : PinOp) : Pins :=
  match o with
  | InsertDirect c => (insert_direct_pin g c).2
  | RemoveDirect c => (remove_direct_pin g c).2
  | InsertRecursive c refs => (insert_recursive_pin g c refs).2
  | RemoveRecursive c refs => (remove_recursive_pin g c refs).2
  end.

Lemma remove_direct_ok g c : pins_ok g → pins_ok (remove_direct_pin g c).2.
Proof. intros Hg. unfold remove_direct_pin. pose proof (remove_pin_ok g c Direct Hg). by destruct (remove_pin g c Direct) as [[]?]. Qed.

Lemma insert_recursive_ok g c refs :
  pins_ok g → pins_ok (insert_recursive_pin g c refs).2 ∧ (insert_recursive_pin g c refs).1 ≠ Panic.
Proof.
  intros Hg. unfold insert_recursive_pin. destruct (insert_pin_ok g c RecursiveIntention Hg) as [Hg1 Hp1].
  destruct (insert_pin g c RecursiveIntention) as [[?|?|] g1]; simpl in *; [|done|done].
  destruct (insert_refs_ok g1 (IndirectFrom (to_v1 c)) (refs_ok refs) Hg1) as [Hg2 Hp2].
  destruct (insert_refs g1 _ _) as [[?|?|] g2]; simpl in *; [|done|done]. destruct (refs_error refs); [done|].
  destruct (insert_pin_ok g2 c (RecursiveK (Z.of_nat (length (refs_ok refs)))) Hg2) as [Hg3 Hp3].
  by destruct (insert_pin g2 c _) as [[?|?|] g3].
Qed.

Lemma remove_recursive_ok g c refs : pins_ok g → pins_ok (remove_recursive_pin g c refs).2.
Proof.
  intros Hg. unfold remove_recursive_pin. destruct (g !! cid_to_bytes c) as [d|]; [|done].
  assert (Hrest : ∀ k, pins_ok (match remove_pin g c k with
    | (None, g) => (None, g)
    | (Some _, g) => match remove_refs g (IndirectFrom (to_v1 c)) (refs_ok refs) with
                     | (None, g) => (None, g)
                     | (Some _, g) => (if refs_error refs then None else Some tt, g)
                     end
    end).2).
  { intros k. pose proof (remove_pin_ok g c k Hg) as Hg1. destruct (remove_pin g c k) as [[?|] g1]; simpl in *; [|done].
    pose proof (remove_refs_ok g1 (IndirectFrom (to_v1 c)) (refs_ok refs) Hg1) as Hg2. by destruct (remove_refs g1 _ _) as [[?|] g2]. }
  destruct (pick_kind d) as [[[?| |n|]|]|]; try done. by apply remove_direct_ok.
Qed.

Lemma pin_op_ok g o : pins_ok g → pins_ok (pin_op g o).
Proof.
  intros Hg. destruct o as [c|c|c refs|c refs]; simpl; [|by apply remove_direct_ok|by apply insert_recursive_ok|by apply remove_recursive_ok].
  unfold insert_direct_pin. pose proof (insert_pin_ok g c Direct Hg) as [? _]. by destruct (insert_pin g c Direct) as [[?|?|] ?].
Qed.

Lemma doc_picks d : doc_inv d → can_remove d = false → ∃ k, pick_kind d = Some (Some k).
Proof.
  intros (_ & _ & Hc). destruct d as [v dir rec cv ind]. unfold can_remove, pick_kind, doc_mode. simpl in *.
  destruct rec; simpl; eauto. destruct ind as [|s ind]; simpl.
  - destruct dir; simpl; eauto. done.
  - apply Forall_cons in Hc as [[c ->] _]. rewrite cid_parses. simpl. eauto.
Qed.

(** C37. After any sequence of pin operations, failed ones included, from an empty store: a CID is
    pinned exactly when a query for it answers, no document is left that pins nothing, and a CID that is
    pinned recursively is not also pinned directly. *)
Theorem pins_consistent ops c :
  let g := foldl pin_op ∅ ops in
  (is_pinned g c = true ↔ is_Some (query_one g None c)) ∧
  (∀ d, g !! cid_to_bytes c = Some d → is_Some (doc_mode d) ∧ (is_set (recursive d) = true → direct d = false)).
Proof.
  intros g. assert (Hg : pins_ok g).
  { unfold g. assert (H0 : pins_ok ∅) by apply map_Forall_empty. revert H0. generalize (∅ : Pins). 
    induction ops as [|o ops IH]; intros g0 H0; [done|]. simpl. by apply IH, pin_op_ok. }
  split.
  - unfold is_pinned, query_one. rewrite bool_decide_eq_true. destruct (g !! cid_to_bytes c) as [d|] eqn:Hd; [|by split; intros []].
    destruct (Hg _ _ Hd) as [Hi Hc]. destruct (doc_picks d Hi Hc) as [k ->]. split; intros _; by eexists.
  - intros d Hd. destruct (Hg _ _ Hd) as [(Hrec & _) Hc]. split; [|done]. unfold can_remove in Hc. unfold doc_mode.
    destruct (is_set (recursive d)); [by eexists|]. destruct (bool_decide _); [|by eexists]. destruct (direct d); [by eexists|done].
Qed.

(** ** Taking a recursive pin back *)

Lemma to_v1_idem c : to_v1 (to_v1 c) = to_v1 c.
Proof. unfold to_v1 at 2 3. destruct (version c) eqn:Hv; unfold to_v1; [by rewrite cid_v1_version|by rewrite Hv]. Qed.

Lemma key_inj c c' : cid_to_bytes c = cid_to_bytes c' → c = c'.
Proof. intros Hb. pose proof (cid_bytes_parse c) as Hc. rewrite Hb, cid_bytes_parse in Hc. congruence. Qed.

(** The document of [c] with the root added. *)
Definition add_root (root : Bytes) (c : Cid) (o : option PinDocument) : PinDocument :=
  let d := default (new_doc c) o in with_roots d (set_insert root (indirect_by d)).2.

Definition without_root (root : Bytes) (o : option PinDocument) : Prop :=
  ∀ d, o = Some d → sorted (indirect_by d) ∧ root ∉ indirect_by d ∧ can_remove d = false.

Lemma filter_insert x s : sorted s → x ∉ s → filter (λ y, y ≠ x) (set_insert x s).2 = s.
Proof.
  intros Hs Hx. apply sorted_ext; [by apply filter_sorted, set_insert_sorted|done|]. intros y. rewrite list_elem_of_filter, set_insert_elem. naive_solver.
Qed.

Lemma insert_ref g t c :
  without_root (root_string t) (g !! cid_to_bytes c) →
  insert_pin g c (IndirectFrom t) = (Ok true, <[cid_to_bytes c := add_root (root_string t) c (g !! cid_to_bytes c)]> g).
Proof.
  intros Hw. unfold insert_pin. destruct (g !! cid_to_bytes c) as [d|].
  - destruct (Hw d eq_refl) as (Hs & Hr & _). rewrite update_indirect by done. by rewrite bool_decide_eq_true_2.
  - rewrite update_indirect by constructor. done.
Qed.

Lemma with_roots_same d : with_roots d (indirect_by d) = d.
Proof. by destruct d. Qed.

(** The document of a key as it was. *)
Definition put_back (k : Bytes) (o : option PinDocument) (g : Pins) : Pins :=
  match o with Some d => <[k := d]> g | None => delete k g end.

Lemma put_back_eq k o g : put_back k o g !! k = o.
Proof. destruct o; [apply lookup_insert_eq|apply lookup_delete_eq]. Qed.

Lemma put_back_ne k k' o g : k' ≠ k → put_back k o g !! k' = g !! k'.
Proof. intros Hk. destruct o; [by apply lookup_insert_ne|by apply lookup_delete_ne]. Qed.

Lemma remove_ref g t c o :
  without_root (root_string t) o → g !! cid_to_bytes c = Some (add_root (root_string t) c o) →
  remove_pin g c (IndirectFrom t) = (Some true, put_back (cid_to_bytes c) o g).
Proof.
  intros Hw Hg. unfold remove_pin. rewrite Hg. set (d := default (new_doc c) o).
  assert (Hd : sorted (indirect_by d) ∧ root_string t ∉ indirect_by d).
  { unfold d. destruct o as [d0|]; simpl; [by destruct (Hw d0 eq_refl) as (? & ? & _)|]. split; [constructor|set_solver]. }
  destruct Hd as [Hs Hr]. rewrite update_indirect by (by apply set_insert_sorted).
  unfold add_root. fold d. cbn [indirect_by with_roots]. rewrite bool_decide_eq_true_2 by (apply set_insert_elem; by left).
  rewrite filter_insert by done. change (with_roots (with_roots d _) (indirect_by d)) with (with_roots d (indirect_by d)). rewrite with_roots_same.
  unfold d. destruct o as [d0|]; simpl; [|done]. destruct (Hw d0 eq_refl) as (_ & _ & Hc). by rewrite Hc.
Qed.

Lemma insert_refs_all g t refs :
  NoDup refs → (∀ c, c ∈ refs → without_root (root_string t) (g !! cid_to_bytes c)) →
  ∃ g', insert_refs g (IndirectFrom t) refs = (Ok tt, g') ∧
    (∀ c, c ∈ refs → g' !! cid_to_bytes c = Some (add_root (root_string t) c (g !! cid_to_bytes c))) ∧
    (∀ k, k ∉ map cid_to_bytes refs → g' !! k = g !! k).
Proof.
  intros Hnd. revert g. induction Hnd as [|c refs Hc Hnd IH]; intros g Hw; [exists g; split; [done|split; [set_solver|done]]|].
  simpl. rewrite insert_ref by (apply Hw; left). set (g1 := <[_ := _]> g).
  assert (Hne : ∀ c', c' ∈ refs → g1 !! cid_to_bytes c' = g !! cid_to_bytes c').
  { intros c' Hc'. apply lookup_insert_ne. intros Heq%key_inj. by subst. }
  destruct (IH g1) as (g' & -> & Hin & Hout); [intros c' Hc'; rewrite Hne by done; apply Hw; by right|].
  exists g'. split; [done|]. split.
  - intros c' [->|Hc']%elem_of_cons.
    + rewrite Hout; [by apply lookup_insert_eq|]. intros (c2 & Heq%key_inj & Hc2)%list_elem_of_fmap. by subst.
    + rewrite Hin by done. by rewrite Hne.
  - intros k Hk. apply not_elem_of_cons in Hk as [Hk1 Hk2]. rewrite Hout by done. by apply lookup_insert_ne.
Qed.

Lemma remove_refs_all (g g0 : Pins) t refs :
  NoDup refs → (∀ c, c ∈ refs → without_root (root_string t) (g0 !! cid_to_bytes c)) →
  (∀ c, c ∈ refs → g !! cid_to_bytes c = Some (add_root (root_string t) c (g0 !! cid_to_bytes c))) →
  ∃ g', remove_refs g (IndirectFrom t) refs = (Some tt, g') ∧
    (∀ c, c ∈ refs → g' !! cid_to_bytes c = g0 !! cid_to_bytes c) ∧ (∀ k, k ∉ map cid_to_bytes refs → g' !! k = g !! k).
Proof.
  intros Hnd. revert g. induction Hnd as [|c refs Hc Hnd IH]; intros g Hw Hg; [exists g; split; [done|split; [set_solver|done]]|].
  simpl. rewrite (remove_ref g t c (g0 !! cid_to_bytes c)) by (try apply Hw; try apply Hg; left).
  set (g1 := put_back _ _ g).
  destruct (IH g1) as (g' & -> & Hin & Hout); [intros c' Hc'; apply Hw; by right| |].
  { intros c' Hc'. unfold g1. rewrite put_back_ne; [apply Hg; by right|]. intros Heq%key_inj. by subst. }
  exists g'. split; [done|]. split.
  - intros c' [->|Hc']%elem_of_cons; [|by apply Hin]. rewrite Hout; [apply put_back_eq|]. intros (c2 & Heq%key_inj & Hc2)%list_elem_of_fmap. by subst.
  - intros k Hk. apply not_elem_of_cons in Hk as [Hkc Hk2]. rewrite Hout by done. by apply put_back_ne.
Qed.

(** Documents of one CID that differ in the recursive or the direct pin only. *)
Definition with_recursive (d : PinDocument) (r : Recursive) : PinDocument := mkDoc (doc_version d) (direct d) r (doc_cid_version d) (indirect_by d).
Definition without_direct (d : PinDocument) : PinDocument := mkDoc (doc_version d) false (recursive d) (doc_cid_version d) (indirect_by d).

(** A root that is not pinned recursively. *)
Definition not_root (g : Pins) (target : Cid) : Prop := ∀ d, g !! cid_to_bytes target = Some d → recursive d = Not.

Abbreviation root_doc g target := (without_direct (default (new_doc target) (g !! cid_to_bytes target))).

(** The pins without the direct pin of [target]. *)
Definition rest_of (o : option PinDocument) : option PinDocument :=
  match o with Some d => if can_remove (without_direct d) then None else Some (without_direct d) | None => None end.
Definition forget_direct (g : Pins) (target : Cid) : Pins := put_back (cid_to_bytes target) (rest_of (g !! cid_to_bytes target)) g.

Lemma forget_direct_none g target :
  pins_ok g → (∀ d, g !! cid_to_bytes target = Some d → direct d = false) → forget_direct g target = g.
Proof.
  intros Hg Hd. unfold forget_direct. destruct (g !! cid_to_bytes target) as [d|] eqn:He; simpl; [|by apply delete_id].
  assert (without_direct d = d) as -> by (specialize (Hd d eq_refl); destruct d; simpl in *; by subst).
  destruct (Hg _ _ He) as [_ ->]. by apply insert_id.
Qed.

Lemma root_intent g target :
  not_root g target → insert_pin g target RecursiveIntention = (Ok true, <[cid_to_bytes target := with_recursive (root_doc g target) Intent]> g).
Proof.
  intros Ht. unfold insert_pin. destruct (g !! cid_to_bytes target) as [d|] eqn:Hd; [|done]. specialize (Ht d Hd). destruct d; simpl in *; by subst.
Qed.

Lemma root_count g target d n :
  g !! cid_to_bytes target = Some (with_recursive d Intent) → direct d = false →
  insert_pin g target (RecursiveK n) = (Ok true, <[cid_to_bytes target := with_recursive d (Count n)]> g).
Proof. intros Hk Hd. unfold insert_pin. rewrite Hk. simpl. by rewrite <- Hd. Qed.

Lemma root_unpin (g g3 : Pins) target n :
  not_root g target → g3 !! cid_to_bytes target = Some (with_recursive (root_doc g target) (Count n)) →
  remove_pin g3 target (RecursiveK n) = (Some true, put_back (cid_to_bytes target) (rest_of (g !! cid_to_bytes target)) g3).
Proof.
  intros Ht Hk. unfold remove_pin. rewrite Hk. simpl. rewrite Z.eqb_refl. cbn [negb].
  destruct (g !! cid_to_bytes target) as [d|] eqn:Hd; [|done]. specialize (Ht d Hd). unfold rest_of, without_direct. cbn [default from_option id].
  cbn [doc_version doc_cid_version indirect_by]. rewrite Ht. by destruct (can_remove _).
Qed.

(** *** What a recursive pin covers *)

(** Whether a CID is pinned recursively, with its references. *)
Definition counted (g : Pins) (c : Cid) : bool :=
  match g !! cid_to_bytes c with Some (mkDoc _ _ (Count _) _ _) => true | _ => false end.

(** The pins of [g] are still there, and recursive as they were. *)
Definition extends (g g' : Pins) : Prop := ∀ k d, g !! k = Some d → ∃ d', g' !! k = Some d' ∧ recursive d' = recursive d.

Lemma extends_refl g : extends g g.
Proof. intros k d Hd. by exists d. Qed.

Lemma extends_trans g1 g2 g3 : extends g1 g2 → extends g2 g3 → extends g1 g3.
Proof. intros H12 H23 k d (d2 & Hd2 & Hr2)%H12. destruct (H23 k d2 Hd2) as (d3 & Hd3 & Hr3). exists d3. split; [done|congruence]. Qed.

Lemma extends_pinned g g' c : extends g g' → is_pinned g c = true → is_pinned g' c = true.
Proof. unfold is_pinned. rewrite !bool_decide_eq_true. intros He [d Hd]. destruct (He _ _ Hd) as (d' & Hd' & _). by eexists. Qed.

Lemma insert_indirect g c t : ∃ b g', insert_pin g c (IndirectFrom t) = (Ok b, g') ∧ extends g g' ∧ is_pinned g' c = true.
Proof.
  assert (Hup : ∀ d, ∃ d' b, update d true (IndirectFrom t) = inl (d', b) ∧ recursive d' = recursive d).
  { intros [v dir rec cv ind]. simpl. destruct ind; [by eexists _, _|]. destruct (set_insert _ _). by eexists _, _. }
  unfold insert_pin, is_pinned. destruct (g !! cid_to_bytes c) as [d|] eqn:Hd.
  - destruct (Hup d) as (d' & [|] & -> & Hr); eexists _, _; split; [done| |done|].
    + split; [|apply bool_decide_eq_true; rewrite lookup_insert_eq; by eexists]. intros k e He. destruct (decide (k = cid_to_bytes c)) as [->|Hne].
      * exists d'. rewrite lookup_insert_eq. split; [done|congruence].
      * exists e. by rewrite lookup_insert_ne.
    + split; [apply extends_refl|]. apply bool_decide_eq_true. rewrite Hd. by eexists.
  - destruct (Hup (new_doc c)) as (d' & b & -> & _). eexists _, _. split; [done|]. split; [|apply bool_decide_eq_true; rewrite lookup_insert_eq; by eexists].
    intros k e He. exists e. rewrite lookup_insert_ne by congruence. done.
Qed.

Lemma insert_refs_extends g t refs :
  ∃ g', insert_refs g (IndirectFrom t) refs = (Ok tt, g') ∧ extends g g' ∧ ∀ c, c ∈ refs → is_pinned g' c = true.
Proof.
  revert g. induction refs as [|c refs IH]; intros g; [exists g; split; [done|]; split; [apply extends_refl|set_solver]|].
  simpl. destruct (insert_indirect g c t) as (b & g1 & -> & He & Hc). destruct (IH g1) as (g' & -> & He' & Hrefs). exists g'.
  split; [done|]. split; [by eapply extends_trans|]. intros c' [->|Hc']%elem_of_cons; [by apply (extends_pinned g1)|auto].
Qed.

Lemma insert_intent g target :
  counted g target = false →
  ∃ b g1 d, insert_pin g target RecursiveIntention = (Ok b, g1) ∧ g1 !! cid_to_bytes target = Some d ∧ recursive d = Intent ∧
    ∀ c, is_pinned g c = true → is_pinned g1 c = true.
Proof.
  unfold counted, insert_pin, is_pinned. intros Hc.
  assert (Hins : ∀ (d : PinDocument) (c : Cid), bool_decide (is_Some (g !! cid_to_bytes c)) = true → bool_decide (is_Some (<[cid_to_bytes target := d]> g !! cid_to_bytes c)) = true).
  { intros d c. rewrite !bool_decide_eq_true. intros Hs. destruct (decide (cid_to_bytes target = cid_to_bytes c)) as [->|Hne]; [rewrite lookup_insert_eq; by eexists|by rewrite lookup_insert_ne]. }
  destruct (g !! cid_to_bytes target) as [[v dir [n| |] cv ind]|] eqn:Hd; [done|..]; eexists _, _, _; (split; [done|]); (split; [first [exact Hd|apply lookup_insert_eq]|]); (split; [done|]); eauto.
Qed.

(** A recursive pin succeeds unless there is one, and pins its root and the references, besides what was pinned. *)
Lemma recursive_pin_covers g target refs :
  counted g target = false →
  ∃ g', insert_recursive_pin g target (mkRefs refs false) = (Ok tt, g') ∧
    ∀ c, c = target ∨ c ∈ refs ∨ is_pinned g c = true → is_pinned g' c = true.
Proof.
  intros Hc. destruct (insert_intent g target Hc) as (b & g1 & d1 & H1 & Hd1 & Hr1 & Hp1). unfold insert_recursive_pin. rewrite H1. cbn [refs_ok refs_error].
  destruct (insert_refs_extends g1 (to_v1 target) refs) as (g2 & -> & He & Hrefs). destruct (He _ _ Hd1) as ([v dir rec cv ind] & Hd2 & Hr2).
  rewrite Hr1 in Hr2. simpl in Hr2. subst rec. unfold insert_pin. rewrite Hd2. simpl. eexists. split; [done|].
  intros c Hcase. destruct (decide (c = target)) as [->|Hne]; [unfold is_pinned; rewrite lookup_insert_eq; by apply bool_decide_eq_true|].
  unfold is_pinned. rewrite lookup_insert_ne by (intros Heq%key_inj; congruence).
  destruct Hcase as [->|[Hin|Hg]]; [done|by apply Hrefs|by apply (extends_pinned g1), Hp1].
Qed.

Lemma insert_counted g target : counted g target = true → insert_pin g target RecursiveIntention = (Err AlreadyPinnedRecursive, g).
Proof. unfold counted, insert_pin. by destruct (g !! cid_to_bytes target) as [[? ? [n| |] ? ?]|]. Qed.

(** Pinning a tree recursively pins its root and everything it references; unpinning it recursively,
    with the same references in any order, leaves the pins exactly as they were but for a direct pin of the root.  The
    root may be pinned directly or indirectly before, and the references in any way. *)
Lemma recursive_pin_roundtrip g target refs :
  pins_ok g → not_root g target → NoDup refs → target ∉ refs → (∀ k d, g !! k = Some d → root_string target ∉ indirect_by d) →
  ∃ g', insert_recursive_pin g target (mkRefs refs false) = (Ok tt, g') ∧
    (∃ d n, g' !! cid_to_bytes target = Some d ∧ pick_kind d = Some (Some (RecursiveK n))) ∧
    ∀ refs', NoDup refs' → (∀ c, c ∈ refs' ↔ c ∈ refs) → remove_recursive_pin g' target (mkRefs refs' false) = (Some tt, forget_direct g target).
Proof.
  intros Hg Ht Hnd Hnt Hroot. set (key := cid_to_bytes target). set (n := Z.of_nat (length refs)).
  set (d0 := root_doc g target). set (g1 := <[key := with_recursive d0 Intent]> g).
  assert (Hdir : direct d0 = false) by done.
  assert (Hkey : ∀ c, c ∈ refs → cid_to_bytes c ≠ key) by (intros c Hc Heq%key_inj; by subst).
  assert (Hkey' : key ∉ map cid_to_bytes refs) by (intros (c & Heq & Hc)%list_elem_of_fmap; by apply (Hkey c)).
  assert (Hkeys : ∀ c, c ∈ refs → g1 !! cid_to_bytes c = g !! cid_to_bytes c) by (intros c Hc; apply lookup_insert_ne; by apply not_eq_sym, Hkey).
  assert (Hwo : ∀ c, c ∈ refs → without_root (root_string (to_v1 target)) (g !! cid_to_bytes c)).
  { intros c Hc d Hd. destruct (Hg _ _ Hd) as [(_ & Hs & _) Hcr]. unfold root_string. rewrite to_v1_idem. eauto. }
  destruct (insert_refs_all g1 (to_v1 target) refs) as (g2 & H2 & Hin2 & Hout2); [done|intros c Hc; rewrite Hkeys by done; by apply Hwo|].
  set (g3 := <[key := with_recursive d0 (Count n)]> g2).
  assert (Hk3 : g3 !! key = Some (with_recursive d0 (Count n))) by apply lookup_insert_eq.
  assert (Hin3 : ∀ c, c ∈ refs → g3 !! cid_to_bytes c = Some (add_root (root_string (to_v1 target)) c (g !! cid_to_bytes c))).
  { intros c Hc. unfold g3. rewrite lookup_insert_ne by (by apply not_eq_sym, Hkey). rewrite Hin2 by done. by rewrite Hkeys. }
  exists g3. split_and!.
  - unfold insert_recursive_pin. rewrite root_intent by done. change (<[_ := _]> g) with g1. simpl. rewrite H2. fold n.
    rewrite (root_count g2 target d0 n); [done| |done]. rewrite Hout2 by done. apply lookup_insert_eq.
  - by exists (with_recursive d0 (Count n)), n.
  - intros refs' Hnd' Hsame. unfold remove_recursive_pin. fold key. rewrite Hk3. cbn [pick_kind doc_mode is_set recursive with_recursive].
    rewrite (root_unpin g g3 target n) by done. simpl.
    destruct (remove_refs_all (put_back key (rest_of (g !! key)) g3) g (to_v1 target) refs') as (g5 & H5 & Hin5 & Hout5);
      [done|intros c Hc%Hsame; by apply Hwo| |].
    { intros c Hc%Hsame. rewrite put_back_ne by (by apply Hkey). by apply Hin3. }
    fold key. rewrite H5. f_equal. apply map_eq. intros k. unfold forget_direct. fold key.
    destruct (decide (k ∈ map cid_to_bytes refs')) as [(c & -> & Hc)%list_elem_of_fmap|Hk].
    { rewrite Hin5 by done. rewrite put_back_ne; [done|]. by apply Hkey, Hsame. }
    rewrite Hout5 by done. destruct (decide (k = key)) as [->|Hne]; [by rewrite !put_back_eq|]. rewrite !put_back_ne by done.
    assert (Hk' : k ∉ map cid_to_bytes refs) by (intros (c & -> & Hc%Hsame)%list_elem_of_fmap; by apply Hk, list_elem_of_fmap_2).
    unfold g3. rewrite lookup_insert_ne by done. rewrite Hout2 by done. unfold g1. by rewrite lookup_insert_ne.
Qed.

End Pins.

(** ** Blocks *)

Section Blocks.
Context {R : RustIpfs} {C : ContentHash} {CL : ContentHashLaws C} {S : Type} {B : BlockStore S} {BL : BlockStoreLaws S B}.

Abbreviation view r := (bs_view (block_store r)).

(** A block is under the hash of its CID. *)
Definition keyed (r : Repo S) : Prop := map_Forall (λ h b, cid_hash (block_cid b) = h) (view r).

Definition kept (r : Repo S) (hb : Bytes * Block) : Prop := is_pinned (pins r) (block_cid hb.2) = true.
#[export] Instance kept_dec r hb : Decision (kept r hb) := decide (_ = true).

Lemma put_block_keyed w r b : keyed r → keyed (put_block w r b).2.
Proof.
  intros Hr. unfold put_block. destruct (bs_put (block_store r) b) as [[[c p]|] s] eqn:Hp.
  - apply put_view in Hp. assert (Hk : map_Forall (λ h b, cid_hash (block_cid b) = h) (bs_view s)).
    { destruct (bs_view (block_store r) !! _) eqn:Hl; destruct Hp as [_ ->]; [exact Hr|]. by apply map_Forall_insert_2. }
    by destruct p.
  - apply put_failed in Hp. unfold keyed. simpl. by rewrite Hp.
Qed.

(** A stored block stays what it is; a new one can be read. *)
Lemma put_block_get w r b c p r' :
  keyed r → put_block w r b = (Some (c, p), r') →
  (∀ h x, view r !! h = Some x → view r' !! h = Some x) ∧ is_Some (view r' !! cid_hash (block_cid b)) ∧
  (view r !! cid_hash (block_cid b) = None → view r' !! cid_hash (block_cid b) = Some b).
Proof.
  intros Hr. unfold put_block. destruct (bs_put (block_store r) b) as [[[c' p']|] s] eqn:Hp; [|done]. apply put_view in Hp.
  destruct (bs_view (block_store r) !! _) eqn:Hl; destruct Hp as [-> Hv].
  - intros [= _ _ <-]. simpl. rewrite Hv, Hl. split; [done|]. split; [by eexists|done].
  - destruct (announce w _); [|done]. intros [= _ _ <-]. simpl. rewrite Hv, lookup_insert_eq. split; [|split; [by eexists|done]].
    intros h x Hx. rewrite lookup_insert_ne; [done|]. intros <-. by rewrite Hl in Hx.
Qed.

Definition reliable : Prop := (∀ s c, (bs_remove s c).1 ≠ None) ∧ (∀ s, bs_list s ≠ None).

Lemma remove_block_view r c :
  reliable → is_pinned (pins r) c = false →
  ∃ r', remove_block r c = (if decide (is_Some (view r !! cid_hash c)) then Some c else None, r') ∧
    pins r' = pins r ∧ view r' = delete (cid_hash c) (view r).
Proof.
  intros [Hrel _] Hp. unfold remove_block. rewrite Hp. pose proof (Hrel (block_store r) c) as Hn.
  destruct (bs_remove (block_store r) c) as [[res|] s] eqn:Hr; [|done]. apply remove_view in Hr as [-> Hv].
  case_decide; eexists; (split; [done|]); simpl; by rewrite Hv.
Qed.

(** The loop removes the listed blocks that are not pinned. *)
Lemma cleanup_loop_spec (r : Repo S) cids removed :
  reliable → NoDup (map cid_hash cids) → Forall (λ c, is_Some (view r !! cid_hash c)) cids →
  ∃ r', cleanup_loop r cids removed = (removed ++ filter (λ c, is_pinned (pins r) c = false) cids, r') ∧ pins r' = pins r ∧
    (∀ c, c ∈ cids → is_pinned (pins r) c = false → view r' !! cid_hash c = None) ∧
    (∀ h, (∀ c, c ∈ cids → is_pinned (pins r) c = false → cid_hash c ≠ h) → view r' !! h = view r !! h).
Proof.
  intros Hrel. revert r removed. induction cids as [|c cids IH]; intros r removed Hnd Hall.
  - exists r. simpl. rewrite app_nil_r. split; [done|]. split; [done|]. split; [set_solver|done].
  - apply NoDup_cons in Hnd as [Hc Hnd]. apply Forall_cons in Hall as [Hin Hall]. cbn [cleanup_loop]. rewrite filter_cons.
    destruct (is_pinned (pins r) c) eqn:Hp.
    + rewrite decide_False by done. destruct (IH r removed Hnd Hall) as (r' & -> & Hpins & Hgone & Hstay). exists r'. split; [done|]. split; [done|].
      split; [intros c' [->|Hc']%elem_of_cons Hp'; [congruence|by apply Hgone]|]. intros h Hh. apply Hstay. intros c' Hc'. apply Hh. by right.
    + rewrite decide_True by done. destruct (remove_block_view r c Hrel Hp) as (r1 & -> & Hp1 & Hv1). rewrite decide_True by done.
      destruct (IH r1 (removed ++ [c]) Hnd) as (r' & -> & Hpins & Hgone & Hstay).
      { apply Forall_forall. intros x Hx. rewrite Forall_forall in Hall. rewrite Hv1, lookup_delete_ne; [by apply Hall|].
        intros Heq. apply Hc. rewrite Heq. by apply (list_elem_of_fmap_2 cid_hash). }
      rewrite Hp1 in *. exists r'. rewrite <- app_assoc. split; [done|]. split; [done|]. split.
      * intros c' [->|Hc']%elem_of_cons Hp'; [|by apply Hgone]. rewrite Hstay; [rewrite Hv1; apply lookup_delete_eq|].
        intros c2 Hc2 _ Heq. apply Hc. rewrite <- Heq. by apply (list_elem_of_fmap_2 cid_hash).
      * intros h Hh. rewrite Hstay by (intros c' Hc'; apply Hh; by right). rewrite Hv1. apply lookup_delete_ne. apply Hh; [by left|done].
Qed.

Lemma listed_hashes r l : keyed r → bs_list (block_store r) = Some l → l ≡ₚ map (λ kb, block_cid kb.2) (map_to_list (view r)) ∧
  map cid_hash l ≡ₚ (map_to_list (view r)).*1.
Proof.
  intros Hk Hl. apply list_view in Hl. split; [done|]. rewrite Hl, map_map. apply reflexive_eq, map_ext_in.
  intros [h b] Hin%list_elem_of_In%elem_of_map_to_list. by apply Hk.
Qed.

(** A clean-up of a repository removes exactly the blocks whose CID is not pinned: it reports
    them, the other blocks stay as they are, and no pin changes. *)
Theorem cleanup_exact (r : Repo S) :
  keyed r → reliable →
  ∃ removed r', cleanup r = (Some removed, r') ∧ pins r' = pins r ∧ view r' = filter (kept r) (view r) ∧
    ∀ c, c ∈ removed ↔ is_pinned (pins r) c = false ∧ ∃ b, view r !! cid_hash c = Some b ∧ block_cid b = c.
Proof.
  intros Hk Hrel. unfold cleanup, list_blocks. destruct (bs_list (block_store r)) as [l|] eqn:Hl; [|by destruct (proj2 Hrel (block_store r))].
  destruct (listed_hashes r l Hk Hl) as [Hp Hh].
  assert (Hin : ∀ c, c ∈ l ↔ ∃ b, view r !! cid_hash c = Some b ∧ block_cid b = c).
  { intros c. rewrite Hp, list_elem_of_fmap. split.
    - intros ([h b] & -> & Hb%elem_of_map_to_list). exists b. split; [|done]. simpl. by rewrite (Hk h b Hb).
    - intros (b & Hb & <-). exists (cid_hash (block_cid b), b). split; [done|]. by apply elem_of_map_to_list. }
  destruct (cleanup_loop_spec r l []) as (r' & -> & Hpins & Hgone & Hstay); [done|rewrite Hh; apply NoDup_fst_map_to_list| |].
  { apply Forall_forall. intros c (b & -> & _)%Hin. by eexists. }
  exists (filter (λ c, is_pinned (pins r) c = false) l), r'. split; [done|]. split; [done|]. split.
  - apply map_eq. intros h. destruct (view r !! h) as [b|] eqn:Hb.
    + pose proof (Hk h b Hb) as Hcb. destruct (is_pinned (pins r) (block_cid b)) eqn:Hpin.
      * rewrite Hstay; [|intros c (b' & Hb' & <-)%Hin Hc Heq; rewrite Heq, Hb in Hb'; congruence].
        rewrite Hb. symmetry. by apply map_lookup_filter_Some.
      * rewrite <- Hcb. rewrite Hgone; [|apply Hin; exists b; by rewrite Hcb|done]. symmetry. apply map_lookup_filter_None. right.
        intros b' Hb'. rewrite Hcb, Hb in Hb'. simplify_eq. unfold kept. simpl. by rewrite Hpin.
    + rewrite Hstay; [|intros c (b' & Hb' & <-)%Hin Hc Heq; congruence]. rewrite Hb. symmetry. apply map_lookup_filter_None. by left.
  - intros c. rewrite list_elem_of_filter, Hin. done.
Qed.

End Blocks.

Section Versions.
Context {R : RustIpfs} {C : ContentHash} {CL : ContentHashLaws C}.
Import MemBlockStore.

Definition empty_repo : Repo MemBlockStore.t := mkRepo MemBlockStore.new ∅ [].

(** Blocks are found by their hash but pins by the whole CID: a block that was stored under its
    version 0 CID and pinned under its version 1 CID is readable under both, and a clean-up removes it
    although it is pinned. *)
Theorem cleanup_removes_pinned_block (w : Swarm) c0 data :
  version c0 = V0 →
  let c1 := cid_new_v1 (cid_codec c0) (cid_hash c0) in
  let r := (put_block w empty_repo (mkBlock c0 data)).2 in
  let r := mkRepo (block_store r) (insert_direct_pin (pins r) c1).2 (repo_events r) in
  is_pinned (pins r) c1 = true ∧ get_block_now r c1 = Some (Some (mkBlock c0 data)) ∧
  get_block_now (cleanup r).2 c1 = Some None.
Proof.
  intros Hv c1 r0 r.
  assert (Hne : cid_to_bytes c1 ≠ cid_to_bytes c0).
  { intros Heq%key_inj. pose proof (cid_v1_version (cid_codec c0) (cid_hash c0)) as Hv1. fold c1 in Hv1. congruence. }
  assert (Hh : cid_hash c1 = cid_hash c0) by apply cid_v1_hash.
  assert (Hr : ∃ ev, r = mkRepo (MemBlockStore.mk {[cid_hash c0 := mkBlock c0 data]}) {[cid_to_bytes c1 := mkDoc 0 true Not 1 []]} ev).
  { exists (repo_events r0). unfold r, r0, put_block. simpl. unfold MemBlockStore.put. simpl. rewrite lookup_empty. simpl.
    unfold insert_direct_pin, insert_pin. rewrite lookup_empty. unfold new_doc, c1. by rewrite cid_v1_version. }
  destruct Hr as [ev ->]. clear r0.
  assert (Hnp : is_pinned {[cid_to_bytes c1 := mkDoc 0 true Not 1 []]} c0 = false).
  { unfold is_pinned. rewrite lookup_singleton_ne by done. by apply bool_decide_eq_false; intros []. }
  split; [unfold is_pinned; simpl; rewrite lookup_singleton_eq; by apply bool_decide_eq_true; eexists|]. 
  split; [unfold get_block_now; simpl; unfold MemBlockStore.get; simpl; by rewrite Hh, lookup_singleton_eq|].
  unfold cleanup, list_blocks. simpl. unfold MemBlockStore.list. simpl. rewrite map_to_list_singleton. simpl. rewrite Hnp.
  unfold remove_block. simpl. rewrite Hnp. unfold MemBlockStore.remove. simpl. rewrite lookup_singleton_eq. simpl.
  unfold get_block_now. simpl. unfold MemBlockStore.get. simpl. by rewrite Hh, lookup_delete_eq.
Qed.

End Versions.
