(* ===== verification/Dag.v ===== *)
(** Resolving a path to a document ([utils/rust-ipfs/src/dag.rs], [ipns/mod.rs], [ipns/dnslink.rs] and
    [unixfs/src/dagpb.rs]): the DNS names of the root, then the segments, document by document, over
    dag-pb directories and IPLD values.

    Decoding a block to an IPLD value is the crate [libipld], the lookup of TXT records is a DNS
    resolver: they are fields of [Outside], with the swarm of [Repo].  The loops over documents and names
    have no bound in the code: their models take fuel and answer [Unfinished] when it is used up. *)

From S2P Require Import Prelude Runtime Utf8 IpfsPath UnixfsPb FileAdder UnixfsDir Repo.

Section Dag.
Context `{Wire} `{ContentHash} {S : Type} `{!BlockStore S}.

(** [libipld::Ipld]; a map is the list of its entries in the order of the keys. *)
Inductive IpldValue :=
| INull
| IBool (b : bool)
| IInteger (n : Z)
| IFloat (bits : Z)
| IString (s : Bytes)
| IBytes (b : Bytes)
| IList (l : list IpldValue)
| IMap (m : list (Bytes * IpldValue))
| ILink (c : Cid).

Record Outside := mkOutside {
  swarm : Swarm;
  block_decode : Block → option IpldValue;
  (** [Ipld::iter]: a value and all that is in it *)
  ipld_iter : IpldValue → list IpldValue;
  (** the TXT records of a name, in order *)
  txt_lookup : Bytes → option (list Bytes) }.

(** ** Names *)

Definition starts_with (prefix s : Bytes) : bool := bool_decide (take (length prefix) s = prefix).

(** "_dnslink." and "dnslink=" *)
Definition dnslink_prefix : Bytes := [95; 100; 110; 115; 108; 105; 110; 107; 46].
Definition dnslink_key : Bytes := [100; 110; 115; 108; 105; 110; 107; 61].

(** The first record that is a dnslink, when it is a path; [None] otherwise. *)
Definition first_link (records : list Bytes) : option IpfsPath :=
  match list_find (λ txt, starts_with dnslink_key txt = true) records with
  | Some (_, txt) =>
      let suffix := drop (length dnslink_key) txt in
      if from_utf8 suffix then match from_str suffix with inl p => Some p | inr _ => None end else None
  | None => None
  end.

Fixpoint first_resolved (o : Outside) (searched : list Bytes) : option IpfsPath :=
  match searched with
  | [] => None
  | domain :: searched =>
      match txt_lookup o domain with
      | None => first_resolved o searched
      | Some records =>
          match first_link records with
          | Some p => Some p
          | None => first_resolved o searched
          end
      end
  end.

Definition dnslink_resolve (o : Outside) (domain : Bytes) : option IpfsPath :=
  first_resolved o (domain :: (if starts_with dnslink_prefix domain then [] else [dnslink_prefix ++ domain])).

(** [Ipns::resolve] *)
Definition ipns_resolve (o : Outside) (p : IpfsPath) : option IpfsPath :=
  match root p with
  | Ipld _ => Some p
  | Ipns _ => None
  | Dns domain => dnslink_resolve o domain
  end.

Context `{!EqDecision IpfsPath}.

Inductive Resolution := Resolved (p : IpfsPath) | ResolutionFailed | Unfinished.

(** The loop of [Ipfs::resolve_ipns]: until a path comes up again. *)
Fixpoint resolve_names (fuel : nat) (o : Outside) (seen : list IpfsPath) (resolved : option IpfsPath) : Resolution :=
  match resolved with
  | None => ResolutionFailed
  | Some res =>
      if bool_decide (res ∈ seen) then Resolved res else
      match fuel with
      | O => Unfinished
      | Datatypes.S fuel => resolve_names fuel o (res :: seen) (ipns_resolve o res)
      end
  end.

Definition resolve_ipns (fuel : nat) (o : Outside) (p : IpfsPath) (recurse : bool) : Resolution :=
  let resolved := ipns_resolve o p in
  if recurse then resolve_names fuel o [] resolved
  else match resolved with Some p => Resolved p | None => ResolutionFailed end.

(** ** The data of a dag-pb node *)

(** The last data field of a node with its place in the block. *)
Definition data_field (total : nat) (tag : Z) (msg : option (nat * Bytes)) (r : Bytes) : option (option (nat * Bytes) * Bytes) :=
  if tag =? 18 then match read_message read_pblink r with Some (_, r) => Some (msg, r) | None => None end
  else if tag =? 10 then
    match read_bytes r with
    | Some (x, r) => Some (Some ((total - length r - length x)%nat, x), r)
    | None => None
    end
  else unknown tag msg r.

(** [node_data]; [None] is an error of the reader. *)
Definition node_data (block : Bytes) : option (option (nat * Bytes)) :=
  from_reader (data_field (length block)) None block.

(** [subslice_to_range] for a slice of [full] that starts at [start] *)
Definition subslice_to_range (full : Bytes) (start : nat) (sub : Bytes) : option (nat * nat) :=
  if (length full <? length sub)%nat then None
  else if (length full <=? start)%nat then None
  else Some (start, start + length sub)%nat.

Record WrappedData := mkWrapped { inner_block : Bytes; data_range : option (nat * nat) }.

(** The [expect] of a data field outside its block panics; [Err] is an error of the reader. *)
Definition wrap_node_data (block : Bytes) : outcome unit WrappedData :=
  match node_data block with
  | None => Err tt
  | Some None => Ok (mkWrapped block None)
  | Some (Some (start, data)) =>
      match subslice_to_range block start data with
      | Some range => Ok (mkWrapped block (Some range))
      | None => Panic
      end
  end.

(** ** Resolving in a document *)

Inductive ResolvedNode :=
| NBlock (b : Block)
| NDagPbData (c : Cid) (d : WrappedData)
| NProjection (c : Cid) (v : IpldValue)
| NLink (source dest : Cid).

Inductive LocallyResolved := Complete (n : ResolvedNode) | Incomplete (c : Cid) (l : ShardedLookup).

Inductive RawResolveLocalError :=
| RawLoading (c : Cid)
| RawUnsupportedDocument (c : Cid)
| RawListIndexOutOfRange (document : Cid) (segment_index : nat) (index : Z) (elements : nat)
| RawInvalidIndex (document : Cid) (segment_index : nat)
| RawNoLinks (document : Cid) (segment_index : nat)
| RawNotFound (document : Cid) (segment_index : nat)
| RawUnfinished.

Definition add_starting_point_in_path (e : RawResolveLocalError) (start : nat) : RawResolveLocalError :=
  match e with
  | RawListIndexOutOfRange d s i n => RawListIndexOutOfRange d (s + start) i n
  | RawInvalidIndex d s => RawInvalidIndex d (s + start)
  | RawNoLinks d s => RawNoLinks d (s + start)
  | RawNotFound d s => RawNotFound d (s + start)
  | e => e
  end.

(** "Data" *)
Definition data_segment : Bytes := [68; 97; 116; 97].

Definition resolve_local_dagpb (cid : Cid) (data segment : Bytes) (is_last : bool) : outcome RawResolveLocalError (LocallyResolved * nat) :=
  match resolve data segment with
  | Ok (NeedToLoadMore lookup) => Ok (Incomplete cid lookup, 0%nat)
  | Ok (Found dest) => Ok (Complete (NLink cid dest), 1%nat)
  | Ok NameNotFound =>
      if bool_decide (segment = data_segment) && is_last then
        match wrap_node_data data with
        | Ok wrapped => Ok (Complete (NDagPbData cid wrapped), 1%nat)
        | _ => Panic
        end
      else Err (RawNotFound cid 0)
  | Err (UnexpectedNode ty) =>
      if bool_decide (UnixFsType.from_i32 ty = UnixFsType.File) then Err (RawNotFound cid 0) else Err (RawUnsupportedDocument cid)
  | Err _ => Err (RawUnsupportedDocument cid)
  | Panic => Panic
  end.

(** [str::parse::<usize>] *)
Fixpoint parse_digits (s : Bytes) (n : Z) : option Z :=
  match s with
  | [] => Some n
  | c :: s =>
      if (48 <=? c) && (c <=? 57) then
        let n := 10 * n + (c - 48) in
        if n <=? umax 64 then parse_digits s n else None
      else None
  end.

Definition parse_usize (s : Bytes) : option Z :=
  match s with
  | [] => None
  | 43 :: [] => None
  | 43 :: s => parse_digits s 0
  | s => parse_digits s 0
  end.

Definition map_get (m : list (Bytes * IpldValue)) (key : Bytes) : option IpldValue :=
  snd <$> (snd <$> list_find (λ kv, kv.1 = key) m).

Definition dot : Bytes := [46].

(** The result and the segments that are left.  Every turn but the last takes a segment. *)
Fixpoint resolve_local_ipld (document : Cid) (ipld : IpldValue) (segments : list Bytes) (matched_count : nat) :
  (LocallyResolved * nat + RawResolveLocalError) * list Bytes :=
  match ipld, segments with
  | ILink cid, segment :: rest =>
      if bool_decide (segment = dot) then (inl (Complete (NLink document cid), Datatypes.S matched_count), rest)
      else (inl (Complete (NLink document cid), matched_count), segments)
  | ILink cid, [] => (inl (Complete (NLink document cid), matched_count), [])
  | IMap map, segment :: rest =>
      match map_get map segment with
      | Some found => resolve_local_ipld document found rest (Datatypes.S matched_count)
      | None => (inr (RawNotFound document matched_count), rest)
      end
  | IList vec, segment :: rest =>
      match parse_usize segment with
      | Some index =>
          match vec !! Z.to_nat index with
          | Some v => resolve_local_ipld document v rest (Datatypes.S matched_count)
          | None => (inr (RawListIndexOutOfRange document matched_count index (length vec)), rest)
          end
      | None => (inr (RawInvalidIndex document matched_count), rest)
      end
  | _, _ :: rest => (inr (RawNoLinks document matched_count), rest)
  | anything, [] => (inl (Complete (NProjection document anything), matched_count), [])
  end.

Definition resolve_local (o : Outside) (block : Block) (segments : list Bytes) :
  outcome RawResolveLocalError (LocallyResolved * nat) * list Bytes :=
  match segments with
  | [] => (Ok (Complete (NBlock block), 0%nat), [])
  | segment :: rest =>
      if cid_codec (block_cid block) =? DAG_PB then
        (resolve_local_dagpb (block_cid block) (block_data block) segment (bool_decide (rest = [])), rest)
      else
        match block_decode o block with
        | None => (Err (RawUnsupportedDocument (block_cid block)), segments)
        | Some ipld =>
            match resolve_local_ipld (block_cid block) ipld segments 0 with
            | (inl r, rest) => (Ok r, rest)
            | (inr e, rest) => (Err e, rest)
            end
        end
  end.

(** ** Resolving across documents *)

Inductive HamtError := HamtLoading | HamtLookup (e : LookupError) | KeyNotFound | HamtUnfinished.

Fixpoint resolve_hamt (fuel : nat) (o : Outside) (r : Repo S) (lookup : ShardedLookup) : outcome HamtError Cid * Repo S :=
  match fuel with
  | O => (Err HamtUnfinished, r)
  | Datatypes.S fuel =>
      match pending_bucket lookup with
      | None => (Panic, r)
      | Some next =>
          match get_block (swarm o) r next with
          | (None, r) => (Err HamtLoading, r)
          | (Some block, r) =>
              match lookup_continue lookup (block_data block) with
              | Ok (NeedToLoadMore next) => resolve_hamt fuel o r next
              | Ok (Found cid) => (Ok cid, r)
              | Ok NameNotFound => (Err KeyNotFound, r)
              | Err e => (Err (HamtLookup e), r)
              | Panic => (Panic, r)
              end
          end
      end
  end.

(** The node and the number of segments matched. *)
Fixpoint resolve0 (fuel : nat) (o : Outside) (r : Repo S) (current : Cid) (segments : list Bytes) (follow_links : bool) (total : nat) :
  outcome RawResolveLocalError (ResolvedNode * nat) * Repo S :=
  match fuel with
  | O => (Err RawUnfinished, r)
  | Datatypes.S fuel' =>
      match get_block (swarm o) r current with
      | (None, r) => (Err (RawLoading current), r)
      | (Some block, r) =>
          let start := total in
          match resolve_local o block segments with
          | (Panic, _) => (Panic, r)
          | (Err e, _) => (Err (add_starting_point_in_path e start), r)
          | (Ok (resolution, matched), segments) =>
              let total := (total + matched)%nat in
              let next src dest r :=
                if negb follow_links then (Ok (NLink src dest, total), r)
                else resolve0 fuel' o r dest segments follow_links total in
              match resolution with
              | Complete (NLink src dest) => next src dest r
              | Incomplete src lookup =>
                  match resolve_hamt fuel o r lookup with
                  | (Ok dest, r) => next src dest r
                  | (Err HamtUnfinished, r) => (Err RawUnfinished, r)
                  | (Err _, r) => (Err (RawUnsupportedDocument src), r)
                  | (Panic, r) => (Panic, r)
                  end
              | Complete other => (Ok (other, start), r)
              end
          end
      end
  end.

Inductive ResolveError :=
| LoadingFailed (c : Cid)
| UnsupportedDocument (c : Cid)
| ListIndexOutOfRange (document : Cid) (p : list Bytes) (index : Z) (elements : nat)
| NoLinks (c : Cid) (p : list Bytes)
| SegmentNotFound (c : Cid) (p : list Bytes)
| NoCid (p : IpfsPath)
| IpnsResolutionFailed (p : IpfsPath)
| ResolveUnfinished.

(** [None] is the assertion of [into_truncated]. *)
Definition with_path (e : RawResolveLocalError) (p : IpfsPath) : option ResolveError :=
  match e with
  | RawLoading c => Some (LoadingFailed c)
  | RawUnsupportedDocument c => Some (UnsupportedDocument c)
  | RawListIndexOutOfRange d s i n => (λ p, ListIndexOutOfRange d p i n) <$> into_truncated p (s + 1)
  | RawNoLinks d s => NoLinks d <$> into_truncated p (s + 1)
  | RawInvalidIndex d s | RawNotFound d s => SegmentNotFound d <$> into_truncated p (s + 1)
  | RawUnfinished => Some ResolveUnfinished
  end.

Definition dag_resolve (fuel : nat) (o : Outside) (r : Repo S) (p : IpfsPath) (follow_links : bool) :
  outcome ResolveError (ResolvedNode * list Bytes) * Repo S :=
  match resolve_ipns fuel o p true with
  | Unfinished => (Err ResolveUnfinished, r)
  | ResolutionFailed => (Err (IpnsResolutionFailed p), r)
  | Resolved resolved_path =>
      match root_cid (root resolved_path) with
      | None => (Err (NoCid resolved_path), r)
      | Some cid =>
          match resolve0 fuel o r cid (path resolved_path) follow_links 0 with
          | (Panic, r) => (Panic, r)
          | (Err e, r) => (match with_path e resolved_path with Some e => Err e | None => Panic end, r)
          | (Ok (node, matched), r) =>
              (match into_shifted resolved_path matched with Some rest => Ok (node, rest) | None => Panic end, r)
          end
      end
  end.

Definition node_source (n : ResolvedNode) : Cid :=
  match n with NBlock b => block_cid b | NDagPbData c _ | NProjection c _ | NLink c _ => c end.

Inductive UnexpectedResolved := UnexpectedCodec (n : ResolvedNode) | NonBlock (n : ResolvedNode).

Definition into_unixfs_block (n : ResolvedNode) : Block + UnexpectedResolved :=
  if negb (cid_codec (node_source n) =? DAG_PB) then inr (UnexpectedCodec n)
  else match n with NBlock b => inl b | _ => inr (NonBlock n) end.

End Dag.
