(* ===== verification/Refs.v ===== *)
(** The references of a document ([utils/rust-ipfs/src/refs.rs]) and the pins of [Ipfs]
    ([insert_pin] and [remove_pin] of [utils/rust-ipfs/src/lib.rs]): a breadth-first walk over linked
    blocks, as a stream that is polled, and the recursive pins that drain it.

    A panic in the conversion of a dag-pb node is [Panic]; a walk has no bound in the code, so draining it
    takes fuel. *)

From S2P Require Import Prelude Runtime Utf8 IpfsPath UnixfsPb FileAdder UnixfsDir Repo Dag.

Section Refs.
Context `{Wire} `{ContentHash} {S : Type} `{!BlockStore S}.

Record Edge := mkEdge { source : Cid; destination : Cid; edge_name : option Bytes }.

Inductive IpldRefsError := Loading (c : Cid) | BlockNotFound (c : Cid).

Record IpldRefs := mkIpldRefs { max_depth : option Z; unique : bool; download_blocks : bool }.

Definition default_refs : IpldRefs := mkIpldRefs None false true.
Definition with_max_depth (o : IpldRefs) (depth : Z) : IpldRefs := mkIpldRefs (Some depth) (unique o) (download_blocks o).
Definition with_only_unique (o : IpldRefs) : IpldRefs := mkIpldRefs (max_depth o) true (download_blocks o).
Definition with_existing_blocks (o : IpldRefs) : IpldRefs := mkIpldRefs (max_depth o) (unique o) false.

(** "Links", "Hash", "Name" *)
Definition links_key : Bytes := [76; 105; 110; 107; 115].
Definition hash_key : Bytes := [72; 97; 115; 104].
Definition name_key : Bytes := [78; 97; 109; 101].

(** One element of [Links]: [None] is a panic, [Some None] an element without a hash. *)
Definition dagpb_link (v : IpldValue) : option (option (option Bytes * Cid)) :=
  match v with
  | IMap m =>
      match map_get m hash_key with
      | None => Some None
      | Some (ILink link) =>
          match map_get m name_key with
          | Some (IString s) => if bool_decide (s = [slash]) then None else Some (Some (Some s, link))
          | _ => None
          end
      | Some _ => None
      end
  | _ => None
  end.

Definition dagpb_links (ipld : IpldValue) : option (list (option Bytes * Cid)) :=
  match ipld with
  | IMap m =>
      match map_get m links_key with
      | Some (IList v) => omap id <$> mapM dagpb_link v
      | _ => None
      end
  | _ => Some []
  end.

Definition link_of (v : IpldValue) : option (option Bytes * Cid) := match v with ILink c => Some (None, c) | _ => None end.

Definition ipld_links (o : Outside) (cid : Cid) (ipld : IpldValue) : option (list (option Bytes * Cid)) :=
  if cid_codec cid =? DAG_PB then dagpb_links ipld else Some (omap link_of (ipld_iter o ipld)).

(** *** The stream *)

(** The queue of [(depth, cid, source, link_name)], the CIDs that were queued before, and whether the
    stream has returned. *)
Record RefsStream := mkStream { work : list (Z * Cid * Cid * option Bytes); queued_or_visited : list Cid; finished : bool }.

(** Queueing the links of a document. *)
Fixpoint push_links (opts : IpldRefs) (depth : Z) (origin : Cid) (links : list (option Bytes * Cid)) (st : RefsStream) : RefsStream :=
  match links with
  | [] => st
  | (link_name, next_cid) :: links =>
      if unique opts && bool_decide (next_cid ∈ queued_or_visited st) then push_links opts depth origin links st
      else push_links opts depth origin links
             (mkStream (work st ++ [(depth, next_cid, origin, link_name)])
                (if unique opts then next_cid :: queued_or_visited st else queued_or_visited st) (finished st))
  end.

Fixpoint push_documents (o : Outside) (opts : IpldRefs) (iplds : list (Cid * IpldValue)) (st : RefsStream) : option RefsStream :=
  match iplds with
  | [] => Some st
  | (origin, ipld) :: iplds =>
      match ipld_links o origin ipld with
      | None => None
      | Some links => push_documents o opts iplds (push_links opts 0 origin links st)
      end
  end.

(** [iplds_refs_inner] up to the stream; [None] is a panic. *)
Definition iplds_refs_inner (o : Outside) (opts : IpldRefs) (iplds : list (Cid * IpldValue)) : option RefsStream :=
  if match max_depth opts with Some n => n =? 0 | None => false end then Some (mkStream [] [] true)
  else push_documents o opts iplds (mkStream [] [] false).

(** Polling the stream: the next item, if any.  A turn that yields nothing takes an item off the queue. *)
Fixpoint refs_next (fuel : nat) (o : Outside) (opts : IpldRefs) (r : Repo S) (st : RefsStream) :
  outcome Unbounded (option (Edge + IpldRefsError)) * RefsStream * Repo S :=
  if finished st then (Ok None, st, r) else
  match work st with
  | [] => (Ok None, mkStream [] (queued_or_visited st) true, r)
  | (depth, cid, source, link_name) :: rest =>
      let st := mkStream rest (queued_or_visited st) false in
      match fuel with
      | O => (Err OutOfFuel, st, r)
      | Datatypes.S fuel =>
          if match max_depth opts with Some d => d <=? depth | None => false end then refs_next fuel o opts r st else
          let traverse_links := match max_depth opts with Some d => negb (d + 1 =? depth) | None => true end in
          let loaded :=
            if download_blocks opts then
              match get_block (swarm o) r cid with
              | (Some block, r) => (Some (inl block), r)
              | (None, r) => (None, r)
              end
            else
              match get_block_now r cid with
              | Some (Some block) => (Some (inl block), r)
              | Some None => (Some (inr (BlockNotFound cid)), r)
              | None => (Some (inr (Loading cid)), r)
              end in
          match loaded with
          | (None, r) => refs_next fuel o opts r st
          | (Some (inr e), r) => (Ok (Some (inr e)), mkStream (work st) (queued_or_visited st) true, r)
          | (Some (inl block), r) =>
              match block_decode o block with
              | None => (Ok (Some (inr (Loading cid))), st, r)
              | Some ipld =>
                  let edge := mkEdge source cid link_name in
                  if traverse_links then
                    match ipld_links o cid ipld with
                    | None => (Panic, st, r)
                    | Some links => (Ok (Some (inl edge)), push_links opts (depth + 1) cid links st, r)
                    end
                  else (Ok (Some (inl edge)), st, r)
              end
          end
      end
  end.

(** Draining the stream: the references up to its end or its first error, and which of the two it was. *)
Fixpoint drain (fuel : nat) (o : Outside) (opts : IpldRefs) (r : Repo S) (st : RefsStream) (refs : list Cid) :
  list Cid * outcome Unbounded bool * Repo S :=
  match fuel with
  | O => (refs, Err OutOfFuel, r)
  | Datatypes.S fuel =>
      match refs_next (length (work st)) o opts r st with
      | (Ok None, _, r) => (refs, Ok false, r)
      | (Ok (Some (inr _)), _, r) => (refs, Ok true, r)
      | (Ok (Some (inl edge)), st, r) => drain fuel o opts r st (refs ++ [destination edge])
      | (Err e, _, r) => (refs, Err e, r)
      | (Panic, _, r) => (refs, Panic, r)
      end
  end.

Definition refs_of_resolved (o : Outside) (opts : IpldRefs) (cid : Cid) (ipld : IpldValue) : option RefsStream :=
  iplds_refs_inner o opts [(cid, ipld)].

(** ** Pins *)

Definition set_pins (r : Repo S) (g : Pins) : Repo S := mkRepo (block_store r) g (repo_events r).

Inductive PinFailure := PinLoading | PinDecoding | PinUpdate (e : PinUpdateError) | PinRefs | PinNotPossible | PinUnfinished.

Definition stream_failed (ending : outcome Unbounded bool) : bool := match ending with Ok false => false | _ => true end.

(** What is reported when the stream did not end well. *)
Definition stream_failure (ending : outcome Unbounded bool) : outcome PinFailure unit :=
  match ending with Ok _ => Err PinRefs | Err OutOfFuel => Err PinUnfinished | Panic => Panic end.

(** The intention of a recursive pin is written before the stream is polled. *)
Definition ipfs_insert_pin (fuel : nat) (o : Outside) (r : Repo S) (cid : Cid) (recursive : bool) : outcome PinFailure unit * Repo S :=
  match get_block (swarm o) r cid with
  | (None, r) => (Err PinLoading, r)
  | (Some block, r) =>
      if negb recursive then
        match insert_direct_pin (pins r) cid with
        | (Ok _, g) => (Ok tt, set_pins r g)
        | (Err e, g) => (Err (PinUpdate e), set_pins r g)
        | (Panic, g) => (Panic, set_pins r g)
        end
      else
        match block_decode o block with
        | None => (Err PinDecoding, r)
        | Some ipld =>
            match refs_of_resolved o (with_only_unique default_refs) cid ipld, insert_pin (pins r) cid RecursiveIntention with
            | None, _ => (Panic, r)
            | Some _, (Err e, g) => (Err (PinUpdate e), set_pins r g)
            | Some _, (Panic, g) => (Panic, set_pins r g)
            | Some st, (Ok _, _) =>
                let '(refs, ending, r) := drain fuel o (with_only_unique default_refs) r st [] in
                match insert_recursive_pin (pins r) cid (mkRefs refs (stream_failed ending)) with
                | (Ok _, g) => (Ok tt, set_pins r g)
                | (Err (Some e), g) => (Err (PinUpdate e), set_pins r g)
                | (Err None, g) => (stream_failure ending, set_pins r g)
                | (Panic, g) => (Panic, set_pins r g)
                end
            end
        end
  end.

(** Whether [remove_recursive_pin] gets to its references. *)
Definition polls_refs (g : Pins) (cid : Cid) : bool :=
  match g !! cid_to_bytes cid with
  | Some doc => match pick_kind doc with Some (Some (RecursiveK _ | RecursiveIntention)) => true | _ => false end
  | None => false
  end.

Definition ipfs_remove_pin (fuel : nat) (o : Outside) (r : Repo S) (cid : Cid) (recursive : bool) : outcome PinFailure unit * Repo S :=
  if negb recursive then
    match remove_direct_pin (pins r) cid with
    | (Some _, g) => (Ok tt, set_pins r g)
    | (None, g) => (Err PinNotPossible, set_pins r g)
    end
  else
    match get_block_now r cid with
    | None | Some None => (Err PinLoading, r)
    | Some (Some block) =>
        match block_decode o block with
        | None => (Err PinDecoding, r)
        | Some ipld =>
            let opts := with_existing_blocks (with_only_unique default_refs) in
            match refs_of_resolved o opts cid ipld with
            | None => (Panic, r)
            | Some st =>
                let '(refs, ending, r) := if polls_refs (pins r) cid then drain fuel o opts r st [] else ([], Ok false, r) in
                match remove_recursive_pin (pins r) cid (mkRefs refs (stream_failed ending)) with
                | (Some _, g) => (Ok tt, set_pins r g)
                | (None, g) => (match ending with Ok _ => Err PinNotPossible | _ => stream_failure ending end, set_pins r g)
                end
            end
        end
    end.

End Refs.
