(* ===== verification/Unixfs.v ===== *)
(** Files on top of the repository ([utils/rust-ipfs/src/unixfs/add.rs] and [cat.rs]): a stream of
    buffers is chunked into blocks that are put one by one, and a file is read back as a stream of chunks.

    A stream is the list of the items it yields with the way it ends ([Panic] when the task panics);
    [written] is a [usize] of 64 bits.  The text of an error is left out: it is the empty text. *)

From S2P Require Import Prelude Runtime Utf8 Offchain IpfsPath IpfsApi UnixfsPb FileAdder FileVisit UnixfsDir Repo Dag Refs.

Section Unixfs.
Context `{Wire} `{ContentHash} {S : Type} `{!BlockStore S} `{!EqDecision IpfsPath}.

(** ** Adding *)

Record AddOption := mkAddOption { opt_chunk : option nat; opt_pin : bool; opt_provide : bool; opt_cid_version : Version }.

Definition default_add_chunk : nat := Z.to_nat (1024 * 1024).

Definition default_add_option : AddOption := mkAddOption (Some default_add_chunk) false false DEFAULT_CID_VERSION.

Definition default_with_cid_version (v : Version) : AddOption :=
  mkAddOption (opt_chunk default_add_option) (opt_pin default_add_option) (opt_provide default_add_option) v.

(** [Chunker::default] and [BalancedCollector::default] *)
Definition default_chunker : nat := Z.to_nat (256 * 1024).
Definition default_branching_factor : nat := 174.

(** The adder of an upload. *)
Definition adder_for (opt : option AddOption) : FileAdder :=
  let a := build (default default_chunker (opt ≫= opt_chunk)) default_branching_factor in
  match opt with
  | Some o => mkAdder (chunker a) (branching_factor a) (block_buffer a) (unflushed_links a) (opt_cid_version o)
  | None => a
  end.

(** Putting the blocks that the adder emits: [None] when one is refused, else the CID of the last. *)
Fixpoint put_emitted (w : Swarm) (r : Repo S) (blocks : list (Cid * Bytes)) (last_cid : option Cid) : option (option Cid) * Repo S :=
  match blocks with
  | [] => (Some last_cid, r)
  | (cid, block) :: blocks =>
      if negb (verify_cid cid block) then (None, r) else
      match put_block w r (mkBlock cid block) with
      | (None, r) => (None, r)
      | (Some _, r) => put_emitted w r blocks (Some cid)
      end
  end.

(** One buffer of the stream.  A push of a non-empty buffer consumes a byte, so the length bounds the
    turns.  [None] when a block is refused. *)
Fixpoint push_buffer (fuel : nat) (w : Swarm) (r : Repo S) (a : FileAdder) (buffer : Bytes) (written : Z) :
  outcome Unbounded (option FileAdder) * Z * Repo S :=
  match buffer with
  | [] => (Ok (Some a), written, r)
  | _ =>
      match fuel with
      | O => (Err OutOfFuel, written, r)
      | Datatypes.S fuel =>
          match push a buffer with
          | Ok ((blocks, consumed), a) =>
              match put_emitted w r blocks None with
              | (None, r) => (Ok None, written, r)
              | (Some _, r) => push_buffer fuel w r a (drop consumed buffer) (wrapping_add 64 written (Z.of_nat consumed))
              end
          | Err e => (Err e, written, r)
          | Panic => (Panic, written, r)
          end
      end
  end.

(** The statuses of the buffers, and the adder at the end if the stream goes on. *)
Fixpoint push_stream (w : Swarm) (r : Repo S) (a : FileAdder) (stream : list Bytes) (written : Z) (total_size : option Z) :
  list UnixfsStatus * outcome Unbounded (option FileAdder) * Z * Repo S :=
  match stream with
  | [] => ([], Ok (Some a), written, r)
  | buffer :: stream =>
      match push_buffer (length buffer) w r a buffer written with
      | (Ok (Some a), written, r) =>
          let '(statuses, res, w', r) := push_stream w r a stream written total_size in
          (ProgressStatus written total_size :: statuses, res, w', r)
      | (Ok None, written, r) => ([FailedStatus written total_size (Some [])], Ok None, written, r)
      | (Err e, written, r) => ([], Err e, written, r)
      | (Panic, written, r) => ([], Panic, written, r)
      end
  end.

(** The pin at the end of an upload: an error of it is ignored. *)
Definition pin_added (fuel : nat) (o : Outside) (r : Repo S) (opt : option AddOption) (cid : Cid) : outcome Unbounded unit * Repo S :=
  match opt with
  | Some opt =>
      if opt_pin opt && negb (is_pinned (pins r) cid) then
        match ipfs_insert_pin fuel o r cid true with
        | (Panic, r) => (Panic, r)
        | (Err PinUnfinished, r) => (Err OutOfFuel, r)
        | (_, r) => (Ok tt, r)
        end
      else (Ok tt, r)
  | None => (Ok tt, r)
  end.

Definition add (fuel : nat) (o : Outside) (r : Repo S) (total_size : option Z) (stream : list Bytes) (opt : option AddOption) :
  list UnixfsStatus * outcome Unbounded unit * Repo S :=
  let '(statuses, res, written, r) := push_stream (swarm o) r (adder_for opt) stream 0 total_size in
  let statuses := ProgressStatus 0 total_size :: statuses in
  match res with
  | Err e => (statuses, Err e, r)
  | Panic => (statuses, Panic, r)
  | Ok None => (statuses, Ok tt, r)
  | Ok (Some a) =>
      match finish a with
      | Err e => (statuses, Err e, r)
      | Panic => (statuses, Panic, r)
      | Ok blocks =>
          match put_emitted (swarm o) r blocks None with
          | (None, r) => (statuses ++ [FailedStatus written total_size (Some [])], Ok tt, r)
          | (Some None, r) => (statuses ++ [FailedStatus written total_size None], Ok tt, r)
          | (Some (Some cid), r) =>
              match pin_added fuel o r opt cid with
              | (Ok _, r) => (statuses ++ [CompletedStatus (path_new (Ipld cid)) written total_size], Ok tt, r)
              | (Err e, r) => (statuses, Err e, r)
              | (Panic, r) => (statuses, Panic, r)
              end
          end
      end
  end.

(** ** Reading *)

Inductive StartingPoint := FromPath (p : IpfsPath) | FromBlock (b : Block).

Inductive TraversalFailed :=
| Resolving (e : ResolveError)
| NotAFile (e : UnexpectedResolved)
| LoadingBlock (c : Cid)
| Walking (c : Cid) (e : FileReadFailed).

Definition yield (bytes : Bytes) : list (Bytes + TraversalFailed) := match bytes with [] => [] | _ => [inl bytes] end.

(** The loop of the stream. *)
Fixpoint cat_loop (fuel : nat) (w : Swarm) (r : Repo S) (visit : FileVisit) :
  list (Bytes + TraversalFailed) * outcome Unbounded unit * Repo S :=
  match fuel with
  | O => ([], Err OutOfFuel, r)
  | Datatypes.S fuel =>
      match pending_link visit with
      | None => ([], Panic, r)
      | Some next =>
          match get_block w r next with
          | (None, r) => ([inr (LoadingBlock next)], Ok tt, r)
          | (Some block, r) =>
              match continue_walk visit (block_data block) with
              | Err e => ([inr (Walking (block_cid block) e)], Ok tt, r)
              | Panic => ([], Panic, r)
              | Ok (bytes, None) => (yield bytes, Ok tt, r)
              | Ok (bytes, Some visit) =>
                  let '(items, ending, r) := cat_loop fuel w r visit in
                  (yield bytes ++ items, ending, r)
              end
          end
      end
  end.

(** The block that the walk starts from. *)
Definition starting_block (fuel : nat) (o : Outside) (r : Repo S) (starting_point : StartingPoint) : outcome TraversalFailed Block * Repo S :=
  match starting_point with
  | FromBlock block => (Ok block, r)
  | FromPath p =>
      match dag_resolve fuel o r p true with
      | (Panic, r) => (Panic, r)
      | (Err e, r) => (Err (Resolving e), r)
      | (Ok (resolved, _), r) =>
          (match into_unixfs_block resolved with inl block => Ok block | inr e => Err (NotAFile e) end, r)
      end
  end.

(** The outer result is that of [cat] itself, the inner one the stream. *)
Definition cat (fuel : nat) (o : Outside) (r : Repo S) (starting_point : StartingPoint) (range : option Range) :
  outcome TraversalFailed (list (Bytes + TraversalFailed) * outcome Unbounded unit) * Repo S :=
  match starting_block fuel o r starting_point with
  | (Err e, r) => (Err e, r)
  | (Panic, r) => (Panic, r)
  | (Ok block, r) =>
      match start range (block_data block) with
      | Err e => (Err (Walking (block_cid block) e), r)
      | Panic => (Panic, r)
      | Ok (bytes, _, _, None) => (Ok (yield bytes, Ok tt), r)
      | Ok (bytes, _, _, Some visit) =>
          let '(items, ending, r) := cat_loop fuel (swarm o) r visit in
          (Ok (yield bytes ++ items, ending), r)
      end
  end.

(** ** The engine on a repository *)

(** [add_unixfs_with_cid_version] on one buffer; [None] when the task does not finish. *)
Definition add_unixfs (fuel : nat) (o : Outside) (r : Repo S) (v1 : bool) (data : Bytes) : option (list UnixfsStatus) :=
  match add fuel o r None [data] (Some (default_with_cid_version (if v1 then V1 else V0))) with
  | (statuses, Ok _, _) => Some statuses
  | _ => None
  end.

Definition cat_unixfs (fuel : nat) (o : Outside) (r : Repo S) (p : IpfsPath) : option (list (option Bytes)) :=
  match cat fuel o r (FromPath p) None with
  | (Ok (items, Ok _), _) => Some (map (λ i, match i with inl b => Some b | inr _ => None end) items)
  | _ => None
  end.

(** The engine whose files are in the repository [r]. *)
Definition with_files (fuel : nat) (o : Outside) (r : Repo S) (e : Engine) : Engine :=
  let '(mkEngine addrs _ listen stats _ connect disconnect find block closest providers ident ipin local refs peers publish unlisten rpin sub subs unsub) := e in
  mkEngine addrs (add_unixfs fuel o r) listen stats (cat_unixfs fuel o r) connect disconnect find block closest providers ident ipin local refs peers publish unlisten rpin sub subs unsub.

End Unixfs.

Lemma default_add_chunk_Z : Z.of_nat default_add_chunk = 1048576.
Proof. unfold default_add_chunk. rewrite Z2Nat.id; lia. Qed.

(** Large numbers in unary: never to be computed. *)
#[global] Opaque default_add_chunk default_chunker.
