(* ===== verification/UnixfsProps.v ===== *)
(** Uploading and reading a file: what [add] stores is a tree for the bytes of its stream, and [cat]
    of its path yields them, whole or in a range. *)

From S2P Require Import Prelude Runtime Utf8 Offchain IpfsPath IpfsApi UnixfsPb FileAdder FileAdderProps FileVisit FileVisitProps UnixfsDir Repo RepoProps Dag Refs Unixfs.

Section Files.
Context {W : Wire} {WL : WireLaws W} {R : RustIpfs} {C : ContentHash} {CL : ContentHashLaws C}.
Context {S : Type} {B : BlockStore S} {BL : BlockStoreLaws S B} `{!EqDecision IpfsPath}.

Abbreviation view r := (bs_view (block_store r)).

(** The bytes under a CID. *)
Definition held (r : Repo S) (c : Cid) (b : Bytes) : Prop := ∃ x, view r !! cid_hash c = Some x ∧ block_data x = b.

(** The bytes of a block have the hash it is under, and the blocks are dag-pb. *)
Definition sound (r : Repo S) : Prop :=
  map_Forall (λ h x, cid_hash (block_cid x) = h ∧ sha2_256 (block_data x) = h ∧ cid_codec (block_cid x) = DAG_PB) (view r).

(** A store that does not fail and a swarm that announces what it is given. *)
Definition working (w : Swarm) : Prop :=
  (∀ s b, (bs_put s b).1 ≠ None) ∧ (∀ s c, bs_get s c ≠ None) ∧ (∀ c, announce w c = true).

Lemma starting_block_got fuel o (r : Repo S) c x :
  get_block (swarm o) r c = (Some x, r) →
  starting_block (Datatypes.S fuel) o r (FromPath (path_new (Ipld c))) =
    (match into_unixfs_block (NBlock x) with inl block => Ok block | inr e => Err (NotAFile e) end, r).
Proof.
  intros Hg. unfold starting_block, dag_resolve, resolve_ipns.
  cbn [ipns_resolve root path_new resolve_names]. rewrite (bool_decide_eq_false_2 (_ ∈ [])) by set_solver.
  cbn [ipns_resolve root path_new].
  assert (Hn : resolve_names fuel o [path_new (Ipld c)] (Some (path_new (Ipld c))) = Resolved (path_new (Ipld c))).
  { destruct fuel; cbn [resolve_names]; by rewrite bool_decide_eq_true_2 by set_solver. }
  unfold path_new in *. rewrite Hn. cbn [root root_cid path resolve0]. by rewrite Hg.
Qed.

Context (w : Swarm) (Hw : working w).

Definition grows (r r' : Repo S) : Prop := ∀ c b, held r c b → held r' c b.

Lemma grows_refl r : grows r r.
Proof. by intros c b. Qed.

Lemma put_held r c b :
  sound r → addressed (c, b) →
  ∃ res r', put_block w r (mkBlock c b) = (Some res, r') ∧ sound r' ∧ grows r r' ∧ held r' c b ∧ pins r' = pins r.
Proof.
  intros Hs [Hh Hc]. simpl in *. destruct Hw as (Hput & _ & Hann). unfold put_block. pose proof (Hput (block_store r) (mkBlock c b)) as Hp.
  destruct (bs_put (block_store r) (mkBlock c b)) as [[[c' p]|] s] eqn:Hb; [|done]. apply put_view in Hb. simpl in Hb.
  assert (Hres : ∃ res r', match p with
     | NewBlock => (if announce w c then Some (c, NewBlock) else None, send (mkRepo s (pins r) (repo_events r)) (NewBlockEvent c))
     | Existed => (Some (c, Existed), mkRepo s (pins r) (repo_events r)) end = (Some res, r') ∧ block_store r' = s ∧ pins r' = pins r).
  { rewrite Hann. destruct p; eauto. }
  destruct Hres as (res & r' & Heq & Hst & Hpins). exists res, r'. split; [exact Heq|]. unfold sound, grows, held. rewrite Hst.
  destruct (view r !! cid_hash c) as [x|] eqn:Hx; destruct Hb as [_ ->].
  - split; [done|]. split; [done|]. split; [|done]. exists x. split; [done|]. destruct (Hs _ _ Hx) as (_ & Hsha & _).
    apply sha2_256_inj. by rewrite <- Hh.
  - split; [apply map_Forall_insert_2; [|done]; by rewrite Hh|]. split; [|split; [|done]].
    + intros c2 b2 (x & Hx2 & <-). exists x. split; [|done]. rewrite lookup_insert_ne; [done|]. intros Heq2. rewrite Heq2 in Hx. congruence.
    + eexists. by rewrite lookup_insert_eq.
Qed.

Lemma put_emitted_held r blocks last_cid :
  sound r → Forall addressed blocks →
  ∃ r', put_emitted w r blocks last_cid = (Some (match last blocks with Some b => Some b.1 | None => last_cid end), r') ∧
    sound r' ∧ grows r r' ∧ Forall (λ b, held r' b.1 b.2) blocks ∧ pins r' = pins r.
Proof.
  intros Hs Ha. revert r last_cid Hs. induction Ha as [|[c b] blocks Hb Ha IH]; intros r last_cid Hs.
  - exists r. split; [done|]. split; [done|]. split; [by intros ??|]. by split; [constructor|].
  - simpl. rewrite (verify_cid_ok c b) by apply Hb. cbn [negb].
    destruct (put_held r c b Hs Hb) as (res & r1 & -> & Hs1 & Hg1 & Hh1 & Hp1).
    destruct (IH r1 (Some c) Hs1) as (r' & -> & Hs' & Hg' & Hall & Hp'). exists r'.
    split; [destruct blocks as [|p blocks]; [done|]; rewrite last_cons_cons; by destruct (last (p :: blocks)) eqn:E; [|apply last_None in E]|].
    split; [done|]. split; [intros c2 b2 Hc; by apply Hg', Hg1|]. split; [|congruence]. constructor; [by apply Hg'|done].
Qed.

(** ** Pushing *)

Abbreviation ok r a pushed := (adder_ok (held r) a pushed).

Lemma push_buffer_ok fuel r a pushed buffer written :
  sound r → ok r a pushed → Z.of_nat (length (pushed ++ buffer)) < 2 ^ 64 → (length buffer <= fuel)%nat → written = Z.of_nat (length pushed) →
  ∃ a' r', push_buffer fuel w r a buffer written = (Ok (Some a'), Z.of_nat (length (pushed ++ buffer)), r') ∧
    sound r' ∧ ok r' a' (pushed ++ buffer) ∧ chunker a' = chunker a ∧ pins r' = pins r ∧ grows r r'.
Proof.
  revert r a pushed buffer written. induction fuel as [|fuel IH]; intros r a pushed buffer written Hs Ha Hlt Hf ->.
  - destruct buffer; [|simpl in Hf; lia]. exists a, r. rewrite app_nil_r. split_and!; auto using grows_refl.
  - destruct buffer as [|x buffer]; [exists a, r; rewrite app_nil_r; split_and!; auto using grows_refl|].
    destruct (push_ok (held r) a pushed (x :: buffer) Ha) as (blocks & n & a1 & Hp & Hn & Haddr & Hbf & Hch & Hroot & Hok); [done|done|].
    cbn [push_buffer]. rewrite Hp. destruct (put_emitted_held r blocks None Hs Haddr) as (r1 & -> & Hs1 & Hg1 & Hst & Hp1).
    specialize (Hok (held r1) Hg1 Hst).
    assert (Hsplit : (pushed ++ take n (x :: buffer)) ++ drop n (x :: buffer) = pushed ++ x :: buffer) by (rewrite <- app_assoc; by rewrite take_drop).
    destruct (IH r1 a1 (pushed ++ take n (x :: buffer)) (drop n (x :: buffer)) (wrapping_add 64 (Z.of_nat (length pushed)) (Z.of_nat n)))
      as (a' & r' & Heq & Hs' & Hok' & Hch' & Hp' & Hg').
    + done.
    + done.
    + by rewrite Hsplit.
    + rewrite length_drop. simpl in *. lia.
    + rewrite length_app in Hlt. rewrite wrapping_add_id by (unfold umax; lia). rewrite length_app, length_take. lia.
    + exists a', r'. rewrite Hsplit in *. split; [done|]. split; [done|]. split; [done|]. split; [congruence|]. split; [congruence|].
      intros c b Hc. by apply Hg', Hg1.
Qed.

Lemma push_stream_ok r a pushed stream total :
  sound r → ok r a pushed → Z.of_nat (length (pushed ++ mjoin stream)) < 2 ^ 64 →
  ∃ statuses a' r', push_stream w r a stream (Z.of_nat (length pushed)) total =
      (statuses, Ok (Some a'), Z.of_nat (length (pushed ++ mjoin stream)), r') ∧
    sound r' ∧ ok r' a' (pushed ++ mjoin stream) ∧ chunker a' = chunker a ∧ pins r' = pins r ∧ grows r r' ∧
    Forall (λ s, ∃ n, s = ProgressStatus n total) statuses.
Proof.
  revert r a pushed. induction stream as [|buffer stream IH]; intros r a pushed Hs Ha Hlt.
  - exists [], a, r. simpl. rewrite app_nil_r. split_and!; auto using grows_refl.
  - simpl in *. destruct (push_buffer_ok (length buffer) r a pushed buffer (Z.of_nat (length pushed))) as (a1 & r1 & -> & Hs1 & Ha1 & Hc1 & Hp1 & Hg1); [done|done| |done|done|].
    { rewrite length_app in *. rewrite length_app in Hlt. lia. }
    destruct (IH r1 a1 (pushed ++ buffer)) as (statuses & a' & r' & -> & Hs' & Ha' & Hc' & Hp' & Hg' & Hall); [done|done|by rewrite <- app_assoc|].
    rewrite <- app_assoc in *. exists (ProgressStatus (Z.of_nat (length (pushed ++ buffer))) total :: statuses), a', r'. split; [done|]. split; [done|]. split; [done|].
    split; [congruence|]. split; [congruence|]. split; [intros c b Hc; by apply Hg', Hg1|]. constructor; [by eexists|done].
Qed.

(** ** Uploads *)

(** The options of an upload: some chunk size, no pin. *)
Definition chunk_of (opt : option AddOption) : nat := default default_chunker (opt ≫= opt_chunk).

Definition plain (opt : option AddOption) : Prop :=
  (0 < chunk_of opt)%nat ∧ Z.of_nat (chunk_of opt) <= 2 ^ 31 ∧ ∀ o, opt = Some o → opt_pin o = false.

Lemma adder_for_ok r opt : plain opt → ok r (adder_for opt) [] ∧ chunker (adder_for opt) = chunk_of opt.
Proof.
  intros (H0 & H31 & _). unfold adder_for, chunk_of in *. 
  assert (Hb : ∀ v, ok r (mkAdder (default default_chunker (opt ≫= opt_chunk)) default_branching_factor [] [] v) []).
  { intros v. unfold default_branching_factor. split; [simpl; lia|]. split; [simpl; lia|]. split; [done|]. split; [done|]. split; [done|].
    split; [exists [], []; split; [done|]; split; [split; constructor|]; split; [constructor|simpl; lia]|]. split; [done|]. exists []. split; [constructor|]. by split. }
  destruct opt as [o|]; simpl in *; (split; [apply Hb|done]).
Qed.

Lemma pin_added_plain fuel o r opt c : plain opt → pin_added fuel o r opt c = (Ok tt, r).
Proof. intros (_ & _ & Hp). unfold pin_added. destruct opt as [a|]; [|done]. by rewrite (Hp a eq_refl). Qed.

(** What an upload ends with: a tree for the data, whose root is reported unless it is one full chunk. *)
Definition upload_end (r : Repo S) (opt : option AddOption) (data : Bytes) (total : option Z) (final : UnixfsStatus) : Prop :=
  ∃ c d, file_tree d (held r) c data ∧ ((chunk_of opt < length data)%nat → version c = V0) ∧
    final = if Nat.eqb (length data) (chunk_of opt) then FailedStatus (Z.of_nat (length data)) total None
            else CompletedStatus (path_new (Ipld c)) (Z.of_nat (length data)) total.

Lemma add_ok fuel o r total stream opt :
  swarm o = w → sound r → plain opt → Z.of_nat (length (mjoin stream)) < 2 ^ 64 →
  ∃ statuses final r', add fuel o r total stream opt = (ProgressStatus 0 total :: statuses ++ [final], Ok tt, r') ∧
    Forall (λ s, ∃ n, s = ProgressStatus n total) statuses ∧ upload_end r' opt (mjoin stream) total final ∧
    sound r' ∧ grows r r' ∧ pins r' = pins r.
Proof.
  intros Ho Hs Hp Hlt. destruct (adder_for_ok r opt Hp) as [Ha Hch]. unfold add. rewrite Ho.
  destruct (push_stream_ok r (adder_for opt) [] stream total Hs Ha Hlt) as (statuses & a & r1 & Hps & Hs1 & Ha1 & Hc1 & Hp1 & Hg1 & Hall).
  cbn [length app] in *. change (Z.of_nat 0) with 0 in Hps. rewrite Hps.
  destruct (finish_ok (held r1) a (mjoin stream) Ha1 Hlt) as (blocks & link & Hf & Haddr & Hroot & Hden). rewrite Hf.
  destruct (put_emitted_held r1 blocks None Hs1 Haddr) as (r2 & -> & Hs2 & Hg2 & Hst & Hp2).
  specialize (Hden (held r2) Hg2 Hst). unfold upload_end. rewrite <- Hch, <- Hc1.
  assert (Hg : grows r r2) by (intros c b Hc; by apply Hg2, Hg1).
  assert (Hpr : pins r2 = pins r) by congruence.
  destruct (Nat.eqb_spec (length (mjoin stream)) (chunker a)) as [Heq|Hne].
  - rewrite (finish_one_chunk _ _ _ Ha1 Heq) in Hf. injection Hf as <-. simpl. rewrite Heq.
    exists statuses, (FailedStatus (Z.of_nat (chunker a)) total None), r2.
    split; [done|]. split; [done|]. split; [|done]. exists (target link), (depth link). split; [by destruct Hden|]. split; [lia|done].
  - assert (Hlast : fst <$> last blocks = Some (target link) ∧ (version (target link) = V0 ∨ (length (mjoin stream) <= chunker a)%nat)).
    { destruct Hroot as [|(-> & Hl & Hbuf)]; [done|]. exfalso. apply Hne. destruct Ha1 as (_ & _ & _ & _ & _ & _ & Hone & cs & Hd & Hj & _).
      rewrite Hl in *. rewrite Hbuf, app_nil_r in Hj. destruct Hden as (_ & Hsz & _). rewrite (Hone link eq_refl) in Hsz. lia. }
    destruct Hlast as [Hlast Hv]. destruct (last blocks) as [b|]; [|done]. simpl in Hlast. injection Hlast as ->. rewrite pin_added_plain by done.
    exists statuses, (CompletedStatus (path_new (Ipld (target link))) (Z.of_nat (length (mjoin stream))) total), r2.
    split; [done|]. split; [done|]. split; [|done]. exists (target link), (depth link). split; [by destruct Hden|]. split; [|done].
    intros Hlong. destruct Hv as [|Hle]; [done|lia].
Qed.

(** ** Reading *)

Lemma get_held r c b : held r c b → ∃ x, get_block w r c = (Some x, r) ∧ block_data x = b ∧ view r !! cid_hash c = Some x.
Proof.
  intros (x & Hx & Hb). exists x. split; [|done]. unfold get_block, get_block_now. destruct Hw as (_ & Hget & _). specialize (Hget (block_store r) c).
  destruct (bs_get (block_store r) c) as [res|] eqn:Hg; [|done]. apply get_view in Hg. rewrite Hg, Hx. done.
Qed.

Definition bytes_of (r : Repo S) (c : Cid) : option Bytes := block_data <$> view r !! cid_hash c.

Lemma held_bytes r c b : held r c b → bytes_of r c = Some b.
Proof. intros (x & Hx & <-). unfold bytes_of. by rewrite Hx. Qed.

Lemma cat_loop_walks r v out :
  walks (bytes_of r) v out None → ∀ v0, v = Some v0 → ∀ fuel, (length out <= fuel)%nat → cat_loop fuel w r v0 = (mjoin (map yield out), Ok tt, r).
Proof.
  intros Hwalk. remember None as e eqn:He. induction Hwalk as [v|v cid data bytes v' out v'' Hp Hg Hc Hrest IH]; [by intros v0 ->|].
  intros v0 [= <-] fuel Hf. destruct fuel as [|fuel]; [simpl in Hf; lia|]. cbn [cat_loop]. rewrite Hp.
  assert (Hheld : held r cid data) by (unfold bytes_of in Hg; apply fmap_Some in Hg as (x & Hx & ->); by exists x).
  destruct (get_held r cid data Hheld) as (x & -> & Hx & _). rewrite Hx, Hc. destruct v' as [v'|].
  - rewrite (IH He v' eq_refl fuel) by (simpl in Hf; lia). done.
  - inversion Hrest; subst. simpl. by rewrite app_nil_r.
Qed.

Lemma yield_items out : ∃ items, mjoin (map yield out) = map inl items ∧ mjoin items = mjoin out ∧ Forall (λ b, b ≠ []) items.
Proof.
  induction out as [|b out (items & IH & Hj & Hne)]; [by exists []|]. simpl. rewrite IH. destruct b as [|x b]; [by exists items|].
  exists ((x :: b) :: items). simpl. rewrite Hj. split; [done|]. split; [done|]. by constructor.
Qed.

Lemma starting_block_root fuel o r c b :
  swarm o = w → sound r → held r c b →
  ∃ x, starting_block (Datatypes.S fuel) o r (FromPath (path_new (Ipld c))) = (Ok x, r) ∧ block_data x = b.
Proof.
  intros Ho Hs Hb. destruct (get_held r c b Hb) as (x & Hg & Hx & Hv). exists x. split; [|done]. rewrite (starting_block_got fuel o r c x) by (by rewrite Ho).
  unfold into_unixfs_block. simpl. destruct (Hs _ _ Hv) as (_ & _ & Hc). by rewrite Hc.
Qed.

(** Reading from a starting point that is the root of a tree. *)
Lemma cat_from o r c d data range sp n0 :
  swarm o = w → file_tree d (held r) c data → Z.of_nat (length data) < 2 ^ 64 →
  (∀ b fuel, held r c b → (n0 <= fuel)%nat → ∃ x, starting_block fuel o r sp = (Ok x, r) ∧ block_data x = b) →
  ∃ n items, mjoin items = part range 0 data ∧ Forall (λ b, b ≠ []) items ∧
    ∀ fuel, (n <= fuel)%nat → cat fuel o r sp range = (Ok (map inl items, Ok tt), r).
Proof.
  intros Ho Ht Hlt Hsp. destruct (start_walk (bytes_of r) (held r) (held_bytes r) d c data range Ht Hlt) as (block & bytes & md & v & out & Hb & Hst & Hwalk & Hj).
  destruct (yield_items (bytes :: out)) as (items & Hy & Hji & Hne). exists (n0 + length out)%nat, items.
  split; [rewrite Hji; done|]. split; [done|]. intros fuel Hf.
  destruct (Hsp block fuel Hb) as (x & Hx & Hxb); [lia|]. unfold cat. rewrite Hx, Hxb, Hst.
  destruct v as [v|].
  - rewrite Ho, (cat_loop_walks r (Some v) out Hwalk v eq_refl) by lia. by rewrite <- Hy.
  - inversion Hwalk; subst. simpl in Hy. by rewrite app_nil_r in Hy; rewrite Hy.
Qed.

Lemma cat_ok o r c d data range :
  swarm o = w → sound r → file_tree d (held r) c data → Z.of_nat (length data) < 2 ^ 64 →
  ∃ n items, mjoin items = part range 0 data ∧ Forall (λ b, b ≠ []) items ∧
    ∀ fuel, (n <= fuel)%nat → cat fuel o r (FromPath (path_new (Ipld c))) range = (Ok (map inl items, Ok tt), r).
Proof.
  intros Ho Hs Ht Hlt. apply (cat_from o r c d data range _ 1); [done..|]. intros b fuel Hb Hf. destruct fuel as [|fuel]; [lia|]. by apply starting_block_root.
Qed.

End Files.

Section Roundtrip.
Context {W : Wire} {WL : WireLaws W} {R : RustIpfs} {C : ContentHash} {CL : ContentHashLaws C}.
Context {S : Type} {B : BlockStore S} {BL : BlockStoreLaws S B} `{!EqDecision IpfsPath}.

(** C3. A file that is uploaded reads back: when its size is not that of one chunk, the upload ends
    with the path of a CID, and reading that path, from the repository it leaves, yields the bytes that were
    streamed (less than 2^64 of them, without a pin, in a working store of dag-pb blocks under their hashes), or those of them in a range that is asked for, in non-empty chunks.  The upload ends whatever the
    buffers are, reading ends with enough turns for the tree, and what was held before is held after. *)
Theorem file_roundtrip fuel o (r : Repo S) total stream opt :
  working (S := S) (swarm o) → sound r → plain opt →
  Z.of_nat (length (mjoin stream)) < 2 ^ 64 → length (mjoin stream) ≠ chunk_of opt →
  ∃ statuses c r',
    add fuel o r total stream opt = (statuses ++ [CompletedStatus (path_new (Ipld c)) (Z.of_nat (length (mjoin stream))) total], Ok tt, r') ∧
    sound r' ∧ grows r r' ∧
    ∀ range, ∃ n items, mjoin items = part range 0 (mjoin stream) ∧ Forall (λ b, b ≠ []) items ∧
      ∀ fuel', (n <= fuel')%nat → cat fuel' o r' (FromPath (path_new (Ipld c))) range = (Ok (map inl items, Ok tt), r').
Proof.
  intros Hw Hs Hp Hlt Hne. destruct (add_ok (swarm o) Hw fuel o r total stream opt eq_refl Hs Hp Hlt) as (statuses & final & r' & Hadd & _ & Hend & Hs' & Hg & _).
  destruct Hend as (c & d & Ht & _ & ->). rewrite (proj2 (Nat.eqb_neq _ _) Hne) in Hadd.
  exists (ProgressStatus 0 total :: statuses), c, r'. split; [done|]. split; [done|]. split; [done|]. intros range.
  by apply (cat_ok (swarm o) Hw o r' c d).
Qed.

(** C40. An upload of exactly one chunk, without a pin, is reported as failed although the file is
    stored: in a working store of dag-pb blocks the last status is [FailedStatus] without an error and
    no status names a CID, while the repository that is left holds the file under some CID, and reading
    the path of that CID yields the bytes that were streamed, or those of them in a range. *)
Theorem one_chunk_upload_fails fuel o (r : Repo S) total stream opt :
  working (S := S) (swarm o) → sound r → plain opt → length (mjoin stream) = chunk_of opt →
  ∃ statuses r', add fuel o r total stream opt = (statuses ++ [FailedStatus (Z.of_nat (length (mjoin stream))) total None], Ok tt, r') ∧
    Forall (λ s, ∃ n, s = ProgressStatus n total) statuses ∧ sound r' ∧ grows r r' ∧
    ∃ c, ∀ range, ∃ n items, mjoin items = part range 0 (mjoin stream) ∧ Forall (λ b, b ≠ []) items ∧
      ∀ fuel', (n <= fuel')%nat → cat fuel' o r' (FromPath (path_new (Ipld c))) range = (Ok (map inl items, Ok tt), r').
Proof.
  intros Hw Hs Hp Heq. assert (Hlt : Z.of_nat (length (mjoin stream)) < 2 ^ 64) by (destruct Hp as (_ & ? & _); lia).
  destruct (add_ok (swarm o) Hw fuel o r total stream opt eq_refl Hs Hp Hlt) as (statuses & final & r' & Hadd & Hall & (c & d & Ht & _ & ->) & Hs' & Hg & _).
  rewrite (proj2 (Nat.eqb_eq _ _) Heq) in Hadd. exists (ProgressStatus 0 total :: statuses), r'. split; [done|]. split; [constructor; eauto|].
  split; [done|]. split; [done|]. exists c. intros range. by apply (cat_ok (swarm o) Hw o r' c d).
Qed.

(** A file of more than one block has a version 0 root, whatever version was asked for: the
    collector of the adder keeps a version of its own. *)
Theorem multi_block_root_is_v0 fuel o (r : Repo S) total stream opt :
  working (S := S) (swarm o) → sound r → plain opt → Z.of_nat (length (mjoin stream)) < 2 ^ 64 → (chunk_of opt < length (mjoin stream))%nat →
  ∃ statuses c written r', add fuel o r total stream opt = (statuses ++ [CompletedStatus (path_new (Ipld c)) written total], Ok tt, r') ∧ version c = V0.
Proof.
  intros Hw Hs Hp Hlt Hlong. destruct (add_ok (swarm o) Hw fuel o r total stream opt eq_refl Hs Hp Hlt) as (statuses & final & r' & Hadd & _ & Hend & _).
  destruct Hend as (c & d & _ & Hv & ->). rewrite (proj2 (Nat.eqb_neq _ _)) in Hadd by lia.
  exists (ProgressStatus 0 total :: statuses), c, (Z.of_nat (length (mjoin stream))), r'. split; [done|]. by apply Hv.
Qed.

(** Blocks are kept by their hash alone: when the bytes of a file block are already stored under
    another codec, putting the block changes nothing, and reading the file fails on the codec. *)
Theorem stored_codec_blocks_read fuel o (r : Repo S) c b x range :
  working (S := S) (swarm o) → bs_view (block_store r) !! cid_hash c = Some x → cid_codec (block_cid x) ≠ DAG_PB →
  ∃ r', put_block (swarm o) r (mkBlock c b) = (Some (c, Existed), r') ∧
    cat (Datatypes.S fuel) o r' (FromPath (path_new (Ipld c))) range = (Err (NotAFile (UnexpectedCodec (NBlock x))), r').
Proof.
  intros Hw Hx Hc. destruct Hw as (Hput & Hget & _).
  assert (Hp : ∃ r', put_block (swarm o) r (mkBlock c b) = (Some (c, Existed), r') ∧ bs_view (block_store r') = bs_view (block_store r)).
  { unfold put_block. pose proof (Hput (block_store r) (mkBlock c b)) as Hn.
    destruct (bs_put (block_store r) (mkBlock c b)) as [[[c' p]|] s] eqn:Hp; [|done].
    apply put_view in Hp. simpl in Hp. rewrite Hx in Hp. destruct Hp as [-> Hv]. by eexists. }
  destruct Hp as (r' & Hpb & Hv). exists r'. split; [done|].
  assert (Hg : get_block (swarm o) r' c = (Some x, r')).
  { unfold get_block, get_block_now. specialize (Hget (block_store r') c). destruct (bs_get (block_store r') c) as [res|] eqn:Hg; [|done].
    apply get_view in Hg. by rewrite Hg, Hv, Hx. }
  unfold cat. rewrite (starting_block_got fuel o r' c x Hg). unfold into_unixfs_block. simpl. by rewrite (proj2 (Z.eqb_neq _ _) Hc).
Qed.

Lemma default_plain v : plain (Some (default_with_cid_version v)) ∧ chunk_of (Some (default_with_cid_version v)) = default_add_chunk.
Proof.
  pose proof default_add_chunk_Z as Hz. assert (Hc : chunk_of (Some (default_with_cid_version v)) = default_add_chunk) by reflexivity.
  split; [|done]. unfold plain. rewrite Hc. split; [lia|]. split; [lia|]. by intros o [= <-].
Qed.

(** C35. What an [AddBytes] request uploads, a [CatBytes] request for the text of its response reads back:
    for data of any size below 2^64 but one mebibyte, with the engine's files in a repository of dag-pb
    blocks under their hashes whose store and swarm do not fail, the first response is the text of a CID, and the response to the second, on the repository that the first leaves, is the data. *)
Theorem add_bytes_then_cat_bytes `{!RustIpfsLaws R} fuel o (r : Repo S) e data version :
  working (S := S) (swarm o) → sound r → Z.of_nat (length data) < 2 ^ 64 → Z.of_nat (length data) ≠ 1048576 →
  ∃ c r' n,
    response_from <$> engine_request (with_files fuel o r e) (IpfsRequest.AddBytes data version) = Some (IpfsResponse.AddBytes (cid_to_string c)) ∧
    (add fuel o r None [data] (Some (default_with_cid_version (if cid_version_from_raw version then V1 else V0)))).2 = r' ∧
    ∀ fuel', (n <= fuel')%nat →
      response_from <$> engine_request (with_files fuel' o r' e) (IpfsRequest.CatBytes (cid_to_string c)) = Some (IpfsResponse.CatBytes data).
Proof.
  intros Hw Hs Hlt Hne. set (opt := Some (default_with_cid_version (if cid_version_from_raw version then V1 else V0))).
  destruct (default_plain (if cid_version_from_raw version then V1 else V0)) as [Hp Hc]. fold opt in Hp, Hc. pose proof default_add_chunk_Z as Hz.
  assert (Hj : mjoin [data] = data) by (simpl; by rewrite app_nil_r).
  destruct (add_ok (swarm o) Hw fuel o r None [data] opt eq_refl Hs Hp) as (statuses & final & r' & Hadd & _ & Hend & Hs' & _ & _); [by rewrite Hj|].
  rewrite Hj in Hend. destruct Hend as (c & d & Ht & _ & ->). rewrite Hc, (proj2 (Nat.eqb_neq _ _)) in Hadd by lia.
  destruct (cat_ok (swarm o) Hw o r' c d data None eq_refl Hs' Ht Hlt) as (n & items & Hit & _ & Hcat).
  exists c, r', n. split; [|split; [by rewrite Hadd|]].
  - rewrite (add_bytes_response _ data version (ProgressStatus 0 None :: statuses) c (Z.of_nat (length data)) None); [done|].
    destruct e. simpl. unfold add_unixfs. fold opt. by rewrite Hadd.
  - intros fuel' Hf. rewrite (cat_bytes_response _ c items); [by rewrite Hit|]. destruct e. simpl. unfold cat_unixfs. rewrite Hcat by done.
    by rewrite map_map.
Qed.

End Roundtrip.
