(* ===== verification/DagProps.v ===== *)
(** Resolving paths: the segments that are reported, names in plain and sharded directories, files
    under a path of directories, and the paths that the code mishandles. *)

From S2P Require Import Prelude Runtime Utf8 Offchain IpfsPath IpfsApi UnixfsPb FileAdder FileAdderProps FileVisit FileVisitProps UnixfsDir Repo RepoProps Dag Refs Unixfs UnixfsProps.

Section Dag.
Context {W : Wire} {WL : WireLaws W} {R : RustIpfs} {C : ContentHash} {CL : ContentHashLaws C}.
Context {S : Type} {B : BlockStore S} {BL : BlockStoreLaws S B} `{!EqDecision IpfsPath}.

(** ** The segments of a path *)

(** A failure at a segment that the path has. *)
Definition error_within (n : nat) (e : RawResolveLocalError) : Prop :=
  match e with
  | RawListIndexOutOfRange _ s _ _ | RawInvalidIndex _ s | RawNoLinks _ s | RawNotFound _ s => (s < n)%nat
  | _ => True
  end.

Lemma resolve_local_ipld_within d v segments k :
  match resolve_local_ipld d v segments k with
  | (inl (_, m), rest) => (k <= m)%nat ∧ (m + length rest <= k + length segments)%nat
  | (inr e, _) => error_within (k + length segments) e
  end.
Proof.
  revert v k. induction segments as [|s rest IH]; intros v k.
  - destruct v; simpl; lia.
  - destruct v as [| | | | | |l|m|c]; cbn [resolve_local_ipld]; try (simpl; lia).
    + destruct (parse_usize s) as [i|]; [|simpl; lia]. destruct (l !! Z.to_nat i) as [v|]; [|simpl; lia].
      specialize (IH v (Datatypes.S k)). destruct (resolve_local_ipld d v rest (Datatypes.S k)) as [[[r m]|e] rest']; simpl in *; [lia|].
      destruct e; simpl in *; lia.
    + destruct (map_get m s) as [v|]; [|simpl; lia].
      specialize (IH v (Datatypes.S k)). destruct (resolve_local_ipld d v rest (Datatypes.S k)) as [[[r n]|e] rest']; simpl in *; [lia|].
      destruct e; simpl in *; lia.
    + destruct (bool_decide (s = dot)); simpl; lia.
Qed.

Lemma resolve_local_within o b segments :
  match resolve_local o b segments with
  | (Ok (_, m), rest) => (m + length rest <= length segments)%nat
  | (Err e, _) => error_within (length segments) e
  | (Panic, _) => True
  end.
Proof.
  unfold resolve_local. destruct segments as [|s rest]; [done|]. destruct (_ =? DAG_PB).
  - unfold resolve_local_dagpb. destruct (resolve (block_data b) s) as [[c|l|]|[]|]; simpl; try lia; try done.
    + destruct (_ && _); simpl; [|lia]. destruct (wrap_node_data (block_data b)); simpl; [lia|done|done].
    + case_bool_decide; simpl; [lia|done].
  - destruct (block_decode o b) as [v|]; [|done].
    pose proof (resolve_local_ipld_within (block_cid b) v (s :: rest) 0) as Hi.
    destruct (resolve_local_ipld _ _ _ _) as [[[r m]|e] rest']; simpl in *; [lia|done].
Qed.

Lemma error_start n k e : error_within n e → error_within (n + k) (add_starting_point_in_path e k).
Proof. destruct e; simpl; lia. Qed.

Lemma error_mono n n' e : (n <= n')%nat → error_within n e → error_within n' e.
Proof. destruct e; simpl; lia. Qed.

Lemma resolve0_within fuel o (r : Repo S) c segments follow total len :
  (total + length segments <= len)%nat →
  match resolve0 fuel o r c segments follow total with
  | (Ok (_, m), _) => (m <= len)%nat
  | (Err e, _) => error_within len e
  | (Panic, _) => True
  end.
Proof.
  revert r c segments total. induction fuel as [|fuel IH]; intros r c segments total Hlen; [done|]. cbn [resolve0].
  destruct (get_block (swarm o) r c) as [[b|] r1]; [|done].
  pose proof (resolve_local_within o b segments) as Hl. destruct (resolve_local o b segments) as [[[res m]|e|] rest]; [| |done].
  2: { apply (error_start _ total) in Hl. eapply error_mono; [|exact Hl]. lia. }
  assert (Hnext : ∀ src dest r, match (if negb follow then (Ok (NLink src dest, (total + m)%nat), r) else resolve0 fuel o r dest rest follow (total + m)) with
    | (Ok (_, m), _) => (m <= len)%nat | (Err e, _) => error_within len e | (Panic, _) => True end).
  { intros src dest r2. destruct follow; simpl; [apply IH; lia|lia]. }
  destruct res as [[b'|c' d|c' v|src dest]|c' l]; try lia; [apply Hnext|].
  destruct (resolve_hamt (Datatypes.S fuel) o r1 l) as [[dest|[]|] r2]; try done. apply Hnext.
Qed.

(** The assertions on the segments of a path hold: a resolution panics only where a document
    makes it panic, never because it reports a segment that the path does not have. *)
Theorem resolve_segments_in_path fuel o (r : Repo S) p follow :
  (dag_resolve fuel o r p follow).1 = Panic →
  ∃ q c, root_cid (root q) = Some c ∧ resolve_ipns fuel o p true = Resolved q ∧ (resolve0 fuel o r c (path q) follow 0).1 = Panic.
Proof.
  unfold dag_resolve. destruct (resolve_ipns fuel o p true) as [q| |]; [|done|done]. destruct (root_cid (root q)) as [c|] eqn:Hc; [|done].
  pose proof (resolve0_within fuel o r c (path q) follow 0 (length (path q)) ltac:(lia)) as Hw.
  destruct (resolve0 fuel o r c (path q) follow 0) as [[[n m]|e|] r'] eqn:H0.
  - unfold into_shifted. by rewrite (proj2 (Nat.leb_le _ _) Hw).
  - destruct e; simpl in *; try done; unfold into_truncated; rewrite (proj2 (Nat.leb_le _ _)) by lia; done.
  - intros _. exists q, c. by rewrite H0.
Qed.

(** ** Plain directories *)

Definition dir_message (links : list PBLink) : FlatUnixFs := mkFlat links (mkUnixFs UnixFsType.Directory None None [] None None None None).

Abbreviation name_of l := (default [] (Name l)).

(** The only link of that name, to [c]. *)
Definition named (links : list PBLink) (name : Bytes) (c : Cid) : Prop :=
  ∃ pre l post, links = pre ++ l :: post ∧ name_of l = name ∧ cid_try_from (default [] (Hash l)) = Some c ∧
    Forall (λ l, name_of l ≠ name) (pre ++ post).

(** The links of a block that is looked up as a plain directory: one of the UnixFS type without
    the properties of files and shards, or a dag-pb node without UnixFS data. *)
Definition plain_links (b : Bytes) : option (list PBLink) :=
  match flat_try_from b with
  | inl f =>
      match u_type (f_data f), check_directory_supported f with
      | UnixFsType.Directory, inl _ => Some (f_links f)
      | _, _ => None
      end
  | inr (InvalidUnixFs node | NoData node) => Some (Links node)
  | inr InvalidDagPb => None
  end.

Lemma plain_links_written links : flat_ok (dir_message links) → plain_links (write_flat (dir_message links)) = Some links.
Proof. intros Hok. unfold plain_links. by rewrite flat_reads_back. Qed.

Lemma resolve_dir b links name : plain_links b = Some links → resolve b name = resolve_links links name.
Proof.
  unfold plain_links, resolve. destruct (flat_try_from b) as [f|[|node|node]]; [|done|by intros [= ->]..].
  destruct (u_type (f_data f)); try done. unfold check_directory_supported. destruct (_ || _); [done|]. by intros [= ->].
Qed.

Lemma matching_none_from k name links :
  filter (λ il : nat * PBLink, name_of il.2 = name) (imap (λ n l, (k + n, l)%nat) links) = [] ↔ Forall (λ l, name_of l ≠ name) links.
Proof.
  revert k. induction links as [|l links IH]; intros k; [by split|]. rewrite imap_cons, filter_cons, Forall_cons. simpl.
  rewrite (imap_ext _ (λ n l, (Datatypes.S k + n, l)%nat)) by (intros i0 x0 _; unfold compose; simpl; f_equal; lia).
  destruct (decide (name_of l = name)) as [He|He]; [split; [done|by intros [? _]]|]. rewrite IH. tauto.
Qed.

(** The first match splits the links. *)
Lemma matching_cons_from k name links i l rest :
  filter (λ il : nat * PBLink, name_of il.2 = name) (imap (λ n l, (k + n, l)%nat) links) = (i, l) :: rest →
  ∃ pre post, links = pre ++ l :: post ∧ name_of l = name ∧ Forall (λ l, name_of l ≠ name) pre ∧
    (rest = [] → Forall (λ l, name_of l ≠ name) post).
Proof.
  revert k. induction links as [|x links IH]; intros k; [done|]. rewrite imap_cons, filter_cons. simpl.
  rewrite (imap_ext _ (λ n l, (Datatypes.S k + n, l)%nat)) by (intros i0 x0 _; unfold compose; simpl; f_equal; lia).
  destruct (decide (name_of x = name)) as [He|He].
  - intros Hm. injection Hm as _ <- Hr. exists [], links. split; [done|]. split; [done|]. split; [constructor|]. intros He'. rewrite He' in Hr.
    by apply (matching_none_from (Datatypes.S k)) in Hr.
  - intros Hm. destruct (IH _ Hm) as (pre & post & -> & Hn & Hpre & Hpost). exists (x :: pre), post. split; [done|]. split; [done|]. by split; [constructor|].
Qed.

Lemma matching_unique_from k name pre l post :
  name_of l = name → Forall (λ l, name_of l ≠ name) (pre ++ post) →
  filter (λ il : nat * PBLink, name_of il.2 = name) (imap (λ n l, (k + n, l)%nat) (pre ++ l :: post)) = [((k + length pre)%nat, l)].
Proof.
  intros Hl [Hpre Hpost]%Forall_app. revert k. induction Hpre as [|x pre Hx _ IH]; intros k; simpl app; rewrite imap_cons, filter_cons; simpl.
  all: rewrite (imap_ext _ (λ n l, (Datatypes.S k + n, l)%nat)) by (intros i0 x0 _; unfold compose; simpl; f_equal; lia).
  - rewrite decide_True by done. rewrite (proj2 (matching_none_from _ _ _) Hpost). by rewrite !Nat.add_0_r.
  - rewrite decide_False by done. rewrite IH. do 2 f_equal. lia.
Qed.

Lemma matching_from name links : matching name links = filter (λ il : nat * PBLink, name_of il.2 = name) (imap (λ n l, (0 + n, l)%nat) links).
Proof. done. Qed.

Lemma resolve_links_spec links name :
  (∀ c, resolve_links links name = Ok (Found c) ↔ named links name c) ∧
  (resolve_links links name = Ok NameNotFound ↔ Forall (λ l, name_of l ≠ name) links).
Proof.
  unfold resolve_links. rewrite matching_from. split.
  - intros c. split.
    + destruct (filter _ _) as [|[i l] rest] eqn:Hm; [done|]. destruct (matching_cons_from 0 _ _ _ _ _ Hm) as (pre & post & -> & Hn & Hpre & Hpost).
      unfold try_convert_cid. destruct (cid_try_from _) as [c'|] eqn:Hc; [|done]. destruct rest as [|s rest]; [|done]. intros [= <-].
      exists pre, l, post. split; [done|]. split; [done|]. split; [done|]. apply Forall_app. auto.
    + intros (pre & l & post & -> & Hn & Hc & Hne). rewrite matching_unique_from by done. unfold try_convert_cid. by rewrite Hc.
  - rewrite <- (matching_none_from 0). destruct (filter _ _) as [|[i l] rest]; [done|]. split; [|done].
    unfold try_convert_cid. destruct (cid_try_from _); [|done]. by destruct rest.
Qed.

(** A name is found in a directory block exactly when one link has it and that link is a CID, and
    is reported missing exactly when no link has it. *)
Theorem directory_lookup b links name :
  plain_links b = Some links →
  (∀ c, resolve b name = Ok (Found c) ↔ named links name c) ∧
  (resolve b name = Ok NameNotFound ↔ Forall (λ l, name_of l ≠ name) links).
Proof. intros Hb. rewrite (resolve_dir b links) by done. apply resolve_links_spec. Qed.

(** ** Sharded directories *)

Inductive slot := Entry (name : Bytes) (c : Cid) | Bucket (c : Cid).

(** A link of a shard: a bucket is named by its place, of two bytes, which precede the name of an
    entry.  The size of a link is not looked at. *)
Definition link_slot (l : PBLink) : option slot :=
  match cid_try_from (default [] (Hash l)) with
  | None => None
  | Some c =>
      if (length (name_of l) =? 2)%nat then Some (Bucket c)
      else if (2 <? length (name_of l))%nat && boundary_at_2 (name_of l) then Some (Entry (drop 2 (name_of l)) c)
      else None
  end.

(** The slots of a block that is a shard with the properties that are supported. *)
Definition shard_slots (b : Bytes) : option (list slot) :=
  match flat_try_from b with
  | inl f =>
      match u_type (f_data f), check_supported f with
      | UnixFsType.HAMTShard, None => mapM link_slot (f_links f)
      | _, _ => None
      end
  | inr _ => None
  end.

Definition entries (slots : list slot) : list (Bytes * Cid) := omap (λ s, match s with Entry name c => Some (name, c) | Bucket _ => None end) slots.
Definition buckets (slots : list slot) : list Cid := omap (λ s, match s with Bucket c => Some c | Entry _ _ => None end) slots.

Abbreviation hits name l := (filter (λ nc : Bytes * Cid, nc.1 = name) l).

Lemma partition_entry i l name' c rest name work found :
  link_slot l = Some (Entry name' c) →
  partition i (l :: rest) name work found =
    if decide (name' = name) then
      match found with
      | Some first => Err (Multiple (multiple_from first (i, l)))
      | None => partition (Datatypes.S i) rest name work (Some (i, c))
      end
    else partition (Datatypes.S i) rest name work found.
Proof.
  unfold link_slot. intros Hl. cbn [partition]. unfold try_convert_cid. destruct (cid_try_from _) as [c'|]; [|done].
  destruct (Nat.eqb_spec (length (name_of l)) 2) as [|Hlen]; [done|]. destruct (2 <? length (name_of l))%nat; [|done].
  destruct (boundary_at_2 (name_of l)); [|done]. simpl in Hl. injection Hl as <- <-. cbn [andb negb].
  destruct (decide (drop 2 (name_of l) = name)) as [He|He]; [by rewrite bool_decide_eq_true_2|by rewrite bool_decide_eq_false_2].
Qed.

Lemma partition_bucket i l c rest name work found :
  link_slot l = Some (Bucket c) → partition i (l :: rest) name work found = partition (Datatypes.S i) rest name (work ++ [c]) found.
Proof.
  unfold link_slot. intros Hl. cbn [partition]. unfold try_convert_cid. destruct (cid_try_from _) as [c'|]; [|done].
  destruct (Nat.eqb_spec (length (name_of l)) 2) as [Hlen|Hlen]; [|by destruct (_ && _)]. injection Hl as <-.
  by rewrite (proj2 (Nat.ltb_ge 2 _)) by lia.
Qed.

Lemma partition_slots links slots name i work found :
  mapM link_slot links = Some slots →
  (hits name (entries slots) = [] → partition i links name work found = Ok (snd <$> found, work ++ buckets slots)) ∧
  (∀ c, hits name (entries slots) = [(name, c)] → found = None → partition i links name work found = Ok (Some c, work ++ buckets slots)).
Proof.
  intros Hok%mapM_Some_1. revert i work found. induction Hok as [|l [name' c|c] links slots Hs Hok IH]; intros i work found.
  - split; [|done]. intros _. simpl. by rewrite app_nil_r.
  - rewrite (partition_entry _ _ name' c) by done. change (entries (Entry name' c :: slots)) with ((name', c) :: entries slots). rewrite filter_cons.
    change (buckets (Entry name' c :: slots)) with (buckets slots). simpl. destruct (decide (name' = name)) as [->|Hne]; [|apply IH].
    split; [done|]. intros c' Hc ->. injection Hc as -> Hnil. by apply (IH (Datatypes.S i) work (Some (i, c'))) in Hnil.
  - rewrite (partition_bucket _ _ c) by done. change (entries (Bucket c :: slots)) with (entries slots).
    change (buckets (Bucket c :: slots)) with (c :: buckets slots). destruct (IH (Datatypes.S i) (work ++ [c]) found) as [IH1 IH2].
    rewrite <- app_assoc in *. split; [exact IH1|exact IH2].
Qed.

(** A shard is read as such, at the start of a lookup and in its course. *)
Lemma shard_block b slots :
  shard_slots b = Some slots →
  ∃ links, mapM link_slot links = Some slots ∧
    (∀ name, resolve b name = match after_partition name (partition 0 links name [] None) with Ok r => Ok r | Err e => Err (Lookup e) | Panic => Panic end) ∧
    (∀ c q name, lookup_continue (mkLookup (c :: q) name) b = after_partition name (partition 0 links name q None)).
Proof.
  unfold shard_slots, resolve, lookup_continue, lookup_or_start. cbn [lookup_links needle]. destruct (flat_try_from b) as [f|]; [|done].
  destruct (u_type (f_data f)) eqn:Ht; try done. destruct (check_supported f); [done|]. intros Hs. exists (f_links f).
  split; [done|]. split; [done|]. intros c q name. by rewrite bool_decide_eq_true_2.
Qed.

(** The directory of depth at most [d] under [c], with its names and the number of its blocks. *)
Fixpoint shard (d : nat) (r : Repo S) (c : Cid) (names : list (Bytes * Cid)) (n : nat) : Prop :=
  match d with
  | O => False
  | Datatypes.S d =>
      ∃ b slots subs, held r c b ∧ shard_slots b = Some slots ∧
        Forall2 (λ b s, shard d r b s.1 s.2) (buckets slots) subs ∧
        names = entries slots ++ mjoin (map fst subs) ∧ n = Datatypes.S (sum_list (map snd subs))
  end.

(** The answer of a lookup: the only CID of a name, or that there is none. *)
Definition answers (name : Bytes) (names : list (Bytes * Cid)) (res : outcome HamtError Cid) : Prop :=
  (hits name names = [] → res = Err KeyNotFound) ∧ (∀ c, hits name names ≡ₚ [(name, c)] → res = Ok c).

(** A list of names whose hits are none or one, split in two. *)
Definition at_most_one (name : Bytes) (l : list (Bytes * Cid)) : Prop := hits name l = [] ∨ ∃ c, hits name l = [(name, c)].

Lemma at_most_one_app name l1 l2 :
  at_most_one name (l1 ++ l2) → at_most_one name l1 ∧ at_most_one name l2 ∧ (hits name l1 = [] ∨ hits name l2 = []).
Proof.
  unfold at_most_one. rewrite filter_app. intros [[H1 H2]%app_nil|(c & [[H1 H2]|[H1 H2]]%app_eq_unit)]; rewrite H1, H2; eauto 7.
Qed.

Lemma at_most_one_perm name l1 l2 : l1 ≡ₚ l2 → at_most_one name l1 → at_most_one name l2.
Proof.
  intros Hp [H0|(c & Hc)].
  - left. apply Permutation_nil_r. by rewrite <- Hp, H0.
  - right. exists c. apply Permutation_singleton_r. by rewrite <- Hp, Hc.
Qed.

Lemma answers_perm name l1 l2 res : l1 ≡ₚ l2 → answers name l1 res → answers name l2 res.
Proof.
  intros Hp [H0 H1]. split.
  - intros He. apply H0. apply Permutation_nil_r. by rewrite Hp, He.
  - intros c Hc. apply H1. by rewrite Hp.
Qed.

(** The queue of a lookup: the buckets that are left, with what they hold. *)
Lemma queue_lookup w o r fuel name q subs :
  working (S := S) w → swarm o = w → sound r → q ≠ [] →
  Forall2 (λ b s, ∃ d, shard d r b s.1 s.2) q subs → at_most_one name (mjoin (map fst subs)) → (sum_list (map snd subs) <= fuel)%nat →
  ∃ res, resolve_hamt fuel o r (mkLookup q name) = (res, r) ∧ answers name (mjoin (map fst subs)) res.
Proof.
  intros Hw Ho Hs. revert q subs. induction fuel as [|fuel IH]; intros q subs Hne Hq Hone Hf.
  - exfalso. destruct Hq as [|h [names n] q subs (d & Hh) Hq]; [done|]. destruct d as [|d]; [done|].
    destruct Hh as (b & slots & ss & _ & _ & _ & _ & Hn). simpl in *. lia.
  - destruct Hq as [|h [names n] q subs (d & Hh) Hq]; [done|]. destruct d as [|d]; [done|].
    destruct Hh as (blk & slots & ss & Hheld & Hslots & Hss & Hnames & Hn). simpl in Hnames, Hn. subst names n.
    destruct (shard_block blk slots Hslots) as (links & Hlinks & _ & Hcont).
    destruct (get_held w Hw r h _ Hheld) as (x & Hg & Hx & _).
    cbn [resolve_hamt pending_bucket lookup_links head]. rewrite Ho, Hg, Hx, Hcont.
    simpl map in Hone. simpl mjoin in Hone. rewrite <- app_assoc in Hone. destruct (at_most_one_app _ _ _ Hone) as (Hown & Hrest & Hdisj).
    destruct (partition_slots links slots name 0 q None Hlinks) as [Hpn Hpo]. simpl map. simpl mjoin.
    assert (Hmore : hits name (entries slots) = [] → ∃ res,
      match after_partition name (partition 0 links name q None) with
      | Ok (NeedToLoadMore next) => resolve_hamt fuel o r next
      | Ok (Found cid) => (Ok cid, r)
      | Ok NameNotFound => (Err KeyNotFound, r)
      | Err e => (Err (HamtLookup e), r)
      | Panic => (Panic, r)
      end = (res, r) ∧ answers name (mjoin (map fst subs) ++ mjoin (map fst ss)) res).
    { intros Hnil. rewrite Hpn by done. simpl.
      assert (Hq' : Forall2 (λ b s, ∃ d, shard d r b s.1 s.2) (q ++ buckets slots) (subs ++ ss)).
      { apply Forall2_app; [done|]. eapply Forall2_impl; [exact Hss|]. intros b s' Hb. by exists d. }
      destruct (q ++ buckets slots) as [|b q'] eqn:Hwork.
      - exists (Err KeyNotFound). split; [done|]. apply app_nil in Hwork as [-> Hb]. rewrite Hb in Hss. apply Forall2_nil_inv_l in Hq as ->.
        apply Forall2_nil_inv_l in Hss as ->. split; [done|]. intros c Hc. simpl in Hc. by apply Permutation_nil_cons in Hc.
      - destruct (IH (b :: q') (subs ++ ss)) as (res & Hres & Hans); [done|done| | |].
        + eapply at_most_one_perm; [|exact Hrest]. rewrite map_app, join_app. apply Permutation_app_comm.
        + rewrite map_app, sum_list_with_app in *. simpl in Hf. lia.
        + exists res. split; [done|]. by rewrite map_app, join_app in Hans. }
    destruct Hown as [Hnil|(c & Hc)].
    + destruct (Hmore Hnil) as (res & Hres & Hans). exists res. split; [exact Hres|].
      assert (Hans' : answers name (mjoin (map fst ss) ++ mjoin (map fst subs)) res) by (eapply answers_perm; [|exact Hans]; apply Permutation_app_comm).
      destruct Hans' as [H0 H1]. split; rewrite <- app_assoc, filter_app, Hnil; [exact H0|exact H1].
    + rewrite (Hpo c Hc eq_refl). simpl. exists (Ok c). split; [done|]. destruct Hdisj as [Hd|Hd]; [by rewrite Hd in Hc|].
      split; rewrite <- app_assoc, filter_app, Hc, Hd; [done|]. intros c' Hc'%Permutation_singleton_r. simpl in Hc'. by injection Hc' as ->.
Qed.

(** One segment through a sharded directory.  It counts as matched only when the root shard has it. *)
Lemma resolve0_shard w o r c d names n name c1 :
  working (S := S) w → swarm o = w → sound r → shard d r c names n → hits name names = [(name, c1)] →
  ∃ m, (m <= 1)%nat ∧ ∀ fuel segments total, (n <= fuel)%nat →
    resolve0 (Datatypes.S fuel) o r c (name :: segments) true total = resolve0 fuel o r c1 segments true (total + m).
Proof.
  intros Hw Ho Hs Hsh Hhit. destruct d as [|d]; [done|]. destruct Hsh as (blk & slots & subs & Hheld & Hslots & Hsub & -> & ->).
  destruct (shard_block blk slots Hslots) as (links & Hlinks & Hres & _). specialize (Hres name).
  destruct (get_held w Hw r c _ Hheld) as (x & Hg & Hx & Hv). destruct (Hs _ _ Hv) as (_ & _ & Hcodec).
  assert (Hone : at_most_one name (entries slots ++ mjoin (map fst subs))) by (right; by exists c1).
  destruct (at_most_one_app _ _ _ Hone) as (Hown & Hrest & _). rewrite filter_app in Hhit.
  destruct (partition_slots links slots name 0 [] None Hlinks) as [Hpn Hpo].
  destruct Hown as [Hnil|(c2 & Hc2)].
  - rewrite Hnil in Hhit. simpl in Hhit. exists 0%nat. split; [lia|]. intros fuel segments total Hf. cbn [resolve0].
    rewrite Ho, Hg. unfold resolve_local. rewrite Hcodec, Z.eqb_refl, Hx. unfold resolve_local_dagpb. rewrite Hres, Hpn by done.
    destruct (buckets slots) as [|b q] eqn:Hb; [apply Forall2_nil_inv_l in Hsub as ->; done|]. cbn [app fmap option_fmap option_map after_partition].
    destruct (queue_lookup w o r (Datatypes.S fuel) name (b :: q) subs) as (res & -> & _ & Hans); [done|done|done|done| |done|lia|].
    { eapply Forall2_impl; [exact Hsub|]. intros b' s' Hb'. by exists d. }
    rewrite (Hans c1) by (by rewrite Hhit). done.
  - exists 1%nat. split; [lia|]. intros fuel segments total Hf. cbn [resolve0].
    rewrite Ho, Hg. unfold resolve_local. rewrite Hcodec, Z.eqb_refl, Hx. unfold resolve_local_dagpb. rewrite Hres, (Hpo c2 Hc2 eq_refl). simpl.
    rewrite Hc2 in Hhit. by injection Hhit as ->.
Qed.

(** ** A file under a path of directories *)

(** Each segment names a link of a plain directory or an entry of a sharded one. *)
Inductive dir_path (r : Repo S) : Cid → list Bytes → Cid → Prop :=
| dir_here c : dir_path r c [] c
| dir_down c b links name c' segments c'' :
    held r c b → plain_links b = Some links → named links name c' →
    dir_path r c' segments c'' → dir_path r c (name :: segments) c''
| dir_shard c d names n name c' segments c'' :
    shard d r c names n → hits name names = [(name, c')] → dir_path r c' segments c'' → dir_path r c (name :: segments) c''.

Lemma resolve0_dirs w o r c segments c' b :
  working (S := S) w → swarm o = w → sound r → dir_path r c segments c' → held r c' b →
  ∃ x k, block_data x = b ∧ cid_codec (block_cid x) = DAG_PB ∧
    ∀ fuel total, (k <= fuel)%nat → ∃ m, (m <= total + length segments)%nat ∧ resolve0 fuel o r c segments true total = (Ok (NBlock x, m), r).
Proof.
  intros Hw Ho Hs Hp Hb. induction Hp as [c|c b' links name c1 segments c2 Hd Hok Hn Hp IH|c d names n name c1 segments c2 Hsh Hhit Hp IH].
  - destruct (get_held w Hw r c b Hb) as (x & Hg & Hx & Hv). exists x, 1%nat. split; [done|]. destruct (Hs _ _ Hv) as (_ & _ & Hc). split; [done|].
    intros [|fuel] total Hf; [lia|]. exists total. split; [simpl; lia|]. cbn [resolve0]. by rewrite Ho, Hg.
  - destruct (IH Hb) as (x & k & Hx & Hc & Hres). exists x, (Datatypes.S k). split; [done|]. split; [done|].
    intros [|fuel] total Hf; [lia|]. destruct (get_held w Hw r c _ Hd) as (y & Hg & Hy & Hv). destruct (Hs _ _ Hv) as (_ & _ & Hyc).
    destruct (Hres fuel (total + 1)%nat) as (m & Hm & Hr); [lia|]. exists m. split; [simpl; lia|].
    cbn [resolve0]. rewrite Ho, Hg. unfold resolve_local. rewrite Hyc, Z.eqb_refl, Hy. unfold resolve_local_dagpb. rewrite (resolve_dir b' links) by done.
    by rewrite (proj2 (proj1 (resolve_links_spec links name) c1) Hn).
  - destruct (IH Hb) as (x & k & Hx & Hc & Hres). exists x, (Datatypes.S (k + n)). split; [done|]. split; [done|].
    intros [|fuel] total Hf; [lia|]. destruct (resolve0_shard w o r c d names n name c1 Hw Ho Hs Hsh Hhit) as (m1 & Hm1 & Hstep).
    destruct (Hres fuel (total + m1)%nat) as (m & Hm & Hr); [lia|]. exists m. split; [simpl; lia|]. rewrite Hstep by lia. done.
Qed.

Lemma resolve_ipld_path fuel o c segments : resolve_ipns (Datatypes.S fuel) o (mkPath (Ipld c) segments) true = Resolved (mkPath (Ipld c) segments).
Proof.
  unfold resolve_ipns. cbn [ipns_resolve root resolve_names]. rewrite (bool_decide_eq_false_2 (_ ∈ [])) by set_solver.
  cbn [ipns_resolve root]. destruct fuel; cbn [resolve_names]; by rewrite bool_decide_eq_true_2 by set_solver.
Qed.

Lemma starting_block_dirs o (r : Repo S) c segments c' b0 :
  working (S := S) (swarm o) → sound r → dir_path r c segments c' → held r c' b0 →
  ∃ k, ∀ b fuel, held r c' b → (k <= fuel)%nat → ∃ x, starting_block fuel o r (FromPath (mkPath (Ipld c) segments)) = (Ok x, r) ∧ block_data x = b.
Proof.
  intros Hw Hs Hp Hb0. destruct (resolve0_dirs (swarm o) o r c segments c' b0 Hw eq_refl Hs Hp Hb0) as (x & k & Hx & Hc & Hres). exists (Datatypes.S k).
  intros b fuel Hb Hf. exists x. split; [|apply held_bytes in Hb; apply held_bytes in Hb0; congruence].
  destruct fuel as [|fuel]; [lia|]. unfold starting_block, dag_resolve. rewrite resolve_ipld_path. cbn [root root_cid path].
  destruct (Hres (Datatypes.S fuel) 0%nat) as (m & Hm & ->); [lia|]. unfold into_shifted. cbn [path]. rewrite (proj2 (Nat.leb_le _ _)) by lia.
  unfold into_unixfs_block. simpl. by rewrite Hc.
Qed.

Lemma file_tree_held d (r : Repo S) c data : file_tree d (held r) c data → ∃ b, held r c b.
Proof. destruct d; simpl; [intros [? _]|intros (? & ? & _ & ? & _)]; eauto. Qed.

(** C10. Reading a file through directories: in a working store whose blocks are dag-pb blocks stored
    under their hash, when each segment names the only link of that name of the directory before it (a
    UnixFS directory or a plain dag-pb node), or the only entry of that name of a sharded directory in
    whichever of its shards, whatever sizes the links carry, and the last leads to the tree of a file of
    less than 2^64 bytes, [cat] of the path yields the file, or its part in a range. *)
Theorem cat_through_directories o (r : Repo S) c segments c' d data range :
  working (S := S) (swarm o) → sound r → dir_path r c segments c' → file_tree d (held r) c' data → Z.of_nat (length data) < 2 ^ 64 →
  ∃ n items, mjoin items = part range 0 data ∧ Forall (λ b, b ≠ []) items ∧
    ∀ fuel, (n <= fuel)%nat → cat fuel o r (FromPath (mkPath (Ipld c) segments)) range = (Ok (map inl items, Ok tt), r).
Proof.
  intros Hw Hs Hp Ht Hlt. destruct (file_tree_held _ _ _ _ Ht) as [b0 Hb0]. destruct (starting_block_dirs o r c segments c' b0 Hw Hs Hp Hb0) as [k Hk].
  by apply (cat_from (swarm o) Hw o r c' d data range _ k).
Qed.

(** ** Paths that go wrong *)

(** A segment that is found in a bucket of a sharded directory is not counted as matched: when the
    lookup has to load buckets, the path that [resolve] reports as left over still has the segment that
    it has followed.  (In a plain directory, or in the root shard, it is dropped.) *)
Theorem bucket_segment_not_counted fuel o (r : Repo S) c b name l c1 b1 :
  working (S := S) (swarm o) → sound r → held r c b → resolve b name = Ok (NeedToLoadMore l) →
  resolve_hamt (Datatypes.S (Datatypes.S fuel)) o r l = (Ok c1, r) → held r c1 b1 →
  ∃ x, block_data x = b1 ∧ dag_resolve (Datatypes.S (Datatypes.S fuel)) o r (mkPath (Ipld c) [name]) true = (Ok (NBlock x, [name]), r).
Proof.
  intros Hw Hs Hb Hres Hh Hb1. destruct (get_held (swarm o) Hw r c b Hb) as (x & Hg & Hx & Hv). destruct (Hs _ _ Hv) as (_ & _ & Hc).
  destruct (get_held (swarm o) Hw r c1 b1 Hb1) as (y & Hg1 & Hy & _). exists y. split; [done|].
  unfold dag_resolve. rewrite resolve_ipld_path. cbn [root root_cid path].
  assert (H0 : resolve0 (Datatypes.S (Datatypes.S fuel)) o r c [name] true 0 = (Ok (NBlock y, 0%nat), r)); [|by rewrite H0].
  cbn [resolve0]. rewrite Hg. unfold resolve_local at 1. rewrite Hc, Z.eqb_refl, Hx. unfold resolve_local_dagpb. rewrite Hres. cbn [negb].
  rewrite Hh. cbn [negb]. rewrite Hg1. done.
Qed.

(** The name of a slot whose third byte is inside a character, as the middle of "A" and "é" is. *)
Definition split_character : Bytes := [65; 195; 169].

(** Looking any name up in a sharded directory panics when one of its links has a name whose
    second and third bytes are one character: the name is sliced at the third byte without a check. *)
Theorem shard_name_panics bits hash name :
  flat_ok (mkFlat [mkPBLink hash (Some split_character) None] (mkUnixFs UnixFsType.HAMTShard (Some bits) None [] (Some 34) (Some 256) None None)) →
  resolve (write_flat (mkFlat [mkPBLink hash (Some split_character) None] (mkUnixFs UnixFsType.HAMTShard (Some bits) None [] (Some 34) (Some 256) None None))) name = Panic.
Proof. intros Hok. unfold resolve. rewrite flat_reads_back by done. done. Qed.

Lemma empty_data_reads {Msg} (field : Z → Msg → Bytes → option (Msg * Bytes)) msg msg' :
  field 10 msg (put_varint 0) = Some (msg', []) → from_reader field msg (with_tag 10 (write_bytes [])) = Some msg'.
Proof.
  intros Hf. unfold from_reader, with_tag, write_bytes. rewrite app_nil_r. simpl length. change (Z.of_nat 0) with 0.
  destruct (put_varint 10 ++ put_varint 0) as [|y bs] eqn:Hb.
  { apply app_nil in Hb as [Hb _]. pose proof (put_varint_small 10 ltac:(lia)) as Hl. by rewrite Hb in Hl. }
  cbn [length read_fields]. rewrite <- Hb, next_tag_put by (unfold is_u, umax; lia). rewrite Hf.
  by destruct (length bs).
Qed.

Lemma read_empty_bytes : read_bytes (put_varint 0) = Some ([], []).
Proof. pose proof (read_bytes_put [] []) as Hr. simpl in Hr. rewrite app_nil_r in Hr. apply Hr. unfold u32_max, umax. lia. Qed.

(** A path that ends in [Data] panics on a node whose data is present but empty: the empty slice at
    the end of the block is taken to be outside of it. *)
Theorem empty_data_segment_panics o c :
  cid_codec c = DAG_PB → resolve_local o (mkBlock c (write_pbnode (mkPBNode [] (Some [])))) [data_segment] = (Panic, []).
Proof.
  intros Hc. change (write_pbnode (mkPBNode [] (Some []))) with (with_tag 10 (write_bytes [])). set (b := with_tag 10 (write_bytes [])).
  unfold resolve_local. cbn [block_cid block_data]. rewrite Hc, Z.eqb_refl. unfold resolve_local_dagpb.
  assert (Hflat : flat_try_from b = inr (NoData (mkPBNode [] (Some [])))).
  { unfold flat_try_from, read_pbnode, b. rewrite (empty_data_reads _ _ (mkPBNode [] (Some []))); [done|].
    unfold pbnode_field. simpl. unfold field_of. by rewrite read_empty_bytes. }
  unfold resolve. rewrite Hflat. cbn [Links]. unfold resolve_links, matching. simpl.
  assert (Hnode : node_data b = Some (Some (length b, []))).
  { unfold node_data. unfold b at 2. rewrite (empty_data_reads _ _ (Some (length b, []))); [done|].
    unfold data_field. simpl. rewrite read_empty_bytes. by rewrite !Nat.sub_0_r. }
  unfold wrap_node_data. rewrite Hnode. unfold subslice_to_range. rewrite (proj2 (Nat.ltb_ge _ _)) by (simpl; lia). by rewrite Nat.leb_refl.
Qed.

(** The segments of a path under a DNS name are ignored: whatever follows the name, the path
    resolves to the link of the name alone. *)
Theorem dns_segments_ignored fuel o domain p p' recurse :
  resolve_ipns fuel o (mkPath (Dns domain) p) recurse = resolve_ipns fuel o (mkPath (Dns domain) p') recurse.
Proof. done. Qed.

(** ** Names *)

Lemma resolve_names_ends fuel o l seen resolved :
  (∀ p q, p ∈ l → ipns_resolve o p = Some q → q ∈ l) → NoDup seen → (∀ p, p ∈ seen → p ∈ l) → (∀ p, resolved = Some p → p ∈ l) →
  (length l <= fuel + length seen)%nat → resolve_names fuel o seen resolved ≠ Unfinished.
Proof.
  intros Hl. revert seen resolved. induction fuel as [|fuel IH]; intros seen resolved Hnd Hs Hr Hf; simpl; destruct resolved as [res|]; try done.
  all: case_bool_decide as Hin; [done|]; specialize (Hr res eq_refl).
  all: assert (Hnd' : NoDup (res :: seen)) by (by constructor).
  all: assert (Hs' : ∀ p, p ∈ res :: seen → p ∈ l) by (intros p [->|Hp]%elem_of_cons; auto).
  all: pose proof (NoDup_incl_length (l := res :: seen) (l' := l)) as Hlen; rewrite <- NoDup_ListNoDup in Hlen.
  all: specialize (Hlen Hnd' ltac:(intros p Hp%list_elem_of_In; by apply list_elem_of_In, Hs')); simpl in Hlen.
  - lia.
  - apply IH; [done|done|intros p Hp; by eapply (Hl res)|simpl; lia].
Qed.

(** Names resolve in a bounded number of steps: when the DNS links lead to finitely many paths,
    cycles included, [resolve_ipns] ends after at most one turn for each of them and one for the path
    itself. *)
Theorem names_terminate fuel o l p recurse :
  (∀ domain q, dnslink_resolve o domain = Some q → q ∈ l) → (length l < fuel)%nat → resolve_ipns fuel o p recurse ≠ Unfinished.
Proof.
  intros Hl Hf. unfold resolve_ipns. destruct recurse; [|by destruct (ipns_resolve o p)].
  assert (Hstep : ∀ p' q, p' ∈ p :: l → ipns_resolve o p' = Some q → q ∈ p :: l).
  { intros p' q Hp'. unfold ipns_resolve. destruct (root p') as [c|k|domain]; [by intros [= <-]|done|]. intros Hq. right. by eapply Hl. }
  apply (resolve_names_ends fuel o (p :: l) []); [done|constructor|set_solver|intros q; apply Hstep; left|simpl; lia].
Qed.

End Dag.
