(* ===== verification/RefsProps.v ===== *)
(** The walk over references reports what a document links to, level by level, as its options ask, and
    ends; recursive pins cover all that is reached, and can be taken back. *)

From S2P Require Import Prelude Runtime Utf8 IpfsPath UnixfsPb FileAdder UnixfsDir Repo RepoProps Dag Refs.

Section Refs.
Context {W : Wire} {R : RustIpfs} {RL : RustIpfsLaws R} {C : ContentHash} {CL : ContentHashLaws C}.
Context {S : Type} {B : BlockStore S} {BL : BlockStoreLaws S B}.
Context (o : Outside) (r : Repo S).

(** The links of a stored document. *)
Definition links_at (c : Cid) : option (list Cid) :=
  match bs_view (block_store r) !! cid_hash c with
  | Some x => match block_decode o x with Some v => map snd <$> ipld_links o c v | None => None end
  | None => None
  end.

(** What the documents of [roots] reach. *)
Inductive reach (roots : list Cid) : Cid → Prop :=
| reach_root c : c ∈ roots → reach roots c
| reach_link c l d : reach roots c → links_at c = Some l → d ∈ l → reach roots d.

(** The links of the documents of a list, in order, and the lists of what is [n] links away, and of
    what is less than [n] links away. *)
Definition children (c : Cid) : list Cid := default [] (links_at c).

Fixpoint level (l : list Cid) (n : nat) : list Cid :=
  match n with O => l | Datatypes.S n => level (l ≫= children) n end.

Fixpoint levels (l : list Cid) (n : nat) : list Cid :=
  match n with O => [] | Datatypes.S n => l ++ levels (l ≫= children) n end.

Lemma levels_S l n : levels l (Datatypes.S n) = levels l n ++ level l n.
Proof. revert l. induction n as [|n IH]; intros l; [apply app_nil_r|]. cbn [levels level]. rewrite <- app_assoc, <- IH. done. Qed.

Lemma level_S l n : level l (Datatypes.S n) = level l n ≫= children.
Proof. revert l. induction n as [|n IH]; intros l; [done|]. cbn [level]. by rewrite <- IH. Qed.

(** *** First occurrences *)

Fixpoint fresh (seen l : list Cid) : list Cid :=
  match l with
  | [] => []
  | c :: l => if decide (c ∈ seen) then fresh seen l else c :: fresh (c :: seen) l
  end.

Lemma elem_of_fresh seen l c : c ∈ fresh seen l ↔ c ∈ l ∧ c ∉ seen.
Proof.
  revert seen. induction l as [|x l IH]; intros seen; simpl; [set_solver|].
  destruct (decide (x ∈ seen)); rewrite ?elem_of_cons, IH, ?elem_of_cons; [set_solver|]. destruct (decide (c = x)); set_solver.
Qed.

Lemma fresh_NoDup seen l : NoDup (fresh seen l).
Proof.
  revert seen. induction l as [|x l IH]; intros seen; simpl; [constructor|]. destruct (decide (x ∈ seen)); [done|].
  constructor; [|done]. rewrite elem_of_fresh. set_solver.
Qed.

Lemma fresh_nil seen l : fresh seen l = [] ↔ ∀ c, c ∈ l → c ∈ seen.
Proof.
  split.
  - intros Hf c Hc. destruct (decide (c ∈ seen)) as [|Hn]; [done|]. assert (c ∈ fresh seen l) by (by apply elem_of_fresh). rewrite Hf in *. set_solver.
  - intros Hl. destruct (fresh seen l) as [|c f] eqn:Hf; [done|]. assert (c ∈ fresh seen l) as [? ?]%elem_of_fresh by (rewrite Hf; left). naive_solver.
Qed.

Lemma fresh_ext s1 s2 l : (∀ c, c ∈ s1 ↔ c ∈ s2) → fresh s1 l = fresh s2 l.
Proof.
  revert s1 s2. induction l as [|x l IH]; intros s1 s2 Hs; [done|]. simpl.
  destruct (decide (x ∈ s1)) as [H1|H1], (decide (x ∈ s2)) as [H2|H2]; [by apply IH|by apply Hs in H1|by apply Hs in H2|].
  f_equal. apply IH. intros c. rewrite !elem_of_cons, Hs. done.
Qed.

Lemma fresh_app seen l1 l2 : fresh seen (l1 ++ l2) = fresh seen l1 ++ fresh (seen ++ l1) l2.
Proof.
  revert seen. induction l1 as [|x l1 IH]; intros seen; simpl; [by rewrite app_nil_r|].
  destruct (decide (x ∈ seen)); rewrite IH; simpl; [|f_equal]; f_equal; apply fresh_ext; set_solver.
Qed.

(** The links that are queued: with [unique], those that were not queued before. *)
Definition picked (opts : IpldRefs) (seen l : list Cid) : list Cid := if unique opts then fresh seen l else l.

Lemma picked_ext opts s1 s2 l : (∀ c, c ∈ s1 ↔ c ∈ s2) → picked opts s1 l = picked opts s2 l.
Proof. unfold picked. destruct (unique opts); [apply fresh_ext|done]. Qed.

Lemma picked_app opts seen l1 l2 : picked opts seen (l1 ++ l2) = picked opts seen l1 ++ picked opts (seen ++ l1) l2.
Proof. unfold picked. destruct (unique opts); [apply fresh_app|done]. Qed.

(** The links of what is picked, among links that hold those of what was seen. *)
Lemma picked_links opts seen l known :
  (∀ c, c ∈ seen → children c ⊆ known) → picked opts known (picked opts seen l ≫= children) = picked opts known (l ≫= children).
Proof.
  unfold picked. destruct (unique opts); [|done]. revert seen known. induction l as [|c l IH]; intros seen known Hk; [done|]. simpl fresh.
  destruct (decide (c ∈ seen)) as [Hc|Hc].
  - change ((c :: l) ≫= children) with (children c ++ l ≫= children). rewrite fresh_app. specialize (Hk c Hc) as Hin.
    rewrite (proj2 (fresh_nil known (children c))) by set_solver.
    simpl. rewrite (IH seen) by done. apply fresh_ext. set_solver.
  - change ((c :: fresh (c :: seen) l) ≫= children) with (children c ++ fresh (c :: seen) l ≫= children).
    change ((c :: l) ≫= children) with (children c ++ l ≫= children). rewrite !fresh_app. f_equal. apply IH.
    intros d [->|Hd]%elem_of_cons; [set_solver|]. specialize (Hk d Hd). set_solver.
Qed.

(** *** The stream *)

Abbreviation places l := (map (λ i : Z * Cid * Cid * option Bytes, i.1.1) l).

Lemma push_links_spec opts depth origin links st :
  let st' := push_links opts depth origin links st in
  places (work st') = places (work st) ++ map (pair depth) (picked opts (queued_or_visited st) (map snd links)) ∧
  (unique opts = true → ∀ c, c ∈ queued_or_visited st' ↔ c ∈ queued_or_visited st ∨ c ∈ map snd links) ∧ finished st' = finished st.
Proof.
  revert st. induction links as [|[name c] links IH]; intros st; simpl.
  - unfold picked. destruct (unique opts); simpl; rewrite app_nil_r; set_solver.
  - unfold picked in *. destruct (unique opts); simpl in *.
    + case_bool_decide as Hin.
      * rewrite decide_True by done. destruct (IH st) as (Hp & Hq & Hf). split; [done|]. split; [|done]. intros _ d. rewrite Hq by done. set_solver.
      * rewrite decide_False by done. set (st1 := mkStream _ _ _). destruct (IH st1) as (Hp & Hq & Hf).
        split; [rewrite Hp; unfold st1; simpl; by rewrite map_app, <- app_assoc|]. split; [|done]. intros _ d. rewrite Hq by done. set_solver.
    + set (st1 := mkStream _ _ _). destruct (IH st1) as (Hp & Hq & Hf). split; [rewrite Hp; unfold st1; simpl; by rewrite map_app, <- app_assoc|]. by split.
Qed.

Section Walk.
Context (Hget : ∀ (s : S) c, bs_get s c ≠ None) (opts : IpldRefs).

(** A depth at which references are reported. *)
Definition within (depth : Z) : Prop := match max_depth opts with Some d => depth < d | None => True end.

Lemma refs_next_step depth c src name rest q :
  within depth → is_Some (links_at c) →
  ∃ links, map snd links = children c ∧
    refs_next (Datatypes.S (length rest)) o opts r (mkStream ((depth, c, src, name) :: rest) q false) =
      (Ok (Some (inl (mkEdge src c name))), push_links opts (depth + 1) c links (mkStream rest q false), r).
Proof.
  unfold within, children, links_at. intros Hd. destruct (bs_view (block_store r) !! cid_hash c) as [x|] eqn:Hx; [|by intros [??]].
  destruct (block_decode o x) as [v|] eqn:Hv; [|by intros [??]].
  destruct (ipld_links o c v) as [links|] eqn:Hl; [|by intros [??]]. intros _. exists links. split; [done|].
  pose proof (Hget (block_store r) c) as Hg. destruct (bs_get (block_store r) c) as [res|] eqn:Hb; [|done]. pose proof Hb as Hv'. apply get_view in Hv'. rewrite Hx in Hv'. subst res.
  cbn [refs_next finished work]. replace (match max_depth opts with Some d => d <=? depth | None => false end) with false
    by (destruct (max_depth opts); [symmetry; apply Z.leb_gt; lia|done]).
  replace (match max_depth opts with Some d => negb (d + 1 =? depth) | None => true end) with true
    by (destruct (max_depth opts) as [d|]; [by rewrite (proj2 (Z.eqb_neq (d + 1) depth)) by lia|done]). cbn [queued_or_visited].
  assert (Hload : (if download_blocks opts then match get_block (swarm o) r c with (Some block, r) => (Some (inl block), r) | (None, r) => (None, r) end
    else match get_block_now r c with Some (Some block) => (Some (inl block), r) | Some None => (Some (inr (BlockNotFound c)), r) | None => (Some (inr (Loading c)), r) end)
    = (Some (@inl Block IpldRefsError x), r)).
  { unfold get_block, get_block_now. rewrite Hb. by destruct (download_blocks opts). }
  rewrite Hload, Hv, Hl. done.
Qed.

(** What is queued at the limit is skipped. *)
Lemma refs_next_skips wk q :
  Forall (λ i : Z * Cid * Cid * option Bytes, ¬ within i.1.1.1) wk →
  refs_next (length wk) o opts r (mkStream wk q false) = (Ok None, mkStream [] q true, r).
Proof.
  induction 1 as [|[[[depth c] src] name] wk Hd _ IH]; [done|]. cbn [refs_next length finished work queued_or_visited].
  unfold within in Hd. simpl in Hd. destruct (max_depth opts) as [d|]; [|done]. rewrite (proj2 (Z.leb_le d depth)) by lia. exact IH.
Qed.

(** One level: its documents are reported, and their links queued behind those that are. *)
Lemma drain_level k l l' fuel st refs :
  within k → (∀ c, c ∈ l → is_Some (links_at c)) → finished st = false →
  places (work st) = map (pair k) l ++ map (pair (k + 1)) l' →
  ∃ st', drain (length l + fuel) o opts r st refs = drain fuel o opts r st' (refs ++ l) ∧ finished st' = false ∧
    places (work st') = map (pair (k + 1)) (l' ++ picked opts (queued_or_visited st) (l ≫= children)) ∧
    (unique opts = true → ∀ c, c ∈ queued_or_visited st' ↔ c ∈ queued_or_visited st ∨ c ∈ l ≫= children).
Proof.
  intros Hk. revert l' st refs. induction l as [|c l IH]; intros l' st refs Hload Hfin Hwk.
  - exists st. rewrite app_nil_r. split; [done|]. split; [done|]. unfold picked. simpl. destruct (unique opts); rewrite app_nil_r; set_solver.
  - destruct st as [[|[[[depth c'] src] name] rest] q fin]; [done|]. simpl in Hwk, Hfin. subst fin. injection Hwk as -> -> Hrest.
    destruct (refs_next_step k c src name rest q Hk) as (links & Hlk & Hn); [apply Hload; set_solver|].
    destruct (push_links_spec opts (k + 1) c links (mkStream rest q false)) as (Hp & Hq & Hf). set (st1 := push_links _ _ _ _ _) in *. simpl in Hp, Hq, Hf.
    rewrite Hlk in Hp, Hq. destruct (IH (l' ++ picked opts q (children c)) st1 (refs ++ [c])) as (st' & Hd & Hf' & Hp' & Hq').
    + set_solver.
    + done.
    + by rewrite Hp, Hrest, map_app, app_assoc.
    + exists st'. cbn [length Nat.add drain work]. rewrite Hn. cbn [destination]. rewrite Hd, <- app_assoc. split; [done|]. split; [done|].
      change ((c :: l) ≫= children) with (children c ++ l ≫= children). cbn [queued_or_visited]. split.
      * rewrite Hp', picked_app, <- app_assoc. do 3 f_equal. unfold picked. destruct (unique opts); [|done]. apply fresh_ext. intros d.
        rewrite elem_of_app. by apply Hq.
      * intros Hu d. rewrite Hq' by done. rewrite Hq by done. set_solver.
Qed.

Lemma drain_end k n fuel st refs l :
  (match max_depth opts with Some d => d = k | None => l = [] end) → finished st = false → places (work st) = map (pair k) l →
  (0 < fuel)%nat → drain (n + fuel) o opts r st refs = (refs, Ok false, r).
Proof.
  intros Hend Hfin Hwk Hf. destruct (n + fuel)%nat as [|m] eqn:Hm; [lia|]. destruct st as [wk q fin]. simpl in *. subst fin.
  rewrite refs_next_skips; [done|]. apply Forall_forall. intros i Hi. unfold within. destruct (max_depth opts) as [d|].
  - assert (Hin : i.1.1 ∈ places wk) by (apply list_elem_of_fmap; by exists i). rewrite Hwk in Hin. apply list_elem_of_fmap in Hin as (c & Hc & _). rewrite Hc. simpl. lia.
  - subst l. simpl in Hwk. apply fmap_nil_inv in Hwk as ->. set_solver.
Qed.

(** The walk ends after [n] levels: at the limit, or when nothing more is queued. *)
Lemma drain_levels n k l seen fuel st refs :
  (match max_depth opts with Some d => d = k + Z.of_nat n | None => picked opts (seen ++ levels l n) (level l n) = [] end) →
  (∀ c, c ∈ levels l n → is_Some (links_at c)) → (∀ c, c ∈ seen → children c ⊆ seen ++ l) →
  finished st = false → places (work st) = map (pair k) (picked opts seen l) →
  (unique opts = true → ∀ c, c ∈ queued_or_visited st ↔ c ∈ seen ++ l) → (length (picked opts seen (levels l n)) < fuel)%nat →
  drain fuel o opts r st refs = (refs ++ picked opts seen (levels l n), Ok false, r).
Proof.
  revert k l seen fuel st refs. induction n as [|n IH]; intros k l seen fuel st refs Hend Hload Hcl Hfin Hwk Hq Hf.
  - assert (picked opts seen (levels l 0) = []) as -> by (unfold picked; by destruct (unique opts)). rewrite app_nil_r. cbn [levels level] in Hend.
    rewrite app_nil_r in Hend. apply (drain_end k 0 fuel st refs (picked opts seen l)); [|done|done|lia]. destruct (max_depth opts); [lia|done].
  - cbn [levels level] in *. rewrite picked_app in *. rewrite length_app in Hf.
    assert (Hk : within k) by (unfold within; destruct (max_depth opts); [lia|done]).
    assert (Hsub : ∀ c, c ∈ picked opts seen l → c ∈ l) by (intros c; unfold picked; destruct (unique opts); rewrite ?elem_of_fresh; tauto).
    destruct (drain_level k (picked opts seen l) [] (fuel - length (picked opts seen l)) st refs Hk) as (st' & Hd & Hf' & Hp' & Hq'); [set_solver|done|by rewrite app_nil_r|].
    replace (length (picked opts seen l) + (fuel - length (picked opts seen l)))%nat with fuel in Hd by lia. rewrite Hd, app_assoc.
    apply (IH (k + 1)); [| | |done| | |lia].
    + destruct (max_depth opts); [lia|]. by rewrite <- app_assoc.
    + set_solver.
    + intros c [Hc|Hc]%elem_of_app; [specialize (Hcl c Hc); set_solver|]. intros d Hdc. apply elem_of_app. right. apply list_elem_of_bind. by exists c.
    + rewrite Hp', app_nil_l, <- (picked_links opts seen l (seen ++ l) Hcl). f_equal. unfold picked at 1 3. destruct (unique opts) eqn:Hu; [|done].
      apply fresh_ext. by apply Hq.
    + intros Hu c. rewrite Hq', Hq by done. unfold picked. rewrite Hu. rewrite !(elem_of_app (seen ++ l)). split; intros [Hc|Hc]; [by left| |by left|].
      * right. apply list_elem_of_bind in Hc as (d & Hc & [Hd1 _]%elem_of_fresh). apply list_elem_of_bind. by exists d.
      * apply list_elem_of_bind in Hc as (d & Hc & Hd1). destruct (decide (d ∈ seen)) as [Hs|Hs]; [left; by apply (Hcl d)|].
        right. apply list_elem_of_bind. exists d. split; [done|]. by apply elem_of_fresh.
Qed.

(** The walk of a document with the links [l] ends after [n] levels. *)
Definition ends_after (l : list Cid) (n : nat) : Prop :=
  match max_depth opts with Some d => d = Z.of_nat n | None => picked opts (levels l n) (level l n) = [] end.

Lemma refs_levels cid v links n fuel :
  ipld_links o cid v = Some links → ends_after (map snd links) n → (∀ c, c ∈ levels (map snd links) n → is_Some (links_at c)) →
  (length (picked opts [] (levels (map snd links) n)) < fuel)%nat →
  ∃ st, refs_of_resolved o opts cid v = Some st ∧ drain fuel o opts r st [] = (picked opts [] (levels (map snd links) n), Ok false, r).
Proof.
  unfold ends_after, refs_of_resolved, iplds_refs_inner. intros Hl Hend Hload Hf. cbn [push_documents]. rewrite Hl.
  destruct (match max_depth opts with Some n => n =? 0 | None => false end) eqn:H0.
  - destruct (max_depth opts) as [d|]; [|done]. apply Z.eqb_eq in H0. assert (n = 0%nat) as -> by lia. eexists. split; [done|].
    destruct fuel; [lia|]. simpl. unfold picked. by destruct (unique opts).
  - eexists. split; [done|]. destruct (push_links_spec opts 0 cid links (mkStream [] [] false)) as (Hp & Hq & Hfin). simpl in Hp, Hq, Hfin.
    apply (drain_levels n 0 (map snd links) []); [by destruct (max_depth opts)|done|set_solver|done|done| |done]. intros Hu c. rewrite Hq by done. set_solver.
Qed.
End Walk.

(** *** What is reached *)

Lemma elem_of_levels l n c : c ∈ levels l n ↔ ∃ m, (m < n)%nat ∧ c ∈ level l m.
Proof.
  induction n as [|n IH]; [split; [set_solver|intros (m & ? & _); lia]|]. rewrite levels_S, elem_of_app, IH. split.
  - intros [(m & Hm & Hc)|Hc]; [exists m|exists n]; (split; [lia|done]).
  - intros (m & Hm & Hc). destruct (decide (m = n)) as [->|]; [by right|left; exists m; split; [lia|done]].
Qed.

Lemma level_next l n c d ls : c ∈ level l n → links_at c = Some ls → d ∈ ls → d ∈ level l (Datatypes.S n).
Proof. intros Hc Hl Hd. rewrite level_S. apply list_elem_of_bind. exists c. unfold children. by rewrite Hl. Qed.

Lemma level_reach l n c : c ∈ level l n → reach l c.
Proof.
  revert c. induction n as [|n IH]; intros c Hc; [by apply reach_root|]. rewrite level_S in Hc. apply list_elem_of_bind in Hc as (d & Hc & Hd).
  unfold children in Hc. destruct (links_at d) as [ls|] eqn:Hls; [|by apply not_elem_of_nil in Hc]. eapply reach_link; [by apply IH|done|done].
Qed.

(** When the next level is not new, the levels hold exactly what is reached. *)
Lemma levels_reach l n c : fresh (levels l n) (level l n) = [] → c ∈ levels l n ↔ reach l c.
Proof.
  intros Hcl. rewrite fresh_nil in Hcl. split; [intros (m & _ & Hm)%elem_of_levels; by eapply level_reach|].
  assert (Hle : ∀ m d, (m <= n)%nat → d ∈ level l m → d ∈ levels l n).
  { intros m d Hm Hd. destruct (decide (m = n)) as [->|]; [by apply Hcl|]. apply elem_of_levels. exists m. split; [lia|done]. }
  induction 1 as [c Hc|c ls d _ IH Hl Hd]; [by apply (Hle 0%nat); [lia|]|]. apply elem_of_levels in IH as (m & Hm & Hc).
  apply (Hle (Datatypes.S m)); [lia|]. by eapply level_next.
Qed.

(** Finitely many documents are reached in finitely many levels. *)
Lemma levels_close l (universe : list Cid) : (∀ c, reach l c → c ∈ universe) → ∃ n, fresh (levels l n) (level l n) = [].
Proof.
  intros Hu. assert (Hgrow : ∀ n, (∃ m, fresh (levels l m) (level l m) = []) ∨ (n <= length (fresh [] (levels l n)))%nat).
  { induction n as [|n [Hm|IH]]; [right; simpl; lia|by left|]. destruct (fresh (levels l n) (level l n)) as [|c f] eqn:Hf; [left; by exists n|right].
    rewrite levels_S, fresh_app, length_app, app_nil_l, Hf. simpl. lia. }
  destruct (Hgrow (Datatypes.S (length universe))) as [|Hlen]; [done|exfalso].
  pose proof (NoDup_incl_length (l := fresh [] (levels l (Datatypes.S (length universe)))) (l' := universe)) as Hn. rewrite <- NoDup_ListNoDup in Hn.
  specialize (Hn (fresh_NoDup _ _)). cut (length (fresh [] (levels l (Datatypes.S (length universe)))) <= length universe)%nat; [lia|]. apply Hn.
  intros c [Hc _]%list_elem_of_In%elem_of_fresh. apply list_elem_of_In, Hu. apply elem_of_levels in Hc as (m & _ & Hm). by eapply level_reach.
Qed.

(** The document of [cid], with its links. *)
Definition document (cid : Cid) (x : Block) (v : IpldValue) (links : list (option Bytes * Cid)) : Prop :=
  bs_view (block_store r) !! cid_hash cid = Some x ∧ block_decode o x = Some v ∧ ipld_links o cid v = Some links.

Lemma refs_all (Hget : ∀ (s : S) c, bs_get s c ≠ None) opts cid x v links universe fuel :
  unique opts = true → max_depth opts = None → document cid x v links →
  (∀ c, reach (map snd links) c → c ∈ universe ∧ is_Some (links_at c)) → (length universe < fuel)%nat →
  ∃ st out, refs_of_resolved o opts cid v = Some st ∧ drain fuel o opts r st [] = (out, Ok false, r) ∧
    NoDup out ∧ ∀ c, c ∈ out ↔ reach (map snd links) c.
Proof.
  intros Hu Hmd (_ & _ & Hl) Hload Hf. destruct (levels_close (map snd links) universe) as [n Hn]; [intros c Hc; by apply Hload|].
  assert (Hout : ∀ c, c ∈ fresh [] (levels (map snd links) n) ↔ reach (map snd links) c).
  { intros c. rewrite elem_of_fresh, (levels_reach _ n) by done. set_solver. }
  destruct (refs_levels Hget opts cid v links n fuel Hl) as (st & Hst & Hd).
  - unfold ends_after, picked. by rewrite Hmd, Hu.
  - intros c Hc. apply Hload. by rewrite <- (levels_reach _ n).
  - unfold picked. rewrite Hu. eapply Nat.le_lt_trans; [|exact Hf].
    pose proof (NoDup_incl_length (l := fresh [] (levels (map snd links) n)) (l' := universe)) as Hlen. rewrite <- NoDup_ListNoDup in Hlen.
    apply Hlen; [apply fresh_NoDup|]. intros c Hc%list_elem_of_In. by apply list_elem_of_In, Hload, Hout.
  - exists st, (fresh [] (levels (map snd links) n)). unfold picked in Hd. rewrite Hu in Hd. split; [done|]. split; [done|]. split; [apply fresh_NoDup|done].
Qed.
End Refs.

Section Pinning.
Context {W : Wire} {R : RustIpfs} {RL : RustIpfsLaws R} {C : ContentHash} {CL : ContentHashLaws C}.
Context {S : Type} {B : BlockStore S} {BL : BlockStoreLaws S B}.


Lemma links_at_pins o (r : Repo S) g c : links_at o (set_pins r g) c = links_at o r c.
Proof. done. Qed.

Lemma reach_pins o (r : Repo S) g roots c : reach o (set_pins r g) roots c ↔ reach o r roots c.
Proof. split; induction 1 as [c Hc|c l d _ IH Hl Hd]; [by apply reach_root|by eapply reach_link..|by apply reach_root|by eapply reach_link]. Qed.

(** The stored block of a document, as it is loaded. *)
Lemma document_block o (r : Repo S) cid x v links :
  (∀ (s : S) c, bs_get s c ≠ None) → document o r cid x v links → bs_get (block_store r) cid = Some (Some x).
Proof.
  intros Hget (Hx & _). pose proof (Hget (block_store r) cid) as Hn. destruct (bs_get (block_store r) cid) as [res|] eqn:Hb; [|done]. apply get_view in Hb. by rewrite Hb, Hx.
Qed.

(** The recursive pin of a document, by the pins of its root and of the references of a walk. *)
Lemma insert_pin_run o (r : Repo S) cid x v links st out fuel :
  (∀ (s : S) c, bs_get s c ≠ None) → document o r cid x v links → refs_of_resolved o (with_only_unique default_refs) cid v = Some st →
  drain fuel o (with_only_unique default_refs) r st [] = (out, Ok false, r) →
  (counted (pins r) cid = true → ipfs_insert_pin fuel o r cid true = (Err (PinUpdate AlreadyPinnedRecursive), r)) ∧
  (∀ g', insert_recursive_pin (pins r) cid (mkRefs out false) = (Ok tt, g') → ipfs_insert_pin fuel o r cid true = (Ok tt, set_pins r g')).
Proof.
  intros Hget Hdoc Hst Hdr. pose proof (document_block _ _ _ _ _ _ Hget Hdoc) as Hb. destruct Hdoc as (_ & Hv & _).
  unfold ipfs_insert_pin, get_block, get_block_now. rewrite Hb. cbn [negb]. rewrite Hv, Hst. split.
  - intros Hc. rewrite insert_counted by done. by destruct r.
  - intros g' Hins. assert (Hint : ∃ b g1, insert_pin (pins r) cid RecursiveIntention = (Ok b, g1)).
    { unfold insert_recursive_pin in Hins. destruct (insert_pin (pins r) cid RecursiveIntention) as [[b|e|] g1]; [eauto|done|done]. }
    destruct Hint as (b & g1 & ->). rewrite Hdr. cbn [stream_failed]. by rewrite Hins.
Qed.

(** C6. Pinning a document recursively protects all it reaches, for a document that is stored with what it
    reaches, all of which decodes and is finite, whatever was pinned before.  A document that is already
    pinned recursively is refused, without a change.  Otherwise the pin succeeds; the document, everything
    it reaches and everything that was pinned is pinned, and removing a block under one of those CIDs is
    refused without a change.  When moreover the document was not pinned recursively, not even as an
    intention, does not reach itself, and no pin names it (or the other version of its CID) as the root
    it comes from, unpinning it recursively restores the pins as they were, except for a direct pin of
    the document itself, which the recursive pin has replaced. *)
Theorem recursive_pin_protects (o : Outside) (r : Repo S) cid x v links universe fuel :
  (∀ (s : S) c, bs_get s c ≠ None) → pins_ok (pins r) → document o r cid x v links →
  (∀ c, reach o r (map snd links) c → c ∈ universe ∧ is_Some (links_at o r c)) → (length universe < fuel)%nat →
  (counted (pins r) cid = true → ipfs_insert_pin fuel o r cid true = (Err (PinUpdate AlreadyPinnedRecursive), r)) ∧
  (counted (pins r) cid = false → ∃ r', ipfs_insert_pin fuel o r cid true = (Ok tt, r') ∧
    (∀ c, c = cid ∨ reach o r (map snd links) c ∨ is_pinned (pins r) c = true →
       is_pinned (pins r') c = true ∧ remove_block r' c = (None, r')) ∧
    (not_root (pins r) cid → ¬ reach o r (map snd links) cid → (∀ k d, pins r !! k = Some d → root_string cid ∉ indirect_by d) →
       ipfs_remove_pin fuel o r' cid true = (Ok tt, set_pins r (forget_direct (pins r) cid)) ∧
       ((∀ d, pins r !! cid_to_bytes cid = Some d → direct d = false) → set_pins r (forget_direct (pins r) cid) = r))).
Proof.
  intros Hget Hg Hdoc Hload Hf.
  destruct (refs_all o r Hget (with_only_unique default_refs) cid x v links universe fuel) as (st & out & Hst & Hdr & Hnd & Hout); [done..|].
  destruct (insert_pin_run o r cid x v links st out fuel Hget Hdoc Hst Hdr) as [Hcounted Hrun]. split; [done|]. intros Hc.
  destruct (recursive_pin_covers (pins r) cid out Hc) as (g' & Hins & Hpin). exists (set_pins r g'). split; [by apply Hrun|]. split.
  - intros c Hcase. assert (Hp : is_pinned (pins (set_pins r g')) c = true) by (apply Hpin; by rewrite Hout). split; [done|]. unfold remove_block. by rewrite Hp.
  - intros Hroot Hnr Hstr. split; [|intros Hd; rewrite forget_direct_none by done; by destruct r].
    destruct (recursive_pin_roundtrip (pins r) cid out) as (g2 & Hins2 & (d & n & Hd & Hk) & Hrem); [done|done|done|by rewrite Hout|done|].
    rewrite Hins in Hins2. injection Hins2 as <-.
    destruct (refs_all o (set_pins r g') Hget (with_existing_blocks (with_only_unique default_refs)) cid x v links universe fuel)
      as (st' & out' & Hst' & Hdr' & Hnd' & Hout'); [done|done|done| |done|].
    { intros c Hc'. apply Hload. by apply reach_pins in Hc'. }
    assert (Hpolls : polls_refs g' cid = true) by (unfold polls_refs; by rewrite Hd, Hk). pose proof (document_block _ _ _ _ _ _ Hget Hdoc) as Hb. destruct Hdoc as (_ & Hv & _).
    unfold ipfs_remove_pin, get_block_now. cbn [negb set_pins block_store pins]. rewrite Hb, Hv, Hst', Hpolls, Hdr'. cbn [stream_failed set_pins pins].
    rewrite Hrem; [done|done|]. intros c. by rewrite Hout', Hout, reach_pins.
Qed.

End Pinning.
