(* ===== verification/DirBuilder.v ===== *)
(** Building a tree of directories ([utils/rust-ipfs/unixfs/src/dir/builder.rs] and the files of
    [dir/builder/]): links are put under paths into a tree in memory ([dir_builder.rs],
    [buffered.rs]); an iterator then visits the tree in post order and makes the block of each
    directory from those of the directories below it ([iter.rs], [custom_pb.rs]).

    A [BTreeMap] is the list of its entries in the order of the keys.  A method on [&mut self] returns the
    new value of [self] beside its result.  Failed assertions, [unwrap], [unreachable!] and [todo!] are
    [Panic].  The vector [pending] has its end, from which elements are popped, at the head of the list. *)

From S2P Require Import Prelude Runtime Utf8 IpfsPath UnixfsPb FileAdder FileVisit.

(** ** [BTreeMap<String, _>] *)

(** The order of [str]: byte by byte. *)
Fixpoint str_cmp (a b : Bytes) : comparison :=
  match a, b with
  | [], [] => Eq
  | [], _ => Lt
  | _, [] => Gt
  | x :: a, y :: b => match x ?= y with Eq => str_cmp a b | c => c end
  end.

Section BTreeMap.
Context {V : Type}.

Fixpoint bt_get (key : Bytes) (m : list (Bytes * V)) : option V :=
  match m with
  | [] => None
  | (k, v) :: m => if bool_decide (k = key) then Some v else bt_get key m
  end.

Fixpoint bt_insert (key : Bytes) (v : V) (m : list (Bytes * V)) : list (Bytes * V) :=
  match m with
  | [] => [(key, v)]
  | (k, w) :: m =>
      match str_cmp key k with
      | Lt => (key, v) :: (k, w) :: m
      | Eq => (key, v) :: m
      | Gt => (k, w) :: bt_insert key v m
      end
  end.
End BTreeMap.

Section Builder.
Context `{RustIpfs}.

(** ** [builder.rs] *)

Record Leaf := mkLeaf { leaf_link : Cid; leaf_total_size : Z }.

(** [NamedLeaf(String, Cid, u64)] *)
Record NamedLeaf := mkNamed { nl_name : Bytes; nl_cid : Cid; nl_size : Z }.

Inductive Entry :=
| ELeaf (leaf : Leaf)
| EDirectory (d : DirBuilder)
with DirBuilder :=
| mkDir (nodes : list (Bytes * Entry)) (metadata : Metadata) (parent_id : option Z) (id : Z).

Definition dir_nodes (d : DirBuilder) : list (Bytes * Entry) := let '(mkDir nodes _ _ _) := d in nodes.
Definition dir_metadata (d : DirBuilder) : Metadata := let '(mkDir _ metadata _ _) := d in metadata.
Definition dir_parent_id (d : DirBuilder) : option Z := let '(mkDir _ _ parent_id _) := d in parent_id.
Definition dir_id (d : DirBuilder) : Z := let '(mkDir _ _ _ id) := d in id.

Definition with_nodes (d : DirBuilder) (nodes : list (Bytes * Entry)) : DirBuilder :=
  mkDir nodes (dir_metadata d) (dir_parent_id d) (dir_id d).

Definition as_dir_builder (e : Entry) : option DirBuilder := match e with EDirectory d => Some d | _ => None end.

Record TreeOptions := mkOptions { block_size_limit : option Z; wrap_with_directory : bool }.

Definition default_options : TreeOptions := mkOptions (Some (512 * 1024)) false.
Definition set_block_size_limit (o : TreeOptions) (limit : option Z) : TreeOptions := mkOptions limit (wrap_with_directory o).
Definition set_wrap_with_directory (o : TreeOptions) : TreeOptions := mkOptions (block_size_limit o) true.

Inductive TreeBuildingFailed :=
| RootedPath (s : Bytes)
| RepeatSlashesInPath (s : Bytes)
| PathEndsInSlash (s : Bytes)
| TooManyRootLevelEntries
| DuplicatePath (s : Bytes)
| LeafAsDirectory (s : Bytes).

Inductive TreeConstructionFailed := Protobuf | TooLargeBlock (size : Z).

(** ** [dir_builder.rs] *)

Inductive DuplicateName := duplicate_name.
Inductive FoundLeaf := found_leaf.

Definition no_metadata : Metadata := mkMetadata None None.

(** [DirBuilder::new], with its assertion *)
Definition dir_new (parent_id id : Z) : option DirBuilder :=
  if parent_id =? id then None else Some (mkDir [] no_metadata (Some parent_id) id).

Definition dir_root (id : Z) : DirBuilder := mkDir [] no_metadata None id.

Definition put_leaf (self : DirBuilder) (key : Bytes) (leaf : Leaf) : (unit + DuplicateName) * DirBuilder :=
  match bt_get key (dir_nodes self) with
  | Some _ => (inr duplicate_name, self)
  | None => (inl tt, with_nodes self (bt_insert key (ELeaf leaf) (dir_nodes self)))
  end.

(** The node, which is also in the new [self], and what is left of the id. *)
Definition add_or_get_node (self : DirBuilder) (key : Bytes) (id : option Z) : outcome FoundLeaf DirBuilder * DirBuilder * option Z :=
  match bt_get key (dir_nodes self) with
  | Some e => (match as_dir_builder e with Some d => Ok d | None => Err found_leaf end, self, id)
  | None =>
      match id with
      | None => (Panic, self, id)
      | Some next =>
          match dir_new (dir_id self) next with
          | None => (Panic, self, None)
          | Some d => (Ok d, with_nodes self (bt_insert key (EDirectory d) (dir_nodes self)), None)
          end
      end
  end.

Definition dir_is_empty (d : DirBuilder) : bool := match dir_nodes d with [] => true | _ => false end.

Definition dir_set_metadata (self : DirBuilder) (metadata : Metadata) : DirBuilder :=
  mkDir (dir_nodes self) metadata (dir_parent_id self) (dir_id self).

(** ** [buffered.rs] *)

Record BufferingTreeBuilder := mkBuilder {
  root_builder : DirBuilder;
  longest_path : nat;
  counter : Z;
  b_opts : TreeOptions }.

Definition builder_new (opts : TreeOptions) : BufferingTreeBuilder := mkBuilder (dir_root 0) 0 1 opts.

(** What [modify_with] does to the parent directory: the result, the parent and what is left of
    the id that a new directory may take. *)
Abbreviation Modifier := (DirBuilder → Bytes → option Z → outcome TreeBuildingFailed unit * DirBuilder * option Z).

Definition is_root_level (depth : nat) : bool := Nat.eqb depth 0.

(** The loop of [modify_with] from the directory [dir] at [depth], with the segment [next] and those
    that remain after it. *)
Fixpoint modify_walk (full_path : Bytes) (wrap : bool) (f : Modifier) (depth : nat) (next : Bytes) (remaining : list Bytes)
    (dir : DirBuilder) (counter : Z) : outcome TreeBuildingFailed unit * DirBuilder * Z :=
  let last := match remaining with [] => true | _ => false end in
  if bool_decide (next = []) && is_root_level depth && negb last then (Err (RootedPath full_path), dir, counter)
  else if bool_decide (next = []) && negb (is_root_level depth) then (Panic, dir, counter)
  else
  let full := is_root_level depth && negb wrap && negb (dir_is_empty dir) in
  match remaining with
  | [] =>
      let next_id := Some counter in
      let '(ret, dir, next_id) :=
        if full then (Err TooManyRootLevelEntries, dir, next_id) else f dir next next_id in
      (ret, dir, match next_id with None => wrapping_add 64 counter 1 | Some _ => counter end)
  | segment :: remaining =>
      match bt_get next (dir_nodes dir) with
      | Some e =>
          match as_dir_builder e with
          | None => (Err (LeafAsDirectory full_path), dir, counter)
          | Some d =>
              let '(ret, d, counter) := modify_walk full_path wrap f (S depth) segment remaining d counter in
              (ret, with_nodes dir (bt_insert next (EDirectory d) (dir_nodes dir)), counter)
          end
      | None =>
          if full then (Err TooManyRootLevelEntries, dir, counter) else
          match dir_new (dir_id dir) counter with
          | None => (Panic, dir, counter)
          | Some d =>
              let '(ret, d, counter) := modify_walk full_path wrap f (S depth) segment remaining d (wrapping_add 64 counter 1) in
              (ret, with_nodes dir (bt_insert next (EDirectory d) (dir_nodes dir)), counter)
          end
      end
  end.

Definition ends_with_slash (s : Bytes) : bool := bool_decide (last s = Some slash).

Fixpoint contains_slashes (s : Bytes) : bool :=
  match s with
  | x :: ((y :: _) as t) => (x =? slash) && (y =? slash) || contains_slashes t
  | _ => false
  end.

Definition modify_with (self : BufferingTreeBuilder) (full_path : Bytes) (f : Modifier) :
    outcome TreeBuildingFailed unit * BufferingTreeBuilder :=
  let longest := (length full_path `max` longest_path self)%nat in
  let self := mkBuilder (root_builder self) longest (counter self) (b_opts self) in
  if ends_with_slash full_path then (Err (PathEndsInSlash full_path), self)
  else if contains_slashes full_path then (Err (RepeatSlashesInPath full_path), self)
  else
    let '(first, others) := split_slash full_path in
    let '(ret, root, c) :=
      modify_walk full_path (wrap_with_directory (b_opts self)) f 0 first others (root_builder self) (counter self) in
    (ret, mkBuilder root longest c (b_opts self)).

Definition put_link_in (full_path : Bytes) (leaf : Leaf) : Modifier := λ parent basename id,
  match put_leaf parent basename leaf with
  | (inl _, parent) => (Ok tt, parent, id)
  | (inr _, parent) => (Err (DuplicatePath full_path), parent, id)
  end.

Definition put_link (self : BufferingTreeBuilder) (full_path : Bytes) (target : Cid) (total_size : Z) :
    outcome TreeBuildingFailed unit * BufferingTreeBuilder :=
  modify_with self full_path (put_link_in full_path (mkLeaf target total_size)).

Definition set_metadata_in (full_path : Bytes) (metadata : Metadata) : Modifier := λ parent basename id,
  match add_or_get_node parent basename id with
  | (Ok d, parent, id) =>
      (Ok tt, with_nodes parent (bt_insert basename (EDirectory (dir_set_metadata d metadata)) (dir_nodes parent)), id)
  | (Err _, parent, id) => (Err (LeafAsDirectory full_path), parent, id)
  | (Panic, parent, id) => (Panic, parent, id)
  end.

Definition set_metadata (self : BufferingTreeBuilder) (full_path : Bytes) (metadata : Metadata) :
    outcome TreeBuildingFailed unit * BufferingTreeBuilder :=
  modify_with self full_path (set_metadata_in full_path metadata).

(** ** [custom_pb.rs] *)

Context `{Wire} `{!ContentHash}.

(** [WriteableCid] *)
Definition writeable_cid_size (c : Cid) : Z :=
  let hash_len := Z.of_nat (length (cid_hash c)) in
  match version c with
  | V0 => hash_len
  | V1 => 1 + sizeof_varint (cid_codec c) + hash_len
  end.

Definition write_writeable_cid (c : Cid) : Bytes :=
  match version c with
  | V0 => []
  | V1 => [1] ++ put_varint (cid_codec c)
  end ++ cid_hash c.

(** [NamedLeafAsPBLink] *)
Definition named_leaf_size (l : NamedLeaf) : Z :=
  1 + sizeof_len (Z.of_nat (length (nl_name l))) + 1 + sizeof_len (writeable_cid_size (nl_cid l)) + 1 + sizeof_varint (nl_size l).

Definition write_named_leaf (l : NamedLeaf) : Bytes :=
  with_tag 10 (write_nested (writeable_cid_size (nl_cid l)) (write_writeable_cid (nl_cid l))) ++
  with_tag 18 (write_bytes (nl_name l)) ++
  with_tag 24 (put_varint (nl_size l)).

Abbreviation Leaves := (list (option NamedLeaf)).

(** [CustomFlatUnixFs]; [mapped] unwraps every link *)
Definition mapped (links : Leaves) : option (list NamedLeaf) := mapM id links.

Definition custom_size (links : list NamedLeaf) (data : UnixFs) : Z :=
  sum_sizes links (λ link, 1 + sizeof_len (named_leaf_size link)) + 1 + sizeof_len (unixfs_size data).

Definition write_custom (links : list NamedLeaf) (data : UnixFs) : Bytes :=
  mjoin (map (λ l, with_tag 18 (write_nested (named_leaf_size l) (write_named_leaf l))) links) ++
  with_tag 10 (write_nested (unixfs_size data) (write_unixfs data)).

(** ** [iter.rs] *)

Inductive LeafStorage := Direct (leaves : Leaves) | Stashed (id : Z).

Inductive Visited :=
| DescentRoot (d : DirBuilder)
| Descent (node : DirBuilder) (name : Bytes) (depth index : nat)
| Post (parent_id : Z) (depth : nat) (name : Bytes) (index : nat) (leaves : LeafStorage)
| PostRoot (leaves : LeafStorage).

Record PostOrderIterator := mkIter {
  full_path : Bytes;
  old_depth : nat;
  it_buffer : Bytes;
  pending : list Visited;
  persisted_cids : gmap Z Leaves;
  reused_children : list Visited;
  it_cid : option Cid;
  it_total_size : Z;
  it_opts : TreeOptions }.

Definition iter_new (root : DirBuilder) (opts : TreeOptions) : PostOrderIterator :=
  mkIter [] 0 [] [DescentRoot root] ∅ [] None 0 opts.

(** [BufferingTreeBuilder::build]; [longest_path] is the capacity of a string *)
Definition builder_build (self : BufferingTreeBuilder) : PostOrderIterator := iter_new (root_builder self) (b_opts self).

Definition directory_data : UnixFs := mkUnixFs UnixFsType.Directory None None [] None None None None.

(** Zeroes are added up to [size]; a longer buffer keeps its end until it is cut. *)
Definition grow_buffer (buffer : Bytes) (size : Z) : Bytes := buffer ++ replicate (Z.to_nat (size - Z.of_nat (length buffer))) 0.

Definition combined_sizes (links : list NamedLeaf) : Z := foldl (λ t l, wrapping_add 64 t (nl_size l)) 0 links.

(** The writer writes over the beginning of the buffer, and fails at its end. *)
Definition render_directory (links : Leaves) (buffer : Bytes) (limit : option Z) : outcome TreeConstructionFailed Leaf * Bytes :=
  match mapped links with
  | None => (Panic, buffer)
  | Some links =>
      let size := custom_size links directory_data in
      if match limit with Some limit => limit <? size | None => false end then (Err (TooLargeBlock size), buffer) else
      let buffer := grow_buffer buffer size in
      let message := write_custom links directory_data in
      if (length buffer <? length message)%nat then (Err Protobuf, buffer) else
      let buffer := take (Z.to_nat size) (message ++ drop (length message) buffer) in
      match cid_new_v0 (sha2_256 buffer) with
      | None => (Panic, buffer)
      | Some cid => (Ok (mkLeaf cid (wrapping_add 64 (Z.of_nat (length buffer)) (combined_sizes links))), buffer)
      end
  end.

Fixpoint rposition_slash (s : Bytes) : option nat :=
  match s with
  | [] => None
  | x :: s =>
      match rposition_slash s with
      | Some i => Some (S i)
      | None => if x =? slash then Some 0%nat else None
      end
  end.

(** The loop that pops segments; the flag says that it has returned from the function. *)
Fixpoint pop_segments (full_path : Bytes) (old_depth : nat) (name : option Bytes) (depth : nat) : option (bool * Bytes * nat) :=
  match old_depth with
  | O => Some (false, full_path, O)
  | S less =>
      if (old_depth <? depth)%nat then Some (false, full_path, old_depth) else
      match rposition_slash full_path with
      | None => None
      | Some slash_at =>
          if Nat.eqb old_depth depth && bool_decide (Some (drop (slash_at + 1) full_path) = name)
          then Some (true, full_path, old_depth)
          else pop_segments (take slash_at full_path) less name depth
      end
  end.

Definition update_full_path (full_path : Bytes) (old_depth : nat) (name : option Bytes) (depth : nat) : option (Bytes * nat) :=
  match (if (depth <? 2)%nat then Some (false, [], O) else pop_segments full_path old_depth name depth) with
  | None => None
  | Some (true, full_path, old_depth) => Some (full_path, old_depth)
  | Some (false, full_path, old_depth) =>
      let '(full_path, old_depth) :=
        match name with
        | None => (full_path, old_depth)
        | Some name => (match full_path with [] => name | _ => full_path ++ slash :: name end, S old_depth)
        end in
      if Nat.eqb old_depth depth then Some (full_path, old_depth) else None
  end.

(** From the index [i] on; [children] are in the order in which they are pushed. *)
Fixpoint partition_children_leaves (depth : nat) (i : nat) (it : list (Bytes * Entry)) (children : list Visited) : Leaves * list Visited :=
  match it with
  | [] => ([], children)
  | (k, EDirectory node) :: it =>
      let '(leaves, children) := partition_children_leaves depth (S i) it (children ++ [Descent node k (depth + 1) i]) in
      (None :: leaves, children)
  | (k, ELeaf leaf) :: it =>
      let '(leaves, children) := partition_children_leaves depth (S i) it children in
      (Some (mkNamed k (leaf_link leaf) (leaf_total_size leaf)) :: leaves, children)
  end.

(** [LeafStorage::into_inner] *)
Definition into_inner (self : LeafStorage) (stash : gmap Z Leaves) : option (Leaves * gmap Z Leaves) :=
  match self with
  | Direct leaves => Some (leaves, stash)
  | Stashed id => match stash !! id with Some leaves => Some (leaves, delete id stash) | None => None end
  end.

Record OwnedTreeNode := mkNode { node_path : Bytes; node_cid : Cid; node_total_size : Z; node_block : Bytes }.

(** How a turn of the loop of [next_borrowed] ends. *)
Inductive Turn := Again | Yield (node : OwnedTreeNode) | Fails (e : TreeConstructionFailed) | Exhausted | Panics.

Definition set_path (it : PostOrderIterator) (p : Bytes * nat) : PostOrderIterator :=
  mkIter p.1 p.2 (it_buffer it) (pending it) (persisted_cids it) (reused_children it) (it_cid it) (it_total_size it) (it_opts it).

(** A directory is descended into: its leaves are kept, [post] and its children are pushed. *)
Definition descend (it : PostOrderIterator) (node : DirBuilder) (depth : nat) (post : LeafStorage → Visited) (rest : list Visited) : PostOrderIterator :=
  let '(leaves, children) := partition_children_leaves depth 0 (dir_nodes node) (reused_children it) in
  let '(storage, persisted) :=
    match children with
    | [] => (Direct leaves, persisted_cids it)
    | _ => (Stashed (dir_id node), <[dir_id node := leaves]> (persisted_cids it))
    end in
  mkIter (full_path it) (old_depth it) (it_buffer it) (reverse children ++ post storage :: rest) persisted []
    (it_cid it) (it_total_size it) (it_opts it).

(** The block of a directory whose leaves are complete, and the iterator after it. *)
Definition finish (it : PostOrderIterator) (rest : list Visited) (leaves : Leaves) (stash : gmap Z Leaves) :
    outcome TreeConstructionFailed Leaf * PostOrderIterator :=
  let '(res, buffer) := render_directory leaves (it_buffer it) (block_size_limit (it_opts it)) in
  (res, mkIter (full_path it) (old_depth it) buffer rest stash (reused_children it)
          match res with Ok leaf => Some (leaf_link leaf) | _ => it_cid it end
          match res with Ok leaf => leaf_total_size leaf | _ => it_total_size it end (it_opts it)).

Definition set_persisted (it : PostOrderIterator) (stash : gmap Z Leaves) : PostOrderIterator :=
  mkIter (full_path it) (old_depth it) (it_buffer it) (pending it) stash (reused_children it) (it_cid it) (it_total_size it) (it_opts it).

Definition tree_node (it : PostOrderIterator) (leaf : Leaf) : OwnedTreeNode :=
  mkNode (full_path it) (leaf_link leaf) (leaf_total_size leaf) (it_buffer it).

(** The name and the depth of an element. *)
Definition visited_at (v : Visited) : option Bytes * nat :=
  match v with
  | DescentRoot _ => (None, O)
  | Descent _ name depth _ => (Some name, depth)
  | Post _ depth name _ _ => (Some name, depth)
  | PostRoot _ => (None, O)
  end.

(** The arm of [Visited::Post]: the link to the directory goes into its cell of the parent's leaves. *)
Definition visit_post (it : PostOrderIterator) (rest : list Visited) (parent_id : Z) (name : Bytes) (index : nat) (leaves : LeafStorage) :
    Turn * PostOrderIterator :=
  match into_inner leaves (persisted_cids it) with
  | None => (Panics, it)
  | Some (leaves, stash) =>
      match finish it rest leaves stash with
      | (Err e, it) => (Fails e, it)
      | (Panic, it) => (Panics, it)
      | (Ok leaf, it) =>
          match persisted_cids it !! parent_id with
          | None => (Panics, it)
          | Some cells =>
              match cells !! index with
              | Some None =>
                  let cells := <[index := Some (mkNamed name (leaf_link leaf) (leaf_total_size leaf))]> cells in
                  (Yield (tree_node it leaf), set_persisted it (<[parent_id := cells]> (persisted_cids it)))
              | _ => (Panics, it)
              end
          end
      end
  end.

Definition visit_post_root (it : PostOrderIterator) (rest : list Visited) (leaves : LeafStorage) : Turn * PostOrderIterator :=
  match into_inner leaves (persisted_cids it) with
  | None => (Panics, it)
  | Some (leaves, stash) =>
      if negb (wrap_with_directory (it_opts it)) then
        (Exhausted, mkIter (full_path it) (old_depth it) (it_buffer it) rest stash (reused_children it) (it_cid it) (it_total_size it) (it_opts it))
      else
        match finish it rest leaves stash with
        | (Err e, it) => (Fails e, it)
        | (Panic, it) => (Panics, it)
        | (Ok leaf, it) => (Yield (tree_node it leaf), it)
        end
  end.

(** One turn of the loop of [next_borrowed]. *)
Definition visit (it : PostOrderIterator) : Turn * PostOrderIterator :=
  match pending it with
  | [] => (Exhausted, it)
  | visited :: rest =>
      let '(name, depth) := visited_at visited in
      match update_full_path (full_path it) (old_depth it) name depth with
      | None => (Panics, it)
      | Some p =>
          let it := set_path it p in
          match visited with
          | DescentRoot node => (Again, descend it node depth PostRoot rest)
          | Descent node name depth index =>
              match dir_parent_id node with
              | None => (Panics, it)
              | Some parent_id => (Again, descend it node depth (Post parent_id depth name index) rest)
              end
          | Post parent_id _ name index leaves => visit_post it rest parent_id name index leaves
          | PostRoot leaves => visit_post_root it rest leaves
          end
      end
  end.

(** The directories of a tree, and the turns that a list of elements can take. *)
Fixpoint dirs_in (d : DirBuilder) : nat :=
  let '(mkDir nodes _ _ _) := d in
  S (foldr (λ '(_, e) n, (match e with EDirectory d => dirs_in d | ELeaf _ => 0 end + n)%nat) 0%nat nodes).

Definition turns_of (v : Visited) : nat :=
  match v with
  | DescentRoot d | Descent d _ _ _ => 2 * dirs_in d
  | _ => 1
  end.

Definition turns (l : list Visited) : nat := foldr (λ v n, (turns_of v + n)%nat) 0%nat l.

(** The loop of [next_borrowed], with fuel for its turns. *)
Fixpoint next_loop (fuel : nat) (it : PostOrderIterator) : Turn * PostOrderIterator :=
  match fuel with
  | O => (Again, it)
  | S fuel =>
      match visit it with
      | (Again, it) => next_loop fuel it
      | r => r
      end
  end.

Definition next_borrowed (it : PostOrderIterator) : Turn * PostOrderIterator := next_loop (S (turns (pending it))) it.

(** The nodes of an iterator that is used until it ends or fails. *)
Fixpoint drain (fuel : nat) (it : PostOrderIterator) : list OwnedTreeNode * outcome TreeConstructionFailed unit :=
  match fuel with
  | O => ([], Panic)
  | S fuel =>
      match next_borrowed it with
      | (Yield node, it) => let '(nodes, res) := drain fuel it in (node :: nodes, res)
      | (Exhausted, _) => ([], Ok tt)
      | (Fails e, _) => ([], Err e)
      | (Again, _) | (Panics, _) => ([], Panic)
      end
  end.

Definition collect (it : PostOrderIterator) : list OwnedTreeNode * outcome TreeConstructionFailed unit := drain (S (turns (pending it))) it.

End Builder.
