(* ===== verification/DirBuilderProps.v ===== *)
(** The iterator of the directory builder yields the blocks of the tree in post order.

    The reference is a recursive function, [render]: the directories below a directory first, from the
    last name to the first, then the directory itself.  The iterator keeps a stack of work, a table of
    unfinished lists of links keyed by the ids of directories, one reused buffer and the text of the
    current path, which it edits in place: [collect_renders] says that none of its assertions fails on a tree
    that the builder can make and that what it yields is what [render] gives, up to the first error. *)

From S2P Require Import Prelude Runtime Utf8 IpfsPath UnixfsPb FileAdder FileVisit DirBuilder.

(** ** Maps in the order of their keys *)

Lemma str_cmp_eq a b : str_cmp a b = Eq ↔ a = b.
Proof.
  revert b. induction a as [|x a IH]; intros [|y b]; simpl; try done. destruct (Z.compare_spec x y); [rewrite IH; naive_solver|..]; split; intros; simplify_eq; lia.
Qed.

Lemma str_cmp_refl a : str_cmp a a = Eq.
Proof. by apply str_cmp_eq. Qed.

Lemma str_cmp_antisym a b : str_cmp b a = CompOpp (str_cmp a b).
Proof. revert b. induction a as [|x a IH]; intros [|y b]; simpl; try done. rewrite (Z.compare_antisym x y). destruct (x ?= y); simpl; auto. Qed.

Lemma str_cmp_trans a b c : str_cmp a b = Lt → str_cmp b c = Lt → str_cmp a c = Lt.
Proof.
  revert b c. induction a as [|x a IH]; intros [|y b] [|z c]; simpl; try done.
  destruct (Z.compare_spec x y), (Z.compare_spec y z); try done; subst; intros Hab Hbc;
    first [rewrite Z.compare_refl; by eapply IH|by rewrite (proj2 (Z.compare_lt_iff _ _)) by lia].
Qed.

Section Sorted.
Context {V : Type}.

Definition bt_sorted (m : list (Bytes * V)) : Prop := StronglySorted (λ p q : Bytes * V, str_cmp p.1 q.1 = Lt) m.

Lemma bt_get_insert k' k v (m : list (Bytes * V)) :
  bt_get k' (bt_insert k v m) = if bool_decide (k = k') then Some v else bt_get k' m.
Proof.
  induction m as [|[x w] m IH]; [done|]. simpl. destruct (str_cmp k x) eqn:Hc; simpl; [|done|].
  - apply str_cmp_eq in Hc as ->. by case_bool_decide.
  - rewrite IH. destruct (bool_decide_reflect (x = k')) as [->|], (bool_decide_reflect (k = k')) as [->|]; try done. by rewrite str_cmp_refl in Hc.
Qed.

Lemma bt_insert_keys k v (m : list (Bytes * V)) p : p ∈ bt_insert k v m → p = (k, v) ∨ p ∈ m.
Proof.
  induction m as [|[x w] m IH]; simpl; [set_solver|]. destruct (str_cmp k x); set_solver.
Qed.

Lemma bt_insert_sorted k v (m : list (Bytes * V)) : bt_sorted m → bt_sorted (bt_insert k v m).
Proof.
  induction 1 as [|[x w] m Hm IH Hx]; simpl; [repeat constructor|]. destruct (str_cmp k x) eqn:Hc.
  - apply str_cmp_eq in Hc as ->. by constructor.
  - constructor; [by constructor|]. constructor; [done|]. eapply Forall_impl; [exact Hx|]. intros y. by apply str_cmp_trans.
  - constructor; [done|]. apply Forall_forall. intros y Hy. apply bt_insert_keys in Hy as [->|Hy]; [|by rewrite Forall_forall in Hx; apply Hx].
    simpl. by rewrite str_cmp_antisym, Hc.
Qed.

Lemma bt_get_elem k v (m : list (Bytes * V)) : bt_sorted m → bt_get k m = Some v ↔ (k, v) ∈ m.
Proof.
  induction 1 as [|[x w] m Hm IH Hx]; simpl; [set_solver|]. rewrite elem_of_cons. destruct (bool_decide_reflect (x = k)) as [->|].
  - split; [intros [= ->]; by left|]. intros [[= ->]|Hin]; [done|]. rewrite Forall_forall in Hx. specialize (Hx _ Hin). simpl in Hx. by rewrite str_cmp_refl in Hx.
  - rewrite IH. naive_solver.
Qed.

(** Putting back what is there changes nothing. *)
Lemma bt_insert_same k v (m : list (Bytes * V)) : bt_sorted m → bt_get k m = Some v → bt_insert k v m = m.
Proof.
  induction 1 as [|[x w] m Hm IH Hx]; simpl; [done|]. destruct (bool_decide_reflect (x = k)) as [->|Hne]; [intros [= ->]; by rewrite str_cmp_refl|].
  intros Hg. destruct (str_cmp k x) eqn:Hc; [by apply str_cmp_eq in Hc|..|by rewrite IH].
  apply bt_get_elem in Hg; [|done]. rewrite Forall_forall in Hx. specialize (Hx _ Hg). simpl in Hx. by rewrite str_cmp_antisym, Hc in Hx.
Qed.

Lemma bt_insert_insert k v v' (m : list (Bytes * V)) : bt_insert k v (bt_insert k v' m) = bt_insert k v m.
Proof.
  induction m as [|[x w] m IH]; simpl; [by rewrite str_cmp_refl|]. destruct (str_cmp k x) eqn:Hc; simpl; [by rewrite str_cmp_refl|by rewrite str_cmp_refl|by rewrite Hc, IH].
Qed.
End Sorted.

Section Props.
Context `{RustIpfs}.

(** ** Trees *)

(** A directory among the entries is smaller. *)
Definition in_dirs (P : Bytes → DirBuilder → Prop) (nodes : list (Bytes * Entry)) : Prop :=
  Forall (λ ke : Bytes * Entry, match ke.2 with EDirectory d => P ke.1 d | ELeaf _ => True end) nodes.

Lemma dir_ind (P : DirBuilder → Prop) :
  (∀ nodes m p i, in_dirs (λ _, P) nodes → P (mkDir nodes m p i)) → ∀ d, P d.
Proof.
  intros IH. fix go 1. intros [nodes m p i]. apply IH. induction nodes as [|[k [l|d]] nodes IHn]; constructor; simpl; done.
Qed.

(** The ids of the directories. *)
Fixpoint ids (d : DirBuilder) : list Z :=
  let '(mkDir nodes _ _ i) := d in
  i :: foldr (λ '(_, e) l, match e with EDirectory d => ids d | ELeaf _ => [] end ++ l) [] nodes.

Definition ids_below (nodes : list (Bytes * Entry)) : list Z :=
  foldr (λ '(_, e) l, match e with EDirectory d => ids d | ELeaf _ => [] end ++ l) [] nodes.

(** Names are segments, in order; only a name at the top can be empty, and nothing is below it; a directory knows its parent. *)
Fixpoint wf_dir (top : bool) (d : DirBuilder) : Prop :=
  let '(mkDir nodes _ _ i) := d in
  bt_sorted nodes ∧
  foldr (λ '(k, e) P,
    slash ∉ k ∧ (top = false → k ≠ []) ∧
    match e with EDirectory d => dir_parent_id d = Some i ∧ (k = [] → dir_nodes d = []) ∧ wf_dir false d | ELeaf _ => True end ∧ P) True nodes.

Definition wf_entry (top : bool) (i : Z) (k : Bytes) (e : Entry) : Prop :=
  slash ∉ k ∧ (top = false → k ≠ []) ∧
  match e with EDirectory d => dir_parent_id d = Some i ∧ (k = [] → dir_nodes d = []) ∧ wf_dir false d | ELeaf _ => True end.

Definition wf_entries (top : bool) (i : Z) (nodes : list (Bytes * Entry)) : Prop := Forall (λ ke : Bytes * Entry, wf_entry top i ke.1 ke.2) nodes.

Lemma wf_dir_unfold top nodes m p i : wf_dir top (mkDir nodes m p i) ↔ bt_sorted nodes ∧ wf_entries top i nodes.
Proof.
  simpl. apply and_iff_compat_l. unfold wf_entries. induction nodes as [|[k e] nodes IH]; simpl; [by rewrite Forall_nil|].
  rewrite Forall_cons, IH. unfold wf_entry. simpl. tauto.
Qed.

(** ** The path of the iterator *)

Abbreviation join := slashed_to_string.

Lemma join_snoc p k : p ≠ [] → join (p ++ [k]) = join p ++ slash :: k.
Proof. induction p as [|s [|t p] IH]; intros Hp; [done|done|]. simpl in *. rewrite IH by done. by rewrite <- app_assoc. Qed.

Lemma join_nonempty s p : s ≠ [] → join (s :: p) ≠ [].
Proof. intros Hs. destruct s, p; done. Qed.

Lemma rposition_last s t : slash ∉ t → rposition_slash (s ++ slash :: t) = Some (length s).
Proof.
  intros Ht. induction s as [|x s IH]; simpl; [|by rewrite IH]. assert (rposition_slash t = None) as ->; [|done].
  induction t as [|y t IH]; [done|]. simpl. rewrite IH by set_solver. rewrite (proj2 (Z.eqb_neq _ _)); [done|set_solver].
Qed.

Lemma drop_past {A} (s : list A) x t : drop (length s + 1) (s ++ x :: t) = t.
Proof. by induction s. Qed.

Lemma pop_to p tail k : p ≠ [] → Forall (λ s, slash ∉ s) tail →
  pop_segments (join (p ++ tail)) (length (p ++ tail)) (Some k) (S (length p)) =
    Some (match tail with x :: _ => if bool_decide (x = k) then (true, join (p ++ [k]), S (length p)) else (false, join p, length p) | [] => (false, join p, length p) end).
Proof.
  intros Hp. induction tail as [|x tail IH] using rev_ind; intros Ht.
  - rewrite app_nil_r. destruct p as [|s p]; [done|]. cbn [length pop_segments]. by rewrite (proj2 (Nat.ltb_lt _ _)) by lia.
  - apply Forall_app in Ht as [Ht Hx]. rewrite Forall_singleton in Hx. rewrite app_assoc. assert (Hne : p ++ tail ≠ []) by (by destruct p).
    rewrite (join_snoc (p ++ tail)) by done. rewrite (length_app (p ++ tail)). rewrite Nat.add_1_r. cbn [pop_segments].
    rewrite (proj2 (Nat.ltb_ge _ _)) by (rewrite length_app; lia). rewrite rposition_last by done.
    rewrite take_app_length, drop_past, IH by done. destruct tail as [|y tail]; simpl.
    + rewrite app_nil_r, Nat.eqb_refl. simpl. destruct (bool_decide_reflect (x = k)) as [->|Hk].
      * rewrite bool_decide_eq_true_2 by done. by rewrite join_snoc by done.
      * rewrite bool_decide_eq_false_2 by congruence. done.
    + rewrite length_app. cbn [length]. rewrite (proj2 (Nat.eqb_neq _ _)) by lia. done.
Qed.

(** From anywhere below [p], the path becomes that of [k] in [p]. *)
Lemma update_child p tail k : Forall (λ s, s ≠ []) p → Forall (λ s, slash ∉ s) tail →
  update_full_path (join (p ++ tail)) (length (p ++ tail)) (Some k) (S (length p)) = Some (join (p ++ [k]), S (length p)).
Proof.
  intros Hp Ht. unfold update_full_path. destruct p as [|s p]; [done|]. rewrite (proj2 (Nat.ltb_ge _ _)) by (simpl; lia).
  rewrite pop_to by done. apply Forall_cons in Hp as [Hs _].
  assert (Hstep : match join (s :: p) with [] => k | _ => join (s :: p) ++ slash :: k end = join ((s :: p) ++ [k])).
  { rewrite join_snoc by done. pose proof (join_nonempty s p Hs). by destruct (join (s :: p)). }
  destruct tail as [|x tail]; [|destruct (bool_decide (x = k)); [done|]]; by rewrite Hstep, Nat.eqb_refl.
Qed.

Context `{W : Wire} `{C : !ContentHash}.

(** ** The reference *)

Definition too_large (limit : option Z) (size : Z) : bool := match limit with Some limit => limit <? size | None => false end.

(** The block of a directory with these links. *)
Definition render_block (limit : option Z) (links : list NamedLeaf) : outcome TreeConstructionFailed (Leaf * Bytes) :=
  let block := write_custom links directory_data in
  let size := Z.of_nat (length block) in
  if too_large limit size then Err (TooLargeBlock size) else
  match cid_new_v0 (sha2_256 block) with
  | None => Panic
  | Some cid => Ok (mkLeaf cid (wrapping_add 64 size (combined_sizes links)), block)
  end.

Definition named_as (k : Bytes) (l : Leaf) : NamedLeaf := mkNamed k (leaf_link l) (leaf_total_size l).

Definition fails_with {A B} (r : outcome TreeConstructionFailed A) (ok : A → B) : outcome TreeConstructionFailed B :=
  match r with Ok a => Ok (ok a) | Err e => Err e | Panic => Panic end.

(** What an entry adds to the nodes and to the links of the entries after it. *)
Definition render_entry (render : list Bytes → DirBuilder → list OwnedTreeNode * outcome TreeConstructionFailed Leaf) (path : list Bytes)
    (ke : Bytes * Entry) (after : list OwnedTreeNode * outcome TreeConstructionFailed (list NamedLeaf)) :
    list OwnedTreeNode * outcome TreeConstructionFailed (list NamedLeaf) :=
  match after with
  | (out, Ok links) =>
      match ke.2 with
      | ELeaf l => (out, Ok (named_as ke.1 l :: links))
      | EDirectory d => let '(more, res) := render (path ++ [ke.1]) d in (out ++ more, fails_with res (λ l, named_as ke.1 l :: links))
      end
  | r => r
  end.

(** The node of a directory, after those below it. *)
Definition render_node (limit : option Z) (path : list Bytes) (below : list OwnedTreeNode * outcome TreeConstructionFailed (list NamedLeaf)) :
    list OwnedTreeNode * outcome TreeConstructionFailed Leaf :=
  match below with
  | (out, Ok links) =>
      match render_block limit links with
      | Ok (leaf, block) => (out ++ [mkNode (join path) (leaf_link leaf) (leaf_total_size leaf) block], Ok leaf)
      | Err e => (out, Err e)
      | Panic => (out, Panic)
      end
  | (out, Err e) => (out, Err e)
  | (out, Panic) => (out, Panic)
  end.

(** The nodes of the directories of a tree up to the first failure, and the link to its root. *)
Fixpoint render (limit : option Z) (path : list Bytes) (d : DirBuilder) : list OwnedTreeNode * outcome TreeConstructionFailed Leaf :=
  let '(mkDir nodes _ _ _) := d in render_node limit path (foldr (render_entry (render limit) path) ([], Ok []) nodes).

Definition render_below (limit : option Z) (path : list Bytes) (nodes : list (Bytes * Entry)) : list OwnedTreeNode * outcome TreeConstructionFailed (list NamedLeaf) :=
  foldr (render_entry (render limit) path) ([], Ok []) nodes.

(** The nodes of a builder's tree: its root has one only when it is asked for. *)
Definition render_all (opts : TreeOptions) (root : DirBuilder) : list OwnedTreeNode * outcome TreeConstructionFailed unit :=
  let below := render_below (block_size_limit opts) [] (dir_nodes root) in
  if wrap_with_directory opts then let '(out, res) := render_node (block_size_limit opts) [] below in (out, fails_with res (λ _, tt))
  else (below.1, fails_with below.2 (λ _, tt)).

(** ** Rendering one directory *)

Context {WL : WireLaws W} {CL : ContentHashLaws C}.

Lemma writeable_cid_size_ok c : Z.of_nat (length (write_writeable_cid c)) = writeable_cid_size c.
Proof. unfold write_writeable_cid, writeable_cid_size. destruct (version c); rewrite ?length_app; simpl; [done|]. rewrite sizeof_varint_ok. lia. Qed.

Lemma named_leaf_size_ok l : Z.of_nat (length (write_named_leaf l)) = named_leaf_size l.
Proof.
  unfold write_named_leaf, named_leaf_size. rewrite !length_app, !Nat2Z.inj_add.
  rewrite (length_nested_field 10 (writeable_cid_size (nl_cid l))) by (done || apply writeable_cid_size_ok).
  rewrite length_len_field, length_varint_field by done. unfold len_size, varint_size. lia.
Qed.

Lemma custom_size_ok links data : Z.of_nat (length (write_custom links data)) = custom_size links data.
Proof.
  unfold write_custom, custom_size. rewrite length_app, Nat2Z.inj_add.
  rewrite (length_sum links _ (λ l, 1 + sizeof_len (named_leaf_size l))).
  2: { intros l. apply length_nested_field; [done|apply named_leaf_size_ok]. }
  rewrite (length_nested_field 10 (unixfs_size data)) by (done || apply unixfs_size_ok). lia.
Qed.

Lemma mapped_all links : mapped (map Some links) = Some links.
Proof. unfold mapped. induction links as [|l links IH]; [done|]. simpl. by rewrite IH. Qed.

(** Whatever the buffer held before, it holds the message after. *)
Lemma render_directory_block links buffer limit :
  match render_block limit links with
  | Ok (leaf, block) => render_directory (map Some links) buffer limit = (Ok leaf, block)
  | Err e => render_directory (map Some links) buffer limit = (Err e, buffer)
  | Panic => False
  end.
Proof.
  unfold render_block, render_directory. rewrite mapped_all. pose proof (custom_size_ok links directory_data) as Hs.
  rewrite <- Hs. set (message := write_custom links directory_data). fold (too_large limit (Z.of_nat (length message))).
  destruct (too_large limit (Z.of_nat (length message))); [done|].
  destruct (cid_v0_ok message) as (c & Hc & _). rewrite Hc. unfold grow_buffer.
  rewrite (proj2 (Nat.ltb_ge _ _)) by (rewrite length_app, length_replicate; lia).
  rewrite Nat2Z.id, take_app_length. by rewrite Hc.
Qed.

(** ** The loop ends *)

(** The children among the entries, from the index [i] on, and the list of links with holes for them. *)
Fixpoint kids (depth i : nat) (nodes : list (Bytes * Entry)) : list Visited :=
  match nodes with
  | [] => []
  | (k, EDirectory d) :: nodes => Descent d k (depth + 1) i :: kids depth (S i) nodes
  | (_, ELeaf _) :: nodes => kids depth (S i) nodes
  end.

Definition holes (nodes : list (Bytes * Entry)) : list (option NamedLeaf) :=
  map (λ ke : Bytes * Entry, match ke.2 with ELeaf l => Some (named_as ke.1 l) | EDirectory _ => None end) nodes.

Lemma partition_ok depth i nodes children : partition_children_leaves depth i nodes children = (holes nodes, children ++ kids depth i nodes).
Proof.
  revert i children. induction nodes as [|[k [l|d]] nodes IH]; intros i children; simpl; [by rewrite app_nil_r|by rewrite IH|].
  by rewrite IH, <- app_assoc.
Qed.

Definition dirs_below (nodes : list (Bytes * Entry)) : nat :=
  foldr (λ '(_, e) n, (match e with EDirectory d => dirs_in d | ELeaf _ => 0 end + n)%nat) 0%nat nodes.

Lemma turns_app l l' : turns (l ++ l') = (turns l + turns l')%nat.
Proof. induction l as [|v l IH]; simpl; [done|]. rewrite IH. lia. Qed.

Lemma turns_reverse l : turns (reverse l) = turns l.
Proof. induction l as [|v l IH]; [done|]. rewrite reverse_cons, turns_app, IH. simpl. lia. Qed.

Lemma turns_kids depth i nodes : turns (kids depth i nodes) = (2 * dirs_below nodes)%nat.
Proof. revert i. induction nodes as [|[k [l|d]] nodes IH]; intros i; simpl; [done|apply IH|]. rewrite IH. simpl. lia. Qed.

Lemma dirs_in_below d : dirs_in d = S (dirs_below (dir_nodes d)).
Proof. by destruct d. Qed.

Lemma descend_turns it d depth post rest : reused_children it = [] → (∀ s, turns_of (post s) = 1%nat) →
  S (turns (pending (descend it d depth post rest))) = (2 * dirs_in d + turns rest)%nat.
Proof.
  intros Hr Hp. unfold descend. rewrite partition_ok, Hr. cbn [app]. rewrite dirs_in_below.
  destruct (kids depth 0 (dir_nodes d)) as [|v l] eqn:Hk; rewrite <- Hk; cbn [pending]; rewrite turns_app, turns_reverse, turns_kids; cbn [turns foldr]; rewrite Hp; fold (turns rest); lia.
Qed.

(** A turn that does not end the loop leaves fewer of them. *)
Lemma visit_turns it t it' : reused_children it = [] → visit it = (t, it') →
  match t with
  | Again | Yield _ => (turns (pending it') < turns (pending it))%nat ∧ reused_children it' = []
  | _ => True
  end.
Proof.
  intros Hr. unfold visit. destruct (pending it) as [|v rest] eqn:Hp; [by intros [= <- <-]|].
  destruct (visited_at v) as [name depth]. destruct (update_full_path _ _ _ _) as [path|]; [|by intros [= <- <-]].
  assert (Hd : ∀ d dp post, (∀ s, turns_of (post s) = 1%nat) →
    (turns (pending (descend (set_path it path) d dp post rest)) < 2 * dirs_in d + turns rest)%nat ∧ reused_children (descend (set_path it path) d dp post rest) = []).
  { intros d dp post Hpost. split; [rewrite <- (descend_turns (set_path it path) d dp post rest Hr Hpost); lia|].
    unfold descend. destruct (partition_children_leaves _ _ _ _) as [? [|? ?]]; done. }
  destruct v as [d|d k n i|pid n k i l|l].
  - intros [= <- <-]. by apply Hd.
  - destruct (dir_parent_id d); intros [= <- <-]; [by apply Hd|done].
  - unfold visit_post, finish. destruct (into_inner _ _) as [[ls stash]|]; [|by intros [= <- <-]].
    destruct (render_directory _ _ _) as [[leaf|e|] b]; [|by intros [= <- <-]..].
    destruct (persisted_cids _ !! _) as [cells|]; [|by intros [= <- <-]]. destruct (cells !! i) as [[?|]|]; intros [= <- <-]; try done.
    split; [simpl; lia|done].
  - unfold visit_post_root, finish. destruct (into_inner _ _) as [[ls stash]|]; [|by intros [= <- <-]]. destruct (negb _); [by intros [= <- <-]|].
    destruct (render_directory _ _ _) as [[leaf|e|] b]; intros [= <- <-]; try done. split; [simpl; lia|done].
Qed.

(** More fuel than there are turns is enough, and its amount does not matter. *)
Lemma next_loop_fuel fuel fuel' it : reused_children it = [] → (turns (pending it) < fuel)%nat → (turns (pending it) < fuel')%nat →
  next_loop fuel it = next_loop fuel' it ∧ (next_loop fuel it).1 ≠ Again.
Proof.
  revert fuel' it. induction fuel as [|fuel IH]; intros [|fuel'] it Hr Hf Hf'; [lia..|]. cbn [next_loop].
  destruct (visit it) as [t it'] eqn:Hv. pose proof (visit_turns it t it' Hr Hv) as Ht. destruct t; try done. destruct Ht as [Ht Hr']. apply IH; [done|lia|lia].
Qed.

(** The whole use of an iterator, turn by turn. *)
Inductive runs : PostOrderIterator → list OwnedTreeNode → outcome TreeConstructionFailed unit → Prop :=
| runs_end it it' : visit it = (Exhausted, it') → runs it [] (Ok tt)
| runs_fail it e it' : visit it = (Fails e, it') → runs it [] (Err e)
| runs_again it it' out res : visit it = (Again, it') → runs it' out res → runs it out res
| runs_yield it node it' out res : visit it = (Yield node, it') → runs it' out res → runs it (node :: out) res.

Lemma runs_drain it out res fuel : runs it out res → reused_children it = [] → (turns (pending it) < fuel)%nat → drain fuel it = (out, res).
Proof.
  intros Hruns. revert fuel. induction Hruns as [it it' Hv|it e it' Hv|it it' out res Hv _ IH|it node it' out res Hv _ IH]; intros [|fuel] Hr Hf; try lia.
  - cbn [drain]. unfold next_borrowed. cbn [next_loop]. by rewrite Hv.
  - cbn [drain]. unfold next_borrowed. cbn [next_loop]. by rewrite Hv.
  - destruct (visit_turns _ _ _ Hr Hv) as [Ht Hr']. rewrite <- (IH (S fuel) Hr') by lia. cbn [drain].
    assert (next_borrowed it = next_borrowed it') as ->; [|done].
    trans (next_loop (turns (pending it)) it'); [unfold next_borrowed; cbn [next_loop]; by rewrite Hv|].
    apply next_loop_fuel; [done|lia|lia].
  - destruct (visit_turns _ _ _ Hr Hv) as [Ht Hr']. cbn [drain]. unfold next_borrowed. cbn [next_loop]. rewrite Hv. by rewrite IH by (done || lia).
Qed.

(** ** The iterator yields what the reference renders *)

(** Where the iterator is: the path it has, the work it has left and the unfinished lists of links. *)
Record at_state (it : PostOrderIterator) (opts : TreeOptions) (path : list Bytes) (rest : list Visited) (stash : gmap Z (list (option NamedLeaf))) : Prop := {
  as_path : full_path it = join path;
  as_depth : old_depth it = length path;
  as_pending : pending it = rest;
  as_stash : persisted_cids it = stash;
  as_children : reused_children it = [];
  as_opts : it_opts it = opts }.

(** From [it] the nodes [out] are yielded, and the iterator is then in the given state, or has failed. *)
Definition yields_to {A} (it : PostOrderIterator) (r : list OwnedTreeNode * outcome TreeConstructionFailed A) (after : A → PostOrderIterator → Prop) : Prop :=
  match r with
  | (out, Ok a) => ∃ it', after a it' ∧ ∀ out' res, runs it' out' res → runs it (out ++ out') res
  | (out, Err e) => runs it out (Err e)
  | (_, Panic) => False
  end.

Lemma kids_none depth i nodes path limit : kids depth i nodes = [] →
  ∃ links, render_below limit path nodes = ([], Ok links) ∧ holes nodes = map Some links.
Proof.
  revert i. induction nodes as [|[k [l|d]] nodes IH]; intros i Hk; [by exists []| |done].
  destruct (IH _ Hk) as (links & Hr & Hh). exists (named_as k l :: links). unfold render_below in *. cbn [foldr render_entry]. rewrite Hr. split; [done|].
  simpl. by rewrite Hh.
Qed.

(** A turn that renders: the list of links is complete, wherever it is kept. *)
Lemma finish_block it rest links stash opts :
  it_opts it = opts →
  match render_block (block_size_limit opts) links with
  | Ok (leaf, block) => finish it rest (map Some links) stash =
      (Ok leaf, mkIter (full_path it) (old_depth it) block rest stash (reused_children it) (Some (leaf_link leaf)) (leaf_total_size leaf) opts)
  | Err e => ∃ it', finish it rest (map Some links) stash = (Err e, it')
  | Panic => False
  end.
Proof.
  intros <-. pose proof (render_directory_block links (it_buffer it) (block_size_limit (it_opts it))) as Hr. unfold finish.
  destruct (render_block _ links) as [[leaf block]|e|]; [by rewrite Hr| |done]. rewrite Hr. by eexists.
Qed.

(** The end of a directory below another: it fills its cell. *)
Lemma run_post it opts p tail k pid i links storage rest stash stash' cells :
  Forall (λ s, s ≠ []) p → Forall (λ s, slash ∉ s) tail →
  at_state it opts (p ++ tail) (Post pid (S (length p)) k i storage :: rest) stash' →
  into_inner storage stash' = Some (map Some links, stash) → stash !! pid = Some cells → cells !! i = Some None →
  yields_to it (render_node (block_size_limit opts) (p ++ [k]) ([], Ok links))
    (λ leaf it', at_state it' opts (p ++ [k]) rest (<[pid := <[i := Some (named_as k leaf)]> cells]> stash)).
Proof.
  intros Hp Ht [Hpath Hdepth Hpend Hst Hch Ho] Hin Hcells Hi. pose proof (update_child p tail k Hp Ht) as Hu.
  assert (Hv : visit it = visit_post (set_path it (join (p ++ [k]), S (length p))) rest pid k i storage).
  { unfold visit. rewrite Hpend. cbn [visited_at]. by rewrite Hpath, Hdepth, Hu. }
  unfold visit_post in Hv. cbn [persisted_cids set_path] in Hv. rewrite Hst, Hin in Hv.
  pose proof (finish_block (set_path it (join (p ++ [k]), S (length p))) rest links stash opts Ho) as Hf. unfold render_node.
  destruct (render_block _ links) as [[leaf block]|e|]; [|destruct Hf as [it' Hf]; rewrite Hf in Hv; by eapply runs_fail|done].
  rewrite Hf in Hv. cbn [persisted_cids] in Hv. rewrite Hcells, Hi in Hv. eexists. split; [|intros out' res Hr; by eapply runs_yield].
  split; simpl; try done. by rewrite length_app, Nat.add_1_r.
Qed.

Lemma yields_again {A} it it1 (r : list OwnedTreeNode * outcome TreeConstructionFailed A) after :
  visit it = (Again, it1) → yields_to it1 r after → yields_to it r after.
Proof.
  intros Hv. destruct r as [out [a|e|]]; simpl; [|by apply runs_again|done]. intros (it' & Ha & Hr). exists it'. split; [done|].
  intros out' res Hr'. eapply runs_again; [done|]. auto.
Qed.

Lemma yields_then {A B} it out (a : A) (r : list OwnedTreeNode * outcome TreeConstructionFailed B) after after' :
  yields_to it (out, Ok a) after → (∀ it', after a it' → yields_to it' r after') → yields_to it (out ++ r.1, r.2) after'.
Proof.
  intros (it' & Ha & Hr) Hk. specialize (Hk it' Ha). destruct r as [more [b|e|]]; simpl in *; [|by apply Hr|done].
  destruct Hk as (it'' & Hb & Hr'). exists it''. split; [done|]. intros out' res Ho. rewrite <- app_assoc. auto.
Qed.

Lemma yields_map {A B} it (r : list OwnedTreeNode * outcome TreeConstructionFailed A) (f : A → B) after after' :
  yields_to it r after → (∀ a it', after a it' → after' (f a) it') → yields_to it (r.1, fails_with r.2 f) after'.
Proof. destruct r as [out [a|e|]]; simpl; [|done|done]. intros (it' & Ha & Hr) Hm. exists it'. auto. Qed.

Lemma render_node_app limit path out links :
  render_node limit path (out, Ok links) = (out ++ (render_node limit path ([], Ok links)).1, (render_node limit path ([], Ok links)).2).
Proof. simpl. destruct (render_block limit links) as [[leaf block]|e|]; simpl; by rewrite ?app_nil_r. Qed.

(** The visit of a directory at its turn, and of what is below it. *)
Definition run_dir_spec (d : DirBuilder) : Prop := ∀ it opts p tail k i pid rest stash cells,
  wf_dir false d → dir_parent_id d = Some pid → slash ∉ k → (k = [] → dir_nodes d = []) →
  Forall (λ s, s ≠ []) p → Forall (λ s, slash ∉ s) tail →
  NoDup (ids d) → (∀ x, x ∈ ids d → stash !! x = None) →
  at_state it opts (p ++ tail) (Descent d k (length p + 1) i :: rest) stash → stash !! pid = Some cells → cells !! i = Some None →
  yields_to it (render (block_size_limit opts) (p ++ [k]) d)
    (λ leaf it', at_state it' opts (p ++ [k]) rest (<[pid := <[i := Some (named_as k leaf)]> cells]> stash)).

Lemma run_below nodes it opts top id pre path tail rest stash :
  in_dirs (λ _, run_dir_spec) nodes → wf_entries top id nodes → NoDup (ids_below nodes) → (∀ x, x ∈ ids_below nodes → x ≠ id ∧ stash !! x = None) →
  Forall (λ s, s ≠ []) path → Forall (λ s, slash ∉ s) tail →
  stash !! id = Some (pre ++ holes nodes) →
  at_state it opts (path ++ tail) (reverse (kids (length path) (length pre) nodes) ++ rest) stash →
  yields_to it (render_below (block_size_limit opts) path nodes)
    (λ links it', ∃ tail', Forall (λ s, slash ∉ s) tail' ∧ at_state it' opts (path ++ tail') rest (<[id := pre ++ map Some links]> stash)).
Proof.
  intros Hsp. revert pre rest. induction Hsp as [|[k e] nodes Hd Hsp IH]; intros pre rest Hwf Hnd Hfresh Hpath Htail Hst Hit.
  { exists it. split; [|done]. exists tail. split; [done|]. rewrite insert_id by done. done. }
  apply Forall_cons in Hwf as [(Hk & _ & He) Hwf]. destruct e as [l|d]; cbn [fst snd] in *.
  - specialize (IH (pre ++ [Some (named_as k l)]) rest). rewrite length_app, Nat.add_1_r, <- app_assoc in IH.
    specialize (IH Hwf Hnd Hfresh Hpath Htail Hst Hit). change (render_below _ _ _) with (render_entry (render (block_size_limit opts)) path (k, ELeaf l) (render_below (block_size_limit opts) path nodes)).
    pose proof (yields_map it _ (cons (named_as k l)) _ (λ links it', ∃ tail', Forall (λ s, slash ∉ s) tail' ∧ at_state it' opts (path ++ tail') rest (<[id := pre ++ map Some links]> stash)) IH) as Hy.
    destruct (render_below _ path nodes) as [out [links|e|]]; apply Hy; intros a it' (tail' & Ht' & Ha); exists tail'; (split; [done|]); by rewrite <- app_assoc in Ha.
  - cbn [ids_below foldr] in Hnd, Hfresh. apply NoDup_app in Hnd as (Hnd1 & Hdisj & Hnd2). destruct He as (Hpid & Hempty & Hwfd).
    specialize (IH (pre ++ [None]) (Descent d k (length path + 1) (length pre) :: rest)). rewrite length_app, Nat.add_1_r, <- app_assoc in IH.
    cbn [kids] in Hit. rewrite reverse_cons, <- app_assoc in Hit. specialize (IH Hwf Hnd2 ltac:(intros x Hx; apply Hfresh; set_solver) Hpath Htail Hst Hit).
    change (render_below _ _ _) with (render_entry (render (block_size_limit opts)) path (k, EDirectory d) (render_below (block_size_limit opts) path nodes)).
    destruct (render_below _ path nodes) as [out [links|e|]]; [|done|done]. cbn [render_entry fst snd].
    destruct (render (block_size_limit opts) (path ++ [k]) d) as [more res] eqn:Hren.
    refine (yields_then it out links (more, fails_with res (λ l, named_as k l :: links)) _ _ IH _).
    intros it' (tail' & Ht' & Ha).
    refine (yields_map it' (more, res) (λ l, named_as k l :: links) _ _ _ _).
    { rewrite <- Hren. eapply (Hd it' opts path tail' k (length pre) id rest); try done.
      - intros x Hx. rewrite lookup_insert_ne by (apply not_eq_sym, Hfresh; set_solver). apply Hfresh. set_solver.
      - apply lookup_insert_eq.
      - rewrite <- app_assoc. by rewrite lookup_app_r, Nat.sub_diag by lia. }
    intros leaf it'' Ha'. cbn beta in Ha'. exists [k]. split; [by repeat constructor|]. rewrite insert_insert_eq in Ha'.
    rewrite <- app_assoc in Ha'. rewrite insert_app_r_alt, Nat.sub_diag in Ha' by lia. done.
Qed.

(** What [descend] leaves: the leaves of the directory beside its [Post], or in the stash when it has children. *)
Lemma descend_state it d depth post rest opts path stash :
  full_path it = join path → old_depth it = length path → persisted_cids it = stash → reused_children it = [] → it_opts it = opts →
  let kids := kids depth 0 (dir_nodes d) in
  at_state (descend it d depth post rest) opts path
    (reverse kids ++ post (match kids with [] => Direct (holes (dir_nodes d)) | _ => Stashed (dir_id d) end) :: rest)
    (match kids with [] => stash | _ => <[dir_id d := holes (dir_nodes d)]> stash end).
Proof.
  intros Hp Hd Hs Hc Ho kids0. unfold descend. rewrite partition_ok, Hc. cbn [app]. subst kids0. destruct (kids depth 0 (dir_nodes d)); split; simpl; try done. by rewrite Hs.
Qed.

Lemma run_dir d : run_dir_spec d.
Proof.
  induction d as [nodes m pp id IH] using dir_ind. intros it opts p tail k i pid rest stash cells Hwf Hpid Hk Hempty Hp Ht Hnd Hfresh Hit Hcells Hi.
  apply wf_dir_unfold in Hwf as [_ Hwf]. rewrite Nat.add_1_r in Hit. destruct Hit as [Hpath Hdepth Hpend Hst Hch Ho]. cbn [dir_parent_id dir_nodes] in *.
  set (it0 := set_path it (join (p ++ [k]), S (length p))).
  assert (Hv : visit it = (Again, descend it0 (mkDir nodes m pp id) (S (length p)) (Post pid (S (length p)) k i) rest)).
  { unfold visit. rewrite Hpend. cbn [visited_at]. rewrite Hpath, Hdepth, update_child by done. cbn [dir_parent_id]. by rewrite Hpid. }
  eapply yields_again; [exact Hv|].
  pose proof (descend_state it0 (mkDir nodes m pp id) (S (length p)) (Post pid (S (length p)) k i) rest opts (p ++ [k]) stash eq_refl
    ltac:(subst it0; simpl; rewrite length_app; simpl; lia) Hst Hch Ho) as Hd.
  cbn [dir_nodes dir_id] in Hd. change (render ?l ?q (mkDir nodes m pp id)) with (render_node l q (render_below l q nodes)).
  destruct (kids (S (length p)) 0 nodes) as [|v vs] eqn:Hkids.
  { destruct (kids_none _ _ _ (p ++ [k]) (block_size_limit opts) Hkids) as (links & -> & Hh). rewrite Hh in Hd.
    eapply (run_post _ opts p [k]); [done|by repeat constructor|exact Hd|done|done|done]. }
  rewrite <- Hkids in Hd. assert (Hne : k ≠ []) by (intros ->; by rewrite (Hempty eq_refl) in Hkids).
  cbn [ids] in Hnd, Hfresh. fold (ids_below nodes) in Hnd, Hfresh. apply NoDup_cons in Hnd as [Hid Hnd].
  assert (Hpi : pid ≠ id) by (intros ->; by rewrite Hfresh in Hcells by set_solver).
  pose proof (run_below nodes (descend it0 (mkDir nodes m pp id) (S (length p)) (Post pid (S (length p)) k i) rest) opts false id [] (p ++ [k]) []
    (Post pid (S (length p)) k i (Stashed id) :: rest) (<[id := holes nodes]> stash) IH Hwf Hnd) as Hb.
  rewrite app_nil_r, length_app, Nat.add_1_r in Hb. cbn [length app] in Hb.
  specialize (Hb ltac:(intros x Hx; split; [set_solver|]; rewrite lookup_insert_ne by set_solver; apply Hfresh; set_solver)).
  specialize (Hb ltac:(apply Forall_app; by split; [|constructor]) ltac:(constructor) (lookup_insert_eq _ _ _) Hd).
  destruct (render_below (block_size_limit opts) (p ++ [k]) nodes) as [out [links|e|]]; [|done|done].
  rewrite render_node_app. refine (yields_then _ _ _ _ _ _ Hb _). intros it' (tail' & Htail' & Ha). rewrite <- app_assoc, insert_insert_eq in Ha. cbn [app] in Ha.
  assert (Hid' : stash !! id = None) by (apply Hfresh; set_solver).
  eapply (run_post it' opts p (k :: tail')); [done|by constructor|exact Ha| |done|done].
  simpl. rewrite lookup_insert_eq, delete_insert_eq. by rewrite delete_id.
Qed.

(** A root: no parent, an id of its own, distinct ids below it. *)
Record wf_root (d : DirBuilder) : Prop := {
  wr_dir : wf_dir true d;
  wr_ids : NoDup (ids d) }.

(** The end of the root: with [wrap_with_directory] it is rendered, without it the iteration is over. *)
Lemma run_post_root it opts tail links storage stash stash' :
  at_state it opts tail [PostRoot storage] stash' → into_inner storage stash' = Some (map Some links, stash) →
  yields_to it (if wrap_with_directory opts then let '(out, res) := render_node (block_size_limit opts) [] ([], Ok links) in (out, fails_with res (λ _, tt)) else ([], Ok tt))
    (λ _ it', runs it' [] (Ok tt)).
Proof.
  intros [Hpath Hdepth Hpend Hst Hch Ho] Hin.
  assert (Hv : visit it = visit_post_root (set_path it ([], O)) [] storage) by (unfold visit; by rewrite Hpend).
  unfold visit_post_root in Hv. cbn [persisted_cids set_path it_opts] in Hv. rewrite Hst, Hin, Ho in Hv.
  destruct (wrap_with_directory opts); cbn [negb] in Hv.
  - pose proof (finish_block (set_path it ([], O)) [] links stash opts Ho) as Hf. cbn [render_node].
    destruct (render_block _ links) as [[leaf block]|e|]; [|destruct Hf as [it' Hf]; rewrite Hf in Hv; by eapply runs_fail|done].
    rewrite Hf in Hv. eexists. split; [|intros out' res Hr; eapply runs_yield; [exact Hv|exact Hr]]. by eapply runs_end.
  - exists it. split; [|done]. by eapply runs_end.
Qed.

Lemma run_root opts root it :
  wf_root root → at_state it opts [] [DescentRoot root] ∅ →
  yields_to it (render_all opts root) (λ _ it', runs it' [] (Ok tt)).
Proof.
  intros [Hwf Hnd] [Hpath Hdepth Hpend Hst Hch Ho]. destruct root as [nodes m pp id]. apply wf_dir_unfold in Hwf as [_ Hwf].
  assert (Hv : visit it = (Again, descend (set_path it ([], O)) (mkDir nodes m pp id) 0 PostRoot [])) by (unfold visit; by rewrite Hpend).
  eapply yields_again; [exact Hv|].
  pose proof (descend_state (set_path it ([], O)) (mkDir nodes m pp id) 0 PostRoot [] opts [] ∅ eq_refl eq_refl Hst Hch Ho) as Hd. cbn [dir_nodes dir_id] in Hd.
  unfold render_all. cbn [dir_nodes]. destruct (kids 0 0 nodes) as [|v vs] eqn:Hkids.
  { destruct (kids_none _ _ _ [] (block_size_limit opts) Hkids) as (links & -> & Hh). rewrite Hh in Hd.
    pose proof (run_post_root _ opts [] links (Direct (map Some links)) ∅ ∅ Hd eq_refl) as Hr. by destruct (wrap_with_directory opts). }
  rewrite <- Hkids in Hd. cbn [ids] in Hnd. fold (ids_below nodes) in Hnd. apply NoDup_cons in Hnd as [Hid Hnd].
  assert (IH : in_dirs (λ _, run_dir_spec) nodes) by (apply Forall_forall; intros [? [?|?]] _; [done|apply run_dir]).
  pose proof (run_below nodes (descend (set_path it ([], O)) (mkDir nodes m pp id) 0 PostRoot []) opts true id [] [] [] [PostRoot (Stashed id)] (<[id := holes nodes]> ∅) IH Hwf Hnd
    ltac:(intros x Hx; split; [set_solver|]; rewrite lookup_insert_ne by set_solver; done) ltac:(constructor) ltac:(constructor) (lookup_insert_eq _ _ _) Hd) as Hb.
  destruct (render_below (block_size_limit opts) [] nodes) as [out [links|e|]]; [|by destruct (wrap_with_directory opts)|done].
  assert (Hr : yields_to (descend (set_path it ([], O)) (mkDir nodes m pp id) 0 PostRoot [])
    (out ++ (if wrap_with_directory opts then let '(out, res) := render_node (block_size_limit opts) [] ([], Ok links) in (out, fails_with res (λ _, tt)) else ([], Ok tt)).1,
     (if wrap_with_directory opts then let '(out, res) := render_node (block_size_limit opts) [] ([], Ok links) in (out, fails_with res (λ _, tt)) else ([], Ok tt)).2) (λ _ it', runs it' [] (Ok tt))).
  { refine (yields_then _ _ _ _ _ _ Hb _). intros it' (tail' & _ & Ha). rewrite insert_insert_eq in Ha. eapply run_post_root; [exact Ha|].
    simpl. by rewrite lookup_insert_eq. }
  destruct (wrap_with_directory opts); [|by rewrite app_nil_r in Hr]. rewrite render_node_app. by destruct (render_node _ [] ([], Ok links)).
Qed.

Lemma collect_render opts root : wf_root root → collect (iter_new root opts) = render_all opts root.
Proof.
  intros Hwf. pose proof (run_root opts root (iter_new root opts) Hwf ltac:(by split)) as Hr.
  assert (Hruns : runs (iter_new root opts) (render_all opts root).1 (render_all opts root).2).
  { destruct (render_all opts root) as [out [[]|e|]]; [|done|done]. destruct Hr as (it' & He & Hr). specialize (Hr _ _ He). by rewrite app_nil_r in Hr. }
  unfold collect. rewrite (runs_drain _ _ _ _ Hruns) by (done || lia). by destruct (render_all opts root).
Qed.

End Props.
