(* ===== verification/DirBuilderPaths.v ===== *)
(** What the directory builder holds: each accepted [put_link] adds one leaf under its path and the
    directories above it, a rejected call changes nothing, and every tree that the builder makes is one
    that its iterator renders. *)

From S2P Require Import Prelude Runtime Utf8 IpfsPath UnixfsPb FileAdder FileVisit DirBuilder DirBuilderProps.

Section Paths.
Context `{RustIpfs}.

(** ** Entries under paths *)

Fixpoint entry_at (e : Entry) (path : list Bytes) : option Entry :=
  match path with
  | [] => Some e
  | k :: path => match e with EDirectory d => bt_get k (dir_nodes d) ≫= λ e, entry_at e path | ELeaf _ => None end
  end.

Definition leaf_at (d : DirBuilder) (path : list Bytes) : option Leaf :=
  match entry_at (EDirectory d) path with Some (ELeaf l) => Some l | _ => None end.

Definition is_dir (d : DirBuilder) (path : list Bytes) : bool :=
  match entry_at (EDirectory d) path with Some (EDirectory _) => true | _ => false end.

(** The segments that a path can have: no slash in them, and none is empty unless it is alone at the top. *)
Definition segments_ok (top : bool) (segs : list Bytes) : Prop :=
  Forall (λ s, slash ∉ s) segs ∧ ((top = true ∧ segs = [[]]) ∨ Forall (λ s, s ≠ []) segs).

(** ** Accepted changes *)

(** [target] is the leaf that is put, or nothing when a directory is made or gets its metadata; the
    ids from [c] to [c'] are taken. *)
Inductive edit (target : option Leaf) : Z → Z → DirBuilder → list Bytes → DirBuilder → Prop :=
| edit_leaf c d k l : target = Some l → bt_get k (dir_nodes d) = None →
    edit target c c d [k] (with_nodes d (bt_insert k (ELeaf l) (dir_nodes d)))
| edit_make c d k m : target = None → bt_get k (dir_nodes d) = None →
    edit target c (c + 1) d [k] (with_nodes d (bt_insert k (EDirectory (mkDir [] m (Some (dir_id d)) c)) (dir_nodes d)))
| edit_metadata c d k d1 m : target = None → bt_get k (dir_nodes d) = Some (EDirectory d1) →
    edit target c c d [k] (with_nodes d (bt_insert k (EDirectory (dir_set_metadata d1 m)) (dir_nodes d)))
| edit_down c c' d k d1 segs d2 : segs ≠ [] → bt_get k (dir_nodes d) = Some (EDirectory d1) → edit target c c' d1 segs d2 →
    edit target c c' d (k :: segs) (with_nodes d (bt_insert k (EDirectory d2) (dir_nodes d)))
| edit_new c c' d k segs d2 : segs ≠ [] → bt_get k (dir_nodes d) = None →
    edit target (c + 1) c' (mkDir [] no_metadata (Some (dir_id d)) c) segs d2 →
    edit target c c' d (k :: segs) (with_nodes d (bt_insert k (EDirectory d2) (dir_nodes d))).

Lemma edit_frame t c c' d segs d' : edit t c c' d segs d' → dir_parent_id d' = dir_parent_id d ∧ dir_id d' = dir_id d ∧ dir_nodes d' ≠ [].
Proof.
  assert (Hi : ∀ k (e : Entry) m, bt_insert k e m ≠ []) by (intros k e [|[x w] m]; simpl; [done|by destruct (str_cmp k x)]).
  destruct 1; destruct d; simpl; auto.
Qed.

(** *** The leaves and the directories after a change *)

Lemma entry_at_insert k e d q :
  entry_at (EDirectory (with_nodes d (bt_insert k e (dir_nodes d)))) q =
    match q with
    | [] => Some (EDirectory (with_nodes d (bt_insert k e (dir_nodes d))))
    | x :: q' => if bool_decide (k = x) then entry_at e q' else entry_at (EDirectory d) q
    end.
Proof. destruct q as [|x q]; [done|]. destruct d. simpl. rewrite bt_get_insert. by case_bool_decide. Qed.

Lemma leaf_at_down d k d1 q : bt_get k (dir_nodes d) = Some (EDirectory d1) → leaf_at d (k :: q) = leaf_at d1 q ∧ is_dir d (k :: q) = is_dir d1 q.
Proof. intros Hk. unfold leaf_at, is_dir. cbn [entry_at]. by rewrite Hk. Qed.

Lemma at_absent d k q : bt_get k (dir_nodes d) = None → leaf_at d (k :: q) = None ∧ is_dir d (k :: q) = false.
Proof. intros Hk. unfold leaf_at, is_dir. cbn [entry_at]. by rewrite Hk. Qed.

Lemma at_empty m p i q : leaf_at (mkDir [] m p i) q = None ∧ is_dir (mkDir [] m p i) q = bool_decide (q = []).
Proof. by destruct q. Qed.

Lemma at_insert_ne d k e x q : k ≠ x →
  leaf_at (with_nodes d (bt_insert k e (dir_nodes d))) (x :: q) = leaf_at d (x :: q) ∧
  is_dir (with_nodes d (bt_insert k e (dir_nodes d))) (x :: q) = is_dir d (x :: q).
Proof. intros Hk. unfold leaf_at, is_dir. by rewrite entry_at_insert, bool_decide_eq_false_2. Qed.

Lemma at_insert_dir d k d1 q :
  leaf_at (with_nodes d (bt_insert k (EDirectory d1) (dir_nodes d))) (k :: q) = leaf_at d1 q ∧
  is_dir (with_nodes d (bt_insert k (EDirectory d1) (dir_nodes d))) (k :: q) = is_dir d1 q.
Proof. unfold leaf_at, is_dir. by rewrite entry_at_insert, bool_decide_eq_true_2. Qed.

Lemma at_insert_leaf d k l q :
  leaf_at (with_nodes d (bt_insert k (ELeaf l) (dir_nodes d))) (k :: q) = (if bool_decide (q = []) then Some l else None) ∧
  is_dir (with_nodes d (bt_insert k (ELeaf l) (dir_nodes d))) (k :: q) = false.
Proof. unfold leaf_at, is_dir. rewrite entry_at_insert, bool_decide_eq_true_2 by done. by destruct q. Qed.

(** The leaves are as before but for the one that is put. *)
Lemma edit_leaves t c c' d segs d' q : edit t c c' d segs d' →
  leaf_at d' q = match t with Some l => if bool_decide (q = segs) then Some l else leaf_at d q | None => leaf_at d q end.
Proof.
  intros He. revert q. induction He as [c d k l -> Hk|c d k m -> Hk|c d k d1 m -> Hk|c c' d k d1 segs d2 Hs Hk He IH|c c' d k segs d2 Hs Hk He IH];
    intros [|x q]; try done; try (by destruct t).
  all: destruct (decide (k = x)) as [<-|Hx]; [|rewrite (proj1 (at_insert_ne _ _ _ _ _ Hx)); repeat case_match; repeat case_bool_decide; congruence].
  - rewrite (proj1 (at_insert_leaf _ _ _ _)), (proj1 (at_absent _ _ _ Hk)). repeat case_bool_decide; congruence.
  - by rewrite (proj1 (at_insert_dir _ _ _ _)), (proj1 (at_absent _ _ _ Hk)), (proj1 (at_empty _ _ _ _)).
  - rewrite (proj1 (at_insert_dir _ _ _ _)), (proj1 (leaf_at_down _ _ _ _ Hk)). destruct d1. by destruct q.
  - rewrite (proj1 (at_insert_dir _ _ _ _)), IH, (proj1 (leaf_at_down _ _ _ _ Hk)). destruct t; [|done]. repeat case_bool_decide; congruence.
  - rewrite (proj1 (at_insert_dir _ _ _ _)), IH, (proj1 (at_empty _ _ _ _)), (proj1 (at_absent _ _ _ Hk)). destruct t; [|done]. repeat case_bool_decide; congruence.
Qed.

(** The directories are those of before and those above what is put, or made. *)
Lemma edit_dirs t c c' d segs d' q : edit t c c' d segs d' →
  is_dir d' q = true ↔ is_dir d q = true ∨ (q `prefix_of` segs ∧ (t = None ∨ q ≠ segs)).
Proof.
  intros He. revert q. induction He as [c d k l -> Hk|c d k m -> Hk|c d k d1 m -> Hk|c c' d k d1 segs d2 Hs Hk He IH|c c' d k segs d2 Hs Hk He IH];
    intros [|x q]; try (split; [intros _; left; done|done]).
  all: destruct (decide (k = x)) as [<-|Hx]; [|rewrite (proj2 (at_insert_ne _ _ _ _ _ Hx)); split; [by left|intros [?|[?%prefix_cons_inv_1 _]]; congruence]].
  - rewrite (proj2 (at_insert_leaf _ _ _ _)), (proj2 (at_absent _ _ _ Hk)). split; [done|]. intros [?|[Hp%prefix_cons_inv_2 [?|Hq]]]; [done..|].
    apply prefix_nil_inv in Hp as ->. done.
  - rewrite (proj2 (at_insert_dir _ _ _ _)), (proj2 (at_absent _ _ _ Hk)), (proj2 (at_empty _ _ _ _)). rewrite bool_decide_eq_true. split.
    + intros ->. right. split; [done|by left].
    + intros [?|[Hp%prefix_cons_inv_2 _]]; [done|by apply prefix_nil_inv].
  - rewrite (proj2 (at_insert_dir _ _ _ _)), (proj2 (leaf_at_down _ _ _ _ Hk)).
    assert (is_dir (dir_set_metadata d1 m) q = is_dir d1 q) as -> by (destruct d1; by destruct q). split; [by left|]. intros [?|[Hp%prefix_cons_inv_2 _]]; [done|].
    by apply prefix_nil_inv in Hp as ->.
  - rewrite (proj2 (at_insert_dir _ _ _ _)), IH, (proj2 (leaf_at_down _ _ _ _ Hk)). split; (intros [?|[Hp Hq]]; [by left|right]).
    + split; [by apply prefix_cons|]. destruct Hq; [by left|right; congruence].
    + apply prefix_cons_inv_2 in Hp. split; [done|]. destruct Hq; [by left|right; congruence].
  - rewrite (proj2 (at_insert_dir _ _ _ _)), IH, (proj2 (at_empty _ _ _ _)), (proj2 (at_absent _ _ _ Hk)). rewrite bool_decide_eq_true. split.
    + intros [->|[Hp Hq]]; right; [split; [apply prefix_cons, prefix_nil|right; congruence]|]. split; [by apply prefix_cons|]. destruct Hq; [by left|right; congruence].
    + intros [?|[Hp%prefix_cons_inv_2 Hq]]; [done|]. right. split; [done|]. destruct Hq; [by left|right; congruence].
Qed.

(** *** A change keeps the tree well formed *)

Lemma wf_entries_insert top i k e nodes : wf_entries top i nodes → wf_entry top i k e → wf_entries top i (bt_insert k e nodes).
Proof.
  intros Hn He. apply Forall_forall. intros x Hx. apply bt_insert_keys in Hx as [->|Hx]; [done|]. unfold wf_entries in Hn. rewrite Forall_forall in Hn. by apply Hn.
Qed.

Lemma wf_get top i k e nodes : bt_sorted nodes → wf_entries top i nodes → bt_get k nodes = Some e → wf_entry top i k e.
Proof. intros Hs Hn Hk. apply bt_get_elem in Hk; [|done]. unfold wf_entries in Hn. rewrite Forall_forall in Hn. by apply (Hn (k, e)). Qed.

Lemma wf_insert top d k e : wf_dir top d → wf_entry top (dir_id d) k e → wf_dir top (with_nodes d (bt_insert k e (dir_nodes d))).
Proof.
  destruct d as [nodes m p i]. intros [Hs Hn]%wf_dir_unfold He. apply wf_dir_unfold. split; [by apply bt_insert_sorted|by apply wf_entries_insert].
Qed.

Lemma wf_child top d k d1 : wf_dir top d → bt_get k (dir_nodes d) = Some (EDirectory d1) →
  dir_parent_id d1 = Some (dir_id d) ∧ (k = [] → dir_nodes d1 = []) ∧ wf_dir false d1.
Proof. destruct d as [nodes m p i]. intros [Hs Hn]%wf_dir_unfold Hk. by apply (wf_get _ _ _ _ _ Hs Hn) in Hk as (_ & _ & Hd). Qed.

Lemma segments_ok_cons top k segs : segments_ok top (k :: segs) → slash ∉ k ∧ (top = false → k ≠ []) ∧ (segs ≠ [] → k ≠ [] ∧ segments_ok false segs).
Proof.
  intros [Hs Hn]. apply Forall_cons in Hs as [Hk Hs]. destruct Hn as [[-> Hn]|Hn].
  - injection Hn as -> ->. done.
  - apply Forall_cons in Hn as [Hk' Hn]. split; [done|]. split; [done|]. intros _. split; [done|]. split; [done|by right].
Qed.

Lemma edit_wf t c c' top d segs d' : edit t c c' d segs d' → wf_dir top d → segments_ok top segs → wf_dir top d'.
Proof.
  intros He. revert top. induction He as [c d k l -> Hk|c d k m -> Hk|c d k d1 m -> Hk|c c' d k d1 segs d2 Hs Hk He IH|c c' d k segs d2 Hs Hk He IH];
    intros top Hwf (Hslash & Htop & Hsegs)%segments_ok_cons; apply wf_insert; try done.
  - split; [done|]. split; [done|]. split; [done|]. split; [done|]. apply wf_dir_unfold. split; constructor.
  - destruct (wf_child _ _ _ _ Hwf Hk) as (Hp & He & Hd). split; [done|]. split; [done|]. destruct d1 as [n1 m1 p1 i1]. simpl in *. auto.
  - destruct (wf_child _ _ _ _ Hwf Hk) as (Hp & _ & Hd). destruct (Hsegs Hs) as [Hne Hok]. destruct (edit_frame _ _ _ _ _ _ He) as (Hp' & _ & _).
    split; [done|]. split; [done|]. split; [congruence|]. split; [done|]. by apply IH.
  - destruct (Hsegs Hs) as [Hne Hok]. destruct (edit_frame _ _ _ _ _ _ He) as (Hp' & _ & _).
    split; [done|]. split; [done|]. split; [done|]. split; [done|]. apply IH; [|done]. apply wf_dir_unfold. split; constructor.
Qed.

(** *** The ids *)

Definition entry_ids (e : Entry) : list Z := match e with EDirectory d => ids d | ELeaf _ => [] end.

Lemma ids_nodes d : ids d = dir_id d :: ids_below (dir_nodes d).
Proof. by destruct d. Qed.

Lemma ids_insert k e nodes : bt_sorted nodes →
  ids_below (bt_insert k e nodes) ++ from_option entry_ids [] (bt_get k nodes) ≡ₚ entry_ids e ++ ids_below nodes.
Proof.
  induction 1 as [|[x w] nodes Hs IH Hx]; simpl; [by rewrite app_nil_r|]. fold (ids_below nodes) (entry_ids w). destruct (str_cmp k x) eqn:Hc.
  - apply str_cmp_eq in Hc as <-. rewrite bool_decide_eq_true_2 by done. simpl. fold (ids_below nodes) (entry_ids e). rewrite <- app_assoc. f_equiv. apply Permutation_app_comm.
  - assert (Hne : x ≠ k) by (intros ->; by rewrite str_cmp_refl in Hc). rewrite bool_decide_eq_false_2 by done.
    assert (bt_get k nodes = None) as ->; [|simpl; by rewrite app_nil_r].
    destruct (bt_get k nodes) as [e'|] eqn:Hg; [|done]. apply bt_get_elem in Hg; [|done]. rewrite Forall_forall in Hx. specialize (Hx _ Hg). simpl in Hx.
    by rewrite str_cmp_antisym, Hc in Hx.
  - assert (Hne : x ≠ k) by (intros ->; by rewrite str_cmp_refl in Hc). rewrite bool_decide_eq_false_2 by done. simpl. fold (ids_below (bt_insert k e nodes)) (entry_ids w).
    rewrite <- app_assoc, IH. by rewrite (Permutation_app_swap_app (entry_ids w)).
Qed.

Lemma sorted_nodes top d : wf_dir top d → bt_sorted (dir_nodes d).
Proof. destruct d. by intros [? _]%wf_dir_unfold. Qed.

(** The ids that a change takes are the next ones. *)
Lemma edit_ids t c c' top d segs d' : edit t c c' d segs d' → wf_dir top d → segments_ok top segs → c <= c' ∧ ids d' ≡ₚ ids d ++ seqZ c (c' - c).
Proof.
  intros He. revert top. induction He as [c d k l -> Hk|c d k m -> Hk|c d k d1 m -> Hk|c c' d k d1 segs d2 Hs Hk He IH|c c' d k segs d2 Hs Hk He IH];
    intros top Hwf (_ & _ & Hsegs)%segments_ok_cons; pose proof (sorted_nodes _ _ Hwf) as Hsort.
  all: rewrite !ids_nodes; destruct d as [nodes m0 p0 i0]; cbn [dir_id dir_nodes with_nodes] in *.
  1, 2, 5: match goal with Hk : bt_get ?k ?n = None |- context [bt_insert ?k ?e ?n] =>
    pose proof (ids_insert k e n Hsort) as Hi; rewrite Hk in Hi; simpl in Hi; rewrite app_nil_r in Hi; rewrite Hi end.
  - split; [lia|]. by rewrite Z.sub_diag, app_nil_r.
  - split; [lia|]. replace (c + 1 - c) with 1 by lia. simpl. rewrite (Permutation_app_comm (ids_below nodes)). done.
  - destruct (IH false) as [Hc Hids]; [apply wf_dir_unfold; split; constructor|by apply Hsegs|]. split; [lia|]. rewrite Hids. simpl.
    rewrite (seqZ_cons c) by lia. replace (Z.succ c) with (c + 1) by lia. replace (Z.pred (c' - c)) with (c' - (c + 1)) by lia.
    rewrite (Permutation_app_comm (ids_below nodes)). done.
  - split; [lia|]. rewrite Z.sub_diag, app_nil_r. pose proof (ids_insert k (EDirectory (dir_set_metadata d1 m)) nodes Hsort) as Hi. rewrite Hk in Hi. cbn [from_option entry_ids] in Hi.
    assert (ids (dir_set_metadata d1 m) = ids d1) as Hm by (by destruct d1). rewrite Hm, Permutation_app_comm in Hi. apply Permutation_app_inv_l in Hi. by rewrite Hi.
  - destruct (wf_child _ _ _ _ Hwf Hk) as (_ & _ & Hd). destruct (IH false Hd) as [Hc Hids]; [by apply Hsegs|]. split; [done|].
    pose proof (ids_insert k (EDirectory d2) nodes Hsort) as Hi. rewrite Hk in Hi. simpl in Hi. rewrite Hids in Hi.
    rewrite Permutation_app_comm, <- app_assoc in Hi. apply Permutation_app_inv_l in Hi. rewrite Hi. rewrite (Permutation_app_comm (seqZ _ _)). done.
Qed.

Lemma ids_child top d k d1 x : wf_dir top d → bt_get k (dir_nodes d) = Some (EDirectory d1) → x ∈ ids d1 → x ∈ ids d.
Proof.
  intros Hwf Hk Hx. rewrite ids_nodes. right. apply bt_get_elem in Hk; [|by apply (sorted_nodes _ _ Hwf)]. revert Hk. generalize (dir_nodes d).
  intros nodes. induction nodes as [|[y e] nodes IH]; [set_solver|]. rewrite elem_of_cons. simpl. intros [[= <- <-]|Hin]; apply elem_of_app; [by left|right; by apply IH].
Qed.

(** ** The walk *)

(** What a modifier may do to the directory: put [target], or make or get a directory. *)
Definition modifies (text : Bytes) (target : option Leaf) (f : DirBuilder → Bytes → option Z → outcome TreeBuildingFailed unit * DirBuilder * option Z) : Prop :=
  ∀ d k c, dir_id d ≠ c →
    match f d k (Some c) with
    | (Ok _, d', id') => edit target c (match id' with None => c + 1 | Some _ => c end) d [k] d'
    | (Err e, d', id') => d' = d ∧ id' = Some c ∧ ∃ e0, bt_get k (dir_nodes d) = Some e0 ∧
        match target with
        | Some _ => e = DuplicatePath text
        | None => e = LeafAsDirectory text ∧ ∃ l, e0 = ELeaf l
        end
    | (Panic, _, _) => False
    end.

Lemma put_link_modifies text leaf : modifies text (Some leaf) (put_link_in text leaf).
Proof.
  intros d k c Hid. unfold put_link_in, put_leaf. destruct (bt_get k (dir_nodes d)) as [e|] eqn:Hk; [by eauto|]. by apply edit_leaf.
Qed.

Lemma set_metadata_modifies text m : modifies text None (set_metadata_in text m).
Proof.
  intros d k c Hid. unfold set_metadata_in, add_or_get_node. destruct (bt_get k (dir_nodes d)) as [[l|d1]|] eqn:Hk; simpl; [by eauto 10|by apply edit_metadata|].
  unfold dir_new. rewrite (proj2 (Z.eqb_neq _ _)) by done. destruct d as [nodes m0 p0 i0]. simpl. rewrite bt_insert_insert. by apply (edit_make None c (mkDir nodes m0 p0 i0)).
Qed.

(** Why a change is refused. *)
Definition refused (text : Bytes) (target : option Leaf) (wrap top : bool) (d : DirBuilder) (segs : list Bytes) (e : TreeBuildingFailed) : Prop :=
  match e with
  | RootedPath s => s = text ∧ top = true ∧ ∃ rest, segs = [] :: rest ∧ rest ≠ []
  | TooManyRootLevelEntries => top = true ∧ wrap = false ∧ dir_nodes d ≠ [] ∧ ∃ k rest, segs = k :: rest ∧ (rest = [] ∨ bt_get k (dir_nodes d) = None)
  | DuplicatePath s => s = text ∧ is_Some target ∧ is_Some (entry_at (EDirectory d) segs)
  | LeafAsDirectory s => s = text ∧ ∃ q, q `prefix_of` segs ∧ (is_Some target → q ≠ segs) ∧ is_Some (leaf_at d q)
  | PathEndsInSlash _ | RepeatSlashesInPath _ => False
  end.

Lemma refused_empty text t wrap m p i segs e : segs ≠ [] → ¬ refused text t wrap false (mkDir [] m p i) segs e.
Proof.
  intros Hs. destruct e; simpl; [by intros (_ & ? & _)|by intros []|by intros []|by intros (? & _)| |].
  - destruct segs; [done|]. simpl. intros (_ & _ & [? ?]). done.
  - intros (_ & q & _ & _ & [l Hl]). by rewrite (proj1 (at_empty _ _ _ _)) in Hl.
Qed.

Lemma refused_down text t wrap top d k d1 segs e : segs ≠ [] → bt_get k (dir_nodes d) = Some (EDirectory d1) →
  refused text t wrap false d1 segs e → refused text t wrap top d (k :: segs) e.
Proof.
  intros Hs Hk. destruct e; cbn [refused]; [by intros (_ & ? & _)|by intros []|by intros []|by intros (? & _)| |].
  - intros (-> & Ht & He). cbn [entry_at]. by rewrite Hk.
  - intros (-> & q & Hq & Ht & Hl). split; [done|]. exists (k :: q). split; [by apply prefix_cons|]. split; [intros Hi Heq; injection Heq; by apply Ht|].
        by rewrite (proj1 (leaf_at_down _ _ _ _ Hk)).
Qed.

(** The walk changes the tree as [edit] says or refuses without a change. *)
Definition walked (text : Bytes) (target : option Leaf) (wrap top : bool) (d : DirBuilder) (c : Z) (segs : list Bytes)
    (r : outcome TreeBuildingFailed unit * DirBuilder * Z) : Prop :=
  match r with
  | (Ok _, d', c') => edit target c c' d segs d' ∧ c' <= c + Z.of_nat (length segs) ∧ segments_ok top segs ∧
      (top = true → wrap = false → dir_nodes d = [] ∨ ∃ k k' rest, segs = k :: k' :: rest ∧ is_Some (bt_get k (dir_nodes d)))
  | (Err e, d', c') => d' = d ∧ c' = c ∧ refused text target wrap top d segs e
  | (Panic, _, _) => False
  end.

Lemma root_full depth wrap d :
  let full := is_root_level depth && negb wrap && negb (dir_is_empty d) in
  (full = true → is_root_level depth = true ∧ wrap = false ∧ dir_nodes d ≠ []) ∧ (full = false → is_root_level depth = true → wrap = false → dir_nodes d = []).
Proof. unfold dir_is_empty. destruct (is_root_level depth), wrap, (dir_nodes d); done. Qed.

(** The last segment. *)
Lemma walk_last text target wrap f depth next d c :
  modifies text target f → slash ∉ next → (is_root_level depth = false → next ≠ []) → dir_id d ≠ c → 0 <= c < 2 ^ 64 - 1 →
  walked text target wrap (is_root_level depth) d c [next] (modify_walk text wrap f depth next [] d c).
Proof.
  intros Hf Hslash Hnext Hid Hc. cbn [modify_walk]. destruct (root_full depth wrap d) as [Hfull Hnot].
  assert (Hwrap : wrapping_add 64 c 1 = c + 1) by (apply wrapping_add_id; [lia|unfold umax; lia]).
  assert (Hok : segments_ok (is_root_level depth) [next]).
  { split; [by constructor|]. destruct (is_root_level depth), next as [|x next]; try (by left); right; repeat constructor; auto. }
  assert (bool_decide (next = []) && is_root_level depth && negb true = false) as -> by (by rewrite andb_false_r).
  assert (bool_decide (next = []) && negb (is_root_level depth) = false) as ->.
  { destruct (is_root_level depth); [apply andb_false_r|]. by rewrite bool_decide_eq_false_2 by auto. }
  destruct (is_root_level depth && negb wrap && negb (dir_is_empty d)); [simpl; split; [done|]; split; [done|]; destruct (Hfull eq_refl) as (? & ? & ?); eauto 10|].
  specialize (Hf d next c Hid). destruct (f d next (Some c)) as [[[u|e|] d'] id']; [| |done].
  - rewrite Hwrap. split; [done|]. split; [destruct id'; simpl; lia|]. split; [done|]. auto.
  - destruct Hf as (-> & -> & e0 & Hk & He). split; [done|]. split; [done|]. destruct target as [l|]; [subst e|destruct He as [-> [l ->]]].
    + simpl. rewrite Hk. by eauto.
    + simpl. split; [done|]. exists [next]. split; [done|]. split; [by intros [? ?]|]. unfold leaf_at. simpl. rewrite Hk. by eexists.
Qed.

Lemma walk_spec text target wrap f remaining depth next d c :
  modifies text target f → Forall (λ s, slash ∉ s) (next :: remaining) → Forall (λ s, s ≠ []) remaining → (is_root_level depth = false → next ≠ []) →
  wf_dir (is_root_level depth) d → Forall (λ x, 0 <= x < c) (ids d) → c + Z.of_nat (length remaining) < 2 ^ 64 - 1 →
  walked text target wrap (is_root_level depth) d c (next :: remaining) (modify_walk text wrap f depth next remaining d c).
Proof.
  intros Hf. revert depth next d c. induction remaining as [|segment remaining IH]; intros depth next d c Hslash Hne Hnext Hwf Hids Hc.
  all: assert (Hid : dir_id d ≠ c ∧ 0 <= c) by (rewrite ids_nodes, Forall_cons in Hids; lia); destruct Hid as [Hid Hc0].
  { apply walk_last; [done|by apply Forall_cons in Hslash as [? _]|done|done|simpl in Hc; lia]. }
  cbn [modify_walk]. destruct (root_full depth wrap d) as [Hfull Hnot].
  assert (Hwrap : wrapping_add 64 c 1 = c + 1) by (apply wrapping_add_id; [lia|unfold umax; simpl in Hc; lia]).
  apply Forall_cons in Hslash as [Hslash Hslash']. apply Forall_cons in Hne as [Hne Hne']. rewrite length_cons, Nat2Z.inj_succ in Hc.
  destruct (bool_decide_reflect (next = [])) as [->|Hnext']; cbn [andb].
  { destruct (is_root_level depth); simpl; [by eauto 10|]. by specialize (Hnext eq_refl). }
  assert (Hok : segments_ok (is_root_level depth) (next :: segment :: remaining)) by (split; [by constructor|right; by repeat constructor]).
  specialize (IH (S depth) segment). cbn [is_root_level Nat.eqb] in IH.
  destruct (bt_get next (dir_nodes d)) as [[l|d1]|] eqn:Hk; simpl as_dir_builder; cbn iota.
  - simpl. split; [done|]. split; [done|]. split; [done|]. exists [next]. split; [apply prefix_cons, prefix_nil|]. split; [done|]. unfold leaf_at. simpl. rewrite Hk. by eexists.
  - destruct (wf_child _ _ _ _ Hwf Hk) as (_ & _ & Hd1). specialize (IH d1 c Hslash' Hne' (λ _, Hne) Hd1).
    assert (Hids1 : Forall (λ x, 0 <= x < c) (ids d1)).
    { apply Forall_forall. intros x Hx. rewrite Forall_forall in Hids. apply Hids. by eapply ids_child. }
    specialize (IH Hids1 ltac:(lia)). destruct (modify_walk _ _ _ _ _ _ d1 c) as [[[u|e|] d2] c2]; simpl in IH; [| |done].
    + destruct IH as (He & Hc2 & _ & _). split; [by eapply edit_down|]. split; [simpl length; lia|]. split; [done|]. intros _ _. right. eauto 10.
    + destruct IH as (-> & -> & He). split; [|split; [done|by eapply refused_down]]. rewrite bt_insert_same; [by destruct d|by apply (sorted_nodes _ _ Hwf)|done].
  - destruct (is_root_level depth && negb wrap && negb (dir_is_empty d)); [simpl; split; [done|]; split; [done|]; destruct (Hfull eq_refl) as (? & ? & ?); eauto 10|].
    unfold dir_new. rewrite (proj2 (Z.eqb_neq _ _)) by done. rewrite Hwrap.
    specialize (IH (mkDir [] no_metadata (Some (dir_id d)) c) (c + 1) Hslash' Hne' (λ _, Hne) ltac:(by apply wf_dir_unfold; split; constructor) ltac:(simpl; repeat constructor; lia) ltac:(lia)).
    destruct (modify_walk _ _ _ _ _ _ _ (c + 1)) as [[[u|e|] d2] c2]; simpl in IH; [| |done].
    + destruct IH as (He & Hc2 & _ & _). split; [by eapply edit_new|]. split; [simpl length; lia|]. split; [done|]. auto.
    + destruct IH as (_ & _ & []%refused_empty). done.
Qed.

(** ** The builder *)

Definition segments (text : Bytes) : list Bytes := let '(first, others) := split_slash text in first :: others.

Lemma split_nonempty text : ends_with_slash text = false → contains_slashes text = false →
  Forall (λ s, s ≠ []) (split_slash text).2 ∧ (length (split_slash text).2 <= length text)%nat.
Proof.
  unfold ends_with_slash. rewrite bool_decide_eq_false. induction text as [|x text IH]; intros He Hc; [by split|].
  destruct text as [|y text].
  - simpl in *. destruct (Z.eqb_spec x slash) as [->|]; [done|]. by split; [constructor|simpl; lia].
  - cbn [contains_slashes] in Hc. apply orb_false_iff in Hc as [Hxy Hc]. rewrite last_cons_cons in He. specialize (IH He Hc).
    cbn [split_slash] in *. destruct (split_slash text) as [first others].
    destruct (Z.eqb_spec x slash) as [->|], (Z.eqb_spec y slash) as [->|]; simpl in *; try done; destruct IH as [IH1 IH2]; (split; [|simpl in *; lia]); try done.
    by constructor.
Qed.

Lemma segments_slash text : Forall (λ s, slash ∉ s) (segments text).
Proof. pose proof (split_slash_spec text) as [Hf Ho]. unfold segments. destruct (split_slash text). by constructor. Qed.

(** What holds of a builder between calls. *)
Record builder_ok (b : BufferingTreeBuilder) : Prop := {
  bo_root : wf_root (root_builder b);
  bo_ids : Forall (λ x, 0 <= x < counter b) (ids (root_builder b)) }.

Lemma builder_new_ok opts : builder_ok (builder_new opts).
Proof. split; [split; [by apply wf_dir_unfold; split; constructor|simpl; apply NoDup_singleton]|simpl; repeat constructor; lia]. Qed.

(** Why a call is refused. *)
Definition call_refused (b : BufferingTreeBuilder) (text : Bytes) (target : option Leaf) (e : TreeBuildingFailed) : Prop :=
  if ends_with_slash text then e = PathEndsInSlash text
  else if contains_slashes text then e = RepeatSlashesInPath text
  else refused text target (wrap_with_directory (b_opts b)) true (root_builder b) (segments text) e.

(** What a call does to the tree of the builder. *)
Definition call_does (b : BufferingTreeBuilder) (text : Bytes) (target : option Leaf) (r : outcome TreeBuildingFailed unit * BufferingTreeBuilder) : Prop :=
  let '(res, b') := r in
  builder_ok b' ∧ b_opts b' = b_opts b ∧ counter b' <= counter b + Z.of_nat (length text) + 1 ∧
  match res with
  | Ok _ =>
      (∀ e, ¬ call_refused b text target e) ∧
      (∀ q, leaf_at (root_builder b') q =
        match target with Some l => if bool_decide (q = segments text) then Some l else leaf_at (root_builder b) q | None => leaf_at (root_builder b) q end) ∧
      (∀ q, is_dir (root_builder b') q = true ↔ is_dir (root_builder b) q = true ∨ (q `prefix_of` segments text ∧ (target = None ∨ q ≠ segments text)))
  | Err e => call_refused b text target e ∧ root_builder b' = root_builder b ∧ counter b' = counter b
  | Panic => False
  end.

(** An accepted change has none of the reasons against it. *)
Lemma edit_not_refused t c c' wrap top d segs d' text e :
  edit t c c' d segs d' → segments_ok top segs →
  (top = true → wrap = false → dir_nodes d = [] ∨ ∃ k k' rest, segs = k :: k' :: rest ∧ is_Some (bt_get k (dir_nodes d))) →
  ¬ refused text t wrap top d segs e.
Proof.
  intros He Hok Hroom. destruct e as [s| | | | |]; cbn [refused]; [|by intros []|by intros []| | |].
  - intros (_ & _ & rest & -> & Hrest). apply segments_ok_cons in Hok as (_ & _ & Hok). by destruct (Hok Hrest).
  - intros (-> & -> & Hne & k & rest & -> & Hk). destruct (Hroom eq_refl eq_refl) as [?|(k1 & k2 & r & [= -> ->] & [e He'])]; [done|].
    destruct Hk as [|Hk]; [done|]. by rewrite Hk in He'.
  - intros (_ & [l ->] & [e Hat]). clear Hok Hroom. remember (Some l) as t eqn:Ht.
    induction He as [c d k l' Hl Hk|c d k m Hl Hk|c d k d1 m Hl Hk|c c' d k d1 segs d2 Hs Hk He IH|c c' d k segs d2 Hs Hk He IH]; cbn [entry_at] in Hat;
      first [by rewrite Hk in Hat|congruence].
  - intros (_ & q & Hq & Hne & [l Hl]). clear Hok Hroom. revert q Hq Hne Hl.
    induction He as [c d k l' -> Hk|c d k m -> Hk|c d k d1 m -> Hk|c c' d k d1 segs d2 Hs Hk He IH|c c' d k segs d2 Hs Hk He IH]; intros [|x q] Hq Hne Hl; try done;
      apply prefix_cons_inv_1 in Hq as Hx; apply prefix_cons_inv_2 in Hq; subst x; unfold leaf_at in Hl; cbn [entry_at] in Hl; rewrite Hk in Hl; try done; simpl in Hl.
    + by apply prefix_nil_inv in Hq as ->.
    + apply (IH q Hq); [|done]. intros Ht ->. by apply (Hne Ht).
Qed.

Lemma call_spec b text target f :
  modifies text target f → builder_ok b → counter b + Z.of_nat (length text) < 2 ^ 64 - 1 → call_does b text target (modify_with b text f).
Proof.
  intros Hf [Hroot Hids] Hc. unfold modify_with, call_does, call_refused. cbn [root_builder counter b_opts].
  assert (Hsame : builder_ok (mkBuilder (root_builder b) (length text `max` longest_path b) (counter b) (b_opts b))) by done.
  destruct (ends_with_slash text) eqn:Hends; [split; [done|]; split; [done|]; split; [simpl; lia|done]|].
  destruct (contains_slashes text) eqn:Hslashes; [split; [done|]; split; [done|]; split; [simpl; lia|done]|].
  destruct (split_nonempty text Hends Hslashes) as [Hne Hlen]. pose proof (segments_slash text) as Hslash. unfold segments in *.
  destruct (split_slash text) as [first others]. cbn [snd] in *.
  pose proof (walk_spec text target (wrap_with_directory (b_opts b)) f others 0 first (root_builder b) (counter b) Hf Hslash Hne ltac:(done)
    (wr_dir _ Hroot) Hids ltac:(lia)) as Hw.
  destruct (modify_walk _ _ _ _ _ _ _ _) as [[[u|e|] root] c']; cbn [walked is_root_level Nat.eqb] in Hw; [| |done].
  - destruct Hw as (He & Hc' & Hok & Hroom). destruct (edit_ids _ _ _ _ _ _ _ He (wr_dir _ Hroot) Hok) as [Hle Hperm].
    assert (Hseq : NoDup (ids (root_builder b) ++ seqZ (counter b) (c' - counter b))).
    { apply NoDup_app. split; [apply Hroot|]. split; [|apply NoDup_seqZ]. intros x Hx Hx'%elem_of_seqZ. rewrite Forall_forall in Hids. specialize (Hids x Hx). simpl in Hids. lia. }
    split; [split; [split|]|]; cbn [root_builder counter].
    + by eapply edit_wf; [exact He|apply Hroot|].
    + by rewrite Hperm.
    + rewrite Hperm. apply Forall_app. split; [eapply Forall_impl; [exact Hids|]; simpl; lia|]. apply Forall_forall. intros x Hx%elem_of_seqZ.
      destruct (root_builder b). rewrite ids_nodes, Forall_cons in Hids. simpl in Hids. lia.
    + split; [done|]. split; [cbn [length] in Hc'; lia|]. split; [intros e; by eapply edit_not_refused|].
      split; [intros q; by eapply edit_leaves|intros q; by eapply edit_dirs].
  - destruct Hw as (-> & -> & He). split; [done|]. split; [done|]. split; [simpl; lia|]. done.
Qed.

(** The change itself. *)
Lemma call_edits b text target f b' u :
  modifies text target f → builder_ok b → counter b + Z.of_nat (length text) < 2 ^ 64 - 1 → modify_with b text f = (Ok u, b') →
  edit target (counter b) (counter b') (root_builder b) (segments text) (root_builder b').
Proof.
  intros Hf [Hroot Hids] Hc. unfold modify_with. cbn [root_builder counter b_opts].
  destruct (ends_with_slash text) eqn:Hends; [done|]. destruct (contains_slashes text) eqn:Hslashes; [done|].
  destruct (split_nonempty text Hends Hslashes) as [Hne Hlen]. pose proof (segments_slash text) as Hslash. unfold segments in *.
  destruct (split_slash text) as [first others]. cbn [snd] in *.
  pose proof (walk_spec text target (wrap_with_directory (b_opts b)) f others 0 first (root_builder b) (counter b) Hf Hslash Hne ltac:(done)
    (wr_dir _ Hroot) Hids ltac:(lia)) as Hw.
  destruct (modify_walk _ _ _ _ _ _ _ _) as [[[v|e|] root] c']; [|done|done]. intros [= _ <-]. by destruct Hw.
Qed.

(** ** Any sequence of calls *)

Inductive BuilderCall := PutLink (text : Bytes) (target : Cid) (total_size : Z) | SetMetadata (text : Bytes) (m : Metadata).

Definition call_text (c : BuilderCall) : Bytes := match c with PutLink text _ _ | SetMetadata text _ => text end.

Definition call_target (c : BuilderCall) : option Leaf := match c with PutLink _ target size => Some (mkLeaf target size) | SetMetadata _ _ => None end.

Definition call (b : BufferingTreeBuilder) (c : BuilderCall) : outcome TreeBuildingFailed unit * BufferingTreeBuilder :=
  match c with
  | PutLink text target size => put_link b text target size
  | SetMetadata text m => set_metadata b text m
  end.

(** The builder after some calls, whatever they returned. *)
Definition after_calls (opts : TreeOptions) (calls : list BuilderCall) : BufferingTreeBuilder := foldl (λ b c, (call b c).2) (builder_new opts) calls.

(** Fewer path bytes than the counter of directories has values. *)
Definition calls_fit (calls : list BuilderCall) : Prop := sum_sizes calls (λ c, Z.of_nat (length (call_text c)) + 1) < 2 ^ 64 - 2.

Lemma call_does_it b c : builder_ok b → counter b + Z.of_nat (length (call_text c)) < 2 ^ 64 - 1 → call_does b (call_text c) (call_target c) (call b c).
Proof. intros Hb Hc. destruct c; (apply call_spec; [apply put_link_modifies || apply set_metadata_modifies|done|exact Hc]). Qed.

Lemma sum_sizes_app {A} (l l' : list A) f : sum_sizes (l ++ l') f = sum_sizes l f + sum_sizes l' f.
Proof. induction l as [|x l IH]; simpl; [done|]. unfold sum_sizes in *. simpl. rewrite IH. lia. Qed.

Lemma sum_sizes_nonneg {A} (l : list A) f : (∀ x, 0 <= f x) → 0 <= sum_sizes l f.
Proof. intros Hf. induction l as [|x l IH]; simpl; [lia|]. specialize (Hf x). unfold sum_sizes in *. lia. Qed.

Lemma calls_fit_app l l' : calls_fit (l ++ l') → calls_fit l.
Proof. unfold calls_fit. rewrite sum_sizes_app. intros Hl. pose proof (sum_sizes_nonneg l' (λ c, Z.of_nat (length (call_text c)) + 1) ltac:(intros ?; cbn beta; lia)). lia. Qed.

Lemma after_calls_snoc opts calls c : after_calls opts (calls ++ [c]) = (call (after_calls opts calls) c).2.
Proof. unfold after_calls. by rewrite foldl_app. Qed.

Lemma after_calls_ok opts calls : calls_fit calls →
  builder_ok (after_calls opts calls) ∧ b_opts (after_calls opts calls) = opts ∧
  counter (after_calls opts calls) <= 1 + sum_sizes calls (λ c, Z.of_nat (length (call_text c)) + 1).
Proof.
  induction calls as [|c calls IH] using rev_ind; intros Hfit; [split; [apply builder_new_ok|by split]|].
  destruct (IH (calls_fit_app _ _ Hfit)) as (Hok & Ho & Hc). rewrite after_calls_snoc. unfold calls_fit in Hfit. rewrite sum_sizes_app in *. simpl in Hfit.
  pose proof (call_does_it _ c Hok ltac:(lia)) as Hd. destruct (call (after_calls opts calls) c) as [res b']. destruct Hd as (Hb' & Ho' & Hc' & _). simpl.
  split; [done|]. split; [congruence|]. lia.
Qed.

(** The builder implements a map from paths to links: after any calls, [put_link] either is refused, for
    a reason that the tree gives, and leaves the tree and the counter of ids as they were (no stale
    directories, which a comment at the end of [modify_with] is unsure of), or has no reason against it, and adds the leaf
    under its path and the directories above it, nothing else; it never panics. *)
Theorem put_link_refines opts calls text target size :
  calls_fit (calls ++ [PutLink text target size]) →
  call_does (after_calls opts calls) text (Some (mkLeaf target size)) (put_link (after_calls opts calls) text target size).
Proof.
  intros Hfit. destruct (after_calls_ok opts calls (calls_fit_app _ _ Hfit)) as (Hok & _ & Hc).
  apply (call_does_it _ (PutLink text target size) Hok). unfold calls_fit in Hfit. rewrite sum_sizes_app in Hfit. simpl in *. lia.
Qed.

(** A put leaf stays. *)
Lemma leaf_persists opts calls more q l : calls_fit (calls ++ more) →
  leaf_at (root_builder (after_calls opts calls)) q = Some l → leaf_at (root_builder (after_calls opts (calls ++ more))) q = Some l.
Proof.
  induction more as [|c more IH] using rev_ind; intros Hfit Hl; [by rewrite app_nil_r|]. rewrite app_assoc in *. specialize (IH (calls_fit_app _ _ Hfit) Hl).
  destruct (after_calls_ok opts _ (calls_fit_app _ _ Hfit)) as (Hok & _ & Hc). rewrite after_calls_snoc.
  unfold calls_fit in Hfit. rewrite sum_sizes_app in Hfit. simpl in Hfit. pose proof (call_does_it _ c Hok ltac:(lia)) as Hd.
  destruct (call _ c) as [[u|e|] b']; destruct Hd as (_ & _ & _ & Hd); simpl; [|by destruct Hd as (_ & -> & _)|done].
  destruct Hd as (Hno & Hleaf & _). rewrite Hleaf. destruct (call_target c) as [l'|] eqn:Ht; [|done]. case_bool_decide as Hq; [|done].
  exfalso. subst q. unfold leaf_at in IH. destruct (entry_at _ _) as [[l0|]|] eqn:He; try done.
  specialize (Hno (match ends_with_slash (call_text c) with true => PathEndsInSlash (call_text c) | _ => match contains_slashes (call_text c) with true => RepeatSlashesInPath (call_text c) | _ => DuplicatePath (call_text c) end end)).
  apply Hno. unfold call_refused. destruct (ends_with_slash _); [done|]. destruct (contains_slashes _); [done|]. simpl. split; [done|]. split; [by eexists|]. by exists (ELeaf l0).
Qed.

(** Everything in the tree comes from the calls. *)
Lemma entries_from_calls opts calls q : calls_fit calls →
  (∀ l, leaf_at (root_builder (after_calls opts calls)) q = Some l → ∃ c, c ∈ calls ∧ call_target c = Some l ∧ q = segments (call_text c)) ∧
  (is_dir (root_builder (after_calls opts calls)) q = true → q = [] ∨ ∃ c, c ∈ calls ∧ q `prefix_of` segments (call_text c)).
Proof.
  induction calls as [|c calls IH] using rev_ind; intros Hfit.
  { change (root_builder (after_calls opts [])) with (mkDir [] no_metadata None 0). destruct (at_empty no_metadata None 0 q) as [-> ->]. split; [done|].
    intros Hq%bool_decide_eq_true. by left. }
  destruct (IH (calls_fit_app _ _ Hfit)) as [IHl IHd]. destruct (after_calls_ok opts _ (calls_fit_app _ _ Hfit)) as (Hok & _ & Hc). rewrite after_calls_snoc.
  unfold calls_fit in Hfit. rewrite sum_sizes_app in Hfit. simpl in Hfit. pose proof (call_does_it _ c Hok ltac:(lia)) as Hd.
  assert (Hin : ∀ x, x ∈ calls → x ∈ calls ++ [c]) by set_solver. assert (Hcin : c ∈ calls ++ [c]) by set_solver.
  destruct (call _ c) as [[u|e|] b']; destruct Hd as (_ & _ & _ & Hd); simpl; [| |done].
  - destruct Hd as (_ & Hleaf & Hdirs). split.
    + intros l. rewrite Hleaf. destruct (call_target c) as [l'|] eqn:Ht; [case_bool_decide as Hq; [intros [= <-]; by eauto|]|]; intros (x & Hx & Hl & Hseg)%IHl; eauto.
    + rewrite Hdirs. intros [[->|(x & Hx & Hp)]%IHd|[Hp _]]; [by left|right; eauto|right; eauto].
  - destruct Hd as (_ & -> & _). split; [intros l (x & Hx & Hl & Hseg)%IHl; eauto|intros [->|(x & Hx & Hp)]%IHd; [by left|right; eauto]].
Qed.

End Paths.
