(* ===== verification/DirBuilderStore.v ===== *)
(** The trees that the directory builder makes, once their blocks are stored: the writer of directory
    blocks agrees with the general one, every path of the builder resolves to its link, and a file that
    was linked is read through the path it was put under. *)

From S2P Require Import Prelude Runtime Utf8 IpfsPath UnixfsPb FileAdder FileAdderProps FileVisit FileVisitProps UnixfsDir Repo RepoProps Dag Refs Unixfs UnixfsProps DagProps DirBuilder DirBuilderProps DirBuilderPaths.

(** A CID over the hash of some bytes, with a codec that is a 64-bit number; version 0 is for dag-pb only. *)
Definition cid_proper `{ContentHash} (c : Cid) : Prop :=
  (∃ b, cid_hash c = sha2_256 b) ∧ is_u64 (cid_codec c) ∧ (version c = V0 → cid_codec c = DAG_PB).

(** [Cid::to_bytes]: the bytes of the multihash for version 0; the number of the version, the codec as
    a varint and the bytes of the multihash for version 1. *)
Class CidLayout `{ContentHash} (W : Wire) :=
  cid_layout c : cid_proper c → cid_to_bytes c = match version c with V0 => cid_hash c | V1 => 1 :: put_varint (cid_codec c) ++ cid_hash c end.

Section Store.
Context {W : Wire} {WL : WireLaws W} {R : RustIpfs} {C : ContentHash} {CL : ContentHashLaws C} {L : CidLayout W}.

(** ** Links *)

Definition link_of (l : NamedLeaf) : PBLink := mkPBLink (Some (cid_to_bytes (nl_cid l))) (Some (nl_name l)) (Some (nl_size l)).

Lemma writeable_cid_bytes c : cid_proper c → write_writeable_cid c = cid_to_bytes c.
Proof. intros Hc. rewrite cid_layout by done. unfold write_writeable_cid. by destruct (version c). Qed.

Lemma named_leaf_bytes l : cid_proper (nl_cid l) → write_named_leaf l = write_pblink (link_of l) ∧ named_leaf_size l = pblink_size (link_of l).
Proof.
  intros Hc. assert (Hw : write_named_leaf l = write_pblink (link_of l)).
  { unfold write_named_leaf, write_pblink. simpl. by rewrite <- writeable_cid_size_ok, writeable_cid_bytes. }
  split; [done|]. by rewrite <- named_leaf_size_ok, Hw, pblink_size_ok.
Qed.

(** The writer of the directory builder, which copies CIDs and names into the buffer without making
    a message, writes the bytes that the writer of [FlatUnixFs] would write for the same links,
    and announces their number. *)
Theorem custom_writes_flat links :
  Forall (λ l, cid_proper (nl_cid l)) links →
  write_custom links directory_data = write_flat (dir_message (map link_of links)) ∧
  custom_size links directory_data = flat_size (dir_message (map link_of links)).
Proof.
  intros Hl. assert (Hw : write_custom links directory_data = write_flat (dir_message (map link_of links))).
  { unfold write_custom, write_flat. simpl. f_equal. induction Hl as [|l links Hl _ IH]; [done|]. simpl. rewrite IH. by destruct (named_leaf_bytes l Hl) as [-> ->]. }
  split; [done|]. by rewrite <- custom_size_ok, Hw, flat_size_ok.
Qed.

(** ** What the reference renders *)

Definition name_fits (k : Bytes) : Prop := Z.of_nat (length k) <= 2 ^ 31 ∧ from_utf8 k = true.

Definition leaf_fits (l : Leaf) : Prop := cid_proper (leaf_link l) ∧ is_u64 (leaf_total_size l).

(** The names and the leaves of a tree can be written. *)
Definition tree_fits (d : DirBuilder) : Prop :=
  (∀ q l, leaf_at d q = Some l → leaf_fits l) ∧ (∀ q k e, entry_at (EDirectory d) (q ++ [k]) = Some e → name_fits k).

Lemma tree_fits_child d k d1 : tree_fits d → bt_get k (dir_nodes d) = Some (EDirectory d1) → tree_fits d1.
Proof.
  intros [Hl Hn] Hk. split.
  - intros q l Hq. apply (Hl (k :: q)). by rewrite (proj1 (leaf_at_down _ _ _ _ Hk)).
  - intros q k' e Hq. apply (Hn (k :: q) k' e). simpl in *. by rewrite Hk.
Qed.

(** An entry and the link that is written for it, when the nodes [out] are all those below. *)
Definition entry_link (limit : option Z) (path : list Bytes) (out : list OwnedTreeNode) (ke : Bytes * Entry) (l : NamedLeaf) : Prop :=
  match ke.2 with
  | ELeaf lf => l = named_as ke.1 lf
  | EDirectory d => ∃ more lf, render limit (path ++ [ke.1]) d = (more, Ok lf) ∧ (∀ x, x ∈ more → x ∈ out) ∧ l = named_as ke.1 lf
  end.

Lemma render_below_links limit path nodes out links :
  render_below limit path nodes = (out, Ok links) → Forall2 (entry_link limit path out) nodes links.
Proof.
  revert out links. induction nodes as [|[k e] nodes IH]; intros out links; [intros [= <- <-]; constructor|].
  change (render_below limit path ((k, e) :: nodes)) with (render_entry (render limit) path (k, e) (render_below limit path nodes)).
  destruct (render_below limit path nodes) as [out0 [links0|e0|]]; [|done|done]. specialize (IH _ _ eq_refl). unfold render_entry. cbn [fst snd]. destruct e as [l|d].
  - intros [= <- <-]. by constructor.
  - destruct (render limit (path ++ [k]) d) as [more [lf|e0|]] eqn:Hr; [|done|done]. intros [= <- <-]. constructor.
    + exists more, lf. split; [done|]. split; [set_solver|done].
    + eapply Forall2_impl; [exact IH|]. intros [k' [l'|d']] nl; [done|]. intros (m & lf' & H1 & H2 & H3). exists m, lf'. split; [done|]. split; [set_solver|done].
Qed.

(** The node of a directory is the last one of its rendering. *)
Lemma render_ok limit path nodes m p i out leaf :
  render limit path (mkDir nodes m p i) = (out, Ok leaf) →
  ∃ links out0, Forall2 (entry_link limit path out) nodes links ∧ render_below limit path nodes = (out0, Ok links) ∧
    render_block limit links = Ok (leaf, write_custom links directory_data) ∧
    out = out0 ++ [mkNode (slashed_to_string path) (leaf_link leaf) (leaf_total_size leaf) (write_custom links directory_data)].
Proof.
  change (render limit path (mkDir nodes m p i)) with (render_node limit path (render_below limit path nodes)).
  destruct (render_below limit path nodes) as [out0 [links|e0|]] eqn:Hb; [|done|done]. cbn [render_node].
  destruct (render_block limit links) as [[lf block]|e0|] eqn:Hr; [|done|done]. intros [= <- <-]. exists links, out0.
  assert (block = write_custom links directory_data) as ->.
  { unfold render_block in Hr. destruct (too_large _ _); [done|]. destruct (cid_new_v0 _); [|done]. by injection Hr. }
  split; [|done]. apply render_below_links in Hb. eapply Forall2_impl; [exact Hb|].
  intros [k' [l'|d']] nl; [done|]. intros (mo & lf' & H1 & H2 & H3). exists mo, lf'. split; [done|]. split; [set_solver|done].
Qed.

Lemma render_block_leaf limit links leaf block : render_block limit links = Ok (leaf, block) →
  block = write_custom links directory_data ∧ leaf_fits leaf ∧ addressed (leaf_link leaf, block).
Proof.
  unfold render_block. set (b := write_custom links directory_data). destruct (too_large _ _); [done|].
  destruct (cid_v0_ok b) as (c & Hc & Hh & Hcodec & Hv). rewrite Hc. intros [= <- <-]. split; [done|]. split; [|done].
  split; simpl; [split; [eauto|rewrite Hcodec; split; [unfold is_u, umax; lia|done]]|]. unfold is_u, umax, wrapping_add. pose proof (Z.mod_pos_bound (Z.of_nat (length b) + combined_sizes links) (2 ^ 64)). lia.
Qed.

Lemma render_leaf_fits limit path d out leaf : render limit path d = (out, Ok leaf) → leaf_fits leaf.
Proof. destruct d. intros (links & _ & _ & _ & Hr & _)%render_ok. by apply render_block_leaf in Hr as (_ & ? & _). Qed.

Lemma render_addressed_nodes limit d : ∀ path out res, render limit path d = (out, res) → Forall (λ x, addressed (node_cid x, node_block x)) out.
Proof.
  induction d as [nodes m p i IH] using dir_ind. intros path out res.
  assert (Hb : Forall (λ x, addressed (node_cid x, node_block x)) (render_below limit path nodes).1).
  { clear out res. induction IH as [|[k e] nodes Hd _ IHn]; [constructor|].
    change (render_below limit path ((k, e) :: nodes)) with (render_entry (render limit) path (k, e) (render_below limit path nodes)).
    destruct (render_below limit path nodes) as [out0 [links0|e0|]]; simpl in *; [|done|done]. destruct e as [l|d]; [done|].
    destruct (render limit (path ++ [k]) d) as [more r] eqn:Hr. simpl. apply Forall_app. split; [done|by eapply Hd]. }
  change (render limit path (mkDir nodes m p i)) with (render_node limit path (render_below limit path nodes)).
  destruct (render_below limit path nodes) as [out0 [links|e0|]]; simpl in *; [|by intros [= <- _]..].
  destruct (render_block limit links) as [[leaf block]|e0|] eqn:Hr; intros [= <- _]; [|done|done]. apply Forall_app. split; [done|]. constructor; [|constructor].
  by apply render_block_leaf in Hr as (_ & _ & ?).
Qed.

(** ** A directory that is stored *)

Lemma link_of_ok l : leaf_fits (mkLeaf (nl_cid l) (nl_size l)) → name_fits (nl_name l) → link_ok (link_of l).
Proof.
  intros [_ Hs] [Hn Hu]. simpl in *. pose proof (cid_bytes_short (nl_cid l)). split; simpl.
  - intros x [= <-]. unfold short, u32_max, umax. lia.
  - intros x [= <-]. split; [unfold short, u32_max, umax; lia|done].
  - intros x [= <-]. done.
  - unfold pblink_size, len_size, varint_size, sizeof_len. simpl.
    pose proof (sizeof_varint_max (Z.of_nat (length (cid_to_bytes (nl_cid l)))) ltac:(unfold is_u, umax; lia)).
    pose proof (sizeof_varint_max (Z.of_nat (length (nl_name l))) ltac:(unfold is_u, umax; lia)). pose proof (sizeof_varint_max _ Hs). unfold u32_max, umax. lia.
Qed.

Lemma entry_link_name limit path out ke l : entry_link limit path out ke l → nl_name l = ke.1.
Proof. destruct ke as [k [lf|d]]; [by intros ->|]. by intros (? & ? & _ & _ & ->). Qed.

Lemma links_fit limit path out nodes m p i links :
  bt_sorted nodes → tree_fits (mkDir nodes m p i) → Forall2 (entry_link limit path out) nodes links →
  Forall (λ l, leaf_fits (mkLeaf (nl_cid l) (nl_size l)) ∧ name_fits (nl_name l)) links.
Proof.
  intros Hs [Hl Hn] Hlinks. apply Forall_forall. intros l [j Hj]%list_elem_of_lookup. destruct (Forall2_lookup_r _ _ _ _ _ Hlinks Hj) as ([k e] & Hk & He).
  apply list_elem_of_lookup_2, (bt_get_elem k e) in Hk; [|done]. split.
  - destruct e as [lf|d]; [rewrite He|destruct He as (more & lf & Hr & _ & ->); apply render_leaf_fits in Hr; by destruct lf].
    simpl. apply (Hl [k]). unfold leaf_at. simpl. rewrite Hk. by destruct lf.
  - rewrite (entry_link_name _ _ _ _ _ He). apply (Hn [] k e). simpl. by rewrite Hk.
Qed.

Lemma sorted_ne (pre post : list (Bytes * Entry)) k e : bt_sorted (pre ++ (k, e) :: post) → Forall (λ ke, ke.1 ≠ k) (pre ++ post).
Proof.
  intros Hs. apply Forall_app. split.
  - apply Forall_forall. intros [k' e'] Hin. simpl. intros ->. apply list_elem_of_split in Hin as (a & b & ->). clear -Hs.
    induction a as [|x a IH]; simpl in Hs; [|by inversion Hs; auto]. apply StronglySorted_inv in Hs as [_ Hf]. rewrite Forall_forall in Hf.
    specialize (Hf (k, e) ltac:(set_solver)). simpl in Hf. by rewrite str_cmp_refl in Hf.
  - induction pre as [|x pre IH]; simpl in Hs; [|by apply StronglySorted_inv in Hs as [? _]; auto]. apply StronglySorted_inv in Hs as [_ Hf].
    eapply Forall_impl; [exact Hf|]. intros [k' e'] Hlt. simpl in *. intros ->. by rewrite str_cmp_refl in Hlt.
Qed.

(** An entry of the directory is the only link of its name. *)
Lemma link_named limit path out nodes links k e :
  bt_sorted nodes → Forall2 (entry_link limit path out) nodes links → bt_get k nodes = Some e →
  ∃ l, entry_link limit path out (k, e) l ∧ named (map link_of links) k (nl_cid l).
Proof.
  intros Hs Hlinks Hk. apply bt_get_elem in Hk; [|done]. apply list_elem_of_split in Hk as (pre & post & ->). pose proof (sorted_ne _ _ _ _ Hs) as Hne.
  apply Forall2_app_inv_l in Hlinks as (lpre & rest & Hpre & Hrest & ->). apply Forall2_cons_inv_l in Hrest as (l & lpost & Hl & Hpost & ->).
  exists l. split; [done|]. exists (map link_of lpre), (link_of l), (map link_of lpost). split; [by rewrite map_app|]. split; [by apply entry_link_name in Hl|].
  split; [apply cid_bytes_parse|]. rewrite <- map_app. apply Forall_map. apply Forall_app in Hne as [Hne1 Hne2].
  apply Forall_app. split; [clear -Hne1 Hpre|clear -Hne2 Hpost].
  - induction Hpre as [|ke nl pre lpre He _ IH]; [constructor|]. apply Forall_cons in Hne1 as [Hk Hne1]. constructor; [|auto]. simpl. by rewrite (entry_link_name _ _ _ _ _ He).
  - induction Hpost as [|ke nl post lpost He _ IH]; [constructor|]. apply Forall_cons in Hne2 as [Hk Hne2]. constructor; [|auto]. simpl. by rewrite (entry_link_name _ _ _ _ _ He).
Qed.

Context {S : Type} {B : BlockStore S} {BL : BlockStoreLaws S B} `{!EqDecision IpfsPath}.

Lemma dir_message_ok links : Forall (λ l, leaf_fits (mkLeaf (nl_cid l) (nl_size l)) ∧ name_fits (nl_name l)) links → flat_ok (dir_message (map link_of links)).
Proof.
  intros Hl. split; simpl; [apply Forall_map; eapply Forall_impl; [exact Hl|]; intros l [? ?]; by apply link_of_ok|].
  split; simpl; try (by intros ? [=]); [constructor|]. unfold unixfs_size. simpl. pose proof (sizeof_varint_max 1 ltac:(unfold is_u, umax; lia)). unfold u32_max, umax. lia.
Qed.

(** The step from a stored directory to one of its entries. *)
Lemma dir_step (r : Repo S) limit path out nodes m p i links c k e segs target :
  bt_sorted nodes → tree_fits (mkDir nodes m p i) → Forall2 (entry_link limit path out) nodes links → held r c (write_custom links directory_data) →
  bt_get k nodes = Some e → (∀ l, entry_link limit path out (k, e) l → dir_path r (nl_cid l) segs target) → dir_path r c (k :: segs) target.
Proof.
  intros Hs Hfit Hlinks Hheld Hk Hnext. pose proof (links_fit _ _ _ _ _ _ _ _ Hs Hfit Hlinks) as Hl.
  destruct (link_named _ _ _ _ _ _ _ Hs Hlinks Hk) as (l & He & Hn). destruct (custom_writes_flat links) as [Hw _].
  { eapply Forall_impl; [exact Hl|]. by intros x [[? _] _]. }
  rewrite Hw in Hheld. eapply dir_down; [exact Hheld|by apply plain_links_written, dir_message_ok|exact Hn|auto].
Qed.

Lemma rendered_paths (r : Repo S) limit d : ∀ top path out leaf q l,
  render limit path d = (out, Ok leaf) → wf_dir top d → tree_fits d → (∀ x, x ∈ out → held r (node_cid x) (node_block x)) →
  leaf_at d q = Some l → dir_path r (leaf_link leaf) q (leaf_link l).
Proof.
  induction d as [nodes m p i IH] using dir_ind. intros top path out leaf q l Hr Hwf Hfit Hheld Hq. destruct q as [|k q]; [done|].
  apply render_ok in Hr as (links & out0 & Hlinks & _ & _ & Hout). pose proof (proj1 (proj1 (wf_dir_unfold _ _ _ _ _) Hwf)) as Hs.
  assert (Hd : held r (leaf_link leaf) (write_custom links directory_data)).
  { apply (Hheld (mkNode (slashed_to_string path) (leaf_link leaf) (leaf_total_size leaf) (write_custom links directory_data))). subst out. set_solver. }
  unfold leaf_at in Hq. cbn [entry_at dir_nodes] in Hq. destruct (bt_get k nodes) as [e|] eqn:Hk; [|done]. simpl in Hq.
  eapply (dir_step r limit path out nodes m p i); try done. intros nl He. destruct e as [lf|d1].
  - rewrite He. destruct q; [|done]. injection Hq as <-. apply dir_here.
  - destruct He as (more & lf & Hmore & Hsub & ->). unfold in_dirs in IH. rewrite Forall_forall in IH. specialize (IH (k, EDirectory d1) (proj1 (bt_get_elem _ _ _ Hs) Hk)).
    simpl in IH. eapply IH; [exact Hmore|by apply (wf_child top (mkDir nodes m p i) k)|by apply (tree_fits_child (mkDir nodes m p i) k)|auto|done].
Qed.

(** Every directory has its node. *)
Lemma rendered_dirs (r : Repo S) limit d : ∀ top path out leaf q,
  render limit path d = (out, Ok leaf) → wf_dir top d → tree_fits d → (∀ x, x ∈ out → held r (node_cid x) (node_block x)) →
  is_dir d q = true →
  ∃ x, x ∈ out ∧ node_path x = slashed_to_string (path ++ q) ∧ (q = [] → last out = Some x) ∧
    ∀ segs l, leaf_at d (q ++ segs) = Some l → dir_path r (node_cid x) segs (leaf_link l).
Proof.
  induction d as [nodes m p i IH] using dir_ind. intros top path out leaf q Hr Hwf Hfit Hheld Hq.
  pose proof (rendered_paths r limit (mkDir nodes m p i) top path out leaf) as Hp. pose proof Hr as Hok.
  apply render_ok in Hok as (links & out0 & Hlinks & _ & _ & Hout). destruct q as [|k q].
  - eexists. split; [rewrite Hout; apply elem_of_app; right; by apply list_elem_of_singleton|]. split; [simpl; by rewrite app_nil_r|].
    split; [intros _; by rewrite Hout, last_snoc|]. intros segs l Hl. by apply Hp.
  - pose proof (proj1 (proj1 (wf_dir_unfold _ _ _ _ _) Hwf)) as Hs. unfold is_dir in Hq. cbn [entry_at dir_nodes] in Hq.
    destruct (bt_get k nodes) as [[lf|d1]|] eqn:Hk; [by destruct q| |done]. simpl in Hq.
    destruct (link_named _ _ _ _ _ _ _ Hs Hlinks Hk) as (nl & (more & lf & Hmore & Hsub & ->) & _).
    unfold in_dirs in IH. rewrite Forall_forall in IH. specialize (IH (k, EDirectory d1) (proj1 (bt_get_elem _ _ _ Hs) Hk)). simpl in IH, Hmore, Hsub.
    destruct (IH false (path ++ [k]) more lf q Hmore) as (x & Hx & Hxp & _ & Hpaths);
      [by apply (wf_child top (mkDir nodes m p i) k)|by apply (tree_fits_child (mkDir nodes m p i) k)|auto|done|].
    exists x. split; [auto|]. split; [by rewrite Hxp, <- app_assoc|]. split; [done|]. intros segs l Hl. apply Hpaths.
    by rewrite <- (proj1 (leaf_at_down (mkDir nodes m p i) k d1 _ Hk)).
Qed.

(** ** Names that come from texts *)

Lemma split_cut text :
  match split_slash text with
  | (first, []) => first = text
  | (first, next :: others) => ∃ rest, text = first ++ slash :: rest ∧ split_slash rest = (next, others)
  end.
Proof.
  induction text as [|x text IH]; [done|]. simpl. destruct (split_slash text) as [first others] eqn:Hs. destruct (Z.eqb_spec x slash) as [->|Hx].
  - exists text. done.
  - destruct others as [|next others]; [by subst|]. destruct IH as (rest & -> & Hr). by exists rest.
Qed.

Lemma segments_fit text k : from_utf8 text = true → k ∈ segments text → from_utf8 k = true ∧ (length k <= length text)%nat.
Proof.
  unfold segments. induction text as [text IH] using (induction_ltof1 _ (@length Z)). unfold ltof in IH. intros Hu. pose proof (split_cut text) as Hcut.
  destruct (split_slash text) as [first [|next others]]; [subst; intros ->%list_elem_of_singleton; done|]. destruct Hcut as (rest & -> & Hr).
  apply from_utf8_cut in Hu as [Hf Hrest]; [|done]. rewrite length_app. intros [->|Hk]%elem_of_cons; [split; [done|lia]|].
  destruct (IH rest) as [Hk1 Hk2]; [rewrite length_app; simpl; lia|done|by rewrite Hr|]. split; [done|]. simpl. lia.
Qed.

(** The arguments of a call: a string of at most 2^31 bytes, a CID and a 64-bit size. *)
Definition call_fits (c : BuilderCall) : Prop :=
  from_utf8 (call_text c) = true ∧ Z.of_nat (length (call_text c)) <= 2 ^ 31 ∧ (∀ l, call_target c = Some l → leaf_fits l).

Lemma after_calls_fits opts calls : calls_fit calls → Forall call_fits calls → tree_fits (root_builder (after_calls opts calls)).
Proof.
  intros Hfit Hc. rewrite Forall_forall in Hc. split.
  - intros q l Hl. destruct (entries_from_calls opts calls q Hfit) as [He _]. destruct (He l Hl) as (c & Hin & Ht & _). by apply (Hc c Hin).
  - intros q k e He. destruct (entries_from_calls opts calls (q ++ [k]) Hfit) as [Hl Hd].
    assert (Hin : ∃ c, c ∈ calls ∧ k ∈ segments (call_text c)).
    { unfold leaf_at, is_dir in *. rewrite He in Hl, Hd. destruct e as [l|d].
      - destruct (Hl l eq_refl) as (c & Hin & _ & Hq). exists c. split; [done|]. rewrite <- Hq. set_solver.
      - destruct (Hd eq_refl) as [Hq|(c & Hin & (rest & Hq))]; [by destruct q|]. exists c. split; [done|]. rewrite Hq. set_solver. }
    destruct Hin as (c & Hin & Hk). destruct (Hc c Hin) as (Hu & Hlen & _). destruct (segments_fit _ _ Hu Hk). split; [lia|done].
Qed.

(** ** The whole builder *)

(** Why rendering can fail. *)
Definition only_too_large {A} (limit : option Z) (res : outcome TreeConstructionFailed A) : Prop :=
  match res with
  | Ok _ => True
  | Err e => ∃ size max, e = TooLargeBlock size ∧ limit = Some max ∧ max < size
  | Panic => False
  end.

Lemma render_node_res limit path below : only_too_large limit below.2 → only_too_large limit (render_node limit path below).2.
Proof.
  destruct below as [out [links|e|]]; simpl; [|done|done]. intros _. unfold render_block. set (b := write_custom links directory_data).
  destruct (too_large limit (Z.of_nat (length b))) eqn:Hl.
  - unfold too_large in Hl. destruct limit as [max|]; [|done]. simpl. exists (Z.of_nat (length b)), max. split; [done|]. split; [done|]. by apply Z.ltb_lt.
  - destruct (cid_v0_ok b) as (c & -> & _). done.
Qed.

Lemma render_below_res limit path nodes : in_dirs (λ _ d, ∀ path, only_too_large limit (render limit path d).2) nodes → only_too_large limit (render_below limit path nodes).2.
Proof.
  induction 1 as [|[k e] nodes Hd _ IH]; [done|].
  change (render_below limit path ((k, e) :: nodes)) with (render_entry (render limit) path (k, e) (render_below limit path nodes)).
  destruct (render_below limit path nodes) as [out [links|e0|]]; [|done|done]. destruct e as [l|d]; [done|]. simpl in *. specialize (Hd (path ++ [k])).
  destruct (render limit (path ++ [k]) d) as [more [lf|e0|]]; done.
Qed.

Lemma render_res limit d : ∀ path, only_too_large limit (render limit path d).2.
Proof. induction d as [nodes m p i IH] using dir_ind. intros path. apply render_node_res, (render_below_res limit path nodes IH). Qed.

Lemma fails_with_res {A A'} limit (res : outcome TreeConstructionFailed A) (f : A → A') : only_too_large limit res → only_too_large limit (fails_with res f).
Proof. by destruct res. Qed.

(** C34. The iterator of any builder ends, never fails an assertion, and yields exactly the nodes that the
    recursive reference renders: each directory after those below it, with its path, the CID of its block, the block and its
    cumulative size; the only failure is a block above the size limit. *)
Theorem built_tree_renders opts calls :
  calls_fit calls →
  let b := after_calls opts calls in
  collect (builder_build b) = render_all opts (root_builder b) ∧ only_too_large (block_size_limit opts) (collect (builder_build b)).2.
Proof.
  intros Hfit b. destruct (after_calls_ok opts calls Hfit) as ([Hroot _] & Ho & _). fold b in Hroot, Ho. unfold builder_build. rewrite Ho, collect_render by done. split; [done|].
  assert (Hbelow : only_too_large (block_size_limit opts) (render_below (block_size_limit opts) [] (dir_nodes (root_builder b))).2).
  { apply render_below_res. apply Forall_forall. intros [k [l|d]] _; [done|]. intros path. apply render_res. }
  unfold render_all. destruct (wrap_with_directory opts); [|by apply fails_with_res].
  pose proof (render_node_res _ [] _ Hbelow) as Hn. destruct (render_node _ _ _) as [out res]. by apply fails_with_res.
Qed.

(** The nodes of the root's directories, and of the root when it is wrapped. *)
Lemma render_all_dirs (r : Repo S) opts root nodes q :
  render_all opts root = (nodes, Ok tt) → wf_dir true root → tree_fits root → (∀ x, x ∈ nodes → held r (node_cid x) (node_block x)) →
  is_dir root q = true → q ≠ [] ∨ wrap_with_directory opts = true →
  ∃ x, x ∈ nodes ∧ node_path x = slashed_to_string q ∧ (q = [] → last nodes = Some x) ∧
    ∀ segs l, leaf_at root (q ++ segs) = Some l → dir_path r (node_cid x) segs (leaf_link l).
Proof.
  unfold render_all. intros Hall Hwf Hfit Hheld Hq Hroot. destruct root as [ns m p i]. destruct (wrap_with_directory opts).
  - change (render_node _ [] _) with (render (block_size_limit opts) [] (mkDir ns m p i)) in Hall.
    destruct (render (block_size_limit opts) [] (mkDir ns m p i)) as [out [lf|e|]] eqn:Hr; [|done|done]. injection Hall as <-.
    by apply (rendered_dirs r (block_size_limit opts) (mkDir ns m p i) true [] out lf).
  - destruct q as [|k q]; [by destruct Hroot|]. cbn [dir_nodes] in Hall. destruct (render_below (block_size_limit opts) [] ns) as [out [links|e|]] eqn:Hr; [|done|done].
    injection Hall as ->. pose proof (proj1 (proj1 (wf_dir_unfold _ _ _ _ _) Hwf)) as Hs. unfold is_dir in Hq. cbn [entry_at dir_nodes] in Hq.
    destruct (bt_get k ns) as [[lf|d1]|] eqn:Hk; [by destruct q| |done]. simpl in Hq.
    destruct (link_named _ _ _ _ _ _ _ Hs (render_below_links _ _ _ _ _ Hr) Hk) as (nl & (more & lf & Hmore & Hsub & ->) & _). simpl in Hmore, Hsub.
    destruct (rendered_dirs r (block_size_limit opts) d1 false [k] more lf q Hmore) as (x & Hx & Hxp & _ & Hpaths);
      [by apply (wf_child true (mkDir ns m p i) k)|by apply (tree_fits_child (mkDir ns m p i) k)|auto|done|].
    exists x. split; [auto|]. split; [done|]. split; [done|]. intros segs l Hl. apply Hpaths. by rewrite <- (proj1 (leaf_at_down (mkDir ns m p i) k d1 _ Hk)).
Qed.

Lemma render_all_addressed opts root : Forall (λ x, addressed (node_cid x, node_block x)) (render_all opts root).1.
Proof.
  unfold render_all. destruct root as [ns m p i]. destruct (wrap_with_directory opts).
  - change (render_node _ [] _) with (render (block_size_limit opts) [] (mkDir ns m p i)). destruct (render _ _ _) as [out res] eqn:Hr. simpl. by eapply render_addressed_nodes.
  - cbn [dir_nodes fst]. induction ns as [|[k e] ns IH]; [constructor|].
    change (render_below (block_size_limit opts) [] ((k, e) :: ns)) with (render_entry (render (block_size_limit opts)) [] (k, e) (render_below (block_size_limit opts) [] ns)).
    destruct (render_below _ [] ns) as [out [links|e0|]]; simpl in *; [|done|done]. destruct e as [l|d]; [done|].
    destruct (render _ [k] d) as [more res] eqn:Hr. simpl. apply Forall_app. split; [done|by eapply render_addressed_nodes].
Qed.

(** C33. From files to a tree of directories and back: when the blocks that the builder yields are put
    into a working store of dag-pb blocks that holds the linked files (whose CIDs, sizes and names fit the format), then from the node of each directory ([cat] of its CID and the rest of the
    path) each file is read that was put under that directory, in full or in a range.  The root of a
    wrapped tree is the last node. *)
Theorem built_tree_serves_files o (r : Repo S) opts calls nodes :
  working (S := S) (swarm o) → sound r → calls_fit calls → Forall call_fits calls →
  let b := after_calls opts calls in
  collect (builder_build b) = (nodes, Ok tt) →
  ∃ root r', put_emitted (swarm o) r (map (λ x, (node_cid x, node_block x)) nodes) None = (Some root, r') ∧ sound r' ∧ grows r r' ∧
    ∀ q, is_dir (root_builder b) q = true → q ≠ [] ∨ wrap_with_directory opts = true →
      ∃ x, x ∈ nodes ∧ node_path x = slashed_to_string q ∧ (q = [] → root = Some (node_cid x)) ∧
        ∀ segs l d data range, leaf_at (root_builder b) (q ++ segs) = Some l → file_tree d (held r) (leaf_link l) data → Z.of_nat (length data) < 2 ^ 64 →
          ∃ n items, mjoin items = part range 0 data ∧ Forall (λ b, b ≠ []) items ∧
            ∀ fuel, (n <= fuel)%nat → cat fuel o r' (FromPath (mkPath (Ipld (node_cid x)) segs)) range = (Ok (map inl items, Ok tt), r').
Proof.
  intros Hw Hs Hfit Hc b Hcol. destruct (after_calls_ok opts calls Hfit) as ([Hroot _] & Ho & _). unfold builder_build in Hcol. fold b in Hroot, Ho.
  rewrite Ho, collect_render in Hcol by done. pose proof (render_all_addressed opts (root_builder b)) as Ha. rewrite Hcol in Ha. cbn [fst] in Ha.
  destruct (put_emitted_held (swarm o) Hw r (map (λ x, (node_cid x, node_block x)) nodes) None Hs) as (r' & Hput & Hs' & Hg & Hheld & _); [by apply Forall_map|].
  eexists _, r'. split; [exact Hput|]. split; [done|]. split; [done|]. intros q Hq Hwrap. rewrite Forall_map, Forall_forall in Hheld.
  destruct (render_all_dirs r' opts (root_builder b) nodes q Hcol (wr_dir _ Hroot) (after_calls_fits opts calls Hfit Hc) Hheld Hq Hwrap) as (x & Hx & Hxp & Hlast & Hpaths).
  exists x. split; [done|]. split; [done|]. split; [intros Hq'; apply last_Some in Hlast as [l' ->]; [|done]; rewrite map_app; cbn [map]; by rewrite last_snoc|].
  intros segs l d data range Hl Ht Hlt. specialize (Hpaths segs l Hl). apply (file_tree_mono _ (held r')) in Ht; [|done].
  destruct (file_tree_held _ _ _ _ Ht) as [b0 Hb0]. destruct (starting_block_dirs o r' (node_cid x) segs (leaf_link l) b0 Hw Hs' Hpaths Hb0) as [k Hk].
  by apply (cat_from (swarm o) Hw o r' (leaf_link l) d data range _ k).
Qed.

(** ** Metadata *)

Lemma render_below_insert limit path nodes k d1 d2 :
  bt_sorted nodes → bt_get k nodes = Some (EDirectory d1) → (∀ path, render limit path d2 = render limit path d1) →
  render_below limit path (bt_insert k (EDirectory d2) nodes) = render_below limit path nodes.
Proof.
  intros Hs Hk Hd. induction Hs as [|[x w] nodes Hs IH Hx]; [done|]. simpl in Hk. destruct (bool_decide_reflect (x = k)) as [->|Hne].
  - injection Hk as ->. simpl. rewrite str_cmp_refl. unfold render_below. cbn [foldr]. unfold render_entry. cbn [fst snd]. by rewrite Hd.
  - simpl. destruct (str_cmp k x) eqn:Hc.
    + by apply str_cmp_eq in Hc as ->.
    + apply bt_get_elem in Hk; [|done]. rewrite Forall_forall in Hx. specialize (Hx _ Hk). simpl in Hx. by rewrite str_cmp_antisym, Hc in Hx.
    + unfold render_below in *. cbn [foldr]. by rewrite IH.
Qed.

Lemma edit_renders limit c c' d segs d' : edit None c c' d segs d' → ∀ top, wf_dir top d → is_dir d segs = true →
  ∀ path, render_below limit path (dir_nodes d') = render_below limit path (dir_nodes d).
Proof.
  induction 1 as [c d k l|c d k m _ Hk|c d k d1 m _ Hk|c c' d k d1 segs d2 Hs Hk He IH|c c' d k segs d2 Hs Hk He IH]; intros top Hwf Hdir path; [done|..].
  - by rewrite (proj2 (at_absent _ _ _ Hk)) in Hdir.
  - destruct d as [nodes m0 p0 i0]. apply (render_below_insert _ _ _ _ d1); [by apply wf_dir_unfold in Hwf as [? _]|done|]. intros path'. by destruct d1.
  - destruct (wf_child _ _ _ _ Hwf Hk) as (_ & _ & Hd1). rewrite (proj2 (leaf_at_down _ _ _ _ Hk)) in Hdir. specialize (IH false Hd1 Hdir).
    destruct d as [nodes m0 p0 i0]. apply (render_below_insert _ _ _ _ d1); [by apply wf_dir_unfold in Hwf as [? _]|done|]. intros path'.
    destruct d1 as [n1 m1 p1 i1], d2 as [n2 m2 p2 i2]. simpl in IH. specialize (IH path'). unfold render_below in IH. simpl. by rewrite IH.
  - by rewrite (proj2 (at_absent _ _ _ Hk)) in Hdir.
Qed.

(** Metadata is not written: setting that of a directory of the tree changes nothing of what the
    iterator yields. *)
Theorem metadata_not_rendered opts calls text m :
  calls_fit (calls ++ [SetMetadata text m]) → is_dir (root_builder (after_calls opts calls)) (segments text) = true →
  collect (builder_build (after_calls opts (calls ++ [SetMetadata text m]))) = collect (builder_build (after_calls opts calls)).
Proof.
  intros Hfit Hdir. destruct (after_calls_ok opts _ Hfit) as ([Hroot' _] & Ho' & _).
  destruct (after_calls_ok opts calls (calls_fit_app _ _ Hfit)) as (Hok & Ho & Hc). unfold builder_build. rewrite Ho', Ho, !collect_render by (done || apply Hok).
  assert (Hb : ∀ limit path, render_below limit path (dir_nodes (root_builder (after_calls opts (calls ++ [SetMetadata text m])))) =
    render_below limit path (dir_nodes (root_builder (after_calls opts calls)))); [|unfold render_all; by rewrite Hb].
  intros limit path. rewrite after_calls_snoc. unfold calls_fit in Hfit. rewrite sum_sizes_app in Hfit. simpl in Hfit.
  pose proof (call_does_it _ (SetMetadata text m) Hok ltac:(simpl; lia)) as Hd. destruct (call _ _) as [[u|e|] b'] eqn:Hcall; destruct Hd as (_ & _ & _ & Hd); cbn [snd]; [|by destruct Hd as (_ & -> & _)|done].
  apply (call_edits _ text None) in Hcall; [|apply set_metadata_modifies|done|lia]. by eapply edit_renders; [exact Hcall|apply (wr_dir _ (bo_root _ Hok))|].
Qed.

End Store.
