(* ===== verification/UnixfsExamples.v ===== *)
(** Concrete instances of the parameters of the file system (a wire format, content hashes) and the
    properties of its files at concrete inputs. *)

From S2P Require Import Prelude Runtime Utf8 Offchain IpfsPath IpfsApi UnixfsPb FileAdder FileAdderProps FileVisit FileVisitProps UnixfsDir Repo RepoProps Dag Refs Unixfs UnixfsProps.

(** ** A wire format: varints of seven bits a byte *)

Fixpoint leb (fuel : nat) (n : Z) : Bytes :=
  match fuel with
  | O => []
  | S fuel => if n <? 128 then [n] else (n mod 128 + 128) :: leb fuel (n / 128)
  end.

Fixpoint unleb (fuel : nat) (b : Bytes) : option (Z * Bytes) :=
  match fuel, b with
  | S fuel, x :: r =>
      if x <? 128 then Some (x, r) else
      match unleb fuel r with Some (y, r) => Some (x - 128 + 128 * y, r) | None => None end
  | _, _ => None
  end.

Lemma unleb_leb fuel n r : (0 < fuel)%nat → 0 <= n < 128 ^ Z.of_nat fuel → unleb fuel (leb fuel n ++ r) = Some (n, r).
Proof.
  revert n. induction fuel as [|fuel IH]; intros n Hf Hn; [lia|]. cbn [leb].
  destruct (n <? 128) eqn:Hlt; [cbn [app unleb]; by rewrite Hlt|]. cbn [app unleb]. apply Z.ltb_ge in Hlt.
  pose proof (Z.mod_pos_bound n 128). pose proof (Z.div_mod n 128). rewrite Nat2Z.inj_succ, Z.pow_succ_r in Hn by lia.
  rewrite (proj2 (Z.ltb_ge _ _)) by lia. rewrite IH; [f_equal; f_equal; lia|destruct fuel; [simpl in Hn; lia|lia]|].
  split; [apply Z.div_pos; lia|]. apply Z.div_lt_upper_bound; lia.
Qed.

Lemma unleb_shrinks fuel b x r : unleb fuel b = Some (x, r) → (length r < length b)%nat.
Proof.
  revert b x. induction fuel as [|fuel IH]; intros [|y b] x; simpl; try done. destruct (y <? 128); [by intros [= _ <-]; simpl; lia|].
  destruct (unleb fuel b) as [[z r']|] eqn:Hu; [|done]. intros [= _ <-]. apply IH in Hu. lia.
Qed.

Definition varint (b : Bytes) : option (Z * Bytes) := match unleb 10 b with Some (n, r) => Some (n mod 2 ^ 64, r) | None => None end.

Lemma varint_put n r : is_u64 n → varint (leb 10 n ++ r) = Some (n, r).
Proof.
  intros Hn. unfold is_u, umax in Hn. unfold varint. rewrite unleb_leb; [by rewrite Z.mod_small by lia|lia|]. change (128 ^ Z.of_nat 10) with (2 ^ 70). lia.
Qed.

Lemma varint_shrinks b x r : varint b = Some (x, r) → (length r < length b)%nat.
Proof. unfold varint. destruct (unleb 10 b) as [[n r']|] eqn:Hu; [|done]. intros [= _ <-]. by eapply unleb_shrinks. Qed.

Definition signed (n : Z) : Z := if n <? 2 ^ 63 then n else n - 2 ^ 64.

Definition map_read (f : Z → Z) (o : option (Z * Bytes)) : option (Z * Bytes) := match o with Some (n, r) => Some (f n, r) | None => None end.

Definition take_bytes (b : Bytes) : option (Bytes * Bytes) :=
  match varint b with
  | Some (n, r) => if n <=? Z.of_nat (length r) then Some (take (Z.to_nat n) r, drop (Z.to_nat n) r) else None
  | None => None
  end.

Definition fixed32 (n : Z) : Bytes := [n mod 256; n / 256 mod 256; n / 65536 mod 256; n / 16777216 mod 256].

Definition read_fixed (b : Bytes) : option (Z * Bytes) :=
  match b with
  | a :: b :: c :: d :: r => Some ((a + 256 * b + 65536 * c + 16777216 * d) mod 2 ^ 32, r)
  | _ => None
  end.

#[export] Instance protobuf : Wire := {
  put_varint := leb 10;
  put_fixed32 := fixed32;
  sizeof_varint n := Z.of_nat (length (leb 10 n));
  next_tag := varint;
  read_uint64 := varint;
  read_uint32 b := map_read (λ n, n mod 2 ^ 32) (varint b);
  read_int64 b := map_read signed (varint b);
  read_int32 := varint;
  read_fixed32 := read_fixed;
  read_bytes := take_bytes;
  read_unknown tag b :=
    if tag mod 8 =? 0 then snd <$> varint b
    else if tag mod 8 =? 1 then Some (drop 8 b)
    else if tag mod 8 =? 2 then snd <$> take_bytes b
    else if tag mod 8 =? 5 then Some (drop 4 b)
    else None }.

Lemma leb_length fuel n : (length (leb fuel n) <= fuel)%nat.
Proof. revert n. induction fuel as [|fuel IH]; intros n; simpl; [lia|]. destruct (n <? 128); simpl; [lia|]. specialize (IH (n / 128)). lia. Qed.

Lemma take_bytes_shrinks b x r : take_bytes b = Some (x, r) → (length r <= length b)%nat.
Proof.
  unfold take_bytes. destruct (varint b) as [[n r']|] eqn:Hv; [|done]. apply varint_shrinks in Hv. destruct (n <=? _); [|done].
  intros [= _ <-]. rewrite length_drop. lia.
Qed.

Lemma map_read_shrinks f b x r : map_read f (varint b) = Some (x, r) → (length r < length b)%nat.
Proof. destruct (varint b) as [[n r']|] eqn:Hv; [|done]. intros [= _ <-]. by eapply varint_shrinks. Qed.

Lemma fixed32_read n r : is_u32 n → read_fixed (fixed32 n ++ r) = Some (n, r).
Proof.
  intros Hn. unfold is_u, umax in Hn. unfold fixed32, read_fixed. cbn [app]. do 2 f_equal.
  pose proof (Z.div_mod n 256). pose proof (Z.div_mod (n / 256) 256). pose proof (Z.div_mod (n / 65536) 256).
  replace (n / 65536) with (n / 256 / 256) in * by (by rewrite Z.div_div by lia).
  replace (n / 16777216) with (n / 256 / 256 / 256) in * by (by rewrite !Z.div_div by lia).
  assert (0 <= n / 256 / 256 / 256 < 256) by (rewrite !Z.div_div by lia; split; [apply Z.div_pos; lia|apply Z.div_lt_upper_bound; lia]).
  rewrite (Z.mod_small (n / 256 / 256 / 256)) by lia. rewrite Z.mod_small; lia.
Qed.

#[export] Instance protobuf_laws : WireLaws protobuf.
Proof.
  split; cbn [put_varint put_fixed32 sizeof_varint next_tag read_uint64 read_uint32 read_int64 read_int32 read_fixed32 read_bytes read_unknown protobuf]; try done.
  - intros n Hn. cbn [leb]. rewrite (proj2 (Z.ltb_lt _ _)) by lia. done.
  - intros n _. pose proof (leb_length 10 n). lia.
  - intros t r Ht. apply varint_put. unfold is_u, umax in *. lia.
  - intros n r Hn. by apply varint_put.
  - intros n r Hn. rewrite varint_put by (unfold is_u, umax in *; lia). simpl. unfold is_u, umax in *. by rewrite Z.mod_small by lia.
  - intros n r Hn. rewrite varint_put. 2: { unfold is_u, umax. pose proof (Z.mod_pos_bound n (2 ^ 64)). lia. }
    simpl. unfold signed. do 2 f_equal. destruct (Z.neg_nonneg_cases n).
    + assert (n mod 2 ^ 64 = n + 2 ^ 64) as -> by (symmetry; apply (Z.mod_unique _ _ (-1)); lia). rewrite (proj2 (Z.ltb_ge _ _)) by lia. lia.
    + rewrite Z.mod_small by lia. by rewrite (proj2 (Z.ltb_lt _ _)) by lia.
  - intros n r Hn. apply varint_put. unfold is_u, umax. lia.
  - intros n r Hn. by apply fixed32_read.
  - intros b r Hb. unfold take_bytes. rewrite varint_put by (unfold u32_max, is_u, umax in *; lia).
    rewrite (proj2 (Z.leb_le _ _)) by (rewrite length_app; lia). rewrite Nat2Z.id. by rewrite take_app_length, drop_app_length.
  - intros b t r. apply varint_shrinks.
  - split_and!; intros b x r Hr.
    + apply varint_shrinks in Hr. lia.
    + apply map_read_shrinks in Hr. lia.
    + apply map_read_shrinks in Hr. lia.
    + apply varint_shrinks in Hr. lia.
    + unfold read_fixed in Hr. destruct b as [|? [|? [|? [|? ?]]]]; try done. injection Hr as _ <-. simpl. lia.
    + by apply take_bytes_shrinks in Hr.
  - intros t b r. destruct (_ =? 0); [|destruct (_ =? 1); [|destruct (_ =? 2); [|destruct (_ =? 5); [|done]]]].
    + intros ([x r'] & Hv & ->)%fmap_Some. apply varint_shrinks in Hv. simpl. lia.
    + intros [= <-]. rewrite length_drop. lia.
    + intros ([x r'] & Hv & ->)%fmap_Some. by apply take_bytes_shrinks in Hv.
    + intros [= <-]. rewrite length_drop. lia.
Qed.

(** ** CIDs that are their version, codec and hash; the hash of bytes is a number that encodes them *)

Fixpoint pos_text (p : positive) : Bytes :=
  match p with xH => [99] | xO p => 97 :: pos_text p | xI p => 98 :: pos_text p end.

Fixpoint text_pos (s : Bytes) : option positive :=
  match s with
  | [] => None
  | x :: s => if x =? 99 then Some xH else if x =? 97 then xO <$> text_pos s else if x =? 98 then xI <$> text_pos s else None
  end.

Lemma text_pos_text p : text_pos (pos_text p) = Some p.
Proof. induction p as [p IH|p IH|]; simpl; [by rewrite IH|by rewrite IH|done]. Qed.

Lemma pos_text_letters p : Forall (λ x, 97 <= x <= 99) (pos_text p).
Proof. induction p; simpl; constructor; (lia || done). Qed.

Lemma pos_text_no_slash p : slash ∉ pos_text p.
Proof. intros Hs. pose proof (pos_text_letters p) as Hl. rewrite Forall_forall in Hl. specialize (Hl _ Hs). simpl in Hl. lia. Qed.

Lemma pos_text_utf8 p : from_utf8 (pos_text p) = true.
Proof. by induction p. Qed.

(** The bytes of a CID, in the layout of CIDs when its hash is one of bytes and its codec a number that
    a varint takes (whose ten groups of bits are written only once the number is known). *)
Definition is_codec (n : Z) : bool := (0 <=? n) && negb (2 ^ 64 <=? n).
Definition codec_groups (n : Z) : nat := if is_codec n then 10%nat else 0%nat.

Definition plain_bytes (c : bool * Z * Bytes) : Bytes :=
  match c with
  | (false, n, [Zpos p]) => if n =? 112 then [Zpos p] else [Zneg (encode c)]
  | (true, n, [Zpos p]) => if is_codec n then 1 :: leb (codec_groups n) n ++ [Zpos p] else [Zneg (encode c)]
  | _ => [Zneg (encode c)]
  end.

Definition plain_parse (b : Bytes) : option (bool * Z * Bytes) :=
  match b with
  | [Zneg p] => decode p
  | [Zpos p] => Some (false, 112, [Zpos p])
  | 1 :: r => match unleb (match r with [] => 0 | _ => 10 end) r with Some (n, [Zpos p]) => Some (true, n, [Zpos p]) | _ => None end
  | _ => None
  end.

Lemma leb_nonempty n : leb 10 n ≠ [].
Proof. cbn [leb]. by destruct (n <? 128). Qed.

Lemma plain_parse_bytes c : plain_parse (plain_bytes c) = Some c.
Proof.
  assert (Hneg : plain_parse [Zneg (encode c)] = Some c) by apply decode_encode. destruct c as [[v n] h]. unfold plain_bytes.
  destruct v, h as [|[|p|p] [|? ?]]; try exact Hneg.
  - destruct (is_codec n) eqn:Hn; [|exact Hneg]. unfold codec_groups. rewrite Hn. unfold is_codec in Hn. pose proof (leb_nonempty n).
    unfold plain_parse. destruct (leb 10 n ++ [Zpos p]) as [|x r] eqn:Hr; [by destruct (leb 10 n)|]. cbn iota. rewrite <- Hr. rewrite unleb_leb; [done|lia|]. change (128 ^ Z.of_nat 10) with (2 ^ 70). lia.
  - destruct (Z.eqb_spec n 112) as [->|]; [by destruct p|exact Hneg].
Qed.

Lemma plain_bytes_length c : (length (plain_bytes c) <= 12)%nat.
Proof.
  destruct c as [[[] n] [|[|p|p] [|? ?]]]; cbn [plain_bytes]; try (simpl; lia).
  - destruct (is_codec n); [|simpl; lia]. rewrite length_cons, length_app. pose proof (leb_length (codec_groups n) n). assert (codec_groups n <= 10)%nat by (unfold codec_groups; destruct (is_codec n); lia). cbn [length]. lia.
  - destruct (n =? 112); simpl; lia.
Qed.

#[export] Instance plain_ipfs : RustIpfs := {|
  PeerId := unit; Multiaddr := Bytes; Cid := bool * Z * Bytes; IpfsBlock := Bytes; PublicKey := unit; SubscriptionStream := unit;
  peer_to_bytes _ := [112]; peer_to_string _ := [112]; addr_to_string b := b;
  cid_to_string c := pos_text (encode c); cid_to_bytes := plain_bytes;
  to_peer_id k := k;
  parse_addr := Some; parse_addr_with_peer _ := None; parse_peer b := if bool_decide (b = [112]) then Some tt else None;
  parse_cid b := text_pos b ≫= decode;
  cid_try_from := plain_parse |}.

#[export] Instance plain_ipfs_laws : RustIpfsLaws plain_ipfs.
Proof.
  split; simpl; try done.
  - intros c. rewrite text_pos_text. simpl. apply decode_encode.
  - intros c. by destruct (encode c).
  - intros c. apply pos_text_no_slash.
  - intros c. apply pos_text_utf8.
  - by intros [].
  - intros p. set_solver.
Qed.

#[export] Instance plain_path_eq : EqDecision IpfsPath.
Proof.
  intros [[c|[]|d] p] [[c'|[]|d'] p']; try (right; congruence).
  - destruct (decide (c = c')), (decide (p = p')); subst; [by left|right; congruence..].
  - destruct (decide (p = p')); subst; [by left|right; congruence].
  - destruct (decide (d = d')), (decide (p = p')); subst; [by left|right; congruence..].
Defined.

#[export] Instance plain_hash : ContentHash := {|
  sha2_256 b := [Zpos (encode b)];
  cid_new_v0 h := Some (false, 112, h);
  cid_new_v1 n h := (true, n, h);
  cid_hash c := c.2;
  cid_codec c := c.1.2;
  version c := if c.1.1 then V1 else V0;
  verify_cid c b := bool_decide (c.2 = [Zpos (encode b)]) |}.

#[export] Instance plain_hash_laws : ContentHashLaws plain_hash.
Proof.
  split; cbn [sha2_256 cid_new_v0 cid_new_v1 cid_hash cid_codec version verify_cid cid_try_from cid_to_bytes plain_hash plain_ipfs]; try done.
  - intros b b' [= He]. by apply (inj encode).
  - intros b. by exists (false, 112, [Zpos (encode b)]).
  - intros [[v n] h] [[v' n'] h']; simpl. intros Hv -> ->. by destruct v, v'.
  - intros c b <-. by apply bool_decide_eq_true.
  - apply plain_parse_bytes.
  - intros c. pose proof (plain_bytes_length c). lia.
Qed.

(** ** A node with nothing stored and no network *)

Import MemBlockStore.

Definition no_swarm : Swarm := mkSwarm (λ _, true) (λ _, None).
Definition alone : Outside := mkOutside no_swarm (λ _, None) (λ v, [v]) (λ _, None).

Definition no_repo : Repo MemBlockStore.t := empty_repo.

Lemma no_repo_sound : sound no_repo.
Proof. apply map_Forall_empty. Qed.

Lemma alone_works : working (S := MemBlockStore.t) no_swarm.
Proof.
  split; [|split; [|done]].
  - intros s b. simpl. by destruct (MemBlockStore.put s b).
  - by intros s c.
Qed.

(** Uploads of chunks of four bytes. *)
Definition by_four (v : Version) : option AddOption := Some (mkAddOption (Some 4%nat) false false v).

Lemma by_four_plain v : plain (by_four v).
Proof. split; [unfold chunk_of; simpl; lia|]. split; [unfold chunk_of; simpl; lia|]. by intros o [= <-]. Qed.

(** The pieces that a reader got, when nothing failed. *)
Definition pieces {E1 E2 E3 A : Type} (res : outcome E1 (Datatypes.list (Bytes + E2) * outcome E3 A)) : option (Datatypes.list Bytes) :=
  match res with
  | Ok (items, Ok _) => mapM (λ x, match x with inl b => Some b | inr _ => None end) items
  | _ => None
  end.

(** An upload of ten bytes in two buffers, and reading it, computed. *)
Example ten_bytes :
  let '(statuses, ending, r) := add 10 alone no_repo None [[1; 2; 3; 4; 5]; [6; 7; 8; 9; 10]] (by_four V1) in
  length (map_to_list (bs_view (block_store r))) = 4%nat ∧
  match last statuses with
  | Some (CompletedStatus p _ _) =>
      pieces (cat 10 alone r (FromPath p) None).1 = Some [[1; 2; 3; 4]; [5; 6; 7; 8]; [9; 10]] ∧
      pieces (cat 10 alone r (FromPath p) (Some (3, 7))).1 = Some [[4]; [5; 6; 7]]
  | _ => False
  end.
Proof. vm_compute. done. Qed.

(** The CID of some bytes. *)
Definition cid_of (v1 : bool) (codec : Z) (b : Bytes) : Cid := (v1, codec, sha2_256 b).

(** ** The properties at concrete inputs *)

Lemma readers_terminate_witness : field_loop pbnode_field pbnode_default [10; 2; 8] (read_pbnode [10; 2; 8]).
Proof. apply (readers_terminate [10; 2; 8]). Defined.

Lemma flat_roundtrip_witness :
  flat_try_from (write_flat (leaf_message [1; 2; 3])) = inl (leaf_message [1; 2; 3]).
Proof. apply (flat_roundtrip (leaf_message [1; 2; 3])). apply leaf_message_ok. simpl. lia. Defined.

Lemma branching_one_witness :
  flush_links 1 [mkLink 0 (cid_of false 112 [1]) 1 1; mkLink 0 (cid_of false 112 [2]) 1 1] true = Err OutOfFuel.
Proof. apply (branching_one_never_finishes (level_bound _) 0 _ []); [by repeat constructor|simpl; lia]. Defined.

Lemma file_roundtrip_witness :
  ∃ statuses c r',
    add 5 alone no_repo (Some 7) [[1; 2; 3]; []; [4; 5; 6; 7]] (by_four V0) =
      (statuses ++ [CompletedStatus (path_new (Ipld c)) 7 (Some 7)], Ok tt, r') ∧
    sound r' ∧ grows no_repo r' ∧
    ∀ range, ∃ n items, mjoin items = part range 0 [1; 2; 3; 4; 5; 6; 7] ∧ Forall (λ b, b ≠ []) items ∧
      ∀ fuel', (n <= fuel')%nat → cat fuel' alone r' (FromPath (path_new (Ipld c))) range = (Ok (map inl items, Ok tt), r').
Proof.
  apply (file_roundtrip 5 alone no_repo (Some 7) [[1; 2; 3]; []; [4; 5; 6; 7]] (by_four V0));
    [apply alone_works|apply no_repo_sound|apply by_four_plain|simpl; lia|done].
Defined.

Lemma one_chunk_witness :
  ∃ statuses r', add 5 alone no_repo None [[1; 2]; [3; 4]] (by_four V0) = (statuses ++ [FailedStatus 4 None None], Ok tt, r') ∧
    Forall (λ s, ∃ n, s = ProgressStatus n None) statuses ∧ sound r' ∧ grows no_repo r' ∧
    ∃ c, ∀ range, ∃ n items, mjoin items = part range 0 [1; 2; 3; 4] ∧ Forall (λ b, b ≠ []) items ∧
      ∀ fuel', (n <= fuel')%nat → cat fuel' alone r' (FromPath (path_new (Ipld c))) range = (Ok (map inl items, Ok tt), r').
Proof.
  apply (one_chunk_upload_fails 5 alone no_repo None [[1; 2]; [3; 4]] (by_four V0)); [apply alone_works|apply no_repo_sound|apply by_four_plain|done].
Defined.

Lemma multi_block_witness :
  ∃ statuses c written r', add 5 alone no_repo None [[1; 2; 3]; [4; 5]] (by_four V1) =
    (statuses ++ [CompletedStatus (path_new (Ipld c)) written None], Ok tt, r') ∧ version c = V0.
Proof.
  apply (multi_block_root_is_v0 5 alone no_repo None [[1; 2; 3]; [4; 5]] (by_four V1));
    [apply alone_works|apply no_repo_sound|apply by_four_plain|simpl; lia|unfold chunk_of; simpl; lia].
Defined.

(** The bytes of a file block, stored before as a raw block. *)
Definition raw_first : Repo MemBlockStore.t :=
  mkRepo (MemBlockStore.mk {[sha2_256 (write_flat (leaf_message [1])) := mkBlock (cid_of true 85 (write_flat (leaf_message [1]))) (write_flat (leaf_message [1]))]}) ∅ [].

Lemma stored_codec_witness :
  let b := write_flat (leaf_message [1]) in
  ∃ r', put_block no_swarm raw_first (mkBlock (cid_of false 112 b) b) = (Some ((cid_of false 112 b), Existed), r') ∧
    (cat 1 alone r' (FromPath (path_new (Ipld (cid_of false 112 b)))) None).1 = Err (NotAFile (UnexpectedCodec (NBlock (mkBlock (cid_of true 85 b) b)))).
Proof.
  intros b. destruct (stored_codec_blocks_read 0 alone raw_first (cid_of false 112 b) b (mkBlock (cid_of true 85 b) b) None) as (r' & Hp & Hc);
    [apply alone_works|reflexivity|done|]. exists r'. split; [exact Hp|by rewrite Hc].
Defined.

Definition idle : Engine := mkEngine None (λ _ _, None) Some None (λ _, None)
  (λ _, None) (λ _, None) (λ _, None) (λ _, None) (λ _, None) (λ _, None) None (λ _ _, None) None None None (λ _ _, None) (λ _, None)
  (λ _ _, None) (λ _, None) None (λ _, None).

Lemma add_bytes_then_cat_bytes_witness :
  ∃ c r' n,
    response_from <$> engine_request (with_files 5 alone no_repo idle) (IpfsRequest.AddBytes [1; 2; 3] 1) = Some (IpfsResponse.AddBytes (cid_to_string c)) ∧
    (add 5 alone no_repo None [[1; 2; 3]] (Some (default_with_cid_version V1))).2 = r' ∧
    ∀ fuel', (n <= fuel')%nat →
      response_from <$> engine_request (with_files fuel' alone r' idle) (IpfsRequest.CatBytes (cid_to_string c)) = Some (IpfsResponse.CatBytes [1; 2; 3]).
Proof.
  apply (add_bytes_then_cat_bytes 5 alone no_repo idle [1; 2; 3] 1); [apply alone_works|apply no_repo_sound|simpl; lia|simpl; lia].
Defined.

Lemma pins_consistent_witness :
  let c := (cid_of false 112 [1]) in let d := (cid_of false 112 [2]) in
  let g := foldl pin_op ∅ [InsertDirect c; InsertRecursive c (mkRefs [d] false); RemoveDirect c; RemoveDirect d] in
  is_pinned g c = true ∧ is_Some (query_one g None c).
Proof.
  intros c d g. assert (Hp : is_pinned g c = true) by (vm_compute; reflexivity). split; [exact Hp|].
  apply (pins_consistent [InsertDirect c; InsertRecursive c (mkRefs [d] false); RemoveDirect c; RemoveDirect d] c), Hp.
Defined.

Lemma mem_reliable : reliable (S := MemBlockStore.t).
Proof. split; [|done]. intros s c. unfold bs_remove, store, MemBlockStore.remove. by destruct (MemBlockStore.blocks s !! cid_hash c). Qed.

Lemma cleanup_exact_witness :
  ∃ removed r', cleanup raw_first = (Some removed, r') ∧ pins r' = pins raw_first ∧
    bs_view (block_store r') = filter (kept raw_first) (bs_view (block_store raw_first)) ∧
    ∀ c, c ∈ removed ↔ is_pinned (pins raw_first) c = false ∧ ∃ b, bs_view (block_store raw_first) !! cid_hash c = Some b ∧ block_cid b = c.
Proof.
  apply (cleanup_exact raw_first); [|apply mem_reliable]. by apply map_Forall_singleton.
Defined.

Lemma cleanup_pinned_witness :
  let c0 := (cid_of false 112 [1]) in let c1 := cid_new_v1 (cid_codec c0) (cid_hash c0) in
  let r := (put_block no_swarm empty_repo (mkBlock c0 [1])).2 in
  let r := mkRepo (block_store r) (insert_direct_pin (pins r) c1).2 (repo_events r) in
  is_pinned (pins r) c1 = true ∧ get_block_now r c1 = Some (Some (mkBlock c0 [1])) ∧ get_block_now (cleanup r).2 c1 = Some None.
Proof. exact (cleanup_removes_pinned_block no_swarm (cid_of false 112 [1]) [1] eq_refl). Defined.
