(* ===== verification/DagExamples.v ===== *)
(** Concrete stores of directories and documents, and the properties of paths, references and pins
    on them. *)

From S2P Require Import Prelude Runtime Utf8 IpfsPath UnixfsPb FileAdder FileAdderProps FileVisit FileVisitProps UnixfsDir Repo RepoProps Dag Refs Unixfs UnixfsProps DagProps RefsProps UnixfsExamples.

#[local] Existing Instance MemBlockStore.store.
#[local] Existing Instance MemBlockStore.store_laws.

(** A store of dag-pb blocks. *)
Definition block_of (d : Bytes) : Block := mkBlock (cid_of false 112 d) d.

Definition repo_of (ds : list Bytes) : Repo MemBlockStore.t := mkRepo (MemBlockStore.mk (list_to_map (map (λ d, (sha2_256 d, block_of d)) ds))) ∅ [].

Lemma repo_of_view ds h x : bs_view (block_store (repo_of ds)) !! h = Some x ↔ ∃ d, d ∈ ds ∧ h = sha2_256 d ∧ x = block_of d.
Proof.
  cbn [bs_view block_store repo_of MemBlockStore.store MemBlockStore.blocks]. induction ds as [|d' ds IH]; simpl map; cbn [list_to_map foldr]; [set_solver|].
  rewrite lookup_insert_Some, IH. split.
  - intros [[<- <-]|(_ & d & Hd & -> & ->)]; [exists d'; set_solver|exists d; set_solver].
  - intros (d & Hd & -> & ->). destruct (decide (d' = d)) as [->|Hne]; [by left|]. right. split; [intros [= He]; by apply (inj encode) in He|]. exists d. set_solver.
Qed.

Lemma repo_of_sound ds : sound (repo_of ds).
Proof. intros h x (d & _ & -> & ->)%repo_of_view. done. Qed.

Lemma repo_of_held ds d : d ∈ ds → held (repo_of ds) (cid_of false 112 d) d.
Proof. intros Hd. exists (block_of d). split; [|done]. apply repo_of_view. by exists d. Qed.

(** ** A file in a directory in a shard of a sharded directory *)

Definition leaf : Bytes := write_flat (leaf_message [1; 2; 3]).

Definition dir_links : list PBLink := [mkPBLink (Some (cid_to_bytes (cid_of false 112 leaf))) (Some [102]) (Some 11)].
Definition dir : Bytes := write_flat (dir_message dir_links).

Definition shard_message (bits : Bytes) (links : list PBLink) : FlatUnixFs :=
  mkFlat links (mkUnixFs UnixFsType.HAMTShard (Some bits) None [] (Some 34) (Some 256) None None).

Definition sized_link (name d : Bytes) : PBLink :=
  mkPBLink (Some (cid_to_bytes (cid_of false 112 d))) (Some name) (Some (Z.of_nat (length d))).

Definition inner_links : list PBLink := [sized_link [48; 48; 97] dir].
Definition inner : Bytes := write_flat (shard_message [1] inner_links).

Definition outer_links : list PBLink := [sized_link [48; 48; 98] leaf; sized_link [48; 49] inner].
Definition outer : Bytes := write_flat (shard_message [3] outer_links).

Definition tree : Repo MemBlockStore.t := repo_of [leaf; dir; inner; outer].

Ltac small :=
  try done;
  first [intros ? [= <-]; unfold short, is_u, u32_max, umax; first [by vm_compute|split; by vm_compute]|by vm_compute].

Ltac message_ok := split; [repeat (apply Forall_cons; split; [split; small|]); by apply Forall_nil|split; small].

Lemma dir_ok : flat_ok (dir_message dir_links).
Proof. message_ok. Qed.

Lemma inner_ok : flat_ok (shard_message [1] inner_links).
Proof. message_ok. Qed.

Lemma outer_ok : flat_ok (shard_message [3] outer_links).
Proof. message_ok. Qed.

Lemma sized_slot name d :
  link_slot (sized_link name d) =
    if (length name =? 2)%nat then Some (Bucket (cid_of false 112 d))
    else if (2 <? length name)%nat && boundary_at_2 name then Some (Entry (drop 2 name) (cid_of false 112 d)) else None.
Proof.
  unfold link_slot. change (default [] (Hash (sized_link name d))) with (cid_to_bytes (cid_of false 112 d)). by rewrite cid_bytes_parse.
Qed.

Lemma written_slots bits links : flat_ok (shard_message bits links) → shard_slots (write_flat (shard_message bits links)) = mapM link_slot links.
Proof. intros Hok. unfold shard_slots. by rewrite flat_reads_back. Qed.

Lemma tree_path : dir_path tree (cid_of false 112 outer) [[97]; [102]] (cid_of false 112 leaf).
Proof.
  assert (Hinner : shard 1 tree (cid_of false 112 inner) [([97], cid_of false 112 dir)] 1).
  { exists inner, [Entry [97] (cid_of false 112 dir)], []. split_and!; [apply repo_of_held; set_solver| |by constructor|done|done].
    unfold inner. rewrite (written_slots _ _ inner_ok). cbn [mapM inner_links]. by rewrite sized_slot. }
  eapply dir_shard with (d := 2%nat) (names := [([98], cid_of false 112 leaf); ([97], cid_of false 112 dir)]) (c' := cid_of false 112 dir) (n := 2%nat).
  - exists outer, [Entry [98] (cid_of false 112 leaf); Bucket (cid_of false 112 inner)], [([([97], cid_of false 112 dir)], 1%nat)].
    split_and!; [apply repo_of_held; set_solver| | |done|done].
    + unfold outer. rewrite (written_slots _ _ outer_ok). cbn [mapM outer_links]. by rewrite !sized_slot.
    + repeat constructor. exact Hinner.
  - done.
  - eapply dir_down; [apply (repo_of_held _ dir); set_solver|apply plain_links_written, dir_ok| |apply dir_here].
    eexists [], _, []. split_and!; [done|done| |done]. apply cid_bytes_parse.
Qed.

(** ** Documents that link to others *)

Definition node_of (links : list (Bytes * Cid)) : IpldValue :=
  IMap [(links_key, IList (map (λ l, IMap [(hash_key, ILink l.2); (name_key, IString l.1)]) links))].

(** The document [1] links to [2] and [3], and [2] to [3]. *)
Definition decode_123 (b : Block) : option IpldValue :=
  Some (match block_data b with
        | [1] => node_of [([97], cid_of false 112 [2]); ([98], cid_of false 112 [3])]
        | [2] => node_of [([99], cid_of false 112 [3])]
        | _ => node_of []
        end).

Definition linked : Outside := mkOutside no_swarm decode_123 (λ v, [v]) (λ _, None).
Definition docs : Repo MemBlockStore.t := repo_of [[1]; [2]; [3]].

Lemma docs_reach c :
  reach linked docs [cid_of false 112 [2]; cid_of false 112 [3]] c → c ∈ [cid_of false 112 [2]; cid_of false 112 [3]] ∧ is_Some (links_at linked docs c).
Proof.
  intros Hc. cut (c ∈ [cid_of false 112 [2]; cid_of false 112 [3]]).
  { intros Hin. split; [done|]. apply elem_of_cons in Hin as [->| ->%list_elem_of_singleton]; vm_compute; by eexists. }
  induction Hc as [|c l d _ IH Hl Hd]; [done|]. apply elem_of_cons in IH as [->| ->%list_elem_of_singleton]; vm_compute in Hl; injection Hl as <-; set_solver.
Qed.

Lemma docs_document :
  document linked docs (cid_of false 112 [1]) (block_of [1]) (node_of [([97], cid_of false 112 [2]); ([98], cid_of false 112 [3])])
    [(Some [97], cid_of false 112 [2]); (Some [98], cid_of false 112 [3])].
Proof. split_and!; reflexivity. Qed.

(** A name whose record leads back to it. *)
Definition own_name : Bytes := [97; 46; 98].
Definition own_record : Bytes := dnslink_key ++ [47; 105; 112; 110; 115; 47] ++ own_name.
Definition cyclic : Outside := mkOutside no_swarm (λ _, None) (λ v, [v]) (λ _, Some [own_record]).

(** ** The properties at concrete inputs *)

Lemma resolve_segments_in_path_witness :
  let r := repo_of [write_pbnode (mkPBNode [] (Some []))] in
  let p := mkPath (Ipld (cid_of false 112 (write_pbnode (mkPBNode [] (Some []))))) [data_segment] in
  ∃ q c, root_cid (root q) = Some c ∧ resolve_ipns 3 alone p true = Resolved q ∧ (resolve0 3 alone r c (path q) true 0).1 = Panic.
Proof. apply (resolve_segments_in_path 3 alone (repo_of [write_pbnode (mkPBNode [] (Some []))])). vm_compute. reflexivity. Defined.

Lemma directory_lookup_witness :
  (∀ c, resolve dir [102] = Ok (Found c) ↔ named dir_links [102] c) ∧
  (resolve dir [102] = Ok NameNotFound ↔ Forall (λ l, default [] (Name l) ≠ [102]) dir_links).
Proof. exact (directory_lookup dir dir_links [102] (plain_links_written _ dir_ok)). Defined.

Lemma cat_through_directories_witness :
  ∃ n items, mjoin items = part (Some (1, 3)) 0 [1; 2; 3] ∧ Forall (λ b, b ≠ []) items ∧
    ∀ fuel, (n <= fuel)%nat → cat fuel alone tree (FromPath (mkPath (Ipld (cid_of false 112 outer)) [[97]; [102]])) (Some (1, 3)) = (Ok (map inl items, Ok tt), tree).
Proof.
  apply (cat_through_directories alone tree (cid_of false 112 outer) [[97]; [102]] (cid_of false 112 leaf) 0 [1; 2; 3] (Some (1, 3)));
    [apply alone_works|apply repo_of_sound|apply tree_path| |simpl; lia].
  split; [apply (repo_of_held _ leaf); set_solver|]. apply leaf_message_ok. simpl. lia.
Defined.

Lemma names_terminate_witness : resolve_ipns 2 cyclic (mkPath (Dns own_name) []) true ≠ Unfinished.
Proof.
  apply (names_terminate 2 cyclic [mkPath (Dns own_name) []]); [|simpl; lia].
  intros domain q Hq. assert (Hf : dnslink_resolve cyclic domain = Some (mkPath (Dns own_name) [])) by reflexivity.
  rewrite Hf in Hq. injection Hq as <-. left.
Defined.

Abbreviation doc_1 := (node_of [([97], cid_of false 112 [2]); ([98], cid_of false 112 [3])]).
Abbreviation links_1 := [(Some [97], cid_of false 112 [2]); (Some [98], cid_of false 112 [3])].
Abbreviation refs_1 := [cid_of false 112 [2]; cid_of false 112 [3]].


Lemma docs_not_self : ¬ reach linked docs refs_1 (cid_of false 112 [1]).
Proof. intros [Hin _]%docs_reach. set_solver. Qed.

(** The documents, the first one pinned directly. *)
Definition docs_direct : Repo MemBlockStore.t := (ipfs_insert_pin 1 linked docs (cid_of false 112 [1]) false).2.

Lemma direct_reach roots c : reach linked docs_direct roots c → reach linked docs roots c.
Proof. exact (proj1 (reach_pins linked docs (pins docs_direct) roots c)). Qed.

Lemma recursive_pin_protects_witness :
  (∃ r', ipfs_insert_pin 3 linked docs (cid_of false 112 [1]) true = (Ok tt, r') ∧
     (∀ c, c = cid_of false 112 [1] ∨ reach linked docs refs_1 c ∨ is_pinned (pins docs) c = true → is_pinned (pins r') c = true ∧ remove_block r' c = (None, r')) ∧
     ipfs_remove_pin 3 linked r' (cid_of false 112 [1]) true = (Ok tt, docs)) ∧
  (∃ r', ipfs_insert_pin 3 linked docs_direct (cid_of false 112 [1]) true = (Ok tt, r') ∧
     ipfs_remove_pin 3 linked r' (cid_of false 112 [1]) true = (Ok tt, docs)).
Proof.
  split.
  - destruct (recursive_pin_protects linked docs (cid_of false 112 [1]) (block_of [1]) doc_1 links_1 refs_1 3) as [_ Hpin];
      [done|apply map_Forall_empty|apply docs_document|apply docs_reach|simpl; lia|].
    destruct (Hpin eq_refl) as (r' & Hins & Hprot & Hrem). exists r'. split; [done|]. split; [done|].
    destruct Hrem as [Hrem Hsame]; [by intros d|apply docs_not_self|by intros k d|]. by rewrite Hsame in Hrem by (by intros d).
  - destruct (recursive_pin_protects linked docs_direct (cid_of false 112 [1]) (block_of [1]) doc_1 links_1 refs_1 3) as [_ Hpin].
    + done.
    + apply map_Forall_singleton. split; [|done]. split; [done|]. split; constructor.
    + apply docs_document.
    + intros c Hc%direct_reach. by apply docs_reach.
    + simpl. lia.
    + destruct (Hpin eq_refl) as (r' & Hins & _ & Hrem). exists r'. split; [done|].
      destruct Hrem as [Hrem _]; [|intros Hc%direct_reach; by apply docs_not_self| |exact Hrem].
      * intros d Hd. vm_compute in Hd. by injection Hd as <-.
      * intros k d. change (pins docs_direct) with ({[cid_to_bytes (cid_of false 112 [1]) := mkDoc 0 true Not 0 []]} : Pins).
        intros [_ <-]%lookup_singleton_Some. set_solver.
Defined.
