(* ===== verification/DirBuilderExamples.v ===== *)
(** The directory builder at concrete inputs: a tree of two files, its blocks and reading a file
    through it; what happens after a block that is too large; metadata of a single top directory. *)

From S2P Require Import Prelude Runtime Utf8 IpfsPath UnixfsPb FileAdder FileAdderProps FileVisit FileVisitProps UnixfsDir Repo RepoProps Dag Refs Unixfs UnixfsProps DagProps DirBuilder DirBuilderProps DirBuilderPaths DirBuilderStore UnixfsExamples DagExamples.

#[local] Existing Instance MemBlockStore.store.
#[local] Existing Instance MemBlockStore.store_laws.

#[export] Instance plain_layout : CidLayout protobuf.
Proof.
  intros c ([b Hh] & Hn & Hv). destruct c as [[v n] h]. cbn [cid_hash plain_hash snd] in Hh. subst h. cbn [cid_codec plain_hash fst snd] in Hn.
  cbn [cid_to_bytes plain_ipfs plain_bytes sha2_256 plain_hash]. destruct v.
  - assert (Hc : is_codec n = true) by (unfold is_codec, is_u, umax in *; lia). cbn [version plain_hash fst]. unfold codec_groups. by rewrite Hc.
  - specialize (Hv eq_refl). simpl in Hv. subst n. done.
Qed.

(** [a/b/f] and [a/g] *)
Definition f_path : Bytes := [97; 47; 98; 47; 102].
Definition g_path : Bytes := [97; 47; 103].

Definition file_cid : Cid := cid_of false 112 leaf.

Definition two_files : list BuilderCall := [PutLink f_path file_cid 11; PutLink g_path file_cid 11].

Lemma two_files_fit : calls_fit two_files.
Proof. unfold calls_fit. vm_compute. reflexivity. Qed.

Lemma file_cid_proper : cid_proper file_cid.
Proof. split; [by exists leaf|]. split; [|done]. unfold is_u, umax. simpl. lia. Qed.

Lemma two_files_proper : Forall call_fits two_files.
Proof.
  assert (Hl : leaf_fits (mkLeaf file_cid 11)) by (split; [apply file_cid_proper|unfold is_u, umax; simpl; lia]).
  repeat (apply Forall_cons; split; [split; [done|]; split; [simpl; lia|]; by intros l [= <-]|]). by apply Forall_nil.
Qed.

(** The directories below the top one come first; [a] has the link to [b] before that to [g]. *)
Example two_files_nodes :
  map node_path (collect (builder_build (after_calls default_options two_files))).1 = [[97; 47; 98]; [97]].
Proof. vm_compute. reflexivity. Qed.

(** ** The properties at these inputs *)

Lemma put_link_refines_witness :
  call_does (after_calls default_options [PutLink f_path file_cid 11]) g_path (Some (mkLeaf file_cid 11))
    (put_link (after_calls default_options [PutLink f_path file_cid 11]) g_path file_cid 11).
Proof. apply (put_link_refines default_options [PutLink f_path file_cid 11] g_path file_cid 11). exact two_files_fit. Defined.

Lemma custom_writes_flat_witness :
  let links := [mkNamed [102] file_cid 11] in
  write_custom links directory_data = write_flat (dir_message (map link_of links)) ∧
  custom_size links directory_data = flat_size (dir_message (map link_of links)).
Proof. apply (custom_writes_flat [mkNamed [102] file_cid 11]). apply Forall_singleton, file_cid_proper. Defined.

Lemma built_tree_renders_witness :
  let b := after_calls default_options two_files in
  collect (builder_build b) = render_all default_options (root_builder b) ∧ only_too_large (Some (512 * 1024)) (collect (builder_build b)).2.
Proof. exact (built_tree_renders default_options two_files two_files_fit). Defined.

Lemma built_tree_serves_files_witness :
  ∃ nodes x n items r',
    collect (builder_build (after_calls default_options two_files)) = (nodes, Ok tt) ∧ x ∈ nodes ∧ node_path x = [97] ∧ mjoin items = [2; 3] ∧
    ∀ fuel, (n <= fuel)%nat → cat fuel alone r' (FromPath (mkPath (Ipld (node_cid x)) [[98]; [102]])) (Some (1, 3)) = (Ok (map inl items, Ok tt), r').
Proof.
  assert (Hcol : ∃ nodes, collect (builder_build (after_calls default_options two_files)) = (nodes, Ok tt)).
  { destruct (collect (builder_build (after_calls default_options two_files))) as [nodes res] eqn:Hc. exists nodes. f_equal.
    change res with (nodes, res).2. rewrite <- Hc. vm_compute. reflexivity. }
  destruct Hcol as [nodes Hcol].
  destruct (built_tree_serves_files alone (repo_of [leaf]) default_options two_files nodes) as (root & r' & _ & _ & _ & Hdirs);
    [apply alone_works|apply repo_of_sound|apply two_files_fit|apply two_files_proper|exact Hcol|].
  destruct (Hdirs [[97]]) as (x & Hx & Hp & _ & Hread); [by vm_compute|by left|].
  destruct (Hread [[98]; [102]] (mkLeaf file_cid 11) O [1; 2; 3] (Some (1, 3))) as (n & items & Hj & _ & Hcat); [by vm_compute| |simpl; lia|].
  { split; [exact (repo_of_held [leaf] leaf (proj2 (list_elem_of_singleton leaf leaf) eq_refl))|]. apply leaf_message_ok. simpl. lia. }
  exists nodes, x, n, items, r'. split; [done|]. split; [done|]. split; [done|]. split; [by rewrite Hj|done].
Defined.

Definition some_metadata : Metadata := mkMetadata (Some 493) None.

Lemma metadata_not_rendered_witness :
  collect (builder_build (after_calls default_options (two_files ++ [SetMetadata [97; 47; 98] some_metadata]))) =
    collect (builder_build (after_calls default_options two_files)).
Proof. apply (metadata_not_rendered default_options two_files [97; 47; 98] some_metadata); [by vm_compute|by vm_compute]. Defined.

(** ** What the code does not handle *)

(** Without [wrap_with_directory] the metadata of the one top directory cannot be set once there is something
    in it: the call is taken for a second entry. *)
Example top_metadata_refused :
  (set_metadata (after_calls default_options two_files) [97] some_metadata).1 = Err TooManyRootLevelEntries.
Proof. vm_compute. reflexivity. Qed.

(** After a failure the iterator still has work on its stack: asked again, it renders the parent of the
    directory that failed, whose link is missing, and panics. *)
Example next_after_failure_panics :
  let opts := mkOptions (Some 10) false in
  match next_borrowed (builder_build (after_calls opts two_files)) with
  | (Fails (TooLargeBlock _), it) => (next_borrowed it).1 = Panics
  | _ => False
  end.
Proof. vm_compute. reflexivity. Qed.
