(* ===== verification/FreeingBump.v ===== *)
(** The allocator of the runtime's heap ([client/allocator/src/freeing_bump.rs]): a bump allocator
    over the linear memory of the WebAssembly instance, with a free list for each power of two, threaded
    through the headers of the freed chunks.

    The memory is the list of its bytes ([impl Memory for [u8]]); addresses are [u32] and plain [+] wraps,
    as in a release build.  Dropping the armed [PoisonBomb] on an error or a panic is [bombed]. *)

From S2P Require Import Prelude.

Abbreviation Memory := (list Z).

Inductive Error := RequestedAllocationTooLarge | AllocatorOutOfSpace | MemoryShrinked | Other (msg : string).

Definition ALIGNMENT : Z := 8.
Definition HEADER_SIZE : Z := 8.
Definition N_ORDERS : Z := 23.
Definition MIN_POSSIBLE_ALLOCATION : Z := 8.
Definition MAX_POSSIBLE_ALLOCATION : Z := 33554432.
Definition NIL_MARKER : Z := u32_max.

(** ** Orders *)

(** [u32::next_power_of_two] and [u32::trailing_zeros] *)
Definition next_power_of_two (n : Z) : Z := 2 ^ Z.log2_up n.

Fixpoint pos_trailing_zeros (p : positive) : Z :=
  match p with
  | xO p => 1 + pos_trailing_zeros p
  | _ => 0
  end.

Definition trailing_zeros (n : Z) : Z := match n with Zpos p => pos_trailing_zeros p | _ => 32 end.

(** An [Order] is its number. *)
Definition order_from_raw (order : Z) : Z + Error := if order <? N_ORDERS then inl order else inr (Other "invalid order").

Definition from_size (size : Z) : Z + Error :=
  if MAX_POSSIBLE_ALLOCATION <? size then inr RequestedAllocationTooLarge else
  let clamped_size := if size <? MIN_POSSIBLE_ALLOCATION then MIN_POSSIBLE_ALLOCATION else size in
  let power_of_two_size := next_power_of_two clamped_size in
  inl (wrapping_sub 32 (trailing_zeros power_of_two_size) (trailing_zeros MIN_POSSIBLE_ALLOCATION)).

Definition order_size (order : Z) : Z := Z.shiftl MIN_POSSIBLE_ALLOCATION order mod 2 ^ 32.

(** ** Links and headers *)

Inductive Link := Nil | Ptr (p : Z).

Definition link_from_raw (raw : Z) : Link := if negb (raw =? NIL_MARKER) then Ptr raw else Nil.
Definition link_into_raw (l : Link) : Z := match l with Nil => NIL_MARKER | Ptr p => p end.

Inductive Header := Free (l : Link) | Occupied (order : Z).

(** ** The linear memory *)

Definition heap_range (offset length : Z) (heap_len : nat) : option (nat * nat) :=
  match checked_add 32 offset length with
  | Some e => if (Z.to_nat e <=? heap_len)%nat then Some (Z.to_nat offset, Z.to_nat e) else None
  | None => None
  end.

Definition from_le_bytes (b : list Z) : Z := foldr (λ x n, x + 256 * n) 0 b.

Fixpoint to_le (w : nat) (n : Z) : list Z := match w with O => [] | S w => n mod 256 :: to_le w (n / 256) end.
Definition to_le_bytes (n : Z) : list Z := to_le 8 n.

Definition read_le_u64 (m : Memory) (ptr : Z) : Z + Error :=
  match heap_range ptr 8 (length m) with
  | Some (s, e) => inl (from_le_bytes (take (e - s) (drop s m)))
  | None => inr (Other "read out of heap bounds")
  end.

Definition write_le_u64 (m : Memory) (ptr val : Z) : Memory + Error :=
  match heap_range ptr 8 (length m) with
  | Some (s, e) => inl (take s m ++ to_le_bytes val ++ drop e m)
  | None => inr (Other "write out of heap bounds")
  end.

(** [None] is the failed [expect]. *)
Definition memory_size (m : Memory) : option Z :=
  if Z.of_nat (length m) <=? u32_max then Some (Z.of_nat (length m)) else None.

Definition OCCUPIED_MASK : Z := 2 ^ 32.

Definition read_from (m : Memory) (header_ptr : Z) : Header + Error :=
  match read_le_u64 m header_ptr with
  | inr e => inr e
  | inl raw_header =>
      let occupied := negb (Z.land raw_header OCCUPIED_MASK =? 0) in
      let header_data := raw_header mod 2 ^ 32 in
      if occupied then
        match order_from_raw header_data with inl order => inl (Occupied order) | inr e => inr e end
      else inl (Free (link_from_raw header_data))
  end.

Definition write_into (h : Header) (m : Memory) (header_ptr : Z) : Memory + Error :=
  let '(header_data, occupied_mask) :=
    match h with Occupied order => (order, OCCUPIED_MASK) | Free link => (link_into_raw link, 0) end in
  write_le_u64 m header_ptr (Z.lor header_data occupied_mask).

Definition into_occupied (h : Header) : option Z := match h with Occupied order => Some order | _ => None end.
Definition into_free (h : Header) : option Link := match h with Free link => Some link | _ => None end.

(** ** The allocator *)

Record AllocationStats := mkStats {
  bytes_allocated : Z;
  bytes_allocated_peak : Z;
  bytes_allocated_sum : Z;
  address_space_used : Z }.

Record FreeingBumpHeapAllocator := mkAllocator {
  original_heap_base : Z;
  bumper : Z;
  free_lists : list Link;
  poisoned : bool;
  last_observed_memory_size : Z;
  stats : AllocationStats }.

Definition new (heap_base : Z) : FreeingBumpHeapAllocator :=
  let aligned_heap_base := wrapping_sub 32 (wrapping_add 32 heap_base ALIGNMENT) 1 / ALIGNMENT * ALIGNMENT in
  mkAllocator aligned_heap_base aligned_heap_base (replicate (Z.to_nat N_ORDERS) Nil) false 0 (mkStats 0 0 0 0).

(** An allocator and the memory it is called with. *)
Record Heap := mkHeap { alloc : FreeingBumpHeapAllocator; memory : Memory }.

Abbreviation H := (M Heap Error).

Definition set_bumper (n : Z) (h : Heap) : Heap :=
  let a := alloc h in mkHeap (mkAllocator (original_heap_base a) n (free_lists a) (poisoned a) (last_observed_memory_size a) (stats a)) (memory h).
Definition set_head (order : Z) (l : Link) (h : Heap) : Heap :=
  let a := alloc h in
  mkHeap (mkAllocator (original_heap_base a) (bumper a) (<[Z.to_nat order := l]> (free_lists a)) (poisoned a) (last_observed_memory_size a) (stats a)) (memory h).
Definition set_poisoned (h : Heap) : Heap :=
  let a := alloc h in mkHeap (mkAllocator (original_heap_base a) (bumper a) (free_lists a) true (last_observed_memory_size a) (stats a)) (memory h).
Definition set_observed (n : Z) (h : Heap) : Heap :=
  let a := alloc h in mkHeap (mkAllocator (original_heap_base a) (bumper a) (free_lists a) (poisoned a) n (stats a)) (memory h).
Definition set_stats (s : AllocationStats) (h : Heap) : Heap :=
  let a := alloc h in mkHeap (mkAllocator (original_heap_base a) (bumper a) (free_lists a) (poisoned a) (last_observed_memory_size a) s) (memory h).
Definition set_memory (m : Memory) (h : Heap) : Heap := mkHeap (alloc h) m.

(** The [?] operator. *)
Definition try_ {A} (r : A + Error) : H A := match r with inl a => ret a | inr e => throw e end.

Definition bombed {A} (m : H A) : H A := λ h,
  match m h with
  | (Ok a, h) => (Ok a, h)
  | (r, h) => (r, set_poisoned h)
  end.

Definition observe_memory_size : H unit :=
  let! m := gets memory in
  let! size := unwrap (memory_size m) in
  let! last := gets (λ h, last_observed_memory_size (alloc h)) in
  if size <? last then throw MemoryShrinked else modify (set_observed size).

Definition bump (size heap_end : Z) : H Z :=
  let! b := gets (λ h, bumper (alloc h)) in
  if heap_end <? wrapping_add 32 b size then throw AllocatorOutOfSpace else
  do! modify (set_bumper (wrapping_add 32 b size)) in
  ret b.

(** The chunk for an order: the head of its free list, or a new one. *)
Definition take_chunk (order : Z) : H Z :=
  let! m := gets memory in
  let! size := unwrap (memory_size m) in
  let! heads := gets (λ h, free_lists (alloc h)) in
  match heads !! Z.to_nat order with
  | None => panic
  | Some (Ptr header_ptr) =>
      if size <? wrapping_add 32 (wrapping_add 32 header_ptr (order_size order)) HEADER_SIZE then panic else
      let! header := try_ (read_from m header_ptr) in
      let! next_free := ok_or (into_free header) (Other "free list points to a occupied header") in
      do! modify (set_head order next_free) in
      ret header_ptr
  | Some Nil => bump (wrapping_add 32 (order_size order) HEADER_SIZE) size
  end.

Definition write_header (header : Header) (header_ptr : Z) : H unit :=
  let! m := gets memory in
  let! m := try_ (write_into header m header_ptr) in
  modify (set_memory m).

Definition count_allocation (order : Z) : H unit :=
  let! a := gets alloc in
  let amount := wrapping_add 32 (order_size order) HEADER_SIZE in
  let bytes := wrapping_add 32 (bytes_allocated (stats a)) amount in
  modify (set_stats (mkStats bytes (Z.max (bytes_allocated_peak (stats a)) bytes) (wrapping_add 128 (bytes_allocated_sum (stats a)) amount)
                       (wrapping_sub 32 (bumper a) (original_heap_base a)))).

Definition allocate (size : Z) : H Z :=
  let! p := gets (λ h, poisoned (alloc h)) in
  if p then throw (Other "the allocator has been poisoned") else
  bombed
    (do! observe_memory_size in
     let! order := try_ (from_size size) in
     let! header_ptr := take_chunk order in
     do! write_header (Occupied order) header_ptr in
     do! count_allocation order in
     ret (wrapping_add 32 header_ptr HEADER_SIZE)).

(** [FreeLists::replace] *)
Definition replace (order : Z) (new : Link) : H Link :=
  let! heads := gets (λ h, free_lists (alloc h)) in
  let! prev := unwrap (heads !! Z.to_nat order) in
  do! modify (set_head order new) in
  ret prev.

Definition count_deallocation (order : Z) : H unit :=
  let! s := gets (λ h, stats (alloc h)) in
  let! bytes := ok_or (checked_sub (bytes_allocated s) (wrapping_add 32 (order_size order) HEADER_SIZE))
                      (Other "underflow of the currently allocated bytes count") in
  modify (set_stats (mkStats bytes (bytes_allocated_peak s) (bytes_allocated_sum s) (address_space_used s))).

Definition deallocate (ptr : Z) : H unit :=
  let! p := gets (λ h, poisoned (alloc h)) in
  if p then throw (Other "the allocator has been poisoned") else
  bombed
    (do! observe_memory_size in
     let! header_ptr := ok_or (checked_sub ptr HEADER_SIZE) (Other "Invalid pointer for deallocation") in
     let! m := gets memory in
     let! header := try_ (read_from m header_ptr) in
     let! order := ok_or (into_occupied header) (Other "the allocation points to an empty header") in
     let! prev_head := replace order (Ptr header_ptr) in
     do! write_header (Free prev_head) header_ptr in
     count_deallocation order).
