(* ===== verification/FreeingBumpProps.v ===== *)
(** The allocator is safe: chunks that are handed out are disjoint, aligned, inside the memory and large
    enough, for every sequence of allocations, deallocations, calls that fail and writes into the chunks that are held. *)

From S2P Require Import Prelude FreeingBump.

(** ** Orders *)

Lemma trailing_zeros_pow2 k : 0 <= k → trailing_zeros (2 ^ k) = k.
Proof.
  intros Hk. rewrite <- (Z2Nat.id k) by done. induction (Z.to_nat k) as [|n IH]; [done|].
  rewrite Nat2Z.inj_succ, Z.pow_succ_r by lia. destruct (2 ^ Z.of_nat n) as [|p|p] eqn:Hp; [by pose proof (Z.pow_pos_nonneg 2 (Z.of_nat n)); lia| |by pose proof (Z.pow_nonneg 2 (Z.of_nat n)); lia].
  change (trailing_zeros (2 * Z.pos p)) with (1 + trailing_zeros (Z.pos p)). lia.
Qed.

Lemma order_size_ok o : 0 <= o < N_ORDERS → order_size o = 8 * 2 ^ o.
Proof.
  unfold N_ORDERS, order_size, MIN_POSSIBLE_ALLOCATION. intros Ho. rewrite Z.shiftl_mul_pow2 by lia.
  pose proof (Z.pow_le_mono_r 2 o 22). pose proof (Z.pow_nonneg 2 o). apply Z.mod_small. lia.
Qed.

Lemma order_size_bounds o : 0 <= o < N_ORDERS → 8 <= 8 * 2 ^ o <= MAX_POSSIBLE_ALLOCATION.
Proof.
  unfold N_ORDERS, MAX_POSSIBLE_ALLOCATION. intros Ho. pose proof (Z.pow_le_mono_r 2 o 22). pose proof (Z.pow_pos_nonneg 2 o). lia.
Qed.

Lemma from_size_ok size :
  0 <= size <= MAX_POSSIBLE_ALLOCATION →
  ∃ o, from_size size = inl o ∧ 0 <= o < N_ORDERS ∧ size <= 8 * 2 ^ o ∧ (o = 0 ∨ 4 * 2 ^ o < size).
Proof.
  unfold from_size, N_ORDERS, MAX_POSSIBLE_ALLOCATION, MIN_POSSIBLE_ALLOCATION. intros Hs. rewrite (proj2 (Z.ltb_ge _ _)) by lia.
  set (c := if size <? 8 then 8 else size). assert (Hc : 8 <= c <= 33554432 ∧ size <= c ∧ (c = 8 ∨ c = size)) by (unfold c; destruct (Z.ltb_spec size 8); lia).
  unfold next_power_of_two. set (k := Z.log2_up c). pose proof (Z.log2_up_spec c ltac:(lia)) as [Hlo Hhi]. fold k in Hlo, Hhi.
  assert (Hk : 3 <= k <= 25).
  { unfold k. split; [change 3 with (Z.log2_up 8)|change 25 with (Z.log2_up 33554432)]; apply Z.log2_up_le_mono; lia. }
  exists (k - 3). rewrite trailing_zeros_pow2 by lia. change (trailing_zeros 8) with 3. rewrite wrapping_sub_id by (unfold umax; lia).
  assert (Hp : 8 * 2 ^ (k - 3) = 2 ^ k) by (change 8 with (2 ^ 3); rewrite <- Z.pow_add_r by lia; f_equal; lia).
  split; [done|]. split; [lia|]. split; [lia|]. destruct (decide (k = 3)) as [->|Hne]; [by left|]. right.
  assert (Hq : 4 * 2 ^ (k - 3) = 2 ^ Z.pred k) by (change 4 with (2 ^ 2); rewrite <- Z.pow_add_r by lia; f_equal; lia).
  destruct Hc as (? & ? & [Hc| ->]); [|lia]. exfalso. apply Hne. unfold k. by rewrite Hc.
Qed.

Lemma from_size_large size : MAX_POSSIBLE_ALLOCATION < size → from_size size = inr RequestedAllocationTooLarge.
Proof. intros Hs. unfold from_size. by rewrite (proj2 (Z.ltb_lt _ _)). Qed.

(** ** The memory *)

Lemma from_to_le w n : 0 <= n < 256 ^ Z.of_nat w → from_le_bytes (to_le w n) = n.
Proof.
  revert n. induction w as [|w IH]; intros n Hn; [simpl in *; lia|]. cbn [to_le]. change (from_le_bytes (?x :: ?l)) with (x + 256 * from_le_bytes l).
  rewrite Nat2Z.inj_succ, Z.pow_succ_r in Hn by lia. rewrite IH; [pose proof (Z.div_mod n 256); lia|].
  split; [apply Z.div_pos; lia|]. apply Z.div_lt_upper_bound; lia.
Qed.

Lemma to_le_length w n : length (to_le w n) = w.
Proof. revert n. induction w as [|w IH]; intros n; simpl; [done|]. by rewrite IH. Qed.

(** Addresses that have room for a header. *)
Definition in_memory (m : Memory) (p : Z) : Prop := 0 <= p ∧ p + 8 <= Z.of_nat (length m) ∧ p + 8 <= u32_max.

Lemma heap_range_in m p : in_memory m p → heap_range p 8 (length m) = Some (Z.to_nat p, Z.to_nat p + 8)%nat.
Proof.
  intros (H0 & Hm & Hu). unfold heap_range, checked_add. unfold u32_max in Hu. rewrite (proj2 (Z.leb_le _ _)) by done.
  rewrite (proj2 (Nat.leb_le _ _)) by lia. do 2 f_equal. lia.
Qed.

(** Bytes outside of the eight that are written stay. *)
Definition same_but (p : Z) (m m' : Memory) : Prop :=
  length m' = length m ∧ ∀ i, (i < Z.to_nat p ∨ Z.to_nat p + 8 <= i)%nat → m' !! i = m !! i.

Lemma write_le_u64_ok m p v :
  in_memory m p → 0 <= v < 2 ^ 64 →
  ∃ m', write_le_u64 m p v = inl m' ∧ same_but p m m' ∧ read_le_u64 m' p = inl v.
Proof.
  intros Hp Hv. pose proof Hp as (H0 & Hm & Hu). unfold write_le_u64, to_le_bytes. rewrite heap_range_in by done. eexists. split; [done|].
  set (m' := take _ m ++ _ ++ _).
  assert (Ht : length (take (Z.to_nat p) m) = Z.to_nat p) by (rewrite length_take; lia).
  assert (Hlen : length m' = length m) by (unfold m'; rewrite !length_app, Ht, length_drop, to_le_length; lia).
  split; [split; [done|]|].
  - intros i [Hi|Hi]; unfold m'.
    + rewrite lookup_app_l by lia. by rewrite lookup_take_lt by lia.
    + rewrite lookup_app_r, Ht by lia. rewrite lookup_app_r by (rewrite to_le_length; lia). rewrite to_le_length, lookup_drop. f_equal. lia.
  - unfold read_le_u64. rewrite heap_range_in by (unfold in_memory; rewrite Hlen; lia). unfold m'.
    replace (Z.to_nat p + 8 - Z.to_nat p)%nat with 8%nat by lia. rewrite drop_app_length' by done.
    rewrite take_app_length' by (symmetry; apply to_le_length). f_equal. by apply (from_to_le 8).
Qed.

(** The eight bytes of an address decide what is read there. *)
Lemma read_from_same m m' p :
  in_memory m p → (length m <= length m')%nat → (∀ i, (Z.to_nat p <= i < Z.to_nat p + 8)%nat → m' !! i = m !! i) → read_from m' p = read_from m p.
Proof.
  intros Hp Hlen Hsame. pose proof Hp as (H0 & Hm & Hu). unfold read_from, read_le_u64.
  rewrite !heap_range_in by (unfold in_memory in *; (done || lia)).
  assert (Heq : take (Z.to_nat p + 8 - Z.to_nat p) (drop (Z.to_nat p) m') = take (Z.to_nat p + 8 - Z.to_nat p) (drop (Z.to_nat p) m)); [|by rewrite Heq].
  apply list_eq. intros i. destruct (decide (i < 8)%nat) as [Hi|Hi].
  - rewrite !lookup_take_lt, !lookup_drop by lia. apply Hsame. lia.
  - rewrite !lookup_take_ge by lia. done.
Qed.

Lemma read_from_other m m' p q :
  same_but p m m' → in_memory m q → (q + 8 <= p ∨ p + 8 <= q) → 0 <= p → read_from m' q = read_from m q.
Proof. intros [Hlen Hb] Hq Hd Hp. pose proof Hq as (? & _). apply read_from_same; [done|lia|]. intros i Hi. apply Hb. lia. Qed.

(** ** Headers *)

Definition header_ok (h : Header) : Prop :=
  match h with Occupied o => 0 <= o < N_ORDERS | Free Nil => True | Free (Ptr p) => 0 <= p < u32_max end.

Lemma lor_mask d : 0 <= d < 2 ^ 32 → Z.lor d OCCUPIED_MASK = d + 2 ^ 32.
Proof.
  intros Hd. unfold OCCUPIED_MASK. rewrite <- Z.add_lor_land. assert (Z.land d (2 ^ 32) = 0) as ->; [|lia].
  apply Z.bits_inj'. intros n Hn. rewrite Z.land_spec, Z.bits_0, Z.pow2_bits_eqb by lia. destruct (Z.eqb_spec 32 n) as [<-|]; [|apply andb_false_r].
  rewrite andb_true_r, Z.testbit_false, Z.div_small by lia. done.
Qed.

Lemma land_mask d : 0 <= d < 2 ^ 32 → Z.land d OCCUPIED_MASK = 0 ∧ Z.land (d + 2 ^ 32) OCCUPIED_MASK = OCCUPIED_MASK.
Proof.
  intros Hd. unfold OCCUPIED_MASK. split; apply Z.bits_inj'; intros n Hn; rewrite Z.land_spec, ?Z.bits_0, Z.pow2_bits_eqb by lia;
    destruct (Z.eqb_spec 32 n) as [<-|]; try apply andb_false_r.
  - rewrite andb_true_r, Z.testbit_false, Z.div_small by lia. done.
  - rewrite andb_true_r, Z.testbit_true by lia. replace (d + 2 ^ 32) with (d + 1 * 2 ^ 32) by lia. rewrite Z.div_add, Z.div_small by lia. done.
Qed.

Lemma link_roundtrip l : header_ok (Free l) → link_from_raw (link_into_raw l) = l ∧ 0 <= link_into_raw l < 2 ^ 32.
Proof.
  unfold link_from_raw, header_ok, NIL_MARKER. destruct l as [|p]; simpl; [split; [done|unfold NIL_MARKER, u32_max, umax; lia]|]. intros Hp.
  rewrite (proj2 (Z.eqb_neq _ _)) by lia. split; [done|]. unfold u32_max, umax in Hp. lia.
Qed.

Lemma write_into_ok h m p :
  in_memory m p → header_ok h → ∃ m', write_into h m p = inl m' ∧ same_but p m m' ∧ read_from m' p = inl h.
Proof.
  intros Hp Hh. destruct h as [l|o]; unfold write_into, read_from.
  - destruct (link_roundtrip l Hh) as [Hl Hr]. rewrite Z.lor_0_r. destruct (write_le_u64_ok m p (link_into_raw l) Hp) as (m' & Hw & Hs & Hread); [lia|].
    exists m'. split; [done|]. split; [done|]. rewrite Hread. destruct (land_mask (link_into_raw l) Hr) as [-> _]. simpl. by rewrite Z.mod_small, Hl by lia.
  - assert (Ho : 0 <= o < 2 ^ 32) by (unfold header_ok, N_ORDERS in Hh; lia). rewrite lor_mask by done.
    destruct (write_le_u64_ok m p (o + 2 ^ 32) Hp) as (m' & Hw & Hs & Hread); [lia|].
    exists m'. split; [done|]. split; [done|]. rewrite Hread. destruct (land_mask o Ho) as [_ ->]. change (OCCUPIED_MASK =? 0) with false. cbn [negb].
    replace ((o + 2 ^ 32) mod 2 ^ 32) with o; [unfold order_from_raw; by rewrite (proj2 (Z.ltb_lt _ _)) by (unfold header_ok in Hh; lia)|].
    replace (o + 2 ^ 32) with (o + 1 * 2 ^ 32) by lia. by rewrite Z_mod_plus_full, Z.mod_small.
Qed.

(** ** The invariant *)

(** Memories and heap bases for which no address wraps around. *)
Definition max_memory : Z := 2 ^ 32 - 2 ^ 25 - 16.

(** The bytes of a chunk with its header. *)
Definition chunk_size (o : Z) : Z := 8 + 8 * 2 ^ o.

(** Chunks, by the addresses of their headers, that fill the heap from [base] to [top]. *)
Record tiling (base top : Z) (chunks : gmap Z Z) : Prop := {
  t_chunk p o : chunks !! p = Some o → base <= p ∧ p mod 8 = 0 ∧ 0 <= o < N_ORDERS ∧ p + chunk_size o <= top;
  t_disjoint p q o o' : chunks !! p = Some o → chunks !! q = Some o' → p ≠ q → p + chunk_size o <= q ∨ q + chunk_size o' <= p;
  t_sum : map_sum chunk_size chunks = top - base }.

(** The free list that starts with the link [l]. *)
Fixpoint chain (m : Memory) (l : Link) (ps : list Z) : Prop :=
  match ps with
  | [] => l = Nil
  | p :: ps => l = Ptr p ∧ ∃ next, read_from m p = inl (Free next) ∧ chain m next ps
  end.

(** The chunks that are [live] (handed out and not returned) have occupied headers, and the free
    lists lead through chunks that are not live. *)
Record heap_inv (a : FreeingBumpHeapAllocator) (m : Memory) (live chunks : gmap Z Z) (free : Z → list Z) : Prop := {
  h_poisoned : poisoned a = false;
  h_lists : length (free_lists a) = Z.to_nat N_ORDERS;
  h_base : 0 <= original_heap_base a <= max_memory ∧ original_heap_base a mod 8 = 0;
  h_bumper : bumper a mod 8 = 0 ∧ (chunks = ∅ ∨ bumper a <= Z.of_nat (length m));
  h_memory : last_observed_memory_size a <= Z.of_nat (length m) <= max_memory;
  h_tiling : tiling (original_heap_base a) (bumper a) chunks;
  h_live p o : live !! p = Some o → chunks !! p = Some o ∧ read_from m p = inl (Occupied o);
  h_free o : 0 <= o < N_ORDERS → NoDup (free o) ∧ (∃ l, free_lists a !! Z.to_nat o = Some l ∧ chain m l (free o)) ∧
    ∀ p, p ∈ free o → chunks !! p = Some o ∧ live !! p = None;
  h_bytes : bytes_allocated (stats a) = map_sum chunk_size live }.

Lemma chunk_size_bounds o : 0 <= o < N_ORDERS → 16 <= chunk_size o <= MAX_POSSIBLE_ALLOCATION + 8.
Proof. intros Ho. pose proof (order_size_bounds o Ho). unfold chunk_size. lia. Qed.

Lemma amount_ok o : 0 <= o < N_ORDERS → wrapping_add 32 (order_size o) HEADER_SIZE = chunk_size o.
Proof.
  intros Ho. pose proof (order_size_bounds o Ho). rewrite order_size_ok by done. unfold MAX_POSSIBLE_ALLOCATION, HEADER_SIZE, chunk_size in *.
  rewrite wrapping_add_id by (unfold umax; lia). lia.
Qed.

Lemma sum_subset (live chunks : gmap Z Z) :
  live ⊆ chunks → (∀ p o, chunks !! p = Some o → 0 <= chunk_size o) → map_sum chunk_size live <= map_sum chunk_size chunks.
Proof.
  revert chunks. induction live as [|p o live Hp IH] using map_ind; intros chunks Hsub Hpos.
  - rewrite map_sum_empty. by apply map_sum_nonneg.
  - rewrite (map_sum_split _ (<[p := o]> live) p), (map_sum_split _ chunks p), lookup_insert_eq, delete_insert_id by done.
    assert (chunks !! p = Some o) as -> by (eapply lookup_weaken; [apply lookup_insert_eq|done]). simpl.
    assert (map_sum chunk_size live <= map_sum chunk_size (delete p chunks)); [|lia].
    apply IH; [|intros q o' [_ Hq]%lookup_delete_Some; by apply (Hpos q)].
    apply map_subseteq_spec. intros q o' Hq. assert (q ≠ p) by congruence. rewrite lookup_delete_ne by done.
    eapply lookup_weaken; [|exact Hsub]. by rewrite lookup_insert_ne.
Qed.

Section Inv.
Context (a : FreeingBumpHeapAllocator) (m : Memory) (live chunks : gmap Z Z) (free : Z → list Z) (I : heap_inv a m live chunks free).

Lemma bumper_bounds : original_heap_base a <= bumper a <= max_memory.
Proof.
  destruct I as [_ _ [Hb _] [_ Hbump] [_ Hm] [Hc _ Hsum] _ _ _].
  assert (0 <= map_sum chunk_size chunks) by (apply map_sum_nonneg; intros p o Hp; pose proof (chunk_size_bounds o); destruct (Hc p o Hp) as (_ & _ & ? & _); lia).
  destruct Hbump as [->|?]; [rewrite map_sum_empty in *; lia|lia].
Qed.

Lemma chunk_place p o : chunks !! p = Some o → 0 <= p ∧ 0 <= o < N_ORDERS ∧ p + chunk_size o <= bumper a ∧ bumper a <= Z.of_nat (length m).
Proof.
  intros Hp. destruct I as [_ _ [Hb _] [_ Hbump] _ [Hc _ _] _ _ _]. destruct (Hc p o Hp) as (? & ? & ? & ?). destruct Hbump as [->|?]; [done|lia].
Qed.

Lemma chunk_in_memory p o : chunks !! p = Some o → in_memory m p.
Proof.
  intros Hp. destruct (chunk_place p o Hp) as (? & Ho & ? & ?). pose proof (chunk_size_bounds o Ho). destruct I as [_ _ _ _ [_ Hm] _ _ _ _].
  unfold in_memory, max_memory, u32_max, umax in *. lia.
Qed.

Lemma chunk_address p o : chunks !! p = Some o → 0 <= p < u32_max.
Proof. intros Hp. destruct (chunk_in_memory p o Hp) as (? & _ & ?). lia. Qed.

Lemma live_subset : live ⊆ chunks.
Proof. apply map_subseteq_spec. intros p o Hp. by apply (h_live _ _ _ _ _ I). Qed.

Lemma live_bytes : 0 <= bytes_allocated (stats a) <= bumper a - original_heap_base a.
Proof.
  assert (Hpos : ∀ p o, chunks !! p = Some o → 0 <= chunk_size o).
  { intros p o Hp. pose proof (chunk_size_bounds o). destruct (chunk_place p o Hp) as (_ & ? & _). lia. }
  rewrite (h_bytes _ _ _ _ _ I), <- (t_sum _ _ _ (h_tiling _ _ _ _ _ I)). split; [|by apply sum_subset; [apply live_subset|]].
  apply map_sum_nonneg. intros p o Hp. apply (Hpos p). by apply (lookup_weaken live); [|apply live_subset].
Qed.

(** What is read at a chunk's header is not changed by a write to another's. *)
Lemma other_header m' p o q o' :
  same_but p m m' → chunks !! p = Some o → chunks !! q = Some o' → p ≠ q → read_from m' q = read_from m q.
Proof.
  intros Hs Hp Hq Hne. destruct (chunk_place p o Hp) as (? & Ho & _). destruct (chunk_place q o' Hq) as (_ & Ho' & _).
  pose proof (chunk_size_bounds o Ho). pose proof (chunk_size_bounds o' Ho').
  apply (read_from_other m m' p q); [done|by apply (chunk_in_memory q o')| |done].
  destruct (t_disjoint _ _ _ (h_tiling _ _ _ _ _ I) p q o o' Hp Hq Hne); lia.
Qed.

Lemma chain_kept m' l ps : chain m l ps → (∀ p, p ∈ ps → read_from m' p = read_from m p) → chain m' l ps.
Proof.
  revert l. induction ps as [|p ps IH]; intros l Hc Hr; [done|]. destruct Hc as (-> & next & Hn & Hc). split; [done|]. exists next.
  rewrite Hr by left. split; [done|]. apply IH; [done|]. intros q Hq. apply Hr. by right.
Qed.
End Inv.

(** ** The steps of an allocation *)

Lemma size_run a m live chunks free : heap_inv a m live chunks free → memory_size m = Some (Z.of_nat (length m)).
Proof.
  intros I. destruct (h_memory _ _ _ _ _ I) as [_ Hm]. unfold memory_size, max_memory, u32_max, umax in *. by rewrite (proj2 (Z.leb_le _ _)) by lia.
Qed.

(** The allocator with another memory size, list or count. *)
Abbreviation observed a m := (alloc (set_observed (Z.of_nat (length m)) (mkHeap a m))).
Abbreviation headed a m o l := (alloc (set_head o l (mkHeap a m))).
Abbreviation bumped a m n := (alloc (set_bumper n (mkHeap a m))).
Abbreviation counted a m s := (alloc (set_stats s (mkHeap a m))).

Definition with_list (free : Z → list Z) (o : Z) (ps : list Z) : Z → list Z := λ o', if decide (o' = o) then ps else free o'.

Lemma observe_run a m live chunks free :
  heap_inv a m live chunks free →
  observe_memory_size (mkHeap a m) = (Ok tt, mkHeap (observed a m) m) ∧ heap_inv (observed a m) m live chunks free.
Proof.
  intros I. destruct (h_memory _ _ _ _ _ I) as [Hl Hm]. split.
  - unfold observe_memory_size, bind, gets. simpl. rewrite (size_run a m live chunks free I). simpl. by rewrite (proj2 (Z.ltb_ge _ _)) by lia.
  - destruct I. split; simpl; (done || lia).
Qed.

Lemma pop_run a m live chunks free o p ps :
  heap_inv a m live chunks free → 0 <= o < N_ORDERS → free o = p :: ps →
  ∃ next, take_chunk o (mkHeap a m) = (Ok p, mkHeap (headed a m o next) m) ∧
    heap_inv (headed a m o next) m live chunks (with_list free o ps) ∧
    chunks !! p = Some o ∧ live !! p = None ∧ ∀ o', 0 <= o' < N_ORDERS → p ∉ with_list free o ps o'.
Proof.
  intros I Ho Hps. destruct (h_free _ _ _ _ _ I o Ho) as (Hnd & (l & Hl & Hc) & Hin). rewrite Hps in *. destruct Hc as (-> & next & Hr & Hc).
  destruct (Hin p ltac:(left)) as [Hp Hlp]. destruct (chunk_place _ _ _ _ _ I p o Hp) as (? & _ & Hend & Hb).
  pose proof (bumper_bounds _ _ _ _ _ I) as [_ Hmax]. apply NoDup_cons in Hnd as [Hpps Hnd].
  exists next. split_and!; try done.
  - unfold take_chunk, bind, gets, unwrap. simpl. rewrite (size_run a m live chunks free I). simpl. rewrite Hl.
    rewrite order_size_ok by done. unfold chunk_size, HEADER_SIZE, max_memory in *. pose proof (order_size_bounds o Ho).
    rewrite (wrapping_add_id 32 p) by (unfold umax; lia). rewrite wrapping_add_id by (unfold umax; lia). rewrite (proj2 (Z.ltb_ge _ _)) by lia. by rewrite Hr.
  - destruct I as [H1 H2 H3 H4 H5 H6 H7 H8 H9]. split; simpl; try done; [by rewrite length_insert|].
    intros o' Ho'. unfold with_list. destruct (decide (o' = o)) as [->|Hne].
    + split; [done|]. split; [exists next; split; [apply list_lookup_insert_eq; apply lookup_lt_Some in Hl; lia|done]|]. intros q Hq. apply Hin. by right.
    + destruct (H8 o' Ho') as (? & (l' & Hl' & Hc') & ?). split; [done|]. split; [|done]. exists l'. split; [|done].
      rewrite list_lookup_insert_ne; [done|]. intros Heq%Z2Nat.inj; lia.
  - intros o' Ho'. unfold with_list. destruct (decide (o' = o)) as [->|Hne]; [done|]. intros Hq. destruct (h_free _ _ _ _ _ I o' Ho') as (_ & _ & Hin').
    destruct (Hin' p Hq) as [Hp' _]. congruence.
Qed.

(** No free list leads to an address that is not a chunk. *)
Lemma fresh_address a m live chunks free p :
  heap_inv a m live chunks free → chunks !! p = None → live !! p = None ∧ ∀ o, 0 <= o < N_ORDERS → p ∉ free o.
Proof.
  intros I Hp. split.
  - destruct (live !! p) as [o|] eqn:Hl; [|done]. destruct (h_live _ _ _ _ _ I p o Hl). congruence.
  - intros o Ho Hin. destruct (h_free _ _ _ _ _ I o Ho) as (_ & _ & Hf). destruct (Hf p Hin). congruence.
Qed.

Lemma bumper_fresh a m live chunks free : heap_inv a m live chunks free → chunks !! bumper a = None.
Proof.
  intros I. destruct (chunks !! bumper a) as [o|] eqn:Hp; [|done]. destruct (chunk_place _ _ _ _ _ I _ _ Hp) as (_ & Ho & ? & _).
  pose proof (chunk_size_bounds o Ho). lia.
Qed.

Lemma tiling_bump base top chunks o :
  tiling base top chunks → base <= top → top mod 8 = 0 → chunks !! top = None → 0 <= o < N_ORDERS → tiling base (top + chunk_size o) (<[top := o]> chunks).
Proof.
  intros [Hc Hd Hs] Hle Hal Hn Ho. pose proof (chunk_size_bounds o Ho). split.
  - intros p o' [[<- <-]|[Hne Hp]]%lookup_insert_Some; [done|]. destruct (Hc p o' Hp) as (? & ? & ? & ?). split_and!; try done; lia.
  - intros p q o1 o2 [[<- <-]|[_ Hp]]%lookup_insert_Some [[<- <-]|[_ Hq]]%lookup_insert_Some Hpq; [done| | |by apply Hd].
    + right. by apply (Hc q o2).
    + left. by apply (Hc p o1).
  - rewrite (map_sum_split _ _ top), lookup_insert_eq, delete_insert_id by done. simpl. lia.
Qed.

Lemma bump_run a m live chunks free o :
  heap_inv a m live chunks free → 0 <= o < N_ORDERS → free o = [] →
  let b := bumper a in
  (b + chunk_size o <= Z.of_nat (length m) ∧ take_chunk o (mkHeap a m) = (Ok b, mkHeap (bumped a m (b + chunk_size o)) m) ∧
     heap_inv (bumped a m (b + chunk_size o)) m live (<[b := o]> chunks) free) ∨
  (Z.of_nat (length m) < b + chunk_size o ∧ take_chunk o (mkHeap a m) = (Err AllocatorOutOfSpace, mkHeap a m)).
Proof.
  intros I Ho Hf b. pose proof (bumper_bounds _ _ _ _ _ I) as [Hbase Hmax]. pose proof (chunk_size_bounds o Ho) as Hcs.
  destruct (h_free _ _ _ _ _ I o Ho) as (_ & (l & Hl & Hc) & _). rewrite Hf in Hc. simpl in Hc. subst l.
  destruct (h_base _ _ _ _ _ I) as [[Hb0 _] _]. unfold max_memory, MAX_POSSIBLE_ALLOCATION in *.
  assert (Hrun : take_chunk o (mkHeap a m) = if Z.of_nat (length m) <? b + chunk_size o then (Err AllocatorOutOfSpace, mkHeap a m)
    else (Ok b, mkHeap (bumped a m (b + chunk_size o)) m)).
  { unfold take_chunk, bind, gets, unwrap. simpl. rewrite (size_run a m live chunks free I). simpl. rewrite Hl.
    rewrite amount_ok by done. unfold bump, bind, gets. simpl. rewrite wrapping_add_id by (unfold umax; lia). fold b. by destruct (_ <? _). }
  rewrite Hrun. destruct (Z.ltb_spec (Z.of_nat (length m)) (b + chunk_size o)) as [Hlt|Hle]; [by right|]. left. split; [done|]. split; [done|].
  pose proof (bumper_fresh _ _ _ _ _ I) as Hfresh. destruct (fresh_address _ _ _ _ _ b I Hfresh) as [Hlb Hfb].
  destruct I as [H1 H2 H3 H4 H5 H6 H7 H8 H9]. split; simpl; try done.
  - split; [|by right]. destruct H4 as [H4 _]. unfold chunk_size, b. clear - H4. generalize (2 ^ o). intros x. Z.to_euclidean_division_equations. lia.
  - apply tiling_bump; [done|lia|apply H4|done|done].
  - intros p o' Hp. destruct (H7 p o' Hp). split; [|done]. rewrite lookup_insert_ne; [done|]. intros <-. unfold b in *. congruence.
  - intros o' Ho'. destruct (H8 o' Ho') as (? & ? & Hin). split; [done|]. split; [done|]. intros p Hp. destruct (Hin p Hp). split; [|done].
    rewrite lookup_insert_ne; [done|]. intros <-. by apply (Hfb o').
Qed.

(** The chains and the live headers after a write to the header of [p]. *)
Lemma headers_kept a m live chunks free p o m' :
  heap_inv a m live chunks free → chunks !! p = Some o → same_but p m m' →
  (∀ q o', live !! q = Some o' → p ≠ q → read_from m' q = inl (Occupied o')) ∧
  ∀ o' l, 0 <= o' < N_ORDERS → p ∉ free o' → chain m l (free o') → chain m' l (free o').
Proof.
  intros I Hp Hs. split.
  - intros q o' Hq Hne. destruct (h_live _ _ _ _ _ I q o' Hq) as [Hc <-]. by apply (other_header a m live chunks free I m' p o q o').
  - intros o' l Ho' Hnin Hc. apply (chain_kept m); [done|]. intros q Hq. destruct (h_free _ _ _ _ _ I o' Ho') as (_ & _ & Hin). destruct (Hin q Hq) as [Hqc _].
    apply (other_header a m live chunks free I m' p o q o'); [done|done|done|]. by intros ->.
Qed.

Lemma write_header_run h a m p m' : write_into h m p = inl m' → write_header h p (mkHeap a m) = (Ok tt, mkHeap a m').
Proof. intros Hw. unfold write_header, bind, gets. simpl. by rewrite Hw. Qed.

(** Writing the occupied header of a chunk that is in no list makes it live. *)
Lemma occupy_run a m live chunks free p o :
  heap_inv a m live chunks free → chunks !! p = Some o → live !! p = None → (∀ o', 0 <= o' < N_ORDERS → p ∉ free o') →
  ∃ m' s, write_header (Occupied o) p (mkHeap a m) = (Ok tt, mkHeap a m') ∧
    count_allocation o (mkHeap a m') = (Ok tt, mkHeap (counted a m' s) m') ∧ same_but p m m' ∧
    heap_inv (counted a m' s) m' (<[p := o]> live) chunks free.
Proof.
  intros I Hp Hl Hf. destruct (chunk_place _ _ _ _ _ I p o Hp) as (_ & Ho & _).
  destruct (write_into_ok (Occupied o) m p (chunk_in_memory _ _ _ _ _ I p o Hp) Ho) as (m' & Hw & Hs & Hr).
  destruct (headers_kept _ _ _ _ _ p o m' I Hp Hs) as [Hlive Hchain].
  eexists m', _. split; [by apply write_header_run|]. split; [unfold count_allocation, bind, gets; simpl; reflexivity|]. split; [done|].
  assert (Hsum : map_sum chunk_size (<[p := o]> live) = chunk_size o + map_sum chunk_size live).
  { rewrite (map_sum_split _ _ p), lookup_insert_eq, delete_insert_id by done. done. }
  assert (Hle : map_sum chunk_size (<[p := o]> live) <= bumper a - original_heap_base a).
  { rewrite <- (t_sum _ _ _ (h_tiling _ _ _ _ _ I)). apply sum_subset; [apply insert_subseteq_l; [done|by eapply live_subset]|].
    intros q o' Hq. destruct (chunk_place _ _ _ _ _ I q o' Hq) as (_ & ? & _). pose proof (chunk_size_bounds o'). lia. }
  pose proof (bumper_bounds _ _ _ _ _ I) as [_ Hmax]. pose proof (live_bytes _ _ _ _ _ I) as [Hb _]. pose proof (chunk_size_bounds o Ho).
  destruct Hs as [Hlen _]. destruct I as [H1 H2 H3 H4 H5 H6 H7 H8 H9]. split; simpl; rewrite ?Hlen; try done.
  - intros q o' [[<- <-]|[Hne Hq]]%lookup_insert_Some; [done|]. split; [by apply H7|by apply Hlive].
  - intros o' Ho'. destruct (H8 o' Ho') as (? & (l & Hl' & Hc) & Hin). split; [done|]. split; [exists l; split; [done|]; apply Hchain; auto|].
    intros q Hq. destruct (Hin q Hq). split; [done|]. rewrite lookup_insert_ne; [done|]. intros <-. by apply (Hf o').
  - rewrite amount_ok by done. rewrite wrapping_add_id; [lia|lia|]. destruct H3 as [[? _] _]. unfold max_memory, umax in *. lia.
Qed.

(** What an allocation does, on all of its branches. *)
Lemma allocate_run a m live chunks free size :
  heap_inv a m live chunks free → 0 <= size →
  (∃ o p a' m' chunks' free', from_size size = inl o ∧ size <= 8 * 2 ^ o ∧ live !! p = None ∧
     allocate size (mkHeap a m) = (Ok (p + 8), mkHeap a' m') ∧ same_but p m m' ∧
     original_heap_base a' = original_heap_base a ∧ last_observed_memory_size a' = Z.of_nat (length m) ∧
     heap_inv a' m' (<[p := o]> live) chunks' free' ∧
     (free o = p :: free' o ∧ bumper a' = bumper a ∨ free o = [] ∧ p = bumper a)) ∨
  (∃ e, allocate size (mkHeap a m) = (Err e, set_poisoned (mkHeap (observed a m) m)) ∧
     (e = RequestedAllocationTooLarge ∧ MAX_POSSIBLE_ALLOCATION < size ∨
      e = AllocatorOutOfSpace ∧ ∃ o, from_size size = inl o ∧ free o = [] ∧ Z.of_nat (length m) < bumper a + chunk_size o)).
Proof.
  intros I Hsize. destruct (observe_run _ _ _ _ _ I) as [Hobs I1]. unfold allocate, gets. erewrite bind_run by done. simpl. rewrite (h_poisoned _ _ _ _ _ I).
  unfold bombed. rewrite (bind_run _ _ _ _ _ Hobs).
  destruct (Z.ltb_spec MAX_POSSIBLE_ALLOCATION size) as [Hbig|Hsmall].
  { right. rewrite (from_size_large _ Hbig). eexists. split; [done|]. by left. }
  destruct (from_size_ok size) as (o & Ho & Hor & Hfit & _); [done|]. rewrite Ho. erewrite bind_run by done.
  assert (Hdone : ∀ a2 chunks2 free2 p, heap_inv a2 m live chunks2 free2 → chunks2 !! p = Some o → live !! p = None → (∀ o', 0 <= o' < N_ORDERS → p ∉ free2 o') →
    take_chunk o (mkHeap (observed a m) m) = (Ok p, mkHeap a2 m) → ∃ a' m',
    match bind (take_chunk o) (λ header_ptr, do! write_header (Occupied o) header_ptr in do! count_allocation o in ret (wrapping_add 32 header_ptr HEADER_SIZE)) (mkHeap (observed a m) m) with
    | (Ok x, h) => (Ok x, h) | (r, h) => (r, set_poisoned h) end = (Ok (p + 8), mkHeap a' m') ∧ same_but p m m' ∧
    original_heap_base a' = original_heap_base a2 ∧ last_observed_memory_size a' = last_observed_memory_size a2 ∧ bumper a' = bumper a2 ∧ heap_inv a' m' (<[p := o]> live) chunks2 free2).
  { intros a2 chunks2 free2 p I2 Hp Hl Hf Hrun. destruct (occupy_run _ _ _ _ _ p o I2 Hp Hl Hf) as (m' & s & Hw & Hcnt & Hs & I3).
    eexists _, m'. rewrite (bind_run _ _ _ _ _ Hrun), (bind_run _ _ _ _ _ Hw), (bind_run _ _ _ _ _ Hcnt). simpl.
    destruct (chunk_in_memory _ _ _ _ _ I2 p o Hp) as (? & _ & ?). unfold HEADER_SIZE, u32_max, umax in *. rewrite wrapping_add_id by (unfold umax; lia).
    split; [done|]. split; [done|]. split; [done|]. split; [done|]. split; [done|]. exact I3. }
  destruct (free o) as [|p ps] eqn:Hps.
  - destruct (bump_run _ _ _ _ _ o I1 Hor Hps) as [(Hroom & Hrun & I2)|(Hfull & Hrun)].
    + simpl in *. pose proof (bumper_fresh _ _ _ _ _ I) as Hfresh. destruct (fresh_address _ _ _ _ _ _ I Hfresh) as [Hl Hf].
      destruct (Hdone _ _ _ _ I2 (lookup_insert_eq _ _ _) Hl Hf Hrun) as (a' & m' & Hr & Hs & Hb & Hob & _ & I3).
      left. exists o, (bumper a), a', m', (<[bumper a := o]> chunks), free. rewrite Hr. split_and!; try done. by right.
    + right. unfold bind at 1. rewrite Hrun. eexists. split; [done|]. right. split; [done|]. by exists o.
  - destruct (pop_run _ _ _ _ _ o p ps I1 Hor Hps) as (next & Hrun & I2 & Hp & Hl & Hf).
    destruct (Hdone _ _ _ _ I2 Hp Hl Hf Hrun) as (a' & m' & Hr & Hs & Hb & Hob & Hbu & I3).
    left. exists o, p, a', m', chunks, (with_list free o ps). rewrite Hr. split_and!; try done. left. unfold with_list. rewrite decide_True by done. done.
Qed.

(** ** Deallocation *)

Lemma chain_head m l ps : chain m l ps → l = match ps with [] => Nil | p :: _ => Ptr p end.
Proof. destruct ps; simpl; [done|]. by intros [-> _]. Qed.

(** Writing a free header over a live chunk, linked to the list of its order. *)
Lemma release_run a m live chunks free p o :
  heap_inv a m live chunks free → live !! p = Some o →
  ∃ l m' s, free_lists a !! Z.to_nat o = Some l ∧
    write_header (Free l) p (mkHeap (headed a m o (Ptr p)) m) = (Ok tt, mkHeap (headed a m o (Ptr p)) m') ∧
    count_deallocation o (mkHeap (headed a m o (Ptr p)) m') = (Ok tt, mkHeap (counted (headed a m o (Ptr p)) m' s) m') ∧ same_but p m m' ∧
    heap_inv (counted (headed a m o (Ptr p)) m' s) m' (delete p live) chunks (with_list free o (p :: free o)).
Proof.
  intros I Hlp. destruct (h_live _ _ _ _ _ I p o Hlp) as [Hp Hocc]. destruct (chunk_place _ _ _ _ _ I p o Hp) as (_ & Ho & _).
  destruct (h_free _ _ _ _ _ I o Ho) as (Hnd & (l & Hl & Hc) & Hin). exists l.
  assert (Hok : header_ok (Free l)).
  { rewrite (chain_head _ _ _ Hc). destruct (free o) as [|q qs]; [done|]. destruct (Hin q ltac:(left)) as [Hq _]. simpl. by apply (chunk_address _ _ _ _ _ I q o). }
  destruct (write_into_ok (Free l) m p (chunk_in_memory _ _ _ _ _ I p o Hp) Hok) as (m' & Hw & Hs & Hr).
  destruct (headers_kept _ _ _ _ _ p o m' I Hp Hs) as [Hlive Hchain].
  assert (Hnp : ∀ o', 0 <= o' < N_ORDERS → p ∉ free o').
  { intros o' Ho' Hq. destruct (h_free _ _ _ _ _ I o' Ho') as (_ & _ & Hin'). destruct (Hin' p Hq). congruence. }
  assert (Hsum : bytes_allocated (stats a) = chunk_size o + map_sum chunk_size (delete p live)).
  { rewrite (h_bytes _ _ _ _ _ I), (map_sum_split _ _ p), Hlp. done. }
  assert (Hrest : 0 <= map_sum chunk_size (delete p live)).
  { apply map_sum_nonneg. intros q o' [_ Hq]%lookup_delete_Some. destruct (h_live _ _ _ _ _ I q o' Hq) as [Hqc _].
    destruct (chunk_place _ _ _ _ _ I q o' Hqc) as (_ & ? & _). pose proof (chunk_size_bounds o'). lia. }
  eexists m', _. split; [done|]. split; [by apply write_header_run|].
  split; [unfold count_deallocation, bind, gets, ok_or; simpl; rewrite amount_ok by done; unfold checked_sub; rewrite (proj2 (Z.leb_le _ _)) by lia; reflexivity|].
  split; [done|]. destruct Hs as [Hlen _]. destruct I as [H1 H2 H3 H4 H5 H6 H7 H8 H9]. split; simpl; rewrite ?Hlen, ?length_insert; try done.
  - intros q o' [Hne Hq]%lookup_delete_Some. split; [by apply H7|by apply Hlive].
  - intros o' Ho'. unfold with_list. destruct (decide (o' = o)) as [->|Hne].
    + split; [constructor; [by apply Hnp|done]|]. split.
      * exists (Ptr p). split; [apply list_lookup_insert_eq; apply lookup_lt_Some in Hl; lia|]. split; [done|]. exists l. split; [done|]. by apply Hchain; [|apply Hnp|].
      * intros q [->|Hq]%elem_of_cons; [split; [done|apply lookup_delete_eq]|]. destruct (Hin q Hq) as [? Hlq]. split; [done|].
        rewrite lookup_delete_ne; [done|]. intros ->. congruence.
    + destruct (H8 o' Ho') as (? & (l' & Hl' & Hc') & Hin'). split; [done|]. split.
      * exists l'. split; [|apply Hchain; auto]. rewrite list_lookup_insert_ne; [done|]. intros Heq%Z2Nat.inj; lia.
      * intros q Hq. destruct (Hin' q Hq). split; [done|]. rewrite lookup_delete_ne; [done|]. intros ->. by apply (Hnp o').
  - lia.
Qed.

Lemma deallocate_run a m live chunks free p o :
  heap_inv a m live chunks free → live !! p = Some o →
  ∃ a' m', deallocate (p + 8) (mkHeap a m) = (Ok tt, mkHeap a' m') ∧ same_but p m m' ∧
    original_heap_base a' = original_heap_base a ∧ bumper a' = bumper a ∧
    heap_inv a' m' (delete p live) chunks (with_list free o (p :: free o)).
Proof.
  intros I Hlp. destruct (observe_run _ _ _ _ _ I) as [Hobs I1]. unfold deallocate, gets. erewrite bind_run by done. simpl. rewrite (h_poisoned _ _ _ _ _ I).
  destruct (h_live _ _ _ _ _ I p o Hlp) as [Hp Hocc]. destruct (chunk_in_memory _ _ _ _ _ I p o Hp) as (Hp0 & _ & _).
  destruct (release_run _ _ _ _ _ p o I1 Hlp) as (l & m' & s & Hl & Hw & Hcnt & Hs & I2).
  eexists _, m'. unfold bombed. rewrite (bind_run _ _ _ _ _ Hobs).
  unfold checked_sub, HEADER_SIZE. rewrite (proj2 (Z.leb_le _ _)) by lia. replace (p + 8 - 8) with p by lia. erewrite bind_run by done.
  erewrite bind_run by done. simpl. rewrite Hocc. erewrite bind_run by done. erewrite bind_run by done.
  assert (Hrep : replace o (Ptr p) (mkHeap (observed a m) m) = (Ok l, mkHeap (headed (observed a m) m o (Ptr p)) m)).
  { unfold replace, bind, gets, unwrap. simpl. simpl in Hl. by rewrite Hl. }
  rewrite (bind_run _ _ _ _ _ Hrep), (bind_run _ _ _ _ _ Hw), Hcnt. split; [done|]. split; [done|]. split; [done|]. split; [done|]. exact I2.
Qed.

(** A call that fails poisons the allocator, and leaves the counts and the size of the memory. *)
Record spent (h h' : Heap) : Prop := {
  sp_poisoned : poisoned (alloc h') = true;
  sp_stats : stats (alloc h') = stats (alloc h);
  sp_memory : length (memory h') = length (memory h) }.

Lemma write_le_u64_length m p v m' : 0 <= p → write_le_u64 m p v = inl m' → length m' = length m.
Proof.
  intros Hp. unfold write_le_u64, heap_range, checked_add, to_le_bytes. destruct (_ <=? _); [|done].
  destruct (Nat.leb_spec (Z.to_nat (p + 8)) (length m)); [|done]. pose proof (to_le_length 8 v) as Hv. revert Hv.
  assert (Hs : (Z.to_nat p + 8 = Z.to_nat (p + 8))%nat) by lia. revert Hs H. generalize (to_le 8 v), (Z.to_nat (p + 8)), (Z.to_nat p).
  intros l e s Hs He Hl [= <-]. rewrite !length_app, length_take, length_drop. lia.
Qed.

Lemma write_into_length hd m p m' : 0 <= p → write_into hd m p = inl m' → length m' = length m.
Proof. intros Hp. unfold write_into. destruct hd; by apply write_le_u64_length. Qed.

Lemma wp_bombed {A} (m : M Heap Error A) (Q : outcome Error A → Heap → Prop) h :
  wp m (λ r h', match r with Ok a => Q (Ok a) h' | r => Q r (set_poisoned h') end) h → wp (bombed m) Q h.
Proof. unfold wp, bombed. by destruct (m h) as [[] h']. Qed.

Lemma deallocate_fails ptr h e h' : poisoned (alloc h) = false → deallocate ptr h = (Err e, h') → spent h h'.
Proof.
  intros Hp Hrun. set (Q := λ (r : outcome Error unit) h', match r with Err _ => spent h h' | _ => True end). change (Q (Err e) h').
  refine (wp_run _ _ _ _ _ _ Hrun). clear Hrun. unfold deallocate. wp_steps. rewrite Hp. apply wp_bombed.
  unfold observe_memory_size. wp_steps. destruct (memory_size _); cbn [unwrap]; [|done]. wp_steps. destruct (_ <? _); wp_steps; [done| |done].
  unfold try_. destruct (read_from _ _) as [hd|]; wp_steps; [|done|done]. unfold replace. wp_steps. destruct (_ !! _) as [l|]; cbn [unwrap]; [|done].
  unfold write_header. wp_steps. unfold try_. destruct (write_into _ _ _) as [m'|] eqn:Hw; [|done]. unfold count_deallocation. wp_steps; [done|].
  split; [done|done|]. simpl. apply (write_into_length _ _ _ _) in Hw; [done|]. unfold checked_sub in *. destruct (Z.leb_spec HEADER_SIZE ptr); [|done].
  simplify_eq. lia.
Qed.

Lemma poisoned_calls h size ptr :
  poisoned (alloc h) = true →
  allocate size h = (Err (Other "the allocator has been poisoned"), h) ∧ deallocate ptr h = (Err (Other "the allocator has been poisoned"), h).
Proof. intros Hp. unfold allocate, deallocate, bind, gets. cbn beta iota. by rewrite Hp. Qed.

(** ** Reachable heaps *)

(** Bytes of the chunks that are held. *)
Definition in_chunk (live : gmap Z Z) (i : nat) : Prop := ∃ p o, live !! p = Some o ∧ p + 8 <= Z.of_nat i < p + chunk_size o.

(** The program calls the allocator, returns what it holds, and writes to it; calls may fail, with any
    pointer; the memory may grow, up to [max_memory]. *)
Inductive heap_step : Heap * gmap Z Z → Heap * gmap Z Z → Prop :=
| step_allocate h live size ptr h' o :
    0 <= size → allocate size h = (Ok ptr, h') → from_size size = inl o → heap_step (h, live) (h', <[ptr - 8 := o]> live)
| step_deallocate h live p h' :
    is_Some (live !! p) → deallocate (p + 8) h = (Ok tt, h') → heap_step (h, live) (h', delete p live)
| step_allocate_fails h live size e h' :
    0 <= size → allocate size h = (Err e, h') → heap_step (h, live) (h', live)
| step_deallocate_fails h live ptr e h' :
    deallocate ptr h = (Err e, h') → heap_step (h, live) (h', live)
| step_write h live m' :
    (length (memory h) <= length m')%nat → Z.of_nat (length m') <= max_memory →
    (∀ i, (i < length (memory h))%nat → ¬ in_chunk live i → m' !! i = memory h !! i) →
    heap_step (h, live) (mkHeap (alloc h) m', live).

Definition reachable (heap_base : Z) (h : Heap) (live : gmap Z Z) : Prop :=
  ∃ m, Z.of_nat (length m) <= max_memory ∧ rtc heap_step (mkHeap (new heap_base) m, ∅) (h, live).

Lemma write_inv a m live chunks free m' :
  heap_inv a m live chunks free → Z.of_nat (length m') <= max_memory → (length m <= length m')%nat →
  (∀ i, (i < length m)%nat → ¬ in_chunk live i → m' !! i = m !! i) → heap_inv a m' live chunks free.
Proof.
  intros I Hmax Hlen Hsame.
  assert (Hhdr : ∀ q o, chunks !! q = Some o → read_from m' q = read_from m q).
  { intros q o Hq. pose proof (chunk_in_memory _ _ _ _ _ I q o Hq) as Hm. apply read_from_same; [done|lia|]. intros i Hi. destruct Hm as (? & Hm & _).
    apply Hsame; [lia|]. intros (p & o' & Hp & Hrange). destruct (h_live _ _ _ _ _ I p o' Hp) as [Hpc _].
    destruct (chunk_place _ _ _ _ _ I q o Hq) as (_ & Ho & _). destruct (chunk_place _ _ _ _ _ I p o' Hpc) as (_ & Ho' & _).
    pose proof (chunk_size_bounds o Ho). pose proof (chunk_size_bounds o' Ho'). destruct (decide (p = q)) as [->|Hne]; [lia|].
    destruct (t_disjoint _ _ _ (h_tiling _ _ _ _ _ I) p q o' o Hpc Hq Hne); lia. }
  destruct I as [H1 H2 H3 H4 H5 H6 H7 H8 H9]. split; try done.
  - destruct H4 as [? [->|?]]; split; (done || (by left) || (right; lia)).
  - lia.
  - intros p o Hp. destruct (H7 p o Hp) as [Hc ?]. split; [done|]. by rewrite (Hhdr p o Hc).
  - intros o Ho. destruct (H8 o Ho) as (? & (l & Hl & Hc) & Hin). split; [done|]. split; [|done]. exists l. split; [done|].
    apply (chain_kept m); [done|]. intros p Hp. destruct (Hin p Hp) as [Hpc _]. by apply (Hhdr p o).
Qed.

Lemma new_base heap_base :
  0 <= heap_base <= max_memory - 8 → ∃ b, original_heap_base (new heap_base) = b ∧ bumper (new heap_base) = b ∧ heap_base <= b < heap_base + 8 ∧ b mod 8 = 0.
Proof.
  unfold new, max_memory, ALIGNMENT. intros Hb. simpl. eexists. split; [done|]. split; [done|].
  rewrite wrapping_add_id by (unfold umax; lia). rewrite wrapping_sub_id by (unfold umax; lia). Z.to_euclidean_division_equations. lia.
Qed.

Lemma new_inv heap_base m :
  0 <= heap_base <= max_memory - 8 → Z.of_nat (length m) <= max_memory → heap_inv (new heap_base) m ∅ ∅ (λ _, []).
Proof.
  intros Hb Hm. destruct (new_base heap_base Hb) as (b & Hbase & Hbump & Hr & Hal). split; rewrite ?Hbase, ?Hbump; try done.
  - unfold max_memory in *. lia.
  - split; [done|by left].
  - simpl. lia.
  - split; [done|done|rewrite map_sum_empty; lia].
  - intros o Ho. split; [constructor|]. split; [|by intros p ?%not_elem_of_nil]. exists Nil. split; [|done]. apply lookup_replicate. split; [done|]. unfold N_ORDERS in *. lia.
Qed.

(** Where the chunks that are held are, and their bytes: what stays of the invariant when the allocator
    is poisoned. *)
Record held_safe (base : Z) (h : Heap) (live : gmap Z Z) : Prop := {
  hs_place p o : live !! p = Some o → base <= p ∧ p mod 8 = 0 ∧ p + chunk_size o <= Z.of_nat (length (memory h));
  hs_disjoint p q o o' : live !! p = Some o → live !! q = Some o' → p ≠ q → p + chunk_size o <= q ∨ q + chunk_size o' <= p;
  hs_bytes : bytes_allocated (stats (alloc h)) = map_sum chunk_size live }.

Lemma inv_held_safe a m live chunks free : heap_inv a m live chunks free → held_safe (original_heap_base a) (mkHeap a m) live.
Proof.
  intros I. split.
  - intros p o Hp. destruct (h_live _ _ _ _ _ I p o Hp) as [Hc _]. destruct (t_chunk _ _ _ (h_tiling _ _ _ _ _ I) p o Hc) as (? & ? & _).
    destruct (chunk_place _ _ _ _ _ I p o Hc) as (_ & _ & ? & ?). simpl. split; [lia|]. split; [done|lia].
  - intros p q o o' Hp Hq. apply (t_disjoint _ _ _ (h_tiling _ _ _ _ _ I)); by apply (h_live _ _ _ _ _ I).
  - apply (h_bytes _ _ _ _ _ I).
Qed.

Lemma held_safe_kept base h h' live :
  held_safe base h live → stats (alloc h') = stats (alloc h) → (length (memory h) <= length (memory h'))%nat → held_safe base h' live.
Proof. intros [Hp Hd Hb] Hs Hm. split; [|done|congruence]. intros p o (? & ? & ?)%Hp. split; [done|]. split; [done|lia]. Qed.

(** The states of the program over the heap that starts at [base]. *)
Definition good (base : Z) (s : Heap * gmap Z Z) : Prop :=
  (∃ chunks free, heap_inv (alloc s.1) (memory s.1) s.2 chunks free ∧ original_heap_base (alloc s.1) = base) ∨
  (poisoned (alloc s.1) = true ∧ held_safe base s.1 s.2).

(** Without poison every step preserves the invariant or poisons; with it, only writes are left. *)
Lemma live_step_good base a m live chunks free s' :
  heap_inv a m live chunks free → original_heap_base a = base → heap_step (mkHeap a m, live) s' → good base s'.
Proof.
  intros I Hbase Hstep. pose proof (inv_held_safe _ _ _ _ _ I) as Hs. rewrite Hbase in Hs. inversion Hstep as
    [? ? size ptr h' o Hsize Hrun Ho|? ? p h' [o Hp] Hrun|? ? size e h' Hsize Hrun|? ? ptr e h' Hrun|? ? m' Hlen Hmax Hsame]; subst; simpl in *.
  - destruct (allocate_run _ _ _ _ _ size I Hsize) as [(o' & p & a' & m' & chunks' & free' & Ho' & _ & _ & Hr & _ & Hb & _ & I' & _)|(e & Hr & _)].
    + rewrite Hr in Hrun. injection Hrun as <- <-. rewrite Ho in Ho'. injection Ho' as <-. replace (p + 8 - 8) with p by lia.
      left. exists chunks', free'. simpl. split; [done|congruence].
    + by rewrite Hr in Hrun.
  - destruct (deallocate_run _ _ _ _ _ p o I Hp) as (a' & m' & Hr & _ & Hb & _ & I'). rewrite Hr in Hrun. injection Hrun as <-.
    left. exists chunks, (with_list free o (p :: free o)). simpl. split; [done|congruence].
  - right. destruct (allocate_run _ _ _ _ _ size I Hsize) as [(? & ? & ? & ? & ? & ? & _ & _ & _ & Hr & _)|(e' & Hr & _)]; rewrite Hr in Hrun; [done|].
    injection Hrun as _ <-. split; [done|]. by apply (held_safe_kept _ (mkHeap a m)).
  - right. destruct (deallocate_fails ptr (mkHeap a m) e h' (h_poisoned _ _ _ _ _ I) Hrun) as [Hpo Hst Hm]. split; [done|].
    apply (held_safe_kept _ (mkHeap a m)); [done|done|]. simpl in *. lia.
  - left. exists chunks, free. simpl. split; [|done]. by apply (write_inv a m).
Qed.

Lemma dead_step_good base h live s' :
  poisoned (alloc h) = true → held_safe base h live → heap_step (h, live) s' → good base s'.
Proof.
  intros Hpo Hs Hstep. right. inversion Hstep as
    [? ? size ptr h' o Hsize Hrun Ho|? ? p h' _ Hrun|? ? size e h' Hsize Hrun|? ? ptr e h' Hrun|? ? m' Hlen Hmax Hsame]; subst; simpl in *.
  - by rewrite (proj1 (poisoned_calls h size 0 Hpo)) in Hrun.
  - by rewrite (proj2 (poisoned_calls h 0 (p + 8) Hpo)) in Hrun.
  - rewrite (proj1 (poisoned_calls h size 0 Hpo)) in Hrun. by injection Hrun as _ <-.
  - rewrite (proj2 (poisoned_calls h 0 ptr Hpo)) in Hrun. by injection Hrun as _ <-.
  - split; [done|]. by apply (held_safe_kept _ h).
Qed.

Lemma reachable_good heap_base h live :
  0 <= heap_base <= max_memory - 8 → reachable heap_base h live → good (original_heap_base (new heap_base)) (h, live).
Proof.
  intros Hb (m & Hm & Hsteps). refine (rtc_ind_r (good _) _ _ _ _ Hsteps).
  - left. exists ∅, (λ _, []). split; [by apply new_inv|done].
  - intros [[a m1] l1] s' _ Hstep [(chunks & free & I & Hbase)|[Hpo Hs]]; [by eapply live_step_good|by eapply dead_step_good].
Qed.

Lemma reachable_inv heap_base a m live :
  0 <= heap_base <= max_memory - 8 → reachable heap_base (mkHeap a m) live → poisoned a = false → ∃ chunks free, heap_inv a m live chunks free.
Proof. intros Hb Hr Hp. destruct (reachable_good _ _ _ Hb Hr) as [(chunks & free & I & _)|[Hpo _]]; [by exists chunks, free|]. simpl in Hpo. congruence. Qed.

(** C14. The heap is safe, over all sequences of allocations, deallocations of chunks that are held,
    calls that fail (a deallocation of any pointer included) and writes to the chunks that are held, for memories of up to
    [max_memory] bytes: the chunks that are held are disjoint with their headers, aligned to eight bytes, above the heap
    base and inside the memory; the count of allocated bytes is their sum; an allocation never panics.  Until a call fails, a
    chunk that is held can be returned; a call that fails poisons the allocator, and from then on every call fails and
    changes nothing. *)
Theorem heap_safe heap_base h live :
  0 <= heap_base <= max_memory - 8 → reachable heap_base h live →
  (∀ p o, live !! p = Some o → heap_base <= p ∧ (p + 8) mod 8 = 0 ∧ p + chunk_size o <= Z.of_nat (length (memory h))) ∧
  (∀ p q o o', live !! p = Some o → live !! q = Some o' → p ≠ q → p + chunk_size o <= q ∨ q + chunk_size o' <= p) ∧
  bytes_allocated (stats (alloc h)) = map_sum chunk_size live ∧
  (∀ size, 0 <= size → (allocate size h).1 ≠ Panic) ∧
  (poisoned (alloc h) = false → ∀ p, is_Some (live !! p) → (deallocate (p + 8) h).1 = Ok tt) ∧
  (∀ size ptr e h', 0 <= size → allocate size h = (Err e, h') ∨ deallocate ptr h = (Err e, h') → poisoned (alloc h') = true) ∧
  (poisoned (alloc h) = true → ∀ size ptr, allocate size h = (Err (Other "the allocator has been poisoned"), h) ∧
     deallocate ptr h = (Err (Other "the allocator has been poisoned"), h)).
Proof.
  intros Hb Hr. pose proof (reachable_inv heap_base (alloc h) (memory h) live Hb) as Hinv. destruct (new_base heap_base Hb) as (b & Hnb & _ & Hrange & _).
  assert (Hs : held_safe b h live).
  { destruct (reachable_good _ _ _ Hb Hr) as [(chunks & free & I & Hbase)|[_ Hs]]; [|by rewrite <- Hnb]. destruct h. rewrite <- Hnb, <- Hbase. by eapply inv_held_safe. }
  destruct h as [a m]. specialize (Hinv Hr). simpl in Hinv. destruct Hs as [Hplace Hdisj Hbytes]. split_and!; [|done|done|..].
  - intros p o (? & Hal & ?)%Hplace. split; [lia|]. split; [|done]. by rewrite <- Zplus_mod_idemp_l, Hal.
  - intros size Hsize. destruct (poisoned a) eqn:Hpo; [by rewrite (proj1 (poisoned_calls (mkHeap a m) size 0 Hpo))|]. destruct (Hinv eq_refl) as (chunks & free & I).
    by destruct (allocate_run _ _ _ _ _ size I Hsize) as [(o & p & a' & m' & ? & ? & _ & _ & _ & -> & _)|(e & -> & _)].
  - intros Hpo p [o Hp]. destruct (Hinv Hpo) as (chunks & free & I). by destruct (deallocate_run _ _ _ _ _ p o I Hp) as (a' & m' & -> & _).
  - intros size ptr e h' Hsize Hrun. destruct (poisoned a) eqn:Hpo.
    + destruct (poisoned_calls (mkHeap a m) size ptr Hpo) as [Hal Hde]. rewrite Hal, Hde in Hrun. by destruct Hrun as [[= _ <-]|[= _ <-]].
    + destruct Hrun as [Hrun|Hrun]; [|by apply (deallocate_fails ptr (mkHeap a m) e h' Hpo)]. destruct (Hinv eq_refl) as (chunks & free & I).
      destruct (allocate_run _ _ _ _ _ size I Hsize) as [(o & p & a' & m' & ? & ? & _ & _ & _ & Hr' & _)|(e' & Hr' & _)]; rewrite Hr' in Hrun; [done|]. by injection Hrun as _ <-.
  - intros Hpo size ptr. by apply poisoned_calls.
Qed.

(** An allocation in a reachable heap that is not poisoned ends in one of three ways: it hands out a chunk that was not
    held and has room for the request; the request is larger than the largest chunk; or its order has no
    free chunk and the rest of the memory is too small.  It writes nothing but the chunk's header. *)
Theorem allocate_spec heap_base h live size :
  0 <= heap_base <= max_memory - 8 → reachable heap_base h live → poisoned (alloc h) = false → 0 <= size →
  match (allocate size h).1 with
  | Ok ptr => live !! (ptr - 8) = None ∧ same_but (ptr - 8) (memory h) (memory (allocate size h).2) ∧
      ∃ o, from_size size = inl o ∧ size <= 8 * 2 ^ o ∧ ∀ p o', live !! p = Some o' → p + chunk_size o' <= ptr - 8 ∨ ptr - 8 + chunk_size o <= p
  | Err RequestedAllocationTooLarge => MAX_POSSIBLE_ALLOCATION < size
  | Err AllocatorOutOfSpace => ∃ o, from_size size = inl o ∧ free_lists (alloc h) !! Z.to_nat o = Some Nil ∧
      Z.of_nat (length (memory h)) < bumper (alloc h) + chunk_size o
  | _ => False
  end.
Proof.
  intros Hb Hr Hpo Hsize. destruct h as [a m]. destruct (reachable_inv _ _ _ _ Hb Hr Hpo) as (chunks & free & I). simpl in *.
  destruct (allocate_run _ _ _ _ _ size I Hsize) as [(o & p & a' & m' & chunks' & free' & Ho & Hfit & Hl & -> & Hs & _ & _ & I' & _)
    |(e & -> & [[-> Hbig]|(-> & o & Ho & Hf & Hfull)])]; simpl.
  - replace (p + 8 - 8) with p by lia. split; [done|]. split; [done|]. exists o. split; [done|]. split; [done|]. intros q o' Hq.
    assert (Hne : q ≠ p) by congruence. apply (t_disjoint _ _ _ (h_tiling _ _ _ _ _ I')); [|by apply (h_live _ _ _ _ _ I'), lookup_insert_eq|done].
    apply (h_live _ _ _ _ _ I'). by rewrite lookup_insert_ne.
  - done.
  - exists o. split; [done|]. split; [|done]. assert (Hor : 0 <= o < N_ORDERS).
    { destruct (Z.le_gt_cases size MAX_POSSIBLE_ALLOCATION) as [Hs|Hs]; [|by rewrite (from_size_large _ Hs) in Ho].
      destruct (from_size_ok size) as (o' & Ho' & ? & _); [done|]. congruence. }
    destruct (h_free _ _ _ _ _ I o Hor) as (_ & (l & Hl & Hc) & _). rewrite Hf in Hc. simpl in Hc. by subst l.
Qed.

(** A chunk that is returned is the next one to be handed out for its order. *)
Theorem returned_chunk_reused heap_base h live p o size :
  0 <= heap_base <= max_memory - 8 → reachable heap_base h live → poisoned (alloc h) = false → live !! p = Some o → 0 <= size → from_size size = inl o →
  ∃ h', deallocate (p + 8) h = (Ok tt, h') ∧ (allocate size h').1 = Ok (p + 8).
Proof.
  intros Hb Hr Hpo Hp Hsize Ho. destruct h as [a m]. destruct (reachable_inv _ _ _ _ Hb Hr Hpo) as (chunks & free & I). simpl in *.
  destruct (deallocate_run _ _ _ _ _ p o I Hp) as (a' & m' & Hrun & _ & _ & _ & I'). eexists. split; [done|].
  destruct (allocate_run _ _ _ _ _ size I' Hsize) as [(o' & q & a2 & m2 & chunks' & free' & Ho' & _ & _ & -> & _ & _ & _ & _ & Hf)
    |(e & _ & [[-> Hbig]|(-> & o' & Ho' & Hf & _)])].
  - rewrite Ho in Ho'. injection Ho' as <-. unfold with_list in Hf. rewrite decide_True in Hf by done. destruct Hf as [[Hf _]|[Hf _]]; [|done]. by injection Hf as -> _.
  - by rewrite (from_size_large _ Hbig) in Ho.
  - rewrite Ho in Ho'. injection Ho' as <-. unfold with_list in Hf. by rewrite decide_True in Hf.
Qed.

(** In a memory that nearly fills the address space the end of the bumped chunk wraps around: in one
    of 65535 pages, an allocation of the largest size close to its end succeeds, hands out a chunk that runs past the end of the
    memory, and moves the bumper back, so that later chunks overlap it and earlier ones. *)
Theorem bump_wraps m :
  Z.of_nat (length m) = 65535 * 65536 →
  let h := mkHeap (new (65535 * 65536 - 16)) m in
  ∃ h', allocate MAX_POSSIBLE_ALLOCATION h = (Ok (65535 * 65536 - 8), h') ∧
    Z.of_nat (length m) < 65535 * 65536 - 8 + MAX_POSSIBLE_ALLOCATION ∧ bumper (alloc h') < bumper (alloc h).
Proof.
  intros Hm h. assert (Hin : in_memory m (65535 * 65536 - 16)) by (unfold in_memory, u32_max, umax; lia).
  destruct (write_into_ok (Occupied 22) m (65535 * 65536 - 16) Hin) as (m' & Hw & _); [unfold header_ok, N_ORDERS; lia|].
  assert (Hsize : memory_size m = Some (65535 * 65536)) by (unfold memory_size; by rewrite Hm).
  unfold allocate. rewrite (bind_run (gets (λ h, poisoned (alloc h))) _ h false h) by reflexivity. cbn iota. unfold h.
  assert (Hobs : observe_memory_size (mkHeap (new (65535 * 65536 - 16)) m) = (Ok tt, set_observed (65535 * 65536) (mkHeap (new (65535 * 65536 - 16)) m))).
  { unfold observe_memory_size, bind, gets, unwrap. cbn [memory]. by rewrite Hsize. }
  unfold bombed. rewrite (bind_run _ _ _ _ _ Hobs). change (from_size MAX_POSSIBLE_ALLOCATION) with (inl (B := Error) 22). erewrite bind_run by done.
  set (h1 := set_observed _ _). assert (Htake : take_chunk 22 h1 = (Ok (65535 * 65536 - 16), set_bumper 33488888 h1)).
  { unfold take_chunk, bind, gets, unwrap. change (memory h1) with m. rewrite Hsize. reflexivity. }
  rewrite (bind_run _ _ _ _ _ Htake).
  assert (Hwr : write_header (Occupied 22) (65535 * 65536 - 16) (set_bumper 33488888 h1) = (Ok tt, set_memory m' (set_bumper 33488888 h1))).
  { unfold write_header, bind, gets. change (memory (set_bumper 33488888 h1)) with m. by rewrite Hw. }
  rewrite (bind_run _ _ _ _ _ Hwr). eexists. split; [reflexivity|]. split; [unfold MAX_POSSIBLE_ALLOCATION; lia|]. reflexivity.
Qed.

(** ** At a concrete heap *)

(** A memory of a hundred bytes, two chunks handed out and the first returned. *)
Definition heap_0 : Heap := mkHeap (new 13) (replicate 100 0).
Definition heap_1 : Heap := (allocate 5 heap_0).2.
Definition heap_2 : Heap := (allocate 20 heap_1).2.

Definition held_2 : gmap Z Z := <[40 - 8 := 2]> (<[24 - 8 := 0]> ∅).

Lemma heap_2_reachable : reachable 13 heap_2 held_2.
Proof.
  exists (replicate 100 0). split; [by vm_compute|]. eapply rtc_l; [|eapply rtc_l; [|apply rtc_refl]].
  - apply (step_allocate heap_0 ∅ 5 24 heap_1 0); [lia|by vm_compute|by vm_compute].
  - apply (step_allocate heap_1 (<[24 - 8 := 0]> ∅) 20 40 heap_2 2); [lia|by vm_compute|by vm_compute].
Qed.

(** A third request does not fit. *)
Definition heap_3 : Heap := (allocate 60 heap_2).2.

Lemma heap_3_reachable : reachable 13 heap_3 held_2.
Proof.
  destruct heap_2_reachable as (m & Hm & Hsteps). exists m. split; [done|]. eapply rtc_r; [exact Hsteps|].
  apply (step_allocate_fails heap_2 held_2 60 AllocatorOutOfSpace heap_3); [lia|by vm_compute].
Qed.

Lemma heap_safe_witness :
  (bytes_allocated (stats (alloc heap_2)) = map_sum chunk_size held_2 ∧ (deallocate (16 + 8) heap_2).1 = Ok tt) ∧
  (bytes_allocated (stats (alloc heap_3)) = map_sum chunk_size held_2 ∧
   deallocate (16 + 8) heap_3 = (Err (Other "the allocator has been poisoned"), heap_3)).
Proof.
  split.
  - destruct (heap_safe 13 heap_2 held_2) as (_ & _ & Hb & _ & Hd & _); [unfold max_memory; lia|apply heap_2_reachable|].
    split; [exact Hb|]. apply Hd; [by vm_compute|by exists 0].
  - destruct (heap_safe 13 heap_3 held_2) as (_ & _ & Hb & _ & _ & _ & Hd); [unfold max_memory; lia|apply heap_3_reachable|].
    split; [exact Hb|]. apply (Hd ltac:(by vm_compute) 0).
Defined.

Lemma allocate_spec_witness : ∃ o, from_size 60 = inl o ∧ free_lists (alloc heap_2) !! Z.to_nat o = Some Nil ∧
  Z.of_nat (length (memory heap_2)) < bumper (alloc heap_2) + chunk_size o.
Proof.
  pose proof (allocate_spec 13 heap_2 held_2 60 ltac:(unfold max_memory; lia) heap_2_reachable ltac:(by vm_compute) ltac:(lia)) as Hspec.
  assert (Hr : (allocate 60 heap_2).1 = Err AllocatorOutOfSpace) by (by vm_compute). rewrite Hr in Hspec. exact Hspec.
Defined.

Lemma returned_chunk_reused_witness :
  ∃ h', deallocate (16 + 8) heap_2 = (Ok tt, h') ∧ (allocate 8 h').1 = Ok (16 + 8).
Proof.
  apply (returned_chunk_reused 13 heap_2 held_2 16 0 8); [unfold max_memory; lia|apply heap_2_reachable|by vm_compute|done|lia|by vm_compute].
Defined.

Lemma bump_wraps_witness :
  let m := replicate (Z.to_nat (65535 * 65536)) 0 in let h := mkHeap (new (65535 * 65536 - 16)) m in
  ∃ h', allocate MAX_POSSIBLE_ALLOCATION h = (Ok (65535 * 65536 - 8), h') ∧
    Z.of_nat (length m) < 65535 * 65536 - 8 + MAX_POSSIBLE_ALLOCATION ∧ bumper (alloc h') < bumper (alloc h).
Proof. apply (bump_wraps (replicate (Z.to_nat (65535 * 65536)) 0)). rewrite length_replicate. apply Z2Nat.id. lia. Defined.
