(* ===== verification/IpfsCore.v ===== *)
(** [pallet_tds_ipfs_core] ([frame/tds-ipfs-core/src]): the off-chain records of a block, the
    lock that gives a request to one block, the processing of a request's commands on the IPFS
    node and the parsing of the responses.

    The hash [blake2_256] and the runtime's randomness source are parameters. *)

From S2P Require Import Prelude Runtime Offchain Utf8.

(** A [Vec<u8>], and the records made of them. *)
Definition is_bytes (b : Bytes) : Prop := Forall (is_u 8) b ∧ Z.of_nat (length b) < 2 ^ 32.
Definition is_record (d : OffchainData) : Prop := is_bytes (od_data d) ∧ is_bytes (od_meta_data d).

(** ** [storage.rs] *)

(** [b"ipfs_core::indexing1"] *)
Definition OFFCHAIN_KEY_PREFIX : Bytes := [105;112;102;115;95;99;111;114;101;58;58;105;110;100;101;120;105;110;103;49].

Section Storage.
Context {E : Type} `{Codec BlockNumber} `{Codec OffchainData}.

Definition offchain_data_key (block_number : BlockNumber) : Bytes :=
  OFFCHAIN_KEY_PREFIX ++ [47] ++ scale_encode block_number.

Definition store_offchain_data {T} `{Codec T} (key : Bytes) (data : T) (is_in_offchain_context : bool) : M Store E unit :=
  if is_in_offchain_context then ref_set (persistent key) data
  else offchain_index_set key (scale_encode data).

Definition store_cid_data_for_key (key : Bytes) (cid_data : OffchainData) (is_in_offchain_context : bool) : M Store E unit :=
  store_offchain_data key cid_data is_in_offchain_context.

Definition store_cid_data (block_number : BlockNumber) (cid_data : OffchainData) (is_in_offchain_context : bool) : M Store E unit :=
  store_cid_data_for_key (offchain_data_key block_number) cid_data is_in_offchain_context.

Definition store_cid_data_for_values (block_number : BlockNumber) (cid meta_data : Bytes) (is_in_offchain_context : bool) :
  M Store E unit :=
  store_cid_data block_number (mkOffchainData cid meta_data) is_in_offchain_context.

Definition offchain_storage_data_for_key {T} `{Codec T} (key : Bytes) : M Store E (option T + StorageRetrievalError) :=
  ref_get (persistent key).

Definition read_cid_data_for_key (key : Bytes) : M Store E (option OffchainData + StorageRetrievalError) :=
  offchain_storage_data_for_key key.

Definition read_cid_data_for_block_number (block_number : BlockNumber) :
  M Store E (option OffchainData + StorageRetrievalError) :=
  offchain_storage_data_for_key (offchain_data_key block_number).

(** [.expect("expected cid data")] *)
Definition read_cid_for_block_number (block_number : BlockNumber) : M Store E (OffchainData + StorageRetrievalError) :=
  let! r := read_cid_data_for_block_number block_number in
  match r with
  | inl data => let! d := unwrap data in ret (inl d)
  | inr e => ret (inr e)
  end.

Definition clear_offchain_storage_data_for_key (key : Bytes) (is_in_offchain_context : bool) : M Store E unit :=
  if is_in_offchain_context then ref_clear (persistent key) else offchain_index_clear key.

End Storage.

(** ** [lib.rs] *)

(** The randomness of a subject is fixed during a block: the material it is drawn from changes when
    a block is initialised. *)
Class Hashing := {
  random : Bytes → BlockNumber → Bytes;
  blake2_256 : Bytes → Bytes }.

(** [b"ipfs-request-id"] *)
Definition request_id_subject : Bytes := [105;112;102;115;45;114;101;113;117;101;115;116;45;105;100].

Definition request_id `{Hashing} `{Codec BlockNumber} (block_number : BlockNumber) : Bytes :=
  blake2_256 (random request_id_subject block_number ++ scale_encode block_number).

Definition generate_id `{Hashing} `{Codec BlockNumber} {E} : M Store E Bytes :=
  gets (λ s, request_id (Number (sys s))).

(** [mem::discriminant] *)
Definition discriminant (c : IpfsCommand) : Z :=
  match c with
  | ConnectTo _ => 0 | DisconnectFrom _ => 1 | AddBytes _ => 2 | CatBytes _ => 3 | InsertPin _ => 4
  | RemoveBlock _ => 5 | RemovePin _ => 6 | FindPeer _ => 7 | GetProviders _ => 8
  end.

Definition eq_type (c other : IpfsCommand) : bool := discriminant c =? discriminant other.

(** [bytes] is the accumulator of the loop. *)
Definition join_utf8 (bytes res : Bytes) : Bytes :=
  if from_utf8 res then
    if (length bytes =? 0)%nat then res else bytes ++ [44; 32] ++ res
  else bytes.

Definition multiple_bytes_to_utf8_safe_bytes (response_ : list Bytes) : Bytes := foldl join_utf8 [] response_.

Definition addresses_to_utf8_safe_bytes (addresses : list Bytes) : Bytes :=
  multiple_bytes_to_utf8_safe_bytes addresses.

Definition parse_response (callback_response : Bytes) (r : IpfsResponse.t) : Bytes :=
  match r with
  | IpfsResponse.CatBytes bytes_received =>
      if (1 <? length bytes_received)%nat then bytes_received else callback_response
  | IpfsResponse.AddBytes cid | IpfsResponse.RemoveBlock cid => cid
  | IpfsResponse.GetClosestPeers peer_ids | IpfsResponse.GetProviders peer_ids =>
      multiple_bytes_to_utf8_safe_bytes peer_ids
  | IpfsResponse.FindPeer addresses | IpfsResponse.LocalAddrs addresses | IpfsResponse.Peers addresses =>
      addresses_to_utf8_safe_bytes addresses
  | IpfsResponse.LocalRefs refs => multiple_bytes_to_utf8_safe_bytes refs
  | IpfsResponse.Addrs _ | IpfsResponse.BitswapStats _ | IpfsResponse.Identity _ _ | IpfsResponse.Success => callback_response
  end.

Definition ocw_parse_ipfs_response (responses : list IpfsResponse.t) : Bytes := foldl parse_response [] responses.

Section Core.
Context {H : Type} `{Host H}.
Context `{Codec BlockNumber} `{Codec OffchainData} `{Codec (list Bytes)}.

Definition ipfs_request (request : IpfsRequest.t) : OCW H IpfsResponse.t :=
  let! pending := pending_new request in
  let! pending := ok_or pending CannotCreateRequest in
  let! now := timestamp in
  let! r := try_wait pending (timestamp_add now 1200) in
  match r with
  | inr _ => throw RequestTimeout
  | inl (inl resp) => ret (response resp)
  | inl (inr _) => throw RequestFailed
  end.

(** The closure of the lock. *)
Definition lock_value (block_number : BlockNumber) (command_identifier : option BlockNumber + StorageRetrievalError) :
  BlockNumber + IpfsError :=
  match command_identifier with
  | inl (Some block) => if negb (block_number =? block) then inr FailedToAcquireLock else inl block
  | _ => inl block_number
  end.

Definition acquire_command_request_lock {E} (block_number : BlockNumber) (command_request : CommandRequest) :
  M Store E (BlockNumber + MutateStorageError BlockNumber IpfsError) :=
  ref_mutate (persistent (identifier command_request)) (lock_value block_number).

Definition processed_commands {E} (command_request : CommandRequest) (persistence_key : Bytes) :
  M Store E (list Bytes + MutateStorageError (list Bytes) unit) :=
  ref_mutate (persistent persistence_key)
    (λ processed, match processed with
                  | inl (Some commands) => inl (commands ++ [identifier command_request])
                  | _ => inl [identifier command_request]
                  end).

(** One command: the response that is pushed to the result, if any.  [AddBytes] leaves
    [process_ipfs_command] altogether when the record of the block does not decode. *)
Definition run_command (block_number : BlockNumber) (command : IpfsCommand) : OCW H (option IpfsResponse.t) :=
  match command with
  | ConnectTo address =>
      let! r := attempt (ipfs_request (IpfsRequest.Connect address)) in
      ret (match r with inl IpfsResponse.Success => Some IpfsResponse.Success | _ => None end)
  | DisconnectFrom address =>
      let! r := attempt (ipfs_request (IpfsRequest.Disconnect address)) in
      ret (match r with inl IpfsResponse.Success => Some IpfsResponse.Success | _ => None end)
  | AddBytes version =>
      let! data := on_store (read_cid_for_block_number block_number) in
      match data with
      | inl d =>
          let! r := attempt (ipfs_request (IpfsRequest.AddBytes (od_data d) version)) in
          ret (match r with inl (IpfsResponse.AddBytes cid) => Some (IpfsResponse.AddBytes cid) | _ => None end)
      | inr _ => throw RequestFailed
      end
  | CatBytes cid =>
      let! r := attempt (ipfs_request (IpfsRequest.CatBytes cid)) in
      ret (match r with inl (IpfsResponse.CatBytes bytes) => Some (IpfsResponse.CatBytes bytes) | _ => None end)
  | InsertPin cid =>
      let! r := attempt (ipfs_request (IpfsRequest.InsertPin cid false)) in
      ret (match r with inl IpfsResponse.Success => Some IpfsResponse.Success | _ => None end)
  | RemovePin cid =>
      let! r := attempt (ipfs_request (IpfsRequest.RemovePin cid false)) in
      ret (match r with inl IpfsResponse.Success => Some IpfsResponse.Success | _ => None end)
  | RemoveBlock _ =>
      let! r := attempt (ipfs_request IpfsRequest.RemoveBlock) in
      ret (match r with inl IpfsResponse.Success => Some IpfsResponse.Success | _ => None end)
  | FindPeer peer_id =>
      let! r := attempt (ipfs_request (IpfsRequest.FindPeer peer_id)) in
      ret (match r with inl (IpfsResponse.FindPeer addresses) => Some (IpfsResponse.FindPeer addresses) | _ => None end)
  | GetProviders cid =>
      let! r := attempt (ipfs_request (IpfsRequest.GetProviders cid)) in
      ret (match r with inl (IpfsResponse.GetProviders peers) => Some (IpfsResponse.GetProviders peers) | _ => None end)
  end.

Fixpoint run_commands (block_number : BlockNumber) (commands : list IpfsCommand) (result : list IpfsResponse.t) :
  OCW H (list IpfsResponse.t) :=
  match commands with
  | [] => ret result
  | command :: commands =>
      let! r := run_command block_number command in
      run_commands block_number commands (result ++ option_list r)
  end.

Definition process_ipfs_command (block_number : BlockNumber) (command_request : CommandRequest) (persistence_key : Bytes) :
  OCW H (list IpfsResponse.t) :=
  let! acquire_lock := on_store (acquire_command_request_lock block_number command_request) in
  match acquire_lock with
  | inl _ =>
      let! result := run_commands block_number (ipfs_commands command_request) [] in
      do! on_store (processed_commands command_request persistence_key) in
      ret result
  | inr _ => throw FailedToAcquireLock
  end.

Definition ocw_process_command (block_number : BlockNumber) (command_request : CommandRequest) (persistence_key : Bytes) :
  OCW H (list IpfsResponse.t) :=
  process_ipfs_command block_number command_request persistence_key.

End Core.
