(* ===== verification/IpfsCoreProps.v ===== *)
(** The theorems of [IpfsCore]: joining byte strings, the lock under interleaved workers, the
    at-most-once processing of a request, and the outcome of each command on the node. *)

From S2P Require Import Prelude Runtime Offchain Utf8 IpfsPath IpfsApi IpfsCore.

(** ** Joining *)

Definition join_sep (sep : Bytes) (l : list Bytes) : Bytes :=
  match l with
  | [] => []
  | x :: l => x ++ concat (map (app sep) l)
  end.

(** The list without its leading empty strings. *)
Fixpoint trim_start (l : list Bytes) : list Bytes :=
  match l with
  | [] :: l => trim_start l
  | _ => l
  end.

Definition valid_strings (l : list Bytes) : list Bytes := filter (λ b, from_utf8 b = true) l.

Lemma join_utf8_from (bytes : Bytes) l :
  bytes ≠ [] → foldl join_utf8 bytes l = bytes ++ concat (map (app [44; 32]) (valid_strings l)).
Proof.
  unfold valid_strings. revert bytes. induction l as [|b l IH]; intros bytes Hb; [simpl; by rewrite app_nil_r|].
  simpl foldl. unfold join_utf8 at 2. destruct (from_utf8 b) eqn:Hv.
  - rewrite filter_cons_True by done. destruct bytes as [|x bytes]; [done|]. simpl (Nat.eqb _ _). cbn iota.
    rewrite IH by done. simpl. by rewrite <- !app_assoc.
  - rewrite filter_cons_False by congruence. auto.
Qed.

(** The text that a list of byte strings is flattened to: the well-formed ones, without the
    leading empty ones, separated by ", "; and it is well-formed UTF-8 again. *)
Theorem multiple_bytes_join l :
  multiple_bytes_to_utf8_safe_bytes l = join_sep [44; 32] (trim_start (valid_strings l)) ∧
  from_utf8 (multiple_bytes_to_utf8_safe_bytes l) = true.
Proof.
  assert (Hj : multiple_bytes_to_utf8_safe_bytes l = join_sep [44; 32] (trim_start (valid_strings l))).
  { unfold multiple_bytes_to_utf8_safe_bytes, valid_strings. induction l as [|b l IH]; [done|]. simpl foldl.
    unfold join_utf8 at 2. destruct (from_utf8 b) eqn:Hv.
    - rewrite filter_cons_True by done. simpl (Nat.eqb _ _). cbn iota. destruct b as [|x b]; [done|].
      rewrite join_utf8_from by done. done.
    - by rewrite filter_cons_False by congruence. }
  split; [done|]. rewrite Hj. clear Hj.
  assert (Hvalid : Forall (λ b, from_utf8 b = true) (trim_start (valid_strings l))).
  { assert (Hall : Forall (λ b, from_utf8 b = true) (valid_strings l)).
    { apply Forall_forall. intros b Hb. by apply list_elem_of_filter in Hb as [? _]. }
    induction (valid_strings l) as [|b l' IH]; [done|]. inversion Hall; subst. destruct b; simpl; auto. }
  destruct Hvalid as [|b l' Hb Hl]; [done|]. simpl. rewrite from_utf8_app by done.
  induction Hl as [|b' l'' Hb' _ IH]; [done|]. simpl. by rewrite from_utf8_app.
Qed.

(** ** The lock of a request, with interleaved workers *)

(** The database at one key, seen by [local_storage_get] and [local_storage_compare_and_set]. *)
Definition can_use_db (s : Store) : Prop :=
  Capabilities.contains (capabilities s) Capabilities.OFFCHAIN_DB_READ = true ∧
  Capabilities.contains (capabilities s) Capabilities.OFFCHAIN_DB_WRITE = true.

Lemma db_get {E} s key :
  can_use_db s → local_storage_get (E := E) PERSISTENT key s = (Ok (offchain_db s !! key), s).
Proof. intros [Hr _]. unfold local_storage_get, check, bind. simpl. by rewrite Hr. Qed.

Lemma db_cas {E} s key old new :
  can_use_db s →
  local_storage_compare_and_set (E := E) PERSISTENT key old new s =
    if decide (offchain_db s !! key = old) then (Ok true, with_offchain_db <[key := new]> s) else (Ok false, s).
Proof.
  intros [_ Hw]. unfold local_storage_compare_and_set, check, bind. simpl. rewrite Hw. simpl. by destruct (decide _).
Qed.

(** What [ref_mutate] does when nothing interferes. *)
Lemma ref_mutate_run {E T F} `{Codec T} key (f : option T + StorageRetrievalError → T + F) s :
  can_use_db s →
  ref_mutate (E := E) (persistent key) f s =
    match f (decode_value (offchain_db s !! key)) with
    | inr err => (Ok (inr (ValueFunctionFailed err)), s)
    | inl val => (Ok (inl val), with_offchain_db <[key := scale_encode val]> s)
    end.
Proof.
  intros Hdb. unfold ref_mutate, bind. cbn [ref_kind ref_key persistent]. rewrite db_get by done.
  destruct (f _) as [val|err]; [|done]. rewrite db_cas by done. by rewrite decide_True.
Qed.

Section Lock.
Context `{!Codec BlockNumber, !CodecLaws BlockNumber is_u32}.
Variable key : Bytes.

(** A worker that acquires the lock for its block: before its read, between its read and its
    compare-and-set, and after it. *)
Inductive Locker :=
| Idle (block_number : BlockNumber)
| Saw (block_number : BlockNumber) (value : option Bytes)
| Holds (block : BlockNumber)
| GaveUp.

Inductive lock_step : Store * list Locker → Store * list Locker → Prop :=
| lock_read s ws i b r s' :
    ws !! i = Some (Idle b) → local_storage_get (E := IpfsError) PERSISTENT key s = (Ok r, s') →
    lock_step (s, ws) (s', <[i := Saw b r]> ws)
| lock_refuse s ws i b v e :
    ws !! i = Some (Saw b v) → lock_value b (decode_value v) = inr e →
    lock_step (s, ws) (s, <[i := GaveUp]> ws)
| lock_commit s ws i b v x set s' :
    ws !! i = Some (Saw b v) → lock_value b (decode_value v) = inl x →
    local_storage_compare_and_set (E := IpfsError) PERSISTENT key v (scale_encode x) s = (Ok set, s') →
    lock_step (s, ws) (s', <[i := if set then Holds x else GaveUp]> ws)
| lock_other s ws s' :
    capabilities s' = capabilities s → offchain_db s' !! key = offchain_db s !! key →
    lock_step (s, ws) (s', ws).

(** [acquire_command_request_lock] is a read and a commit (or a refusal) in sequence. *)
Lemma acquire_is_steps b req s ws i :
  identifier req = key → can_use_db s → ws !! i = Some (Idle b) →
  match acquire_command_request_lock (E := IpfsError) b req s with
  | (Ok (inl x), s') => rtc lock_step (s, ws) (s', <[i := Holds x]> ws)
  | (Ok (inr _), s') => rtc lock_step (s, ws) (s', <[i := GaveUp]> ws)
  | _ => False
  end.
Proof.
  intros Hk Hdb Hi. unfold acquire_command_request_lock. rewrite ref_mutate_run by done. rewrite Hk.
  assert (Hlt : (i < length ws)%nat) by (by eapply lookup_lt_Some).
  set (v := offchain_db s !! key).
  assert (Hread : lock_step (s, ws) (s, <[i := Saw b v]> ws)) by (eapply lock_read; [done|by apply db_get]).
  destruct (lock_value b (decode_value v)) as [x|e] eqn:Hv.
  - eapply rtc_l; [exact Hread|]. eapply rtc_l; [|apply rtc_refl].
    replace (<[i := Holds x]> ws) with (<[i := if true then Holds x else GaveUp]> (<[i := Saw b v]> ws)) by (by rewrite list_insert_insert_eq).
    apply (lock_commit s _ i b v x true); [by rewrite list_lookup_insert_eq|exact Hv|]. rewrite db_cas by done. by rewrite decide_True.
  - eapply rtc_l; [exact Hread|]. eapply rtc_l; [|apply rtc_refl].
    replace (<[i := GaveUp]> ws) with (<[i := GaveUp]> (<[i := Saw b v]> ws)) by (by rewrite list_insert_insert_eq).
    eapply lock_refuse; [by rewrite list_lookup_insert_eq|exact Hv].
Qed.

(** The holders hold the block that is stored. *)
Definition lock_inv (c : Store * list Locker) : Prop :=
  ∀ i w, c.2 !! i = Some w →
    match w with
    | Idle b => is_u32 b
    | Saw b _ => is_u32 b
    | Holds x => is_u32 x ∧ offchain_db c.1 !! key = Some (scale_encode x)
    | GaveUp => True
    end.

Lemma lock_value_u32 b v x :
  is_u32 b → lock_value b v = inl x → x = b.
Proof. unfold lock_value. intros Hb Hx. repeat case_match; props; simplify_eq; done. Qed.

Lemma get_same {E} s k r s' : local_storage_get (E := E) PERSISTENT k s = (Ok r, s') → s' = s.
Proof. unfold local_storage_get, check, bind. cbn. destruct (Capabilities.contains _ _); cbn; intros [=]; congruence. Qed.

Lemma cas_same {E} s k old new set s' :
  local_storage_compare_and_set (E := E) PERSISTENT k old new s = (Ok set, s') →
  if set then offchain_db s !! k = old ∧ s' = with_offchain_db <[k := new]> s else s' = s.
Proof.
  unfold local_storage_compare_and_set, check, bind. cbn. destruct (Capabilities.contains _ _); cbn; [|done].
  destruct (decide _); cbn; intros [= <- <-]; auto.
Qed.

Lemma lock_step_inv c c' : lock_step c c' → lock_inv c → lock_inv c'.
Proof.
  intros Hstep Hinv. destruct Hstep as [s ws i b r s' Hi Hget|s ws i b v e Hi Hv|s ws i b v x set s' Hi Hv Hcas|s ws s' _ Hdb].
  - apply get_same in Hget as ->. intros j w [(-> & <- & _)|[_ Hj]]%list_lookup_insert_Some; [apply (Hinv _ _ Hi)|apply (Hinv _ _ Hj)].
  - intros j w [(-> & <- & _)|[_ Hj]]%list_lookup_insert_Some; [done|apply (Hinv _ _ Hj)].
  - pose proof (Hinv _ _ Hi) as Hb. simpl in Hb. pose proof (lock_value_u32 _ _ _ Hb Hv) as ->.
    apply cas_same in Hcas. destruct set; [destruct Hcas as [Hold ->]|subst s'].
    + intros j w [(-> & <- & _)|[_ Hj]]%list_lookup_insert_Some; simpl; [by rewrite lookup_insert_eq|].
      pose proof (Hinv _ _ Hj) as Hw. destruct w as [| |y|]; simpl in *; auto. destruct Hw as [Hy Hst].
      rewrite <- Hold, Hst in Hv. simpl in Hv. rewrite (scale_roundtrip y Hy) in Hv. simpl in Hv.
      destruct (negb (b =? y)) eqn:Hby; simplify_eq. by rewrite lookup_insert_eq.
    + intros j w [(-> & <- & _)|[_ Hj]]%list_lookup_insert_Some; simpl; [done|apply (Hinv _ _ Hj)].
  - intros j w Hj. pose proof (Hinv _ _ Hj) as Hw. destruct w; simpl in *; auto. by rewrite Hdb.
Qed.

End Lock.

(** C7. Mutual exclusion between blocks: however the reads and the compare-and-sets of any number
    of workers on the lock of a request interleave, with each other and with writes to other keys,
    all the workers that come to hold the lock hold it for the same block, which is the block
    stored in the database; and an acquisition by [acquire_command_request_lock] that nothing
    interrupts is such a run, ending with the lock exactly when the function returns it. *)
Theorem lock_exclusive `{!Codec BlockNumber, !CodecLaws BlockNumber is_u32} key s blocks s' ws :
  Forall is_u32 blocks →
  rtc (lock_step key) (s, map Idle blocks) (s', ws) →
  (∀ i j x y, ws !! i = Some (Holds x) → ws !! j = Some (Holds y) →
    x = y ∧ offchain_db s' !! key = Some (scale_encode x)) ∧
  (∀ i b req, ws !! i = Some (Idle b) → identifier req = key → can_use_db s' →
    match acquire_command_request_lock (E := IpfsError) b req s' with
    | (Ok (inl x), s2) => rtc (lock_step key) (s, map Idle blocks) (s2, <[i := Holds x]> ws)
    | (Ok (inr _), s2) => rtc (lock_step key) (s, map Idle blocks) (s2, <[i := GaveUp]> ws)
    | _ => False
    end).
Proof.
  intros Hb Hr. split.
  - intros i j x y Hi Hj. assert (Hinv : lock_inv key (s', ws)).
    { eapply (rtc_ind_r (λ c, lock_inv key c)); [|intros c c' _ Hs Hc; by eapply lock_step_inv|exact Hr].
      intros n w Hn. simpl in Hn. rewrite list_lookup_fmap in Hn. destruct (blocks !! n) as [b|] eqn:Hbn; simpl in Hn; simplify_eq.
      by eapply Forall_lookup_1. }
    destruct (Hinv _ _ Hi) as [Hx Hsx]. destruct (Hinv _ _ Hj) as [Hy Hsy]. simpl in *.
    split; [|done]. rewrite Hsx in Hsy. simplify_eq. pose proof (scale_roundtrip x Hx) as H1.
    rewrite Hsy in H1. rewrite (scale_roundtrip y Hy) in H1. congruence.
  - intros i b req Hi Hk Hdb. pose proof (acquire_is_steps key b req s' ws i Hk Hdb Hi) as Hacq.
    destruct (acquire_command_request_lock _ _ _) as [[[x|e]|?|] s2]; try done; by etrans.
Qed.

(** ** A request is processed in one block *)

Section Processing.
Context {H : Type} `{Host H, !HostLaws H}.
Context `{!Codec BlockNumber, !Codec OffchainData, !Codec (list Bytes), !CodecLaws BlockNumber is_u32}.

Ltac ocw_step :=
  first [wp_step; cbn beta iota | apply wp_on_store | apply wp_host_op | apply wp_check; intros ? | apply wp_unwrap; [intros ? ?|intros ?]].

(** Requests to the node leave the stores alone. *)
Lemma ipfs_request_store request (w : World H) :
  wp (ipfs_request request) (λ _ w', w_store w' = w_store w) w.
Proof.
  unfold ipfs_request, pending_new, ipfs_request_start, timestamp, try_wait, try_wait_all, ipfs_response_wait.
  repeat ocw_step; rewrite ?with_store_id; try done.
  match goal with |- wp (match ?r with _ => _ end) _ _ => destruct r as [[resp|e]|p] end; by repeat ocw_step.
Qed.

(** So a question put to the node gives some answer, without a panic of the store's own. *)
Lemma wp_asked {A} request (k : IpfsResponse.t + IpfsError → OCW H A) Q (w : World H) :
  (∀ r w', w_store w' = w_store w → wp (k r) Q w') →
  (∀ w', w_store w' = w_store w → Q Panic w') →
  wp (let! r := attempt (ipfs_request request) in k r) Q w.
Proof.
  intros Hk Hp. apply wp_bind, wp_attempt. eapply wp_mono; [apply ipfs_request_store|].
  intros [resp|e|] w' Hw; cbn; auto.
Qed.

Lemma read_cid_store {E} block_number s :
  wp (read_cid_for_block_number (E := E) block_number) (λ _ s', s' = s) s.
Proof.
  unfold read_cid_for_block_number, read_cid_data_for_block_number, offchain_storage_data_for_key, ref_get, local_storage_get.
  cbn [ref_kind persistent]. repeat ocw_step; try done.
  match goal with |- wp (match ?r with _ => _ end) _ _ => destruct r as [data|e] end; by repeat ocw_step.
Qed.

Lemma run_command_store block_number command (w : World H) :
  wp (run_command block_number command) (λ _ w', w_store w' = w_store w) w.
Proof.
  destruct command; cbn [run_command].
  3: { apply wp_bind, wp_on_store. eapply wp_mono; [apply read_cid_store|]. intros [[d|e]|e|] s ->; rewrite with_store_id; try done.
       apply wp_asked; auto with wp. }
  all: apply wp_asked; auto with wp.
Qed.

Lemma run_commands_store block_number commands result (w : World H) :
  wp (run_commands block_number commands result) (λ _ w', w_store w' = w_store w) w.
Proof.
  revert result w. induction commands as [|command commands IH]; intros result w; cbn [run_commands]; [done|].
  apply wp_bind. eapply wp_mono; [apply run_command_store|]. intros [r|e|] w' Hw; [|done..]. cbn beta iota.
  rewrite <- Hw. apply IH.
Qed.

(** The writes to the database that a [ref_mutate] can make. *)
Lemma ref_mutate_elsewhere {E T F} `{Codec T} key (f : option T + StorageRetrievalError → T + F) s other :
  other ≠ key →
  wp (ref_mutate (E := E) (persistent key) f) (λ _ s', offchain_db s' !! other = offchain_db s !! other) s.
Proof.
  intros Hne. unfold ref_mutate, local_storage_get, local_storage_compare_and_set. cbn [ref_kind ref_key persistent].
  repeat ocw_step; try done. destruct (f _) as [val|err]; [|done]. repeat ocw_step; try done.
  destruct (decide _); repeat ocw_step; try done. simpl. by rewrite lookup_insert_ne.
Qed.

(** An acquired lock is stored. *)
Lemma acquire_stores {E} b req s x s' :
  is_u32 b → acquire_command_request_lock (E := E) b req s = (Ok (inl x), s') →
  offchain_db s' !! identifier req = Some (scale_encode b).
Proof.
  intros Hb. unfold acquire_command_request_lock, ref_mutate, bind. cbn [ref_kind ref_key persistent].
  destruct (local_storage_get PERSISTENT (identifier req) s) as [[v|e|] s1] eqn:Hget; [|done..].
  destruct (lock_value b (decode_value v)) as [y|] eqn:Hy; [|done]. apply lock_value_u32 in Hy as ->; [|done].
  destruct (local_storage_compare_and_set PERSISTENT (identifier req) v (scale_encode b) s1) as [[set|e|] s2] eqn:Hcas; [|done..].
  apply cas_same in Hcas. destruct set; [|done]. destruct Hcas as [_ ->]. intros [= <- <-]. simpl. by rewrite lookup_insert_eq.
Qed.

(** A lock of another block is refused. *)
Lemma acquire_refused {E} b b' req s :
  is_u32 b → can_use_db s → offchain_db s !! identifier req = Some (scale_encode b) → b' ≠ b →
  acquire_command_request_lock (E := E) b' req s = (Ok (inr (ValueFunctionFailed FailedToAcquireLock)), s).
Proof.
  intros Hb Hdb Hst Hne. unfold acquire_command_request_lock. rewrite ref_mutate_run by done. rewrite Hst. simpl.
  rewrite scale_roundtrip by done. simpl. replace (b' =? b) with false by lia. done.
Qed.

End Processing.

(** A request is processed in at most one block: once the commands of a request have been
    processed for a block, processing it for another block (a retry by a later worker, say) fails to
    acquire the lock, asks nothing of the node and changes nothing, as long as nobody removes the
    lock from the database. *)
Theorem processed_once `{Host H, !HostLaws H} `{!Codec BlockNumber, !Codec OffchainData, !Codec (list Bytes)}
  `{!CodecLaws BlockNumber is_u32} (w w1 w2 : World H) b b' req key responses :
  is_u32 b → length (identifier req) = 32%nat → length key = 24%nat →
  process_ipfs_command b req key w = (Ok responses, w1) →
  can_use_db (w_store w2) →
  offchain_db (w_store w2) !! identifier req = offchain_db (w_store w1) !! identifier req →
  b' ≠ b →
  process_ipfs_command b' req key w2 = (Err FailedToAcquireLock, w2).
Proof.
  intros Hb Hid Hkey Hp Hdb Hsame Hne.
  assert (Hst : offchain_db (w_store w1) !! identifier req = Some (scale_encode b)).
  { revert Hp. unfold process_ipfs_command. intros (lock & w3 & Hl & Hp)%bind_Ok. unfold on_store in Hl.
    destruct (acquire_command_request_lock b req (w_store w)) as [r s3] eqn:Hacq. simpl in Hl. simplify_eq.
    destruct lock as [x|e]; [|done]. apply acquire_stores in Hacq; [|done].
    apply bind_Ok in Hp as (result & w4 & Hrun & Hp).
    pose proof (wp_run _ _ _ _ _ (run_commands_store b (ipfs_commands req) [] _) Hrun) as Hw4. simpl in Hw4.
    apply bind_Ok in Hp as (res & w5 & Hproc & [= _ <-]).
    refine (wp_run _ (λ _ w', offchain_db (w_store w') !! identifier req = Some (scale_encode b)) _ _ _ _ Hproc).
    apply wp_on_store. eapply wp_mono; [apply (ref_mutate_elsewhere key _ _ (identifier req))|].
    - intros Heq. rewrite Heq in Hid. congruence.
    - intros r s' Hs. simpl. rewrite Hs, Hw4. done. }
  unfold process_ipfs_command, bind, on_store.
  rewrite (acquire_refused b b' req) by (done || by rewrite Hsame). simpl. by rewrite with_store_id.
Qed.

(** ** The outcome of a command on the node *)

Section Outcome.
Context `{RustIpfs}.
Context `{!Codec BlockNumber, !Codec OffchainData, !Codec (list Bytes)}.

(** The request that a command makes, with the data of the block's record. *)
Definition request_for (command : IpfsCommand) (data_ : Bytes) : IpfsRequest.t :=
  match command with
  | ConnectTo address => IpfsRequest.Connect address
  | DisconnectFrom address => IpfsRequest.Disconnect address
  | AddBytes version => IpfsRequest.AddBytes data_ version
  | CatBytes cid => IpfsRequest.CatBytes cid
  | InsertPin cid => IpfsRequest.InsertPin cid false
  | RemoveBlock _ => IpfsRequest.RemoveBlock
  | RemovePin cid => IpfsRequest.RemovePin cid false
  | FindPeer peer => IpfsRequest.FindPeer peer
  | GetProviders cid => IpfsRequest.GetProviders cid
  end.

(** A node that can take one more request and gets [resp] as the answer. *)
Record answers (h : NodeHost) (resp : IpfsNativeResponse) (rest : list WakeUp) : Prop := {
  an_id : next_id (nh_api h) < umax 16;
  an_inbox : nh_inbox h = Message (MResponse (next_id (nh_api h)) resp) :: rest }.

Lemma ipfs_request_answered request (w : World NodeHost) resp rest :
  capabilities (w_store w) = Capabilities.all → answers (w_host w) resp rest → resp ≠ NSuccess →
  ∃ a', ipfs_request request w = (Ok (response_from resp), with_host (with_api a' rest (w_host w)) w) ∧
    next_id a' = next_id (nh_api (w_host w)) + 1 ∧
    to_worker a' = to_worker (nh_api (w_host w)) ++ [(next_id (nh_api (w_host w)), request)].
Proof.
  intros Hcaps [Hid Hin] Hresp. unfold ipfs_request, pending_new, try_wait, try_wait_all, bind.
  rewrite request_start_run by (by rewrite Hcaps). unfold host_op. simpl host_request_start. unfold request_start.
  replace (checked_add 16 _ 1) with (Some (next_id (nh_api (w_host w)) + 1)) by (symmetry; apply checked_add_Some; lia).
  set (a := mkApi (next_id (nh_api (w_host w)) + 1) _ _ _).
  destruct (response_wait_answered (next_id (nh_api (w_host w))) resp rest a) as (a' & Ha & Hn & Hq);
    [apply lookup_insert_eq|done|].
  cbn [fst snd ok_or ret]. rewrite timestamp_run by (simpl; by rewrite Hcaps).
  rewrite response_wait_run by (simpl; by rewrite Hcaps). unfold host_op. cbn [map pending_id].
  cbn -[response_wait a]. rewrite Hin, Ha. simpl. eexists. split; [done|]. by rewrite Hn, Hq.
Qed.

Lemma engine_not_success e request : engine_request e request ≠ Some NSuccess.
Proof.
  destruct request; simpl; repeat match goal with
    | |- context [?f <$> ?o] => destruct o; simpl
    end; congruence.
Qed.

End Outcome.

(** What comes of a command that the node carries out: when the engine answers the request of
    a command before the deadline, the command yields the response, with the exception of
    [RemoveBlock], whose answer is never the [Success] that the pallet waits for. *)
Theorem command_outcome `{RustIpfs} `{!Codec BlockNumber, !Codec OffchainData, !Codec (list Bytes)}
  (e : Engine) (w : World NodeHost) block_number command raw d resp rest :
  capabilities (w_store w) = context_capabilities (worker_context true) →
  offchain_db (w_store w) !! offchain_data_key block_number = Some raw → scale_decode raw = Some d →
  engine_request e (request_for command (od_data d)) = Some resp →
  answers (w_host w) resp rest →
  (run_command block_number command w).1 =
    Ok (match command with RemoveBlock _ => None | _ => Some (response_from resp) end).
Proof.
  intros Hcaps Hraw Hd He Han. assert (Hns : resp ≠ NSuccess) by (intros ->; by apply engine_not_success in He).
  change (context_capabilities _) with Capabilities.all in Hcaps.
  assert (Hread : on_store (H := NodeHost) (read_cid_for_block_number block_number) w = (Ok (inl d), w)).
  { unfold on_store, read_cid_for_block_number, read_cid_data_for_block_number, offchain_storage_data_for_key, ref_get, bind.
    cbn [ref_kind ref_key persistent]. rewrite db_get by (split; by rewrite Hcaps). rewrite Hraw. simpl. rewrite Hd. simpl.
    by rewrite with_store_id. }
  destruct (ipfs_request_answered (request_for command (od_data d)) w resp rest Hcaps Han Hns) as (a' & Ha & _).
  destruct command; simpl in Ha, He; unfold run_command, bind, attempt; rewrite ?Hread, ?Ha; simpl;
    repeat match type of He with context [?f <$> ?o] => destruct o; simpl in He end; by simplify_eq.
Qed.
