(* ===== verification/CommandQueue.v ===== *)
(** The queue of IPFS command requests, which [pallet_tds_ipfs] ([frame/tds-ipfs/src/lib.rs]) owns
    and [pallet_knowledge] ([frame/knowledge/src/lib.rs]) shares: the callback that completes a
    request on chain and the worker that processes the queue.

    Both pallets have the same code for it, each with its own events, file storage and callback
    call; it is modelled once, for a pallet given by these three ([CommandPallet]), and instantiated
    in [Ipfs] and [Knowledge].  Iteration over a storage map goes in the order of the hashed keys,
    which is a parameter ([StorageOrder]). *)

From S2P Require Import Prelude Runtime System Offchain Utf8 IpfsCore.

Record CommandPallet := mkPallet {
  p_event : CommandEvent → RuntimeEvent;
  p_files : Store → gmap Bytes IpfsFile;
  p_with_files : (gmap Bytes IpfsFile → gmap Bytes IpfsFile) → Store → Store;
  p_ocw_callback : Bytes → Bytes → option OffchainData → OcwCall }.

Class StorageOrder := {
  file_values : gmap Bytes IpfsFile → list IpfsFile;
  prefix_keys : gmap (BlockNumber * AccountId) (list BlockNumber) → BlockNumber → list AccountId }.

Class StorageOrderLaws `{StorageOrder} := {
  file_values_all : ∀ m, file_values m ≡ₚ (map_to_list m).*2;
  prefix_keys_all : ∀ m b, prefix_keys m b ≡ₚ (filter (λ p, p.1.1 = b) (map_to_list m)).*1.*2 }.

(** [b"ipfs::processed_commands"] *)
Definition PROCESSED_COMMANDS : Bytes :=
  [105;112;102;115;58;58;112;114;111;99;101;115;115;101;100;95;99;111;109;109;97;110;100;115].

Definition with_commands (f : option (list CommandRequest) → option (list CommandRequest)) : Store → Store :=
  with_ipfs (λ i, mkIpfs (f (Commands i)) (IpfsFileStorage i)).

Definition find_value_of_type_in_vector (value : IpfsCommand) (vector : list IpfsCommand) : option IpfsCommand :=
  find (λ curr_value, eq_type value curr_value) vector.

Definition contains_value_of_type_in_vector (value : IpfsCommand) (vector : list IpfsCommand) : bool :=
  match find_value_of_type_in_vector value vector with Some _ => true | None => false end.

(** [b"https://ipfs.io/ipfs/"] *)
Definition gateway : Bytes := [104;116;116;112;115;58;47;47;105;112;102;115;46;105;111;47;105;112;102;115;47].

Definition ipfs_gateway_url_for_cid (cid : Bytes) : Bytes := gateway ++ cid.

Section Pallet.
Variable P : CommandPallet.

Definition emit_command (e : CommandEvent) : Run unit := deposit_event (p_event P e).

(** ** Files *)

Definition store_ipfs_file_info (ipfs_file : IpfsFile) : Run unit :=
  modify (p_with_files P <[file_cid ipfs_file := ipfs_file]>).

Definition handle_add_bytes_completed (cid : Bytes) (offchain_data : option OffchainData) : Run unit :=
  match offchain_data with
  | Some d => store_ipfs_file_info (mkIpfsFile cid (od_meta_data d))
  | None => ret tt
  end.

Definition handle_data_for_ocw_callback (data_ : Bytes) (offchain_data : option OffchainData)
  (callback_command : option CommandRequest) : Run unit :=
  match callback_command with
  | Some cmd_request =>
      if contains_value_of_type_in_vector (AddBytes 0) (ipfs_commands cmd_request)
      then handle_add_bytes_completed data_ offchain_data
      else ret tt
  | None => ret tt
  end.

Definition get_file_url_for_meta_data `{StorageOrder} (meta_data : Bytes) (s : Store) : Bytes :=
  match find (λ curr_file, bool_decide (file_meta_data curr_file = meta_data)) (file_values (p_files P s)) with
  | Some file => ipfs_gateway_url_for_cid (file_cid file)
  | None => []
  end.

Definition get_file_url_for_cid (cid_bytes : Bytes) (s : Store) : Bytes :=
  match p_files P s !! cid_bytes with
  | None => []
  | Some _ => ipfs_gateway_url_for_cid cid_bytes
  end.

(** ** The callback *)

Definition command_event (requester_ : AccountId) (data_ : Bytes) (command : IpfsCommand) : CommandEvent :=
  match command with
  | ConnectTo address => ConnectedTo requester_ address
  | DisconnectFrom address => DisconnectedFrom requester_ address
  | AddBytes _ => AddedCid requester_ data_
  | CatBytes cid => CatBytesEv requester_ cid data_
  | InsertPin cid => InsertedPin requester_ cid
  | RemoveBlock cid => RemovedBlock requester_ cid
  | RemovePin cid => RemovedPin requester_ cid
  | FindPeer _ => FoundPeers requester_ data_
  | GetProviders cid => CidProviders requester_ cid data_
  end.

Fixpoint emit_commands (requester_ : AccountId) (data_ : Bytes) (commands : list IpfsCommand) : Run unit :=
  match commands with
  | [] => ret tt
  | command :: commands =>
      do! emit_command (command_event requester_ data_ command) in
      emit_commands requester_ data_ commands
  end.

(** The first part of [command_callback] only logs. *)
Definition command_callback (command_request : CommandRequest) (data_ : Bytes) : Run (unit + unit) :=
  do! emit_commands (requester command_request) data_ (ipfs_commands command_request) in
  ret (inl tt).

(** The closure of [Commands::mutate]: the removed request and the new queue. *)
Definition take_request (identifier_ : Bytes) (commands : list CommandRequest) :
  option CommandRequest * list CommandRequest :=
  match list_find (λ cmd, identifier cmd = identifier_) commands with
  | Some (index, _) =>
      match swap_remove index commands with
      | Some (cmd, rest) => (Some cmd, rest)
      | None => (None, commands)
      end
  | None => (None, commands)
  end.

Definition ocw_callback (origin : RawOrigin) (identifier_ data_ : Bytes) (offchain_data : option OffchainData) : Run unit :=
  let! signer := ensure_signed origin in
  let! command_requests := gets (λ s, Commands (ipfs s)) in
  let! commands := unwrap command_requests in
  let callback_command := (take_request identifier_ commands).1 in
  do! modify (with_commands (λ _, Some (take_request identifier_ commands).2)) in
  do! emit_command (OcwCallback signer) in
  do! handle_data_for_ocw_callback data_ offchain_data callback_command in
  let! cmd := unwrap callback_command in
  let! r := command_callback cmd data_ in
  match r with
  | inl _ => ret tt
  | inr _ => throw Corruption
  end.

(** ** The worker *)

Section Worker.
Context {H : Type} `{Host H}.
Context `{!Codec BlockNumber, !Codec OffchainData, !Codec (list Bytes)}.

Definition print_metadata : OCW H unit :=
  let! r := ipfs_request IpfsRequest.Peers in
  ret tt.

Definition signed_callback (command_request : CommandRequest) (data_ : Bytes) (offchain_data : option OffchainData) : OCW H unit :=
  let! b := can_sign in
  if negb b then throw RequestFailed
  else
    do! send_signed_transaction (λ _, p_ocw_callback P (identifier command_request) data_ offchain_data) in
    ret tt.

(** One iteration of the loop. *)
Definition process_request (block_number : BlockNumber) (command_request : CommandRequest) : OCW H unit :=
  let! read := on_store (read_cid_data_for_block_number block_number) in
  let offchain_data := match read with inl d => d | inr _ => None end in
  let! r := attempt (ocw_process_command block_number command_request PROCESSED_COMMANDS) in
  match r with
  | inl responses =>
      do! attempt (E' := IpfsError) (signed_callback command_request (ocw_parse_ipfs_response responses) offchain_data) in
      ret tt
  | inr _ => ret tt
  end.

Fixpoint process_requests (block_number : BlockNumber) (commands : list CommandRequest) : OCW H unit :=
  match commands with
  | [] => ret tt
  | command_request :: commands =>
      do! process_request block_number command_request in
      process_requests block_number commands
  end.

Definition ocw_process_command_requests (block_number : BlockNumber) : OCW H unit :=
  let! commands := gets (λ w, default [] (Commands (ipfs (w_store w)))) in
  process_requests block_number commands.

Definition command_worker (block_number : BlockNumber) : OCW H unit :=
  do! attempt (E' := IpfsError) print_metadata in
  do! attempt (E' := IpfsError) (ocw_process_command_requests block_number) in
  ret tt.

End Worker.
End Pallet.

(** ** Lemmas *)

Definition deposits (es : list RuntimeEvent) (s : Store) : Store := foldl (λ s e, deposit e s) s es.

(** The events of a block are appended, in order, while their counter does not overflow. *)
Lemma deposits_events es s :
  Number (sys s) ≠ 0 → EventCount (sys s) + Z.of_nat (length es) <= u32_max →
  (Events (sys (deposits es s))).*2 = (Events (sys s)).*2 ++ es.
Proof.
  revert s. induction es as [|e es IH]; intros s Hn Hc; [by rewrite app_nil_r|].
  change (deposits (e :: es) s) with (deposits es (deposit e s)). simpl in Hc.
  assert (Hd : sys (deposit e s) = mkSystem (Account (sys s)) (Number (sys s)) (ExecutionPhase (sys s)) (EventCount (sys s) + 1)
      (Events (sys s) ++ [(default Initialization (ExecutionPhase (sys s)), e)])).
  { unfold deposit, deposit_event_in. simpl. replace (Number (sys s) =? 0) with false by lia.
    replace (checked_add 32 (EventCount (sys s)) 1) with (Some (EventCount (sys s) + 1)); [done|].
    symmetry. apply checked_add_Some. unfold u32_max in Hc. lia. }
  rewrite IH; rewrite Hd; simpl; [|done|unfold u32_max in *; lia].
  by rewrite fmap_app, <- app_assoc.
Qed.

Lemma deposits_sys es s s' : sys s = sys s' → sys (deposits es s) = sys (deposits es s').
Proof.
  revert s s'. induction es as [|e es IH]; intros s s' Hs; [done|].
  apply (IH (deposit e s) (deposit e s')). unfold deposit. simpl. by rewrite Hs.
Qed.

(** What [deposit] leaves alone. *)
Lemma deposits_rest es s : rest (deposits es s) = rest s.
Proof.
  revert s. induction es as [|e es IH]; intros s; [done|].
  change (rest (deposits es (deposit e s)) = rest s). by rewrite IH, rest_deposit.
Qed.

Lemma rest_ipfs s s' : rest s' = rest s → ipfs s' = ipfs s ∧ know s' = know s.
Proof. unfold rest, others. naive_solver. Qed.

(** The first request with the identifier is taken out, the others stay. *)
Lemma take_request_spec identifier_ l1 req l2 :
  identifier req = identifier_ → Forall (λ c, identifier c ≠ identifier_) l1 →
  ∃ rest, take_request identifier_ (l1 ++ req :: l2) = (Some req, rest) ∧ rest ≡ₚ l1 ++ l2.
Proof.
  intros Hid Hl1. unfold take_request.
  assert (Hf : list_find (λ cmd, identifier cmd = identifier_) (l1 ++ req :: l2) = Some (length l1, req)).
  { apply list_find_Some. split_and!; [by rewrite list_lookup_middle|done|]. intros j c Hc Hj.
    rewrite lookup_app_l in Hc by done. by eapply (Forall_lookup_1 _ _ _ _ Hl1). }
  rewrite Hf, swap_remove_app. eexists. split; [done|]. apply swap_remove_Permutation.
Qed.

Lemma take_request_None identifier_ l :
  Forall (λ c, identifier c ≠ identifier_) l → take_request identifier_ l = (None, l).
Proof.
  intros Hl. unfold take_request. replace (list_find _ l) with (@None (nat * CommandRequest)); [done|].
  symmetry. by apply list_find_None.
Qed.

Lemma emit_commands_run P requester_ data_ commands s :
  emit_commands P requester_ data_ commands s = (Ok tt, deposits (map (λ c, p_event P (command_event requester_ data_ c)) commands) s).
Proof. revert s. induction commands as [|c commands IH]; intros s; [done|]. simpl. unfold bind, emit_command, deposit_event, modify. by rewrite IH. Qed.
