(* ===== verification/Ipfs.v ===== *)
(** [pallet_tds_ipfs] ([frame/tds-ipfs/src/lib.rs]): the call that queues bytes for IPFS, the
    callback of the workers and the worker hook; and its life cycle from the call to the callback. *)

From S2P Require Import Prelude Runtime System Offchain IpfsPath IpfsApi IpfsCore IpfsCoreProps CommandQueue.

Definition tds_ipfs : CommandPallet :=
  mkPallet EIpfs (λ s, IpfsFileStorage (ipfs s))
    (λ f, with_ipfs (λ i, mkIpfs (Commands i) (f (IpfsFileStorage i))))
    IpfsOcwCallback.

Definition ipfs_genesis_build (s : Store) : Store := with_commands (λ _, Some []) s.

(** [Commands::append] *)
Definition append_command (req : CommandRequest) : Run unit :=
  modify (with_commands (λ c, Some (default [] c ++ [req]))).

Section Calls.
Context `{Hashing} `{!Codec BlockNumber, !Codec OffchainData}.

Definition add_bytes (origin : RawOrigin) (received_bytes : Bytes) (version : Z) (meta_data : Bytes) : Run unit :=
  let! requester_ := ensure_signed origin in
  let! block_number := gets (λ s, Number (sys s)) in
  do! store_cid_data_for_values block_number received_bytes meta_data false in
  let commands := [AddBytes version] in
  let! id := generate_id in
  do! append_command (mkRequest id requester_ commands) in
  deposit_event (EIpfs (QueuedDataToAdd requester_ requester_)).

End Calls.

Definition ipfs_ocw_callback (origin : RawOrigin) (identifier_ data_ : Bytes) (offchain_data : option OffchainData) : Run unit :=
  ocw_callback tds_ipfs origin identifier_ data_ offchain_data.

Definition ipfs_offchain_worker {H} `{Host H} `{!Codec BlockNumber, !Codec OffchainData, !Codec (list Bytes)}
  (block_number : BlockNumber) : OCW H unit :=
  command_worker tds_ipfs block_number.

(** ** The callback *)

(** The files after a callback for [req]. *)
Definition files_after (req : CommandRequest) (data_ : Bytes) (offchain_data : option OffchainData)
  (m : gmap Bytes IpfsFile) : gmap Bytes IpfsFile :=
  match offchain_data with
  | Some d => if contains_value_of_type_in_vector (AddBytes 0) (ipfs_commands req)
              then <[data_ := mkIpfsFile data_ (od_meta_data d)]> m else m
  | None => m
  end.

Lemma handle_data_run req data_ offchain_data s :
  handle_data_for_ocw_callback tds_ipfs data_ offchain_data (Some req) s =
    (Ok tt, with_ipfs (λ i, mkIpfs (Commands i) (files_after req data_ offchain_data (IpfsFileStorage i))) s).
Proof.
  destruct s as [? ? ? ? [? ?] ? ? ? ? ?].
  unfold handle_data_for_ocw_callback, handle_add_bytes_completed, files_after. destruct offchain_data; by case_match.
Qed.

(** C39. A callback, whoever signs it, completes exactly the first request with its identifier: the
    request leaves the queue, the others stay, the file is recorded under its CID when the request
    added bytes and the callback carries the record, the other files stay, and one event per command
    of the request follows the callback's own.  (Events are recorded after the genesis block, while their count
    fits its type.) *)
Theorem ocw_callback_completes who identifier_ data_ offchain_data l1 req l2 s :
  Commands (ipfs s) = Some (l1 ++ req :: l2) →
  identifier req = identifier_ → Forall (λ c, identifier c ≠ identifier_) l1 →
  Number (sys s) ≠ 0 → EventCount (sys s) + 1 + Z.of_nat (length (ipfs_commands req)) <= u32_max →
  ∃ s' queue, dispatch (ipfs_ocw_callback (Signed who) identifier_ data_ offchain_data) s = (Ok tt, s') ∧
    Commands (ipfs s') = Some queue ∧ queue ≡ₚ l1 ++ l2 ∧
    IpfsFileStorage (ipfs s') = files_after req data_ offchain_data (IpfsFileStorage (ipfs s)) ∧
    (Events (sys s')).*2 = (Events (sys s)).*2 ++
      EIpfs (OcwCallback who) :: map (λ c, EIpfs (command_event (requester req) data_ c)) (ipfs_commands req).
Proof.
  intros Hq Hid Hl1 Hn Hc. destruct (take_request_spec identifier_ l1 req l2 Hid Hl1) as (rest & Htake & Hperm).
  set (s1 := deposit (EIpfs (OcwCallback who)) (with_commands (λ _, Some rest) s)).
  set (s2 := with_ipfs (λ i, mkIpfs (Commands i) (files_after req data_ offchain_data (IpfsFileStorage i))) s1).
  set (es := map (λ c, EIpfs (command_event (requester req) data_ c)) (ipfs_commands req)).
  exists (deposits es s2), rest.
  assert (Hrun : ipfs_ocw_callback (Signed who) identifier_ data_ offchain_data s = (Ok tt, deposits es s2)).
  { unfold ipfs_ocw_callback, ocw_callback, bind. cbn [ensure_signed ret gets]. rewrite Hq. cbn [unwrap ret]. rewrite Htake.
    cbn [fst snd modify]. unfold emit_command, deposit_event. cbn [modify p_event tds_ipfs]. fold s1.
    rewrite handle_data_run. fold s2. cbn [unwrap ret]. unfold command_callback, bind. by rewrite emit_commands_run. }
  pose proof (rest_ipfs _ _ (deposits_rest es s2)) as [Hipfs _].
  pose proof (rest_ipfs _ _ (rest_deposit (EIpfs (OcwCallback who)) (with_commands (λ _, Some rest) s))) as [Hipfs1 _].
  split_and!; [by unfold dispatch; rewrite Hrun| |done| |].
  - rewrite Hipfs. unfold s2. cbn [ipfs with_ipfs Commands IpfsFileStorage]. unfold s1. by rewrite Hipfs1.
  - rewrite Hipfs. unfold s2. cbn [ipfs with_ipfs Commands IpfsFileStorage]. unfold s1. by rewrite Hipfs1.
  - rewrite (deposits_sys es s2 s1 eq_refl).
    apply (deposits_events (EIpfs (OcwCallback who) :: es) (with_commands (λ _, Some rest) s) Hn).
    simpl. unfold es. rewrite length_map. lia.
Qed.

(** A callback for a request that is not in the queue (an unknown identifier, or one whose
    callback another node has already sent) panics, whoever signs it. *)
Theorem ocw_callback_unknown_panics who identifier_ data_ offchain_data s :
  (∀ l, Commands (ipfs s) = Some l → Forall (λ c, identifier c ≠ identifier_) l) →
  dispatch (ipfs_ocw_callback (Signed who) identifier_ data_ offchain_data) s = (Panic, s).
Proof.
  intros Hq. unfold dispatch, ipfs_ocw_callback, ocw_callback, bind. cbn [ensure_signed ret gets].
  destruct (Commands (ipfs s)) as [l|]; [|done]. cbn [unwrap ret]. rewrite take_request_None by auto. done.
Qed.

(** ** The worker *)

(** The off-chain worker needs the HTTP capability: with HTTP requests disabled, the
    capability that IPFS requests check for is missing too, and the worker panics at its first
    request, having done nothing. *)
Theorem worker_without_http_panics `{Host H} `{!Codec BlockNumber, !Codec OffchainData, !Codec (list Bytes)}
  block_number (w : World H) :
  run_worker (worker_context false) (ipfs_offchain_worker block_number) w = (Panic, w).
Proof. destruct w as [[] h k p]. reflexivity. Qed.

Section LifeCycle.
Context `{RustIpfs} `{Hashing} `{!Codec BlockNumber, !Codec OffchainData, !Codec (list Bytes)}.
Context `{!CodecLaws BlockNumber is_u32, !CodecLaws OffchainData is_record}.

(** What [add_bytes] leaves on chain. *)
Lemma add_bytes_run who bytes version meta s :
  let n := Number (sys s) in
  add_bytes (Signed who) bytes version meta s =
    (Ok tt, deposit (EIpfs (QueuedDataToAdd who who))
       (with_commands (λ c, Some (default [] c ++ [mkRequest (request_id n) who [AddBytes version]]))
          (with_offchain_index <[offchain_data_key n := Some (scale_encode (mkOffchainData bytes meta))]> s))).
Proof. done. Qed.

(** Reading the record of a block in a worker. *)
Lemma read_cid_data_run (w : World NodeHost) n raw d :
  capabilities (w_store w) = Capabilities.all → offchain_db (w_store w) !! offchain_data_key n = Some raw →
  scale_decode raw = Some d →
  on_store (read_cid_data_for_block_number n) w = (Ok (inl (Some d)), w).
Proof.
  intros Hcaps Hraw Hd. unfold on_store, read_cid_data_for_block_number, offchain_storage_data_for_key, ref_get, bind.
  cbn [ref_kind ref_key persistent]. rewrite db_get by (split; by rewrite Hcaps). rewrite Hraw. simpl. rewrite Hd. simpl.
  by rewrite with_store_id.
Qed.

Lemma process_add_bytes (w : World NodeHost) n id who version raw (d : OffchainData) cid rest :
  capabilities (w_store w) = Capabilities.all →
  offchain_db (w_store w) !! offchain_data_key n = Some raw → scale_decode raw = Some d →
  offchain_db (w_store w) !! id = None → id ≠ offchain_data_key n →
  answers (w_host w) (NAddBytes cid) rest →
  ∃ a' db', process_ipfs_command n (mkRequest id who [AddBytes version]) PROCESSED_COMMANDS w =
    (Ok [IpfsResponse.AddBytes (cid_to_string cid)],
     with_store (with_offchain_db (λ _, db') (w_store w)) (with_host (with_api a' rest (w_host w)) w)) ∧
    to_worker a' = to_worker (nh_api (w_host w)) ++ [(next_id (nh_api (w_host w)), IpfsRequest.AddBytes (od_data d) version)].
Proof.
  intros Hcaps Hraw Hd Hlock Hne Han. unfold process_ipfs_command, bind, on_store.
  assert (Hdb : ∀ s, capabilities s = Capabilities.all → can_use_db s) by (intros s Hs; split; by rewrite Hs).
  unfold acquire_command_request_lock. rewrite ref_mutate_run by auto. cbn [identifier]. rewrite Hlock.
  cbn [decode_value lock_value fst snd].
  set (w1 := with_store (with_offchain_db <[id := scale_encode n]> (w_store w)) w).
  assert (Hread : on_store (read_cid_for_block_number n) w1 = (Ok (inl d), w1)).
  { unfold read_cid_for_block_number, on_store, bind. unfold read_cid_data_for_block_number, offchain_storage_data_for_key, ref_get, bind.
    cbn [ref_kind ref_key persistent]. rewrite db_get by (apply Hdb; exact Hcaps). simpl.
    rewrite lookup_insert_ne by done. rewrite Hraw. simpl. rewrite Hd. done. }
  destruct (ipfs_request_answered (IpfsRequest.AddBytes (od_data d) version) w1 (NAddBytes cid) rest Hcaps Han) as (a' & Ha & _ & Hsent); [done|].
  cbn [ipfs_commands run_commands]. unfold bind. cbn [run_command]. unfold bind. rewrite Hread. unfold attempt. rewrite Ha.
  cbn [ret response_from option_list app fst snd]. unfold processed_commands.
  rewrite ref_mutate_run by (apply Hdb; exact Hcaps).
  set (f := match decode_value _ with inl (Some _) => _ | _ => _ end).
  assert (Hf : ∃ l, f = inl l) by (unfold f; repeat case_match; eauto). destruct Hf as [l Hf]. clearbody f. subst f.
  eexists _, _. cbn [fst snd]. split; [f_equal|exact Hsent].
Qed.

Lemma signed_callback_run (w : World NodeHost) k req data_ od :
  capabilities (w_store w) = Capabilities.all → w_keys w = [k] →
  (∀ call n, nh_creates (w_host w) call k n = true) → (∀ sig call, nh_accepts (w_host w) sig call = true) →
  ∃ w', signed_callback tds_ipfs req data_ od w = (Ok tt, w') ∧ w_host w' = w_host w ∧
    w_pool w' = w_pool w ++ [(Some (k, nonce (info (w_store w) k)), IpfsOcwCallback (identifier req) data_ od)].
Proof.
  intros Hcaps Hk Hcr Hac. unfold signed_callback, can_sign, send_signed_transaction, keystore_accounts, bind.
  rewrite on_check by (by rewrite Hcaps). cbn [gets ret]. rewrite Hk. change (negb (0 <? _)) with false. cbn iota beta.
  rewrite on_check by (by rewrite Hcaps). cbn [gets ret]. rewrite Hk. cbn [for_all]. unfold bind.
  unfold send_single_signed_transaction, bind. cbn [gets host_create_transaction node_host]. rewrite Hcr.
  unfold submit_transaction, bind. rewrite on_check by (by rewrite Hcaps). unfold host_op.
  cbn [host_submit_transaction node_host fst snd]. rewrite Hac. cbn. eexists. split; [done|]. split; [by destruct (w_host w)|done].
Qed.

End LifeCycle.

(** C8. From the call to the callback: when [add_bytes] is called in a block with an empty queue
    and the block is imported with off-chain indexing, the worker of that block, on a node whose
    IPFS engine answers in time and that holds a key, sends the engine two requests, the list of its
    peers and the upload of exactly the bytes of the call in the CID version of the call, and submits
    one signed callback with the identifier of the request, the CID that answers the upload and the
    call's bytes and metadata.  The answers carry the ids of the two requests; the identifier of the
    request is not yet a key of the database, and is not the key of the block's record. *)
Theorem add_bytes_reaches_callback `{RustIpfs} `{Hashing} `{!Codec BlockNumber, !Codec OffchainData, !Codec (list Bytes)}
  `{!CodecLaws BlockNumber is_u32, !CodecLaws OffchainData is_record}
  s who bytes version meta (h : NodeHost) k peers cid rest :
  let n := Number (sys s) in
  let id := request_id n in
  is_bytes bytes → is_bytes meta → Commands (ipfs s) = Some [] →
  offchain_db s !! id = None → offchain_index s !! id = None → id ≠ offchain_data_key n →
  next_id (nh_api h) + 1 < umax 16 →
  nh_inbox h = Message (MResponse (next_id (nh_api h)) (NPeers peers)) ::
               Message (MResponse (next_id (nh_api h) + 1) (NAddBytes cid)) :: rest →
  (∀ call i, nh_creates h call k i = true) → (∀ sig call, nh_accepts h sig call = true) →
  ∃ s1 w', dispatch (add_bytes (Signed who) bytes version meta) s = (Ok tt, s1) ∧
    run_worker (worker_context true) (ipfs_offchain_worker n) (mkWorld (import_block true s1) h [k] []) = (Ok tt, w') ∧
    to_worker (nh_api (w_host w')) = to_worker (nh_api h) ++
      [(next_id (nh_api h), IpfsRequest.Peers); (next_id (nh_api h) + 1, IpfsRequest.AddBytes bytes version)] ∧
    w_pool w' = [(Some (k, nonce (info s k)), IpfsOcwCallback id (cid_to_string cid) (Some (mkOffchainData bytes meta)))].
Proof.
  intros n id Hb Hm Hq Hlock Hlock' Hne Hid Hin Hcr Hac.
  set (d := mkOffchainData bytes meta). set (req := mkRequest id who [AddBytes version]).
  set (s1 := deposit (EIpfs (QueuedDataToAdd who who)) (with_commands (λ c, Some (default [] c ++ [req]))
          (with_offchain_index <[offchain_data_key n := Some (scale_encode d)]> s))).
  exists s1. set (w := mkWorld (import_block true s1) h [k] []).
  set (w0 := with_store (with_capabilities Capabilities.all (w_store w)) w).
  assert (Hrest : ipfs s1 = mkIpfs (Some [req]) (IpfsFileStorage (ipfs s)) ∧ offchain_db s1 = offchain_db s ∧
      offchain_index s1 = <[offchain_data_key n := Some (scale_encode d)]> (offchain_index s) ∧ info s1 k = info s k).
  { unfold s1, info, accounts, deposit, deposit_event_in. simpl. rewrite Hq. by repeat case_match. }
  destruct Hrest as (Hi & Hdb & Hix & Hinfo).
  assert (Hmerge : offchain_db (w_store w0) = merge apply_change (offchain_index s1) (offchain_db s1)) by done.
  assert (Hraw : offchain_db (w_store w0) !! offchain_data_key n = Some (scale_encode d)).
  { rewrite Hmerge, Hdb, Hix, lookup_merge, lookup_insert_eq. by destruct (offchain_db s !! _). }
  assert (Hfree : offchain_db (w_store w0) !! id = None).
  { rewrite Hmerge, Hdb, Hix, lookup_merge, lookup_insert_ne, Hlock', Hlock by done. done. }
  assert (Hd : scale_decode (scale_encode d) = Some d) by (by apply scale_roundtrip).
  assert (Hcaps : capabilities (w_store w0) = Capabilities.all) by done.
  destruct (ipfs_request_answered IpfsRequest.Peers w0 (NPeers peers)
    (Message (MResponse (next_id (nh_api h) + 1) (NAddBytes cid)) :: rest)) as (a1 & Ha1 & Hn1 & Hq1); [done|split; [simpl; lia|done]|done|].
  set (w2 := with_host (with_api a1 _ (w_host w0)) w0) in Ha1.
  destruct (process_add_bytes w2 n id who version (scale_encode d) d cid rest) as (a3 & db3 & Hp & Hq3); [done..| |].
  { change (nh_api (w_host w0)) with (nh_api h) in Hn1. split; simpl; rewrite Hn1; [lia|done]. }
  set (w3 := with_store _ _) in Hp.
  destruct (signed_callback_run w3 k req (cid_to_string cid) (Some d)) as (w4 & Hs & Hhost & Hpool); [done..|].
  exists (with_store (with_offchain_db (λ _, offchain_db (w_store w4)) (import_block true s1)) w4).
  split_and!; [by unfold dispatch; rewrite add_bytes_run| | |].
  2: { change (w_host (with_store _ w4)) with (w_host w4). rewrite Hhost. change (nh_api (w_host w3)) with a3. rewrite Hq3.
       change (nh_api (w_host w2)) with a1. rewrite Hq1, Hn1, <- app_assoc. done. }
  2: { change (w_pool w4 = [(Some (k, nonce (info s k)), IpfsOcwCallback id (cid_to_string cid) (Some d))]).
       rewrite Hpool. change (info (w_store w3) k) with (info s1 k). by rewrite Hinfo. }
  unfold run_worker. change (context_capabilities (worker_context true)) with Capabilities.all. fold w0.
  assert (Hworker : ipfs_offchain_worker n w0 = (Ok tt, w4)); [|by rewrite Hworker].
  unfold ipfs_offchain_worker, command_worker, print_metadata, bind, attempt. rewrite Ha1. cbn [ret].
  unfold ocw_process_command_requests, bind. cbn [gets]. change (ipfs (w_store w2)) with (ipfs s1). rewrite Hi.
  cbn [Commands from_option Datatypes.id process_requests]. unfold process_request, bind.
  rewrite (read_cid_data_run w2 n (scale_encode d) d Hcaps Hraw Hd). unfold attempt, ocw_process_command. fold req in Hp. rewrite Hp.
  cbn [ocw_parse_ipfs_response foldl parse_response]. by rewrite Hs.
Qed.
