(* ===== verification/Knowledge.v ===== *)
(** [pallet_knowledge] ([frame/knowledge/src]): the records of knowledge blocks, the calls that create,
    change and list them, the callback and the worker hook it shares with [pallet_tds_ipfs], and the
    [Sellable] interface it offers to the market. *)

From S2P Require Import Prelude Runtime System Offchain IpfsCore CommandQueue Ipfs.

(** ** [types.rs] *)

(** What the market needs of a resource. *)
Class Sellable (ResourceId : Type) := sellable_transfer : ResourceId → AccountId → AccountId → Run unit.

Record Content := mkContent {
  content_owner : AccountId;
  content_block_number : BlockNumber;
  content_title : Bytes;
  content_text : Bytes }.

Definition set_title (title : Bytes) (c : Content) : Content :=
  mkContent (content_owner c) (content_block_number c) title (content_text c).
Definition set_text (text : Bytes) (c : Content) : Content :=
  mkContent (content_owner c) (content_block_number c) (content_title c) text.

(** ** [lib.rs] *)

Definition knowledge_pallet : CommandPallet :=
  mkPallet (λ e, EKnowledge (KCommand e)) (λ s, KnowledgeFiles (know s))
    (λ f, with_know (λ k, mkKnowledge (Knowledge k) (f (KnowledgeFiles k)) (IpfsData k) (KAccount k)))
    KnowledgeOcwCallback.

Definition put_knowledge (block_number : BlockNumber) (who : AccountId) (v : list BlockNumber) : Run unit :=
  modify (with_know (λ k, mkKnowledge (<[(block_number, who) := v]> (Knowledge k)) (KnowledgeFiles k) (IpfsData k) (KAccount k))).

Definition put_owner (who : AccountId) (block_number : BlockNumber) : Run unit :=
  modify (with_know (λ k, mkKnowledge (Knowledge k) (KnowledgeFiles k) (IpfsData k) (<[(who, block_number) := 1]> (KAccount k)))).

(** [Commands::mutate] with a push. *)
Definition push_command (req : CommandRequest) : Run unit :=
  modify (with_commands (λ commands, match commands with Some l => Some (l ++ [req]) | None => Some [req] end)).

Section Calls.
Context `{Hashing} `{!Codec BlockNumber, !Codec OffchainData}.

Definition create (origin : RawOrigin) (title text : Bytes) : Run unit :=
  let! from := ensure_signed origin in
  let! block_number := gets (λ s, Number (sys s)) in
  do! put_owner from block_number in
  do! put_knowledge block_number from [block_number] in
  do! store_cid_data_for_values block_number text title false in
  let commands := [AddBytes 1] in
  let! id := generate_id in
  do! push_command (mkRequest id from commands) in
  let key := offchain_data_key block_number in
  do! offchain_index_set key (scale_encode block_number) in
  deposit_event (EKnowledge (Created from block_number title text)).

Definition modify_content (origin : RawOrigin) (block_number : BlockNumber) (title text : Bytes) : Run unit :=
  let! from := ensure_signed origin in
  let! new_block_number := gets (λ s, Number (sys s)) in
  do! store_cid_data_for_values new_block_number text title false in
  let commands := [AddBytes 1] in
  let! id := generate_id in
  do! push_command (mkRequest id from commands) in
  let! found := gets (λ s, Knowledge (know s) !! (block_number, from)) in
  let! block_numbers := unwrap found in
  do! put_knowledge block_number from (block_numbers ++ [new_block_number]) in
  let! read := read_cid_for_block_number block_number in
  match read with
  | inl data_ => deposit_event (EKnowledge (Modified from from block_number (od_meta_data data_) (od_data data_)))
  | inr _ => throw (Module_ (KnowledgeE KnowledgeNotExist))
  end.

Definition get_content (origin : RawOrigin) (block_number : BlockNumber) : Run unit :=
  let! from := ensure_signed origin in
  offchain_index_set (offchain_data_key block_number) (scale_encode block_number).

Definition get_knowledge_owners `{StorageOrder} (origin : RawOrigin) (block_number : BlockNumber) : Run unit :=
  let! from := ensure_signed origin in
  let! owners := gets (λ s, prefix_keys (Knowledge (know s)) block_number) in
  deposit_event (EKnowledge (Owners from block_number owners)).

Definition knowledge_ocw_callback (origin : RawOrigin) (identifier_ data_ : Bytes) (offchain_data : option OffchainData) : Run unit :=
  ocw_callback knowledge_pallet origin identifier_ data_ offchain_data.

Definition knowledge_store_offchain_data (origin : RawOrigin) (block_number : BlockNumber) (cid_data : OffchainData) : Run unit :=
  let! _ := ensure_signed origin in
  do! modify (with_know (λ k, mkKnowledge (Knowledge k) (KnowledgeFiles k) (<[block_number := cid_data]> (IpfsData k)) (KAccount k))) in
  deposit_event (EKnowledge (DataStored block_number)).

Definition knowledge_offchain_worker {H} `{Host H} (block_number : BlockNumber) : OCW H unit :=
  let key := offchain_data_key block_number in
  let! r := on_store (ref_get (T := BlockNumber) (persistent key)) in
  match r with
  | inl (Some block_number) =>
      let! read := on_store (read_cid_for_block_number block_number) in
      match read with
      | inl cid_data => do! submit_unsigned_transaction (StoreOffchainData block_number cid_data) in ret tt
      | inr _ => ret tt
      end
  | _ => ret tt
  end.

End Calls.

(** The pallet's copies of the queue's functions. *)
Definition knowledge_store_ipfs_file_info : IpfsFile → Run unit := store_ipfs_file_info knowledge_pallet.
Definition knowledge_handle_add_bytes_completed : Bytes → option OffchainData → Run unit :=
  handle_add_bytes_completed knowledge_pallet.
Definition knowledge_handle_data_for_ocw_callback : Bytes → option OffchainData → option CommandRequest → Run unit :=
  handle_data_for_ocw_callback knowledge_pallet.
Definition knowledge_get_file_url_for_meta_data `{StorageOrder} : Bytes → Store → Bytes :=
  get_file_url_for_meta_data knowledge_pallet.
Definition knowledge_get_file_url_for_cid : Bytes → Store → Bytes := get_file_url_for_cid knowledge_pallet.
Definition knowledge_command_callback : CommandRequest → Bytes → Run (unit + unit) := command_callback knowledge_pallet.
Definition knowledge_signed_callback {H} `{Host H} : CommandRequest → Bytes → option OffchainData → OCW H unit :=
  signed_callback knowledge_pallet.
Definition knowledge_ocw_process_command_requests {H} `{Host H}
  `{!Codec BlockNumber, !Codec OffchainData, !Codec (list Bytes)} : BlockNumber → OCW H unit :=
  ocw_process_command_requests knowledge_pallet.

Definition inner_transfer (block_number : BlockNumber) (from to : AccountId) : Run unit := put_owner to block_number.

#[export] Instance knowledge_sellable : Sellable BlockNumber := inner_transfer.

(** ** The calls *)

Section Props.
Context `{Hashing} `{!Codec BlockNumber, !Codec OffchainData}.

Lemma know_deposit e s : know (deposit e s) = know s ∧ ipfs (deposit e s) = ipfs s ∧ offchain_index (deposit e s) = offchain_index s.
Proof. unfold deposit, deposit_event_in. simpl. by repeat case_match. Qed.

Definition created_record (s : Store) (who : AccountId) (know' : KnowledgeStore) : Prop :=
  know' = mkKnowledge (<[(Number (sys s), who) := [Number (sys s)]]> (Knowledge (know s))) (KnowledgeFiles (know s)) (IpfsData (know s))
            (<[(who, Number (sys s)) := 1]> (KAccount (know s))).

End Props.

(** Creating a knowledge block records the creator as an owner and starts its history, and queues
    an upload; but the off-chain record that the upload takes its bytes from does not depend on the
    title and the text: it holds the block number, written over them. *)
Theorem create_loses_content `{Hashing} `{!Codec BlockNumber, !Codec OffchainData} who title text s :
  let n := Number (sys s) in
  ∃ s', dispatch (create (Signed who) title text) s = (Ok tt, s') ∧
    created_record s who (know s') ∧
    Commands (ipfs s') = Some (default [] (Commands (ipfs s)) ++ [mkRequest (request_id n) who [AddBytes 1]]) ∧
    offchain_index s' = <[offchain_data_key n := Some (scale_encode n)]> (offchain_index s).
Proof.
  intros n. eexists. split; [reflexivity|].
  match goal with |- context [deposit ?e ?x] => destruct (know_deposit e x) as (Hk & Hi & Hx) end.
  split_and!; [by unfold created_record; rewrite Hk| |].
  - rewrite Hi. simpl. by destruct (Commands (ipfs s)).
  - rewrite Hx. simpl. by rewrite insert_insert_eq.
Qed.

(** Content can never be modified on chain: in every context that blocks are built or imported
    in, [modify_content] panics, whoever signs it and whatever is stored, because it reads the
    off-chain database. *)
Theorem modify_content_panics `{Hashing} `{!Codec BlockNumber, !Codec OffchainData} c who block_number title text s :
  c = Importing ∨ c = Syncing ∨ c = BlockConstruction →
  capabilities s = context_capabilities c →
  dispatch (modify_content (Signed who) block_number title text) s = (Panic, s).
Proof.
  intros Hc Hcaps. assert (H0 : capabilities s = 0) by (by destruct Hc as [->|[->| ->]]).
  assert (Hp : (modify_content (Signed who) block_number title text s).1 = Panic).
  { unfold modify_content, bind. cbn [ensure_signed ret gets]. simpl. destruct (Knowledge (know s) !! (block_number, who)) as [l|]; [|done].
    simpl. unfold read_cid_for_block_number, read_cid_data_for_block_number, offchain_storage_data_for_key, ref_get, local_storage_get, check, bind.
    simpl. by rewrite H0. }
  unfold dispatch. destruct (modify_content _ _ _ _ s) as [[]]; simpl in Hp; by simplify_eq.
Qed.

(** The worker's transaction cannot succeed: what the knowledge worker adds to the pool, if
    anything, is one unsigned [store_offchain_data], and the call rejects an unsigned origin. *)
Theorem knowledge_worker_rejected {X} `{Host X} `{!Codec BlockNumber, !Codec OffchainData} block_number (w : World X) :
  let w' := (knowledge_offchain_worker block_number w).2 in
  w_pool w' = w_pool w ∨
  ∃ b d, w_pool w' = w_pool w ++ [(None, StoreOffchainData b d)] ∧
    ∀ s, dispatch (knowledge_store_offchain_data NoneOrigin b d) s = (Err BadOrigin, s).
Proof.
  intros w'. enough (Hwp : wp (knowledge_offchain_worker block_number) (λ _ w', w_pool w' = w_pool w ∨
      ∃ b d, w_pool w' = w_pool w ++ [(None, StoreOffchainData b d)]) w).
  { destruct Hwp as [Hp|(b & d & Hp)]; [by left|right; by exists b, d]. }
  unfold knowledge_offchain_worker. apply wp_bind, wp_on_store.
  apply run_wp. intros [[[b|]|e]|e|] s _; cbn; try (by left).
  apply wp_bind, wp_on_store. apply run_wp. intros [[d|e]|e|] s' _; cbn; try (by left).
  unfold submit_unsigned_transaction, submit_transaction. apply wp_bind, wp_bind, wp_on_store, wp_check; intros _; [|by left].
  apply wp_bind, wp_host_op. destruct (host_submit_transaction _ _ _) as [[|] h]; cbn; [right|by left]. eauto.
Qed.
