(* ===== verification/Market.v ===== *)
(** [pallet_knowledge_market] ([frame/knowledge-market/src]): listing a knowledge block for sale.  Setting
    a permission and buying are commented out in the source. *)

From S2P Require Import Prelude Runtime System.

Definition default_sale : SaleData := mkSaleData 0.

Definition permit_new (viewable_ editable_ sellable_ : bool) : Permit := mkPermit viewable_ editable_ sellable_.

Definition with_sales (f : gmap (Z * AccountId) SaleData → gmap (Z * AccountId) SaleData) : Store → Store :=
  with_market (λ m, mkMarket (f (KnowledgeBlockForSale m)) (Permission m)).

Definition set_sale (origin : RawOrigin) (knowledge_block_id : Z) (price_ : Balance) : Run unit :=
  let! from := ensure_signed origin in
  let! result := gets (λ s, Permission (market s) !! knowledge_block_id) in
  do! ensure (bool_decide (is_Some result)) (Module_ (MarketE PermissionNotSet)) in
  let! permission := unwrap result in
  do! ensure (sellable permission) (Module_ (MarketE PermissionOwnerSetNotSale)) in
  do! modify (with_sales <[(knowledge_block_id, from) := mkSaleData price_]>) in
  deposit_event (EMarket (ListForSale knowledge_block_id from price_)).

Definition for_sale (s : Store) (id : Z) (who : AccountId) : SaleData :=
  default default_sale (KnowledgeBlockForSale (market s) !! (id, who)).

(** [set_sale] on each of its branches. *)
Lemma set_sale_cases who id price_ s :
  dispatch (set_sale (Signed who) id price_) s =
    match Permission (market s) !! id with
    | None => (Err (Module_ (MarketE PermissionNotSet)), s)
    | Some p =>
        if sellable p
        then (Ok tt, deposit (EMarket (ListForSale id who price_)) (with_sales <[(id, who) := mkSaleData price_]> s))
        else (Err (Module_ (MarketE PermissionOwnerSetNotSale)), s)
    end.
Proof.
  unfold dispatch, set_sale, bind. cbn [ensure_signed ret gets]. destruct (Permission (market s) !! id) as [p|]; [|done].
  cbn. by destruct (sellable p).
Qed.

Lemma market_deposit e s : market (deposit e s) = market s.
Proof. unfold deposit, deposit_event_in. simpl. by repeat case_match. Qed.

(** A sequence of market calls, each with its origin. *)
Fixpoint market_calls (calls : list (RawOrigin * Z * Balance)) (s : Store) : Store :=
  match calls with
  | [] => s
  | (origin, id, price_) :: calls => market_calls calls (dispatch (set_sale origin id price_) s).2
  end.

(** A listing changes exactly the seller's price of that block, and a permission is never
    granted: after any calls of the market, a block that had no permission still has none, has no
    listing it did not have before, and asking to sell it is refused. *)
Theorem market_needs_permission calls s id :
  Permission (market s) !! id = None →
  let s' := market_calls calls s in
  Permission (market s') = Permission (market s) ∧
  (∀ who, for_sale s' id who = for_sale s id who) ∧
  ∀ who price_, dispatch (set_sale (Signed who) id price_) s' = (Err (Module_ (MarketE PermissionNotSet)), s').
Proof.
  intros Hid s'. assert (Hs : Permission (market s') = Permission (market s) ∧ ∀ who, for_sale s' id who = for_sale s id who).
  { unfold s'. clear s'. revert s Hid. induction calls as [|[[origin id'] price_] calls IH]; intros s Hid; [done|]. simpl.
    set (s1 := (dispatch (set_sale origin id' price_) s).2).
    assert (H1 : Permission (market s1) = Permission (market s) ∧ ∀ who, for_sale s1 id who = for_sale s id who).
    { unfold s1. destruct origin as [|who|]; [done| |done]. rewrite set_sale_cases.
      destruct (Permission (market s) !! id') as [p|] eqn:Hp; [|done]. destruct (sellable p); [|done].
      unfold for_sale. cbn [snd]. rewrite market_deposit. simpl. split; [done|]. intros who'.
      rewrite lookup_insert_ne by congruence. done. }
    destruct H1 as [H1 H2]. destruct (IH s1) as [H3 H4]; [by rewrite H1|]. split; [congruence|]. intros who. by rewrite H4. }
  destruct Hs as [Hp Hl]. split_and!; [done|done|]. intros who price_. by rewrite set_sale_cases, Hp, Hid.
Qed.

Lemma market_witness :
  (dispatch (set_sale (Signed 3%N) 1 50) (market_calls [(Signed 3%N, 1, 40); (Signed 4%N, 2, 60)]
     (with_market (λ m, mkMarket ∅ {[2 := mkPermit true true true]}) (empty_store 5 0)))).1 = Err (Module_ (MarketE PermissionNotSet)).
Proof.
  pose proof (market_needs_permission [(Signed 3%N, 1, 40); (Signed 4%N, 2, 60)]
    (with_market (λ m, mkMarket ∅ {[2 := mkPermit true true true]}) (empty_store 5 0)) 1) as (_ & _ & Hs); [by vm_compute|].
  by rewrite Hs.
Defined.
