(* ===== verification/IpfsExamples.v ===== *)
(** A concrete codec, engine and node for the parameters of the IPFS files, and runs of the theorems
    of [IpfsApi], [IpfsCoreProps], [Ipfs] and [Knowledge] on them. *)

From S2P Require Import Prelude Runtime System Offchain IpfsPath IpfsApi IpfsCore IpfsCoreProps CommandQueue Ipfs Knowledge.

(** ** A codec *)

Definition le32 (n : Z) : Bytes := [n mod 256; n / 256 mod 256; n / 256 / 256 mod 256; n / 256 / 256 / 256 mod 256].

Definition from_le32 (b : Bytes) : option (Z * Bytes) :=
  match b with
  | x :: y :: z :: t :: rest => Some (x + 256 * (y + 256 * (z + 256 * t)), rest)
  | _ => None
  end.

Lemma from_le32_le32 n rest : is_u32 n → from_le32 (le32 n ++ rest) = Some (n, rest).
Proof.
  intros Hn. unfold le32, from_le32. simpl. f_equal. f_equal. unfold is_u, umax in Hn.
  pose proof (Z.div_mod n 256). pose proof (Z.div_mod (n / 256) 256). pose proof (Z.div_mod (n / 256 / 256) 256).
  assert (n / 256 / 256 / 256 mod 256 = n / 256 / 256 / 256); [|lia].
  apply Z.mod_small. rewrite !Z.div_div by lia. split; [apply Z.div_pos; lia|apply Z.div_lt_upper_bound; lia].
Qed.

#[export] Instance number_codec : Codec BlockNumber := {|
  scale_encode := le32;
  scale_decode b := match from_le32 b with Some (n, _) => Some n | None => None end |}.

#[export] Instance number_codec_laws : CodecLaws BlockNumber is_u32.
Proof. intros n Hn. cbn [scale_decode scale_encode number_codec]. rewrite <- (app_nil_r (le32 n)). by rewrite from_le32_le32. Qed.

#[export] Instance record_codec : Codec OffchainData := {|
  scale_encode d := le32 (Z.of_nat (length (od_data d))) ++ od_data d ++ od_meta_data d;
  scale_decode b :=
    match from_le32 b with
    | Some (n, b) => Some (mkOffchainData (take (Z.to_nat n) b) (drop (Z.to_nat n) b))
    | None => None
    end |}.

#[export] Instance record_codec_laws : CodecLaws OffchainData is_record.
Proof.
  intros [b m] [[_ Hb] _]. simpl in Hb. cbn [scale_decode scale_encode record_codec od_data od_meta_data]. rewrite from_le32_le32 by (unfold is_u, umax; lia).
  by rewrite Nat2Z.id, take_app_length, drop_app_length.
Qed.

Fixpoint chunks (fuel : nat) (b : Bytes) : list Bytes :=
  match fuel, b with
  | S fuel, _ :: _ => take 32 b :: chunks fuel (drop 32 b)
  | _, _ => []
  end.

#[export] Instance identifiers_codec : Codec (list Bytes) := {|
  scale_encode l := concat l;
  scale_decode b := Some (chunks (length b) b) |}.

#[export] Instance hashing : Hashing := {|
  random subject n := replicate 32 (n mod 256);
  blake2_256 b := take 32 b |}.

(** ** An engine whose values are their texts *)

#[export] Instance text_ipfs : RustIpfs := {|
  PeerId := Bytes; Multiaddr := Bytes; Cid := Bytes; IpfsBlock := Bytes; PublicKey := Bytes; SubscriptionStream := unit;
  peer_to_bytes b := b; peer_to_string b := b; addr_to_string b := b; cid_to_string b := b; cid_to_bytes b := b;
  to_peer_id b := b;
  parse_addr := Some; parse_addr_with_peer b := Some (b, b); parse_peer := Some; parse_cid := Some;
  cid_try_from := Some |}.

(** The CID of a text is the text itself. *)
Definition engine : Engine :=
  mkEngine (Some []) (λ _ b, Some [ProgressStatus 1 None; CompletedStatus (path_new (Ipld b)) (Z.of_nat (length b)) None]) Some None (λ p, match root p with Ipld c => Some [Some c] | _ => None end) (λ _, Some tt) (λ _, Some tt) (λ p, Some [p]) Some (λ p, Some [p]) (λ c, Some [c])
    None (λ _ _, Some tt) (Some []) (Some []) (Some []) (λ _ _, Some tt) (λ _, Some tt) (λ _ _, Some tt) (λ _, Some tt) (Some [])
    (λ _, Some true).

Definition node (inbox : list WakeUp) : NodeHost := mkNode (mkApi 7 ∅ [] 0) inbox 1000 (λ _ _ _, true) (λ _ _, true).

(** Two requests, the worker takes the first and answers it, and the API waits for it. *)
Definition answered_run : Sides := (api_wait [7] 1 (mkSides
  (mkApi 9 (<[8 := Dispatched]> (<[7 := Dispatched]> ∅)) [] 0) [(8, IpfsRequest.Identity)] [MResponse 7 (NPeers [])])).2.

Lemma sides_witness : mismatches (api answered_run) = 0%nat.
Proof.
  refine (proj1 (proj2 (proj2 (ipfs_sides_consistent 7 answered_run _)))).
  set (s0 := ipfs_new 7).
  set (s1 := mkSides (request_start IpfsRequest.Peers (api s0)).2 (worker s0) (to_api s0)).
  set (s2 := mkSides (request_start IpfsRequest.Identity (api s1)).2 (worker s1) (to_api s1)).
  set (poll := λ f : Z * IpfsRequest.t, if f.1 =? 7 then Some (inl (NPeers [])) else None : option (IpfsNativeResponse + Bytes)).
  eapply rtc_l; [apply (step_start s0 IpfsRequest.Peers)|]. eapply rtc_l; [apply (step_start s1 IpfsRequest.Identity)|].
  eapply rtc_l; [apply (step_poll s2 poll); reflexivity|]. eapply rtc_l; [eapply (step_poll _ poll); reflexivity|].
  eapply rtc_l; [exact (step_wait _ [7] 1)|]. apply rtc_refl.
Defined.

Lemma lock_exclusive_witness :
  offchain_db (acquire_command_request_lock (E := IpfsError) 5 (mkRequest [1] 3%N []) (empty_store 5 Capabilities.all)).2 !! [1]
    = Some (scale_encode 5).
Proof.
  set (s := empty_store 5 Capabilities.all).
  pose proof (acquire_is_steps [1] 5 (mkRequest [1] 3%N []) s (map Idle [5]) 0 eq_refl (conj eq_refl eq_refl) eq_refl) as Hrun.
  refine (proj2 (proj1 (lock_exclusive [1] s [5] _ [Holds 5] _ _) 0%nat 0%nat 5 5 eq_refl eq_refl)); [|exact Hrun].
  constructor; [unfold is_u, umax; lia|constructor].
Defined.

(** A request to connect, on a node that answers. *)
Definition connect_request : CommandRequest := mkRequest (replicate 32 9) 3%N [ConnectTo [47]].
Definition connect_world : World NodeHost :=
  mkWorld (empty_store 5 Capabilities.all) (node [Message (MResponse 7 NConnect)]) [] [].

Lemma processed_once_witness :
  (process_ipfs_command 6 connect_request PROCESSED_COMMANDS
     (process_ipfs_command 5 connect_request PROCESSED_COMMANDS connect_world).2).1 = Err FailedToAcquireLock.
Proof.
  set (w1 := (process_ipfs_command 5 connect_request PROCESSED_COMMANDS connect_world).2).
  rewrite (processed_once connect_world w1 w1 5 6 connect_request PROCESSED_COMMANDS [IpfsResponse.Success]); [done|..].
  all: try reflexivity; try done; try (unfold is_u, umax; lia).
Defined.

(** A block removed on the engine is a failed command; a connection is not. *)
Definition outcome_world (resp : IpfsNativeResponse) : World NodeHost :=
  mkWorld (with_offchain_db <[offchain_data_key 5 := scale_encode (mkOffchainData [1] [2])]> (empty_store 5 Capabilities.all))
    (node [Message (MResponse 7 resp)]) [] [].

Lemma command_outcome_witness :
  (run_command 5 (RemoveBlock [1]) (outcome_world NRemoveBlock)).1 = Ok None ∧
  (run_command 5 (ConnectTo [1]) (outcome_world NConnect)).1 = Ok (Some IpfsResponse.Success).
Proof.
  split.
  - refine (command_outcome engine (outcome_world NRemoveBlock) 5 (RemoveBlock [1]) _ (mkOffchainData [1] [2]) NRemoveBlock [] _ _ _ _ _);
      [reflexivity..|split; reflexivity].
  - refine (command_outcome engine (outcome_world NConnect) 5 (ConnectTo [1]) _ (mkOffchainData [1] [2]) NConnect [] _ _ _ _ _);
      [reflexivity..|split; reflexivity].
Defined.

(** ** The life cycle of a request *)

Definition genesis (number : Z) : Store := ipfs_genesis_build (empty_store number 0).

Definition qm : @Cid text_ipfs := [81; 109].
Definition upload_node : NodeHost := node [Message (MResponse 7 (NPeers [])); Message (MResponse 8 (NAddBytes qm))].

Lemma add_bytes_witness :
  ∃ w' : World NodeHost,
    to_worker (nh_api (w_host w')) = [(7, IpfsRequest.Peers); (8, IpfsRequest.AddBytes [1; 2] 1)] ∧
    w_pool w' = [(Some (8%N, 0), IpfsOcwCallback (request_id 5) [81; 109] (Some (mkOffchainData [1; 2] [3])))].
Proof.
  destruct (add_bytes_reaches_callback (genesis 5) 3%N [1; 2] 1 [3] upload_node 8%N [] qm [])
    as (s1 & w' & _ & _ & Hsent & Hpool); try reflexivity; try done.
  - split; [repeat constructor; unfold umax; lia|done].
  - split; [repeat constructor; unfold umax; lia|done].
  - by exists w'.
Defined.

Lemma ocw_callback_witness :
  ∃ s' queue, dispatch (ipfs_ocw_callback (Signed 8%N) [9] [81; 109] (Some (mkOffchainData [1; 2] [3])))
      (with_commands (λ _, Some [mkRequest [7] 4%N [CatBytes [1]]; mkRequest [9] 3%N [AddBytes 1]]) (genesis 5)) = (Ok tt, s') ∧
    Commands (ipfs s') = Some queue ∧ queue ≡ₚ [mkRequest [7] 4%N [CatBytes [1]]] ∧
    IpfsFileStorage (ipfs s') = {[[81; 109] := mkIpfsFile [81; 109] [3]]}.
Proof.
  destruct (ocw_callback_completes 8%N [9] [81; 109] (Some (mkOffchainData [1; 2] [3])) [mkRequest [7] 4%N [CatBytes [1]]] (mkRequest [9] 3%N [AddBytes 1]) []
    (with_commands (λ _, Some [mkRequest [7] 4%N [CatBytes [1]]; mkRequest [9] 3%N [AddBytes 1]]) (genesis 5)))
    as (s' & queue & H1 & H2 & H3 & H4 & _); try reflexivity; try done.
  - by repeat constructor.
  - by exists s', queue.
Defined.

Lemma modify_content_witness :
  dispatch (modify_content (Signed 3%N) 5 [1] [2])
    (with_know (λ k, mkKnowledge (<[(5, 3%N) := [5]]> (Knowledge k)) (KnowledgeFiles k) (IpfsData k) (KAccount k)) (genesis 6)) =
  (Panic, with_know (λ k, mkKnowledge (<[(5, 3%N) := [5]]> (Knowledge k)) (KnowledgeFiles k) (IpfsData k) (KAccount k)) (genesis 6)).
Proof. apply (modify_content_panics Importing); [by left|reflexivity]. Defined.

(** ** An engine whose CIDs and peer ids are numbers, written in unary *)

Definition unary (mark : Z) (n : nat) : Bytes := mark :: replicate n 97.

Definition from_unary (mark : Z) (b : Bytes) : option nat :=
  match b with
  | x :: t => if bool_decide (x = mark ∧ t = replicate (length t) 97) then Some (length t) else None
  | [] => None
  end.

Lemma from_unary_unary mark n : from_unary mark (unary mark n) = Some n.
Proof. simpl. by rewrite length_replicate, bool_decide_eq_true_2. Qed.

Lemma unary_no_slash mark n : mark ≠ slash → slash ∉ unary mark n.
Proof. intros Hm. unfold unary. rewrite not_elem_of_cons. split; [done|]. by intros [? _]%elem_of_replicate. Qed.

Definition unary_ipfs : RustIpfs := {|
  PeerId := nat; Multiaddr := Bytes; Cid := nat; IpfsBlock := Bytes; PublicKey := nat; SubscriptionStream := unit;
  peer_to_bytes := unary 112; peer_to_string := unary 112; addr_to_string b := b; cid_to_string := unary 99; cid_to_bytes := unary 99;
  to_peer_id k := k;
  parse_addr := Some; parse_addr_with_peer b := None; parse_peer := from_unary 112; parse_cid := from_unary 99;
  cid_try_from := from_unary 99 |}.

Lemma unary_ipfs_laws : RustIpfsLaws unary_ipfs.
Proof.
  split; simpl; try done.
  - intros c. apply (from_unary_unary 99).
  - intros c. by apply unary_no_slash.
  - intros c. by induction c.
  - intros p. apply (from_unary_unary 112).
  - intros p. by apply unary_no_slash.
Qed.

Lemma path_roundtrip_witness :
  let p := @mkPath unary_ipfs (@Ipld unary_ipfs 2%nat) [[120]; [121; 122]] in
  @from_str unary_ipfs (@path_to_string unary_ipfs p) = inl p.
Proof.
  intros p. apply (@path_roundtrip unary_ipfs unary_ipfs_laws). split; [done|].
  repeat constructor; try done; rewrite ?not_elem_of_cons; repeat split; try done; apply not_elem_of_nil.
Defined.
