(* ===== verification/BigUint.v ===== *)
(** Unsigned integers of any size, as lists of 32-bit limbs ([primitives/arithmetic/src/biguint.rs]).  The theorems are in
    [BigUintProps] and, for the long division, in [BigUintDiv].

    The result [None] of a computation is a panic: an index out of range or a division by zero.  Arithmetic on [Double] wraps at 64 bits
    and a conversion to [Single] keeps the low 32 bits, as in a release build. *)

From S2P Require Import Prelude.

(** ** Limbs *)

Definition SHIFT : Z := 32.
Definition B : Z := 2 ^ SHIFT.
Definition as_single (a : Z) : Z := a mod B.
Definition as_double (a : Z) : Z := a mod (B * B).

(** The high and the low limb. *)
Definition split_double (a : Z) : Z * Z := (as_single (Z.shiftr a SHIFT), as_single a).

Definition mul_single (a b : Z) : Z := as_double (a * b).

Definition add_single (a b : Z) : Z * Z :=
  let q := as_double (a + b) in
  let '(carry, r) := split_double q in
  (r, carry).

(** Dividing by zero is a panic. *)
Definition div_single (a b : Z) : option (Z * Z) := if b =? 0 then None else Some (a / b, as_single (a mod b)).

(** The number of leading zeros of a limb. *)
Definition leading_zeros (a : Z) : Z := if a =? 0 then SHIFT else SHIFT - 1 - Z.log2 a.

(** [for j in l] with a state, stopping at a panic. *)
Fixpoint for_in {S} (l : list nat) (body : nat → S → option S) (s : S) : option S :=
  match l with [] => Some s | j :: l => body j s ≫= for_in l body end.

(** ** Numbers *)

Record BigUint := mkBig { digits : list Z }.

Module Big.

Definition len (x : BigUint) : nat := length (digits x).

Definition with_capacity (size : nat) : BigUint := mkBig (replicate (size `max` 1) 0).

Definition zero : BigUint := mkBig [0].
Definition one : BigUint := mkBig [1].
Definition is_zero (x : BigUint) : bool := forallb (Z.eqb 0) (digits x).

Definition from_limbs (limbs : list Z) : BigUint := match limbs with [] => zero | _ => mkBig limbs end.

(** The least significant limb has the index 0; the digits have the most significant limb first. *)
Definition checked_get (x : BigUint) (index : nat) : option Z := if (index <? len x)%nat then digits x !! (len x - 1 - index)%nat else None.

Definition get (x : BigUint) (index : nat) : option Z := checked_get x index.

Definition set (x : BigUint) (index : nat) (value : Z) : option BigUint :=
  if (index <? len x)%nat then Some (mkBig (<[(len x - 1 - index)%nat := value]> (digits x))) else None.

Definition lsb (x : BigUint) : option Z := last (digits x).
Definition msb (x : BigUint) : option Z := head (digits x).

(** The position of the first limb that is not zero. *)
Fixpoint first_nonzero (l : list Z) : option nat :=
  match l with [] => None | d :: l => if d =? 0 then S <$> first_nonzero l else Some 0%nat end.

Definition lstrip (x : BigUint) : BigUint :=
  if (len x =? 0)%nat then x
  else let index := default (len x - 1)%nat (first_nonzero (digits x)) in mkBig (drop index (digits x)).

Definition lpad (x : BigUint) (size : nat) : BigUint :=
  if (size <=? len x)%nat then x else mkBig (replicate (size - len x) 0 ++ digits x).

Definition add (self other : BigUint) : option BigUint :=
  let n := (len self `max` len other)%nat in
  '(w, k) ← for_in (seq 0 n) (λ j '(w, k),
    let u := default 0 (checked_get self j) in
    let v := default 0 (checked_get other j) in
    let s := as_double (as_double (u + v) + k) in
    w ← set w j (as_single (s mod B));
    Some (w, s / B)) (with_capacity (n + 1), 0);
  set w n (as_single k).

(** [inr] is [Err]: the result with a borrow left over. *)
Definition sub (self other : BigUint) : option (BigUint + BigUint) :=
  let n := (len self `max` len other)%nat in
  '(w, k) ← for_in (seq 0 n) (λ j '(w, k),
    let u := default 0 (checked_get self j) in
    let v := default 0 (checked_get other j) in
    let '(s, k) :=
      match checked_sub u v ≫= λ v1, checked_sub v1 k with
      | Some v2 => (v2, 0)
      | None => (as_double (as_double (as_double (u + B) - v) - k), 1)
      end in
    w ← set w j (as_single s);
    Some (w, k)) (with_capacity n, 0);
  Some (if k =? 0 then inl w else inr w).

Definition mul (self other : BigUint) : option BigUint :=
  let n := len self in
  let m := len other in
  for_in (seq 0 n) (λ j w,
    u ← get self j;
    if u =? 0 then Some w
    else
      '(w, k) ← for_in (seq 0 m) (λ i '(w, k),
        v ← get other i;
        x ← get w (i + j);
        let t := as_double (as_double (mul_single u v + x) + k) in
        w ← set w (i + j) (as_single (t mod B));
        Some (w, as_single (t / B))) (w, 0);
      set w (j + m) k) (with_capacity (m + n)).

Definition div_unit (self : BigUint) (other : Z) : option BigUint :=
  let other := other `max` 1 in
  let n := len self in
  '(out, r) ← for_in (reverse (seq 0 n)) (λ d '(out, r),
    x ← get self d;
    '(q, rr) ← div_single (as_double (as_double (r * B) + x)) other;
    out ← set out d (as_single q);
    Some (out, rr)) (with_capacity n, 0);
  Some out.

Definition from_single (a : Z) : BigUint := mkBig [a].
Definition from_double (a : Z) : BigUint := let '(ah, al) := split_double a in mkBig [ah; al].

(** The limbs [j ..= j + n], the highest first. *)
Definition slice (x : BigUint) (j n : nat) : option BigUint := mkBig <$> mapM (get x) (reverse (seq j (n + 1))).

(** [(j..=j + n).for_each(|d| self_norm.set(d, y.get(d - j)))] *)
Definition set_slice (x : BigUint) (j n : nat) (y : BigUint) : option BigUint :=
  for_in (seq j (n + 1)) (λ d x, v ← get y (d - j); set x d v) x.

(** The closure [test]: [Some] is the new [qhat] and [rhat] when they have been adjusted. *)
Definition test_qhat (v1 v2 u2 qhat rhat : Z) : option (Z * Z) :=
  let predicate_1 := B <=? qhat in
  let predicate_2 := as_double (as_double (B * rhat) + u2) <? as_double (qhat * v2) in
  if predicate_1 || predicate_2 then Some (as_double (qhat - 1), as_double (rhat + v1)) else None.

(** [while rhat < B { if !test() { break } }]; the divisor's first limb is at least [B / 2], so that it goes round at most
    twice. *)
Fixpoint adjust_qhat (fuel : nat) (v1 v2 u2 qhat rhat : Z) : option Z :=
  if rhat <? B then
    match fuel with
    | O => None
    | S fuel => match test_qhat v1 v2 u2 qhat rhat with Some (qhat, rhat) => adjust_qhat fuel v1 v2 u2 qhat rhat | None => Some qhat end
    end
  else Some qhat.

(** Step D3: the estimate of the next limb of the quotient. *)
Definition estimate (self_norm other_norm : BigUint) (n j : nat) : option Z :=
  u0 ← get self_norm (j + n);
  u1 ← get self_norm (j + n - 1);
  v1 ← get other_norm (n - 1);
  v2 ← get other_norm (n - 2);
  u2 ← get self_norm (j + n - 2);
  '(qhat, rhat) ← div_single (as_double (as_double (u0 * B) + u1)) v1;
  let '(qhat, rhat) := default (qhat, rhat) (test_qhat v1 v2 u2 qhat rhat) in
  adjust_qhat 3 v1 v2 u2 qhat rhat.

(** Steps D3 to D6 for one limb of the quotient. *)
Definition div_step (other_norm : BigUint) (n j : nat) (st : BigUint * BigUint) : option (BigUint * BigUint) :=
  let '(self_norm, q) := st in
  qhat ← estimate self_norm other_norm n j;
  lhs ← slice self_norm j n;
  rhs ← mul other_norm (from_double qhat);
  maybe_sub ← sub lhs rhs;
  let '(t, negative) := match maybe_sub with inl t => (t, false) | inr t => (t, true) end in
  self_norm ← set_slice self_norm j n t;
  q ← set q j (as_single qhat);
  if negative then
    x ← get q j;
    q ← set q j (as_single (x - 1));
    u ← slice self_norm j n;
    r ← add other_norm u;
    self_norm ← set_slice self_norm j n r;
    Some (self_norm, q)
  else Some (self_norm, q).

(** Undoing the normalization of the remainder. *)
Definition denormalize (self_norm : BigUint) (n : nat) (nb : Z) (r : BigUint) : option BigUint :=
  if 0 <? nb then
    r ← for_in (seq 0 (n - 1)) (λ d r,
      x ← get self_norm d;
      y ← get self_norm (d + 1);
      set r d (Z.lor (Z.shiftr x nb) (as_single (Z.shiftl y (SHIFT - nb))))) r;
    x ← get self_norm (n - 1);
    set r (n - 1) (Z.shiftr x nb)
  else Some self_norm.

(** The outer option is for panics, the inner one is the result. *)
Definition div (self other : BigUint) (rem : bool) : option (option (BigUint * BigUint)) :=
  if (len other <=? 1)%nat then Some None
  else
    omsb ← msb other;
    if omsb =? 0 then Some None
    else
      smsb ← msb self;
      if (smsb =? 0) || (len self <=? len other)%nat then Some None
      else
        let n := len other in
        let m := (len self - n)%nat in
        let q := with_capacity (m + 1) in
        let r := with_capacity n in
        let normalizer_bits := leading_zeros omsb in
        let normalizer := as_single (2 ^ normalizer_bits) in
        self_norm ← mul self (from_single normalizer);
        other_norm ← mul other (from_single normalizer);
        let self_norm := lpad self_norm (n + m + 1) in
        let other_norm := lstrip other_norm in
        '(self_norm, q) ← for_in (reverse (seq 0 (m + 1))) (div_step other_norm n) (self_norm, q);
        r ← (if rem then denormalize self_norm n normalizer_bits r else Some r);
        Some (Some (q, r)).

(** ** Comparison and conversion *)

(** The order of slices of the same length. *)
Fixpoint lex_compare (l1 l2 : list Z) : comparison :=
  match l1, l2 with
  | d1 :: l1, d2 :: l2 => match d1 ?= d2 with Eq => lex_compare l1 l2 | c => c end
  | [], [] => Eq
  | [], _ => Lt
  | _, [] => Gt
  end.

Definition cmp (self other : BigUint) : comparison :=
  match first_nonzero (digits self), first_nonzero (digits other) with
  | None, None => Eq
  | Some _, None => Gt
  | None, Some _ => Lt
  | Some lhs_idx, Some rhs_idx =>
      let lhs := drop lhs_idx (digits self) in
      let rhs := drop rhs_idx (digits other) in
      match (length lhs ?= length rhs)%nat with Eq => lex_compare lhs rhs | c => c end
  end.

Definition eq (self other : BigUint) : bool := match cmp self other with Eq => true | _ => false end.

(** The operators: a subtraction that borrows gives the wrapped result. *)
Definition sub_op (self rhs : BigUint) : option BigUint := (λ r, match r with inl w | inr w => w end) <$> sub self rhs.

(** [TryFrom<BigUint>] for an integer of [bits] bits. *)
Definition try_into (bits : Z) (value : BigUint) : option Z :=
  let value := lstrip value in
  if bits <? Z.of_nat (len value) * SHIFT then None
  else Some (snd (fold_left (λ '(i, acc) d, (i + 1, (acc + Z.shiftl d (SHIFT * i)) mod 2 ^ bits)) (reverse (digits value)) (0, 0))).
End Big.
