(* ===== verification/BigUintProps.v ===== *)
(** The value of a list of limbs, and that the operations compute with it exactly. *)

From S2P Require Import Prelude BigUint.

(** ** Loops *)

Lemma for_in_app {S} (l1 l2 : list nat) (body : nat → S → option S) s : for_in (l1 ++ l2) body s = for_in l1 body s ≫= for_in l2 body.
Proof. revert s. induction l1 as [|j l1 IH]; intros s; [done|]. cbn. destruct (body j s) as [s1|]; [apply IH|done]. Qed.

(** An invariant through a loop upwards and one through a loop downwards. *)
Lemma for_in_up {S} (I : nat → S → Prop) (body : nat → S → option S) a n s : I a s →
  (∀ j s, (a ≤ j < a + n)%nat → I j s → ∃ s', body j s = Some s' ∧ I (Datatypes.S j) s') →
  ∃ s', for_in (seq a n) body s = Some s' ∧ I (a + n)%nat s'.
Proof.
  revert a s. induction n as [|n IH]; intros a s Hs Hb; [exists s; by rewrite Nat.add_0_r|]. cbn.
  destruct (Hb a s) as (s1 & -> & H1); [lia|done|]. cbn. rewrite <- Nat.add_succ_comm. apply IH; [done|]. intros j s' Hj. apply Hb. lia.
Qed.

Lemma for_in_down {S} (I : nat → S → Prop) (body : nat → S → option S) n s : I n s →
  (∀ j s, (j < n)%nat → I (Datatypes.S j) s → ∃ s', body j s = Some s' ∧ I j s') →
  ∃ s', for_in (reverse (seq 0 n)) body s = Some s' ∧ I 0%nat s'.
Proof.
  revert s. induction n as [|n IH]; intros s Hs Hb; [by exists s|]. rewrite seq_S, reverse_snoc. cbn.
  destruct (Hb n s) as (s1 & -> & H1); [lia|done|]. cbn. apply IH; [done|]. intros j s' Hj. apply Hb. lia.
Qed.

(** ** Values *)

Definition pw (n : nat) : Z := B ^ Z.of_nat n.

Lemma B_bounds : 2 <= B.
Proof. unfold B, SHIFT. lia. Qed.

Lemma B_square : 2 * B <= B * B.
Proof. pose proof B_bounds. nia. Qed.

Lemma pw_0 : pw 0 = 1.
Proof. done. Qed.

Lemma pw_S n : pw (S n) = B * pw n.
Proof. unfold pw. rewrite Nat2Z.inj_succ, Z.pow_succ_r by lia. done. Qed.

Lemma pw_add n m : pw (n + m) = pw n * pw m.
Proof. unfold pw. rewrite Nat2Z.inj_add, Z.pow_add_r by lia. done. Qed.

Lemma pw_pos n : 0 < pw n.
Proof. unfold pw. pose proof B_bounds. apply Z.pow_pos_nonneg; lia. Qed.

Lemma pw_le n m : (n ≤ m)%nat → pw n <= pw m.
Proof. intros Hle. unfold pw. pose proof B_bounds. apply Z.pow_le_mono_r; lia. Qed.

Definition limb (d : Z) : Prop := 0 <= d < B.

Lemma as_single_id d : limb d → as_single d = d.
Proof. unfold limb, as_single. intros. by apply Z.mod_small. Qed.

Lemma as_single_limb d : limb (as_single d).
Proof. unfold limb, as_single. pose proof B_bounds. apply Z.mod_pos_bound. lia. Qed.

Lemma as_double_id d : 0 <= d < B * B → as_double d = d.
Proof. intros. unfold as_double. by apply Z.mod_small. Qed.

(** The value of limbs with the least significant one first. *)
Fixpoint val (l : list Z) : Z := match l with [] => 0 | d :: l => d + B * val l end.

Lemma val_app l1 l2 : val (l1 ++ l2) = val l1 + pw (length l1) * val l2.
Proof. induction l1 as [|d l1 IH]; cbn [app val length]; [rewrite pw_0; lia|]. rewrite IH, pw_S. ring. Qed.

Lemma val_zeros n : val (replicate n 0) = 0.
Proof. induction n as [|n IH]; cbn; lia. Qed.

Lemma val_bound l : Forall limb l → 0 <= val l < pw (length l).
Proof.
  induction 1 as [|d l Hd _ IH]; cbn [val length]; [rewrite pw_0; lia|]. rewrite pw_S. unfold limb in Hd. pose proof B_bounds. nia.
Qed.

Definition dig (l : list Z) (j : nat) : Z := default 0 (l !! j).

Lemma dig_Some l j d : l !! j = Some d → dig l j = d.
Proof. unfold dig. by intros ->. Qed.

Lemma dig_limb l j : Forall limb l → limb (dig l j).
Proof. intros Hl. unfold dig. destruct (l !! j) as [d|] eqn:Hj; cbn; [by eapply Forall_lookup_1|]. pose proof B_bounds. unfold limb. lia. Qed.

Lemma val_take_S l j : val (take (S j) l) = val (take j l) + dig l j * pw j.
Proof.
  unfold dig. destruct (l !! j) as [d|] eqn:Hj; cbn [default].
  - rewrite (take_S_r _ _ d) by done. rewrite val_app. cbn. rewrite length_take, min_l by (apply lookup_lt_Some in Hj; lia). ring.
  - apply lookup_ge_None in Hj. rewrite !take_ge by lia. lia.
Qed.

Lemma val_insert l i d v : l !! i = Some d → val (<[i := v]> l) = val l + (v - d) * pw i.
Proof.
  revert i. induction l as [|x l IH]; intros [|i] Hi; cbn in Hi; simplify_eq.
  - cbn. rewrite pw_0. ring.
  - change (<[S i := v]> (x :: l)) with (x :: <[i := v]> l). cbn [val]. rewrite (IH i Hi), pw_S. ring.
Qed.

Lemma limb_insert l i v : Forall limb l → limb v → Forall limb (<[i := v]> l).
Proof. intros. by apply Forall_insert. Qed.

Lemma limb_snoc l d : Forall limb l → limb d → Forall limb (l ++ [d]).
Proof. intros Hl Hd. apply Forall_app. split; [done|]. constructor; [done|constructor]. Qed.

Lemma limb_zeros n : Forall limb (replicate n 0).
Proof. apply Forall_replicate. unfold limb. pose proof B_bounds. lia. Qed.

(** ** Numbers by their limbs *)

(** The limbs with the least significant one first, and the number that has them. *)
Definition limbs (x : BigUint) : list Z := reverse (digits x).
Definition of_limbs (l : list Z) : BigUint := mkBig (reverse l).
Definition value (x : BigUint) : Z := val (limbs x).
Definition big_wf (x : BigUint) : Prop := Forall limb (digits x).

Lemma limbs_of_limbs l : limbs (of_limbs l) = l.
Proof. apply reverse_involutive. Qed.

Lemma of_limbs_limbs x : of_limbs (limbs x) = x.
Proof. unfold of_limbs, limbs. rewrite reverse_involutive. by destruct x. Qed.

Lemma length_limbs x : length (limbs x) = Big.len x.
Proof. apply length_reverse. Qed.

Lemma wf_limbs x : big_wf x ↔ Forall limb (limbs x).
Proof. unfold big_wf, limbs. by rewrite Forall_reverse. Qed.

Lemma value_bound x : big_wf x → 0 <= value x < pw (Big.len x).
Proof. intros Hw%wf_limbs. rewrite <- length_limbs. by apply val_bound. Qed.

Lemma get_limbs x i : Big.get x i = limbs x !! i.
Proof.
  unfold Big.get, Big.checked_get, limbs, Big.len. destruct (Nat.ltb_spec i (length (digits x))).
  - rewrite reverse_lookup by done. f_equal. lia.
  - symmetry. apply lookup_ge_None. rewrite length_reverse. lia.
Qed.

Lemma checked_get_dig x i : default 0 (Big.checked_get x i) = dig (limbs x) i.
Proof. unfold dig. rewrite <- get_limbs. done. Qed.

Lemma reverse_insert {A} (l : list A) i v : (i < length l)%nat → reverse (<[(length l - 1 - i)%nat := v]> l) = <[i := v]> (reverse l).
Proof.
  intros Hi. apply list_eq_same_length with (n := length l); rewrite ?length_insert, ?length_reverse, ?length_insert; try done.
  intros k x y Hk Hx Hy. rewrite reverse_lookup in Hx by (by rewrite length_insert). rewrite length_insert in Hx.
  destruct (decide (k = i)) as [->|Hne].
  - rewrite list_lookup_insert_eq in Hy by (by rewrite length_reverse). replace (length l - S i)%nat with (length l - 1 - i)%nat in Hx by lia.
    rewrite list_lookup_insert_eq in Hx by lia. congruence.
  - rewrite list_lookup_insert_ne in Hy by done. rewrite reverse_lookup in Hy by done. rewrite list_lookup_insert_ne in Hx by lia. congruence.
Qed.

Lemma set_limbs x i v : (i < Big.len x)%nat → Big.set x i v = Some (of_limbs (<[i := v]> (limbs x))).
Proof.
  intros Hi. unfold Big.set, Big.len in *. rewrite (proj2 (Nat.ltb_lt _ _)) by done. f_equal. unfold of_limbs, limbs. f_equal.
  rewrite <- reverse_insert by done. by rewrite reverse_involutive.
Qed.

Lemma set_of_limbs l i v : (i < length l)%nat → Big.set (of_limbs l) i v = Some (of_limbs (<[i := v]> l)).
Proof. intros Hi. rewrite set_limbs, limbs_of_limbs; [done|]. unfold Big.len, of_limbs. cbn. by rewrite length_reverse. Qed.

Lemma with_capacity_limbs n : Big.with_capacity n = of_limbs (replicate (n `max` 1) 0).
Proof.
  unfold Big.with_capacity, of_limbs. f_equal. apply list_eq_same_length with (n := (n `max` 1)%nat); rewrite ?length_reverse, ?length_replicate; try done.
  intros k x y Hk Hx Hy. apply lookup_replicate in Hx as [-> _]. rewrite reverse_lookup in Hy by (by rewrite length_replicate). by apply lookup_replicate in Hy as [-> _].
Qed.

(** Writing the next limb of a number that is zero from there on. *)
Lemma set_next (fin : list Z) n v : Big.set (of_limbs (fin ++ replicate (S n) 0)) (length fin) v = Some (of_limbs ((fin ++ [v]) ++ replicate n 0)).
Proof.
  rewrite set_of_limbs by (rewrite length_app, length_replicate; lia). f_equal. f_equal.
  rewrite insert_app_r_alt, Nat.sub_diag, <- app_assoc by done. done.
Qed.

(** ** Addition and subtraction *)

Section AddSub.
Context (self other : BigUint) (Hs : big_wf self) (Ho : big_wf other).

Abbreviation us := (limbs self).
Abbreviation vs := (limbs other).
Abbreviation n := (Big.len self `max` Big.len other)%nat.

Lemma take_all : val (take n us) = value self ∧ val (take n vs) = value other.
Proof. unfold value. rewrite !take_ge; [done| |]; rewrite length_limbs; lia. Qed.

Lemma add_run : ∃ w, Big.add self other = Some w ∧ value w = value self + value other ∧ big_wf w ∧ Big.len w = S n.
Proof.
  apply wf_limbs in Hs as Hus, Ho as Hvs. pose proof B_bounds as HB. pose proof B_square as HBB. unfold Big.add. cbv zeta.
  set (body := λ (j : nat) '(w, k), _).
  destruct (for_in_up (λ j (s : BigUint * Z), ∃ fin, s.1 = of_limbs (fin ++ replicate (S n - j) 0) ∧ length fin = j ∧ Forall limb fin ∧
    val fin + s.2 * pw j = val (take j us) + val (take j vs) ∧ 0 <= s.2 <= 1) body 0 n (Big.with_capacity (n + 1), 0)) as ([w k] & -> & fin & Hw & Hl & Hf & Hv & Hk).
  - exists []. cbn [fst snd take val app]. rewrite with_capacity_limbs. split; [do 2 f_equal; lia|]. repeat split; try done; lia.
  - intros j [w k] Hj (fin & Hw & Hl & Hf & Hv & Hk). cbn [fst snd] in *. unfold body. rewrite !checked_get_dig.
    pose proof (dig_limb us j Hus) as Hu. pose proof (dig_limb vs j Hvs) as Hd. unfold limb in Hu, Hd.
    rewrite !as_double_id by (rewrite ?as_double_id by lia; lia). subst w j. replace (S n - length fin)%nat with (S (n - length fin)) by lia. rewrite set_next. cbn [mbind option_bind].
    set (s := dig us (length fin) + dig vs (length fin) + k) in *.
    assert (Hr : limb (s mod B)) by (apply Z.mod_pos_bound; lia). pose proof (Z.div_mod s B ltac:(lia)) as Hdm.
    assert (Hq : 0 <= s / B <= 1) by (split; [apply Z.div_pos; lia|]; apply Z.lt_succ_r, Z.div_lt_upper_bound; lia).
    eexists. split; [done|]. exists (fin ++ [s mod B]). cbn [fst snd]. rewrite as_single_id by done. rewrite length_app, Nat.add_1_r.
    split; [done|]. split; [done|]. split; [by apply limb_snoc|]. split; [|done].
    rewrite val_app, !val_take_S, pw_S. cbn [val]. nia.
  - cbn [Nat.add fst snd mbind option_bind] in *. subst w. replace (S n - n)%nat with 1%nat by lia.
    pose proof (set_next fin 0 (as_single k)) as Hset. rewrite Hl in Hset. rewrite Hset.
    rewrite as_single_id by (unfold limb; lia). cbn [replicate]. rewrite app_nil_r. eexists. split; [done|].
    destruct take_all as [Hu Hv']. unfold value, big_wf, Big.len. rewrite limbs_of_limbs, val_app, Hl. cbn [val]. split; [unfold value in *; lia|].
    unfold of_limbs. cbn [digits]. rewrite Forall_reverse, length_reverse, length_app. split; [|unfold Big.len in *; cbn; lia].
    apply limb_snoc; [done|]. unfold limb. lia.
Qed.

Lemma sub_digit u v k : limb u → limb v → 0 <= k <= 1 →
  ∃ s k', (match checked_sub u v ≫= λ v1, checked_sub v1 k with Some v2 => (v2, 0) | None => (as_double (as_double (as_double (u + B) - v) - k), 1) end) = (s, k') ∧
    limb s ∧ 0 <= k' <= 1 ∧ s - k' * B = u - v - k.
Proof.
  unfold limb, checked_sub. intros Hu Hv Hk. pose proof B_bounds as HB. pose proof B_square as HBB. destruct (Z.leb_spec v u); cbn [mbind option_bind].
  - destruct (Z.leb_spec k (u - v)); [exists (u - v - k), 0|exists (u + B - v - k), 1]; (split; [rewrite ?as_double_id by (rewrite ?as_double_id by (rewrite ?as_double_id by lia; lia); lia); done|]); lia.
  - exists (u + B - v - k), 1. split; [rewrite !as_double_id by (rewrite ?as_double_id by (rewrite ?as_double_id by lia; lia); lia); done|]. lia.
Qed.

(** The difference, and whether a borrow is left over. *)
Lemma sub_run : ∃ w (borrow : bool), Big.sub self other = Some (if borrow then inr w else inl w) ∧ big_wf w ∧ Big.len w = (n `max` 1)%nat ∧
  value w = value self - value other + (if borrow then pw n else 0) ∧ 0 <= value w < pw n.
Proof.
  apply wf_limbs in Hs as Hus, Ho as Hvs. pose proof B_bounds as HB. unfold Big.sub. cbv zeta.
  set (body := λ (j : nat) '(w, k), _).
  destruct (for_in_up (λ j (s : BigUint * Z), ∃ fin, s.1 = of_limbs (fin ++ replicate ((n `max` 1) - j) 0) ∧ length fin = j ∧ Forall limb fin ∧
    val fin - s.2 * pw j = val (take j us) - val (take j vs) ∧ 0 <= s.2 <= 1) body 0 n (Big.with_capacity n, 0)) as ([w k] & -> & fin & Hw & Hl & Hf & Hv & Hk).
  - exists []. cbn [fst snd take val app]. rewrite with_capacity_limbs. split; [do 2 f_equal; lia|]. repeat split; try done; lia.
  - intros j [w k] Hj (fin & Hw & Hl & Hf & Hv & Hk). cbn [fst snd] in *. unfold body. rewrite !checked_get_dig.
    destruct (sub_digit (dig us j) (dig vs j) k) as (s & k' & -> & Hsl & Hk' & He); [by apply dig_limb..|done|].
    subst w j. replace ((n `max` 1) - length fin)%nat with (S ((n `max` 1) - S (length fin))) by lia. rewrite as_single_id, set_next by done. cbn [mbind option_bind].
    eexists. split; [done|]. exists (fin ++ [s]). cbn [fst snd]. rewrite length_app, Nat.add_1_r.
    split; [done|]. split; [done|]. split; [by apply limb_snoc|]. split; [|done].
    rewrite val_app, !val_take_S, pw_S. cbn [val]. nia.
  - cbn [Nat.add fst snd mbind option_bind] in *. destruct take_all as [Hu Hv'].
    assert (Hval : value w = val fin) by (subst w; unfold value; rewrite limbs_of_limbs, val_app, val_zeros; lia).
    exists w, (negb (k =? 0)). split; [by destruct (k =? 0)|]. split; [|split; [|split]].
    + subst w. unfold big_wf, of_limbs. cbn [digits]. rewrite Forall_reverse. apply Forall_app. split; [done|apply limb_zeros].
    + subst w. unfold Big.len, of_limbs in *. cbn [digits]. rewrite length_reverse, length_app, length_replicate. lia.
    + rewrite Hval. destruct (Z.eqb_spec k 0); cbn [negb]; [subst k|assert (k = 1) as -> by lia]; lia.
    + rewrite Hval. pose proof (val_bound fin Hf) as Hb. by rewrite Hl in Hb.
Qed.
End AddSub.

(** ** Multiplication *)

Section Mul.
Context (self other : BigUint) (Hs : big_wf self) (Ho : big_wf other).

Abbreviation us := (limbs self).
Abbreviation vs := (limbs other).

(** The loop over the limbs of the second factor adds the product with one limb of the first. *)
Definition mul_row (u : Z) (j : nat) (w : BigUint) : option (BigUint * Z) :=
  for_in (seq 0 (Big.len other)) (λ i '(w, k),
    v ← Big.get other i;
    x ← Big.get w (i + j);
    let t := as_double (as_double (mul_single u v + x) + k) in
    w ← Big.set w (i + j) (as_single (t mod B));
    Some (w, as_single (t / B))) (w, 0).

Lemma mul_row_run u j W0 : limb u → Forall limb W0 → (j + Big.len other ≤ length W0)%nat →
  ∃ W k, mul_row u j (of_limbs W0) = Some (of_limbs W, k) ∧ length W = length W0 ∧ Forall limb W ∧ limb k ∧
    val W + k * pw (j + Big.len other) = val W0 + u * value other * pw j ∧ (∀ p, (j + Big.len other ≤ p)%nat → W !! p = W0 !! p).
Proof.
  intros Hu HW0 Hlen. apply wf_limbs in Ho as Hvs. pose proof B_bounds as HB. pose proof B_square as HBB. unfold mul_row.
  set (body := λ (i : nat) '(w, k), _).
  destruct (for_in_up (λ i (s : BigUint * Z), ∃ W, s.1 = of_limbs W ∧ length W = length W0 ∧ Forall limb W ∧ limb s.2 ∧
    val W + s.2 * pw (i + j) = val W0 + u * val (take i vs) * pw j ∧ (∀ p, (i + j ≤ p)%nat → W !! p = W0 !! p)) body 0 (Big.len other) (of_limbs W0, 0))
    as ([w k] & -> & W & Hw & Hl & HW & Hk & Hv & Hp).
  - exists W0. cbn [fst snd]. rewrite take_0. cbn [val]. split; [done|]. split; [done|]. split; [done|]. split; [unfold limb; lia|]. split; [ring|done].
  - intros i [w k] Hi (W & Hw & Hl & HW & Hk & Hv & Hp). cbn [fst snd] in *. unfold body. rewrite !get_limbs. subst w. rewrite limbs_of_limbs.
    destruct (lookup_lt_is_Some_2 vs i) as [v Hvi]; [rewrite length_limbs; lia|]. destruct (lookup_lt_is_Some_2 W (i + j)) as [x Hx]; [lia|].
    rewrite Hvi. cbn [mbind option_bind]. rewrite Hx. cbn [mbind option_bind].
    pose proof (Forall_lookup_1 _ _ _ _ Hvs Hvi) as Hvl. pose proof (Forall_lookup_1 _ _ _ _ HW Hx) as Hxl. cbn in Hvl, Hxl.
    unfold limb in Hu, Hk, Hvl, Hxl. unfold mul_single.
    assert (Hprod : 0 <= u * v <= (B - 1) * (B - 1)) by nia. assert (Hsq : (B - 1) * (B - 1) = B * B - 2 * B + 1) by ring.
    rewrite (as_double_id (u * v)), (as_double_id (u * v + x)), (as_double_id (u * v + x + k)) by lia. set (t := u * v + x + k).
    assert (Hr : limb (t mod B)) by (apply Z.mod_pos_bound; lia). pose proof (Z.div_mod t B ltac:(lia)) as Hdm.
    assert (Hq : limb (t / B)) by (split; [apply Z.div_pos; lia|]; apply Z.div_lt_upper_bound; lia).
    rewrite set_of_limbs by lia. cbn [mbind option_bind]. rewrite !as_single_id by done. eexists. split; [done|]. exists (<[(i + j)%nat := t mod B]> W). cbn [fst snd].
    split; [done|]. split; [by rewrite length_insert|]. split; [by apply limb_insert|]. split; [done|]. split.
    + rewrite (val_insert _ _ x), val_take_S, (dig_Some _ _ _ Hvi), Nat.add_succ_l, pw_S by done.
      assert (HP : pw (i + j) = pw j * pw i) by (rewrite Nat.add_comm; apply pw_add). rewrite HP in Hv |- *. transitivity (val W + k * (pw j * pw i) + u * v * (pw j * pw i)); [|rewrite Hv; ring].
      assert (Ht : t = u * v + x + k) by done. replace (t mod B) with (u * v + x + k - B * (t / B)) by lia. ring.
    + intros p Hle. rewrite list_lookup_insert_ne by lia. apply Hp. lia.
  - cbn [Nat.add fst snd] in *. subst w. exists W, k. split; [done|]. split; [done|]. split; [done|]. split; [done|].
    rewrite (Nat.add_comm j). split; [|done]. rewrite Hv, take_ge by (by rewrite length_limbs). done.
Qed.

Lemma mul_run : ∃ w, Big.mul self other = Some w ∧ value w = value self * value other ∧ big_wf w ∧ Big.len w = ((Big.len self + Big.len other) `max` 1)%nat.
Proof.
  apply wf_limbs in Hs as Hus. unfold Big.mul. cbv zeta. set (n := Big.len self). set (m := Big.len other).
  set (body := λ (j : nat) (w : BigUint), _).
  destruct (for_in_up (λ j w, ∃ W, w = of_limbs W ∧ length W = ((m + n) `max` 1)%nat ∧ Forall limb W ∧ val W = val (take j us) * value other ∧
    (∀ p, (j + m ≤ p < length W)%nat → W !! p = Some 0)) body 0 n (Big.with_capacity (m + n))) as (w & -> & W & -> & Hl & HW & Hv & _).
  - exists (replicate ((m + n) `max` 1) 0). rewrite with_capacity_limbs, length_replicate, val_zeros, take_0. cbn [val]. split; [done|]. split; [done|]. split; [apply limb_zeros|]. split; [ring|].
    intros p Hp. apply lookup_replicate_2. lia.
  - intros j w Hj (W & -> & Hl & HW & Hv & Hz). unfold body. rewrite get_limbs.
    destruct (lookup_lt_is_Some_2 us j) as [u Hu]; [rewrite length_limbs; fold n; lia|]. rewrite Hu. cbn [mbind option_bind].
    assert (Hd : dig us j = u) by (unfold dig; by rewrite Hu). pose proof (Forall_lookup_1 _ _ _ _ Hus Hu : limb u) as Hul.
    destruct (Z.eqb_spec u 0) as [->|Hne].
    + eexists. split; [done|]. exists W. split; [done|]. split; [done|]. split; [done|]. split; [rewrite val_take_S, Hd; lia|]. intros p Hp. apply Hz. lia.
    + fold m. change (for_in (seq 0 m) _ (of_limbs W, 0)) with (mul_row u j (of_limbs W)).
      destruct (mul_row_run u j W Hul HW) as (W1 & k & -> & Hl1 & HW1 & Hk & Hv1 & Hz1); [fold m; lia|]. fold m in Hv1, Hz1. cbn [mbind option_bind].
      rewrite set_of_limbs by lia. eexists. split; [done|]. exists (<[(j + m)%nat := k]> W1).
      split; [done|]. split; [by rewrite length_insert, Hl1|]. split; [by apply limb_insert|]. split.
      * rewrite (val_insert _ _ 0) by (rewrite Hz1 by lia; apply Hz; lia). rewrite val_take_S, Hd. nia.
      * intros p Hp. rewrite length_insert in Hp. rewrite list_lookup_insert_ne by lia. rewrite Hz1 by lia. apply Hz. lia.
  - eexists. split; [done|]. unfold value at 1. rewrite limbs_of_limbs, Hv. cbn [Nat.add]. rewrite take_ge by (by rewrite length_limbs). split; [done|].
    unfold big_wf, Big.len, of_limbs. cbn [digits]. rewrite Forall_reverse, length_reverse, Hl. split; [done|]. unfold n, m, Big.len. lia.
Qed.
End Mul.

(** ** Division by a limb *)

Lemma div_single_run a b : 0 < b < B → div_single a b = Some (a / b, a mod b).
Proof. intros Hb. unfold div_single. rewrite (proj2 (Z.eqb_neq _ _)) by lia. rewrite as_single_id; [done|]. pose proof (Z.mod_pos_bound a b). unfold limb. lia. Qed.

Lemma div_unit_run self (other : Z) : big_wf self → limb other →
  ∃ w, Big.div_unit self other = Some w ∧ value w = value self / (other `max` 1) ∧ big_wf w ∧ Big.len w = (Big.len self `max` 1)%nat.
Proof.
  intros Hs Ho. apply wf_limbs in Hs as Hus. pose proof B_bounds as HB. unfold Big.div_unit. cbv zeta. unfold limb in Ho.
  set (c := other `max` 1). assert (Hc : 0 < c < B) by lia. set (n := Big.len self). set (body := λ (d : nat) '(out, r), _).
  destruct (for_in_down (λ d (s : BigUint * Z), ∃ W, s.1 = of_limbs W ∧ length W = (n `max` 1)%nat ∧ Forall limb W ∧ 0 <= s.2 < c ∧
    value self = val W * c + s.2 * pw d + val (take d (limbs self)) ∧ (∀ p, (p < d)%nat → W !! p = Some 0)) body n (Big.with_capacity n, 0))
    as ([out r] & -> & W & Hw & Hl & HW & Hr & Hv & _).
  - exists (replicate (n `max` 1) 0). cbn [fst snd]. rewrite with_capacity_limbs, length_replicate, val_zeros, take_ge by (by rewrite length_limbs).
    split; [done|]. split; [done|]. split; [apply limb_zeros|]. split; [lia|]. split; [unfold value; ring|]. intros p Hp. apply lookup_replicate_2. lia.
  - intros d [out r] Hd (W & Hw & Hl & HW & Hr & Hv & Hz). cbn [fst snd] in *. unfold body. rewrite get_limbs.
    destruct (lookup_lt_is_Some_2 (limbs self) d) as [x Hx]; [rewrite length_limbs; fold n; lia|]. rewrite Hx. cbn [mbind option_bind].
    assert (Hdx : dig (limbs self) d = x) by (unfold dig; by rewrite Hx). pose proof (Forall_lookup_1 _ _ _ _ Hus Hx : limb x) as Hxl. unfold limb in Hxl.
    assert (HrB : r * B <= (B - 1) * B) by nia. assert (Hsq : (B - 1) * B = B * B - B) by ring.
    rewrite (as_double_id (r * B)), as_double_id by nia. rewrite div_single_run by done. cbn [mbind option_bind]. set (a := r * B + x).
    pose proof (Z.div_mod a c ltac:(lia)) as Hdm. pose proof (Z.mod_pos_bound a c ltac:(lia)) as Hrm.
    assert (Hq : limb (a / c)) by (split; [apply Z.div_pos; nia|]; apply Z.div_lt_upper_bound; nia).
    rewrite as_single_id by done. subst out. rewrite set_of_limbs by lia. cbn [mbind option_bind]. eexists. split; [done|]. exists (<[d := a / c]> W). cbn [fst snd].
    split; [done|]. split; [by rewrite length_insert|]. split; [by apply limb_insert|]. split; [done|]. split.
    + rewrite (val_insert _ _ 0) by (apply Hz; lia). rewrite val_take_S, Hdx, pw_S in Hv. unfold a in *. nia.
    + intros p Hp. rewrite list_lookup_insert_ne by lia. apply Hz. lia.
  - cbn [fst snd mbind option_bind take val] in *. subst out. eexists. split; [done|]. rewrite pw_0, take_0 in Hv. cbn [val] in Hv.
    unfold big_wf, Big.len, of_limbs. cbn [digits]. rewrite Forall_reverse, length_reverse, Hl. split; [|split; [done|unfold n, Big.len; lia]].
    unfold value at 1, limbs. cbn [digits]. rewrite reverse_involutive. apply (Z.div_unique _ _ _ r); [lia|]. lia.
Qed.

(** ** Leading zeros *)

Lemma value_cons d l : value (mkBig (d :: l)) = d * pw (length l) + value (mkBig l).
Proof. unfold value, limbs. cbn [digits]. rewrite reverse_cons, val_app, length_reverse. cbn [val]. ring. Qed.

Lemma value_nil : value (mkBig []) = 0.
Proof. done. Qed.

Lemma value_zeros i l : value (mkBig (replicate i 0 ++ l)) = value (mkBig l).
Proof. induction i as [|i IH]; [done|]. cbn [replicate app]. rewrite value_cons, IH. lia. Qed.

Lemma value_all_zeros n : value (mkBig (replicate n 0)) = 0.
Proof. rewrite <- (app_nil_r (replicate n 0)), value_zeros. done. Qed.

Lemma first_nonzero_Some l i : Big.first_nonzero l = Some i → ∃ d rest, l = replicate i 0 ++ d :: rest ∧ d ≠ 0 ∧ drop i l = d :: rest.
Proof.
  revert i. induction l as [|d l IH]; intros i; [done|]. cbn. destruct (Z.eqb_spec d 0) as [->|Hd].
  - intros (j & Hj & ->)%fmap_Some. destruct (IH j Hj) as (d & rest & -> & Hd & Hdrop). exists d, rest. done.
  - intros [= <-]. by exists d, l.
Qed.

Lemma first_nonzero_None l : Big.first_nonzero l = None → l = replicate (length l) 0.
Proof. induction l as [|d l IH]; [done|]. cbn. destruct (Z.eqb_spec d 0) as [->|]; [|done]. intros Hn%fmap_None. by rewrite <- IH. Qed.

(** A number whose first limb is not zero is at least the power of the base that the limb stands for. *)
Lemma value_lead d l : big_wf (mkBig (d :: l)) → d ≠ 0 → pw (length l) <= value (mkBig (d :: l)) < pw (S (length l)).
Proof.
  intros Hw Hd. pose proof (value_bound _ Hw) as Hb. unfold big_wf in Hw. cbn [digits] in Hw. inversion Hw as [|? ? Hdl Hl]; subst.
  pose proof (value_bound (mkBig l) Hl) as Hb2. unfold Big.len in *. cbn [digits length] in *. split; [|lia]. rewrite value_cons. unfold limb in Hdl.
  pose proof (pw_pos (length l)). nia.
Qed.

Lemma lstrip_value x : value (Big.lstrip x) = value x.
Proof.
  unfold Big.lstrip, Big.len. destruct x as [l]. cbn [digits]. destruct (Nat.eqb_spec (length l) 0); [done|].
  destruct (Big.first_nonzero l) as [i|] eqn:Hf; cbn [default].
  - apply first_nonzero_Some in Hf as (d & rest & Hl & _ & Hdrop). cbn [from_option id]. rewrite Hdrop, Hl. by rewrite value_zeros.
  - apply first_nonzero_None in Hf. cbn [from_option id]. rewrite Hf. by rewrite drop_replicate, !value_all_zeros.
Qed.

Lemma lstrip_wf x : big_wf x → big_wf (Big.lstrip x).
Proof. intros Hw. unfold Big.lstrip. case_match; [done|]. unfold big_wf. cbn [digits]. by apply Forall_drop. Qed.

(** The digits that are left: the number starts with a limb that is not zero, or is a single zero. *)
Lemma lstrip_digits x : Big.len x ≠ 0%nat → (∃ d rest, Big.lstrip x = mkBig (d :: rest) ∧ d ≠ 0) ∨ (Big.lstrip x = mkBig [0] ∧ value x = 0).
Proof.
  destruct x as [l]. unfold Big.lstrip, Big.len. cbn [digits]. intros Hl. destruct (Nat.eqb_spec (length l) 0); [done|].
  destruct (Big.first_nonzero l) as [i|] eqn:Hf; cbn [default].
  - left. apply first_nonzero_Some in Hf as (d & rest & _ & Hd & Hdrop). cbn. rewrite Hdrop. eauto.
  - right. apply first_nonzero_None in Hf. cbn. rewrite Hf at 2 3. rewrite drop_replicate. replace (length l - (length l - 1))%nat with 1%nat by lia.
    split; [done|]. apply value_all_zeros.
Qed.

Lemma lpad_value x size : value (Big.lpad x size) = value x.
Proof. unfold Big.lpad. case_match; [done|]. rewrite value_zeros. by destruct x. Qed.

(** ** Comparison *)

Lemma lex_compare_spec l1 l2 : Forall limb l1 → Forall limb l2 → length l1 = length l2 → Big.lex_compare l1 l2 = (value (mkBig l1) ?= value (mkBig l2)).
Proof.
  intros H1. revert l2. induction H1 as [|d1 l1 Hd1 Hl1 IH]; intros [|d2 l2] H2 Hlen; try done. inversion H2 as [|? ? Hd2 Hl2]; subst. cbn [Big.lex_compare].
  injection Hlen as Hlen. rewrite !value_cons, Hlen. pose proof (value_bound (mkBig l1) Hl1) as Hb1. pose proof (value_bound (mkBig l2) Hl2) as Hb2.
  unfold Big.len in *. cbn [digits] in *. rewrite Hlen in Hb1. set (P := pw (length l2)) in *. destruct (Z.compare_spec d1 d2) as [->|Hlt|Hgt].
  - rewrite IH by done. symmetry. apply Z.add_compare_mono_l.
  - symmetry. apply Z.compare_lt_iff. nia.
  - symmetry. apply Z.compare_gt_iff. nia.
Qed.

Lemma value_pos_lead x i : big_wf x → Big.first_nonzero (digits x) = Some i → 0 < value x ∧ value x = value (mkBig (drop i (digits x))).
Proof.
  intros Hw Hf. destruct x as [l]. unfold big_wf in Hw. cbn [digits] in *. apply first_nonzero_Some in Hf as (d & rest & Hl & Hd & Hdrop). rewrite Hdrop.
  assert (Hr : Forall limb (d :: rest)) by (rewrite <- Hdrop; by apply Forall_drop). pose proof (value_lead d rest Hr Hd) as Hb. pose proof (pw_pos (length rest)).
  rewrite Hl, value_zeros. split; [lia|done].
Qed.

(** The order of numbers is the order of their values, whatever the leading zeros. *)
Lemma cmp_value self other : big_wf self → big_wf other → Big.cmp self other = (value self ?= value other).
Proof.
  intros Hs Ho. unfold Big.cmp.
  assert (Hz : ∀ x, Big.first_nonzero (digits x) = None → value x = 0).
  { intros [l] Hf%first_nonzero_None. cbn [digits] in Hf. rewrite Hf. apply value_all_zeros. }
  destruct (Big.first_nonzero (digits self)) as [i|] eqn:Hi, (Big.first_nonzero (digits other)) as [j|] eqn:Hj.
  - destruct (value_pos_lead self i Hs Hi) as [_ ->], (value_pos_lead other j Ho Hj) as [_ ->].
    apply first_nonzero_Some in Hi as (d1 & l1 & _ & Hd1 & Hdrop1), Hj as (d2 & l2 & _ & Hd2 & Hdrop2).
    assert (Hf1 : Forall limb (drop i (digits self))) by (by apply Forall_drop). assert (Hf2 : Forall limb (drop j (digits other))) by (by apply Forall_drop).
    rewrite Hdrop1, Hdrop2 in *. pose proof (value_lead d1 l1 Hf1 Hd1) as Hb1. pose proof (value_lead d2 l2 Hf2 Hd2) as Hb2. cbn [length].
    destruct (Nat.compare_spec (S (length l1)) (S (length l2))) as [He|Hlt|Hgt].
    + by apply lex_compare_spec.
    + symmetry. apply Z.compare_lt_iff. pose proof (pw_le (S (length l1)) (length l2)). lia.
    + symmetry. apply Z.compare_gt_iff. pose proof (pw_le (S (length l2)) (length l1)). lia.
  - rewrite (Hz other) by done. destruct (value_pos_lead self i Hs Hi) as [Hp _]. symmetry. by apply Z.compare_gt_iff.
  - rewrite (Hz self) by done. destruct (value_pos_lead other j Ho Hj) as [Hp _]. symmetry. by apply Z.compare_lt_iff.
  - by rewrite !Hz.
Qed.

(** ** Conversions *)

Lemma from_single_value a : value (Big.from_single a) = a.
Proof. unfold Big.from_single. rewrite value_cons, value_nil. cbn [length]. rewrite pw_0. ring. Qed.

Lemma from_double_run a : 0 <= a < B * B → value (Big.from_double a) = a ∧ big_wf (Big.from_double a).
Proof.
  intros Ha. unfold Big.from_double, split_double. pose proof B_bounds as HB. assert (Hsh : Z.shiftr a SHIFT = a / B) by (apply Z.shiftr_div_pow2; unfold SHIFT; lia).
  assert (Hq : limb (a / B)) by (split; [apply Z.div_pos; lia|apply Z.div_lt_upper_bound; lia]). rewrite Hsh, (as_single_id (a / B)) by done. split.
  - rewrite !value_cons, value_nil. cbn [length]. rewrite pw_0, pw_S, pw_0. unfold as_single. pose proof (Z.div_mod a B ltac:(lia)). lia.
  - constructor; [done|]. constructor; [apply as_single_limb|constructor].
Qed.

Lemma try_into_fold (k : nat) l i (acc : Z) : Forall limb l → 0 <= acc < pw i → (i + length l ≤ k)%nat →
  (fold_left (λ '(i, acc) d, (i + 1, (acc + Z.shiftl d (SHIFT * i)) mod pw k)) l (Z.of_nat i, acc)).2 = acc + val l * pw i.
Proof.
  intros Hl. revert i acc. induction Hl as [|d l Hd _ IH]; intros i acc Hacc Hk; cbn [fold_left val length] in *; [cbn; lia|].
  assert (Hsh : Z.shiftl d (SHIFT * Z.of_nat i) = d * pw i).
  { rewrite Z.shiftl_mul_pow2 by (unfold SHIFT; lia). unfold pw, B. by rewrite <- Z.pow_mul_r by (unfold SHIFT; lia). }
  rewrite Hsh. unfold limb in Hd. pose proof (pw_S i) as HS. pose proof (pw_le (S i) k ltac:(lia)) as Hle. pose proof (pw_pos i).
  assert (Hb : 0 <= acc + d * pw i < pw (S i)) by nia. rewrite Z.mod_small by lia. replace (Z.of_nat i + 1) with (Z.of_nat (S i)) by lia.
  rewrite IH by (done || lia). rewrite HS. ring.
Qed.

(** The conversion to an integer of a number of limbs succeeds exactly when the value fits, and is the value. *)
Lemma try_into_value (k : nat) x : big_wf x → Big.len x ≠ 0%nat → (0 < k)%nat →
  Big.try_into (SHIFT * Z.of_nat k) x = if value x <? pw k then Some (value x) else None.
Proof.
  intros Hw Hl Hk. unfold Big.try_into. pose proof (lstrip_wf x Hw) as Hsw. rewrite <- (lstrip_value x).
  assert (Hpw : 2 ^ (SHIFT * Z.of_nat k) = pw k) by (unfold pw, B; rewrite <- Z.pow_mul_r by (unfold SHIFT; lia); done). rewrite Hpw.
  pose proof (lstrip_digits x Hl) as Hd. set (y := Big.lstrip x) in *. pose proof (value_bound y Hsw) as Hb.
  assert (Hlen : (Z.of_nat (Big.len y) * SHIFT <= SHIFT * Z.of_nat k) ↔ value y < pw k).
  { unfold SHIFT. destruct Hd as [(d & rest & Hy & Hd)|[Hy _]]; rewrite Hy in *.
    - pose proof (value_lead d rest Hsw Hd) as Hlead. unfold Big.len in *. cbn [digits length] in *. split; intros Hle.
      + pose proof (pw_le (S (length rest)) k ltac:(lia)). lia.
      + destruct (Nat.le_gt_cases (S (length rest)) k) as [|Hgt]; [lia|]. pose proof (pw_le k (length rest) ltac:(lia)). lia.
    - rewrite value_cons, value_nil. pose proof (pw_pos k). unfold Big.len. cbn. lia. }
  destruct (Z.ltb_spec (SHIFT * Z.of_nat k) (Z.of_nat (Big.len y) * SHIFT)), (Z.ltb_spec (value y) (pw k)); try done; try lia.
  f_equal. fold (limbs y). change (0, 0) with (Z.of_nat 0, 0). rewrite try_into_fold.
  - unfold value. rewrite pw_0. lia.
  - by apply wf_limbs.
  - rewrite pw_0. lia.
  - rewrite length_limbs. unfold SHIFT in *. lia.
Qed.

(** C25. Arithmetic on lists of limbs is exact: the sum, the product and the quotient by a limb have the value that they should and the documented number of limbs; a subtraction gives the difference, or, when the second number is larger, the
    difference with a borrow from beyond the limbs, as an error; and the comparison is that of the values, whatever leading zeros there are.  None of the operations indexes out of range. *)
Theorem limb_arithmetic_exact (self other : BigUint) (unit : Z) : big_wf self → big_wf other → 0 <= unit < B →
  let n := (Big.len self `max` Big.len other)%nat in
  (∃ w, Big.add self other = Some w ∧ value w = value self + value other ∧ big_wf w ∧ Big.len w = S n) ∧
  (∃ w, Big.sub self other = Some (if value other <=? value self then inl w else inr w) ∧
    value w = value self - value other + (if value other <=? value self then 0 else pw n) ∧ big_wf w ∧ Big.len w = (n `max` 1)%nat) ∧
  (∃ w, Big.mul self other = Some w ∧ value w = value self * value other ∧ big_wf w ∧ Big.len w = ((Big.len self + Big.len other) `max` 1)%nat) ∧
  (∃ w, Big.div_unit self unit = Some w ∧ value w = value self / (unit `max` 1) ∧ big_wf w ∧ Big.len w = (Big.len self `max` 1)%nat) ∧
  Big.cmp self other = (value self ?= value other).
Proof.
  intros Hs Ho Hu n. split; [by apply add_run|]. split; [|split; [by apply mul_run|split; [by apply div_unit_run|by apply cmp_value]]].
  destruct (sub_run self other Hs Ho) as (w & borrow & Hr & Hw & Hl & Hv & Hb). exists w.
  assert (Hbor : borrow = negb (value other <=? value self)) by (destruct borrow, (Z.leb_spec (value other) (value self)); cbn [negb]; done || lia).
  subst borrow. rewrite Hr, Hv. by destruct (value other <=? value self).
Qed.

Lemma limb_arithmetic_witness : Big.cmp (mkBig [0; 5; 7]) (mkBig [4294967295]) = (value (mkBig [0; 5; 7]) ?= value (mkBig [4294967295])).
Proof.
  apply (limb_arithmetic_exact (mkBig [0; 5; 7]) (mkBig [4294967295]) 3); [repeat constructor; unfold limb, B, SHIFT; lia|repeat constructor; unfold limb, B, SHIFT; lia|unfold B, SHIFT; lia].
Defined.
