(* ===== verification/BigUintDiv.v ===== *)
(** The long division of big integers, Knuth's algorithm D: the estimate of a limb of the quotient is right or too large by one, and
    what is computed is the quotient and the remainder. *)

From S2P Require Import Prelude BigUint BigUintProps.

(** ** The estimate *)

Section Estimate.
Context (v1 v2 u0 u1 u2 P vl ul : Z).
Hypothesis Hv1 : limb v1.
Hypothesis Hv2 : limb v2.
Hypothesis Hu0 : limb u0.
Hypothesis Hu1 : limb u1.
Hypothesis Hu2 : limb u2.
Hypothesis HP : 0 < P.
Hypothesis Hvl : 0 <= vl < P.
Hypothesis Hul : 0 <= ul < P.
Hypothesis Hnorm : B <= 2 * v1.

(** The divisor and the part of the dividend, by their first limbs. *)
Abbreviation V := ((v1 * B + v2) * P + vl).
Abbreviation U := ((u0 * B * B + u1 * B + u2) * P + ul).
Hypothesis HUV : U < V * B.

Abbreviation q := (U / V).

Lemma V_pos : v1 * (B * P) <= V ∧ B * P <= V ∧ 0 < V.
Proof.
  pose proof B_bounds. unfold limb in *. assert (H1 : v1 * (B * P) <= V) by nia. assert (H2 : 1 * (B * P) <= v1 * (B * P)) by (apply Z.mul_le_mono_nonneg_r; nia).
  split; [done|]. split; nia.
Qed.

Lemma q_bounds : 0 <= q < B ∧ q * V <= U < (q + 1) * V.
Proof.
  destruct V_pos as (_ & _ & HV). pose proof B_bounds. unfold limb in *. split.
  - split; [apply Z.div_pos; nia|apply Z.div_lt_upper_bound; lia].
  - pose proof (Z.div_mod U V ltac:(lia)). pose proof (Z.mod_pos_bound U V HV). nia.
Qed.

Lemma u0_le_v1 : u0 <= v1.
Proof.
  pose proof B_bounds as HB. unfold limb in *. assert (H1 : u0 * B * B * P <= U) by nia. assert (H2 : V <= (v1 * B + v2 + 1) * P) by nia.
  assert (H3 : (u0 * B) * (B * P) < (v1 * B + v2 + 1) * (B * P)) by nia. assert (H4 : u0 * B < v1 * B + v2 + 1) by nia. nia.
Qed.

(** An estimate that is not too small, with its remainder. *)
Definition estimates (qhat rhat : Z) : Prop := qhat * v1 + rhat = u0 * B + u1 ∧ q <= qhat <= B + 1 ∧ 0 <= rhat.

Lemma first_estimate : estimates ((u0 * B + u1) / v1) ((u0 * B + u1) mod v1) ∧ (u0 * B + u1) mod v1 < B.
Proof.
  pose proof B_bounds as HB. pose proof u0_le_v1 as Hle. destruct q_bounds as [Hq [HqU _]]. unfold limb in *. assert (Hpos : 0 < v1) by lia.
  pose proof (Z.div_mod (u0 * B + u1) v1 ltac:(lia)) as Hdm. pose proof (Z.mod_pos_bound (u0 * B + u1) v1 Hpos) as Hm. split; [|lia].
  split; [lia|]. split; [|lia]. split.
  - apply Z.div_le_lower_bound; [lia|]. destruct V_pos as (HV1 & _ & _). assert (H1 : q * (v1 * (B * P)) <= q * V) by (apply Z.mul_le_mono_nonneg_l; lia).
    assert (H0 : (u2 + 1) * P <= B * P) by (apply Z.mul_le_mono_nonneg_r; lia). assert (H2 : U < (u0 * B + u1 + 1) * (B * P)) by lia. assert (H3 : 0 < B * P) by nia. assert (H4 : (v1 * q) * (B * P) < (u0 * B + u1 + 1) * (B * P)) by lia.
    apply Z.mul_lt_mono_pos_r in H4; lia.
  - apply Z.lt_succ_r, Z.div_lt_upper_bound; [lia|]. nia.
Qed.

Lemma test_run qhat rhat : estimates qhat rhat → rhat < B →
  match Big.test_qhat v1 v2 u2 qhat rhat with
  | Some (q', r') => estimates q' r' ∧ r' = rhat + v1
  | None => q <= qhat <= q + 1 ∧ qhat < B
  end.
Proof.
  intros (He & [Hq HqB] & Hr) Hlt. pose proof B_bounds as HB. pose proof B_square as HBB. destruct q_bounds as [Hq0 [HqU HqU']]. unfold limb in *. unfold Big.test_qhat.
  destruct V_pos as (_ & HV1 & HV).
  assert (Hmul : 0 <= qhat * v2 <= (B + 1) * (B - 1)) by (split; [apply Z.mul_nonneg_nonneg; lia|apply Z.mul_le_mono_nonneg; lia]).
  assert (HBr : 0 <= B * rhat <= B * (B - 1)) by (split; [apply Z.mul_nonneg_nonneg; lia|apply Z.mul_le_mono_nonneg_l; lia]).
  assert (HeB : qhat * v1 * B + rhat * B = u0 * B * B + u1 * B) by (rewrite <- Z.mul_add_distr_r, He; ring).
  assert (Hqvl : 0 <= qhat * vl) by (apply Z.mul_nonneg_nonneg; lia).
  rewrite (as_double_id (qhat * v2)), (as_double_id (B * rhat)), (as_double_id (B * rhat + u2)) by lia.
  assert (Htest : B <= qhat ∨ B * rhat + u2 < qhat * v2 → q < qhat).
  { intros [?|Hgt]; [lia|]. destruct (Z.lt_ge_cases q qhat) as [|Hge]; [done|exfalso].
    assert (H1 : qhat * V <= q * V) by (apply Z.mul_le_mono_nonneg_r; lia).
    assert (H4 : (qhat * (v1 * B + v2)) * P < (u0 * B * B + u1 * B + u2 + 1) * P) by lia. apply Z.mul_lt_mono_pos_r in H4; lia. }
  destruct (Z.leb_spec B qhat), (Z.ltb_spec (B * rhat + u2) (qhat * v2)); cbn [orb].
  1, 2, 3: assert (Hgt : q < qhat) by (apply Htest; lia); rewrite !as_double_id by lia; split; [|lia]; split; [lia|lia].
  split; [|lia]. split; [lia|].
  assert (H1 : qhat * vl <= (B - 1) * P) by (apply Z.mul_le_mono_nonneg; lia).
  assert (H2 : 0 <= (B * rhat + u2 - qhat * v2) * P) by (apply Z.mul_nonneg_nonneg; lia).
  assert (H4 : U = (qhat * (v1 * B + v2)) * P + (B * rhat + u2 - qhat * v2) * P + ul) by (replace (u0 * B * B + u1 * B) with (qhat * v1 * B + rhat * B) by lia; ring).
  assert (Hlow : (qhat - 1) * V < (q + 1) * V) by lia. apply Z.mul_lt_mono_pos_r in Hlow; lia.
Qed.

(** When the remainder of the estimate has passed the base, the estimate is good. *)
Lemma estimate_done qhat rhat : estimates qhat rhat → B <= rhat → q <= qhat <= q + 1 ∧ qhat < B.
Proof.
  intros (He & [Hq HqB] & Hr) Hle. pose proof B_bounds as HB. destruct q_bounds as [Hq0 [HqU HqU']]. pose proof u0_le_v1 as Hu. unfold limb in *. destruct V_pos as (_ & HV1 & HV).
  assert (Hlt : qhat < B).
  { assert (H1 : u0 * B <= v1 * B) by (apply Z.mul_le_mono_nonneg_r; lia). assert (H2 : qhat * v1 < B * v1) by lia. apply Z.mul_lt_mono_pos_r in H2; lia. }
  split; [|done]. split; [done|].
  assert (Hmul : 0 <= qhat * v2 <= B * B) by (split; [apply Z.mul_nonneg_nonneg; lia|apply Z.mul_le_mono_nonneg; lia]).
  assert (HBr : B * B <= B * rhat) by (apply Z.mul_le_mono_nonneg_l; lia).
  assert (HeB : qhat * v1 * B + rhat * B = u0 * B * B + u1 * B) by (rewrite <- Z.mul_add_distr_r, He; ring).
  assert (H1 : qhat * vl <= (B - 1) * P) by (apply Z.mul_le_mono_nonneg; lia).
  assert (H2 : 0 <= (B * rhat + u2 - qhat * v2) * P) by (apply Z.mul_nonneg_nonneg; lia).
  assert (H4 : U = (qhat * (v1 * B + v2)) * P + (B * rhat + u2 - qhat * v2) * P + ul) by (replace (u0 * B * B + u1 * B) with (qhat * v1 * B + rhat * B) by lia; ring).
  assert (Hlow : (qhat - 1) * V < (q + 1) * V) by lia. apply Z.mul_lt_mono_pos_r in Hlow; lia.
Qed.

(** The loop goes round at most twice: each time the remainder grows by at least half the base. *)
Lemma adjust_run qhat rhat : estimates qhat rhat → ∃ qhat', Big.adjust_qhat 3 v1 v2 u2 qhat rhat = Some qhat' ∧ q <= qhat' <= q + 1 ∧ qhat' < B.
Proof.
  assert (Hgen : ∀ fuel qhat rhat, estimates qhat rhat → 2 * B <= 2 * rhat + Z.of_nat fuel * B →
    ∃ qhat', Big.adjust_qhat fuel v1 v2 u2 qhat rhat = Some qhat' ∧ q <= qhat' <= q + 1 ∧ qhat' < B).
  { induction fuel as [|fuel IH]; intros qh rh He Hf; cbn [Big.adjust_qhat]; (destruct (Z.ltb_spec rh B); [|exists qh; split; [done|by eapply estimate_done]]); [lia|].
    pose proof (test_run qh rh He ltac:(done)) as Ht. destruct (Big.test_qhat v1 v2 u2 qh rh) as [[q' r']|]; [|by exists qh].
    destruct Ht as [He' ->]. apply IH; [done|]. lia. }
  intros He. apply Hgen; [done|]. destruct He as (_ & _ & Hr). pose proof B_bounds. lia.
Qed.
End Estimate.

(** ** Slices *)

Lemma mapM_get l (j k : nat) : (j + k ≤ length l)%nat → mapM (Big.get (of_limbs l)) (seq j k) = Some (take k (drop j l)).
Proof.
  revert j. induction k as [|k IH]; intros j Hl; [by rewrite take_0|]. cbn [seq mapM]. rewrite get_limbs, limbs_of_limbs.
  destruct (lookup_lt_is_Some_2 l j) as [d Hd]; [lia|]. rewrite Hd. cbn. rewrite IH by lia. cbn. by rewrite (drop_S _ _ _ Hd).
Qed.

Lemma slice_run (lo mid hi : list Z) j n : length lo = j → length mid = (n + 1)%nat → Big.slice (of_limbs (lo ++ mid ++ hi)) j n = Some (of_limbs mid).
Proof.
  intros <- Hm. unfold Big.slice. pose proof (mapM_get (lo ++ mid ++ hi) (length lo) (n + 1)) as Hs. rewrite drop_app_length, take_app_length' in Hs by done.
  specialize (Hs ltac:(rewrite !length_app; lia)). apply mapM_Some in Hs.
  assert (Hr : mapM (Big.get (of_limbs (lo ++ mid ++ hi))) (reverse (seq (length lo) (n + 1))) = Some (reverse mid)) by (apply mapM_Some; by apply Forall2_reverse).
  rewrite Hr. done.
Qed.

Lemma insert_at_middle {A} (l1 l2 : list A) i x v : length l1 = i → <[i := v]> (l1 ++ x :: l2) = l1 ++ v :: l2.
Proof. intros <-. by rewrite insert_app_r_alt, Nat.sub_diag by done. Qed.

Lemma set_slice_run (lo mid hi ys : list Z) j n : length lo = j → length mid = (n + 1)%nat → (n + 1 ≤ length ys)%nat →
  Big.set_slice (of_limbs (lo ++ mid ++ hi)) j n (of_limbs ys) = Some (of_limbs (lo ++ take (n + 1) ys ++ hi)).
Proof.
  intros Hlo Hm Hy. unfold Big.set_slice.
  destruct (for_in_up (λ d x, x = of_limbs ((lo ++ take (d - j) ys) ++ drop (d - j) mid ++ hi)) (λ d x, v ← Big.get (of_limbs ys) (d - j); Big.set x d v) j (n + 1) (of_limbs (lo ++ mid ++ hi)))
    as (x & -> & ->).
  - rewrite Nat.sub_diag, take_0, app_nil_r. done.
  - intros d x Hd ->. rewrite get_limbs, limbs_of_limbs. destruct (lookup_lt_is_Some_2 ys (d - j)) as [v Hv]; [lia|]. rewrite Hv. cbn [mbind option_bind].
    destruct (lookup_lt_is_Some_2 mid (d - j)) as [x Hx]; [lia|]. rewrite (drop_S _ _ _ Hx). cbn [app].
    assert (Hlen : length (lo ++ take (d - j) ys) = d) by (rewrite length_app, length_take; lia).
    rewrite set_of_limbs by (rewrite length_app, Hlen; cbn; lia). eexists. split; [done|]. rewrite insert_at_middle by done.
    replace (S d - j)%nat with (S (d - j)) by lia. by rewrite (take_S_r _ _ _ Hv), <- !app_assoc.
  - replace (j + (n + 1) - j)%nat with (n + 1)%nat by lia. rewrite (drop_ge mid) by lia. by rewrite <- app_assoc.
Qed.

Lemma val_take_mod k l : Forall limb l → val (take k l) = val l mod pw k.
Proof.
  intros Hl. rewrite <- (take_drop k l) at 2. rewrite val_app. pose proof (pw_pos k). pose proof (val_bound (take k l) ltac:(by apply Forall_take)) as Hb.
  destruct (Nat.le_gt_cases k (length l)).
  - rewrite length_take, min_l in * by lia. rewrite Z.mul_comm, Z.mod_add, Z.mod_small by lia. done.
  - rewrite length_take, min_r in * by lia. rewrite drop_ge by lia. cbn [val]. pose proof (pw_le (length l) k ltac:(lia)). rewrite Z.mul_0_r, Z.add_0_r, Z.mod_small by lia. done.
Qed.

(** ** One step *)

Section Step.
Context (vs : list Z) (n : nat) (v1 : Z).
Hypothesis Hvs : Forall limb vs.
Hypothesis Hn : (2 ≤ n)%nat.
Hypothesis Hlen : length vs = n.
Hypothesis Hv1 : vs !! (n - 1)%nat = Some v1.
Hypothesis Hnorm : B <= 2 * v1.

Abbreviation V := (val vs).

(** A number by its last limbs. *)
Lemma val_last2 l k a b : Forall limb l → length l = S (S k) → l !! S k = Some a → l !! k = Some b →
  val l = (a * B + b) * pw k + val (take k l) ∧ 0 <= val (take k l) < pw k.
Proof.
  intros Hl Hk Ha Hb. split.
  - rewrite <- (take_ge l (S (S k))) at 1 by lia. rewrite !val_take_S, (dig_Some _ _ _ Ha), (dig_Some _ _ _ Hb), pw_S. ring.
  - pose proof (val_bound (take k l) ltac:(by apply Forall_take)) as Hbd. rewrite length_take, min_l in Hbd by lia. done.
Qed.

Lemma estimate_run (lo mid hi : list Z) j : length lo = j → length mid = (n + 1)%nat → Forall limb mid → val mid < V * B →
  ∃ qhat, Big.estimate (of_limbs (lo ++ mid ++ hi)) (of_limbs vs) n j = Some qhat ∧ val mid / V <= qhat <= val mid / V + 1 ∧ qhat < B.
Proof.
  intros Hlo Hmid Hml HUV. pose proof B_bounds as HB. pose proof B_square as HBB. unfold Big.estimate. rewrite !get_limbs, !limbs_of_limbs.
  destruct (lookup_lt_is_Some_2 mid n) as [u0 Hu0]; [lia|]. destruct (lookup_lt_is_Some_2 mid (n - 1)) as [u1 Hu1]; [lia|]. destruct (lookup_lt_is_Some_2 mid (n - 2)) as [u2 Hu2]; [lia|].
  destruct (lookup_lt_is_Some_2 vs (n - 2)) as [v2 Hv2]; [lia|].
  assert (Hget : ∀ i, (i ≤ n)%nat → (lo ++ mid ++ hi) !! (j + i)%nat = mid !! i).
  { intros i Hi. rewrite lookup_app_r by lia. rewrite lookup_app_l by lia. f_equal. lia. }
  rewrite Hget, Hu0 by lia. cbn [mbind option_bind]. replace (j + n - 1)%nat with (j + (n - 1))%nat by lia. replace (j + n - 2)%nat with (j + (n - 2))%nat by lia.
  rewrite !Hget, Hu1, Hv1 by lia. cbn [mbind option_bind]. rewrite Hv2, Hu2. cbn [mbind option_bind].
  pose proof (Forall_lookup_1 _ _ _ _ Hml Hu0 : limb u0) as Lu0. pose proof (Forall_lookup_1 _ _ _ _ Hml Hu1 : limb u1) as Lu1. pose proof (Forall_lookup_1 _ _ _ _ Hml Hu2 : limb u2) as Lu2.
  pose proof (Forall_lookup_1 _ _ _ _ Hvs Hv1 : limb v1) as Lv1. pose proof (Forall_lookup_1 _ _ _ _ Hvs Hv2 : limb v2) as Lv2.
  destruct (val_last2 vs (n - 2) v1 v2) as [HV Hvl]; [done|lia| |done|]; [by replace (S (n - 2)) with (n - 1)%nat by lia|].
  assert (HU : val mid = (u0 * B * B + u1 * B + u2) * pw (n - 2) + val (take (n - 2) mid) ∧ 0 <= val (take (n - 2) mid) < pw (n - 2)).
  { destruct (val_last2 mid (n - 1) u0 u1) as [HU _]; [done|lia| |done|]; [by replace (S (n - 1)) with n by lia|]. rewrite HU. replace (n - 1)%nat with (S (n - 2)) at 1 2 by lia.
    rewrite val_take_S, (dig_Some _ _ _ Hu2), pw_S. split; [ring|]. pose proof (val_bound (take (n - 2) mid) ltac:(by apply Forall_take)) as Hbd. rewrite length_take, min_l in Hbd by lia. done. }
  destruct HU as [HU Hul]. rewrite HV, HU in *. clear HV HU. set (vl := val (take (n - 2) vs)) in *. set (ul := val (take (n - 2) mid)) in *. pose proof (pw_pos (n - 2)) as HP. set (P := pw (n - 2)) in *.
  assert (Hprod : 0 <= u0 * B <= (B - 1) * B) by (unfold limb in *; split; [apply Z.mul_nonneg_nonneg; lia|apply Z.mul_le_mono_nonneg_r; lia]).
  rewrite (as_double_id (u0 * B)), as_double_id by (unfold limb in *; lia). rewrite div_single_run by (unfold limb in *; lia). cbn [mbind option_bind].
  destruct (first_estimate v1 v2 u0 u1 u2 P vl ul Lv1 Lv2 Lu0 Lu1 Lu2 HP Hvl Hul Hnorm HUV) as [He Hr].
  pose proof (test_run v1 v2 u0 u1 u2 P vl ul Lv1 Lv2 Lu0 Lu1 Lu2 HP Hvl Hul Hnorm HUV _ _ He Hr) as Ht.
  destruct (Big.test_qhat v1 v2 u2 _ _) as [[q' r']|]; cbn [default]; (eapply adjust_run; [done..|]); [by destruct Ht|done].
Qed.

Lemma V_pow : pw (n - 1) <= V < pw n ∧ 0 < V.
Proof.
  pose proof (val_bound vs Hvs) as Hb. rewrite Hlen in Hb. pose proof (Forall_lookup_1 _ _ _ _ Hvs Hv1 : limb v1) as Lv1. pose proof B_bounds. unfold limb in Lv1.
  assert (HV : pw (n - 1) <= V).
  { rewrite <- (take_ge vs n) by lia. replace n with (S (n - 1)) at 2 by lia. rewrite val_take_S, (dig_Some _ _ _ Hv1). pose proof (pw_pos (n - 1)).
    pose proof (val_bound (take (n - 1) vs) ltac:(by apply Forall_take)). assert (1 * pw (n - 1) <= v1 * pw (n - 1)) by (apply Z.mul_le_mono_nonneg_r; lia). lia. }
  pose proof (pw_pos (n - 1)). lia.
Qed.

(** Removing a multiple of the divisor from a slice and keeping the low limbs. *)
Lemma take_value ys k : Forall limb ys → (k ≤ length ys)%nat → Forall limb (take k ys) ∧ length (take k ys) = k ∧ val (take k ys) = val ys mod pw k.
Proof. intros Hy Hk. split; [by apply Forall_take|]. split; [rewrite length_take; lia|]. by apply val_take_mod. Qed.

Lemma of_limbs_wf l : Forall limb l → big_wf (of_limbs l) ∧ value (of_limbs l) = val l ∧ Big.len (of_limbs l) = length l.
Proof. intros Hl. unfold big_wf, value, Big.len, of_limbs, limbs. cbn [digits]. by rewrite Forall_reverse, reverse_involutive, length_reverse. Qed.

Lemma limbs_facts x : big_wf x → x = of_limbs (limbs x) ∧ Forall limb (limbs x) ∧ length (limbs x) = Big.len x ∧ val (limbs x) = value x.
Proof. intros Hw. split; [by rewrite of_limbs_limbs|]. split; [by apply wf_limbs|]. split; [apply length_limbs|done]. Qed.

(** A step of the division: the slice is replaced by its remainder and the quotient gets its limb. *)
Lemma div_step_run (lo mid hi Q : list Z) j : length lo = j → length mid = (n + 1)%nat → Forall limb mid → val mid < V * B → (j < length Q)%nat →
  ∃ mid', Big.div_step (of_limbs vs) n j (of_limbs (lo ++ mid ++ hi), of_limbs Q) = Some (of_limbs (lo ++ mid' ++ hi), of_limbs (<[j := val mid / V]> Q)) ∧
    length mid' = (n + 1)%nat ∧ Forall limb mid' ∧ val mid' = val mid mod V.
Proof.
  intros Hlo Hmid Hml HUV HQ. destruct V_pow as [[HV1 HV2] HV]. pose proof B_bounds as HB. pose proof B_square as HBB. unfold Big.div_step.
  destruct (estimate_run lo mid hi j Hlo Hmid Hml HUV) as (qhat & -> & Hq & HqB). cbn [mbind option_bind]. rewrite slice_run by done. cbn [mbind option_bind].
  pose proof (val_bound mid Hml) as HU. rewrite Hmid in HU.
  assert (Hq0 : 0 <= val mid / V) by (apply Z.div_pos; lia). pose proof (Z.div_mod (val mid) V ltac:(lia)) as Hdm. pose proof (Z.mod_pos_bound (val mid) V HV) as Hmod.
  destruct (from_double_run qhat) as [Hfv Hfw]; [lia|]. destruct (of_limbs_wf vs Hvs) as (Hvw & Hvv & Hvl). destruct (of_limbs_wf mid Hml) as (Hmw & Hmv & Hmlen).
  destruct (mul_run (of_limbs vs) (Big.from_double qhat) Hvw Hfw) as (rhs & -> & Hrv & Hrw & Hrl). cbn [mbind option_bind]. rewrite Hvv, Hfv in Hrv. rewrite Hvl, Hlen in Hrl.
  change (Big.len (Big.from_double qhat)) with 2%nat in Hrl.
  destruct (sub_run (of_limbs mid) rhs Hmw Hrw) as (w & borrow & -> & Hww & Hwl & Hwv & _). cbn [mbind option_bind]. rewrite Hmlen, Hrl, Hmid in *. rewrite Hmv, Hrv in Hwv.
  replace ((n + 1) `max` ((n + 2) `max` 1))%nat with (n + 2)%nat in * by lia. replace ((n + 2) `max` 1)%nat with (n + 2)%nat in Hwl by lia.
  pose proof (value_bound w Hww) as Hwb. rewrite Hwl in Hwb. destruct (limbs_facts w Hww) as (Hwe & Hwf & Hwn & Hwval).
  assert (Hpw : pw (n + 2) = B * pw (n + 1)) by (rewrite <- pw_S; f_equal; lia). pose proof (pw_pos (n + 1)) as Hp1. pose proof (pw_le n (n + 1) ltac:(lia)) as Hp2.
  destruct (take_value (limbs w) (n + 1)) as (Htl & Htn & Htv); [done|lia|]. rewrite Hwe.
  rewrite (as_single_id qhat) by (unfold limb; lia). destruct borrow; cbn iota zeta.
  - assert (Hqh : qhat = val mid / V + 1).
    { destruct (Z.eq_dec qhat (val mid / V + 1)); [done|]. assert (qhat = val mid / V) as -> by lia. lia. }
    rewrite set_slice_run by (done || lia). cbn [mbind option_bind]. rewrite set_of_limbs by done. cbn [mbind option_bind].
    rewrite get_limbs, limbs_of_limbs, list_lookup_insert_eq by done. cbn [mbind option_bind]. rewrite set_of_limbs by (by rewrite length_insert). cbn [mbind option_bind].
    rewrite list_insert_insert_eq, (as_single_id (qhat - 1)) by (unfold limb; lia). rewrite slice_run by (rewrite ?length_take; lia || done). cbn [mbind option_bind].
    destruct (of_limbs_wf (take (n + 1) (limbs w)) Htl) as (Htw & Htv' & Htlen).
    destruct (add_run (of_limbs vs) (of_limbs (take (n + 1) (limbs w))) Hvw Htw) as (r & -> & Hrval & Hrwf & Hrlen). cbn [mbind option_bind].
    rewrite Hvl, Hlen, Htlen, Htn in Hrlen. destruct (limbs_facts r Hrwf) as (Hre & Hrf & Hrn & Hrv').
    destruct (take_value (limbs r) (n + 1)) as (Hrtl & Hrtn & Hrtv); [done|lia|].
    rewrite Hre, set_slice_run by (rewrite ?length_take; lia || done). cbn [mbind option_bind].
    eexists. split; [by replace (qhat - 1) with (val mid / V) by lia|]. split; [done|]. split; [done|].
    rewrite Hrtv, Hrv', Hrval, Hvv, Htv', Htv, Hwval, Hwv, Hpw, Z.add_mod_idemp_r by lia.
    replace (V + (val mid - V * qhat + B * pw (n + 1))) with (val mid mod V + B * pw (n + 1)) by (rewrite Hqh; lia).
    rewrite Z.mod_add, Z.mod_small by lia. done.
  - assert (Hqh : qhat = val mid / V).
    { destruct (Z.eq_dec qhat (val mid / V)); [done|]. assert (qhat = val mid / V + 1) as -> by lia. lia. }
    rewrite set_slice_run by (done || lia). cbn [mbind option_bind]. rewrite set_of_limbs by done. cbn [mbind option_bind].
    eexists. split; [by rewrite Hqh|]. split; [done|]. split; [done|]. rewrite Htv, Hwval, Hwv.
    replace (val mid - V * qhat + 0) with (val mid mod V) by (rewrite Hqh; lia). apply Z.mod_small. lia.
Qed.

(** ** All the steps *)

Lemma div_loop_run (U0 : list Z) m : length U0 = (n + m + 1)%nat → Forall limb U0 → val U0 < V * pw (m + 1) →
  ∃ U Q, for_in (reverse (seq 0 (m + 1))) (Big.div_step (of_limbs vs) n) (of_limbs U0, Big.with_capacity (m + 1)) = Some (of_limbs U, of_limbs Q) ∧
    length U = (n + m + 1)%nat ∧ Forall limb U ∧ length Q = (m + 1)%nat ∧ Forall limb Q ∧ val U0 = val U + V * val Q ∧ val U < V.
Proof.
  intros HlU HU0 Hlt. destruct V_pow as [[HV1 HV2] HV]. pose proof B_bounds as HB.
  destruct (for_in_down (λ j (s : BigUint * BigUint), ∃ U Q, s = (of_limbs U, of_limbs Q) ∧ length U = (n + m + 1)%nat ∧ Forall limb U ∧ length Q = (m + 1)%nat ∧ Forall limb Q ∧
    val U0 = val U + V * val Q ∧ val U < V * pw j ∧ (∀ p, (p < j)%nat → Q !! p = Some 0)) (Big.div_step (of_limbs vs) n) (m + 1) (of_limbs U0, Big.with_capacity (m + 1)))
    as (s & Hrun & U & Q & -> & H1 & H2 & H3 & H4 & H5 & H6 & _).
  - exists U0, (replicate (m + 1) 0). rewrite with_capacity_limbs. replace ((m + 1) `max` 1)%nat with (m + 1)%nat by lia. rewrite length_replicate, val_zeros.
    split; [done|]. split; [done|]. split; [done|]. split; [done|]. split; [apply limb_zeros|]. split; [lia|]. split; [done|]. intros p Hp. by apply lookup_replicate_2.
  - intros j s Hj (U & Q & -> & HU & HUl & HQ & HQl & Hval & Hb & Hz).
    pose proof (take_drop j U) as Hsplit. set (lo := take j U) in *. set (mid := take (n + 1) (drop j U)). set (hi := drop (n + 1) (drop j U)).
    assert (Hmid : mid ++ hi = drop j U) by apply take_drop. rewrite <- Hmid in Hsplit.
    assert (Hlo : length lo = j) by (unfold lo; rewrite length_take; lia). assert (Hmidl : length mid = (n + 1)%nat) by (unfold mid; rewrite length_take, length_drop; lia).
    assert (HF : Forall limb lo ∧ Forall limb mid ∧ Forall limb hi) by (rewrite <- Hsplit, !Forall_app in HUl; done). destruct HF as (HFlo & HFmid & HFhi).
    pose proof (val_bound lo HFlo) as Hblo. pose proof (val_bound mid HFmid) as Hbmid. pose proof (val_bound hi HFhi) as Hbhi. rewrite Hlo in Hblo. rewrite Hmidl in Hbmid.
    assert (HvU : val U = val lo + pw j * (val mid + pw (n + 1) * val hi)) by (rewrite <- Hsplit, !val_app, Hlo, Hmidl; done).
    pose proof (pw_pos j) as Hpj. pose proof (pw_pos (n + 1)) as Hpn. rewrite pw_S in Hb.
    assert (Hpn1 : pw (n + 1) = B * pw n) by (rewrite Nat.add_1_r; apply pw_S).
    assert (Hhi : val hi = 0).
    { destruct (Z.eq_dec (val hi) 0); [done|exfalso]. assert (Hx : pw (n + 1) * 1 <= pw (n + 1) * val hi) by (apply Z.mul_le_mono_nonneg_l; lia).
      assert (Hy : pw j * pw (n + 1) <= val U) by (rewrite HvU; assert (pw j * pw (n + 1) <= pw j * (val mid + pw (n + 1) * val hi)) by (apply Z.mul_le_mono_nonneg_l; lia); lia).
      assert (Hw : pw j * (V * B) <= pw j * pw (n + 1)) by (apply Z.mul_le_mono_nonneg_l; lia || nia). lia. }
    assert (HUV : val mid < V * B).
    { assert (Hx : pw j * val mid < pw j * (V * B)) by (rewrite Hhi in HvU; lia). by apply Z.mul_lt_mono_pos_l in Hx. }
    destruct (div_step_run lo mid hi Q j Hlo Hmidl HFmid HUV) as (mid' & Hstep & Hm1 & Hm2 & Hm3); [lia|]. rewrite Hsplit in Hstep. eexists. split; [exact Hstep|].
    pose proof (Z.div_mod (val mid) V ltac:(lia)) as Hdm. pose proof (Z.mod_pos_bound (val mid) V HV) as Hmod.
    exists (lo ++ mid' ++ hi), (<[j := val mid / V]> Q). split; [done|].
    assert (HvU' : val (lo ++ mid' ++ hi) = val lo + pw j * (val mid mod V)) by (rewrite !val_app, Hlo, Hm1, Hm3, Hhi; ring).
    split; [rewrite <- HU, <- Hsplit, !length_app; lia|]. split; [by rewrite !Forall_app|]. split; [by rewrite length_insert|]. split.
    { apply limb_insert; [done|]. split; [apply Z.div_pos; lia|apply Z.div_lt_upper_bound; lia]. }
    split; [|split].
    + rewrite HvU', (val_insert _ _ 0) by (apply Hz; lia). rewrite Hval, HvU, Hhi, Hdm at 1. ring.
    + rewrite HvU'. assert (pw j * (val mid mod V) <= pw j * (V - 1)) by (apply Z.mul_le_mono_nonneg_l; lia). lia.
    + intros p Hp. rewrite list_lookup_insert_ne by lia. apply Hz. lia.
  - exists U, Q. rewrite Hrun. rewrite pw_0 in H6. repeat split; try done; lia.
Qed.
End Step.

(** ** The remainder *)

Lemma lor_low a b (k : Z) : 0 <= k → 0 <= a < 2 ^ k → Z.lor a (b * 2 ^ k) = a + b * 2 ^ k.
Proof.
  intros Hk Ha. assert (Hland : Z.land a (b * 2 ^ k) = 0).
  { apply Z.bits_inj'. intros i Hi. rewrite Z.land_spec, Z.bits_0, <- Z.shiftl_mul_pow2 by done. destruct (Z.lt_ge_cases i k).
    - by rewrite Z.shiftl_spec_low, andb_false_r.
    - rewrite <- (Z.mod_small a (2 ^ k)) by done. rewrite Z.mod_pow2_bits_high by lia. done. }
  rewrite <- Z.lxor_lor by done. by rewrite <- Z.add_nocarry_lxor.
Qed.

Section Denormalize.
Context (xs : list Z) (n : nat) (nb : Z).
Hypothesis Hxs : Forall limb xs.
Hypothesis Hn : (1 ≤ n < length xs)%nat.
Hypothesis Hnb : 0 < nb < SHIFT.

Abbreviation N := (2 ^ nb).
Abbreviation K := (2 ^ (SHIFT - nb)).

Lemma N_pos : 0 < N ∧ 0 < K ∧ N * K = B.
Proof. split; [apply Z.pow_pos_nonneg; lia|]. split; [apply Z.pow_pos_nonneg; lia|]. rewrite <- Z.pow_add_r by lia. unfold B. f_equal. lia. Qed.

(** A limb of the result has the high bits of one limb and the low bits of the next. *)
Lemma shifted_limb x y : limb x → limb y → ∃ d, Z.lor (Z.shiftr x nb) (as_single (Z.shiftl y (SHIFT - nb))) = d ∧ limb d ∧ N * d = x - x mod N + (y mod N) * B.
Proof.
  destruct N_pos as (HN & HK & HNK). unfold limb. intros Hx Hy. rewrite Z.shiftr_div_pow2, Z.shiftl_mul_pow2 by lia. unfold as_single. rewrite <- HNK, Z.mul_mod_distr_r by lia.
  pose proof (Z.mod_pos_bound y N HN) as Hym. pose proof (Z.mod_pos_bound x N HN) as Hxm. pose proof (Z.div_mod x N ltac:(lia)) as Hdm.
  assert (Hxd : 0 <= x / N < K) by (split; [apply Z.div_pos; lia|apply Z.div_lt_upper_bound; lia]).
  rewrite lor_low by lia. eexists. split; [done|]. split.
  - assert (Hle : (y mod N) * K <= (N - 1) * K) by (apply Z.mul_le_mono_nonneg_r; lia). assert (0 <= (y mod N) * K) by (apply Z.mul_nonneg_nonneg; lia). lia.
  - rewrite Z.mul_add_distr_l. lia.
Qed.

Lemma denormalize_run : val xs mod N = 0 → val (take n xs) = val xs →
  ∃ r, Big.denormalize (of_limbs xs) n nb (Big.with_capacity n) = Some r ∧ big_wf r ∧ Big.len r = n ∧ N * value r = val xs.
Proof.
  intros Hdiv Htake. destruct N_pos as (HN & HK & HNK). unfold Big.denormalize. rewrite (proj2 (Z.ltb_lt _ _)) by lia.
  set (body := λ (d : nat) (r : BigUint), _).
  destruct (for_in_up (λ d r, ∃ fin, r = of_limbs (fin ++ replicate (n - d) 0) ∧ length fin = d ∧ Forall limb fin ∧
    N * val fin = val (take d xs) - dig xs 0 mod N + (dig xs d mod N) * pw d) body 0 (n - 1) (Big.with_capacity n)) as (r & -> & fin & Hr & Hl & Hf & Hv).
  - exists []. rewrite with_capacity_limbs, take_0, pw_0. replace (n `max` 1)%nat with n by lia. rewrite Nat.sub_0_r. cbn. split; [done|]. split; [done|]. split; [done|]. lia.
  - intros d r Hd (fin & -> & Hl & Hf & Hv). unfold body. rewrite !get_limbs, limbs_of_limbs.
    destruct (lookup_lt_is_Some_2 xs d) as [x Hx]; [lia|]. destruct (lookup_lt_is_Some_2 xs (d + 1)) as [y Hy]; [lia|]. rewrite Hx, Hy. cbn [mbind option_bind].
    destruct (shifted_limb x y) as (z & -> & Hz & He); [by apply (Forall_lookup_1 _ _ _ _ Hxs Hx)|by apply (Forall_lookup_1 _ _ _ _ Hxs Hy)|].
    subst d. replace (n - length fin)%nat with (S (n - S (length fin))) by lia. rewrite set_next. eexists. split; [done|]. exists (fin ++ [z]).
    split; [done|]. split; [by rewrite length_app, Nat.add_1_r|]. split; [by apply limb_snoc|].
    rewrite Nat.add_1_r in Hy. rewrite val_app, val_take_S, pw_S, (dig_Some _ _ _ Hx), (dig_Some _ _ _ Hy). rewrite (dig_Some _ _ _ Hx) in Hv. cbn [val].
    transitivity (N * val fin + (N * z) * pw (length fin)); [ring|]. rewrite Hv, He. ring.
  - cbn [Nat.add mbind option_bind] in *. rewrite get_limbs, limbs_of_limbs. destruct (lookup_lt_is_Some_2 xs (n - 1)) as [x Hx]; [lia|]. rewrite Hx. cbn [mbind option_bind].
    pose proof (Forall_lookup_1 _ _ _ _ Hxs Hx : limb x) as Lx. unfold limb in Lx. rewrite (dig_Some _ _ _ Hx) in Hv.
    subst r. replace (n - (n - 1))%nat with 1%nat by lia. pose proof (set_next fin 0 (Z.shiftr x nb)) as Hset. rewrite Hl in Hset. rewrite Hset. cbn [replicate]. rewrite app_nil_r.
    rewrite Z.shiftr_div_pow2 by lia. pose proof (Z.div_mod x N ltac:(lia)) as Hdm. pose proof (Z.mod_pos_bound x N HN) as Hm.
    assert (Hxl : limb (x / N)) by (split; [apply Z.div_pos; lia|apply Z.div_lt_upper_bound; nia]).
    destruct (of_limbs_wf (fin ++ [x / N])) as (Hw & Hval & Hlen); [by apply limb_snoc|]. eexists. split; [done|]. split; [done|].
    split; [rewrite Hlen, length_app; cbn; lia|]. rewrite Hval, val_app, Hl. cbn [val].
    assert (Hx0 : dig xs 0 mod N = 0).
    { destruct xs as [|x0 xs']; [cbn in Hn; lia|]. cbn [val] in Hdiv. change (dig (x0 :: xs') 0) with x0.
      replace (B * val xs') with (K * val xs' * N) in Hdiv by (rewrite <- HNK; ring). by rewrite Z.mod_add in Hdiv by lia. }
    rewrite <- Htake. replace n with (S (n - 1)) at 2 by lia. rewrite val_take_S, (dig_Some _ _ _ Hx).
    transitivity (N * val fin + (N * (x / N)) * pw (n - 1)); [ring|]. rewrite Hv, Hx0. replace (N * (x / N)) with (x - x mod N) by lia. ring.
Qed.
End Denormalize.

(** ** The division *)

Lemma leading_zeros_spec d : 0 < d < B → 0 <= leading_zeros d < SHIFT ∧ B <= 2 * (d * 2 ^ leading_zeros d) ∧ d * 2 ^ leading_zeros d < B.
Proof.
  intros Hd. unfold leading_zeros. rewrite (proj2 (Z.eqb_neq _ _)) by lia. destruct (Z.log2_spec d) as [H1 H2]; [lia|]. pose proof (Z.log2_nonneg d) as H0.
  assert (Hlog : Z.log2 d < SHIFT) by (apply Z.log2_lt_pow2; [lia|]; unfold B in Hd; lia). split; [lia|].
  assert (HB : B = 2 ^ Z.log2 d * 2 ^ (SHIFT - 1 - Z.log2 d) * 2).
  { rewrite <- Z.pow_add_r by lia. replace (Z.log2 d + (SHIFT - 1 - Z.log2 d)) with (SHIFT - 1) by lia. done. }
  set (P := 2 ^ (SHIFT - 1 - Z.log2 d)) in *. assert (0 < P) by (apply Z.pow_pos_nonneg; lia). rewrite Z.pow_succ_r in H2 by lia. split; nia.
Qed.

Lemma head_value d l : value (mkBig (d :: l)) = val (limbs (mkBig (d :: l))) ∧ limbs (mkBig (d :: l)) !! length l = Some d.
Proof. split; [done|]. unfold limbs. cbn [digits]. rewrite reverse_cons. apply list_lookup_middle. by rewrite length_reverse. Qed.

(** Normalizing the divisor: the same number of limbs, with the highest bit set. *)
Lemma normalized x d l : big_wf x → digits x = d :: l → d ≠ 0 →
  ∃ w, Big.mul x (Big.from_single (as_single (2 ^ leading_zeros d))) = Some w ∧ Big.len (Big.lstrip w) = Big.len x ∧ big_wf (Big.lstrip w) ∧
    value (Big.lstrip w) = value x * 2 ^ leading_zeros d ∧ ∃ v1, limbs (Big.lstrip w) !! (Big.len x - 1)%nat = Some v1 ∧ B <= 2 * v1.
Proof.
  intros Hw Hd Hne. assert (Hx : x = mkBig (d :: l)) by (destruct x; cbn in Hd; congruence). subst x. clear Hd. pose proof B_bounds as HB.
  assert (Hdl : limb d) by (unfold big_wf in Hw; by inversion Hw). unfold limb in Hdl. destruct (leading_zeros_spec d) as (Hz & Hlow & Hhigh); [lia|]. set (N := 2 ^ leading_zeros d) in *.
  assert (HN : 1 <= N < B) by (split; [assert (0 < N) by (apply Z.pow_pos_nonneg; lia); lia|]; unfold N, B; apply Z.pow_lt_mono_r; lia).
  rewrite as_single_id by (unfold limb; lia).
  assert (Hsw : big_wf (Big.from_single N)) by (constructor; [unfold limb; lia|constructor]).
  destruct (mul_run (mkBig (d :: l)) (Big.from_single N) Hw Hsw) as (w & Hrun & Hv & Hww & Hl). exists w. split; [done|]. rewrite from_single_value in Hv.
  pose proof (lstrip_wf w Hww) as Hlw. pose proof (lstrip_value w) as Hlv. rewrite Hv in Hlv.
  pose proof (value_lead d l Hw Hne) as Hlead. pose proof (pw_pos (length l)) as Hp. pose proof (value_cons d l) as Hc.
  assert (Hb : 0 <= value (mkBig l) < pw (length l)) by (apply (value_bound (mkBig l)); unfold big_wf in *; by inversion Hw).
  assert (Hup : value (mkBig (d :: l)) * N < B * pw (length l)).
  { assert (Hdn : d * N + N <= B).
    { unfold N in *. set (z := leading_zeros d) in *. assert (HBz : B = 2 ^ (SHIFT - z) * 2 ^ z) by (rewrite <- Z.pow_add_r by lia; unfold B; f_equal; lia).
      rewrite HBz in *. assert (0 < 2 ^ z) by lia. assert (d < 2 ^ (SHIFT - z)) by (apply Z.mul_lt_mono_pos_r in Hhigh; lia). nia. }
    rewrite Hc. nia. }
  assert (Hdown : B * pw (length l) <= 2 * (value (mkBig (d :: l)) * N)) by (rewrite Hc; nia).
  destruct (lstrip_digits w) as [(e & rest & He & Hne')|[_ Hz0]]; [rewrite Hl; lia| |rewrite Hv in Hz0; nia].
  rewrite He in *. pose proof (value_lead e rest Hlw Hne') as Hlead2. rewrite Hlv in Hlead2.
  assert (Hlen : length rest = length l).
  { destruct (Nat.lt_trichotomy (length rest) (length l)) as [Hlt|[?|Hgt]]; [|done|]; exfalso.
    - pose proof (pw_le (S (length rest)) (length l) ltac:(lia)). nia.
    - pose proof (pw_le (S (length l)) (length rest) ltac:(lia)) as Hle. rewrite pw_S in Hle. lia. }
  unfold Big.len. cbn [digits length]. split; [lia|]. split; [done|]. split; [done|]. exists e. rewrite Nat.sub_succ, Nat.sub_0_r, <- Hlen. split; [apply head_value|].
  rewrite value_cons, Hlen in Hlv. assert (Hbr : 0 <= value (mkBig rest) < pw (length l)) by (rewrite <- Hlen; apply (value_bound (mkBig rest)); unfold big_wf in *; by inversion Hlw).
  assert (Hlt : B * pw (length l) < 2 * (e + 1) * pw (length l)) by lia. apply Z.mul_lt_mono_pos_r in Hlt; [|done]. assert (HBe : B = 2 * 2147483648) by done. lia.
Qed.

(** What the arguments have to be: stripped, the divisor of two limbs at least, the dividend longer. *)
Definition dividable (self other : BigUint) : Prop :=
  (2 ≤ Big.len other < Big.len self)%nat ∧ Big.msb other ≠ Some 0 ∧ Big.msb self ≠ Some 0.

#[global] Instance dividable_decision self other : Decision (dividable self other).
Proof. unfold dividable. apply _. Defined.

(** The loop on the normalized numbers leaves the quotient and the remainder times the normalizer. *)
Lemma divmod_normalized (s o N u q : Z) : 0 < N → 0 < o → s * N = u + o * N * q → 0 <= u < o * N → q = s / o ∧ u = N * (s mod o) ∧ u mod N = 0.
Proof.
  intros HN Ho He Hu. assert (Hd : u = N * (s - o * q)) by lia. assert (Hb : 0 <= s - o * q < o) by nia.
  assert (Hq : q = s / o) by (apply (Z.div_unique _ _ _ (s - o * q)); lia). assert (Hm : s - o * q = s mod o) by (apply (Z.mod_unique _ _ q); lia).
  split; [done|]. split; [congruence|]. rewrite Hd, Z.mul_comm. apply Z.mod_mul. lia.
Qed.

Lemma div_run self other (rem : bool) : big_wf self → big_wf other → dividable self other →
  ∃ q r, Big.div self other rem = Some (Some (q, r)) ∧ value q = value self / value other ∧ value r = (if rem then value self mod value other else 0) ∧
    big_wf q ∧ big_wf r ∧ Big.len q = (Big.len self - Big.len other + 1)%nat.
Proof.
  intros Hs Ho (Hlen & Hmo & Hms). destruct other as [[|d l]] eqn:Heo; [cbn in Hlen; lia|]. destruct self as [[|e k]] eqn:Hes; [cbn in Hlen; lia|].
  assert (Hd : d ≠ 0) by (cbn in Hmo; congruence). assert (He : e ≠ 0) by (cbn in Hms; congruence). rewrite <- Heo, <- Hes in *.
  assert (Hdo : digits other = d :: l) by (by subst other). assert (Hds : digits self = e :: k) by (by subst self).
  unfold Big.div. rewrite (proj2 (Nat.leb_gt _ _)) by lia. unfold Big.msb. rewrite Hdo, Hds. cbn [head mbind option_bind].
  rewrite (proj2 (Z.eqb_neq d 0)), (proj2 (Z.eqb_neq e 0)), (proj2 (Nat.leb_gt (Big.len self) (Big.len other))) by (done || lia). cbn [orb]. cbv zeta.
  set (n := Big.len other) in *. set (m := (Big.len self - n)%nat).
  destruct (normalized other d l Ho Hdo Hd) as (w & Hw & Hwl & Hww & Hwv & v1 & Hv1 & Hnorm). fold n in Hwl, Hv1.
  assert (Hdl : 0 < d < B) by (unfold big_wf in Ho; rewrite Hdo in Ho; inversion Ho as [|? ? Hx]; unfold limb in Hx; lia). destruct (leading_zeros_spec d Hdl) as (Hz & _ & _).
  set (nb := leading_zeros d) in *. set (N := 2 ^ nb) in *. assert (HN : 1 <= N < B) by (split; [assert (0 < N) by (apply Z.pow_pos_nonneg; lia); lia|]; unfold N, B; apply Z.pow_lt_mono_r; lia).
  rewrite as_single_id in * by (unfold limb; lia). assert (Hsw : big_wf (Big.from_single N)) by (constructor; [unfold limb; lia|constructor]).
  destruct (mul_run self (Big.from_single N) Hs Hsw) as (sn & -> & Hsv & Hsnw & Hsnl). cbn [mbind option_bind]. rewrite Hw. cbn [mbind option_bind].
  rewrite from_single_value in Hsv. change (Big.len (Big.from_single N)) with 1%nat in Hsnl. assert (Hsnl' : Big.len sn = (n + m + 1)%nat) by lia. unfold Big.lpad. rewrite Hsnl', Nat.leb_refl.
  destruct (limbs_facts sn Hsnw) as (Hse & Hsf & Hsn & Hsval). destruct (limbs_facts (Big.lstrip w) Hww) as (Hoe & Hof & Hon & Hoval). rewrite Hse, Hoe.
  assert (Hpos : pw (n - 1) <= value other).
  { pose proof Ho as Ho'. rewrite Heo in Ho'. pose proof (value_lead d l Ho' Hd) as Hlead. rewrite <- Heo in Hlead. unfold n, Big.len. rewrite Hdo. cbn [length]. rewrite Nat.sub_succ, Nat.sub_0_r. lia. }
  pose proof (pw_pos (n - 1)) as Hpw. pose proof (value_bound self Hs) as Hsb.
  assert (Hlt : val (limbs sn) < val (limbs (Big.lstrip w)) * pw (m + 1)).
  { rewrite Hsval, Hsv, Hoval, Hwv. assert (Hx : value self < value other * pw (m + 1)); [|nia].
    replace (Big.len self) with ((n - 1) + (m + 1))%nat in Hsb by lia. rewrite pw_add in Hsb. pose proof (pw_pos (m + 1)). nia. }
  destruct (div_loop_run (limbs (Big.lstrip w)) n v1 Hof ltac:(lia) ltac:(lia) Hv1 Hnorm (limbs sn) m ltac:(lia) Hsf Hlt) as (U & Q & -> & HUl & HUf & HQl & HQf & Hval & HUlt). cbn [mbind option_bind].
  destruct (of_limbs_wf Q HQf) as (HQw & HQv & HQlen). pose proof (val_bound U HUf) as HUb. rewrite Hsval, Hsv, Hoval, Hwv in *.
  destruct (divmod_normalized (value self) (value other) N (val U) (val Q)) as (Hq & Hu & Hmod); [lia|lia|lia|lia|].
  assert (HlenQ : Big.len (of_limbs Q) = (Big.len self - Big.len other + 1)%nat) by (fold n; lia).
  destruct rem.
  - assert (Hr : ∃ r, Big.denormalize (of_limbs U) n nb (Big.with_capacity n) = Some r ∧ big_wf r ∧ value r = value self mod value other).
    { destruct (decide (0 < nb)) as [Hnb|Hnb].
      - assert (Htake : val (take n U) = val U). { rewrite val_take_mod by done. apply Z.mod_small. pose proof (val_bound _ Hof) as Hb. rewrite Hon, Hwl, Hoval in Hb. lia. }
        destruct (denormalize_run U n nb HUf ltac:(lia) ltac:(lia) Hmod Htake) as (r & Hrun & Hrw & _ & Hrv). exists r. split; [done|]. split; [done|]. nia.
      - unfold Big.denormalize. rewrite (proj2 (Z.ltb_ge _ _)) by lia. destruct (of_limbs_wf U HUf) as (HUw & HUv & _). eexists. split; [done|]. split; [done|].
        rewrite HUv, Hu. assert (nb = 0) as Hnb0 by lia. unfold N. rewrite Hnb0. lia. }
    destruct Hr as (r & -> & Hrw & Hrv). cbn [mbind option_bind]. exists (of_limbs Q), r. rewrite HQv. done.
  - cbn [mbind option_bind]. exists (of_limbs Q), (Big.with_capacity n). rewrite HQv, with_capacity_limbs.
    destruct (of_limbs_wf (replicate (n `max` 1) 0) (limb_zeros _)) as (H1 & H2 & _). rewrite H2, val_zeros. done.
Qed.

(** C24. The long division is exact.  When both numbers have no leading zeros, the divisor has at least two limbs and the dividend has more, it returns the quotient, with the number of limbs that is documented, and,
    if asked for it, the remainder, in 32-bit limbs; no index is out of range.  With any other arguments
    there is no result. *)
Theorem div_exact (self other : BigUint) (rem : bool) : big_wf self → big_wf other → Big.len self ≠ 0%nat →
  (dividable self other → ∃ q r, Big.div self other rem = Some (Some (q, r)) ∧ value q = value self / value other ∧
    value r = (if rem then value self mod value other else 0) ∧ big_wf q ∧ big_wf r ∧ Big.len q = (Big.len self - Big.len other + 1)%nat) ∧
  (¬ dividable self other → Big.div self other rem = Some None).
Proof.
  intros Hs Ho Hlen. split; [by apply div_run|]. intros Hno. unfold Big.div. destruct (Nat.leb_spec (Big.len other) 1) as [|Hlo]; [done|].
  unfold dividable, Big.len, Big.msb in *. destruct (digits other) as [|d l]; [cbn in Hlo; lia|]. destruct (digits self) as [|e k]; [done|]. cbn [head mbind option_bind].
  destruct (Z.eqb_spec d 0) as [|Hd]; [done|]. destruct (Z.eqb_spec e 0) as [|He]; [done|]. cbn [orb]. destruct (Nat.leb_spec (length (e :: k)) (length (d :: l))); [done|].
  exfalso. apply Hno. split; [lia|]. split; by intros [= ?].
Qed.

Definition sample_dividend : BigUint := mkBig [7; 4294967295; 12; 0; 5].
Definition sample_divisor : BigUint := mkBig [3; 4294967295; 4294967295].

Lemma div_exact_witness : dividable sample_dividend sample_divisor ∧
  ∃ q r, Big.div sample_dividend sample_divisor true = Some (Some (q, r)) ∧ value q = value sample_dividend / value sample_divisor ∧
    value r = value sample_dividend mod value sample_divisor ∧ big_wf q ∧ big_wf r ∧ Big.len q = 3%nat.
Proof.
  assert (Hd : dividable sample_dividend sample_divisor) by (apply (bool_decide_unpack _); vm_compute; exact I). split; [exact Hd|].
  apply (proj1 (div_exact sample_dividend sample_divisor true ltac:(repeat constructor; unfold limb, B, SHIFT; lia) ltac:(repeat constructor; unfold limb, B, SHIFT; lia) ltac:(discriminate)) Hd).
Defined.

(** When the divisor has its highest bit set there is nothing to undo, and the remainder is returned with all the limbs of the dividend and one more, not with those of the divisor as the
    documentation says. *)
Example remainder_not_trimmed :
  Big.div (mkBig [1; 0; 0; 0]) (mkBig [2147483648; 1]) true = Some (Some (mkBig [0; 1; 4294967295], mkBig [0; 0; 0; 2147483646; 1])).
Proof. vm_compute. reflexivity. Qed.
