(* ===== verification/Arith128.v ===== *)
(** Helpers for 128-bit numbers ([primitives/arithmetic/src/helpers_128bit.rs]): the greatest common divisor, products and quotients through
    256 bits with rounding, and the square root.

    Arithmetic wraps at 128 bits, as in a release build.  A loop takes fuel, running out of which is [None]; the theorems in [Arith128Props] show that there is enough. *)

From S2P Require Import Prelude BigUint.

(** ** Greatest common divisor *)

Definition as_u128 (a : Z) : Z := a mod 2 ^ 128.

Fixpoint gcd_loop (fuel : nat) (a b : Z) : option Z :=
  match fuel with
  | O => None
  | S fuel =>
      if a =? b then Some b
      else if a =? 0 then Some b
      else if b =? 0 then Some a
      else
        match Z.land a 1 =? 0, Z.land b 1 =? 0 with
        | true, false => gcd_loop fuel (Z.shiftr a 1) b
        | false, true => gcd_loop fuel (Z.shiftr b 1) a
        | true, true => (λ g, as_u128 (Z.shiftl g 1)) <$> gcd_loop fuel (Z.shiftr a 1) (Z.shiftr b 1)
        | false, false =>
            let x := a `min` b in
            let y := a `max` b in
            gcd_loop fuel (Z.shiftr (as_u128 (y - x)) 1) x
        end
  end.

Definition gcd (a b : Z) : option Z := gcd_loop 257 a b.

(** ** Conversion *)

(** The halves of 64 bits, the high one first. *)
Definition split128 (a : Z) : Z * Z := (Z.shiftr a 64 mod 2 ^ 64, a mod 2 ^ 64).

Definition to_big_uint (x : Z) : BigUint :=
  let '(xh, xl) := split128 x in
  let '(xhh, xhl) := split_double xh in
  let '(xlh, xll) := split_double xl in
  Big.lstrip (Big.from_limbs [xhh; xhl; xlh; xll]).

(** ** 256 bits *)

Definition low_64 (a : Z) : Z := Z.land a (2 ^ 64 - 1).
Definition high_64 (a : Z) : Z := Z.shiftr a 64.

(** [(!a).wrapping_add(1)] *)
Definition neg128 (a : Z) : Z := wrapping_add 128 (2 ^ 128 - 1 - a) 1.
Definition div128 (a : Z) : Z := wrapping_add 128 (neg128 a / a) 1.
Definition mod128 (a : Z) : Z := neg128 a mod a.

Record Double128 := mkDouble { d_high : Z; d_low : Z }.

Definition try_into_u128 (d : Double128) : option Z := if d_high d =? 0 then Some (d_low d) else None.

Definition left_shift_64 (scaled_value : Z) : Double128 := mkDouble (Z.shiftr scaled_value 64) (as_u128 (Z.shiftl scaled_value 64)).

Definition d_add (a b : Double128) : Double128 :=
  let low := wrapping_add 128 (d_low a) (d_low b) in
  let carry := if 2 ^ 128 <=? d_low a + d_low b then 1 else 0 in
  mkDouble (wrapping_add 128 (wrapping_add 128 (d_high a) (d_high b)) carry) low.

Definition product_of (a b : Z) : Double128 :=
  let '(a_low, a_high) := (low_64 a, high_64 a) in
  let '(b_low, b_high) := (low_64 b, high_64 b) in
  let '(f, o, i, l) := (as_u128 (a_low * b_low), as_u128 (a_low * b_high), as_u128 (a_high * b_low), as_u128 (a_high * b_high)) in
  let fl := mkDouble l f in
  d_add (d_add fl (left_shift_64 i)) (left_shift_64 o).

(** [while self.high != 0] *)
Fixpoint d_div_loop (fuel : nat) (q r : Z) (x self : Double128) : option (Double128 * Double128) :=
  if d_high self =? 0 then Some (x, self)
  else
    match fuel with
    | O => None
    | S fuel => d_div_loop fuel q r (d_add x (product_of (d_high self) q)) (d_add (product_of (d_high self) r) (mkDouble 0 (d_low self)))
    end.

(** Dividing by zero is a panic. *)
Definition d_div (self : Double128) (rhs : Z) : option (Double128 * Z) :=
  if rhs =? 1 then Some (self, 0)
  else if rhs =? 0 then None
  else
    '(x, self) ← d_div_loop 132 (div128 rhs) (mod128 rhs) (mkDouble 0 0) self;
    Some (d_add x (mkDouble 0 (d_low self / rhs)), d_low self mod rhs).

Inductive Rounding := Up | Down | NearestPrefUp | NearestPrefDown.

(** The outer option is for the fuel of the loop, the inner one is the result. *)
Definition multiply_by_rational_with_rounding (a b c : Z) (r : Rounding) : option (option Z) :=
  if c =? 0 then Some None
  else
    '(result, remainder) ← d_div (product_of a b) c;
    match try_into_u128 result with
    | None => Some None
    | Some result =>
        let up :=
          match r with
          | Up => 0 <? remainder
          | NearestPrefUp => as_u128 (c / 2 + c mod 2) <=? remainder
          | NearestPrefDown => c / 2 <? remainder
          | Down => false
          end in
        Some (if up then checked_add 128 result 1 else Some result)
    end.

(** ** Square root *)

Definition leading_zeros_128 (n : Z) : Z := if n =? 0 then 128 else 127 - Z.log2 n.

(** [while bit != 0] *)
Fixpoint sqrt_loop (fuel : nat) (n result bit : Z) : option Z :=
  if bit =? 0 then Some result
  else
    match fuel with
    | O => None
    | S fuel =>
        if as_u128 (result + bit) <=? n then
          sqrt_loop fuel (n - as_u128 (result + bit)) (as_u128 (Z.shiftr result 1 + bit)) (Z.shiftr bit 2)
        else sqrt_loop fuel n (Z.shiftr result 1) (Z.shiftr bit 2)
    end.

Definition sqrt (n : Z) : option Z :=
  if n =? 0 then Some 0
  else
    let max_shift := leading_zeros_128 0 - 1 in
    let shift := Z.land (max_shift - leading_zeros_128 n) (2 ^ 32 - 2) in
    sqrt_loop 64 n 0 (as_u128 (Z.shiftl 1 shift)).
