(* ===== verification/Arith128Props.v ===== *)
(** The helpers for 128-bit numbers compute what their names say: the greatest common divisor, the product of two numbers divided by a third with
    the rounding that is asked for, the square root, the limbs. *)

From S2P Require Import Prelude BigUint BigUintProps Arith128.

(** ** Greatest common divisor *)

Lemma land_1 a : Z.land a 1 = a mod 2.
Proof. change 1 with (Z.ones 1). rewrite Z.land_ones by lia. done. Qed.

Lemma shiftr_1 a : Z.shiftr a 1 = a / 2.
Proof. rewrite Z.shiftr_div_pow2 by lia. done. Qed.

Lemma gcd_even_odd a b : b mod 2 = 1 → Z.gcd (2 * a) b = Z.gcd a b.
Proof.
  intros Hb. apply Z.gcd_unique; [apply Z.gcd_nonneg|apply Z.divide_mul_r, Z.gcd_divide_l|apply Z.gcd_divide_r|]. intros q Hq1 Hq2.
  apply Z.gcd_greatest; [|done]. apply (Z.gauss q 2 a); [done|].
  assert (Hodd : q mod 2 = 1).
  { destruct Hq2 as [k ->]. pose proof (Z.mod_pos_bound q 2 ltac:(lia)). assert (q mod 2 = 0 ∨ q mod 2 = 1) as [H0|] by lia; [|done].
    rewrite Z.mul_mod, H0, Z.mul_0_r in Hb by lia. done. }
  apply Z.gcd_unique; [lia|apply Z.divide_1_l|apply Z.divide_1_l|]. intros p Hp1 Hp2.
  pose proof (Z.div_mod q 2 ltac:(lia)) as Hdm. rewrite Hodd in Hdm. replace 1 with (q - 2 * (q / 2)) by lia. apply Z.divide_sub_r; [done|]. by apply Z.divide_mul_l.
Qed.

Lemma gcd_odd_odd x y : x mod 2 = 1 → y mod 2 = 1 → Z.gcd ((y - x) / 2) x = Z.gcd x y.
Proof.
  intros Hx Hy. assert (Hd : (y - x) mod 2 = 0) by (rewrite Zminus_mod, Hx, Hy; done). pose proof (Z.div_mod (y - x) 2 ltac:(lia)) as Hdm. rewrite Hd, Z.add_0_r in Hdm.
  rewrite <- (gcd_even_odd ((y - x) / 2)) by done. rewrite <- Hdm, Z.gcd_comm. apply Z.gcd_sub_diag_r.
Qed.

Lemma half_bound (a : Z) (i : nat) : 0 < a < 2 ^ Z.of_nat i → ∃ i', i = S i' ∧ 0 <= a / 2 < 2 ^ Z.of_nat i'.
Proof.
  intros Ha. destruct i as [|i]; [cbn in Ha; lia|]. exists i. split; [done|]. rewrite Nat2Z.inj_succ, Z.pow_succ_r in Ha by lia.
  split; [apply Z.div_pos; lia|apply Z.div_lt_upper_bound; lia].
Qed.

Lemma gcd_loop_run (fuel i j : nat) (a b : Z) : 0 <= a < 2 ^ Z.of_nat i → 0 <= b < 2 ^ Z.of_nat j → (i + j < fuel)%nat → (i ≤ 128)%nat → (j ≤ 128)%nat →
  gcd_loop fuel a b = Some (Z.gcd a b).
Proof.
  revert i j a b. induction fuel as [|fuel IH]; intros i j a b Ha Hb Hf Hi Hj; [lia|]. cbn [gcd_loop].
  destruct (Z.eqb_spec a b) as [->|Hne]; [f_equal; rewrite Z.gcd_diag; lia|].
  destruct (Z.eqb_spec a 0) as [->|Ha0]; [f_equal; rewrite Z.gcd_0_l; lia|]. destruct (Z.eqb_spec b 0) as [->|Hb0]; [f_equal; rewrite Z.gcd_0_r; lia|].
  rewrite !land_1, !shiftr_1. pose proof (Z.mod_pos_bound a 2 ltac:(lia)) as Hma. pose proof (Z.mod_pos_bound b 2 ltac:(lia)) as Hmb.
  pose proof (Z.div_mod a 2 ltac:(lia)) as Hda. pose proof (Z.div_mod b 2 ltac:(lia)) as Hdb.
  destruct (half_bound a i) as (i' & -> & Ha2); [lia|]. destruct (half_bound b j) as (j' & -> & Hb2); [lia|].
  destruct (Z.eqb_spec (a mod 2) 0) as [Hea|Hea], (Z.eqb_spec (b mod 2) 0) as [Heb|Heb].
  - rewrite (IH i' j') by (done || lia). cbn. f_equal.
    assert (Hg2 : Z.gcd a b = 2 * Z.gcd (a / 2) (b / 2)) by (rewrite <- Z.gcd_mul_mono_l_nonneg by lia; f_equal; lia). rewrite Hg2. unfold as_u128. rewrite Z.shiftl_mul_pow2, Z.mul_comm by lia. change (2 ^ 1) with 2. apply Z.mod_small. pose proof (Z.gcd_nonneg (a / 2) (b / 2)) as Hg.
    assert (Hle : Z.gcd (a / 2) (b / 2) <= a / 2) by (apply Z.divide_pos_le; [lia|apply Z.gcd_divide_l]).
    assert (2 ^ Z.of_nat (S i') <= 2 ^ 128) by (apply Z.pow_le_mono_r; lia). lia.
  - rewrite (IH i' (S j')) by (done || lia). f_equal. rewrite <- gcd_even_odd by lia. f_equal; lia.
  - rewrite (IH j' (S i')) by (done || lia). f_equal. rewrite (Z.gcd_comm a b), <- gcd_even_odd by lia. f_equal; lia.
  - assert (Hu : ∀ y x : Z, 0 <= x <= y → y < 2 ^ 128 → as_u128 (y - x) = y - x) by (intros; apply Z.mod_small; lia).
    assert (Hpi : 2 ^ Z.of_nat (S i') <= 2 ^ 128) by (apply Z.pow_le_mono_r; lia). assert (Hpj : 2 ^ Z.of_nat (S j') <= 2 ^ 128) by (apply Z.pow_le_mono_r; lia).
    destruct (Z.lt_ge_cases a b).
    + rewrite Z.min_l, Z.max_r, Hu by lia. assert (Hd : 0 <= (b - a) / 2 <= b / 2) by (split; [apply Z.div_pos; lia|apply Z.div_le_mono; lia]).
      rewrite (IH j' (S i')) by (done || lia). f_equal. apply gcd_odd_odd; lia.
    + rewrite Z.min_r, Z.max_l, Hu by lia. assert (Hd : 0 <= (a - b) / 2 <= a / 2) by (split; [apply Z.div_pos; lia|apply Z.div_le_mono; lia]).
      rewrite (IH i' (S j')) by (done || lia). f_equal. rewrite (Z.gcd_comm a b). apply gcd_odd_odd; lia.
Qed.

Lemma gcd_run a b : is_u128 a → is_u128 b → gcd a b = Some (Z.gcd a b).
Proof. unfold is_u, umax. intros Ha Hb. apply (gcd_loop_run 257 128 128); try done; cbn [Z.of_nat Pos.of_succ_nat]; lia. Qed.

(** ** 256 bits *)

Abbreviation W := (2 ^ 128).

Definition d_wf (d : Double128) : Prop := 0 <= d_high d < W ∧ 0 <= d_low d < W.
Definition d_value (d : Double128) : Z := d_high d * W + d_low d.

Lemma d_value_bound d : d_wf d → 0 <= d_value d < W * W.
Proof. intros [Hh Hl]. unfold d_value. nia. Qed.

Lemma d_add_run a b : d_wf a → d_wf b → d_value a + d_value b < W * W → d_wf (d_add a b) ∧ d_value (d_add a b) = d_value a + d_value b.
Proof.
  intros [Hah Hal] [Hbh Hbl]. unfold d_value, d_add, d_wf, wrapping_add. cbn [d_high d_low]. intros Hlt.
  set (c := if W <=? d_low a + d_low b then 1 else 0).
  assert (Hlow : (d_low a + d_low b) mod W = d_low a + d_low b - c * W).
  { unfold c. destruct (Z.leb_spec W (d_low a + d_low b)); [|rewrite Z.mod_small by lia; lia].
    symmetry. apply (Z.mod_unique _ _ 1); lia. }
  assert (Hc : 0 <= c <= 1) by (unfold c; destruct (W <=? _); lia). pose proof (Z.mod_pos_bound (d_low a + d_low b) W ltac:(lia)) as Hm. rewrite Hlow in *.
  assert (Hh : d_high a + d_high b + c < W) by nia. rewrite (Z.mod_small (d_high a + d_high b)), Z.mod_small by lia. split; [lia|]. lia.
Qed.

Lemma left_shift_64_run s : is_u128 s → d_wf (left_shift_64 s) ∧ d_value (left_shift_64 s) = s * 2 ^ 64.
Proof.
  unfold is_u, umax. intros Hs. unfold d_wf, d_value, left_shift_64, as_u128. cbn [d_high d_low]. rewrite Z.shiftr_div_pow2, Z.shiftl_mul_pow2 by lia.
  change W with (2 ^ 64 * 2 ^ 64). rewrite Z.mul_mod_distr_r by lia. pose proof (Z.div_mod s (2 ^ 64) ltac:(lia)) as Hd. pose proof (Z.mod_pos_bound s (2 ^ 64) ltac:(lia)) as Hm.
  assert (0 <= s / 2 ^ 64 < 2 ^ 64) by (split; [apply Z.div_pos; lia|apply Z.div_lt_upper_bound; lia]). lia.
Qed.

Lemma halves a : is_u128 a → ∃ l h, low_64 a = l ∧ high_64 a = h ∧ 0 <= l < 2 ^ 64 ∧ 0 <= h < 2 ^ 64 ∧ a = h * 2 ^ 64 + l.
Proof.
  unfold is_u, umax. intros Ha. exists (a mod 2 ^ 64), (a / 2 ^ 64). unfold low_64, high_64. replace (2 ^ 64 - 1) with (Z.ones 64) by done. rewrite Z.land_ones, Z.shiftr_div_pow2 by lia.
  split; [done|]. split; [done|]. pose proof (Z.div_mod a (2 ^ 64) ltac:(lia)) as Hd. split; [apply Z.mod_pos_bound; lia|].
  split; [split; [apply Z.div_pos; lia|apply Z.div_lt_upper_bound; lia]|lia].
Qed.

Lemma half_product x y : 0 <= x < 2 ^ 64 → 0 <= y < 2 ^ 64 → as_u128 (x * y) = x * y ∧ is_u128 (x * y).
Proof.
  intros Hx Hy. assert (H : 0 <= x * y <= (2 ^ 64 - 1) * (2 ^ 64 - 1)) by (split; [apply Z.mul_nonneg_nonneg; lia|apply Z.mul_le_mono_nonneg; lia]).
  unfold as_u128, is_u, umax. split; [apply Z.mod_small; lia|lia].
Qed.

Lemma product_of_run a b : is_u128 a → is_u128 b → d_wf (product_of a b) ∧ d_value (product_of a b) = a * b.
Proof.
  intros Ha Hb. unfold product_of. assert (Hab : a * b < W * W) by (unfold is_u, umax in *; nia).
  destruct (halves a Ha) as (al & ah & -> & -> & Hal & Hah & Hea), (halves b Hb) as (bl & bh & -> & -> & Hbl & Hbh & Heb).
  destruct (half_product al bl Hal Hbl) as [-> Hf], (half_product al bh Hal Hbh) as [-> Ho], (half_product ah bl Hah Hbl) as [-> Hi], (half_product ah bh Hah Hbh) as [-> Hl].
  destruct (left_shift_64_run _ Hi) as [Hiw Hiv], (left_shift_64_run _ Ho) as [How Hov].
  assert (Hfl : d_wf (mkDouble (ah * bh) (al * bl))) by (unfold d_wf, is_u, umax in *; cbn; lia).
  assert (Hprod : a * b = ah * bh * W + al * bl + ah * bl * 2 ^ 64 + al * bh * 2 ^ 64) by (rewrite Hea, Heb; ring).
  assert (Hov0 : 0 <= al * bh * 2 ^ 64) by (unfold is_u in Ho; lia).
  destruct (d_add_run _ _ Hfl Hiw) as [Hw1 Hv1]; [rewrite Hiv; unfold d_value; cbn [d_high d_low]; lia|].
  destruct (d_add_run _ _ Hw1 How) as [Hw2 Hv2]; rewrite Hv1, Hiv, Hov in *; unfold d_value at 1 in Hv1; unfold d_value; cbn [d_high d_low]; [lia|].
  split; [done|]. unfold d_value in Hv2. cbn [d_high d_low] in Hv2. lia.
Qed.

(** [2 ^ 128] by the divisor: the quotient, and a remainder below half. *)
Lemma div128_run b : 1 < b < W → is_u128 (div128 b) ∧ W = div128 b * b + mod128 b ∧ 0 <= mod128 b < 2 ^ 127 ∧ mod128 b < b.
Proof.
  intros Hb. unfold div128, mod128, neg128, wrapping_add, is_u, umax. replace (W - 1 - b + 1) with (W - b) by lia. rewrite (Z.mod_small (W - b)) by lia.
  pose proof (Z.div_mod (W - b) b ltac:(lia)) as Hd. pose proof (Z.mod_pos_bound (W - b) b ltac:(lia)) as Hm.
  assert (Hq : 0 <= (W - b) / b) by (apply Z.div_pos; lia). assert (Hq2 : (W - b) / b + 1 < W) by nia. rewrite (Z.mod_small ((W - b) / b + 1)) by lia.
  split; [lia|]. split; [lia|]. split; [|lia]. split; [lia|]. destruct (Z.le_gt_cases b (2 ^ 127)); [lia|]. nia.
Qed.

Section DivLoop.
Context (b q r : Z).
Hypothesis Hb : 1 < b < W.
Hypothesis Hq : is_u128 q.
Hypothesis Hqr : W = q * b + r.
Hypothesis Hr : 0 <= r < 2 ^ 127.

(** One turn keeps the dividend, and brings the high half down. *)
Lemma d_div_step v x self : d_wf x → d_wf self → v = d_value x * b + d_value self → v < W * W → d_high self ≠ 0 →
  let x' := d_add x (product_of (d_high self) q) in
  let self' := d_add (product_of (d_high self) r) (mkDouble 0 (d_low self)) in
  d_wf x' ∧ d_wf self' ∧ v = d_value x' * b + d_value self' ∧ d_value self' = d_high self * r + d_low self.
Proof.
  intros Hx Hs Hv Hlt Hne x' self'. pose proof (d_value_bound x Hx) as Hxb. destruct Hs as [Hsh Hsl]. unfold d_value at 2 in Hv.
  destruct (product_of_run (d_high self) q) as [Hpw Hpv]; [unfold is_u, umax; lia|done|]. destruct (product_of_run (d_high self) r) as [Hrw Hrv]; [unfold is_u, umax; lia|unfold is_u, umax; lia|].
  unfold is_u, umax in Hq. assert (Hhq : 0 <= d_high self * q) by (apply Z.mul_nonneg_nonneg; lia). assert (Hhr : 0 <= d_high self * r <= (W - 1) * 2 ^ 127) by (split; [apply Z.mul_nonneg_nonneg; lia|apply Z.mul_le_mono_nonneg; lia]).
  assert (Heq : v = (d_value x + d_high self * q) * b + (d_high self * r + d_low self)) by (rewrite Hv, Hqr; ring).
  destruct (d_add_run x (product_of (d_high self) q) Hx Hpw) as [Hxw Hxv]; [rewrite Hpv; nia|]. fold x' in Hxw, Hxv. rewrite Hpv in Hxv.
  destruct (d_add_run (product_of (d_high self) r) (mkDouble 0 (d_low self)) Hrw) as [Hsw Hsv]; [unfold d_wf; cbn; lia|rewrite Hrv; unfold d_value; cbn [d_high d_low]; lia|].
  fold self' in Hsw, Hsv. rewrite Hrv in Hsv. unfold d_value at 2 in Hsv. cbn [d_high d_low] in Hsv. split; [done|]. split; [done|]. rewrite Hxv, Hsv. split; [lia|lia].
Qed.

Lemma d_div_done fuel x self : d_high self = 0 → d_div_loop fuel q r x self = Some (x, self).
Proof. intros H0. destruct fuel; cbn [d_div_loop]; by rewrite (proj2 (Z.eqb_eq _ _) H0). Qed.

Lemma d_div_turn fuel x self : d_high self ≠ 0 →
  d_div_loop (S fuel) q r x self = d_div_loop fuel q r (d_add x (product_of (d_high self) q)) (d_add (product_of (d_high self) r) (mkDouble 0 (d_low self))).
Proof. intros Hne. cbn [d_div_loop]. by rewrite (proj2 (Z.eqb_neq _ _) Hne). Qed.

(** How a turn brings the high half down: from one to at most one with a lower low half, then to zero; from above, to a half. *)
Lemma high_of_one h l h' l' : 0 <= l < W → 0 <= h' → 0 <= l' → h = 1 → h' * W + l' = h * r + l → h' ≠ 0 → h' = 1 ∧ l' < r.
Proof. intros Hl Hh' Hl' -> He Hne. lia. Qed.

Lemma high_of_last h l h' l' : 0 <= h' → 0 <= l' → h = 1 → l < r → h' * W + l' = h * r + l → h' = 0.
Proof. intros Hh' Hl' -> Hlt He. lia. Qed.

Lemma high_halves k h l h' l' : 0 <= k → 0 <= h <= 2 ^ Z.succ k → 0 <= l < W → 0 <= l' → h' * W + l' = h * r + l → h' <= 2 ^ k.
Proof.
  intros Hk Hh Hl Hl' He. rewrite Z.pow_succ_r in Hh by done. assert (Hpos : 0 < 2 ^ k) by (apply Z.pow_pos_nonneg; lia). set (p := 2 ^ k) in *.
  assert (Hle : h * r <= 2 * p * (2 ^ 127 - 1)) by (apply Z.mul_le_mono_nonneg; lia). lia.
Qed.

(** The loop ends: the high half is halved until it is one, and then takes two more turns at most. *)
Lemma d_div_loop_run (k fuel : nat) v x self : d_wf x → d_wf self → v = d_value x * b + d_value self → v < W * W →
  (d_high self = 0 ∨ (d_high self = 1 ∧ d_low self < r ∧ (1 ≤ fuel)%nat) ∨ (d_high self <= 2 ^ Z.of_nat k ∧ (k + 2 ≤ fuel)%nat)) →
  ∃ x' self', d_div_loop fuel q r x self = Some (x', self') ∧ d_wf x' ∧ d_wf self' ∧ v = d_value x' * b + d_value self' ∧ d_high self' = 0.
Proof.
  revert k x self. induction fuel as [|fuel IH]; intros k x self Hx Hs Hv Hlt Hk.
  - assert (H0 : d_high self = 0) by (destruct Hk as [?|[(_ & _ & ?)|[_ ?]]]; [done|lia|lia]). rewrite d_div_done by exact H0. exists x, self. done.
  - destruct (Z.eq_dec (d_high self) 0) as [H0|H0]; [rewrite d_div_done by exact H0; exists x, self; done|]. rewrite d_div_turn by exact H0.
    destruct (d_div_step v x self Hx Hs Hv Hlt H0) as (Hx' & Hs' & Hv' & He). revert Hx' Hs' Hv' He. generalize (d_add x (product_of (d_high self) q)) as x'.
    generalize (d_add (product_of (d_high self) r) (mkDouble 0 (d_low self))) as self'. intros self' x' Hx' Hs' Hv' He.
    destruct Hs as [Hsh Hsl]. destruct (Hs') as [Hsh' Hsl']. unfold d_value at 1 in He.
    destruct Hk as [?|[(H1 & Hlow & _)|[Hhigh Hfuel]]]; [by destruct H0| |].
    + apply (IH 0%nat x' self' Hx' Hs' Hv' Hlt). left. exact (high_of_last _ _ _ _ (proj1 Hsh') (proj1 Hsl') H1 Hlow He).
    + destruct k as [|k].
      * assert (H1 : d_high self = 1) by (change (2 ^ Z.of_nat 0) with 1 in Hhigh; lia). apply (IH 0%nat x' self' Hx' Hs' Hv' Hlt).
        destruct (Z.eq_dec (d_high self') 0) as [|Hne]; [by left|right; left]. destruct (high_of_one _ _ _ _ Hsl (proj1 Hsh') (proj1 Hsl') H1 He Hne). split; [done|]. split; [done|lia].
      * apply (IH k x' self' Hx' Hs' Hv' Hlt). right. right. split; [|lia]. rewrite Nat2Z.inj_succ in Hhigh.
        refine (high_halves (Z.of_nat k) _ _ _ _ _ (conj (proj1 Hsh) Hhigh) Hsl (proj1 Hsl') He). lia.
Qed.
End DivLoop.

Lemma d_div_run v b : d_wf v → 0 < b < W → ∃ x, d_div v b = Some (x, d_value v mod b) ∧ d_wf x ∧ d_value x = d_value v / b.
Proof.
  intros Hv Hb. unfold d_div. pose proof (d_value_bound v Hv) as Hvb. destruct (Z.eqb_spec b 1) as [->|Hne]; [exists v; rewrite Z.mod_1_r, Z.div_1_r; done|].
  rewrite (proj2 (Z.eqb_neq b 0)) by lia. destruct (div128_run b) as (Hq & Hqr & Hr & Hrb); [lia|].
  destruct (d_div_loop_run b (div128 b) (mod128 b) ltac:(lia) Hq Hqr Hr 128 132 (d_value v) (mkDouble 0 0) v) as (x & self & -> & Hxw & [_ Hsl] & Hval & Hsh);
    [unfold d_wf; cbn; lia|done|unfold d_value at 2; cbn; lia|lia|right; right; split; [destruct Hv as [Hvh _]; change (Z.of_nat 128) with 128; lia|lia]|].
  cbn [mbind option_bind]. unfold d_value at 3 in Hval. rewrite Hsh in Hval. pose proof (Z.div_mod (d_low self) b ltac:(lia)) as Hd. pose proof (Z.mod_pos_bound (d_low self) b ltac:(lia)) as Hm.
  assert (Hlq : 0 <= d_low self / b <= d_low self) by (split; [apply Z.div_pos; lia|apply Z.div_le_upper_bound; nia]). pose proof (d_value_bound x Hxw) as Hxb.
  assert (Heq : d_value v = b * (d_value x + d_low self / b) + d_low self mod b) by lia.
  destruct (d_add_run x (mkDouble 0 (d_low self / b)) Hxw) as [Hw Hsum]; [unfold d_wf; cbn; lia|unfold d_value at 2; cbn [d_high d_low]; nia|].
  unfold d_value at 3 in Hsum. cbn [d_high d_low] in Hsum. eexists. rewrite <- (Z.mod_unique (d_value v) b (d_value x + d_low self / b) (d_low self mod b)) by lia. split; [done|]. split; [done|].
  rewrite Hsum. apply (Z.div_unique _ _ _ (d_low self mod b)); lia.
Qed.

(** ** Rounding *)

(** [v] is the quotient of [n] by [c], rounded. *)
Definition rounds (r : Rounding) (n c v : Z) : Prop :=
  match r with
  | Up => (v - 1) * c < n <= v * c
  | Down => v * c <= n < (v + 1) * c
  | NearestPrefUp => (2 * v - 1) * c <= 2 * n < (2 * v + 1) * c
  | NearestPrefDown => (2 * v - 1) * c < 2 * n <= (2 * v + 1) * c
  end.

Definition rounds_up (r : Rounding) (c rem : Z) : bool :=
  match r with Up => 0 <? rem | NearestPrefUp => c / 2 + c mod 2 <=? rem | NearestPrefDown => c / 2 <? rem | Down => false end.

Lemma rounds_quotient r n c : 0 < c → rounds r n c (n / c + (if rounds_up r c (n mod c) then 1 else 0)).
Proof.
  intros Hc. pose proof (Z.div_mod n c ltac:(lia)) as Hd. pose proof (Z.mod_pos_bound n c Hc) as Hm. pose proof (Z.div_mod c 2 ltac:(lia)) as Hd2. pose proof (Z.mod_pos_bound c 2 ltac:(lia)) as Hm2.
  unfold rounds, rounds_up. destruct r.
  - destruct (Z.ltb_spec 0 (n mod c)); lia.
  - lia.
  - destruct (Z.leb_spec (c / 2 + c mod 2) (n mod c)); lia.
  - destruct (Z.ltb_spec (c / 2) (n mod c)); lia.
Qed.

Lemma rounds_unique r n c v1 v2 : 0 < c → rounds r n c v1 → rounds r n c v2 → v1 = v2.
Proof.
  intros Hc. destruct (Z.lt_trichotomy v1 v2) as [Hlt|[?|Hgt]]; [|done|]; intros H1 H2; exfalso.
  - assert (Hs : (v1 + 1) * c <= v2 * c) by (apply Z.mul_le_mono_nonneg_r; lia). destruct r; cbn in *; lia.
  - assert (Hs : (v2 + 1) * c <= v1 * c) by (apply Z.mul_le_mono_nonneg_r; lia). destruct r; cbn in *; lia.
Qed.

Lemma mulrat_run a b c r : is_u128 a → is_u128 b → is_u128 c →
  multiply_by_rational_with_rounding a b c r =
  Some (if c =? 0 then None else let v := a * b / c + (if rounds_up r c ((a * b) mod c) then 1 else 0) in if v <? W then Some v else None).
Proof.
  intros Ha Hb Hc. unfold multiply_by_rational_with_rounding. destruct (Z.eqb_spec c 0) as [|Hne]; [done|]. unfold is_u, umax in Hc.
  destruct (product_of_run a b Ha Hb) as [Hpw Hpv]. destruct (d_div_run (product_of a b) c Hpw) as (x & -> & [Hxh Hxl] & Hxv); [lia|]. cbn [mbind option_bind]. rewrite Hpv in *. cbv zeta.
  set (up := rounds_up r c ((a * b) mod c)).
  assert (Hup : (match r with Up => 0 <? (a * b) mod c | NearestPrefUp => as_u128 (c / 2 + c mod 2) <=? (a * b) mod c | NearestPrefDown => c / 2 <? (a * b) mod c | Down => false end) = up).
  { unfold up, rounds_up, as_u128. destruct r; try done. rewrite Z.mod_small; [done|]. pose proof (Z.div_mod c 2 ltac:(lia)). pose proof (Z.mod_pos_bound c 2 ltac:(lia)). lia. }
  unfold try_into_u128. unfold d_value in Hxv. destruct (Z.eqb_spec (d_high x) 0) as [H0|H0].
  - rewrite Hup. rewrite H0 in Hxv. replace (d_low x) with (a * b / c) in * by lia. destruct up; [|by rewrite Z.add_0_r, (proj2 (Z.ltb_lt _ _)) by lia].
    unfold checked_add, umax. destruct (Z.leb_spec (a * b / c + 1) (W - 1)), (Z.ltb_spec (a * b / c + 1) W); done || lia.
  - rewrite (proj2 (Z.ltb_ge _ _)); [done|]. destruct up; lia.
Qed.

(** C26. Multiplying by a fraction is exact to the rounding: the result is the one number that is [a * b / c] rounded as asked for, computed through 256 bits, and there is none exactly when [c] is zero or the rounded
    number does not fit into 128 bits.  The loop of the division ends within the turns that it is given (132). *)
Theorem multiply_by_rational_exact (a b c : Z) (r : Rounding) : is_u128 a → is_u128 b → is_u128 c →
  ∃ o, multiply_by_rational_with_rounding a b c r = Some o ∧
    match o with
    | Some v => 0 < c ∧ is_u128 v ∧ rounds r (a * b) c v
    | None => c = 0 ∨ ∀ v, rounds r (a * b) c v → u128_max < v
    end.
Proof.
  intros Ha Hb Hc. rewrite mulrat_run by done. eexists. split; [done|]. unfold u128_max, is_u, umax in *. destruct (Z.eqb_spec c 0) as [|Hne]; [by left|]. cbv zeta.
  pose proof (rounds_quotient r (a * b) c ltac:(lia)) as Hq. set (v := a * b / c + _) in *. assert (Hv : 0 <= v).
  { unfold v. assert (0 <= a * b / c) by (apply Z.div_pos; nia). destruct (rounds_up _ _ _); lia. }
  destruct (Z.ltb_spec v W); [split; [lia|]; split; [lia|done]|]. right. intros v' Hv'. rewrite (rounds_unique r (a * b) c v' v) by (done || lia). lia.
Qed.

Lemma multiply_by_rational_witness : ∃ o, multiply_by_rational_with_rounding u128_max (u128_max - 1) u128_max NearestPrefDown = Some o ∧
  match o with
  | Some v => 0 < u128_max ∧ is_u128 v ∧ rounds NearestPrefDown (u128_max * (u128_max - 1)) u128_max v
  | None => u128_max = 0 ∨ ∀ v, rounds NearestPrefDown (u128_max * (u128_max - 1)) u128_max v → u128_max < v
  end.
Proof. apply (multiply_by_rational_exact u128_max (u128_max - 1) u128_max NearestPrefDown); unfold is_u, u128_max, umax; lia. Defined.

(** ** Square root *)

(** The bit that is tried with [j] turns to go. *)
Definition bit_at (j : nat) : Z := match j with O => 0 | S k => 4 ^ Z.of_nat k end.

Lemma bit_at_shift j : Z.shiftr (bit_at (S j)) 2 = bit_at j.
Proof.
  rewrite Z.shiftr_div_pow2 by lia. destruct j as [|j]; [done|]. cbn [bit_at]. rewrite Nat2Z.inj_succ, Z.pow_succ_r by lia. change (2 ^ 2) with 4. rewrite Z.mul_comm. apply Z.div_mul. lia.
Qed.

Lemma turn_fits p root : 0 < p → 0 <= root → root + 2 * p <= 2 ^ 64 → root * (2 * p) + p * p < W ∧ root * p + p * p < W.
Proof.
  intros Hp Hr Hs. assert (Hsq : (root + 2 * p) * (root + 2 * p) <= 2 ^ 64 * 2 ^ 64) by (apply Z.mul_le_mono_nonneg; lia).
  pose proof (Z.square_nonneg (root - 2 * p)) as Hd. pose proof (Z.mul_nonneg_nonneg root p ltac:(lia) ltac:(lia)). pose proof (Z.mul_pos_pos p p Hp Hp). pose proof (Z.square_nonneg root). lia.
Qed.

(** With [j] turns to go, [root] is the root down to the bit [j], the result is kept shifted by as much, and the number less the square of [root]. *)
Lemma sqrt_loop_run (j fuel : nat) (n root : Z) : (j ≤ fuel)%nat → 0 <= root → root + 2 ^ Z.of_nat j <= 2 ^ 64 → root * root <= n < (root + 2 ^ Z.of_nat j) * (root + 2 ^ Z.of_nat j) →
  sqrt_loop fuel (n - root * root) (root * 2 ^ Z.of_nat j) (bit_at j) = Some (Z.sqrt n).
Proof.
  revert fuel root. induction j as [|j IH]; intros fuel root Hf Hr Hs Hn.
  - change (2 ^ Z.of_nat 0) with 1 in *. assert (Hq : Z.sqrt n = root) by (apply Z.sqrt_unique; unfold Z.succ; lia). destruct fuel; cbn; by rewrite Z.mul_1_r, Hq.
  - destruct fuel as [|fuel]; [lia|]. rewrite Nat2Z.inj_succ, Z.pow_succ_r in * by lia. assert (Hp : 0 < 2 ^ Z.of_nat j) by (apply Z.pow_pos_nonneg; lia).
    assert (Hbit : bit_at (S j) = 2 ^ Z.of_nat j * 2 ^ Z.of_nat j) by (cbn [bit_at]; change 4 with (2 * 2); apply Z.pow_mul_l). cbn [sqrt_loop]. rewrite bit_at_shift, Hbit.
    specialize (IH fuel). set (p := 2 ^ Z.of_nat j) in *. destruct (turn_fits p root Hp Hr Hs) as [Hfit Hfit']. pose proof (Z.mul_nonneg_nonneg root p Hr ltac:(lia)) as Hrp. pose proof (Z.mul_pos_pos p p Hp Hp) as Hpp.
    rewrite (proj2 (Z.eqb_neq (p * p) 0)) by lia. rewrite shiftr_1. replace (root * (2 * p) / 2) with (root * p) by (apply Z.div_unique_exact; lia).
    unfold as_u128. rewrite (Z.mod_small (root * (2 * p) + p * p)) by lia. rewrite (Z.mod_small (root * p + p * p)) by lia.
    destruct (Z.leb_spec (root * (2 * p) + p * p) (n - root * root)).
    + replace (n - root * root - (root * (2 * p) + p * p)) with (n - (root + p) * (root + p)) by ring. replace (root * p + p * p) with ((root + p) * p) by ring. apply IH; lia.
    + apply IH; lia.
Qed.

Lemma shift_even m : 0 <= m < 128 → Z.land m (2 ^ 32 - 2) = 2 * (m / 2).
Proof.
  intros Hm. assert (Hall : forallb (λ i, Z.land (Z.of_nat i) (2 ^ 32 - 2) =? 2 * (Z.of_nat i / 2)) (seq 0 128) = true) by (vm_compute; done).
  rewrite forallb_forall in Hall. specialize (Hall (Z.to_nat m)). rewrite Z2Nat.id in Hall by lia. apply Z.eqb_eq, Hall, in_seq. lia.
Qed.

(** The square root is the integer square root: the loop ends within 64 turns, without an overflow, with the largest number whose square is not above [n]. *)
Lemma sqrt_run (n : Z) : is_u128 n → sqrt n = Some (Z.sqrt n).
Proof.
  unfold is_u, umax. intros Hn. unfold sqrt. destruct (Z.eqb_spec n 0) as [->|Hne]; [done|].
  pose proof (Z.log2_spec n ltac:(lia)) as Hlog. pose proof (Z.log2_nonneg n) as Hlog0. assert (Hlog1 : Z.log2 n < 128) by (apply Z.log2_lt_pow2; lia).
  unfold leading_zeros_128. cbn [Z.eqb]. rewrite (proj2 (Z.eqb_neq n 0) Hne). replace (128 - 1 - (127 - Z.log2 n)) with (Z.log2 n) by lia. rewrite shift_even by lia.
  set (m := Z.log2 n) in *. pose proof (Z.div_mod m 2 ltac:(lia)) as Hd. pose proof (Z.mod_pos_bound m 2 ltac:(lia)) as Hm. assert (Hk : 0 <= m / 2 < 64) by (split; [apply Z.div_pos; lia|apply Z.div_lt_upper_bound; lia]).
  assert (Hbit : as_u128 (Z.shiftl 1 (2 * (m / 2))) = bit_at (S (Z.to_nat (m / 2)))).
  { unfold as_u128. rewrite Z.shiftl_1_l, Z.mod_small; [cbn [bit_at]; rewrite Z2Nat.id by lia; change 4 with (2 ^ 2); by rewrite <- Z.pow_mul_r by lia|].
    split; [apply Z.pow_nonneg; lia|apply Z.pow_lt_mono_r; lia]. }
  rewrite Hbit. pose proof (sqrt_loop_run (S (Z.to_nat (m / 2))) 64 n 0 ltac:(lia) ltac:(lia)) as Hrun. rewrite Nat2Z.inj_succ, Z2Nat.id in Hrun by lia.
  rewrite !Z.mul_0_l, Z.sub_0_r, !Z.add_0_l in Hrun. apply Hrun; [apply Z.pow_le_mono_r; lia|]. rewrite <- Z.pow_add_r by lia. split; [lia|].
  apply Z.lt_le_trans with (2 ^ Z.succ m); [lia|]. apply Z.pow_le_mono_r; lia.
Qed.

(** ** Limbs *)

Lemma to_big_uint_value x : is_u128 x → value (to_big_uint x) = x ∧ big_wf (to_big_uint x).
Proof.
  unfold is_u, umax. intros Hx. unfold to_big_uint, split128, split_double. split; [rewrite lstrip_value|apply lstrip_wf].
  - rewrite !Z.shiftr_div_pow2 by (unfold SHIFT; lia). unfold as_single. change B with (2 ^ 32). change SHIFT with 32.
    set (h := x / 2 ^ 64 mod 2 ^ 64). set (l := x mod 2 ^ 64). cbn [Big.from_limbs]. unfold value, limbs. cbn [digits reverse rev_append rev]. cbv [reverse rev_append val].
    change B with (2 ^ 32). unfold h, l. change (2 ^ 64) with 18446744073709551616. change (2 ^ 32) with 4294967296. change W with 340282366920938463463374607431768211456 in Hx. Z.div_mod_to_equations. lia.
  - unfold big_wf. cbn [Big.from_limbs digits]. unfold limb, as_single, B, SHIFT. repeat constructor; apply Z.mod_pos_bound; lia.
Qed.
