(* ===== verification/Rational.v ===== *)
(** Rational numbers ([primitives/arithmetic/src/rational.rs]): a numerator and a denominator of 128 bits each, or two big integers.

    The outer [option] of a result is [None] when one of the loops underneath runs out of fuel or indexes out of range; the theorems show that this does not happen. *)

From S2P Require Import Prelude BigUint BigUintProps Arith128 Arith128Props.

Open Scope string_scope.
Open Scope Z_scope.

(** ** Fractions of big integers *)

Record RationalInfinite := mkInf { inf_n : BigUint; inf_d : BigUint }.

Module Infinite.

(** [Ord::max]: the second of two equal numbers. *)
Definition max (a b : BigUint) : BigUint := match Big.cmp a b with Gt => a | _ => b end.

Definition from (n d : BigUint) : RationalInfinite := mkInf n (max d Big.one).

Definition cmp (self other : RationalInfinite) : option comparison :=
  if Big.eq (inf_d self) (inf_d other) then Some (Big.cmp (inf_n self) (inf_n other))
  else if Big.is_zero (inf_d self) then Some Gt
  else if Big.is_zero (inf_d other) then Some Lt
  else
    l ← Big.mul (inf_n self) (inf_d other);
    r ← Big.mul (inf_n other) (inf_d self);
    Some (Big.cmp l r).

Definition eq (self other : RationalInfinite) : option bool := (λ c, match c with Eq => true | _ => false end) <$> cmp self other.

End Infinite.

(** ** Fractions of 128-bit numbers *)

Record Rational128 := mkRational { rat_n : Z; rat_d : Z }.

Module Rational.

Definition is_zero (x : Rational128) : bool := rat_n x =? 0.
Definition from (n d : Z) : Rational128 := mkRational n (d `max` 1).
Definition to_infinite (t : Rational128) : RationalInfinite := mkInf (to_big_uint (rat_n t)) (to_big_uint (rat_d t)).

Definition to_den (self : Rational128) (den : Z) : option (option Rational128) :=
  if den =? rat_d self then Some (Some self)
  else
    r ← multiply_by_rational_with_rounding (rat_n self) den (rat_d self) NearestPrefDown;
    Some (option_map (λ n, mkRational n den) r).

Definition lcm (self other : Rational128) : option (option Z) :=
  if rat_d self =? rat_d other then Some (Some (rat_d self))
  else
    g ← gcd (rat_d self) (rat_d other);
    multiply_by_rational_with_rounding (rat_d self) (rat_d other) g NearestPrefDown.

Definition lazy_saturating_add (self other : Rational128) : Rational128 :=
  if is_zero other then self else mkRational (saturating_add 128 (rat_n self) (rat_n other)) (rat_d self).

Definition lazy_saturating_sub (self other : Rational128) : Rational128 :=
  if is_zero other then self else mkRational (saturating_sub (rat_n self) (rat_n other)) (rat_d self).

(** A message, or the result. *)
Definition result (A : Type) : Type := string + A.

Definition failed_to_scale : string := "failed to scale to denominator".

Definition checked_add (self other : Rational128) : option (result Rational128) :=
  l ← lcm self other;
  match l with
  | None => Some (inl failed_to_scale)
  | Some lcm =>
      s ← to_den self lcm;
      match s with
      | None => Some (inl failed_to_scale)
      | Some self_scaled =>
          o ← to_den other lcm;
          match o with
          | None => Some (inl failed_to_scale)
          | Some other_scaled =>
              match Prelude.checked_add 128 (rat_n self_scaled) (rat_n other_scaled) with
              | None => Some (inl "overflow while adding numerators")
              | Some n => Some (inr (mkRational n (rat_d self_scaled)))
              end
          end
      end
  end.

Definition checked_sub (self other : Rational128) : option (result Rational128) :=
  l ← lcm self other;
  match l with
  | None => Some (inl failed_to_scale)
  | Some lcm =>
      s ← to_den self lcm;
      match s with
      | None => Some (inl failed_to_scale)
      | Some self_scaled =>
          o ← to_den other lcm;
          match o with
          | None => Some (inl failed_to_scale)
          | Some other_scaled =>
              match Prelude.checked_sub (rat_n self_scaled) (rat_n other_scaled) with
              | None => Some (inl "overflow while subtracting numerators")
              | Some n => Some (inr (mkRational n (rat_d self_scaled)))
              end
          end
      end
  end.

Definition cmp (self other : Rational128) : option comparison :=
  if rat_d self =? rat_d other then Some (rat_n self ?= rat_n other)
  else if rat_d self =? 0 then Some Gt
  else if rat_d other =? 0 then Some Lt
  else
    self_n ← Big.mul (to_big_uint (rat_n self)) (to_big_uint (rat_d other));
    other_n ← Big.mul (to_big_uint (rat_n other)) (to_big_uint (rat_d self));
    Some (Big.cmp self_n other_n).

Definition eq (self other : Rational128) : option bool :=
  if rat_d self =? rat_d other then Some (rat_n self =? rat_n other)
  else
    self_n ← Big.mul (to_big_uint (rat_n self)) (to_big_uint (rat_d other));
    other_n ← Big.mul (to_big_uint (rat_n other)) (to_big_uint (rat_d self));
    Some (Big.eq self_n other_n).

End Rational.

(** ** What they compute *)

(** A fraction of 128-bit numbers whose denominator is not zero, as [from] builds it. *)
Definition rat_wf (x : Rational128) : Prop := is_u128 (rat_n x) ∧ is_u128 (rat_d x) ∧ 0 < rat_d x.

Lemma from_wf n d : is_u128 n → is_u128 d → rat_wf (Rational.from n d).
Proof. unfold rat_wf, is_u, umax. cbn. lia. Qed.

(** *** Comparison *)

Lemma cross_product x y : is_u128 x → is_u128 y → ∃ w, Big.mul (to_big_uint x) (to_big_uint y) = Some w ∧ value w = x * y ∧ big_wf w.
Proof.
  intros Hx Hy. destruct (to_big_uint_value x Hx) as [Hvx Hwx], (to_big_uint_value y Hy) as [Hvy Hwy]. destruct (mul_run _ _ Hwx Hwy) as (w & Hr & Hv & Hw & _).
  exists w. by rewrite Hv, Hvx, Hvy.
Qed.

Lemma cmp_cross a b : rat_wf a → rat_wf b → Rational.cmp a b = Some (rat_n a * rat_d b ?= rat_n b * rat_d a).
Proof.
  intros (Han & Had & Ha) (Hbn & Hbd & Hb). unfold Rational.cmp. destruct (Z.eqb_spec (rat_d a) (rat_d b)) as [He|He]; [rewrite He; f_equal; by apply Zmult_compare_compat_r, Z.lt_gt|].
  rewrite (proj2 (Z.eqb_neq _ _)) by lia. rewrite (proj2 (Z.eqb_neq _ _)) by lia. destruct (cross_product _ _ Han Hbd) as (l & -> & Hl & Hlw), (cross_product _ _ Hbn Had) as (r & -> & Hr & Hrw).
  cbn [mbind option_bind]. by rewrite cmp_value, Hl, Hr.
Qed.

Lemma eq_cross a b : rat_wf a → rat_wf b → Rational.eq a b = Some (rat_n a * rat_d b =? rat_n b * rat_d a).
Proof.
  intros (Han & Had & Ha) (Hbn & Hbd & Hb). unfold Rational.eq. destruct (Z.eqb_spec (rat_d a) (rat_d b)) as [He|He].
  - rewrite He. f_equal. destruct (Z.eqb_spec (rat_n a) (rat_n b)) as [->|Hne]; [by rewrite Z.eqb_refl|]. symmetry. apply Z.eqb_neq. intros Hc%Z.mul_reg_r; [done|lia].
  - destruct (cross_product _ _ Han Hbd) as (l & -> & Hl & Hlw), (cross_product _ _ Hbn Had) as (r & -> & Hr & Hrw). cbn [mbind option_bind]. unfold Big.eq. rewrite cmp_value, Hl, Hr by done. f_equal.
    destruct (Z.compare_spec (rat_n a * rat_d b) (rat_n b * rat_d a)); symmetry; [by apply Z.eqb_eq|apply Z.eqb_neq; lia|apply Z.eqb_neq; lia].
Qed.

(** Comparing cross products is transitive. *)
Lemma cross_trans (a b c d e f : Z) : 0 < b → 0 < d → 0 < f → a * d <= c * b → c * f <= e * d → a * f <= e * b.
Proof.
  intros Hb Hd Hf H1 H2. apply (Zmult_le_reg_r _ _ d); [lia|]. assert (a * d * f <= c * b * f) by (apply Z.mul_le_mono_nonneg_r; lia). assert (c * f * b <= e * d * b) by (apply Z.mul_le_mono_nonneg_r; lia). lia.
Qed.

Lemma is_zero_value x : big_wf x → value x ≠ 0 → Big.is_zero x = false.
Proof.
  intros Hw Hv. destruct (Big.is_zero x) eqn:Hz; [|done]. destruct Hv. unfold Big.is_zero in Hz. destruct x as [l]. cbn [digits] in Hz.
  replace l with (replicate (length l) 0); [apply value_all_zeros|]. clear Hw. induction l as [|d l IH]; [done|]. cbn [forallb] in Hz. apply andb_prop in Hz as [<-%Z.eqb_eq Hl]. cbn [length replicate]. by rewrite IH.
Qed.

(** The fractions of big integers, with denominators that are not zero. *)
Definition inf_wf (x : RationalInfinite) : Prop := big_wf (inf_n x) ∧ big_wf (inf_d x) ∧ 0 < value (inf_d x).

Lemma inf_cmp_cross a b : inf_wf a → inf_wf b → Infinite.cmp a b = Some (value (inf_n a) * value (inf_d b) ?= value (inf_n b) * value (inf_d a)).
Proof.
  intros (Han & Had & Ha) (Hbn & Hbd & Hb). unfold Infinite.cmp, Big.eq. rewrite cmp_value by done. destruct (Z.compare_spec (value (inf_d a)) (value (inf_d b))) as [He|He|He].
  1: rewrite cmp_value, He by done; f_equal; by apply Zmult_compare_compat_r, Z.lt_gt.
  all: rewrite !is_zero_value by (done || lia); destruct (mul_run _ _ Han Hbd) as (l & -> & Hl & Hlw & _), (mul_run _ _ Hbn Had) as (r & -> & Hr & Hrw & _); cbn [mbind option_bind]; by rewrite cmp_value, Hl, Hr.
Qed.

Lemma to_infinite_wf a : rat_wf a → inf_wf (Rational.to_infinite a) ∧ value (inf_n (Rational.to_infinite a)) = rat_n a ∧ value (inf_d (Rational.to_infinite a)) = rat_d a.
Proof.
  intros (Hn & Hd & Hp). destruct (to_big_uint_value _ Hn) as [Hvn Hwn], (to_big_uint_value _ Hd) as [Hvd Hwd]. unfold inf_wf. cbn [Rational.to_infinite inf_n inf_d]. by rewrite Hvn, Hvd.
Qed.

(** Fractions are compared as numbers: by cross products that do not overflow, so that the order is reflexive on equal fractions, antisymmetric and transitive, the equality is the one of the order, and converting to big integers
    keeps the order. *)
Theorem rational_order (a b c : Rational128) : rat_wf a → rat_wf b → rat_wf c →
  Rational.cmp a b = Some (rat_n a * rat_d b ?= rat_n b * rat_d a) ∧
  (Rational.eq a b = Some true ↔ Rational.cmp a b = Some Eq) ∧
  Rational.cmp b a = CompOpp <$> Rational.cmp a b ∧
  (Rational.cmp a b ≠ Some Gt → Rational.cmp b c ≠ Some Gt → Rational.cmp a c ≠ Some Gt) ∧
  Infinite.cmp (Rational.to_infinite a) (Rational.to_infinite b) = Rational.cmp a b.
Proof.
  intros Ha Hb Hc. split; [by apply cmp_cross|]. rewrite !eq_cross, !cmp_cross by done. split; [|split; [|split]].
  - destruct (Z.eqb_spec (rat_n a * rat_d b) (rat_n b * rat_d a)) as [->|Hne]; [by rewrite Z.compare_refl|]. split; [done|]. by intros [= ?%Z.compare_eq].
  - cbn. f_equal. apply Z.compare_antisym.
  - intros H1 H2 [= H3]. destruct Ha as (_ & _ & Ha), Hb as (_ & _ & Hb), Hc as (_ & _ & Hc). assert (H1' : rat_n a * rat_d b <= rat_n b * rat_d a) by (intros He; apply H1; by rewrite He).
    assert (H2' : rat_n b * rat_d c <= rat_n c * rat_d b) by (intros He; apply H2; by rewrite He). by apply (cross_trans (rat_n a) (rat_d a) (rat_n b) (rat_d b) (rat_n c) (rat_d c)).
  - destruct (to_infinite_wf a Ha) as (Hwa & Hna & Hda), (to_infinite_wf b Hb) as (Hwb & Hnb & Hdb). by rewrite inf_cmp_cross, Hna, Hda, Hnb, Hdb.
Qed.

Lemma rational_order_witness :
  let a := mkRational 1 u128_max in let b := mkRational 1 (u128_max - 1) in
  Rational.cmp a b ≠ Some Gt → Rational.cmp b (Rational.from 1 0) ≠ Some Gt → Rational.cmp a (Rational.from 1 0) ≠ Some Gt.
Proof.
  intros a b. refine (proj1 (proj2 (proj2 (proj2 (rational_order a b (Rational.from 1 0) _ _ _))))); unfold rat_wf, is_u, a, b, Rational.from, u128_max, umax; cbn [rat_n rat_d]; lia.
Defined.

(** *** Sums *)

Definition fits (z : Z) : bool := z <=? u128_max.

Lemma mulrat_divides a b c : is_u128 a → is_u128 b → is_u128 c → 0 < c → (a * b) mod c = 0 →
  multiply_by_rational_with_rounding a b c NearestPrefDown = Some (if fits (a * b / c) then Some (a * b / c) else None).
Proof.
  intros Ha Hb Hc Hp Hm. rewrite mulrat_run by done. rewrite (proj2 (Z.eqb_neq c 0)) by lia. cbv zeta. rewrite Hm. cbn [rounds_up]. rewrite (proj2 (Z.ltb_ge (c / 2) 0)) by (apply Z.div_pos; lia).
  rewrite Z.add_0_r. unfold fits, u128_max, umax. destruct (Z.leb_spec (a * b / c) (W - 1)), (Z.ltb_spec (a * b / c) W); done || lia.
Qed.

Lemma lcm_run a b : rat_wf a → rat_wf b → Rational.lcm a b = Some (if fits (Z.lcm (rat_d a) (rat_d b)) then Some (Z.lcm (rat_d a) (rat_d b)) else None).
Proof.
  intros (Han & Had & Ha) (Hbn & Hbd & Hb). unfold Rational.lcm. unfold is_u in Had, Hbd. destruct (Z.eqb_spec (rat_d a) (rat_d b)) as [He|He].
  - rewrite <- He, Z.lcm_diag, Z.abs_eq by lia. unfold fits. by rewrite (proj2 (Z.leb_le _ _)) by (unfold u128_max; lia).
  - rewrite gcd_run by done. cbn [mbind option_bind]. set (g := Z.gcd (rat_d a) (rat_d b)). assert (Hg : 0 < g <= rat_d a).
    { pose proof (Z.gcd_nonneg (rat_d a) (rat_d b)) as H0. assert (g ≠ 0) by (intros [? ?]%Z.gcd_eq_0; lia). split; [lia|]. apply Z.divide_pos_le; [lia|apply Z.gcd_divide_l]. }
    assert (Hl : rat_d a * rat_d b / g = Z.lcm (rat_d a) (rat_d b)).
    { unfold Z.lcm. fold g. rewrite Z.divide_div_mul_exact by (lia || apply Z.gcd_divide_r). rewrite Z.abs_eq; [done|]. apply Z.mul_nonneg_nonneg; [lia|apply Z.div_pos; lia]. }
    rewrite mulrat_divides; try done; [by rewrite Hl|unfold is_u in *; lia|lia|]. apply Z.mod_divide; [lia|]. apply Z.divide_mul_l, Z.gcd_divide_l.
Qed.

Lemma to_den_run x den : rat_wf x → is_u128 den → (rat_d x | den) →
  Rational.to_den x den = Some (let n := rat_n x * (den / rat_d x) in if fits n then Some (mkRational n den) else None).
Proof.
  intros (Hn & Hd & Hp) Hden Hdiv. unfold Rational.to_den. unfold is_u in Hn. destruct (Z.eqb_spec den (rat_d x)) as [->|He].
  - rewrite Z.div_same, Z.mul_1_r by lia. cbv zeta. unfold fits. rewrite (proj2 (Z.leb_le _ _)) by (unfold u128_max; lia). by destruct x.
  - rewrite mulrat_divides; try done; [|apply Z.mod_divide; [lia|by apply Z.divide_mul_r]]. cbn [mbind option_bind]. rewrite Z.divide_div_mul_exact by (done || lia). cbv zeta. by destruct (fits _).
Qed.

(** The numerator of [x] over the common denominator. *)
Definition scaled (x : Rational128) (l : Z) : Z := rat_n x * (l / rat_d x).

Lemma scaled_value x l : 0 < rat_d x → (rat_d x | l) → scaled x l * rat_d x = rat_n x * l.
Proof. intros Hp [k ->]. unfold scaled. rewrite Z.div_mul by lia. ring. Qed.

Lemma scaled_nonneg x l : rat_wf x → 0 <= l → 0 <= scaled x l.
Proof. intros ([Hn _] & _ & Hp) Hl. apply Z.mul_nonneg_nonneg; [done|]. apply Z.div_pos; lia. Qed.

Lemma lcm_u128 a b : rat_wf a → rat_wf b → fits (Z.lcm (rat_d a) (rat_d b)) = true → is_u128 (Z.lcm (rat_d a) (rat_d b)).
Proof. intros _ _ Hf%Z.leb_le. split; [apply Z.lcm_nonneg|done]. Qed.

(** Sums and differences of fractions are exact or an error: the result has the least common multiple of the denominators as its denominator and is the sum or difference as a number; there is an error exactly when the common
    denominator, a scaled numerator or the numerator of the sum does not fit into 128 bits, or the difference is negative. *)
Theorem rational_sum_exact (a b : Rational128) : rat_wf a → rat_wf b →
  let l := Z.lcm (rat_d a) (rat_d b) in
  let scales := fits l && fits (scaled a l) && fits (scaled b l) in
  Rational.checked_add a b = Some (
    if negb scales then inl "failed to scale to denominator"
    else if fits (scaled a l + scaled b l) then inr (mkRational (scaled a l + scaled b l) l)
    else inl "overflow while adding numerators") ∧
  Rational.checked_sub a b = Some (
    if negb scales then inl "failed to scale to denominator"
    else if scaled b l <=? scaled a l then inr (mkRational (scaled a l - scaled b l) l)
    else inl "overflow while subtracting numerators") ∧
  (scaled a l + scaled b l) * (rat_d a * rat_d b) = (rat_n a * rat_d b + rat_n b * rat_d a) * l ∧
  (scaled a l - scaled b l) * (rat_d a * rat_d b) = (rat_n a * rat_d b - rat_n b * rat_d a) * l.
Proof.
  intros Ha Hb l scales. pose proof (Z.divide_lcm_l (rat_d a) (rat_d b)) as Hla. pose proof (Z.divide_lcm_r (rat_d a) (rat_d b)) as Hlb. fold l in Hla, Hlb.
  assert (Hva : scaled a l * rat_d a = rat_n a * l) by (apply scaled_value; [apply Ha|done]). assert (Hvb : scaled b l * rat_d b = rat_n b * l) by (apply scaled_value; [apply Hb|done]).
  split; [|split; [|split]].
  3: replace ((scaled a l + scaled b l) * (rat_d a * rat_d b)) with (scaled a l * rat_d a * rat_d b + scaled b l * rat_d b * rat_d a) by ring; rewrite Hva, Hvb; ring.
  3: replace ((scaled a l - scaled b l) * (rat_d a * rat_d b)) with (scaled a l * rat_d a * rat_d b - scaled b l * rat_d b * rat_d a) by ring; rewrite Hva, Hvb; ring.
  all: unfold scales, Rational.checked_add, Rational.checked_sub; rewrite lcm_run by done; fold l; destruct (fits l) eqn:Hfl; [|done]; cbn [mbind option_bind]; apply lcm_u128 in Hfl; [|done..].
  all: rewrite (to_den_run a) by done; cbv zeta; fold (scaled a l); destruct (fits (scaled a l)); [|done]; cbn [mbind option_bind].
  all: rewrite (to_den_run b) by done; cbv zeta; fold (scaled b l); destruct (fits (scaled b l)); [|done]; cbn [mbind option_bind rat_n rat_d andb negb].
  - unfold Prelude.checked_add, fits, u128_max. by destruct (_ <=? _).
  - unfold Prelude.checked_sub. by destruct (_ <=? _).
Qed.

Lemma rational_sum_witness : Rational.checked_add (mkRational 1 6) (mkRational 3 4) = Some (inr (mkRational 11 12)).
Proof.
  refine (eq_trans (proj1 (rational_sum_exact (mkRational 1 6) (mkRational 3 4) _ _)) _); [unfold rat_wf, is_u, umax; cbn; lia|unfold rat_wf, is_u, umax; cbn; lia|]. done.
Defined.

(** Scaling to a denominator that is not a multiple rounds: a third over two is a half. *)
Example to_den_rounds : Rational.to_den (mkRational 1 3) 2 = Some (Some (mkRational 1 2)) ∧ Rational.eq (mkRational 1 3) (mkRational 1 2) = Some false.
Proof. split; vm_compute; done. Qed.

(** With a denominator of zero the equality is not the one of the order. *)
Example zero_denominator : Rational.eq (mkRational 0 0) (mkRational 5 7) = Some true ∧ Rational.cmp (mkRational 0 0) (mkRational 5 7) = Some Gt.
Proof. split; vm_compute; done. Qed.

(** Saturating sums of fractions over one denominator stay over it and are clamped at the largest numerator, or at zero. *)
Lemma lazy_saturating a b : rat_wf a → rat_wf b → rat_d a = rat_d b →
  Rational.lazy_saturating_add a b = mkRational ((rat_n a + rat_n b) `min` u128_max) (rat_d a) ∧
  Rational.lazy_saturating_sub a b = mkRational ((rat_n a - rat_n b) `max` 0) (rat_d a).
Proof.
  intros ([Han0 Han1] & _ & _) ([Hbn0 _] & _ & _) Hd. unfold Rational.lazy_saturating_add, Rational.lazy_saturating_sub, Rational.is_zero. destruct a as [n d], b as [m d']. cbn [rat_n rat_d] in *.
  destruct (Z.eqb_spec m 0) as [->|]; [|done]. unfold u128_max. split; f_equal; lia.
Qed.
