(* ===== verification/Normalize.v ===== *)
(** Normalisation of a vector of unsigned numbers to a given sum, and comparison with a threshold ([primitives/arithmetic/src/lib.rs]).

    The numbers are of a type of [w] bits.  The theorems show that normalising reaches the sum: the loops end, nothing overflows, and the elements move in one direction only.
    [None] stands for a panic or for running out of fuel in one of the two [while] loops, which take one unit of fuel for each turn; [normalize_spec] gives an amount that is enough. *)

From S2P Require Import Prelude.

Open Scope string_scope.
Open Scope Z_scope.

(** ** Sorting *)

(** [sort_by_key], a stable sort. *)
Fixpoint insert_by_key {A} (key : A → Z) (x : A) (l : list A) : list A :=
  match l with
  | [] => [x]
  | y :: l' => if key x <=? key y then x :: l else y :: insert_by_key key x l'
  end.

Definition sort_by_key {A} (key : A → Z) (l : list A) : list A := foldr (insert_by_key key) [] l.

(** ** Normalisation *)

Definition enumerate (input : list Z) : list (nat * Z) := zip (seq 0 (length input)) input.

(** [for _ in 0..n] *)
Fixpoint times {S} (n : nat) (f : S → option S) (s : S) : option S :=
  match n with O => Some s | S n => s ← f s; times n f s end.

Section Normalize.
Context (w : Z).

(** [sum.checked_add(t)] over the input. *)
Fixpoint checked_sum (sum : Z) (input : list Z) : option Z :=
  match input with [] => Some sum | t :: input => sum ← checked_add w sum t; checked_sum sum input end.

(** Adding to the element at the index, which moves on when the element has reached the threshold. *)
Definition bump_at (threshold step : Z) (count : nat) (s : list (nat * Z) * nat) : option (list (nat * Z) * nat) :=
  let '(output_with_idx, min_index) := s in
  '(k, v) ← output_with_idx !! min_index;
  v ← checked_add w v step;
  Some (<[min_index := (k, v)]> output_with_idx, if threshold <=? v then ((min_index + 1) mod count)%nat else min_index).

Fixpoint bump_rest (fuel : nat) (threshold : Z) (count : nat) (leftover : Z) (s : list (nat * Z) * nat) : option (list (nat * Z) * nat) :=
  if leftover =? 0 then Some s
  else match fuel with O => None | S fuel => s ← bump_at threshold 1 count s; bump_rest fuel threshold count (leftover - 1) s end.

(** [max_index.checked_sub(1).unwrap_or(count - 1)] *)
Definition prev (count max_index : nat) : nat := match max_index with O => (count - 1)%nat | S i => i end.

(** Taking a share from the element at the index; what the element does not have is added to the leftover. *)
Definition cut_at (threshold per_round : Z) (count : nat) (s : list (nat * Z) * nat * Z) : option (list (nat * Z) * nat * Z) :=
  let '(output_with_idx, max_index, leftover) := s in
  '(k, v) ← output_with_idx !! max_index;
  let '(v, leftover) :=
    match checked_sub v per_round with
    | Some v => (v, leftover)
    | None => (saturating_sub v per_round, wrapping_add w leftover (per_round - v))
    end in
  Some (<[max_index := (k, v)]> output_with_idx, if v <=? threshold then prev count max_index else max_index, leftover).

Fixpoint cut_rest (fuel : nat) (threshold : Z) (count : nat) (s : list (nat * Z) * nat * Z) : option (list (nat * Z)) :=
  let '(output_with_idx, max_index, leftover) := s in
  if leftover =? 0 then Some output_with_idx
  else
    match fuel with
    | O => None
    | S fuel =>
        '(k, v) ← output_with_idx !! max_index;
        match checked_sub v 1 with
        | Some next => cut_rest fuel threshold count (<[max_index := (k, next)]> output_with_idx, if next <=? threshold then prev count max_index else max_index, leftover - 1)
        | None => cut_rest fuel threshold count (output_with_idx, prev count max_index, leftover)
        end
    end.

Definition normalize (fuel : nat) (input : list Z) (targeted_sum : Z) : option (string + list Z) :=
  match checked_sum 0 input with
  | None => Some (inl "sum of input cannot fit in `T`")
  | Some sum =>
      let count := length input in
      let count_t := Z.of_nat count in
      if umax w <? count_t then Some (inl "length of `inputs` cannot fit in `T`")
      else if (count =? 0)%nat then Some (inr [])
      else
        let diff := targeted_sum `max` sum - targeted_sum `min` sum in
        if diff =? 0 then Some (inr input)
        else
          let per_round := diff / count_t in
          let leftover := diff mod count_t in
          let output_with_idx := sort_by_key snd (enumerate input) in
          output_with_idx ←
            (if sum <? targeted_sum then
               let threshold := targeted_sum / count_t in
               s ← (if per_round =? 0 then Some (output_with_idx, 0%nat) else times count (bump_at threshold per_round count) (output_with_idx, 0%nat));
               fst <$> bump_rest fuel threshold count leftover s
             else
               '(_, threshold) ← head output_with_idx;
               s ← (if per_round =? 0 then Some (output_with_idx, (count - 1)%nat, leftover)
                    else times count (cut_at threshold per_round count) (output_with_idx, (count - 1)%nat, leftover));
               cut_rest fuel threshold count s);
          Some (inr (snd <$> sort_by_key (λ x, Z.of_nat (fst x)) output_with_idx))
  end.

(** ** Comparison with a threshold *)

Definition tcmp (self other threshold : Z) : comparison :=
  if threshold =? 0 then self ?= other
  else
    let upper_bound := saturating_add w other threshold in
    let lower_bound := saturating_sub other threshold in
    if upper_bound <=? lower_bound then self ?= other
    else
      match self ?= lower_bound, self ?= upper_bound with
      | Gt, Gt => Gt
      | Lt, Lt => Lt
      | _, _ => Eq
      end.
End Normalize.

(** The values of the unit tests: raising, sharing what an element does not have, and lowering, with the order of equal elements mattering. *)
Example normalize_tests :
  normalize 8 100 [8; 9; 7; 10] 40 = Some (inr [10; 10; 10; 10]) ∧
  normalize 32 100 [7; 8; 7; 10] 40 = Some (inr [11; 8; 11; 10]) ∧
  normalize 32 100 [8; 11; 9; 10] 40 = Some (inr [10; 11; 9; 10]) ∧
  normalize 8 100 [1; 100; 100] 10 = Some (inr [1; 9; 0]) ∧
  normalize 8 100 [1; 8; 9] 1 = Some (inr [0; 1; 0]) ∧
  normalize 32 100 [13; 13; 12; 10] 40 = Some (inr [9; 9; 12; 10]) ∧
  normalize 8 0 (replicate 256 1) 10 = Some (inl "sum of input cannot fit in `T`").
Proof. repeat split. Qed.

Example tcmp_tests : tcmp 32 127 115 12 = Eq ∧ tcmp 32 128 115 12 = Gt ∧ tcmp 32 103 115 12 = Eq ∧ tcmp 32 102 115 12 = Lt.
Proof. repeat split. Qed.

(** ** Sorting keeps the elements *)

Section Sort.
Context {A : Type} (key : A → Z).

Lemma insert_by_key_perm x l : insert_by_key key x l ≡ₚ x :: l.
Proof. induction l as [|y l IH]; [done|]. cbn [insert_by_key]. destruct (_ <=? _); [done|]. rewrite IH. by rewrite Permutation_swap. Qed.

Lemma sort_by_key_perm l : sort_by_key key l ≡ₚ l.
Proof. induction l as [|x l IH]; [done|]. cbn. by rewrite insert_by_key_perm, IH. Qed.

Lemma insert_by_key_sorted x l : StronglySorted (λ a b, key a <= key b) l → StronglySorted (λ a b, key a <= key b) (insert_by_key key x l).
Proof.
  induction 1 as [|y l Hl IH Hy]; cbn [insert_by_key]; [by repeat constructor|]. destruct (Z.leb_spec (key x) (key y)).
  - constructor; [by constructor|]. constructor; [done|]. eapply Forall_impl; [exact Hy|]. intros z. cbn. lia.
  - constructor; [done|]. rewrite insert_by_key_perm. constructor; [lia|done].
Qed.

Lemma sort_by_key_sorted l : StronglySorted (λ a b, key a <= key b) (sort_by_key key l).
Proof. induction l; cbn; [constructor|by apply insert_by_key_sorted]. Qed.

(** A list with the keys in strictly increasing order is what sorting any order of it gives. *)
Lemma sort_by_key_restores l l' : StronglySorted (λ a b, key a < key b) l → l' ≡ₚ l → sort_by_key key l' = l.
Proof.
  intros Hl Hp. apply (StronglySorted_unique_strong (λ a b, key a <= key b)); [|apply sort_by_key_sorted| |by rewrite sort_by_key_perm].
  - intros x y Hx Hy Hxy Hyx. rewrite sort_by_key_perm, Hp in Hx. clear Hp l'. assert (He : key x = key y) by lia. clear Hxy Hyx.
    induction Hl as [|z l Hl IH Hz]; [by apply not_elem_of_nil in Hx|]. rewrite Forall_forall in Hz. apply elem_of_cons in Hx as [->|Hx], Hy as [->|Hy]; try done.
    + specialize (Hz _ Hy). cbn in Hz. lia.
    + specialize (Hz _ Hx). cbn in Hz. lia.
    + auto.
  - clear Hp. induction Hl as [|z l Hl IH Hz]; constructor; [done|]. eapply Forall_impl; [exact Hz|]. cbn. lia.
Qed.
End Sort.

(** Sorting two lists with the same keys does the same to both. *)
Lemma sort_by_key_Forall2 {A} (key : A → Z) (P : A → A → Prop) l l' : (∀ a b, P a b → key a = key b) → Forall2 P l l' → Forall2 P (sort_by_key key l) (sort_by_key key l').
Proof.
  intros HP. induction 1 as [|x y l l' Hxy Hl IH]; [constructor|]. cbn. fold (sort_by_key key l) (sort_by_key key l'). revert IH. generalize (sort_by_key key l) (sort_by_key key l'). clear Hl l l'.
  intros l l'. induction 1 as [|a b l l' Hab Hl IH]; cbn [insert_by_key]; [by repeat constructor|]. rewrite (HP _ _ Hxy), (HP _ _ Hab). destruct (_ <=? _); repeat constructor; done.
Qed.

Lemma enumerate_fst input : fst <$> enumerate input = seq 0 (length input).
Proof. apply fst_zip. rewrite length_seq. done. Qed.

Lemma enumerate_snd input : snd <$> enumerate input = input.
Proof. apply snd_zip. rewrite length_seq. done. Qed.

Lemma sorted_by_fst (l : list (nat * Z)) n k : fst <$> l = seq n k → StronglySorted (λ a b, Z.of_nat (fst a) < Z.of_nat (fst b)) l.
Proof.
  revert n k. induction l as [|[i x] l IH]; intros n [|k] Hl; try done; [constructor|]. cbn in Hl. injection Hl as -> Hl. constructor; [eapply IH; exact Hl|].
  apply Forall_forall. intros [j y] Hj. cbn. assert (Hin : j ∈ seq (S n) k) by (rewrite <- Hl; apply list_elem_of_fmap; by exists (j, y)). apply elem_of_seq in Hin. lia.
Qed.

Lemma sorted_back (input : list Z) : sort_by_key (λ x, Z.of_nat (fst x)) (sort_by_key snd (enumerate input)) = enumerate input.
Proof. apply sort_by_key_restores; [eapply sorted_by_fst, enumerate_fst|apply sort_by_key_perm]. Qed.

(** ** Sums *)

Definition total (l : list Z) : Z := foldr Z.add 0 l.
Definition sum_of (out : list (nat * Z)) : Z := total (snd <$> out).

Global Instance total_perm : Proper ((≡ₚ) ==> eq) total.
Proof. intros l l'. unfold total. induction 1; cbn [foldr]; lia. Qed.

Lemma total_nonneg l : Forall (λ x, 0 <= x) l → 0 <= total l.
Proof. unfold total. induction 1; cbn [foldr]; lia. Qed.

Lemma total_elem l i x : Forall (λ x, 0 <= x) l → l !! i = Some x → x <= total l.
Proof.
  intros Hl. revert i. induction Hl as [|y l Hy Hl IH]; intros [|i] Hi; try done; change (total (y :: l)) with (y + total l); pose proof (total_nonneg l Hl).
  - injection Hi as ->. lia.
  - specialize (IH i Hi). lia.
Qed.

Lemma sum_of_insert out i k v v' : out !! i = Some (k, v) → sum_of (<[i := (k, v')]> out) = sum_of out - v + v'.
Proof.
  revert i. induction out as [|[j x] out IH]; intros [|i] Hi; try done.
  - injection Hi as -> ->. change (v' + sum_of out = v + sum_of out - v + v'). lia.
  - change (x + sum_of (<[i := (k, v')]> out) = x + sum_of out - v + v'). rewrite (IH i Hi). lia.
Qed.

Lemma checked_sum_run w s input : Forall (λ x, 0 <= x) input → s <= umax w → checked_sum w s input = if s + total input <=? umax w then Some (s + total input) else None.
Proof.
  intros Hl. revert s. induction Hl as [|x l Hx Hl IH]; intros s Hs; cbn [checked_sum total foldr]; [rewrite Z.add_0_r, (proj2 (Z.leb_le _ _)) by done; done|].
  fold (total l). pose proof (total_nonneg l Hl). unfold checked_add. destruct (Z.leb_spec (s + x) (umax w)); cbn [mbind option_bind].
  - rewrite IH by done. by rewrite Z.add_assoc.
  - by rewrite (proj2 (Z.leb_gt _ _)) by lia.
Qed.

(** ** The elements move in one direction *)

(** The indices are kept and each element is in the relation to what it was. *)
Definition moved (R : Z → Z → Prop) : list (nat * Z) → list (nat * Z) → Prop := Forall2 (λ a b, fst a = fst b ∧ R (snd a) (snd b)).
Definition up (x y : Z) : Prop := 0 <= x <= y.
Definition down (x y : Z) : Prop := 0 <= y <= x.

Lemma moved_refl R init : Forall (λ x, R x x) (snd <$> init) → moved R init init.
Proof. intros HR%Forall_fmap. apply Forall2_same_length_lookup_2; [done|]. intros i x y Hx Hy. simplify_eq. split; [done|]. exact (Forall_lookup_1 _ _ _ _ HR Hx). Qed.

Lemma moved_insert R init out i k v v' : moved R init out → out !! i = Some (k, v) → (∀ x, R x v → R x v') → moved R init (<[i := (k, v')]> out).
Proof.
  intros Hm Hi Hv. revert i Hi. induction Hm as [|[j x] [j' y] init out [Hj Hx] Hm IH]; intros [|i] Hi; try done; cbn in *; [simplify_eq; constructor; [cbn; auto|done]|constructor; [done|by apply IH]].
Qed.

Lemma moved_nonneg R init out : (∀ x y, R x y → 0 <= y) → moved R init out → Forall (λ x, 0 <= x) (snd <$> out).
Proof. intros HR Hm. induction Hm as [|a b init out [_ H] Hm IH]; constructor; eauto. Qed.

Lemma moved_final R input out : moved R (sort_by_key snd (enumerate input)) out →
  Forall2 R input (snd <$> sort_by_key (λ x, Z.of_nat (fst x)) out) ∧ total (snd <$> sort_by_key (λ x, Z.of_nat (fst x)) out) = sum_of out.
Proof.
  intros Hm. split; [|unfold sum_of; by rewrite sort_by_key_perm]. apply (sort_by_key_Forall2 (λ x, Z.of_nat (fst x))) in Hm; [|by intros a b [-> _]].
  rewrite sorted_back in Hm. rewrite <- (enumerate_snd input) at 1. apply Forall2_fmap. eapply Forall2_impl; [exact Hm|]. by intros a b [_ H].
Qed.

(** ** Raising *)

Section Loops.
Context (w : Z) (init : list (nat * Z)) (count : nat) (threshold : Z).
Hypothesis Hcount : length init = count.
Hypothesis Hpos : (0 < count)%nat.

Lemma moved_at R out i : moved R init out → (i < count)%nat → ∃ k v, out !! i = Some (k, v).
Proof. intros Hm Hi. destruct (lookup_lt_is_Some_2 out i) as [[k v] Hv]; [|by exists k, v]. by rewrite <- (Forall2_length _ _ _ Hm), Hcount. Qed.

Lemma bump_at_run step out i : moved up init out → (i < count)%nat → 0 <= step → sum_of out + step <= umax w →
  ∃ out' i', bump_at w threshold step count (out, i) = Some (out', i') ∧ moved up init out' ∧ (i' < count)%nat ∧ sum_of out' = sum_of out + step.
Proof.
  intros Hm Hi Hs Hu. destruct (moved_at _ _ _ Hm Hi) as (k & v & Hv). unfold bump_at. rewrite Hv. cbn [mbind option_bind].
  assert (Hle : v <= sum_of out) by (apply (total_elem _ i); [apply (moved_nonneg up init); [unfold up; lia|done]|by rewrite list_lookup_fmap, Hv]).
  unfold checked_add. rewrite (proj2 (Z.leb_le _ _)) by lia. cbn [mbind option_bind]. eexists _, _. split; [done|]. split; [eapply moved_insert; [done..|unfold up; lia]|].
  split; [destruct (_ <=? _); [apply Nat.mod_upper_bound; lia|done]|]. rewrite (sum_of_insert _ _ _ _ _ Hv). lia.
Qed.

Lemma bump_times n step out i : moved up init out → (i < count)%nat → 0 <= step → sum_of out + Z.of_nat n * step <= umax w →
  ∃ out' i', times n (bump_at w threshold step count) (out, i) = Some (out', i') ∧ moved up init out' ∧ (i' < count)%nat ∧ sum_of out' = sum_of out + Z.of_nat n * step.
Proof.
  revert out i. induction n as [|n IH]; intros out i Hm Hi Hs Hu; [exists out, i; cbn [times]; split_and!; try done; lia|]. rewrite Nat2Z.inj_succ in *.
  pose proof (Z.mul_nonneg_nonneg (Z.of_nat n) step ltac:(lia) Hs). cbn [times]. destruct (bump_at_run step out i) as (out1 & i1 & -> & Hm1 & Hi1 & Hs1); [done..|lia|]. cbn [mbind option_bind].
  destruct (IH out1 i1) as (out2 & i2 & -> & Hm2 & Hi2 & Hs2); [done..|lia|]. exists out2, i2. split_and!; try done. lia.
Qed.

Lemma bump_rest_run fuel leftover out i : moved up init out → (i < count)%nat → 0 <= leftover → sum_of out + leftover <= umax w → (Z.to_nat leftover ≤ fuel)%nat →
  ∃ out' i', bump_rest w fuel threshold count leftover (out, i) = Some (out', i') ∧ moved up init out' ∧ sum_of out' = sum_of out + leftover.
Proof.
  revert leftover out i. induction fuel as [|fuel IH]; intros leftover out i Hm Hi Hl Hu Hf; cbn [bump_rest]; (destruct (Z.eqb_spec leftover 0) as [->|Hne]; [exists out, i; split_and!; try done; lia|]); [lia|].
  destruct (bump_at_run 1 out i) as (out1 & i1 & -> & Hm1 & Hi1 & Hs1); [done..|lia|lia|]. cbn [mbind option_bind].
  destruct (IH (leftover - 1) out1 i1) as (out2 & i2 & -> & Hm2 & Hs2); [done..|lia|lia|lia|]. exists out2, i2. split_and!; try done. lia.
Qed.

(** ** Lowering *)

Lemma prev_lt i : (i < count)%nat → (prev count i < count)%nat.
Proof. unfold prev. destruct i; lia. Qed.

Lemma cut_at_run per_round target n out i leftover : moved down init out → (i < count)%nat → 0 <= target → 0 <= per_round → 0 <= leftover → sum_of out <= umax w →
  sum_of out = target + leftover + Z.of_nat (S n) * per_round →
  ∃ out' i' leftover', cut_at w threshold per_round count (out, i, leftover) = Some (out', i', leftover') ∧ moved down init out' ∧ (i' < count)%nat ∧ 0 <= leftover' ∧
    sum_of out' <= umax w ∧ sum_of out' = target + leftover' + Z.of_nat n * per_round.
Proof.
  intros Hm Hi Ht Hp Hl Hu He. destruct (moved_at _ _ _ Hm Hi) as (k & v & Hv). unfold cut_at. rewrite Hv. cbn [mbind option_bind]. rewrite Nat2Z.inj_succ in He. pose proof (Z.mul_nonneg_nonneg (Z.of_nat n) per_round ltac:(lia) Hp).
  assert (Hv0 : 0 <= v) by (apply (Forall_lookup_1 (λ x, 0 <= x) (snd <$> out) i); [apply (moved_nonneg down init); [unfold down; lia|done]|by rewrite list_lookup_fmap, Hv]).
  assert (Hnext : ∀ v' : Z, ((if (v' <=? threshold)%Z then prev count i else i) < count)%nat) by (intros v'; destruct (_ <=? _); [by apply prev_lt|done]).
  unfold checked_sub, saturating_sub, wrapping_add. destruct (Z.leb_spec per_round v).
  - eexists _, _, _. split; [done|]. split; [eapply moved_insert; [done..|unfold down; lia]|]. split; [apply Hnext|]. rewrite (sum_of_insert _ _ _ _ _ Hv). lia.
  - rewrite Z.max_r, Z.mod_small by (unfold umax in *; lia). eexists _, _, _. split; [done|]. split; [eapply moved_insert; [done..|unfold down; lia]|]. split; [apply Hnext|]. rewrite (sum_of_insert _ _ _ _ _ Hv). lia.
Qed.

Lemma cut_times n per_round target out i leftover : moved down init out → (i < count)%nat → 0 <= target → 0 <= per_round → 0 <= leftover → sum_of out <= umax w →
  sum_of out = target + leftover + Z.of_nat n * per_round →
  ∃ out' i' leftover', times n (cut_at w threshold per_round count) (out, i, leftover) = Some (out', i', leftover') ∧ moved down init out' ∧ (i' < count)%nat ∧ 0 <= leftover' ∧ sum_of out' = target + leftover'.
Proof.
  revert out i leftover. induction n as [|n IH]; intros out i leftover Hm Hi Ht Hp Hl Hu He; cbn [times]; [exists out, i, leftover; split_and!; try done; lia|].
  destruct (cut_at_run per_round target n out i leftover) as (out1 & i1 & l1 & -> & Hm1 & Hi1 & Hl1 & Hu1 & He1); [done..|]. cbn [mbind option_bind]. by apply IH.
Qed.

(** Going down from one index and around, every other one is met within [count] turns. *)
Lemma prev_iter_down d i : (d ≤ i)%nat → Nat.iter d (prev count) i = (i - d)%nat.
Proof. induction d as [|d IH]; intros Hd; [cbn; lia|]. rewrite Nat.iter_succ, IH by lia. unfold prev. destruct (i - d)%nat eqn:?; lia. Qed.

Lemma prev_reaches i j : (i < count)%nat → (j < count)%nat → ∃ d, (d < count)%nat ∧ Nat.iter d (prev count) i = j.
Proof.
  intros Hi Hj. destruct (decide (j ≤ i)%nat) as [Hle|Hgt]; [exists (i - j)%nat; split; [lia|]; rewrite prev_iter_down by lia; lia|].
  exists ((count - 1 - j) + S i)%nat. split; [lia|]. rewrite Nat.iter_add. replace (Nat.iter (S i) (prev count) i) with (count - 1)%nat; [rewrite prev_iter_down by lia; lia|].
  rewrite Nat.iter_succ, prev_iter_down by lia. rewrite Nat.sub_diag. done.
Qed.

Lemma nonzero_exists out : moved down init out → 0 < sum_of out → ∃ j k v, (j < count)%nat ∧ out !! j = Some (k, v) ∧ 0 < v.
Proof.
  intros Hm Hs. pose proof (Forall2_length _ _ _ Hm) as Hlen. rewrite Hcount in Hlen. rewrite Hlen. clear Hlen. apply (moved_nonneg down init) in Hm; [|unfold down; lia].
  induction out as [|[k v] out IH]; [done|]. inversion_clear Hm as [|? ? Hv Hm']. cbn in Hv. destruct (Z.eq_dec v 0) as [->|]; [|exists 0%nat, k, v; split; [cbn; lia|split; [done|lia]]].
  destruct IH as (j & k' & v' & Hj & Hlk & Hv'); [done..|]. exists (S j), k', v'. split; [cbn; lia|done].
Qed.

(** With [d] turns to the next element that is not zero, and at most [count] for every further unit. *)
Lemma cut_rest_run fuel leftover target out i d : moved down init out → (i < count)%nat → 0 <= target → 0 <= leftover → sum_of out = target + leftover →
  (leftover = 0 ∨ ∃ k v, out !! Nat.iter d (prev count) i = Some (k, v) ∧ 0 < v) → (leftover = 0 ∨ (Z.to_nat (leftover - 1) * count + d < fuel)%nat) →
  ∃ out', cut_rest fuel threshold count (out, i, leftover) = Some out' ∧ moved down init out' ∧ sum_of out' = target.
Proof.
  revert leftover out i d. induction fuel as [|fuel IH]; intros leftover out i d Hm Hi Ht Hl He Hd Hf; cbn [cut_rest];
    (destruct (Z.eqb_spec leftover 0) as [->|Hne]; [exists out; split_and!; try done; lia|]); (destruct Hf as [?|Hf]; [lia|]); [lia|].
  destruct Hd as [?|(k' & v' & Hd & Hv')]; [lia|]. destruct (moved_at _ _ _ Hm Hi) as (k & v & Hv). rewrite Hv. cbn [mbind option_bind].
  assert (Hv0 : 0 <= v) by (apply (Forall_lookup_1 (λ x, 0 <= x) (snd <$> out) i); [apply (moved_nonneg down init); [unfold down; lia|done]|by rewrite list_lookup_fmap, Hv]).
  unfold checked_sub. destruct (Z.leb_spec 1 v).
  - set (out1 := <[i := (k, v - 1)]> out). set (i1 := if v - 1 <=? threshold then prev count i else i).
    assert (Hm1 : moved down init out1) by (eapply moved_insert; [done..|unfold down; lia]). assert (Hi1 : (i1 < count)%nat) by (unfold i1; destruct (_ <=? _); [by apply prev_lt|done]).
    assert (Hs1 : sum_of out1 = target + (leftover - 1)) by (unfold out1; rewrite (sum_of_insert _ _ _ _ _ Hv); lia). destruct (Z.eq_dec leftover 1) as [->|Hne1]; [by apply (IH 0 out1 i1 0%nat); auto|].
    destruct (nonzero_exists out1 Hm1) as (j & k1 & v1 & Hj & Hj1 & Hv1); [lia|]. destruct (prev_reaches i1 j Hi1 Hj) as (d1 & Hd1 & Hr1).
    apply (IH (leftover - 1) out1 i1 d1); try done; [lia|right; rewrite Hr1; eauto|right]. replace (Z.to_nat (leftover - 1)) with (S (Z.to_nat (leftover - 1 - 1))) in Hf by lia. cbn [Nat.mul] in Hf. lia.
  - destruct d as [|d]; [cbn in Hd; rewrite Hv in Hd; simplify_eq; lia|]. rewrite Nat.iter_succ_r in Hd. apply (IH leftover out (prev count i) d); try done; [by apply prev_lt|eauto|right; lia].
Qed.
End Loops.

Lemma moved_down_sum init out : moved down init out → sum_of out <= sum_of init.
Proof. induction 1 as [|[i x] [j y] init out [_ Hxy] Hm IH]; [done|]. change (y + sum_of out <= x + sum_of init). unfold down in Hxy. cbn in Hxy. lia. Qed.

(** ** The whole *)

Section Whole.
Context (w : Z) (fuel : nat) (input : list Z) (target : Z).
Hypothesis Hinput : Forall (is_u w) input.
Hypothesis Htarget : is_u w target.
Hypothesis Hlen : length input ≠ 0%nat.
Hypothesis Hfuel : (Z.to_nat (Z.abs (target - total input)) * length input ≤ fuel)%nat.

Abbreviation init := (sort_by_key snd (enumerate input)).
Abbreviation count := (length input).

Lemma input_nonneg : Forall (λ x, 0 <= x) input.
Proof. eapply Forall_impl; [exact Hinput|]. by intros x [? _]. Qed.

Lemma init_sum : sum_of init = total input.
Proof. unfold sum_of. by rewrite sort_by_key_perm, enumerate_snd. Qed.

Lemma init_length : length init = count.
Proof. rewrite sort_by_key_perm. rewrite <- (enumerate_snd input) at 2. by rewrite length_fmap. Qed.

Lemma init_head : ∃ k v, head init = Some (k, v).
Proof. destruct init as [|[k v] rest] eqn:Hi; [apply (f_equal length) in Hi; by rewrite init_length in Hi|by exists k, v]. Qed.

Lemma init_refl R : (∀ x, 0 <= x → R x x) → moved R init init.
Proof. intros HR. apply moved_refl. rewrite sort_by_key_perm, enumerate_snd. eapply Forall_impl; [exact input_nonneg|]. cbn. auto. Qed.

(** The rounds and the leftover make up the difference. *)
Lemma shares diff : 0 < diff → let per_round := diff / Z.of_nat count in let leftover := diff mod Z.of_nat count in
  0 <= per_round ∧ 0 <= leftover <= diff ∧ diff = Z.of_nat count * per_round + leftover.
Proof.
  intros Hd. cbv zeta. pose proof (Z.div_mod diff (Z.of_nat count) ltac:(lia)) as Hdm. pose proof (Z.mod_pos_bound diff (Z.of_nat count) ltac:(lia)) as Hm.
  assert (Hp : 0 <= diff / Z.of_nat count) by (apply Z.div_pos; lia). pose proof (Z.mul_nonneg_nonneg (Z.of_nat count) _ ltac:(lia) Hp). lia.
Qed.

Lemma raise_run : total input < target →
  let diff := target - total input in let threshold := target / Z.of_nat count in
  ∃ out i, (s ← (if diff / Z.of_nat count =? 0 then Some (init, 0%nat) else times count (bump_at w threshold (diff / Z.of_nat count) count) (init, 0%nat));
            bump_rest w fuel threshold count (diff mod Z.of_nat count) s) = Some (out, i) ∧ moved up init out ∧ sum_of out = target.
Proof.
  intros Hlt diff threshold. destruct (shares diff) as (Hp & Hl & Hd); [lia|]. assert (Hm : moved up init init) by (apply init_refl; unfold up; lia). pose proof init_sum as Hs. destruct Htarget as [_ Ht].
  assert (Hrounds : ∃ out i, (if diff / Z.of_nat count =? 0 then Some (init, 0%nat) else times count (bump_at w threshold (diff / Z.of_nat count) count) (init, 0%nat)) = Some (out, i) ∧
    moved up init out ∧ (i < count)%nat ∧ sum_of out = total input + Z.of_nat count * (diff / Z.of_nat count)).
  { destruct (Z.eqb_spec (diff / Z.of_nat count) 0) as [->|_]; [exists init, 0%nat; split_and!; try done; lia|]. rewrite <- Hs. apply bump_times; try done; [apply init_length|lia|lia|lia]. }
  destruct Hrounds as (out & i & -> & Hm1 & Hi1 & Hs1). cbn [mbind option_bind].
  destruct (bump_rest_run w init count threshold init_length ltac:(lia) fuel (diff mod Z.of_nat count) out i) as (out2 & i2 & -> & Hm2 & Hs2); [done|done|lia|lia| |exists out2, i2; split_and!; try done; lia].
  rewrite Z.abs_eq in Hfuel by lia. fold diff in Hfuel. assert (Hle : (Z.to_nat diff * 1 ≤ Z.to_nat diff * count)%nat) by (apply Nat.mul_le_mono_l; lia). lia.
Qed.

Lemma lower_run threshold : target < total input → total input <= umax w →
  let diff := total input - target in
  ∃ out, (s ← (if diff / Z.of_nat count =? 0 then Some (init, (count - 1)%nat, diff mod Z.of_nat count)
               else times count (cut_at w threshold (diff / Z.of_nat count) count) (init, (count - 1)%nat, diff mod Z.of_nat count));
          cut_rest fuel threshold count s) = Some out ∧ moved down init out ∧ sum_of out = target.
Proof.
  intros Hlt Hu diff. destruct (shares diff) as (Hp & Hl & Hd); [lia|]. assert (Hm : moved down init init) by (apply init_refl; unfold down; lia). pose proof init_sum as Hs. destruct Htarget as [Ht _].
  assert (Hrounds : ∃ out i leftover, (if diff / Z.of_nat count =? 0 then Some (init, (count - 1)%nat, diff mod Z.of_nat count)
      else times count (cut_at w threshold (diff / Z.of_nat count) count) (init, (count - 1)%nat, diff mod Z.of_nat count)) = Some (out, i, leftover) ∧
    moved down init out ∧ (i < count)%nat ∧ 0 <= leftover ∧ sum_of out = target + leftover).
  { destruct (Z.eqb_spec (diff / Z.of_nat count) 0) as [Hz|_]; [rewrite Hz in Hd; eexists _, _, _; split; [done|]; split_and!; try done; lia|]. apply cut_times; try done; [apply init_length|lia|lia|lia|lia|lia]. }
  destruct Hrounds as (out & i & leftover & -> & Hm1 & Hi1 & Hl1 & Hs1). cbn [mbind option_bind]. pose proof (moved_down_sum _ _ Hm1) as Hmono. rewrite Hs in Hmono.
  destruct (Z.eq_dec leftover 0) as [->|Hne].
  - apply (cut_rest_run init count threshold init_length ltac:(lia) fuel 0 target out i 0); auto; lia.
  - destruct (nonzero_exists init count init_length ltac:(lia) out Hm1) as (j & k & v & Hj & Hjv & Hv); [lia|]. destruct (prev_reaches init count init_length ltac:(lia) i j Hi1 Hj) as (d & Hdc & Hdj).
    apply (cut_rest_run init count threshold init_length ltac:(lia) fuel leftover target out i d); auto; [right; rewrite Hdj; eauto|right].
    assert (Hle : (Z.to_nat leftover * count ≤ Z.to_nat (Z.abs (target - total input)) * count)%nat) by (apply Nat.mul_le_mono_r; lia).
    replace (Z.to_nat leftover) with (S (Z.to_nat (leftover - 1))) in Hle by lia. cbn [Nat.mul] in Hle. lia.
Qed.
End Whole.

Lemma fmap_bind_assoc {A B C} (m : option A) (f : A → option B) (g : B → C) : (a ← m; g <$> f a) = g <$> (a ← m; f a).
Proof. by destruct m. Qed.

(** C27. Normalising reaches the sum: given fuel for as many turns as the difference times the number of elements, the result is, unless there are no elements, a vector of the same length with the sum that was asked for, in which every
    element is at least what it was when the sum had to be raised and at most what it was when it had to be lowered; nothing overflows and no index is out of range.  There is an error exactly when the sum of the elements, or
    their number, does not fit the type. *)
Theorem normalize_spec (w : Z) (fuel : nat) (input : list Z) (target : Z) : Forall (is_u w) input → is_u w target →
  (Z.to_nat (Z.abs (target - total input)) * length input ≤ fuel)%nat →
  ∃ r, normalize w fuel input target = Some r ∧
    match r with
    | inl e => umax w < total input ∧ e = "sum of input cannot fit in `T`" ∨ total input <= umax w < Z.of_nat (length input) ∧ e = "length of `inputs` cannot fit in `T`"
    | inr out => total input <= umax w ∧ Z.of_nat (length input) <= umax w ∧ (input ≠ [] → total out = target) ∧
        (total input <= target → Forall2 Z.le input out) ∧ (target <= total input → Forall2 (λ x y, 0 <= y <= x) input out)
    end.
Proof.
  intros Hin Ht Hfuel. pose proof (input_nonneg w input Hin) as Hnn. unfold normalize. rewrite checked_sum_run by (done || (destruct Ht; lia)). rewrite Z.add_0_l. destruct (Z.leb_spec (total input) (umax w)); [|eexists; split; [done|]; left; split; [lia|done]].
  cbv zeta. destruct (Z.ltb_spec (umax w) (Z.of_nat (length input))); [eexists; split; [done|]; right; split; [lia|done]|].
  destruct (Nat.eqb_spec (length input) 0) as [Hnil%length_zero_iff_nil|Hlen]; [subst input; eexists; split; [done|]; split_and!; try done; by constructor|].
  assert (Hmax : target `max` total input - target `min` total input = Z.abs (target - total input)) by lia. rewrite Hmax. destruct (Z.eqb_spec (Z.abs (target - total input)) 0) as [He|Hne].
  - eexists. split; [done|]. split_and!; try done; [lia|]. intros _. apply Forall2_same_length_lookup_2; [done|]. intros i x y Hx Hy. simplify_eq. pose proof (Forall_lookup_1 _ _ _ _ Hnn Hx) as Hx0. cbn in Hx0. lia.
  - destruct (Z.ltb_spec (total input) target) as [Hlt|Hge].
    + rewrite Z.abs_eq by lia. rewrite fmap_bind_assoc. destruct (raise_run w fuel input target Hin Ht Hlen Hfuel Hlt) as (out & i & -> & Hm & Hs). cbn [fmap option_fmap option_map mbind option_bind fst].
      destruct (moved_final _ _ _ Hm) as [Hf Hsum]. eexists. split; [done|]. cbv beta iota. rewrite Hsum, Hs. split_and!; try done; intros; [|lia]. eapply Forall2_impl; [exact Hf|]. by intros x y [_ ?].
    + rewrite Z.abs_neq by lia. replace (- (target - total input)) with (total input - target) by lia. destruct (init_head input Hlen) as (k0 & t0 & ->). cbn [mbind option_bind].
      destruct (lower_run w fuel input target Hin Ht Hlen Hfuel t0 ltac:(lia) ltac:(done)) as (out & -> & Hm & Hs). cbn [mbind option_bind].
      destruct (moved_final _ _ _ Hm) as [Hf Hsum]. eexists. split; [done|]. cbv beta iota. rewrite Hsum, Hs. split_and!; try done. lia.
Qed.

Lemma normalize_witness : ∃ r, normalize 8 573 [1; 100; 100] 10 = Some r ∧
  match r with
  | inl e => umax 8 < total [1; 100; 100] ∧ e = "sum of input cannot fit in `T`" ∨ total [1; 100; 100] <= umax 8 < Z.of_nat (length [1; 100; 100]) ∧ e = "length of `inputs` cannot fit in `T`"
  | inr out => total [1; 100; 100] <= umax 8 ∧ Z.of_nat (length [1; 100; 100]) <= umax 8 ∧ ([1; 100; 100] ≠ [] → total out = 10) ∧
      (total [1; 100; 100] <= 10 → Forall2 Z.le [1; 100; 100] out) ∧ (10 <= total [1; 100; 100] → Forall2 (λ x y, 0 <= y <= x) [1; 100; 100] out)
  end.
Proof. apply (normalize_spec 8 573 [1; 100; 100] 10); [repeat constructor; unfold umax; lia|unfold is_u, umax; lia|]. vm_compute. lia. Defined.

(** Without elements the result is empty, whatever sum was asked for. *)
Example empty_misses_target : normalize 32 0 [] 5 = Some (inr []) ∧ total [] ≠ 5.
Proof. done. Qed.

(** ** What the threshold means *)

(** The numbers within the threshold, clamped to the type, are equal to [other]. *)
Lemma tcmp_spec w self other threshold : is_u w self → is_u w other → is_u w threshold →
  tcmp w self other threshold = if (other + threshold) `min` umax w <? self then Gt else if self <? (other - threshold) `max` 0 then Lt else Eq.
Proof.
  intros Hs Ho Ht. unfold tcmp, saturating_add, saturating_sub, is_u in *. destruct (Z.eqb_spec threshold 0) as [->|Hne].
  - destruct (Z.compare_spec self other), (Z.ltb_spec ((other + 0) `min` umax w) self), (Z.ltb_spec self ((other - 0) `max` 0)); done || lia.
  - destruct (Z.leb_spec ((other + threshold) `min` umax w) ((other - threshold) `max` 0)); [lia|].
    destruct (Z.compare_spec self ((other - threshold) `max` 0)), (Z.compare_spec self ((other + threshold) `min` umax w)), (Z.ltb_spec ((other + threshold) `min` umax w) self), (Z.ltb_spec self ((other - threshold) `max` 0)); done || lia.
Qed.
