(* ===== verification/PerThings.v ===== *)
(** Fixed-point fractions of one ([primitives/arithmetic/src/per_things.rs]): [Percent], [PerU16], [Permill], [Perbill] and [Perquintill], which one macro implements.

    A type is given by the number of its parts and by the widths of the integers that the macro is called with; a value is its number of parts.  The operations that are generic in an integer type [N] take its width [wn].
    Arithmetic wraps around at the width of its type, as in a release build; [None] is a panic, and where a function returns an [Option] or a [Result] itself, the outer option is for the panic. *)

From S2P Require Import Prelude Arith128.

Record PerType := mkPer { accuracy : Z; inner_bits : Z; upper_bits : Z }.

Definition Percent : PerType := mkPer 100 8 16.
Definition PerU16 : PerType := mkPer 65535 16 32.
Definition Permill : PerType := mkPer 1000000 32 64.
Definition Perbill : PerType := mkPer 1000000000 32 64.
Definition Perquintill : PerType := mkPer 1000000000000000000 64 128.

Definition wrap (w z : Z) : Z := z mod 2 ^ w.
Definition saturating_mul (w x y : Z) : Z := Z.min (x * y) (umax w).

(** [saturated_into], for a number that is not negative *)
Definition saturated_into (w x : Z) : Z := Z.min x (umax w).

Definition try_into (w x : Z) : option Z := if x <=? umax w then Some x else None.

(** ** Rounding *)

Inductive SignedRounding := High | Low | NearestPrefHigh | NearestPrefLow | Major | Minor | NearestPrefMajor | NearestPrefMinor.

Definition from_signed (rounding : SignedRounding) (negative : bool) : Rounding :=
  match rounding, negative with
  | Low, true | Major, _ | High, false => Up
  | High, true | Minor, _ | Low, false => Down
  | NearestPrefMajor, _ | NearestPrefHigh, false | NearestPrefLow, true => NearestPrefUp
  | NearestPrefMinor, _ | NearestPrefLow, false | NearestPrefHigh, true => NearestPrefDown
  end.

Definition div_rounded (wn n d : Z) (r : Rounding) : option Z :=
  if d =? 0 then None
  else
    let o := n / d in
    let up :=
      match r with
      | Up => negb (n mod d =? 0)
      | NearestPrefDown => let rem := n mod d in d / 2 <? rem
      | NearestPrefUp => let rem := n mod d in wrap wn (d / 2 + d mod 2) <=? rem
      | Down => false
      end in
    Some (if up then wrapping_add wn o 1 else o).

Section PerThing.
Context (P : PerType).

Abbreviation max := (accuracy P).
Abbreviation upper := (upper_bits P).
Abbreviation inner := (inner_bits P).

(** ** Multiplication of a number by a fraction *)

Definition rational_mul_correction (x numer denom : Z) (rounding : Rounding) : option Z :=
  if denom =? 0 then None
  else
    let rem := x mod denom in
    let rem_inner := saturated_into inner rem in
    let rem_mul_upper := wrap upper (rem_inner * numer) in
    let rem_mul_div_inner := saturated_into inner (rem_mul_upper / denom) in
    let up :=
      match rounding with
      | Down => false
      | Up => 0 <? rem_mul_upper mod denom
      | NearestPrefDown => denom / 2 <? rem_mul_upper mod denom
      | NearestPrefUp => wrap upper (denom / 2 + denom mod 2) <=? rem_mul_upper mod denom
      end in
    Some (if up then wrapping_add inner rem_mul_div_inner 1 else rem_mul_div_inner).

Definition overflow_prune_mul (wn x part : Z) (rounding : Rounding) : option Z :=
  let maximum := max in
  c ← rational_mul_correction x part max rounding;
  Some (wrapping_add wn (wrap wn (x / maximum * part)) c).

Definition saturating_reciprocal_mul (wn x part : Z) (rounding : Rounding) : option Z :=
  let maximum := max in
  c ← rational_mul_correction x max part rounding;
  Some (saturating_add wn (saturating_mul wn (x / part) maximum) c).

Definition mul_floor (wn self b : Z) : option Z := overflow_prune_mul wn b self Down.
Definition mul_ceil (wn self b : Z) : option Z := overflow_prune_mul wn b self Up.

(** The operator on a number, such as a balance. *)
Definition mul_n (wn self b : Z) : option Z := overflow_prune_mul wn b self NearestPrefDown.

(** ** Construction *)

Definition from_parts (parts : Z) : Z := parts `min` max.
Definition one : Z := from_parts max.
Definition zero : Z := from_parts 0.
Definition is_one (self : Z) : bool := self =? max.
Definition is_zero (self : Z) : bool := self =? 0.

Definition from_percent (x : Z) : Z := wrap inner (wrap upper ((if 100 <? x then 100 else x) * max) / 100).
Definition from_perthousand (x : Z) : Z := wrap inner (wrap upper ((if 1000 <? x then 1000 else x) * max) / 1000).

Definition from_rational_with_rounding (wn p q : Z) (r : Rounding) : option (option Z) :=
  if q =? 0 then Some None
  else if q <? p then Some None
  else
    factor ← div_rounded wn q max Up;
    let factor := factor `max` 1 in
    q_reduce ← div_rounded wn q factor r;
    q_reduce ← try_into inner q_reduce;
    p_reduce ← div_rounded wn p factor r;
    p_reduce ← try_into inner p_reduce;
    let n := wrap upper (p_reduce * max) in
    let d := q_reduce in
    part ← div_rounded upper n d r;
    Some (Some (wrap inner part)).

Definition from_rational (wn p q : Z) : option Z := o ← from_rational_with_rounding wn p q Down; Some (default one o).

(** ** Arithmetic on fractions *)

Definition less_epsilon (self : Z) : Z := if is_zero self then self else from_parts (wrapping_sub inner self 1).
Definition plus_epsilon (self : Z) : Z := if is_one self then self else from_parts (wrapping_add inner self 1).

(** As an operation of [Upper], whose products are those of the parts. *)
Definition square (self : Z) : option Z := from_rational upper (wrap upper (self * self)) (wrap upper (max * max)).

Definition mul (self rhs : Z) : Z := from_parts (wrap inner (wrap upper (self * rhs) / max)).

(** [while exp > 0 && !result.is_zero()] *)
Fixpoint pow_loop (fuel : nat) (self result exp : Z) : option Z :=
  if (0 <? exp) && negb (is_zero result) then
    match fuel with
    | O => None
    | S fuel =>
        let '(result, exp) := if exp mod 2 =? 0 then (result, exp) else (mul result self, exp - 1) in
        self ← square self;
        pow_loop fuel self result (exp / 2)
    end
  else Some result.

Definition pow (self exp : Z) : option Z := if (exp =? 0) || is_one self then Some one else pow_loop 64 self self (exp - 1).

Definition div (self rhs : Z) : option Z := from_rational inner self rhs.

(** The result of a failed division is one. *)
Definition saturating_div (self rhs : Z) (r : Rounding) : option Z := o ← from_rational_with_rounding inner self rhs r; Some (default one o).

Definition int_mul (self b : Z) : Z := from_parts (saturating_mul inner self b).

(** [Saturating] *)
Definition saturating_add_per (self rhs : Z) : Z := from_parts (saturating_add inner self rhs).
Definition saturating_sub_per (self rhs : Z) : Z := from_parts (saturating_sub self rhs).
Definition left_from_one (self : Z) : Z := saturating_sub_per one self.

Definition add (self rhs : Z) : Z := from_parts (wrapping_add inner self rhs).
Definition sub (self rhs : Z) : Z := from_parts (wrapping_sub inner self rhs).

Definition checked_add_per (self rhs : Z) : option Z := i ← checked_add inner self rhs; if max <? i then None else Some (from_parts i).
Definition checked_sub_per (self v : Z) : option Z := i ← checked_sub self v; Some (from_parts i).

(** ** Decoding, of the parts *)

Definition decode (i : Z) : option Z := if i <=? max then Some i else None.

(** [CompactAs] *)
Definition decode_from (x : Z) : Z := from_parts x.
End PerThing.

(** The examples of the documentation and of the tests. *)
Example per_thing_tests :
  from_rational Percent 64 989 1000 = Some 98 ∧
  (from_rational_with_rounding Percent 64 985 1000 <$> [NearestPrefDown; NearestPrefUp; Up; Down]) = [Some (Some 98); Some (Some 99); Some (Some 99); Some (Some 98)] ∧
  from_rational_with_rounding Percent 64 1001 1000 Up = Some None ∧
  ((λ s, mul_n Percent 64 s 10) <$> [34; 36]) = [Some 3; Some 4] ∧ mul_floor Percent 64 36 10 = Some 3 ∧ mul_ceil Percent 64 34 10 = Some 4 ∧
  saturating_reciprocal_mul Percent 64 10 60 NearestPrefUp = Some 17 ∧ saturating_reciprocal_mul Percent 64 10 60 Down = Some 16 ∧ saturating_reciprocal_mul Percent 64 10 61 Up = Some 17 ∧
  (saturating_div Percent 2 3 <$> [Down; NearestPrefDown]) = [Some 66; Some 67] ∧ (saturating_div Percent 1 3 <$> [NearestPrefUp; Up]) = [Some 33; Some 34].
Proof. vm_compute. repeat split. Qed.
