(* ===== verification/PerThingsProps.v ===== *)
(** Fractions of one: multiplying a number is exact to the rounding, converting a fraction is within four parts, and every operation gives a number of parts between none and all. *)

From S2P Require Import Prelude Arith128 Arith128Props PerThings.

(** What the macro relies on: there are at least a hundred parts, they fit the inner type, and the upper type is twice as wide. *)
Definition per_wf (P : PerType) : Prop := 100 <= accuracy P <= umax (inner_bits P) ∧ 0 < inner_bits P ∧ 2 * inner_bits P <= upper_bits P.

Lemma types_wf : Forall per_wf [Percent; PerU16; Permill; Perbill; Perquintill].
Proof. repeat constructor; unfold umax; cbn; lia. Qed.

(** ** The rounded quotient *)

Definition rounded (r : Rounding) (n c : Z) : Z := n / c + (if rounds_up r c (n mod c) then 1 else 0).

Lemma rounded_unique r n c v : 0 < c → rounds r n c v → rounded r n c = v.
Proof. intros Hc Hv. apply (rounds_unique r n c); [done| |done]. by apply rounds_quotient. Qed.

Lemma rounded_rounds r n c : 0 < c → rounds r n c (rounded r n c).
Proof. apply rounds_quotient. Qed.

Lemma rounds_mono r n n' c v v' : 0 < c → n <= n' → rounds r n c v → rounds r n' c v' → v <= v'.
Proof.
  intros Hc Hn Hv Hv'. destruct (Z.le_gt_cases v v') as [|Hgt]; [done|]. assert (Hs : (v' + 1) * c <= v * c) by (apply Z.mul_le_mono_nonneg_r; lia). destruct r; cbn in *; lia.
Qed.

Lemma rounded_mono r n n' c : 0 < c → n <= n' → rounded r n c <= rounded r n' c.
Proof. intros Hc Hn. eapply rounds_mono; [exact Hc|exact Hn|by apply rounded_rounds..]. Qed.

Lemma rounded_exact r k c : 0 < c → rounded r (k * c) c = k.
Proof. intros Hc. apply rounded_unique; [done|]. destruct r; cbn; lia. Qed.

Lemma rounded_shift r n k c : 0 < c → rounded r (n + k * c) c = rounded r n c + k.
Proof. intros Hc. apply rounded_unique; [done|]. pose proof (rounded_rounds r n c Hc) as Hr. destruct r; cbn in *; lia. Qed.

Lemma rounded_nonneg r n c : 0 < c → 0 <= n → 0 <= rounded r n c.
Proof. intros Hc Hn. rewrite <- (rounded_exact r 0 c Hc). by apply rounded_mono. Qed.

(** A bound on what is divided, as a multiple, bounds the quotient. *)
Lemma rounded_le r n c k : 0 < c → n <= k * c → rounded r n c <= k.
Proof. intros Hc Hn. rewrite <- (rounded_exact r k c Hc). by apply rounded_mono. Qed.

Lemma rounded_ge r n c k : 0 < c → k * c <= n → k <= rounded r n c.
Proof. intros Hc Hn. rewrite <- (rounded_exact r k c Hc). by apply rounded_mono. Qed.

(** The distance to the exact quotient is at most one. *)
Lemma rounded_error r n c : 0 < c → Z.abs (rounded r n c * c - n) <= c.
Proof. intros Hc. pose proof (rounded_rounds r n c Hc) as Hr. destruct r; cbn in Hr; lia. Qed.

Lemma half_ceil d : 0 < d → 0 < d / 2 + d mod 2 <= d.
Proof. intros Hd. pose proof (Z.div_mod d 2 ltac:(lia)). pose proof (Z.mod_pos_bound d 2 ltac:(lia)). lia. Qed.

Lemma wrap_id w z : 0 <= z <= umax w → wrap w z = z.
Proof. intros Hz. unfold wrap, umax in *. apply Z.mod_small. lia. Qed.

Lemma div_rounded_run wn n d r : 0 <= n <= umax wn → 0 < d <= umax wn → div_rounded wn n d r = Some (rounded r n d).
Proof.
  intros Hn Hd. unfold div_rounded, rounded. rewrite (proj2 (Z.eqb_neq d 0)) by lia. pose proof (Z.mod_pos_bound n d ltac:(lia)) as Hm. pose proof (Z.div_mod n d ltac:(lia)) as Hdm. pose proof (half_ceil d ltac:(lia)) as Hh.
  cbv zeta. rewrite (wrap_id wn (d / 2 + d mod 2)) by lia. replace (negb (n mod d =? 0)) with (0 <? n mod d) by (destruct (Z.eqb_spec (n mod d) 0), (Z.ltb_spec 0 (n mod d)); done || lia).
  fold (rounds_up r d (n mod d)). replace (match r with Up => 0 <? n mod d | Down => false | NearestPrefUp => d / 2 + d mod 2 <=? n mod d | NearestPrefDown => d / 2 <? n mod d end) with (rounds_up r d (n mod d)) by (by destruct r).
  destruct (rounds_up r d (n mod d)) eqn:Hup; [|by rewrite Z.add_0_r]. f_equal. assert (Hrem : 0 < n mod d).
  { pose proof (Z.div_pos d 2 ltac:(lia) ltac:(lia)). destruct r; cbn in Hup; [by apply Z.ltb_lt|done|apply Z.leb_le in Hup; lia|apply Z.ltb_lt in Hup; lia]. }
  unfold wrapping_add. apply Z.mod_small. unfold umax in *. pose proof (Z.div_pos n d ltac:(lia) ltac:(lia)). assert (1 * (n / d) <= d * (n / d)) by (apply Z.mul_le_mono_nonneg_r; lia). lia.
Qed.

(** ** Multiplication *)

Section Mul.
Context (P : PerType).
Hypothesis HP : per_wf P.

Lemma inner_product a b : 0 <= a <= umax (inner_bits P) → 0 <= b <= umax (inner_bits P) → 0 <= a * b <= umax (upper_bits P).
Proof.
  intros Ha Hb. split; [apply Z.mul_nonneg_nonneg; lia|]. destruct HP as (_ & Hi & Hu). assert (Hle : a * b <= umax (inner_bits P) * umax (inner_bits P)) by (apply Z.mul_le_mono_nonneg; lia).
  unfold umax in *. assert (Hpow : 2 ^ (2 * inner_bits P) <= 2 ^ upper_bits P) by (apply Z.pow_le_mono_r; lia). replace (2 * inner_bits P) with (inner_bits P + inner_bits P) in Hpow by lia.
  rewrite Z.pow_add_r in Hpow by lia. assert (0 < 2 ^ inner_bits P) by (apply Z.pow_pos_nonneg; lia). lia.
Qed.

Lemma inner_le_upper a : 0 <= a <= umax (inner_bits P) → 0 <= a <= umax (upper_bits P).
Proof. intros Ha. pose proof (inner_product a 1 Ha) as H. rewrite Z.mul_1_r in H. apply H. destruct HP as ([? ?] & _). lia. Qed.

Lemma rational_mul_correction_run x numer denom r : 0 <= x → 0 <= numer <= umax (inner_bits P) → 0 < denom <= umax (inner_bits P) →
  rational_mul_correction P x numer denom r = Some (rounded r (x mod denom * numer) denom) ∧ 0 <= rounded r (x mod denom * numer) denom <= numer.
Proof.
  intros Hx Hn Hd. pose proof (Z.mod_pos_bound x denom ltac:(lia)) as Hm. set (rem := x mod denom) in *. pose proof (inner_product rem numer ltac:(lia) Hn) as Hprod.
  assert (Hb : 0 <= rounded r (rem * numer) denom <= numer).
  { split; [apply rounded_nonneg; lia|]. apply rounded_le; [lia|]. rewrite Z.mul_comm. apply Z.mul_le_mono_nonneg_l; lia. }
  split; [|done]. unfold rational_mul_correction. rewrite (proj2 (Z.eqb_neq denom 0)) by lia. cbv zeta. fold rem. unfold saturated_into. rewrite (Z.min_l rem) by lia. rewrite wrap_id by done.
  pose proof (half_ceil denom ltac:(lia)) as Hh. rewrite (wrap_id _ (denom / 2 + denom mod 2)) by (apply inner_le_upper; lia).
  replace (match r with Up => 0 <? (rem * numer) mod denom | Down => false | NearestPrefUp => denom / 2 + denom mod 2 <=? (rem * numer) mod denom | NearestPrefDown => denom / 2 <? (rem * numer) mod denom end)
    with (rounds_up r denom ((rem * numer) mod denom)) by (by destruct r).
  unfold rounded in *. set (v := rem * numer / denom) in *. assert (Hv : 0 <= v) by (apply Z.div_pos; lia). destruct (rounds_up _ _ _).
  - rewrite Z.min_l by lia. unfold wrapping_add. by rewrite Z.mod_small by (unfold umax in *; lia).
  - rewrite Z.min_l by lia. by rewrite Z.add_0_r.
Qed.

(** Multiplying by [numer / denom] in two steps. *)
Lemma two_steps r x numer denom : 0 < denom → rounded r (x * numer) denom = x / denom * numer + rounded r (x mod denom * numer) denom.
Proof.
  intros Hd. rewrite (Z.div_mod x denom) at 1 by lia. replace ((denom * (x / denom) + x mod denom) * numer) with (x mod denom * numer + x / denom * numer * denom) by ring. rewrite rounded_shift by done. lia.
Qed.

Lemma overflow_prune_mul_run wn x part r : inner_bits P <= wn → is_u wn x → 0 <= part <= accuracy P →
  overflow_prune_mul P wn x part r = Some (rounded r (x * part) (accuracy P)) ∧ 0 <= rounded r (x * part) (accuracy P) <= x.
Proof.
  intros Hwn [Hx0 Hx1] Hp. destruct (HP) as ([Ha0 Ha1] & Hi & _). destruct (rational_mul_correction_run x part (accuracy P) r) as [Hc Hcb]; [done|lia|lia|].
  unfold overflow_prune_mul. cbv zeta. rewrite Hc. cbn [mbind option_bind]. pose proof (two_steps r x part (accuracy P) ltac:(lia)) as H2.
  assert (Hb : 0 <= rounded r (x * part) (accuracy P) <= x) by (split; [apply rounded_nonneg; [lia|apply Z.mul_nonneg_nonneg; lia]|apply rounded_le; [lia|apply Z.mul_le_mono_nonneg_l; lia]]). split; [|done]. f_equal.
  assert (Hq : 0 <= x / accuracy P * part) by (apply Z.mul_nonneg_nonneg; [apply Z.div_pos; lia|lia]). rewrite wrap_id by lia. rewrite H2. unfold wrapping_add. apply Z.mod_small. unfold umax in *. lia.
Qed.

Lemma saturating_reciprocal_mul_run wn x part r : inner_bits P <= wn → is_u wn x → 0 < part <= accuracy P →
  saturating_reciprocal_mul P wn x part r = Some (rounded r (x * accuracy P) part `min` umax wn).
Proof.
  intros Hwn [Hx0 Hx1] Hp. destruct (HP) as ([Ha0 Ha1] & Hi & _). destruct (rational_mul_correction_run x (accuracy P) part r) as [Hc Hcb]; [done|lia|lia|].
  unfold saturating_reciprocal_mul. cbv zeta. rewrite Hc. cbn [mbind option_bind]. f_equal. rewrite (two_steps r x (accuracy P) part) by lia. unfold saturating_add, saturating_mul. lia.
Qed.

(** C28. Multiplying a number by a fraction of one does not overflow and is exact to the rounding of the operation, and so at most the number itself; multiplying by the reciprocal of a fraction that is not zero is exact to the rounding
    as well, or the largest number of the type when that does not fit; the reciprocal of zero is a panic. *)
Theorem per_thing_mul_exact (wn x part : Z) (r : Rounding) : inner_bits P <= wn → is_u wn x → 0 <= part <= accuracy P →
  (∃ v, overflow_prune_mul P wn x part r = Some v ∧ rounds r (x * part) (accuracy P) v ∧ 0 <= v <= x) ∧
  (0 < part → ∃ v, rounds r (x * accuracy P) part v ∧ saturating_reciprocal_mul P wn x part r = Some (v `min` umax wn)) ∧
  saturating_reciprocal_mul P wn x 0 r = None.
Proof.
  intros Hwn Hx Hp. split; [|split; [|done]].
  - destruct (overflow_prune_mul_run wn x part r Hwn Hx Hp) as [Hr Hb]. eexists. split; [exact Hr|]. split; [|done]. apply rounded_rounds. destruct HP as ([? ?] & _). lia.
  - intros Hpos. eexists. split; [by apply rounded_rounds|]. apply saturating_reciprocal_mul_run; [done|done|lia].
Qed.
End Mul.

Lemma per_thing_mul_witness : ∃ v, overflow_prune_mul Perquintill 64 (umax 64) 999999999999999999 NearestPrefDown = Some v ∧
  rounds NearestPrefDown (umax 64 * 999999999999999999) (accuracy Perquintill) v ∧ 0 <= v <= umax 64.
Proof.
  refine (proj1 (per_thing_mul_exact Perquintill _ 64 (umax 64) 999999999999999999 NearestPrefDown _ _ _)); [exact (Forall_lookup_1 _ _ 4%nat _ types_wf eq_refl)|cbn; lia|unfold is_u, umax; lia|cbn; lia].
Defined.

(** ** Construction from a fraction *)

Section Rational.
Context (P : PerType) (wn p q : Z) (r : Rounding).
Hypothesis HP : per_wf P.
Hypothesis Hwn : inner_bits P <= wn.
Hypothesis Hq : is_u wn q.
Hypothesis Hpos : 0 < q.
Hypothesis Hp : 0 <= p <= q.

Abbreviation max := (accuracy P).
(** What both numbers are divided by, and what that makes of them. *)
Definition factor_of (P : PerType) (q : Z) : Z := rounded Up q (accuracy P).
Abbreviation factor := (factor_of P q).
Abbreviation q_reduce := (rounded r q factor).
Abbreviation p_reduce := (rounded r p factor).

Lemma max_fits : 100 <= max <= umax (inner_bits P) ∧ umax (inner_bits P) <= umax wn.
Proof. destruct HP as (Hm & Hi & _). split; [done|]. unfold umax. assert (2 ^ inner_bits P <= 2 ^ wn) by (apply Z.pow_le_mono_r; lia). lia. Qed.

Lemma factor_bounds : 1 <= factor <= q ∧ (factor - 1) * max < q <= factor * max.
Proof.
  destruct max_fits as [Hm _]. pose proof (rounded_rounds Up q max ltac:(lia)) as Hr. cbn in Hr. fold factor in Hr. split; [|done]. split.
  - destruct (Z.le_gt_cases 1 factor); [done|]. assert (factor * max <= 0 * max) by (apply Z.mul_le_mono_nonneg_r; lia). lia.
  - apply rounded_le; [lia|]. assert (q * 1 <= q * max) by (apply Z.mul_le_mono_nonneg_l; lia). lia.
Qed.

Lemma reduced_bounds : 1 <= q_reduce <= max ∧ 0 <= p_reduce <= q_reduce.
Proof.
  destruct factor_bounds as [Hf Hfm]. split; [split; [apply rounded_ge; lia|apply rounded_le; [lia|rewrite Z.mul_comm; lia]]|]. split; [apply rounded_nonneg; lia|apply rounded_mono; lia].
Qed.

Lemma part_bounds : 0 <= rounded r (p_reduce * max) q_reduce <= max.
Proof.
  destruct reduced_bounds as [Hqr Hpr]. destruct max_fits as [Hm _]. split; [apply rounded_nonneg; [lia|apply Z.mul_nonneg_nonneg; lia]|]. apply rounded_le; [lia|]. rewrite Z.mul_comm. apply Z.mul_le_mono_nonneg_l; lia.
Qed.

Lemma from_rational_run : from_rational_with_rounding P wn p q r = Some (Some (rounded r (p_reduce * max) q_reduce)).
Proof.
  destruct max_fits as [Hm Hu]. destruct factor_bounds as [Hf Hfm]. destruct reduced_bounds as [Hqr Hpr]. pose proof part_bounds as Hpart. unfold is_u in Hq. unfold from_rational_with_rounding.
  rewrite (proj2 (Z.eqb_neq q 0)), (proj2 (Z.ltb_ge q p)) by lia. rewrite div_rounded_run by lia. cbn [mbind option_bind]. fold factor. rewrite (Z.max_l factor 1) by lia.
  rewrite (div_rounded_run wn q factor r) by lia. cbn [mbind option_bind]. unfold try_into. rewrite (proj2 (Z.leb_le q_reduce _)) by lia. cbn [mbind option_bind].
  rewrite (div_rounded_run wn p factor r) by lia. cbn [mbind option_bind]. rewrite (proj2 (Z.leb_le p_reduce _)) by lia. cbn [mbind option_bind].
  pose proof (inner_product P HP p_reduce max ltac:(lia) ltac:(lia)). pose proof (inner_le_upper P HP q_reduce ltac:(lia)). rewrite wrap_id by done. rewrite div_rounded_run by lia. cbn [mbind option_bind]. by rewrite wrap_id by lia.
Qed.

(** Without a reduction the result is exact to the rounding. *)
Lemma small_exact : q <= max → rounded r (p_reduce * max) q_reduce = rounded r (p * max) q.
Proof.
  intros Hle. destruct factor_bounds as [Hf Hfm]. assert (Hf1 : factor = 1).
  { destruct (Z.le_gt_cases factor 1); [lia|]. assert (1 * max <= (factor - 1) * max) by (apply Z.mul_le_mono_nonneg_r; lia). lia. }
  assert (H1 : ∀ x, rounded r x 1 = x) by (intros x; rewrite <- (Z.mul_1_r x) at 1; apply rounded_exact; lia). by rewrite Hf1, !H1.
Qed.

(** Both numbers are rounded to the same side. *)
Lemma reduced_error : Z.abs (p_reduce * q - p * q_reduce) <= q.
Proof.
  destruct factor_bounds as [Hf _]. pose proof (rounded_rounds r p factor ltac:(lia)) as Hrp. pose proof (rounded_rounds r q factor ltac:(lia)) as Hrq.
  set (a := p_reduce * factor - p). set (b := q_reduce * factor - q). assert (Heq : factor * (p_reduce * q - p * q_reduce) = a * q - b * p) by (unfold a, b; ring).
  assert (Hab : (- factor < a <= 0 ∧ - factor < b <= 0) ∨ (0 <= a < factor ∧ 0 <= b < factor) ∨ (- factor <= 2 * a <= factor ∧ - factor <= 2 * b <= factor)) by (unfold a, b; destruct r; cbn in Hrp, Hrq; lia).
  assert (Hbound : Z.abs (a * q - b * p) <= factor * q).
  { destruct Hab as [[Ha Hb]|[[Ha Hb]|[Ha Hb]]].
    - assert (- factor * q <= a * q <= 0 * q) by (split; apply Z.mul_le_mono_nonneg_r; lia). assert (- factor * q <= b * p <= 0) by (split; [apply Z.le_trans with (- factor * p); [|apply Z.mul_le_mono_nonneg_r; lia]|apply Z.mul_nonpos_nonneg; lia]; apply Z.mul_le_mono_nonpos_l; lia). lia.
    - assert (0 * q <= a * q <= factor * q) by (split; apply Z.mul_le_mono_nonneg_r; lia). assert (0 <= b * p <= factor * q) by (split; [apply Z.mul_nonneg_nonneg; lia|apply Z.mul_le_mono_nonneg; lia]). lia.
    - assert (- factor * q <= 2 * a * q <= factor * q) by (split; apply Z.mul_le_mono_nonneg_r; lia). assert (- factor * p <= 2 * b * p <= factor * p) by (split; apply Z.mul_le_mono_nonneg_r; lia).
      assert (factor * p <= factor * q) by (apply Z.mul_le_mono_nonneg_l; lia). lia. }
  rewrite <- Heq, Z.abs_mul, (Z.abs_eq factor) in Hbound by lia. apply (Zmult_le_reg_r _ _ factor); [lia|]. lia.
Qed.

(** The reduced denominator keeps a third of the accuracy. *)
Lemma reduced_large : max < q → max <= 3 * q_reduce.
Proof.
  intros Hlt. destruct factor_bounds as [Hf [Hf1 Hf2]]. destruct max_fits as [Hm _]. assert (Hf3 : 2 <= factor) by (destruct (Z.le_gt_cases 2 factor); [done|]; assert (factor = 1) as Hone by lia; rewrite Hone in Hf2; lia).
  pose proof (rounded_error r q factor ltac:(lia)) as He. apply (Zmult_le_reg_r _ _ factor); [lia|]. assert (Hlow : (factor - 1) * max - factor <= q_reduce * factor) by lia.
  assert (Hx : 0 <= (factor - 2) * (max - 100)) by (apply Z.mul_nonneg_nonneg; lia). lia.
Qed.

Lemma part_error : Z.abs (rounded r (p_reduce * max) q_reduce * q - p * max) <= 4 * q.
Proof.
  destruct reduced_bounds as [Hqr Hpr]. destruct max_fits as [Hm _]. destruct (Z.le_gt_cases q max) as [Hle|Hgt]; [rewrite small_exact by done; pose proof (rounded_error r (p * max) q Hpos); lia|].
  set (part := rounded r (p_reduce * max) q_reduce). pose proof (rounded_error r (p_reduce * max) q_reduce ltac:(lia)) as He. fold part in He. pose proof reduced_error as Hre. pose proof (reduced_large Hgt) as Hlarge.
  apply (Zmult_le_reg_r _ _ q_reduce); [lia|]. replace (Z.abs (part * q - p * max) * q_reduce) with (Z.abs ((part * q - p * max) * q_reduce)) by (rewrite Z.abs_mul, (Z.abs_eq q_reduce) by lia; done).
  replace ((part * q - p * max) * q_reduce) with ((part * q_reduce - p_reduce * max) * q + max * (p_reduce * q - p * q_reduce)) by ring.
  assert (H1 : Z.abs ((part * q_reduce - p_reduce * max) * q) <= q_reduce * q) by (rewrite Z.abs_mul, (Z.abs_eq q) by lia; apply Z.mul_le_mono_nonneg_r; lia).
  assert (H2 : Z.abs (max * (p_reduce * q - p * q_reduce)) <= max * q) by (rewrite Z.abs_mul, (Z.abs_eq max) by lia; apply Z.mul_le_mono_nonneg_l; lia).
  assert (H3 : max * q <= 3 * q_reduce * q) by (apply Z.mul_le_mono_nonneg_r; lia). lia.
Qed.
End Rational.

(** C29. The fraction [p / q] as a number of parts: there is an error exactly when [q] is zero or less than [p]; otherwise the result is between none and all of the parts, equal to [p * max / q] with the rounding asked for
    when [q] is at most the number of parts, and within four parts of it always; one is all of the parts.  None of the conversions panics. *)
Theorem from_rational_spec (P : PerType) (wn p q : Z) (r : Rounding) : per_wf P → inner_bits P <= wn → is_u wn p → is_u wn q →
  if (q =? 0) || (q <? p) then from_rational_with_rounding P wn p q r = Some None
  else ∃ part, from_rational_with_rounding P wn p q r = Some (Some part) ∧ 0 <= part <= accuracy P ∧
    (q <= accuracy P → rounds r (p * accuracy P) q part) ∧ Z.abs (part * q - p * accuracy P) <= 4 * q ∧ (p = q → part = accuracy P).
Proof.
  intros HP Hwn [Hp _] Hq. pose proof Hq as [Hq0 _]. unfold from_rational_with_rounding. destruct (Z.eqb_spec q 0) as [|Hne]; [done|]. destruct (Z.ltb_spec q p) as [|Hle]; [done|]. cbn [orb].
  pose proof (from_rational_run P wn p q r HP Hwn Hq ltac:(lia) ltac:(lia)) as Hrun. unfold from_rational_with_rounding in Hrun. rewrite (proj2 (Z.eqb_neq q 0) Hne), (proj2 (Z.ltb_ge q p) Hle) in Hrun.
  eexists. split; [exact Hrun|]. split; [apply (part_bounds P wn p q r); done || lia|]. split; [intros Hsmall; rewrite (small_exact P wn p q r) by (done || lia); apply rounded_rounds; lia|].
  split; [apply (part_error P wn p q r); done || lia|]. intros ->. rewrite Z.mul_comm. apply rounded_exact. destruct (reduced_bounds P wn q q r) as [? _]; done || lia.
Qed.

Lemma from_rational_witness : ∃ part, from_rational_with_rounding Perbill 128 (u128_max - 1) u128_max Down = Some (Some part) ∧ 0 <= part <= accuracy Perbill ∧
  (u128_max <= accuracy Perbill → rounds Down ((u128_max - 1) * accuracy Perbill) u128_max part) ∧ Z.abs (part * u128_max - (u128_max - 1) * accuracy Perbill) <= 4 * u128_max ∧ (u128_max - 1 = u128_max → part = accuracy Perbill).
Proof.
  refine (from_rational_spec Perbill 128 (u128_max - 1) u128_max Down _ _ _ _); [exact (Forall_lookup_1 _ _ 3%nat _ types_wf eq_refl)|cbn; lia|unfold is_u, u128_max, umax; lia|unfold is_u, u128_max, umax; lia].
Defined.

(** Rounding down the reduced numbers does not round down the fraction: 198 / 199 is less than one but becomes all of the parts. *)
Example from_rational_not_down : from_rational Percent 64 198 199 = Some 100 ∧ 198 * accuracy Percent / 199 = 99.
Proof. split; vm_compute; done. Qed.

(** ** Arithmetic on fractions *)

Section Arith.
Context (P : PerType).
Hypothesis HP : per_wf P.

Abbreviation max := (accuracy P).

Definition valid (P : PerType) (x : Z) : Prop := 0 <= x <= accuracy P.

Lemma valid_inner x : valid P x → 0 <= x <= umax (inner_bits P).
Proof. unfold valid. destruct HP as ([? ?] & _). lia. Qed.

Lemma product_valid a b : valid P a → valid P b → 0 <= a * b / max <= a.
Proof.
  unfold valid. intros Ha Hb. destruct HP as ([? ?] & _). split; [apply Z.div_pos; [apply Z.mul_nonneg_nonneg|]; lia|]. apply Z.div_le_upper_bound; [lia|]. rewrite Z.mul_comm. apply Z.mul_le_mono_nonneg_r; lia.
Qed.

Lemma mul_parts a b : valid P a → valid P b → mul P a b = a * b / max.
Proof.
  intros Ha Hb. pose proof (product_valid a b Ha Hb) as Hp. pose proof (inner_product P HP a b (valid_inner a Ha) (valid_inner b Hb)) as Hu. pose proof (valid_inner a Ha) as Hi. unfold mul, from_parts. rewrite (wrap_id (upper_bits P)) by done.
  rewrite wrap_id by lia. unfold valid in Ha. lia.
Qed.

Lemma from_rational_parts wn p q : inner_bits P <= wn → is_u wn q → 0 < q → 0 <= p <= q →
  from_rational P wn p q = Some (rounded Down (rounded Down p (factor_of P q) * max) (rounded Down q (factor_of P q))).
Proof. intros Hwn Hq H0 Hp. unfold from_rational. rewrite (from_rational_run P wn p q Down) by done. done. Qed.

(** The square goes through a fraction with a denominator of all the parts squared and is the product all the same. *)
Lemma square_parts a : valid P a → square P a = Some (a * a / max).
Proof.
  intros Ha. destruct (HP) as ([Hm0 Hm1] & Hi & Hu). pose proof (valid_inner a Ha) as Hai. unfold valid in Ha. pose proof (inner_product P HP a a Hai Hai) as Haa. pose proof (inner_product P HP max max ltac:(lia) ltac:(lia)) as Hmm.
  unfold square. rewrite !wrap_id by done. assert (0 < max * max) by (apply Z.mul_pos_pos; lia). assert (a * a <= max * max) by (apply Z.mul_le_mono_nonneg; lia).
  rewrite from_rational_parts; [|lia|done|done|lia]. unfold factor_of. rewrite !rounded_exact by lia. f_equal. unfold rounded. cbn [rounds_up]. lia.
Qed.

(** [v], of [max], is at most the power of [p], of [max]. *)
Definition below_power (p v e : Z) : Prop := v * max ^ e <= p ^ e * max.

Lemma below_power_mul p a b e f : 0 <= p → 0 <= e → 0 <= f → 0 <= a → 0 <= b → below_power p a e → below_power p b f → below_power p (a * b / max) (e + f).
Proof.
  unfold below_power. intros Hp He Hf Ha Hb H1 H2. destruct HP as ([Hm _] & _). rewrite !Z.pow_add_r by lia. assert (Hme : 0 < max ^ e) by (apply Z.pow_pos_nonneg; lia). assert (Hmf : 0 < max ^ f) by (apply Z.pow_pos_nonneg; lia).
  apply (Zmult_le_reg_r _ _ max); [lia|]. assert (Hd : a * b / max * max <= a * b) by (pose proof (Z.div_mod (a * b) max ltac:(lia)); pose proof (Z.mod_pos_bound (a * b) max ltac:(lia)); lia).
  apply Z.le_trans with (a * max ^ e * (b * max ^ f)).
  - replace (a * b / max * (max ^ e * max ^ f) * max) with (a * b / max * max * (max ^ e * max ^ f)) by ring. replace (a * max ^ e * (b * max ^ f)) with (a * b * (max ^ e * max ^ f)) by ring. apply Z.mul_le_mono_nonneg_r; [apply Z.mul_nonneg_nonneg; lia|done].
  - replace (p ^ e * p ^ f * max * max) with (p ^ e * max * (p ^ f * max)) by ring. apply Z.mul_le_mono_nonneg; try done; apply Z.mul_nonneg_nonneg; lia.
Qed.

Lemma below_power_zero p e : 0 <= p → 0 <= e → below_power p 0 e.
Proof. intros Hp He. unfold below_power. rewrite Z.mul_0_l. destruct HP as ([Hm _] & _). apply Z.mul_nonneg_nonneg; [apply Z.pow_nonneg; lia|lia]. Qed.

Lemma pow_loop_run fuel self result exp p e k : valid P self → valid P result → 0 <= p → 0 <= e → 0 <= k → below_power p result e → below_power p self k → 0 <= exp < 2 ^ Z.of_nat fuel →
  ∃ v, pow_loop P fuel self result exp = Some v ∧ 0 <= v <= result ∧ below_power p v (e + k * exp).
Proof.
  revert self result exp e k. induction fuel as [|fuel IH]; intros self result exp e k Hs Hr Hp He Hk Hbr Hbs Hexp; cbn [pow_loop]; unfold is_zero.
  { assert (exp = 0) as -> by (cbn in Hexp; lia). exists result. cbn. rewrite Z.mul_0_r, Z.add_0_r. split; [done|]. split; [unfold valid in Hr; lia|done]. }
  destruct (Z.ltb_spec 0 exp) as [Hlt|Hge]; cbn [andb]; [|assert (exp = 0) as -> by lia; exists result; rewrite Z.mul_0_r, Z.add_0_r; split; [done|]; split; [unfold valid in Hr; lia|done]].
  destruct (Z.eqb_spec result 0) as [->|Hne]; cbn [negb].
  { exists 0. split; [done|]. split; [lia|]. apply below_power_zero; [done|]. assert (0 <= k * exp) by (apply Z.mul_nonneg_nonneg; lia). lia. }
  pose proof (Z.div_mod exp 2 ltac:(lia)) as Hdm. pose proof (Z.mod_pos_bound exp 2 ltac:(lia)) as Hmod. rewrite Nat2Z.inj_succ, Z.pow_succ_r in Hexp by lia. pose proof (product_valid self self Hs Hs) as Hsq.
  assert (Hsq' : valid P (self * self / max)) by (unfold valid in *; lia). assert (Hbsq : below_power p (self * self / max) (2 * k)) by (replace (2 * k) with (k + k) by lia; unfold valid in Hs; apply below_power_mul; done || lia).
  destruct (Z.eqb_spec (exp mod 2) 0) as [Heven|Hodd]; rewrite square_parts by done; cbn [mbind option_bind].
  - destruct (IH (self * self / max) result (exp / 2) e (2 * k)) as (v & -> & Hv & Hbv); try done; [lia|lia|]. exists v. split; [done|]. split; [done|]. by replace (k * exp) with (2 * k * (exp / 2)) by (rewrite Hdm at 2; lia).
  - rewrite mul_parts by done. pose proof (product_valid result self Hr Hs) as Hrs. assert (Hhalf : (exp - 1) / 2 = exp / 2) by (symmetry; apply (Z.div_unique _ _ _ 0); lia). rewrite Hhalf.
    destruct (IH (self * self / max) (result * self / max) (exp / 2) (e + k) (2 * k)) as (v & -> & Hv & Hbv); try done; [unfold valid in *; lia|lia|lia|unfold valid in *; apply below_power_mul; done || lia|lia|].
    exists v. split; [done|]. split; [lia|]. replace (e + k * exp) with (e + k + 2 * k * (exp / 2)); [done|]. rewrite Hdm at 2. replace (exp mod 2) with 1 by lia. ring.
Qed.

(** C30. Arithmetic on fractions stays between zero and one: a product is rounded down and the square, which is computed another way, agrees with it; a power, whose loop ends within 64 turns, is never above the exact one and never above
    the base; sums and differences saturate at one and at zero, and the checked ones fail exactly there. *)
Theorem per_thing_arithmetic (a b exp : Z) : valid P a → valid P b → 0 <= exp < 2 ^ 64 →
  (mul P a b = a * b / max ∧ 0 <= a * b / max <= a `min` b) ∧ square P a = Some (mul P a a) ∧
  (∃ v, pow P a exp = Some v ∧ valid P v ∧ v * max ^ exp <= a ^ exp * max ∧ (0 < exp → v <= a) ∧ (exp = 0 → v = max)) ∧
  saturating_add_per P a b = (a + b) `min` max ∧ saturating_sub_per P a b = (a - b) `max` 0 ∧
  checked_add_per P a b = (if a + b <=? max then Some (a + b) else None) ∧ checked_sub_per P a b = (if b <=? a then Some (a - b) else None).
Proof.
  intros Ha Hb Hexp. destruct (HP) as ([Hm0 Hm1] & _). split; [|split; [|split]].
  - rewrite mul_parts by done. pose proof (product_valid a b Ha Hb). pose proof (product_valid b a Hb Ha) as Hba. rewrite (Z.mul_comm b a) in Hba. split; [done|lia].
  - rewrite mul_parts by done. by apply square_parts.
  - unfold pow, one, from_parts, is_one. rewrite Z.min_id. destruct (Z.eqb_spec exp 0) as [->|Hne]; cbn [orb].
    { exists max. split; [done|]. rewrite !Z.pow_0_r. unfold valid in *. split_and!; try done; lia. }
    destruct (Z.eqb_spec a max) as [->|Hne1]; [exists max; split; [done|]; unfold valid in *; split_and!; try done; lia|].
    destruct (pow_loop_run 64 a a (exp - 1) a 1 1) as (v & -> & Hv & Hbv); try done; [unfold valid in Ha; lia|unfold below_power; rewrite !Z.pow_1_r; lia|unfold below_power; rewrite !Z.pow_1_r; lia|change (Z.of_nat 64) with 64; lia|].
    exists v. split; [done|]. replace (1 + 1 * (exp - 1)) with exp in Hbv by lia. unfold valid in *. split_and!; try done; lia.
  - unfold valid in *. unfold saturating_add_per, saturating_sub_per, checked_add_per, checked_sub_per, checked_add, checked_sub, saturating_add, saturating_sub, from_parts. split; [lia|]. split; [lia|]. split.
    + destruct (Z.leb_spec (a + b) (umax (inner_bits P))); cbn [mbind option_bind]; destruct (Z.leb_spec (a + b) max); try lia; [rewrite (proj2 (Z.ltb_ge _ _)) by lia; f_equal; lia|by rewrite (proj2 (Z.ltb_lt _ _)) by lia|done].
    + destruct (Z.leb_spec b a); [|done]. cbn [mbind option_bind]. f_equal. lia.
Qed.
End Arith.

Lemma per_thing_arithmetic_witness : ∃ v, pow Perbill 999999999 7 = Some v ∧ valid Perbill v ∧
  v * accuracy Perbill ^ 7 <= 999999999 ^ 7 * accuracy Perbill ∧ (0 < 7 → v <= 999999999) ∧ (7 = 0 → v = accuracy Perbill).
Proof.
  refine (proj1 (proj2 (proj2 (per_thing_arithmetic Perbill _ 999999999 1 7 _ _ _)))); [exact (Forall_lookup_1 _ _ 3%nat _ types_wf eq_refl)|unfold valid; cbn [accuracy Perbill]; lia|unfold valid; cbn [accuracy Perbill]; lia|lia].
Defined.

(** For [PerU16] all of the parts are the largest number of the type, and the sum of fractions that is not checked wraps around. *)
Example peru16_add_wraps : add PerU16 65535 1 = 0 ∧ saturating_add_per PerU16 65535 1 = 65535 ∧ umax (inner_bits PerU16) < 2 * accuracy PerU16.
Proof. done. Qed.

(** The two conversions from percents agree. *)
Lemma from_percent_spec P x : per_wf P → 0 <= x <= umax (inner_bits P) → Some (from_percent P x) = from_rational P (inner_bits P) (x `min` 100) 100.
Proof.
  intros HP Hx. destruct (HP) as ([Hm0 Hm1] & Hi & Hu). rewrite from_rational_parts; [|done|lia|unfold is_u; lia|lia|lia]. f_equal. rewrite (small_exact P (inner_bits P) (x `min` 100) 100 Down) by (done || unfold is_u; lia).
  unfold from_percent. replace (if 100 <? x then 100 else x) with (x `min` 100) by (destruct (Z.ltb_spec 100 x); lia). rewrite (wrap_id (upper_bits P)) by (apply (inner_product P HP); lia).
  unfold rounded. cbn [rounds_up]. rewrite Z.add_0_r. apply wrap_id. split; [apply Z.div_pos; [apply Z.mul_nonneg_nonneg; lia|lia]|]. apply Z.le_trans with (accuracy P); [|done]. apply Z.div_le_upper_bound; [lia|]. apply Z.mul_le_mono_nonneg_r; lia.
Qed.

(** Decoding accepts the valid numbers of parts only; the compact form is clamped. *)
Lemma decode_valid P i v : per_wf P → 0 <= i → (decode P i = Some v → valid P v ∧ v = i) ∧ valid P (decode_from P i) ∧ (valid P i → decode P i = Some i ∧ decode_from P i = i).
Proof.
  intros ([? _] & _) Hi. unfold decode, decode_from, from_parts, valid. split; [|split; [lia|]].
  - destruct (Z.leb_spec i (accuracy P)); [|done]. intros [= <-]. lia.
  - intros Hv. rewrite (proj2 (Z.leb_le _ _)) by lia. split; [done|lia].
Qed.
