(* ===== verification/FixedPoint.v ===== *)
(** Decimal fixed-point numbers ([primitives/arithmetic/src/fixed_point.rs]): [FixedI64], [FixedU64], [FixedI128] and [FixedU128], which one macro implements over the trait [FixedPointNumber].

    An integer type is its width and whether it is signed; a fixed-point type is the integer type of its numerator and the denominator; a value is its numerator.  The outer [option] of a result is [None] for a panic (and for the
    fuel of the loops of [Arith128], of which there is enough), the inner one is the [Option] that the function returns. *)

From S2P Require Import Prelude Arith128 PerThings.

(** ** Integer types *)

Record IntType := mkInt { signed : bool; bits : Z }.

Definition int_min (t : IntType) : Z := if signed t then - 2 ^ (bits t - 1) else 0.
Definition int_max (t : IntType) : Z := if signed t then 2 ^ (bits t - 1) - 1 else 2 ^ bits t - 1.
Definition fits_in (t : IntType) (z : Z) : bool := (int_min t <=? z) && (z <=? int_max t).
Definition checked (t : IntType) (z : Z) : option Z := if fits_in t z then Some z else None.

(** What the saturating operations do to a result. *)
Definition clamp (t : IntType) (z : Z) : Z := (z `max` int_min t) `min` int_max t.

(** ** Numbers with a sign *)

Record I129 := mkI129 { value : Z; negative : bool }.

Definition into_i129 (t : IntType) (n : Z) : I129 :=
  if n <? 0 then mkI129 (match checked t (- n) with Some n => n | None => saturating_add 128 (int_max t) 1 end) true
  else mkI129 n false.

Definition from_i129 (t : IntType) (n : I129) : option Z :=
  let max_plus_one := saturating_add 128 (int_max t) 1 in
  if negative n && (int_min t <? 0) && (value n =? max_plus_one) then Some (int_min t)
  else
    unsigned_inner ← checked t (value n);
    if negative n then checked t (- unsigned_inner) else Some unsigned_inner.

(** [as $inner_type] of a number that is not negative *)
Definition cast (t : IntType) (z : Z) : Z := if signed t then (z + 2 ^ (bits t - 1)) mod 2 ^ bits t - 2 ^ (bits t - 1) else wrap (bits t) z.

(** The [const] versions of the macro. *)
Definition const_into_i129 (t : IntType) (n : Z) : I129 :=
  if n <? 0 then mkI129 (match checked t (- n) with Some n => wrap 128 n | None => saturating_add 128 (int_max t) 1 end) true
  else mkI129 (wrap 128 n) false.

Definition const_from_i129 (t : IntType) (n : I129) : option Z :=
  let max_plus_one := saturating_add 128 (int_max t) 1 in
  if negative n && (int_min t <? 0) && (value n =? max_plus_one) then Some (int_min t)
  else
    let unsigned_inner := cast t (value n) in
    if negb (wrap 128 unsigned_inner =? value n) || negb (Bool.eqb (0 <? unsigned_inner) (0 <? value n)) then None
    else if negative n then checked t (- unsigned_inner) else Some unsigned_inner.

Definition to_bound (r : IntType) (n m : Z) : Z := if negb (Bool.eqb (n <? 0) (m <? 0)) then int_min r else int_max r.

(** ** Fixed-point types *)

Record FixedType := mkFixed { inner : IntType; DIV : Z }.

Definition FixedI64 : FixedType := mkFixed (mkInt true 64) 1000000000.
Definition FixedU64 : FixedType := mkFixed (mkInt false 64) 1000000000.
Definition FixedI128 : FixedType := mkFixed (mkInt true 128) 1000000000000000000.
Definition FixedU128 : FixedType := mkFixed (mkInt false 128) 1000000000000000000.

Module Fixed.
Section Fixed.
Context (F : FixedType).

Abbreviation t := (inner F).
Abbreviation div := (DIV F).

(** [multiply_by_rational_with_rounding(..).and_then(|value| from_i129(I129 { value, negative }))] *)
Definition signed_rational (r : IntType) (a b c : Z) (rounding : Rounding) (negative : bool) : option (option Z) :=
  v ← multiply_by_rational_with_rounding a b c rounding;
  Some (value ← v; from_i129 r (mkI129 value negative)).

Definition one : Z := div.

Definition saturating_from_integer (n : IntType) (int : Z) : Z :=
  let i := into_i129 n int in
  match from_i129 t (mkI129 (saturating_mul 128 (value i) div) (negative i)) with Some v => v | None => to_bound t int 0 end.

Definition checked_from_integer (int : Z) : option Z := checked t (int * div).

Definition checked_from_rational (tn td : IntType) (n d : Z) : option (option Z) :=
  if d =? 0 then Some None
  else
    let n := into_i129 tn n in
    let d := into_i129 td d in
    let neg := negb (Bool.eqb (negative n) (negative d)) in
    signed_rational t (value n) div (value d) (from_signed Minor neg) neg.

Definition saturating_from_rational (tn td : IntType) (n d : Z) : option Z :=
  if d =? 0 then None
  else
    v ← checked_from_rational tn td n d;
    Some (match v with Some v => v | None => to_bound t n d end).

(** ** Products and quotients with integers *)

Definition checked_mul_int (tn : IntType) (self n : Z) : option (option Z) :=
  let lhs := into_i129 t self in
  let rhs := into_i129 tn n in
  let neg := negb (Bool.eqb (negative lhs) (negative rhs)) in
  signed_rational tn (value lhs) (value rhs) div (from_signed Minor neg) neg.

Definition saturating_mul_int (tn : IntType) (self n : Z) : option Z :=
  v ← checked_mul_int tn self n;
  Some (match v with Some v => v | None => to_bound tn self n end).

Definition checked_div_int (tn : IntType) (self d : Z) : option Z :=
  let lhs := into_i129 t self in
  let rhs := into_i129 tn d in
  let neg := negb (Bool.eqb (negative lhs) (negative rhs)) in
  n ← (if value rhs =? 0 then None else Some (value lhs / value rhs));
  value ← (if div =? 0 then None else Some (n / div));
  from_i129 tn (mkI129 value neg).

Definition saturating_div_int (tn : IntType) (self d : Z) : option Z :=
  if d =? 0 then None
  else Some (match checked_div_int tn self d with Some v => v | None => to_bound tn self d end).

(** [Saturating] on the numerators *)
Definition saturating_add (self rhs : Z) : Z := clamp t (self + rhs).
Definition saturating_sub (self rhs : Z) : Z := clamp t (self - rhs).

Definition saturating_mul_acc_int (tn : IntType) (self n : Z) : option Z :=
  if (self <? 0) && (0 <? n) then
    v ← saturating_mul_int tn (saturating_sub 0 self) n;
    Some (clamp tn (n - v))
  else
    v ← saturating_mul_int tn self n;
    Some (clamp tn (v + n)).

(** ** Products and quotients of fixed-point numbers *)

Definition checked_mul (self other : Z) : option (option Z) :=
  let lhs := into_i129 t self in
  let rhs := into_i129 t other in
  let neg := negb (Bool.eqb (negative lhs) (negative rhs)) in
  signed_rational t (value lhs) (value rhs) div (from_signed Minor neg) neg.

Definition checked_div (self other : Z) : option (option Z) :=
  if other =? 0 then Some None
  else
    let lhs := into_i129 t self in
    let rhs := into_i129 t other in
    let neg := negb (Bool.eqb (negative lhs) (negative rhs)) in
    signed_rational t (value lhs) div (value rhs) (from_signed Minor neg) neg.

(** [match multiply_by_rational_with_rounding(..) { Some(value) => Self::from_i129(I129 { value, negative }), None => None }] *)
Definition const_signed_rational (a b c : Z) (rounding : Rounding) (negative : bool) : option (option Z) :=
  v ← multiply_by_rational_with_rounding a b c rounding;
  Some (value ← v; const_from_i129 t (mkI129 value negative)).

Definition const_checked_mul_with_rounding (self other : Z) (rounding : SignedRounding) : option (option Z) :=
  let lhs := const_into_i129 t self in
  let rhs := const_into_i129 t other in
  let neg := negb (Bool.eqb (negative lhs) (negative rhs)) in
  const_signed_rational (value lhs) (value rhs) div (from_signed rounding neg) neg.

Definition checked_rounding_div (self other : Z) (rounding : SignedRounding) : option (option Z) :=
  if other =? 0 then Some None
  else
    let lhs := const_into_i129 t self in
    let rhs := const_into_i129 t other in
    let neg := negb (Bool.eqb (negative lhs) (negative rhs)) in
    const_signed_rational (value lhs) div (value rhs) (from_signed rounding neg) neg.

Definition saturating_mul (self rhs : Z) : option Z :=
  v ← checked_mul self rhs;
  Some (match v with Some v => v | None => to_bound t self rhs end).

(** [for i in 0..msb_pos], where [n] turns are left. *)
Fixpoint pow_loop (n : nat) (i exp result pow_val : Z) : option Z :=
  match n with
  | O => Some result
  | S n =>
      result ← (if 0 <? Z.land (Z.shiftl 1 i) exp then saturating_mul result pow_val else Some result);
      pow_val ← saturating_mul pow_val pow_val;
      pow_loop n (i + 1) exp result pow_val
  end.

(** The exponent is a [usize] and cast to 32 bits. *)
Definition saturating_pow (self exp : Z) : option Z :=
  if exp =? 0 then Some (saturating_from_integer (mkInt true 32) 1)
  else
    let exp := wrap 32 exp in
    let msb_pos := if exp =? 0 then 0 else Z.log2 exp + 1 in
    pow_loop (Z.to_nat msb_pos) 0 exp (saturating_from_integer (mkInt true 32) 1) self.

Definition reciprocal (self : Z) : option (option Z) := checked_div one self.

(** ** Integer and fractional parts *)

Definition saturating_abs (self : Z) : Z := if 0 <=? self then self else match checked t (- self) with Some v => v | None => int_max t end.
Definition is_one (self : Z) : bool := self =? 1.
Definition is_positive (self : Z) : bool := 0 <? self.
Definition is_negative (self : Z) : bool := self <? 0.

Definition trunc (self : Z) : option Z := if div =? 0 then None else checked t (self `quot` div * div).

Definition frac (self : Z) : option Z :=
  integer ← trunc self;
  let fractional := saturating_sub self integer in
  Some (if integer =? 0 then fractional else saturating_abs fractional).

Definition ceil (self : Z) : option Z :=
  if is_negative self then trunc self
  else
    f ← frac self;
    if f =? 0 then Some self else trunc (saturating_add self one).

Definition floor (self : Z) : option Z := if is_negative self then trunc (saturating_sub self one) else trunc self.

Definition round (self : Z) : option Z :=
  f ← frac self;
  n ← saturating_mul f (saturating_from_integer (mkInt true 32) 10);
  if n <? saturating_from_integer (mkInt true 32) 5 then trunc self
  else if is_positive self then trunc (saturating_add self one)
  else trunc (saturating_sub self one).

(** ** Square root *)

Definition try_sqrt (self : Z) : option (option Z) :=
  if self =? 0 then Some (Some 0)
  else if self <? 1 then Some None
  else
    r ← (if self * div <=? umax 128 then Arith128.sqrt (self * div)
         else (s ← Arith128.sqrt self; d ← Arith128.sqrt div; Some (wrap 128 (s * d))));
    Some (Some (cast t r)).

(** ** Conversion to fractions of one *)

Definition into_perbill (self : Z) : option Z :=
  if self <=? 0 then Some (PerThings.zero Perbill)
  else if div <=? self then Some (PerThings.one Perbill)
  else
    v ← multiply_by_rational_with_rounding self 1000000000 div NearestPrefDown;
    match v with
    | Some value => if umax 32 <? value then None else Some (from_parts Perbill value)
    | None => Some (PerThings.zero Perbill)
    end.

Definition into_clamped_perthing (P : PerType) (self : Z) : option Z :=
  if self <? 0 then Some (PerThings.zero P)
  else if one <? self then Some (PerThings.one P)
  else from_rational P 128 self div.
End Fixed.
End Fixed.

(** The values of the tests. *)
Example fixed_tests : let from n d := Fixed.saturating_from_rational FixedI64 (mkInt true 32) (mkInt true 32) n d in let int n := Fixed.saturating_from_integer FixedI64 (mkInt true 32) n in
  (from 5 2 ≫= Fixed.ceil FixedI64) = Some (int 3) ∧ (from (-5) 2 ≫= Fixed.ceil FixedI64) = Some (int (-2)) ∧
  (from 5 2 ≫= Fixed.floor FixedI64) = Some (int 2) ∧ (from (-5) 2 ≫= Fixed.floor FixedI64) = Some (int (-3)) ∧
  (from 5 2 ≫= Fixed.round FixedI64) = Some (int 3) ∧ (from (-5) 2 ≫= Fixed.round FixedI64) = Some (int (-3)) ∧
  Fixed.round FixedI64 (int_max (inner FixedI64)) = Fixed.trunc FixedI64 (int_max (inner FixedI64)) ∧ Fixed.floor FixedI64 (int_min (inner FixedI64)) = Fixed.trunc FixedI64 (int_min (inner FixedI64)).
Proof. vm_compute. repeat split. Qed.
