(* ===== verification/FixedPointProps.v ===== *)
(** Fixed-point numbers: products and quotients are exact to the rounding and fail, or saturate, exactly when the result does not fit; the integral parts; the cases in which [floor] and [round] are not what their names say. *)

From S2P Require Import Prelude Arith128 Arith128Props PerThings PerThingsProps FixedPoint.

Definition int_wf (t : IntType) : Prop := 1 < bits t <= 128.
Definition in_range (t : IntType) (z : Z) : Prop := int_min t <= z <= int_max t.

(** What the macro relies on: the denominator, and ten of it, fit. *)
Definition fixed_wf (F : FixedType) : Prop := int_wf (inner F) ∧ 2 <= DIV F ∧ 10 * DIV F <= int_max (inner F).

Lemma fixed_types_wf : Forall fixed_wf [FixedI64; FixedU64; FixedI128; FixedU128].
Proof. repeat constructor; cbn; lia. Qed.

(** ** Integers and signs *)

Section Types.
Context (t : IntType).
Hypothesis Ht : int_wf t.

(** The lower bound is zero, or minus one more than the upper bound; both are within 128 bits. *)
Lemma int_bounds : 0 < int_max t < W ∧ (signed t = false ∧ int_min t = 0 ∨ signed t = true ∧ int_min t = - (int_max t + 1) ∧ int_max t + 1 <= 2 ^ 127).
Proof.
  destruct Ht as [H1 H2]. unfold int_min, int_max. destruct (signed t).
  - assert (2 ^ 1 <= 2 ^ (bits t - 1)) by (apply Z.pow_le_mono_r; lia). assert (2 ^ (bits t - 1) <= 2 ^ 127) by (apply Z.pow_le_mono_r; lia). split; [lia|]. right. split; [done|]. lia.
  - assert (2 ^ 1 <= 2 ^ bits t) by (apply Z.pow_le_mono_r; lia). assert (2 ^ bits t <= 2 ^ 128) by (apply Z.pow_le_mono_r; lia). split; [lia|]. by left.
Qed.

Lemma checked_in z : in_range t z → checked t z = Some z.
Proof. intros [H1 H2]. unfold checked, fits_in. by rewrite (proj2 (Z.leb_le _ _) H1), (proj2 (Z.leb_le _ _) H2). Qed.

Lemma checked_out z : z < int_min t ∨ int_max t < z → checked t z = None.
Proof. intros Hz. unfold checked, fits_in. destruct (Z.leb_spec (int_min t) z), (Z.leb_spec z (int_max t)); done || lia. Qed.

Lemma clamp_in z : in_range t z → clamp t z = z.
Proof. unfold in_range, clamp. lia. Qed.

Lemma into_i129_run n : in_range t n → into_i129 t n = mkI129 (Z.abs n) (n <? 0) ∧ is_u128 (Z.abs n).
Proof.
  intros Hn. destruct int_bounds as [Hmax Hmin]. unfold in_range in Hn. split; [|unfold is_u, umax; lia]. unfold into_i129. destruct (Z.ltb_spec n 0) as [Hlt|Hge]; [|by rewrite Z.abs_eq by lia]. f_equal.
  destruct Hmin as [[_ Hmin]|(_ & Hmin & Hmax')]; [lia|]. rewrite Z.abs_neq by lia. destruct (Z.le_gt_cases (- n) (int_max t)); [by rewrite checked_in by (unfold in_range; lia)|].
  rewrite checked_out by lia. unfold saturating_add, umax. lia.
Qed.

Definition with_sign (neg : bool) (v : Z) : Z := if neg then - v else v.

Lemma from_i129_run v neg : 0 <= v → from_i129 t (mkI129 v neg) = checked t (with_sign neg v).
Proof.
  intros Hv. destruct int_bounds as [Hmax Hmin]. unfold from_i129, with_sign. cbn [value negative]. unfold saturating_add, umax. destruct neg; cbn [andb].
  2: { destruct (Z.le_gt_cases v (int_max t)); [by rewrite checked_in by (unfold in_range; lia)|by rewrite checked_out by lia]. }
  destruct (Z.ltb_spec (int_min t) 0) as [Hneg|Hneg]; cbn [andb].
  - destruct Hmin as [[_ Hmin]|(_ & Hmin & Hmax')]; [lia|]. rewrite Z.min_l by lia. destruct (Z.eqb_spec v (int_max t + 1)) as [->|Hne]; [rewrite checked_in by (unfold in_range; lia); f_equal; lia|].
    destruct (Z.le_gt_cases v (int_max t)); [by rewrite (checked_in v) by (unfold in_range; lia)|by rewrite !checked_out by lia].
  - destruct (Z.le_gt_cases v (int_max t)); [by rewrite (checked_in v) by (unfold in_range; lia)|by rewrite !checked_out by lia].
Qed.

Lemma cast_id v : 0 <= v <= int_max t → cast t v = v.
Proof.
  intros Hv. destruct Ht as [Hb _]. unfold cast, int_max in *. destruct (signed t).
  - replace (2 ^ bits t) with (2 * 2 ^ (bits t - 1)) by (rewrite <- Z.pow_succ_r by lia; f_equal; lia). rewrite Z.mod_small by lia. lia.
  - unfold wrap. apply Z.mod_small. lia.
Qed.

Lemma cast_range v : in_range t (cast t v).
Proof.
  destruct Ht as [Hb _]. unfold in_range, cast, int_min, int_max, wrap. destruct (signed t).
  - assert (H2 : 2 ^ bits t = 2 * 2 ^ (bits t - 1)) by (rewrite <- Z.pow_succ_r by lia; f_equal; lia). pose proof (Z.mod_pos_bound (v + 2 ^ (bits t - 1)) (2 ^ bits t) ltac:(apply Z.pow_pos_nonneg; lia)). lia.
  - pose proof (Z.mod_pos_bound v (2 ^ bits t) ltac:(apply Z.pow_pos_nonneg; lia)). lia.
Qed.

(** The [const] versions agree with the generic ones. *)
Lemma const_into_i129_eq n : in_range t n → const_into_i129 t n = into_i129 t n.
Proof.
  intros Hn. destruct int_bounds as [Hmax Hmin]. unfold in_range in Hn. unfold const_into_i129, into_i129. destruct (Z.ltb_spec n 0); [|by rewrite wrap_id by (unfold umax; lia)].
  f_equal. unfold checked. destruct (fits_in t (- n)) eqn:Hf; [|done]. unfold fits_in in Hf. apply andb_prop in Hf as [_ Hf%Z.leb_le]. apply wrap_id. unfold umax. lia.
Qed.

Lemma const_from_i129_eq v neg : 0 <= v < W → const_from_i129 t (mkI129 v neg) = from_i129 t (mkI129 v neg).
Proof.
  intros Hv. destruct int_bounds as [Hmax Hmin]. unfold const_from_i129, from_i129. cbn [value negative]. destruct (_ && _ && _); [done|]. destruct (Z.le_gt_cases v (int_max t)) as [Hle|Hgt].
  - rewrite cast_id, wrap_id, Z.eqb_refl, Bool.eqb_reflx, (checked_in v) by (unfold umax, in_range; lia). done.
  - rewrite (checked_out v) by lia. cbn [mbind option_bind]. pose proof (cast_range v) as Hc. unfold in_range in Hc. destruct (Z.eqb_spec (wrap 128 (cast t v)) v) as [He|He]; [|done]. cbn [negb orb].
    assert (Hn : cast t v < 0) by (destruct (Z.le_gt_cases 0 (cast t v)); [rewrite wrap_id in He by (unfold umax; lia); lia|done]). by rewrite (proj2 (Z.ltb_ge 0 _)), (proj2 (Z.ltb_lt 0 v)) by lia.
Qed.

Lemma signed_rational_run a b c r neg : is_u128 a → is_u128 b → is_u128 c → 0 < c →
  Fixed.signed_rational t a b c r neg = Some (checked t (with_sign neg (rounded r (a * b) c))).
Proof.
  intros Ha Hb Hc Hpos. unfold Fixed.signed_rational. rewrite mulrat_run by done. rewrite (proj2 (Z.eqb_neq c 0)) by lia. cbv zeta. fold (rounded r (a * b) c). cbn [mbind option_bind]. f_equal.
  assert (Hv : 0 <= rounded r (a * b) c) by (apply rounded_nonneg; [done|]; unfold is_u in *; apply Z.mul_nonneg_nonneg; lia). destruct (Z.ltb_spec (rounded r (a * b) c) W) as [Hlt|Hge]; [by apply from_i129_run|].
  cbn. symmetry. apply checked_out. destruct int_bounds as [Hmax Hmin]. unfold with_sign. destruct neg; lia.
Qed.

Lemma const_signed_rational_eq F a b c r neg : inner F = t → is_u128 a → is_u128 b → is_u128 c → Fixed.const_signed_rational F a b c r neg = Fixed.signed_rational t a b c r neg.
Proof.
  intros HF Ha Hb Hc. unfold Fixed.const_signed_rational, Fixed.signed_rational. rewrite HF. rewrite mulrat_run by done. cbn [mbind option_bind]. f_equal. destruct (c =? 0) eqn:Hc0; [done|]. apply Z.eqb_neq in Hc0. cbv zeta.
  fold (rounded r (a * b) c). unfold is_u in *. assert (0 <= rounded r (a * b) c) by (apply rounded_nonneg; [lia|apply Z.mul_nonneg_nonneg; lia]). destruct (Z.ltb_spec (rounded r (a * b) c) W); [|done]. by apply const_from_i129_eq.
Qed.

(** A result that does not fit is on the side that its sign says. *)
Lemma to_bound_run a b v : (v ≠ 0 → (v <? 0) = negb (Bool.eqb (a <? 0) (b <? 0))) → match checked t v with Some v => v | None => to_bound t a b end = clamp t v.
Proof.
  intros Hs. destruct int_bounds as [Hmax Hmin]. unfold checked, fits_in, clamp, to_bound. destruct (Z.leb_spec (int_min t) v), (Z.leb_spec v (int_max t)); cbn [andb]; try lia.
  - rewrite <- Hs by lia. rewrite (proj2 (Z.ltb_ge _ _)) by lia. lia.
  - rewrite <- Hs by lia. rewrite (proj2 (Z.ltb_lt _ _)) by lia. lia.
Qed.
End Types.

(** ** Signed rounding *)

(** [v] is the quotient of [n], of either sign, by [c], rounded. *)
Definition srounds (r : SignedRounding) (n c v : Z) : Prop :=
  match r with
  | High => rounds Up n c v
  | Low => rounds Down n c v
  | NearestPrefHigh => rounds NearestPrefUp n c v
  | NearestPrefLow => rounds NearestPrefDown n c v
  | Major => rounds (if n <? 0 then Down else Up) n c v
  | Minor => rounds (if n <? 0 then Up else Down) n c v
  | NearestPrefMajor => rounds (if n <? 0 then NearestPrefDown else NearestPrefUp) n c v
  | NearestPrefMinor => rounds (if n <? 0 then NearestPrefUp else NearestPrefDown) n c v
  end.

Definition opposite (r : Rounding) : Rounding := match r with Up => Down | Down => Up | NearestPrefUp => NearestPrefDown | NearestPrefDown => NearestPrefUp end.

Lemma rounds_opposite r n c v : rounds r n c v → rounds (opposite r) (- n) c (- v).
Proof. destruct r; cbn; lia. Qed.

(** Rounding the absolute value by [from_signed], and giving it the sign, rounds the signed number. *)
Lemma from_signed_rounds r n c neg : 0 < c → (n ≠ 0 → neg = (n <? 0)) → srounds r n c (with_sign neg (rounded (from_signed r neg) (Z.abs n) c)).
Proof.
  intros Hc Hneg. destruct (Z.eq_dec n 0) as [->|Hne].
  { rewrite Z.abs_0. assert (H0 : rounded (from_signed r neg) 0 c = 0) by (rewrite <- (rounded_exact (from_signed r neg) 0 c Hc) at 2; f_equal; lia). rewrite H0. unfold with_sign. destruct neg, r; cbn; lia. }
  rewrite Hneg by done. unfold with_sign. pose proof (rounded_rounds (from_signed r (n <? 0)) (Z.abs n) c Hc) as Hr. unfold srounds. destruct (Z.ltb_spec n 0).
  - apply rounds_opposite in Hr. rewrite Z.abs_neq, Z.opp_involutive in Hr by lia. rewrite Z.abs_neq by lia. destruct r; exact Hr.
  - rewrite Z.abs_eq in * by lia. destruct r; exact Hr.
Qed.

(** Rounding to the minor side is the division that truncates. *)
Lemma minor_quot n m neg : m ≠ 0 → (n ≠ 0 → neg = negb (Bool.eqb (n <? 0) (m <? 0))) → with_sign neg (rounded (from_signed Minor neg) (Z.abs n) (Z.abs m)) = n `quot` m.
Proof.
  intros Hm Hneg. rewrite Z.quot_div by done. cbn [from_signed]. unfold rounded. cbn [rounds_up]. replace (match neg with true | _ => Down end) with Down by (by destruct neg). cbn [rounds_up]. rewrite Z.add_0_r.
  destruct (Z.eq_dec n 0) as [->|Hn]; [rewrite Z.abs_0, Z.div_0_l by lia; by destruct neg|]. rewrite Hneg by done. unfold with_sign. destruct (Z.ltb_spec n 0), (Z.ltb_spec m 0); cbn [Bool.eqb negb].
  - rewrite (Z.sgn_neg n), (Z.sgn_neg m) by lia. lia.
  - rewrite (Z.sgn_neg n), (Z.sgn_pos m) by lia. lia.
  - rewrite (Z.sgn_pos n), (Z.sgn_neg m) by lia. lia.
  - rewrite (Z.sgn_pos n), (Z.sgn_pos m) by lia. lia.
Qed.

Lemma product_sign a b : a * b ≠ 0 → (a * b <? 0) = negb (Bool.eqb (a <? 0) (b <? 0)).
Proof. intros Hne. destruct (Z.ltb_spec a 0), (Z.ltb_spec b 0), (Z.ltb_spec (a * b) 0); cbn; done || nia. Qed.

Lemma quot_sign n m : m ≠ 0 → n `quot` m ≠ 0 → (n `quot` m <? 0) = negb (Bool.eqb (n <? 0) (m <? 0)).
Proof.
  intros Hm. rewrite Z.quot_div by done. assert (Hq : 0 <= Z.abs n / Z.abs m) by (apply Z.div_pos; lia). intros Hne. destruct (Z.eq_dec n 0) as [->|Hn]; [destruct Hne; by rewrite Z.sgn_0|].
  destruct (Z.ltb_spec n 0), (Z.ltb_spec m 0); cbn [Bool.eqb negb].
  - rewrite (Z.sgn_neg n), (Z.sgn_neg m) in * by lia. apply Z.ltb_ge. lia.
  - rewrite (Z.sgn_neg n), (Z.sgn_pos m) in * by lia. apply Z.ltb_lt. lia.
  - rewrite (Z.sgn_pos n), (Z.sgn_neg m) in * by lia. apply Z.ltb_lt. lia.
  - rewrite (Z.sgn_pos n), (Z.sgn_pos m) in * by lia. apply Z.ltb_ge. lia.
Qed.

(** ** Products and quotients *)

Section Ops.
Context (F : FixedType).
Hypothesis HF : fixed_wf F.

Abbreviation t := (inner F).
Abbreviation div := (DIV F).

Lemma div_u128 : is_u128 div ∧ 0 < div ∧ int_wf t ∧ in_range t div.
Proof. destruct HF as (Ht & Hd & Hm). destruct (int_bounds t Ht) as [Hmax Hmin]. unfold is_u, umax, in_range. split_and!; try done; lia. Qed.

(** A product over the denominator, and a quotient of a multiple of it, with the operands of any types, as the operations compute them. *)
Lemma product_run tr ta tb a b R : int_wf tr → int_wf ta → int_wf tb → in_range ta a → in_range tb b →
  let neg := negb (Bool.eqb (negative (into_i129 ta a)) (negative (into_i129 tb b))) in
  Fixed.signed_rational tr (value (into_i129 ta a)) (value (into_i129 tb b)) div (from_signed R neg) neg =
  Some (checked tr (with_sign neg (rounded (from_signed R neg) (Z.abs (a * b)) div))) ∧ neg = negb (Bool.eqb (a <? 0) (b <? 0)).
Proof.
  intros Hr Hta Htb Ha Hb. destruct (into_i129_run ta Hta a Ha) as [-> Hua], (into_i129_run tb Htb b Hb) as [-> Hub]. destruct div_u128 as (Hdu & Hdp & _). cbn [value negative]. split; [|done].
  rewrite signed_rational_run by done. by rewrite Z.abs_mul.
Qed.

Lemma quotient_run tr ta tb a b R : int_wf tr → int_wf ta → int_wf tb → in_range ta a → in_range tb b → b ≠ 0 →
  let neg := negb (Bool.eqb (negative (into_i129 ta a)) (negative (into_i129 tb b))) in
  Fixed.signed_rational tr (value (into_i129 ta a)) div (value (into_i129 tb b)) (from_signed R neg) neg =
  Some (checked tr (with_sign neg (rounded (from_signed R neg) (Z.abs (a * div)) (Z.abs b)))) ∧ neg = negb (Bool.eqb (a * div <? 0) (b <? 0)).
Proof.
  intros Hr Hta Htb Ha Hb Hne. destruct (into_i129_run ta Hta a Ha) as [-> Hua], (into_i129_run tb Htb b Hb) as [-> Hub]. destruct div_u128 as (Hdu & Hdp & _). cbn [value negative]. split.
  - rewrite signed_rational_run by (done || lia). by rewrite Z.abs_mul, (Z.abs_eq div) by lia.
  - do 2 f_equal. destruct (Z.ltb_spec a 0), (Z.ltb_spec (a * div) 0); done || nia.
Qed.

Lemma product_quot tr ta tb a b : int_wf tr → int_wf ta → int_wf tb → in_range ta a → in_range tb b →
  let neg := negb (Bool.eqb (negative (into_i129 ta a)) (negative (into_i129 tb b))) in
  Fixed.signed_rational tr (value (into_i129 ta a)) (value (into_i129 tb b)) div (from_signed Minor neg) neg = Some (checked tr ((a * b) `quot` div)).
Proof.
  intros Hr Hta Htb Ha Hb. destruct div_u128 as (_ & Hdp & _). cbv zeta. destruct (product_run tr ta tb a b Minor Hr Hta Htb Ha Hb) as [-> ->]. do 2 f_equal. rewrite <- (Z.abs_eq div) at 1 by lia. apply minor_quot; [lia|].
  intros Hne. rewrite <- product_sign by done. rewrite (proj2 (Z.ltb_ge div 0)) by lia. by destruct (_ <? 0).
Qed.

Lemma quotient_quot tr ta tb a b : int_wf tr → int_wf ta → int_wf tb → in_range ta a → in_range tb b → b ≠ 0 →
  let neg := negb (Bool.eqb (negative (into_i129 ta a)) (negative (into_i129 tb b))) in
  Fixed.signed_rational tr (value (into_i129 ta a)) div (value (into_i129 tb b)) (from_signed Minor neg) neg = Some (checked tr ((a * div) `quot` b)).
Proof. intros Hr Hta Htb Ha Hb Hne. cbv zeta. destruct (quotient_run tr ta tb a b Minor Hr Hta Htb Ha Hb Hne) as [-> Hs]. do 2 f_equal. by apply minor_quot. Qed.

(** C31. Products and quotients of fixed-point numbers are exact to the rounding, and there is none exactly when the result does not fit the type or the divisor is zero: the checked operations truncate towards zero, those with a rounding
    mode round the signed result as the mode says, whatever the signs of the operands. *)
Theorem fixed_mul_div_exact (a b : Z) : in_range t a → in_range t b →
  Fixed.checked_mul F a b = Some (checked t ((a * b) `quot` div)) ∧
  Fixed.checked_div F a b = Some (if b =? 0 then None else checked t ((a * div) `quot` b)) ∧
  ∀ r, (∃ v, Fixed.const_checked_mul_with_rounding F a b r = Some (checked t v) ∧ srounds r (a * b) div v) ∧
       (b ≠ 0 → ∃ v, Fixed.checked_rounding_div F a b r = Some (checked t v) ∧ srounds r (a * div * Z.sgn b) (Z.abs b) v).
Proof.
  intros Ha Hb. destruct div_u128 as (Hdu & Hdp & Ht & _). split; [by apply product_quot|]. split; [unfold Fixed.checked_div; destruct (Z.eqb_spec b 0); [done|by apply quotient_quot]|]. intros r. split.
  - eexists. unfold Fixed.const_checked_mul_with_rounding. cbv zeta. rewrite !const_into_i129_eq by done. destruct (into_i129_run t Ht a Ha) as [Hia Hua], (into_i129_run t Ht b Hb) as [Hib Hub].
    rewrite (const_signed_rational_eq t Ht F) by (rewrite ?Hia, ?Hib; cbn [value]; done). clear Hia Hib. destruct (product_run t t t a b r Ht Ht Ht Ha Hb) as [-> Hs]. split; [done|]. apply from_signed_rounds; [done|]. intros Hne. by rewrite product_sign.
  - intros Hne. eexists. unfold Fixed.checked_rounding_div. rewrite (proj2 (Z.eqb_neq b 0) Hne). cbv zeta. rewrite !const_into_i129_eq by done. destruct (into_i129_run t Ht a Ha) as [Hia Hua], (into_i129_run t Ht b Hb) as [Hib Hub].
    rewrite (const_signed_rational_eq t Ht F) by (rewrite ?Hia, ?Hib; cbn [value]; done). clear Hia Hib. destruct (quotient_run t t t a b r Ht Ht Ht Ha Hb Hne) as [-> Hs]. split; [done|]. rewrite Hs.
    replace (Z.abs (a * div)) with (Z.abs (a * div * Z.sgn b)) by (destruct (Z.sgn_spec b) as [[_ ->]|[[? _]|[_ ->]]]; lia). apply from_signed_rounds; [lia|].
    intros Hn0. destruct (Z.sgn_spec b) as [[Hp Hsg]|[[? _]|[Hp Hsg]]]; [|lia|]; rewrite Hsg in *.
    + rewrite Z.mul_1_r, (proj2 (Z.ltb_ge b 0)) by lia. by destruct (_ <? 0).
    + rewrite (proj2 (Z.ltb_lt b 0)) by lia. destruct (Z.ltb_spec (a * div) 0), (Z.ltb_spec (a * div * -1) 0); cbn; done || lia.
Qed.

(** ** With integers *)

Lemma checked_div_int_run tn a n : int_wf tn → in_range t a → in_range tn n → n ≠ 0 → Fixed.checked_div_int F tn a n = checked tn (a `quot` (n * div)).
Proof.
  intros Htn Ha Hn Hne. destruct div_u128 as (_ & Hdp & Ht & _). unfold Fixed.checked_div_int. destruct (into_i129_run t Ht a Ha) as [-> Hua], (into_i129_run tn Htn n Hn) as [-> Hun]. cbn [value negative].
  rewrite (proj2 (Z.eqb_neq (Z.abs n) 0)), (proj2 (Z.eqb_neq div 0)) by lia. cbn [mbind option_bind]. rewrite Z.div_div by lia. rewrite from_i129_run by (done || (apply Z.div_pos; lia)). f_equal.
  rewrite <- (Z.abs_eq div) at 1 by lia. rewrite <- Z.abs_mul. assert (Hnz : n * div ≠ 0) by nia. rewrite <- (minor_quot a (n * div) (negb (Bool.eqb (a <? 0) (n <? 0))) Hnz).
  - f_equal. unfold rounded. destruct (negb _); cbn [from_signed rounds_up]; lia.
  - intros _. do 2 f_equal. destruct (Z.ltb_spec n 0), (Z.ltb_spec (n * div) 0); done || nia.
Qed.

Lemma saturating_mul_run a b : in_range t a → in_range t b → Fixed.saturating_mul F a b = Some (clamp t ((a * b) `quot` div)).
Proof.
  intros Ha Hb. destruct div_u128 as (_ & Hdp & Ht & _). unfold Fixed.saturating_mul, Fixed.checked_mul. cbv zeta. rewrite product_quot by done. cbn [mbind option_bind]. f_equal. apply to_bound_run; [done|]. intros Hne.
  rewrite quot_sign by (done || lia). assert (a * b ≠ 0) by (intros H0; rewrite H0, Z.quot_0_l in Hne by lia; done). rewrite product_sign by done. rewrite (proj2 (Z.ltb_ge div 0)) by lia. by destruct (a <? 0), (b <? 0).
Qed.

Lemma saturating_from_integer_run tn n : int_wf tn → in_range tn n → Fixed.saturating_from_integer F tn n = clamp t (n * div).
Proof.
  intros Htn Hn. destruct div_u128 as (_ & Hdp & Ht & _). unfold Fixed.saturating_from_integer. destruct (into_i129_run tn Htn n Hn) as [-> Hun]. cbn [value negative]. destruct (int_bounds t Ht) as [Hmax Hmin].
  assert (Hs : with_sign (n <? 0) (Z.abs n * div) = n * div) by (unfold with_sign; destruct (Z.ltb_spec n 0); [rewrite Z.abs_neq by lia|rewrite Z.abs_eq by lia]; lia).
  assert (Hp : 0 <= Z.abs n * div) by (apply Z.mul_nonneg_nonneg; lia). rewrite from_i129_run by (done || (unfold saturating_mul, umax; lia)).
  assert (Hc : checked t (with_sign (n <? 0) (saturating_mul 128 (Z.abs n) div)) = checked t (n * div) ∨ checked t (with_sign (n <? 0) (saturating_mul 128 (Z.abs n) div)) = Some (int_max t) ∧ int_max t <= n * div).
  { unfold saturating_mul. destruct (Z.le_gt_cases (Z.abs n * div) (umax 128)); [left; by rewrite Z.min_l, Hs by lia|]. rewrite Z.min_r by lia. unfold umax, with_sign in *. destruct (Z.ltb_spec n 0).
    - left. rewrite !checked_out; [done|lia|lia].
    - destruct (Z.eq_dec (int_max t) (W - 1)) as [Heq|]; [right|left; rewrite !checked_out by lia; done]. rewrite checked_in by (unfold in_range; lia). split; [by rewrite Heq|lia]. }
  destruct Hc as [->|[-> Hle]]; [|unfold clamp; lia]. apply to_bound_run; [done|]. intros Hne. destruct (Z.ltb_spec (n * div) 0), (Z.ltb_spec n 0); cbn; done || nia.
Qed.

(** Integers enter and leave the fixed-point numbers exactly: the product with an integer and the quotients by one are truncated towards zero, the conversions from an integer and from a fraction are the nearest number towards zero,
    and a result that does not fit is the nearest bound of its type; a zero denominator is a panic. *)
Theorem fixed_int_exact (tn td : IntType) (a n d : Z) : int_wf tn → int_wf td → in_range t a → in_range tn n → in_range td d →
  Fixed.saturating_from_integer F tn n = clamp t (n * div) ∧
  Fixed.saturating_from_rational F tn td n d = (if d =? 0 then None else Some (clamp t ((n * div) `quot` d))) ∧
  Fixed.checked_mul_int F tn a n = Some (checked tn ((a * n) `quot` div)) ∧
  Fixed.saturating_mul_int F tn a n = Some (clamp tn ((a * n) `quot` div)) ∧
  Fixed.saturating_div_int F tn a n = (if n =? 0 then None else Some (clamp tn (a `quot` (n * div)))).
Proof.
  intros Htn Htd Ha Hn Hd. destruct div_u128 as (_ & Hdp & Ht & _). split; [by apply saturating_from_integer_run|]. split; [|split; [by apply product_quot|split]].
  - unfold Fixed.saturating_from_rational. destruct (Z.eqb_spec d 0) as [|Hd0]; [done|]. unfold Fixed.checked_from_rational. rewrite (proj2 (Z.eqb_neq d 0) Hd0). cbv zeta. rewrite quotient_quot by done. cbn [mbind option_bind]. f_equal.
    apply to_bound_run; [done|]. intros Hne. rewrite quot_sign by done. do 2 f_equal. destruct (Z.ltb_spec (n * div) 0), (Z.ltb_spec n 0); done || nia.
  - unfold Fixed.saturating_mul_int, Fixed.checked_mul_int. cbv zeta. rewrite product_quot by done. cbn [mbind option_bind]. f_equal. apply to_bound_run; [done|]. intros Hne.
    rewrite quot_sign by (done || lia). assert (a * n ≠ 0) by (intros H0; rewrite H0, Z.quot_0_l in Hne by lia; done). rewrite product_sign by done. rewrite (proj2 (Z.ltb_ge div 0)) by lia. by destruct (a <? 0), (n <? 0).
  - unfold Fixed.saturating_div_int. destruct (Z.eqb_spec n 0) as [|Hn0]; [done|]. rewrite checked_div_int_run by done. f_equal. apply to_bound_run; [done|]. intros Hne. rewrite quot_sign by (done || nia). do 2 f_equal.
    destruct (Z.ltb_spec (n * div) 0), (Z.ltb_spec n 0); done || nia.
Qed.
End Ops.

Lemma fixed_mul_div_witness : Fixed.checked_div FixedI128 (int_min (inner FixedI128)) (- 1) = Some None.
Proof.
  refine (eq_trans (proj1 (proj2 (fixed_mul_div_exact FixedI128 (Forall_lookup_1 _ _ 2%nat _ fixed_types_wf eq_refl) (int_min (inner FixedI128)) (- 1) _ _))) _); [unfold in_range; cbn; lia|unfold in_range; cbn; lia|]. done.
Defined.

Lemma fixed_int_witness : Fixed.saturating_mul_int FixedU64 (mkInt true 8) (3 * DIV FixedU64) (- 100) = Some (- 128).
Proof.
  refine (eq_trans (proj1 (proj2 (proj2 (proj2 (fixed_int_exact FixedU64 (Forall_lookup_1 _ _ 1%nat _ fixed_types_wf eq_refl) (mkInt true 8) (mkInt true 8) (3 * DIV FixedU64) (- 100) 1 _ _ _ _ _))))) _);
    try (unfold int_wf, in_range; cbn; lia). done.
Defined.

(** ** Integral parts *)

Section Parts.
Context (F : FixedType).
Hypothesis HF : fixed_wf F.

Abbreviation t := (inner F).
Abbreviation div := (DIV F).

(** Of a number that is not negative, and of one that is not positive. *)
Lemma quot_nonneg a : 0 <= a → a `quot` div * div <= a < a `quot` div * div + div ∧ 0 <= a `quot` div.
Proof. intros Ha. destruct (div_u128 F HF) as (_ & Hdp & _). rewrite Z.quot_div_nonneg by lia. pose proof (Z.div_mod a div ltac:(lia)). pose proof (Z.mod_pos_bound a div Hdp). pose proof (Z.div_pos a div Ha Hdp). lia. Qed.

Lemma quot_nonpos a : a <= 0 → a <= a `quot` div * div < a + div ∧ a `quot` div <= 0.
Proof. intros Ha. destruct (quot_nonneg (- a)) as [H1 H2]; [lia|]. destruct (div_u128 F HF) as (_ & Hdp & _). rewrite Z.quot_opp_l in * by lia. lia. Qed.

Lemma rem_bounds a : (0 <= a → 0 <= a `rem` div < div) ∧ (a <= 0 → - div < a `rem` div <= 0).
Proof. pose proof (Z.quot_rem' a div) as Hqr. split; intros Ha; [destruct (quot_nonneg a Ha)|destruct (quot_nonpos a Ha)]; lia. Qed.

Lemma trunc_run a : in_range t a → Fixed.trunc F a = Some (a `quot` div * div).
Proof.
  intros Ha. destruct (div_u128 F HF) as (_ & Hdp & Ht & _). unfold Fixed.trunc. rewrite (proj2 (Z.eqb_neq div 0)) by lia. apply checked_in; unfold in_range in *. destruct (int_bounds t Ht) as [Hmax Hmin].
  destruct (Z.le_gt_cases 0 a); [destruct (quot_nonneg a ltac:(lia)) as [? Hq]; pose proof (Z.mul_nonneg_nonneg _ div Hq ltac:(lia)); lia|destruct (quot_nonpos a ltac:(lia)) as [? Hq]; pose proof (Z.mul_nonpos_nonneg _ div Hq ltac:(lia)); lia].
Qed.

Lemma frac_run a : in_range t a → Fixed.frac F a = Some (if a `quot` div =? 0 then a else Z.abs (a `rem` div)).
Proof.
  intros Ha. destruct (div_u128 F HF) as (_ & Hdp & Ht & Hdr). unfold Fixed.frac. rewrite trunc_run by done. cbn [mbind option_bind]. f_equal. destruct (int_bounds t Ht) as [Hmax Hmin]. pose proof (Z.quot_rem' a div) as Hqr. unfold in_range in *.
  destruct (rem_bounds a) as [Hrp Hrn]. assert (Hrem : a - a `quot` div * div = a `rem` div) by lia. assert (Hrr : in_range t (a `rem` div)) by (unfold in_range; destruct (Z.le_gt_cases 0 a); lia).
  unfold Fixed.saturating_sub. rewrite Hrem, clamp_in by done. destruct (Z.eqb_spec (a `quot` div) 0) as [H0|H0]; [rewrite H0, Z.mul_0_l in *; cbn [Z.eqb]; lia|].
  rewrite (proj2 (Z.eqb_neq (a `quot` div * div) 0)) by nia. unfold Fixed.saturating_abs. destruct (Z.leb_spec 0 (a `rem` div)); [lia|]. rewrite checked_in; [lia|]. unfold in_range in *. destruct (Z.le_gt_cases 0 a); lia.
Qed.

(** One more, or one less, truncated: the next integer, or the last one when there is no next. *)
Lemma trunc_up a : in_range t a → 0 <= a → Fixed.trunc F (Fixed.saturating_add F a (Fixed.one F)) = Some (if (a `quot` div + 1) * div <=? int_max t then (a `quot` div + 1) * div else a `quot` div * div).
Proof.
  intros Ha H0. destruct (div_u128 F HF) as (_ & Hdp & Ht & Hdr). destruct (int_bounds t Ht) as [Hmax Hmin]. destruct (quot_nonneg a H0) as [Hq Hq0]. unfold Fixed.saturating_add, Fixed.one, clamp, in_range in *.
  rewrite Z.max_l by lia. set (q := a `quot` div) in *. rewrite trunc_run by (unfold in_range; lia). f_equal. rewrite Z.quot_div_nonneg by lia. destruct (Z.leb_spec ((q + 1) * div) (int_max t)); do 2 f_equal.
  - symmetry. apply (Z.div_unique _ _ _ ((a + div) `min` int_max t - (q + 1) * div)); lia.
  - rewrite Z.min_r by lia. symmetry. apply (Z.div_unique _ _ _ (int_max t - q * div)); lia.
Qed.

Lemma trunc_down a : in_range t a → a <= 0 → Fixed.trunc F (Fixed.saturating_sub F a (Fixed.one F)) = Some (if int_min t <=? (a `quot` div - 1) * div then (a `quot` div - 1) * div else a `quot` div * div).
Proof.
  intros Ha H0. destruct (div_u128 F HF) as (_ & Hdp & Ht & Hdr). destruct (int_bounds t Ht) as [Hmax Hmin]. destruct (quot_nonpos a H0) as [Hq Hq0]. unfold Fixed.saturating_sub, Fixed.one, clamp, in_range in *.
  rewrite Z.min_l by lia. set (q := a `quot` div) in *. rewrite trunc_run by (unfold in_range; lia). f_equal. replace ((a - div) `max` int_min t) with (- ((- a + div) `min` (- int_min t))) by lia. rewrite Z.quot_opp_l by lia. rewrite Z.quot_div_nonneg by lia.
  destruct (Z.leb_spec (int_min t) ((q - 1) * div)).
  - replace (((- a + div) `min` (- int_min t)) / div) with (1 - q); [lia|]. apply (Z.div_unique _ _ _ ((- a + div) `min` (- int_min t) - (1 - q) * div)); lia.
  - rewrite Z.min_r by lia. replace (- int_min t / div) with (- q); [lia|]. apply (Z.div_unique _ _ _ (- int_min t + q * div)); lia.
Qed.

(** Whether the fraction is at least a half, as [round] compares it. *)
Lemma half_run f : - div < f < div → in_range t f →
  (n ← Fixed.saturating_mul F f (Fixed.saturating_from_integer F (mkInt true 32) 10); Some (n <? Fixed.saturating_from_integer F (mkInt true 32) 5)) = Some (2 * f <? div).
Proof.
  intros Hf Hr. destruct (HF) as (_ & _ & H10). destruct (div_u128 F HF) as (_ & Hdp & Ht & Hdr). destruct (int_bounds t Ht) as [Hmax Hmin]. rewrite !saturating_from_integer_run by (done || (unfold int_wf, in_range; cbn; lia)).
  rewrite !clamp_in by (unfold in_range; lia). rewrite saturating_mul_run by (done || (unfold in_range; lia)). cbn [mbind option_bind]. replace (f * (10 * div)) with (10 * f * div) by ring. rewrite Z.quot_mul by lia.
  rewrite clamp_in by (unfold in_range in *; lia). f_equal. destruct (Z.ltb_spec (10 * f) (5 * div)), (Z.ltb_spec (2 * f) div); done || lia.
Qed.

Lemma round_run a : in_range t a → Fixed.round F a = Some (
  let f := if a `quot` div =? 0 then a else Z.abs (a `rem` div) in
  if 2 * f <? div then a `quot` div * div
  else if 0 <? a then if (a `quot` div + 1) * div <=? int_max t then (a `quot` div + 1) * div else a `quot` div * div
  else if int_min t <=? (a `quot` div - 1) * div then (a `quot` div - 1) * div else a `quot` div * div).
Proof.
  intros Ha. destruct (div_u128 F HF) as (_ & Hdp & Ht & Hdr). destruct (int_bounds t Ht) as [Hmax Hmin]. unfold Fixed.round. rewrite frac_run by done. cbn [mbind option_bind]. cbv zeta. set (f := if a `quot` div =? 0 then a else Z.abs (a `rem` div)).
  pose proof (Z.rem_bound_abs a div ltac:(lia)) as Hb. pose proof (Z.quot_rem' a div) as Hqr. assert (Hf : - div < f < div) by (unfold f; destruct (Z.eqb_spec (a `quot` div) 0) as [H0|]; [rewrite H0 in Hqr; lia|lia]).
  assert (Hfr : in_range t f) by (unfold f; destruct (_ =? 0); [done|unfold in_range in *; lia]). pose proof (half_run f Hf Hfr) as Hh. destruct (Fixed.saturating_mul F f _) as [n|]; [|done]. cbn [mbind option_bind] in *. injection Hh as ->.
  destruct (2 * f <? div); [by apply trunc_run|]. unfold Fixed.is_positive. destruct (Z.ltb_spec 0 a); [apply trunc_up; [done|lia]|by apply trunc_down].
Qed.

Lemma quot_of_int a : a mod div = 0 → a `quot` div = a / div.
Proof. intros H0. destruct (div_u128 F HF) as (_ & Hdp & _). pose proof (Z.div_mod a div ltac:(lia)) as Hdm. rewrite H0, Z.add_0_r in Hdm. rewrite Hdm at 1. rewrite Z.mul_comm. apply Z.quot_mul. lia. Qed.

Lemma quot_of_neg a : a < 0 → a mod div ≠ 0 → a `quot` div = a / div + 1.
Proof.
  intros Ha Hm. destruct (div_u128 F HF) as (_ & Hdp & _). destruct (quot_nonpos a ltac:(lia)) as [Hq _]. assert (a ≠ a `quot` div * div) by (intros He; apply Hm; rewrite He; apply Z.mod_mul; lia).
  enough (a `quot` div - 1 = a / div) by lia. apply (Z.div_unique _ _ _ (a - (a `quot` div - 1) * div)); lia.
Qed.

Lemma ceil_run a : in_range t a → Fixed.ceil F a = Some (let c := - (- a / div) * div in if c <=? int_max t then c else c - div).
Proof.
  intros Ha. destruct (div_u128 F HF) as (_ & Hdp & Ht & Hdr). destruct (int_bounds t Ht) as [Hmax Hmin]. unfold Fixed.ceil, Fixed.is_negative. cbv zeta. destruct (Z.ltb_spec a 0) as [Hlt|Hge].
  - rewrite trunc_run by done. rewrite <- Z.quot_div_nonneg by lia. rewrite Z.quot_opp_l, Z.opp_involutive by lia. destruct (quot_nonpos a ltac:(lia)) as [_ Hq]. pose proof (Z.mul_nonpos_nonneg _ div Hq ltac:(lia)). by rewrite (proj2 (Z.leb_le _ _)) by lia.
  - rewrite frac_run by done. cbn [mbind option_bind]. pose proof (Z.quot_rem' a div) as Hqr. destruct (rem_bounds a) as [Hrp _]. specialize (Hrp Hge). set (q := a `quot` div) in *. set (r := a `rem` div) in *.
    replace (if q =? 0 then a else Z.abs r) with r by (destruct (Z.eqb_spec q 0) as [H0|]; [rewrite H0 in Hqr; lia|lia]). destruct (Z.eqb_spec r 0) as [H0|H0].
    + replace (- a / div) with (- q) by (apply (Z.div_unique _ _ _ 0); lia). rewrite (proj2 (Z.leb_le _ _)) by (unfold in_range in Ha; lia). f_equal. lia.
    + rewrite trunc_up by done. fold q. replace (- a / div) with (- (q + 1)) by (apply (Z.div_unique _ _ _ (div - r)); lia). rewrite Z.opp_involutive. destruct (_ <=? _); f_equal. lia.
Qed.

Lemma round_near a : in_range t a → let near := Z.sgn a * ((2 * Z.abs a + div) / (2 * div)) * div in in_range t near → a <= - div ∨ - div < 2 * a → Fixed.round F a = Some near.
Proof.
  intros Ha near Hn Hside. destruct (div_u128 F HF) as (_ & Hdp & _). rewrite round_run by done. cbv zeta. f_equal. pose proof (Z.quot_rem' a div) as Hqr. destruct (rem_bounds a) as [Hrp Hrn]. unfold near, in_range in *. clear near.
  set (q := a `quot` div) in *. set (r := a `rem` div) in *. assert (Hk : ∀ k, 2 * div * k <= 2 * Z.abs a + div < 2 * div * (k + 1) → (2 * Z.abs a + div) / (2 * div) = k) by (intros k Hk; symmetry; apply (Z.div_unique _ _ _ (2 * Z.abs a + div - 2 * div * k)); lia).
  destruct (Z.lt_trichotomy a 0) as [Hlt|[H0|Hgt]].
  - rewrite (Z.sgn_neg a) in * by lia. destruct (Z.eqb_spec q 0) as [Hq0|Hq0].
    + rewrite (Hk 0) by (rewrite Hq0 in Hqr; lia). rewrite (proj2 (Z.ltb_lt _ _)) by (rewrite Hq0 in Hqr; lia). rewrite Hq0. lia.
    + rewrite (Z.abs_neq r) by lia. destruct (Z.ltb_spec (2 * - r) div); [rewrite (Hk (- q)) by lia; lia|]. rewrite (proj2 (Z.ltb_ge 0 a)) by lia. rewrite (Hk (1 - q)) in * by lia. rewrite (proj2 (Z.leb_le _ _)) by lia. lia.
  - assert (Hq : q = 0) by (unfold q; rewrite H0; apply Z.quot_0_l; lia). rewrite Hq, H0. cbn [Z.eqb Z.sgn]. rewrite (proj2 (Z.ltb_lt _ _)) by lia. lia.
  - rewrite (Z.sgn_pos a) in * by lia. replace (if q =? 0 then a else Z.abs r) with r by (destruct (Z.eqb_spec q 0) as [Hq0|]; [rewrite Hq0 in Hqr; lia|lia]).
    destruct (Z.ltb_spec (2 * r) div); [rewrite (Hk q) by lia; lia|]. rewrite (proj2 (Z.ltb_lt 0 a)) by lia. rewrite (Hk (q + 1)) in * by lia. rewrite (proj2 (Z.leb_le _ _)) by lia. lia.
Qed.

(** C32. The integral parts of a fixed-point number.  The truncation and the ceiling are right, where the ceiling is the last integer below when the next one does not fit.  [floor] is right on numbers that are not negative and, when the
    result fits, on negative numbers with a fraction, but one too low on negative integers.  [round], which takes halves away from zero, is right when its result fits, but zero for the numbers above minus one and up to minus a half. *)
Theorem fixed_integral_parts (a : Z) : in_range t a →
  Fixed.trunc F a = Some (a `quot` div * div) ∧
  Fixed.ceil F a = Some (let c := - (- a / div) * div in if c <=? int_max t then c else c - div) ∧
  (0 <= a → Fixed.floor F a = Some (a / div * div)) ∧
  (a < 0 → a mod div ≠ 0 → int_min t <= a / div * div → Fixed.floor F a = Some (a / div * div)) ∧
  (a < 0 → a mod div = 0 → int_min t <= a - div → Fixed.floor F a = Some (a - div)) ∧
  (let near := Z.sgn a * ((2 * Z.abs a + div) / (2 * div)) * div in in_range t near → a <= - div ∨ - div < 2 * a → Fixed.round F a = Some near) ∧
  (- div < a → 2 * a <= - div → Fixed.round F a = Some 0).
Proof.
  intros Ha. destruct (div_u128 F HF) as (_ & Hdp & Ht & Hdr). destruct (int_bounds t Ht) as [Hmax Hmin]. pose proof (Z.div_mod a div ltac:(lia)) as Hdm. pose proof (Z.mod_pos_bound a div Hdp) as Hm. split; [by apply trunc_run|].
  split; [|split; [|split; [|split; [|split]]]].
  - by apply ceil_run.
  - intros H0. unfold Fixed.floor, Fixed.is_negative. rewrite (proj2 (Z.ltb_ge a 0)) by lia. rewrite trunc_run by done. by rewrite Z.quot_div_nonneg by lia.
  - intros H0 Hfr Hmn. unfold Fixed.floor, Fixed.is_negative. rewrite (proj2 (Z.ltb_lt a 0)) by lia. rewrite trunc_down by (done || lia). assert (Hq : a `quot` div = a / div + 1) by (apply quot_of_neg; done). rewrite Hq. replace (a / div + 1 - 1) with (a / div) by lia. by rewrite (proj2 (Z.leb_le _ _)).
  - intros H0 Hfr Hmn. unfold Fixed.floor, Fixed.is_negative. rewrite (proj2 (Z.ltb_lt a 0)) by lia. rewrite trunc_down by (done || lia). assert (Hq : a `quot` div = a / div) by (apply quot_of_int; done). rewrite Hq. rewrite (proj2 (Z.leb_le _ _)) by lia. f_equal. lia.
  - intros near Hn Hside. by apply round_near.
  - intros H1 H2. rewrite round_run by done. cbv zeta. assert (H0 : a `quot` div = 0) by (destruct (quot_nonpos a ltac:(lia)) as [Hq1 Hq2]; nia). rewrite H0. cbn [Z.eqb]. by rewrite (proj2 (Z.ltb_lt _ _)) by lia.
Qed.
End Parts.

Lemma fixed_integral_parts_witness : Fixed.floor FixedI128 (- (3 * DIV FixedI128)) = Some (- (4 * DIV FixedI128)).
Proof.
  refine (eq_trans (proj1 (proj2 (proj2 (proj2 (proj2 (fixed_integral_parts FixedI128 (Forall_lookup_1 _ _ 2%nat _ fixed_types_wf eq_refl) (- (3 * DIV FixedI128)) _))))) _ _ _) _); [unfold in_range; cbn; lia|cbn; lia|done|cbn; lia|done].
Defined.

(** ** Where the names mislead *)

(** Minus three fifths is rounded to zero; [is_one] is about the numerator; an exponent of 2 ^ 32 is cast to zero; [checked_div] truncates where [const_checked_div] takes the nearest number. *)
Example fixed_surprises :
  Fixed.round FixedI64 (-600000000) = Some 0 ∧ Fixed.is_one (Fixed.one FixedU128) = false ∧ Fixed.saturating_pow FixedU64 (2 * DIV FixedU64) (2 ^ 32) = Some (Fixed.one FixedU64) ∧
  Fixed.checked_div FixedI64 2 (3 * DIV FixedI64) = Some (Some 0) ∧ Fixed.checked_rounding_div FixedI64 2 (3 * DIV FixedI64) NearestPrefLow = Some (Some 1).
Proof. vm_compute. repeat split. Qed.

(** ** Square root and conversion *)

Section Roots.
Context (F : FixedType).
Hypothesis HF : fixed_wf F.

Abbreviation t := (inner F).
Abbreviation div := (DIV F).

(** The square root is that of the numerator times the denominator when their product fits into 128 bits, and a product of two square roots, which is not above it, otherwise. *)
Lemma try_sqrt_run a : in_range t a →
  Fixed.try_sqrt F a = Some (if a <? 0 then None else Some (if a * div <=? umax 128 then Z.sqrt (a * div) else Z.sqrt a * Z.sqrt div)) ∧
  (0 <= a → Z.sqrt a * Z.sqrt div <= Z.sqrt (a * div) <= int_max t).
Proof.
  intros Ha. destruct (HF) as (_ & _ & H10). destruct (div_u128 F HF) as (Hdu & Hdp & Ht & Hdr). destruct (int_bounds t Ht) as [Hmax Hmin]. unfold in_range in *. assert (Hbound : 0 <= a → Z.sqrt a * Z.sqrt div <= Z.sqrt (a * div) <= int_max t).
  { intros H0. split; [apply Z.sqrt_mul_below|]. apply Z.lt_succ_r, Z.sqrt_lt_square; [apply Z.mul_nonneg_nonneg; lia|lia|]. assert (a * div <= int_max t * int_max t) by (apply Z.mul_le_mono_nonneg; lia). unfold Z.succ. lia. }
  split; [|done]. unfold Fixed.try_sqrt. destruct (Z.eqb_spec a 0) as [->|Hne]; [done|]. destruct (Z.ltb_spec a 1) as [Hlt|Hge]; [by rewrite (proj2 (Z.ltb_lt _ _)) by lia|]. rewrite (proj2 (Z.ltb_ge _ _)) by lia. specialize (Hbound ltac:(lia)).
  assert (Hau : is_u128 a) by (unfold is_u, umax; lia). pose proof (Z.sqrt_nonneg a). pose proof (Z.sqrt_nonneg div). pose proof (Z.mul_nonneg_nonneg (Z.sqrt a) (Z.sqrt div) ltac:(lia) ltac:(lia)). destruct (Z.leb_spec (a * div) (umax 128)).
  - rewrite sqrt_run by (split; [apply Z.mul_nonneg_nonneg; lia|done]). cbn [mbind option_bind]. rewrite cast_id; [done|done|]. pose proof (Z.sqrt_nonneg (a * div)). lia.
  - rewrite !sqrt_run by done. cbn [mbind option_bind]. rewrite wrap_id by (unfold umax; lia). rewrite cast_id; [done|done|]. lia.
Qed.

(** Into parts per billion, rounded to the nearest. *)
Lemma into_perbill_run a : in_range t a → ∃ v, Fixed.into_perbill F a = Some v ∧ valid Perbill v ∧ (0 <= a <= div → rounds NearestPrefDown (a * 1000000000) div v) ∧ (a < 0 → v = 0) ∧ (div < a → v = 1000000000).
Proof.
  intros Ha. destruct (div_u128 F HF) as (Hdu & Hdp & Ht & Hdr). destruct (int_bounds t Ht) as [Hmax Hmin]. unfold in_range in *. unfold Fixed.into_perbill. destruct (Z.leb_spec a 0) as [Hle|Hgt].
  { exists 0. split; [done|]. split; [unfold valid; cbn; lia|]. split; [intros; assert (a = 0) as -> by lia; cbn; lia|]. split; [done|lia]. }
  destruct (Z.leb_spec div a) as [Hle1|Hlt]; [exists 1000000000; split; [done|]; split; [unfold valid; cbn; lia|]; split; [intros; assert (a = div) as -> by lia; cbn; lia|]; split; [lia|done]|].
  rewrite mulrat_run by (unfold is_u, umax in *; lia). rewrite (proj2 (Z.eqb_neq div 0)) by lia. cbv zeta. fold (rounded NearestPrefDown (a * 1000000000) div). cbn [mbind option_bind].
  assert (Hv : 0 <= rounded NearestPrefDown (a * 1000000000) div <= 1000000000) by (split; [apply rounded_nonneg; lia|apply rounded_le; lia]). rewrite (proj2 (Z.ltb_lt _ W)) by lia. rewrite (proj2 (Z.ltb_ge (umax 32) _)) by (unfold umax; lia).
  eexists. split; [done|]. unfold from_parts. cbn [accuracy Perbill]. rewrite Z.min_l by lia. split; [unfold valid; cbn [accuracy Perbill]; lia|]. split; [intros _; by apply rounded_rounds|]. lia.
Qed.
End Roots.
